(* ===== verification/_CoqProject ===== *)
-Q . S2P
Prelude.v
Text.v
Excerpt.v
Chars.v
Bytes.v
Order.v
Store.v
Receipt.v
ReceiptStore.v
Table.v
DeltaStore.v
Paths.v
StdPath.v
ImportResolution.v
Discovery.v
IndexDb.v
Publication.v
PathIndex.v
IndexModel.v
ProjectionRepair.v
Preparation.v
Indexer.v
IndexerFacts.v
FullIndex.v
Quiescent.v
Incremental.v
IncrementalFacts.v
IncrementalIndex.v
QueryReceipts.v
Scheduler.v
Watcher.v
Cursor.v
RegexPlan.v
RegexScan.v
Reconcile.v
CrashFs.v
SetupTransaction.v
SetupAtomic.v
SetupCrash.v
SetupWhole.v
SetupSafety.v
Fifo.v
DeltaRegistry.v
Float64.v
Hierarchy.v
Utf8.v
Latex.v
LatexFacts.v
LatexSections.v
LatexTotal.v
GitDiff.v
GitFormat.v
GitParse.v
GitObjects.v
GitBlobs.v
Candidates.v
Evidence.v
Selection.v
Json.v
JsonFacts.v
JsonProjections.v
JsonKeys.v
JsonPaging.v
JsonSchema.v
JsonLevels.v
JsonArena.v
JsonBuild.v
JsonSchemaCorrect.v
JsonSchemaPage.v
Accounting.v
AccountingFacts.v
