(* ===== verification/Prelude.v ===== *)
(** * LeanToken: a verification development

    LeanToken keeps an index of a repository in SQLite and answers questions about
    it (search, reads, outlines, contexts packed under a token budget) in as few
    tokens as it can, remembering what a caller has already seen.  This library
    models the parts of [src/src/] that decide what is indexed, what is found and
    what is answered, and proves them correct.  Each component is a file (or a few);
    its definitions carry the names of the source, and are executable.

    ** How the program works, and which file models it

    - _Text_.  Files are read as bytes, classified, split into chunks and cut into
      excerpts: [text.rs].  [Text] has the binary test, line maps and chunker,
      [Excerpt] the windows, excerpts and identifier terms.  [Utf8] has lemmas on
      the parts of valid texts.
    - _Paths and scope_.  [repository/path.rs], [repository/scope.rs] and the
      visibility policy are [Paths]; the standard library's path functions are
      [StdPath]; the walk with its limits, [repository/discovery.rs], is [Discovery].
    - _Parsing_.  [parser/latex.rs] is [Latex]; parents and enclosing symbols,
      [parser/hierarchy.rs], are [Hierarchy].  [LatexFacts], [LatexSections] and
      [LatexTotal] hold their proofs.
    - _The index_.  Its tables with the statements that change them are [IndexDb]
      ([storage/schema.rs], [writer.rs], [projections.rs]); the staged records and
      the publication transaction are [Publication] ([storage/staging.rs],
      [publication.rs]).  [PathIndex] treats the path projection, [IndexModel] the
      map the database stands for, [ProjectionRepair] the repair of resolved imports.
    - _Indexing_.  [ImportResolution] derives the candidates of an import
      ([indexer/import_resolution.rs]); [Preparation] turns a file into rows
      ([indexer/prepare.rs], [preparation.rs]); [Indexer] and [Incremental] plan and
      publish a full reconciliation and one of reported paths
      ([indexer/orchestrator.rs], [incremental.rs]).  [IndexerFacts],
      [IncrementalFacts], [FullIndex], [Quiescent] and [IncrementalIndex] hold the
      proofs, through all the components above.
    - _Keeping the index fresh_.  [Scheduler] and [Watcher] are [watcher/] and the
      loop of [main/index_runtime.rs]; [Reconcile] is the coordinator of concurrent
      reconciliations, [services/reconciliation.rs].
    - _Search_.  [RegexPlan] plans the index query of a regex or literal and
      [RegexScan] scans ([services/search/regex_plan.rs], [symbol_identity.rs],
      [storage/scoped_regex.rs]).
    - _Ranking_.  [Candidates] scores, ranks and removes duplicates, [Evidence]
      classifies paths, [Selection] packs the budget and reports coverage
      ([ranking/]); [Float64] is the arithmetic of scores.
    - _What a caller has seen_.  [Receipt] and [ReceiptStore] are retrieval receipts
      ([receipt.rs], [storage/receipts.rs]); [QueryReceipts] are receipts of
      exhaustive searches; [DeltaStore], [Fifo] and [DeltaRegistry] answer a repeated
      read with a difference ([storage/read_delta.rs], [services/read_delta.rs]);
      [Cursor] is the continuation of a paged answer ([services/cursor.rs],
      [services/read/cursor.rs]).
    - _Git_.  [GitDiff] parses what [git diff] and [git status] print
      ([repository/git/diff.rs], [status.rs]); [GitObjects] loads the files of a
      revision ([repository/git/objects.rs]).  [GitFormat] is the printer Git
      documents; [GitParse] and [GitBlobs] hold the proofs.
    - _JSON_.  [Json] has the projections of a JSON query under an item budget,
      [JsonKeys] the pages of its keys and [JsonSchema] the breadth-first schemas
      ([services/json/]).  [JsonFacts], [JsonProjections], [JsonPaging],
      [JsonLevels], [JsonArena], [JsonBuild], [JsonSchemaCorrect] and
      [JsonSchemaPage] hold the proofs.
    - _Response accounting_.  [Accounting] counts the tokens of a response and
      enforces the ceiling of a call ([services/accounting.rs], [tokens.rs]);
      [AccountingFacts] has the proofs.
    - _Setup_.  [SetupTransaction] is the journalled change of the configuration
      files of several clients ([setup/transaction.rs], [setup/apply.rs]) over the
      failing disk of [CrashFs]; [SetupAtomic], [SetupCrash], [SetupWhole] and
      [SetupSafety] hold the proofs.

    [Prelude] has the shared lemmas, the hint database [leantoken] and the tactics;
    [Chars], [Bytes] and [Order] strings, framed byte streams, sorting and searching;
    [Store] and [Table] what the bounded tables of SQLite share.

    ** How state and effects are modelled

    - A SQLite table is a [gmap] or a list of rows in a record with the counters that
      its triggers keep; a statement is a function, a transaction returns either the
      new database or the old one with an error.  Components that share a shape share
      its proofs by a class: [QuotaStore] (evict until a quota holds), [TableRow] (a
      table with a usage row), [Cached] (a bounded queue), [Codec] (a field of a
      cursor), [TotalPreorder] and [KeyOrder] (what is sorted).
    - A panic (an index out of range, a slice inside a character, an overflow that the
      release profile would not wrap) and the end of the fuel are the outcomes [Panic] and [NoFuel] of
      the monad [run]; an error is [Err] of [result].  Theorems say that neither
      [Panic] nor [NoFuel] occurs where they apply.
    - Integers are [Z] with the saturation, wrap-around or range check of the source
      where their width matters, and [nat] where the length of a string in memory
      bounds them.  A score is an IEEE double.
    - What other threads or processes do between two atomic steps is an argument, or
      a step relation: [Watcher], [Reconcile] and [DeltaRegistry] interleave actors
      in any order; [Indexer] and [Incremental] are given the database and the disk
      of each phase.
    - [CrashFs] gives programs as trees of system calls, each of which may fail, be
      interrupted by a kill, or by a loss of power after which every change of a name that
      was not synchronised may be there or not.

    ** What the theorems show

    - _The index is the disk._  [FullIndex.full_reconciliation_indexes_disk],
      [IncrementalIndex.reported_paths_are_indexed],
      [Quiescent.unchanged_repository_publishes_nothing]: from any state that other
      processes can leave, a reconciliation ends with the rows that the bytes on the
      disk stand for, or with an error and the database it found.  Files that cannot be
      read are the exception, which the theorems state.  They rest on
      [Publication.publish_reconciliation_correct] (all or nothing, only over the
      planned state), [IndexModel.publication_refines_map] (the database refines a
      map), [ProjectionRepair.repair_import_projections_correct],
      [PathIndex.path_entries_exact] and [Discovery.discovery_complete_or_error].
    - _No change is lost, no waiter forgotten._  [Watcher.watcher_loses_no_change],
      [Reconcile.reconcile_fresh], [Reconcile.reconcile_progress], in every interleaving;
      the first names the events that the watcher drops.
    - _Search is complete._  [RegexPlan.regex_plan_keeps_matches] and
      [RegexScan.regex_hits_complete]: the planned scan finds what the full scan
      finds.  [Paths.scope_walk_complete] says which directories above a file in
      scope the walk prunes.
    - _Parsing is total and exact._  [Text.chunk_text_covers],
      [Text.chunk_text_bounds], [LatexTotal.latex_parse_total],
      [LatexTotal.latex_output_in_source], [LatexTotal.latex_sections_extend],
      [Hierarchy.symbol_parents_innermost],
      [Hierarchy.reference_enclosing_narrowest],
      [ImportResolution.import_candidates_bounded],
      [ImportResolution.rust_candidates_exact],
      [Paths.normalize_repository_value_canonical].
    - _What Git says is understood._  [GitParse.diff_hunks_read_back],
      [GitParse.status_read_back], [GitBlobs.blobs_account_for_every_path]: the first says
      which names a diff gives exactly, the last when a listing is too long.
    - _Contexts fit their budget and say what is missing._
      [Candidates.deduplicate_keeps_evidence], [Selection.greedy_select_packs],
      [Selection.select_candidates_packs], [Selection.coverage_receipt_honest].
    - _What is withheld was seen._  The store of receipts keeps its invariant, is copy
      on write, succeeds on sound input and reads back ([ReceiptStore.evaluate_receipt_preserves],
      [evaluate_receipt_copy_on_write], [evaluate_receipt_succeeds], [evaluated_receipt_reads_back]); a reused query receipt counts what a scan
      would ([QueryReceipts.reuse_query_receipt_sound],
      [QueryReceipts.persist_query_receipt_correct]); a delta is the difference to
      what the caller holds ([DeltaRegistry.read_delta_sound],
      [DeltaStore.persist_read_delta_base_correct]); a continuation is accepted only
      where it was issued ([Cursor.continuation_cursor_canonical]).
    - _JSON is shown whole or said to be cut._  [JsonProjections.project_json_exact],
      [JsonProjections.key_entries_exact], [JsonPaging.key_pages_cover] (following
      the cursors reads every key), [JsonSchemaCorrect.schema_breadth_first] (arena
      and queue against a recursive definition), [JsonSchemaPage.schema_page_fits].
    - _A response fits its ceiling_, the numbers it reports of itself included:
      [AccountingFacts.response_within_ceiling].
    - _Setup is all or nothing_ across kills and losses of power, with every file whole
      whatever fails: [SetupSafety.setup_is_atomic], [SetupSafety.recovery_completes],
      [SetupSafety.changed_file_stops_plan].

    ** Bounds and fuel

    The constants (quotas, limits, page sizes) are those of the source.  A loop that
    is not structural has a fuel, and the theorem about it supplies enough or asks for
    it: the chunker two rounds per line ([Text.chunk_fuel]), a long line and the loops
    of the LaTeX parser one more than the bytes left, the eviction loops one more
    than the rows, the pages of a scan one more than the rows of the snapshot
    ([RegexScan.page_fuel]), the pages of the repair and of the existing files one
    more than the rows of the database, a batch loop the number of candidates, a
    binary search the length, the queue of a schema the nodes of the value.  The passes
    of the accounting are the 64 of the source.  Each round makes progress in that measure, so the
    fuel never decides a result.

    ** Parameters and the laws assumed of them

    Code outside of [src/] is an argument: BLAKE3 (injective only where a theorem
    compares two digests, and then often only on the two values compared), the
    Unicode tables, base64 (class [Base64]), globset ([GlobSubtree] where the code
    relies on it), the regex engine, the literal extractor and FTS5 ([RegexEngine],
    [LiteralEngine], [TrigramFts]), the tokenizer, the tree-sitter parsers
    ([ParserLaws]), the diff, serde, serde_json and rmcp.  Every theorem with such a law has a witness in
    which concrete functions satisfy it.

    ** What is not modelled

    The parts that only call the operating system or a library: opening and migrating
    the database, the git subprocess, advisory locks, the tree-sitter grammars with their
    extraction rules, the MCP and command-line adapters, the edits of JSON and TOML
    configuration texts, upgrades, the inspection of caches on disk; the queries
    whose content is SQL text; the selection (JMESPath) and the response assembly of the
    JSON tools; history, hand-off and the context pipeline, which gather data for the
    components above.  Faults of SQLite itself,
    allocation failures, and the timing of threads beyond their interleaving are not
    modelled.  Benchmarks, examples, test suites and packaging are not part of the
    program. *)

From stdpp Require Export base list strings gmap sorting.
From Stdlib Require Export ZArith Lia.
From Stdlib Require Strings.Byte.

#[global] Set Default Goal Selector "!".

Create HintDb leantoken.

(** ** Outcomes of code that can panic

    [Done] is a returned value, [Panic] an assertion, slice or index panic of
    the source, and [NoFuel] exists only in the model: it says that the fuel
    given to a loop ran out.  Every loop has a theorem that its fuel suffices. *)
Inductive run (A : Type) : Type :=
| Done (a : A)
| Panic
| NoFuel.
Arguments Done {A} _.
Arguments Panic {A}.
Arguments NoFuel {A}.

Definition run_bind {A B} (m : run A) (k : A -> run B) : run B :=
  match m with
  | Done a => k a
  | Panic => Panic
  | NoFuel => NoFuel
  end.

Declare Scope run_scope.
Delimit Scope run_scope with run.
Notation "'let?' x ':=' m 'in' k" := (run_bind m (fun x => k))
  (at level 10, x pattern, m at level 100, k at level 200) : run_scope.

(** ** Machine integers

    A [usize] or [u64] is a [Z] in [0, U64_MAX] and an [i64] a [Z] in
    [I64_MIN, I64_MAX]; the wrap-around, saturation or check of each operation
    is written where the source performs it. *)
Definition U64_MAX : Z := 18446744073709551615.
Definition I64_MAX : Z := 9223372036854775807.
Definition I64_MIN : Z := -9223372036854775808.

Definition is_u64 (z : Z) : Prop := (0 <= z <= U64_MAX)%Z.
Definition is_i64 (z : Z) : Prop := (I64_MIN <= z <= I64_MAX)%Z.

Definition u64_saturating_add (a b : Z) : Z := Z.min (a + b) U64_MAX.
Definition u64_saturating_sub (a b : Z) : Z := Z.max (a - b) 0.
Definition u64_saturating_mul (a b : Z) : Z := Z.min (a * b) U64_MAX.
Definition i64_saturating_add (a b : Z) : Z := Z.max I64_MIN (Z.min (a + b) I64_MAX).
Definition i64_saturating_sub (a b : Z) : Z := Z.max I64_MIN (Z.min (a - b) I64_MAX).
Definition u64_checked_add (a b : Z) : option Z :=
  if (a + b <=? U64_MAX)%Z then Some (a + b)%Z else None.
Definition i64_checked_add (a b : Z) : option Z :=
  if ((I64_MIN <=? a + b) && (a + b <=? I64_MAX))%Z then Some (a + b)%Z else None.

(** [usize::div_ceil] by two. *)
Definition div_ceil2 (a : Z) : Z := ((a + 1) / 2)%Z.

(** Solve goals about the machine-integer operations by linear arithmetic. *)
Ltac unfold_ints :=
  unfold u64_saturating_add, u64_saturating_sub, u64_saturating_mul, i64_saturating_add,
    i64_saturating_sub, is_u64, is_i64, div_ceil2, U64_MAX, I64_MAX, I64_MIN in *.
Ltac ints := unfold_ints; lia.

Lemma u64_saturating_sub_exact a b : (b <= a)%Z -> u64_saturating_sub a b = (a - b)%Z.
Proof. ints. Qed.
Lemma i64_checked_add_some a b c : i64_checked_add a b = Some c -> c = (a + b)%Z.
Proof. unfold i64_checked_add. destruct (_ && _); congruence. Qed.
Lemma u64_saturating_add_exact a b : (a + b <= U64_MAX)%Z -> u64_saturating_add a b = (a + b)%Z.
Proof. ints. Qed.
Lemma u64_saturating_add_le a b m : (m < U64_MAX)%Z -> (u64_saturating_add a b <= m <-> a + b <= m)%Z.
Proof. unfold u64_saturating_add. generalize U64_MAX. lia. Qed.
Lemma u64_saturating_add_lt a : (u64_saturating_add a 1 < U64_MAX)%Z ->
  (a < U64_MAX)%Z /\ u64_saturating_add a 1 = (a + 1)%Z.
Proof. unfold u64_saturating_add. generalize U64_MAX. lia. Qed.
Lemma div_ceil2_bounds a : (a <= 2 * div_ceil2 a <= a + 1)%Z.
Proof. unfold div_ceil2. Z.to_euclidean_division_equations. lia. Qed.

(** Turn boolean tests on integers in the context into propositions. *)
Ltac bool_to_prop :=
  repeat match goal with
  | H : (_ && _) = true |- _ => apply andb_true_iff in H as [? ?]
  | H : (_ || _) = false |- _ => apply orb_false_iff in H as [? ?]
  | H : (_ || _) = true |- _ => apply orb_true_iff in H
  | H : (_ && _) = false |- _ => apply andb_false_iff in H
  | H : negb _ = true |- _ => apply negb_true_iff in H
  | H : negb _ = false |- _ => apply negb_false_iff in H
  | H : (_ <=? _)%Z = true |- _ => apply Z.leb_le in H
  | H : (_ <=? _)%Z = false |- _ => apply Z.leb_gt in H
  | H : (_ <? _)%Z = true |- _ => apply Z.ltb_lt in H
  | H : (_ <? _)%Z = false |- _ => apply Z.ltb_ge in H
  | H : (_ =? _)%Z = true |- _ => apply Z.eqb_eq in H
  | H : (_ =? _)%Z = false |- _ => apply Z.eqb_neq in H
  | H : (_ <=? _)%nat = true |- _ => apply Nat.leb_le in H
  | H : (_ <=? _)%nat = false |- _ => apply Nat.leb_gt in H
  | H : (_ <? _)%nat = true |- _ => apply Nat.ltb_lt in H
  | H : (_ <? _)%nat = false |- _ => apply Nat.ltb_ge in H
  | H : (_ =? _)%nat = true |- _ => apply Nat.eqb_eq in H
  | H : (_ =? _)%nat = false |- _ => apply Nat.eqb_neq in H
  end.

(** ** Bytes *)
#[export] Instance byte_eq_dec : EqDecision Byte.byte := Byte.byte_eq_dec.

(** [between lo hi b]: the byte, as a number, lies in the closed interval. *)
Definition between (lo hi : N) (b : Byte.byte) : bool :=
  (lo <=? Byte.to_N b)%N && (Byte.to_N b <=? hi)%N.

(** ** Lists *)
Definition len {A} (l : list A) : Z := Z.of_nat (length l).

(** The half-open slice [l[from..to]]. *)
Definition slice {A} (l : list A) (from to : nat) : list A := take (to - from) (drop from l).

Lemma slice_length {A} (l : list A) from to :
  to <= length l -> length (slice l from to) = to - from.
Proof. intros. unfold slice. rewrite length_take, length_drop. lia. Qed.

Lemma slice_app {A} (l : list A) a b c :
  a <= b -> b <= c -> slice l a b ++ slice l b c = slice l a c.
Proof.
  intros. unfold slice.
  replace (c - a) with ((b - a) + (c - b)) by lia.
  rewrite <-(take_take_drop (drop a l) (b - a) (c - b)), drop_drop.
  replace (a + (b - a)) with b by lia. done.
Qed.

Lemma slice_full {A} (l : list A) : slice l 0 (length l) = l.
Proof. unfold slice. rewrite drop_0, Nat.sub_0_r. by rewrite firstn_all. Qed.

Lemma slice_empty {A} (l : list A) a : slice l a a = [].
Proof. unfold slice. by rewrite Nat.sub_diag. Qed.

(** [Iterator::position]. *)
Fixpoint position {A} (f : A -> bool) (l : list A) : option nat :=
  match l with
  | [] => None
  | x :: l => if f x then Some O else S <$> position f l
  end.

Lemma position_some {A} (f : A -> bool) l i : position f l = Some i -> exists x, l !! i = Some x /\ f x = true.
Proof.
  revert i. induction l as [|x l IH]; intros i; cbn; [done|]. destruct (f x) eqn:Hf.
  - intros [= <-]. by exists x.
  - destruct (position f l) as [j|]; [|done]. intros [= <-]. by apply IH.
Qed.
Lemma position_spec {A} (f : A -> bool) l n : position f l = Some n ->
  exists x l1 l2, l = l1 ++ x :: l2 /\ f x = true /\ length l1 = n
    /\ forall y, y ∈ l1 -> f y = false.
Proof.
  revert n. induction l as [|x l IH]; simpl; intros n; [done|].
  destruct (f x) eqn:Hf.
  { intros [= <-]. exists x, [], l. split_and!; [done..|]. by intros y ?%elem_of_nil. }
  destruct (position f l) as [m|]; simpl; [|done]. intros [= <-].
  destruct (IH m eq_refl) as (y & l1 & l2 & -> & Hy & <- & Hfirst). exists y, (x :: l1), l2.
  split_and!; [done..|]. by intros z [->|Hz]%elem_of_cons; [|apply Hfirst].
Qed.
Lemma position_none {A} (f : A -> bool) l : position f l = None -> forall x, x ∈ l -> f x = false.
Proof.
  induction l as [|y l IH]; simpl; intros Hp x; [by intros ?%elem_of_nil|].
  destruct (f y) eqn:Hf; [done|]. destruct (position f l); [done|].
  intros [->|]%elem_of_cons; [done|by apply IH].
Qed.

Lemma elem_of_concat_map {A B} (f : A -> list B) l y :
  y ∈ concat (map f l) <-> exists x, x ∈ l /\ y ∈ f x.
Proof.
  rewrite list_elem_of_In, in_concat. split.
  - intros (ys & (x & <- & Hx)%in_map_iff & Hy). exists x. by rewrite !list_elem_of_In.
  - intros (x & Hx & Hy). exists (f x). rewrite in_map_iff, <-!list_elem_of_In. split; [by exists x; rewrite <-list_elem_of_In|done].
Qed.
