(* ===== verification/Text.v ===== *)
(** * Text preparation: [src/src/text.rs]

    Binary detection, line maps, the canonical chunker, excerpts and identifier
    splitting.  A text is its list of UTF-8 bytes; byte offsets and line numbers
    are [nat] because every one of them is bounded by the length of an
    allocated string, and the window arithmetic that saturates at
    [usize::MAX] is over [Z].  The BLAKE3 digest (a crate) is a parameter, as
    are the Unicode tables of [char]. *)

From S2P Require Import Prelude.
Open Scope run_scope.

(** ** UTF-8 as the standard library checks it *)

Definition is_cont : Byte.byte -> bool := between 128 191.
Definition is_ascii : Byte.byte -> bool := between 0 127.

Definition lead3 (b0 b1 : Byte.byte) : bool :=
  (between 224 224 b0 && between 160 191 b1) || (between 225 236 b0 && is_cont b1)
  || (between 237 237 b0 && between 128 159 b1) || (between 238 239 b0 && is_cont b1).
Definition lead4 (b0 b1 : Byte.byte) : bool :=
  (between 240 240 b0 && between 144 191 b1) || (between 241 243 b0 && is_cont b1)
  || (between 244 244 b0 && between 128 143 b1).

(** [std::str::from_utf8(bytes).is_ok()]: the well-formed byte sequences of
    the Unicode standard (table 3-7). *)
Fixpoint utf8_valid (bytes : list Byte.byte) : bool :=
  match bytes with
  | [] => true
  | b0 :: r0 =>
    if is_ascii b0 then utf8_valid r0 else
    match r0 with
    | [] => false
    | b1 :: r1 =>
      if between 194 223 b0 && is_cont b1 then utf8_valid r1 else
      match r1 with
      | [] => false
      | b2 :: r2 =>
        if lead3 b0 b1 && is_cont b2 then utf8_valid r2 else
        match r2 with
        | [] => false
        | b3 :: r3 => lead4 b0 b1 && is_cont b2 && is_cont b3 && utf8_valid r3
        end
      end
    end
  end.

(** [str::is_char_boundary]. *)
Definition is_char_boundary (text : list Byte.byte) (index : nat) : bool :=
  if index =? 0 then true
  else match text !! index with
       | Some b => negb (is_cont b)
       | None => index =? length text
       end.

(** [&text[from..to]], which panics off the text, on a reversed range, or
    inside a character. *)
Definition str_slice (text : list Byte.byte) (from to : nat) : run (list Byte.byte) :=
  if (from <=? to) && (to <=? length text)
     && is_char_boundary text from && is_char_boundary text to
  then Done (slice text from to) else Panic.

(** ** Binary detection *)

Inductive TextKind := Text | Binary.

#[export] Instance TextKind_eq_dec : EqDecision TextKind.
Proof. solve_decision. Defined.

Definition is_control (b : Byte.byte) : bool :=
  ((Byte.to_N b <? 0x20)%N && negb (bool_decide (b = Byte.x09))
     && negb (bool_decide (b = Byte.x0a)) && negb (bool_decide (b = Byte.x0d)))
  || bool_decide (b = Byte.x7f).

Definition detect_kind (bytes : list Byte.byte) : TextKind :=
  if existsb (fun b => bool_decide (b = Byte.x00)) bytes then Binary
  else if negb (utf8_valid bytes) then Binary
  else
    let control := length (List.filter is_control bytes) in
    if length bytes * 3 <? control * 10 then Binary else Text.

(** ** Line maps *)

Fixpoint newline_starts (text_len i : nat) (bytes : list Byte.byte) : list nat :=
  match bytes with
  | [] => []
  | b :: rest =>
    if bool_decide (b = Byte.x0a) && (i + 1 <? text_len)
    then (i + 1) :: newline_starts text_len (i + 1) rest
    else newline_starts text_len (i + 1) rest
  end.

Definition line_starts (text : list Byte.byte) : list nat :=
  match text with
  | [] => []
  | _ => 0 :: newline_starts (length text) 0 text
  end.

(** [slice::binary_search] on a strictly increasing slice: [inl] the position
    of the key, [inr] the position where it would be inserted. *)
Fixpoint partition_point (l : list nat) (x : nat) : nat :=
  match l with
  | [] => 0
  | y :: l => if y <? x then S (partition_point l x) else 0
  end.
Definition binary_search (l : list nat) (x : nat) : nat + nat :=
  let p := partition_point l x in
  if bool_decide (l !! p = Some x) then inl p else inr p.

Definition byte_to_line (starts : list nat) (text_len byte_offset : nat) : nat :=
  let byte_offset := Nat.min byte_offset text_len in
  match starts with
  | [] => 1
  | _ => match binary_search starts byte_offset with
         | inl idx => idx + 1
         | inr idx => idx
         end
  end.

Definition byte_range_to_line_range (text : list Byte.byte) (start_byte end_byte : nat)
  : nat * nat :=
  let text_len := length text in
  let start_byte := Nat.min start_byte text_len in
  let end_byte := Nat.min end_byte text_len in
  let '(start_byte, end_byte) :=
    if end_byte <? start_byte then (end_byte, start_byte) else (start_byte, end_byte) in
  let starts := line_starts text in
  let start_line := byte_to_line starts text_len start_byte in
  let end_line :=
    if (end_byte =? 0) || (end_byte =? start_byte) then start_line
    else byte_to_line starts text_len (end_byte - 1) in
  (start_line, end_line).

(** [line_starts[index]]. *)
Definition index_or_panic (l : list nat) (index : nat) : run nat :=
  match l !! index with Some x => Done x | None => Panic end.

Definition line_range_to_byte_range (starts : list nat) (text_len start_line end_line : nat)
  : run (nat * nat) :=
  match starts with
  | [] => Done (0, text_len)
  | _ =>
    let count := length starts in
    let start_line := if start_line =? 0 then 1 else start_line in
    let '(start_line, end_line) :=
      if end_line <? start_line then (end_line, start_line) else (start_line, end_line) in
    let start_line := if count <? start_line then count else start_line in
    let end_line := if count <? end_line then count else end_line in
    (* [start_line - 1] is an index expression: it underflows at zero. *)
    let? start_byte :=
      (if start_line =? 0 then Panic else index_or_panic starts (start_line - 1)) in
    let? end_byte :=
      (if end_line <? count then index_or_panic starts end_line else Done text_len) in
    Done (start_byte, end_byte)
  end.

(** ** Chunks *)

Record Chunk := mk_chunk {
  start_byte : nat;
  end_byte : nat;
  start_line : nat;
  end_line : nat;
  content : list Byte.byte;
  hash_of : string
}.

Record PreparedText := mk_prepared {
  kind : TextKind;
  text_content : list Byte.byte;
  chunks : list Chunk;
  line_count : nat
}.

Fixpoint floor_boundary_from (text : list Byte.byte) (index : nat) : nat :=
  match index with
  | 0 => 0
  | S i => if is_char_boundary text index then index else floor_boundary_from text i
  end.
Definition floor_char_boundary (text : list Byte.byte) (index : nat) : nat :=
  floor_boundary_from text (Nat.min index (length text)).

(** The loop runs while [index < text.len()], so [text.len() - index] rounds
    are all it can take. *)
Fixpoint next_boundary_from (rounds : nat) (text : list Byte.byte) (index : nat) : nat :=
  match rounds with
  | 0 => index
  | S rounds =>
    if is_char_boundary text index then index else next_boundary_from rounds text (index + 1)
  end.
Definition next_char_boundary (text : list Byte.byte) (index : nat) : nat :=
  let index := Nat.min index (length text) in
  next_boundary_from (length text - index) text index.

Section Chunking.
(** Hex digest of [blake3::hash] (the [blake3] crate). *)
Variable blake3_hex : list Byte.byte -> string.

Definition CONTENT_FINGERPRINT_HEX_LEN : nat := 32.

Definition hash_bytes (bytes : list Byte.byte) : string :=
  String.substring 0 CONTENT_FINGERPRINT_HEX_LEN (blake3_hex bytes).

Definition push_chunk (chunks : list Chunk) (text : list Byte.byte)
    (start_byte end_byte start_line end_line : nat) : run (list Chunk) :=
  let? content := str_slice text start_byte end_byte in
  Done (chunks ++ [mk_chunk start_byte end_byte start_line end_line content
                     (hash_bytes content)]).

(** End of the next piece of an over-long line. *)
Definition piece_end (text : list Byte.byte) (max_bytes line_end offset : nat) : nat :=
  if line_end <=? offset + max_bytes then line_end
  else
    let boundary := floor_char_boundary text (offset + max_bytes) in
    let boundary :=
      if boundary <=? offset then next_char_boundary text (offset + 1) else boundary in
    Nat.min boundary line_end.

Fixpoint split_long_line (fuel : nat) (text : list Byte.byte)
    (max_bytes line_end line_no offset : nat) (chunks : list Chunk) : run (list Chunk) :=
  if offset <? line_end then
    match fuel with
    | 0 => NoFuel
    | S fuel =>
      let end_byte := piece_end text max_bytes line_end offset in
      let? chunks := push_chunk chunks text offset end_byte line_no line_no in
      split_long_line fuel text max_bytes line_end line_no end_byte chunks
    end
  else Done chunks.

(** The variables of the chunking loop. *)
Record loop_state := mk_loop {
  ls_chunks : list Chunk;
  ls_i : nat;
  ls_start_byte : nat;
  ls_start_line : nat;
  ls_lines : nat;
  ls_bytes : nat
}.

Definition line_bound (starts : list nat) (text_len i : nat) : nat :=
  match starts !! i with Some b => b | None => text_len end.

(** One round of the loop body, entered with [i < starts.len()]. *)
Definition chunk_step (text : list Byte.byte) (starts : list nat)
    (max_lines max_bytes : nat) (s : loop_state) : run loop_state :=
  let i := ls_i s in
  let line_start := line_bound starts (length text) i in
  let line_end := line_bound starts (length text) (i + 1) in
  let line_len := line_end - line_start in
  let line_no := i + 1 in
  if (0 <? ls_lines s)
     && ((max_lines <? ls_lines s + 1) || (max_bytes <? ls_bytes s + line_len)) then
    let? chunks := push_chunk (ls_chunks s) text (ls_start_byte s) line_start
                     (ls_start_line s) (line_no - 1) in
    Done (mk_loop chunks i (ls_start_byte s) (ls_start_line s) 0 0)
  else if (ls_lines s =? 0) && (max_bytes <? line_len) then
    let? chunks := split_long_line (line_end - line_start) text max_bytes line_end line_no
                     line_start (ls_chunks s) in
    Done (mk_loop chunks (i + 1) (ls_start_byte s) (ls_start_line s)
            (ls_lines s) (ls_bytes s))
  else
    let '(start_byte, start_line) :=
      if ls_lines s =? 0 then (line_start, line_no)
      else (ls_start_byte s, ls_start_line s) in
    Done (mk_loop (ls_chunks s) (i + 1) start_byte start_line
            (ls_lines s + 1) (ls_bytes s + line_len)).

Fixpoint chunk_loop (fuel : nat) (text : list Byte.byte) (starts : list nat)
    (max_lines max_bytes : nat) (s : loop_state) : run loop_state :=
  if ls_i s <? length starts then
    match fuel with
    | 0 => NoFuel
    | S fuel =>
      let? s := chunk_step text starts max_lines max_bytes s in
      chunk_loop fuel text starts max_lines max_bytes s
    end
  else Done s.

(** Each line is entered at most twice: once to close the open chunk before
    it, once to consume it. *)
Definition chunk_fuel (starts : list nat) : nat := 2 * length starts.

Definition chunk_text (text : list Byte.byte) (max_lines max_bytes : nat)
    : run (list Chunk) :=
  if max_lines =? 0 then Panic
  else if max_bytes =? 0 then Panic
  else match text with
  | [] => Done []
  | _ =>
    let starts := line_starts text in
    let? s := chunk_loop (chunk_fuel starts) text starts max_lines max_bytes
                (mk_loop [] 0 0 1 0 0) in
    if 0 <? ls_lines s then
      push_chunk (ls_chunks s) text (ls_start_byte s) (length text)
        (ls_start_line s) (length starts)
    else Done (ls_chunks s)
  end.

Definition from_vec (bytes : list Byte.byte) (max_chunk_lines max_chunk_bytes : nat)
    : run PreparedText :=
  if max_chunk_lines =? 0 then Panic
  else if max_chunk_bytes =? 0 then Panic
  else match detect_kind bytes with
  | Binary => Done (mk_prepared Binary [] [] 0)
  | Text =>
    let? chunks := chunk_text bytes max_chunk_lines max_chunk_bytes in
    Done (mk_prepared Text bytes chunks
            (match last chunks with Some c => end_line c | None => 0 end))
  end.
End Chunking.

#[global] Arguments line_bound : simpl never.
#[global] Arguments piece_end : simpl never.

(** ** Facts about characters *)

(** A text as the sequence of its encoded characters. *)
Definition wf_char (c : list Byte.byte) : Prop :=
  exists b cs, c = b :: cs /\ is_cont b = false /\ Forall (fun x => is_cont x = true) cs
    /\ length cs <= 3 /\ (is_ascii b = true -> cs = []).

Inductive utf8_chars : list Byte.byte -> Prop :=
| chars_nil : utf8_chars []
| chars_cons c rest : wf_char c -> utf8_chars rest -> utf8_chars (c ++ rest).

Lemma between_disjoint lo hi lo' hi' b :
  between lo hi b = true -> (hi < lo' \/ hi' < lo)%N -> between lo' hi' b = false.
Proof.
  unfold between. rewrite andb_true_iff, andb_false_iff, !N.leb_le, !N.leb_gt. lia.
Qed.

Lemma between_sub lo hi lo' hi' b :
  between lo hi b = true -> (lo' <= lo /\ hi <= hi')%N -> between lo' hi' b = true.
Proof. unfold between. rewrite !andb_true_iff, !N.leb_le. lia. Qed.

Ltac byte_class :=
  unfold lead3, lead4, is_cont, is_ascii in *;
  repeat match goal with
  | H : (_ && _) = true |- _ => apply andb_true_iff in H as [? ?]
  | H : (_ || _) = true |- _ => apply orb_true_iff in H as [?|?]
  end;
  solve [ eapply between_disjoint; [eassumption|lia]
        | eapply between_sub; [eassumption|lia] | assumption ].

Lemma ascii_not_cont b : is_ascii b = true -> is_cont b = false.
Proof. intros. byte_class. Qed.

Lemma utf8_valid_chars bytes : utf8_valid bytes = true -> utf8_chars bytes.
Proof.
  induction bytes as [bytes IH] using (induction_ltof1 _ (@length _)).
  unfold ltof in IH.
  assert (Hstep : forall c rest, bytes = c ++ rest -> wf_char c ->
            utf8_valid rest = true -> utf8_chars bytes).
  { intros c rest -> Hc Hr. constructor; [done|]. apply IH; [|done].
    destruct Hc as (b & cs & -> & _). rewrite length_app. simpl. lia. }
  destruct bytes as [|b0 r0]; [constructor|]. simpl.
  destruct (is_ascii b0) eqn:E0.
  { intros. apply (Hstep [b0] r0); [done| |done].
    exists b0, []. repeat split; [by apply ascii_not_cont|constructor|simpl; lia]. }
  destruct r0 as [|b1 r1]; [done|].
  destruct (between 194 223 b0 && is_cont b1) eqn:E1.
  { apply andb_true_iff in E1 as [? ?]. intros.
    apply (Hstep [b0; b1] r1); [done| |done]. exists b0, [b1].
    repeat split; [byte_class|by repeat constructor|simpl; lia|congruence]. }
  destruct r1 as [|b2 r2]; [done|].
  destruct (lead3 b0 b1 && is_cont b2) eqn:E2.
  { apply andb_true_iff in E2 as [? ?]. intros.
    apply (Hstep [b0; b1; b2] r2); [done| |done]. exists b0, [b1; b2].
    repeat split; [byte_class| |simpl; lia|congruence].
    repeat constructor; [byte_class|done]. }
  destruct r2 as [|b3 r3]; [done|].
  rewrite !andb_true_iff. intros [[[? ?] ?] ?].
  apply (Hstep [b0; b1; b2; b3] r3); [done| |done]. exists b0, [b1; b2; b3].
  repeat split; [byte_class| |simpl; lia|congruence].
  repeat constructor; [byte_class|done|done].
Qed.

Lemma chars_head text b : utf8_chars text -> text !! 0 = Some b -> is_cont b = false.
Proof.
  destruct 1 as [|c rest (b' & cs & -> & Hb & _) _]; [done|]. simpl. congruence.
Qed.

(** In a valid text a boundary is exactly the end or a non-continuation byte. *)
Lemma boundary_lookup text i b :
  utf8_chars text -> text !! i = Some b -> is_char_boundary text i = negb (is_cont b).
Proof.
  intros Hu Hi. unfold is_char_boundary. rewrite Hi.
  destruct (Nat.eqb_spec i 0) as [->|]; [|done]. by rewrite (chars_head _ _ Hu Hi).
Qed.

Lemma boundary_len text : is_char_boundary text (length text) = true.
Proof.
  unfold is_char_boundary. destruct (length text =? 0) eqn:E; [done|].
  rewrite lookup_ge_None_2 by lia. apply Nat.eqb_refl.
Qed.

Lemma boundary_zero text : is_char_boundary text 0 = true.
Proof. done. Qed.

Lemma boundary_shift c rest i :
  utf8_chars (c ++ rest) -> utf8_chars rest ->
  is_char_boundary (c ++ rest) (length c + i) = is_char_boundary rest i.
Proof.
  intros Hu Hr. destruct (rest !! i) as [b|] eqn:E.
  - rewrite (boundary_lookup rest i b) by done. apply boundary_lookup; [done|].
    rewrite lookup_app_r by lia. by replace (length c + i - length c) with i by lia.
  - unfold is_char_boundary.
    rewrite lookup_app_r by lia. replace (length c + i - length c) with i by lia.
    rewrite E, length_app. apply lookup_ge_None_1 in E.
    destruct (Nat.eqb_spec (length c + i) 0), (Nat.eqb_spec i 0); try lia.
    + destruct (Nat.eqb_spec (length c + i) (length c + length rest)); [done|].
      subst. destruct rest; simpl in *; lia.
    + destruct (Nat.eqb_spec (length c + i) (length c + length rest)),
        (Nat.eqb_spec i (length rest)); lia.
Qed.

Lemma next_boundary_near text i :
  utf8_chars text -> i < length text -> is_char_boundary text i = true ->
  exists j, i < j <= i + 4 /\ j <= length text /\ is_char_boundary text j = true.
Proof.
  intros Hu. revert i. induction Hu as [|c rest Hc Hr IH]; simpl; [intros; lia|].
  intros i Hi Hb.
  assert (Hu : utf8_chars (c ++ rest)) by by constructor.
  destruct (decide (i < length c)) as [Hlt|Hge].
  - destruct Hc as (b & cs & -> & Hbb & Hcs & Hlen & _).
    destruct i as [|i].
    + exists (length (b :: cs) + 0). rewrite boundary_shift, boundary_zero by done.
      rewrite length_app in *. simpl in *. repeat split; lia.
    + simpl in Hlt. destruct (lookup_lt_is_Some_2 cs i) as [x Hx]; [lia|].
      assert (Hcx : is_cont x = true).
      { rewrite Forall_forall in Hcs. apply Hcs. by eapply list_elem_of_lookup_2. }
      erewrite boundary_lookup in Hb; [|done|].
      2: { simpl. rewrite lookup_app_l by lia. exact Hx. }
      by rewrite Hcx in Hb.
  - rewrite length_app in *.
    replace i with (length c + (i - length c)) in Hb by lia.
    rewrite boundary_shift in Hb by done.
    destruct (IH (i - length c)) as (j & ? & ? & ?); [lia|done|].
    exists (length c + j). rewrite boundary_shift by done. repeat split; [lia..|done].
Qed.

Lemma boundary_after_newline text i :
  utf8_chars text -> text !! i = Some Byte.x0a -> is_char_boundary text (i + 1) = true.
Proof.
  intros Hu. revert i. induction Hu as [|c rest Hc Hr IH]; [done|]. intros i Hi.
  assert (Hu : utf8_chars (c ++ rest)) by by constructor.
  destruct (decide (i < length c)) as [Hlt|Hge].
  - destruct Hc as (b & cs & -> & Hbb & Hcs & Hlen & Hasc).
    destruct i as [|i].
    + simpl in Hi. injection Hi as ->. rewrite Hasc by done.
      apply (boundary_shift [Byte.x0a] rest 0); [|done]. by rewrite Hasc in Hu by done.
    + exfalso. rewrite lookup_app_l in Hi by done. simpl in Hi.
      rewrite Forall_forall in Hcs.
      apply list_elem_of_lookup_2, Hcs in Hi. done.
  - rewrite lookup_app_r in Hi by lia. apply IH in Hi.
    rewrite <-(boundary_shift c) in Hi by done. rewrite <-Hi. f_equal. lia.
Qed.

(** ** Facts about boundary search *)

Lemma floor_boundary_from_spec text i r :
  floor_boundary_from text i = r ->
  r <= i /\ is_char_boundary text r = true
  /\ forall j, r < j <= i -> is_char_boundary text j = false.
Proof.
  intros <-. induction i as [|i IH]; simpl; [repeat split; [lia|intros; lia]|].
  destruct (is_char_boundary text (S i)) eqn:E; [repeat split; [lia|done|intros; lia]|].
  destruct IH as (? & ? & IH). repeat split; [lia|done|].
  intros j ?. destruct (decide (j = S i)) as [->|]; [done|]. apply IH. lia.
Qed.

Lemma next_boundary_from_spec rounds text i :
  length text <= i + rounds -> i <= length text ->
  let r := next_boundary_from rounds text i in
  i <= r <= length text /\ is_char_boundary text r = true
  /\ forall j, i <= j < r -> is_char_boundary text j = false.
Proof.
  revert i. induction rounds as [|rounds IH]; simpl; intros i Hlen Hi.
  - replace i with (length text) by lia. rewrite boundary_len.
    repeat split; [lia..|intros; lia].
  - destruct (is_char_boundary text i) eqn:E; [repeat split; [lia..|done|intros; lia]|].
    assert (i <> length text) by (intros ->; rewrite boundary_len in E; done).
    destruct (IH (i + 1)) as (? & ? & Hmin); [lia..|]. repeat split; [lia..|done|].
    intros j ?. destruct (decide (j = i)) as [->|]; [done|]. apply Hmin. lia.
Qed.

Lemma piece_end_spec text max_bytes line_end offset :
  utf8_chars text -> 0 < max_bytes -> offset < line_end <= length text ->
  is_char_boundary text offset = true -> is_char_boundary text line_end = true ->
  let e := piece_end text max_bytes line_end offset in
  offset < e <= line_end /\ is_char_boundary text e = true
  /\ (e - offset <= max_bytes \/ e - offset <= 4).
Proof.
  intros Hu Hmax Hrange Ho Hl. unfold piece_end. cbv zeta.
  destruct (Nat.leb_spec line_end (offset + max_bytes)); [repeat split; [lia..|done|lia]|].
  destruct (floor_boundary_from_spec text (Nat.min (offset + max_bytes) (length text))
    _ eq_refl) as (Hf1 & Hf2 & Hf3).
  fold (floor_char_boundary text (offset + max_bytes)) in *.
  remember (floor_char_boundary text (offset + max_bytes)) as f eqn:Ef.
  destruct (Nat.leb_spec f offset) as [Hle|Hgt].
  - destruct (next_boundary_near text offset) as (j & Hj1 & Hj2 & Hj3); [done|lia|done|].
    unfold next_char_boundary.
    destruct (next_boundary_from_spec (length text - Nat.min (offset + 1) (length text)) text
      (Nat.min (offset + 1) (length text))) as (Hn1 & Hn2 & Hn3); [lia..|].
    set (r := next_boundary_from _ _ _) in *.
    assert (r <= j).
    { destruct (decide (r <= j)); [done|]. rewrite Hn3 in Hj3 by lia. done. }
    destruct (Nat.min_spec r line_end) as [[? ->]|[? ->]]; repeat split; try lia; done.
  - rewrite Nat.min_l by lia. repeat split; [lia..|done|lia].
Qed.

(** ** Facts about line maps *)

Lemma newline_starts_lookup text_len i bytes k a :
  newline_starts text_len i bytes !! k = Some a ->
  i < a < text_len /\ bytes !! (a - 1 - i) = Some Byte.x0a.
Proof.
  revert i k. induction bytes as [|b rest IH]; simpl; intros i k; [done|].
  case_bool_decide as Hb; simpl.
  - destruct (Nat.ltb_spec (i + 1) text_len) as [Hl|Hl].
    + destruct k as [|k]; simpl.
      * intros [= <-]. split; [lia|]. replace (i + 1 - 1 - i) with 0 by lia. simpl. congruence.
      * intros Hk. apply IH in Hk as [? Hk]. split; [lia|].
        by replace (a - 1 - i) with (S (a - 1 - (i + 1))) by lia.
    + intros Hk. apply IH in Hk as [? ?]. lia.
  - intros Hk. apply IH in Hk as [? Hk]. split; [lia|].
    by replace (a - 1 - i) with (S (a - 1 - (i + 1))) by lia.
Qed.

Lemma newline_starts_increasing text_len i bytes k a b :
  newline_starts text_len i bytes !! k = Some a ->
  newline_starts text_len i bytes !! S k = Some b -> a < b.
Proof.
  revert i k. induction bytes as [|c rest IH]; simpl; intros i k; [done|].
  destruct (_ && _); [|apply IH].
  destruct k as [|k]; simpl; [|apply IH].
  intros [= <-] Hb. apply newline_starts_lookup in Hb as [? _]. lia.
Qed.

(** The properties of a line map that the chunker relies on. *)
Record line_map (text : list Byte.byte) (starts : list nat) : Prop := {
  lm_first : starts !! 0 = Some 0;
  lm_bound : forall k a, starts !! k = Some a -> a < length text;
  lm_step : forall k a b, starts !! k = Some a -> starts !! S k = Some b -> a < b;
  lm_newline : forall k a, starts !! S k = Some a ->
    0 < a /\ text !! (a - 1) = Some Byte.x0a
}.

Lemma line_starts_map text : text <> [] -> line_map text (line_starts text).
Proof.
  intros Hne. destruct text as [|b rest] eqn:E; [done|]. rewrite <-E in *.
  assert (Hs : line_starts text = 0 :: newline_starts (length text) 0 text) by by rewrite E.
  rewrite Hs. split; [done| | |].
  - intros [|k] a; simpl; [intros [= <-]; rewrite E; simpl; lia|].
    intros Hk. apply newline_starts_lookup in Hk. lia.
  - intros [|k] a c; cbn [lookup list_lookup].
    + intros [= <-] Hk. apply newline_starts_lookup in Hk. lia.
    + apply newline_starts_increasing.
  - intros k a Hk. cbn [lookup list_lookup] in Hk. apply newline_starts_lookup in Hk as [? Hk].
    split; [lia|]. by rewrite Nat.sub_0_r in Hk.
Qed.

Lemma line_map_lt text starts i j a b :
  line_map text starts -> i < j -> starts !! i = Some a -> starts !! j = Some b -> a < b.
Proof.
  intros Hm Hij Ha. revert b. induction Hij as [|j Hij IH]; intros b Hb.
  - by eapply lm_step.
  - destruct (lookup_lt_is_Some_2 starts j) as [c Hc].
    { apply lookup_lt_Some in Hb. lia. }
    etrans; [by apply IH|]. by eapply lm_step.
Qed.

Lemma partition_point_spec l x p :
  p <= length l ->
  (forall i a, l !! i = Some a -> i < p -> a < x) ->
  (forall a, l !! p = Some a -> x <= a) -> partition_point l x = p.
Proof.
  revert p. induction l as [|y l IH]; simpl; intros p Hp Hlo Hhi; [lia|].
  destruct p as [|p].
  - specialize (Hhi y eq_refl). destruct (Nat.ltb_spec y x); lia.
  - pose proof (Hlo 0 y eq_refl). destruct (Nat.ltb_spec y x); [|lia].
    f_equal. apply IH; [lia| |].
    + intros i a Hi ?. apply (Hlo (S i)); [done|lia].
    + intros a Ha. by apply Hhi.
Qed.

(** A byte between two consecutive line starts is on the line between them. *)
Lemma byte_to_line_between text starts k a b :
  line_map text starts -> starts !! k = Some a -> a <= b ->
  b < line_bound starts (length text) (S k) -> byte_to_line starts (length text) b = k + 1.
Proof.
  intros Hm Ha Hab Hb.
  assert (Hk : k < length starts) by by eapply lookup_lt_Some.
  assert (Hbl : b <= length text).
  { unfold line_bound in Hb. destruct (starts !! S k) as [c|] eqn:Ec; [|lia].
    apply (lm_bound _ _ Hm) in Ec. lia. }
  unfold byte_to_line. rewrite Nat.min_l by done.
  destruct starts as [|s0 starts'] eqn:Es; [done|]. rewrite <-Es in *. clear Es s0 starts'.
  unfold binary_search. unfold line_bound in Hb.
  destruct (decide (a = b)) as [->|].
  - rewrite (partition_point_spec starts b k); [| lia | | ].
    + by rewrite bool_decide_true.
    + intros i x Hi ?. by eapply line_map_lt.
    + intros x Hx. simplify_eq. lia.
  - rewrite (partition_point_spec starts b (S k)); [| lia | | ].
    + rewrite bool_decide_false; [lia|]. intros Heq. rewrite Heq in Hb. lia.
    + intros i x Hi ?. destruct (decide (i = k)) as [->|]; [simplify_eq; lia|].
      assert (x < a) by (eapply line_map_lt; [done| |done|done]; lia). lia.
    + intros x Hx. rewrite Hx in Hb. lia.
Qed.

Lemma line_bound_boundary text starts i :
  utf8_chars text -> line_map text starts ->
  is_char_boundary text (line_bound starts (length text) i) = true.
Proof.
  intros Hu Hm. unfold line_bound. destruct (starts !! i) as [a|] eqn:E; [|apply boundary_len].
  destruct i as [|i]; [rewrite (lm_first _ _ Hm) in E; by simplify_eq|].
  destruct (lm_newline _ _ Hm _ _ E) as [? Hn].
  apply boundary_after_newline in Hn; [|done]. by replace (a - 1 + 1) with a in Hn by lia.
Qed.

Lemma line_bound_lt text starts i :
  line_map text starts -> i < length starts ->
  line_bound starts (length text) i < line_bound starts (length text) (S i) <= length text.
Proof.
  intros Hm Hi. destruct (lookup_lt_is_Some_2 starts i Hi) as [a Ha].
  unfold line_bound. rewrite Ha. pose proof (lm_bound _ _ Hm _ _ Ha).
  destruct (starts !! S i) as [b|] eqn:Hb; [|lia].
  pose proof (lm_bound _ _ Hm _ _ Hb). pose proof (lm_step _ _ Hm _ _ _ Ha Hb). lia.
Qed.

Lemma line_bound_end (text : list Byte.byte) starts i :
  length starts <= i -> line_bound starts (length text) i = length text.
Proof. intros. unfold line_bound. by rewrite lookup_ge_None_2. Qed.

(** ** Tilings: consecutive non-empty chunks that cover a byte range *)

Inductive tiles (P : Chunk -> Prop) : nat -> nat -> list Chunk -> Prop :=
| tiles_nil a : tiles P a a []
| tiles_cons c b cs :
    start_byte c < end_byte c -> P c -> tiles P (end_byte c) b cs ->
    tiles P (start_byte c) b (c :: cs).

Lemma tiles_app P a b c l1 l2 : tiles P a b l1 -> tiles P b c l2 -> tiles P a c (l1 ++ l2).
Proof. induction 1; simpl; [done|]. intros. by constructor; auto. Qed.

Lemma tiles_snoc P a b l c :
  tiles P a b l -> start_byte c = b -> b < end_byte c -> P c ->
  tiles P a (end_byte c) (l ++ [c]).
Proof.
  intros Hl <- ? ?. eapply tiles_app; [done|]. constructor; [done..|constructor].
Qed.

Lemma tiles_push P a b e l la lb ct h :
  tiles P a b l -> b < e -> P (mk_chunk b e la lb ct h) ->
  tiles P a e (l ++ [mk_chunk b e la lb ct h]).
Proof. intros. by apply (tiles_snoc P a b l (mk_chunk b e la lb ct h)). Qed.

Lemma tiles_le P a b l : tiles P a b l -> a <= b.
Proof. induction 1; lia. Qed.

Lemma tiles_forall P a b l : tiles P a b l -> Forall P l.
Proof. by induction 1; constructor. Qed.

Lemma tiles_concat P text a b l :
  (forall c, P c -> content c = slice text (start_byte c) (end_byte c)) ->
  tiles P a b l -> concat (map content l) = slice text a b.
Proof.
  intros HP. induction 1 as [a|c b cs ? Hc Ht IH]; simpl; [by rewrite slice_empty|].
  rewrite IH, HP by done. apply slice_app; [lia|by eapply tiles_le].
Qed.

Lemma tiles_last P a b l : tiles P a b l -> l <> [] -> exists c, last l = Some c /\ end_byte c = b.
Proof.
  induction 1 as [|c b cs ? Hc Ht IH]; [done|]. intros _.
  destruct cs as [|c' cs].
  - inversion Ht; subst. by exists c.
  - destruct IH as (d & Hd & ?); [done|]. exists d. by rewrite last_cons, Hd.
Qed.

(** ** The chunker meets its contract *)

Section ChunkingFacts.
Variable blake3_hex : list Byte.byte -> string.
Variables (text : list Byte.byte) (starts : list nat) (max_lines max_bytes : nat).

(** What every chunk of [text] satisfies. *)
Record chunk_ok (c : Chunk) : Prop := {
  ok_content : content c = slice text (start_byte c) (end_byte c);
  ok_hash : hash_of c = hash_bytes blake3_hex (content c);
  ok_end : end_byte c <= length text;
  ok_start_boundary : is_char_boundary text (start_byte c) = true;
  ok_end_boundary : is_char_boundary text (end_byte c) = true;
  ok_start_line : start_line c = byte_to_line starts (length text) (start_byte c);
  ok_end_line : end_line c = byte_to_line starts (length text) (end_byte c - 1);
  ok_lines : start_line c <= end_line c < start_line c + max_lines;
  ok_bytes : end_byte c - start_byte c <= max_bytes
             \/ (end_byte c - start_byte c <= 4 /\ start_line c = end_line c)
}.

Hypothesis Hutf8 : utf8_chars text.
Hypothesis Hmap : line_map text starts.
Hypothesis Hlines : 0 < max_lines.
Hypothesis Hbytes : 0 < max_bytes.

Local Abbreviation bound := (line_bound starts (length text)).

Lemma push_chunk_done chunks a b la lb :
  a <= b <= length text ->
  is_char_boundary text a = true -> is_char_boundary text b = true ->
  push_chunk blake3_hex chunks text a b la lb =
  Done (chunks ++ [mk_chunk a b la lb (slice text a b) (hash_bytes blake3_hex (slice text a b))]).
Proof.
  intros [? ?] Ha Hb. unfold push_chunk, str_slice. rewrite Ha, Hb.
  by rewrite (proj2 (Nat.leb_le a b)), (proj2 (Nat.leb_le b (length text))) by lia.
Qed.

Lemma bound_lookup i : i < length starts -> starts !! i = Some (bound i).
Proof.
  intros Hi. unfold line_bound. destruct (lookup_lt_is_Some_2 starts i Hi) as [a Ha].
  by rewrite Ha.
Qed.

(** A range of whole or partial lines is described by the numbers the
    chunker records. *)
Lemma line_of i b :
  i < length starts -> bound i <= b < bound (S i) ->
  byte_to_line starts (length text) b = i + 1.
Proof.
  intros Hi Hb.
  apply (byte_to_line_between text starts i (bound i)); [done|by apply bound_lookup|lia|lia].
Qed.

Lemma split_long_line_spec fuel i offset chunks from :
  i < length starts -> bound i <= offset <= bound (S i) ->
  is_char_boundary text offset = true ->
  bound (S i) - offset <= fuel -> tiles chunk_ok from offset chunks ->
  exists chunks',
    split_long_line blake3_hex fuel text max_bytes (bound (S i)) (i + 1) offset chunks
      = Done chunks' /\ tiles chunk_ok from (bound (S i)) chunks'.
Proof.
  intros Hi. revert offset chunks.
  pose proof (line_bound_lt text starts i Hmap Hi) as Hil.
  induction fuel as [|fuel IH]; intros offset chunks Ho Hb Hf Ht; simpl.
  { destruct (Nat.ltb_spec offset (bound (S i))); [lia|].
    exists chunks. split; [done|]. by replace (bound (S i)) with offset by lia. }
  destruct (Nat.ltb_spec offset (bound (S i))) as [Hlt|Hge].
  2: { exists chunks. split; [done|]. by replace (bound (S i)) with offset by lia. }
  destruct (piece_end_spec text max_bytes (bound (S i)) offset) as (He & Heb & Hel);
    [done..|lia|done|by apply line_bound_boundary|].
  generalize dependent (piece_end text max_bytes (bound (S i)) offset). intros e ? ? ?.
  rewrite push_chunk_done by (done || lia). simpl.
  apply IH; [lia|done|lia|].
  apply tiles_push; [done|lia|].
  split; simpl; try done; try lia.
  - symmetry. apply line_of; [done|lia].
  - symmetry. apply line_of; [done|lia].
Qed.

(** The invariant of the chunking loop: closed chunks tile the text up to
    the open chunk, which spans the last [ls_lines] lines. *)
Record loop_inv (s : loop_state) : Prop := {
  inv_i : ls_i s <= length starts;
  inv_tiles : tiles chunk_ok 0
    (if ls_lines s =? 0 then bound (ls_i s) else ls_start_byte s) (ls_chunks s);
  inv_open : 0 < ls_lines s ->
    ls_lines s <= ls_i s /\ ls_lines s <= max_lines /\ ls_bytes s <= max_bytes
    /\ ls_start_line s = ls_i s - ls_lines s + 1
    /\ ls_start_byte s = bound (ls_i s - ls_lines s)
    /\ ls_bytes s = bound (ls_i s) - bound (ls_i s - ls_lines s);
  inv_closed : ls_lines s = 0 -> ls_bytes s = 0
}.

Lemma bound_mono i j : i < j <= length starts -> bound i < bound j.
Proof.
  intros [Hij Hj]. induction Hij as [|j Hij IH].
  - apply line_bound_lt; [done|lia].
  - etrans; [apply IH; lia|]. apply line_bound_lt; [done|lia].
Qed.

(** Closing the open chunk at the start of line [ls_i]. *)
Lemma close_chunk_spec s :
  loop_inv s -> 0 < ls_lines s ->
  exists chunks',
    push_chunk blake3_hex (ls_chunks s) text (ls_start_byte s) (bound (ls_i s))
      (ls_start_line s) (ls_i s) = Done chunks'
    /\ tiles chunk_ok 0 (bound (ls_i s)) chunks'.
Proof.
  intros [Hi Ht Ho _] Hl. destruct (Ho Hl) as (H1 & H2 & H3 & H4 & H5 & H6).
  destruct (Nat.eqb_spec (ls_lines s) 0); [lia|].
  pose proof (bound_mono (ls_i s - ls_lines s) (ls_i s)) as Hb.
  pose proof (line_bound_lt text starts (ls_i s - 1) Hmap) as Hlast.
  pose proof (line_bound_lt text starts (ls_i s - ls_lines s) Hmap) as Hfirst.
  replace (S (ls_i s - 1)) with (ls_i s) in Hlast by lia.
  rewrite push_chunk_done; [|lia|rewrite H5|]; try by apply line_bound_boundary.
  eexists. split; [done|].
  apply tiles_push; [done|lia|].
  split; simpl; try done; try lia.
  - rewrite H5. by apply line_bound_boundary.
  - by apply line_bound_boundary.
  - rewrite H4, H5. symmetry. apply line_of; lia.
  - symmetry. replace (ls_i s) with (ls_i s - 1 + 1) at 2 by lia. apply line_of; [lia|].
    replace (S (ls_i s - 1)) with (ls_i s) by lia. lia.
Qed.

(** Rounds still needed by the loop. *)
Definition loop_measure (s : loop_state) : nat :=
  2 * (length starts - ls_i s) + (if ls_lines s =? 0 then 0 else 1).

Lemma chunk_step_spec s :
  loop_inv s -> ls_i s < length starts ->
  exists s', chunk_step blake3_hex text starts max_lines max_bytes s = Done s'
    /\ loop_inv s' /\ loop_measure s' < loop_measure s.
Proof.
  intros Hinv Hi. pose proof Hinv as [_ Ht Ho Hc].
  pose proof (line_bound_lt text starts (ls_i s) Hmap Hi) as Hlt.
  replace (S (ls_i s)) with (ls_i s + 1) in Hlt by lia.
  unfold chunk_step, loop_measure. cbv zeta.
  destruct (Nat.ltb_spec 0 (ls_lines s)) as [Hl|Hl]; cbn [andb].
  - destruct (Nat.eqb_spec (ls_lines s) 0) as [?|_]; [lia|]. cbn [andb].
    destruct (Ho Hl) as (H1 & H2 & H3 & H4 & H5 & H6).
    pose proof (bound_mono (ls_i s - ls_lines s) (ls_i s)) as Hb.
    destruct (_ || _) eqn:Eclose.
    + destruct (close_chunk_spec s Hinv Hl) as (chunks' & Hp & Ht').
      replace (ls_i s + 1 - 1) with (ls_i s) by lia. rewrite Hp. simpl.
      eexists. split; [done|]. split; [|simpl; lia].
      split; simpl; [lia|done|lia|done].
    + bool_to_prop. eexists. split; [done|]. split; simpl.
      2: { destruct (Nat.eqb_spec (ls_lines s + 1) 0); lia. }
      split; simpl; [lia| | |lia].
      * destruct (Nat.eqb_spec (ls_lines s + 1) 0); [lia|done].
      * intros _. replace (ls_i s + 1 - (ls_lines s + 1)) with (ls_i s - ls_lines s) by lia.
        repeat split; lia.
  - destruct (Nat.eqb_spec (ls_lines s) 0) as [E0|?]; [|lia]. cbn [andb].
    destruct (Nat.ltb_spec max_bytes
      (line_bound starts (length text) (ls_i s + 1) - line_bound starts (length text) (ls_i s)))
      as [Hlong|Hshort].
    + destruct (split_long_line_spec
        (line_bound starts (length text) (ls_i s + 1) - line_bound starts (length text) (ls_i s))
        (ls_i s) (bound (ls_i s)) (ls_chunks s) 0) as (chunks' & Hp & Ht');
        replace (S (ls_i s)) with (ls_i s + 1) in * by lia;
        [done|lia|by apply line_bound_boundary|lia|done|].
      rewrite Hp. simpl. eexists. split; [done|]. split; simpl; rewrite E0; [|simpl; lia].
      split; simpl; [lia|done|lia|lia].
    + eexists. split; [done|]. rewrite E0. split; simpl; [|lia].
      split; simpl; [lia|done| |lia]. intros _.
      replace (ls_i s + 1 - 1) with (ls_i s) by lia. rewrite (Hc E0). repeat split; lia.
Qed.

Lemma chunk_loop_spec fuel s :
  loop_inv s -> loop_measure s <= fuel ->
  exists s', chunk_loop blake3_hex fuel text starts max_lines max_bytes s = Done s'
    /\ loop_inv s' /\ ls_i s' = length starts.
Proof.
  revert s. induction fuel as [|fuel IH]; intros s Hinv Hf; simpl;
    destruct (Nat.ltb_spec (ls_i s) (length starts)) as [Hi|Hi].
  - unfold loop_measure in Hf. lia.
  - exists s. split; [done|]. split; [done|]. pose proof (inv_i _ Hinv). lia.
  - destruct (chunk_step_spec s Hinv Hi) as (s' & -> & Hinv' & Hm). simpl.
    apply IH; [done|lia].
  - exists s. split; [done|]. split; [done|]. pose proof (inv_i _ Hinv). lia.
Qed.
End ChunkingFacts.

Section ChunkingTheorems.
Variable blake3_hex : list Byte.byte -> string.

(** The chunker on valid UTF-8: it returns, and its result tiles the text. *)
Lemma chunk_text_spec text max_lines max_bytes :
  utf8_valid text = true -> 0 < max_lines -> 0 < max_bytes ->
  exists chunks, chunk_text blake3_hex text max_lines max_bytes = Done chunks
    /\ tiles (chunk_ok blake3_hex text (line_starts text) max_lines max_bytes)
         0 (length text) chunks.
Proof.
  intros Hu Hl Hb. apply utf8_valid_chars in Hu. unfold chunk_text.
  destruct (Nat.eqb_spec max_lines 0), (Nat.eqb_spec max_bytes 0); try lia.
  destruct text as [|b0 rest] eqn:E; [exists []; split; [done|constructor]|].
  rewrite <-E in *. clear b0 rest E. destruct (decide (text = [])) as [->|Hne].
  { eexists. split; [done|]. constructor. }
  pose proof (line_starts_map text Hne) as Hm.
  destruct (chunk_loop_spec blake3_hex text (line_starts text) max_lines max_bytes
    Hu Hm Hl Hb (chunk_fuel (line_starts text)) (mk_loop [] 0 0 1 0 0)) as (s & -> & Hinv & Hi).
  - split; simpl; [lia| |lia|lia]. unfold line_bound. rewrite (lm_first _ _ Hm). constructor.
  - unfold loop_measure, chunk_fuel. simpl. lia.
  - simpl. assert (Hend : line_bound (line_starts text) (length text) (ls_i s) = length text).
    { rewrite Hi. by apply line_bound_end. }
    destruct (Nat.ltb_spec 0 (ls_lines s)) as [Hlines|Hlines].
    + destruct (close_chunk_spec blake3_hex text (line_starts text) max_lines max_bytes Hu Hm Hl Hb s
        Hinv Hlines) as (chunks & Hp & Ht).
      rewrite Hend, Hi in *. eauto.
    + exists (ls_chunks s). split; [done|]. pose proof (inv_tiles _ _ _ _ _ _ Hinv) as Ht.
      destruct (Nat.eqb_spec (ls_lines s) 0); [|lia]. by rewrite Hend in Ht.
Qed.
End ChunkingTheorems.

Lemma tiles_whole blake3_hex text starts max_lines max_bytes cs :
  tiles (chunk_ok blake3_hex text starts max_lines max_bytes) 0 (length text) cs ->
  concat (map content cs) = text.
Proof.
  intros Ht. rewrite (tiles_concat _ text 0 (length text) cs (ok_content _ _ _ _ _) Ht).
  apply slice_full.
Qed.

(** ** Properties *)

(** C21: On valid UTF-8 and positive bounds the chunker returns (it neither
    panics nor runs out of rounds), the chunks joined together are the text,
    no chunk is empty, the first starts at byte zero and each following chunk
    starts exactly where the previous one ends. *)
Theorem chunk_text_covers blake3_hex text max_lines max_bytes :
  utf8_valid text = true -> 0 < max_lines -> 0 < max_bytes ->
  exists chunks, chunk_text blake3_hex text max_lines max_bytes = Done chunks
    /\ concat (map content chunks) = text
    /\ Forall (fun c => start_byte c < end_byte c) chunks
    /\ (forall c, head chunks = Some c -> start_byte c = 0)
    /\ (forall i c d, chunks !! i = Some c -> chunks !! S i = Some d ->
          start_byte d = end_byte c).
Proof.
  intros Hu Hl Hb.
  destruct (chunk_text_spec blake3_hex text max_lines max_bytes Hu Hl Hb) as (cs & Hc & Ht).
  exists cs. split; [done|]. repeat split.
  - by eapply tiles_whole.
  - clear Hc Hl Hb. by induction Ht; constructor.
  - clear Hc. intros c Hh. inversion Ht; subst; simpl in Hh; congruence.
  - clear Hc Hl Hb. induction Ht as [|c b cs ? ? Ht IH]; [done|].
    intros [|i] x y; cbn [lookup list_lookup]; [|apply IH].
    intros [= <-] Hy. inversion Ht; subst; [done|]. by injection Hy as ->.
Qed.

Lemma chunk_text_covers_witness :
  utf8_valid [Byte.x61; Byte.x0a; Byte.xc3; Byte.xa9; Byte.x62] = true /\
  exists chunks, chunk_text (fun _ => "00"%string)
      [Byte.x61; Byte.x0a; Byte.xc3; Byte.xa9; Byte.x62] 1 2 = Done chunks
    /\ concat (map content chunks) = [Byte.x61; Byte.x0a; Byte.xc3; Byte.xa9; Byte.x62].
Proof.
  split; [reflexivity|].
  destruct (chunk_text_covers (fun _ => "00"%string)
    [Byte.x61; Byte.x0a; Byte.xc3; Byte.xa9; Byte.x62] 1 2 eq_refl ltac:(lia) ltac:(lia))
    as (cs & H1 & H2 & _).
  exists cs. split; assumption.
Defined.

(** Every chunk of a successful run respects the configured bounds: it
    starts and ends on character boundaries, spans at most [max_lines] lines
    and at most [max_bytes] bytes unless it is a single character wider than
    [max_bytes], carries the fingerprint of its own content, and records the
    line numbers that the line map assigns to its first and last byte. *)
Theorem chunk_text_bounds blake3_hex text max_lines max_bytes chunks c :
  utf8_valid text = true -> chunk_text blake3_hex text max_lines max_bytes = Done chunks ->
  c ∈ chunks ->
  is_char_boundary text (start_byte c) = true /\ is_char_boundary text (end_byte c) = true
  /\ start_line c <= end_line c < start_line c + max_lines
  /\ (end_byte c - start_byte c <= max_bytes
      \/ (end_byte c - start_byte c <= 4 /\ start_line c = end_line c))
  /\ hash_of c = hash_bytes blake3_hex (content c)
  /\ start_line c = byte_to_line (line_starts text) (length text) (start_byte c)
  /\ end_line c = byte_to_line (line_starts text) (length text) (end_byte c - 1).
Proof.
  intros Hu Hrun Hin.
  assert (Hpos : 0 < max_lines /\ 0 < max_bytes).
  { revert Hrun. unfold chunk_text.
    destruct (Nat.eqb_spec max_lines 0), (Nat.eqb_spec max_bytes 0); [done..|lia]. }
  destruct (chunk_text_spec blake3_hex text max_lines max_bytes Hu) as (cs & Hc & Ht);
    [lia..|].
  rewrite Hrun in Hc. injection Hc as <-.
  apply tiles_forall in Ht. rewrite Forall_forall in Ht.
  destruct (Ht c Hin). by auto 10.
Qed.

Lemma chunk_text_bounds_witness :
  exists c, start_line c <= end_line c < start_line c + 1
    /\ content c = [Byte.xc3; Byte.xa9].
Proof.
  exists (mk_chunk 2 4 2 2 [Byte.xc3; Byte.xa9] "00"). split; [|reflexivity].
  pose proof (chunk_text_bounds (fun _ => "00"%string)
    [Byte.x61; Byte.x0a; Byte.xc3; Byte.xa9; Byte.x62] 1 2
    [mk_chunk 0 2 1 1 [Byte.x61; Byte.x0a] "00"; mk_chunk 2 4 2 2 [Byte.xc3; Byte.xa9] "00";
     mk_chunk 4 5 2 2 [Byte.x62] "00"]
    (mk_chunk 2 4 2 2 [Byte.xc3; Byte.xa9] "00") eq_refl eq_refl
    ltac:(apply list_elem_of_further, list_elem_of_here)) as (_ & _ & H & _).
  exact H.
Defined.

Lemma byte_to_line_last text :
  text <> [] -> byte_to_line (line_starts text) (length text) (length text - 1)
                = length (line_starts text).
Proof.
  intros Hne. pose proof (line_starts_map text Hne) as Hm.
  assert (Hlen : 0 < length (line_starts text)).
  { apply lookup_lt_Some with 0. apply (lm_first _ _ Hm). }
  set (n := length (line_starts text)) in *.
  destruct (lookup_lt_is_Some_2 (line_starts text) (n - 1)) as [a Ha]; [lia|].
  pose proof (lm_bound _ _ Hm _ _ Ha).
  rewrite (byte_to_line_between text (line_starts text) (n - 1) a); [lia|done|done|lia|].
  rewrite line_bound_end by lia. lia.
Qed.

Lemma detect_kind_text bytes :
  detect_kind bytes = Text <->
  (Byte.x00 ∉ bytes) /\ utf8_valid bytes = true
  /\ length (List.filter is_control bytes) * 10 <= length bytes * 3.
Proof.
  unfold detect_kind.
  destruct (existsb _ bytes) eqn:E0.
  - split; [done|]. intros [Hn _]. exfalso. apply Hn.
    apply existsb_exists in E0 as (b & Hb & E0). apply bool_decide_eq_true in E0 as ->.
    by apply list_elem_of_In.
  - assert (Byte.x00 ∉ bytes).
    { intros Hin%list_elem_of_In. rewrite <-not_true_iff_false in E0. apply E0.
      apply existsb_exists. exists Byte.x00. split; [done|]. by apply bool_decide_eq_true. }
    destruct (utf8_valid bytes) eqn:E1; cbn [negb]; [|by split; intros; destruct_and?].
    destruct (Nat.ltb_spec (length bytes * 3) (length (List.filter is_control bytes) * 10)).
    + split; [done|]. intros (_ & _ & ?). lia.
    + split; [|done]. intros _. split; [done|]. split; [done|lia].
Qed.

(** Preparing any byte buffer under positive bounds returns.  A buffer is
    text exactly when it has no NUL byte, is valid UTF-8 and at most 30% of
    its bytes are control characters; a binary buffer keeps nothing, and a
    text keeps its bytes, its chunks join to it and its line count is the
    number of line starts. *)
Theorem from_vec_total blake3_hex bytes max_lines max_bytes :
  0 < max_lines -> 0 < max_bytes ->
  exists p, from_vec blake3_hex bytes max_lines max_bytes = Done p
    /\ (kind p = Text <->
         (Byte.x00 ∉ bytes) /\ utf8_valid bytes = true
         /\ length (List.filter is_control bytes) * 10 <= length bytes * 3)
    /\ (kind p = Binary -> text_content p = [] /\ chunks p = [] /\ line_count p = 0)
    /\ (kind p = Text -> text_content p = bytes /\ concat (map content (chunks p)) = bytes
         /\ line_count p = length (line_starts bytes)).
Proof.
  intros Hl Hb. unfold from_vec. pose proof (detect_kind_text bytes) as Hkind.
  destruct (Nat.eqb_spec max_lines 0), (Nat.eqb_spec max_bytes 0); try lia.
  destruct (detect_kind bytes) eqn:Ek; [|by eexists; split; [done|]; simpl].
  pose proof (proj1 Hkind eq_refl) as (_ & Hu & _).
  destruct (chunk_text_spec blake3_hex bytes max_lines max_bytes Hu Hl Hb) as (cs & Hc & Ht).
  rewrite Hc. simpl. eexists. split; [done|]. simpl. split; [done|]. split; [done|].
  intros _. split; [done|]. split; [by eapply tiles_whole|].
  destruct (decide (bytes = [])) as [->|Hne].
  { inversion Ht as [|c b cs' Hlt _ Ht']; subst; [done|]. apply tiles_le in Ht'. simpl in *. lia. }
  destruct (tiles_last _ _ _ _ Ht) as (c & Hlast & Hend).
  { intros ->. inversion Ht; subst. by destruct bytes. }
  rewrite Hlast. apply tiles_forall in Ht. rewrite Forall_forall in Ht.
  assert (Hin : c ∈ cs) by by eapply last_Some_elem_of.
  rewrite (ok_end_line _ _ _ _ _ _ (Ht c Hin)), Hend. by apply byte_to_line_last.
Qed.

Lemma from_vec_total_witness :
  exists p, from_vec (fun _ => "00"%string) [Byte.x61; Byte.x0a; Byte.x62] 2 100 = Done p
    /\ kind p = Text.
Proof.
  destruct (from_vec_total (fun _ => "00"%string) [Byte.x61; Byte.x0a; Byte.x62] 2 100
    ltac:(lia) ltac:(lia)) as (p & H & _).
  exists p. split; [exact H|]. vm_compute in H. injection H as <-. reflexivity.
Defined.
