(* ===== verification/Excerpt.v ===== *)
(** * Excerpts and identifier splitting: the second half of [src/src/text.rs]

    Line windows around evidence, excerpts of a text, and the expansion of
    identifiers into search terms.  Window arithmetic is over [usize] with the
    saturation of the source; a character is its code point. *)

From S2P Require Import Prelude Text.
Open Scope run_scope.
Open Scope Z_scope.

(** ** Anchored line windows *)

Definition anchored_line_window
    (desired_start desired_end required_start required_end max_lines : Z) : Z * Z :=
  let required_start := Z.max required_start 1 in
  let required_end := Z.max required_end required_start in
  let desired_start := Z.min (Z.max desired_start 1) required_start in
  let desired_end := Z.max desired_end required_end in
  let desired_lines := u64_saturating_add (u64_saturating_sub desired_end desired_start) 1 in
  if (max_lines =? 0) || (desired_lines <=? max_lines) then (desired_start, desired_end)
  else
    let required_lines := u64_saturating_add (u64_saturating_sub required_end required_start) 1 in
    if max_lines <=? required_lines then (required_start, required_end)
    else
      let available_before := u64_saturating_sub required_start desired_start in
      let available_after := u64_saturating_sub desired_end required_end in
      let extra_lines := max_lines - required_lines in
      let before := Z.min available_before (div_ceil2 extra_lines) in
      let after := Z.min available_after (extra_lines - before) in
      let remaining := extra_lines - before - after in
      let additional_before := Z.min (u64_saturating_sub available_before before) remaining in
      let before := before + additional_before in
      let remaining := remaining - additional_before in
      let after := after + Z.min (u64_saturating_sub available_after after) remaining in
      (required_start - before, u64_saturating_add required_end after).

(** ** Excerpts *)

Definition excerpt (text : list Byte.byte) (start_line end_line : nat) : run (list Byte.byte) :=
  let starts := line_starts text in
  let? (start_byte, end_byte) :=
    line_range_to_byte_range starts (length text) start_line end_line in
  str_slice text start_byte end_byte.

Definition excerpt_with_context (text : list Byte.byte)
    (focus_start_line focus_end_line context_lines max_lines : Z) : run (list Byte.byte) :=
  let starts := line_starts text in
  let count := len starts in
  if count =? 0 then Done []
  else
    let required_start := Z.min (Z.max focus_start_line 1) count in
    let required_end := Z.min (Z.max focus_end_line required_start) count in
    let desired_start := Z.max (u64_saturating_sub required_start context_lines) 1 in
    let desired_end := Z.min (u64_saturating_add required_end context_lines) count in
    let '(first, last) :=
      anchored_line_window desired_start desired_end required_start required_end max_lines in
    excerpt text (Z.to_nat first) (Z.to_nat last).

Definition excerpt_around (text : list Byte.byte) (start_byte end_byte : nat)
    (context_lines : Z) : run (list Byte.byte) :=
  let '(start_line, end_line) := byte_range_to_line_range text start_byte end_byte in
  excerpt_with_context text (Z.of_nat start_line) (Z.of_nat end_line) context_lines 0.

(** ** Identifiers *)

Section Identifiers.
(** The Unicode tables behind the [char] predicates and [str::to_lowercase]. *)
Variables is_lowercase is_uppercase is_alphabetic is_alphanumeric : Z -> bool.
Variable to_lowercase : list Z -> list Z.

Definition underscore : Z := 95.
Definition is_ascii_digit (c : Z) : bool := (48 <=? c) && (c <=? 57).

(** [str::split]: always at least one piece. *)
Fixpoint split_on (sep : Z) (s : list Z) : list (list Z) :=
  match s with
  | [] => [[]]
  | c :: s =>
    if c =? sep then [] :: split_on sep s
    else match split_on sep s with
         | p :: ps => (c :: p) :: ps
         | [] => [[c]]
         end
  end.

Definition starts_new_word (prev : option Z) (c : Z) (next : option Z) : bool :=
  match prev with
  | None => false
  | Some prev =>
    (is_lowercase prev && is_uppercase c)
    || (match next with
        | Some next => is_uppercase prev && is_uppercase c && is_lowercase next
        | None => false
        end)
    || (is_alphabetic prev && is_ascii_digit c)
    || (is_ascii_digit prev && is_alphabetic c)
  end.

Definition is_nil {A} (l : list A) : bool := match l with [] => true | _ => false end.

Fixpoint piece_words (current : list Z) (words : list (list Z)) (chars : list Z)
    : list (list Z) :=
  match chars with
  | [] => if is_nil current then words else words ++ [current]
  | c :: rest =>
    if starts_new_word (last current) c (head rest) && negb (is_nil current)
    then piece_words [c] (words ++ [current]) rest
    else piece_words (current ++ [c]) words rest
  end.

Definition identifier_words (identifier : list Z) : list (list Z) :=
  fold_left (fun words piece => if is_nil piece then words else piece_words [] words piece)
    (split_on underscore identifier) [].

Definition push_unique (vec : list (list Z)) (value : list Z) : list (list Z) :=
  if negb (is_nil value) && negb (bool_decide (value ∈ vec)) then vec ++ [value] else vec.

(** [[String]::join]. *)
Fixpoint join_with (sep : Z) (parts : list (list Z)) : list Z :=
  match parts with
  | [] => []
  | [p] => p
  | p :: ps => p ++ sep :: join_with sep ps
  end.

Definition expand_identifier (identifier : list Z) : list (list Z) :=
  if is_nil identifier then []
  else
    let normalized := to_lowercase (List.filter (fun c => negb (c =? underscore)) identifier) in
    let terms := push_unique [] normalized in
    let words := identifier_words identifier in
    let snake := join_with underscore (map to_lowercase words) in
    let terms := push_unique terms snake in
    fold_left (fun terms word => push_unique (push_unique terms (to_lowercase word)) word)
      words terms.

Definition push_expanded (result : list (list Z)) (current : list Z) : list (list Z) :=
  if is_nil current then result
  else fold_left push_unique (expand_identifier current) result.

Fixpoint expand_terms_loop (result : list (list Z)) (current query : list Z)
    : list (list Z) :=
  match query with
  | [] => push_expanded result current
  | c :: query =>
    if is_alphanumeric c || (c =? underscore)
    then expand_terms_loop result (current ++ [c]) query
    else expand_terms_loop (push_expanded result current) [] query
  end.

Definition expand_terms (query : list Z) : list (list Z) := expand_terms_loop [] [] query.

(** *** Facts *)

Lemma split_on_concat sep s :
  concat (split_on sep s) = List.filter (fun c => negb (c =? sep)) s /\ split_on sep s <> [].
Proof.
  induction s as [|c s [IH Hne]]; simpl; [done|].
  destruct (Z.eqb_spec c sep); simpl; [done|].
  destruct (split_on sep s) as [|p ps]; simpl in *; [done|]. by rewrite <-IH.
Qed.

Lemma piece_words_concat current words chars :
  concat (piece_words current words chars) = concat words ++ current ++ chars.
Proof.
  revert current words. induction chars as [|c chars IH]; intros current words; simpl.
  - destruct current; simpl; [by rewrite !app_nil_r|].
    rewrite concat_app. simpl. by rewrite !app_nil_r.
  - destruct (_ && _); rewrite IH; [rewrite concat_app; simpl|];
      rewrite ?app_nil_r, <-!app_assoc; done.
Qed.

Lemma piece_words_nonempty current words chars :
  Forall (fun w => w <> []) words -> Forall (fun w => w <> []) (piece_words current words chars).
Proof.
  revert current words. induction chars as [|c chars IH]; intros current words Hw; simpl.
  - destruct current; simpl; [done|]. by rewrite Forall_app, Forall_singleton.
  - destruct (_ && _) eqn:E; apply IH; [|done]. bool_to_prop.
    rewrite Forall_app, Forall_singleton. by destruct current.
Qed.

Lemma identifier_fold pieces words :
  Forall (fun w => w <> []) words ->
  let r := fold_left
    (fun words piece => if is_nil piece then words else piece_words [] words piece)
    pieces words in
  concat r = concat words ++ concat pieces /\ Forall (fun w => w <> []) r.
Proof.
  revert words. induction pieces as [|p pieces IH]; intros words Hw; simpl;
    [by rewrite app_nil_r|].
  destruct p as [|c p]; [by apply IH|]. cbn [is_nil].
  destruct (IH (piece_words [] words (c :: p))) as [IH1 IH2]; [by apply piece_words_nonempty|].
  split; [|done]. rewrite IH1, piece_words_concat. by rewrite <-!app_assoc.
Qed.

Lemma push_unique_nodup vec value :
  NoDup vec -> Forall (fun w => w <> []) vec ->
  NoDup (push_unique vec value) /\ Forall (fun w => w <> []) (push_unique vec value).
Proof.
  intros Hn Hf. unfold push_unique. destruct (_ && _) eqn:E; [|done]. bool_to_prop.
  apply bool_decide_eq_false in H0. split.
  - apply NoDup_app. split; [done|]. split; [|apply NoDup_singleton].
    intros x Hx ->%list_elem_of_singleton. done.
  - rewrite Forall_app, Forall_singleton. by destruct value.
Qed.

Lemma push_unique_elem vec value x :
  x ∈ push_unique vec value <-> x ∈ vec \/ (x = value /\ value <> []).
Proof.
  unfold push_unique. destruct value as [|c v]; cbn [is_nil negb andb].
  - split; [by left|]. by intros [?|[? ?]].
  - case_bool_decide as H; cbn [negb].
    + split; [by left|]. by intros [?|[-> ?]].
    + rewrite elem_of_app, list_elem_of_singleton. intuition done.
Qed.

(** A fold whose every step is a sequence of [push_unique] keeps the terms
    distinct and non-empty. *)
Lemma fold_unique {A} (step : list (list Z) -> A -> list (list Z)) items vec :
  (forall v a, NoDup v /\ Forall (fun w => w <> []) v ->
               NoDup (step v a) /\ Forall (fun w => w <> []) (step v a)) ->
  NoDup vec /\ Forall (fun w => w <> []) vec ->
  NoDup (fold_left step items vec) /\ Forall (fun w => w <> []) (fold_left step items vec).
Proof. intros Hstep. revert vec. induction items; simpl; auto. Qed.

Lemma push_expanded_unique result current :
  NoDup result /\ Forall (fun w => w <> []) result ->
  NoDup (push_expanded result current)
  /\ Forall (fun w => w <> []) (push_expanded result current).
Proof.
  intros H. unfold push_expanded. destruct (is_nil current); [done|].
  apply fold_unique; [|done]. intros ? ? [? ?]. by apply push_unique_nodup.
Qed.

Lemma expand_terms_loop_unique result current query :
  NoDup result /\ Forall (fun w => w <> []) result ->
  NoDup (expand_terms_loop result current query)
  /\ Forall (fun w => w <> []) (expand_terms_loop result current query).
Proof.
  revert result current. induction query as [|c query IH]; intros result current Hr; simpl.
  - by apply push_expanded_unique.
  - destruct (_ || _); apply IH; [done|]. by apply push_expanded_unique.
Qed.
End Identifiers.

(** ** Line ranges of a text *)

Section LineRanges.
Local Open Scope nat_scope.

Lemma line_range_bytes starts text_len s e :
  1 <= s <= e -> e <= length starts ->
  line_range_to_byte_range starts text_len s e
  = Done (line_bound starts text_len (s - 1), line_bound starts text_len e).
Proof.
  intros [Hs Hse] He. unfold line_range_to_byte_range.
  destruct starts as [|s0 ss] eqn:E; [simpl in *; lia|]. rewrite <-E in *. clear E s0 ss.
  destruct (Nat.eqb_spec s 0); [lia|]. destruct (Nat.ltb_spec e s); [lia|].
  destruct (Nat.ltb_spec (length starts) s); [lia|].
  destruct (Nat.ltb_spec (length starts) e); [lia|].
  destruct (Nat.eqb_spec s 0); [lia|]. unfold index_or_panic, line_bound.
  destruct (lookup_lt_is_Some_2 starts (s - 1)) as [a ->]; [lia|]. simpl.
  destruct (Nat.ltb_spec e (length starts)).
  - destruct (lookup_lt_is_Some_2 starts e) as [b ->]; [lia|done].
  - by rewrite lookup_ge_None_2 by lia.
Qed.

Variable text : list Byte.byte.
Hypothesis Hne : text <> [].
Local Abbreviation starts := (line_starts text).
Local Abbreviation bound := (line_bound (line_starts text) (length text)).

Lemma starts_nonempty : 0 < length starts.
Proof. apply lookup_lt_Some with 0. apply (lm_first _ _ (line_starts_map text Hne)). Qed.

Lemma line_bound_ltn i j : i < j <= length starts -> bound i < bound j <= length text.
Proof.
  pose proof (line_starts_map text Hne) as Hm. intros [Hij Hj].
  induction Hij as [|j Hij IH]; [by apply line_bound_lt|].
  specialize (IH ltac:(lia)). pose proof (line_bound_lt text starts j Hm ltac:(lia)). lia.
Qed.

Lemma line_bound_mono i j : i <= j <= length starts -> bound i <= bound j.
Proof.
  intros Hij. destruct (decide (i = j)) as [->|]; [done|].
  pose proof (line_bound_ltn i j ltac:(lia)). lia.
Qed.

Lemma excerpt_done s e :
  utf8_valid text = true -> 1 <= s <= e -> e <= length starts ->
  excerpt text s e = Done (slice text (bound (s - 1)) (bound e)).
Proof.
  intros Hu Hse He. unfold excerpt. rewrite line_range_bytes by done. simpl.
  pose proof (line_bound_ltn (s - 1) e ltac:(lia)).
  pose proof (line_starts_map text Hne) as Hm. apply utf8_valid_chars in Hu.
  pose proof (line_bound_boundary text starts (s - 1) Hu Hm) as B1.
  pose proof (line_bound_boundary text starts e Hu Hm) as B2.
  unfold str_slice. rewrite B1, B2, !(proj2 (Nat.leb_le _ _)) by lia. done.
Qed.

Lemma byte_to_line_in i b :
  i < length starts -> bound i <= b < bound (i + 1) ->
  byte_to_line starts (length text) b = i + 1.
Proof.
  intros Hi Hb. pose proof (line_starts_map text Hne) as Hm.
  destruct (lookup_lt_is_Some_2 starts i Hi) as [a Ha].
  apply (byte_to_line_between text starts i a); [done|done| |].
  - unfold line_bound in Hb. rewrite Ha in Hb. lia.
  - replace (S i) with (i + 1) by lia. lia.
Qed.
End LineRanges.

(** ** Properties *)

(** The window on already normalised spans. *)
Lemma window_core ds de rs re m f l :
  1 <= ds <= rs -> rs <= re <= de -> de <= U64_MAX -> 0 <= m ->
  anchored_line_window ds de rs re m = (f, l) ->
  ds <= f <= rs /\ re <= l <= de
  /\ (m = 0 -> (f, l) = (ds, de))
  /\ (0 < m -> l - f + 1 <= Z.max m (re - rs + 1))
  /\ (0 < m -> m < de - ds + 1 -> re - rs + 1 < m -> l - f + 1 = m).
Proof.
  intros Hds Hre Hde Hm. unfold anchored_line_window. cbv zeta.
  rewrite !(Z.max_l rs 1), !(Z.max_l re rs), !(Z.max_l ds 1), !(Z.min_l ds rs),
    !(Z.max_l de re) by lia.
  rewrite !(u64_saturating_sub_exact de), !(u64_saturating_sub_exact re),
    !(u64_saturating_sub_exact rs) by lia.
  rewrite !(u64_saturating_add_exact _ 1) by lia.
  destruct (Z.eqb_spec m 0), (Z.leb_spec (de - ds + 1) m); cbn [orb];
    try (intros [= <- <-]; repeat split; intros; lia).
  destruct (Z.leb_spec m (re - rs + 1)); [intros [= <- <-]; repeat split; intros; lia|].
  pose proof (div_ceil2_bounds (m - (re - rs + 1))) as Hceil.
  remember (div_ceil2 (m - (re - rs + 1))) as half eqn:E. clear E.
  remember (Z.min (rs - ds) half) as before.
  rewrite (u64_saturating_sub_exact (rs - ds) before) by lia.
  remember (Z.min (de - re) (m - (re - rs + 1) - before)) as after.
  rewrite (u64_saturating_sub_exact (de - re) after) by lia.
  rewrite u64_saturating_add_exact by lia.
  intros [= <- <-]. repeat split; intros; lia.
Qed.

Lemma window_normalise ds de rs re m :
  anchored_line_window ds de rs re m =
  anchored_line_window (Z.min (Z.max ds 1) (Z.max rs 1))
    (Z.max de (Z.max re (Z.max rs 1))) (Z.max rs 1) (Z.max re (Z.max rs 1)) m.
Proof.
  unfold anchored_line_window. cbv zeta.
  replace (Z.max (Z.max rs 1) 1) with (Z.max rs 1) by lia.
  remember (Z.max rs 1) as rs' eqn:E. assert (1 <= rs') by lia. clear E.
  replace (Z.max (Z.max re rs') rs') with (Z.max re rs') by lia.
  remember (Z.max re rs') as re' eqn:E. clear E.
  replace (Z.min (Z.max (Z.min (Z.max ds 1) rs') 1) rs') with (Z.min (Z.max ds 1) rs') by lia.
  by replace (Z.max (Z.max de re') re') with (Z.max de re') by lia.
Qed.

(** The window always contains the (normalised) required span and stays
    inside the desired one; without a maximum it is the desired span; with one
    it never has more lines than the maximum, unless the required span alone
    does; and when the desired span does not fit but the required one does,
    the window uses exactly the maximum. *)
Theorem anchored_line_window_spec ds de rs re m f l :
  is_u64 ds -> is_u64 de -> is_u64 rs -> is_u64 re -> is_u64 m ->
  anchored_line_window ds de rs re m = (f, l) ->
  forall rs' re' ds' de',
  rs' = Z.max rs 1 -> re' = Z.max re rs' -> ds' = Z.min (Z.max ds 1) rs' -> de' = Z.max de re' ->
  ds' <= f <= rs' /\ re' <= l <= de'
  /\ (m = 0 -> (f, l) = (ds', de'))
  /\ (0 < m -> l - f + 1 <= Z.max m (re' - rs' + 1))
  /\ (0 < m -> m < de' - ds' + 1 -> re' - rs' + 1 < m -> l - f + 1 = m).
Proof.
  unfold is_u64. rewrite window_normalise. intros ? ? ? ? ? Hw rs' re' ds' de' -> -> -> ->.
  apply window_core; [ints..|done].
Qed.

Lemma anchored_line_window_spec_witness : (1 <= 1 <= 2) /\ (2 <= 20 <= 22).
Proof.
  destruct (anchored_line_window_spec 1 22 2 2 20 1 20
    ltac:(vm_compute; split; discriminate) ltac:(vm_compute; split; discriminate)
    ltac:(vm_compute; split; discriminate) ltac:(vm_compute; split; discriminate)
    ltac:(vm_compute; split; discriminate) eq_refl 2 2 1 22 eq_refl eq_refl eq_refl eq_refl)
    as (H1 & H2 & _).
  split; assumption.
Defined.

(** Converting a line range to bytes and back is the identity on every
    range of existing lines. *)
Theorem line_byte_range_roundtrip text s e :
  (1 <= s <= e)%nat -> (e <= length (line_starts text))%nat ->
  exists a b, line_range_to_byte_range (line_starts text) (length text) s e = Done (a, b)
    /\ (a < b <= length text)%nat
    /\ byte_range_to_line_range text a b = (s, e).
Proof.
  intros Hse He. assert (Hne : text <> []) by (intros ->; simpl in *; lia).
  pose proof (line_bound_ltn text Hne (s - 1) e ltac:(lia)) as Hlt.
  pose proof (line_bound_ltn text Hne (s - 1) (s - 1 + 1) ltac:(lia)) as Hfirst.
  pose proof (line_bound_ltn text Hne (e - 1) (e - 1 + 1) ltac:(lia)) as Hlast.
  pose proof (line_bound_mono text Hne (s - 1 + 1) e ltac:(lia)) as Hs.
  pose proof (line_bound_mono text Hne (s - 1) (e - 1) ltac:(lia)) as Hs'.
  eexists _, _. rewrite line_range_bytes by done. split; [done|]. split; [done|].
  unfold byte_range_to_line_range. rewrite !Nat.min_l by lia.
  destruct (Nat.ltb_spec (line_bound (line_starts text) (length text) e)
    (line_bound (line_starts text) (length text) (s - 1))); [lia|].
  rewrite !(proj2 (Nat.eqb_neq _ _)) by lia. cbn [orb]. f_equal.
  - replace s with (s - 1 + 1)%nat at 2 by lia. apply byte_to_line_in; [done|lia|lia].
  - replace e with (e - 1 + 1)%nat at 2 by lia. apply byte_to_line_in; [done|lia|].
    replace (e - 1 + 1)%nat with e in * by lia. lia.
Qed.

Lemma line_byte_range_roundtrip_witness :
  exists a b, byte_range_to_line_range [Byte.x61; Byte.x0a; Byte.x62; Byte.x0a] a b = (2, 2)%nat.
Proof.
  destruct (line_byte_range_roundtrip [Byte.x61; Byte.x0a; Byte.x62; Byte.x0a] 2 2
    ltac:(lia) ltac:(vm_compute; lia)) as (a & b & _ & _ & H).
  exists a, b. exact H.
Defined.

(** The window that [excerpt_with_context] asks for, on a text of [count] lines. *)
Lemma context_window_spec count fs fe context max_lines first last :
  0 < count <= U64_MAX -> is_u64 fs -> is_u64 fe -> is_u64 context -> is_u64 max_lines ->
  let rs := Z.min (Z.max fs 1) count in
  let re := Z.min (Z.max fe rs) count in
  anchored_line_window (Z.max (u64_saturating_sub rs context) 1)
    (Z.min (u64_saturating_add re context) count) rs re max_lines = (first, last) ->
  1 <= first <= rs /\ re <= last <= count
  /\ (0 < max_lines -> last - first + 1 <= Z.max max_lines (re - rs + 1)).
Proof.
  intros Hcount Hfs Hfe Hc Hm. cbv zeta.
  remember (Z.min (Z.max fs 1) count) as rs. assert (1 <= rs <= count) by lia. clear Heqrs.
  remember (Z.min (Z.max fe rs) count) as re. assert (rs <= re <= count) by lia. clear Heqre.
  intros E. apply window_core in E; [|ints..].
  destruct E as (E1 & E2 & _ & E4 & _). split; [lia|]. split; [lia|done].
Qed.

(** On valid UTF-8 a contextual excerpt never panics: it is a run of whole
    lines [first..last] of the text that contains the focused lines clamped to
    the text and, under a maximum, is no longer than the maximum or the
    focused span. *)
Theorem excerpt_with_context_total text fs fe context max_lines :
  utf8_valid text = true -> text <> [] ->
  is_u64 fs -> is_u64 fe -> is_u64 context -> is_u64 max_lines ->
  len (line_starts text) <= U64_MAX ->
  let count := len (line_starts text) in
  let rs := Z.min (Z.max fs 1) count in
  let re := Z.min (Z.max fe rs) count in
  exists first last,
    excerpt_with_context text fs fe context max_lines
      = Done (slice text
          (line_bound (line_starts text) (length text) (Z.to_nat first - 1))
          (line_bound (line_starts text) (length text) (Z.to_nat last)))
    /\ 1 <= first <= rs /\ re <= last <= count
    /\ (0 < max_lines -> last - first + 1 <= Z.max max_lines (re - rs + 1)).
Proof.
  intros Hu Hne Hfs Hfe Hc Hm Hcount. cbv zeta.
  pose proof (starts_nonempty text Hne) as Hpos.
  assert (Hn : 0 < len (line_starts text)) by (unfold len; lia).
  unfold excerpt_with_context. cbv zeta.
  rewrite (proj2 (Z.eqb_neq (len (line_starts text)) 0)) by lia.
  destruct (anchored_line_window _ _ _ _ max_lines) as [first last] eqn:E.
  apply context_window_spec in E as (H1 & H2 & H3); [|done..].
  exists first, last. split; [|done].
  apply excerpt_done; [done|done|lia|]. unfold len in H2. lia.
Qed.

Lemma excerpt_with_context_total_witness :
  exists bytes, excerpt_with_context [Byte.x61; Byte.x0a; Byte.x62; Byte.x0a] 2 9 0 1
    = Done bytes.
Proof.
  destruct (excerpt_with_context_total [Byte.x61; Byte.x0a; Byte.x62; Byte.x0a] 2 9 0 1
    eq_refl ltac:(discriminate) ltac:(vm_compute; split; discriminate)
    ltac:(vm_compute; split; discriminate) ltac:(vm_compute; split; discriminate)
    ltac:(vm_compute; split; discriminate) ltac:(vm_compute; discriminate))
    as (f & l & H & _).
  exists (slice [Byte.x61; Byte.x0a; Byte.x62; Byte.x0a]
    (line_bound (line_starts [Byte.x61; Byte.x0a; Byte.x62; Byte.x0a]) 4 (Z.to_nat f - 1))
    (line_bound (line_starts [Byte.x61; Byte.x0a; Byte.x62; Byte.x0a]) 4 (Z.to_nat l))).
  exact H.
Defined.

(** A reversed line range that ends at line zero makes the conversion
    panic on every text with a line: the zero start is normalised before the
    swap, so the swap brings the zero back and [start_line - 1] underflows. *)
Theorem line_range_reversed_zero_panics starts text_len s :
  starts <> [] -> (0 < s)%nat ->
  line_range_to_byte_range starts text_len s 0 = Panic.
Proof.
  intros Hne Hs. unfold line_range_to_byte_range. destruct starts as [|a starts]; [done|].
  destruct (Nat.eqb_spec s 0); [lia|]. destruct (Nat.ltb_spec 0 s); [|lia].
  destruct (Nat.ltb_spec (length (a :: starts)) 0); [lia|done].
Qed.

Lemma line_range_reversed_zero_panics_witness :
  line_range_to_byte_range [0; 2]%nat 4 2 0 = Panic.
Proof. apply (line_range_reversed_zero_panics [0; 2]%nat 4 2); [discriminate|lia]. Defined.

(** Splitting an identifier loses nothing but its underscores, and every
    word is non-empty; expanding a query yields distinct non-empty terms. *)
Theorem identifier_words_partition lower upper alpha alnum lowercase identifier query :
  concat (identifier_words lower upper alpha identifier)
    = List.filter (fun c => negb (c =? underscore)) identifier
  /\ Forall (fun w => w <> []) (identifier_words lower upper alpha identifier)
  /\ NoDup (expand_terms lower upper alpha alnum lowercase query)
  /\ Forall (fun w => w <> []) (expand_terms lower upper alpha alnum lowercase query).
Proof.
  destruct (identifier_fold lower upper alpha (split_on underscore identifier) [])
    as [H1 H2]; [constructor|].
  split; [by rewrite <-(proj1 (split_on_concat underscore identifier))|]. split; [done|].
  apply expand_terms_loop_unique. split; constructor.
Qed.
