(* ===== verification/Chars.v ===== *)
(** * Character strings

    Where the code looks at characters rather than bytes a [str] is its list of
    Unicode code points: length in UTF-8 bytes, splitting, joining, prefixes. *)

From S2P Require Import Prelude.
Open Scope Z_scope.

Abbreviation str := (list Z).

(** An ASCII literal. *)
Definition lit (s : string) : str :=
  map (fun c => Z.of_N (Ascii.N_of_ascii c)) (String.list_ascii_of_string s).

(** [char::len_utf8] and [str::len]. *)
Definition len_utf8 (c : Z) : Z :=
  if c <? 0x80 then 1 else if c <? 0x800 then 2 else if c <? 0x10000 then 3 else 4.
Definition token_len (token : str) : Z := foldr (fun c acc => len_utf8 c + acc) 0 token.

(** [str::split] by a character predicate. *)
Fixpoint split_by (sep : Z -> bool) (s : str) : list str :=
  match s with
  | [] => [[]]
  | c :: s =>
    if sep c then [] :: split_by sep s
    else match split_by sep s with
         | p :: ps => (c :: p) :: ps
         | [] => [[c]]
         end
  end.

Definition to_ascii_lowercase (c : Z) : Z := if (65 <=? c) && (c <=? 90) then c + 32 else c.
Definition is_ascii_alphanumeric (c : Z) : bool :=
  ((48 <=? c) && (c <=? 57)) || ((65 <=? c) && (c <=? 90)) || ((97 <=? c) && (c <=? 122)).

(** [[str]::join] with a one-character separator. *)
Fixpoint join (sep : Z) (parts : list str) : str :=
  match parts with
  | [] => []
  | p :: ps => match ps with [] => p | _ => p ++ sep :: join sep ps end
  end.

(** [str::strip_prefix] and [strip_suffix]. *)
Fixpoint strip_prefix (p s : str) : option str :=
  match p, s with
  | [], _ => Some s
  | x :: p, y :: s => if x =? y then strip_prefix p s else None
  | _ :: _, [] => None
  end.
Definition strip_suffix (p s : str) : option str := (@rev Z) <$> strip_prefix (rev p) (rev s).

(** [char::is_whitespace]: the Unicode property White_Space. *)
Definition is_whitespace (c : Z) : bool :=
  ((9 <=? c) && (c <=? 13)) || (c =? 32) || (c =? 0x85) || (c =? 0xA0) || (c =? 0x1680)
  || ((0x2000 <=? c) && (c <=? 0x200A)) || (c =? 0x2028) || (c =? 0x2029) || (c =? 0x202F)
  || (c =? 0x205F) || (c =? 0x3000).

(** [s.trim().is_empty()]. *)
Definition is_blank (s : str) : bool := forallb is_whitespace s.

Definition contains (c : Z) (s : str) : bool := existsb (Z.eqb c) s.
Definition contains_any (cs s : str) : bool := existsb (fun c => contains c cs) s.
Definition replace_char (from to : Z) (s : str) : str := map (fun c => if c =? from then to else c) s.

(** [trim_start_matches], [trim_end_matches] and [trim_matches] of a character predicate; [trim]. *)
Fixpoint trim_start_by (f : Z -> bool) (s : str) : str :=
  match s with
  | [] => []
  | c :: rest => if f c then trim_start_by f rest else s
  end.
Definition trim_end_by (f : Z -> bool) (s : str) : str := rev (trim_start_by f (rev s)).
Definition trim_by (f : Z -> bool) (s : str) : str := trim_end_by f (trim_start_by f s).
Definition trim (s : str) : str := trim_by is_whitespace s.

(** [str::split] by a non-empty string: [skip] characters of the last separator are left. *)
Fixpoint split_str_from (pat : str) (skip : nat) (s : str) : list str :=
  match s with
  | [] => [[]]
  | c :: rest =>
    match skip with
    | S skip => split_str_from pat skip rest
    | O => match strip_prefix pat s with
           | Some _ => [] :: split_str_from pat (pred (length pat)) rest
           | None => match split_str_from pat 0 rest with
                     | p :: ps => (c :: p) :: ps
                     | [] => [[c]]
                     end
           end
    end
  end.
Definition split_str (pat s : str) : list str := split_str_from pat 0 s.

(** The first piece of a split. *)
Definition first_piece (pieces : list str) : str := default [] (head pieces).

(** ** Lemmas *)
Lemma token_len_app a b : token_len (a ++ b) = token_len a + token_len b.
Proof. unfold token_len. induction a as [|c a IH]; simpl; lia. Qed.

Lemma token_len_cons c s : token_len (c :: s) = len_utf8 c + token_len s.
Proof. done. Qed.

Lemma len_utf8_bounds c : 1 <= len_utf8 c <= 4.
Proof. unfold len_utf8. repeat destruct (_ <? _); lia. Qed.

Lemma token_len_nonneg s : 0 <= token_len s.
Proof.
  unfold token_len. induction s as [|c s IH]; simpl; [lia|]. pose proof (len_utf8_bounds c). lia.
Qed.

Lemma contains_false c s : contains c s = false <-> (c ∉ s).
Proof.
  unfold contains. induction s as [|x s IH]; simpl; [split; [by intros _ ?%elem_of_nil|done]|].
  rewrite orb_false_iff, Z.eqb_neq, elem_of_cons, IH. tauto.
Qed.

Lemma contains_true c s : contains c s = true <-> (c ∈ s).
Proof.
  pose proof (contains_false c s) as Hf. destruct (contains c s).
  - split; [intros _|done]. destruct (decide (c ∈ s)) as [|Hn]; [done|]. by apply Hf in Hn.
  - split; [done|]. intros Hin. by apply Hf in Hin.
Qed.

Lemma split_by_cons_inv sep s : exists p ps, split_by sep s = p :: ps.
Proof.
  induction s as [|c s (p & ps & IH)]; simpl; [by eexists _, _|].
  destruct (sep c); [by eexists _, _|]. rewrite IH. by eexists _, _.
Qed.

Lemma split_by_plain sep s : forallb (fun c => negb (sep c)) s = true -> split_by sep s = [s].
Proof.
  induction s as [|c s IH]; simpl; [done|]. intros Hs. apply andb_true_iff in Hs as [Hc Hs].
  apply negb_true_iff in Hc. by rewrite Hc, (IH Hs).
Qed.

Lemma split_by_app sep a c b : forallb (fun c => negb (sep c)) a = true -> sep c = true ->
  split_by sep (a ++ c :: b) = a :: split_by sep b.
Proof.
  intros Ha Hc. induction a as [|x a IH]; simpl in *; [by rewrite Hc|].
  apply andb_true_iff in Ha as [Hx Ha]. apply negb_true_iff in Hx. by rewrite Hx, (IH Ha).
Qed.

Lemma forallb_not_sep sep s : (sep ∉ s) -> forallb (fun c => negb (sep =? c)) s = true.
Proof.
  intros Hs. apply forallb_forall. intros c Hc%list_elem_of_In.
  apply negb_true_iff, Z.eqb_neq. intros ->. done.
Qed.

(** Splitting undoes joining when no part holds the separator. *)
Lemma split_join sep parts : parts <> [] -> Forall (fun p => (sep ∉ p)) parts ->
  split_by (Z.eqb sep) (join sep parts) = parts.
Proof.
  induction parts as [|p ps IH]; intros Hne Hall; [done|].
  apply Forall_cons in Hall as [Hp Hps]. destruct ps as [|q ps].
  - simpl. by apply split_by_plain, forallb_not_sep.
  - change (join sep (p :: q :: ps)) with (p ++ sep :: join sep (q :: ps)).
    rewrite split_by_app; [by rewrite IH|by apply forallb_not_sep|apply Z.eqb_refl].
Qed.

Lemma join_cons sep p ps : join sep (p :: ps) = match ps with [] => p | _ => p ++ sep :: join sep ps end.
Proof. done. Qed.

(** Joining undoes splitting. *)
Lemma join_split sep s : join sep (split_by (Z.eqb sep) s) = s.
Proof.
  induction s as [|c s IH]; simpl; [done|].
  destruct (split_by_cons_inv (Z.eqb sep) s) as (p & ps & E). rewrite E in *.
  destruct (Z.eqb_spec sep c) as [->|Hne].
  - by rewrite join_cons, IH.
  - rewrite join_cons in *. destruct ps; cbn [app]; by rewrite IH.
Qed.

Lemma split_by_no_sep sep s : Forall (fun p => (sep ∉ p)) (split_by (Z.eqb sep) s).
Proof.
  induction s as [|c s IH]; simpl; [repeat constructor; by intros ?%elem_of_nil|].
  destruct (split_by_cons_inv (Z.eqb sep) s) as (p & ps & E). rewrite E in *.
  destruct (Z.eqb_spec sep c) as [->|Hne]; [constructor; [by intros ?%elem_of_nil|done]|].
  apply Forall_cons in IH as [Hp Hps]. constructor; [|done].
  by intros [|]%elem_of_cons.
Qed.

Lemma elem_of_split_by sep s p c : p ∈ split_by sep s -> c ∈ p -> c ∈ s.
Proof.
  revert p. induction s as [|x s IH]; simpl; intros p Hp Hc.
  { apply list_elem_of_singleton in Hp as ->. done. }
  destruct (split_by_cons_inv sep s) as (q & qs & E). rewrite E in *. destruct (sep x).
  - apply elem_of_cons in Hp as [->|Hp]; [by apply elem_of_nil in Hc|]. right. by apply (IH p).
  - apply elem_of_cons in Hp as [->|Hp].
    + apply elem_of_cons in Hc as [->|Hc]; [by left|right]. apply (IH q); [by left|done].
    + right. apply (IH p); [by right|done].
Qed.

Lemma elem_of_join sep parts c : c ∈ join sep parts -> c = sep \/ exists p, p ∈ parts /\ c ∈ p.
Proof.
  induction parts as [|p ps IH]; [by intros ?%elem_of_nil|]. rewrite join_cons.
  destruct ps as [|q ps]; intros Hc.
  - right. exists p. split; [by left|done].
  - apply elem_of_app in Hc as [Hc|Hc]; [right; exists p; split; [by left|done]|].
    apply elem_of_cons in Hc as [->|Hc]; [by left|].
    destruct (IH Hc) as [->|(r & Hr & Hcr)]; [by left|right]. exists r. split; [by right|done].
Qed.

Lemma elem_of_replace_char from to s c : c ∈ replace_char from to s ->
  c = to \/ (c <> from /\ c ∈ s).
Proof.
  unfold replace_char. intros (x & -> & Hx)%list_elem_of_fmap.
  destruct (Z.eqb_spec x from); [by left|by right].
Qed.

Lemma replace_char_id from to s : (from ∉ s) -> replace_char from to s = s.
Proof.
  unfold replace_char. induction s as [|c s IH]; simpl; intros Hn; [done|].
  rewrite elem_of_cons in Hn. destruct (Z.eqb_spec c from); [subst; tauto|]. f_equal. apply IH. tauto.
Qed.

Lemma strip_prefix_spec p s r : strip_prefix p s = Some r <-> s = p ++ r.
Proof.
  revert s. induction p as [|x p IH]; intros [|y s]; simpl; try (by split; [intros [= ->]|]).
  - split; [by intros [= <-]|by intros <-].
  - split; [by intros [= <-]|by intros <-].
  - destruct (Z.eqb_spec x y) as [->|Hne]; [rewrite IH; split; [by intros ->|by intros [= ->]]|].
    split; [done|]. intros [= ]. congruence.
Qed.
