(* ===== verification/Bytes.v ===== *)
(** * Byte streams fed to a digest

    Bytes are integers in [0, 255].  The code frames what it hashes: a length as
    eight little-endian bytes before each string, a count after a sequence.
    The lemmas say that framing is injective, so that two different values are
    never hashed as the same stream. *)

From S2P Require Import Prelude Chars.
Open Scope Z_scope.

Abbreviation bytes := (list Z).

(** [u64::to_le_bytes]. *)
Fixpoint le_bytes (n : nat) (v : Z) : bytes :=
  match n with
  | O => []
  | S n => v mod 256 :: le_bytes n (v / 256)
  end.
Definition le64 (v : Z) : bytes := le_bytes 8 v.

(** [u64::from_le_bytes]. *)
Fixpoint of_le_bytes (b : bytes) : Z :=
  match b with
  | [] => 0
  | x :: b => x + 256 * of_le_bytes b
  end.

(** The bytes of an ASCII or otherwise byte-held string. *)
Definition string_bytes (s : string) : bytes :=
  map (fun c => Z.of_N (Ascii.N_of_ascii c)) (String.list_ascii_of_string s).

(** [str::as_bytes]: UTF-8. *)
Definition utf8_char (c : Z) : bytes :=
  if c <? 0x80 then [c]
  else if c <? 0x800 then [0xC0 + c / 64; 0x80 + c mod 64]
  else if c <? 0x10000 then [0xE0 + c / 4096; 0x80 + (c / 64) mod 64; 0x80 + c mod 64]
  else [0xF0 + c / 262144; 0x80 + (c / 4096) mod 64; 0x80 + (c / 64) mod 64; 0x80 + c mod 64].
Definition utf8 (s : str) : bytes := concat (map utf8_char s).

(** [std::str::from_utf8]: the code points of a well-formed UTF-8 sequence. *)
Definition is_continuation (b : Z) : bool := (0x80 <=? b) && (b <=? 0xBF).
Fixpoint from_utf8 (b : bytes) : option str :=
  match b with
  | [] => Some []
  | b0 :: r0 =>
    if b0 <? 0x80 then cons b0 <$> from_utf8 r0
    else match r0 with
    | [] => None
    | b1 :: r1 =>
      if (0xC2 <=? b0) && (b0 <=? 0xDF) && is_continuation b1
      then cons ((b0 - 0xC0) * 64 + (b1 - 0x80)) <$> from_utf8 r1
      else match r1 with
      | [] => None
      | b2 :: r2 =>
        let c := (b0 - 0xE0) * 4096 + (b1 - 0x80) * 64 + (b2 - 0x80) in
        if (0xE0 <=? b0) && (b0 <=? 0xEF) && is_continuation b1 && is_continuation b2
           && (0x800 <=? c) && negb ((0xD800 <=? c) && (c <=? 0xDFFF))
        then cons c <$> from_utf8 r2
        else match r2 with
        | [] => None
        | b3 :: r3 =>
          let c := (b0 - 0xF0) * 262144 + (b1 - 0x80) * 4096 + (b2 - 0x80) * 64 + (b3 - 0x80) in
          if (0xF0 <=? b0) && (b0 <=? 0xF4) && is_continuation b1 && is_continuation b2
             && is_continuation b3 && (0x10000 <=? c) && (c <=? 0x10FFFF)
          then cons c <$> from_utf8 r3
          else None
        end
      end
    end
  end.

(** [hasher.update(&(len as u64).to_le_bytes()); hasher.update(bytes)]. *)
Definition framed (b : bytes) : bytes := le64 (len b) ++ b.

(** ** Lemmas *)
Lemma le_bytes_length n v : length (le_bytes n v) = n.
Proof. revert v. induction n as [|n IH]; intros v; simpl; [done|]. by rewrite IH. Qed.

Lemma of_le_bytes_le n v : 0 <= v < 256 ^ Z.of_nat n -> of_le_bytes (le_bytes n v) = v.
Proof.
  revert v. induction n as [|n IH]; intros v Hv; simpl.
  { change (256 ^ Z.of_nat 0) with 1 in Hv. lia. }
  rewrite Nat2Z.inj_succ, Z.pow_succ_r in Hv by lia.
  rewrite IH; [pose proof (Z.div_mod v 256); lia|].
  split; [apply Z.div_pos; lia|]. apply Z.div_lt_upper_bound; lia.
Qed.

Lemma le64_inj a b : is_u64 a -> is_u64 b -> le64 a = le64 b -> a = b.
Proof.
  unfold is_u64, U64_MAX. intros Ha Hb He.
  rewrite <-(of_le_bytes_le 8 a), <-(of_le_bytes_le 8 b); [by unfold le64 in He; rewrite He|..];
    change (256 ^ Z.of_nat 8) with 18446744073709551616; lia.
Qed.

Lemma le64_app_inj a b r1 r2 : is_u64 a -> is_u64 b -> le64 a ++ r1 = le64 b ++ r2 ->
  a = b /\ r1 = r2.
Proof.
  intros Ha Hb He. apply app_inj_1 in He as [Hl ->]; [|unfold le64; by rewrite !le_bytes_length].
  split; [|done]. by apply le64_inj.
Qed.

(** A framed string is a prefix code. *)
Lemma framed_inj a b r1 r2 : is_u64 (len a) -> is_u64 (len b) ->
  framed a ++ r1 = framed b ++ r2 -> a = b /\ r1 = r2.
Proof.
  intros Ha Hb. unfold framed. rewrite <-!app_assoc. intros He.
  apply app_inj_1 in He as [Hl He]; [|unfold le64; by rewrite !le_bytes_length].
  apply le64_inj in Hl; [|done..]. apply app_inj_1 in He; [done|]. unfold len in Hl. lia.
Qed.

Lemma framed_length b : (8 <= length (framed b))%nat.
Proof. unfold framed, le64. rewrite length_app, le_bytes_length. lia. Qed.

(** Unicode scalar values. *)
Definition is_char (c : Z) : Prop := 0 <= c < 0x110000.

Lemma utf8_char_inj c d r1 r2 : is_char c -> is_char d ->
  utf8_char c ++ r1 = utf8_char d ++ r2 -> c = d /\ r1 = r2.
Proof.
  unfold is_char, utf8_char. intros Hc Hd.
  assert (Hdm : forall x, x = 64 * (x / 64) + x mod 64 /\ 0 <= x mod 64 < 64).
  { intros x. split; [apply Z.div_mod; lia|apply Z.mod_pos_bound; lia]. }
  assert (Hq : forall x k, 0 < k -> x / (64 * k) = x / 64 / k) by (intros; symmetry;
    apply Z.div_div; lia).
  pose proof (Hdm c). pose proof (Hdm d).
  pose proof (Hdm (c / 64)). pose proof (Hdm (d / 64)).
  pose proof (Hdm (c / 4096)). pose proof (Hdm (d / 4096)).
  assert (c / 4096 = c / 64 / 64) by (apply (Hq c 64); lia).
  assert (d / 4096 = d / 64 / 64) by (apply (Hq d 64); lia).
  assert (c / 262144 = c / 4096 / 64) by (rewrite Z.div_div by lia; done).
  assert (d / 262144 = d / 4096 / 64) by (rewrite Z.div_div by lia; done).
  destruct (c <? 0x80) eqn:C1; [|destruct (c <? 0x800) eqn:C2; [|destruct (c <? 0x10000) eqn:C3]];
    (destruct (d <? 0x80) eqn:D1; [|destruct (d <? 0x800) eqn:D2; [|destruct (d <? 0x10000) eqn:D3]]);
    bool_to_prop; simpl; intros He; injection He; intros; subst; try (exfalso; lia);
    (split; [lia|done]).
Qed.

Lemma utf8_char_cons c : exists x r, utf8_char c = x :: r.
Proof. unfold utf8_char. repeat destruct (_ <? _); by eexists _, _. Qed.

Lemma utf8_inj s t : Forall is_char s -> Forall is_char t -> utf8 s = utf8 t -> s = t.
Proof.
  intros Hs. revert t. induction Hs as [|c s Hc Hs IH]; intros [|d t] Ht; unfold utf8; simpl.
  - done.
  - destruct (utf8_char_cons d) as (x & r & ->). done.
  - destruct (utf8_char_cons c) as (x & r & ->). done.
  - apply Forall_cons in Ht as [Hd Ht]. intros He.
    apply utf8_char_inj in He as [-> He]; [|done..]. f_equal. by apply IH.
Qed.

Lemma string_bytes_inj s t : string_bytes s = string_bytes t -> s = t.
Proof.
  unfold string_bytes. intros He.
  assert (Hl : String.list_ascii_of_string s = String.list_ascii_of_string t).
  { revert He. generalize (String.list_ascii_of_string s), (String.list_ascii_of_string t).
    induction l as [|a l IH]; intros [|b l']; simpl; try done. intros [= Hab Hl].
    f_equal; [|by apply IH]. apply N2Z.inj in Hab.
    by rewrite <-(Ascii.ascii_N_embedding a), Hab, Ascii.ascii_N_embedding. }
  by rewrite <-(String.string_of_list_ascii_of_string s), Hl,
    String.string_of_list_ascii_of_string.
Qed.

(** Values of type [u8]. *)
Definition is_byte (b : Z) : Prop := 0 <= b < 256.

Lemma of_le_bytes_bound b : Forall is_byte b -> 0 <= of_le_bytes b < 256 ^ len b.
Proof.
  unfold len. induction 1 as [|x b Hx _ IH]; simpl length; cbn [of_le_bytes].
  - change (256 ^ Z.of_nat 0) with 1. lia.
  - rewrite Nat2Z.inj_succ, Z.pow_succ_r by lia. unfold is_byte in Hx. lia.
Qed.

(** Eight bytes, or any fixed number, and their value determine each other. *)
Lemma le_bytes_of b : Forall is_byte b -> le_bytes (length b) (of_le_bytes b) = b.
Proof.
  induction 1 as [|x b Hx _ IH]; simpl; [done|]. unfold is_byte in Hx.
  rewrite (Z.mul_comm 256), Z.mod_add, Z.mod_small, Z.div_add by lia.
  by rewrite (Z.div_small x), Z.add_0_l, IH by lia.
Qed.

Lemma le_bytes_bytes n v : Forall is_byte (le_bytes n v).
Proof.
  revert v. induction n as [|n IH]; intros v; constructor; [|apply IH].
  unfold is_byte. apply Z.mod_pos_bound. lia.
Qed.

(** ** ASCII inside UTF-8 *)
Definition is_ascii_byte (b : Z) : Prop := 0 <= b < 128.

(** [w] occurs in [s] at consecutive positions. *)
Definition occurs {A} (w s : list A) : Prop := exists p q, s = p ++ w ++ q.

Lemma from_utf8_ascii b : Forall is_ascii_byte b -> from_utf8 b = Some b.
Proof.
  induction 1 as [|x b Hx _ IH]; cbn [from_utf8]; [done|]. unfold is_ascii_byte in Hx.
  rewrite (proj2 (Z.ltb_lt _ _)) by lia. by rewrite IH.
Qed.

Lemma utf8_ascii b : Forall is_ascii_byte b -> utf8 b = b.
Proof.
  unfold utf8. induction 1 as [|x b Hx _ IH]; cbn [map concat]; [done|]. unfold is_ascii_byte in Hx.
  rewrite IH. unfold utf8_char. by rewrite (proj2 (Z.ltb_lt x _)) by lia.
Qed.

(** A character is one ASCII byte, or bytes none of which is ASCII. *)
Lemma utf8_char_cases c : 0 <= c ->
  (is_ascii_byte c /\ utf8_char c = [c]) \/ (utf8_char c <> [] /\ Forall (fun b => ~ is_ascii_byte b) (utf8_char c)).
Proof.
  intros Hc. unfold utf8_char, is_ascii_byte.
  assert (Hm : forall x, 0 <= x mod 64) by (intros; apply Z.mod_pos_bound; lia).
  destruct (c <? 0x80) eqn:H1; bool_to_prop; [left; split; [lia|done]|right].
  pose proof (Hm c). pose proof (Hm (c / 64)). pose proof (Hm (c / 4096)).
  assert (0 <= c / 64 /\ 0 <= c / 4096 /\ 0 <= c / 262144)
    by (repeat split; apply Z.div_pos; lia).
  destruct (c <? 0x800); [|destruct (c <? 0x10000)]; (split; [done|]); repeat constructor; lia.
Qed.

Lemma ascii_prefix_utf8 t s q : Forall is_ascii_byte t -> Forall is_char s ->
  utf8 s = t ++ q -> exists q', s = t ++ q'.
Proof.
  intros Ht. revert s. induction Ht as [|b t Hb Ht IH]; intros s Hs He; [by exists s|].
  destruct s as [|c s]; [done|]. apply Forall_cons in Hs as [Hc Hs].
  unfold utf8 in He. cbn [map concat app] in He. unfold is_char in Hc.
  destruct (utf8_char_cases c) as [[_ Hcc]|[Hn Hcc]]; [lia|..].
  - rewrite Hcc in He. cbn in He. injection He as -> He. destruct (IH s Hs He) as [q' ->]. by exists q'.
  - destruct (utf8_char c) as [|x r]; [done|]. cbn in He. injection He as -> _.
    by apply Forall_cons in Hcc as [? _].
Qed.

(** ASCII bytes found in UTF-8 text are characters found in the text. *)
Lemma ascii_occurs_utf8 t s : t <> [] -> Forall is_ascii_byte t -> Forall is_char s ->
  occurs t (utf8 s) -> occurs t s.
Proof.
  intros Hne Ht Hs (p & q & He). revert p He. induction Hs as [|c s Hc Hs IH]; intros p He.
  - unfold utf8 in He. simpl in He. by destruct p, t.
  - assert (Hprefix : p = [] -> occurs t (c :: s)).
    { intros ->. destruct (ascii_prefix_utf8 t (c :: s) q Ht) as [q' Hq]; [by constructor|done|].
      by exists [], q'. }
    unfold utf8 in He. cbn [map concat] in He. fold (utf8 s) in He.
    destruct (decide (p = [])) as [Hp|Hp]; [auto|].
    apply app_eq_inv in He as [(k & Hk & He)|(k & Hk & He)].
    + destruct k as [|b k].
      * rewrite app_nil_r in Hk. cbn in He. destruct (IH []) as (p' & q' & ->); [done|].
        by exists (c :: p'), q'.
      * exfalso. destruct t as [|b' t]; [done|]. cbn in He. injection He as -> He.
        apply Forall_cons in Ht as [Hb _]. unfold is_char in Hc.
        destruct (utf8_char_cases c) as [[_ Hcc]|[_ Hcc]]; [lia|..].
        -- rewrite Hcc in Hk. destruct p as [|? [|]]; [done|by destruct k|done].
        -- rewrite Hk in Hcc. apply Forall_app in Hcc as [_ Hcc]. by apply Forall_cons in Hcc as [? _].
    + destruct (IH k) as (p' & q' & ->); [done|]. by exists (c :: p'), q'.
Qed.
