(* ===== verification/Order.v ===== *)
(** * Orders, sorting and searching

    The total orders the code sorts by, the least element an
    [ORDER BY .. LIMIT 1] selects, [sort] followed by [dedup], and the standard
    library's [binary_search]. *)

From S2P Require Import Prelude.
Open Scope Z_scope.

Class KeyOrder (K : Type) := {
  key_lt : K -> K -> bool;
  key_lt_irrefl : forall a, key_lt a a = false;
  key_lt_trans : forall a b c, key_lt a b = true -> key_lt b c = true -> key_lt a c = true;
  key_lt_total : forall a b, key_lt a b = false -> key_lt b a = false -> a = b
}.

#[export, refine] Instance Z_order : KeyOrder Z := {| key_lt := Z.ltb |}.
Proof.
  - intros. by rewrite Z.ltb_irrefl.
  - intros *. rewrite !Z.ltb_lt. lia.
  - intros *. rewrite !Z.ltb_ge. lia.
Defined.

(** SQLite's BINARY collation and Rust's [str] order: bytewise. *)
Definition string_ltb (a b : string) : bool :=
  match String.compare a b with Lt => true | _ => false end.

Lemma ascii_compare_refl a : Ascii.compare a a = Eq.
Proof. unfold Ascii.compare. apply N.compare_refl. Qed.

Lemma string_compare_refl a : String.compare a a = Eq.
Proof. induction a; simpl; [done|]. by rewrite ascii_compare_refl. Qed.

#[export, refine] Instance string_order : KeyOrder string := {| key_lt := string_ltb |}.
Proof.
  - intros a. unfold string_ltb. by rewrite string_compare_refl.
  - unfold string_ltb. intros a b c.
    destruct (String.compare a b) eqn:Hab; [done| |done].
    destruct (String.compare b c) eqn:Hbc; [done| |done]. intros _ _.
    enough (String.compare a c = Lt) as ->; [done|].
    revert b c Hab Hbc. induction a as [|x a IH]; intros [|y b] [|z c]; simpl; try done.
    destruct (Ascii.compare x y) eqn:Hxy; [|intros _|done];
      (destruct (Ascii.compare y z) eqn:Hyz; [|intros _|done]).
    + apply Ascii.compare_eq_iff in Hxy as ->, Hyz as ->.
      rewrite ascii_compare_refl. apply IH.
    + apply Ascii.compare_eq_iff in Hxy as ->. by rewrite Hyz.
    + apply Ascii.compare_eq_iff in Hyz as ->. by rewrite Hxy.
    + unfold Ascii.compare in *. rewrite N.compare_lt_iff in Hxy, Hyz.
      by rewrite (proj2 (N.compare_lt_iff _ _)) by lia.
  - unfold string_ltb. intros a b. rewrite (String.compare_antisym b a).
    destruct (String.compare a b) eqn:E; simpl; try done.
    intros _ _. by apply String.compare_eq_iff.
Defined.

#[export, refine] Instance pair_order {A B} `{KeyOrder A, KeyOrder B} : KeyOrder (A * B) :=
  {| key_lt p q := key_lt p.1 q.1 || (negb (key_lt q.1 p.1) && key_lt p.2 q.2) |}.
Proof.
  - intros [a b]. simpl. by rewrite !key_lt_irrefl.
  - intros [a b] [a' b'] [a'' b'']. simpl. rewrite !orb_true_iff, !andb_true_iff, !negb_true_iff.
    intros H1 H2. destruct (key_lt a a'') eqn:E; [by left|]. right.
    destruct H1 as [H1|[H1 H1']], H2 as [H2|[H2 H2']].
    + rewrite (key_lt_trans a a' a'') in E by done. done.
    + destruct (key_lt a' a'') eqn:E'; [by rewrite (key_lt_trans a a' a'') in E|].
      rewrite (key_lt_total a' a'') in H1 by done. congruence.
    + destruct (key_lt a a') eqn:E'; [by rewrite (key_lt_trans a a' a'') in E|].
      rewrite (key_lt_total a a') in E by done. congruence.
    + split; [|by eapply key_lt_trans].
      destruct (key_lt a a') eqn:E1.
      * destruct (key_lt a' a'') eqn:E2; [by rewrite (key_lt_trans a a' a'') in E|].
        rewrite <-(key_lt_total a' a'') by done. done.
      * by rewrite (key_lt_total a a').
  - intros [a b] [a' b']. simpl. rewrite !orb_false_iff, !andb_false_iff, !negb_false_iff.
    intros [H1 H2] [H3 H4]. rewrite H1, H3 in *.
    destruct H2 as [|H2], H4 as [|H4]; try done.
    by rewrite (key_lt_total a a'), (key_lt_total b b').
Defined.

#[export] Instance key_lt_decision {K} `{KeyOrder K} (a b : K) : Decision (key_lt a b = true).
Proof. apply _. Defined.

(** Lexicographic order on lists, a prefix first: [str] and [Vec] order. *)
Fixpoint list_lt {A} `{KeyOrder A} (a b : list A) : bool :=
  match a, b with
  | _, [] => false
  | [], _ :: _ => true
  | x :: a, y :: b => key_lt x y || (negb (key_lt y x) && list_lt a b)
  end.

#[export, refine] Instance list_order {A} `{KeyOrder A} : KeyOrder (list A) := {| key_lt := list_lt |}.
Proof.
  - intros a. induction a as [|x a IH]; simpl; [done|]. by rewrite key_lt_irrefl, IH.
  - intros a. induction a as [|x a IH]; intros [|y b] [|z c]; simpl; try done.
    rewrite !orb_true_iff, !andb_true_iff, !negb_true_iff. intros H1 H2.
    destruct (key_lt x z) eqn:E; [by left|]. right.
    destruct H1 as [H1|[H1 H1']], H2 as [H2|[H2 H2']].
    + rewrite (key_lt_trans x y z) in E by done. done.
    + destruct (key_lt y z) eqn:E'; [by rewrite (key_lt_trans x y z) in E|].
      rewrite (key_lt_total y z) in H1 by done. congruence.
    + destruct (key_lt x y) eqn:E'; [by rewrite (key_lt_trans x y z) in E|].
      rewrite (key_lt_total x y) in E by done. congruence.
    + split; [|by eapply IH].
      destruct (key_lt x y) eqn:E1.
      * destruct (key_lt y z) eqn:E2; [by rewrite (key_lt_trans x y z) in E|].
        rewrite <-(key_lt_total y z) by done. done.
      * by rewrite (key_lt_total x y).
  - intros a. induction a as [|x a IH]; intros [|y b]; simpl; try done.
    rewrite !orb_false_iff, !andb_false_iff, !negb_false_iff.
    intros [H1 H2] [H3 H4]. rewrite H1, H3 in *.
    destruct H2 as [|H2], H4 as [|H4]; try done.
    by rewrite (key_lt_total x y), (IH b).
Defined.

(** ** The least row *)
Section Least.
Context {A K : Type} `{KeyOrder K} (key : A -> K).

Definition least (l : list A) : option A :=
  fold_right (fun x acc =>
    match acc with
    | None => Some x
    | Some y => if key_lt (key y) (key x) then Some y else Some x
    end) None l.

Lemma least_none l : least l = None <-> l = [].
Proof.
  destruct l as [|x l]; simpl; [done|]. split; [|done].
  destruct (least l); [destruct (key_lt _ _)|]; done.
Qed.

Lemma least_spec l x : least l = Some x -> x ∈ l /\ forall y, y ∈ l -> key_lt (key y) (key x) = false.
Proof.
  revert x. induction l as [|a l IH]; simpl; intros x; [done|].
  destruct (least l) as [y|] eqn:E.
  - destruct (IH y eq_refl) as [Hy Hmin].
    destruct (key_lt (key y) (key a)) eqn:Hlt; intros [= <-].
    + split; [by right|]. intros z [->|Hz]%elem_of_cons; [|by apply Hmin].
      destruct (key_lt (key a) (key y)) eqn:Hlt'; [|done].
      by rewrite <-(key_lt_irrefl (key a)), (key_lt_trans _ _ _ Hlt' Hlt).
    + split; [by left|]. intros z [->|Hz]%elem_of_cons; [apply key_lt_irrefl|].
      destruct (key_lt (key z) (key a)) eqn:Hza; [|done]. specialize (Hmin z Hz).
      destruct (key_lt (key a) (key y)) eqn:Hay.
      * by rewrite (key_lt_trans _ _ _ Hza Hay) in Hmin.
      * rewrite (key_lt_total _ _ Hay Hlt) in Hza. congruence.
  - intros [= <-]. apply least_none in E as ->. split; [by left|].
    intros z ->%list_elem_of_singleton. apply key_lt_irrefl.
Qed.
End Least.


(** ** [sort] and [dedup] *)
Section Sorting.
Context {A : Type} `{KeyOrder A} `{EqDecision A}.

(** [a <= b]. *)
Definition key_le (a b : A) : Prop := key_lt b a = false.
#[global] Instance key_le_dec : RelDecision key_le.
Proof. intros a b. unfold key_le. apply _. Defined.
#[global] Instance key_le_total : Total key_le.
Proof.
  intros a b. unfold key_le. destruct (key_lt b a) eqn:E; [right|by left].
  destruct (key_lt a b) eqn:E'; [|done]. by rewrite <-(key_lt_irrefl a), (key_lt_trans _ _ _ E' E).
Qed.
#[global] Instance key_le_trans : Transitive key_le.
Proof.
  intros a b c. unfold key_le. intros Hab Hbc. destruct (key_lt c a) eqn:E; [|done].
  destruct (key_lt c b) eqn:Ecb; [done|].
  assert (b = c \/ key_lt b c = true) as [->|Hlt].
  { destruct (key_lt b c) eqn:Ebc; [by right|]. left. by apply key_lt_total. }
  - congruence.
  - by rewrite (key_lt_trans _ _ _ Hlt E) in Hab.
Qed.
Lemma key_le_antisym a b : key_le a b -> key_le b a -> a = b.
Proof. intros H1 H2. by apply key_lt_total. Qed.

Lemma key_lt_asym a b : key_lt a b = true -> key_lt b a = true -> False.
Proof. intros H1 H2. pose proof (key_lt_trans _ _ _ H1 H2) as Hc. by rewrite key_lt_irrefl in Hc. Qed.

Definition sort_keys (l : list A) : list A := merge_sort key_le l.

(** [Vec::dedup]: of equal neighbours the first stays. *)
Fixpoint dedup_from (x : A) (l : list A) : list A :=
  match l with
  | [] => [x]
  | y :: l => if bool_decide (x = y) then dedup_from x l else x :: dedup_from y l
  end.
Definition dedup (l : list A) : list A :=
  match l with [] => [] | x :: l => dedup_from x l end.

Definition sort_dedup (l : list A) : list A := dedup (sort_keys l).

Lemma elem_of_dedup_from x l z : z ∈ dedup_from x l <-> z ∈ x :: l.
Proof.
  revert x. induction l as [|y l IH]; intros x; simpl; [done|].
  case_bool_decide as Hxy; [subst|]; rewrite ?elem_of_cons, IH, ?elem_of_cons; tauto.
Qed.

Lemma elem_of_dedup l x : x ∈ dedup l <-> x ∈ l.
Proof. destruct l; [done|apply elem_of_dedup_from]. Qed.

(** Strictly increasing. *)
Definition increasing (l : list A) : Prop := StronglySorted (fun a b => key_lt a b = true) l.

Lemma increasing_NoDup l : increasing l -> NoDup l.
Proof.
  induction 1 as [|x l _ IH Hx]; constructor; [|done]. rewrite Forall_forall in Hx.
  intros Hin%Hx. by rewrite key_lt_irrefl in Hin.
Qed.

Lemma key_le_lt a b c : key_le a b -> a <> b -> key_le b c -> key_lt a c = true.
Proof.
  intros Hab Hne Hbc. destruct (key_lt a c) eqn:E; [done|exfalso]. apply Hne.
  apply key_le_antisym; [done|]. by etrans; [exact Hbc|].
Qed.

Lemma dedup_from_increasing x l : StronglySorted key_le (x :: l) -> increasing (dedup_from x l).
Proof.
  revert x. induction l as [|y l IH]; intros x Hs; simpl; [by repeat constructor|].
  apply StronglySorted_inv in Hs as [Hs Hall].
  apply Forall_cons in Hall as [Hxy Hall].
  case_bool_decide as Heq; [subst; by apply IH|]. constructor; [by apply IH|].
  apply Forall_forall. intros z Hz%elem_of_dedup_from.
  apply (key_le_lt x y); [done|done|].
  apply elem_of_cons in Hz as [->|Hz]; [apply key_lt_irrefl|].
  apply StronglySorted_inv in Hs as [_ Hs]. rewrite Forall_forall in Hs. by apply Hs.
Qed.

Lemma dedup_increasing l : StronglySorted key_le l -> increasing (dedup l).
Proof. destruct l; [constructor|apply dedup_from_increasing]. Qed.

Lemma sort_dedup_increasing l : increasing (sort_dedup l).
Proof. apply dedup_increasing. apply StronglySorted_merge_sort; apply _. Qed.

Lemma elem_of_sort_dedup l x : x ∈ sort_dedup l <-> x ∈ l.
Proof. unfold sort_dedup, sort_keys. by rewrite elem_of_dedup, merge_sort_Permutation. Qed.

(** An increasing list is determined by its elements. *)
Lemma increasing_unique l1 l2 : increasing l1 -> increasing l2 ->
  (forall x, x ∈ l1 <-> x ∈ l2) -> l1 = l2.
Proof.
  revert l2. induction l1 as [|x l1 IH]; intros [|y l2] H1 H2 Hel; [done| | |].
  - exfalso. apply (not_elem_of_nil y), Hel. by left.
  - exfalso. apply (not_elem_of_nil x), Hel. by left.
  - apply StronglySorted_inv in H1 as [H1 Hx], H2 as [H2 Hy].
    rewrite Forall_forall in Hx. rewrite Forall_forall in Hy.
    assert (x = y) as ->.
    { pose proof (proj1 (Hel x) ltac:(by left)) as [|Hx2]%elem_of_cons; [done|].
      pose proof (proj2 (Hel y) ltac:(by left)) as [|Hy1]%elem_of_cons; [done|].
      specialize (Hx y Hy1). specialize (Hy x Hx2).
      by destruct (key_lt_asym _ _ Hx Hy). }
    f_equal. apply IH; [done|done|]. intros z. specialize (Hel z).
    assert (Hn1 : (y ∉ l1)) by (intros Hin; specialize (Hx y Hin); by rewrite key_lt_irrefl in Hx).
    assert (Hn2 : (y ∉ l2)) by (intros Hin; specialize (Hy y Hin); by rewrite key_lt_irrefl in Hy).
    rewrite !elem_of_cons in Hel. split; intros Hz.
    + destruct (proj1 Hel) as [->|]; [by right|done|done].
    + destruct (proj2 Hel) as [->|]; [by right|done|done].
Qed.

Lemma sort_dedup_unique l1 l2 : (forall x, x ∈ l1 <-> x ∈ l2) -> sort_dedup l1 = sort_dedup l2.
Proof.
  intros Hel. apply increasing_unique; [apply sort_dedup_increasing..|].
  intros x. by rewrite !elem_of_sort_dedup.
Qed.

Lemma sort_dedup_fixed l : increasing l -> sort_dedup l = l.
Proof.
  intros Hl. apply increasing_unique; [apply sort_dedup_increasing|done|].
  intros x. apply elem_of_sort_dedup.
Qed.

Lemma sort_keys_increasing l : NoDup l -> increasing (sort_keys l).
Proof.
  intros Hn. assert (NoDup (sort_keys l)) as Hs by (unfold sort_keys; by rewrite merge_sort_Permutation).
  assert (StronglySorted key_le (sort_keys l)) as Hle by (apply StronglySorted_merge_sort; apply _).
  induction Hle as [|x l' _ IH Hx]; [constructor|]. apply NoDup_cons in Hs as [Hnx Hs].
  constructor; [by apply IH|]. apply Forall_forall. intros y Hy. rewrite Forall_forall in Hx.
  specialize (Hx y Hy). destruct (key_lt x y) eqn:E; [done|]. exfalso. apply Hnx.
  by rewrite (key_le_antisym x y Hx E).
Qed.

(** ** [slice::binary_search] *)

(** The loop of the standard library: [base] is the start of a window of
    [size] elements that holds [x] if the sorted slice does. *)
Fixpoint binary_search_from (fuel : nat) (l : list A) (x : A) (base size : nat) : nat :=
  match fuel with
  | O => base
  | S fuel =>
    if (size <=? 1)%nat then base
    else
      let half := (size / 2)%nat in
      let mid := (base + half)%nat in
      let base := match l !! mid with
                  | Some y => if key_lt x y then base else mid
                  | None => base
                  end in
      binary_search_from fuel l x base (size - half)
  end.

(** [binary_search(x).is_ok()]. *)
Definition binary_search_found (l : list A) (x : A) : bool :=
  match l with
  | [] => false
  | _ => match l !! binary_search_from (length l) l x 0 (length l) with
         | Some y => bool_decide (y = x)
         | None => false
         end
  end.

Lemma increasing_lookup l i j a b : increasing l -> l !! i = Some a -> l !! j = Some b ->
  (i < j)%nat -> key_lt a b = true.
Proof.
  intros Hl. revert i j. induction Hl as [|x l Hl IH Hx]; intros [|i] [|j] Ha Hb Hij;
    simpl in *; try done; try lia.
  - injection Ha as <-. rewrite Forall_forall in Hx. by apply Hx, (list_elem_of_lookup_2 _ j).
  - apply (IH i j); [done|done|lia].
Qed.

Lemma binary_search_from_spec fuel l x base size i :
  increasing l -> l !! i = Some x -> (base <= i < base + size)%nat -> (size <= fuel)%nat ->
  binary_search_from fuel l x base size = i.
Proof.
  intros Hl Hi. revert base size. induction fuel as [|fuel IH]; intros base size Hb Hf; cbn [binary_search_from]; [lia|].
  cbv zeta.
  destruct (size <=? 1)%nat eqn:E; bool_to_prop; [lia|].
  assert (Hhalf : (0 < size / 2 /\ 2 * (size / 2) <= size)%nat).
  { split; [apply Nat.div_str_pos; lia|apply Nat.Div0.mul_div_le]. }
  destruct (l !! (base + size / 2)%nat) as [y|] eqn:Hy.
  - destruct (key_lt x y) eqn:Hxy.
    + apply IH; [|lia]. split; [lia|].
      destruct (Nat.lt_ge_cases i (base + size / 2)) as [|Hge]; [lia|exfalso].
      destruct (Nat.eq_dec i (base + size / 2)) as [->|Hne].
      * assert (x = y) as -> by congruence. by rewrite key_lt_irrefl in Hxy.
      * pose proof (increasing_lookup l _ i y x Hl Hy Hi ltac:(lia)) as Hyx.
        by destruct (key_lt_asym _ _ Hxy Hyx).
    + apply IH; [|lia]. destruct (Nat.lt_ge_cases i (base + size / 2)) as [Hlt|]; [|lia].
      exfalso. pose proof (increasing_lookup l i _ x y Hl Hi Hy Hlt). congruence.
  - apply lookup_ge_None in Hy. pose proof (lookup_lt_Some _ _ _ Hi). apply IH; lia.
Qed.

Lemma binary_search_found_iff l x : increasing l -> binary_search_found l x = true <-> x ∈ l.
Proof.
  intros Hl. unfold binary_search_found. destruct l as [|a l'] eqn:El.
  { split; [done|by intros ?%elem_of_nil]. }
  rewrite <-El in *. split.
  - destruct (l !! _) as [y|] eqn:Hy; [|done]. intros ->%bool_decide_eq_true.
    by eapply list_elem_of_lookup_2.
  - intros [i Hi]%list_elem_of_lookup_1. pose proof (lookup_lt_Some _ _ _ Hi).
    rewrite (binary_search_from_spec _ l x 0 (length l) i) by (done || lia).
    rewrite Hi. by apply bool_decide_eq_true.
Qed.
End Sorting.
