(* ===== verification/Store.v ===== *)
(** * Shared vocabulary of the SQLite-backed bounded stores

    Errors, transactions, conversions between Rust and SQLite integers, sums
    over a table, and the eviction loop that every bounded store runs before an insert, proved
    once against the interface [QuotaStore]. *)

From S2P Require Import Prelude Order.
Open Scope Z_scope.

(** [RetrievalLimitKind] and [RegexWorkDimension], the members in use. *)
Inductive RetrievalLimitKind :=
| RegexChunksPerFile | RegexRetainedChunks | RegexCandidateChunks | RegexScopedRows
| RegexFullScanFiles.
Inductive RegexWorkDimension := CandidateFiles | CandidateChunks | CandidateBytes.

(** [IndexLimitKind]. *)
Inductive IndexLimitKind := LimitWalkEntries | LimitFiles | LimitTotalSourceBytes | LimitDepth.

(** [ResponseBudgetBreakdown]. *)
Record ResponseBudgetBreakdown := mk_breakdown {
  mandatory_response_tokens : Z;
  breakdown_source_tokens : Z;
  breakdown_protocol_tokens : Z;
  breakdown_path_and_metadata_tokens : Z;
  receipt_reserve_tokens : Z
}.
#[export] Instance breakdown_eq_dec : EqDecision ResponseBudgetBreakdown.
Proof. solve_decision. Defined.

(** ** Errors and fallible code: the variants of [src/src/error.rs] in use *)
Inductive error :=
| UnknownReceipt (id : string)
| UnknownQueryReceipt (id : string)
| QueryReceiptMismatch
| StaleQueryReceipt (receipt_generation repository_generation : Z)
| Cancelled
| StaleReceipt (receipt_generation repository_generation : Z)
| StaleReconciliation (expected actual : Z)
| StaleCursor
| InputTooLong (field : string) (max_bytes : Z)
| InvalidInput (field reason : string)
| OperationFailure (message : string)
| RetryableConflict
| LimitExceeded
| RequestLimitExceeded (field : string) (requested limit : Z)
| RetrievalLimitExceeded (kind : RetrievalLimitKind) (observed limit : Z)
| RetrievalPathLimitExceeded (kind : RetrievalLimitKind) (path : list Z) (observed limit : Z)
| RegexWorkBudgetExceeded (dimension : RegexWorkDimension)
    (candidate_files candidate_chunks candidate_bytes limit : Z)
| IndexLimitExceeded (kind : IndexLimitKind) (observed limit : Z)
| PathOutsideRoot (requested : list Z)
| UnsupportedPathEncoding
| RepositoryTraversal
| IoError
| InvalidGlob (pattern : list Z)
| InvalidConfiguration (message : string)
| InvalidConfigurationFrom (cause : error)
| RetrievalOverloaded
| IndexNotReady
| McpRuntimeStopped
| ReconciliationFailed (cause : error)
| Json (message : string)
| ResponseAccountingInvariant (message : string)
| ResponseBudgetExceeded (provided_max minimum_required retry_with_at_least : Z)
    (breakdown : ResponseBudgetBreakdown)
| SetupFailure (format : string) (path : list Z)
| SqlFailure.

#[export] Instance error_eq_dec : EqDecision error.
Proof. unfold EqDecision, Decision. decide equality; solve_decision. Defined.

Inductive result (A : Type) : Type :=
| Ok (a : A)
| Err (e : error).
Arguments Ok {A} _.
Arguments Err {A} _.

#[export] Instance result_eq_dec {A} `{EqDecision A} : EqDecision (result A).
Proof. solve_decision. Defined.

Definition result_bind {A B} (m : result A) (k : A -> result B) : result B :=
  match m with Ok a => k a | Err e => Err e end.

(** A transaction ends by committing the working state, with a value or an
    error, or is dropped on an early return and leaves the stored state alone. *)
Inductive tx (D A : Type) : Type :=
| Committed (d : D) (r : result A)
| RolledBack (e : error).
Arguments Committed {D A} _ _.
Arguments RolledBack {D A} _.

Definition tx_try {D A B} (m : result A) (k : A -> tx D B) : tx D B :=
  match m with Ok a => k a | Err e => RolledBack e end.

Definition run_try {D A B} (m : result A) (k : A -> run (tx D B)) : run (tx D B) :=
  match m with Ok a => k a | Err e => Done (RolledBack e) end.

(** A helper that works inside an open transaction: [Committed d (Ok a)] hands
    the working state and a value on, the other outcomes end the call. *)
Definition tx_bind {D A B} (m : tx D A) (k : D -> A -> tx D B) : tx D B :=
  match m with
  | Committed d (Ok a) => k d a
  | Committed d (Err e) => Committed d (Err e)
  | RolledBack e => RolledBack e
  end.

(** What the caller and the next transaction see. *)
Definition run_tx {D A} (d : D) (t : tx D A) : D * result A :=
  match t with
  | Committed d' r => (d', r)
  | RolledBack e => (d, Err e)
  end.

Declare Scope store_scope.
Delimit Scope store_scope with store.
Notation "'let*' x ':=' m 'in' k" := (result_bind m (fun x => k))
  (at level 10, x pattern, m at level 100, k at level 200) : store_scope.
Notation "'try!' x ':=' m 'in' k" := (tx_try m (fun x => k))
  (at level 10, x pattern, m at level 100, k at level 200) : store_scope.
Notation "'try?' x ':=' m 'in' k" := (run_try m (fun x => k))
  (at level 10, x pattern, m at level 100, k at level 200) : store_scope.
Open Scope store_scope.

(** ** Integer conversions ([storage/helpers.rs]) *)
Definition HARD_MAX_RESULTS : Z := 10000.
(** [bounded_limit]: [limit.clamp(1, HARD_MAX_RESULTS)], the limit of a query. *)
Definition bounded_limit (limit : nat) : nat := Z.to_nat (Z.max 1 (Z.min (Z.of_nat limit) HARD_MAX_RESULTS)).

Definition u64_to_i64 (value : Z) : result Z :=
  if value <=? I64_MAX then Ok value
  else Err (OperationFailure "value exceeds storage integer range").
Definition usize_to_i64 (value : Z) : result Z :=
  if value <=? I64_MAX then Ok value
  else Err (OperationFailure "value exceeds storage integer range").
Definition i64_to_u64 (value : Z) : result Z := if 0 <=? value then Ok value else Err SqlFailure.
Definition i64_to_usize (value : Z) : result Z := if 0 <=? value then Ok value else Err SqlFailure.

Lemma i64_to_usize_ok v : 0 <= v -> i64_to_usize v = Ok v.
Proof. intros. unfold i64_to_usize. by rewrite (proj2 (Z.leb_le 0 v)). Qed.
Lemma i64_to_u64_ok v : 0 <= v -> i64_to_u64 v = Ok v.
Proof. intros. unfold i64_to_u64. by rewrite (proj2 (Z.leb_le 0 v)). Qed.
Lemma usize_to_i64_ok v : v <= I64_MAX -> usize_to_i64 v = Ok v.
Proof. intros. unfold usize_to_i64. by rewrite (proj2 (Z.leb_le v I64_MAX)). Qed.
Lemma u64_to_i64_ok v : v <= I64_MAX -> u64_to_i64 v = Ok v.
Proof. intros. unfold u64_to_i64. by rewrite (proj2 (Z.leb_le v I64_MAX)). Qed.

(** A [CHECK (column >= 0)] constraint: a violation fails the statement. *)
Definition check_nonneg (values : list Z) : result () :=
  if forallb (fun v => 0 <=? v) values then Ok () else Err SqlFailure.

Lemma check_nonneg_ok values : Forall (fun v => 0 <= v) values -> check_nonneg values = Ok ().
Proof.
  intros H. unfold check_nonneg.
  assert (forallb (fun v => 0 <=? v) values = true) as ->; [|done].
  apply forallb_forall. intros v Hv%list_elem_of_In. rewrite Forall_forall in H.
  apply Z.leb_le. by apply H.
Qed.

(** ** Sums over a table *)
Section Sums.
Context {K : Type} `{Countable K} {R : Type}.

Definition map_sum (f : R -> Z) (m : gmap K R) : Z := map_fold (fun _ r acc => f r + acc) 0 m.

Lemma map_sum_insert f m i r : m !! i = None -> map_sum f (<[i:=r]> m) = f r + map_sum f m.
Proof. intros. unfold map_sum. rewrite map_fold_insert_L; [done|intros; lia|done]. Qed.

Lemma map_sum_delete f m i r : m !! i = Some r -> map_sum f m = f r + map_sum f (delete i m).
Proof.
  intros Hi. rewrite <-(map_sum_insert f (delete i m) i r) by apply lookup_delete_eq.
  by rewrite insert_delete_id.
Qed.

Lemma map_sum_replace f m i r r' :
  m !! i = Some r -> map_sum f (<[i:=r']> m) = map_sum f m - f r + f r'.
Proof.
  intros Hi. rewrite (map_sum_delete f m i r Hi), <-insert_delete_eq, map_sum_insert.
  - lia.
  - apply lookup_delete_eq.
Qed.

Lemma map_sum_empty f : map_sum f ∅ = 0.
Proof. apply map_fold_empty. Qed.

Lemma map_sum_nonneg f m : (forall i r, m !! i = Some r -> 0 <= f r) -> 0 <= map_sum f m.
Proof.
  induction m as [|i r m Hi IH] using map_ind; intros Hf; [by rewrite map_sum_empty|].
  rewrite map_sum_insert by done.
  assert (0 <= f r) by (apply (Hf i); apply lookup_insert_eq).
  assert (0 <= map_sum f m); [|lia].
  apply IH. intros j r' Hj. apply (Hf j). rewrite lookup_insert_ne; [done|congruence].
Qed.

Lemma map_sum_lookup f m i r :
  (forall i r, m !! i = Some r -> 0 <= f r) -> m !! i = Some r -> f r <= map_sum f m.
Proof.
  intros Hf Hi. rewrite (map_sum_delete f m i r Hi).
  assert (0 <= map_sum f (delete i m)); [|lia].
  apply map_sum_nonneg. intros j r' [_ Hj]%lookup_delete_Some. by apply (Hf j).
Qed.

(** The number of rows, as SQLite counts it. *)
Definition row_count (m : gmap K R) : Z := Z.of_nat (size m).

Lemma row_count_insert m i r : m !! i = None -> row_count (<[i:=r]> m) = row_count m + 1.
Proof. intros. unfold row_count. rewrite map_size_insert_None by done. lia. Qed.

Lemma row_count_replace m i r r' : m !! i = Some r -> row_count (<[i:=r']> m) = row_count m.
Proof. intros. unfold row_count. by rewrite map_size_insert_Some. Qed.

Lemma row_count_delete m i r : m !! i = Some r -> row_count m = row_count (delete i m) + 1.
Proof.
  intros Hi. rewrite <-(row_count_insert (delete i m) i r) by apply lookup_delete_eq.
  by rewrite insert_delete_id.
Qed.

Lemma map_sum_subseteq f m1 m2 : m1 ⊆ m2 -> (forall i r, m2 !! i = Some r -> 0 <= f r) ->
  map_sum f m1 <= map_sum f m2 /\ row_count m1 <= row_count m2.
Proof.
  revert m2. induction m1 as [|i r m1 Hi IH] using map_ind; intros m2 Hsub Hpos.
  - rewrite map_sum_empty. unfold row_count. rewrite map_size_empty.
    pose proof (map_sum_nonneg f m2 Hpos). lia.
  - assert (Hr : m2 !! i = Some r) by (eapply lookup_weaken; [apply lookup_insert_eq|done]).
    destruct (IH (delete i m2)) as [IH1 IH2].
    + rewrite <-(delete_id m1 i) by done. apply delete_mono. etrans; [|done].
      by apply insert_subseteq.
    + intros j r' [_ Hj]%lookup_delete_Some. by apply (Hpos j).
    + rewrite map_sum_insert, row_count_insert by done.
      rewrite (map_sum_delete f m2 i r Hr), (row_count_delete m2 i r Hr). lia.
Qed.

(** A table whose every key is [i] holds at most the row [i]. *)
Lemma sole_row_count m i : (forall j r, m !! j = Some r -> j = i) ->
  row_count m <= 1 /\ forall f, map_sum f m = match m !! i with Some r => f r | None => 0 end.
Proof.
  intros Hall. destruct (m !! i) as [r|] eqn:Hi.
  - assert (Hd : delete i m = ∅).
    { apply map_empty. intros j. destruct (delete i m !! j) as [r'|] eqn:Hj; [|done].
      apply lookup_delete_Some in Hj as [Hne Hj]. by apply Hall in Hj as ->. }
    split.
    + rewrite (row_count_delete m i r Hi), Hd. unfold row_count. rewrite map_size_empty. lia.
    + intros f. rewrite (map_sum_delete f m i r Hi), Hd, map_sum_empty. lia.
  - assert (m = ∅) as ->.
    { apply map_empty. intros j. destruct (m !! j) as [r'|] eqn:Hj; [|done].
      pose proof (Hall j r' Hj). congruence. }
    split; [unfold row_count; rewrite map_size_empty; lia|].
    intros f. by rewrite map_sum_empty.
Qed.

Lemma row_count_nonneg m : 0 <= row_count m.
Proof. unfold row_count. lia. Qed.
End Sums.

(** ** Eviction until a store fits its quota

    [evict_while] is the loop
    [while over_quota { if !evict()? { return .. } }].  A store meets the
    interface [QuotaStore] when its eviction keeps it well formed, never fails
    on a well-formed store and removes at least one row. *)
Section EvictWhile.
Context {D : Type}.
Variable evict : D -> result (option D).
Variable over : D -> bool.

(** [Ok (inl d)]: the store fits; [Ok (inr d)]: nothing is left to evict. *)
Fixpoint evict_while (fuel : nat) (d : D) : run (result (D + D)) :=
  if over d then
    match fuel with
    | O => NoFuel
    | S fuel =>
      match evict d with
      | Err e => Done (Err e)
      | Ok None => Done (Ok (inr d))
      | Ok (Some d') => evict_while fuel d'
      end
    end
  else Done (Ok (inl d)).

Class QuotaStore := {
  qs_wf : D -> Prop;
  qs_rows : D -> nat;
  qs_evict_spec : forall d, qs_wf d ->
    exists r, evict d = Ok r /\
      match r with
      | Some d' => qs_wf d' /\ (qs_rows d' < qs_rows d)%nat
      | None => True
      end
}.

(** With one round more than there are rows the loop ends, in a well-formed
    store that fits or from which nothing more can be evicted.  [P] is any
    property eviction preserves. *)
Lemma evict_while_spec `{QuotaStore} (P : D -> Prop) fuel d :
  (forall d d', qs_wf d -> P d -> evict d = Ok (Some d') -> P d') ->
  qs_wf d -> P d -> (qs_rows d < fuel)%nat ->
  (exists d', evict_while fuel d = Done (Ok (inl d')) /\ qs_wf d' /\ P d' /\ over d' = false)
  \/ (exists d', evict_while fuel d = Done (Ok (inr d')) /\ qs_wf d' /\ P d' /\ over d' = true
        /\ evict d' = Ok None).
Proof.
  intros HP. revert d. induction fuel as [|fuel IH]; intros d Hwf Hd Hrows; simpl; [lia|].
  destruct (over d) eqn:Ho; [|left; by exists d].
  destruct (qs_evict_spec d Hwf) as (r & Hr & Hspec). rewrite Hr.
  destruct r as [d'|]; [|right; by exists d]. destruct Hspec as [Hwf' Hlt].
  apply IH; [done|by apply (HP d d')|lia].
Qed.
End EvictWhile.

#[global] Arguments evict_while : simpl never.
