(* ===== verification/Receipt.v ===== *)
(** * Retrieval receipts: [src/src/receipt.rs]

    Evidence of what a caller has already seen, the decision whether a new
    candidate repeats it, the SimHash-style semantic signature, and the opaque
    receipt identifiers.  Strings are byte strings; a source text is its list
    of characters (code points), because the signature splits it by the
    Unicode [char::is_alphanumeric] table, which is a parameter, as is the
    BLAKE3 digest. *)

From Stdlib Require Import Ascii.
From S2P Require Import Prelude Chars Store.
Open Scope Z_scope.

(** ** Limits *)
Definition MAX_RECEIPTS : Z := 128.
Definition MAX_EVIDENCE_PER_RECEIPT : Z := 2048.
Definition MAX_TOTAL_EVIDENCE : Z := 16384.
Definition MAX_RECEIPT_ID_BYTES : Z := 128.
Definition MAX_TOTAL_RECEIPT_BYTES : Z := 64 * 1024.
Definition MAX_EVIDENCE_BYTES_PER_RECEIPT : Z := 1024 * 1024.
Definition MAX_TOTAL_EVIDENCE_BYTES : Z := 8 * 1024 * 1024.
Definition RECEIPT_TTL_MILLIS : Z := 24 * 60 * 60 * 1000.
Definition RECEIPT_ID_NAMESPACE_HEX_BYTES : nat := 32.
Definition RECEIPT_ID_ROW_HEX_BYTES : nat := 16.
Definition NEAR_DUPLICATE_HAMMING_DISTANCE : Z := 8.
Definition RECEIPT_EVIDENCE_FIXED_LOGICAL_BYTES : Z := 7 * 8.
Definition MAX_RECEIPT_EVIDENCE_LOGICAL_BYTES : Z :=
  RECEIPT_EVIDENCE_FIXED_LOGICAL_BYTES + 4096 + 128.

(** [str::len]. *)
Definition str_len (s : string) : Z := Z.of_nat (String.length s).

(** ** Semantic signatures *)
Section Signature.
Variable is_alphanumeric : Z -> bool.
(** First eight bytes, little endian, of the BLAKE3 digest of a token's UTF-8
    bytes, as a [u64]. *)
Variable blake3_le64 : list Z -> Z.

Definition signature_tokens (content : list Z) : list (list Z) :=
  map (map to_ascii_lowercase)
    (List.filter (fun token => 3 <=? token_len token)
      (split_by (fun c => negb (is_alphanumeric c) && negb (c =? 95)) content)).

Definition add_token (weights : list Z) (token : list Z) : list Z :=
  imap (fun bit weight =>
    if Z.land (blake3_le64 token) (Z.shiftl 1 (Z.of_nat bit)) =? 0 then weight - 1 else weight + 1)
    weights.

Definition fold_signature (weights : list Z) : Z :=
  fst (fold_left (fun '(signature, bit) weight =>
    (Z.lor signature (Z.shiftl (if 0 <=? weight then 1 else 0) bit), bit + 1))
    weights (0, 0)).

Definition tokens_signature (tokens : list (list Z)) : Z :=
  fold_signature (fold_left add_token tokens (replicate 64 0)).

Definition semantic_signature_of (content : list Z) : option Z :=
  let tokens := signature_tokens content in
  if (length tokens <? 3)%nat then None else Some (tokens_signature tokens).
End Signature.

(** ** Evidence *)
Inductive ReceiptMatchPolicy :=
| ExactOnly
| Overlap (signature : option Z).

Record ReceiptEvidence := mk_evidence {
  path : string;
  start_line : Z;
  end_line : Z;
  content_hash : string;
  match_policy : ReceiptMatchPolicy
}.

#[export] Instance ReceiptMatchPolicy_eq_dec : EqDecision ReceiptMatchPolicy.
Proof. solve_decision. Defined.
#[export] Instance ReceiptEvidence_eq_dec : EqDecision ReceiptEvidence.
Proof. solve_decision. Defined.

Definition new_evidence (is_alphanumeric : Z -> bool) (blake3_le64 : list Z -> Z)
    (path : string) (start_line end_line : Z) (content_hash : string)
    (content : option (list Z)) : ReceiptEvidence :=
  mk_evidence path start_line end_line content_hash
    (Overlap (content ≫= semantic_signature_of is_alphanumeric blake3_le64)).

Definition from_stored (path : string) (start_line end_line : Z) (content_hash : string)
    (semantic_signature : option Z) (exact_only : bool) : ReceiptEvidence :=
  mk_evidence path start_line end_line content_hash
    (if exact_only then ExactOnly else Overlap semantic_signature).

Definition exact_only (e : ReceiptEvidence) : bool :=
  match match_policy e with ExactOnly => true | _ => false end.

Definition semantic_signature (e : ReceiptEvidence) : option Z :=
  match match_policy e with ExactOnly => None | Overlap s => s end.

Definition logical_bytes (e : ReceiptEvidence) : Z :=
  u64_saturating_add
    (u64_saturating_add RECEIPT_EVIDENCE_FIXED_LOGICAL_BYTES (str_len (path e)))
    (str_len (content_hash e)).

(** ** Decisions *)
Inductive ReceiptDecision := Return | SuppressExact | SuppressOverlap | ReturnNearDuplicate.

#[export] Instance ReceiptDecision_eq_dec : EqDecision ReceiptDecision.
Proof. solve_decision. Defined.

Record ReceiptEvaluation := mk_evaluation {
  evaluation_receipt_id : string;
  decisions : list ReceiptDecision
}.

(** [u64::count_ones]. *)
Definition count_ones (x : Z) : Z :=
  foldr (fun bit acc => (if Z.testbit x (Z.of_nat bit) then 1 else 0) + acc) 0 (seq 0 64).

Definition ranges_overlap (left_start left_end right_start right_end : Z) : bool :=
  (left_start <=? right_end) && (right_start <=? left_end).

Definition same_content (candidate seen : ReceiptEvidence) : bool :=
  bool_decide (content_hash seen = content_hash candidate).

Definition overlaps (candidate seen : ReceiptEvidence) : bool :=
  negb (exact_only seen) && bool_decide (path seen = path candidate)
  && ranges_overlap (start_line seen) (end_line seen) (start_line candidate) (end_line candidate).

Definition near_duplicate (signature : Z) (seen : ReceiptEvidence) : bool :=
  negb (exact_only seen)
  && match semantic_signature seen with
     | Some prior => count_ones (Z.lxor signature prior) <=? NEAR_DUPLICATE_HAMMING_DISTANCE
     | None => false
     end.

Definition decide_candidate (previous : list ReceiptEvidence) (candidate : ReceiptEvidence)
    (suppress_overlap : bool) : ReceiptDecision :=
  if negb (bool_decide (content_hash candidate = ""%string))
     && existsb (same_content candidate) previous
  then SuppressExact
  else if suppress_overlap && existsb (overlaps candidate) previous then SuppressOverlap
  else if match semantic_signature candidate with
          | Some signature => existsb (near_duplicate signature) previous
          | None => false
          end
  then ReturnNearDuplicate
  else Return.

(** The counters [apply_meta] writes into the response metadata. *)
Record ReceiptMeta := mk_meta {
  meta_receipt_id : option string;
  receipt_suppressed_exact : Z;
  receipt_suppressed_overlap : Z;
  receipt_near_duplicates : Z
}.

Definition count_decisions (d : ReceiptDecision) (ds : list ReceiptDecision) : Z :=
  len (List.filter (fun x => bool_decide (x = d)) ds).

Definition apply_meta (e : ReceiptEvaluation) : ReceiptMeta :=
  mk_meta (Some (evaluation_receipt_id e))
    (count_decisions SuppressExact (decisions e))
    (count_decisions SuppressOverlap (decisions e))
    (count_decisions ReturnNearDuplicate (decisions e)).

(** ** Identifiers *)
Definition hex_digit (d : Z) : Ascii.ascii :=
  Ascii.ascii_of_N (Z.to_N (if d <? 10 then 48 + d else 87 + d)).

(** [{value:016x}] of an [i64]: the sixteen digits of its two's complement. *)
Fixpoint hex_digits (n : nat) (value : Z) : string :=
  match n with
  | O => EmptyString
  | S n => String (hex_digit ((value / 16 ^ Z.of_nat n) mod 16)) (hex_digits n value)
  end.
Definition format_016x (value : Z) : string := hex_digits 16 (value mod 2 ^ 64).

(** [char::to_digit(16)]. *)
Definition to_digit16 (c : Ascii.ascii) : option Z :=
  let n := Z.of_N (Ascii.N_of_ascii c) in
  if (48 <=? n) && (n <=? 57) then Some (n - 48)
  else if (97 <=? n) && (n <=? 102) then Some (n - 87)
  else if (65 <=? n) && (n <=? 70) then Some (n - 55)
  else None.

Fixpoint parse_digits16 (acc : Z) (s : string) : option Z :=
  match s with
  | EmptyString => Some acc
  | String c s => match to_digit16 c with Some d => parse_digits16 (acc * 16 + d) s | None => None end
  end.

(** [i64::from_str_radix(s, 16).ok()]: an optional sign, at least one digit of
    either case, and a value in range. *)
Definition from_str_radix16 (s : string) : option Z :=
  let checked z := if (I64_MIN <=? z) && (z <=? I64_MAX) then Some z else None in
  match s with
  | EmptyString => None
  | String c rest =>
    if Ascii.eqb c "+"%char then
      if (String.length rest =? 0)%nat then None else parse_digits16 0 rest ≫= checked
    else if Ascii.eqb c "-"%char then
      if (String.length rest =? 0)%nat then None
      else parse_digits16 0 rest ≫= (fun z => checked (- z))
    else parse_digits16 0 s ≫= checked
  end.

(** [str::get(from..to)]: [None] off the string or inside a character. *)
Definition string_boundary (s : string) (i : nat) : bool :=
  (i =? 0)%nat
  || match String.get i s with
     | Some c => negb ((128 <=? Ascii.N_of_ascii c)%N && (Ascii.N_of_ascii c <=? 191)%N)
     | None => (i =? String.length s)%nat
     end.
Definition str_get (s : string) (from to : nat) : option string :=
  if (from <=? to)%nat && (to <=? String.length s)%nat
     && string_boundary s from && string_boundary s to
  then Some (String.substring from (to - from) s) else None.

Definition format_receipt_id (namespace : string) (row_id : Z) : string :=
  ("r" ++ namespace ++ format_016x row_id)%string.

Definition parse_receipt_id (receipt_id namespace : string) : option Z :=
  let expected_len := (1 + RECEIPT_ID_NAMESPACE_HEX_BYTES + RECEIPT_ID_ROW_HEX_BYTES)%nat in
  if negb (String.length receipt_id =? expected_len)%nat then None
  else if negb (String.prefix "r" receipt_id) then None
  else
    found ← str_get receipt_id 1 (1 + RECEIPT_ID_NAMESPACE_HEX_BYTES);
    if negb (bool_decide (found = namespace)) then None
    else
      suffix ← str_get receipt_id (1 + RECEIPT_ID_NAMESPACE_HEX_BYTES) (String.length receipt_id);
      row_id ← from_str_radix16 suffix;
      if 0 <? row_id then Some row_id else None.

(** ** Facts about decisions *)

Lemma existsb_elem {A} (f : A -> bool) l : existsb f l = true <-> exists x, x ∈ l /\ f x = true.
Proof.
  rewrite existsb_exists. split; intros (x & Hx & Hf); exists x;
    by rewrite list_elem_of_In in *.
Qed.

(** A test over evidence sees only which evidence is present. *)
Lemma existsb_subset {A} (f : A -> bool) (l1 l2 : list A) :
  l1 ⊆ l2 -> existsb f l1 = true -> existsb f l2 = true.
Proof.
  rewrite !existsb_elem. intros Hs (x & Hx & Hf). exists x. split; [by apply Hs|done].
Qed.

Lemma existsb_same {A} (f : A -> bool) (l1 l2 : list A) :
  l1 ⊆ l2 -> l2 ⊆ l1 -> existsb f l1 = existsb f l2.
Proof.
  intros H12 H21. apply eq_true_iff_eq. split; by apply existsb_subset.
Qed.

Lemma exact_only_silent (f : ReceiptEvidence -> bool) l :
  (forall e, e ∈ l -> f e = false) -> existsb f l = false.
Proof.
  intros Hf. destruct (existsb f l) eqn:E; [|done].
  apply existsb_elem in E as (e & He & E). by rewrite Hf in E.
Qed.

Definition suppressed (d : ReceiptDecision) : bool :=
  match d with SuppressExact | SuppressOverlap => true | _ => false end.

(** [decide_candidate] suppresses exactly when one of its two tests fires. *)
Lemma suppressed_iff previous candidate suppress_overlap :
  suppressed (decide_candidate previous candidate suppress_overlap) =
  (negb (bool_decide (content_hash candidate = ""%string))
     && existsb (same_content candidate) previous)
  || (suppress_overlap && existsb (overlaps candidate) previous).
Proof.
  unfold decide_candidate. destruct (_ && existsb (same_content _) _); [done|].
  destruct (_ && existsb (overlaps _) _); [done|].
  destruct (match semantic_signature candidate with Some _ => _ | None => _ end); done.
Qed.

(** ** Facts about signatures *)

Lemma add_token_comm blake3_le64 w a b :
  add_token blake3_le64 (add_token blake3_le64 w a) b
  = add_token blake3_le64 (add_token blake3_le64 w b) a.
Proof.
  unfold add_token. apply list_eq. intros i. rewrite !list_lookup_imap.
  destruct (w !! i) as [x|]; simpl; [|done]. f_equal.
  destruct (_ =? 0), (_ =? 0); lia.
Qed.

Lemma fold_add_token_perm blake3_le64 t1 t2 w :
  t1 ≡ₚ t2 -> fold_left (add_token blake3_le64) t1 w = fold_left (add_token blake3_le64) t2 w.
Proof.
  intros Hp. revert w. induction Hp as [|x l l' _ IH|x y l|l1 l2 l3 _ IH1 _ IH2]; intros w; simpl.
  - done.
  - apply IH.
  - by rewrite add_token_comm.
  - by rewrite IH1.
Qed.

Lemma add_token_length blake3_le64 w t : length (add_token blake3_le64 w t) = length w.
Proof. apply length_imap. Qed.

Lemma fold_add_token_length blake3_le64 ts w :
  length (fold_left (add_token blake3_le64) ts w) = length w.
Proof.
  revert w. induction ts as [|t ts IH]; intros w; simpl; [done|].
  by rewrite IH, add_token_length.
Qed.

Lemma lor_bit_bound a x b :
  0 <= b -> 0 <= a < 2 ^ b -> (x = 0 \/ x = 1) -> 0 <= Z.lor a (Z.shiftl x b) < 2 ^ (b + 1).
Proof.
  intros Hb Ha Hx. rewrite Z.pow_add_r, Z.pow_1_r by lia.
  destruct Hx as [-> | ->]; [rewrite Z.shiftl_0_l, Z.lor_0_r; lia|].
  rewrite Z.shiftl_1_l. assert (0 <= Z.lor a (2 ^ b)) by (apply Z.lor_nonneg; lia).
  split; [done|]. destruct (decide (Z.lor a (2 ^ b) = 0)) as [->|]; [lia|].
  replace (2 ^ b * 2) with (2 ^ (b + 1)) by (rewrite Z.pow_add_r; lia).
  apply Z.log2_lt_pow2; [lia|]. rewrite Z.log2_lor by lia.
  rewrite (Z.log2_pow2 b) by done. destruct (decide (a = 0)) as [->|]; [simpl; lia|].
  assert (Z.log2 a < b) by (apply Z.log2_lt_pow2; lia). lia.
Qed.

Lemma fold_signature_bound ws sig bit :
  0 <= bit -> 0 <= sig < 2 ^ bit ->
  let r := fold_left (fun '(signature, bit) weight =>
    (Z.lor signature (Z.shiftl (if 0 <=? weight then 1 else 0) bit), bit + 1)) ws (sig, bit) in
  0 <= fst r < 2 ^ (bit + len ws).
Proof.
  unfold len. revert sig bit. induction ws as [|w ws IH]; intros sig bit Hb Hs; simpl.
  - by rewrite Z.add_0_r.
  - replace (bit + Z.of_nat (S (length ws))) with (bit + 1 + Z.of_nat (length ws)) by lia.
    apply IH; [lia|]. apply lor_bit_bound; [done|done|]. destruct (0 <=? w); auto.
Qed.

Lemma tokens_signature_u64 blake3_le64 ts : is_u64 (tokens_signature blake3_le64 ts).
Proof.
  unfold tokens_signature, fold_signature.
  pose proof (fold_signature_bound
    (fold_left (add_token blake3_le64) ts (replicate 64 0)) 0 0 ltac:(lia) ltac:(lia)) as H.
  unfold len in H. rewrite fold_add_token_length, length_replicate in H.
  change (2 ^ (0 + Z.of_nat 64)) with (U64_MAX + 1) in H. unfold is_u64. cbv zeta in H. lia.
Qed.

(** ** Facts about identifiers *)

Lemma string_length_app a b : String.length (a ++ b)%string = (String.length a + String.length b)%nat.
Proof. induction a as [|c a IH]; simpl; [done|]. by rewrite IH. Qed.

Lemma substring_app_head a b :
  String.substring 0 (String.length a) (a ++ b)%string = a.
Proof. induction a as [|c a IH]; simpl; [by destruct b|]. by rewrite IH. Qed.

Lemma substring_app_skip a b n :
  String.substring (String.length a) n (a ++ b)%string = String.substring 0 n b.
Proof. induction a; simpl; done. Qed.

Lemma substring_whole a : String.substring 0 (String.length a) a = a.
Proof. induction a as [|c a IH]; simpl; [done|]. by rewrite IH. Qed.

Lemma hex_digit_value d : 0 <= d < 16 -> to_digit16 (hex_digit d) = Some d.
Proof.
  intros Hd. assert (d ∈ seqZ 0 16) as Hin by (apply elem_of_seqZ; lia).
  revert d Hin Hd. apply (Forall_forall (fun d => 0 <= d < 16 -> to_digit16 (hex_digit d) = Some d)).
  repeat constructor.
Qed.

Lemma hex_digits_length n v : String.length (hex_digits n v) = n.
Proof. induction n as [|n IH]; simpl; [done|]. by rewrite IH. Qed.

Lemma parse_hex_digits n v acc :
  0 <= v -> parse_digits16 acc (hex_digits n v)
            = Some (acc * 16 ^ Z.of_nat n + v mod 16 ^ Z.of_nat n).
Proof.
  intros Hv. revert acc. induction n as [|n IH]; intros acc.
  - cbn [hex_digits parse_digits16]. change (16 ^ Z.of_nat 0) with 1. rewrite Z.mod_1_r. f_equal. lia.
  - cbn [hex_digits parse_digits16]. rewrite hex_digit_value by (apply Z.mod_pos_bound; lia).
    rewrite IH. f_equal.
    rewrite Nat2Z.inj_succ, Z.pow_succ_r by lia.
    assert (0 < 16 ^ Z.of_nat n) by (apply Z.pow_pos_nonneg; lia).
    rewrite (Z.mul_comm 16), Z.rem_mul_r by lia. lia.
Qed.

Lemma hex_digit_plain d : 0 <= d < 16 ->
  Ascii.eqb (hex_digit d) "+"%char = false /\ Ascii.eqb (hex_digit d) "-"%char = false
  /\ (Ascii.N_of_ascii (hex_digit d) <? 128)%N = true.
Proof.
  intros Hd. assert (d ∈ seqZ 0 16) as Hin by (apply elem_of_seqZ; lia).
  revert d Hin Hd. apply (Forall_forall (fun d => 0 <= d < 16 -> Ascii.eqb (hex_digit d) "+"%char = false
    /\ Ascii.eqb (hex_digit d) "-"%char = false /\ (Ascii.N_of_ascii (hex_digit d) <? 128)%N = true)).
  repeat constructor.
Qed.

Lemma from_str_radix16_hex v :
  0 <= v <= I64_MAX -> from_str_radix16 (format_016x v) = Some v.
Proof.
  intros Hv. unfold format_016x. rewrite Z.mod_small by (unfold I64_MAX in *; lia).
  unfold from_str_radix16. pose proof (parse_hex_digits 16 v 0 ltac:(lia)) as Hp.
  destruct (hex_digits 16 v) as [|c rest] eqn:E; [done|].
  cbn [hex_digits] in E. injection E as Ec _.
  destruct (hex_digit_plain ((v / 16 ^ Z.of_nat 15) mod 16)) as (H1 & H2 & _);
    [apply Z.mod_pos_bound; lia|]. rewrite Ec in H1, H2. rewrite H1, H2, Hp. cbn [mbind option_bind].
  rewrite Z.mod_small by (unfold I64_MAX in *; change (16 ^ Z.of_nat 16) with 18446744073709551616; lia).
  rewrite Z.mul_0_l, Z.add_0_l.
  by rewrite !(proj2 (Z.leb_le _ _)) by (unfold I64_MIN, I64_MAX in *; lia).
Qed.

Lemma from_str_radix16_range s v : from_str_radix16 s = Some v -> is_i64 v.
Proof.
  unfold from_str_radix16. cbv zeta.
  assert (Hc : forall z w, (if (I64_MIN <=? z) && (z <=? I64_MAX) then Some z else None) = Some w ->
    is_i64 w).
  { intros z w. destruct (_ && _) eqn:E; [|done]. bool_to_prop. intros [= <-]. by split. }
  destruct s as [|c rest]; [done|].
  destruct (Ascii.eqb c "+"%char), (Ascii.eqb c "-"%char); try (destruct (_ =? _)%nat; [done|]);
    (destruct (parse_digits16 _ _); simpl; [apply Hc|done]).
Qed.

Fixpoint ascii_string (s : string) : bool :=
  match s with
  | EmptyString => true
  | String c s => (Ascii.N_of_ascii c <? 128)%N && ascii_string s
  end.

Lemma ascii_string_app a b : ascii_string (a ++ b) = ascii_string a && ascii_string b.
Proof. induction a as [|c a IH]; simpl; [done|]. by rewrite IH, andb_assoc. Qed.

Lemma ascii_string_get s i c :
  ascii_string s = true -> String.get i s = Some c -> (Ascii.N_of_ascii c < 128)%N.
Proof.
  revert i. induction s as [|x s IH]; intros [|i]; simpl; try done.
  - rewrite andb_true_iff, N.ltb_lt. intros [? _] [= <-]. done.
  - rewrite andb_true_iff. intros [_ Hs]. by apply IH.
Qed.

Lemma string_get_none s i : (String.length s <= i)%nat -> String.get i s = None.
Proof. revert i. induction s as [|x s IH]; intros [|i]; simpl; try done; [lia|]. intros. apply IH. lia. Qed.

Lemma ascii_boundary s i :
  ascii_string s = true -> (i <= String.length s)%nat -> string_boundary s i = true.
Proof.
  intros Hs Hi. unfold string_boundary. apply orb_true_iff. right.
  destruct (String.get i s) as [c|] eqn:E.
  - apply ascii_string_get in E; [|done].
    by rewrite (proj2 (N.leb_gt 128 (Ascii.N_of_ascii c))).
  - apply Nat.eqb_eq. destruct (decide (String.length s <= i)%nat) as [|Hn]; [lia|].
    exfalso. clear Hs Hi. revert i E Hn. induction s as [|x s IH]; intros [|i]; simpl; try done; try lia.
    intros E ?. apply (IH i E). lia.
Qed.

Lemma hex_digits_ascii n v : ascii_string (hex_digits n v) = true.
Proof.
  induction n as [|n IH]; [done|]. cbn [hex_digits ascii_string].
  by rewrite (proj2 (proj2 (hex_digit_plain _ (Z.mod_pos_bound _ 16 ltac:(lia))))), IH.
Qed.

Lemma str_get_ascii s from to :
  ascii_string s = true -> (from <= to <= String.length s)%nat ->
  str_get s from to = Some (String.substring from (to - from) s).
Proof.
  intros Hs Hr. unfold str_get. rewrite !ascii_boundary by (done || lia).
  by rewrite !(proj2 (Nat.leb_le _ _)) by lia.
Qed.

Lemma str_get_some s from to r :
  str_get s from to = Some r -> r = String.substring from (to - from) s.
Proof. unfold str_get. destruct (_ && _); congruence. Qed.

Lemma string_prefix_app a b : String.prefix a (a ++ b) = true.
Proof. induction a as [|c a IH]; simpl; [by destruct b|]. by destruct (Ascii.ascii_dec c c). Qed.

(** ** Properties *)

Lemma parse_format_receipt_id namespace row_id :
  String.length namespace = RECEIPT_ID_NAMESPACE_HEX_BYTES ->
  ascii_string namespace = true -> 0 < row_id <= I64_MAX ->
  parse_receipt_id (format_receipt_id namespace row_id) namespace = Some row_id.
Proof.
  intros Hlen Hascii Hrow. unfold RECEIPT_ID_NAMESPACE_HEX_BYTES in Hlen.
  unfold parse_receipt_id, format_receipt_id.
  set (digits := format_016x row_id).
  assert (Hd : String.length digits = 16%nat) by apply hex_digits_length.
  assert (Ha : ascii_string ("r" ++ namespace ++ digits) = true).
  { rewrite !ascii_string_app, Hascii. apply hex_digits_ascii. }
  assert (Hl : String.length ("r" ++ namespace ++ digits) = 49%nat).
  { rewrite !string_length_app, Hlen, Hd. done. }
  assert (E1 : String.substring 0 32 (namespace ++ digits) = namespace).
  { rewrite <-Hlen. apply substring_app_head. }
  assert (E2 : String.substring 32 16 (namespace ++ digits) = digits).
  { rewrite <-Hlen, substring_app_skip, <-Hd. apply substring_whole. }
  cbv zeta. rewrite Hl. unfold RECEIPT_ID_NAMESPACE_HEX_BYTES, RECEIPT_ID_ROW_HEX_BYTES.
  cbn [Nat.eqb Nat.add negb]. rewrite string_prefix_app. cbn [negb].
  rewrite !str_get_ascii by (done || (rewrite Hl; lia)).
  cbn [mbind option_bind Nat.sub].
  change (String.substring 1 32 ("r" ++ namespace ++ digits)%string)
    with (String.substring 0 32 (namespace ++ digits)%string).
  change (String.substring 33 16 ("r" ++ namespace ++ digits)%string)
    with (String.substring 32 16 (namespace ++ digits)%string).
  rewrite E1, E2, bool_decide_true by done. cbn [negb].
  unfold digits. rewrite from_str_radix16_hex by lia. cbn [mbind option_bind].
  by rewrite (proj2 (Z.ltb_lt 0 row_id)) by lia.
Qed.

(** A receipt identifier parses back to its row under its own 32-byte
    namespace, and whatever parses is a positive row of a 49-byte identifier
    carrying that namespace, so identifiers of another database are refused. *)
Theorem receipt_id_roundtrip namespace row_id id :
  String.length namespace = RECEIPT_ID_NAMESPACE_HEX_BYTES ->
  ascii_string namespace = true ->
  (0 < row_id <= I64_MAX ->
     parse_receipt_id (format_receipt_id namespace row_id) namespace = Some row_id)
  /\ (parse_receipt_id id namespace = Some row_id ->
        0 < row_id <= I64_MAX /\ String.length id = 49%nat
        /\ String.substring 1 32 id = namespace).
Proof.
  intros Hlen Hascii. split.
  - by apply parse_format_receipt_id.
  - unfold parse_receipt_id. cbv zeta.
    destruct (Nat.eqb_spec (String.length id)
      (1 + RECEIPT_ID_NAMESPACE_HEX_BYTES + RECEIPT_ID_ROW_HEX_BYTES)) as [Hid|]; [|done].
    cbn [negb]. destruct (String.prefix "r" id); [|done]. cbn [negb].
    destruct (str_get id 1 _) as [found|] eqn:E1; [|done]. cbn [mbind option_bind].
    case_bool_decide as Hf; [|done]. cbn [negb].
    destruct (str_get id _ (String.length id)) as [suffix|]; [|done]. cbn [mbind option_bind].
    destruct (from_str_radix16 suffix) as [v|] eqn:E2; [|done]. cbn [mbind option_bind].
    destruct (Z.ltb_spec 0 v); [|done]. intros [= <-].
    apply from_str_radix16_range in E2. apply str_get_some in E1.
    split; [unfold is_i64 in E2; lia|]. split; [done|]. by rewrite <-Hf, E1.
Qed.

Lemma receipt_id_roundtrip_witness :
  parse_receipt_id (format_receipt_id "0123456789abcdef0123456789abcdef" 42)
    "0123456789abcdef0123456789abcdef" = Some 42.
Proof.
  apply (receipt_id_roundtrip "0123456789abcdef0123456789abcdef" 42 "" eq_refl eq_refl).
  vm_compute. split; [reflexivity|discriminate].
Defined.

(** The decision depends only on which evidence is known: more evidence
    never turns a suppressed candidate into a returned one, reordering or
    repeating evidence changes nothing, and evidence carried as exact-only
    can suppress by content hash alone. *)
Theorem decide_evidence_laws previous more candidate suppress_overlap :
  (previous ⊆ more ->
     suppressed (decide_candidate previous candidate suppress_overlap) = true ->
     suppressed (decide_candidate more candidate suppress_overlap) = true)
  /\ (previous ⊆ more -> more ⊆ previous ->
        decide_candidate previous candidate suppress_overlap
        = decide_candidate more candidate suppress_overlap)
  /\ ((forall e, e ∈ previous -> exact_only e = true) ->
        decide_candidate previous candidate suppress_overlap = Return
        \/ (decide_candidate previous candidate suppress_overlap = SuppressExact
            /\ exists e, e ∈ previous /\ content_hash e = content_hash candidate)).
Proof.
  split; [|split].
  - intros Hs. rewrite !suppressed_iff, !orb_true_iff, !andb_true_iff.
    intros [[? H]|[? H]]; [left|right]; (split; [done|by eapply existsb_subset]).
  - intros H1 H2. unfold decide_candidate.
    rewrite (existsb_same _ previous more H1 H2), (existsb_same (overlaps candidate) previous more H1 H2).
    destruct (semantic_signature candidate) as [s|]; [|done].
    by rewrite (existsb_same (near_duplicate s) previous more H1 H2).
  - intros Hex. unfold decide_candidate.
    rewrite (exact_only_silent (overlaps candidate) previous), andb_false_r by
      (intros e He; unfold overlaps; by rewrite Hex).
    assert (match semantic_signature candidate with
            | Some s => existsb (near_duplicate s) previous
            | None => false
            end = false) as ->.
    { destruct (semantic_signature candidate); [|done]. apply exact_only_silent.
      intros e He. unfold near_duplicate. by rewrite Hex. }
    destruct (_ && _) eqn:E; [right|by left]. split; [done|].
    apply andb_true_iff in E as [_ (e & He & E)%existsb_elem]. exists e. split; [done|].
    by apply bool_decide_eq_true in E.
Qed.

Lemma decide_evidence_laws_witness :
  decide_candidate [mk_evidence "a.rs" 1 9 "h1" ExactOnly] (mk_evidence "a.rs" 2 3 "h2" ExactOnly) true
    = Return
  \/ (decide_candidate [mk_evidence "a.rs" 1 9 "h1" ExactOnly]
        (mk_evidence "a.rs" 2 3 "h2" ExactOnly) true = SuppressExact
      /\ exists e, e ∈ [mk_evidence "a.rs" 1 9 "h1" ExactOnly] /\ content_hash e = "h2"%string).
Proof.
  apply (decide_evidence_laws [mk_evidence "a.rs" 1 9 "h1" ExactOnly] []
    (mk_evidence "a.rs" 2 3 "h2" ExactOnly) true).
  intros e He. apply list_elem_of_singleton in He. subst e. reflexivity.
Defined.

(** The semantic signature is a [u64] and does not depend on the order of
    the tokens: permuting them gives the same signature. *)
Theorem tokens_signature_order_insensitive blake3_le64 t1 t2 :
  is_u64 (tokens_signature blake3_le64 t1)
  /\ (t1 ≡ₚ t2 -> tokens_signature blake3_le64 t1 = tokens_signature blake3_le64 t2).
Proof.
  split; [apply tokens_signature_u64|]. intros Hp. unfold tokens_signature.
  by rewrite (fold_add_token_perm blake3_le64 t1 t2).
Qed.

Lemma tokens_signature_order_insensitive_witness :
  tokens_signature (fun t => token_len t) [[97; 98; 99]; [100; 101; 102; 103]]
  = tokens_signature (fun t => token_len t) [[100; 101; 102; 103]; [97; 98; 99]].
Proof.
  apply (tokens_signature_order_insensitive (fun t => token_len t)
    [[97; 98; 99]; [100; 101; 102; 103]] [[100; 101; 102; 103]; [97; 98; 99]]).
  apply perm_swap.
Defined.
