(* ===== verification/ReceiptStore.v ===== *)
(** * The retrieval receipt store: [src/src/storage/receipts.rs]

    The three receipt tables of [src/src/storage/schema.rs] with their triggers
    and CHECK constraints, the statements of the store, and its transactions:
    reading a receipt, evaluating candidates against one (which writes a
    copy-on-write successor), loading and persisting a rebased receipt, and
    the quota repair of [src/src/storage/projections.rs].

    [retrieval_receipts] is the map [receipts]; the rows of
    [retrieval_receipt_evidence] that reference a receipt are the list
    [r_evidence] of its row, in [ordinal] order, so the [ON DELETE CASCADE] is
    the deletion of the map entry.  The singleton usage row is the record
    fields of [receipt_db]; [last_rowid] is the AUTOINCREMENT sequence.  A
    fault of SQLite itself (I/O, a lost connection) is not modelled. *)

From S2P Require Import Prelude Order Store Receipt.
Open Scope Z_scope.
Open Scope store_scope.
Open Scope run_scope.

Definition RECEIPT_HEADER_FIXED_LOGICAL_BYTES : Z := 9 * 8.

(** ** Tables *)
Record evidence_row := mk_evidence_row {
  e_path : string;
  e_start_line : Z;
  e_end_line : Z;
  e_content_hash : string;
  e_semantic_signature : option Z;
  e_exact_only : Z;
  e_logical_bytes : Z
}.

Record receipt_row := mk_receipt_row {
  r_repository_identity : string;
  r_repository_generation : Z;
  r_created : Z;
  r_last_access : Z;
  r_expires : Z;
  r_access_sequence : Z;
  r_logical_bytes : Z;
  r_evidence_count : Z;
  r_evidence_bytes : Z;
  r_evidence : list evidence_row
}.

Record receipt_db := mk_receipt_db {
  namespace : string;
  next_access_sequence : Z;
  receipt_count : Z;
  receipt_bytes : Z;
  evidence_count : Z;
  evidence_bytes : Z;
  receipts : gmap Z receipt_row;
  last_rowid : Z;
  meta_repository_identity : string;
  meta_repository_generation : Z
}.

(** The columns every statement below may change. *)
Definition with_usage (d : receipt_db) (seq count bytes ev_count ev_bytes : Z)
    (rows : gmap Z receipt_row) (rowid : Z) : receipt_db :=
  mk_receipt_db (namespace d) seq count bytes ev_count ev_bytes rows rowid
    (meta_repository_identity d) (meta_repository_generation d).

(** ** Statements *)

(** [DELETE FROM retrieval_receipts WHERE id = ?1] with its cascade and the
    trigger [retrieval_receipts_ad]; no row, no effect. *)
Definition delete_receipt (id : Z) (d : receipt_db) : result receipt_db :=
  match receipts d !! id with
  | None => Ok d
  | Some r =>
    let count := receipt_count d - 1 in
    let bytes := receipt_bytes d - r_logical_bytes r in
    let ev_count := evidence_count d - r_evidence_count r in
    let ev_bytes := evidence_bytes d - r_evidence_bytes r in
    let* _ := check_nonneg [count; bytes; ev_count; ev_bytes] in
    Ok (with_usage d (next_access_sequence d) count bytes ev_count ev_bytes
          (delete id (receipts d)) (last_rowid d))
  end.

Definition delete_receipts (ids : list Z) (d : receipt_db) : result receipt_db :=
  fold_left (fun acc id => let* d := acc in delete_receipt id d) ids (Ok d).

(** The rows a [WHERE] clause selects. *)
Definition ids_where (p : Z -> receipt_row -> bool) (d : receipt_db) : list Z :=
  (List.filter (fun '(i, r) => p i r) (map_to_list (receipts d))).*1.

Definition prune_expired_receipts (now : Z) (d : receipt_db) : result receipt_db :=
  delete_receipts (ids_where (fun _ r => r_expires r <=? now) d) d.

Definition prune_expired_receipts_except (now retained_id : Z) (d : receipt_db)
    : result receipt_db :=
  delete_receipts (ids_where (fun i r => (r_expires r <=? now) && negb (i =? retained_id)) d) d.

(** [RECEIPT_OLDEST] and [RECEIPT_OLDEST_EXCEPT]. *)
Definition oldest_receipt (retained_id : option Z) (d : receipt_db) : option Z :=
  fst <$> least (fun '(i, r) => (r_access_sequence r, i))
    (List.filter (fun '(i, r) =>
        (0 <? r_access_sequence r)
        && match retained_id with Some id => negb (i =? id) | None => true end)
      (map_to_list (receipts d))).

(** [Ok None] is [Ok(false)]: no receipt may be evicted. *)
Definition evict_oldest_receipt_except (retained_id : option Z) (d : receipt_db)
    : result (option receipt_db) :=
  match oldest_receipt retained_id d with
  | None => Ok None
  | Some candidate => let* d' := delete_receipt candidate d in Ok (Some d')
  end.

Record PersistentReceiptUsage := mk_usage {
  u_namespace : string;
  u_next_access_sequence : Z;
  u_receipt_count : Z;
  u_receipt_bytes : Z;
  u_evidence_count : Z;
  u_evidence_bytes : Z
}.

Definition receipt_usage (d : receipt_db) : result PersistentReceiptUsage :=
  let* count := i64_to_usize (receipt_count d) in
  let* bytes := i64_to_usize (receipt_bytes d) in
  let* ev_count := i64_to_usize (evidence_count d) in
  let* ev_bytes := i64_to_usize (evidence_bytes d) in
  Ok (mk_usage (namespace d) (next_access_sequence d) count bytes ev_count ev_bytes).

Definition next_receipt_access_sequence (current : Z) (d : receipt_db)
    : result (Z * receipt_db) :=
  match i64_checked_add current 1 with
  | None => Err (OperationFailure "retrieval receipt access sequence overflow")
  | Some next =>
    if next_access_sequence d =? current then
      let* _ := check_nonneg [next] in
      Ok (next, with_usage d next (receipt_count d) (receipt_bytes d) (evidence_count d)
                  (evidence_bytes d) (receipts d) (last_rowid d))
    else Err (OperationFailure "retrieval receipt access sequence changed unexpectedly")
  end.

Record PersistentReceiptRow := mk_persistent_row {
  p_id : Z;
  p_repository_identity : string;
  p_repository_generation : Z;
  p_created : Z;
  p_last_access : Z;
  p_expires : Z;
  p_evidence_count : Z;
  p_evidence_bytes : Z
}.

Definition load_receipt (row_id : Z) (d : receipt_db) : result (option PersistentReceiptRow) :=
  match receipts d !! row_id with
  | None => Ok None
  | Some r =>
    let* generation := i64_to_u64 (r_repository_generation r) in
    let* count := i64_to_usize (r_evidence_count r) in
    let* bytes := i64_to_usize (r_evidence_bytes r) in
    Ok (Some (mk_persistent_row row_id (r_repository_identity r) generation (r_created r)
                (r_last_access r) (r_expires r) count bytes))
  end.

(** The casts [signature as i64] and [value as u64]. *)
Definition as_i64 (v : Z) : Z := if v <=? I64_MAX then v else v - 2 ^ 64.
Definition as_u64 (v : Z) : Z := if 0 <=? v then v else v + 2 ^ 64.

Definition evidence_of_row (e : evidence_row) : result ReceiptEvidence :=
  let* start_line := i64_to_usize (e_start_line e) in
  let* end_line := i64_to_usize (e_end_line e) in
  Ok (from_stored (e_path e) start_line end_line (e_content_hash e)
        (as_u64 <$> e_semantic_signature e) (negb (e_exact_only e =? 0))).

Fixpoint collect {A B} (f : A -> result B) (l : list A) : result (list B) :=
  match l with
  | [] => Ok []
  | x :: l => let* y := f x in let* ys := collect f l in Ok (y :: ys)
  end.

Definition load_receipt_evidence (receipt_id : Z) (d : receipt_db)
    : result (list ReceiptEvidence) :=
  collect evidence_of_row
    (match receipts d !! receipt_id with Some r => r_evidence r | None => [] end).

(** [INSERT INTO retrieval_receipts] with its CHECKs and the trigger
    [retrieval_receipts_ai]; returns [last_insert_rowid]. *)
Definition insert_receipt (r : receipt_row) (d : receipt_db) : result (Z * receipt_db) :=
  let* _ := check_nonneg [r_repository_generation r; r_created r; r_last_access r; r_expires r;
              r_access_sequence r - 1; r_logical_bytes r; r_evidence_count r;
              r_evidence_bytes r] in
  if last_rowid d =? I64_MAX then Err SqlFailure
  else
    let id := last_rowid d + 1 in
    Ok (id, with_usage d (next_access_sequence d) (receipt_count d + 1)
              (receipt_bytes d + r_logical_bytes r) (evidence_count d) (evidence_bytes d)
              (<[id := r]> (receipts d)) id).

(** The values bound by [INSERT INTO retrieval_receipt_evidence], with the
    CHECKs [start_line >= 0], [end_line >= start_line], [logical_bytes >= 0]. *)
Definition row_of_evidence (exact : Z) (e : ReceiptEvidence) : result evidence_row :=
  let* start_line := usize_to_i64 (Receipt.start_line e) in
  let* end_line := usize_to_i64 (Receipt.end_line e) in
  let* bytes := usize_to_i64 (logical_bytes e) in
  let* _ := check_nonneg [start_line; end_line - start_line; bytes] in
  Ok (mk_evidence_row (Receipt.path e) start_line end_line (Receipt.content_hash e)
        (as_i64 <$> semantic_signature e) exact bytes).

Definition insert_evidence (receipt_id : Z) (rows : list evidence_row) (d : receipt_db)
    : receipt_db :=
  with_usage d (next_access_sequence d) (receipt_count d) (receipt_bytes d) (evidence_count d)
    (evidence_bytes d)
    (alter (fun r => mk_receipt_row (r_repository_identity r) (r_repository_generation r)
       (r_created r) (r_last_access r) (r_expires r) (r_access_sequence r) (r_logical_bytes r)
       (r_evidence_count r) (r_evidence_bytes r) (r_evidence r ++ rows))
       receipt_id (receipts d))
    (last_rowid d).

(** [UPDATE retrieval_receipt_usage SET evidence_count = .., evidence_bytes = ..]. *)
Definition add_evidence_usage (count bytes : Z) (d : receipt_db) : result receipt_db :=
  let* _ := check_nonneg [evidence_count d + count; evidence_bytes d + bytes] in
  Ok (with_usage d (next_access_sequence d) (receipt_count d) (receipt_bytes d)
        (evidence_count d + count) (evidence_bytes d + bytes) (receipts d) (last_rowid d)).

(** [try_fold] with [checked_add] over the logical bytes of some evidence. *)
Fixpoint checked_bytes (total : Z) (l : list ReceiptEvidence) : result Z :=
  match l with
  | [] => Ok total
  | e :: l =>
    match u64_checked_add total (logical_bytes e) with
    | Some total => checked_bytes total l
    | None => Err (OperationFailure "retrieval receipt byte accounting overflow")
    end
  end.

(** ** [Storage::read_receipt]: a snapshot, no statement writes *)
Record StoredReceipt := mk_stored_receipt {
  s_receipt_id : string;
  s_repository_identity : string;
  s_repository_generation : Z;
  s_created : Z;
  s_expires : Z;
  s_complete : bool;
  s_evidence : list ReceiptEvidence
}.

Definition read_receipt (requested_id : string) (now : Z) (d : receipt_db) : result StoredReceipt :=
  if MAX_RECEIPT_ID_BYTES <? str_len requested_id then Err (UnknownReceipt requested_id)
  else
    match parse_receipt_id requested_id (namespace d) with
    | None => Err (UnknownReceipt requested_id)
    | Some row_id =>
      let* found := load_receipt row_id d in
      match found with
      | None => Err (UnknownReceipt requested_id)
      | Some receipt =>
        if negb (bool_decide (p_repository_identity receipt = meta_repository_identity d))
           || (now <? p_created receipt) || (now <? p_last_access receipt)
           || (p_expires receipt <=? now)
        then Err (UnknownReceipt requested_id)
        else
          let* evidence := load_receipt_evidence row_id d in
          if negb (len evidence =? p_evidence_count receipt)
             || (MAX_EVIDENCE_PER_RECEIPT <? len evidence)
             || (MAX_EVIDENCE_BYTES_PER_RECEIPT <? p_evidence_bytes receipt)
          then Err (OperationFailure "retrieval receipt storage bounds are inconsistent")
          else
            Ok (mk_stored_receipt requested_id (meta_repository_identity d)
              (p_repository_generation receipt) (p_created receipt) (p_expires receipt)
              ((p_evidence_count receipt <? MAX_EVIDENCE_PER_RECEIPT)
               && (u64_saturating_add (p_evidence_bytes receipt)
                     MAX_RECEIPT_EVIDENCE_LOGICAL_BYTES <=? MAX_EVIDENCE_BYTES_PER_RECEIPT))
              evidence)
      end
    end.

(** ** [Storage::evaluate_receipt_with_clock] *)

(** The receipt the caller names, checked against the clock, the index
    generation and the repository; the early commits keep the pruning. *)
Definition evaluate_source (requested_id : option string) (generation now : Z)
    (usage : PersistentReceiptUsage) (d : receipt_db)
    : tx receipt_db (option (string * PersistentReceiptRow)) :=
  match requested_id with
  | None => Committed d (Ok None)
  | Some requested_id =>
    match parse_receipt_id requested_id (u_namespace usage) with
    | None => Committed d (Err (UnknownReceipt requested_id))
    | Some row_id =>
      try! found := load_receipt row_id d in
      match found with
      | None => Committed d (Err (UnknownReceipt requested_id))
      | Some receipt =>
        if (now <? p_created receipt) || (now <? p_last_access receipt) then
          try! d := delete_receipt row_id d in
          Committed d (Err (UnknownReceipt requested_id))
        else if negb (p_repository_generation receipt =? generation) then
          Committed d (Err (StaleReceipt (p_repository_generation receipt) generation))
        else if negb (bool_decide (p_repository_identity receipt = meta_repository_identity d)) then
          Committed d (Err (UnknownReceipt requested_id))
        else Committed d (Ok (Some (requested_id, receipt)))
      end
    end
  end.

(** The candidates whose decision lets them reach the caller. *)
Definition returned_evidence (candidates : list ReceiptEvidence) (ds : list ReceiptDecision)
    : list ReceiptEvidence :=
  (List.filter (fun '(_, decision) =>
     match decision with Return | ReturnNearDuplicate => true | _ => false end)
     (zip candidates ds)).*1.

(** The longest prefix of the returned evidence that one receipt may hold. *)
Fixpoint plan_append (previous_len previous_bytes : Z) (returned : list ReceiptEvidence)
    (append : list (ReceiptEvidence * Z)) (append_bytes : Z) : list (ReceiptEvidence * Z) * Z :=
  match returned with
  | [] => (append, append_bytes)
  | evidence :: returned =>
    let bytes := logical_bytes evidence in
    if (MAX_EVIDENCE_PER_RECEIPT <=? u64_saturating_add previous_len (len append))
       || (MAX_EVIDENCE_BYTES_PER_RECEIPT
             <? u64_saturating_add (u64_saturating_add previous_bytes append_bytes) bytes)
    then (append, append_bytes)
    else plan_append previous_len previous_bytes returned (append ++ [(evidence, bytes)])
           (u64_saturating_add append_bytes bytes)
  end.

Definition header_over_quota (usage : PersistentReceiptUsage) (header_bytes : Z) : bool :=
  (MAX_RECEIPTS <=? u_receipt_count usage)
  || (MAX_TOTAL_RECEIPT_BYTES <? u64_saturating_add (u_receipt_bytes usage) header_bytes).

Definition evidence_over_quota (usage : PersistentReceiptUsage) (count bytes : Z) : bool :=
  (MAX_TOTAL_EVIDENCE <? u64_saturating_add (u_evidence_count usage) count)
  || (MAX_TOTAL_EVIDENCE_BYTES <? u64_saturating_add (u_evidence_bytes usage) bytes).

(** The [loop] that evicts, and when only the source is left shortens the
    successor, until it fits. *)
Fixpoint fit_successor (fuel : nat) (retained : option Z) (previous_len previous_bytes : Z)
    (header_bytes : Z) (usage : PersistentReceiptUsage) (d : receipt_db)
    (append : list (ReceiptEvidence * Z)) (append_bytes : Z)
    : run (result (PersistentReceiptUsage * receipt_db * list (ReceiptEvidence * Z) * Z)) :=
  match fuel with
  | O => NoFuel
  | S fuel =>
    let successor_count := u64_saturating_add previous_len (len append) in
    let successor_bytes := u64_saturating_add previous_bytes append_bytes in
    if negb (header_over_quota usage header_bytes)
       && negb (evidence_over_quota usage successor_count successor_bytes)
    then Done (Ok (usage, d, append, append_bytes))
    else
      match evict_oldest_receipt_except retained d with
      | Err e => Done (Err e)
      | Ok (Some d) =>
        match receipt_usage d with
        | Err e => Done (Err e)
        | Ok usage =>
          fit_successor fuel retained previous_len previous_bytes header_bytes usage d append
            append_bytes
        end
      | Ok None =>
        if header_over_quota usage header_bytes then
          Done (Err (OperationFailure
                  "retrieval receipt quota cannot preserve the source snapshot"))
        else
          match last append with
          | None => Done (Err (OperationFailure
              "retrieval receipt evidence quota cannot preserve the source snapshot"))
          | Some (_, removed_bytes) =>
            fit_successor fuel retained previous_len previous_bytes header_bytes usage d
              (removelast append) (u64_saturating_sub append_bytes removed_bytes)
          end
      end
  end.

(** The statements from [next_receipt_access_sequence] on; [exact] is the
    value bound to the column [exact_only]. *)
Definition insert_snapshot (identity : string) (generation now expires header_bytes ev_count
    ev_bytes : Z) (exact : ReceiptEvidence -> Z) (evidence : list ReceiptEvidence)
    (usage : PersistentReceiptUsage) (d : receipt_db) : result (string * receipt_db) :=
  let* (access_sequence, d) := next_receipt_access_sequence (u_next_access_sequence usage) d in
  let* generation := u64_to_i64 generation in
  let* header_bytes := usize_to_i64 header_bytes in
  let* ev_count := usize_to_i64 ev_count in
  let* ev_bytes := usize_to_i64 ev_bytes in
  let* (row_id, d) := insert_receipt (mk_receipt_row identity generation now now expires
      access_sequence header_bytes ev_count ev_bytes []) d in
  let* rows := collect (fun e => row_of_evidence (exact e) e) evidence in
  let d := insert_evidence row_id rows d in
  let* d := if 0 <? ev_count then add_evidence_usage ev_count ev_bytes d else Ok d in
  Ok (format_receipt_id (u_namespace usage) row_id, d).

(** The source's evidence, checked against its header. *)
Definition load_previous (source : option (string * PersistentReceiptRow)) (d : receipt_db)
    : result (list ReceiptEvidence * Z) :=
  let* previous := match source with
                   | Some (_, source) => load_receipt_evidence (p_id source) d
                   | None => Ok []
                   end in
  let* previous_bytes := checked_bytes 0 previous in
  if match source with
     | Some (_, source) =>
       negb (len previous =? p_evidence_count source)
       || negb (previous_bytes =? p_evidence_bytes source)
     | None => false
     end
  then Err (OperationFailure "retrieval receipt storage bounds are inconsistent")
  else Ok (previous, previous_bytes).

(** From [let header_bytes] to the end: the copy-on-write successor. *)
Definition persist_successor (retained : option Z) (generation now expires : Z)
    (previous : list ReceiptEvidence) (previous_bytes : Z)
    (append : list (ReceiptEvidence * Z)) (append_bytes : Z)
    (usage : PersistentReceiptUsage) (d : receipt_db) : run (result (string * receipt_db)) :=
  let identity := meta_repository_identity d in
  match u64_checked_add RECEIPT_HEADER_FIXED_LOGICAL_BYTES (str_len identity) with
  | None => Done (Err (OperationFailure "retrieval receipt byte accounting overflow"))
  | Some header_bytes =>
    if MAX_TOTAL_RECEIPT_BYTES <? header_bytes then
      Done (Err (OperationFailure
        "repository identity exceeds the retrieval receipt byte quota"))
    else
      let? fitted := fit_successor (S (size (receipts d) + length append)) retained
        (len previous) previous_bytes header_bytes usage d append append_bytes in
      Done (let* (usage, d, append, append_bytes) := fitted in
            insert_snapshot identity generation now expires header_bytes
              (u64_saturating_add (len previous) (len append))
              (u64_saturating_add previous_bytes append_bytes)
              (fun e => if exact_only e then 1 else 0) (previous ++ append.*1) usage d)
  end.

Definition commit_with {D A B} (f : A -> B) (m : result (A * D)) : tx D B :=
  match m with Ok (a, d) => Committed d (Ok (f a)) | Err e => RolledBack e end.

(** The transaction once the source is known. *)
Definition evaluate_candidates (source : option (string * PersistentReceiptRow))
    (generation now expires : Z) (candidates : list ReceiptEvidence) (suppress_overlap : bool)
    (usage : PersistentReceiptUsage) (d : receipt_db) : run (tx receipt_db ReceiptEvaluation) :=
  match load_previous source d with
  | Err e => Done (RolledBack e)
  | Ok (previous, previous_bytes) =>
    let ds := map (fun c => decide_candidate previous c suppress_overlap) candidates in
    let (append, append_bytes) :=
      plan_append (len previous) previous_bytes (returned_evidence candidates ds) [] 0 in
    match source, append with
    | Some (receipt_id, _), [] => Done (Committed d (Ok (mk_evaluation receipt_id ds)))
    | _, _ =>
      let? stored := persist_successor ((fun s => p_id s.2) <$> source) generation now expires
        previous previous_bytes append append_bytes usage d in
      Done (commit_with (fun receipt_id => mk_evaluation receipt_id ds) stored)
    end
  end.

Definition evaluate_receipt_at (requested_id : option string) (generation : Z)
    (candidates : list ReceiptEvidence) (suppress_overlap : bool) (now : Z) (d : receipt_db)
    : run (tx receipt_db ReceiptEvaluation) :=
  if match requested_id with Some id => MAX_RECEIPT_ID_BYTES <? str_len id | None => false end
  then Done (RolledBack (InputTooLong "receipt_id" MAX_RECEIPT_ID_BYTES))
  else if existsb (fun e => MAX_EVIDENCE_BYTES_PER_RECEIPT <? logical_bytes e) candidates
  then Done (RolledBack (InputTooLong "receipt_evidence" MAX_EVIDENCE_BYTES_PER_RECEIPT))
  else if now <? 0
  then Done (RolledBack (OperationFailure "system clock precedes the Unix epoch"))
  else
    match i64_checked_add now RECEIPT_TTL_MILLIS with
    | None => Done (RolledBack (OperationFailure "retrieval receipt expiry overflow"))
    | Some expires =>
      match prune_expired_receipts now d with
      | Err e => Done (RolledBack e)
      | Ok d =>
        match receipt_usage d with
        | Err e => Done (RolledBack e)
        | Ok usage =>
          match evaluate_source requested_id generation now usage d with
          | RolledBack e => Done (RolledBack e)
          | Committed d (Err e) => Done (Committed d (Err e))
          | Committed d (Ok source) =>
            evaluate_candidates source generation now expires candidates suppress_overlap usage d
          end
        end
      end
    end.

(** ** Rebasing *)
Record ReceiptRebaseSource := mk_rebase_source {
  rs_receipt_id : string;
  rs_repository_identity : string;
  rs_repository_generation : Z;
  rs_evidence : list ReceiptEvidence
}.

Definition unusable_at (now : Z) (receipt : PersistentReceiptRow) : bool :=
  (now <? p_created receipt) || (now <? p_last_access receipt) || (p_expires receipt <=? now).

(** No statement of [load_receipt_rebase_source_at] writes. *)
Definition load_receipt_rebase_source_at (requested_id : string) (now : Z) (d : receipt_db)
    : result ReceiptRebaseSource :=
  if MAX_RECEIPT_ID_BYTES <? str_len requested_id
  then Err (InputTooLong "receipt_id" MAX_RECEIPT_ID_BYTES)
  else if now <? 0 then Err (OperationFailure "system clock precedes the Unix epoch")
  else
    let* usage := receipt_usage d in
    match parse_receipt_id requested_id (u_namespace usage) with
    | None => Err (UnknownReceipt requested_id)
    | Some row_id =>
      let* found := load_receipt row_id d in
      match found with
      | None => Err (UnknownReceipt requested_id)
      | Some receipt =>
        if unusable_at now receipt then Err (UnknownReceipt requested_id)
        else if negb (bool_decide (p_repository_identity receipt = meta_repository_identity d))
        then Err (UnknownReceipt requested_id)
        else
          let* evidence := load_receipt_evidence (p_id receipt) d in
          if negb (len evidence =? p_evidence_count receipt)
          then Err (OperationFailure "retrieval receipt evidence count is inconsistent")
          else Ok (mk_rebase_source requested_id (meta_repository_identity d)
                     (p_repository_generation receipt) evidence)
      end
    end.

(** The loop over [carried]: an ordered subset of the source's evidence. *)
Fixpoint is_ordered_subset (source : list ReceiptEvidence) (next_source : nat)
    (carried : list ReceiptEvidence) : bool :=
  match carried with
  | [] => true
  | evidence :: carried =>
    match position (fun candidate => bool_decide (candidate = evidence)) (drop next_source source) with
    | None => false
    | Some offset => is_ordered_subset source (next_source + offset + 1)%nat carried
    end
  end.

Definition evict_and_read (retained : option Z) (s : PersistentReceiptUsage * receipt_db)
    : result (option (PersistentReceiptUsage * receipt_db)) :=
  let* evicted := evict_oldest_receipt_except retained s.2 in
  match evicted with
  | None => Ok None
  | Some d => let* usage := receipt_usage d in Ok (Some (usage, d))
  end.

(** From the pruning statement to the end of [persist_rebased_receipt_at]. *)
Definition persist_carried (source_row_id generation now expires : Z)
    (carried : list ReceiptEvidence) (d : receipt_db) : run (result (string * receipt_db)) :=
  match (let* d := prune_expired_receipts_except now source_row_id d in
         let* usage := receipt_usage d in Ok (usage, d)) with
  | Err e => Done (Err e)
  | Ok (usage, d) =>
    let identity := meta_repository_identity d in
    match u64_checked_add RECEIPT_HEADER_FIXED_LOGICAL_BYTES (str_len identity),
          checked_bytes 0 carried with
    | None, _ => Done (Err (OperationFailure "retrieval receipt byte accounting overflow"))
    | Some _, Err e => Done (Err e)
    | Some logical_bytes, Ok evidence_bytes =>
      if (MAX_EVIDENCE_PER_RECEIPT <? len carried)
         || (MAX_EVIDENCE_BYTES_PER_RECEIPT <? evidence_bytes)
         || (MAX_TOTAL_RECEIPT_BYTES <? logical_bytes)
      then Done (Err (OperationFailure
             "rebased retrieval receipt exceeds its source-derived quota"))
      else
        let? fitted := evict_while (evict_and_read (Some source_row_id))
          (fun s => header_over_quota s.1 logical_bytes
                    || evidence_over_quota s.1 (len carried) evidence_bytes)
          (S (size (receipts d))) (usage, d) in
        Done (let* fitted := fitted in
              match fitted with
              | inr _ => Err (OperationFailure
                  "retrieval receipt quota cannot preserve the rebase source")
              | inl (usage, d) =>
                insert_snapshot identity generation now expires logical_bytes (len carried)
                  evidence_bytes (fun _ => 1) carried usage d
              end)
    end
  end.

Definition persist_rebased_receipt_at (source : ReceiptRebaseSource)
    (expected_repository_generation : Z) (carried : list ReceiptEvidence) (now : Z)
    (d : receipt_db) : run (tx receipt_db string) :=
  let unknown := UnknownReceipt (rs_receipt_id source) in
  if now <? 0
  then Done (RolledBack (OperationFailure "system clock precedes the Unix epoch"))
  else
    match i64_checked_add now RECEIPT_TTL_MILLIS, receipt_usage d with
    | None, _ => Done (RolledBack (OperationFailure "retrieval receipt expiry overflow"))
    | Some _, Err e => Done (RolledBack e)
    | Some expires, Ok usage =>
      match parse_receipt_id (rs_receipt_id source) (u_namespace usage) with
      | None => Done (Committed d (Err unknown))
      | Some source_row_id =>
        match load_receipt source_row_id d with
        | Err e => Done (RolledBack e)
        | Ok None => Done (Committed d (Err unknown))
        | Ok (Some current_source) =>
          if unusable_at now current_source then Done (Committed d (Err unknown))
          else
            match i64_to_u64 (meta_repository_generation d) with
            | Err e => Done (RolledBack e)
            | Ok repository_generation =>
              if negb (bool_decide (meta_repository_identity d = rs_repository_identity source))
                 || negb (bool_decide
                      (p_repository_identity current_source = rs_repository_identity source))
              then Done (Committed d (Err unknown))
              else if negb (repository_generation =? expected_repository_generation)
              then Done (RolledBack RetryableConflict)
              else
                match load_receipt_evidence source_row_id d with
                | Err e => Done (RolledBack e)
                | Ok current_evidence =>
                  if negb (p_repository_generation current_source =? rs_repository_generation source)
                     || negb (bool_decide (current_evidence = rs_evidence source))
                  then Done (RolledBack RetryableConflict)
                  else if negb (is_ordered_subset (rs_evidence source) 0 carried)
                  then Done (RolledBack (OperationFailure
                         "rebased receipt evidence is not an ordered source subset"))
                  else
                    let? stored := persist_carried source_row_id repository_generation now expires
                      carried d in
                    Done (commit_with id stored)
                end
            end
        end
      end
    end.

(** ** [Storage::ensure_quota_usage_projections], the receipt tables

    [usage_exists] says whether the singleton usage row is there; when it is
    not, the usage fields of [d] stand for nothing and [fresh_namespace] is the
    value of [lower(hex(randomblob(16)))]. *)
Definition sql_sum (total : Z) : result Z := if total <=? I64_MAX then Ok total else Err SqlFailure.

Definition rows_bytes (rows : list evidence_row) : Z :=
  foldr (fun e acc => e_logical_bytes e + acc) 0 rows.

Definition recount_receipt (r : receipt_row) : receipt_row :=
  mk_receipt_row (r_repository_identity r) (r_repository_generation r) (r_created r)
    (r_last_access r) (r_expires r) (r_access_sequence r) (r_logical_bytes r)
    (len (r_evidence r)) (rows_bytes (r_evidence r)) (r_evidence r).

Definition miscounted (r : receipt_row) : bool :=
  negb (r_evidence_count r =? len (r_evidence r))
  || negb (r_evidence_bytes r =? rows_bytes (r_evidence r)).

Definition max_access_sequence (m : gmap Z receipt_row) : Z :=
  map_fold (fun _ r acc => Z.max (r_access_sequence r) acc) 0 m.

Definition repair_receipt_usage (usage_exists : bool) (fresh_namespace : string) (d : receipt_db)
    : result (Z * receipt_db) :=
  if usage_exists then
    let repaired := List.filter (fun '(_, r) => miscounted r) (map_to_list (receipts d)) in
    let rows := recount_receipt <$> receipts d in
    let max_sequence := max_access_sequence rows in
    let* header_bytes := sql_sum (map_sum r_logical_bytes rows) in
    let* ev_bytes := sql_sum (map_sum (fun r => rows_bytes (r_evidence r)) rows) in
    let ev_count := map_sum (fun r => len (r_evidence r)) rows in
    let d' := with_usage d (Z.max (next_access_sequence d) max_sequence) (row_count rows)
                header_bytes ev_count ev_bytes rows (last_rowid d) in
    if (next_access_sequence d <? max_sequence) || negb (receipt_count d =? row_count rows)
       || negb (receipt_bytes d =? header_bytes) || negb (evidence_count d =? ev_count)
       || negb (evidence_bytes d =? ev_bytes)
    then Ok (len repaired + 1, d')
    else Ok (len repaired, with_usage d (next_access_sequence d) (receipt_count d)
               (receipt_bytes d) (evidence_count d) (evidence_bytes d) rows (last_rowid d))
  else
    Ok (1, mk_receipt_db fresh_namespace 0 0 0 0 0 ∅ (last_rowid d)
             (meta_repository_identity d) (meta_repository_generation d)).

(** [unix_millis]: [elapsed] is the duration since the Unix epoch in
    milliseconds, [None] when the clock is before it. *)
Definition unix_millis (elapsed : option Z) : Z :=
  match elapsed with
  | Some millis => if millis <=? I64_MAX then millis else 0
  | None => 0
  end.

Definition evaluate_receipt (requested_id : option string) (generation : Z)
    (candidates : list ReceiptEvidence) (suppress_overlap : bool) (elapsed : option Z)
    (d : receipt_db) : run (tx receipt_db ReceiptEvaluation) :=
  evaluate_receipt_at requested_id generation candidates suppress_overlap (unix_millis elapsed) d.

(** ** The store invariant *)

(** What the schema's CHECKs, keys and triggers alone guarantee. *)
Record row_schema (rowid i : Z) (r : receipt_row) : Prop := {
  rs_id : 0 < i <= rowid;
  rs_nonneg : Forall (fun v => 0 <= v) [r_repository_generation r; r_created r; r_last_access r;
                 r_expires r; r_access_sequence r - 1; r_logical_bytes r];
  rs_rows : Forall (fun e => 0 <= e_start_line e <= e_end_line e /\ 0 <= e_logical_bytes e)
              (r_evidence r)
}.

(** What the store adds for an evidence row and for a receipt. *)
Record evidence_ok (e : evidence_row) : Prop := {
  eo_lines : 0 <= e_start_line e <= e_end_line e /\ e_end_line e <= I64_MAX;
  eo_bytes : e_logical_bytes e = RECEIPT_EVIDENCE_FIXED_LOGICAL_BYTES + str_len (e_path e)
               + str_len (e_content_hash e);
  eo_signature : match e_semantic_signature e with Some s => is_i64 s | None => True end
}.

Record row_ok (sequence : Z) (r : receipt_row) : Prop := {
  ro_sequence : r_access_sequence r <= sequence;
  ro_header : r_logical_bytes r <= MAX_TOTAL_RECEIPT_BYTES;
  ro_count : r_evidence_count r = len (r_evidence r);
  ro_bytes : r_evidence_bytes r = rows_bytes (r_evidence r);
  ro_max_count : r_evidence_count r <= MAX_EVIDENCE_PER_RECEIPT;
  ro_max_bytes : r_evidence_bytes r <= MAX_EVIDENCE_BYTES_PER_RECEIPT;
  ro_evidence : Forall evidence_ok (r_evidence r)
}.

Record store_ok (d : receipt_db) : Prop := {
  so_sequence : 0 <= next_access_sequence d <= I64_MAX;
  so_rowid : 0 <= last_rowid d <= I64_MAX;
  so_schema : forall i r, receipts d !! i = Some r -> row_schema (last_rowid d) i r;
  so_rows : forall i r, receipts d !! i = Some r -> row_ok (next_access_sequence d) r;
  so_count : receipt_count d = row_count (receipts d);
  so_bytes : receipt_bytes d = map_sum r_logical_bytes (receipts d);
  so_ev_count : evidence_count d = map_sum r_evidence_count (receipts d);
  so_ev_bytes : evidence_bytes d = map_sum r_evidence_bytes (receipts d);
  so_quota : receipt_count d <= MAX_RECEIPTS /\ receipt_bytes d <= MAX_TOTAL_RECEIPT_BYTES
             /\ evidence_count d <= MAX_TOTAL_EVIDENCE
             /\ evidence_bytes d <= MAX_TOTAL_EVIDENCE_BYTES
}.

(** ** Lemmas: deletion and eviction *)

(** The columns no deletion touches. *)
Record same_frame (d d' : receipt_db) : Prop := {
  sf_namespace : namespace d' = namespace d;
  sf_sequence : next_access_sequence d' = next_access_sequence d;
  sf_rowid : last_rowid d' = last_rowid d;
  sf_identity : meta_repository_identity d' = meta_repository_identity d;
  sf_generation : meta_repository_generation d' = meta_repository_generation d
}.

(** [d'] is [d] after deletions. *)
Definition shrinks (d d' : receipt_db) : Prop := same_frame d d' /\ receipts d' ⊆ receipts d.

#[export] Instance shrinks_preorder : PreOrder shrinks.
Proof.
  split.
  - intros d. by split.
  - intros d1 d2 d3 [[] H12] [[] H23]. split; [split; congruence|by etrans].
Qed.

Lemma rows_bytes_nonneg rows : Forall evidence_ok rows -> 0 <= rows_bytes rows.
Proof.
  unfold rows_bytes. induction 1 as [|e rows [_ He _] _ IH]; simpl; [lia|].
  rewrite He. unfold RECEIPT_EVIDENCE_FIXED_LOGICAL_BYTES, str_len. lia.
Qed.

Lemma row_nonneg d i r : store_ok d -> receipts d !! i = Some r ->
  0 <= r_logical_bytes r /\ 0 <= r_evidence_count r /\ 0 <= r_evidence_bytes r.
Proof.
  intros Hd Hr. destruct (so_schema d Hd i r Hr) as [_ Hn _]. destruct (so_rows d Hd i r Hr).
  apply Forall_cons in Hn as [_ Hn]. do 4 apply Forall_cons in Hn as [_ Hn].
  apply Forall_cons in Hn as [? _].
  rewrite ro_count0, ro_bytes0. split_and!; [done|unfold len; lia|by apply rows_bytes_nonneg].
Qed.

(** The usage row never runs below zero, so its CHECKs never fail. *)
Lemma usage_nonneg d : store_ok d ->
  0 <= receipt_count d /\ 0 <= receipt_bytes d /\ 0 <= evidence_count d /\ 0 <= evidence_bytes d.
Proof.
  intros Hd. rewrite (so_count d Hd), (so_bytes d Hd), (so_ev_count d Hd), (so_ev_bytes d Hd).
  split; [apply row_count_nonneg|].
  split_and!; apply map_sum_nonneg; intros i r Hr; by apply (row_nonneg d i r).
Qed.

Lemma delete_receipt_ok i d : store_ok d ->
  exists d', delete_receipt i d = Ok d' /\ store_ok d' /\ same_frame d d'
    /\ receipts d' = delete i (receipts d).
Proof.
  intros Hd. unfold delete_receipt. destruct (receipts d !! i) as [r|] eqn:Hr.
  2:{ exists d. rewrite delete_id by done. by split. }
  destruct (row_nonneg d i r Hd Hr) as (? & ? & ?).
  pose proof (so_count d Hd) as Hc. pose proof (so_bytes d Hd) as Hb.
  pose proof (so_ev_count d Hd) as Hec. pose proof (so_ev_bytes d Hd) as Heb.
  rewrite (row_count_delete _ i r Hr) in Hc. rewrite (map_sum_delete _ _ i r Hr) in Hb.
  rewrite (map_sum_delete _ _ i r Hr) in Hec. rewrite (map_sum_delete _ _ i r Hr) in Heb.
  pose proof (row_count_nonneg (delete i (receipts d))).
  assert (Hsub : forall j r', delete i (receipts d) !! j = Some r' -> receipts d !! j = Some r').
  { intros j r' Hj. by apply lookup_delete_Some in Hj as [_ Hj]. }
  assert (Hpos : 0 <= map_sum r_logical_bytes (delete i (receipts d))
     /\ 0 <= map_sum r_evidence_count (delete i (receipts d))
     /\ 0 <= map_sum r_evidence_bytes (delete i (receipts d))).
  { split_and!; apply map_sum_nonneg; intros j r' Hj; by apply (row_nonneg d j r'), Hsub. }
  rewrite check_nonneg_ok by (repeat constructor; lia). simpl. eexists. split; [done|].
  split_and!; [|done|done].
  destruct Hd as [? ? Hs Hrow ? ? ? ? ?]. constructor; simpl; try done; try lia.
  - intros j r' Hj. by apply Hs, Hsub.
  - intros j r' Hj. by eapply Hrow, Hsub.
Qed.

Lemma delete_receipts_ok ids d : store_ok d ->
  exists d', delete_receipts ids d = Ok d' /\ store_ok d' /\ same_frame d d'
    /\ forall i, receipts d' !! i = if decide (i ∈ ids) then None else receipts d !! i.
Proof.
  unfold delete_receipts. revert d. induction ids as [|j ids IH]; intros d Hd; simpl.
  { exists d. by split_and!. }
  destruct (delete_receipt_ok j d Hd) as (d1 & -> & Hd1 & Hf1 & Hr1).
  destruct (IH d1 Hd1) as (d2 & -> & Hd2 & Hf2 & Hr2).
  exists d2. split_and!; [done|done| |].
  - destruct Hf1, Hf2. split; congruence.
  - intros i. rewrite Hr2, Hr1. destruct (decide (i = j)) as [->|Hij].
    + rewrite lookup_delete_eq. rewrite (decide_True (P := j ∈ j :: ids)) by (by left).
      by destruct (decide _).
    + rewrite lookup_delete_ne by done.
      destruct (decide (i ∈ ids)); [by rewrite decide_True by (by right)|].
      rewrite decide_False; [done|]. by intros [|]%elem_of_cons.
Qed.

Lemma elem_of_ids_where p d i :
  i ∈ ids_where p d <-> exists r, receipts d !! i = Some r /\ p i r = true.
Proof.
  unfold ids_where. rewrite list_elem_of_fmap. split.
  - intros ([j r] & -> & [Hp Hj]%list_elem_of_In%filter_In). simpl.
    exists r. by apply list_elem_of_In, elem_of_map_to_list in Hp.
  - intros (r & Hr & Hp). exists (i, r). split; [done|].
    apply list_elem_of_In, filter_In. split; [|done].
    apply list_elem_of_In. by apply elem_of_map_to_list.
Qed.

(** Deleting the rows a [WHERE] clause selects leaves exactly the others. *)
Lemma delete_where_ok p d : store_ok d ->
  exists d', delete_receipts (ids_where p d) d = Ok d' /\ store_ok d' /\ shrinks d d'
    /\ forall i r, receipts d' !! i = Some r <-> receipts d !! i = Some r /\ p i r = false.
Proof.
  intros Hd. destruct (delete_receipts_ok (ids_where p d) d Hd) as (d' & He & Hd' & Hf & Hl).
  exists d'.
  assert (Hspec : forall i r,
    receipts d' !! i = Some r <-> receipts d !! i = Some r /\ p i r = false).
  { intros i r. rewrite Hl. destruct (decide _) as [Hin|Hin];
      rewrite elem_of_ids_where in Hin; split.
    - done.
    - intros [Hr Hp]. destruct Hin as (r' & Hr' & Hp'). congruence.
    - intros Hr. split; [done|]. destruct (p i r) eqn:E; [|done].
      exfalso. apply Hin. by exists r.
    - by intros []. }
  split_and!; [done|done|split; [done|]|done].
  apply map_subseteq_spec. intros i r Hr. by apply Hspec.
Qed.

Lemma evict_oldest_ok retained d : store_ok d ->
  exists r, evict_oldest_receipt_except retained d = Ok r /\
    match r with
    | Some d' => store_ok d' /\ shrinks d d' /\ (size (receipts d') < size (receipts d))%nat
        /\ (forall i, retained = Some i -> receipts d' !! i = receipts d !! i)
    | None => forall i r, receipts d !! i = Some r -> retained = Some i
    end.
Proof.
  intros Hd. unfold evict_oldest_receipt_except, oldest_receipt.
  destruct (least _ _) as [[i r]|] eqn:Hl; simpl.
  - destruct (least_spec _ _ _ Hl) as [[Hin Hp]%list_elem_of_In%filter_In _].
    apply list_elem_of_In, elem_of_map_to_list in Hin. bool_to_prop.
    destruct (delete_receipt_ok i d Hd) as (d' & -> & Hd' & Hf & Hr). simpl.
    exists (Some d'). split_and!; [done|done|split; [done|]| |].
    + rewrite Hr. apply delete_subseteq.
    + rewrite Hr. rewrite map_size_delete_Some by eauto.
      assert (size (receipts d) <> 0%nat); [|lia].
      intros Hz%map_size_empty_inv. by rewrite Hz, lookup_empty in Hin.
    + intros j ->. rewrite Hr, lookup_delete_ne; [done|]. intros ->.
      rewrite Z.eqb_refl in *. done.
  - exists None. split; [done|]. apply least_none in Hl. intros i r Hr.
    destruct (decide (retained = Some i)) as [|Hne]; [done|exfalso].
    assert (Hin : (i, r) ∈ map_to_list (receipts d)) by (by apply elem_of_map_to_list).
    destruct (so_schema d Hd i r Hr) as [_ Hn _]. do 4 apply Forall_cons in Hn as [_ Hn].
    apply Forall_cons in Hn as [Hseq _].
    enough (In (i, r) []) by done. rewrite <-Hl. apply filter_In.
    split; [by apply list_elem_of_In|]. apply andb_true_iff. split; [apply Z.ltb_lt; lia|].
    destruct retained as [j|]; [|done]. apply negb_true_iff, Z.eqb_neq. congruence.
Qed.

Definition usage_of (d : receipt_db) : PersistentReceiptUsage :=
  mk_usage (namespace d) (next_access_sequence d) (receipt_count d) (receipt_bytes d)
    (evidence_count d) (evidence_bytes d).

Lemma receipt_usage_ok d : store_ok d -> receipt_usage d = Ok (usage_of d).
Proof.
  intros (? & ? & ? & ?)%usage_nonneg. unfold receipt_usage.
  by rewrite !i64_to_usize_ok by done.
Qed.

(** ** Lemmas: the evidence columns *)

(** Evidence as the Rust types bound it. *)
Definition evidence_typed (e : ReceiptEvidence) : Prop :=
  is_u64 (Receipt.start_line e) /\ is_u64 (Receipt.end_line e)
  /\ match match_policy e with Overlap (Some s) => is_u64 s | _ => True end.

(** Evidence whose lines fit the columns. *)
Definition storable (e : ReceiptEvidence) : Prop :=
  0 <= Receipt.start_line e <= Receipt.end_line e /\ Receipt.end_line e <= I64_MAX.

Definition total_bytes (l : list ReceiptEvidence) : Z :=
  foldr (fun e acc => logical_bytes e + acc) 0 l.

(** What a row written with [exact] in its [exact_only] column reads back as. *)
Definition stored_as (exact : Z) (e : ReceiptEvidence) : ReceiptEvidence :=
  from_stored (Receipt.path e) (Receipt.start_line e) (Receipt.end_line e)
    (Receipt.content_hash e) (semantic_signature e) (negb (exact =? 0)).

Lemma stored_as_id e : stored_as (if exact_only e then 1 else 0) e = e.
Proof. destruct e as [p s t h [|sig]]; done. Qed.

Lemma as_u64_as_i64 s : is_u64 s -> as_u64 (as_i64 s) = s /\ is_i64 (as_i64 s).
Proof.
  unfold is_u64, is_i64, as_u64, as_i64, U64_MAX, I64_MAX, I64_MIN. intros Hs.
  destruct (s <=? 9223372036854775807) eqn:E; bool_to_prop.
  - rewrite (proj2 (Z.leb_le 0 s)) by lia. lia.
  - change (2 ^ 64) with 18446744073709551616.
    rewrite (proj2 (Z.leb_gt 0 (s - 18446744073709551616))) by lia. lia.
Qed.

Lemma logical_bytes_pos e : RECEIPT_EVIDENCE_FIXED_LOGICAL_BYTES <= logical_bytes e.
Proof.
  unfold logical_bytes, RECEIPT_EVIDENCE_FIXED_LOGICAL_BYTES, str_len. ints.
Qed.

Lemma logical_bytes_exact e : logical_bytes e <= MAX_EVIDENCE_BYTES_PER_RECEIPT ->
  logical_bytes e = RECEIPT_EVIDENCE_FIXED_LOGICAL_BYTES + str_len (Receipt.path e)
    + str_len (Receipt.content_hash e).
Proof.
  unfold logical_bytes, RECEIPT_EVIDENCE_FIXED_LOGICAL_BYTES, MAX_EVIDENCE_BYTES_PER_RECEIPT,
    str_len. ints.
Qed.

(** What is known of a row written for a piece of evidence. *)
Definition row_for (exact : Z) (e : ReceiptEvidence) (row : evidence_row) : Prop :=
  evidence_ok row /\ e_logical_bytes row = logical_bytes e
  /\ evidence_of_row row = Ok (stored_as exact e).

Lemma row_of_evidence_spec exact e :
  evidence_typed e -> logical_bytes e <= MAX_EVIDENCE_BYTES_PER_RECEIPT ->
  match row_of_evidence exact e with
  | Ok row => storable e /\ row_for exact e row
  | Err _ => ~ storable e
  end.
Proof.
  intros ([Hs0 _] & [He0 _] & Hsig) Hb.
  pose proof (logical_bytes_exact e Hb) as Hex. pose proof (logical_bytes_pos e) as Hpos.
  unfold row_of_evidence, usize_to_i64, storable.
  destruct (Receipt.start_line e <=? I64_MAX) eqn:Hs; simpl; bool_to_prop; [|lia].
  destruct (Receipt.end_line e <=? I64_MAX) eqn:He; simpl; bool_to_prop; [|lia].
  rewrite (proj2 (Z.leb_le (logical_bytes e) I64_MAX))
    by (unfold I64_MAX, MAX_EVIDENCE_BYTES_PER_RECEIPT in *; lia). simpl.
  destruct (Z.le_gt_cases (Receipt.start_line e) (Receipt.end_line e)) as [Hle|Hgt].
  - rewrite check_nonneg_ok.
    2:{ unfold RECEIPT_EVIDENCE_FIXED_LOGICAL_BYTES in *. repeat constructor; lia. }
    simpl. split; [lia|]. split_and!; simpl; [|done|].
    + constructor; simpl; [lia|done|]. unfold semantic_signature.
      destruct (match_policy e) as [|[s|]]; simpl; [done| |done]. by apply as_u64_as_i64.
    + unfold evidence_of_row, stored_as. simpl. rewrite !i64_to_usize_ok by lia. simpl.
      do 2 f_equal. unfold semantic_signature.
      destruct (match_policy e) as [|[s|]]; simpl; [done| |done].
      by rewrite (proj1 (as_u64_as_i64 s Hsig)).
  - unfold check_nonneg. simpl.
    rewrite (proj2 (Z.leb_gt 0 (Receipt.end_line e - Receipt.start_line e))) by lia.
    rewrite andb_false_r. simpl. lia.
Qed.

Lemma collect_spec {A B} (f : A -> result B) (P : A -> Prop) (Q : A -> B -> Prop) l :
  (forall x, x ∈ l -> match f x with Ok y => P x /\ Q x y | Err _ => ~ P x end) ->
  match collect f l with
  | Ok ys => Forall P l /\ Forall2 Q l ys
  | Err _ => ~ Forall P l
  end.
Proof.
  induction l as [|x l IH]; intros Hf; simpl; [by split; constructor|].
  pose proof (Hf x ltac:(by left)) as Hx. destruct (f x) as [y|]; simpl.
  - specialize (IH (fun z Hz => Hf z ltac:(by right))).
    destruct (collect f l) as [ys|]; simpl.
    + destruct Hx, IH. by split; constructor.
    + by intros [_ ?]%Forall_cons.
  - by intros [? _]%Forall_cons.
Qed.

Lemma rows_for_bytes exact l rows : Forall2 (fun e => row_for (exact e) e) l rows ->
  rows_bytes rows = total_bytes l /\ Forall evidence_ok rows
  /\ collect evidence_of_row rows = Ok (map (fun e => stored_as (exact e) e) l).
Proof.
  unfold rows_bytes, total_bytes.
  induction 1 as [|e row l rows (Hok & Hb & Hr) _ (IHb & IHo & IHc)]; simpl; [done|].
  rewrite Hr. simpl. rewrite IHc. split_and!; [lia|by constructor|done].
Qed.

(** A row of a well-formed store reads back as typed, storable evidence of the
    same logical size. *)
Lemma evidence_of_row_ok row : evidence_ok row -> exists e, evidence_of_row row = Ok e
  /\ evidence_typed e /\ storable e
  /\ (e_logical_bytes row <= MAX_EVIDENCE_BYTES_PER_RECEIPT ->
      logical_bytes e = e_logical_bytes row).
Proof.
  intros [[[Hs Hse] He] Hb Hsig]. unfold evidence_of_row.
  rewrite !i64_to_usize_ok by lia. simpl. eexists. split; [done|].
  split_and!; simpl.
  - unfold evidence_typed, from_stored. simpl. unfold is_u64.
    split_and!; try (unfold U64_MAX, I64_MAX in *; lia).
    destruct (negb _); [done|]. destruct (e_semantic_signature row) as [s|]; simpl; [|done].
    unfold as_u64, is_i64, U64_MAX, I64_MIN, I64_MAX in *.
    change (2 ^ 64) with 18446744073709551616.
    destruct (0 <=? s) eqn:E; bool_to_prop; lia.
  - unfold storable. simpl. lia.
  - intros Hle. unfold logical_bytes. simpl. rewrite Hb in *.
    unfold RECEIPT_EVIDENCE_FIXED_LOGICAL_BYTES, MAX_EVIDENCE_BYTES_PER_RECEIPT, str_len in *.
    ints.
Qed.

Lemma total_bytes_app l1 l2 : total_bytes (l1 ++ l2) = total_bytes l1 + total_bytes l2.
Proof. unfold total_bytes. induction l1 as [|e l1 IH]; simpl; lia. Qed.

Lemma total_bytes_nonneg l : 0 <= total_bytes l.
Proof.
  unfold total_bytes. induction l as [|e l IH]; simpl; [lia|].
  pose proof (logical_bytes_pos e). unfold RECEIPT_EVIDENCE_FIXED_LOGICAL_BYTES in *. lia.
Qed.

Lemma checked_bytes_ok total l : total + total_bytes l <= U64_MAX ->
  checked_bytes total l = Ok (total + total_bytes l).
Proof.
  revert total. induction l as [|e l IH]; intros total Hb; simpl; [by rewrite Z.add_0_r|].
  pose proof (total_bytes_nonneg l). unfold total_bytes in *. simpl in *.
  unfold u64_checked_add. rewrite (proj2 (Z.leb_le _ _)) by lia.
  rewrite IH by lia. f_equal. lia.
Qed.

(** Evidence one receipt may hold. *)
Definition evidence_fine (e : ReceiptEvidence) : Prop :=
  evidence_typed e /\ storable e /\ logical_bytes e <= MAX_EVIDENCE_BYTES_PER_RECEIPT.

Lemma load_evidence_ok d i r : store_ok d -> receipts d !! i = Some r ->
  exists l, load_receipt_evidence i d = Ok l /\ len l = r_evidence_count r
    /\ total_bytes l = r_evidence_bytes r /\ Forall evidence_fine l.
Proof.
  intros Hd Hr. unfold load_receipt_evidence. rewrite Hr.
  destruct (so_rows d Hd i r Hr) as [_ _ Hc Hb _ Hm He]. rewrite Hb in Hm. rewrite Hc, Hb.
  clear Hc Hb. unfold rows_bytes, total_bytes, len in *.
  induction He as [|row rows Hrow Hrows IH]; simpl in *.
  { exists []. by repeat split. }
  pose proof (rows_bytes_nonneg rows Hrows) as Hn. unfold rows_bytes in Hn.
  assert (0 <= e_logical_bytes row).
  { rewrite (eo_bytes row Hrow). unfold RECEIPT_EVIDENCE_FIXED_LOGICAL_BYTES, str_len. lia. }
  destruct (evidence_of_row_ok row Hrow) as (e & -> & Ht & Hs & Hle).
  destruct IH as (l & -> & Hlen & Hsum & Hfine); [lia|]. simpl.
  exists (e :: l). simpl. rewrite Hle by lia. split_and!; [done|lia|lia|].
  constructor; [|done]. split_and!; [done|done|]. rewrite Hle; lia.
Qed.

(** ** Lemmas: the eviction loops *)

(** When nothing can be evicted only the retained receipt is left. *)
Lemma exhausted_usage retained d : store_ok d ->
  (forall i r, receipts d !! i = Some r -> retained = Some i) ->
  match retained with
  | None => receipt_count d = 0 /\ receipt_bytes d = 0 /\ evidence_count d = 0
            /\ evidence_bytes d = 0
  | Some i => receipt_count d <= 1 /\ evidence_count d <= MAX_EVIDENCE_PER_RECEIPT
      /\ evidence_bytes d <= MAX_EVIDENCE_BYTES_PER_RECEIPT
      /\ receipt_bytes d = match receipts d !! i with Some r => r_logical_bytes r | None => 0 end
  end.
Proof.
  intros Hd Hall.
  rewrite (so_count d Hd), (so_bytes d Hd), (so_ev_count d Hd), (so_ev_bytes d Hd).
  destruct retained as [i|].
  - destruct (sole_row_count (receipts d) i) as [Hc Hs].
    { intros j r Hj. apply Hall in Hj. congruence. }
    rewrite !Hs. destruct (receipts d !! i) as [r|] eqn:Hr.
    + destruct (so_rows d Hd i r Hr). lia.
    + unfold MAX_EVIDENCE_PER_RECEIPT, MAX_EVIDENCE_BYTES_PER_RECEIPT. lia.
  - assert (receipts d = ∅) as ->.
    { apply map_empty. intros j. destruct (receipts d !! j) as [r|] eqn:Hj; [|done].
      by apply Hall in Hj. }
    rewrite !map_sum_empty. unfold row_count. by rewrite map_size_empty.
Qed.

(** The room the successor needs. *)
Definition fits (d : receipt_db) (header_bytes count bytes : Z) : Prop :=
  receipt_count d < MAX_RECEIPTS /\ receipt_bytes d + header_bytes <= MAX_TOTAL_RECEIPT_BYTES
  /\ evidence_count d + count <= MAX_TOTAL_EVIDENCE
  /\ evidence_bytes d + bytes <= MAX_TOTAL_EVIDENCE_BYTES.

Lemma header_over_quota_iff d hb : store_ok d -> 0 <= hb <= MAX_TOTAL_RECEIPT_BYTES ->
  header_over_quota (usage_of d) hb = false <->
  receipt_count d < MAX_RECEIPTS /\ receipt_bytes d + hb <= MAX_TOTAL_RECEIPT_BYTES.
Proof.
  intros Hd Hhb. destruct (so_quota d Hd) as (? & ? & _).
  unfold header_over_quota. simpl. rewrite orb_false_iff, Z.leb_gt, Z.ltb_ge.
  unfold MAX_RECEIPTS, MAX_TOTAL_RECEIPT_BYTES in *. ints.
Qed.

Lemma evidence_over_quota_iff d c b : store_ok d ->
  0 <= c <= MAX_EVIDENCE_PER_RECEIPT -> 0 <= b <= MAX_EVIDENCE_BYTES_PER_RECEIPT ->
  evidence_over_quota (usage_of d) c b = false <->
  evidence_count d + c <= MAX_TOTAL_EVIDENCE
  /\ evidence_bytes d + b <= MAX_TOTAL_EVIDENCE_BYTES.
Proof.
  intros Hd Hc Hb. destruct (so_quota d Hd) as (_ & _ & ? & ?).
  unfold evidence_over_quota. simpl. rewrite orb_false_iff, !Z.ltb_ge.
  unfold MAX_TOTAL_EVIDENCE, MAX_TOTAL_EVIDENCE_BYTES, MAX_EVIDENCE_PER_RECEIPT,
    MAX_EVIDENCE_BYTES_PER_RECEIPT in *. ints.
Qed.

Lemma over_quota_fits d hb c b : store_ok d -> 0 <= hb <= MAX_TOTAL_RECEIPT_BYTES ->
  0 <= c <= MAX_EVIDENCE_PER_RECEIPT -> 0 <= b <= MAX_EVIDENCE_BYTES_PER_RECEIPT ->
  header_over_quota (usage_of d) hb || evidence_over_quota (usage_of d) c b = false <->
  fits d hb c b.
Proof.
  intros. rewrite orb_false_iff, header_over_quota_iff, evidence_over_quota_iff by done.
  unfold fits. tauto.
Qed.

(** Once only the retained receipt is left the evidence always fits, so what
    does not fit is the header of the successor beside that of the source. *)
Lemma exhausted_over retained d hb c b : store_ok d -> 0 <= hb <= MAX_TOTAL_RECEIPT_BYTES ->
  0 <= c <= MAX_EVIDENCE_PER_RECEIPT -> 0 <= b <= MAX_EVIDENCE_BYTES_PER_RECEIPT ->
  (forall i r, receipts d !! i = Some r -> retained = Some i) ->
  header_over_quota (usage_of d) hb || evidence_over_quota (usage_of d) c b = true ->
  header_over_quota (usage_of d) hb = true /\
  exists i r, retained = Some i /\ receipts d !! i = Some r
    /\ MAX_TOTAL_RECEIPT_BYTES < r_logical_bytes r + hb.
Proof.
  intros Hd Hhb Hc Hb Hall Ho. pose proof (exhausted_usage retained d Hd Hall) as Hu.
  assert (evidence_over_quota (usage_of d) c b = false) as He.
  { apply evidence_over_quota_iff; [done..|].
    unfold MAX_TOTAL_EVIDENCE, MAX_TOTAL_EVIDENCE_BYTES, MAX_EVIDENCE_PER_RECEIPT,
      MAX_EVIDENCE_BYTES_PER_RECEIPT in *. destruct retained; lia. }
  rewrite He, orb_false_r in Ho. split; [done|].
  destruct (Z.lt_ge_cases MAX_TOTAL_RECEIPT_BYTES (receipt_bytes d + hb)) as [Hlt|Hge].
  - destruct retained as [i|]; [|lia].
    destruct Hu as (_ & _ & _ & Hu). rewrite Hu in Hlt.
    destruct (receipts d !! i) as [r|] eqn:Hr; [|lia]. by exists i, r.
  - exfalso. assert (header_over_quota (usage_of d) hb = false); [|congruence].
    apply header_over_quota_iff; [done..|]. split; [|done].
    unfold MAX_RECEIPTS. destruct retained; lia.
Qed.

(** [d'] is [d] after evictions that spared the retained receipt. *)
Definition spares (retained : option Z) (d d' : receipt_db) : Prop :=
  shrinks d d' /\ forall i, retained = Some i -> receipts d' !! i = receipts d !! i.

#[export] Instance spares_preorder retained : PreOrder (spares retained).
Proof.
  split; [by intros d; split|].
  intros d1 d2 d3 [H12 E12] [H23 E23]. split; [by etrans|].
  intros i Hi. by rewrite (E23 i Hi), E12.
Qed.

Lemma fit_successor_spec fuel retained pl pb hb d append ab : store_ok d ->
  0 <= hb <= MAX_TOTAL_RECEIPT_BYTES ->
  0 <= pl /\ pl + len append <= MAX_EVIDENCE_PER_RECEIPT ->
  0 <= pb /\ 0 <= ab /\ pb + ab <= MAX_EVIDENCE_BYTES_PER_RECEIPT ->
  (size (receipts d) < fuel)%nat ->
  (exists d', fit_successor fuel retained pl pb hb (usage_of d) d append ab
      = Done (Ok (usage_of d', d', append, ab))
     /\ store_ok d' /\ spares retained d d' /\ fits d' hb (pl + len append) (pb + ab))
  \/ fit_successor fuel retained pl pb hb (usage_of d) d append ab
       = Done (Err (OperationFailure "retrieval receipt quota cannot preserve the source snapshot"))
     /\ exists i r, retained = Some i /\ receipts d !! i = Some r
          /\ MAX_TOTAL_RECEIPT_BYTES < r_logical_bytes r + hb.
Proof.
  intros Hd Hhb Hpl Hpb. revert d Hd.
  induction fuel as [|fuel IH]; intros d Hd Hfuel; [lia|]. simpl.
  assert (Hlen : 0 <= len append) by (unfold len; lia).
  rewrite !u64_saturating_add_exact
    by (unfold U64_MAX, MAX_EVIDENCE_PER_RECEIPT, MAX_EVIDENCE_BYTES_PER_RECEIPT in *; lia).
  rewrite <-negb_orb.
  destruct (header_over_quota _ _ || evidence_over_quota _ _ _) eqn:Ho; simpl.
  2:{ left. exists d. split_and!; [done..|]. apply over_quota_fits in Ho; [done..|lia|lia]. }
  destruct (evict_oldest_ok retained d Hd) as (r & -> & Hr). destruct r as [d1|].
  - destruct Hr as (Hd1 & Hsh & Hsz & Hret). rewrite (receipt_usage_ok d1 Hd1).
    destruct (IH d1 Hd1 ltac:(lia)) as [(d2 & Hfit & Hd2 & Hsp & Hf)|(Hfit & i & r & Hi & Hr & ?)].
    + left. exists d2. split_and!; [done|done| |done]. by etrans; [|done].
    + right. split; [done|]. exists i, r. split_and!; [done| |done]. by rewrite <-(Hret i Hi).
  - destruct (exhausted_over retained d hb _ _ Hd Hhb ltac:(split; [|apply Hpl]; lia)
      ltac:(split; [|apply Hpb]; lia) Hr Ho) as (-> & Hex).
    right. by split.
Qed.

(** ** Lemmas: writing the successor *)

(** What a new receipt needs besides room: free numbers and storable columns. *)
Definition numbers_left (d : receipt_db) (generation : Z) (evidence : list ReceiptEvidence) : Prop :=
  next_access_sequence d < I64_MAX /\ last_rowid d < I64_MAX /\ generation <= I64_MAX
  /\ Forall storable evidence.

(** [d'] is [d] with one new receipt of fresh id [id] that holds [evidence]. *)
Record added (d d' : receipt_db) (id : Z) (generation now expires : Z)
    (evidence : list ReceiptEvidence) : Prop := {
  ad_id : id = last_rowid d + 1 /\ receipts d !! id = None;
  ad_namespace : namespace d' = namespace d;
  ad_identity : meta_repository_identity d' = meta_repository_identity d
    /\ meta_repository_generation d' = meta_repository_generation d;
  ad_row : exists r, receipts d' = <[id := r]> (receipts d)
    /\ r_repository_identity r = meta_repository_identity d
    /\ r_repository_generation r = generation /\ r_created r = now /\ r_last_access r = now
    /\ r_expires r = expires;
  ad_evidence : load_receipt_evidence id d' = Ok evidence
}.

Lemma fresh_rowid d i : store_ok d -> last_rowid d < i -> receipts d !! i = None.
Proof.
  intros Hd Hi. destruct (receipts d !! i) as [r|] eqn:Hr; [|done].
  destruct (so_schema d Hd i r Hr) as [? _ _]. lia.
Qed.

(** A store stays well formed when a well-formed row is added within quota. *)
Lemma store_ok_insert d r : store_ok d -> last_rowid d < I64_MAX ->
  next_access_sequence d < I64_MAX -> r_access_sequence r = next_access_sequence d + 1 ->
  row_schema (last_rowid d + 1) (last_rowid d + 1) r -> row_ok (next_access_sequence d + 1) r ->
  fits d (r_logical_bytes r) (r_evidence_count r) (r_evidence_bytes r) ->
  store_ok (with_usage d (next_access_sequence d + 1) (receipt_count d + 1)
    (receipt_bytes d + r_logical_bytes r) (evidence_count d + r_evidence_count r)
    (evidence_bytes d + r_evidence_bytes r) (<[last_rowid d + 1 := r]> (receipts d))
    (last_rowid d + 1)).
Proof.
  intros Hd Hrow Hseq Hr Hs Ho Hf.
  pose proof (fresh_rowid d (last_rowid d + 1) Hd ltac:(lia)) as Hfresh.
  destruct Hd as [? ? Hsch Hrows ? ? ? ? ?]. unfold fits in Hf.
  constructor; simpl; try lia; rewrite ?row_count_insert, ?map_sum_insert by done; try lia.
  - intros i r' [[<- <-]|[Hne Hi]]%lookup_insert_Some; [done|].
    destruct (Hsch i r' Hi) as [? ? ?]. constructor; [lia|done|done].
  - intros i r' [[<- <-]|[Hne Hi]]%lookup_insert_Some; [done|].
    destruct (Hrows i r' Hi). constructor; try done. lia.
Qed.

Lemma insert_evidence_fresh d seq c b ec eb id r rows rid :
  r_evidence r = [] ->
  insert_evidence id rows (with_usage d seq c b ec eb (<[id := r]> (receipts d)) rid)
  = with_usage d seq c b ec eb
      (<[id := mk_receipt_row (r_repository_identity r) (r_repository_generation r)
         (r_created r) (r_last_access r) (r_expires r) (r_access_sequence r) (r_logical_bytes r)
         (r_evidence_count r) (r_evidence_bytes r) rows]> (receipts d)) rid.
Proof.
  intros Hr. unfold insert_evidence, with_usage. simpl. rewrite alter_insert_eq.
  by rewrite Hr.
Qed.

Lemma with_usage_twice d s1 c1 b1 ec1 eb1 m1 r1 s c b ec eb m r :
  with_usage (with_usage d s1 c1 b1 ec1 eb1 m1 r1) s c b ec eb m r = with_usage d s c b ec eb m r.
Proof. done. Qed.

(** The whole insertion, with the store it leaves. *)
Lemma insert_snapshot_run d generation now expires hb exact evidence rows :
  store_ok d -> 0 <= generation -> 0 <= now -> 0 <= expires ->
  0 <= hb <= MAX_TOTAL_RECEIPT_BYTES -> len evidence <= MAX_EVIDENCE_PER_RECEIPT ->
  total_bytes evidence <= MAX_EVIDENCE_BYTES_PER_RECEIPT ->
  next_access_sequence d < I64_MAX -> last_rowid d < I64_MAX -> generation <= I64_MAX ->
  collect (fun e => row_of_evidence (exact e) e) evidence = Ok rows ->
  insert_snapshot (meta_repository_identity d) generation now expires hb (len evidence)
    (total_bytes evidence) exact evidence (usage_of d) d
  = Ok (format_receipt_id (namespace d) (last_rowid d + 1),
      with_usage d (next_access_sequence d + 1) (receipt_count d + 1) (receipt_bytes d + hb)
        (evidence_count d + len evidence) (evidence_bytes d + total_bytes evidence)
        (<[last_rowid d + 1 := mk_receipt_row (meta_repository_identity d) generation now now
             expires (next_access_sequence d + 1) hb (len evidence) (total_bytes evidence) rows]>
           (receipts d))
        (last_rowid d + 1)).
Proof.
  intros Hd Hg Hn Hx Hhb Hc Hb Hseq Hrow Hgm Hcol.
  pose proof (so_sequence d Hd). pose proof (total_bytes_nonneg evidence).
  assert (0 <= len evidence) by (unfold len; lia).
  destruct (usage_nonneg d Hd) as (? & ? & ? & ?).
  unfold MAX_TOTAL_RECEIPT_BYTES, MAX_EVIDENCE_PER_RECEIPT, MAX_EVIDENCE_BYTES_PER_RECEIPT in *.
  unfold insert_snapshot, next_receipt_access_sequence, i64_checked_add. simpl.
  rewrite (proj2 (andb_true_iff _ _))
    by (rewrite !Z.leb_le; unfold I64_MIN, I64_MAX in *; lia).
  rewrite Z.eqb_refl, check_nonneg_ok by (repeat constructor; lia). simpl.
  rewrite u64_to_i64_ok by done. simpl.
  rewrite !usize_to_i64_ok by (unfold I64_MAX; lia). simpl.
  unfold insert_receipt. simpl. rewrite check_nonneg_ok by (repeat constructor; lia). simpl.
  rewrite (proj2 (Z.eqb_neq _ _)) by lia. simpl. rewrite Hcol. simpl.
  rewrite with_usage_twice, (insert_evidence_fresh d) by done. simpl.
  destruct (0 <? len evidence) eqn:Hz; bool_to_prop.
  - unfold add_evidence_usage. simpl. rewrite check_nonneg_ok by (repeat constructor; lia). done.
  - assert (evidence = []) as -> by (destruct evidence; [done|unfold len in *; simpl in *; lia]).
    unfold total_bytes, len. simpl. rewrite !Z.add_0_r. done.
Qed.

Lemma insert_snapshot_stuck d identity generation now expires hb c b exact evidence :
  ~ (next_access_sequence d < I64_MAX /\ last_rowid d < I64_MAX /\ generation <= I64_MAX
     /\ exists rows, collect (fun e => row_of_evidence (exact e) e) evidence = Ok rows) ->
  0 <= next_access_sequence d <= I64_MAX -> 0 <= last_rowid d <= I64_MAX ->
  exists e, insert_snapshot identity generation now expires hb c b exact evidence (usage_of d) d
    = Err e.
Proof.
  intros Hno Hseq Hrow. unfold insert_snapshot, next_receipt_access_sequence, i64_checked_add. simpl.
  destruct (_ && _) eqn:Hs; [|by eexists]. bool_to_prop. rewrite Z.eqb_refl.
  destruct (check_nonneg _); simpl; [|by eexists].
  unfold u64_to_i64. destruct (generation <=? I64_MAX) eqn:Hg; simpl; [|by eexists]. bool_to_prop.
  destruct (usize_to_i64 hb); simpl; [|by eexists].
  destruct (usize_to_i64 c); simpl; [|by eexists].
  destruct (usize_to_i64 b); simpl; [|by eexists].
  unfold insert_receipt. destruct (check_nonneg _); simpl; [|by eexists].
  destruct (last_rowid d =? I64_MAX) eqn:Hr; simpl; [by eexists|]. bool_to_prop.
  destruct (collect _ _) as [rows|] eqn:Hc; simpl; [|by eexists].
  exfalso. apply Hno. split_and!; [lia|lia|lia|by exists rows].
Qed.

Lemma insert_snapshot_spec d generation now expires hb exact evidence :
  store_ok d -> 0 <= generation -> 0 <= now -> 0 <= expires ->
  0 <= hb <= MAX_TOTAL_RECEIPT_BYTES -> len evidence <= MAX_EVIDENCE_PER_RECEIPT ->
  total_bytes evidence <= MAX_EVIDENCE_BYTES_PER_RECEIPT ->
  Forall (fun e => evidence_typed e /\ logical_bytes e <= MAX_EVIDENCE_BYTES_PER_RECEIPT) evidence ->
  fits d hb (len evidence) (total_bytes evidence) ->
  match insert_snapshot (meta_repository_identity d) generation now expires hb (len evidence)
          (total_bytes evidence) exact evidence (usage_of d) d with
  | Ok (receipt_id, d') => numbers_left d generation evidence /\ store_ok d' /\
      exists id, receipt_id = format_receipt_id (namespace d) id
        /\ added d d' id generation now expires (map (fun e => stored_as (exact e) e) evidence)
  | Err _ => ~ numbers_left d generation evidence
  end.
Proof.
  intros Hd Hg Hn Hx Hhb Hc Hb Hev Hfit.
  pose proof (collect_spec (fun e => row_of_evidence (exact e) e) storable
    (fun e => row_for (exact e) e) evidence) as Hcol.
  destruct (collect _ evidence) as [rows|e] eqn:Ec.
  - destruct Hcol as [Hst Hrows].
    { intros e He. rewrite Forall_forall in Hev. by apply row_of_evidence_spec; apply Hev. }
    destruct (rows_for_bytes exact evidence rows Hrows) as (Hrb & Hro & Hrc).
    destruct (decide (next_access_sequence d < I64_MAX /\ last_rowid d < I64_MAX
      /\ generation <= I64_MAX)) as [(Hs & Hi & Hgm)|Hno].
    + rewrite (insert_snapshot_run d _ _ _ _ exact evidence rows) by done.
      pose proof (so_sequence d Hd). pose proof (so_rowid d Hd).
      assert (Hlen : len rows = len evidence) by (unfold len; by rewrite (Forall2_length _ _ _ Hrows)).
      split; [by split_and!|]. split.
      * apply (store_ok_insert d (mk_receipt_row (meta_repository_identity d) generation now now
          expires (next_access_sequence d + 1) hb (len evidence) (total_bytes evidence) rows));
          [done..| | |done].
        -- constructor; simpl; [lia|repeat constructor; lia|].
           eapply Forall_impl; [exact Hro|]. intros row [[? ?] Hbytes _]. split; [lia|].
           rewrite Hbytes. unfold RECEIPT_EVIDENCE_FIXED_LOGICAL_BYTES, str_len. lia.
        -- constructor; simpl; [lia|lia|by rewrite Hlen|by rewrite Hrb|done|done|done].
      * exists (last_rowid d + 1). split; [done|]. constructor; simpl.
        -- split; [done|]. apply fresh_rowid; [done|lia].
        -- done.
        -- done.
        -- eexists. split; [done|]. by split_and!.
        -- unfold load_receipt_evidence. simpl. by rewrite lookup_insert_eq.
    + destruct (insert_snapshot_stuck d (meta_repository_identity d) generation now expires hb
        (len evidence) (total_bytes evidence) exact evidence) as [e ->];
        [tauto|apply Hd|apply Hd|]. unfold numbers_left. tauto.
  - destruct (insert_snapshot_stuck d (meta_repository_identity d) generation now expires hb
      (len evidence) (total_bytes evidence) exact evidence) as [e' ->].
    + intros (_ & _ & _ & rows & Hr). congruence.
    + apply Hd.
    + apply Hd.
    + intros (_ & _ & _ & Hst). apply Hcol; [|done].
      intros x Hx'. rewrite Forall_forall in Hev. by apply row_of_evidence_spec; apply Hev.
Qed.

(** ** Lemmas: the stages of [evaluate_receipt_at] *)

Definition persistent_of (i : Z) (r : receipt_row) : PersistentReceiptRow :=
  mk_persistent_row i (r_repository_identity r) (r_repository_generation r) (r_created r)
    (r_last_access r) (r_expires r) (r_evidence_count r) (r_evidence_bytes r).

Lemma load_receipt_ok i d : store_ok d ->
  load_receipt i d = Ok (persistent_of i <$> receipts d !! i).
Proof.
  intros Hd. unfold load_receipt. destruct (receipts d !! i) as [r|] eqn:Hr; [|done].
  destruct (row_nonneg d i r Hd Hr) as (_ & ? & ?).
  destruct (so_schema d Hd i r Hr) as [_ Hn _]. apply Forall_cons in Hn as [? _].
  by rewrite i64_to_u64_ok, !i64_to_usize_ok by done.
Qed.

(** The receipt a call names and may use. *)
Record usable_source (requested_id : string) (generation now : Z) (d : receipt_db)
    (row_id : Z) (r : receipt_row) : Prop := {
  us_parse : parse_receipt_id requested_id (namespace d) = Some row_id;
  us_row : receipts d !! row_id = Some r;
  us_clock : r_created r <= now /\ r_last_access r <= now;
  us_generation : r_repository_generation r = generation;
  us_identity : r_repository_identity r = meta_repository_identity d
}.

(** The errors that name a receipt which cannot be used. *)
Definition source_error (requested_id : string) (generation : Z) (e : error) : Prop :=
  e = UnknownReceipt requested_id
  \/ exists g, g <> generation /\ e = StaleReceipt g generation.

Lemma evaluate_source_spec requested_id generation now d : store_ok d ->
  match evaluate_source requested_id generation now (usage_of d) d with
  | RolledBack _ => False
  | Committed d' (Err e) => store_ok d' /\ shrinks d d' /\
      (exists id, requested_id = Some id /\ source_error id generation e
        /\ forall row_id r, ~ usable_source id generation now d row_id r)
  | Committed d' (Ok None) => d' = d /\ requested_id = None
  | Committed d' (Ok (Some (id, row))) => d' = d /\ requested_id = Some id /\
      exists row_id r, row = persistent_of row_id r /\ usable_source id generation now d row_id r
  end.
Proof.
  intros Hd. unfold evaluate_source. destruct requested_id as [id|]; [|done]. simpl.
  destruct (parse_receipt_id id (namespace d)) as [row_id|] eqn:Hp.
  2:{ split_and!; [done..|]. exists id. split_and!; [done|by left|]. intros ? ? []. congruence. }
  rewrite (load_receipt_ok row_id d Hd). simpl.
  destruct (receipts d !! row_id) as [r|] eqn:Hr; simpl.
  2:{ split_and!; [done..|]. exists id. split_and!; [done|by left|]. intros ? ? []. congruence. }
  destruct ((now <? r_created r) || (now <? r_last_access r)) eqn:Hc.
  { destruct (delete_receipt_ok row_id d Hd) as (d' & -> & Hd' & Hf & Hrows). simpl.
    split; [done|]. split; [split; [done|]; rewrite Hrows; apply delete_subseteq|].
    exists id. split_and!; [done|by left|]. intros ? ? [].
    assert (r0 = r) as -> by congruence.
    apply orb_true_iff in Hc as [?|?]; bool_to_prop; lia. }
  bool_to_prop. destruct (r_repository_generation r =? generation) eqn:Hg; simpl; bool_to_prop.
  2:{ split_and!; [done..|]. exists id. split_and!; [done|by right; eexists|].
      intros ? ? []. congruence. }
  destruct (bool_decide_reflect (r_repository_identity r = meta_repository_identity d)); simpl.
  - split_and!; [done..|]. exists row_id, r. split; [done|]. by constructor.
  - split_and!; [done..|]. exists id. split_and!; [done|by left|]. intros ? ? []. congruence.
Qed.

(** The appended evidence is the longest prefix of what is returned that fits. *)
Definition longest_prefix (pl pb : Z) (returned l : list ReceiptEvidence) : Prop :=
  exists rest, returned = l ++ rest /\
    match rest with
    | [] => True
    | e :: _ => MAX_EVIDENCE_PER_RECEIPT <= pl + len l
                \/ MAX_EVIDENCE_BYTES_PER_RECEIPT < pb + total_bytes l + logical_bytes e
    end.

Lemma append_room pl pb c ab lb :
  0 <= pl -> 0 <= c -> 0 <= pb -> 0 <= ab -> 0 <= lb ->
  pl + c <= MAX_EVIDENCE_PER_RECEIPT -> pb + ab <= MAX_EVIDENCE_BYTES_PER_RECEIPT ->
  if (MAX_EVIDENCE_PER_RECEIPT <=? u64_saturating_add pl c)
     || (MAX_EVIDENCE_BYTES_PER_RECEIPT <? u64_saturating_add (u64_saturating_add pb ab) lb)
  then MAX_EVIDENCE_PER_RECEIPT <= pl + c \/ MAX_EVIDENCE_BYTES_PER_RECEIPT < pb + ab + lb
  else pl + (c + 1) <= MAX_EVIDENCE_PER_RECEIPT
       /\ pb + (ab + lb) <= MAX_EVIDENCE_BYTES_PER_RECEIPT
       /\ u64_saturating_add ab lb = ab + lb.
Proof.
  assert (Hc : MAX_EVIDENCE_PER_RECEIPT <= U64_MAX) by done.
  assert (Hb : MAX_EVIDENCE_BYTES_PER_RECEIPT < U64_MAX) by done.
  revert Hc Hb. generalize MAX_EVIDENCE_PER_RECEIPT as mc.
  generalize MAX_EVIDENCE_BYTES_PER_RECEIPT as mb. intros mb mc. intros.
  rewrite (u64_saturating_add_exact pl), (u64_saturating_add_exact pb) by lia.
  unfold u64_saturating_add. generalize dependent U64_MAX. intros M. intros.
  destruct (_ || _) eqn:E.
  - apply orb_true_iff in E as [E|E]; bool_to_prop; [by left|right; lia].
  - bool_to_prop. lia.
Qed.

Lemma total_bytes_cons e l : total_bytes (e :: l) = logical_bytes e + total_bytes l.
Proof. done. Qed.
Lemma len_cons {A} (x : A) l : len (x :: l) = len l + 1.
Proof. unfold len. simpl. lia. Qed.
Lemma len_snoc {A} (x : A) l : len (l ++ [x]) = len l + 1.
Proof. unfold len. rewrite length_app. simpl. lia. Qed.
Lemma len_nonneg {A} (l : list A) : 0 <= len l.
Proof. unfold len. lia. Qed.

Lemma plan_append_spec pl pb returned append :
  0 <= pl -> 0 <= pb -> pl + len append <= MAX_EVIDENCE_PER_RECEIPT ->
  pb + total_bytes append.*1 <= MAX_EVIDENCE_BYTES_PER_RECEIPT ->
  exists append' l, plan_append pl pb returned append (total_bytes append.*1)
      = (append', total_bytes append'.*1)
    /\ append'.*1 = append.*1 ++ l
    /\ pl + len append' <= MAX_EVIDENCE_PER_RECEIPT
    /\ pb + total_bytes append'.*1 <= MAX_EVIDENCE_BYTES_PER_RECEIPT
    /\ longest_prefix (pl + len append) (pb + total_bytes append.*1) returned l.
Proof.
  intros Hpl Hpb. revert append.
  induction returned as [|e returned IH]; intros append Hc Hb; simpl.
  { exists append, []. rewrite app_nil_r. split_and!; [done..|]. by exists []. }
  pose proof (append_room pl pb (len append) (total_bytes append.*1) (logical_bytes e)) as Hroom.
  destruct (_ || _).
  { exists append, []. rewrite app_nil_r. split_and!; [done..|].
    exists (e :: returned). split; [done|].
    replace (pl + len append + len []) with (pl + len append) by (unfold len; simpl; lia).
    change (total_bytes []) with 0. rewrite Z.add_0_r. apply Hroom; try done.
    - apply len_nonneg.
    - apply total_bytes_nonneg.
    - pose proof (logical_bytes_pos e). unfold RECEIPT_EVIDENCE_FIXED_LOGICAL_BYTES in *. lia. }
  destruct Hroom as (Hc1 & Hb1 & Hsat); [done|apply len_nonneg|done|apply total_bytes_nonneg| |done..|].
  { pose proof (logical_bytes_pos e). unfold RECEIPT_EVIDENCE_FIXED_LOGICAL_BYTES in *. lia. }
  rewrite Hsat.
  assert (Hsum : total_bytes (append ++ [(e, logical_bytes e)]).*1
                 = total_bytes append.*1 + logical_bytes e).
  { rewrite fmap_app, total_bytes_app. unfold total_bytes at 2. simpl. lia. }
  destruct (IH (append ++ [(e, logical_bytes e)]))
    as (append' & l & Hrun & Hl & Hc' & Hb' & rest & Hrest & Hmax).
  { by rewrite len_snoc. }
  { by rewrite Hsum. }
  rewrite Hsum in Hrun. rewrite Hrun. exists append', (e :: l).
  split_and!; [done| |done..|].
  - by rewrite Hl, fmap_app, <-app_assoc.
  - exists rest. split; [by rewrite Hrest|]. destruct rest as [|e' rest]; [done|].
    rewrite Hsum, len_snoc in Hmax. rewrite len_cons, total_bytes_cons.
    destruct Hmax as [Hm|Hm]; [left|right].
    + by replace (pl + len append + (len l + 1)) with (pl + (len append + 1) + len l) by lia.
    + by replace (pb + total_bytes append.*1 + (logical_bytes e + total_bytes l) + logical_bytes e')
        with (pb + (total_bytes append.*1 + logical_bytes e) + total_bytes l + logical_bytes e')
        by lia.
Qed.

(** The logical size of a receipt header of this repository. *)
Definition header_size (d : receipt_db) : Z :=
  RECEIPT_HEADER_FIXED_LOGICAL_BYTES + str_len (meta_repository_identity d).

(** Why a successor cannot be stored. *)
Definition no_room (retained : option Z) (generation : Z) (evidence : list ReceiptEvidence)
    (d : receipt_db) : Prop :=
  MAX_TOTAL_RECEIPT_BYTES < header_size d
  \/ (exists i r, retained = Some i /\ receipts d !! i = Some r
        /\ MAX_TOTAL_RECEIPT_BYTES < r_logical_bytes r + header_size d)
  \/ ~ numbers_left d generation evidence.

Lemma numbers_left_frame d d' generation evidence : same_frame d d' ->
  numbers_left d' generation evidence <-> numbers_left d generation evidence.
Proof. intros []. unfold numbers_left. by rewrite sf_sequence0, sf_rowid0. Qed.

Lemma total_bytes_all l m : total_bytes l <= m -> Forall (fun e => logical_bytes e <= m) l.
Proof.
  induction l as [|e l IH]; intros Hm; [constructor|]. rewrite total_bytes_cons in Hm.
  pose proof (total_bytes_nonneg l). pose proof (logical_bytes_pos e) as Hp.
  unfold RECEIPT_EVIDENCE_FIXED_LOGICAL_BYTES in Hp.
  constructor; [lia|apply IH; lia].
Qed.

(** [d'] is [d] after evictions that spared [retained] and the addition of a
    receipt [id] that holds [evidence]. *)
Definition extends (retained : option Z) (d d' : receipt_db) (id generation now expires : Z)
    (evidence : list ReceiptEvidence) : Prop :=
  exists d1, store_ok d1 /\ spares retained d d1 /\ added d1 d' id generation now expires evidence.

Lemma extends_spares retained d0 d d' id generation now expires evidence :
  spares retained d0 d -> extends retained d d' id generation now expires evidence ->
  extends retained d0 d' id generation now expires evidence.
Proof. intros H0 (d1 & Hd1 & Hs & Ha). exists d1. split_and!; [done|by etrans|done]. Qed.

Lemma persist_successor_spec retained generation now expires previous append d :
  store_ok d -> 0 <= generation -> 0 <= now -> 0 <= expires ->
  Forall evidence_fine previous -> Forall evidence_typed append.*1 ->
  len previous + len append <= MAX_EVIDENCE_PER_RECEIPT ->
  total_bytes previous + total_bytes append.*1 <= MAX_EVIDENCE_BYTES_PER_RECEIPT ->
  exists res, persist_successor retained generation now expires previous (total_bytes previous)
      append (total_bytes append.*1) (usage_of d) d = Done res /\
    match res with
    | Ok (receipt_id, d') => store_ok d' /\ exists id,
        receipt_id = format_receipt_id (namespace d) id
        /\ extends retained d d' id generation now expires (previous ++ append.*1)
    | Err _ => no_room retained generation (previous ++ append.*1) d
    end.
Proof.
  intros Hd Hg Hn Hx Hprev Happ Hc Hb. unfold persist_successor, no_room, header_size.
  assert (Hhb : 0 <= RECEIPT_HEADER_FIXED_LOGICAL_BYTES + str_len (meta_repository_identity d)).
  { unfold RECEIPT_HEADER_FIXED_LOGICAL_BYTES, str_len. lia. }
  unfold u64_checked_add. destruct (_ <=? U64_MAX) eqn:Hover; bool_to_prop.
  2:{ eexists. split; [done|]. left.
      assert (MAX_TOTAL_RECEIPT_BYTES < U64_MAX) by done. lia. }
  destruct (MAX_TOTAL_RECEIPT_BYTES <? _) eqn:Hmax; bool_to_prop; [by eexists; split; [done|left]|].
  destruct (fit_successor_spec (S (size (receipts d) + length append)) retained (len previous)
    (total_bytes previous) _ d append (total_bytes append.*1) Hd (conj Hhb Hmax))
    as [(d1 & -> & Hd1 & Hsp & Hfit)|[-> Hex]].
  { split; [apply len_nonneg|done]. }
  { split_and!; [apply total_bytes_nonneg..|done]. }
  { lia. }
  2:{ eexists. split; [done|]. by right; left. }
  simpl. eexists. split; [done|].
  destruct (proj1 Hsp) as [Hframe _].
  rewrite <-(sf_identity _ _ Hframe) in *.
  assert (Hlen : len (previous ++ append.*1) = len previous + len append).
  { unfold len. rewrite length_app, length_fmap. lia. }
  assert (Hlim : MAX_EVIDENCE_PER_RECEIPT <= U64_MAX /\ MAX_EVIDENCE_BYTES_PER_RECEIPT <= U64_MAX)
    by done.
  rewrite !u64_saturating_add_exact by lia.
  rewrite <-Hlen, <-(total_bytes_app previous).
  assert (Hall : Forall (fun e => evidence_typed e
      /\ logical_bytes e <= MAX_EVIDENCE_BYTES_PER_RECEIPT) (previous ++ append.*1)).
  { apply Forall_and. split; [|apply total_bytes_all; by rewrite total_bytes_app].
    apply Forall_app. split; [|done]. eapply Forall_impl; [done|]. by intros e []. }
  pose proof (insert_snapshot_spec d1 generation now expires _
    (fun e => if exact_only e then 1 else 0) (previous ++ append.*1) Hd1 Hg Hn Hx
    (conj Hhb Hmax) ltac:(by rewrite Hlen) ltac:(by rewrite total_bytes_app) Hall
    ltac:(by rewrite Hlen, total_bytes_app)) as Hins.
  destruct (insert_snapshot _ _ _ _ _ _ _ _ _ _ _) as [[receipt_id d']|e].
  - destruct Hins as (_ & Hd' & i & -> & Hadd). split; [done|]. exists i.
    rewrite (sf_namespace _ _ Hframe). split; [done|].
    exists d1. split_and!; [done|done|].
    rewrite (map_ext _ id) in Hadd by apply stored_as_id. by rewrite map_id in Hadd.
  - right; right. by rewrite <-(numbers_left_frame d d1).
Qed.

Definition source_row_id (source : option (string * PersistentReceiptRow)) : option Z :=
  (fun s => p_id s.2) <$> source.

(** The evidence the caller has already acknowledged. *)
Definition acknowledged (row_id : option Z) (d : receipt_db) (previous : list ReceiptEvidence)
    : Prop :=
  match row_id with
  | None => previous = []
  | Some i => load_receipt_evidence i d = Ok previous
  end.

Definition decisions_for (previous candidates : list ReceiptEvidence) (suppress_overlap : bool)
    : list ReceiptDecision :=
  map (fun c => decide_candidate previous c suppress_overlap) candidates.

(** What one evaluation leaves behind: the source itself when nothing new was
    returned, otherwise a successor that extends it. *)
Definition evaluated (row_id : option Z) (requested_id : option string) (generation now expires : Z)
    (l previous : list ReceiptEvidence) (d d' : receipt_db) (answer_id : string) : Prop :=
  (requested_id = Some answer_id /\ l = [] /\ d' = d)
  \/ ((requested_id = None \/ l <> []) /\ exists i,
        answer_id = format_receipt_id (namespace d) i
        /\ extends row_id d d' i generation now expires (previous ++ l)).

Lemma load_previous_spec source d : store_ok d ->
  match source with
  | None => True
  | Some (_, row) => exists i r, row = persistent_of i r /\ receipts d !! i = Some r
  end ->
  exists previous, load_previous source d = Ok (previous, total_bytes previous)
    /\ acknowledged (source_row_id source) d previous /\ Forall evidence_fine previous
    /\ len previous <= MAX_EVIDENCE_PER_RECEIPT
    /\ total_bytes previous <= MAX_EVIDENCE_BYTES_PER_RECEIPT.
Proof.
  intros Hd Hs. unfold load_previous. destruct source as [[id row]|].
  - destruct Hs as (i & r & -> & Hr). simpl.
    destruct (load_evidence_ok d i r Hd Hr) as (l & Hl & Hc & Hb & Hf).
    destruct (so_rows d Hd i r Hr) as [_ _ _ _ Hmc Hmb _]. rewrite <-Hc in Hmc. rewrite <-Hb in Hmb.
    exists l. rewrite Hl. simpl.
    assert (MAX_EVIDENCE_BYTES_PER_RECEIPT <= U64_MAX) by done.
    rewrite checked_bytes_ok by lia. simpl. rewrite Hc, Hb, !Z.eqb_refl. simpl.
    rewrite <-Hb, <-Hc. by split_and!.
  - exists []. by split_and!.
Qed.

Lemma returned_typed candidates ds : Forall evidence_typed candidates ->
  Forall evidence_typed (returned_evidence candidates ds).
Proof.
  intros Hc. unfold returned_evidence. rewrite Forall_fmap. apply Forall_forall.
  intros [e d] [Hin _]%list_elem_of_In%filter_In. simpl.
  rewrite Forall_forall in Hc. apply Hc. apply in_combine_l in Hin. by apply list_elem_of_In.
Qed.

Lemma evaluate_candidates_spec source generation now expires candidates suppress_overlap d :
  store_ok d -> 0 <= generation -> 0 <= now -> 0 <= expires -> Forall evidence_typed candidates ->
  match source with
  | None => True
  | Some (_, row) => exists i r, row = persistent_of i r /\ receipts d !! i = Some r
  end ->
  exists previous l t,
    evaluate_candidates source generation now expires candidates suppress_overlap (usage_of d) d
      = Done t
    /\ acknowledged (source_row_id source) d previous
    /\ longest_prefix (len previous) (total_bytes previous)
         (returned_evidence candidates (decisions_for previous candidates suppress_overlap)) l
    /\ match t with
       | Committed d' (Ok e) => store_ok d'
           /\ decisions e = decisions_for previous candidates suppress_overlap
           /\ evaluated (source_row_id source) (fst <$> source) generation now expires l previous
                d d' (evaluation_receipt_id e)
       | Committed _ (Err _) => False
       | RolledBack _ => no_room (source_row_id source) generation (previous ++ l) d
       end.
Proof.
  intros Hd Hg Hn Hx Hcand Hs. unfold evaluate_candidates.
  destruct (load_previous_spec source d Hd Hs) as (previous & -> & Hack & Hfine & Hc & Hb).
  fold (decisions_for previous candidates suppress_overlap).
  set (ds := decisions_for previous candidates suppress_overlap).
  destruct (plan_append_spec (len previous) (total_bytes previous)
    (returned_evidence candidates ds) []) as (append & l & Hrun & Hl & Hc' & Hb' & Hlong).
  { apply len_nonneg. } { apply total_bytes_nonneg. }
  { unfold len in *. simpl. lia. } { change (total_bytes [].*1) with 0. lia. }
  change (total_bytes [].*1) with 0 in Hrun, Hlong. change (len []) with 0 in Hlong.
  rewrite !Z.add_0_r in Hlong. simpl in Hl. rewrite Hrun.
  assert (Htyped : Forall evidence_typed append.*1).
  { rewrite Hl. destruct Hlong as (rest & Hrest & _).
    pose proof (returned_typed candidates ds Hcand) as Ht. rewrite Hrest in Ht.
    by apply Forall_app in Ht as [? _]. }
  destruct (persist_successor_spec (source_row_id source) generation now expires previous append d)
    as (res & Hres & Hspec); [done..|].
  assert (Hgo : forall requested, (requested = None \/ l <> []) ->
    exists t, (let? stored := persist_successor (source_row_id source) generation now expires
        previous (total_bytes previous) append (total_bytes append.*1) (usage_of d) d in
      Done (commit_with (fun receipt_id => mk_evaluation receipt_id ds) stored)) = Done t
    /\ match t with
       | Committed d' (Ok e) => store_ok d' /\ decisions e = ds
           /\ evaluated (source_row_id source) requested generation now expires l previous
                d d' (evaluation_receipt_id e)
       | Committed _ (Err _) => False
       | RolledBack _ => no_room (source_row_id source) generation (previous ++ l) d
       end).
  { intros requested Hreq. rewrite Hres. simpl. eexists. split; [done|]. rewrite <-Hl.
    destruct res as [[receipt_id d']|e]; simpl; [|done].
    destruct Hspec as (Hd' & i & -> & Hext). split_and!; [done|done|].
    right. split; [by rewrite Hl|]. by exists i. }
  exists previous, l. destruct source as [[id row]|].
  - destruct append as [|a append].
    + eexists. split; [done|]. split_and!; [done|done|done|done|]. left.
      simpl in Hl. by rewrite <-Hl.
    + destruct (Hgo (Some id)) as (t & Ht & Hspec'); [right; by rewrite <-Hl|].
      exists t. by split_and!.
  - destruct (Hgo None) as (t & Ht & Hspec'); [by left|]. exists t. by split_and!.
Qed.

(** [d'] is [d] without the receipts that expired by [now]. *)
Definition pruned (now : Z) (d d' : receipt_db) : Prop :=
  store_ok d' /\ shrinks d d'
  /\ forall i r, receipts d' !! i = Some r <-> receipts d !! i = Some r /\ now < r_expires r.

Lemma prune_expired_ok now d : store_ok d ->
  exists d', prune_expired_receipts now d = Ok d' /\ pruned now d d'.
Proof.
  intros Hd. destruct (delete_where_ok (fun _ r => r_expires r <=? now) d Hd)
    as (d' & He & Hd' & Hs & Hspec). exists d'. split; [done|]. split_and!; [done|done|].
  intros i r. by rewrite Hspec, Z.leb_gt.
Qed.

(** The input checks that precede the transaction's first statement. *)
Definition admissible (requested_id : option string) (candidates : list ReceiptEvidence) (now : Z)
    : Prop :=
  match requested_id with Some id => str_len id <= MAX_RECEIPT_ID_BYTES | None => True end
  /\ Forall (fun e => logical_bytes e <= MAX_EVIDENCE_BYTES_PER_RECEIPT) candidates
  /\ 0 <= now /\ now + RECEIPT_TTL_MILLIS <= I64_MAX.

(** The source a call works from, [None] when the call names none. *)
Definition names_source (requested_id : option string) (generation now : Z) (d : receipt_db)
    (row_id : option Z) : Prop :=
  match requested_id, row_id with
  | None, None => True
  | Some id, Some i => exists r, usable_source id generation now d i r
  | _, _ => False
  end.

#[export] Instance admissible_dec requested_id candidates now :
  Decision (admissible requested_id candidates now).
Proof. unfold admissible. destruct requested_id; apply _. Defined.

Lemma evaluate_receipt_run requested_id generation candidates suppress_overlap now d :
  admissible requested_id candidates now -> store_ok d ->
  exists d1, prune_expired_receipts now d = Ok d1 /\ pruned now d d1 /\
    evaluate_receipt_at requested_id generation candidates suppress_overlap now d =
    match evaluate_source requested_id generation now (usage_of d1) d1 with
    | RolledBack e => Done (RolledBack e)
    | Committed d2 (Err e) => Done (Committed d2 (Err e))
    | Committed d2 (Ok source) =>
      evaluate_candidates source generation now (now + RECEIPT_TTL_MILLIS) candidates
        suppress_overlap (usage_of d1) d2
    end.
Proof.
  intros (Hid & Hcand & Hn & Hx) Hd. destruct (prune_expired_ok now d Hd) as (d1 & He & Hp).
  exists d1. split; [done|]. split; [done|]. unfold evaluate_receipt_at.
  assert ((match requested_id with
           | Some id => MAX_RECEIPT_ID_BYTES <? str_len id | None => false end) = false) as ->.
  { destruct requested_id; [by apply Z.ltb_ge|done]. }
  rewrite exact_only_silent.
  2:{ intros e He'. rewrite Forall_forall in Hcand. by apply Z.ltb_ge, Hcand. }
  rewrite (proj2 (Z.ltb_ge now 0)) by lia. unfold i64_checked_add.
  assert (0 < RECEIPT_TTL_MILLIS) by done.
  rewrite (proj2 (andb_true_iff _ _))
    by (rewrite !Z.leb_le; unfold I64_MIN; lia).
  by rewrite He, (receipt_usage_ok d1) by apply Hp.
Qed.

Lemma evaluate_receipt_refused requested_id generation candidates suppress_overlap now d :
  now <= I64_MAX -> ~ admissible requested_id candidates now ->
  exists e, evaluate_receipt_at requested_id generation candidates suppress_overlap now d
    = Done (RolledBack e).
Proof.
  intros Hn Hno. unfold evaluate_receipt_at.
  destruct (match requested_id with
            | Some id => MAX_RECEIPT_ID_BYTES <? str_len id | None => false end) eqn:E1;
    [by eexists|].
  destruct (existsb _ _) eqn:E2; [by eexists|].
  destruct (now <? 0) eqn:E3; [by eexists|]. bool_to_prop.
  unfold i64_checked_add. destruct (_ && _) eqn:E4; [|by eexists]. bool_to_prop.
  exfalso. apply Hno. split_and!; [| |lia|lia].
  2:{ apply Forall_forall. intros e He.
      destruct (Z.le_gt_cases (logical_bytes e) MAX_EVIDENCE_BYTES_PER_RECEIPT) as [|Hgt]; [done|].
      exfalso. enough (existsb (fun e => MAX_EVIDENCE_BYTES_PER_RECEIPT
        <? logical_bytes e) candidates = true) by congruence.
      apply existsb_elem. exists e. split; [done|by apply Z.ltb_lt]. }
  - destruct requested_id; [by apply Z.ltb_ge|done].
Qed.

Lemma evaluate_receipt_cases requested_id generation candidates suppress_overlap now d :
  admissible requested_id candidates now -> store_ok d -> 0 <= generation ->
  Forall evidence_typed candidates ->
  exists d1 t, pruned now d d1 /\
    evaluate_receipt_at requested_id generation candidates suppress_overlap now d = Done t /\
    ((exists d2 e id, t = Committed d2 (Err e) /\ store_ok d2 /\ shrinks d1 d2
        /\ requested_id = Some id /\ source_error id generation e
        /\ forall i r, ~ usable_source id generation now d1 i r)
     \/ exists row_id previous l, names_source requested_id generation now d1 row_id
          /\ acknowledged row_id d1 previous
          /\ longest_prefix (len previous) (total_bytes previous)
               (returned_evidence candidates
                  (decisions_for previous candidates suppress_overlap)) l
          /\ match t with
             | Committed d' (Ok e) => store_ok d'
                 /\ decisions e = decisions_for previous candidates suppress_overlap
                 /\ evaluated row_id requested_id generation now (now + RECEIPT_TTL_MILLIS)
                      l previous d1 d' (evaluation_receipt_id e)
             | Committed _ (Err _) => False
             | RolledBack _ => no_room row_id generation (previous ++ l) d1
             end).
Proof.
  intros Hadm Hd Hg Hcand.
  destruct (evaluate_receipt_run requested_id generation candidates suppress_overlap now d Hadm Hd)
    as (d1 & _ & Hp & ->). exists d1.
  pose proof (evaluate_source_spec requested_id generation now d1 (proj1 Hp)) as Hs.
  assert (Hx : 0 <= now /\ 0 <= now + RECEIPT_TTL_MILLIS).
  { destruct Hadm as (_ & _ & ? & _). assert (0 < RECEIPT_TTL_MILLIS) by done. lia. }
  destruct (evaluate_source _ _ _ _ _) as [d2 [source|e]|e]; [| |done].
  - assert (Hsrc : d2 = d1 /\ (fst <$> source) = requested_id
      /\ names_source requested_id generation now d1 (source_row_id source)
      /\ match source with
         | None => True
         | Some (_, row) => exists i r, row = persistent_of i r /\ receipts d1 !! i = Some r
         end).
    { destruct source as [[id row]|].
      - destruct Hs as (-> & -> & i & r & -> & Hu). split_and!; [done|done|by exists r|].
        exists i, r. split; [done|]. apply Hu.
      - by destruct Hs as [-> ->]. }
    destruct Hsrc as (-> & Hfst & Hnames & Hrow).
    destruct (evaluate_candidates_spec source generation now (now + RECEIPT_TTL_MILLIS) candidates
      suppress_overlap d1 (proj1 Hp) Hg (proj1 Hx) (proj2 Hx) Hcand Hrow)
      as (previous & l & t & -> & Hack & Hlong & Ht).
    exists t. split_and!; [done|done|]. right. rewrite Hfst in Ht.
    by exists (source_row_id source), previous, l.
  - destruct Hs as (Hd2 & Hsh & id & Hid & He & Hno).
    exists (Committed d2 (Err e)). split_and!; [done|done|]. left. by exists d2, e, id.
Qed.

(** A receipt of [d'] is a receipt of [d], unchanged, or was numbered after all
    of [d]. *)
Definition only_adds (d d' : receipt_db) : Prop :=
  namespace d' = namespace d
  /\ forall i r, receipts d' !! i = Some r -> receipts d !! i = Some r \/ last_rowid d < i.

Lemma shrinks_only_adds d d' : shrinks d d' -> only_adds d d'.
Proof.
  intros [[] Hs]. split; [done|]. intros i r Hr. left. by eapply map_subseteq_spec.
Qed.

Lemma extends_only_adds retained d d' id generation now expires evidence :
  extends retained d d' id generation now expires evidence -> only_adds d d'.
Proof.
  intros (d1 & _ & [[[Hns _ Hrow _ _] Hs] _] & [[-> _] Hns' _ (r & Hr & _) _]).
  split; [congruence|]. intros i r' Hi. rewrite Hr in Hi.
  apply lookup_insert_Some in Hi as [[<- _]|[_ Hi]]; [right; rewrite Hrow; lia|left].
  by eapply map_subseteq_spec.
Qed.

Lemma shrinks_only_adds_trans d d1 d' : shrinks d d1 -> only_adds d1 d' -> only_adds d d'.
Proof.
  intros [[Hns _ Hrow _ _] Hs] [Hns' Hall]. split; [congruence|].
  intros i r Hr. destruct (Hall i r Hr) as [Hi|Hi]; [left|right; by rewrite <-Hrow].
  by eapply map_subseteq_spec.
Qed.

(** C8: [evaluate_receipt_with_clock] always returns, and on every branch, errors and rollbacks
    included, it leaves the receipt store well formed: the usage row counts exactly the stored
    receipts and evidence, all four quotas hold, and no receipt that survives was modified, the
    only new receipt having an id above every earlier one. *)
Theorem evaluate_receipt_preserves requested_id generation candidates suppress_overlap now d :
  store_ok d -> 0 <= generation -> Forall evidence_typed candidates -> now <= I64_MAX ->
  exists t, evaluate_receipt_at requested_id generation candidates suppress_overlap now d = Done t
    /\ store_ok (run_tx d t).1 /\ only_adds d (run_tx d t).1.
Proof.
  intros Hd Hg Hcand Hnow.
  assert (Hself : only_adds d d) by (by apply shrinks_only_adds).
  destruct (decide (admissible requested_id candidates now)) as [Hadm|Hno].
  2:{ destruct (evaluate_receipt_refused requested_id generation candidates suppress_overlap now d)
        as [e ->]; [done..|]. by eexists. }
  destruct (evaluate_receipt_cases requested_id generation candidates suppress_overlap now d)
    as (d1 & t & (Hd1 & Hsh & _) & -> & Ht); [done..|]. exists t. split; [done|].
  destruct Ht as [(d2 & e & id & -> & Hd2 & Hsh2 & _)|(row_id & previous & l & _ & _ & _ & Ht)].
  { simpl. split; [done|]. apply shrinks_only_adds. by etrans. }
  destruct t as [d' [a|]|e]; [|done|by split]. destruct Ht as (Hd' & _ & Hev). simpl.
  split; [done|]. eapply shrinks_only_adds_trans; [done|].
  destruct Hev as [(_ & _ & ->)|(_ & i & _ & Hext)].
  - by apply shrinks_only_adds.
  - by eapply extends_only_adds.
Qed.

(** Copy on write.  When the call names a receipt and succeeds, that receipt was usable (known
    namespace, current generation and repository, not from the future, unexpired), it is still
    stored unchanged afterwards, the decisions are those of [decide] against exactly its evidence,
    and the answered receipt is the source itself if no returned evidence fits, or a fresh receipt
    whose stored evidence is the source's followed by the longest prefix of the returned
    candidates that one receipt can hold. *)
Theorem evaluate_receipt_copy_on_write id generation candidates suppress_overlap now d d' answer :
  store_ok d -> 0 <= generation -> Forall evidence_typed candidates -> now <= I64_MAX ->
  evaluate_receipt_at (Some id) generation candidates suppress_overlap now d
    = Done (Committed d' (Ok answer)) ->
  exists i r previous l, usable_source id generation now d i r /\ now < r_expires r
    /\ receipts d' !! i = Some r /\ load_receipt_evidence i d = Ok previous
    /\ decisions answer = decisions_for previous candidates suppress_overlap
    /\ longest_prefix (len previous) (total_bytes previous)
         (returned_evidence candidates (decisions answer)) l
    /\ ((l = [] /\ evaluation_receipt_id answer = id)
        \/ (l <> [] /\ exists j, evaluation_receipt_id answer = format_receipt_id (namespace d) j
              /\ receipts d !! j = None /\ load_receipt_evidence j d' = Ok (previous ++ l))).
Proof.
  intros Hd Hg Hcand Hnow Hrun.
  destruct (decide (admissible (Some id) candidates now)) as [Hadm|Hno].
  2:{ destruct (evaluate_receipt_refused (Some id) generation candidates suppress_overlap now d)
        as [e He]; [done..|]. congruence. }
  destruct (evaluate_receipt_cases (Some id) generation candidates suppress_overlap now d)
    as (d1 & t & (Hd1 & Hsh & Hrows) & Hrun' & Ht); [done..|].
  rewrite Hrun in Hrun'. injection Hrun' as <-.
  destruct Ht as [(d2 & e & ? & [=] & _)|(row_id & previous & l & Hnames & Hack & Hlong & Ht)].
  destruct row_id as [i|]; [|done]. destruct Hnames as (r & Hu). destruct Ht as (Hd' & Hdec & Hev).
  pose proof (us_row _ _ _ _ _ _ Hu) as Hr1. pose proof (proj1 (Hrows i r) Hr1) as [Hr Hexp].
  destruct Hsh as [[Hns _ Hrow Hident _] Hsub].
  exists i, r, previous, l. rewrite Hdec. split_and!; [|done| | |done|done|].
  - destruct Hu. constructor; congruence.
  - destruct Hev as [(_ & _ & ->)|(_ & j & _ & d2 & Hd2 & [_ Hsp] & [[-> Hj] _ _ (r' & -> & _) _])];
      [done|].
    rewrite lookup_insert_ne; [by rewrite (Hsp i eq_refl)|].
    intros Heq. rewrite Heq, (Hsp i eq_refl) in Hj. congruence.
  - unfold acknowledged, load_receipt_evidence in *. by rewrite Hr1 in Hack; rewrite Hr.
  - destruct Hev as [(Heq & -> & _)|([?|Hl] & j & -> & d2 & Hd2 & [[[]  _] _] & Hadd)].
    + left. split; [done|congruence].
    + done.
    + right. split; [done|]. exists j. rewrite Hns. split_and!; [done| |apply Hadd].
      destruct Hadd as [[-> _] _ _ _ _].
      apply fresh_rowid; [done|]. rewrite sf_rowid0, Hrow. lia.
Qed.

(** The evidence of the receipt that a call names. *)
Definition named_evidence (requested_id : option string) (d : receipt_db) (previous : list ReceiptEvidence)
    : Prop :=
  match requested_id with
  | None => previous = []
  | Some id => exists i, parse_receipt_id id (namespace d) = Some i
      /\ load_receipt_evidence i d = Ok previous
  end.

(** Pruning leaves the receipt that is named as it was. *)
Lemma acknowledged_named requested_id generation now d d1 row_id previous : pruned now d d1 ->
  names_source requested_id generation now d1 row_id -> acknowledged row_id d1 previous ->
  named_evidence requested_id d previous.
Proof.
  intros (_ & [[Hns _ _ _ _] _] & Hrows). destruct requested_id as [id|], row_id as [i|]; try done.
  intros (r & Hu) Hack. exists i. destruct Hu as [Hp Hr _ _ _]. split; [congruence|].
  pose proof (proj1 (proj1 (Hrows i r) Hr)) as Hr'.
  unfold acknowledged, load_receipt_evidence in *. by rewrite Hr in Hack; rewrite Hr'.
Qed.

(** What the answered receipt holds. *)
Lemma evaluated_stored row_id requested_id generation now expires l previous d d' id :
  evaluated row_id requested_id generation now expires l previous d d' id ->
  (requested_id = Some id /\ l = [])
  \/ exists j, id = format_receipt_id (namespace d) j /\ load_receipt_evidence j d' = Ok (previous ++ l).
Proof.
  intros [(Hid & Hl & _)|(_ & j & -> & d2 & _ & _ & Hadd)]; [by left|].
  right. exists j. split; [done|apply Hadd].
Qed.

(** C40: a call with sound input succeeds, and loses no returned evidence to the quotas.  If the
    call names no receipt or a usable unexpired one, the candidates' lines fit the columns, the row
    and sequence numbers are not exhausted, and header sizes leave room for source and successor,
    then the evaluation commits an answer, whatever other receipts are stored.  The decisions are
    those against the evidence of the named receipt, and the answered receipt holds that evidence
    followed by the returned candidates, cut only where one receipt may hold no more: it is the named
    one when nothing is added.  So the quotas of the whole store are met by evicting other
    receipts, never by trimming. *)
Theorem evaluate_receipt_succeeds requested_id generation candidates suppress_overlap now d :
  store_ok d -> admissible requested_id candidates now -> 0 <= generation ->
  Forall evidence_typed candidates ->
  match requested_id with
  | None => True
  | Some id => exists i r, usable_source id generation now d i r /\ now < r_expires r
      /\ r_logical_bytes r + header_size d <= MAX_TOTAL_RECEIPT_BYTES
  end ->
  header_size d <= MAX_TOTAL_RECEIPT_BYTES ->
  numbers_left d generation candidates ->
  exists d' answer previous l,
    evaluate_receipt_at requested_id generation candidates suppress_overlap now d
      = Done (Committed d' (Ok answer))
    /\ named_evidence requested_id d previous
    /\ decisions answer = decisions_for previous candidates suppress_overlap
    /\ longest_prefix (len previous) (total_bytes previous)
         (returned_evidence candidates (decisions answer)) l
    /\ ((requested_id = Some (evaluation_receipt_id answer) /\ l = [])
        \/ exists j, evaluation_receipt_id answer = format_receipt_id (namespace d) j
             /\ load_receipt_evidence j d' = Ok (previous ++ l)).
Proof.
  intros Hd Hadm Hg Hcand Hsrc Hhead (Hseq & Hrow & Hgen & Hst).
  destruct (evaluate_receipt_cases requested_id generation candidates suppress_overlap now d)
    as (d1 & t & Hpruned & -> & Ht); [done..|].
  pose proof Hpruned as (Hd1 & [Hframe Hsub] & Hrows).
  assert (Hkeep : forall id i r, usable_source id generation now d i r -> now < r_expires r ->
    usable_source id generation now d1 i r).
  { intros id i r [] Hexp. destruct Hframe. constructor; try congruence; try done.
    by apply Hrows. }
  destruct Ht as [(d2 & e & id & -> & _ & _ & -> & _ & Hno)|
    (row_id & previous & l & Hnames & Hack & Hlong & Ht)].
  { exfalso. destruct Hsrc as (i & r & Hu & Hexp & _). by eapply Hno, Hkeep. }
  destruct t as [d' [a|]|e]; [|done|exfalso].
  - destruct Ht as (_ & Hdec & Hev%evaluated_stored). rewrite (sf_namespace _ _ Hframe) in Hev.
    exists d', a, previous, l. rewrite Hdec. split_and!; [done|by eapply acknowledged_named|done..].
  - assert (Hprev : Forall storable (previous ++ l)).
    { apply Forall_app. split.
      - destruct row_id as [i|]; [|by rewrite Hack].
        destruct requested_id as [id|]; [|done]. destruct Hnames as (r & Hu).
        destruct (load_evidence_ok d1 i r Hd1 (us_row _ _ _ _ _ _ Hu)) as (l' & Hl' & _ & _ & Hf).
        simpl in Hack. assert (l' = previous) as -> by congruence.
        eapply Forall_impl; [done|]. by intros e' (_ & ? & _).
      - destruct Hlong as (rest & Hrest & _). apply Forall_forall. intros e' He'.
        assert (Hin : e' ∈ l ++ rest) by (apply elem_of_app; by left).
        rewrite <-Hrest in Hin. unfold returned_evidence in Hin.
        apply list_elem_of_fmap in Hin as ([c dd] & -> & [Hin _]%list_elem_of_In%filter_In).
        apply in_combine_l, list_elem_of_In in Hin. rewrite Forall_forall in Hst. by apply Hst. }
    destruct Hframe as [_ Hs' Hr' Hi' _].
    destruct Ht as [Hbig|[(i & r & -> & Hr & Hbig)|Hnum]].
    + unfold header_size in *. rewrite Hi' in Hbig. lia.
    + destruct requested_id as [id|]; [|done]. destruct Hnames as (r1 & Hu1).
      destruct Hsrc as (i' & r' & Hu & Hexp & Hroom).
      pose proof (Hkeep _ _ _ Hu Hexp) as Hu'.
      assert (i' = i) as -> by (destruct Hu', Hu1; congruence).
      assert (r' = r) as -> by (destruct Hu'; congruence).
      unfold header_size in *. rewrite Hi' in Hbig. lia.
    + apply Hnum. unfold numbers_left. rewrite Hs', Hr'. by split_and!.
Qed.

(** ** Lemmas: rebasing *)

Lemma sublist_first_match {A} (e : A) c l1 l2 : (e ∉ l1) ->
  (e :: c) `sublist_of` (l1 ++ e :: l2) -> c `sublist_of` l2.
Proof.
  induction l1 as [|y l1 IH]; simpl; intros Hnot Hs; inversion Hs; subst.
  - done.
  - etrans; [apply sublist_cons; reflexivity|done].
  - exfalso. apply Hnot. by left.
  - apply IH; [|done]. intros ?. apply Hnot. by right.
Qed.

(** The greedy scan accepts exactly the subsequences. *)
Lemma is_ordered_subset_iff source n carried :
  is_ordered_subset source n carried = true <-> carried `sublist_of` drop n source.
Proof.
  revert n. induction carried as [|e carried IH]; intros n; simpl.
  { split; [intros; apply sublist_nil_l|done]. }
  destruct (position _ _) as [k|] eqn:Hp.
  - rewrite IH.
    destruct (position_spec _ _ _ Hp) as (x & l1 & l2 & Hd & ->%bool_decide_eq_true & Hk & Hfirst).
    assert (drop (n + k + 1) source = l2) as ->.
    { rewrite <-Nat.add_assoc, <-drop_drop, Hd, <-Hk.
      replace (l1 ++ e :: l2) with ((l1 ++ [e]) ++ l2) by (by rewrite <-app_assoc).
      replace (length l1 + 1)%nat with (length (l1 ++ [e])) by (rewrite length_app; done).
      apply drop_app_length. }
    rewrite Hd. split; [by intros; apply sublist_inserts_l, sublist_skip|].
    apply sublist_first_match. intros Hin. specialize (Hfirst e Hin).
    simpl in Hfirst. by rewrite bool_decide_eq_true_2 in Hfirst.
  - split; [done|]. intros Hs. exfalso.
    assert (Hin : e ∈ drop n source).
    { apply sublist_cons_l in Hs as (k1 & k2 & -> & _). apply elem_of_app. right. by left. }
    pose proof (position_none _ _ Hp e Hin) as Hf. simpl in Hf. by rewrite bool_decide_eq_true_2 in Hf.
Qed.

Lemma Forall_sublist {A} (P : A -> Prop) l1 l2 : l1 `sublist_of` l2 -> Forall P l2 -> Forall P l1.
Proof.
  induction 1 as [|x l1 l2 _ IH|x l1 l2 _ IH]; intros Hl; [done|..];
    apply Forall_cons in Hl as [? ?]; [constructor; auto|auto].
Qed.

Lemma total_bytes_sublist l1 l2 : l1 `sublist_of` l2 -> total_bytes l1 <= total_bytes l2.
Proof.
  induction 1 as [|e l1 l2 _ IH|e l1 l2 _ IH]; [done|rewrite !total_bytes_cons; lia|].
  rewrite total_bytes_cons. pose proof (logical_bytes_pos e) as Hp.
  unfold RECEIPT_EVIDENCE_FIXED_LOGICAL_BYTES in Hp. lia.
Qed.

(** The eviction loop of a rebase meets the interface of bounded stores. *)
#[export, refine] Instance receipt_quota_store retained : QuotaStore (evict_and_read retained) :=
  {| qs_wf s := store_ok s.2 /\ s.1 = usage_of s.2; qs_rows s := size (receipts s.2) |}.
Proof.
  intros [u d] [Hd Hu]. simpl in *. unfold evict_and_read. simpl.
  destruct (evict_oldest_ok retained d Hd) as (r & -> & Hr). simpl.
  destruct r as [d'|]; [|by eexists]. destruct Hr as (Hd' & _ & Hlt & _).
  rewrite (receipt_usage_ok d' Hd'). simpl. by eexists.
Defined.

Lemma evict_and_read_spares retained d0 u d u' d' : store_ok d -> spares retained d0 d ->
  evict_and_read retained (u, d) = Ok (Some (u', d')) -> spares retained d0 d'.
Proof.
  intros Hd Hsp. unfold evict_and_read. simpl.
  destruct (evict_oldest_ok retained d Hd) as (res & -> & Hspec). simpl.
  destruct res as [d1|]; [|done]. destruct Hspec as (Hd1 & Hsh & _ & Hkeep).
  rewrite (receipt_usage_ok d1 Hd1). simpl. intros [= _ <-]. etrans; [done|]. by split.
Qed.

Lemma make_room_spec retained hb c b d : store_ok d -> 0 <= hb <= MAX_TOTAL_RECEIPT_BYTES ->
  0 <= c <= MAX_EVIDENCE_PER_RECEIPT -> 0 <= b <= MAX_EVIDENCE_BYTES_PER_RECEIPT ->
  let loop := evict_while (evict_and_read retained)
    (fun s => header_over_quota s.1 hb || evidence_over_quota s.1 c b)
    (S (size (receipts d))) (usage_of d, d) in
  (exists d', loop = Done (Ok (inl (usage_of d', d'))) /\ store_ok d' /\ spares retained d d'
     /\ fits d' hb c b)
  \/ (exists s, loop = Done (Ok (inr s))) /\ exists i r, retained = Some i
       /\ receipts d !! i = Some r /\ MAX_TOTAL_RECEIPT_BYTES < r_logical_bytes r + hb.
Proof.
  intros Hd Hhb Hc Hb loop.
  destruct (evict_while_spec (evict_and_read retained)
    (fun s => header_over_quota s.1 hb || evidence_over_quota s.1 c b)
    (fun s => spares retained d s.2) (S (size (receipts d))) (usage_of d, d))
    as [([u d2] & Hrun & [Hd2 Hu] & Hsp & Hfit)|([u d2] & Hrun & [Hd2 Hu] & Hsp & Hover & Hnone)].
  - intros [u2 d2] [u3 d3] [Hd2 _] Hsp Hev. by eapply evict_and_read_spares.
  - done.
  - done.
  - simpl. lia.
  - left. simpl in *. subst u. exists d2. split_and!; [done..|]. by apply over_quota_fits in Hfit.
  - right. split; [by eexists|]. simpl in *. subst u.
    destruct (evict_oldest_ok retained d2 Hd2) as (res & Hres & Hspec).
    unfold evict_and_read in Hnone. simpl in Hnone. rewrite Hres in Hnone. simpl in Hnone.
    destruct res as [d3|]; [destruct (receipt_usage d3); discriminate|].
    destruct (exhausted_over retained d2 hb c b Hd2 Hhb Hc Hb Hspec Hover)
      as (_ & i & r & -> & Hr & Hbig).
    exists i, r. split_and!; [done| |done]. by rewrite <-(proj2 Hsp i eq_refl).
Qed.

Lemma persist_carried_spec i r generation now expires carried d :
  store_ok d -> receipts d !! i = Some r -> 0 <= generation -> 0 <= now -> 0 <= expires ->
  Forall evidence_fine carried -> len carried <= MAX_EVIDENCE_PER_RECEIPT ->
  total_bytes carried <= MAX_EVIDENCE_BYTES_PER_RECEIPT ->
  exists res, persist_carried i generation now expires carried d = Done res /\
    match res with
    | Ok (receipt_id, d') => store_ok d' /\ exists j,
        receipt_id = format_receipt_id (namespace d) j
        /\ extends (Some i) d d' j generation now expires (map (stored_as 1) carried)
    | Err _ => no_room (Some i) generation carried d
    end.
Proof.
  intros Hd Hr Hg Hn Hx Hcar Hc Hb. unfold persist_carried.
  destruct (delete_where_ok (fun j r => (r_expires r <=? now) && negb (j =? i)) d Hd)
    as (d1 & He & Hd1 & Hsh & Hrows).
  unfold prune_expired_receipts_except. rewrite He. simpl. rewrite (receipt_usage_ok d1 Hd1). simpl.
  assert (Hsp1 : spares (Some i) d d1).
  { split; [done|]. intros j [= <-]. rewrite Hr. apply Hrows. split; [done|].
    by rewrite Z.eqb_refl, andb_false_r. }
  assert (Hid : header_size d1 = header_size d).
  { unfold header_size. by rewrite (sf_identity _ _ (proj1 Hsh)). }
  assert (Hhb : 0 <= header_size d1).
  { unfold header_size, RECEIPT_HEADER_FIXED_LOGICAL_BYTES, str_len. lia. }
  assert (Hlim : MAX_EVIDENCE_BYTES_PER_RECEIPT <= U64_MAX /\ MAX_TOTAL_RECEIPT_BYTES < U64_MAX)
    by done.
  unfold no_room. fold (header_size d1). rewrite <-Hid.
  unfold u64_checked_add. fold (header_size d1). rewrite checked_bytes_ok by lia. rewrite Z.add_0_l.
  destruct (header_size d1 <=? U64_MAX) eqn:Hov; bool_to_prop.
  2:{ eexists. split; [done|]. left. lia. }
  rewrite (proj2 (Z.ltb_ge _ (len carried))), (proj2 (Z.ltb_ge _ (total_bytes carried))) by done.
  rewrite !orb_false_l. destruct (MAX_TOTAL_RECEIPT_BYTES <? header_size d1) eqn:Hmax; bool_to_prop.
  { eexists. split; [done|]. by left. }
  destruct (make_room_spec (Some i) (header_size d1) (len carried) (total_bytes carried) d1 Hd1
    (conj Hhb Hmax) (conj (len_nonneg carried) Hc) (conj (total_bytes_nonneg carried) Hb))
    as [(d2 & Hrun & Hd2 & Hsp2 & Hfit)|[[s Hrun] (j & r' & [= <-] & Hr' & Hbig)]];
    simpl in Hrun; rewrite Hrun; simpl; (eexists; split; [done|]).
  2:{ right; left. exists i, r'. split_and!; [done| |done]. by rewrite <-(proj2 Hsp1 i eq_refl). }
  assert (Hsp : spares (Some i) d d2) by (by etrans).
  assert (Hid2 : meta_repository_identity d2 = meta_repository_identity d1) by apply Hsp2.
  rewrite <-Hid2.
  pose proof (insert_snapshot_spec d2 generation now expires (header_size d1) (fun _ => 1) carried
    Hd2 Hg Hn Hx (conj Hhb Hmax) Hc Hb) as Hins.
  destruct (insert_snapshot _ _ _ _ _ _ _ _ _ _ _) as [[receipt_id d']|e].
  - destruct Hins as (_ & Hd' & j & -> & Hadd); [|done|].
    { eapply Forall_impl; [done|]. by intros e (? & _ & ?). }
    split; [done|]. exists j. rewrite (sf_namespace _ _ (proj1 (proj1 Hsp))). split; [done|].
    by exists d2.
  - right; right. rewrite <-(numbers_left_frame d d2) by apply Hsp.
    apply Hins; [|done]. eapply Forall_impl; [done|]. by intros e' (? & _ & ?).
Qed.

(** The receipt a rebase starts from is the one its caller loaded. *)
Record rebase_source_current (source : ReceiptRebaseSource) (now : Z) (d : receipt_db)
    (i : Z) (r : receipt_row) : Prop := {
  rc_parse : parse_receipt_id (rs_receipt_id source) (namespace d) = Some i;
  rc_row : receipts d !! i = Some r;
  rc_clock : r_created r <= now /\ r_last_access r <= now /\ now < r_expires r;
  rc_identity : meta_repository_identity d = rs_repository_identity source
    /\ r_repository_identity r = rs_repository_identity source;
  rc_generation : r_repository_generation r = rs_repository_generation source;
  rc_evidence : load_receipt_evidence i d = Ok (rs_evidence source)
}.

Lemma unusable_at_persistent now i r : unusable_at now (persistent_of i r) = false <->
  r_created r <= now /\ r_last_access r <= now /\ now < r_expires r.
Proof.
  unfold unusable_at. simpl. rewrite !orb_false_iff, !Z.ltb_ge, Z.leb_gt. tauto.
Qed.

(** Every outcome of [persist_rebased_receipt_at]. *)
Lemma persist_rebased_cases source expected carried now d : store_ok d -> now <= I64_MAX ->
  exists t, persist_rebased_receipt_at source expected carried now d = Done t /\
    match t with
    | Committed d' (Err e) => d' = d /\ e = UnknownReceipt (rs_receipt_id source)
        /\ forall i r, ~ rebase_source_current source now d i r
    | RolledBack _ =>
        (forall i r, ~ rebase_source_current source now d i r)
        \/ now < 0 \/ I64_MAX < now + RECEIPT_TTL_MILLIS
        \/ meta_repository_generation d < 0 \/ meta_repository_generation d <> expected
        \/ ~ carried `sublist_of` rs_evidence source
        \/ exists i, parse_receipt_id (rs_receipt_id source) (namespace d) = Some i
            /\ no_room (Some i) expected carried d
    | Committed d' (Ok receipt_id) => store_ok d' /\ exists i r j,
        rebase_source_current source now d i r
        /\ meta_repository_generation d = expected /\ carried `sublist_of` rs_evidence source
        /\ receipt_id = format_receipt_id (namespace d) j
        /\ extends (Some i) d d' j expected now (now + RECEIPT_TTL_MILLIS)
             (map (stored_as 1) carried)
    end.
Proof.
  intros Hd Hnow. unfold persist_rebased_receipt_at.
  destruct (now <? 0) eqn:Hn; bool_to_prop; [by eexists; split; [done|]; right; left|].
  assert (Httl : 0 < RECEIPT_TTL_MILLIS) by done.
  unfold i64_checked_add. destruct (_ && _) eqn:Hx.
  2:{ eexists. split; [done|]. right; right; left. apply andb_false_iff in Hx as [Hx|Hx];
        bool_to_prop; [unfold I64_MIN in *|]; lia. }
  bool_to_prop. rewrite (receipt_usage_ok d Hd). simpl.
  destruct (parse_receipt_id _ _) as [i|] eqn:Hp.
  2:{ eexists. split; [done|]. split_and!; [done|done|]. intros i r []. congruence. }
  rewrite (load_receipt_ok i d Hd). destruct (receipts d !! i) as [r|] eqn:Hr; simpl.
  2:{ eexists. split; [done|]. split_and!; [done|done|]. intros j r []. congruence. }
  assert (Hsole : forall j r', rebase_source_current source now d j r' -> j = i /\ r' = r).
  { intros j r' []. assert (j = i) as -> by congruence. split; [done|congruence]. }
  destruct (unusable_at now (persistent_of i r)) eqn:Hu.
  { eexists. split; [done|]. split_and!; [done|done|]. intros j r' Hc.
    destruct (Hsole _ _ Hc) as [-> ->]. destruct Hc as [_ _ Hc _ _ _].
    apply (unusable_at_persistent now i) in Hc. congruence. }
  apply unusable_at_persistent in Hu. unfold i64_to_u64.
  destruct (0 <=? meta_repository_generation d) eqn:Hg; bool_to_prop.
  2:{ eexists. split; [done|]. by do 3 right; left. }
  destruct (negb _ || negb _) eqn:Hident.
  { eexists. split; [done|]. split_and!; [done|done|]. intros j r' Hc.
    destruct (Hsole _ _ Hc) as [-> ->]. destruct Hc as [_ _ _ [Ha Hb] _ _]. simpl in Hident.
    by rewrite !bool_decide_eq_true_2 in Hident. }
  simpl in Hident. bool_to_prop. rewrite bool_decide_eq_true in *.
  destruct (_ =? expected) eqn:Hexp; bool_to_prop; simpl.
  2:{ eexists. split; [done|]. by do 4 right; left. }
  destruct (load_evidence_ok d i r Hd Hr) as (l & Hl & Hlc & Hlb & Hfine). rewrite Hl.
  destruct (negb _ || negb _) eqn:Hev.
  { eexists. split; [done|]. left. intros j r' Hc. destruct (Hsole _ _ Hc) as [-> ->].
    destruct Hc as [_ _ _ _ Hgen Hload]. assert (l = rs_evidence source) as -> by congruence.
    by rewrite Hgen, Z.eqb_refl, bool_decide_eq_true_2 in Hev. }
  bool_to_prop. rewrite bool_decide_eq_true in *. subst l.
  destruct (is_ordered_subset _ _ _) eqn:Hsub; simpl.
  2:{ eexists. split; [done|]. do 5 right; left. intros Hs.
      by rewrite (proj2 (is_ordered_subset_iff (rs_evidence source) 0 carried)) in Hsub. }
  apply is_ordered_subset_iff in Hsub. rewrite drop_0 in Hsub.
  destruct (so_rows d Hd i r Hr) as [_ _ _ _ Hmc Hmb _].
  pose proof (sublist_length _ _ Hsub). pose proof (total_bytes_sublist _ _ Hsub).
  destruct (persist_carried_spec i r (meta_repository_generation d) now (now + RECEIPT_TTL_MILLIS)
    carried d) as (res & -> & Hres); [done..|lia| | |lia|].
  { by eapply Forall_sublist. } { unfold len in *. lia. }
  simpl. eexists. split; [done|]. destruct res as [[receipt_id d']|e]; simpl.
  - destruct Hres as (Hd' & j & -> & Hext). split; [done|]. exists i, r, j.
    rewrite <-Hexp. split_and!; [|done..]. by constructor.
  - do 6 right. exists i. by rewrite <-Hexp.
Qed.

(** [persist_rebased_receipt_at] always returns, never touches the receipt it starts from, and
    stores what its caller carried over: it commits only if that source is still the receipt the
    caller loaded, the repository is at the expected generation and the carried evidence is a
    subsequence of the source's; the new receipt then holds exactly the carried evidence, reduced
    to exact matching, and the store stays within its quotas. *)
Theorem persist_rebased_receipt_correct source expected carried now d :
  store_ok d -> now <= I64_MAX ->
  exists t, persist_rebased_receipt_at source expected carried now d = Done t
    /\ store_ok (run_tx d t).1 /\ only_adds d (run_tx d t).1
    /\ match (run_tx d t).2 with
       | Err _ => (run_tx d t).1 = d
       | Ok receipt_id => exists i r j, rebase_source_current source now d i r
           /\ receipts (run_tx d t).1 !! i = Some r
           /\ meta_repository_generation d = expected /\ carried `sublist_of` rs_evidence source
           /\ receipt_id = format_receipt_id (namespace d) j /\ receipts d !! j = None
           /\ load_receipt_evidence j (run_tx d t).1 = Ok (map (stored_as 1) carried)
       end.
Proof.
  intros Hd Hnow.
  destruct (persist_rebased_cases source expected carried now d Hd Hnow) as (t & -> & Ht).
  assert (Hself : only_adds d d) by (by apply shrinks_only_adds).
  exists t. split; [done|]. destruct t as [d' [receipt_id|e]|e]; simpl.
  - destruct Ht as (Hd' & i & r & j & Hcur & Hgen & Hsub & -> & Hext).
    split; [done|]. split; [by eapply extends_only_adds|].
    destruct Hext as (d1 & Hd1 & [[[] _] Hsp] & [[-> Hj] _ _ (r' & Hr' & _) Hev]).
    assert (Hi : receipts d1 !! i = Some r).
    { rewrite (Hsp i eq_refl). by apply (rc_row _ _ _ _ _ Hcur). }
    exists i, r, (last_rowid d1 + 1). split_and!; [done| |done|done|done| |done].
    + rewrite Hr', lookup_insert_ne; [done|]. intros Heq. congruence.
    + apply fresh_rowid; [done|]. rewrite sf_rowid0. lia.
  - by destruct Ht as (-> & _).
  - done.
Qed.

(** ** Lemmas: the quota repair *)

Lemma max_access_sequence_bound m : 0 <= max_access_sequence m
  /\ forall i r, m !! i = Some r -> r_access_sequence r <= max_access_sequence m.
Proof.
  unfold max_access_sequence. induction m as [|i r m Hi IH] using map_ind.
  { rewrite map_fold_empty. split; [done|]. by intros i r; rewrite lookup_empty. }
  rewrite map_fold_insert_L; [|intros; lia|done]. destruct IH as [IH0 IH]. split; [lia|].
  intros j r' [[<- <-]|[_ Hj]]%lookup_insert_Some; [lia|]. specialize (IH j r' Hj). lia.
Qed.

Lemma max_access_sequence_le m b : 0 <= b ->
  (forall i r, m !! i = Some r -> r_access_sequence r <= b) -> max_access_sequence m <= b.
Proof.
  unfold max_access_sequence. intros Hb. induction m as [|i r m Hi IH] using map_ind; intros Hall.
  { by rewrite map_fold_empty. }
  rewrite map_fold_insert_L; [|intros; lia|done].
  pose proof (Hall i r (lookup_insert_eq _ _ _)).
  enough (map_fold (fun (_ : Z) r acc => r_access_sequence r `max` acc) 0 m <= b) by lia.
  apply IH. intros j r' Hj. apply (Hall j). rewrite lookup_insert_ne; [done|congruence].
Qed.

Lemma map_sum_fmap {K} `{Countable K} {A B} (f : B -> Z) (g : A -> B) (m : gmap K A) :
  map_sum f (g <$> m) = map_sum (fun r => f (g r)) m.
Proof.
  induction m as [|i r m Hi IH] using map_ind; [by rewrite fmap_empty, !map_sum_empty|].
  rewrite fmap_insert, !map_sum_insert; [by rewrite IH|done|by rewrite lookup_fmap, Hi].
Qed.

Lemma map_sum_ext {K} `{Countable K} {A} (f g : A -> Z) (m : gmap K A) :
  (forall i r, m !! i = Some r -> f r = g r) -> map_sum f m = map_sum g m.
Proof.
  induction m as [|i r m Hi IH] using map_ind; intros Hfg; [by rewrite !map_sum_empty|].
  rewrite !map_sum_insert by done. rewrite (Hfg i r) by apply lookup_insert_eq. f_equal.
  apply IH. intros j r' Hj. apply (Hfg j). rewrite lookup_insert_ne; [done|congruence].
Qed.

(** The usage row and the per-receipt columns agree with the rows they summarise. *)
Record accounted (d : receipt_db) : Prop := {
  ac_sequence : 0 <= next_access_sequence d;
  ac_rows : forall i r, receipts d !! i = Some r ->
    r_evidence_count r = len (r_evidence r) /\ r_evidence_bytes r = rows_bytes (r_evidence r)
    /\ r_access_sequence r <= next_access_sequence d;
  ac_count : receipt_count d = row_count (receipts d);
  ac_bytes : receipt_bytes d = map_sum r_logical_bytes (receipts d);
  ac_ev_count : evidence_count d = map_sum r_evidence_count (receipts d);
  ac_ev_bytes : evidence_bytes d = map_sum r_evidence_bytes (receipts d)
}.

Lemma store_ok_accounted d : store_ok d -> accounted d.
Proof.
  intros []. constructor; try done; [lia|]. intros i r Hr. by destruct (so_rows0 i r Hr).
Qed.

Lemma not_miscounted r : miscounted r = false -> recount_receipt r = r.
Proof.
  unfold miscounted, recount_receipt. intros Hm. bool_to_prop.
  destruct r; simpl in *. congruence.
Qed.

Lemma recount_none (m : gmap Z receipt_row) :
  List.filter (fun '(_, r) => miscounted r) (map_to_list m) = [] -> recount_receipt <$> m = m.
Proof.
  intros Hnone. apply map_eq. intros i. rewrite lookup_fmap.
  destruct (m !! i) as [r|] eqn:Hr; [|done]. simpl. f_equal. apply not_miscounted.
  destruct (miscounted r) eqn:Hm; [|done]. exfalso.
  enough (In (i, r) []) by done. rewrite <-Hnone. apply filter_In. split; [|done].
  by apply list_elem_of_In, elem_of_map_to_list.
Qed.

Lemma recount_accounted (m : gmap Z receipt_row) :
  (forall i r, m !! i = Some r ->
     r_evidence_count r = len (r_evidence r) /\ r_evidence_bytes r = rows_bytes (r_evidence r)) ->
  recount_receipt <$> m = m /\ List.filter (fun '(_, r) => miscounted r) (map_to_list m) = [].
Proof.
  intros Hm. split.
  - apply map_eq. intros i. rewrite lookup_fmap. destruct (m !! i) as [r|] eqn:Hr; [|done].
    simpl. f_equal. destruct (Hm i r Hr) as [Hc Hb]. unfold recount_receipt.
    rewrite <-Hc, <-Hb. by destruct r.
  - destruct (List.filter _ _) as [|[i r] l] eqn:E; [done|exfalso].
    assert (Hin : In (i, r) ((i, r) :: l)) by (by left). rewrite <-E in Hin.
    apply filter_In in Hin as [Hin Hmis]. apply list_elem_of_In, elem_of_map_to_list in Hin.
    destruct (Hm i r Hin) as [Hc Hb]. unfold miscounted in Hmis.
    by rewrite Hc, Hb, !Z.eqb_refl in Hmis.
Qed.

(** The repair at open makes the bookkeeping of the receipt tables exact whatever it was (the
    usage row, when present, may hold any values), never touches the evidence, keeps the access
    counter monotone, and on bookkeeping that is already exact it changes nothing and reports no
    repair.  It can only fail when a column total leaves the 64-bit range. *)
Theorem repair_receipt_usage_correct fresh d :
  match repair_receipt_usage true fresh d with
  | Err _ => I64_MAX < map_sum r_logical_bytes (receipts d)
             \/ I64_MAX < map_sum (fun r => rows_bytes (r_evidence r)) (receipts d)
  | Ok (n, d') => accounted d' /\ next_access_sequence d <= next_access_sequence d'
      /\ r_evidence <$> receipts d' = r_evidence <$> receipts d
      /\ (accounted d -> n = 0 /\ d' = d) /\ (n = 0 -> d' = d)
  end.
Proof.
  set (rows := recount_receipt <$> receipts d).
  assert (Hrows : forall i r, rows !! i = Some r ->
    r_evidence_count r = len (r_evidence r) /\ r_evidence_bytes r = rows_bytes (r_evidence r)).
  { intros i r. unfold rows. rewrite lookup_fmap. destruct (receipts d !! i); [|done].
    simpl. by intros [= <-]. }
  assert (Hlb : map_sum r_logical_bytes rows = map_sum r_logical_bytes (receipts d)).
  { unfold rows. by rewrite map_sum_fmap. }
  assert (Heb : map_sum (fun r => rows_bytes (r_evidence r)) rows
                = map_sum (fun r => rows_bytes (r_evidence r)) (receipts d)).
  { unfold rows. by rewrite map_sum_fmap. }
  assert (Hec' : map_sum (fun r => len (r_evidence r)) rows = map_sum r_evidence_count rows).
  { apply map_sum_ext. intros i r Hr. by destruct (Hrows i r Hr). }
  assert (Heb' : map_sum (fun r => rows_bytes (r_evidence r)) rows = map_sum r_evidence_bytes rows).
  { apply map_sum_ext. intros i r Hr. by destruct (Hrows i r Hr). }
  assert (Hev : r_evidence <$> rows = r_evidence <$> receipts d).
  { unfold rows. apply map_eq. intros i. rewrite !lookup_fmap. by destruct (receipts d !! i). }
  destruct (max_access_sequence_bound rows) as [Hmax Hseq].
  unfold repair_receipt_usage, sql_sum. fold rows. rewrite Hlb, Heb.
  destruct (_ <=? I64_MAX) eqn:H1; bool_to_prop; simpl; [|by left].
  destruct (map_sum (fun r => rows_bytes _) _ <=? I64_MAX) eqn:H2; bool_to_prop; simpl; [|by right].
  assert (Hacc : accounted d -> rows = receipts d
    /\ List.filter (fun '(_, r) => miscounted r) (map_to_list (receipts d)) = []).
  { intros Ha. apply recount_accounted. intros i r Hr. by destruct (ac_rows d Ha i r Hr) as (? & ? & _). }
  pose proof (len_nonneg (List.filter (fun '(_, r) => miscounted r) (map_to_list (receipts d)))) as Hl.
  destruct (_ || _) eqn:Hcond.
  - split_and!; [|simpl; lia|done| |lia].
    + constructor; simpl; [lia| |done|by rewrite Hlb|by rewrite Hec'|by rewrite <-Heb, Heb'].
      intros i r Hr. destruct (Hrows i r Hr). split_and!; [done|done|].
      specialize (Hseq i r Hr). lia.
    + intros Ha. destruct (Hacc Ha) as [Hr Hf]. exfalso. rewrite Hr in *.
      destruct Ha as [Ha0 Har Hac Hab Haec Haeb].
      rewrite Hac, Hab, Haec, Haeb, Hec', <-Heb', !Z.eqb_refl in Hcond. simpl in Hcond.
      rewrite !orb_false_r in Hcond. bool_to_prop.
      pose proof (max_access_sequence_le (receipts d) (next_access_sequence d) Ha0) as Hle.
      enough (max_access_sequence (receipts d) <= next_access_sequence d) by lia.
      apply Hle. intros i r Hi. by apply (Har i r).
  - bool_to_prop. split_and!.
    + constructor; simpl; [lia| |lia|lia|lia|lia].
      intros i r Hr. destruct (Hrows i r Hr). split_and!; [done|done|].
      specialize (Hseq i r Hr). lia.
    + simpl. lia.
    + done.
    + intros Ha. destruct (Hacc Ha) as [Hr ->]. rewrite Hr. split; [done|]. by destruct d.
    + intros Hn. assert (List.filter (fun '(_, r) => miscounted r) (map_to_list (receipts d)) = [])
        as Hf by (destruct (List.filter _ _); [done|unfold len in Hn; simpl in Hn; lia]).
      unfold rows. rewrite (recount_none _ Hf). by destruct d.
Qed.

(** ** Reading back what an evaluation stored *)

(** A namespace as [lower(hex(randomblob(16)))] makes it. *)
Definition namespace_ok (d : receipt_db) : Prop :=
  String.length (namespace d) = RECEIPT_ID_NAMESPACE_HEX_BYTES
  /\ ascii_string (namespace d) = true.

(** What an evaluation that starts without a receipt stores can be read back: its identifier
    parses under the store's namespace, and until it expires a read returns the generation and
    exactly the prefix of the returned candidates that was recorded, as a complete snapshot when
    there is room for one more piece of evidence. *)
Theorem evaluated_receipt_reads_back generation candidates suppress_overlap now now2 d d' answer :
  store_ok d -> namespace_ok d -> 0 <= generation -> Forall evidence_typed candidates ->
  now <= I64_MAX ->
  evaluate_receipt_at None generation candidates suppress_overlap now d
    = Done (Committed d' (Ok answer)) ->
  now <= now2 < now + RECEIPT_TTL_MILLIS ->
  exists s l, read_receipt (evaluation_receipt_id answer) now2 d' = Ok s
    /\ s_evidence s = l /\ s_repository_generation s = generation
    /\ s_repository_identity s = meta_repository_identity d
    /\ longest_prefix 0 0 (returned_evidence candidates (decisions answer)) l
    /\ (s_complete s = true <-> len l < MAX_EVIDENCE_PER_RECEIPT /\
          total_bytes l + MAX_RECEIPT_EVIDENCE_LOGICAL_BYTES <= MAX_EVIDENCE_BYTES_PER_RECEIPT).
Proof.
  intros Hd [Hns Hascii] Hg Hcand Hnow Hrun Hnow2.
  destruct (decide (admissible None candidates now)) as [Hadm|Hno].
  2:{ destruct (evaluate_receipt_refused None generation candidates suppress_overlap now d)
        as [e He]; [done..|]. congruence. }
  destruct (evaluate_receipt_cases None generation candidates suppress_overlap now d)
    as (d1 & t & (Hd1 & [Hf1 Hsub] & _) & Hrun' & Ht); [done..|].
  rewrite Hrun in Hrun'. injection Hrun' as <-.
  destruct Ht as [(d2 & e & ? & [=] & _)|(row_id & previous & l & Hnames & Hack & Hlong & Ht)].
  destruct row_id; [done|]. simpl in Hack. subst previous. destruct Ht as (Hd' & Hdec & Hev).
  destruct Hev as [([=] & _)|(_ & j & Hid & d2 & Hd2 & [[Hf2 _] _] & Hadd)].
  assert (Hrowid : last_rowid d2 = last_rowid d1) by apply Hf2.
  destruct Hadd as [[-> Hfresh] Hns' [Hident Hmgen] (r & Hrows & Hri & Hrg & Hrc & Hrl & Hrx) Hload].
  assert (Hr : receipts d' !! (last_rowid d2 + 1) = Some r) by (by rewrite Hrows, lookup_insert_eq).
  destruct (load_evidence_ok d' _ r Hd' Hr) as (l' & Hl' & Hc & Hb & Hfine).
  assert (l' = l) as -> by (simpl in Hload; congruence).
  destruct (so_rows d' Hd' _ r Hr) as [_ _ _ _ Hmc Hmb _].
  destruct (so_schema d' Hd' _ r Hr) as [Hidr _ _]. pose proof (so_rowid d' Hd').
  assert (Hname : namespace d' = namespace d1 /\ namespace d1 = namespace d).
  { rewrite Hns'. by rewrite (sf_namespace _ _ Hf2), (sf_namespace _ _ Hf1). }
  assert (Hlen : str_len (evaluation_receipt_id answer) <= MAX_RECEIPT_ID_BYTES).
  { rewrite Hid. unfold format_receipt_id, str_len, format_016x.
    rewrite !string_length_app, hex_digits_length, (proj2 Hname), Hns. done. }
  unfold read_receipt. rewrite (proj2 (Z.ltb_ge _ _) Hlen), Hid, (proj1 Hname).
  rewrite parse_format_receipt_id by (rewrite ?(proj2 Hname); done || lia).
  rewrite (load_receipt_ok _ d' Hd'), Hr. simpl.
  rewrite bool_decide_eq_true_2 by congruence.
  rewrite (proj2 (Z.ltb_ge now2 _)), (proj2 (Z.ltb_ge now2 _)), (proj2 (Z.leb_gt _ now2)) by lia.
  simpl in Hload. rewrite Hload. simpl.
  rewrite <-Hc, <-Hb in *. rewrite Z.eqb_refl, !(proj2 (Z.ltb_ge _ _)) by done. simpl.
  eexists _, l. split; [done|]. simpl.
  split_and!; [done|done| |by rewrite Hdec|].
  - rewrite Hident, (sf_identity _ _ Hf2). by rewrite (sf_identity _ _ Hf1).
  - rewrite andb_true_iff, Z.ltb_lt, Z.leb_le, u64_saturating_add_exact; [done|].
    assert (MAX_EVIDENCE_BYTES_PER_RECEIPT + MAX_RECEIPT_EVIDENCE_LOGICAL_BYTES <= U64_MAX) by done.
    lia.
Qed.

(** ** Witnesses *)

Definition example_namespace : string := "0123456789abcdef0123456789abcdef".
Definition example_evidence (p h : string) : ReceiptEvidence :=
  mk_evidence p 1 9 h (Overlap (Some 255)).
Definition example_row : evidence_row := mk_evidence_row "a.rs" 1 9 "h1" (Some 255) 0 62.
Definition example_receipt : receipt_row :=
  mk_receipt_row "repo" 7 1000 1000 5000 3 76 1 62 [example_row].
Definition example_store : receipt_db :=
  mk_receipt_db example_namespace 3 1 76 1 62 {[ 5 := example_receipt ]} 5 "repo" 7.

Lemma example_store_ok : store_ok example_store.
Proof.
  assert (Hone : forall i r, receipts example_store !! i = Some r -> i = 5 /\ r = example_receipt).
  { intros i r Hr. 
    change (({[5 := example_receipt]} : gmap Z receipt_row) !! i = Some r) in Hr.
    by apply lookup_singleton_Some in Hr as [<- <-]. }
  constructor; try (vm_compute; split; discriminate); try reflexivity.
  - intros i r [-> ->]%Hone. constructor; [done|by repeat constructor|].
    constructor; [split_and!; vm_compute; discriminate|constructor].
  - intros i r [-> ->]%Hone. constructor; try done.
    constructor; [|constructor]. by constructor.
  - split_and!; vm_compute; discriminate.
Qed.

Definition example_id : string := format_receipt_id example_namespace 5.
Definition example_candidates : list ReceiptEvidence :=
  [example_evidence "a.rs" "h1"; example_evidence "b.rs" "h2"].

Lemma example_candidates_typed : Forall evidence_typed example_candidates.
Proof. repeat constructor; vm_compute; discriminate. Qed.

Lemma evaluate_receipt_preserves_witness :
  exists t, evaluate_receipt_at (Some example_id) 7 example_candidates true 2000 example_store = Done t
    /\ store_ok (run_tx example_store t).1 /\ only_adds example_store (run_tx example_store t).1.
Proof.
  apply (evaluate_receipt_preserves (Some example_id) 7 example_candidates true 2000 example_store).
  - exact example_store_ok.
  - lia.
  - exact example_candidates_typed.
  - vm_compute. discriminate.
Defined.

Lemma evaluate_receipt_copy_on_write_witness :
  match evaluate_receipt_at (Some example_id) 7 example_candidates false 2000 example_store with
  | Done (Committed d' (Ok answer)) =>
      decisions answer = [SuppressExact; ReturnNearDuplicate]
      /\ exists i r, receipts d' !! i = Some r /\ usable_source example_id 7 2000 example_store i r
  | _ => False
  end.
Proof.
  destruct (evaluate_receipt_at _ _ _ _ _ _) as [[d' [answer|]|]| |] eqn:E;
    try (vm_compute in E; discriminate).
  destruct (evaluate_receipt_copy_on_write example_id 7 example_candidates false 2000 example_store
    d' answer example_store_ok ltac:(lia) example_candidates_typed ltac:(vm_compute; discriminate) E)
    as (i & r & previous & l & Hu & _ & Hr & _).
  split; [|by exists i, r]. vm_compute in E. injection E as _ <-. reflexivity.
Defined.

Lemma evaluate_receipt_succeeds_witness :
  exists d' answer previous l,
    evaluate_receipt_at (Some example_id) 7 example_candidates true 2000 example_store
      = Done (Committed d' (Ok answer))
    /\ named_evidence (Some example_id) example_store previous
    /\ decisions answer = decisions_for previous example_candidates true
    /\ longest_prefix (len previous) (total_bytes previous)
         (returned_evidence example_candidates (decisions answer)) l
    /\ ((Some example_id = Some (evaluation_receipt_id answer) /\ l = [])
        \/ exists j, evaluation_receipt_id answer = format_receipt_id (namespace example_store) j
             /\ load_receipt_evidence j d' = Ok (previous ++ l)).
Proof.
  apply (evaluate_receipt_succeeds (Some example_id) 7 example_candidates true 2000 example_store).
  - exact example_store_ok.
  - split_and!; [vm_compute; discriminate|repeat constructor; vm_compute; discriminate
      |lia|vm_compute; discriminate].
  - lia.
  - exact example_candidates_typed.
  - exists 5, example_receipt. split_and!; [|done|vm_compute; discriminate].
    constructor; [vm_compute; reflexivity|vm_compute; reflexivity
      |split; vm_compute; discriminate|reflexivity|reflexivity].
  - vm_compute. discriminate.
  - split_and!; [done|done|vm_compute; discriminate|].
    repeat constructor; vm_compute; discriminate.
Defined.

Lemma persist_rebased_receipt_correct_witness :
  exists t, persist_rebased_receipt_at
      (mk_rebase_source example_id "repo" 7 [example_evidence "a.rs" "h1"]) 7
      [example_evidence "a.rs" "h1"] 2000 example_store = Done t
    /\ store_ok (run_tx example_store t).1.
Proof.
  destruct (persist_rebased_receipt_correct
    (mk_rebase_source example_id "repo" 7 [example_evidence "a.rs" "h1"]) 7
    [example_evidence "a.rs" "h1"] 2000 example_store) as (t & Ht & Hok & _).
  - exact example_store_ok.
  - vm_compute. discriminate.
  - exists t. split; [exact Ht|exact Hok].
Defined.

Lemma evaluated_receipt_reads_back_witness :
  match evaluate_receipt_at None 7 example_candidates false 2000 example_store with
  | Done (Committed d' (Ok answer)) =>
      exists s, read_receipt (evaluation_receipt_id answer) 3000 d' = Ok s
  | _ => False
  end.
Proof.
  destruct (evaluate_receipt_at _ _ _ _ _ _) as [[d' [answer|]|]| |] eqn:E;
    try (vm_compute in E; discriminate).
  destruct (evaluated_receipt_reads_back 7 example_candidates false 2000 3000 example_store d' answer
    example_store_ok ltac:(vm_compute; split; reflexivity) ltac:(lia) example_candidates_typed
    ltac:(vm_compute; discriminate) E ltac:(vm_compute; split; [discriminate|reflexivity]))
    as (s & l & Hs & _).
  by exists s.
Defined.
