(* ===== verification/Table.v ===== *)
(** * Tables with a usage row

    The shape shared by the query receipt and the read-delta stores
    ([src/src/storage/schema.rs]): a keyed table whose rows carry an access
    sequence and a logical size, a singleton usage row that two triggers keep,
    eviction of the least recently used row, and the repair of the usage row at
    open.  A row type joins by an instance of [TableRow]; the bounded-store
    interface [QuotaStore] is discharged here once for all of them. *)

From S2P Require Import Prelude Order Store.
Open Scope Z_scope.
Open Scope store_scope.
Open Scope run_scope.

Class TableRow (R : Type) := {
  row_sequence : R -> Z;
  row_bytes : R -> Z;
  (** The remaining CHECK constraints of the row. *)
  row_check : R -> bool
}.

Record table (K R : Type) `{Countable K} := mk_table {
  t_next : Z;
  t_count : Z;
  t_bytes : Z;
  t_rows : gmap K R
}.
Arguments mk_table {K R _ _} _ _ _ _.
Arguments t_next {K R _ _} _.
Arguments t_count {K R _ _} _.
Arguments t_bytes {K R _ _} _.
Arguments t_rows {K R _ _} _.

Section Table.
Context {K R : Type} `{Countable K} `{!KeyOrder K} `{!TableRow R}.
Implicit Types (t : table K R) (k : K) (r : R).

(** ** Statements *)

(** [DELETE .. WHERE key = ?] with the [AFTER DELETE] trigger. *)
Definition table_delete k t : result (table K R) :=
  match t_rows t !! k with
  | None => Ok t
  | Some r =>
    let* _ := check_nonneg [t_count t - 1; t_bytes t - row_bytes r] in
    Ok (mk_table (t_next t) (t_count t - 1) (t_bytes t - row_bytes r) (delete k (t_rows t)))
  end.

Definition table_delete_all (ks : list K) t : result (table K R) :=
  fold_left (fun acc k => let* t := acc in table_delete k t) ks (Ok t).

(** [DELETE .. WHERE p]. *)
Definition keys_where (p : K -> R -> bool) t : list K :=
  (List.filter (fun '(k, r) => p k r) (map_to_list (t_rows t))).*1.
Definition table_delete_where (p : K -> R -> bool) t : result (table K R) :=
  table_delete_all (keys_where p t) t.

(** [SELECT key .. ORDER BY access_sequence, key LIMIT 1]. *)
Definition table_oldest t : option K :=
  fst <$> least (fun '(k, r) => (row_sequence r, k)) (map_to_list (t_rows t)).

(** [Ok None] is [Ok(false)]. *)
Definition table_evict t : result (option (table K R)) :=
  match table_oldest t with
  | None => Ok None
  | Some k => let* t := table_delete k t in Ok (Some t)
  end.

Definition row_checks r : result () :=
  let* _ := check_nonneg [row_sequence r - 1; row_bytes r] in
  if row_check r then Ok () else Err SqlFailure.

(** Reading the usage row. *)
Definition read_usage t : result (Z * Z * Z) :=
  let* count := i64_to_usize (t_count t) in
  let* bytes := i64_to_usize (t_bytes t) in
  Ok (t_next t, count, bytes).

(** One round of an eviction loop that reads the usage row again. *)
Definition evict_and_reload (s : (Z * Z * Z) * table K R) : result (option ((Z * Z * Z) * table K R)) :=
  let* evicted := table_evict s.2 in
  match evicted with
  | None => Ok None
  | Some t => let* usage := read_usage t in Ok (Some (usage, t))
  end.

(** [INSERT] with the primary key, the CHECKs and the [AFTER INSERT] trigger. *)
Definition table_insert k r t : result (table K R) :=
  let* _ := row_checks r in
  match t_rows t !! k with
  | Some _ => Err SqlFailure
  | None => Ok (mk_table (t_next t) (t_count t + 1) (t_bytes t + row_bytes r)
                  (<[k := r]> (t_rows t)))
  end.

(** [UPDATE .. WHERE key = ?]: the number of rows changed, and the table.  No
    trigger watches updates. *)
Definition table_update k (f : R -> R) t : result (Z * table K R) :=
  match t_rows t !! k with
  | None => Ok (0, t)
  | Some r =>
    let* _ := row_checks (f r) in
    Ok (1, mk_table (t_next t) (t_count t) (t_bytes t) (<[k := f r]> (t_rows t)))
  end.

Definition table_next_sequence (overflow : string) t : result (Z * table K R) :=
  match i64_checked_add (t_next t) 1 with
  | None => Err (OperationFailure overflow)
  | Some next =>
    let* _ := check_nonneg [next] in
    Ok (next, mk_table next (t_count t) (t_bytes t) (t_rows t))
  end.

Definition max_sequence (m : gmap K R) : Z := map_fold (fun _ r acc => Z.max (row_sequence r) acc) 0 m.

(** The repair at open: the number of rows the statement changes, and the table. *)
Definition table_repair t : result (Z * table K R) :=
  let bytes := map_sum row_bytes (t_rows t) in
  if bytes <=? I64_MAX then
    let max := max_sequence (t_rows t) in
    if (t_next t <? max) || negb (t_count t =? row_count (t_rows t)) || negb (t_bytes t =? bytes)
    then Ok (1, mk_table (Z.max (t_next t) max) (row_count (t_rows t)) bytes (t_rows t))
    else Ok (0, t)
  else Err SqlFailure.

(** ** Well-formed tables *)
Record table_ok t : Prop := {
  tk_next : 0 <= t_next t <= I64_MAX;
  tk_rows : forall k r, t_rows t !! k = Some r ->
    1 <= row_sequence r <= t_next t /\ 0 <= row_bytes r /\ row_check r = true;
  tk_count : t_count t = row_count (t_rows t);
  tk_bytes : t_bytes t = map_sum row_bytes (t_rows t)
}.

(** [t'] is [t] after deletions. *)
Definition table_shrinks t t' : Prop := t_next t' = t_next t /\ t_rows t' ⊆ t_rows t.

#[export] Instance table_shrinks_preorder : PreOrder table_shrinks.
Proof.
  split; [by intros t|]. intros t1 t2 t3 [? ?] [? ?]. split; [congruence|by etrans].
Qed.

Lemma table_ok_nonneg t : table_ok t -> 0 <= t_count t /\ 0 <= t_bytes t.
Proof.
  intros Ht. rewrite (tk_count t Ht), (tk_bytes t Ht). split; [apply row_count_nonneg|].
  apply map_sum_nonneg. intros k r Hr. by destruct (tk_rows t Ht k r Hr) as (_ & ? & _).
Qed.

Lemma table_delete_ok k t : table_ok t ->
  exists t', table_delete k t = Ok t' /\ table_ok t' /\ t_next t' = t_next t
    /\ t_rows t' = delete k (t_rows t).
Proof.
  intros Ht. unfold table_delete. destruct (t_rows t !! k) as [r|] eqn:Hr.
  2:{ exists t. by rewrite delete_id. }
  pose proof (tk_count t Ht) as Hc. rewrite (row_count_delete _ k r Hr) in Hc.
  pose proof (tk_bytes t Ht) as Hb. rewrite (map_sum_delete _ _ k r Hr) in Hb.
  pose proof (row_count_nonneg (delete k (t_rows t))).
  assert (Hsub : forall j r', delete k (t_rows t) !! j = Some r' -> t_rows t !! j = Some r').
  { intros j r' Hj. by apply lookup_delete_Some in Hj as [_ Hj]. }
  assert (0 <= map_sum row_bytes (delete k (t_rows t))).
  { apply map_sum_nonneg. intros j r' Hj. by destruct (tk_rows t Ht j r' (Hsub j r' Hj)) as (_ & ? & _). }
  rewrite check_nonneg_ok by (repeat constructor; lia). simpl. eexists. split; [done|].
  split_and!; [|done|done]. destruct Ht as [? Hrows ? ?]. constructor; simpl; try done; try lia.
  intros j r' Hj. by apply (Hrows j), Hsub.
Qed.

Lemma table_delete_all_ok ks t : table_ok t ->
  exists t', table_delete_all ks t = Ok t' /\ table_ok t' /\ t_next t' = t_next t
    /\ forall k, t_rows t' !! k = if decide (k ∈ ks) then None else t_rows t !! k.
Proof.
  unfold table_delete_all. revert t. induction ks as [|j ks IH]; intros t Ht; simpl.
  { exists t. by split_and!. }
  destruct (table_delete_ok j t Ht) as (t1 & -> & Ht1 & Hn1 & Hr1).
  destruct (IH t1 Ht1) as (t2 & -> & Ht2 & Hn2 & Hr2).
  exists t2. split_and!; [done|done|congruence|].
  intros k. rewrite Hr2, Hr1. destruct (decide (k = j)) as [->|Hkj].
  - rewrite lookup_delete_eq. rewrite (decide_True (P := j ∈ j :: ks)) by (by left).
    by destruct (decide _).
  - rewrite lookup_delete_ne by done.
    destruct (decide (k ∈ ks)); [by rewrite decide_True by (by right)|].
    rewrite decide_False; [done|]. by intros [|]%elem_of_cons.
Qed.

Lemma elem_of_keys_where p t k :
  k ∈ keys_where p t <-> exists r, t_rows t !! k = Some r /\ p k r = true.
Proof.
  unfold keys_where. rewrite list_elem_of_fmap. split.
  - intros ([j r] & -> & [Hp Hj]%list_elem_of_In%filter_In). simpl.
    exists r. by apply list_elem_of_In, elem_of_map_to_list in Hp.
  - intros (r & Hr & Hp). exists (k, r). split; [done|].
    apply list_elem_of_In, filter_In. split; [|done].
    apply list_elem_of_In. by apply elem_of_map_to_list.
Qed.

Lemma table_delete_where_ok p t : table_ok t ->
  exists t', table_delete_where p t = Ok t' /\ table_ok t' /\ table_shrinks t t'
    /\ forall k r, t_rows t' !! k = Some r <-> t_rows t !! k = Some r /\ p k r = false.
Proof.
  intros Ht. destruct (table_delete_all_ok (keys_where p t) t Ht) as (t' & He & Ht' & Hn & Hl).
  exists t'.
  assert (Hspec : forall k r,
    t_rows t' !! k = Some r <-> t_rows t !! k = Some r /\ p k r = false).
  { intros k r. rewrite Hl. destruct (decide _) as [Hin|Hin];
      rewrite elem_of_keys_where in Hin; split.
    - done.
    - intros [Hr Hp]. destruct Hin as (r' & Hr' & Hp'). congruence.
    - intros Hr. split; [done|]. destruct (p k r) eqn:E; [|done].
      exfalso. apply Hin. by exists r.
    - by intros []. }
  split_and!; [done|done|split; [done|]|done].
  apply map_subseteq_spec. intros k r Hr. by apply Hspec.
Qed.

(** Eviction removes the row that was used least recently. *)
Lemma table_evict_ok t : table_ok t ->
  exists res, table_evict t = Ok res /\
    match res with
    | Some t' => table_ok t' /\ table_shrinks t t' /\ (size (t_rows t') < size (t_rows t))%nat
        /\ exists k r, t_rows t !! k = Some r /\ t_rows t' = delete k (t_rows t)
             /\ forall k' r', t_rows t !! k' = Some r' -> row_sequence r <= row_sequence r'
    | None => t_rows t = ∅
    end.
Proof.
  intros Ht. unfold table_evict, table_oldest.
  destruct (least _ _) as [[k r]|] eqn:Hl; simpl.
  - destruct (least_spec _ _ _ Hl) as [Hin Hmin]. apply elem_of_map_to_list in Hin.
    destruct (table_delete_ok k t Ht) as (t' & -> & Ht' & Hn & Hr). simpl.
    exists (Some t'). split_and!; [done|done|split; [done|rewrite Hr; apply delete_subseteq]| |].
    + rewrite Hr, map_size_delete_Some by eauto.
      assert (size (t_rows t) <> 0%nat); [|lia].
      intros Hz%map_size_empty_inv. by rewrite Hz, lookup_empty in Hin.
    + exists k, r. split_and!; [done|done|]. intros k' r' Hr'%elem_of_map_to_list.
      specialize (Hmin _ Hr'). simpl in Hmin. apply orb_false_iff in Hmin as [Hmin _].
      simpl in Hmin. bool_to_prop. lia.
  - exists None. split; [done|]. apply least_none in Hl. by apply map_to_list_empty_iff.
Qed.

Lemma read_usage_ok t : table_ok t -> read_usage t = Ok (t_next t, t_count t, t_bytes t).
Proof.
  intros Ht. destruct (table_ok_nonneg t Ht). unfold read_usage. by rewrite !i64_to_usize_ok by done.
Qed.

#[export, refine] Instance table_quota_store : QuotaStore evict_and_reload :=
  {| qs_wf s := table_ok s.2 /\ s.1 = (t_next s.2, t_count s.2, t_bytes s.2);
     qs_rows s := size (t_rows s.2) |}.
Proof.
  intros [u t] [Ht Hu]. simpl in *. unfold evict_and_reload. simpl.
  destruct (table_evict_ok t Ht) as (res & -> & Hres). simpl.
  destruct res as [t'|]; [|by eexists]. destruct Hres as (Ht' & _ & Hlt & _).
  rewrite (read_usage_ok t' Ht'). simpl. by eexists.
Defined.

(** Making room for a row of [bytes] under a quota that admits one such row
    always succeeds: it evicts, oldest first, until the row fits. *)
Lemma table_make_room max_count max_bytes bytes over t :
  table_ok t -> 1 <= max_count -> 0 <= bytes <= max_bytes ->
  (forall t, table_ok t -> over ((t_next t, t_count t, t_bytes t), t) = false <->
     t_count t < max_count /\ t_bytes t + bytes <= max_bytes) ->
  exists t', evict_while evict_and_reload over (S (size (t_rows t)))
      ((t_next t, t_count t, t_bytes t), t)
      = Done (Ok (inl ((t_next t', t_count t', t_bytes t'), t')))
    /\ table_ok t' /\ table_shrinks t t'
    /\ t_count t' < max_count /\ t_bytes t' + bytes <= max_bytes.
Proof.
  intros Ht Hmc Hb Hover.
  destruct (evict_while_spec evict_and_reload over (fun s => table_shrinks t s.2)
      (S (size (t_rows t))) ((t_next t, t_count t, t_bytes t), t))
    as [([u t'] & Hrun & [Ht' Hu] & Hs & Ho)|([u t'] & Hrun & [Ht' Hu] & Hs & Ho & Hnone)].
  - intros [u1 t1] [u2 t2] [Ht1 _] Hs He. simpl in *. unfold evict_and_reload in He. simpl in He.
    destruct (table_evict_ok t1 Ht1) as (res & He' & Hres). rewrite He' in He. simpl in He.
    destruct res as [t3|]; [|done]. destruct Hres as (Ht3 & Hs2 & _).
    rewrite (read_usage_ok t3 Ht3) in He. injection He as _ <-. by etrans.
  - done.
  - done.
  - simpl. lia.
  - simpl in *. subst u. exists t'. split_and!; [done..| |]; by apply Hover.
  - exfalso. simpl in *. subst u. unfold evict_and_reload in Hnone. simpl in Hnone.
    destruct (table_evict_ok t' Ht') as (res & He & Hres). rewrite He in Hnone. simpl in Hnone.
    destruct res as [t3|]; [destruct (read_usage t3); discriminate|].
    enough (over ((t_next t', t_count t', t_bytes t'), t') = false) by congruence.
    apply Hover; [done|].
    rewrite (tk_count t' Ht'), (tk_bytes t' Ht'), Hres, map_sum_empty.
    unfold row_count. rewrite map_size_empty. lia.
Qed.

Lemma row_checks_spec r :
  match row_checks r with
  | Ok _ => 1 <= row_sequence r /\ 0 <= row_bytes r /\ row_check r = true
  | Err _ => ~ (1 <= row_sequence r /\ 0 <= row_bytes r /\ row_check r = true)
  end.
Proof.
  unfold row_checks, check_nonneg. simpl.
  destruct (0 <=? row_sequence r - 1) eqn:E1, (0 <=? row_bytes r) eqn:E2; simpl; bool_to_prop;
    try lia. destruct (row_check r); [split_and!; [lia|lia|done]|intros (_ & _ & ?); done].
Qed.

Lemma table_insert_spec k r t : table_ok t -> row_sequence r <= t_next t ->
  t_rows t !! k = None ->
  match table_insert k r t with
  | Ok t' => table_ok t' /\ t_next t' = t_next t /\ t_rows t' = <[k := r]> (t_rows t)
      /\ t_count t' = t_count t + 1 /\ t_bytes t' = t_bytes t + row_bytes r
  | Err _ => ~ (1 <= row_sequence r /\ 0 <= row_bytes r /\ row_check r = true)
  end.
Proof.
  intros Ht Hseq Hk. unfold table_insert. pose proof (row_checks_spec r) as Hc.
  destruct (row_checks r); simpl; [|done]. rewrite Hk. simpl.
  destruct Ht as [? Hrows Hcount Hbytes]. split_and!; [|done..].
  constructor; simpl; rewrite ?row_count_insert, ?map_sum_insert by done; [done| |lia|lia].
  intros j r' [[<- <-]|[_ Hj]]%lookup_insert_Some; [|by apply (Hrows j)]. split; [lia|apply Hc].
Qed.

(** Updates keep the logical size of the row. *)
Lemma table_update_spec k f t r : table_ok t -> t_rows t !! k = Some r ->
  row_sequence (f r) <= t_next t -> row_bytes (f r) = row_bytes r ->
  match table_update k f t with
  | Ok (n, t') => n = 1 /\ table_ok t' /\ t_next t' = t_next t /\ t_count t' = t_count t
      /\ t_bytes t' = t_bytes t /\ t_rows t' = <[k := f r]> (t_rows t)
  | Err _ => ~ (1 <= row_sequence (f r) /\ row_check (f r) = true)
  end.
Proof.
  intros Ht Hk Hseq Hbytes. unfold table_update. rewrite Hk.
  pose proof (row_checks_spec (f r)) as Hc. destruct (tk_rows t Ht k r Hk) as (_ & Hb & _).
  destruct (row_checks (f r)); simpl; [|rewrite Hbytes in Hc; tauto].
  destruct Ht as [? Hrows Hcount Hsum]. split_and!; [done| |done..].
  constructor; simpl; [done| |by rewrite (row_count_replace _ k r)|].
  - intros j r' [[<- <-]|[_ Hj]]%lookup_insert_Some; [|by apply (Hrows j)]. split; [lia|apply Hc].
  - rewrite (map_sum_replace _ _ k r) by done. lia.
Qed.

Lemma table_next_sequence_spec overflow t : table_ok t ->
  match table_next_sequence overflow t with
  | Ok (next, t') => next = t_next t + 1 /\ table_ok t' /\ t_next t' = next
      /\ t_rows t' = t_rows t /\ t_count t' = t_count t /\ t_bytes t' = t_bytes t
  | Err _ => t_next t = I64_MAX
  end.
Proof.
  intros [Hn Hrows Hc Hb]. unfold table_next_sequence, i64_checked_add.
  destruct (_ && _) eqn:E.
  - bool_to_prop. rewrite check_nonneg_ok by (repeat constructor; lia). simpl.
    split_and!; [done| |done..]. constructor; simpl; [lia| |done|done].
    intros k r Hr. destruct (Hrows k r Hr) as ([? ?] & ? & ?). split_and!; [lia|lia|done|done].
  - apply andb_false_iff in E as [E|E]; bool_to_prop; [unfold I64_MIN in E|]; lia.
Qed.

Lemma max_sequence_bound m : 0 <= max_sequence m
  /\ forall k r, m !! k = Some r -> row_sequence r <= max_sequence m.
Proof.
  unfold max_sequence. induction m as [|k r m Hk IH] using map_ind.
  { rewrite map_fold_empty. split; [done|]. by intros k r; rewrite lookup_empty. }
  rewrite map_fold_insert_L; [|intros; lia|done]. destruct IH as [IH0 IH]. split; [lia|].
  intros j r' [[<- <-]|[_ Hj]]%lookup_insert_Some; [lia|]. specialize (IH j r' Hj). lia.
Qed.

Lemma max_sequence_le m b : 0 <= b ->
  (forall k r, m !! k = Some r -> row_sequence r <= b) -> max_sequence m <= b.
Proof.
  unfold max_sequence. intros Hb. induction m as [|k r m Hk IH] using map_ind; intros Hall.
  { by rewrite map_fold_empty. }
  rewrite map_fold_insert_L; [|intros; lia|done].
  pose proof (Hall k r (lookup_insert_eq _ _ _)).
  enough (map_fold (fun (_ : K) r acc => row_sequence r `max` acc) 0 m <= b) by lia.
  apply IH. intros j r' Hj. apply (Hall j). rewrite lookup_insert_ne; [done|congruence].
Qed.

(** The repair of a usage row at open makes it exact from any values it held: the count and
    byte total are those of the rows and the access counter is at least every row's, never
    smaller than it was; the rows are not touched; a usage row that was already exact is left
    alone, and a report of zero changes means nothing was written. *)
Theorem table_repair_correct t :
  match table_repair t with
  | Err _ => I64_MAX < map_sum row_bytes (t_rows t)
  | Ok (n, t') => t_rows t' = t_rows t /\ t_next t <= t_next t'
      /\ t_count t' = row_count (t_rows t) /\ t_bytes t' = map_sum row_bytes (t_rows t)
      /\ (forall k r, t_rows t' !! k = Some r -> row_sequence r <= t_next t')
      /\ (table_ok t -> n = 0) /\ (n = 0 -> t' = t)
  end.
Proof.
  unfold table_repair. destruct (max_sequence_bound (t_rows t)) as [Hm0 Hm].
  destruct (_ <=? I64_MAX) eqn:E; bool_to_prop; [|done].
  destruct (_ || _) eqn:Ho; simpl.
  - split_and!; [done|lia|done|done| | |lia].
    + intros k r Hr. specialize (Hm k r Hr). lia.
    + intros [Hn Hrows Hc Hb]. exfalso. rewrite Hc, Hb, !Z.eqb_refl in Ho. simpl in Ho.
      rewrite !orb_false_r in Ho. bool_to_prop.
      assert (max_sequence (t_rows t) <= t_next t); [|lia].
      apply max_sequence_le; [lia|]. intros k r Hr. by destruct (Hrows k r Hr) as ([_ ?] & _).
  - bool_to_prop. split_and!; [done|done|lia|lia| |done|done].
    intros k r Hr. specialize (Hm k r Hr). lia.
Qed.
End Table.
