(* ===== verification/DeltaStore.v ===== *)
(** * Persistent read-delta bases: [src/src/read_delta.rs], [src/src/storage/read_delta.rs]

    The content a caller was last given for a read target, kept so that the
    next read can answer with a difference.  The table is keyed by target and
    content hash and bounded by count and bytes; its shape is that of [Table].
    A text is the [string] of its UTF-8 bytes; [hash] stands for
    [text::hash], a BLAKE3 digest. *)

From S2P Require Import Prelude Order Store Receipt Table.
Open Scope Z_scope.
Open Scope store_scope.
Open Scope run_scope.

Definition MAX_READ_DELTA_BASES : Z := 128.
Definition MAX_READ_DELTA_BASE_BYTES : Z := 512 * 1024.
Definition MAX_TOTAL_READ_DELTA_BASE_BYTES : Z := 8 * 1024 * 1024.
Definition READ_DELTA_BASE_TTL_MILLIS : Z := 30 * 60 * 1000.
Definition READ_DELTA_TOUCH_INTERVAL_MILLIS : Z := 60 * 1000.

Record ReadDeltaBase := mk_base {
  content : string;
  generation : Z;
  target_start_line : Z;
  target_end_line : Z;
  returned_start_line : Z;
  returned_end_line : Z
}.

#[export] Instance ReadDeltaBase_eq_dec : EqDecision ReadDeltaBase.
Proof. solve_decision. Defined.

Definition base_logical_bytes (base : ReadDeltaBase) (target_key content_hash : string) : Z :=
  u64_saturating_add (u64_saturating_add (u64_saturating_add (7 * 8) (str_len target_key))
    (str_len content_hash)) (str_len (content base)).

(** ** The table *)
Record delta_row := mk_delta_row {
  d_base : ReadDeltaBase;
  d_created : Z;
  d_last_access : Z;
  d_expires : Z;
  d_sequence : Z;
  d_bytes : Z
}.

#[export] Instance delta_table_row : TableRow delta_row := {|
  row_sequence := d_sequence;
  row_bytes := d_bytes;
  row_check r :=
    let b := d_base r in
    (0 <=? generation b) && (0 <? target_start_line b)
    && (target_start_line b <=? target_end_line b)
    && (0 <? returned_start_line b) && (returned_start_line b <=? returned_end_line b)
    && (0 <=? d_created r) && (0 <=? d_last_access r) && (0 <=? d_expires r)
|}.

Abbreviation delta_table := (table (string * string) delta_row).

Section DeltaStore.
Variable hash : string -> string.

(** ** Statements *)
Definition base_of_row (r : delta_row) : result ReadDeltaBase :=
  let b := d_base r in
  let* g := i64_to_u64 (generation b) in
  let* ts := i64_to_usize (target_start_line b) in
  let* te := i64_to_usize (target_end_line b) in
  let* rs := i64_to_usize (returned_start_line b) in
  let* re := i64_to_usize (returned_end_line b) in
  Ok (mk_base (content b) g ts te rs re).

(** [READ_DELTA_EXACT] and [READ_DELTA_LATEST]. *)
Definition find_base (target_key : string) (content_hash : option string) (t : delta_table)
    : option (string * delta_row) :=
  match content_hash with
  | Some h => (fun r => (h, r)) <$> t_rows t !! (target_key, h)
  | None =>
    (fun '(k, r) => (k.2, r)) <$>
      least (fun '(k, r) => (- generation (d_base r), (- d_sequence r, k.2)))
        (List.filter (fun '(k, _) => bool_decide (k.1 = target_key)) (map_to_list (t_rows t)))
  end.

Definition load_read_delta_base (target_key : string) (content_hash : option string)
    (t : delta_table) : result (option (string * ReadDeltaBase * Z * Z)) :=
  match find_base target_key content_hash t with
  | None => Ok None
  | Some (h, r) =>
    let* base := base_of_row r in Ok (Some (h, base, d_created r, d_last_access r))
  end.

Definition prune_read_delta_bases (now : Z) (t : delta_table) : result delta_table :=
  table_delete_where (fun _ r => d_expires r <=? now) t.

Definition next_read_delta_access_sequence (t : delta_table) : result (Z * delta_table) :=
  table_next_sequence "read delta access sequence overflow" t.

Definition hash_mismatch : error :=
  OperationFailure "persistent read delta base hash mismatch".

(** ** [read_delta_base_with_clock] *)

(** The fast path on a reader connection: [Ok (Some answer)], or [Ok None] when
    the writer is needed. *)
Definition read_fast (target_key : string) (content_hash : option string) (now : Z)
    (t : delta_table) : result (option (option (string * ReadDeltaBase))) :=
  let* row := load_read_delta_base target_key content_hash t in
  match row with
  | None => Ok (Some None)
  | Some (h, base, created, last_access) =>
    let needs_stale_delete := (now <? created) || (now <? last_access) in
    let recently_touched :=
      i64_saturating_sub now last_access <? READ_DELTA_TOUCH_INTERVAL_MILLIS in
    if recently_touched && negb needs_stale_delete then
      if bool_decide (hash (content base) = h) then Ok (Some (Some (h, base)))
      else Err hash_mismatch
    else Ok None
  end.

Definition touch_row (now expires sequence : Z) (r : delta_row) : delta_row :=
  mk_delta_row (d_base r) (d_created r) now expires sequence (d_bytes r).

Definition read_slow (target_key : string) (content_hash : option string) (now : Z)
    (t : delta_table) : tx delta_table (option (string * ReadDeltaBase)) :=
  try! t := prune_read_delta_bases now t in
  try! row := load_read_delta_base target_key content_hash t in
  match row with
  | None => Committed t (Ok None)
  | Some (h, base, created, last_access) =>
    if (now <? created) || (now <? last_access) then
      try! t := table_delete (target_key, h) t in
      Committed t (Ok None)
    else if negb (bool_decide (hash (content base) = h)) then RolledBack hash_mismatch
    else if READ_DELTA_TOUCH_INTERVAL_MILLIS <=? i64_saturating_sub now last_access then
      try! (sequence, t) := next_read_delta_access_sequence t in
      try! (_, t) := table_update (target_key, h)
        (touch_row now (i64_saturating_add now READ_DELTA_BASE_TTL_MILLIS) sequence) t in
      Committed t (Ok (Some (h, base)))
    else Committed t (Ok (Some (h, base)))
  end.

(** The clock is read again once the writer is held, and other writers may
    have run in between: [t1] at [now1] is what the reader saw, [t2] at [now2]
    what the writer transaction finds. *)
Definition read_delta_base_with_clock (target_key : string) (content_hash : option string)
    (now1 : Z) (t1 : delta_table) (now2 : Z) (t2 : delta_table)
    : tx delta_table (option (string * ReadDeltaBase)) :=
  match read_fast target_key content_hash now1 t1 with
  | Err e => RolledBack e
  | Ok (Some answer) => Committed t2 (Ok answer)
  | Ok None => read_slow target_key content_hash now2 t2
  end.

(** ** [persist_read_delta_base_with_clock] *)
Definition store_columns (base : ReadDeltaBase) (content : string) : result ReadDeltaBase :=
  let* g := u64_to_i64 (generation base) in
  let* ts := usize_to_i64 (target_start_line base) in
  let* te := usize_to_i64 (target_end_line base) in
  let* rs := usize_to_i64 (returned_start_line base) in
  let* re := usize_to_i64 (returned_end_line base) in
  Ok (mk_base content g ts te rs re).

Definition same_position (stored base : ReadDeltaBase) : bool :=
  (generation stored =? generation base)
  && (target_start_line stored =? target_start_line base)
  && (target_end_line stored =? target_end_line base)
  && (returned_start_line stored =? returned_start_line base)
  && (returned_end_line stored =? returned_end_line base).

(** The branch for a base that is stored already: [Ok (inl t)] answers [true]
    at once, [Ok (inr t)] goes on to insert. *)
Definition refresh_existing (target_key content_hash : string) (base : ReadDeltaBase)
    (now expires : Z) (t : delta_table) : result (delta_table + delta_table) :=
  match t_rows t !! (target_key, content_hash) with
  | None => Ok (inr t)
  | Some r =>
    let* stored := base_of_row r in
    if negb (bool_decide (hash (content stored) = content_hash)) then Err hash_mismatch
    else if (now <? d_created r) || (now <? d_last_access r) then
      let* t := table_delete (target_key, content_hash) t in Ok (inr t)
    else if same_position stored base
            && (i64_saturating_sub now (d_last_access r) <? READ_DELTA_TOUCH_INTERVAL_MILLIS)
    then Ok (inl t)
    else
      let* (sequence, t) := next_read_delta_access_sequence t in
      let* columns := store_columns base (content stored) in
      let* (updated, t) := table_update (target_key, content_hash)
        (fun r => mk_delta_row columns (d_created r) now expires sequence (d_bytes r)) t in
      if negb (updated =? 1)
      then Err (OperationFailure "persistent read delta base update lost its row")
      else Ok (inl t)
  end.

Definition over_quota (bytes : Z) (s : (Z * Z * Z) * delta_table) : bool :=
  let '(_, count, total) := s.1 in
  negb ((count <? MAX_READ_DELTA_BASES)
        && (u64_saturating_add total bytes <=? MAX_TOTAL_READ_DELTA_BASE_BYTES)).

Definition insert_base (target_key content_hash : string) (base : ReadDeltaBase)
    (now expires bytes : Z) (t : delta_table) : result delta_table :=
  let* (sequence, t) := next_read_delta_access_sequence t in
  let* columns := store_columns base (content base) in
  let* bytes := usize_to_i64 bytes in
  table_insert (target_key, content_hash) (mk_delta_row columns now now expires sequence bytes) t.

Definition persist_read_delta_base_with_clock (target_key content_hash : string)
    (base : ReadDeltaBase) (now : Z) (t : delta_table) : run (tx delta_table bool) :=
  if MAX_READ_DELTA_BASE_BYTES <? str_len (content base) then Done (Committed t (Ok false))
  else if negb (bool_decide (hash (content base) = content_hash))
  then Done (RolledBack (OperationFailure "read delta base content hash mismatch"))
  else
    let bytes := base_logical_bytes base target_key content_hash in
    if MAX_TOTAL_READ_DELTA_BASE_BYTES <? bytes then Done (Committed t (Ok false))
    else if now <? 0
    then Done (RolledBack (OperationFailure "read delta base timestamp must be non-negative"))
    else
      match i64_checked_add now READ_DELTA_BASE_TTL_MILLIS with
      | None => Done (RolledBack (OperationFailure "read delta base expiry overflow"))
      | Some expires =>
        match (let* t := prune_read_delta_bases now t in
               refresh_existing target_key content_hash base now expires t) with
        | Err e => Done (RolledBack e)
        | Ok (inl t) => Done (Committed t (Ok true))
        | Ok (inr t) =>
          match read_usage t with
          | Err e => Done (RolledBack e)
          | Ok usage =>
            let? fitted := evict_while evict_and_reload (over_quota bytes)
              (S (size (t_rows t))) (usage, t) in
            Done (try! fitted := fitted in
                  match fitted with
                  | inr (_, t) => Committed t (Ok false)
                  | inl (_, t) =>
                    try! t := insert_base target_key content_hash base now expires bytes t in
                    Committed t (Ok true)
                  end)
          end
        end
      end.
End DeltaStore.

(** ** The store invariant *)
Section DeltaStoreFacts.
Variable hash : string -> string.

(** Positions that the columns accept. *)
Definition position_ok (b : ReadDeltaBase) : Prop :=
  0 <= generation b <= I64_MAX
  /\ 0 < target_start_line b <= target_end_line b /\ target_end_line b <= I64_MAX
  /\ 0 < returned_start_line b <= returned_end_line b /\ returned_end_line b <= I64_MAX.

Record delta_row_ok (k : string * string) (r : delta_row) : Prop := {
  dr_position : position_ok (d_base r);
  dr_hash : hash (content (d_base r)) = k.2;
  dr_times : 0 <= d_created r <= d_last_access r /\ d_last_access r <= I64_MAX;
  dr_expires : d_expires r = i64_saturating_add (d_last_access r) READ_DELTA_BASE_TTL_MILLIS
}.

Record delta_ok (t : delta_table) : Prop := {
  do_table : table_ok t;
  do_rows : forall k r, t_rows t !! k = Some r -> delta_row_ok k r;
  do_quota : t_count t <= MAX_READ_DELTA_BASES /\ t_bytes t <= MAX_TOTAL_READ_DELTA_BASE_BYTES
}.

(** The base was not written in the future and has not expired. *)
Definition live (now : Z) (r : delta_row) : Prop :=
  d_created r <= now /\ d_last_access r <= now < d_expires r.

(** ** Lemmas *)
Lemma delta_ok_shrinks t t' : delta_ok t -> table_ok t' -> table_shrinks t t' -> delta_ok t'.
Proof.
  intros [Ht Hrows [Hc Hb]] Ht' [_ Hsub]. constructor; [done| |].
  - intros k r Hr. apply Hrows. by eapply map_subseteq_spec.
  - destruct (map_sum_subseteq row_bytes _ _ Hsub) as [Hsum Hcount].
    { intros k r Hr. by destruct (tk_rows t Ht k r Hr) as (_ & ? & _). }
    rewrite (tk_count t' Ht'), (tk_bytes t' Ht'). rewrite (tk_count t Ht) in Hc.
    rewrite (tk_bytes t Ht) in Hb. lia.
Qed.

Lemma base_of_row_ok k r : delta_row_ok k r -> base_of_row r = Ok (d_base r).
Proof.
  intros [(Hg & Ht & _ & Hr & _) _ _ _]. unfold base_of_row.
  rewrite i64_to_u64_ok by lia. simpl. rewrite !i64_to_usize_ok by lia. simpl.
  by destruct (d_base r).
Qed.

Lemma row_check_inv r : row_check r = true -> 0 <= generation (d_base r)
  /\ 0 < target_start_line (d_base r) <= target_end_line (d_base r)
  /\ 0 < returned_start_line (d_base r) <= returned_end_line (d_base r).
Proof. simpl. intros Hc. bool_to_prop. lia. Qed.

Lemma store_columns_spec b c :
  match store_columns b c with
  | Ok b' => b' = mk_base c (generation b) (target_start_line b) (target_end_line b)
                    (returned_start_line b) (returned_end_line b)
      /\ (forall cr la ex sq by', row_check (mk_delta_row b' cr la ex sq by') = true -> position_ok b)
  | Err _ => ~ position_ok b
  end.
Proof.
  unfold store_columns, u64_to_i64, usize_to_i64, position_ok.
  repeat (destruct (_ <=? I64_MAX) eqn:?; simpl; bool_to_prop; [|lia]).
  split; [done|]. intros cr la ex sq by' Hc. bool_to_prop. lia.
Qed.

Lemma row_check_position r : position_ok (d_base r) ->
  0 <= d_created r -> 0 <= d_last_access r -> 0 <= d_expires r -> row_check r = true.
Proof.
  intros (Hg & Ht & _ & Hr & _) ? ? ?. simpl.
  rewrite !andb_true_iff, !Z.leb_le, !Z.ltb_lt. lia.
Qed.

(** The row a lookup finds, for one hash or for the latest. *)
Lemma find_base_spec key ch t h r : find_base key ch t = Some (h, r) ->
  t_rows t !! (key, h) = Some r
  /\ match ch with
     | Some h' => h = h'
     | None => forall h' r', t_rows t !! (key, h') = Some r' ->
         generation (d_base r') <= generation (d_base r)
     end.
Proof.
  unfold find_base. destruct ch as [h'|].
  - destruct (t_rows t !! (key, h')) eqn:Hr; [|done]. by intros [= <- <-].
  - destruct (least _ _) as [[[key' h0] r0]|] eqn:Hl; [|done]. simpl. intros [= -> ->].
    destruct (least_spec _ _ _ Hl) as [[Hin Hk]%list_elem_of_In%filter_In Hmin].
    apply list_elem_of_In, elem_of_map_to_list in Hin. apply bool_decide_eq_true in Hk. simpl in Hk.
    subst key'. split; [done|]. intros h' r' Hr'.
    specialize (Hmin ((key, h'), r')). simpl in Hmin.
    assert (Hlt : (- generation (d_base r') <? - generation (d_base r)) = false).
    { apply orb_false_iff in Hmin as [Hmin _]; [done|]. apply list_elem_of_In, filter_In.
      split; [by apply list_elem_of_In, elem_of_map_to_list|by apply bool_decide_eq_true]. }
    bool_to_prop. lia.
Qed.

Lemma load_read_delta_base_ok key ch t : delta_ok t ->
  load_read_delta_base key ch t = Ok ((fun '(h, r) => (h, d_base r, d_created r, d_last_access r))
    <$> find_base key ch t).
Proof.
  intros Ht. unfold load_read_delta_base. destruct (find_base key ch t) as [[h r]|] eqn:Hf; [|done].
  apply find_base_spec in Hf as [Hr _].
  by rewrite (base_of_row_ok (key, h) r (do_rows t Ht _ r Hr)).
Qed.

(** A row read within the touch interval has not expired: the fast path needs
    no expiry check. *)
Lemma recent_is_live k r now : delta_row_ok k r -> d_created r <= now -> d_last_access r <= now ->
  now < I64_MAX -> i64_saturating_sub now (d_last_access r) < READ_DELTA_TOUCH_INTERVAL_MILLIS ->
  live now r /\ now + READ_DELTA_BASE_TTL_MILLIS - READ_DELTA_TOUCH_INTERVAL_MILLIS < d_expires r
    \/ live now r /\ I64_MAX < now + READ_DELTA_BASE_TTL_MILLIS.
Proof.
  intros [_ _ [[? ?] ?] Hexp] Hc Hl Hmax Hrecent. unfold live. rewrite Hexp. clear Hexp.
  assert (Hi : 0 < READ_DELTA_TOUCH_INTERVAL_MILLIS < READ_DELTA_BASE_TTL_MILLIS) by done.
  revert Hi Hrecent. generalize READ_DELTA_TOUCH_INTERVAL_MILLIS as iv.
  generalize READ_DELTA_BASE_TTL_MILLIS as ttl. intros ttl iv Hi Hrecent.
  assert (HI : 0 < I64_MAX /\ I64_MIN < 0) by done. revert HI H0 Hmax Hrecent.
  unfold i64_saturating_sub, i64_saturating_add. generalize I64_MAX as mx.
  generalize I64_MIN as mn. lia.
Qed.

(** What an answer of the store promises: the base is a stored row of table [t] that was live at
    [now], its content has the hash it is filed under, and it is the requested or the latest one. *)
Definition sound_answer (key : string) (ch : option string) (now : Z) (t : delta_table)
    (h : string) (b : ReadDeltaBase) : Prop :=
  (exists r, t_rows t !! (key, h) = Some r /\ live now r /\ b = d_base r)
  /\ hash (content b) = h
  /\ match ch with
     | Some h' => h = h'
     | None => forall h' r', t_rows t !! (key, h') = Some r' -> now < d_expires r' ->
         generation (d_base r') <= generation b
     end.

Lemma read_fast_spec key ch now t : delta_ok t -> 0 <= now < I64_MAX ->
  match read_fast hash key ch now t with
  | Err _ => False
  | Ok None => True
  | Ok (Some None) => find_base key ch t = None
  | Ok (Some (Some (h, b))) => sound_answer key ch now t h b
  end.
Proof.
  intros Ht Hnow. unfold read_fast. rewrite (load_read_delta_base_ok key ch t Ht). simpl.
  destruct (find_base key ch t) as [[h r]|] eqn:Hf; simpl; [|done].
  destruct (find_base_spec key ch t h r Hf) as [Hr Hch].
  pose proof (do_rows t Ht _ r Hr) as Hrow.
  destruct (_ && _) eqn:Hrecent; [|done]. bool_to_prop.
  rewrite bool_decide_eq_true_2 by apply (dr_hash _ _ Hrow).
  split_and!; [|by apply (dr_hash _ _ Hrow)|].
  - exists r. split_and!; [done| |done].
    destruct (recent_is_live (key, h) r now) as [[? _]|[? _]]; done || lia.
  - destruct ch; [done|]. intros h' r' Hr' _. by apply (Hch h').
Qed.

Lemma delta_row_check k r : delta_row_ok k r -> row_check r = true.
Proof.
  intros [Hp _ [[? ?] ?] Hexp]. apply row_check_position; [done|lia|lia|]. rewrite Hexp.
  assert (0 < READ_DELTA_BASE_TTL_MILLIS /\ 0 < I64_MAX) by done.
  unfold i64_saturating_add. generalize dependent READ_DELTA_BASE_TTL_MILLIS.
  generalize dependent I64_MAX. lia.
Qed.

(** Taking a sequence number and rewriting a row with it. *)
Lemma next_and_update k r (g : Z -> delta_row -> delta_row) t :
  delta_ok t -> t_rows t !! k = Some r -> t_next t < I64_MAX ->
  (forall s, delta_row_ok k (g s r) /\ d_sequence (g s r) = s /\ d_bytes (g s r) = d_bytes r) ->
  exists t1 t2, next_read_delta_access_sequence t = Ok (t_next t + 1, t1)
    /\ table_update k (g (t_next t + 1)) t1 = Ok (1, t2)
    /\ delta_ok t2 /\ t_rows t2 = <[k := g (t_next t + 1) r]> (t_rows t).
Proof.
  intros Ht Hr Hseq Hg. unfold next_read_delta_access_sequence.
  pose proof (table_next_sequence_spec "read delta access sequence overflow" t (do_table t Ht)) as Hn.
  destruct (table_next_sequence _ t) as [[n t1]|]; [|lia].
  destruct Hn as (-> & Ht1 & Hn1 & Hr1 & Hc1 & Hb1). destruct (Hg (t_next t + 1)) as (Hok & Hs & Hb).
  exists t1. pose proof (tk_next t (do_table t Ht)).
  pose proof (table_update_spec k (g (t_next t + 1)) t1 r Ht1) as Hu.
  destruct (table_update _ _ _) as [[m t2]|].
  - destruct Hu as (-> & Ht2 & _ & Hc2 & Hb2 & Hr2); [by rewrite Hr1|simpl; lia|done|].
    exists t2. split_and!; [done|done| |by rewrite Hr2, Hr1].
    destruct Ht as [_ Hrows Hq]. constructor; [done| |rewrite Hc2, Hb2; lia].
    intros k' r'. rewrite Hr2, Hr1.
    intros [[<- <-]|[_ Hk]]%lookup_insert_Some; [done|by apply Hrows].
  - exfalso. apply Hu; [by rewrite Hr1|simpl; lia|done|]. simpl row_sequence. rewrite Hs.
    split; [lia|by apply (delta_row_check k)].
Qed.

Lemma prune_read_delta_ok now t : delta_ok t ->
  exists t', prune_read_delta_bases now t = Ok t' /\ delta_ok t' /\ table_shrinks t t'
    /\ forall k r, t_rows t' !! k = Some r <-> t_rows t !! k = Some r /\ now < d_expires r.
Proof.
  intros Ht. destruct (table_delete_where_ok (fun _ r => d_expires r <=? now) t (do_table t Ht))
    as (t' & He & Ht' & Hs & Hspec). exists t'. split_and!; [done|by eapply delta_ok_shrinks|done|].
  intros k r. by rewrite Hspec, Z.leb_gt.
Qed.

Lemma delete_base_ok k t : delta_ok t -> exists t', table_delete k t = Ok t' /\ delta_ok t'
  /\ t_next t' = t_next t /\ t_rows t' = delete k (t_rows t).
Proof.
  intros Ht. destruct (table_delete_ok k t (do_table t Ht)) as (t' & He & Ht' & Hn & Hr).
  exists t'. split_and!; [done| |done|done]. eapply delta_ok_shrinks; [done..|].
  split; [done|]. rewrite Hr. apply delete_subseteq.
Qed.

Lemma touch_row_ok k r now s : delta_row_ok k r -> 0 <= now <= I64_MAX -> d_created r <= now ->
  delta_row_ok k (touch_row now (i64_saturating_add now READ_DELTA_BASE_TTL_MILLIS) s r).
Proof. intros [? ? ? ?] ? ?. constructor; simpl; [done|done|lia|done]. Qed.

Lemma read_slow_spec key ch now t : delta_ok t -> 0 <= now <= I64_MAX ->
  let out := read_slow hash key ch now t in
  delta_ok (run_tx t out).1 /\
  match (run_tx t out).2 with
  | Err _ => t_next t = I64_MAX
  | Ok None => match ch with
               | Some h => forall r, t_rows t !! (key, h) = Some r -> ~ live now r
               | None => True
               end
  | Ok (Some (h, b)) => sound_answer key ch now t h b
  end.
Proof.
  intros Ht Hnow. cbv zeta. unfold read_slow.
  destruct (prune_read_delta_ok now t Ht) as (t1 & -> & Ht1 & [Hn1 _] & Hrows). simpl.
  rewrite (load_read_delta_base_ok key ch t1 Ht1). simpl.
  destruct (find_base key ch t1) as [[h r]|] eqn:Hf; simpl.
  2:{ split; [done|]. destruct ch as [h|]; [|done]. intros r Hr (_ & _ & Hx).
      simpl in Hf. by rewrite (proj2 (Hrows (key, h) r) (conj Hr Hx)) in Hf. }
  destruct (find_base_spec key ch t1 h r Hf) as [Hr1 Hch].
  destruct (proj1 (Hrows (key, h) r) Hr1) as [Hr Hexp].
  pose proof (do_rows t1 Ht1 _ r Hr1) as Hrow.
  destruct (_ || _) eqn:Hstale.
  { destruct (delete_base_ok (key, h) t1 Ht1) as (t2 & -> & Ht2 & _). simpl. split; [done|].
    destruct ch as [h'|]; [|done]. subst h'. intros r' Hr' (Hc & Hl & _).
    assert (r' = r) as -> by congruence. apply orb_true_iff in Hstale as [?|?]; bool_to_prop; lia. }
  bool_to_prop. rewrite bool_decide_eq_true_2 by apply (dr_hash _ _ Hrow). simpl.
  assert (Hans : sound_answer key ch now t h (d_base r)).
  { split_and!; [|by apply (dr_hash _ _ Hrow)|].
    - exists r. split_and!; [done| |done]. unfold live. lia.
    - destruct ch; [done|]. intros h' r' Hr' Hx. apply (Hch h'). by apply Hrows. }
  destruct (_ <=? _) eqn:Htouch; simpl; [|done].
  destruct (Z.eq_dec (t_next t) I64_MAX) as [Hmax|Hmax].
  - unfold next_read_delta_access_sequence.
    pose proof (table_next_sequence_spec "read delta access sequence overflow" t1 (do_table t1 Ht1))
      as Hn. destruct (table_next_sequence _ t1) as [[n t2]|]; [|by split].
    exfalso. destruct Hn as (-> & Ht2 & Hn2 & _). pose proof (tk_next t2 Ht2). lia.
  - pose proof (tk_next t (do_table t Ht)).
    destruct (next_and_update (key, h) r
      (touch_row now (i64_saturating_add now READ_DELTA_BASE_TTL_MILLIS)) t1) as
      (t2 & t3 & -> & Hup & Ht3 & _); [done|done|lia| |].
    { intros s. split_and!; [by apply touch_row_ok|done|done]. }
    simpl. rewrite Hup. by split.
Qed.

Lemma same_position_spec stored base : same_position stored base = true <->
  generation stored = generation base /\ target_start_line stored = target_start_line base
  /\ target_end_line stored = target_end_line base
  /\ returned_start_line stored = returned_start_line base
  /\ returned_end_line stored = returned_end_line base.
Proof. unfold same_position. rewrite !andb_true_iff, !Z.eqb_eq. tauto. Qed.

(** The base is on file: at its position, with the hash's content, and it stays
    live for the TTL less the touch interval. *)
Definition on_file (k : string * string) (base : ReadDeltaBase) (now : Z) (t : delta_table) : Prop :=
  exists r, t_rows t !! k = Some r /\ same_position (d_base r) base = true
    /\ hash (content (d_base r)) = k.2 /\ d_created r <= now /\ d_last_access r <= now
    /\ now + READ_DELTA_BASE_TTL_MILLIS - READ_DELTA_TOUCH_INTERVAL_MILLIS < d_expires r.

(** Why a base cannot be written. *)
Definition unwritable (base : ReadDeltaBase) (t : delta_table) : Prop :=
  t_next t = I64_MAX \/ ~ position_ok base.

(** Any row that gets written for the base at [now] is well formed. *)
Lemma written_row_ok k base columns c created now seq bytes :
  store_columns base c = Ok columns -> hash c = k.2 -> position_ok base ->
  0 <= created <= now -> now + READ_DELTA_BASE_TTL_MILLIS <= I64_MAX ->
  delta_row_ok k (mk_delta_row columns created now (now + READ_DELTA_BASE_TTL_MILLIS) seq bytes).
Proof.
  intros Hcol Hhash Hpos Hcr Hnow. pose proof (store_columns_spec base c) as Hs.
  rewrite Hcol in Hs. destruct Hs as [-> _].
  assert (0 < READ_DELTA_BASE_TTL_MILLIS /\ I64_MIN < 0) by done.
  constructor; simpl; [done|done|lia|].
  unfold i64_saturating_add. generalize dependent READ_DELTA_BASE_TTL_MILLIS.
  generalize dependent I64_MAX. generalize dependent I64_MIN. lia.
Qed.

Lemma on_file_written k base columns c created now seq bytes t :
  store_columns base c = Ok columns -> hash c = k.2 -> created <= now ->
  t_rows t !! k
    = Some (mk_delta_row columns created now (now + READ_DELTA_BASE_TTL_MILLIS) seq bytes) ->
  on_file k base now t.
Proof.
  intros Hcol Hhash Hcr Hr. pose proof (store_columns_spec base c) as Hs.
  rewrite Hcol in Hs. destruct Hs as [-> _]. eexists. split; [done|].
  assert (0 < READ_DELTA_TOUCH_INTERVAL_MILLIS) by done. simpl.
  split_and!; [by apply same_position_spec|done|done|lia|lia].
Qed.

Lemma refresh_existing_spec key ch base now t :
  delta_ok t -> 0 <= now -> now + READ_DELTA_BASE_TTL_MILLIS <= I64_MAX ->
  match refresh_existing hash key ch base now (now + READ_DELTA_BASE_TTL_MILLIS) t with
  | Err _ => unwritable base t
  | Ok (inl t') => delta_ok t' /\ on_file (key, ch) base now t'
  | Ok (inr t') => delta_ok t' /\ t_next t' = t_next t /\ t_rows t' !! (key, ch) = None
  end.
Proof.
  intros Ht Hn Hx. unfold refresh_existing.
  assert (Httl : 0 < READ_DELTA_BASE_TTL_MILLIS) by done.
  destruct (t_rows t !! (key, ch)) as [r|] eqn:Hr; [|done].
  pose proof (do_rows t Ht _ r Hr) as Hrow.
  rewrite (base_of_row_ok _ r Hrow). simpl.
  rewrite bool_decide_eq_true_2 by apply (dr_hash _ _ Hrow). simpl.
  destruct (_ || _) eqn:Hstale.
  { destruct (delete_base_ok (key, ch) t Ht) as (t' & -> & Ht' & Hn' & Hr'). simpl.
    split_and!; [done|done|]. rewrite Hr'. apply lookup_delete_eq. }
  bool_to_prop. destruct (_ && _) eqn:Hsame.
  { bool_to_prop. split; [done|]. exists r.
    split_and!; [done|done|by apply (dr_hash _ _ Hrow)|done|done|].
    destruct (recent_is_live (key, ch) r now) as [[_ ?]|[_ ?]]; done || lia. }
  clear Hsame. unfold next_read_delta_access_sequence.
  pose proof (table_next_sequence_spec "read delta access sequence overflow" t (do_table t Ht)) as Hns.
  destruct (table_next_sequence _ t) as [[n t1]|] eqn:Ens; simpl; [|by left].
  destruct Hns as (Hn1 & Ht1 & Hnext1 & Hr1 & Hc1 & Hb1). subst n.
  pose proof (store_columns_spec base (content (d_base r))) as Hcol.
  destruct (store_columns base (content (d_base r))) as [columns|] eqn:Ecol; simpl; [|by right].
  set (g := fun s r => mk_delta_row columns (d_created r) now (now + READ_DELTA_BASE_TTL_MILLIS) s
                         (d_bytes r)).
  pose proof (table_update_spec (key, ch) (g (t_next t + 1)) t1 r Ht1) as Hu. fold (g (t_next t + 1)).
  destruct (table_update _ _ t1) as [[m t2]|] eqn:Eup; simpl.
  - destruct Hu as (-> & Ht2 & Hn2 & Hc2 & Hb2 & Hr2); [by rewrite Hr1|simpl; lia|done|].
    assert (Hlook : t_rows t2 !! (key, ch) = Some (g (t_next t + 1) r))
      by (by rewrite Hr2, lookup_insert_eq).
    destruct (tk_rows t2 Ht2 _ _ Hlook) as (_ & _ & Hcheck). simpl.
    assert (Hpos : position_ok base) by (by eapply (proj2 Hcol)).
    pose proof (dr_times _ _ Hrow) as Htimes. pose proof (dr_hash _ _ Hrow) as Hhash.
    split; [|by eapply (on_file_written (key, ch) base columns (content (d_base r)) (d_created r))].
    destruct Ht as [_ Hrows Hq]. constructor; [done| |rewrite Hc2, Hb2; lia].
    intros k' r'. rewrite Hr2, Hr1.
    intros [[<- <-]|[_ Hk]]%lookup_insert_Some; [|by apply Hrows].
    by apply (written_row_ok (key, ch) base columns (content (d_base r))); [..|lia|].
  - right. intros Hpos. apply Hu; [by rewrite Hr1|simpl; lia|done|].
    pose proof (tk_next t (do_table t Ht)). split; [simpl; lia|].
    apply (delta_row_check (key, ch)). pose proof (dr_times _ _ Hrow) as Htimes.
    apply (written_row_ok (key, ch) base columns (content (d_base r)));
      [done|apply (dr_hash _ _ Hrow)|done|lia|done].
Qed.

Lemma base_bytes_nonneg base key ch : 0 <= base_logical_bytes base key ch.
Proof. unfold base_logical_bytes, str_len. ints. Qed.

Lemma insert_base_spec key ch base now bytes t :
  delta_ok t -> 0 <= now -> now + READ_DELTA_BASE_TTL_MILLIS <= I64_MAX ->
  hash (content base) = ch -> 0 <= bytes -> t_rows t !! (key, ch) = None ->
  t_count t < MAX_READ_DELTA_BASES -> t_bytes t + bytes <= MAX_TOTAL_READ_DELTA_BASE_BYTES ->
  match insert_base key ch base now (now + READ_DELTA_BASE_TTL_MILLIS) bytes t with
  | Ok t' => delta_ok t' /\ on_file (key, ch) base now t'
  | Err _ => unwritable base t
  end.
Proof.
  intros Ht Hn Hx Hhash Hb0 Hfree Hc Hb. unfold insert_base, next_read_delta_access_sequence.
  pose proof (table_next_sequence_spec "read delta access sequence overflow" t (do_table t Ht)) as Hns.
  destruct (table_next_sequence _ t) as [[n t1]|] eqn:Ens; simpl; [|by left].
  destruct Hns as (Hn1 & Ht1 & Hnext1 & Hr1 & Hc1 & Hb1). subst n.
  pose proof (store_columns_spec base (content base)) as Hcol.
  destruct (store_columns base (content base)) as [columns|] eqn:Ecol; simpl; [|by right].
  destruct (table_ok_nonneg t (do_table t Ht)) as [_ Hb0'].
  rewrite usize_to_i64_ok.
  2:{ assert (MAX_TOTAL_READ_DELTA_BASE_BYTES <= I64_MAX) by done. lia. }
  simpl.
  pose proof (table_insert_spec (key, ch) (mk_delta_row columns now now
    (now + READ_DELTA_BASE_TTL_MILLIS) (t_next t + 1) bytes) t1 Ht1) as Hins.
  destruct (table_insert _ _ t1) as [t2|].
  - destruct Hins as (Ht2 & Hn2 & Hr2 & Hc2 & Hb2); [simpl; lia|by rewrite Hr1|].
    assert (Hlook := lookup_insert_eq (t_rows t1) (key, ch) (mk_delta_row columns now now
      (now + READ_DELTA_BASE_TTL_MILLIS) (t_next t + 1) bytes)). rewrite <-Hr2 in Hlook.
    destruct (tk_rows t2 Ht2 _ _ Hlook) as (_ & _ & Hcheck).
    assert (Hpos : position_ok base) by (by eapply (proj2 Hcol)).
    split; [|by eapply (on_file_written (key, ch) base columns (content base) now); [..|lia|]].
    destruct Ht as [_ Hrows Hq]. constructor; [done| |simpl in Hb2; lia].
    intros k' r'. rewrite Hr2, Hr1.
    intros [[<- <-]|[_ Hk]]%lookup_insert_Some; [|by apply Hrows].
    by apply (written_row_ok (key, ch) base columns (content base)); [..|lia|].
  - right. intros Hpos. apply Hins; [simpl; lia|by rewrite Hr1|].
    pose proof (tk_next t (do_table t Ht)). split_and!; [simpl; lia|done|].
    apply (delta_row_check (key, ch)).
    by apply (written_row_ok (key, ch) base columns (content base)); [..|lia|].
Qed.

Lemma over_quota_iff bytes t :
  over_quota bytes ((t_next t, t_count t, t_bytes t), t) = false <->
  t_count t < MAX_READ_DELTA_BASES /\ t_bytes t + bytes <= MAX_TOTAL_READ_DELTA_BASE_BYTES.
Proof.
  unfold over_quota. simpl. rewrite negb_false_iff, andb_true_iff, Z.ltb_lt, Z.leb_le.
  by rewrite u64_saturating_add_le.
Qed.

Lemma persist_read_delta_base_spec key ch base now t :
  delta_ok t -> now <= I64_MAX ->
  exists out, persist_read_delta_base_with_clock hash key ch base now t = Done out
    /\ delta_ok (run_tx t out).1 /\
    match (run_tx t out).2 with
    | Ok true => on_file (key, ch) base now (run_tx t out).1
    | Ok false => (MAX_READ_DELTA_BASE_BYTES < str_len (content base)
                  \/ MAX_TOTAL_READ_DELTA_BASE_BYTES < base_logical_bytes base key ch)
                  /\ (run_tx t out).1 = t
    | Err _ => hash (content base) <> ch \/ now < 0
               \/ I64_MAX < now + READ_DELTA_BASE_TTL_MILLIS \/ unwritable base t
    end.
Proof.
  intros Ht Hnow. unfold persist_read_delta_base_with_clock.
  destruct (_ <? str_len _) eqn:Hlen; bool_to_prop.
  { eexists. split; [done|]. split; [done|]. simpl. by split; [left|]. }
  destruct (bool_decide_reflect (hash (content base) = ch)) as [Hhash|Hhash]; simpl.
  2:{ eexists. split; [done|]. split; [done|]. by left. }
  destruct (_ <? base_logical_bytes _ _ _) eqn:Hbytes; bool_to_prop.
  { eexists. split; [done|]. split; [done|]. simpl. by split; [right|]. }
  destruct (now <? 0) eqn:Hn; bool_to_prop.
  { eexists. split; [done|]. split; [done|]. by right; left. }
  assert (Httl : 0 < READ_DELTA_BASE_TTL_MILLIS) by done.
  unfold i64_checked_add. destruct (_ && _) eqn:Hx.
  2:{ eexists. split; [done|]. split; [done|]. right; right; left.
      apply andb_false_iff in Hx as [Hx|Hx]; bool_to_prop; [unfold I64_MIN in *|]; lia. }
  bool_to_prop. destruct (prune_read_delta_ok now t Ht) as (t1 & -> & Ht1 & [Hn1 _] & _). simpl.
  assert (Hunw : forall t', t_next t' = t_next t -> unwritable base t' -> unwritable base t).
  { unfold unwritable. intros t' -> . done. }
  pose proof (refresh_existing_spec key ch base now t1 Ht1 Hn) as Href.
  destruct (refresh_existing _ _ _ _ _ _ t1) as [[t2|t2]|]; simpl.
  - eexists. split; [done|]. simpl. by apply Href.
  - destruct Href as (Ht2 & Hn2 & Hfree); [done|].
    rewrite (read_usage_ok t2 (do_table t2 Ht2)).
    pose proof (base_bytes_nonneg base key ch) as Hb0.
    destruct (table_make_room MAX_READ_DELTA_BASES MAX_TOTAL_READ_DELTA_BASE_BYTES
      (base_logical_bytes base key ch) (over_quota (base_logical_bytes base key ch)) t2
      (do_table t2 Ht2)) as (t3 & Hrun & Ht3 & Hs3 & Hc3 & Hb3);
      [done|done|intros; apply over_quota_iff|].
    rewrite Hrun. simpl. eexists. split; [done|].
    assert (Hd3 : delta_ok t3) by (by eapply delta_ok_shrinks).
    pose proof (insert_base_spec key ch base now (base_logical_bytes base key ch) t3 Hd3 Hn) as Hins.
    destruct (insert_base _ _ _ _ _ _ t3) as [t4|]; simpl.
    + apply Hins; try done. destruct Hs3 as [_ Hsub].
      destruct (t_rows t3 !! (key, ch)) eqn:E; [|done].
      by rewrite (lookup_weaken _ _ _ _ E Hsub) in Hfree.
    + split; [done|]. do 3 right. eapply Hunw; [|apply Hins]; try done.
      * destruct Hs3. congruence.
      * destruct Hs3 as [_ Hsub]. destruct (t_rows t3 !! (key, ch)) eqn:E; [|done].
        by rewrite (lookup_weaken _ _ _ _ E Hsub) in Hfree.
  - eexists. split; [done|]. split; [done|]. do 3 right. eapply Hunw; [|by apply Href]. done.
Qed.

(** C20: storing a base always returns and keeps the store well formed, its two quotas included.
    The answer [true] means that the base is on file afterwards, at its position, under its hash
    and live for at least the TTL less the touch interval; [false] means that it is too large to
    store, and nothing else; an error that it has another hash, that the clock is out of range,
    that its lines do not fit the columns or that the access counter is exhausted. *)
Theorem persist_read_delta_base_correct key ch base now t :
  delta_ok t -> now <= I64_MAX ->
  exists out, persist_read_delta_base_with_clock hash key ch base now t = Done out
    /\ delta_ok (run_tx t out).1 /\
    match (run_tx t out).2 with
    | Ok true => on_file (key, ch) base now (run_tx t out).1
    | Ok false => (MAX_READ_DELTA_BASE_BYTES < str_len (content base)
                  \/ MAX_TOTAL_READ_DELTA_BASE_BYTES < base_logical_bytes base key ch)
                  /\ (run_tx t out).1 = t
    | Err _ => hash (content base) <> ch \/ now < 0
               \/ I64_MAX < now + READ_DELTA_BASE_TTL_MILLIS \/ unwritable base t
    end.
Proof. apply persist_read_delta_base_spec. Qed.

Lemma read_delta_base_spec key ch now1 t1 now2 t2 :
  delta_ok t1 -> delta_ok t2 -> 0 <= now1 < I64_MAX -> 0 <= now2 <= I64_MAX ->
  let out := read_delta_base_with_clock hash key ch now1 t1 now2 t2 in
  delta_ok (run_tx t2 out).1 /\
  match (run_tx t2 out).2 with
  | Err _ => t_next t2 = I64_MAX
  | Ok None => match ch with
               | Some h => t_rows t1 !! (key, h) = None
                           \/ forall r, t_rows t2 !! (key, h) = Some r -> ~ live now2 r
               | None => True
               end
  | Ok (Some (h, b)) => sound_answer key ch now1 t1 h b \/ sound_answer key ch now2 t2 h b
  end.
Proof.
  intros Ht1 Ht2 Hnow1 Hnow2. cbv zeta. unfold read_delta_base_with_clock.
  pose proof (read_fast_spec key ch now1 t1 Ht1 Hnow1) as Hfast.
  destruct (read_fast hash key ch now1 t1) as [[[[h b]|]|]|]; simpl; [by split; [|left]| | |done].
  - split; [done|]. destruct ch as [h|]; [left|done].
    simpl in Hfast. by destruct (t_rows t1 !! (key, h)).
  - destruct (read_slow_spec key ch now2 t2 Ht2 Hnow2) as [Hok Hres]. split; [done|].
    destruct (run_tx t2 (read_slow hash key ch now2 t2)).2 as [[[h b]|]|]; [by right| |done].
    destruct ch; [by right|done].
Qed.

(** A read of a stored base is sound and keeps the store well formed.  Whatever the writers do
    between the reader's snapshot and the writer's transaction, an answer is a stored, unexpired
    base, not from the future, whose content has the hash it is filed under: the requested one, or
    the newest generation of the target.  The lookup by hash only misses a base that the snapshot
    does not hold or that is not live, and the only error is an exhausted access counter. *)
Theorem read_delta_base_sound key ch now1 t1 now2 t2 :
  delta_ok t1 -> delta_ok t2 -> 0 <= now1 < I64_MAX -> 0 <= now2 <= I64_MAX ->
  let out := read_delta_base_with_clock hash key ch now1 t1 now2 t2 in
  delta_ok (run_tx t2 out).1 /\
  match (run_tx t2 out).2 with
  | Err _ => t_next t2 = I64_MAX
  | Ok None => match ch with
               | Some h => t_rows t1 !! (key, h) = None
                           \/ forall r, t_rows t2 !! (key, h) = Some r -> ~ live now2 r
               | None => True
               end
  | Ok (Some (h, b)) => sound_answer key ch now1 t1 h b \/ sound_answer key ch now2 t2 h b
  end.
Proof. apply read_delta_base_spec. Qed.
End DeltaStoreFacts.

(** ** Witnesses: the identity as a collision-free hash *)
Definition example_base : ReadDeltaBase := mk_base "old" 3 1 9 1 4.
Definition example_delta_row : delta_row := mk_delta_row example_base 1000 2000 1802000 4 65.
Definition example_table : delta_table :=
  mk_table 4 1 65 {[ ("a.rs", "old") := example_delta_row ]}.

Lemma example_table_ok : delta_ok (fun s => s) example_table.
Proof.
  assert (Hone : forall k r, t_rows example_table !! k = Some r ->
    k = ("a.rs"%string, "old"%string) /\ r = example_delta_row).
  { intros k r Hr.
    change (({[("a.rs"%string, "old"%string) := example_delta_row]} : gmap _ delta_row) !! k = Some r)
      in Hr. by apply lookup_singleton_Some in Hr as [<- <-]. }
  constructor.
  - constructor; [vm_compute; split; discriminate| |reflexivity|reflexivity].
    intros k r [-> ->]%Hone. split_and!; [vm_compute; discriminate|vm_compute; discriminate
      |vm_compute; discriminate|reflexivity].
  - intros k r [-> ->]%Hone. constructor;
      [split_and!; vm_compute; (discriminate || reflexivity)|reflexivity
      |split_and!; vm_compute; discriminate|reflexivity].
  - split; vm_compute; discriminate.
Qed.

Lemma read_delta_base_sound_witness :
  match (run_tx example_table (read_delta_base_with_clock (fun s => s) "a.rs" None
           70000 example_table 70000 example_table)).2 with
  | Ok (Some (h, b)) => b = example_base
      /\ (sound_answer (fun s => s) "a.rs" None 70000 example_table h b
          \/ sound_answer (fun s => s) "a.rs" None 70000 example_table h b)
  | _ => False
  end.
Proof.
  destruct (read_delta_base_sound (fun s => s) "a.rs" None 70000 example_table 70000 example_table
    example_table_ok example_table_ok ltac:(vm_compute; split; [discriminate|reflexivity])
    ltac:(vm_compute; split; discriminate)) as [_ Hres].
  destruct (run_tx _ _).2 as [[[h b]|]|] eqn:E; try (vm_compute in E; discriminate).
  split; [|exact Hres]. vm_compute in E. injection E as _ <-. reflexivity.
Defined.

Lemma persist_read_delta_base_correct_witness :
  exists out, persist_read_delta_base_with_clock (fun s => s) "a.rs" "new"
      (mk_base "new" 4 1 9 1 4) 70000 example_table = Done out
    /\ delta_ok (fun s => s) (run_tx example_table out).1.
Proof.
  destruct (persist_read_delta_base_correct (fun s => s) "a.rs" "new" (mk_base "new" 4 1 9 1 4) 70000
    example_table example_table_ok ltac:(vm_compute; discriminate)) as (out & Hout & Hok & _).
  exists out. split; [exact Hout|exact Hok].
Defined.
