(* ===== verification/Paths.v ===== *)
(** * Repository paths, patterns and the index scope

    [src/src/repository/path.rs], [src/src/repository/scope.rs] and the
    visibility policy of [src/src/repository/discovery.rs].  A path is its
    string of characters.  The globset crate is a parameter: which glob
    patterns it accepts ([glob_valid]) and what they match ([glob_match]); so is
    the BLAKE3 digest of the scope, as a function of the characters hashed. *)

From S2P Require Import Prelude Chars Order Store.
Open Scope Z_scope.
Open Scope store_scope.

Definition MAX_REPOSITORY_PATTERNS : Z := 256.
Definition MAX_REPOSITORY_PATH_BYTES : Z := 4 * 1024.
Definition MAX_INDEX_SCOPE_PATTERNS : Z := 64.
Definition MAX_INDEX_SCOPE_PATTERN_BYTES : Z := 1024.
Definition MAX_INDEX_SCOPE_TOTAL_BYTES : Z := 16 * 1024.

Definition SLASH : Z := 47.
Definition BACKSLASH : Z := 92.
Definition split_slash (s : str) : list str := split_by (Z.eqb SLASH) s.
Definition join_slash (parts : list str) : str := join SLASH parts.

(** ** [normalize_repository_value] *)

(** [bytes.len() >= 2 && bytes[0].is_ascii_alphabetic() && bytes[1] == b':']. *)
Definition drive_prefixed (s : str) : bool :=
  match s with
  | c0 :: c1 :: _ =>
    (((65 <=? c0) && (c0 <=? 90)) || ((97 <=? c0) && (c0 <=? 122))) && (c1 =? 58)
  | _ => false
  end.

Definition starts_with_separator (s : str) : bool :=
  match s with c :: _ => (c =? SLASH) || (c =? BACKSLASH) | [] => false end.

(** The loop over the components; [None] is the return on [..]. *)
Fixpoint plain_components (cs : list str) : option (list str) :=
  match cs with
  | [] => Some []
  | c :: cs =>
    if bool_decide (c = []) || bool_decide (c = lit ".") then plain_components cs
    else if bool_decide (c = lit "..") then None
    else (fun rest => c :: rest) <$> plain_components cs
  end.

Definition normalize_repository_value (requested : str) (field : string) (allow_root : bool)
    (max_bytes : Z) : result str :=
  if max_bytes <? token_len requested then Err (InputTooLong field max_bytes)
  else if is_blank requested || contains 0 requested
  then Err (InvalidInput field "must be a non-empty repository-relative value")
  else if starts_with_separator requested || drive_prefixed requested
  then Err (PathOutsideRoot requested)
  else
    match plain_components (split_slash (replace_char BACKSLASH SLASH requested)) with
    | None => Err (PathOutsideRoot requested)
    | Some [] =>
      if allow_root then Ok (lit ".")
      else Err (InvalidInput field "must not resolve to the repository root")
    | Some components => Ok (join_slash components)
    end.

(** [RepositoryPath::parse], and [normalize_relative] which is its string. *)
Definition parse_path (value : str) : result str :=
  normalize_repository_value value "path" true MAX_REPOSITORY_PATH_BYTES.

(** ** [RepositoryPath::join_relative] *)

(** [str::rsplit_once('/')] followed by splitting the parent. *)
Definition parent_components (path : str) : list str := removelast (split_slash path).

(** [components] is kept with its last element first. *)
Fixpoint walk_components (components : list str) (cs : list str) : option (list str) :=
  match cs with
  | [] => Some components
  | c :: cs =>
    if bool_decide (c = []) || bool_decide (c = lit ".") then walk_components components cs
    else if bool_decide (c = lit "..") then
      match components with
      | [] => None
      | _ :: components => walk_components components cs
      end
    else walk_components (c :: components) cs
  end.

(** [relative.as_bytes().get(1) == b':']. *)
Definition second_byte_is_colon (s : str) : bool :=
  match s with c0 :: c1 :: _ => (len_utf8 c0 =? 1) && (c1 =? 58) | _ => false end.

Definition join_relative (self relative : str) : result str :=
  if starts_with_separator relative || second_byte_is_colon relative
  then Err (PathOutsideRoot relative)
  else if contains 0 relative then Err (InvalidInput "import path" "must not contain NUL bytes")
  else
    match walk_components (rev (parent_components self))
            (split_slash (replace_char BACKSLASH SLASH relative)) with
    | None => Err (PathOutsideRoot relative)
    | Some [] => Err (InvalidInput "import path" "must identify a repository-relative path")
    | Some components => parse_path (join_slash (rev components))
    end.

(** ** Patterns *)
Definition has_glob_meta (value : str) : bool := contains_any (lit "*?[]{}") value.

(** [path_is_within], and the literal case of [RepositoryPatternSet::is_match]. *)
Definition path_is_within (path root : str) : bool :=
  match strip_prefix root path with
  | Some suffix => match suffix with [] => true | c :: _ => c =? SLASH end
  | None => false
  end.

Section Patterns.
Variable glob_valid : str -> bool.
Variable glob_match : str -> str -> bool.
Variable digest_hex : str -> string.

(** [RepositoryPattern::parse]. *)
Definition parse_pattern (value : str) : result str :=
  let* canonical :=
    normalize_repository_value value "path pattern" false MAX_REPOSITORY_PATH_BYTES in
  if has_glob_meta canonical && negb (glob_valid canonical) then Err (InvalidGlob canonical)
  else Ok canonical.

Fixpoint collect_results {A B} (f : A -> result B) (l : list A) : result (list B) :=
  match l with
  | [] => Ok []
  | x :: l => let* y := f x in let* ys := collect_results f l in Ok (y :: ys)
  end.

Record RepositoryPatternSet := mk_pattern_set {
  patterns : list str;
  literals : list str;
  globs : list str
}.

Definition compile_patterns (ps : list str) : result RepositoryPatternSet :=
  if MAX_REPOSITORY_PATTERNS <? len ps then Err LimitExceeded
  else
    let gs := List.filter has_glob_meta ps in
    match List.filter (fun g => negb (glob_valid g)) gs with
    | g :: _ => Err (InvalidGlob g)
    | [] => Ok (mk_pattern_set ps (List.filter (fun p => negb (has_glob_meta p)) ps) gs)
    end.

Definition new_pattern_set (values : list str) : result RepositoryPatternSet :=
  if MAX_REPOSITORY_PATTERNS <? len values then Err LimitExceeded
  else let* ps := collect_results parse_pattern values in compile_patterns ps.

Definition is_match (set : RepositoryPatternSet) (path : str) : bool :=
  existsb (path_is_within path) (literals set)
  || existsb (fun g => glob_match g path) (globs set).

(** ** The index scope *)
Record ScopeMatcher := mk_matcher {
  matcher : RepositoryPatternSet;
  static_prefixes : list str;
  excluded_subtree_roots : list str
}.

Fixpoint take_while {A} (f : A -> bool) (l : list A) : list A :=
  match l with
  | [] => []
  | x :: l => if f x then x :: take_while f l else []
  end.

Definition static_prefix (pattern : str) : str :=
  join_slash (take_while (fun c => negb (has_glob_meta c)) (split_slash pattern)).

Definition excluded_root (pattern : str) : option str :=
  if negb (has_glob_meta pattern) then Some pattern
  else match strip_suffix (lit "/**") pattern with
       | Some root => if has_glob_meta root then None else Some root
       | None => None
       end.

Definition compile_matcher (ps : list str) (exclusions : bool) : result ScopeMatcher :=
  let* set := new_pattern_set ps in
  Ok (mk_matcher set (map static_prefix ps)
        (if exclusions then sort_dedup (omap excluded_root ps) else [])).

Definition matches (m : ScopeMatcher) (path : str) : bool := is_match (matcher m) path.

Definition excludes_directory (m : ScopeMatcher) (path : str) : bool :=
  existsb (path_is_within path) (excluded_subtree_roots m) || matches m path.

Definition may_match_descendant (m : ScopeMatcher) (directory : str) : bool :=
  existsb (fun prefix => bool_decide (prefix = []) || path_is_within directory prefix
                         || path_is_within prefix directory) (static_prefixes m).

Definition normalize_scope_pattern (pattern : str) : result str :=
  if MAX_INDEX_SCOPE_PATTERN_BYTES <? token_len pattern
  then Err (InvalidConfiguration "index scope pattern exceeds 1024 bytes")
  else match parse_pattern pattern with
       | Ok p => Ok p
       | Err e => Err (InvalidConfigurationFrom e)
       end.

Record IndexScope := mk_scope {
  includes : list str;
  excludes : list str;
  include_matcher : ScopeMatcher;
  exclude_matcher : ScopeMatcher;
  digest : option string
}.

(** What the scope digest hashes. *)
Definition scope_material (includes excludes : list str) : str :=
  lit "leantoken-index-scope-v2" ++ [0]
  ++ concat (map (fun p => lit "include" ++ [0] ++ p ++ [0]) includes)
  ++ concat (map (fun p => lit "exclude" ++ [0] ++ p ++ [0]) excludes).

Definition new_scope (include_values exclude_values : list str) : result IndexScope :=
  let* ins := collect_results normalize_scope_pattern include_values in
  let* exs := collect_results normalize_scope_pattern exclude_values in
  if MAX_INDEX_SCOPE_PATTERNS <? u64_saturating_add (len ins) (len exs)
  then Err (InvalidConfiguration "index scope accepts at most 64 patterns")
  else if MAX_INDEX_SCOPE_TOTAL_BYTES <? foldr (fun p acc => token_len p + acc) 0 (ins ++ exs)
  then Err (InvalidConfiguration "index scope patterns exceed 16384 total bytes")
  else
    let ins := sort_dedup ins in
    let exs := sort_dedup exs in
    let* im := compile_matcher ins false in
    let* em := compile_matcher exs true in
    Ok (mk_scope ins exs im em
          (match ins, exs with
           | [], [] => None
           | _, _ => Some (digest_hex (scope_material ins exs))
           end)).

Definition includes_path (s : IndexScope) (path : str) (is_directory : bool) : bool :=
  if bool_decide (path = []) then true
  else if (is_directory && excludes_directory (exclude_matcher s) path)
          || (negb is_directory && matches (exclude_matcher s) path)
  then false
  else if bool_decide (includes s = []) then true
  else if is_directory
  then matches (include_matcher s) path || may_match_descendant (include_matcher s) path
  else matches (include_matcher s) path.

Definition may_include_descendant (s : IndexScope) (directory : str) : bool :=
  if negb (bool_decide (directory = [])) && excludes_directory (exclude_matcher s) directory
  then false
  else bool_decide (includes s = []) || bool_decide (directory = [])
       || matches (include_matcher s) directory
       || may_match_descendant (include_matcher s) directory.

(** [full_digest().unwrap_or("full")]. *)
Definition identity_material (s : IndexScope) : string := default "full"%string (digest s).

(** ** The visibility policy *)
Definition GENERATED_DIRECTORY_NAMES : list str :=
  map lit [".cache"; ".gradle"; ".mypy_cache"; ".npm"; ".pnpm-store"; ".pytest_cache";
           ".ruff_cache"; ".rustup"; ".tox"; ".venv"; "__pycache__"; "node_modules"; "target";
           "venv"]%string.
Definition GENERATED_DIRECTORY_PATHS : list (list str) :=
  [map lit [".bun"; "install"; "cache"]; map lit [".local"; "share"];
   map lit [".yarn"; "cache"]]%string.

Variable windows : bool.
Definition component_eq (actual expected : str) : bool :=
  if windows
  then bool_decide (map to_ascii_lowercase actual = map to_ascii_lowercase expected)
  else bool_decide (actual = expected).

(** The test of one position of the component loop; [components] starts there. *)
Definition generated_at (components : list str) (path_is_directory : bool) : bool :=
  match components with
  | [] => false
  | component :: rest =>
    (existsb (component_eq component) GENERATED_DIRECTORY_NAMES
       && (negb (bool_decide (rest = [])) || path_is_directory))
    || existsb (fun generated =>
         (length generated <=? length components)%nat
         && forallb (fun '(actual, expected) => component_eq actual expected)
              (zip (take (length generated) components) generated)
         && ((length generated <? length components)%nat || path_is_directory))
       GENERATED_DIRECTORY_PATHS
  end.

Fixpoint any_generated (components : list str) (path_is_directory : bool) : bool :=
  match components with
  | [] => false
  | _ :: rest => generated_at components path_is_directory || any_generated rest path_is_directory
  end.

Definition is_generated_path (relative_path : str) (path_is_directory : bool) : bool :=
  any_generated (List.filter (fun c => negb (bool_decide (c = []))) (split_slash relative_path))
    path_is_directory.

Definition is_git_metadata_path (path : str) : bool :=
  existsb (fun c => bool_decide (c = lit ".git")) (split_slash path).

Record DiscoveryPolicy := mk_policy {
  include_generated : bool;
  index_scope : IndexScope
}.

Definition policy_includes_path (p : DiscoveryPolicy) (path : str) (is_directory : bool) : bool :=
  negb (is_git_metadata_path path)
  && (include_generated p || negb (is_generated_path path is_directory))
  && includes_path (index_scope p) path is_directory.

Definition ends_with (suffix s : str) : bool :=
  match strip_suffix suffix s with Some _ => true | None => false end.

Definition is_ignore_control_path (path : str) : bool :=
  bool_decide (path = lit ".gitignore") || bool_decide (path = lit ".ignore")
  || bool_decide (path = lit ".leantokenignore")
  || ends_with (lit "/.gitignore") path || ends_with (lit "/.ignore") path
  || ends_with (lit "/.leantokenignore") path.

Definition includes_watch_path (p : DiscoveryPolicy) (path : str) (is_directory : bool) : bool :=
  if policy_includes_path p path is_directory then true
  else if negb (is_ignore_control_path path) then false
  else may_include_descendant (index_scope p) (join_slash (parent_components path)).
End Patterns.

(** ** Lemmas: components *)

Definition safe_component (c : str) : Prop :=
  c <> [] /\ c <> lit "." /\ c <> lit ".." /\ (SLASH ∉ c) /\ (BACKSLASH ∉ c) /\ (0 ∉ c).

(** A canonical repository-relative path. *)
Definition safe_path (v : str) : Prop :=
  exists cs, cs <> [] /\ Forall safe_component cs /\ v = join_slash cs.

Lemma plain_components_spec cs out : plain_components cs = Some out ->
  out `sublist_of` cs /\ Forall (fun c => c <> [] /\ c <> lit "." /\ c <> lit "..") out.
Proof.
  revert out. induction cs as [|c cs IH]; simpl; intros out; [intros [= <-]; by split|].
  destruct (bool_decide_reflect (c = [])) as [->|H1]; simpl.
  { intros Ho. destruct (IH out Ho). split; [by apply sublist_cons|done]. }
  destruct (bool_decide_reflect (c = lit ".")) as [->|H2]; simpl.
  { intros Ho. destruct (IH out Ho). split; [by apply sublist_cons|done]. }
  case_bool_decide as H3; [done|]. destruct (plain_components cs) as [rest|]; simpl; [|done].
  intros [= <-]. destruct (IH rest eq_refl). split; [by apply sublist_skip|by constructor].
Qed.

Lemma plain_components_id cs : Forall safe_component cs -> plain_components cs = Some cs.
Proof.
  induction 1 as [|c cs (H1 & H2 & H3 & _) _ IH]; simpl; [done|].
  rewrite !bool_decide_eq_false_2 by done. simpl. by rewrite IH.
Qed.

Lemma safe_no_slash cs : Forall safe_component cs -> Forall (fun p => (SLASH ∉ p)) cs.
Proof. intros Hs. eapply Forall_impl; [done|]. by intros c (_ & _ & _ & ? & _). Qed.

Lemma split_safe cs : cs <> [] -> Forall safe_component cs -> split_slash (join_slash cs) = cs.
Proof. intros Hne Hs. apply split_join; [done|by apply safe_no_slash]. Qed.

Lemma safe_join_chars cs x : Forall safe_component cs -> x ∈ join_slash cs ->
  x <> BACKSLASH /\ x <> 0.
Proof.
  intros Hs [->|(c & Hc & Hx)]%elem_of_join; [done|]. rewrite Forall_forall in Hs.
  destruct (Hs c Hc) as (_ & _ & _ & _ & Hb & Hz). split; by intros ->.
Qed.

Lemma safe_join_start c cs : safe_component c -> starts_with_separator (join_slash (c :: cs)) = false.
Proof.
  intros (Hne & _ & _ & Hs & Hb & _). destruct c as [|x c]; [done|].
  assert (Hx : starts_with_separator (x :: c) = false).
  { simpl. apply orb_false_iff. rewrite !Z.eqb_neq. split; intros ->;
      [apply Hs|apply Hb]; by left. }
  unfold join_slash. rewrite join_cons. by destruct cs.
Qed.

Lemma elem_of_sublist {A} (l1 l2 : list A) x : l1 `sublist_of` l2 -> x ∈ l1 -> x ∈ l2.
Proof.
  induction 1 as [|y l1 l2 _ IH|y l1 l2 _ IH]; rewrite ?elem_of_cons; [done|tauto|tauto].
Qed.

Lemma token_len_join_sublist sep l1 l2 : l1 `sublist_of` l2 ->
  token_len (join sep l1) <= token_len (join sep l2).
Proof.
  pose proof (len_utf8_bounds sep) as Hsep.
  induction 1 as [|p l1 l2 Hs IH|p l1 l2 Hs IH]; [done| |].
  - rewrite !join_cons. destruct l1 as [|q1 l1], l2 as [|q2 l2]; try done.
    + rewrite token_len_app. pose proof (token_len_nonneg (sep :: join sep (q2 :: l2))). lia.
    + inversion Hs.
    + rewrite !token_len_app, !token_len_cons. lia.
  - rewrite join_cons. destruct l2 as [|q l2].
    + inversion Hs; subst. apply token_len_nonneg.
    + rewrite token_len_app, token_len_cons. pose proof (token_len_nonneg p). lia.
Qed.

Lemma token_len_replace s : token_len (replace_char BACKSLASH SLASH s) = token_len s.
Proof.
  unfold token_len, replace_char. induction s as [|c s IH]; simpl; [done|]. rewrite IH.
  by destruct (Z.eqb_spec c BACKSLASH) as [->|].
Qed.

(** What a normalised value is. *)
Lemma normalize_spec requested field allow_root max v :
  normalize_repository_value requested field allow_root max = Ok v ->
  token_len v <= Z.max max 1 /\ ((v = lit "." /\ allow_root = true) \/ safe_path v).
Proof.
  unfold normalize_repository_value. destruct (max <? token_len requested) eqn:Hlen; [done|].
  destruct (is_blank requested || contains 0 requested) eqn:Hnul; [done|].
  destruct (starts_with_separator requested || _); [done|]. bool_to_prop.
  destruct (plain_components _) as [cs|] eqn:Hcs; [|done].
  destruct (plain_components_spec _ _ Hcs) as [Hsub Hplain].
  destruct cs as [|c cs].
  { destruct allow_root; [|done]. intros [= <-]. split; [change (token_len (lit ".")) with 1; lia|by left]. }
  intros [= <-]. split.
  - pose proof (token_len_join_sublist SLASH _ _ Hsub) as Hle. unfold split_slash in Hle.
    rewrite join_split, token_len_replace in Hle. unfold join_slash. lia.
  - right. exists (c :: cs). split_and!; [done| |done]. rewrite Forall_forall in *.
    intros x Hx. destruct (Hplain x Hx) as (? & ? & ?).
    pose proof (elem_of_sublist _ _ _ Hsub Hx) as Hin. split_and!; [done..| | |].
    + pose proof (split_by_no_sep SLASH (replace_char BACKSLASH SLASH requested)) as Hns.
      rewrite Forall_forall in Hns. by apply Hns.
    + intros Hb. pose proof (elem_of_split_by _ _ _ _ Hin Hb) as Hr.
      by apply elem_of_replace_char in Hr as [?|[? _]].
    + intros Hz. pose proof (elem_of_split_by _ _ _ _ Hin Hz) as Hr.
      apply elem_of_replace_char in Hr as [?|[_ Hr]]; [done|].
      match goal with H : contains 0 requested = false |- _ => by apply contains_false in H end.
Qed.

(** Normalising a canonical path gives it back, or refuses it. *)
Lemma normalize_safe v field allow_root max : safe_path v ->
  normalize_repository_value v field allow_root max =
  if max <? token_len v then Err (InputTooLong field max)
  else if is_blank v then Err (InvalidInput field "must be a non-empty repository-relative value")
  else if drive_prefixed v then Err (PathOutsideRoot v)
  else Ok v.
Proof.
  intros (cs & Hne & Hs & ->). unfold normalize_repository_value.
  destruct (max <? _); [done|].
  assert (contains 0 (join_slash cs) = false) as ->.
  { apply contains_false. intros Hz. by destruct (safe_join_chars cs 0 Hs Hz). }
  rewrite orb_false_r. destruct (is_blank _); [done|].
  assert (starts_with_separator (join_slash cs) = false) as ->.
  { destruct cs as [|c cs]; [done|]. apply Forall_cons in Hs as [Hc _]. by apply safe_join_start. }
  simpl. destruct (drive_prefixed _); [done|].
  rewrite replace_char_id.
  2:{ intros Hb. by destruct (safe_join_chars cs BACKSLASH Hs Hb). }
  rewrite split_safe, plain_components_id by done. by destruct cs.
Qed.

(** Normalising a request path is sound and canonical: an accepted value is the root or a
    non-empty sequence of names joined by single slashes, none of them empty, [.] or [..], without
    backslash or NUL, within the byte limit; and a value that is neither blank nor drive-prefixed
    is a fixed point, so parsing the stored form again gives the same path. *)
Theorem normalize_repository_value_canonical requested field allow_root max v :
  0 < max -> normalize_repository_value requested field allow_root max = Ok v ->
  token_len v <= max
  /\ ((v = lit "." /\ allow_root = true) \/ safe_path v)
  /\ (is_blank v = false -> drive_prefixed v = false ->
      normalize_repository_value v field allow_root max = Ok v).
Proof.
  intros Hmax Hn. destruct (normalize_spec _ _ _ _ _ Hn) as [Hlen Hv].
  split; [lia|]. split; [done|]. intros Hb Hd. destruct Hv as [[-> ->]|Hs].
  - unfold normalize_repository_value. rewrite (proj2 (Z.ltb_ge _ _)) by lia. done.
  - rewrite (normalize_safe v) by done. rewrite (proj2 (Z.ltb_ge _ _)) by lia.
    by rewrite Hb, Hd.
Qed.

(** The drive check looks only at the start of the request, before the [.] components are
    dropped: [./C:/x] is accepted and its canonical form is the drive path [C:/x] that the same
    function refuses, so the stored path neither parses again nor is relative on Windows. *)
Theorem normalize_admits_drive_path :
  parse_path (lit "./C:/x") = Ok (lit "C:/x")
  /\ parse_path (lit "C:/x") = Err (PathOutsideRoot (lit "C:/x"))
  /\ parse_path (lit "./ ") = Ok (lit " ")
  /\ parse_path (lit " ")
     = Err (InvalidInput "path" "must be a non-empty repository-relative value").
Proof. vm_compute. done. Qed.

(** ** Lemmas: joining import-relative paths *)

Definition is_skipped (c : str) : bool := bool_decide (c = []) || bool_decide (c = lit ".").
Definition is_up (c : str) : bool := bool_decide (c = lit "..").
Definition is_name (c : str) : bool := negb (is_skipped c) && negb (is_up c).
Definition count (f : str -> bool) (cs : list str) : Z := len (List.filter f cs).

Lemma count_cons f c cs : count f (c :: cs) = (if f c then 1 else 0) + count f cs.
Proof. unfold count, len. simpl. destruct (f c); simpl; lia. Qed.

(** Some prefix of the components climbs above the repository root. *)
Definition climbs (depth : Z) (cs : list str) : Prop :=
  exists n, depth + count is_name (take n cs) < count is_up (take n cs).

Lemma climbs_cons depth c cs : 0 <= depth ->
  climbs depth (c :: cs) <->
  if is_skipped c then climbs depth cs
  else if is_up c then depth = 0 \/ climbs (depth - 1) cs
  else climbs (depth + 1) cs.
Proof.
  intros Hd. unfold climbs.
  assert (Hstep : (exists n, depth + count is_name (take n (c :: cs)) < count is_up (take n (c :: cs)))
    <-> exists n, depth + count is_name (c :: take n cs) < count is_up (c :: take n cs)).
  { split; [|intros [n Hn]; by exists (S n)]. intros [[|n] Hn]; [|by exists n].
    unfold count, len in Hn. simpl in Hn. lia. }
  rewrite Hstep. setoid_rewrite count_cons.
  assert (Hname : is_name c = negb (is_skipped c) && negb (is_up c)) by done.
  setoid_rewrite Hname. destruct (is_skipped c) eqn:Hs.
  - assert (is_up c = false) as Hu.
    { unfold is_skipped, is_up in *. apply orb_true_iff in Hs as [Hs|Hs];
        apply bool_decide_eq_true in Hs as ->; done. }
    setoid_rewrite Hu. simpl. done.
  - destruct (is_up c) eqn:Hu; simpl.
    + split.
      * intros [n Hn]. destruct (Z.eq_dec depth 0) as [->|]; [by left|right]. exists n. lia.
      * intros [->|[n Hn]]; [exists 0%nat; unfold count, len; simpl; lia|exists n; lia].
    + split; intros [n Hn]; exists n; lia.
Qed.

Lemma walk_components_spec cs components :
  match walk_components components cs with
  | None => climbs (len components) cs
  | Some out => ~ climbs (len components) cs
      /\ len out = len components + count is_name cs - count is_up cs
      /\ (forall c, c ∈ out -> c ∈ components \/ (c ∈ cs /\ is_name c = true))
      /\ (count is_up cs = 0 -> out = rev (List.filter is_name cs) ++ components)
  end.
Proof.
  revert components. induction cs as [|c cs IH]; intros components; simpl.
  { split_and!; [|unfold count, len; simpl; lia|by left|done].
    intros [n Hn]. rewrite take_nil in Hn. unfold count, len in Hn. simpl in Hn. lia. }
  pose proof (climbs_cons (len components) c cs ltac:(unfold len; lia)) as Hcl.
  assert (Hpos : 0 <= count is_up cs) by (unfold count, len; lia).
  rewrite !count_cons. fold (is_skipped c). fold (is_up c).
  assert (Hname : is_name c = negb (is_skipped c) && negb (is_up c)) by done.
  destruct (is_skipped c) eqn:Hs.
  - assert (is_up c = false) as Hu.
    { unfold is_skipped, is_up in *. apply orb_true_iff in Hs as [Hs|Hs];
        apply bool_decide_eq_true in Hs as ->; done. }
    rewrite Hname, Hu. simpl. specialize (IH components).
    destruct (walk_components components cs) as [out|]; [|by rewrite Hcl].
    destruct IH as (Hn & Hl & Hin & Hno). rewrite Hcl. split_and!; [done|lia| |done].
    intros x Hx. destruct (Hin x Hx) as [|[? ?]]; [by left|right]. split; [by right|done].
  - destruct (is_up c) eqn:Hu.
    + rewrite Hname. simpl.
      destruct components as [|d components]; [rewrite Hcl; by left|].
      specialize (IH components). assert (Hd : len (d :: components) = len components + 1).
      { unfold len. simpl. lia. }
      rewrite Hd in *. replace (len components + 1 - 1) with (len components) in Hcl by lia.
      assert (0 <= len components) by (unfold len; lia).
      destruct (walk_components components cs) as [out|]; [|rewrite Hcl; by right].
      destruct IH as (Hn & Hl & Hin & Hno). rewrite Hcl. split_and!; [|lia| |lia].
      * intros [?|?]; [lia|done].
      * intros x Hx. destruct (Hin x Hx) as [|[? ?]]; [left; by right|right]. split; [by right|done].
    + simpl in Hname. rewrite Hname. specialize (IH (c :: components)).
      assert (Hd : len (c :: components) = len components + 1) by (unfold len; simpl; lia).
      rewrite Hd in IH.
      destruct (walk_components (c :: components) cs) as [out|]; [|by rewrite Hcl].
      destruct IH as (Hn & Hl & Hin & Hno). rewrite Hcl. split_and!; [done|lia| |].
      * intros x Hx. destruct (Hin x Hx) as [Hc|[? ?]]; [|right; split; [by right|done]].
        apply elem_of_cons in Hc as [->|Hc]; [right; split; [by left|done]|by left].
      * intros Hu0. rewrite Hno by lia. simpl. by rewrite <-app_assoc.
Qed.

Lemma elem_of_rev {A} (l : list A) x : x ∈ rev l <-> x ∈ l.
Proof. by rewrite !list_elem_of_In, <-in_rev. Qed.

Lemma removelast_elem {A} (l : list A) x : x ∈ removelast l -> x ∈ l.
Proof.
  induction l as [|y l IH]; simpl; [done|]. destruct l as [|z l]; [by intros ?%elem_of_nil|].
  intros [->|Hx]%elem_of_cons; [by left|right]. by apply IH.
Qed.

(** The components walked from a repository path are safe. *)
Lemma walked_safe self relative out : safe_path self \/ self = lit "." -> contains 0 relative = false ->
  (forall c, c ∈ out -> c ∈ rev (parent_components self)
     \/ (c ∈ split_slash (replace_char BACKSLASH SLASH relative) /\ is_name c = true)) ->
  out <> [] -> safe_path (join_slash (rev out)).
Proof.
  intros Hself Hnul Hin Hne. exists (rev out). split_and!; [|apply Forall_forall|done].
  { destruct out as [|c out]; [done|]. simpl. by destruct (rev out). }
  intros x Hx. rewrite elem_of_rev in Hx. destruct (Hin x Hx) as [Hp|[Hc Hname]].
  - rewrite elem_of_rev in Hp. destruct Hself as [(ss & Hss & Hall & ->)| ->]; [|by apply elem_of_nil in Hp].
    apply removelast_elem in Hp. rewrite split_safe in Hp by done.
    rewrite Forall_forall in Hall. by apply Hall.
  - unfold is_name, is_skipped, is_up in Hname. bool_to_prop.
    rewrite bool_decide_eq_false in *. split_and!; [done..| | |].
    + pose proof (split_by_no_sep SLASH (replace_char BACKSLASH SLASH relative)) as Hns.
      rewrite Forall_forall in Hns. by apply Hns.
    + intros Hb. pose proof (elem_of_split_by _ _ _ _ Hc Hb) as Hr.
      by apply elem_of_replace_char in Hr as [?|[? _]].
    + intros Hz. pose proof (elem_of_split_by _ _ _ _ Hc Hz) as Hr.
      apply elem_of_replace_char in Hr as [?|[_ Hr]]; [done|]. by apply contains_false in Hnul.
Qed.

Lemma join_relative_safe self relative v : safe_path self \/ self = lit "." ->
  join_relative self relative = Ok v -> safe_path v.
Proof.
  intros Hself. unfold join_relative. destruct (_ || second_byte_is_colon _); [done|].
  destruct (contains 0 relative) eqn:Hnul; [done|].
  set (cs := split_slash (replace_char BACKSLASH SLASH relative)).
  pose proof (walk_components_spec cs (rev (parent_components self))) as Hw.
  destruct (walk_components _ cs) as [out|]; [|done]. destruct Hw as (_ & _ & Hin & _).
  destruct out as [|c out]; [done|]. pose proof (walked_safe self relative _ Hself Hnul Hin ltac:(done)) as Hsafe.
  unfold parse_path. rewrite (normalize_safe _ _ _ _ Hsafe).
  destruct (_ <? _); [done|]. destruct (is_blank _); [done|]. destruct (drive_prefixed _); [done|].
  by intros [= <-].
Qed.

(** Joining an import-relative path onto a repository path cannot leave the repository.  The
    result is a canonical path; the join is refused with [PathOutsideRoot] exactly when some
    prefix of the relative path climbs above the root; and without [..] components the result is
    the parent directory of the source followed by the names of the relative path. *)
Theorem join_relative_stays_inside self relative :
  safe_path self ->
  let cs := split_slash (replace_char BACKSLASH SLASH relative) in
  let depth := len (parent_components self) in
  match join_relative self relative with
  | Ok v => safe_path v /\ ~ climbs depth cs
      /\ (count is_up cs = 0 -> v = join_slash (parent_components self ++ List.filter is_name cs))
  | Err _ => True
  end
  /\ (climbs depth cs -> contains 0 relative = false ->
      join_relative self relative = Err (PathOutsideRoot relative)).
Proof.
  intros Hself. cbv zeta. unfold join_relative.
  destruct (_ || second_byte_is_colon _); [by split|].
  destruct (contains 0 relative) eqn:Hnul; [by split|].
  set (cs := split_slash (replace_char BACKSLASH SLASH relative)).
  pose proof (walk_components_spec cs (rev (parent_components self))) as Hw.
  assert (Hd : len (rev (parent_components self)) = len (parent_components self))
    by (unfold len; by rewrite length_rev).
  rewrite Hd in Hw. destruct (walk_components _ cs) as [out|]; [|by split].
  destruct Hw as (Hno & _ & Hin & Hplain). split; [|done].
  destruct out as [|c out]; [done|].
  assert (Hsafe : safe_path (join_slash (rev (c :: out)))) by (by apply (walked_safe self relative); [left|..]).
  unfold parse_path. rewrite (normalize_safe _ _ _ _ Hsafe).
  destruct (_ <? _); [done|]. destruct (is_blank _); [done|]. destruct (drive_prefixed _); [done|].
  split_and!; [done|done|]. intros Hu. rewrite (Hplain Hu), rev_app_distr, !rev_involutive. done.
Qed.

(** ** Lemmas: subtrees *)

(** [path] lies strictly below the directory [a]. *)
Definition below (a path : str) : Prop := exists r, path = a ++ SLASH :: r.

Lemma path_is_within_spec path root : path_is_within path root = true <->
  path = root \/ below root path.
Proof.
  unfold path_is_within, below. destruct (strip_prefix root path) as [s|] eqn:E.
  - apply strip_prefix_spec in E as ->. destruct s as [|c s].
    + rewrite app_nil_r. split; [by left|done].
    + rewrite Z.eqb_eq. split.
      * intros ->. right. by exists s.
      * intros [Heq|(r & [= -> _]%app_inv_head)]; [|done].
        rewrite <-(app_nil_r root) in Heq at 2. by apply app_inv_head in Heq.
  - split; [done|]. intros [->|(r & ->)].
    + by rewrite (proj2 (strip_prefix_spec root root [])) in E by (by rewrite app_nil_r).
    + by rewrite (proj2 (strip_prefix_spec root (root ++ SLASH :: r) (SLASH :: r))) in E.
Qed.

(** Two directories above one path are comparable. *)
Lemma within_comparable path a b : path_is_within path a = true -> below b path ->
  path_is_within b a = true \/ path_is_within a b = true.
Proof.
  rewrite !path_is_within_spec. intros Ha (r & ->).
  assert (Happ : exists s, a ++ s = b ++ SLASH :: r /\ (s = [] \/ exists s', s = SLASH :: s')).
  { destruct Ha as [<-|(s & Hs)]; [exists []; rewrite app_nil_r; auto|].
    exists (SLASH :: s). split; [done|]. right. by exists s. }
  destruct Happ as (s & Happ & Hs). apply app_eq_app in Happ as (k & [[-> Hk]|[-> Hk]]).
  - right. destruct k as [|c k]; [left; by rewrite app_nil_r|right].
    injection Hk as <- _. by exists k.
  - left. destruct k as [|c k]; [left; by rewrite app_nil_r|right].
    destruct Hs as [->|(s' & ->)]; [done|]. injection Hk as <- _. by exists k.
Qed.

Lemma within_below path a root : path_is_within a root = true -> below a path ->
  path_is_within path root = true.
Proof.
  rewrite !path_is_within_spec. intros [->|(r & ->)] (r' & ->).
  - right. by exists r'.
  - right. exists (r ++ SLASH :: r'). by rewrite <-app_assoc.
Qed.

Lemma split_slash_below a r : split_slash (a ++ SLASH :: r) = split_slash a ++ split_slash r.
Proof.
  unfold split_slash. induction a as [|c a IH]; [done|].
  cbn [app split_by]. rewrite IH. destruct (split_by_cons_inv (Z.eqb SLASH) a) as (p & ps & ->).
  by destruct (SLASH =? c).
Qed.

Lemma strip_suffix_spec p s r : strip_suffix p s = Some r <-> s = r ++ p.
Proof.
  unfold strip_suffix. destruct (strip_prefix (rev p) (rev s)) as [x|] eqn:E; simpl.
  - apply strip_prefix_spec in E. assert (s = rev x ++ p) as ->.
    { by rewrite <-(rev_involutive s), E, rev_app_distr, rev_involutive. }
    split; [by intros [= <-]|]. by intros Hr%app_inv_tail; rewrite Hr.
  - split; [done|]. intros ->. rewrite rev_app_distr in E.
    by rewrite (proj2 (strip_prefix_spec (rev p) (rev p ++ rev r) (rev r))) in E.
Qed.

Section ScopeFacts.
Variable glob_valid : str -> bool.
Variable glob_match : str -> str -> bool.
Variable digest_hex : str -> string.
Variable windows : bool.

(** What compiling keeps of the patterns. *)
Lemma compile_matcher_inv ps ex m : compile_matcher glob_valid ps ex = Ok m ->
  (forall p, p ∈ literals (matcher m) -> exists q, q ∈ ps /\ parse_pattern glob_valid q = Ok p
     /\ has_glob_meta p = false)
  /\ (forall g, g ∈ globs (matcher m) -> exists q, q ∈ ps /\ parse_pattern glob_valid q = Ok g
        /\ has_glob_meta g = true)
  /\ static_prefixes m = map static_prefix ps
  /\ (forall q p, q ∈ ps -> parse_pattern glob_valid q = Ok p ->
        if has_glob_meta p then p ∈ globs (matcher m) else p ∈ literals (matcher m))
  /\ forall root, root ∈ excluded_subtree_roots m -> exists q, q ∈ ps /\ excluded_root q = Some root.
Proof.
  unfold compile_matcher, new_pattern_set. destruct (_ <? len ps); [done|].
  destruct (collect_results _ ps) as [cs|] eqn:Hcol; simpl; [|done].
  unfold compile_patterns. destruct (_ <? len cs); [done|].
  destruct (List.filter _ (List.filter has_glob_meta cs)); [|done]. simpl. intros [= <-]. simpl.
  assert (Hback : forall p, p ∈ cs -> exists q, q ∈ ps /\ parse_pattern glob_valid q = Ok p).
  { clear -Hcol. revert cs Hcol. induction ps as [|q ps IH]; simpl; intros cs.
    { intros [= <-] p ?%elem_of_nil. done. }
    destruct (parse_pattern glob_valid q) as [c|] eqn:Hq; simpl; [|done].
    destruct (collect_results _ ps) as [ds|]; simpl; [|done]. intros [= <-] p.
    intros [->|Hp]%elem_of_cons; [exists q; split; [by left|done]|].
    destruct (IH ds eq_refl p Hp) as (q' & ? & ?). exists q'. split; [by right|done]. }
  assert (Hforth : forall q p, q ∈ ps -> parse_pattern glob_valid q = Ok p -> p ∈ cs).
  { clear -Hcol. revert cs Hcol. induction ps as [|q ps IH]; simpl; intros cs.
    { intros _ q p ?%elem_of_nil. done. }
    destruct (parse_pattern glob_valid q) as [c|] eqn:Hq; simpl; [|done].
    destruct (collect_results _ ps) as [ds|]; simpl; [|done]. intros [= <-] q' p.
    intros [->|Hp]%elem_of_cons Hp'; [apply elem_of_cons; left; congruence|right].
    by apply (IH ds eq_refl q'). }
  assert (Hfilter : forall f p, p ∈ List.filter f cs <-> p ∈ cs /\ f p = true).
  { intros f p. by rewrite !list_elem_of_In, filter_In. }
  split_and!.
  - intros p [Hp Hm]%Hfilter. destruct (Hback p Hp) as (q & ? & ?). exists q. split_and!; [done..|].
    by apply negb_true_iff.
  - intros p [Hp Hm]%Hfilter. destruct (Hback p Hp) as (q & ? & ?). by exists q.
  - done.
  - intros q p Hq Hp. pose proof (Hforth q p Hq Hp).
    destruct (has_glob_meta p) eqn:E; apply Hfilter; [done|]. by rewrite E.
  - intros root. destruct ex; [|by intros ?%elem_of_nil].
    rewrite elem_of_sort_dedup, list_elem_of_omap. intros (q & ? & ?). by exists q.
Qed.

Lemma compile_matcher_parses ps ex m : compile_matcher glob_valid ps ex = Ok m ->
  forall q, q ∈ ps -> exists p, parse_pattern glob_valid q = Ok p.
Proof.
  unfold compile_matcher, new_pattern_set. destruct (_ <? len ps); [done|].
  destruct (collect_results _ ps) as [cs|] eqn:Hcol; simpl; [|done]. intros _. clear -Hcol.
  revert cs Hcol. induction ps as [|q ps IH]; simpl; intros cs; [by intros _ q ?%elem_of_nil|].
  destruct (parse_pattern glob_valid q) as [c|] eqn:Hq; simpl; [|done].
  destruct (collect_results _ ps) as [ds|]; simpl; [|done]. intros _ q' [->|Hq']%elem_of_cons;
    [by exists c|by apply (IH ds)].
Qed.

Lemma parse_pattern_safe v p : parse_pattern glob_valid v = Ok p -> safe_path p.
Proof.
  unfold parse_pattern. destruct (normalize_repository_value _ _ _ _) as [c|] eqn:Hn; simpl; [|done].
  destruct (_ && _); [done|]. intros [= <-].
  by destruct (normalize_spec _ _ _ _ _ Hn) as [_ [[_ ?]|?]].
Qed.

Lemma parse_pattern_fixed q p : safe_path q -> parse_pattern glob_valid q = Ok p -> p = q.
Proof.
  intros Hq. unfold parse_pattern. rewrite (normalize_safe q) by done.
  destruct (_ <? _); [done|]. destruct (is_blank q); [done|]. destruct (drive_prefixed q); [done|].
  simpl. destruct (_ && _); [done|]. by intros [= <-].
Qed.

(** A matcher compiled from canonical patterns matches what they match. *)
Definition pattern_matches (p path : str) : bool :=
  if has_glob_meta p then glob_match p path else path_is_within path p.

Lemma matches_spec ps ex m path : Forall safe_path ps -> compile_matcher glob_valid ps ex = Ok m ->
  matches glob_match m path = true <-> exists p, p ∈ ps /\ pattern_matches p path = true.
Proof.
  intros Hps Hm. destruct (compile_matcher_inv ps ex m Hm) as (Hlit & Hglob & _ & Hback & _).
  rewrite Forall_forall in Hps. unfold matches, is_match, pattern_matches.
  rewrite orb_true_iff, !existsb_exists. split.
  - intros [(p & Hp%list_elem_of_In & Hw)|(g & Hg%list_elem_of_In & Hw)].
    + destruct (Hlit p Hp) as (q & Hq & Hpq & Hmeta).
      pose proof (parse_pattern_fixed q p (Hps q Hq) Hpq) as ->. exists q. by rewrite Hmeta.
    + destruct (Hglob g Hg) as (q & Hq & Hpq & Hmeta).
      pose proof (parse_pattern_fixed q g (Hps q Hq) Hpq) as ->. exists q. by rewrite Hmeta.
  - intros (q & Hq & Hw). destruct (compile_matcher_parses ps ex m Hm q Hq) as (p & Hp).
    pose proof (parse_pattern_fixed q p (Hps q Hq) Hp) as ->. pose proof (Hback q q Hq Hp) as Hin.
    destruct (has_glob_meta q); [right|left]; exists q; by rewrite <-list_elem_of_In.
Qed.

Record scope_parts (s : IndexScope) : Prop := {
  sp_includes : Forall safe_path (includes s) /\ increasing (includes s);
  sp_excludes : Forall safe_path (excludes s) /\ increasing (excludes s);
  sp_include_matcher : compile_matcher glob_valid (includes s) false = Ok (include_matcher s);
  sp_exclude_matcher : compile_matcher glob_valid (excludes s) true = Ok (exclude_matcher s)
}.

Lemma collect_scope_safe vs ps : collect_results (normalize_scope_pattern glob_valid) vs = Ok ps ->
  Forall safe_path ps.
Proof.
  revert ps. induction vs as [|v vs IH]; simpl; intros ps; [by intros [= <-]|].
  unfold normalize_scope_pattern at 1. destruct (_ <? _); simpl; [done|].
  destruct (parse_pattern glob_valid v) as [p|] eqn:Hp; simpl; [|done].
  destruct (collect_results _ vs) as [qs|]; simpl; [|done]. intros [= <-].
  constructor; [by eapply parse_pattern_safe|by apply IH].
Qed.

Lemma new_scope_parts ins exs s : new_scope glob_valid digest_hex ins exs = Ok s -> scope_parts s.
Proof.
  unfold new_scope.
  destruct (collect_results _ ins) as [ips|] eqn:Hi; simpl; [|done].
  destruct (collect_results _ exs) as [eps|] eqn:He; simpl; [|done].
  destruct (_ <? _); [done|]. destruct (_ <? _); [done|].
  destruct (compile_matcher _ _ false) as [im|] eqn:Him; simpl; [|done].
  destruct (compile_matcher _ _ true) as [em|] eqn:Hem; simpl; [|done].
  intros [= <-].
  assert (Hsafe : forall vs ps, collect_results (normalize_scope_pattern glob_valid) vs = Ok ps ->
    Forall safe_path (sort_dedup ps)).
  { intros vs ps Hps%collect_scope_safe. rewrite Forall_forall in *. intros x Hx.
    apply Hps. by apply elem_of_sort_dedup. }
  constructor; simpl; [split; [by eapply Hsafe|apply sort_dedup_increasing]..|done|done].
Qed.

Lemma safe_not_nil p : safe_path p -> p <> [].
Proof.
  intros (cs & Hne & Hs & ->). destruct cs as [|c cs]; [done|].
  apply Forall_cons in Hs as [[Hc _] _]. unfold join_slash. rewrite join_cons.
  destruct c; [done|]. by destruct cs.
Qed.

(** A literal is its own static prefix. *)
Lemma take_while_all {A} (f : A -> bool) l : forallb f l = true -> take_while f l = l.
Proof.
  induction l as [|x l IH]; simpl; [done|]. intros [Hx Hl]%andb_true_iff. by rewrite Hx, IH.
Qed.

Lemma no_meta_component p c : has_glob_meta p = false -> c ∈ split_slash p ->
  has_glob_meta c = false.
Proof.
  unfold has_glob_meta, contains_any. intros Hp Hc.
  destruct (existsb _ c) eqn:E; [|done]. rewrite <-Hp. symmetry.
  apply existsb_exists in E as (x & Hx & Hm). apply existsb_exists. exists x. split; [|done].
  apply list_elem_of_In. eapply elem_of_split_by; [exact Hc|by apply list_elem_of_In].
Qed.

Lemma static_prefix_literal p : has_glob_meta p = false -> static_prefix p = p.
Proof.
  intros Hp. unfold static_prefix. rewrite take_while_all; [apply join_split|].
  apply forallb_forall. intros c Hc%list_elem_of_In. apply negb_true_iff.
  by eapply no_meta_component.
Qed.

(** ** Documented behaviour of globs *)

(** A match starts with the literal components of the pattern. *)
Hypothesis glob_static : forall g path, glob_match g path = true ->
  static_prefix g = [] \/ path_is_within path (static_prefix g) = true.
(** [root/**] matches everything below a literal root. *)
Hypothesis glob_subtree : forall root path, has_glob_meta root = false -> below root path ->
  glob_match (root ++ lit "/**") path = true.

Lemma has_glob_meta_app a b : has_glob_meta (a ++ b) = has_glob_meta a || has_glob_meta b.
Proof. unfold has_glob_meta, contains_any. apply existsb_app. Qed.

Lemma pattern_may_match p path a : pattern_matches p path = true -> below a path ->
  bool_decide (static_prefix p = []) || path_is_within a (static_prefix p)
    || path_is_within (static_prefix p) a = true.
Proof.
  intros Hp Ha. rewrite !orb_true_iff, bool_decide_eq_true.
  assert (Hw : static_prefix p = [] \/ path_is_within path (static_prefix p) = true).
  { unfold pattern_matches in Hp. destruct (has_glob_meta p) eqn:Hm; [by apply glob_static|].
    right. by rewrite static_prefix_literal. }
  destruct Hw as [?|Hw]; [by left; left|].
  destruct (within_comparable _ _ _ Hw Ha); auto.
Qed.

(** A directory is excluded only with a path below it, unless a glob matches the directory alone. *)
Lemma excluded_directory_excludes s a path : scope_parts s -> below a path ->
  (forall g, g ∈ excludes s -> has_glob_meta g = true -> glob_match g a = true ->
     glob_match g path = true) ->
  excludes_directory glob_match (exclude_matcher s) a = true ->
  matches glob_match (exclude_matcher s) path = true.
Proof.
  intros [_ [Hex _] _ Hem] Ha Hglob. unfold excludes_directory.
  rewrite orb_true_iff, (matches_spec _ _ _ a Hex Hem), (matches_spec _ _ _ path Hex Hem).
  intros [(root & Hroot%list_elem_of_In & Hw)%existsb_exists|(p & Hp & Hm)].
  - destruct (compile_matcher_inv _ _ _ Hem) as (_ & _ & _ & _ & Hroots).
    destruct (Hroots root Hroot) as (q & Hq & Hqr). exists q. split; [done|].
    unfold excluded_root in Hqr. unfold pattern_matches.
    destruct (has_glob_meta q) eqn:Hmeta; simpl in Hqr.
    + destruct (strip_suffix _ q) as [r|] eqn:Hs; [|done].
      destruct (has_glob_meta r) eqn:Hr; [done|]. injection Hqr as ->.
      apply strip_suffix_spec in Hs as ->. apply glob_subtree; [done|].
      apply path_is_within_spec in Hw as [->|(x & ->)]; [done|]. destruct Ha as (y & ->).
      exists (x ++ SLASH :: y). by rewrite <-app_assoc.
    + injection Hqr as ->. by eapply within_below.
  - exists p. split; [done|]. unfold pattern_matches in *.
    destruct (has_glob_meta p) eqn:Hmeta; [by apply Hglob|by eapply within_below].
Qed.

(** An exclude glob matches the directory itself. *)
Definition glob_excludes (s : IndexScope) (a : str) : bool :=
  existsb (fun g => has_glob_meta g && glob_match g a) (excludes s).

(** Above a path that is not excluded, a directory is excluded only by such a glob. *)
Lemma excluded_directory_glob s a path : scope_parts s -> below a path ->
  matches glob_match (exclude_matcher s) path = false ->
  excludes_directory glob_match (exclude_matcher s) a = glob_excludes s a.
Proof.
  intros Hs Ha Hpath. pose proof Hs as [_ [Hex _] _ Hem]. apply eq_true_iff_eq. unfold glob_excludes.
  rewrite existsb_exists. split.
  - intros Hexc. destruct (existsb (fun g => has_glob_meta g && glob_match g a) (excludes s)) eqn:E;
      [by apply existsb_exists|]. exfalso. apply not_true_iff_false in Hpath. apply Hpath.
    eapply excluded_directory_excludes; [done|done| |exact Hexc]. intros g Hg Hmeta Hm. exfalso.
    apply not_true_iff_false in E. apply E, existsb_exists. exists g. rewrite Hmeta, Hm. by split; [apply list_elem_of_In|].
  - intros (g & Hg%list_elem_of_In & [Hmeta Hm]%andb_true_iff). unfold excludes_directory.
    rewrite orb_true_iff, (matches_spec _ _ _ a Hex Hem). right. exists g. split; [done|].
    unfold pattern_matches. by rewrite Hmeta.
Qed.

End ScopeFacts.

(** ** Lemmas: generated trees *)
Section PolicyFacts.
Variable glob_valid : str -> bool.
Variable glob_match : str -> str -> bool.
Variable digest_hex : str -> string.
Variable windows : bool.

Lemma generated_at_extends components rest b : rest <> [] ->
  generated_at windows components true = true ->
  generated_at windows (components ++ rest) b = true.
Proof.
  intros Hrest. destruct components as [|c cs]; [done|]. unfold generated_at.
  rewrite <-app_comm_cons. generalize GENERATED_DIRECTORY_NAMES as names.
  generalize GENERATED_DIRECTORY_PATHS as paths. intros paths names.
  rewrite !orb_true_iff. intros [Hn|Hp].
  - left. apply andb_true_iff in Hn as [Hn _]. rewrite Hn.
    rewrite (bool_decide_eq_false_2 (cs ++ rest = [])); [done|].
    intros [_ ?]%app_eq_nil. done.
  - right. apply existsb_exists in Hp as (g & Hg & Hm). apply existsb_exists. exists g.
    split; [done|]. apply andb_true_iff in Hm as [Hm _]. apply andb_true_iff in Hm as [Hl Hz].
    bool_to_prop. rewrite app_comm_cons.
    rewrite take_app_le by done. rewrite Hz.
    assert (Hlen : (length g < length ((c :: cs) ++ rest))%nat).
    { rewrite length_app. destruct rest; [done|]. simpl in *. lia. }
    rewrite (proj2 (Nat.leb_le _ _)) by lia. by rewrite (proj2 (Nat.ltb_lt _ _)).
Qed.

Lemma any_generated_extends components rest b : rest <> [] ->
  any_generated windows components true = true ->
  any_generated windows (components ++ rest) b = true.
Proof.
  intros Hrest. induction components as [|c cs IH]; [done|]. cbn [any_generated app].
  rewrite !orb_true_iff. intros [Hg|Hg]; [left|right; by apply IH].
  by apply (generated_at_extends (c :: cs)).
Qed.

(** Everything below a pruned directory is pruned. *)
Lemma generated_below a path b : below a path -> safe_path path ->
  is_generated_path windows a true = true -> is_generated_path windows path b = true.
Proof.
  intros (r & ->) Hsafe. unfold is_generated_path. rewrite split_slash_below, List.filter_app.
  intros Ha. apply any_generated_extends; [|done].
  assert (Hr : r <> []).
  { intros ->. destruct Hsafe as (cs & Hne & Hs & Heq).
    assert (Hin : [] ∈ split_slash (a ++ SLASH :: [])).
    { rewrite split_slash_below. apply elem_of_app. right. by left. }
    rewrite Heq, (split_safe cs Hne Hs) in Hin. rewrite Forall_forall in Hs.
    by destruct (Hs [] Hin) as [? _]. }
  destruct (split_by_cons_inv (Z.eqb SLASH) r) as (p & ps & E).
  unfold split_slash in *. rewrite E. simpl. destruct p as [|x p]; [|done].
  exfalso. destruct Hsafe as (cs & Hne & Hs & Heq).
  assert (Hin : [] ∈ split_slash (a ++ SLASH :: r)).
  { rewrite split_slash_below. apply elem_of_app. right. unfold split_slash. rewrite E. by left. }
  rewrite Heq, (split_safe cs Hne Hs) in Hin. rewrite Forall_forall in Hs.
  by destruct (Hs [] Hin) as [? _].
Qed.

Lemma git_metadata_below a path : below a path ->
  is_git_metadata_path a = true -> is_git_metadata_path path = true.
Proof.
  intros (r & ->). unfold is_git_metadata_path. rewrite split_slash_below, existsb_app.
  by intros ->.
Qed.

(** The built-in pruning is closed downwards: a directory that the policy rejects as Git
    metadata or as a generated tree rejects every canonical path below it, file or directory, so
    the walk that skips the directory sees the same members as a path-by-path check. *)
Theorem policy_prunes_downwards p a path is_dir :
  below a path -> safe_path path ->
  is_git_metadata_path a
    || (negb (include_generated p) && is_generated_path windows a true) = true ->
  policy_includes_path glob_match windows p path is_dir = false.
Proof.
  intros Ha Hsafe. unfold policy_includes_path. rewrite orb_true_iff, andb_true_iff.
  intros [Hg|[Hi Hg]].
  - by rewrite (git_metadata_below a path Ha Hg).
  - apply negb_true_iff in Hi. rewrite Hi, (generated_below a path is_dir Ha Hsafe Hg).
    simpl. by rewrite andb_false_r.
Qed.

(** Building a scope depends only on the sets of normalised patterns. *)
Lemma collect_results_perm {A B} (f : A -> result B) l1 l2 ys1 : l1 ≡ₚ l2 ->
  collect_results f l1 = Ok ys1 -> exists ys2, collect_results f l2 = Ok ys2 /\ ys1 ≡ₚ ys2.
Proof.
  intros Hp. revert ys1. induction Hp as [|x l l' _ IH|x y l|l l' l'' _ IH1 _ IH2]; simpl; intros ys1.
  - intros [= <-]. by exists [].
  - destruct (f x) as [y|]; simpl; [|done]. destruct (collect_results f l) as [ys|]; simpl; [|done].
    intros [= <-]. destruct (IH ys eq_refl) as (ys2 & -> & Hys). simpl. exists (y :: ys2).
    split; [done|by constructor].
  - destruct (f y) as [y'|]; simpl; [|done]. destruct (f x) as [x'|]; simpl; [|done].
    destruct (collect_results f l) as [ys|]; simpl; [|done]. intros [= <-].
    eexists. split; [done|constructor].
  - intros H1. destruct (IH1 ys1 H1) as (ys2 & H2 & P2). destruct (IH2 ys2 H2) as (ys3 & H3 & P3).
    exists ys3. split; [done|by etrans].
Qed.

Lemma total_len_perm l1 l2 : l1 ≡ₚ l2 ->
  foldr (fun p acc => token_len p + acc) 0 l1 = foldr (fun p acc => token_len p + acc) 0 l2.
Proof. induction 1; simpl; lia. Qed.

(** The index scope, and with it the cache identity it contributes to, does not depend on the
    order in which patterns are given, nor on how they are spelled: the stored patterns are
    strictly increasing and canonical. *)
Theorem new_scope_order_insensitive ins1 ins2 exs1 exs2 s :
  ins1 ≡ₚ ins2 -> exs1 ≡ₚ exs2 -> new_scope glob_valid digest_hex ins1 exs1 = Ok s ->
  new_scope glob_valid digest_hex ins2 exs2 = Ok s
  /\ increasing (includes s) /\ increasing (excludes s)
  /\ Forall safe_path (includes s) /\ Forall safe_path (excludes s).
Proof.
  intros Hi He Hs. pose proof (new_scope_parts _ _ _ _ _ Hs) as [[? ?] [? ?] _ _].
  split; [|done]. unfold new_scope in *.
  destruct (collect_results _ ins1) as [i1|] eqn:Ei1; simpl in Hs; [|done].
  destruct (collect_results _ exs1) as [e1|] eqn:Ee1; simpl in Hs; [|done].
  destruct (collect_results_perm _ _ _ _ Hi Ei1) as (i2 & -> & Pi).
  destruct (collect_results_perm _ _ _ _ He Ee1) as (e2 & -> & Pe). simpl.
  assert (Hl : len i1 = len i2 /\ len e1 = len e2).
  { unfold len. by rewrite Pi, Pe. }
  rewrite <-(proj1 Hl), <-(proj2 Hl), <-(total_len_perm (i1 ++ e1)) by (by rewrite Pi, Pe).
  rewrite <-(sort_dedup_unique i1 i2), <-(sort_dedup_unique e1 e2); [done|..];
    intros x; by rewrite ?Pi, ?Pe.
Qed.
End PolicyFacts.

(** ** Witnesses and an example *)

(** A glob engine for two shapes of pattern: [root/**] with a literal root, and [*suffix]. *)
Definition demo_match (g path : str) : bool :=
  match strip_suffix (lit "/**") g with
  | Some root => negb (has_glob_meta root) && path_is_within path root
                 && negb (bool_decide (path = root))
  | None =>
    match g with
    | star :: suffix =>
      (star =? 42) && negb (has_glob_meta suffix) && negb (contains SLASH suffix)
      && match strip_suffix suffix path with Some _ => true | None => false end
    | [] => false
    end
  end.

Lemma take_while_app {A} (f : A -> bool) l x l' : forallb f l = true -> f x = false ->
  take_while f (l ++ x :: l') = l.
Proof.
  intros Hl Hx. induction l as [|y l IH]; simpl in *; [by rewrite Hx|].
  apply andb_true_iff in Hl as [Hy Hl]. by rewrite Hy, IH.
Qed.

Lemma demo_static g path : demo_match g path = true ->
  static_prefix g = [] \/ path_is_within path (static_prefix g) = true.
Proof.
  unfold demo_match. destruct (strip_suffix (lit "/**") g) as [root|] eqn:Hs.
  - intros Hm. bool_to_prop. right. apply strip_suffix_spec in Hs as ->.
    assert (static_prefix (root ++ lit "/**") = root) as ->; [|done].
    change (lit "/**") with (SLASH :: lit "**"). unfold static_prefix. rewrite split_slash_below.
    change (split_slash (lit "**")) with [lit "**"]. rewrite take_while_app; [apply join_split| |done].
    apply forallb_forall. intros c Hc%list_elem_of_In. apply negb_true_iff.
    by eapply no_meta_component.
  - destruct g as [|star suffix]; [done|]. intros Hm. bool_to_prop. subst star. left.
    unfold static_prefix, split_slash.
    rewrite split_by_plain; [done|]. apply (forallb_not_sep SLASH).
    match goal with H : contains SLASH suffix = false |- _ => apply contains_false in H end.
    by intros [|]%elem_of_cons.
Qed.

Lemma demo_subtree root path : has_glob_meta root = false -> below root path ->
  demo_match (root ++ lit "/**") path = true.
Proof.
  intros Hr Hb. unfold demo_match.
  rewrite (proj2 (strip_suffix_spec (lit "/**") (root ++ lit "/**") root)) by done.
  rewrite Hr. simpl. rewrite (proj2 (path_is_within_spec path root)) by (by right). simpl.
  apply negb_true_iff, bool_decide_eq_false. intros ->. destruct Hb as (r & Hb).
  rewrite <-(app_nil_r root) in Hb at 1. by apply app_inv_head in Hb.
Qed.

(** An exclude glob that matches a directory by its own name prunes files that the scope itself
    admits: with the exclude pattern [*.d], which matches [conf.d] but not [conf.d/a.rs], the file
    is in scope and its directory is skipped by the walk. *)
Theorem scope_prunes_possible_match :
  match new_scope (fun _ => true) (fun _ => ""%string) [] [lit "*.d"] with
  | Ok s => includes_path demo_match s (lit "conf.d/a.rs") false = true
            /\ includes_path demo_match s (lit "conf.d") true = false
            /\ may_include_descendant demo_match s (lit "conf.d") = false
  | Err _ => False
  end.
Proof. vm_compute. done. Qed.

Lemma normalize_repository_value_canonical_witness :
  parse_path (lit "src\lib.rs") = Ok (lit "src/lib.rs")
  /\ parse_path (lit "src/lib.rs") = Ok (lit "src/lib.rs").
Proof.
  split; [vm_compute; reflexivity|].
  apply (normalize_repository_value_canonical (lit "src\lib.rs") "path" true
    MAX_REPOSITORY_PATH_BYTES (lit "src/lib.rs")); vm_compute; reflexivity.
Defined.

Lemma join_relative_stays_inside_witness :
  safe_path (lit "src/nested/module.rs")
  /\ match join_relative (lit "src/nested/module.rs") (lit "../shared.rs") with
     | Ok v => safe_path v /\ v = lit "src/shared.rs" | Err _ => False end.
Proof.
  assert (Hs : safe_path (lit "src/nested/module.rs")).
  { exists [lit "src"; lit "nested"; lit "module.rs"]. split_and!; [done| |done].
    repeat constructor; try discriminate; apply contains_false; vm_compute; reflexivity. }
  split; [exact Hs|].
  destruct (join_relative_stays_inside (lit "src/nested/module.rs") (lit "../shared.rs") Hs) as [H _].
  destruct (join_relative _ _) as [v|] eqn:E; [|vm_compute in E; discriminate].
  split; [apply H|]. vm_compute in E. injection E as <-. vm_compute. reflexivity.
Defined.


Lemma policy_prunes_downwards_witness :
  match new_scope (fun _ => true) (fun _ => ""%string) [] [] with
  | Ok s => policy_includes_path demo_match false (mk_policy false s)
              (lit "web/node_modules/x.js") false = false
  | Err _ => False
  end.
Proof.
  destruct (new_scope _ _ _ _) as [s|] eqn:E; [|vm_compute in E; discriminate].
  apply (policy_prunes_downwards demo_match false (mk_policy false s) (lit "web/node_modules")).
  - by exists (lit "x.js").
  - exists [lit "web"; lit "node_modules"; lit "x.js"]. split_and!; [done| |done].
    repeat constructor; try discriminate; apply contains_false; vm_compute; reflexivity.
  - vm_compute. reflexivity.
Defined.

Lemma new_scope_order_insensitive_witness :
  exists s, new_scope (fun _ => true) (fun _ => "d"%string) [lit "b/."; lit "a"] [] = Ok s
    /\ new_scope (fun _ => true) (fun _ => "d"%string) [lit "a"; lit "b/."] [] = Ok s.
Proof.
  destruct (new_scope (fun _ => true) (fun _ => "d"%string) [lit "b/."; lit "a"] []) as [s|] eqn:E;
    [|vm_compute in E; discriminate].
  exists s. split; [reflexivity|].
  apply (new_scope_order_insensitive (fun _ => true) (fun _ => "d"%string) [lit "b/."; lit "a"]
    [lit "a"; lit "b/."] [] [] s); [apply Permutation_swap|reflexivity|exact E].
Defined.
