(* ===== verification/StdPath.v ===== *)
(** * Paths of the standard library

    [std::path::Path] and [PathBuf] on Unix, as far as the sources use them: a
    path is its string of characters, and [components], [parent], [push],
    [pop], [file_name], [file_stem], [extension] and [with_extension] are the
    functions of the standard library on that string. *)

From S2P Require Import Prelude Chars Order Store Paths.
Open Scope Z_scope.

Definition DOT : Z := 46.

Inductive component := RootDir | CurDir | ParentDir | Normal (name : str).
#[export] Instance component_eq_dec : EqDecision component.
Proof. solve_decision. Defined.

(** A part between two separators; empty parts and [.] are skipped. *)
Definition skipped_part (part : str) : bool :=
  bool_decide (part = []) || bool_decide (part = [DOT]).
Definition body_component (part : str) : option component :=
  if skipped_part part then None
  else if bool_decide (part = [DOT; DOT]) then Some ParentDir
  else Some (Normal part).

(** [Path::components]: the first part may be the root or a leading [.]. *)
Definition components (p : str) : list component :=
  match split_slash p with
  | [] => []
  | first :: rest =>
    (if bool_decide (first = []) then match rest with [] => [] | _ => [RootDir] end
     else if bool_decide (first = [DOT]) then [CurDir]
     else match body_component first with Some c => [c] | None => [] end)
    ++ omap body_component rest
  end.

(** [Path::eq]. *)
Definition path_eq (p q : str) : bool := bool_decide (components p = components q).

Definition file_name (p : str) : option str :=
  match last (components p) with Some (Normal name) => Some name | _ => None end.

(** The parts, last first, without the skipped ones at the end. *)
Fixpoint trim_parts (parts : list str) : list str :=
  match parts with
  | [] => []
  | part :: rest =>
    match rest with
    | [] => parts
    | _ => if skipped_part part then trim_parts rest else parts
    end
  end.

Definition as_path (parts : list str) : str :=
  match parts with
  | [[]] => [SLASH]
  | _ => join_slash (rev parts)
  end.

Definition parent (p : str) : option str :=
  match trim_parts (rev (split_slash p)) with
  | [] => None
  | part :: rest =>
    match rest with
    | [] => if bool_decide (part = []) then None else Some []
    | _ => Some (as_path (trim_parts rest))
    end
  end.

(** [PathBuf::pop]; [None] is the answer [false]. *)
Definition pop (buf : str) : option str := parent buf.

Definition is_absolute (p : str) : bool :=
  match p with c :: _ => c =? SLASH | [] => false end.

(** [PathBuf::push] and [Path::join]. *)
Definition push (buf p : str) : str :=
  if is_absolute p then p
  else match last buf with
       | Some c => if c =? SLASH then buf ++ p else buf ++ SLASH :: p
       | None => p
       end.

(** [rsplit_once('.')]. *)
Fixpoint rsplit_dot (s : str) : option (str * str) :=
  match s with
  | [] => None
  | c :: s =>
    match rsplit_dot s with
    | Some (before, after) => Some (c :: before, after)
    | None => if c =? DOT then Some ([], s) else None
    end
  end.

(** [rsplit_file_at_dot]. *)
Definition rsplit_file_at_dot (file : str) : option str * option str :=
  if bool_decide (file = [DOT; DOT]) then (Some file, None)
  else match rsplit_dot file with
       | None => (None, Some file)
       | Some (before, after) =>
         if bool_decide (before = []) then (Some file, None) else (Some before, Some after)
       end.

Definition file_stem (p : str) : option str :=
  match file_name p with
  | None => None
  | Some file => match rsplit_file_at_dot file with
                 | (Some before, _) => Some before
                 | (None, after) => after
                 end
  end.

Definition extension (p : str) : option str :=
  match file_name p with
  | None => None
  | Some file => match rsplit_file_at_dot file with
                 | (Some _, after) => after
                 | (None, _) => None
                 end
  end.

(** The path up to its stem, then the new extension. *)
Definition with_extension (p ext : str) : str :=
  match file_stem p with
  | None => p
  | Some stem =>
    let file := if bool_decide (ext = []) then stem else stem ++ DOT :: ext in
    join_slash (rev (tail (trim_parts (rev (split_slash p)))) ++ [file])
  end.

(** ** Lemmas: canonical paths *)

Definition name_component (c : str) : Prop :=
  c <> [] /\ c <> [DOT] /\ c <> [DOT; DOT] /\ (SLASH ∉ c).
Definition canonical (cs : list str) : Prop := Forall name_component cs.

Lemma safe_name_component c : safe_component c -> name_component c.
Proof. by intros (H1 & H2 & H3 & H4 & _). Qed.

Lemma name_not_skipped c : name_component c -> skipped_part c = false.
Proof.
  intros (H1 & H2 & _). unfold skipped_part. by rewrite !bool_decide_eq_false_2.
Qed.

Lemma name_body c : name_component c -> body_component c = Some (Normal c).
Proof.
  intros Hc. unfold body_component. rewrite (name_not_skipped c Hc).
  destruct Hc as (_ & _ & H & _). by rewrite bool_decide_eq_false_2.
Qed.

Lemma canonical_split cs : cs <> [] -> canonical cs -> split_slash (join_slash cs) = cs.
Proof.
  intros Hne Hcs. apply split_join; [done|].
  eapply Forall_impl; [exact Hcs|]. by intros c (_ & _ & _ & H).
Qed.

Lemma omap_body cs : canonical cs -> omap body_component cs = map Normal cs.
Proof.
  induction 1 as [|c cs Hc _ IH]; [done|]. cbn. by rewrite (name_body c Hc), IH.
Qed.

Lemma components_canonical cs : canonical cs -> components (join_slash cs) = map Normal cs.
Proof.
  intros Hcs. destruct cs as [|c cs]; [done|]. unfold components.
  rewrite canonical_split by done. apply Forall_cons in Hcs as [Hc Hcs].
  pose proof (name_body c Hc) as Hb. destruct Hc as (H1 & H2 & _).
  rewrite bool_decide_eq_false_2, bool_decide_eq_false_2 by done. rewrite Hb, (omap_body cs Hcs). done.
Qed.

Lemma file_name_canonical cs c : canonical (cs ++ [c]) -> file_name (join_slash (cs ++ [c])) = Some c.
Proof.
  intros Hcs. unfold file_name. rewrite components_canonical by done.
  rewrite map_app. cbn [map]. by rewrite last_snoc.
Qed.

Lemma trim_parts_canonical cs : canonical cs -> trim_parts (rev cs) = rev cs.
Proof.
  intros Hcs. apply Forall_rev in Hcs. destruct (rev cs) as [|part rest]; [done|].
  apply Forall_cons in Hcs as [Hp _]. cbn. rewrite (name_not_skipped part Hp). by destruct rest.
Qed.

Lemma as_path_canonical cs : canonical cs -> as_path (rev cs) = join_slash cs.
Proof.
  intros Hcs. unfold as_path. destruct (rev cs) as [|part rest] eqn:E.
  - apply (f_equal (@rev _)) in E. rewrite rev_involutive in E. by subst.
  - assert (part <> []) as Hp.
    { assert (name_component part) as [H _]; [|done].
      rewrite <-(rev_involutive cs), E in Hcs. apply Forall_rev in Hcs.
      rewrite rev_involutive in Hcs. by apply Forall_cons in Hcs as [? _]. }
    rewrite <-E, rev_involutive. by destruct part.
Qed.

Lemma parent_canonical cs c : canonical (cs ++ [c]) -> parent (join_slash (cs ++ [c])) = Some (join_slash cs).
Proof.
  intros Hcs. unfold parent. rewrite canonical_split by (done || by destruct cs).
  rewrite trim_parts_canonical by done. rewrite rev_app_distr. cbn [rev app].
  apply Forall_app in Hcs as [Hcs Hc]. apply Forall_cons in Hc as [(Hc & _) _].
  destruct (rev cs) as [|part rest] eqn:E.
  - apply (f_equal (@rev _)) in E. rewrite rev_involutive in E. subst. by rewrite bool_decide_eq_false_2.
  - rewrite <-E, trim_parts_canonical, as_path_canonical by done. done.
Qed.

Lemma join_slash_snoc cs c : cs <> [] -> join_slash (cs ++ [c]) = join_slash cs ++ SLASH :: c.
Proof.
  induction cs as [|d cs IH]; [done|]. intros _. destruct cs as [|e cs]; [done|].
  change (join_slash ((d :: e :: cs) ++ [c])) with (d ++ SLASH :: join_slash ((e :: cs) ++ [c])).
  rewrite IH by done. change (join_slash (d :: e :: cs)) with (d ++ SLASH :: join_slash (e :: cs)).
  by rewrite <-app_assoc.
Qed.

Lemma last_join cs : cs <> [] -> canonical cs -> exists c, last (join_slash cs) = Some c /\ c <> SLASH.
Proof.
  intros Hne Hcs. destruct cs as [|d ds _] using rev_ind; [done|].
  apply Forall_app in Hcs as [_ Hd]. apply Forall_cons in Hd as [(Hd & _ & _ & Hs) _].
  destruct d as [|c d' _] using rev_ind; [done|]. exists c. split.
  - destruct ds as [|e ds]; [by cbn; rewrite last_snoc|]. rewrite join_slash_snoc by done.
    by rewrite app_comm_cons, app_assoc, last_snoc.
  - intros ->. apply Hs. apply elem_of_app. right. by left.
Qed.

Lemma name_relative c : name_component c -> is_absolute c = false.
Proof.
  intros (H & _ & _ & Hs). destruct c as [|x c]; [done|]. apply Z.eqb_neq. intros ->.
  apply Hs. by left.
Qed.

Lemma push_canonical cs c : canonical cs -> name_component c ->
  push (join_slash cs) c = join_slash (cs ++ [c]).
Proof.
  intros Hcs Hc. unfold push. rewrite (name_relative c Hc).
  destruct cs as [|d cs]; [done|]. destruct (last_join (d :: cs)) as (x & -> & Hx); [done..|].
  rewrite (proj2 (Z.eqb_neq _ _) Hx). by rewrite join_slash_snoc.
Qed.

Lemma file_stem_canonical cs c : canonical (cs ++ [c]) ->
  exists stem, file_stem (join_slash (cs ++ [c])) = Some stem /\ stem <> [] /\ stem `sublist_of` c.
Proof.
  intros Hcs. unfold file_stem. rewrite file_name_canonical by done.
  apply Forall_app in Hcs as [_ Hc]. apply Forall_cons in Hc as [(Hc & Hd & Hdd & Hs) _].
  unfold rsplit_file_at_dot. rewrite bool_decide_eq_false_2 by done.
  assert (forall b a, rsplit_dot c = Some (b, a) -> b `sublist_of` c) as Hsub.
  { clear. induction c as [|x c IH]; [done|]. cbn. intros b a.
    destruct (rsplit_dot c) as [[b' a']|].
    - intros [= <- <-]. by apply sublist_skip, (IH _ a').
    - destruct (x =? DOT); [intros [= <- <-]; apply sublist_nil_l|done]. }
  destruct (rsplit_dot c) as [[b a]|]; [|by exists c].
  case_bool_decide; [by exists c|]. exists b. by split_and!; [..|apply (Hsub b a)].
Qed.

Lemma with_extension_canonical cs c ext : canonical (cs ++ [c]) -> ext <> [] -> (SLASH ∉ ext) ->
  exists c', name_component c' /\ with_extension (join_slash (cs ++ [c])) ext = join_slash (cs ++ [c']).
Proof.
  intros Hcs He Hes. destruct (file_stem_canonical cs c Hcs) as (stem & Hstem & Hne & Hsub).
  exists (stem ++ DOT :: ext). split.
  - apply Forall_app in Hcs as [_ Hc]. apply Forall_cons in Hc as [(_ & _ & _ & Hs) _].
    split_and!; [by destruct stem|..].
    + destruct stem as [|? [|]]; done.
    + destruct stem as [|? [|? [|]]]; [done| |done|done]. intros [= ? ?]. by destruct ext.
    + intros [Hin|[|Hin]%elem_of_cons]%elem_of_app; [|done|done].
      apply Hs. by eapply elem_of_sublist.
  - unfold with_extension. rewrite Hstem, bool_decide_eq_false_2 by done.
    rewrite canonical_split by (done || by destruct cs). rewrite trim_parts_canonical by done.
    rewrite rev_app_distr. cbn [rev app tail]. by rewrite rev_involutive.
Qed.

(** A name among the components has no separator and is not a dot part. *)
Lemma components_names p name : Normal name ∈ components p -> name_component name.
Proof.
  assert (forall part, (SLASH ∉ part) -> forall n, body_component part = Some (Normal n) -> name_component n) as Hb.
  { intros part Hs n. unfold body_component, skipped_part.
    destruct (bool_decide_reflect (part = [])); [done|]. cbn.
    destruct (bool_decide_reflect (part = [DOT])); [done|]. cbn.
    case_bool_decide; [done|]. by intros [= <-]. }
  unfold components. pose proof (split_by_no_sep SLASH p) as Hall. fold (split_slash p) in Hall.
  destruct (split_slash p) as [|first rest]; [by intros ?%elem_of_nil|].
  apply Forall_cons in Hall as [Hf Hr]. intros [Hin|Hin]%elem_of_app.
  - case_bool_decide; [destruct rest; [by apply elem_of_nil in Hin|]; by apply list_elem_of_singleton in Hin|].
    case_bool_decide; [by apply list_elem_of_singleton in Hin|].
    destruct (body_component first) as [c|] eqn:E; [|by apply elem_of_nil in Hin].
    apply list_elem_of_singleton in Hin as <-. by apply (Hb first).
  - apply list_elem_of_omap in Hin as (part & Hp & Hbody). rewrite Forall_forall in Hr.
    by apply (Hb part); [apply Hr|].
Qed.
