(* ===== verification/ImportResolution.v ===== *)
(** * Import resolution

    [src/src/indexer/import_resolution.rs]: the candidate paths an import
    statement may refer to, per language, and the first of them that is an
    indexed file.  Paths and targets are their strings of characters; the go.mod
    files of a run are the map from their path to the module they declare. *)

From S2P Require Import Prelude Chars Order Store Paths StdPath.
Open Scope Z_scope.

Definition MAX_IMPORT_CANDIDATES_PER_IMPORT : Z := 64.
Definition MAX_IMPORT_CANDIDATE_PATH_BYTES : Z := 4 * 1024.
Definition MAX_IMPORT_TARGET_BYTES : Z := 16 * 1024.
Definition MAX_RUST_MODULE_BASES : Z := MAX_IMPORT_CANDIDATES_PER_IMPORT / 2.
Definition MAX_GO_MOD_BYTES : Z := 64 * 1024.
Definition MAX_GO_MOD_WALK_DEPTH : nat := 64.

Record ImportProjectionValue := mk_projection {
  resolved_path : option str;
  candidate_paths : list str
}.
#[export] Instance projection_eq_dec : EqDecision ImportProjectionValue.
Proof. solve_decision. Defined.

(** [GoModuleIndex]: path of the go.mod file to declared module. *)
Abbreviation GoModuleIndex := (gmap str str).

(** ** go.mod files *)
Definition is_go_mod_path (path : str) : bool :=
  bool_decide (path = lit "go.mod") || ends_with (lit "/go.mod") path.

(** [str::lines]. *)
Definition strip_carriage_return (line : str) : str := default line (strip_suffix [13] line).
Fixpoint lines_of (pieces : list str) : list str :=
  match pieces with
  | [] => []
  | piece :: rest =>
    match rest with
    | [] => if bool_decide (piece = []) then [] else [piece]
    | _ => strip_carriage_return piece :: lines_of rest
    end
  end.
Definition lines (content : str) : list str := lines_of (split_by (Z.eqb 10) content).

Fixpoint parse_module_lines (ls : list str) : option str :=
  match ls with
  | [] => None
  | line :: ls =>
    match strip_prefix (lit "module ") (trim line) with
    | None => parse_module_lines ls
    | Some rest =>
      let module_path :=
        trim_by (Z.eqb 39) (trim_by (Z.eqb 34) (trim (first_piece (split_str (lit "//") rest)))) in
      if bool_decide (module_path = []) || (MAX_IMPORT_TARGET_BYTES <? token_len module_path)
      then parse_module_lines ls
      else Some module_path
    end
  end.
Definition parse_module_directive (content : str) : option str := parse_module_lines (lines content).

(** [sorted_indexed_paths], of the set of paths. *)
Definition sorted_indexed_paths (repository_paths : gset str) : list str :=
  sort_keys (elements repository_paths).

(** ** Candidates *)

(** The loop of [normalize_relative]. *)
Fixpoint normalize_components (normalized : str) (cs : list component) : option str :=
  match cs with
  | [] => Some normalized
  | CurDir :: cs => normalize_components normalized cs
  | Normal part :: cs => normalize_components (push normalized part) cs
  | ParentDir :: cs =>
    match pop normalized with Some popped => normalize_components popped cs | None => None end
  | RootDir :: _ => None
  end.
Definition normalize_relative (path : str) : option str := normalize_components [] (components path).

Definition push_candidate (candidates : list str) (candidate : str) : list str :=
  if MAX_IMPORT_CANDIDATES_PER_IMPORT <=? len candidates then candidates
  else
    match normalize_relative candidate with
    | None => candidates
    | Some candidate =>
      let candidate := replace_char BACKSLASH SLASH candidate in
      if MAX_IMPORT_CANDIDATE_PATH_BYTES <? token_len candidate then candidates
      else if bool_decide (candidate ∈ candidates) then candidates
      else candidates ++ [candidate]
    end.
(** The pushes of a function, in order. *)
Definition push_all (candidates pushed : list str) : list str := fold_left push_candidate pushed candidates.

Definition source_relative_base (source_path raw_target : str) : option str :=
  match parse_path source_path with
  | Err _ => None
  | Ok path => match join_relative path raw_target with Ok base => Some base | Err _ => None end
  end.
Definition relative_import_base (source_path raw_target : str) : option str :=
  match raw_target with
  | c :: _ => if c =? DOT then source_relative_base source_path raw_target else None
  | [] => None
  end.

(** *** Python *)
Fixpoint source_root_from (prefix : str) (found : option str) (cs : list component)
    : option str :=
  match cs with
  | [] => found
  | Normal part :: cs =>
    let prefix := push prefix part in
    source_root_from prefix (if bool_decide (part = lit "src") then Some prefix else found) cs
  | _ => None
  end.
Definition conventional_python_source_root (source : str) : option str :=
  match parent source with
  | None => None
  | Some dir => source_root_from [] None (components dir)
  end.

(** [for _ in 1..level { base.pop() }]. *)
Fixpoint pop_times (n : nat) (base : str) : option str :=
  match n with
  | O => Some base
  | S n => match pop base with Some base => pop_times n base | None => None end
  end.

Definition python_module_paths (source raw_target : str) : list str :=
  let level := length (take_while (Z.eqb DOT) raw_target) in
  let module := replace_char DOT SLASH (drop level raw_target) in
  match level with
  | O =>
    match conventional_python_source_root source with
    | Some root => if path_eq (push root module) module then [push root module]
                   else [push root module; module]
    | None => [module]
    end
  | S climbs =>
    match pop_times climbs (default [] (parent source)) with
    | None => []
    | Some base => [if bool_decide (module = []) then base else push base module]
    end
  end.

Definition python_candidates_of (base : str) : list str :=
  match normalize_relative base with
  | None => []
  | Some base =>
    map (fun extension => with_extension (push base (lit "__init__")) (lit extension)) ["py"; "pyi"]%string
    ++ map (fun extension => with_extension base (lit extension)) ["py"; "pyi"]%string
  end.
Definition python_import_candidates (source raw_target : str) : list str :=
  push_all [] (concat (map python_candidates_of (python_module_paths source raw_target))).

(** *** JavaScript and TypeScript *)
Definition JS_EXTENSIONS : list string := ["js"; "mjs"; "cjs"; "jsx"].
Definition javascript_import_candidates (source_path raw_target : str) : list str :=
  match relative_import_base source_path raw_target with
  | None => []
  | Some base =>
    match extension base with
    | Some _ => push_all [] [base]
    | None =>
      push_all [] (map (fun e => with_extension base (lit e)) JS_EXTENSIONS
                   ++ map (fun e => with_extension (push base (lit "index")) (lit e)) JS_EXTENSIONS)
    end
  end.

Definition substitutions (extension : option str) : list string :=
  match extension with
  | None => ["ts"; "tsx"; "d.ts"; "js"; "jsx"]
  | Some e =>
    if bool_decide (e = lit "js") then ["ts"; "tsx"; "d.ts"; "js"; "jsx"]
    else if bool_decide (e = lit "jsx") then ["tsx"; "d.ts"; "jsx"]
    else if bool_decide (e = lit "mjs") then ["mts"; "d.mts"; "mjs"]
    else if bool_decide (e = lit "cjs") then ["cts"; "d.cts"; "cjs"]
    else []
  end%string.
Definition typescript_import_candidates (source_path raw_target : str) : list str :=
  match relative_import_base source_path raw_target with
  | None => []
  | Some base =>
    let e := extension base in
    if bool_decide (e = None) && bool_decide (extension source_path = Some (lit "mts")) then []
    else
      match substitutions e with
      | [] => push_all [] [base]
      | subs =>
        push_all [] (map (fun s => with_extension base (lit s)) subs
          ++ match e with
             | None => map (fun s => with_extension (push base (lit "index")) (lit s)) subs
             | Some _ => []
             end)
      end
  end.

(** *** Rust *)

(** [components.iter().rposition(p)]. *)
Definition rposition {A} (p : A -> bool) (l : list A) : option nat :=
  (fun i => (length l - 1 - i)%nat) <$> position p (rev l).

Definition normal_names (cs : list component) : list str :=
  omap (fun c => match c with Normal name => Some name | _ => None end) cs.

Definition push_each (root : str) (names : list str) : str := fold_left push names root.

Definition rust_test_directory (name : str) : bool :=
  bool_decide (name ∈ map lit ["tests"; "examples"; "benches"]%string).

(** Always one root. *)
Definition rust_crate_root (source : str) : str :=
  let names := normal_names (components source) in
  let file_index := pred (length names) in
  match rposition (fun c => bool_decide (c = lit "src")) (take file_index names) with
  | Some index =>
    let root := push_each [] (take (S index) names) in
    if bool_decide (names !! S index = Some (lit "bin")) then
      let root := push root (lit "bin") in
      if (index + 2 <? file_index)%nat then push root (default [] (names !! (index + 2)%nat)) else root
    else root
  | None =>
    match rposition rust_test_directory (take file_index names) with
    | Some index =>
      let root := push_each [] (take (S index) names) in
      if (S index <? file_index)%nat then push root (default [] (names !! S index)) else root
    | None => default [] (parent source)
    end
  end.

Definition rust_source_module_dir (source crate_root : str) : str :=
  let dir := default [] (parent source) in
  match file_stem source with
  | None => dir
  | Some stem =>
    if bool_decide (stem ∈ map lit ["lib"; "main"; "mod"]%string) then dir
    else if bool_decide (dir = [])
            || (path_eq dir crate_root
                && match file_name dir with
                   | Some name => bool_decide (name = lit "bin") || rust_test_directory name
                   | None => false
                   end)
    then dir
    else push dir stem
  end.

(** [while let Some(rest) = target.strip_prefix("super::")]; every round
    shortens the target. *)
Fixpoint strip_supers (fuel : nat) (crate_root root target : str) : option (str * str) :=
  match strip_prefix (lit "super::") target with
  | None => Some (root, target)
  | Some rest =>
    match fuel with
    | O => None
    | S fuel =>
      if path_eq root crate_root then None
      else match pop root with
           | Some root => strip_supers fuel crate_root root rest
           | None => None
           end
    end
  end.

(** The rest of the target and the root its path starts at; [None] is an
    early return of the empty list. *)
Definition rust_target_root (source raw_target : str) : option (str * str) :=
  let trimmed := trim raw_target in
  let crate_root := rust_crate_root source in
  match strip_prefix (lit "crate::") trimmed with
  | Some target => Some (crate_root, target)
  | None =>
    match strip_prefix (lit "self::") trimmed with
    | Some target => Some (rust_source_module_dir source crate_root, target)
    | None =>
      match strip_prefix (lit "super::") trimmed with
      | Some _ => strip_supers (length trimmed) crate_root
                    (rust_source_module_dir source crate_root) trimmed
      | None => Some (crate_root, trimmed)
      end
    end
  end.

Definition LBRACE : Z := 123.
Definition RBRACE : Z := 125.
Definition COMMA : Z := 44.
Definition COLON : Z := 58.

(** The loop over the items of a group; [None] when there are too many. *)
Fixpoint group_targets (prefix : str) (items : list str) (targets : list str) : option (list str) :=
  match items with
  | [] => Some targets
  | item :: items =>
    let item := trim (first_piece (split_str (lit " as ") (trim item))) in
    if bool_decide (item = []) then group_targets prefix items targets
    else
      let full := if bool_decide (prefix = []) then item else prefix ++ lit "::" ++ item in
      let targets := targets ++ [full] in
      if MAX_RUST_MODULE_BASES <? len targets then None else group_targets prefix items targets
  end.

Definition rust_targets (stripped : str) : option (list str) :=
  let prefix := trim_end_by (Z.eqb COLON) (trim_end_by (Z.eqb COLON)
                  (first_piece (split_by (Z.eqb LBRACE) stripped))) in
  match split_by (Z.eqb LBRACE) stripped with
  | _ :: rest :: _ =>
    group_targets prefix (split_by (Z.eqb COMMA) (first_piece (split_by (Z.eqb RBRACE) rest))) []
  | _ =>
    let single := trim (first_piece (split_str (lit " as ") stripped)) in
    Some (if bool_decide (single = []) then [] else [single])
  end.

Definition segments_of (target : str) : list str :=
  List.filter (fun s => negb (bool_decide (s = []))) (split_str (lit "::") target).

(** The parsed targets, unless they need too many bases. *)
Fixpoint parse_targets (targets : list str) (required : Z) : option (list (list str)) :=
  match targets with
  | [] => Some []
  | target :: targets =>
    match segments_of target with
    | [] => parse_targets targets required
    | segments =>
      match u64_checked_add required (len segments) with
      | Some total =>
        if total <=? MAX_RUST_MODULE_BASES
        then (fun rest => segments :: rest) <$> parse_targets targets total
        else None
      | None => None
      end
    end
  end.

(** [(1..=segments.len()).rev()]. *)
Definition prefixes (segments : list str) : list (list str) :=
  map (fun n => take n segments) (rev (seq 1 (length segments))).

Definition rust_module_paths (source raw_target : str) : list str :=
  match rust_target_root source raw_target with
  | None => []
  | Some (root, stripped) =>
    match rust_targets stripped with
    | None => []
    | Some targets =>
      match parse_targets targets 0 with
      | None => []
      | Some parsed =>
        concat (map (fun segments => map (fun p => push root (join_slash p)) (prefixes segments)) parsed)
      end
    end
  end.

Definition rust_candidates_of (base : str) : list str :=
  match normalize_relative base with
  | None => []
  | Some base =>
    match extension base with
    | Some _ => [base]
    | None => [with_extension base (lit "rs"); push base (lit "mod.rs")]
    end
  end.
Definition rust_import_candidates (source raw_target : str) : list str :=
  push_all [] (concat (map rust_candidates_of (rust_module_paths source raw_target))).

(** *** LaTeX and web resources *)
Definition latex_import_candidates (source_path raw_target : str) : list str :=
  match source_relative_base source_path raw_target with
  | None => []
  | Some base =>
    match extension base with
    | Some _ => push_all [] [base]
    | None => push_all [] (map (fun e => with_extension base (lit e)) ["tex"; "ltx"]%string)
    end
  end.

Definition web_resource_import_candidates (source_path raw_target : str) : list str :=
  if contains_any (lit "?#") raw_target then []
  else match relative_import_base source_path raw_target with
       | None => []
       | Some base => push_all [] [base]
       end.

(** *** Go *)

(** [partition_point(|path| path < prefix)] of the sorted paths. *)
Fixpoint first_not_below (prefix : str) (paths : list str) : nat :=
  match paths with
  | [] => O
  | path :: paths => if key_lt path prefix then S (first_not_below prefix paths) else O
  end.

(** A [.go] file directly below the prefix that is not a test file. *)
Definition represents_package (direct : str) : bool :=
  negb (contains SLASH direct) && ends_with (lit ".go") direct
  && negb (ends_with (lit "_test.go") direct).

Fixpoint first_go_file (prefix : str) (paths : list str) : option str :=
  match paths with
  | [] => None
  | path :: paths =>
    match strip_prefix prefix path with
    | None => None
    | Some direct => if represents_package direct then Some path else first_go_file prefix paths
    end
  end.

Definition package_prefix (package_dir : str) : str :=
  if bool_decide (package_dir = []) then [] else package_dir ++ [SLASH].
Definition minimum_indexed_go_file (package_dir : str) (sorted_paths : list str) : option str :=
  let prefix := package_prefix package_dir in
  let start := if bool_decide (prefix = []) then O else first_not_below prefix sorted_paths in
  first_go_file prefix (drop start sorted_paths).

(** What follows the module path in the target, if the module is the target or
    a prefix of it at a segment boundary. *)
Definition module_remainder (module_path target : str) : option str :=
  if bool_decide (target = module_path) then Some []
  else match strip_prefix module_path target with
       | Some (c :: remainder) => if c =? SLASH then Some remainder else None
       | _ => None
       end.

Definition go_package_dir (go_mod_path remainder : str) : option str :=
  let go_mod_dir := default [] (parent go_mod_path) in
  if bool_decide (remainder = []) then Some go_mod_dir
  else match normalize_relative remainder with
       | None => None
       | Some package_dir =>
         let package_dir := replace_char BACKSLASH SLASH package_dir in
         Some (if bool_decide (package_dir = []) || bool_decide (go_mod_dir = []) then package_dir
               else go_mod_dir ++ SLASH :: package_dir)
       end.

(** The walk up from the source's directory, at most [depth] directories. *)
Fixpoint go_walk (depth : nat) (dir : option str) (target : str) (go_modules : GoModuleIndex)
    (sorted_paths : list str) : list str :=
  match dir, depth with
  | Some dir, S depth =>
    let go_mod_path := replace_char BACKSLASH SLASH (push dir (lit "go.mod")) in
    match go_modules !! go_mod_path with
    | None => go_walk depth (parent dir) target go_modules sorted_paths
    | Some module_path =>
      match module_remainder module_path target with
      | None => []
      | Some remainder =>
        match go_package_dir go_mod_path remainder with
        | None => []
        | Some package_dir => option_list (minimum_indexed_go_file package_dir sorted_paths)
        end
      end
    end
  | _, _ => []
  end.

Definition is_quote (c : Z) : bool := (c =? 34) || (c =? 39).
Definition go_import_candidates (source raw_target : str) (go_modules : GoModuleIndex)
    (sorted_paths : list str) : list str :=
  let target := trim_by is_quote raw_target in
  if bool_decide (target = []) then []
  else go_walk MAX_GO_MOD_WALK_DEPTH (parent source) target go_modules sorted_paths.

(** *** Dispatch on the language of the source *)
Inductive ImportResolutionPolicy :=
| Python | JavaScript | TypeScript | Rust | Latex | WebResource | Go | Unsupported.

Definition has_extension (e : str) (names : list string) : bool := bool_decide (e ∈ map lit names).
Definition for_source (source : str) : ImportResolutionPolicy :=
  match extension source with
  | None => Unsupported
  | Some e =>
    if has_extension e ["py"; "pyi"] then Python
    else if has_extension e ["js"; "mjs"; "cjs"; "jsx"] then JavaScript
    else if has_extension e ["ts"; "mts"; "cts"; "tsx"] then TypeScript
    else if has_extension e ["rs"] then Rust
    else if has_extension e ["tex"; "ltx"] then Latex
    else if has_extension e ["html"; "htm"] then WebResource
    else if has_extension e ["go"] then Go
    else Unsupported
  end%string.

Definition import_candidates (source_path raw_target : str) (sorted_paths : list str)
    (go_modules : GoModuleIndex) : list str :=
  if MAX_IMPORT_TARGET_BYTES <? token_len raw_target then []
  else
    match for_source source_path with
    | Python => python_import_candidates source_path raw_target
    | JavaScript => javascript_import_candidates source_path raw_target
    | TypeScript => typescript_import_candidates source_path raw_target
    | Rust => rust_import_candidates source_path raw_target
    | Latex => latex_import_candidates source_path raw_target
    | WebResource => web_resource_import_candidates source_path raw_target
    | Go => go_import_candidates source_path raw_target go_modules sorted_paths
    | Unsupported => []
    end.

(** ** Resolution *)
Fixpoint resolve_import_candidates (candidates sorted_paths : list str) : option str :=
  match candidates with
  | [] => None
  | candidate :: candidates =>
    if binary_search_found sorted_paths candidate then Some candidate
    else resolve_import_candidates candidates sorted_paths
  end.

Definition derive_import_projection (source_path raw_target : str) (sorted_paths : list str)
    (go_modules : GoModuleIndex) : ImportProjectionValue :=
  let candidate_paths := import_candidates source_path raw_target sorted_paths go_modules in
  mk_projection (resolve_import_candidates candidate_paths sorted_paths) candidate_paths.

(** The fuel of the [super::] loop is enough: any larger one gives the same result. *)
Lemma strip_supers_enough fuel1 fuel2 crate_root root target :
  (length target <= fuel1)%nat -> (length target <= fuel2)%nat ->
  strip_supers fuel1 crate_root root target = strip_supers fuel2 crate_root root target.
Proof.
  revert fuel2 root target. induction fuel1 as [|fuel1 IH]; intros fuel2 root target H1 H2.
  - assert (target = []) as -> by (destruct target; [done|cbn in H1; lia]). by destruct fuel2.
  - destruct fuel2 as [|fuel2].
    { assert (target = []) as -> by (destruct target; [done|cbn in H2; lia]). done. }
    cbn [strip_supers]. destruct (strip_prefix (lit "super::") target) as [rest|] eqn:E; [|done].
    destruct (path_eq root crate_root); [done|]. destruct (pop root); [|done].
    apply strip_prefix_spec in E as ->. rewrite length_app in H1, H2. cbn in H1, H2. apply IH; lia.
Qed.

(** ** Lemmas: normalisation *)

Lemma normalize_components_canonical cs comps out : canonical cs ->
  (forall name, Normal name ∈ comps -> name_component name) ->
  normalize_components (join_slash cs) comps = Some out -> exists ds, canonical ds /\ out = join_slash ds.
Proof.
  revert cs. induction comps as [|c comps IH]; cbn; intros cs Hcs Hnames.
  { intros [= <-]. by exists cs. }
  assert (forall name, Normal name ∈ comps -> name_component name) as Hrest.
  { intros name Hin. apply Hnames. by right. }
  destruct c as [| | |part]; [done|by apply IH| |].
  - destruct cs as [|d cs _] using rev_ind; [done|]. unfold pop. rewrite parent_canonical by done.
    apply Forall_app in Hcs as [Hcs _]. by apply IH.
  - assert (name_component part) as Hp by (apply Hnames; by left).
    rewrite push_canonical by done. apply IH; [|done].
    apply Forall_app. split; [done|by constructor].
Qed.

Lemma normalize_relative_canonical p out : normalize_relative p = Some out ->
  exists cs, canonical cs /\ out = join_slash cs.
Proof. apply (normalize_components_canonical []); [constructor|apply components_names]. Qed.

Lemma normalize_canonical cs : canonical cs -> normalize_relative (join_slash cs) = Some (join_slash cs).
Proof.
  intros Hcs. unfold normalize_relative. rewrite components_canonical by done.
  enough (forall ds, canonical ds -> canonical cs ->
    normalize_components (join_slash ds) (map Normal cs) = Some (join_slash (ds ++ cs))) as H
    by (apply (H []); [constructor|done]).
  clear. induction cs as [|c cs IH]; intros ds Hds Hcs; [by rewrite app_nil_r|]. cbn.
  apply Forall_cons in Hcs as [Hc Hcs]. rewrite push_canonical by done.
  rewrite IH; [by rewrite <-app_assoc| |done]. apply Forall_app. split; [done|by constructor].
Qed.

Lemma join_slash_nil cs : canonical cs -> join_slash cs = [] -> cs = [].
Proof.
  intros Hcs. destruct cs as [|c cs]; [done|]. apply Forall_cons in Hcs as [(Hc & _) _].
  unfold join_slash. rewrite join_cons. by destruct c, cs.
Qed.

(** A path that does not normalise to the root. *)
Definition not_root (p : str) : Prop := normalize_relative p <> Some [].

Lemma canonical_not_root cs c : canonical (cs ++ [c]) -> not_root (join_slash (cs ++ [c])).
Proof.
  intros Hcs. unfold not_root. rewrite normalize_canonical by done. intros [= Hnil].
  apply join_slash_nil in Hnil; [by destruct cs|done].
Qed.

Lemma canonical_snoc cs c c' : canonical (cs ++ [c]) -> name_component c' -> canonical (cs ++ [c']).
Proof. intros [Hcs _]%Forall_app Hc. apply Forall_app. split; [done|by constructor]. Qed.

Lemma with_extension_not_root cs c ext : canonical (cs ++ [c]) -> ext <> [] -> (SLASH ∉ ext) ->
  not_root (with_extension (join_slash (cs ++ [c])) ext).
Proof.
  intros Hcs He Hs. destruct (with_extension_canonical cs c ext Hcs He Hs) as (c' & Hc' & ->).
  by apply canonical_not_root, (canonical_snoc _ c).
Qed.

Lemma push_extension_not_root cs name ext : canonical cs -> name_component name -> ext <> [] ->
  (SLASH ∉ ext) -> not_root (with_extension (push (join_slash cs) name) ext).
Proof.
  intros Hcs Hn He Hs. rewrite push_canonical by done. apply with_extension_not_root; [|done..].
  apply Forall_app. split; [done|by constructor].
Qed.

(** ** Lemmas: pushing candidates *)

(** The slash form of a normalised path. *)
Definition candidate_of (p c : str) : Prop :=
  exists n, normalize_relative p = Some n /\ c = replace_char BACKSLASH SLASH n.

Record candidates_ok (cs : list str) : Prop := {
  ok_count : len cs <= MAX_IMPORT_CANDIDATES_PER_IMPORT;
  ok_distinct : NoDup cs;
  ok_bytes : Forall (fun c => token_len c <= MAX_IMPORT_CANDIDATE_PATH_BYTES) cs
}.

Lemma candidates_ok_nil : candidates_ok [].
Proof. split; [done|constructor|constructor]. Qed.

Lemma push_candidate_spec cs p : candidates_ok cs ->
  candidates_ok (push_candidate cs p)
  /\ forall c, c ∈ push_candidate cs p -> c ∈ cs \/ candidate_of p c.
Proof.
  intros [Hn Hd Hb]. unfold push_candidate.
  destruct (MAX_IMPORT_CANDIDATES_PER_IMPORT <=? len cs) eqn:Hlen; [split; [by split|by left]|].
  destruct (normalize_relative p) as [n|] eqn:E; [|split; [by split|by left]].
  destruct (MAX_IMPORT_CANDIDATE_PATH_BYTES <? _) eqn:Hbytes; [split; [by split|by left]|].
  case_bool_decide as Hin; [split; [by split|by left]|]. bool_to_prop. split.
  - split.
    + unfold len in *. rewrite length_app. cbn [length]. lia.
    + apply NoDup_app. split_and!; [done| |by apply NoDup_singleton].
      intros c Hc Hx. apply list_elem_of_singleton in Hx as ->. done.
    + apply Forall_app. split; [done|]. constructor; [done|constructor].
  - intros c [Hc|Hc]%elem_of_app; [by left|right]. apply list_elem_of_singleton in Hc as ->. by exists n.
Qed.

Lemma push_all_spec cs pushed : candidates_ok cs ->
  candidates_ok (push_all cs pushed)
  /\ forall c, c ∈ push_all cs pushed -> c ∈ cs \/ exists p, p ∈ pushed /\ candidate_of p c.
Proof.
  revert cs. induction pushed as [|p pushed IH]; intros cs Hcs; [split; [done|by left]|].
  destruct (push_candidate_spec cs p Hcs) as [Hok Hin]. destruct (IH _ Hok) as [Hok' Hin'].
  split; [done|]. intros c Hc. destruct (Hin' c Hc) as [H|(q & Hq & Hcq)].
  - destruct (Hin c H) as [|Hp]; [by left|right]. exists p. split; [by left|done].
  - right. exists q. split; [by right|done].
Qed.

Lemma candidate_nil p : candidate_of p [] -> normalize_relative p = Some [].
Proof. intros (n & Hn & Hnil). by destruct n. Qed.

Lemma candidate_canonical p c : candidate_of p c ->
  exists parts, canonical parts /\ c = replace_char BACKSLASH SLASH (join_slash parts).
Proof.
  intros (n & Hn & ->). destruct (normalize_relative_canonical _ _ Hn) as (parts & Hp & ->). by exists parts.
Qed.

(** What is proved of every policy: the bounds, the form of a candidate, and
    when one can be empty. *)
Definition candidates_spec (cs : list str) (indexed : str -> Prop) (root : Prop) : Prop :=
  candidates_ok cs
  /\ (forall c, c ∈ cs -> indexed c
        \/ exists parts, canonical parts /\ c = replace_char BACKSLASH SLASH (join_slash parts))
  /\ ([] ∈ cs -> root).

Lemma candidates_spec_nil indexed root : candidates_spec [] indexed root.
Proof. split_and!; [apply candidates_ok_nil|by intros c ?%elem_of_nil|by intros ?%elem_of_nil]. Qed.

Lemma pushed_spec pushed indexed (root : Prop) :
  (forall p, p ∈ pushed -> normalize_relative p = Some [] -> root) ->
  candidates_spec (push_all [] pushed) indexed root.
Proof.
  intros Hroot. destruct (push_all_spec [] pushed candidates_ok_nil) as [Hok Hin].
  split_and!; [done| |].
  - intros c Hc. right. destruct (Hin c Hc) as [?%elem_of_nil|(p & _ & Hp)]; [done|].
    by apply candidate_canonical in Hp.
  - intros Hnil. destruct (Hin [] Hnil) as [?%elem_of_nil|(p & Hp & Hc)]; [done|].
    by apply (Hroot p), candidate_nil.
Qed.

Lemma pushed_not_root_spec pushed indexed root : Forall not_root pushed ->
  candidates_spec (push_all [] pushed) indexed root.
Proof. intros Hall. apply pushed_spec. intros p Hp Hr. rewrite Forall_forall in Hall. by destruct (Hall p Hp). Qed.

(** File extensions and names the code appends. *)
Definition plain_extension (e : string) : Prop := lit e <> [] /\ (SLASH ∉ lit e).
#[export] Instance plain_extension_dec e : Decision (plain_extension e).
Proof. unfold plain_extension. apply _. Defined.

Lemma index_name : name_component (lit "index").
Proof. unfold name_component. apply (bool_decide_unpack _). vm_compute. done. Qed.
Lemma init_name : name_component (lit "__init__").
Proof. unfold name_component. apply (bool_decide_unpack _). vm_compute. done. Qed.
Lemma mod_rs_name : name_component (lit "mod.rs").
Proof. unfold name_component. apply (bool_decide_unpack _). vm_compute. done. Qed.

Lemma extensions_not_root cs c es : canonical (cs ++ [c]) -> Forall plain_extension es ->
  Forall not_root (map (fun e => with_extension (join_slash (cs ++ [c])) (lit e)) es).
Proof.
  intros Hcs Hes. apply Forall_map. eapply Forall_impl; [exact Hes|]. intros e [He Hs].
  by apply with_extension_not_root.
Qed.

Lemma pushed_extensions_not_root cs name es : canonical cs -> name_component name ->
  Forall plain_extension es ->
  Forall not_root (map (fun e => with_extension (push (join_slash cs) name) (lit e)) es).
Proof.
  intros Hcs Hn Hes. apply Forall_map. eapply Forall_impl; [exact Hes|]. intros e [He Hs].
  by apply push_extension_not_root.
Qed.

Lemma safe_path_snoc v : safe_path v -> exists cs c, canonical (cs ++ [c]) /\ v = join_slash (cs ++ [c]).
Proof.
  intros (cs & Hne & Hcs & ->). destruct cs as [|c cs _] using rev_ind; [done|].
  exists cs, c. split; [|done]. eapply Forall_impl; [exact Hcs|]. apply safe_name_component.
Qed.

Lemma source_relative_base_snoc source target base : source_relative_base source target = Some base ->
  exists cs c, canonical (cs ++ [c]) /\ base = join_slash (cs ++ [c]).
Proof.
  unfold source_relative_base. destruct (parse_path source) as [path|] eqn:Hp; [|done].
  destruct (join_relative path target) as [v|] eqn:Hj; [|done]. intros [= <-].
  apply safe_path_snoc. apply (join_relative_safe path target v); [|done].
  destruct (normalize_spec _ _ _ _ _ Hp) as [_ [[? _]|?]]; [by right|by left].
Qed.

Lemma relative_import_base_snoc source target base : relative_import_base source target = Some base ->
  exists cs c, canonical (cs ++ [c]) /\ base = join_slash (cs ++ [c]).
Proof.
  unfold relative_import_base. destruct target as [|x target]; [done|].
  destruct (x =? DOT); [apply source_relative_base_snoc|done].
Qed.

Ltac plain := apply (bool_decide_unpack _); vm_compute; done.

Lemma javascript_spec source target indexed root :
  candidates_spec (javascript_import_candidates source target) indexed root.
Proof.
  unfold javascript_import_candidates. destruct (relative_import_base source target) as [base|] eqn:Hb;
    [|apply candidates_spec_nil].
  destruct (relative_import_base_snoc _ _ _ Hb) as (cs & c & Hcs & ->).
  destruct (extension _); apply pushed_not_root_spec.
  - constructor; [by apply canonical_not_root|constructor].
  - apply Forall_app. split; [apply extensions_not_root; [done|plain]|].
    apply pushed_extensions_not_root; [done|apply index_name|plain].
Qed.

Lemma substitutions_plain e : Forall plain_extension (substitutions e).
Proof.
  unfold substitutions. destruct e as [e|]; [|plain].
  repeat (case_bool_decide; [plain|]). constructor.
Qed.

Lemma typescript_spec source target indexed root :
  candidates_spec (typescript_import_candidates source target) indexed root.
Proof.
  unfold typescript_import_candidates. destruct (relative_import_base source target) as [base|] eqn:Hb;
    [|apply candidates_spec_nil].
  destruct (relative_import_base_snoc _ _ _ Hb) as (cs & c & Hcs & ->). cbv zeta.
  destruct (_ && _); [apply candidates_spec_nil|].
  pose proof (substitutions_plain (extension (join_slash (cs ++ [c])))) as Hplain.
  destruct (substitutions _) as [|s subs]; apply pushed_not_root_spec.
  - constructor; [by apply canonical_not_root|constructor].
  - apply Forall_app. split; [by apply extensions_not_root|].
    destruct (extension _); [constructor|].
    apply pushed_extensions_not_root; [done|apply index_name|done].
Qed.

Lemma latex_spec source target indexed root :
  candidates_spec (latex_import_candidates source target) indexed root.
Proof.
  unfold latex_import_candidates. destruct (source_relative_base source target) as [base|] eqn:Hb;
    [|apply candidates_spec_nil].
  destruct (source_relative_base_snoc _ _ _ Hb) as (cs & c & Hcs & ->).
  destruct (extension _); apply pushed_not_root_spec.
  - constructor; [by apply canonical_not_root|constructor].
  - by apply extensions_not_root; [|plain].
Qed.

Lemma web_resource_spec source target indexed root :
  candidates_spec (web_resource_import_candidates source target) indexed root.
Proof.
  unfold web_resource_import_candidates. destruct (contains_any _ _); [apply candidates_spec_nil|].
  destruct (relative_import_base source target) as [base|] eqn:Hb; [|apply candidates_spec_nil].
  destruct (relative_import_base_snoc _ _ _ Hb) as (cs & c & Hcs & ->). apply pushed_not_root_spec.
  constructor; [by apply canonical_not_root|constructor].
Qed.

(** The module paths whose normal form a Python or Rust import probes. *)
Definition module_bases (source target : str) : list str :=
  python_module_paths source target ++ rust_module_paths source target.
Definition root_base (source target : str) : Prop :=
  exists base, base ∈ module_bases source target /\ normalize_relative base = Some [].

(** A normalised path is the root or has a last name. *)
Lemma normalize_cases p n : normalize_relative p = Some n ->
  n = [] \/ exists cs c, canonical (cs ++ [c]) /\ n = join_slash (cs ++ [c]).
Proof.
  intros Hn. destruct (normalize_relative_canonical _ _ Hn) as (cs & Hcs & ->).
  destruct cs as [|c cs _] using rev_ind; [by left|right]. by exists cs, c.
Qed.

Lemma python_spec source target indexed :
  candidates_spec (python_import_candidates source target) indexed (root_base source target).
Proof.
  apply pushed_spec. intros p Hp Hroot. apply elem_of_concat_map in Hp as (base & Hbase & Hp).
  unfold python_candidates_of in Hp. destruct (normalize_relative base) as [n|] eqn:Hn; [|by apply elem_of_nil in Hp].
  destruct (normalize_cases _ _ Hn) as [->|(cs & c & Hcs & ->)].
  - exists base. split; [by apply elem_of_app; left|done].
  - exfalso. apply elem_of_app in Hp as [Hp|Hp].
    + pose proof (pushed_extensions_not_root (cs ++ [c]) (lit "__init__") ["py"; "pyi"]%string
        Hcs init_name ltac:(plain)) as Hall. rewrite Forall_forall in Hall. by apply (Hall p Hp).
    + pose proof (extensions_not_root cs c ["py"; "pyi"]%string Hcs ltac:(plain)) as Hall.
      rewrite Forall_forall in Hall. by apply (Hall p Hp).
Qed.

Lemma rust_spec source target indexed :
  candidates_spec (rust_import_candidates source target) indexed (root_base source target).
Proof.
  apply pushed_spec. intros p Hp Hroot. apply elem_of_concat_map in Hp as (base & Hbase & Hp).
  unfold rust_candidates_of in Hp. destruct (normalize_relative base) as [n|] eqn:Hn; [|by apply elem_of_nil in Hp].
  destruct (normalize_cases _ _ Hn) as [->|(cs & c & Hcs & ->)].
  - exists base. split; [by apply elem_of_app; right|done].
  - exfalso. destruct (extension _) in Hp.
    + apply list_elem_of_singleton in Hp as ->. by apply (canonical_not_root cs c).
    + apply elem_of_cons in Hp as [->|Hp].
      * by apply (with_extension_not_root cs c (lit "rs") Hcs); [..|exact Hroot]; [|plain].
      * apply list_elem_of_singleton in Hp as ->. rewrite push_canonical in Hroot by (done || apply mod_rs_name).
        apply (canonical_not_root (cs ++ [c]) (lit "mod.rs")); [|done].
        apply Forall_app. split; [done|]. constructor; [apply mod_rs_name|constructor].
Qed.

(** *** Go *)

Lemma ends_with_spec suffix s : ends_with suffix s = true <-> exists p, s = p ++ suffix.
Proof.
  unfold ends_with. destruct (strip_suffix suffix s) as [p|] eqn:E.
  - split; [|done]. intros _. exists p. by apply strip_suffix_spec.
  - split; [done|]. intros [p Hp]. apply strip_suffix_spec in Hp. congruence.
Qed.

Lemma first_go_file_some prefix paths p : first_go_file prefix paths = Some p ->
  p ∈ paths /\ exists direct, p = prefix ++ direct /\ represents_package direct = true.
Proof.
  induction paths as [|path paths IH]; cbn; [done|].
  destruct (strip_prefix prefix path) as [direct|] eqn:E; [|done]. apply strip_prefix_spec in E.
  destruct (represents_package direct) eqn:Hr.
  - intros [= <-]. split; [by left|by exists direct].
  - intros H. destruct (IH H) as [? ?]. split; [by right|done].
Qed.

Lemma minimum_go_file_some dir sorted_paths p : minimum_indexed_go_file dir sorted_paths = Some p ->
  p ∈ sorted_paths /\ p <> [].
Proof.
  unfold minimum_indexed_go_file. intros H. apply first_go_file_some in H as (Hin & direct & -> & Hr).
  split; [by eapply elem_of_sublist; [apply sublist_drop|exact Hin]|].
  intros Hnil. apply app_nil in Hnil as [_ ->]. done.
Qed.

Lemma go_spec source target go_modules sorted_paths root :
  Forall (fun p => token_len p <= MAX_IMPORT_CANDIDATE_PATH_BYTES) sorted_paths ->
  candidates_spec (go_import_candidates source target go_modules sorted_paths)
    (fun c => c ∈ sorted_paths) root.
Proof.
  intros Hlong. unfold go_import_candidates. case_bool_decide; [apply candidates_spec_nil|].
  generalize (parent source) as dir. generalize MAX_GO_MOD_WALK_DEPTH as depth.
  induction depth as [|depth IH]; (intros [dir|]; [|apply candidates_spec_nil]); [apply candidates_spec_nil|].
  cbn [go_walk].
  destruct (go_modules !! _) as [module_path|]; [|apply IH].
  destruct (module_remainder _ _) as [remainder|]; [|apply candidates_spec_nil].
  destruct (go_package_dir _ _) as [package|]; [|apply candidates_spec_nil].
  destruct (minimum_indexed_go_file _ _) as [p|] eqn:Hp; [|apply candidates_spec_nil].
  apply minimum_go_file_some in Hp as [Hin Hne]. rewrite Forall_forall in Hlong. cbn. split_and!.
  - split; [done|by apply NoDup_singleton|]. constructor; [by apply Hlong|constructor].
  - intros c ->%list_elem_of_singleton. by left.
  - by intros ?%list_elem_of_singleton.
Qed.

(** C38: the candidates of an import stay within their bounds.  Whatever the source, the target and
    the go.mod files, there are at most 64 candidates, all distinct and none above 4096 bytes as
    long as no indexed path is longer; each is an indexed file or the slash form of a normalised
    relative path, so no absolute path and no path that climbs out of the repository; and a
    candidate is empty only if a Python or Rust module path normalises to the repository root. *)
Theorem import_candidates_bounded source target sorted_paths go_modules :
  Forall (fun p => token_len p <= MAX_IMPORT_CANDIDATE_PATH_BYTES) sorted_paths ->
  let cs := import_candidates source target sorted_paths go_modules in
  candidates_ok cs
  /\ (forall c, c ∈ cs -> c ∈ sorted_paths
        \/ exists parts, canonical parts /\ c = replace_char BACKSLASH SLASH (join_slash parts))
  /\ ([] ∈ cs -> root_base source target).
Proof.
  intros Hlong. cbv zeta.
  change (candidates_spec (import_candidates source target sorted_paths go_modules)
    (fun c => c ∈ sorted_paths) (root_base source target)).
  unfold import_candidates. destruct (_ <? _); [apply candidates_spec_nil|].
  destruct (for_source source).
  - apply python_spec.
  - apply javascript_spec.
  - apply typescript_spec.
  - apply rust_spec.
  - apply latex_spec.
  - apply web_resource_spec.
  - by apply go_spec.
  - apply candidates_spec_nil.
Qed.

(** ** Lemmas: the candidates are exactly what was pushed *)

(** The form in which a path is stored, unless it is too long. *)
Definition stored_form (p : str) : option str :=
  match normalize_relative p with
  | None => None
  | Some n =>
    let c := replace_char BACKSLASH SLASH n in
    if MAX_IMPORT_CANDIDATE_PATH_BYTES <? token_len c then None else Some c
  end.

(** The first occurrence of each element, in order. *)
Fixpoint first_occurrences (seen l : list str) : list str :=
  match l with
  | [] => []
  | x :: l => if bool_decide (x ∈ seen) then first_occurrences seen l
              else x :: first_occurrences (x :: seen) l
  end.

Lemma first_occurrences_seen seen1 seen2 l : (forall x, x ∈ seen1 <-> x ∈ seen2) ->
  first_occurrences seen1 l = first_occurrences seen2 l.
Proof.
  revert seen1 seen2. induction l as [|x l IH]; cbn; intros seen1 seen2 Hs; [done|].
  rewrite (bool_decide_ext _ _ (Hs x)). case_bool_decide; [by apply IH|]. f_equal. apply IH.
  intros y. rewrite !elem_of_cons, Hs. done.
Qed.

Lemma push_all_exact acc pushed : len acc + len pushed <= MAX_IMPORT_CANDIDATES_PER_IMPORT ->
  push_all acc pushed = acc ++ first_occurrences acc (omap stored_form pushed).
Proof.
  revert acc. induction pushed as [|p pushed IH]; intros acc Hlen; [by rewrite app_nil_r|].
  cbn [push_all fold_left]. fold (push_all (push_candidate acc p) pushed).
  assert (Hroom : (MAX_IMPORT_CANDIDATES_PER_IMPORT <=? len acc) = false).
  { apply Z.leb_gt. unfold len in *. cbn [length] in Hlen. lia. }
  assert (Hrest : len acc + len pushed <= MAX_IMPORT_CANDIDATES_PER_IMPORT).
  { unfold len in *. cbn [length] in Hlen. lia. }
  assert (Hn : omap stored_form (p :: pushed)
    = match stored_form p with Some c => c :: omap stored_form pushed | None => omap stored_form pushed end) by done.
  rewrite Hn. unfold push_candidate, stored_form. rewrite Hroom. clear Hn.
  destruct (normalize_relative p) as [n|]; [|by apply IH].
  destruct (_ <? token_len _); [by apply IH|]. cbn [first_occurrences].
  case_bool_decide as Hin; [by apply IH|].
  rewrite IH.
  2:{ unfold len in *. rewrite length_app. cbn [length] in *. lia. }
  rewrite <-app_assoc. cbn [app]. do 2 f_equal. apply first_occurrences_seen.
  intros y. rewrite elem_of_app, !elem_of_cons, elem_of_nil. tauto.
Qed.

Definition total_length (ls : list (list str)) : Z := foldr (fun l acc => len l + acc) 0 ls.

Lemma parse_targets_bound targets required parsed : 0 <= required <= MAX_RUST_MODULE_BASES ->
  parse_targets targets required = Some parsed -> required + total_length parsed <= MAX_RUST_MODULE_BASES.
Proof.
  revert required parsed. induction targets as [|target targets IH]; cbn; intros required parsed Hreq.
  { intros [= <-]. cbn. lia. }
  destruct (segments_of target) as [|s segments]; [by apply IH|].
  unfold u64_checked_add. destruct (_ <=? U64_MAX); [|done].
  destruct (_ <=? MAX_RUST_MODULE_BASES) eqn:Hle; [|done]. bool_to_prop.
  destruct (parse_targets targets _) as [rest|] eqn:Hr; [|done]. intros [= <-].
  apply IH in Hr; [|unfold len in *; cbn [length] in *; lia].
  change (total_length ((s :: segments) :: rest)) with (len (s :: segments) + total_length rest). lia.
Qed.

Lemma prefixes_length segments : length (prefixes segments) = length segments.
Proof. unfold prefixes. by rewrite length_map, length_rev, length_seq. Qed.

Lemma rust_module_paths_bound source target : len (rust_module_paths source target) <= MAX_RUST_MODULE_BASES.
Proof.
  unfold rust_module_paths. destruct (rust_target_root source target) as [[root stripped]|]; [|done].
  destruct (rust_targets stripped) as [targets|]; [|done].
  destruct (parse_targets targets 0) as [parsed|] eqn:Hp; [|done].
  apply parse_targets_bound in Hp; [|done].
  enough (len (concat (map (fun segments => map (fun p => push root (join_slash p)) (prefixes segments)) parsed))
    = total_length parsed) by lia.
  clear. unfold len. induction parsed as [|segments parsed IH]; [done|]. cbn [map concat].
  rewrite length_app, length_map, prefixes_length, Nat2Z.inj_add, IH. done.
Qed.

(** No Rust candidate is lost.  At most 32 module prefixes are tried, each adds at most two
    paths, so the limit of 64 never cuts the list: the candidates of a Rust import are exactly
    the stored forms of [path.rs] and [path/mod.rs] for every prefix of every target of the
    import, longest prefix first, each at its first occurrence. *)
Theorem rust_candidates_exact source target :
  rust_import_candidates source target
  = first_occurrences [] (omap stored_form (concat (map rust_candidates_of (rust_module_paths source target)))).
Proof.
  apply (push_all_exact []). pose proof (rust_module_paths_bound source target) as Hb.
  enough (len (concat (map rust_candidates_of (rust_module_paths source target)))
    <= 2 * len (rust_module_paths source target)) as H.
  { change MAX_IMPORT_CANDIDATES_PER_IMPORT with (2 * MAX_RUST_MODULE_BASES). unfold len at 1. cbn [length]. lia. }
  generalize (rust_module_paths source target). clear. unfold len.
  induction l as [|base bases IH]; [done|]. cbn [map concat]. rewrite length_app. cbn [length].
  enough (length (rust_candidates_of base) <= 2)%nat by lia.
  unfold rust_candidates_of. destruct (normalize_relative base); [|cbn; lia].
  destruct (extension _); cbn; lia.
Qed.

(** ** Lemmas: the package file of a Go import *)

(** A representative of the package: a direct, non-test [.go] file. *)
Definition in_package (dir path : str) : Prop :=
  exists direct, path = package_prefix dir ++ direct /\ represents_package direct = true.

Lemma prefix_not_below (p d : str) : list_lt (p ++ d) p = false.
Proof.
  induction p as [|c p IH]; [by destruct d|]. change (key_lt c c || (negb (key_lt c c) && list_lt (p ++ d) p) = false).
  by rewrite key_lt_irrefl, IH.
Qed.

(** Above the prefix and without it: above every string with the prefix. *)
Lemma prefix_interval (p x d : str) : list_lt x p = false -> strip_prefix p x = None -> list_lt (p ++ d) x = true.
Proof.
  revert x. induction p as [|c p IH]; intros [|y x]; cbn; try done.
  destruct (c =? y) eqn:E; bool_to_prop.
  - subst y. rewrite !Z.ltb_irrefl. cbn. apply IH.
  - intros Hx _. apply orb_false_iff in Hx as [Hyc _]. bool_to_prop.
    by rewrite (proj2 (Z.ltb_lt c y)) by lia.
Qed.

(** The paths that are dropped are below the prefix. *)
Lemma first_not_below_spec prefix paths : increasing paths ->
  let i := first_not_below prefix paths in
  Forall (fun p => list_lt p prefix = true) (take i paths)
  /\ Forall (fun p => list_lt p prefix = false) (drop i paths).
Proof.
  cbv zeta. induction 1 as [|p paths Hs IH Hp]; [by split|]. cbn [first_not_below].
  change (key_lt p prefix) with (list_lt p prefix). destruct (list_lt p prefix) eqn:E.
  - destruct IH as [IH1 IH2]. split; [by constructor|done].
  - split; [constructor|]. constructor; [done|]. eapply Forall_impl; [exact Hp|].
    intros q Hq. cbn. destruct (list_lt q prefix) eqn:Eq; [|done].
    by rewrite (key_lt_trans p q prefix Hq Eq : list_lt p prefix = true) in E.
Qed.

(** The scan of the block with the prefix finds the least representative. *)
Lemma first_go_file_spec prefix paths : increasing paths ->
  Forall (fun p => list_lt p prefix = false) paths ->
  match first_go_file prefix paths with
  | Some p => p ∈ paths /\ (exists d, p = prefix ++ d /\ represents_package d = true)
      /\ forall q d, q ∈ paths -> q = prefix ++ d -> represents_package d = true -> key_lt q p = false
  | None => forall q d, q ∈ paths -> q = prefix ++ d -> represents_package d = false
  end.
Proof.
  induction 1 as [|p paths Hs IH Hp]; cbn [first_go_file]; intros Hall.
  { by intros q d ?%elem_of_nil. }
  apply Forall_cons in Hall as [Hpre Hall]. specialize (IH Hall). rewrite Forall_forall in Hp.
  destruct (strip_prefix prefix p) as [direct|] eqn:Hstrip.
  - apply strip_prefix_spec in Hstrip as ->. destruct (represents_package direct) eqn:Hr.
    + split_and!; [by left|by exists direct|]. intros q d Hq -> Hd.
      apply elem_of_cons in Hq as [->|Hq]; [apply key_lt_irrefl|].
      destruct (key_lt _ _) eqn:E; [|done]. by destruct (key_lt_asym _ _ E (Hp _ Hq)).
    + destruct (first_go_file prefix paths) as [p'|].
      * destruct IH as (Hin & Hpk & Hmin). split_and!; [by right|done|].
        intros q d Hq -> Hd. apply elem_of_cons in Hq as [Heq|Hq]; [|by apply (Hmin (prefix ++ d) d)].
        apply app_inv_head in Heq as ->. congruence.
      * intros q d Hq ->. apply elem_of_cons in Hq as [Heq|Hq]; [|by apply (IH (prefix ++ d) d)].
        by apply app_inv_head in Heq as ->.
  - intros q d Hq ->. exfalso. pose proof (prefix_interval prefix p d Hpre Hstrip) as Hlt.
    change (key_lt (prefix ++ d) p = true) in Hlt.
    apply elem_of_cons in Hq as [<-|Hq].
    + by rewrite key_lt_irrefl in Hlt.
    + by destruct (key_lt_asym _ _ Hlt (Hp _ Hq)).
Qed.

(** The scan for a Go package finds the least file of the package.  On the sorted list of
    indexed paths, the binary search for the directory's block and the walk through it return
    the least path that is a non-test [.go] file directly in the directory, wherever the paths of
    nested packages and of directories with a longer name lie, and nothing if there is none. *)
Theorem minimum_go_file_exact dir sorted_paths : increasing sorted_paths ->
  match minimum_indexed_go_file dir sorted_paths with
  | Some p => p ∈ sorted_paths /\ in_package dir p
      /\ forall q, q ∈ sorted_paths -> in_package dir q -> key_lt q p = false
  | None => forall q, q ∈ sorted_paths -> ~ in_package dir q
  end.
Proof.
  intros Hs. unfold minimum_indexed_go_file.
  set (start := if bool_decide (package_prefix dir = []) then O else _).
  assert (Hparts : Forall (fun p => list_lt p (package_prefix dir) = true) (take start sorted_paths)
    /\ Forall (fun p => list_lt p (package_prefix dir) = false) (drop start sorted_paths)).
  { unfold start. case_bool_decide as Hnil; [|by apply first_not_below_spec].
    rewrite Hnil. split; [constructor|]. apply Forall_true. by intros []. }
  destruct Hparts as [Hbelow Habove].
  assert (Hdrop : increasing (drop start sorted_paths)).
  { clearbody start. clear -Hs. revert start.
    induction Hs as [|p l Hl IH Hp]; intros start; [by destruct start; constructor|].
    destruct start; [by constructor|apply IH]. }
  assert (Hblock : forall q, q ∈ sorted_paths -> in_package dir q -> q ∈ drop start sorted_paths).
  { intros q Hq (d & -> & _). rewrite <-(take_drop start sorted_paths) in Hq.
    apply elem_of_app in Hq as [Hq|]; [|done]. rewrite Forall_forall in Hbelow.
    specialize (Hbelow _ Hq). pose proof (prefix_not_below (package_prefix dir) d). congruence. }
  pose proof (first_go_file_spec (package_prefix dir) _ Hdrop Habove) as Hspec.
  destruct (first_go_file _ _) as [p|].
  - destruct Hspec as (Hin & Hpk & Hmin). split_and!.
    + eapply elem_of_sublist; [apply sublist_drop|exact Hin].
    + done.
    + intros q Hq Hqp. pose proof (Hblock q Hq Hqp) as Hqd. destruct Hqp as (d & -> & Hd).
      by apply (Hmin (package_prefix dir ++ d) d).
  - intros q Hq Hqp. pose proof (Hblock q Hq Hqp) as Hqd. destruct Hqp as (d & Hd & Hr).
    rewrite (Hspec q d Hqd Hd) in Hr. done.
Qed.

(** ** Lemmas: resolution *)

(** The candidate of highest priority that is an indexed file. *)
Fixpoint first_indexed (members : gset str) (candidates : list str) : option str :=
  match candidates with
  | [] => None
  | c :: candidates => if bool_decide (c ∈ members) then Some c else first_indexed members candidates
  end.

Lemma sorted_paths_increasing members : increasing (sorted_indexed_paths members).
Proof. apply sort_keys_increasing, NoDup_elements. Qed.

Lemma elem_of_sorted_paths members p : p ∈ sorted_indexed_paths members <-> p ∈ members.
Proof. unfold sorted_indexed_paths, sort_keys. by rewrite merge_sort_Permutation, elem_of_elements. Qed.

Lemma resolve_candidates_first members candidates :
  resolve_import_candidates candidates (sorted_indexed_paths members) = first_indexed members candidates.
Proof.
  induction candidates as [|c candidates IH]; cbn; [done|]. rewrite IH.
  pose proof (binary_search_found_iff _ c (sorted_paths_increasing members)) as Hb.
  rewrite elem_of_sorted_paths in Hb.
  destruct (binary_search_found _ _); case_bool_decide as Hin; try done; exfalso.
  - by apply Hin, Hb.
  - by apply Hb in Hin.
Qed.

Lemma first_indexed_some members candidates c : first_indexed members candidates = Some c ->
  c ∈ members /\ c ∈ candidates.
Proof.
  induction candidates as [|d candidates IH]; cbn; [done|]. case_bool_decide.
  - intros [= <-]. split; [done|by left].
  - intros Hc. destruct (IH Hc). split; [done|by right].
Qed.

(** ** Witnesses *)
Definition demo_members : gset str :=
  list_to_set (map lit ["go.mod"; "cmd/main.go"; "pkg/service/a_test.go"; "pkg/service/deep/extra.go";
                        "pkg/service/main.go"; "pkg/service/util.go"]%string).
Definition demo_modules : GoModuleIndex := {[ lit "go.mod" := lit "example.com/acme" ]}.

Lemma import_candidates_bounded_witness :
  Forall (fun p => token_len p <= MAX_IMPORT_CANDIDATE_PATH_BYTES) (sorted_indexed_paths demo_members)
  /\ lit "pkg/service/main.go" ∈ import_candidates (lit "cmd/main.go") (lit "example.com/acme/pkg/service")
       (sorted_indexed_paths demo_members) demo_modules
  /\ ([] ∈ import_candidates (lit "cmd/main.go") (lit "example.com/acme/pkg/service")
        (sorted_indexed_paths demo_members) demo_modules ->
      root_base (lit "cmd/main.go") (lit "example.com/acme/pkg/service")).
Proof.
  assert (Forall (fun p => token_len p <= MAX_IMPORT_CANDIDATE_PATH_BYTES) (sorted_indexed_paths demo_members)) as H
    by (apply (bool_decide_unpack _); vm_compute; done).
  split_and!; [exact H|apply (bool_decide_unpack _); vm_compute; done|].
  apply (import_candidates_bounded _ _ _ demo_modules H).
Defined.

Lemma minimum_go_file_exact_witness :
  minimum_indexed_go_file (lit "pkg/service") (sorted_indexed_paths demo_members) = Some (lit "pkg/service/main.go")
  /\ match minimum_indexed_go_file (lit "pkg/service") (sorted_indexed_paths demo_members) with
     | Some p => p ∈ sorted_indexed_paths demo_members
     | None => False
     end.
Proof.
  split; [vm_compute; done|].
  pose proof (minimum_go_file_exact (lit "pkg/service") _ (sorted_paths_increasing demo_members)) as H.
  assert (minimum_indexed_go_file (lit "pkg/service") (sorted_indexed_paths demo_members)
    = Some (lit "pkg/service/main.go")) as E by (vm_compute; done).
  rewrite E in *. apply H.
Defined.

(** The rules of the languages on concrete imports. *)
Definition resolved (paths : list string) (source target : string) : option str :=
  let members : gset str := list_to_set (map lit paths) in
  resolved_path (derive_import_projection (lit source) (lit target) (sorted_indexed_paths members) ∅).
Example python_package_before_module :
  resolved ["main.py"; "pkg.py"; "pkg/__init__.py"] "main.py" "pkg" = Some (lit "pkg/__init__.py").
Proof. vm_compute. done. Qed.
Example rust_super_climbs :
  resolved ["src/top.rs"] "src/foo/nested/module.rs" "super::super::super::top::Item" = Some (lit "src/top.rs").
Proof. vm_compute. done. Qed.
Example typescript_source_before_emitted :
  resolved ["src/a.ts"; "src/a.js"] "src/main.ts" "./a.js" = Some (lit "src/a.ts").
Proof. vm_compute. done. Qed.
(** [from . import *] in a module at the repository root. *)
Example python_root_wildcard :
  import_candidates (lit "a.py") (lit ".") [] ∅ = map lit ["__init__.py"; "__init__.pyi"; ""]%string.
Proof. vm_compute. done. Qed.
