(* ===== verification/Discovery.v ===== *)
(** * Repository discovery

    The walk of [src/src/repository/discovery.rs] under the limits of
    [src/src/config.rs].  The entries are those the ignore-aware walker yields,
    in its order; for each the model has what the loop reads of it.  Reporting
    progress has no part in the result. *)

From S2P Require Import Prelude Chars Order Store Paths.
Open Scope Z_scope.
Open Scope store_scope.

(** ** Limits *)
Record DiscoveryLimits := mk_limits {
  max_walk_entries : Z;
  max_files : Z;
  max_total_source_bytes : Z;
  max_depth : Z;
  max_file_bytes : Z;
  max_prepare_batch_files : Z;
  max_prepare_batch_bytes : Z
}.
Definition limits_validate (l : DiscoveryLimits) : result () :=
  if (max_walk_entries l =? 0) || (max_files l =? 0) || (max_total_source_bytes l =? 0)
     || (max_depth l =? 0) || (max_file_bytes l =? 0) || (max_prepare_batch_files l =? 0)
     || (max_prepare_batch_bytes l =? 0)
  then Err (InvalidConfiguration "repository discovery limits must be positive")
  else if max_prepare_batch_bytes l <? max_file_bytes l
  then Err (InvalidConfiguration "max_prepare_batch_bytes must be at least max_file_bytes")
  else Ok ().

Definition enforce_limit (kind : IndexLimitKind) (observed limit : Z) : result () :=
  if limit <? observed then Err (IndexLimitExceeded kind observed limit) else Ok ().
Definition increment_limit (current limit : Z) (kind : IndexLimitKind) : result Z :=
  let current := u64_saturating_add current 1 in
  let* _ := enforce_limit kind current limit in Ok current.

(** ** Entries *)
Inductive FileKind := RegularFile | Directory | OtherKind.

(** An entry: its normal components below the root, [None] where they are not
    UTF-8; [None] for a path outside of the root; its size and modification
    time, [None] when they cannot be read. *)
Record DirEntry := mk_dir_entry {
  entry_components : option (list (option str));
  entry_depth : Z;
  entry_kind : option FileKind;
  entry_metadata : option (Z * option Z)
}.
Record DiscoveredFile := mk_discovered {
  relative_path : str;
  discovered_size : Z;
  discovered_modified : option Z
}.
Record DiscoveryStats := mk_stats {
  walk_entries : Z;
  stats_files : Z;
  total_source_bytes : Z;
  stats_max_depth : Z
}.

Fixpoint all_utf8 (components : list (option str)) : option (list str) :=
  match components with
  | [] => Some []
  | None :: _ => None
  | Some c :: components => (fun cs => c :: cs) <$> all_utf8 components
  end.
Definition checked_slash_path (components : list (option str)) : result str :=
  match all_utf8 components with
  | Some cs => Ok (join_slash cs)
  | None => Err UnsupportedPathEncoding
  end.

(** The closure given to [filter_entry]. *)
Definition filter_entry (includes_path : str -> bool -> bool) (e : DirEntry) : bool :=
  match entry_components e with
  | None => false
  | Some components =>
    match checked_slash_path components with
    | Err _ => true
    | Ok path => includes_path path (match entry_kind e with Some Directory => true | _ => false end)
    end
  end.

Section Discovery.
(** Whether the token is cancelled at the [n]-th entry, and the caller's filter. *)
Variable cancelled : nat -> bool.
Variable include : DirEntry -> bool.
Variable limits : DiscoveryLimits.

(** What the loop does with an entry: the file it admits, if any. *)
Definition visit (stats : DiscoveryStats) (e : DirEntry) : result (DiscoveryStats * option DiscoveredFile) :=
  let stats := mk_stats (walk_entries stats) (stats_files stats) (total_source_bytes stats)
                 (Z.max (stats_max_depth stats) (entry_depth e)) in
  let* _ := enforce_limit LimitDepth (entry_depth e) (max_depth limits) in
  match entry_kind e with
  | Some RegularFile =>
    match entry_metadata e with
    | None => Err RepositoryTraversal
    | Some (size, modified) =>
    if max_file_bytes limits <? size then Ok (stats, None)
    else if negb (include e) then Ok (stats, None)
    else
      match entry_components e with
      | None => Err (PathOutsideRoot [])
      | Some components =>
        let* path := checked_slash_path components in
        if bool_decide (path = []) || is_git_metadata_path path then Ok (stats, None)
        else
          let* files := increment_limit (stats_files stats) (max_files limits) LimitFiles in
          let total := u64_saturating_add (total_source_bytes stats) size in
          let* _ := enforce_limit LimitTotalSourceBytes total (max_total_source_bytes limits) in
          Ok (mk_stats (walk_entries stats) files total (stats_max_depth stats),
              Some (mk_discovered path size modified))
      end
    end
  | _ => Ok (stats, None)
  end.

(** The walker yields [None] for an entry it could not read. *)
Fixpoint walk_from (n : nat) (walk : list (option DirEntry)) (stats : DiscoveryStats)
    (files : list DiscoveredFile) : result (list DiscoveredFile * DiscoveryStats) :=
  match walk with
  | [] => Ok (files, stats)
  | entry :: walk =>
    if cancelled n then Err Cancelled
    else
      let* entries := increment_limit (walk_entries stats) (max_walk_entries limits) LimitWalkEntries in
      match entry with
      | None => Err RepositoryTraversal
      | Some e =>
        let* visited := visit (mk_stats entries (stats_files stats) (total_source_bytes stats)
                                 (stats_max_depth stats)) e in
        walk_from (S n) walk visited.1 (files ++ option_list visited.2)
      end
  end.

Definition path_le (a b : DiscoveredFile) : Prop := key_le (relative_path a) (relative_path b).
#[global] Instance path_le_dec : RelDecision path_le.
Proof. intros a b. unfold path_le. apply _. Defined.

Definition discover_files (walk : list (option DirEntry)) : result (list DiscoveredFile * DiscoveryStats) :=
  let* _ := limits_validate limits in
  let* walked := walk_from 0 walk (mk_stats 0 0 0 0) [] in
  Ok (merge_sort path_le walked.1, walked.2).

(** ** What is admitted *)

(** The file of an entry that discovery admits. *)
Definition admitted (e : DirEntry) : option DiscoveredFile :=
  match entry_kind e, entry_metadata e, entry_components e with
  | Some RegularFile, Some (size, modified), Some components =>
    if (max_file_bytes limits <? size) || negb (include e) then None
    else match checked_slash_path components with
         | Ok path => if bool_decide (path = []) || is_git_metadata_path path then None
                      else Some (mk_discovered path size modified)
         | Err _ => None
         end
  | _, _, _ => None
  end.

Definition total_size (files : list DiscoveredFile) : Z := foldr (fun f n => discovered_size f + n) 0 files.

(** The counters of a walk that admitted [files]. *)
Definition counted (walked : list DirEntry) (files : list DiscoveredFile) (s : DiscoveryStats) : Prop :=
  walk_entries s = len walked /\ stats_files s = len files /\ total_source_bytes s = total_size files
  /\ stats_max_depth s = foldr Z.max 0 (map entry_depth walked).

(** The bounds that a complete discovery respects. *)
Definition within_limits (walked : list DirEntry) (files : list DiscoveredFile) : Prop :=
  len walked <= max_walk_entries limits /\ len files <= max_files limits
  /\ total_size files <= max_total_source_bytes limits
  /\ Forall (fun e => entry_depth e <= max_depth limits) walked.
(** Limits below the range of the counters. *)
Definition limits_in_range : Prop :=
  0 <= max_walk_entries limits < U64_MAX /\ 0 <= max_files limits < U64_MAX
  /\ 0 <= max_total_source_bytes limits < U64_MAX.

(** Depths and sizes are not negative. *)
Definition sizes_ok (e : DirEntry) : Prop :=
  0 <= entry_depth e /\ match entry_metadata e with Some (size, _) => 0 <= size | None => True end.

(** An entry that the loop cannot pass. *)
Definition unreadable (x : option DirEntry) (e : error) : Prop :=
  match x with
  | None => e = RepositoryTraversal
  | Some entry => entry_kind entry = Some RegularFile /\
    match e with
    | RepositoryTraversal => entry_metadata entry = None
    | PathOutsideRoot _ => entry_components entry = None
    | UnsupportedPathEncoding => exists cs, entry_components entry = Some cs /\ all_utf8 cs = None
    | _ => False
    end
  end.

(** What stops a walk after the entries [es], at [x]. *)
Definition stops (es : list DirEntry) (x : option DirEntry) (e : error) : Prop :=
  match e with
  | Cancelled => cancelled (length es) = true
  | IndexLimitExceeded LimitWalkEntries observed limit =>
      limit = max_walk_entries limits /\ len es = limit /\ observed = limit + 1
  | IndexLimitExceeded LimitFiles observed limit =>
      limit = max_files limits /\ len (omap admitted es) = limit /\ observed = limit + 1
      /\ exists entry f, x = Some entry /\ admitted entry = Some f
  | IndexLimitExceeded LimitTotalSourceBytes observed limit =>
      limit = max_total_source_bytes limits /\ exists entry f, x = Some entry /\ admitted entry = Some f
        /\ limit < total_size (omap admitted es) + discovered_size f
        /\ observed = u64_saturating_add (total_size (omap admitted es)) (discovered_size f)
  | IndexLimitExceeded LimitDepth observed limit =>
      limit = max_depth limits /\ exists entry, x = Some entry /\ entry_depth entry = observed /\ limit < observed
  | _ => unreadable x e
  end.

Lemma increment_limit_spec current limit kind : 0 <= current <= limit -> limit < U64_MAX ->
  increment_limit current limit kind =
    if current =? limit then Err (IndexLimitExceeded kind (limit + 1) limit) else Ok (current + 1).
Proof.
  intros Hc Hl. unfold increment_limit, enforce_limit, u64_saturating_add.
  rewrite Z.min_l by lia. destruct (Z.eqb_spec current limit) as [->|].
  - by rewrite (proj2 (Z.ltb_lt _ _)) by lia.
  - by rewrite (proj2 (Z.ltb_ge _ _)) by lia.
Qed.

Lemma total_size_cons f l : total_size (f :: l) = discovered_size f + total_size l.
Proof. done. Qed.
Lemma total_size_app a b : total_size (a ++ b) = total_size a + total_size b.
Proof. induction a as [|f a IH]; [done|]. cbn [app]. rewrite !total_size_cons, IH. lia. Qed.
Lemma total_size_perm a b : a ≡ₚ b -> total_size a = total_size b.
Proof. induction 1; rewrite ?total_size_cons; lia. Qed.
Lemma total_size_nonneg l : Forall (fun f => 0 <= discovered_size f) l -> 0 <= total_size l.
Proof. induction 1; rewrite ?total_size_cons; [done|lia]. Qed.

Lemma admitted_size e f : sizes_ok e -> admitted e = Some f -> 0 <= discovered_size f.
Proof.
  intros [_ He]. unfold admitted.
  destruct (entry_kind e) as [[]|], (entry_metadata e) as [[size m]|], (entry_components e) as [cs|]; try done.
  destruct (_ || _); [done|]. destruct (checked_slash_path cs); [|done].
  destruct (_ || _); [done|]. by intros [= <-].
Qed.

(** One entry: it is admitted or passed over within the limits, or it stops the walk. *)
Lemma visit_spec es e stats : limits_in_range -> sizes_ok e -> within_limits es (omap admitted es) ->
  0 <= total_size (omap admitted es) ->
  stats_files stats = len (omap admitted es) -> total_source_bytes stats = total_size (omap admitted es) ->
  match visit stats e with
  | Err err => stops es (Some e) err
  | Ok (stats', file) => file = admitted e /\ entry_depth e <= max_depth limits
      /\ walk_entries stats' = walk_entries stats
      /\ stats_max_depth stats' = Z.max (stats_max_depth stats) (entry_depth e)
      /\ match file with
         | None => stats_files stats' = stats_files stats /\ total_source_bytes stats' = total_source_bytes stats
         | Some f => stats_files stats' = stats_files stats + 1 /\ stats_files stats' <= max_files limits
             /\ total_source_bytes stats' = total_source_bytes stats + discovered_size f
             /\ total_source_bytes stats' <= max_total_source_bytes limits
         end
  end.
Proof.
  intros (_ & Hlf & Hlt) [_ Hsize] (_ & Hf' & Ht' & _) Hnn Hf Ht.
  unfold visit, admitted, enforce_limit at 1.
  destruct (Z.ltb_spec (max_depth limits) (entry_depth e)); cbn [result_bind].
  { split; [done|]. by exists e. }
  destruct (entry_kind e) as [[]|] eqn:Ek; try done.
  destruct (entry_metadata e) as [[size modified]|] eqn:Em; [|by split].
  destruct (max_file_bytes limits <? size) eqn:Es; [by destruct (entry_components e)|].
  destruct (include e) eqn:Ei; [|by destruct (entry_components e)]. cbn [negb orb].
  destruct (entry_components e) as [cs|] eqn:Ec; [|by split].
  destruct (checked_slash_path cs) as [path|err] eqn:Ep; cbn [result_bind].
  2:{ unfold checked_slash_path in Ep. destruct (all_utf8 cs) eqn:Eu; [done|]. injection Ep as <-.
      split; [done|]. by exists cs. }
  destruct (bool_decide (path = []) || is_git_metadata_path path) eqn:Eg; [done|].
  assert (Hadm : admitted e = Some (mk_discovered path size modified)) by (unfold admitted; by rewrite Ek, Em, Ec, Es, Ei, Ep, Eg).
  cbn [stats_files total_source_bytes walk_entries stats_max_depth]. rewrite Hf, Ht.
  rewrite increment_limit_spec by (unfold len in *; lia).
  destruct (Z.eqb_spec (len (omap admitted es)) (max_files limits)); cbn [result_bind].
  { split_and!; [done..|]. by exists e, (mk_discovered path size modified). }
  unfold enforce_limit. destruct (Z.ltb_spec (max_total_source_bytes limits)
    (u64_saturating_add (total_size (omap admitted es)) size)) as [Hover|Hunder]; cbn [result_bind].
  { split; [done|]. exists e, (mk_discovered path size modified). split_and!; [done..| |done]. cbn.
    unfold u64_saturating_add in Hover. lia. }
  apply u64_saturating_add_le in Hunder as Hunder'; [|lia].
  cbn. unfold u64_saturating_add. split_and!; try done; lia.
Qed.

Lemma omap_admitted_sizes es : Forall sizes_ok es -> 0 <= total_size (omap admitted es).
Proof.
  intros Hes. apply total_size_nonneg, Forall_forall. intros f (e & He & Hf)%list_elem_of_omap.
  rewrite Forall_forall in Hes. by apply (admitted_size e), Hf; apply Hes.
Qed.

Definition walk_result (walk : list (option DirEntry)) (r : result (list DiscoveredFile * DiscoveryStats)) : Prop :=
  match r with
  | Ok (files, stats) => exists es, walk = map Some es /\ files = omap admitted es
      /\ within_limits es files /\ counted es files stats
      /\ (forall n, (n < length es)%nat -> cancelled n = false)
  | Err e => exists es x rest, walk = map Some es ++ x :: rest /\ within_limits es (omap admitted es) /\ stops es x e
  end.

Lemma fold_max_app l x : foldr Z.max 0 (l ++ [x]) = Z.max (foldr Z.max 0 l) (Z.max x 0).
Proof. induction l as [|y l IH]; cbn; [lia|]. rewrite IH. lia. Qed.

Lemma walk_from_spec es walk stats : limits_in_range -> Forall sizes_ok es ->
  Forall (fun x => match x with Some e => sizes_ok e | None => True end) walk ->
  within_limits es (omap admitted es) -> counted es (omap admitted es) stats ->
  (forall n, (n < length es)%nat -> cancelled n = false) ->
  walk_result (map Some es ++ walk) (walk_from (length es) walk stats (omap admitted es)).
Proof.
  intros Hl. revert es stats. induction walk as [|x walk IH]; intros es stats Hes Hwalk Hin Hc Hnot; cbn [walk_from].
  { rewrite app_nil_r. by exists es. }
  apply Forall_cons in Hwalk as [Hx Hwalk]. pose proof Hc as (Hcw & Hcf & Hct & Hcd). pose proof Hin as (Hw & Hf & Ht & Hd).
  destruct (cancelled (length es)) eqn:Hcan; [by exists es, x, walk|].
  rewrite Hcw, increment_limit_spec by (unfold len in *; destruct Hl as (? & ? & ?); lia).
  destruct (Z.eqb_spec (len es) (max_walk_entries limits)) as [Hfull|Hroom]; cbn [result_bind];
    [by exists es, x, walk|].
  destruct x as [e|]; [|by exists es, None, walk].
  set (stats0 := mk_stats _ _ _ _).
  pose proof (visit_spec es e stats0 Hl Hx Hin (omap_admitted_sizes es Hes) Hcf Hct) as Hv.
  destruct (visit stats0 e) as [[stats' file]|err]; cbn [result_bind fst snd]; [|by exists es, (Some e), walk].
  destruct Hv as (-> & Hdepth & Hwe & Hmd & Hcounts).
  assert (Hsnoc : omap admitted (es ++ [e]) = omap admitted es ++ option_list (admitted e)).
  { rewrite omap_app. by f_equal. }
  rewrite <-Hsnoc. replace (S (length es)) with (length (es ++ [e])) by (rewrite length_app; cbn; lia).
  replace (map Some es ++ Some e :: walk) with (map Some (es ++ [e]) ++ walk) by by rewrite map_app, <-app_assoc.
  apply IH; [by apply Forall_app; split; [|constructor]|done| | |].
  - unfold within_limits. rewrite Hsnoc, total_size_app. unfold len in *. rewrite !length_app. cbn [length].
    subst stats0. cbn in Hcounts.
    destruct (admitted e) as [f|]; cbn [option_list option_rect length]; rewrite ?total_size_cons; change (total_size []) with 0;
      split_and!; try lia; apply Forall_app; (split; [done|by repeat constructor]).
  - unfold counted. rewrite Hsnoc, total_size_app, map_app. cbn [map]. rewrite fold_max_app. unfold len in *.
    rewrite !length_app. cbn [length]. destruct Hx as [Hx0 _]. subst stats0. cbn in Hwe, Hmd, Hcounts.
    destruct (admitted e) as [f|]; cbn [option_list option_rect length]; rewrite ?total_size_cons; change (total_size []) with 0;
      split_and!; lia.
  - intros n Hn. rewrite length_app in Hn. cbn in Hn. destruct (decide (n = length es)) as [->|]; [done|]. apply Hnot. lia.
Qed.

(** C37: discovery is complete or says why not.  When it succeeds the walk had no unreadable entry, no
    cancellation and no entry below the depth limit, the files are exactly the admitted entries, each
    once, sorted by path, within the limits on entries, files and bytes, and the counters are exact.
    Otherwise no file is returned, and the error is that of the first entry that broke a rule: the
    limit that is exceeded with the first value outside of it, the unreadable or unencodable entry, or
    the cancellation. *)
Theorem discovery_complete_or_error walk : limits_in_range ->
  Forall (fun x => match x with Some e => sizes_ok e | None => True end) walk ->
  match discover_files walk with
  | Ok (files, stats) => exists es, walk = map Some es
      /\ files ≡ₚ omap admitted es /\ StronglySorted path_le files
      /\ within_limits es files /\ counted es files stats
      /\ (forall n, (n < length es)%nat -> cancelled n = false)
  | Err e => limits_validate limits = Err e
      \/ exists es x rest, walk = map Some es ++ x :: rest /\ within_limits es (omap admitted es) /\ stops es x e
  end.
Proof.
  intros Hl Hwalk. unfold discover_files. destruct (limits_validate limits) as [[]|e]; cbn [result_bind]; [|by left].
  pose proof (walk_from_spec [] walk (mk_stats 0 0 0 0) Hl) as Hspec. cbn [map app length] in Hspec.
  assert (walk_result walk (walk_from 0 walk (mk_stats 0 0 0 0) [])) as Hres.
  { apply Hspec; [constructor|done| |done|intros n Hn; cbn in Hn; lia].
    destruct Hl as (? & ? & ?). unfold within_limits, len. cbn. split_and!; [lia..|constructor]. }
  destruct (walk_from 0 walk (mk_stats 0 0 0 0) []) as [[files stats]|e]; cbn [result_bind fst snd]; [|by right].
  destruct Hres as (es & -> & -> & (Hw & Hf & Ht & Hd) & (Cw & Cf & Ct & Cd) & Hnot). exists es.
  pose proof (merge_sort_Permutation path_le (omap admitted es)) as Hp.
  assert (len (merge_sort path_le (omap admitted es)) = len (omap admitted es)) as Hlen by (unfold len; by rewrite Hp).
  split_and!; try done.
  - apply StronglySorted_merge_sort; [intros a b c; apply key_le_trans|intros a b; apply key_le_total].
  - unfold within_limits. by rewrite Hlen, (total_size_perm _ _ Hp).
  - unfold counted. by rewrite Hlen, (total_size_perm _ _ Hp).
Qed.

End Discovery.

(** ** Witness *)
Definition demo_entry (components : list string) (kind : FileKind) (size : Z) : option DirEntry :=
  Some (mk_dir_entry (Some (map (fun c => Some (lit c)) components)) (len components) (Some kind) (Some (size, Some 5))).
Definition demo_walk : list (option DirEntry) :=
  [demo_entry [] Directory 0; demo_entry ["src"] Directory 0; demo_entry ["src"; "main.rs"] RegularFile 20;
   demo_entry ["big.bin"] RegularFile 900; demo_entry [".git"; "config"] RegularFile 3;
   demo_entry ["a.py"] RegularFile 10; demo_entry ["link"] OtherKind 1]%string.
Definition demo_limits (max_files : Z) : DiscoveryLimits := mk_limits 10 max_files 1000 4 100 2 200.

Lemma discovery_complete_or_error_witness :
  exists files stats, discover_files (fun _ => false) (fun _ => true) (demo_limits 5) demo_walk = Ok (files, stats)
    /\ StronglySorted path_le files /\ map relative_path files = [lit "a.py"; lit "src/main.rs"]
    /\ total_source_bytes stats = 30
    /\ discover_files (fun _ => false) (fun _ => true) (demo_limits 1) demo_walk = Err (IndexLimitExceeded LimitFiles 2 1).
Proof.
  pose proof (discovery_complete_or_error (fun _ => false) (fun _ => true) (demo_limits 5) demo_walk) as H.
  destruct (discover_files (fun _ => false) (fun _ => true) (demo_limits 5) demo_walk) as [[files stats]|e] eqn:E;
    [|vm_compute in E; discriminate].
  assert (Hl : limits_in_range (demo_limits 5)) by (unfold limits_in_range, U64_MAX; cbn; lia).
  destruct H as (es & _ & _ & Hs & _); [exact Hl| |].
  { unfold demo_walk. repeat (apply Forall_cons_2; [unfold demo_entry, sizes_ok, len; cbn; lia|]). apply Forall_nil_2. }
  exists files, stats. split; [reflexivity|]. split; [exact Hs|]. vm_compute in E. injection E as <- <-.
  split; [reflexivity|]. split; vm_compute; reflexivity.
Defined.
