(* ===== verification/IndexDb.v ===== *)
(** * The index database

    The tables of [src/src/storage/schema.rs] that hold a repository
    generation, and the statements of [writer.rs], [publication.rs] and
    [projections.rs] that change them.  The chunks, symbols and references of a
    file are inserted with it, deleted with it and never updated, so a file row
    carries them; the full-text tables are the indexed strings of the rows of
    each file, which the triggers maintain.  A new row takes the largest row
    number plus one, foreign keys cascade, and a uniqueness violation fails the
    statement. *)

From S2P Require Import Prelude Chars Order Store Paths ImportResolution.
Open Scope Z_scope.
Open Scope store_scope.

(** ** Input records: [src/src/storage/models.rs] *)
Record ChunkInput := mk_chunk_input {
  chunk_text : string;
  chunk_lines : Z * Z;
  chunk_bytes : Z * Z;
  chunk_tokens : Z
}.
Record SymbolInput := mk_symbol_input {
  symbol_name : string;
  symbol_kind : string;
  symbol_parent : option string;
  symbol_signature : option string;
  symbol_lines : Z * Z;
  symbol_bytes : Z * Z
}.
Inductive ReferenceRole := Definition_ | Reference.
Record ReferenceInput := mk_reference_input {
  reference_name : string;
  reference_kind : string;
  reference_role : ReferenceRole;
  reference_enclosing : option string;
  reference_lines : Z * Z;
  reference_bytes : Z * Z
}.
Record ImportInput := mk_import_input {
  import_target : str;
  import_value : ImportProjectionValue;
  import_line : Z
}.

(** The columns of a file and its rows in the child tables. *)
Record FileColumns := mk_columns {
  language : option string;
  structurally_complete : bool;
  size_bytes : Z;
  modified_ns : option Z;
  content_hash : string;
  chunks : list ChunkInput;
  symbols : list SymbolInput;
  references : list ReferenceInput
}.
Record IndexedFile := mk_indexed {
  indexed_path : str;
  indexed_columns : FileColumns;
  indexed_imports : list ImportInput
}.

(** ** Tables *)
Record file_row := mk_file_row {
  f_path : str;
  f_columns : FileColumns;
  f_generation : Z;
  f_source_tokens : string * Z
}.
Record import_row := mk_import_row {
  i_file : Z;
  i_target : str;
  i_resolved : option str;
  i_line : Z;
  i_candidates : list (Z * str)
}.
#[export] Instance import_row_eq_dec : EqDecision import_row.
Proof. solve_decision. Defined.
(** A directory has no file; [kind] is 1 when there is one. *)
Record path_entry := mk_entry {
  e_depth : Z;
  e_file : option Z
}.
(** The strings of a file in the four full-text tables. *)
Record fts_rows := mk_fts_rows {
  fts_chunks_word : list string;
  fts_chunks_trigram : list string;
  fts_symbols : list string;
  fts_references : list string
}.

Record index_db := mk_index_db {
  files : gmap Z file_row;
  imports : gmap Z import_row;
  path_entries : gmap str path_entry;
  fts : gmap Z fts_rows;
  meta_generation : Z;
  meta_config_hash : string;
  meta_derivation : string;
  meta_index_version : Z
}.

Definition set_files f d := mk_index_db f (imports d) (path_entries d) (fts d) (meta_generation d)
  (meta_config_hash d) (meta_derivation d) (meta_index_version d).
Definition set_imports i d := mk_index_db (files d) i (path_entries d) (fts d) (meta_generation d)
  (meta_config_hash d) (meta_derivation d) (meta_index_version d).
Definition set_entries e d := mk_index_db (files d) (imports d) e (fts d) (meta_generation d)
  (meta_config_hash d) (meta_derivation d) (meta_index_version d).
Definition set_fts t d := mk_index_db (files d) (imports d) (path_entries d) t (meta_generation d)
  (meta_config_hash d) (meta_derivation d) (meta_index_version d).

(** A database without files. *)
Definition empty_db (config_hash derivation : string) : index_db :=
  mk_index_db ∅ ∅ ∅ ∅ 0 config_hash derivation 0.

(** The row number of an insert. *)
Definition next_rowid {R} (rows : gmap Z R) : Z := 1 + map_fold (fun i _ m => Z.max i m) 0 rows.

(** The file with a path: the column is unique. *)
Definition find_row (path : str) (d : index_db) : option (Z * file_row) :=
  head (List.filter (fun '(_, r) => bool_decide (f_path r = path)) (map_to_list (files d))).

(** What the triggers put into the full-text tables for the rows of a file. *)
Definition fts_of (c : FileColumns) : fts_rows :=
  mk_fts_rows (map chunk_text (chunks c)) (map chunk_text (chunks c))
    (map symbol_name (symbols c)) (map reference_name (references c)).

(** The ['rebuild'] commands: the full-text tables are read again from their content tables. *)
Definition rebuild_fts (d : index_db) : index_db :=
  set_fts ((fun r => fts_of (f_columns r)) <$> files d) d.

(** [DELETE FROM files WHERE id = ..], its cascades and, when enabled, its triggers. *)
Definition delete_file_id (triggers : bool) (id : Z) (d : index_db) : index_db :=
  mk_index_db (delete id (files d)) (filter (fun '(_, i) => i_file i <> id) (imports d))
    (filter (fun '(_, e) => e_file e <> Some id) (path_entries d))
    (if triggers then delete id (fts d) else fts d)
    (meta_generation d) (meta_config_hash d) (meta_derivation d) (meta_index_version d).

Definition delete_path (triggers : bool) (path : str) (d : index_db) : index_db :=
  match find_row path d with
  | Some (id, _) => delete_file_id triggers id d
  | None => d
  end.

(** [DELETE FROM files] and [DELETE FROM path_entries], with the triggers disabled. *)
Definition delete_all (d : index_db) : index_db :=
  mk_index_db ∅ ∅ ∅ (fts d) (meta_generation d) (meta_config_hash d) (meta_derivation d)
    (meta_index_version d).

(** [UPDATE imports SET resolved_path = NULL WHERE resolved_path = ..]. *)
Definition unresolved (path : str) (i : import_row) : import_row :=
  if bool_decide (i_resolved i = Some path)
  then mk_import_row (i_file i) (i_target i) None (i_line i) (i_candidates i)
  else i.
Definition unresolve (path : str) (d : index_db) : index_db :=
  set_imports (unresolved path <$> imports d) d.

(** *** [insert_path_projection] *)

(** [INSERT OR IGNORE] of the directories, [index] running from 1. *)
Fixpoint insert_directories (parts : list str) (indexes : list nat) (entries : gmap str path_entry)
    : gmap str path_entry :=
  match indexes with
  | [] => entries
  | index :: indexes =>
    let directory := join_slash (take index parts) in
    insert_directories parts indexes
      (match entries !! directory with
       | Some _ => entries
       | None => <[directory := mk_entry (Z.of_nat index) None]> entries
       end)
  end.

(** [INSERT OR REPLACE] also removes the row with the same file. *)
Definition insert_path_projection (path : str) (file_id : Z) (entries : gmap str path_entry)
    : gmap str path_entry :=
  let parts := split_slash path in
  let entries := insert_directories parts (seq 1 (length parts - 1)) entries in
  <[path := mk_entry (Z.of_nat (length parts)) (Some file_id)]>
    (filter (fun '(_, e) => e_file e <> Some file_id) entries).

(** [starts_with(directory || '/')], as [substr] compares it. *)
Definition is_below (directory path : str) : bool :=
  match strip_prefix (directory ++ [SLASH]) path with Some _ => true | None => false end.

Definition has_file_below (directory : str) (d : index_db) : bool :=
  existsb (fun '(_, r) => is_below directory (f_path r)) (map_to_list (files d)).
Definition keeps_entry (d : index_db) (p : str) (e : path_entry) : bool :=
  negb (bool_decide (e_file e = None)) || has_file_below p d.
Definition remove_orphan_path_entries (d : index_db) : index_db :=
  set_entries (filter (fun '(p, e) => keeps_entry d p e = true) (path_entries d)) d.

(** *** [insert_file] *)
Definition fits (value : Z) : bool := value <=? I64_MAX.
Definition fits_pair (p : Z * Z) : bool := fits p.1 && fits p.2.
Definition children_fit (c : FileColumns) : bool :=
  forallb (fun x => fits_pair (chunk_lines x) && fits_pair (chunk_bytes x) && fits (chunk_tokens x)) (chunks c)
  && forallb (fun x => fits_pair (symbol_lines x) && fits_pair (symbol_bytes x)) (symbols c)
  && forallb (fun x => fits_pair (reference_lines x) && fits_pair (reference_bytes x)) (references c).

Definition out_of_range : error := OperationFailure "value exceeds storage integer range".

(** The candidates of an import with their priorities. *)
Definition prioritized (candidates : list str) : list (Z * str) :=
  imap (fun priority c => (Z.of_nat priority, c)) candidates.

(** One import and its candidates; [PRIMARY KEY(import_id, candidate_path)]. *)
Definition insert_import (file_id : Z) (i : ImportInput) (d : index_db) : result index_db :=
  if negb (fits (import_line i)) then Err out_of_range
  else if negb (bool_decide (NoDup (candidate_paths (import_value i)))) then Err SqlFailure
  else Ok (set_imports (<[next_rowid (imports d) :=
        mk_import_row file_id (import_target i) (resolved_path (import_value i)) (import_line i)
          (prioritized (candidate_paths (import_value i)))]> (imports d)) d).

Fixpoint insert_imports (file_id : Z) (l : list ImportInput) (d : index_db) : result index_db :=
  match l with
  | [] => Ok d
  | i :: l => let* d := insert_import file_id i d in insert_imports file_id l d
  end.

Definition insert_file (triggers : bool) (file : IndexedFile) (generation : Z)
    (source_tokens : string * Z) (d : index_db) : result index_db :=
  let c := indexed_columns file in
  if negb (fits (size_bytes c) && fits (default 0 (modified_ns c)) && fits source_tokens.2)
  then Err out_of_range
  else match find_row (indexed_path file) d with
       | Some _ => Err SqlFailure
       | None =>
         let id := next_rowid (files d) in
         if negb (children_fit c) then Err out_of_range
         else insert_imports id (indexed_imports file)
                (mk_index_db (<[id := mk_file_row (indexed_path file) c generation source_tokens]> (files d))
                   (imports d) (insert_path_projection (indexed_path file) id (path_entries d))
                   (if triggers then <[id := fts_of c]> (fts d) else fts d)
                   (meta_generation d) (meta_config_hash d) (meta_derivation d) (meta_index_version d))
       end.

(** *** [ReconciliationWriter::relocate] *)
Definition moved (new_path : str) (size : Z) (modified : option Z) (generation : Z) (r : file_row) : file_row :=
  let c := f_columns r in
  mk_file_row new_path
    (mk_columns (language c) (structurally_complete c) size modified (content_hash c) (chunks c)
       (symbols c) (references c))
    generation (f_source_tokens r).

(** The UNIQUE constraint of an update of the path. *)
Definition path_taken_by_other (path : str) (id : Z) (d : index_db) : bool :=
  match find_row path d with Some (other, _) => negb (bool_decide (other = id)) | None => false end.

Definition relocate_row (old_path new_path : str) (size : Z) (modified : option Z) (generation : Z)
    (expected_hash : string) (d : index_db) : result index_db :=
  if negb (fits size && fits (default 0 modified)) then Err out_of_range
  else match find_row old_path d with
       | Some (id, r) =>
         if bool_decide (content_hash (f_columns r) = expected_hash) then
           if path_taken_by_other new_path id d then Err SqlFailure
           else
             let entries := filter (fun '(_, e) => e_file e <> Some id) (path_entries d) in
             Ok (set_entries (insert_path_projection new_path id entries)
                   (set_files (<[id := moved new_path size modified generation r]> (files d)) d))
         else Err (OperationFailure "relocation source changed before publication")
       | None => Err (OperationFailure "relocation source changed before publication")
       end.

(** ** Invariants *)

Record db_ok (d : index_db) : Prop := {
  paths_unique : forall i j r s, files d !! i = Some r -> files d !! j = Some s ->
    f_path r = f_path s -> i = j;
  imports_owned : forall k i, imports d !! k = Some i -> is_Some (files d !! i_file i);
  imports_keyed : forall k i, imports d !! k = Some i ->
    exists cs, NoDup cs /\ i_candidates i = prioritized cs
}.

(** The full-text tables hold the strings of exactly the stored rows. *)
Definition fts_ok (d : index_db) : Prop := fts d = (fun r => fts_of (f_columns r)) <$> files d.

(** The paths of a generation. *)
Definition members (d : index_db) : gset str := map_to_set (fun _ r => f_path r) (files d).

(** The syntax facts of a file's imports: targets and lines, by row. *)
Definition facts (d : index_db) (id : Z) : gmap Z (str * Z) :=
  (fun i => (i_target i, i_line i)) <$> filter (fun '(_, i) => i_file i = id) (imports d).

(** The projection stored with an import. *)
Definition stored_value (i : import_row) : ImportProjectionValue :=
  mk_projection (i_resolved i) (i_candidates i).*2.

Lemma elem_of_members d p : p ∈ members d <-> exists id r, files d !! id = Some r /\ f_path r = p.
Proof. unfold members. rewrite elem_of_map_to_set. naive_solver. Qed.

Lemma find_row_some d path id r : find_row path d = Some (id, r) ->
  files d !! id = Some r /\ f_path r = path.
Proof.
  unfold find_row. intros H%head_Some_elem_of. apply list_elem_of_In, filter_In in H as [Hin Hp].
  apply list_elem_of_In, elem_of_map_to_list in Hin. by apply bool_decide_eq_true in Hp.
Qed.

Lemma find_row_none d path : find_row path d = None ->
  forall id r, files d !! id = Some r -> f_path r <> path.
Proof.
  unfold find_row. intros Hn id r Hr Hp.
  destruct (List.filter _ _) as [|x l] eqn:E; [|done].
  assert (In (id, r) []) as [].
  rewrite <-E. apply filter_In. split; [|by apply bool_decide_eq_true].
  by apply list_elem_of_In, elem_of_map_to_list.
Qed.

Lemma find_row_unique d id r : db_ok d -> files d !! id = Some r -> find_row (f_path r) d = Some (id, r).
Proof.
  intros Hd Hr. destruct (find_row (f_path r) d) as [[j s]|] eqn:E.
  - apply find_row_some in E as [Hs Hp]. assert (j = id) as -> by (by eapply paths_unique). congruence.
  - by destruct (find_row_none _ _ E id r Hr).
Qed.

Lemma next_rowid_above {R} (rows : gmap Z R) i r : rows !! i = Some r -> i < next_rowid rows.
Proof.
  unfold next_rowid. intros Hi. enough (i <= map_fold (fun i _ m => Z.max i m) 0 rows) by lia.
  revert i r Hi. apply (map_fold_weak_ind (fun m rows => forall i (r : R), rows !! i = Some r -> i <= m)).
  - by intros i r ?%lookup_empty_Some.
  - intros j s m b _ IH i r [[<- _]|[_ Hi]]%lookup_insert_Some; [lia|]. apply IH in Hi. lia.
Qed.

Lemma next_rowid_fresh {R} (rows : gmap Z R) : rows !! next_rowid rows = None.
Proof.
  destruct (rows !! next_rowid rows) as [r|] eqn:E; [|done].
  pose proof (next_rowid_above rows _ _ E). lia.
Qed.

(** *** Deletion *)
Lemma delete_file_id_ok triggers id d : db_ok d -> db_ok (delete_file_id triggers id d).
Proof.
  intros Hd. split; cbn.
  - intros i j r s [_ Hi]%lookup_delete_Some [_ Hj]%lookup_delete_Some. by eapply paths_unique.
  - intros k i [Hk Hi]%map_lookup_filter_Some. destruct (imports_owned d Hd k i Hk) as [r Hr].
    exists r. by rewrite lookup_delete_ne.
  - intros k i [Hk _]%map_lookup_filter_Some. by eapply imports_keyed.
Qed.

Lemma delete_path_ok triggers path d : db_ok d -> db_ok (delete_path triggers path d).
Proof. unfold delete_path. destruct (find_row path d) as [[id r]|]; [apply delete_file_id_ok|done]. Qed.

Lemma delete_path_fts path d : fts_ok d -> fts_ok (delete_path true path d).
Proof.
  unfold delete_path, fts_ok. destruct (find_row path d) as [[id r]|]; [|done]. cbn. intros ->.
  by rewrite fmap_delete.
Qed.

(** Deleting a path removes exactly its row. *)
Lemma delete_path_files triggers path d id r : db_ok d ->
  files (delete_path triggers path d) !! id = Some r <-> files d !! id = Some r /\ f_path r <> path.
Proof.
  intros Hd. unfold delete_path. destruct (find_row path d) as [[j s]|] eqn:E; cbn.
  - apply find_row_some in E as [Hs Hp]. rewrite lookup_delete_Some. split.
    + intros [Hne Hr]. split; [done|]. intros Hrp. apply Hne. eapply paths_unique; [done..|]. congruence.
    + intros [Hr Hne]. split; [|done]. intros <-. congruence.
  - split; [|by intros [? _]]. intros Hr. split; [done|by eapply find_row_none].
Qed.

Lemma delete_path_facts triggers path d id r : db_ok d -> files (delete_path triggers path d) !! id = Some r ->
  facts (delete_path triggers path d) id = facts d id.
Proof.
  intros Hd Hr. apply delete_path_files in Hr as [Hr Hne]; [|done]. unfold delete_path.
  destruct (find_row path d) as [[j s]|] eqn:E; [|done].
  apply find_row_some in E as [Hs Hp]. unfold facts, delete_file_id. cbn. f_equal.
  rewrite map_filter_filter. apply map_filter_ext. intros k i _. split; [by intros []|].
  intros Hi. split; [done|]. intros Hij. congruence.
Qed.

Lemma delete_path_imports triggers path d k i : db_ok d ->
  imports (delete_path triggers path d) !! k = Some i <->
  imports d !! k = Some i /\ is_Some (files (delete_path triggers path d) !! i_file i).
Proof.
  intros Hd. unfold delete_path. destruct (find_row path d) as [[j s]|] eqn:E; cbn.
  - rewrite map_lookup_filter_Some. split; intros [Hi H]; (split; [done|]).
    + rewrite lookup_delete_ne by done. by eapply imports_owned.
    + intros Hj. rewrite Hj, lookup_delete_eq in H. by destruct H.
  - split; [|by intros [? _]]. intros Hi. split; [done|by eapply imports_owned].
Qed.

Lemma delete_path_members triggers path d : db_ok d ->
  members (delete_path triggers path d) = members d ∖ {[ path ]}.
Proof.
  intros Hd. apply set_eq. intros p. rewrite elem_of_difference, elem_of_singleton, !elem_of_members. split.
  - intros (id & r & Hr & <-). apply delete_path_files in Hr as [Hr Hne]; [|done]. split; [by exists id, r|done].
  - intros [(id & r & Hr & <-) Hne]. exists id, r. split; [by apply delete_path_files|done].
Qed.

(** *** Clearing resolutions *)
Lemma unresolve_ok path d : db_ok d -> db_ok (unresolve path d).
Proof.
  intros [Hu Ho Hk]. split; [done| |]; cbn.
  - intros k i (j & <- & Hj)%lookup_fmap_Some. unfold unresolved. destruct (bool_decide _); by apply (Ho k j).
  - intros k i (j & <- & Hj)%lookup_fmap_Some. unfold unresolved. destruct (bool_decide _); by apply (Hk k j).
Qed.

(** Statements that only set the projection of import rows. *)
Lemma projected_facts (f : import_row -> import_row) d id :
  (forall i, i_file (f i) = i_file i /\ i_target (f i) = i_target i /\ i_line (f i) = i_line i) ->
  facts (set_imports (f <$> imports d) d) id = facts d id.
Proof.
  intros Hf. unfold facts. cbn. apply map_eq. intros k.
  rewrite !lookup_fmap, !map_lookup_filter, lookup_fmap.
  destruct (imports d !! k) as [i|]; [|done]. cbn. destruct (Hf i) as (Hi & Ht & Hl).
  do 2 case_guard; cbn; congruence.
Qed.

Lemma unresolve_facts path d id : facts (unresolve path d) id = facts d id.
Proof. apply projected_facts. intros i. unfold unresolved. by destruct (bool_decide _). Qed.

(** *** Insertion *)
Lemma prioritized_paths cs : (prioritized cs).*2 = cs.
Proof.
  unfold prioritized. apply list_eq. intros k. rewrite list_lookup_fmap, list_lookup_imap.
  by destruct (cs !! k).
Qed.

Definition fact_of (i : ImportInput) : str * Z := (import_target i, import_line i).

(** An import that can be stored. *)
Definition storable (i : ImportInput) : Prop :=
  import_line i <= I64_MAX /\ NoDup (candidate_paths (import_value i)).

Lemma insert_import_spec file_id i d : db_ok d -> is_Some (files d !! file_id) ->
  match insert_import file_id i d with
  | Err _ => ~ storable i
  | Ok d' => storable i /\ exists row, i_file row = file_id /\ i_target row = import_target i
      /\ stored_value row = import_value i
      /\ d' = set_imports (<[next_rowid (imports d) := row]> (imports d)) d
      /\ db_ok d'
      /\ (map_to_list (facts d' file_id)).*2 ≡ₚ fact_of i :: (map_to_list (facts d file_id)).*2
      /\ forall id, id <> file_id -> facts d' id = facts d id
  end.
Proof.
  intros Hd Hid. unfold insert_import, storable, fits.
  destruct (import_line i <=? I64_MAX) eqn:Hl; bool_to_prop; [|cbn; lia]. cbn [negb].
  case_bool_decide as Hnd; cbn [negb]; [|by intros []]. split; [done|].
  set (row := mk_import_row _ _ _ _ _). exists row. split_and!; [done|done| |done| | |].
  - unfold stored_value. cbn. rewrite prioritized_paths. by destruct (import_value i).
  - destruct Hd as [Hu Ho Hk]. split; [done| |]; cbn; intros k j [[<- <-]|[_ Hj]]%lookup_insert_Some;
      [done|by apply (Ho k)| |by apply (Hk k)].
    by exists (candidate_paths (import_value i)).
  - unfold facts. cbn [set_imports imports]. rewrite map_filter_insert_True by done.
    rewrite fmap_insert, map_to_list_insert; [done|].
    rewrite lookup_fmap, map_lookup_filter, next_rowid_fresh. done.
  - intros id Hne. unfold facts. cbn [set_imports imports]. f_equal.
    rewrite map_filter_insert_False by (cbn; congruence).
    by rewrite delete_id by apply next_rowid_fresh.
Qed.

(** What a sequence of inserted imports leaves: the rows of the other files,
    and rows of this file with the given values. *)
Record inserted_imports (file_id : Z) (l : list ImportInput) (d d' : index_db) : Prop := {
  inserted_ok : db_ok d';
  inserted_files : files d' = files d;
  inserted_entries : path_entries d' = path_entries d;
  inserted_fts : fts d' = fts d;
  inserted_meta : meta_generation d' = meta_generation d /\ meta_config_hash d' = meta_config_hash d
    /\ meta_derivation d' = meta_derivation d /\ meta_index_version d' = meta_index_version d;
  inserted_facts : (map_to_list (facts d' file_id)).*2 ≡ₚ map fact_of l ++ (map_to_list (facts d file_id)).*2;
  inserted_others : forall id, id <> file_id -> facts d' id = facts d id;
  inserted_rows : forall k i, imports d' !! k = Some i -> imports d !! k = Some i
    \/ (i_file i = file_id /\ exists x, x ∈ l /\ i_target i = import_target x /\ stored_value i = import_value x);
  inserted_kept : imports d ⊆ imports d'
}.

Lemma insert_imports_spec file_id l d : db_ok d -> is_Some (files d !! file_id) ->
  match insert_imports file_id l d with
  | Err _ => ~ Forall storable l
  | Ok d' => Forall storable l /\ inserted_imports file_id l d d'
  end.
Proof.
  revert d. induction l as [|i l IH]; cbn; intros d Hd Hid.
  { split; [constructor|]. split; try done. by left. }
  pose proof (insert_import_spec file_id i d Hd Hid) as Hi.
  destruct (insert_import file_id i d) as [d1|]; cbn; [|by intros [? _]%Forall_cons].
  destruct Hi as (Hs & row & Hf & Ht & Hv & -> & Hd1 & Hfacts & Hothers).
  specialize (IH _ Hd1 Hid). destruct (insert_imports file_id l _) as [d'|]; [|by intros [_ ?]%Forall_cons].
  destruct IH as [Hall [H1 H2 H3 H4 H5 H6 H7 H8 H9]]. split; [by constructor|]. split; try done.
  - rewrite H6, Hfacts. cbn [map app]. by rewrite <-Permutation_middle.
  - intros id Hne. rewrite H7 by done. by apply Hothers.
  - intros k j Hj. destruct (H8 k j Hj) as [Hold|(Hjf & x & Hx & ?)].
    + cbn in Hold. apply lookup_insert_Some in Hold as [[_ <-]|[_ Hold]]; [|by left].
      right. split; [done|]. exists i. split; [by left|done].
    + right. split; [done|]. exists x. split; [by right|done].
  - etrans; [|exact H9]. cbn. apply insert_subseteq, next_rowid_fresh.
Qed.

(** A file that can be stored. *)
Definition storable_file (file : IndexedFile) (source_tokens : string * Z) : Prop :=
  size_bytes (indexed_columns file) <= I64_MAX
  /\ default 0 (modified_ns (indexed_columns file)) <= I64_MAX /\ source_tokens.2 <= I64_MAX
  /\ children_fit (indexed_columns file) = true /\ Forall storable (indexed_imports file).

Record inserted_file (triggers : bool) (file : IndexedFile) (generation : Z) (source_tokens : string * Z)
    (d : index_db) (insert_id : Z) (d' : index_db) : Prop := {
  insert_ok : db_ok d';
  insert_fresh : files d !! insert_id = None;
  insert_new_path : (indexed_path file ∉ members d);
  insert_files : files d' = <[insert_id := mk_file_row (indexed_path file) (indexed_columns file) generation source_tokens]> (files d);
  insert_entries : path_entries d' = insert_path_projection (indexed_path file) insert_id (path_entries d);
  insert_fts : fts d' = if triggers then <[insert_id := fts_of (indexed_columns file)]> (fts d) else fts d;
  insert_meta : meta_generation d' = meta_generation d /\ meta_config_hash d' = meta_config_hash d
    /\ meta_derivation d' = meta_derivation d /\ meta_index_version d' = meta_index_version d;
  insert_facts : (map_to_list (facts d' insert_id)).*2 ≡ₚ map fact_of (indexed_imports file);
  insert_others : forall id, id <> insert_id -> facts d' id = facts d id;
  insert_rows : forall k i, imports d' !! k = Some i -> imports d !! k = Some i
    \/ (i_file i = insert_id /\ exists x, x ∈ indexed_imports file /\ i_target i = import_target x
        /\ stored_value i = import_value x);
  insert_kept : imports d ⊆ imports d'
}.

Lemma insert_file_spec triggers file generation source_tokens d : db_ok d ->
  match insert_file triggers file generation source_tokens d with
  | Err _ => indexed_path file ∈ members d \/ ~ storable_file file source_tokens
  | Ok d' => storable_file file source_tokens
      /\ exists id, inserted_file triggers file generation source_tokens d id d'
  end.
Proof.
  intros Hd. unfold insert_file, storable_file, fits.
  destruct (size_bytes _ <=? I64_MAX) eqn:H1; [|cbn; right; bool_to_prop; lia].
  destruct (default 0 _ <=? I64_MAX) eqn:H2; [|cbn; right; bool_to_prop; lia].
  destruct (source_tokens.2 <=? I64_MAX) eqn:H3; [|cbn; right; bool_to_prop; lia]. cbn [andb negb].
  destruct (find_row (indexed_path file) d) as [[j s]|] eqn:Efind.
  { left. apply find_row_some in Efind as [Hs Hp]. apply elem_of_members. by exists j, s. }
  destruct (children_fit _) eqn:H4; cbn [negb]; [|right; by intros (_ & _ & _ & ? & _)].
  set (id := next_rowid (files d)). set (d1 := mk_index_db _ _ _ _ _ _ _ _).
  pose proof (next_rowid_fresh (files d)) as Hfresh. fold id in Hfresh.
  assert (Hd1 : db_ok d1).
  { destruct Hd as [Hu Ho Hk]. split; cbn; [|intros k i Hi|done].
    - intros i j r s [[<- <-]|[Hi Hr]]%lookup_insert_Some [[<- <-]|[Hj Hs]]%lookup_insert_Some Hp; [done|..].
      + by destruct (find_row_none _ _ Efind j s).
      + by destruct (find_row_none _ _ Efind i r).
      + by eapply Hu.
    - destruct (Ho k i Hi) as [r Hr]. exists r. rewrite lookup_insert_ne; [done|]. congruence. }
  assert (Hown : is_Some (files d1 !! id)) by (cbn; rewrite lookup_insert_eq; by eexists).
  pose proof (insert_imports_spec id (indexed_imports file) d1 Hd1 Hown) as Hi.
  destruct (insert_imports id (indexed_imports file) d1) as [d'|]; [|right; by intros (_ & _ & _ & _ & ?)].
  destruct Hi as [Hall [K1 K2 K3 K4 K5 K6 K7 K8 K9]]. bool_to_prop. split; [done|]. exists id.
  assert (Hnofacts : facts d1 id = ∅).
  { apply map_empty. intros k. unfold facts. rewrite lookup_fmap, fmap_None, map_lookup_filter_None.
    right. intros i Hi Hii. cbn in Hi. destruct (imports_owned d Hd k i Hi) as [r Hr]. congruence. }
  split; try done.
  - rewrite elem_of_members. intros (i & r & Hr & Hp). by destruct (find_row_none _ _ Efind i r).
  - rewrite K6, Hnofacts, map_to_list_empty. cbn. by rewrite app_nil_r.
Qed.

Lemma inserted_members triggers file generation source_tokens d id d' :
  inserted_file triggers file generation source_tokens d id d' ->
  members d' = {[ indexed_path file ]} ∪ members d.
Proof.
  intros [_ Hf _ Hfiles _ _ _ _ _ _ _]. apply set_eq. intros p.
  rewrite elem_of_union, elem_of_singleton, !elem_of_members, Hfiles. split.
  - intros (i & r & [[<- <-]|[_ Hr]]%lookup_insert_Some & <-); [by left|right]. by exists i, r.
  - intros [->|(i & r & Hr & <-)].
    + eexists id, _. by rewrite lookup_insert_eq.
    + exists i, r. rewrite lookup_insert_ne; [done|]. congruence.
Qed.

Lemma inserted_fts_ok file generation source_tokens d id d' :
  inserted_file true file generation source_tokens d id d' -> fts_ok d -> fts_ok d'.
Proof. intros [_ _ _ Hfiles _ Hfts _ _ _ _ _] Hok. unfold fts_ok in *. by rewrite Hfts, Hfiles, fmap_insert, Hok. Qed.

(** *** Relocation *)
Record relocated (old_path new_path : str) (size : Z) (modified : option Z) (generation : Z)
    (expected_hash : string) (d : index_db) (id : Z) (r : file_row) (d' : index_db) : Prop := {
  relocated_ok : db_ok d';
  relocated_row : files d !! id = Some r;
  relocated_old : f_path r = old_path;
  relocated_hash : content_hash (f_columns r) = expected_hash;
  relocated_files : files d' = <[id := moved new_path size modified generation r]> (files d);
  relocated_imports : imports d' = imports d;
  relocated_fts : fts d' = fts d;
  relocated_entries : path_entries d' = insert_path_projection new_path id
    (filter (fun '(_, e) => e_file e <> Some id) (path_entries d));
  relocated_meta : meta_generation d' = meta_generation d /\ meta_config_hash d' = meta_config_hash d
    /\ meta_derivation d' = meta_derivation d /\ meta_index_version d' = meta_index_version d
}.

Lemma relocate_row_spec old_path new_path size modified generation expected_hash d : db_ok d ->
  match relocate_row old_path new_path size modified generation expected_hash d with
  | Err _ => True
  | Ok d' => (new_path ∉ members d ∖ {[ old_path ]})
      /\ exists id r, relocated old_path new_path size modified generation expected_hash d id r d'
  end.
Proof.
  intros Hd. unfold relocate_row. destruct (negb _); [done|].
  destruct (find_row old_path d) as [[id r]|] eqn:E; [|done]. apply find_row_some in E as [Hr Hp].
  case_bool_decide as Hh; [|done]. destruct (path_taken_by_other new_path id d) eqn:Ht; [done|].
  assert (Hother : forall j s, files d !! j = Some s -> f_path s = new_path -> j = id).
  { intros j s Hs Hsp. unfold path_taken_by_other in Ht. rewrite <-Hsp, (find_row_unique d j s) in Ht by done.
    by apply negb_false_iff, bool_decide_eq_true in Ht. }
  split.
  - intros [(j & s & Hs & Hsp)%elem_of_members Hne]%elem_of_difference.
    assert (j = id) as -> by (by eapply Hother). apply Hne, elem_of_singleton. congruence.
  - exists id, r. split; try done. destruct Hd as [Hu Ho Hk]. split; cbn; [|intros k i Hi|done].
    + intros i j s1 s2 [[<- <-]|[Hi H1]]%lookup_insert_Some [[<- <-]|[Hj H2]]%lookup_insert_Some Hs; [done|..].
      * symmetry. by apply (Hother j s2).
      * by apply (Hother i s1).
      * by eapply Hu.
    + destruct (Ho k i Hi) as [s Hs]. apply lookup_insert_is_Some. destruct (decide (id = i_file i)); [by left|right].
      split; [done|by exists s].
Qed.

Lemma relocated_facts old_path new_path size modified generation expected_hash d i r d' id :
  relocated old_path new_path size modified generation expected_hash d i r d' -> facts d' id = facts d id.
Proof. intros H. unfold facts. by rewrite (relocated_imports _ _ _ _ _ _ _ _ _ _ H). Qed.

Lemma relocated_members old_path new_path size modified generation expected_hash d id r d' : db_ok d ->
  relocated old_path new_path size modified generation expected_hash d id r d' ->
  members d' = {[ new_path ]} ∪ members d ∖ {[ old_path ]}.
Proof.
  intros Hd [_ Hr Hold _ Hfiles _ _ _ _]. apply set_eq. intros p.
  rewrite elem_of_union, elem_of_difference, !elem_of_singleton, !elem_of_members, Hfiles. split.
  - intros (i & s & [[<- <-]|[Hne Hs]]%lookup_insert_Some & <-); [by left|right].
    split; [by exists i, s|]. intros Hp. apply Hne. eapply paths_unique; [done..|]. congruence.
  - intros [->|[(i & s & Hs & <-) Hne]].
    + eexists id, _. by rewrite lookup_insert_eq.
    + exists i, s. rewrite lookup_insert_ne; [done|]. intros ->. congruence.
Qed.

Lemma relocated_fts_ok old_path new_path size modified generation expected_hash d id r d' :
  relocated old_path new_path size modified generation expected_hash d id r d' -> fts_ok d -> fts_ok d'.
Proof.
  intros [_ Hr _ _ Hfiles _ Hfts _ _] Hok. unfold fts_ok in *. rewrite Hfts, Hfiles, Hok, fmap_insert.
  apply map_eq. intros k. destruct (decide (id = k)) as [<-|]; [|by rewrite lookup_insert_ne].
  by rewrite lookup_insert_eq, lookup_fmap, Hr.
Qed.

(** ** Witnesses *)
Lemma empty_db_ok config_hash derivation : db_ok (empty_db config_hash derivation).
Proof. split; cbn; [by intros i j r s ?%lookup_empty_Some|by intros k i ?%lookup_empty_Some..]. Qed.

Definition demo_columns (language : string) (tokens : Z) : FileColumns :=
  mk_columns (Some language) true 4 (Some 7) "h" [mk_chunk_input "body" (1, 1) (0, 4) tokens] [] [].
Definition demo_import (target : string) : ImportInput :=
  mk_import_input (lit target) (mk_projection None []) 1.
Definition demo_file (path : string) (targets : list string) : IndexedFile :=
  mk_indexed (lit path) (demo_columns "python" 2) (map demo_import targets).
Definition demo_insert (file : IndexedFile) (d : index_db) : index_db :=
  match insert_file true file 1 ("words"%string, 2) d with Ok d => d | Err _ => d end.
(** Two Python files, the first importing the second; no projection is stored. *)
Definition demo_db : index_db :=
  demo_insert (demo_file "main.py" ["pkg.util"]) (demo_insert (demo_file "pkg/util.py" []) (empty_db "c" "v")).

Lemma demo_insert_ok file d : db_ok d -> db_ok (demo_insert file d).
Proof.
  intros Hd. unfold demo_insert. pose proof (insert_file_spec true file 1 ("words"%string, 2) d Hd) as Hi.
  destruct (insert_file _ _ _ _ d); [|done]. destruct Hi as (_ & id & Hi). apply Hi.
Qed.
Lemma demo_insert_fts file d : db_ok d -> fts_ok d -> fts_ok (demo_insert file d).
Proof.
  intros Hd Hf. unfold demo_insert. pose proof (insert_file_spec true file 1 ("words"%string, 2) d Hd) as Hi.
  destruct (insert_file _ _ _ _ d); [|done]. destruct Hi as (_ & id & Hi). by eapply inserted_fts_ok.
Qed.
Lemma demo_db_ok : db_ok demo_db.
Proof. apply demo_insert_ok, demo_insert_ok, empty_db_ok. Qed.
Lemma demo_db_fts : fts_ok demo_db.
Proof. repeat first [apply demo_insert_fts|apply demo_insert_ok|apply empty_db_ok]. by vm_compute. Qed.

Example demo_db_members : bool_decide (members demo_db = {[ lit "main.py"; lit "pkg/util.py" ]}) = true.
Proof. vm_compute. reflexivity. Qed.
Example demo_db_entries : map_to_list (path_entries demo_db)
  = [(lit "main.py", mk_entry 1 (Some 2)); (lit "pkg/util.py", mk_entry 2 (Some 1)); (lit "pkg", mk_entry 1 None)].
Proof. vm_compute. reflexivity. Qed.
