(* ===== verification/Publication.v ===== *)
(** * Publication of a generation

    [src/src/storage/writer.rs], the import projections of
    [src/src/storage/projections.rs], the staged records of
    [src/src/storage/staging.rs] and the publication transaction of
    [src/src/storage/publication.rs].  The writer works on the database inside
    one immediate transaction; the caller's closure is an argument. *)

From S2P Require Import Prelude Chars Order Store Paths ImportResolution IndexDb.
Open Scope Z_scope.
Open Scope store_scope.

Inductive IndexingMode := ReconcileMode | Rebuild.
#[export] Instance mode_eq_dec : EqDecision IndexingMode.
Proof. solve_decision. Defined.
Definition is_rebuild (m : IndexingMode) : bool := bool_decide (m = Rebuild).

(** [MetaRecord]: what a plan remembers of the state it was made from. *)
Record MetaRecord := mk_meta {
  base_generation : Z;
  base_config_hash : string;
  base_derivation : string
}.
#[export] Instance meta_eq_dec : EqDecision MetaRecord.
Proof. solve_decision. Defined.
Definition meta (d : index_db) : MetaRecord :=
  mk_meta (meta_generation d) (meta_config_hash d) (meta_derivation d).

Definition verify_baseline (baseline : MetaRecord) (current_generation : Z)
    (current_config current_derivation : string) : result () :=
  let* actual := i64_to_u64 current_generation in
  if negb (actual =? base_generation baseline)
     || negb (bool_decide (current_config = base_config_hash baseline))
     || negb (bool_decide (current_derivation = base_derivation baseline))
  then Err (StaleReconciliation (base_generation baseline) actual)
  else Ok ().

(** ** The writer *)
Record ReconciliationWriter := mk_writer {
  w_db : index_db;
  w_generation : Z;
  w_mode : IndexingMode;
  w_triggers : bool;
  w_replacements : Z;
  w_deletions : gset str;
  w_projection_refreshes : Z
}.
Definition with_db (d : index_db) (w : ReconciliationWriter) : ReconciliationWriter :=
  mk_writer d (w_generation w) (w_mode w) (w_triggers w) (w_replacements w) (w_deletions w)
    (w_projection_refreshes w).
Definition count_replacement (w : ReconciliationWriter) : ReconciliationWriter :=
  mk_writer (w_db w) (w_generation w) (w_mode w) (w_triggers w)
    (u64_saturating_add (w_replacements w) 1) (w_deletions w) (w_projection_refreshes w).
Definition record_deletion (path : str) (w : ReconciliationWriter) : ReconciliationWriter :=
  mk_writer (w_db w) (w_generation w) (w_mode w) (w_triggers w) (w_replacements w)
    ({[ path ]} ∪ w_deletions w) (w_projection_refreshes w).

(** [replace_inner]. *)
Definition replace (file : IndexedFile) (source_tokens : string * Z) (w : ReconciliationWriter)
    : result ReconciliationWriter :=
  let d := if is_rebuild (w_mode w) then w_db w
           else delete_path (w_triggers w) (indexed_path file) (w_db w) in
  let* d := insert_file (w_triggers w) file (w_generation w) source_tokens d in
  Ok (count_replacement (with_db d w)).

Definition delete (path : str) (w : ReconciliationWriter) : ReconciliationWriter :=
  let seen := bool_decide (path ∈ w_deletions w) in
  let w := record_deletion path w in
  if seen || is_rebuild (w_mode w) then w
  else with_db (unresolve path (delete_path (w_triggers w) path (w_db w))) w.

Definition relocate (old_path new_path : str) (size : Z) (modified : option Z) (expected_hash : string)
    (w : ReconciliationWriter) : result ReconciliationWriter :=
  let* d := relocate_row old_path new_path size modified (w_generation w) expected_hash (w_db w) in
  Ok (count_replacement (record_deletion old_path (with_db d w))).

(** ** Import projections *)
Record ImportSeed := mk_seed {
  seed_id : Z;
  seed_file_id : Z;
  seed_source_path : str;
  seed_raw_target : str
}.
Record ImportProjection := mk_import_projection {
  projection_id : Z;
  projection_file_id : Z;
  projection_value : ImportProjectionValue
}.

(** The UPDATE of one import and the replacement of its candidates. *)
Definition refresh_one (p : ImportProjection) (d : index_db) : result index_db :=
  match imports d !! projection_id p with
  | None => Err (OperationFailure "import changed before projection refresh")
  | Some i =>
    if negb (bool_decide (NoDup (candidate_paths (projection_value p)))) then Err SqlFailure
    else Ok (set_imports (<[projection_id p :=
           mk_import_row (i_file i) (i_target i) (resolved_path (projection_value p)) (i_line i)
             (prioritized (candidate_paths (projection_value p)))]> (imports d)) d)
  end.
Fixpoint refresh_all (ps : list ImportProjection) (d : index_db) : result index_db :=
  match ps with
  | [] => Ok d
  | p :: ps => let* d := refresh_one p d in refresh_all ps d
  end.

(** [UPDATE files SET generation = .. WHERE id = ..] for each refreshed file. *)
Definition bump_row (ids : gset Z) (generation : Z) (id : Z) (r : file_row) : file_row :=
  if bool_decide (id ∈ ids) then mk_file_row (f_path r) (f_columns r) generation (f_source_tokens r)
  else r.
Definition bump_generations (ids : gset Z) (generation : Z) (d : index_db) : index_db :=
  set_files (map_imap (fun id r => Some (bump_row ids generation id r)) (files d)) d.

Definition refresh_import_projections (ps : list ImportProjection) (w : ReconciliationWriter)
    : result ReconciliationWriter :=
  match ps with
  | [] => Ok w
  | _ =>
    let* d := refresh_all ps (w_db w) in
    let ids : gset Z := list_to_set (map projection_file_id ps) in
    Ok (mk_writer (bump_generations ids (w_generation w) d) (w_generation w) (w_mode w) (w_triggers w)
          (w_replacements w) (w_deletions w) (u64_saturating_add (w_projection_refreshes w) (len ps)))
  end.

(** [IMPORT_CANDIDATE_RESOLUTION]: the first requested path that is a file. *)
Definition resolve_query (candidates : list str) (d : index_db) : option str :=
  match List.filter (fun c => bool_decide (c ∈ members d)) candidates with
  | [] => None
  | c :: _ => Some c
  end.

Definition IMPORT_REPAIR_PAGE_SIZE : nat := 32.

(** [import_projection_page]: the imports after an id, in id order. *)
Definition import_ids (d : index_db) : list Z := sort_keys (map_to_list (imports d)).*1.
Definition after (after_id : option Z) (id : Z) : bool :=
  match after_id with None => true | Some a => a <? id end.
Definition seed_of (d : index_db) (id : Z) : option (ImportSeed * import_row) :=
  match imports d !! id with
  | None => None
  | Some i => match files d !! i_file i with
              | None => None
              | Some r => Some (mk_seed id (i_file i) (f_path r) (i_target i), i)
              end
  end.
Definition import_projection_page (after_id : option Z) (d : index_db) : list (ImportSeed * import_row) :=
  take IMPORT_REPAIR_PAGE_SIZE (omap (seed_of d) (List.filter (after after_id) (import_ids d))).

Definition exceeds_bounds (candidates : list str) : bool :=
  (MAX_IMPORT_CANDIDATES_PER_IMPORT <? len candidates)
  || existsb (fun c => bool_decide (c = []) || (MAX_IMPORT_CANDIDATE_PATH_BYTES <? token_len c)) candidates.

(** [candidates_match]: the stored list, with its priorities. *)
Definition candidates_match (stored : list (Z * str)) (derived : list str) : bool :=
  (length stored =? length derived)%nat
  && forallb (fun '((priority, path), (k, candidate)) => (priority =? Z.of_nat k) && bool_decide (path = candidate))
       (zip stored (imap pair derived)).

Section Repair.
(** The callback of the indexer: the candidates of an import under the
    membership the transaction leaves; its [nat] counts the calls. *)
Variable derive_candidates : nat -> ImportSeed -> gset str -> result (list str).

(** The body of the page loop. *)
Fixpoint page_repairs (call : nat) (membership : gset str) (d : index_db) (page : list (ImportSeed * import_row))
    : result (list ImportProjection) :=
  match page with
  | [] => Ok []
  | (seed, i) :: page =>
    let* candidates := derive_candidates call seed membership in
    if exceeds_bounds candidates
    then Err (OperationFailure "derived import candidates exceed persisted bounds")
    else
      let value := mk_projection (resolve_query candidates d) candidates in
      let repair := negb (bool_decide (i_resolved i = resolved_path value))
                    || negb (candidates_match (i_candidates i) candidates) in
      let* repairs := page_repairs (S call) membership d page in
      Ok (if repair then mk_import_projection (seed_id seed) (seed_file_id seed) value :: repairs
          else repairs)
  end.

Fixpoint repair_pages (fuel call : nat) (membership : gset str) (after_id : option Z) (repaired : Z)
    (w : ReconciliationWriter) : run (result (Z * ReconciliationWriter)) :=
  match fuel with
  | O => NoFuel
  | S fuel =>
    let stored := import_projection_page after_id (w_db w) in
    match last stored with
    | None => Done (Ok (repaired, w))
    | Some (seed, _) =>
      match (let* repairs := page_repairs call membership (w_db w) stored in
             let* w := refresh_import_projections repairs w in
             Ok (repairs, w)) with
      | Err e => Done (Err e)
      | Ok (repairs, w) =>
        repair_pages fuel (call + length stored) membership (Some (seed_id seed))
          (u64_saturating_add repaired (len repairs)) w
      end
    end
  end.

Definition repair_import_projections (w : ReconciliationWriter) : run (result (Z * ReconciliationWriter)) :=
  repair_pages (S (size (imports (w_db w)))) 0 (members (w_db w)) None 0 w.
End Repair.

(** ** The stage *)

(** [PreparedReconciliation]: the pending batch and the rows of the stage
    database, in the order of their ordinals. *)
Record PreparedReconciliation := mk_stage {
  replacements : list (IndexedFile * Z);
  removals : list str;
  staged_removals : list str;
  staged_files : list (IndexedFile * Z)
}.
Definition empty_stage : PreparedReconciliation := mk_stage [] [] [] [].

Definition stage_indexed (file : IndexedFile) (source_token_count : Z) (s : PreparedReconciliation) :=
  mk_stage (replacements s ++ [(file, source_token_count)]) (removals s) (staged_removals s) (staged_files s).
Definition stage_removal (path : str) (s : PreparedReconciliation) :=
  mk_stage (replacements s) (removals s ++ [path]) (staged_removals s) (staged_files s).
Definition pending_removals (s : PreparedReconciliation) : Z := len (removals s).

(** [INSERT OR IGNORE INTO stage_removals]. *)
Definition insert_removal (rows : list str) (path : str) : list str :=
  if bool_decide (path ∈ rows) then rows else rows ++ [path].

(** [insert_stage_file]: the integers must fit and the paths and candidates be unique. *)
Definition insert_stage_file (rows : list (IndexedFile * Z)) (x : IndexedFile * Z)
    : result (list (IndexedFile * Z)) :=
  let '(file, tokens) := x in
  let c := indexed_columns file in
  if negb (fits (size_bytes c) && fits (default 0 (modified_ns c)) && fits tokens) then Err out_of_range
  else if bool_decide (indexed_path file ∈ map (fun y => indexed_path y.1) rows) then Err SqlFailure
  else if negb (children_fit c) then Err out_of_range
  else if negb (forallb (fun i => fits (import_line i)) (indexed_imports file)) then Err out_of_range
  else if negb (forallb (fun i => bool_decide (NoDup (candidate_paths (import_value i)))) (indexed_imports file))
  then Err SqlFailure
  else Ok (rows ++ [x]).
Fixpoint insert_stage_files (rows l : list (IndexedFile * Z)) : result (list (IndexedFile * Z)) :=
  match l with
  | [] => Ok rows
  | x :: l => let* rows := insert_stage_file rows x in insert_stage_files rows l
  end.

(** [flush]; on an error the caller keeps the stage as it was. *)
Definition flush (s : PreparedReconciliation) : result PreparedReconciliation :=
  match replacements s, removals s with
  | [], [] => Ok s
  | _, _ =>
    let* rows := insert_stage_files (staged_files s) (replacements s) in
    Ok (mk_stage [] [] (fold_left insert_removal (sort_keys (removals s)) (staged_removals s)) rows)
  end.

(** [FinalizedReconciliation::apply], of the tokenizer the stage was made with. *)
Fixpoint replace_all (tokenizer : string) (l : list (IndexedFile * Z)) (w : ReconciliationWriter)
    : result ReconciliationWriter :=
  match l with
  | [] => Ok w
  | (file, tokens) :: l =>
    let* w := replace file (tokenizer, tokens) w in replace_all tokenizer l w
  end.
Definition apply_stage (tokenizer : string) (s : PreparedReconciliation) (w : ReconciliationWriter)
    : result ReconciliationWriter :=
  replace_all tokenizer (staged_files s) (fold_left (fun w path => delete path w) (staged_removals s) w).

(** ** [publish_reconciliation_inner] *)
Inductive ReconciliationPublicationPhase :=
| ChunkWordFts | ChunkTrigramFts | SymbolFts | ReferenceFts | CommitAndCheckpoint.

Section Publish.
Variable runtime_derivation : string.
Variable observe : ReconciliationPublicationPhase -> result ().

(** The observer is asked before each of the four rebuilds. *)
Definition bulk_rebuild (d : index_db) : result index_db :=
  let* _ := observe ChunkWordFts in
  let* _ := observe ChunkTrigramFts in
  let* _ := observe SymbolFts in
  let* _ := observe ReferenceFts in
  Ok (rebuild_fts d).

Definition publish_meta (config_hash : string) (next_generation : Z) (d : index_db) : index_db :=
  mk_index_db (files d) (imports d) (path_entries d) (fts d) next_generation config_hash
    runtime_derivation (meta_index_version d + 1).

(** [changed]. *)
Definition has_changed (mode : IndexingMode) (config_hash : string) (before : index_db)
    (w : ReconciliationWriter) : bool :=
  is_rebuild mode || (0 <? w_replacements w) || negb (bool_decide (w_deletions w = ∅))
  || (0 <? w_projection_refreshes w) || negb (bool_decide (meta_config_hash before = config_hash))
  || negb (bool_decide (meta_derivation before = runtime_derivation)).

(** The orphan directories go when something was deleted. *)
Definition tidied (mode : IndexingMode) (w : ReconciliationWriter) : index_db :=
  if negb (is_rebuild mode) && negb (bool_decide (w_deletions w = ∅))
  then remove_orphan_path_entries (w_db w) else w_db w.

(** What follows the caller's closure in the transaction: the committed state,
    or the state before when nothing changed, and the generation. *)
Definition finish_publication (mode : IndexingMode) (config_hash : string) (next_generation : Z)
    (bulk_fts : bool) (before : index_db) (w : ReconciliationWriter) : result (index_db * Z) :=
  let changed := has_changed mode config_hash before w in
  let d := tidied mode w in
  let* d := if changed && bulk_fts then bulk_rebuild d else Ok d in
  let* _ := observe CommitAndCheckpoint in
  Ok (if changed then (publish_meta config_hash next_generation d, next_generation)
      else (before, meta_generation before)).

Definition publish_reconciliation {A} (baseline : MetaRecord) (config_hash : string) (mode : IndexingMode)
    (write : ReconciliationWriter -> run (result (A * ReconciliationWriter))) (d : index_db)
    : run (tx index_db (Z * A)) :=
  try? _ := verify_baseline baseline (meta_generation d) (meta_config_hash d) (meta_derivation d) in
  let bulk_fts := is_rebuild mode || (meta_generation d =? 0) in
  let start := if is_rebuild mode then delete_all d else d in
  match i64_checked_add (meta_generation d) 1 with
  | None => Done (RolledBack (OperationFailure "repository generation exhausted"))
  | Some next_generation =>
    match write (mk_writer start next_generation mode (negb bulk_fts) 0 ∅ 0) with
    | Done (Ok (output, w)) =>
      Done (try! finished := finish_publication mode config_hash next_generation bulk_fts d w in
            Committed finished.1 (Ok (finished.2, output)))
    | Done (Err e) => Done (RolledBack e)
    | Panic => Panic
    | NoFuel => NoFuel
    end
  end.
End Publish.

(** ** What a caller's closure can do *)

(** One call of the writer. *)
Inductive writer_step : ReconciliationWriter -> ReconciliationWriter -> Prop :=
| step_replace file tokens w w' : replace file tokens w = Ok w' -> writer_step w w'
| step_delete path w : writer_step w (delete path w)
| step_relocate old_path new_path size modified hash w w' :
    relocate old_path new_path size modified hash w = Ok w' -> writer_step w w'
| step_refresh ps w w' : refresh_import_projections ps w = Ok w' -> writer_step w w'.

Definition writes : relation ReconciliationWriter := rtc writer_step.

(** What every state of a writer satisfies. *)
Record writer_ok (w : ReconciliationWriter) : Prop := {
  writer_db : db_ok (w_db w);
  writer_fts : w_triggers w = true -> fts_ok (w_db w);
  writer_counts : 0 <= w_replacements w /\ 0 <= w_projection_refreshes w
}.

(** Nothing was counted as a change. *)
Definition untouched (w : ReconciliationWriter) : Prop :=
  w_replacements w = 0 /\ w_deletions w = ∅ /\ w_projection_refreshes w = 0.

(** The metadata row belongs to the publication. *)
Definition same_meta (d d' : index_db) : Prop :=
  meta_generation d' = meta_generation d /\ meta_config_hash d' = meta_config_hash d
  /\ meta_derivation d' = meta_derivation d /\ meta_index_version d' = meta_index_version d.
#[export] Instance same_meta_preorder : PreOrder same_meta.
Proof. split; [by intros d|]. unfold same_meta. intros d1 d2 d3. intuition congruence. Qed.

(** What a call keeps of the writer itself. *)
Record step_spec (w w' : ReconciliationWriter) : Prop := {
  spec_ok : writer_ok w';
  spec_generation : w_generation w' = w_generation w;
  spec_mode : w_mode w' = w_mode w;
  spec_triggers : w_triggers w' = w_triggers w;
  spec_meta : same_meta (w_db w) (w_db w');
  spec_untouched : untouched w' -> w' = w
}.

Lemma delete_path_meta triggers path d : same_meta d (delete_path triggers path d).
Proof. unfold delete_path. by destruct (find_row path d) as [[]|]. Qed.

(** *** Refreshing projections *)

(** The rows of a refresh: every import keeps its file, target and line. *)
Record refreshed (ps : list ImportProjection) (d d' : index_db) : Prop := {
  refreshed_ok : db_ok d';
  refreshed_files : files d' = files d;
  refreshed_entries : path_entries d' = path_entries d;
  refreshed_fts : fts d' = fts d;
  refreshed_meta : same_meta d d';
  refreshed_facts : forall id, facts d' id = facts d id;
  refreshed_dom : dom (imports d') = dom (imports d);
  refreshed_row : forall k i, imports d !! k = Some i -> exists i', imports d' !! k = Some i'
    /\ i_file i' = i_file i /\ i_target i' = i_target i /\ i_line i' = i_line i;
  refreshed_other : forall k, k ∉ map projection_id ps -> imports d' !! k = imports d !! k;
  refreshed_values : forall p, p ∈ ps -> NoDup (map projection_id ps) ->
    exists i', imports d' !! projection_id p = Some i' /\ stored_value i' = projection_value p
      /\ i_candidates i' = prioritized (candidate_paths (projection_value p))
}.

Lemma refresh_one_spec p d d' : db_ok d -> refresh_one p d = Ok d' ->
  exists i i', imports d !! projection_id p = Some i /\ i_file i' = i_file i /\ i_target i' = i_target i
    /\ i_line i' = i_line i /\ stored_value i' = projection_value p
    /\ i_candidates i' = prioritized (candidate_paths (projection_value p))
    /\ d' = set_imports (<[projection_id p := i']> (imports d)) d /\ db_ok d'.
Proof.
  intros Hd. unfold refresh_one. destruct (imports d !! projection_id p) as [i|] eqn:E; [|done].
  case_bool_decide as Hnd; [|done]. cbn [negb]. intros [= <-]. exists i. set (i' := mk_import_row _ _ _ _ _). exists i'.
  split_and!; [done..| |done|done|].
  - unfold stored_value. cbn. rewrite prioritized_paths. by destruct (projection_value p).
  - destruct Hd as [Hu Ho Hk]. split; [done| |]; cbn; intros k j [[<- <-]|[_ Hj]]%lookup_insert_Some.
    + by apply (Ho (projection_id p) i).
    + by apply (Ho k j).
    + by exists (candidate_paths (projection_value p)).
    + by apply (Hk k j).
Qed.

Lemma replaced_facts d k i i' id : imports d !! k = Some i -> i_file i' = i_file i ->
  i_target i' = i_target i -> i_line i' = i_line i ->
  facts (set_imports (<[k := i']> (imports d)) d) id = facts d id.
Proof.
  intros Hi Hf Ht Hl. unfold facts. cbn. apply map_eq. intros j.
  rewrite !lookup_fmap, !map_lookup_filter. destruct (decide (k = j)) as [<-|Hne].
  - rewrite lookup_insert_eq, Hi. cbn. do 2 case_guard; cbn; congruence.
  - by rewrite lookup_insert_ne.
Qed.

Lemma refresh_all_spec ps d d' : db_ok d -> refresh_all ps d = Ok d' -> refreshed ps d d'.
Proof.
  revert d. induction ps as [|p ps IH]; cbn; intros d Hd.
  { intros [= <-]. split; try done. { intros k i Hi. by exists i. } by intros p ?%elem_of_nil. }
  destruct (refresh_one p d) as [d1|] eqn:E1; [|done]. cbn. intros E2.
  destruct (refresh_one_spec p d d1 Hd E1) as (i & i' & Hi & Hf & Ht & Hl & Hv & Hc & -> & Hd1).
  destruct (IH _ Hd1 E2) as [K1 K2 K3 K4 K5 K6 K7 K8 K9 K10]. cbn in *. split; try done.
  - intros id. rewrite K6. by apply (replaced_facts d _ i).
  - rewrite K7, dom_insert_L. by apply subseteq_union_1_L, singleton_subseteq_l, (elem_of_dom_2 _ _ i).
  - intros k j Hj. destruct (decide (k = projection_id p)) as [->|Hne].
    + destruct (K8 (projection_id p) i') as (j' & Hj' & ? & ? & ?); [by rewrite lookup_insert_eq|].
      exists j'. split; [done|]. split_and!; congruence.
    + apply K8. by rewrite lookup_insert_ne.
  - intros k Hk. apply not_elem_of_cons in Hk as [Hne Hk]. rewrite K9 by done. by rewrite lookup_insert_ne.
  - intros q Hq [Hn Hnd]%NoDup_cons. apply elem_of_cons in Hq as [->|Hq]; [|by apply K10].
    exists i'. rewrite K9 by done. by rewrite lookup_insert_eq.
Qed.

Lemma bump_files ids generation d id r :
  files (bump_generations ids generation d) !! id = Some r <->
  exists s, files d !! id = Some s /\ r = bump_row ids generation id s.
Proof.
  cbn. rewrite map_lookup_imap, bind_Some.
  split; [intros (s & ? & [= <-])|intros (s & ? & ->)]; by exists s.
Qed.

Lemma bump_row_keeps ids generation id r :
  f_path (bump_row ids generation id r) = f_path r /\ f_columns (bump_row ids generation id r) = f_columns r
  /\ f_source_tokens (bump_row ids generation id r) = f_source_tokens r.
Proof. unfold bump_row. by destruct (bool_decide _). Qed.

Lemma bump_ok ids generation d : db_ok d -> db_ok (bump_generations ids generation d).
Proof.
  intros [Hu Ho Hk]. split; [| |done].
  - intros i j r s (r' & Hr & ->)%bump_files (s' & Hs & ->)%bump_files.
    destruct (bump_row_keeps ids generation i r') as (-> & _), (bump_row_keeps ids generation j s') as (-> & _).
    by eapply Hu.
  - intros k i Hi. destruct (Ho k i Hi) as [r Hr]. exists (bump_row ids generation (i_file i) r).
    apply bump_files. by exists r.
Qed.

Lemma bump_fts ids generation d : fts_ok d -> fts_ok (bump_generations ids generation d).
Proof.
  unfold fts_ok. cbn. intros ->. apply map_eq. intros k. rewrite !lookup_fmap, map_lookup_imap.
  destruct (files d !! k) as [r|]; [|done]. cbn. by destruct (bump_row_keeps ids generation k r) as (_ & -> & _).
Qed.

Lemma bump_members ids generation d : members (bump_generations ids generation d) = members d.
Proof.
  apply set_eq. intros p. rewrite !elem_of_members. split.
  - intros (id & r & (s & Hs & ->)%bump_files & <-). exists id, s. split; [done|].
    by destruct (bump_row_keeps ids generation id s) as (-> & _).
  - intros (id & r & Hr & <-). exists id, (bump_row ids generation id r). split; [apply bump_files; by exists r|].
    by destruct (bump_row_keeps ids generation id r) as (-> & _).
Qed.

(** *** Each call of the writer *)
Lemma saturating_succ n : 0 <= n -> 0 < u64_saturating_add n 1.
Proof. unfold u64_saturating_add, U64_MAX. lia. Qed.

Lemma replace_step_spec file tokens w w' : writer_ok w -> replace file tokens w = Ok w' -> step_spec w w'.
Proof.
  intros [Hd Hf [Hr Hp]]. unfold replace.
  set (d := if is_rebuild (w_mode w) then w_db w else delete_path (w_triggers w) (indexed_path file) (w_db w)).
  assert (Hd1 : db_ok d) by (unfold d; destruct (is_rebuild _); [done|by apply delete_path_ok]).
  assert (Hf1 : w_triggers w = true -> fts_ok d).
  { intros Ht. unfold d. rewrite Ht. destruct (is_rebuild _); [by apply Hf|apply delete_path_fts; by apply Hf]. }
  assert (Hm1 : same_meta (w_db w) d).
  { unfold d. destruct (is_rebuild _); [done|apply delete_path_meta]. }
  pose proof (insert_file_spec (w_triggers w) file (w_generation w) tokens d Hd1) as Hi.
  destruct (insert_file _ _ _ _ d) as [d'|]; [|done]. cbn. intros [= <-]. destruct Hi as (_ & id & Hi).
  pose proof (saturating_succ (w_replacements w) Hr). split; cbn; try done.
  - split; cbn; [apply Hi| |lia]. intros Ht. rewrite Ht in Hi. eapply inserted_fts_ok; [done|by apply Hf1].
  - etrans; [done|apply Hi].
  - intros (H0 & _). cbn in H0. lia.
Qed.

Lemma deleted_touched path w : path ∈ w_deletions w -> ~ untouched w.
Proof. intros Hin (_ & H0 & _). rewrite H0 in Hin. by apply not_elem_of_empty in Hin. Qed.

Lemma delete_step_spec path w : writer_ok w -> step_spec w (delete path w).
Proof.
  intros [Hd Hf Hc]. unfold delete. destruct (bool_decide _ || is_rebuild _) eqn:E.
  - split; try done. intros []%(deleted_touched path). by apply elem_of_union_l, elem_of_singleton_2.
  - split; cbn; try done.
    + split; cbn; [by apply unresolve_ok, delete_path_ok| |done]. intros Ht.
      change (fts_ok (delete_path (w_triggers w) path (w_db w))). rewrite Ht. by apply delete_path_fts, Hf.
    + apply (delete_path_meta (w_triggers w) path).
    + intros []%(deleted_touched path). by apply elem_of_union_l, elem_of_singleton_2.
Qed.

Lemma relocate_step_spec old_path new_path size modified hash w w' : writer_ok w ->
  relocate old_path new_path size modified hash w = Ok w' -> step_spec w w'.
Proof.
  intros [Hd Hf [Hr Hp]]. unfold relocate.
  pose proof (relocate_row_spec old_path new_path size modified (w_generation w) hash (w_db w) Hd) as Hi.
  destruct (relocate_row _ _ _ _ _ _ _) as [d'|]; [|done]. cbn. intros [= <-]. destruct Hi as (_ & id & r & Hi).
  pose proof (saturating_succ (w_replacements w) Hr). split; cbn; try done.
  - split; cbn; [apply Hi| |lia]. intros Ht. eapply relocated_fts_ok; [done|by apply Hf].
  - apply Hi.
  - intros (H0 & _). cbn in H0. lia.
Qed.

Lemma refresh_step_spec ps w w' : writer_ok w -> refresh_import_projections ps w = Ok w' -> step_spec w w'.
Proof.
  intros [Hd Hf [Hr Hp]]. unfold refresh_import_projections. destruct ps as [|p ps]; [by intros [= <-]|].
  destruct (refresh_all (p :: ps) (w_db w)) as [d|] eqn:E; [|done]. cbn [result_bind]. intros [= <-].
  destruct (refresh_all_spec _ _ _ Hd E) as [K1 K2 K3 K4 K5 _ _ _ _ _].
  assert (0 < u64_saturating_add (w_projection_refreshes w) (len (p :: ps))).
  { unfold u64_saturating_add, U64_MAX, len. cbn [length]. lia. }
  split; cbn; try done.
  - split; cbn; [by apply bump_ok| |lia]. intros Ht. apply bump_fts. unfold fts_ok. rewrite K4, K2. by apply Hf.
  - intros (_ & _ & H0). cbn in H0. lia.
Qed.

Lemma writer_step_spec w w' : writer_ok w -> writer_step w w' -> step_spec w w'.
Proof.
  intros Hw Hstep. destruct Hstep.
  - by eapply replace_step_spec.
  - by apply delete_step_spec.
  - by eapply relocate_step_spec.
  - by eapply refresh_step_spec.
Qed.

Lemma writes_spec w w' : writer_ok w -> writes w w' -> step_spec w w'.
Proof.
  intros Hw Hws. revert Hw. induction Hws as [w|w w1 w2 Hstep _ IH]; intros Hw; [by split|].
  destruct (writer_step_spec _ _ Hw Hstep) as [A1 A2 A3 A4 A5 A6].
  destruct (IH A1) as [B1 B2 B3 B4 B5 B6]. split; [done|congruence..|by etrans|].
  intros Hu. rewrite <-(A6 ltac:(by rewrite <-(B6 Hu))). by apply B6.
Qed.

(** *** The staged changes *)
Lemma replace_all_writes tokenizer l w w' : replace_all tokenizer l w = Ok w' -> writes w w'.
Proof.
  revert w. induction l as [|[file tokens] l IH]; cbn; intros w; [by intros [= <-]|].
  destruct (replace file (tokenizer, tokens) w) as [w1|] eqn:E; [|done]. intros H.
  eapply rtc_l; [by eapply step_replace|by apply IH].
Qed.

Lemma removals_write l w : writes w (fold_left (fun w path => delete path w) l w).
Proof.
  revert w. induction l as [|path l IH]; intros w; [constructor|]. cbn [fold_left].
  eapply rtc_l; [apply (step_delete path)|apply IH].
Qed.

Lemma apply_stage_writes tokenizer s w w' : apply_stage tokenizer s w = Ok w' -> writes w w'.
Proof. intros H%replace_all_writes. etrans; [apply removals_write|exact H]. Qed.

(** *** The transaction *)
Lemma fresh_writer_ok d generation mode triggers : db_ok d -> (triggers = true -> fts_ok d) ->
  writer_ok (mk_writer d generation mode triggers 0 ∅ 0).
Proof. by split. Qed.

Lemma delete_all_ok d : db_ok (delete_all d).
Proof. split; cbn; [by intros i j r s ?%lookup_empty_Some|by intros k i ?%lookup_empty_Some..]. Qed.

Lemma orphans_ok d : db_ok d -> db_ok (remove_orphan_path_entries d).
Proof. by intros [Hu Ho Hk]. Qed.

Lemma has_changed_no runtime mode config before w : writer_ok w ->
  has_changed runtime mode config before w = false ->
  mode = ReconcileMode /\ untouched w /\ meta_config_hash before = config /\ meta_derivation before = runtime.
Proof.
  intros [_ _ [Hr Hp]]. unfold has_changed, is_rebuild, untouched. intros H.
  bool_to_prop. repeat match goal with H : bool_decide _ = true |- _ => apply bool_decide_eq_true in H end.
  destruct mode; [|done]. split_and!; first [done|lia].
Qed.

(** What the end of the transaction commits. *)
Lemma finish_publication_spec runtime observe mode config next bulk before w d' g :
  writer_ok w -> w_triggers w = negb bulk -> db_ok before -> fts_ok before ->
  finish_publication runtime observe mode config next bulk before w = Ok (d', g) ->
  db_ok d' /\ fts_ok d' /\
  ((g = next /\ meta d' = mk_meta next config runtime /\ files d' = files (w_db w) /\ imports d' = imports (w_db w)
    /\ path_entries d' = path_entries (tidied mode w))
   \/ (mode = ReconcileMode /\ g = meta_generation before /\ d' = before /\ untouched w
       /\ meta_config_hash before = config /\ meta_derivation before = runtime)).
Proof.
  intros Hw Ht Hb Hbf. unfold finish_publication.
  set (d := tidied mode w).
  assert (Hd : db_ok d /\ files d = files (w_db w) /\ imports d = imports (w_db w) /\ fts d = fts (w_db w)).
  { unfold d, tidied. destruct (negb (is_rebuild mode) && _); [|by split; [apply Hw|]].
    split; [by apply orphans_ok, Hw|done]. }
  destruct Hd as (Hd & Hfiles & Himports & Hfts).
  destruct (has_changed _ _ _ _ _) eqn:Hc.
  - destruct bulk; cbn [andb].
    + unfold bulk_rebuild. do 4 (destruct (observe _) as [[]|]; [|done]). cbn [result_bind].
      destruct (observe CommitAndCheckpoint) as [[]|]; [|done]. cbn. intros [= <- <-].
      split; [by destruct Hd|]. split; [done|]. by left.
    + cbn [result_bind]. destruct (observe CommitAndCheckpoint) as [[]|]; [|done]. cbn. intros [= <- <-].
      split; [by destruct Hd|]. split; [|by left].
      unfold fts_ok. cbn. rewrite Hfts, Hfiles. by apply Hw.
  - destruct (has_changed_no _ _ _ _ _ Hw Hc) as (-> & Hu & Hconf & Hder). cbn.
    destruct (observe CommitAndCheckpoint) as [[]|]; [|done]. cbn. intros [= <- <-].
    split; [done|]. split; [done|]. by right.
Qed.

Lemma verify_baseline_spec baseline d : 0 <= meta_generation d ->
  verify_baseline baseline (meta_generation d) (meta_config_hash d) (meta_derivation d)
  = if bool_decide (baseline = meta d) then Ok ()
    else Err (StaleReconciliation (base_generation baseline) (meta_generation d)).
Proof.
  intros Hg. unfold verify_baseline. rewrite i64_to_u64_ok by done. cbn [result_bind].
  destruct baseline as [g c h]. cbn. destruct (bool_decide_reflect (mk_meta g c h = meta d)) as [Hm|Hm].
  - unfold meta in Hm. injection Hm as -> -> ->. by rewrite Z.eqb_refl, !bool_decide_eq_true_2.
  - destruct (Z.eqb_spec (meta_generation d) g); [|done]. cbn. do 2 (case_bool_decide; [|done]).
    destruct Hm. unfold meta. congruence.
Qed.

(** The publication of a closure that only calls the writer: what it commits. *)
Definition published runtime {A} config mode (write : ReconciliationWriter -> run (result (A * ReconciliationWriter)))
    (d d' : index_db) (g : Z) (output : A) : Prop :=
  exists w w', write w = Done (Ok (output, w')) /\ writer_ok w /\ w_mode w = mode /\ w_deletions w = ∅
    /\ w_generation w = meta_generation d + 1
    /\ w_db w = (if is_rebuild mode then delete_all d else d) /\ writes w w' /\ writer_ok w'
    /\ ((g = meta_generation d + 1 /\ meta d' = mk_meta g config runtime
          /\ files d' = files (w_db w') /\ imports d' = imports (w_db w')
          /\ path_entries d' = path_entries (tidied mode w'))
        \/ (g = meta_generation d /\ d' = d /\ w' = w /\ mode = ReconcileMode
            /\ config = meta_config_hash d /\ runtime = meta_derivation d)).

Lemma publish_spec runtime observe {A} baseline config mode
    (write : ReconciliationWriter -> run (result (A * ReconciliationWriter))) d :
  db_ok d -> fts_ok d -> 0 <= meta_generation d ->
  (forall w, writer_ok w -> exists r, write w = Done r /\ forall a w', r = Ok (a, w') -> writes w w') ->
  exists t, publish_reconciliation runtime observe baseline config mode write d = Done t /\
    let '(d', r) := run_tx d t in
    db_ok d' /\ fts_ok d' /\
    (baseline <> meta d -> r = Err (StaleReconciliation (base_generation baseline) (meta_generation d))) /\
    match r with
    | Err _ => d' = d
    | Ok (g, output) => published runtime config mode write d d' g output
    end.
Proof.
  intros Hd Hf Hg Hwrite. unfold publish_reconciliation. rewrite verify_baseline_spec by done.
  case_bool_decide as Hb; cbn [run_try]; [|eexists; split; [done|]; cbn; by split_and!].
  set (bulk := is_rebuild mode || _). set (start := if is_rebuild mode then _ else _).
  destruct (i64_checked_add (meta_generation d) 1) as [next|] eqn:En;
    [|eexists; split; [done|]; cbn; by split_and!].
  apply i64_checked_add_some in En as ->.
  set (w := mk_writer start _ mode (negb bulk) 0 ∅ 0).
  assert (Hw : writer_ok w).
  { apply fresh_writer_ok; unfold start; destruct (is_rebuild mode) eqn:E; [apply delete_all_ok|done| |done].
    by unfold bulk. }
  destruct (Hwrite w Hw) as (r & Hwr & Hr). rewrite Hwr. destruct r as [[output w']|e];
    [|eexists; split; [done|]; cbn; by split_and!].
  specialize (Hr _ _ eq_refl). pose proof (writes_spec _ _ Hw Hr) as [Hw' _ _ Ht _ Hu].
  eexists. split; [done|].
  destruct (finish_publication _ _ _ _ _ _ _ _) as [[d' g]|e] eqn:Efin; cbn; [|by split_and!].
  destruct (finish_publication_spec _ _ _ _ _ _ _ _ _ _ Hw' Ht Hd Hf Efin) as (Hd' & Hf' & Hcase).
  split_and!; [done..|]. exists w, w'. split_and!; [done..|].
  destruct Hcase as [(-> & Hm & Hfs & Hi & He)|(Hmode & -> & -> & Hun & Hc & Hde)]; [by left|right].
  by rewrite (Hu Hun).
Qed.

(** C3: publication is all or nothing, and only over the state the plan was made from.  For every
    closure that returns and only calls the writer, [publish_reconciliation] returns.  It succeeds
    only when generation, configuration and derivation are still the plan's; otherwise it fails with
    [StaleReconciliation] and the two generations.  On an error the database is the old one.  On
    success either the next generation is committed, with the metadata of this run and exactly the
    files and imports the closure wrote, or the closure changed nothing and the database and its
    generation stay.  On every branch the rows stay well formed and the full-text tables hold the
    strings of exactly the stored rows, although a rebuild and the first indexing write with the
    triggers disabled. *)
Theorem publish_reconciliation_correct runtime observe {A} baseline config mode
    (write : ReconciliationWriter -> run (result (A * ReconciliationWriter))) d :
  db_ok d -> fts_ok d -> 0 <= meta_generation d ->
  (forall w, writer_ok w -> exists r, write w = Done r /\ forall a w', r = Ok (a, w') -> writes w w') ->
  exists t, publish_reconciliation runtime observe baseline config mode write d = Done t /\
    let '(d', r) := run_tx d t in
    db_ok d' /\ fts_ok d' /\
    (baseline <> meta d -> r = Err (StaleReconciliation (base_generation baseline) (meta_generation d))) /\
    match r with
    | Err _ => d' = d
    | Ok (g, output) => exists w w', write w = Done (Ok (output, w')) /\ writes w w'
        /\ w_db w = (if is_rebuild mode then delete_all d else d)
        /\ ((g = meta_generation d + 1 /\ meta d' = mk_meta g config runtime
              /\ files d' = files (w_db w') /\ imports d' = imports (w_db w'))
            \/ (g = meta_generation d /\ d' = d /\ w' = w /\ mode = ReconcileMode
               /\ config = meta_config_hash d /\ runtime = meta_derivation d))
    end.
Proof.
  intros Hd Hf Hg Hwrite.
  destruct (publish_spec runtime observe baseline config mode write d Hd Hf Hg Hwrite) as (t & Ht & Hres).
  exists t. split; [done|]. destruct (run_tx d t) as [d' r]. destruct Hres as (Hd' & Hf' & Hb & Hcase).
  split_and!; [done..|]. destruct r as [[g output]|e]; [|done].
  destruct Hcase as (w & w' & Hw & _ & _ & _ & _ & Hstart & Hws & _ & Hcase). exists w, w'. split_and!; [done..|].
  destruct Hcase as [(Hg' & Hm & Hfs & Hi & _)|Hcase]; [left|by right]. by split_and!.
Qed.

(** Publishing a stage that removes one file and replaces another. *)
Definition demo_stage : PreparedReconciliation :=
  mk_stage [] [] [lit "pkg/util.py"] [(demo_file "main.py" ["pkg.new"], 3)].
Definition demo_write (w : ReconciliationWriter) : run (result (() * ReconciliationWriter)) :=
  Done (let* w := apply_stage "words" demo_stage w in Ok (tt, w)).
Definition demo_publish (baseline : MetaRecord) : run (tx index_db (Z * ())) :=
  publish_reconciliation "v" (fun _ => Ok tt) baseline "c" ReconcileMode demo_write demo_db.

Lemma demo_writes w : writer_ok w -> exists r, demo_write w = Done r /\ forall a w', r = Ok (a, w') -> writes w w'.
Proof.
  intros _. eexists. split; [reflexivity|]. intros a w'.
  destruct (apply_stage "words" demo_stage w) eqn:E; cbn [result_bind]; [|done]. intros [= _ <-].
  by eapply apply_stage_writes.
Qed.

Lemma publish_reconciliation_correct_witness :
  exists t, demo_publish (meta demo_db) = Done t /\ db_ok (run_tx demo_db t).1 /\ fts_ok (run_tx demo_db t).1
    /\ elements (members (run_tx demo_db t).1) = [lit "main.py"]
    /\ (map_to_list (path_entries (run_tx demo_db t).1)).*1 = [lit "main.py"]
    /\ (run_tx demo_db t).2 = Ok (1, tt)
    /\ demo_publish (mk_meta 0 "old" "v") = Done (RolledBack (StaleReconciliation 0 0)).
Proof.
  destruct (publish_reconciliation_correct "v" (fun _ => Ok tt) (meta demo_db) "c" ReconcileMode demo_write demo_db)
    as (t & Ht & Hrest).
  - exact demo_db_ok.
  - exact demo_db_fts.
  - by vm_compute.
  - exact demo_writes.
  - exists t. split; [exact Ht|]. destruct (run_tx demo_db t) as [d' r] eqn:E. cbn [fst snd].
    destruct Hrest as (Hd & Hf & _). split; [exact Hd|]. split; [exact Hf|].
    vm_compute in Ht. injection Ht as <-. vm_compute in E. injection E as <- <-.
    split; [vm_compute; reflexivity|]. split; [vm_compute; reflexivity|].
    split; vm_compute; reflexivity.
Defined.
