(* ===== verification/PathIndex.v ===== *)
(** * The path projection

    The table [path_entries] of [src/src/storage/schema.rs] as the statements of
    [src/src/storage/helpers.rs] and [publication.rs] maintain it: an entry for
    every indexed file and for every directory above one. *)

From S2P Require Import Prelude Chars Order Store Paths ImportResolution IndexDb Publication.
Open Scope Z_scope.
Open Scope store_scope.

Definition path_depth (p : str) : Z := Z.of_nat (length (split_slash p)).

(** ** Directories of a path *)

Lemma join_slash_app cs ds : cs <> [] -> ds <> [] ->
  join_slash (cs ++ ds) = join_slash cs ++ SLASH :: join_slash ds.
Proof.
  induction cs as [|c cs IH]; [done|]. intros _ Hds. unfold join_slash in *. cbn [app]. rewrite join_cons.
  destruct cs as [|c' cs].
  - cbn [app]. by destruct ds.
  - rewrite IH by done. cbn [app]. by rewrite (join_cons SLASH c), <-app_assoc.
Qed.

Lemma split_slash_nonempty p : split_slash p <> [].
Proof. destruct (split_by_cons_inv (Z.eqb SLASH) p) as (x & l & E). unfold split_slash. by rewrite E. Qed.

Lemma split_join_take i p : (1 <= i)%nat ->
  split_slash (join_slash (take i (split_slash p))) = take i (split_slash p).
Proof.
  intros Hi. apply split_join.
  - pose proof (split_slash_nonempty p). by destruct i, (split_slash p); try lia.
  - apply Forall_take, split_by_no_sep.
Qed.

(** The directories that the loop of the projection inserts are those the path is below. *)
Lemma directory_below p a : (exists i, i ∈ seq 1 (length (split_slash p) - 1) /\ a = join_slash (take i (split_slash p)))
  <-> below a p.
Proof.
  split.
  - intros (i & Hi%elem_of_seq & ->). exists (join_slash (drop i (split_slash p))).
    rewrite <-(join_split SLASH p) at 1. fold (split_slash p) (join_slash (split_slash p)).
    rewrite <-(take_drop i (split_slash p)) at 1. apply join_slash_app.
    + intros H%(f_equal length). rewrite length_take in H. cbn in H. lia.
    + intros H%(f_equal length). rewrite length_drop in H. cbn in H. lia.
  - intros [r ->]. exists (length (split_slash a)). rewrite split_slash_below, take_app_length, length_app.
    pose proof (split_slash_nonempty a) as Ha. pose proof (split_slash_nonempty r) as Hr.
    split; [|symmetry; apply join_split].
    rewrite elem_of_seq. destruct (split_slash a), (split_slash r); try done. cbn [length]. lia.
Qed.

Lemma below_irrefl a : ~ below a a.
Proof. intros [r H%(f_equal length)]. rewrite length_app in H. cbn in H. lia. Qed.

Lemma is_below_spec a p : is_below a p = true <-> below a p.
Proof.
  unfold is_below. destruct (strip_prefix (a ++ [SLASH]) p) as [r|] eqn:E.
  - apply strip_prefix_spec in E as ->. split; [intros _; exists r|done]. by rewrite <-app_assoc.
  - split; [done|]. intros [r ->]. assert (strip_prefix (a ++ [SLASH]) (a ++ SLASH :: r) = Some r) as E'.
    { apply strip_prefix_spec. by rewrite <-app_assoc. }
    congruence.
Qed.

Lemma insert_directories_lookup p indexes entries a : (forall i, i ∈ indexes -> (1 <= i <= length (split_slash p))%nat) ->
  insert_directories (split_slash p) indexes entries !! a =
    match entries !! a with
    | Some e => Some e
    | None => if existsb (fun i => bool_decide (a = join_slash (take i (split_slash p)))) indexes
              then Some (mk_entry (path_depth a) None) else None
    end.
Proof.
  revert entries. induction indexes as [|i indexes IH]; cbn [insert_directories existsb]; intros entries Hi.
  { by destruct (entries !! a). }
  rewrite IH by (intros j Hj; apply Hi; by right). set (d := join_slash (take i (split_slash p))).
  assert (Hd : Z.of_nat i = path_depth d).
  { unfold path_depth, d. specialize (Hi i ltac:(by left)). rewrite split_join_take, length_take by lia. lia. }
  destruct (decide (a = d)) as [->|Hne].
  - rewrite (bool_decide_eq_true_2 (d = d)) by done. cbn [orb]. destruct (entries !! d) as [e|] eqn:E; [by rewrite E|].
    by rewrite lookup_insert_eq, Hd.
  - rewrite (bool_decide_eq_false_2 (a = d)) by done. cbn [orb].
    destruct (entries !! d); [done|]. by rewrite lookup_insert_ne.
Qed.

(** What the projection of a path leaves for each path. *)
Lemma insert_projection_lookup p id entries q :
  insert_path_projection p id entries !! q =
    if bool_decide (q = p) then Some (mk_entry (path_depth p) (Some id))
    else match entries !! q with
         | Some e => if bool_decide (e_file e = Some id) then None else Some e
         | None => if is_below q p then Some (mk_entry (path_depth q) None) else None
         end.
Proof.
  unfold insert_path_projection. case_bool_decide as Hq; [subst; by rewrite lookup_insert_eq|].
  rewrite lookup_insert_ne by done. rewrite map_lookup_filter, insert_directories_lookup.
  2:{ intros i Hi%elem_of_seq. lia. }
  destruct (entries !! q) as [e|]; cbn.
  - case_bool_decide; by case_guard.
  - assert (existsb (fun i => bool_decide (q = join_slash (take i (split_slash p))))
      (seq 1 (length (split_slash p) - 1)) = is_below q p) as ->.
    { apply eq_true_iff_eq. rewrite existsb_exists, is_below_spec, <-directory_below.
      by setoid_rewrite <-list_elem_of_In; setoid_rewrite bool_decide_eq_true. }
    destruct (is_below q p); [|done]. cbn. by case_guard.
Qed.

(** ** Covering projections *)

(** Every file has its entry, every directory above a file has one, and the
    entries of files are those of stored files. *)
Record covers (fs : gmap Z file_row) (es : gmap str path_entry) : Prop := {
  cover_file : forall id r, fs !! id = Some r -> es !! f_path r = Some (mk_entry (path_depth (f_path r)) (Some id));
  cover_directory : forall id r a, fs !! id = Some r -> below a (f_path r) -> es !! a = Some (mk_entry (path_depth a) None);
  cover_row : forall p e id, es !! p = Some e -> e_file e = Some id -> exists r, fs !! id = Some r /\ f_path r = p;
  cover_depth : forall p e, es !! p = Some e -> e_depth e = path_depth p
}.

(** No path of the set is a directory of another. *)
Definition prefix_free (paths : gset str) : Prop := forall p q, p ∈ paths -> q ∈ paths -> ~ below p q.

(** An entry without a file that is above no file. *)
Definition orphan (fs : gmap Z file_row) (es : gmap str path_entry) (p : str) : Prop :=
  exists e, es !! p = Some e /\ e_file e = None /\ forall id r, fs !! id = Some r -> ~ below p (f_path r).

Lemma covers_delete id fs es : covers fs es ->
  covers (base.delete id fs) (filter (fun '(_, e) => e_file e <> Some id) es).
Proof.
  intros [Hf Hd Hr Hp]. split.
  - intros j r [Hne Hj]%lookup_delete_Some. apply map_lookup_filter_Some. split; [by apply Hf|]. cbn. congruence.
  - intros j r a [Hne Hj]%lookup_delete_Some Ha. apply map_lookup_filter_Some. split; [by eapply Hd|done].
  - intros p e j [He Hne]%map_lookup_filter_Some Hj. destruct (Hr p e j He Hj) as (r & Hfr & Hpath).
    exists r. split; [|done]. apply lookup_delete_Some. split; [congruence|done].
  - intros p e [He _]%map_lookup_filter_Some. by apply Hp.
Qed.

Lemma covers_insert id p r fs es : covers fs es -> fs !! id = None -> f_path r = p ->
  (forall j s, fs !! j = Some s -> f_path s <> p /\ ~ below p (f_path s) /\ ~ below (f_path s) p) ->
  covers (<[id := r]> fs) (insert_path_projection p id es).
Proof.
  intros [Hf Hd Hr Hp] Hnew Hpath Hfree.
  assert (Hkeep : forall q e, q <> p -> es !! q = Some e -> insert_path_projection p id es !! q = Some e).
  { intros q e Hq He. rewrite insert_projection_lookup, bool_decide_eq_false_2, He by done.
    case_bool_decide as Hid; [|done]. destruct (Hr q e id He Hid) as (s & Hs & _). congruence. }
  split.
  - intros j s [[<- <-]|[Hne Hj]]%lookup_insert_Some.
    + rewrite insert_projection_lookup, bool_decide_eq_true_2 by done. by rewrite Hpath.
    + apply Hkeep; [|by apply Hf]. by apply (Hfree j s).
  - intros j s a [[<- <-]|[Hne Hj]]%lookup_insert_Some Ha.
    + rewrite Hpath in Ha. assert (a <> p) as Hap by (intros ->; by apply (below_irrefl p)).
      destruct (es !! a) as [e|] eqn:He.
      * rewrite (Hkeep a e) by done. destruct e as [depth file]. pose proof (Hp a _ He) as Hdepth. cbn in Hdepth.
        destruct file as [j|]; [|by rewrite Hdepth]. destruct (Hr a _ j He eq_refl) as (s & Hs & <-).
        by destruct (Hfree j s Hs) as (_ & _ & []).
      * rewrite insert_projection_lookup, bool_decide_eq_false_2, He by done.
        by rewrite (proj2 (is_below_spec a p)).
    + apply Hkeep; [|by eapply Hd]. intros ->. by destruct (Hfree j s Hj) as (_ & [] & _).
  - intros q e j. rewrite insert_projection_lookup. case_bool_decide as Hq.
    { intros [= <-] [= <-]. exists r. by rewrite lookup_insert_eq, Hq. }
    destruct (es !! q) as [e'|] eqn:He; [|destruct (is_below q p); [by intros [= <-] [=]|done]].
    case_bool_decide as Hid; [done|]. intros [= <-] Hj. destruct (Hr q e' j He Hj) as (s & Hs & Hsp).
    exists s. rewrite lookup_insert_ne; [done|]. congruence.
  - intros q e. rewrite insert_projection_lookup. case_bool_decide as Hq; [intros [= <-]; by rewrite Hq|].
    destruct (es !! q) as [e'|] eqn:He; [|destruct (is_below q p); [by intros [= <-]|done]].
    case_bool_decide as Hid; [done|]. intros [= <-]. by apply Hp.
Qed.

(** Only a deletion makes an orphan; inserting a path makes none. *)
Lemma orphan_insert id p r fs es q : f_path r = p -> orphan (<[id := r]> fs) (insert_path_projection p id es) q ->
  fs !! id = None -> orphan fs es q /\ ~ below q p.
Proof.
  intros Hpath (e & He & Hdir & Hnone) Hnew. rewrite insert_projection_lookup in He.
  case_bool_decide as Hq; [by injection He as <-|].
  assert (~ below q p) as Hqp by (intros Hb; apply (Hnone id r); [by rewrite lookup_insert_eq|by rewrite Hpath]).
  destruct (es !! q) as [e'|] eqn:Hq'.
  - case_bool_decide; [done|]. injection He as <-. split; [|done]. exists e'. split_and!; [done..|].
    intros j s Hs. apply (Hnone j s). rewrite lookup_insert_ne; [done|]. congruence.
  - destruct (is_below q p) eqn:Hb; [|done]. by apply is_below_spec in Hb.
Qed.

Lemma orphan_delete id s fs es q : fs !! id = Some s ->
  orphan (base.delete id fs) (filter (fun '(_, e) => e_file e <> Some id) es) q -> orphan fs es q \/ below q (f_path s).
Proof.
  intros Hs (e & [He Hne]%map_lookup_filter_Some & Hdir & Hnone).
  destruct (is_below q (f_path s)) eqn:Hb; [right; by apply is_below_spec|left].
  exists e. split_and!; [done..|]. intros j r Hr Hbelow. destruct (decide (j = id)) as [->|Hji].
  - apply is_below_spec in Hbelow. congruence.
  - apply (Hnone j r); [|done]. by apply lookup_delete_Some.
Qed.

(** ** The calls of the writer *)

(** Calls that keep the membership prefix-free; the indexer relocates only in a
    reconciliation. *)
Inductive tidy_step : ReconciliationWriter -> ReconciliationWriter -> Prop :=
| tidy_replace file tokens w w' : replace file tokens w = Ok w' -> prefix_free (members (w_db w')) -> tidy_step w w'
| tidy_delete path w : tidy_step w (delete path w)
| tidy_relocate old_path new_path size modified hash w w' : w_mode w = ReconcileMode ->
    relocate old_path new_path size modified hash w = Ok w' -> prefix_free (members (w_db w')) -> tidy_step w w'
| tidy_refresh ps w w' : refresh_import_projections ps w = Ok w' -> tidy_step w w'.

(** What holds between the calls: orphans are left only by recorded deletions,
    which the publication tidies up after. *)
Record entries_ok (w : ReconciliationWriter) : Prop := {
  entries_db : db_ok (w_db w);
  entries_cover : covers (files (w_db w)) (path_entries (w_db w));
  entries_orphans : forall p, orphan (files (w_db w)) (path_entries (w_db w)) p ->
    w_mode w = ReconcileMode /\ w_deletions w <> ∅
}.

Lemma prefix_free_others (paths : gset str) (fs : gmap Z file_row) p : (forall j s, fs !! j = Some s -> f_path s ∈ paths) -> p ∈ paths ->
  prefix_free paths -> (forall j s, fs !! j = Some s -> f_path s <> p) ->
  forall j s, fs !! j = Some s -> f_path s <> p /\ ~ below p (f_path s) /\ ~ below (f_path s) p.
Proof.
  intros Hin Hp Hfree Hne j s Hs. split; [by eapply Hne|]. specialize (Hin j s Hs). by split; apply Hfree.
Qed.

Lemma members_in d id r : files d !! id = Some r -> f_path r ∈ members d.
Proof. intros Hr. apply elem_of_members. by exists id, r. Qed.

Lemma delete_path_covers triggers path d : covers (files d) (path_entries d) ->
  covers (files (delete_path triggers path d)) (path_entries (delete_path triggers path d))
  /\ forall q, orphan (files (delete_path triggers path d)) (path_entries (delete_path triggers path d)) q ->
       orphan (files d) (path_entries d) q \/ below q path.
Proof.
  intros Hc. unfold delete_path. destruct (find_row path d) as [[id s]|] eqn:E; [|by split; [|left]].
  apply find_row_some in E as [Hs Hp]. cbn. split; [by apply covers_delete|].
  intros q Hq. destruct (orphan_delete id s _ _ q Hs Hq) as [|Hb]; [by left|right]. by rewrite <-Hp.
Qed.

Lemma inserted_covers triggers file generation tokens d id d' : covers (files d) (path_entries d) ->
  inserted_file triggers file generation tokens d id d' -> prefix_free (members d') ->
  covers (files d') (path_entries d')
  /\ forall q, orphan (files d') (path_entries d') q ->
       orphan (files d) (path_entries d) q /\ ~ below q (indexed_path file).
Proof.
  intros Hc Hi Hfree. pose proof (inserted_members _ _ _ _ _ _ _ Hi) as Hm.
  destruct Hi as [_ Hnew Hpath Hfiles Hentries _ _ _ _ _ _]. rewrite Hfiles, Hentries. split.
  - apply covers_insert; [done..|]. apply (prefix_free_others (members d')); [|rewrite Hm; by apply elem_of_union_l, elem_of_singleton|done|].
    + intros j s Hs. rewrite Hm. apply elem_of_union_r. by eapply members_in.
    + intros j s Hs Hsp. apply Hpath. rewrite <-Hsp. by eapply members_in.
  - intros q Hq. by eapply orphan_insert; [|exact Hq|].
Qed.

Lemma relocated_covers old_path new_path size modified generation hash d id r d' : db_ok d ->
  covers (files d) (path_entries d) ->
  relocated old_path new_path size modified generation hash d id r d' -> (new_path ∉ members d ∖ {[ old_path ]}) ->
  prefix_free (members d') -> covers (files d') (path_entries d').
Proof.
  intros Hd Hc Hrel Hnew Hfree. pose proof (relocated_members _ _ _ _ _ _ _ _ _ _ Hd Hrel) as Hm.
  destruct Hrel as [_ Hr Hold _ Hfiles _ _ Hentries _]. rewrite Hfiles, Hentries, <-insert_delete_eq.
  assert (Hothers : forall j s, base.delete id (files d) !! j = Some s -> f_path s ∈ members d ∖ {[ old_path ]}).
  { intros j s [Hne Hs]%lookup_delete_Some. apply elem_of_difference. split; [by eapply members_in|].
    intros Hsp%elem_of_singleton. apply Hne. eapply (paths_unique d Hd); [done..|congruence]. }
  apply covers_insert; [by apply covers_delete|apply lookup_delete_eq|done|].
  apply (prefix_free_others (members d')); [| |done|].
  - intros j s Hs. rewrite Hm. apply elem_of_union_r. by eapply Hothers.
  - rewrite Hm. by apply elem_of_union_l, elem_of_singleton.
  - intros j s Hs Hsp. apply Hnew. rewrite <-Hsp. by eapply Hothers.
Qed.

(** Statements that keep every path and entry. *)
Lemma covers_same fs fs' es : (forall id, f_path <$> (fs' !! id) = f_path <$> (fs !! id)) -> covers fs es ->
  covers fs' es /\ forall q, orphan fs' es q -> orphan fs es q.
Proof.
  intros Hs [Hf Hd Hr Hp].
  assert (Hto : forall id r', fs' !! id = Some r' -> exists r, fs !! id = Some r /\ f_path r' = f_path r).
  { intros id r' Hr'. specialize (Hs id). rewrite Hr' in Hs. symmetry in Hs. apply fmap_Some in Hs as (r & ? & ?). by exists r. }
  assert (Hfrom : forall id r, fs !! id = Some r -> exists r', fs' !! id = Some r' /\ f_path r' = f_path r).
  { intros id r Hr'. specialize (Hs id). rewrite Hr' in Hs. apply fmap_Some in Hs as (r' & ? & ?). by exists r'. }
  split; [split; [| | |done]|].
  - intros id r' Hr'. destruct (Hto id r' Hr') as (r & Hfr & ->). by apply Hf.
  - intros id r' a Hr'. destruct (Hto id r' Hr') as (r & Hfr & ->). by eapply Hd.
  - intros p e id He Hid. destruct (Hr p e id He Hid) as (r & Hfr & <-). destruct (Hfrom id r Hfr) as (r' & ? & ?).
    by exists r'.
  - intros q (e & He & Hdir & Hnone). exists e. split_and!; [done..|]. intros id r Hfr.
    destruct (Hfrom id r Hfr) as (r' & Hr' & <-). by eapply Hnone.
Qed.

Lemma replace_entries file tokens w w' : entries_ok w -> replace file tokens w = Ok w' ->
  prefix_free (members (w_db w')) -> entries_ok w'.
Proof.
  intros [Hd Hc Ho]. unfold replace.
  set (d := if is_rebuild (w_mode w) then w_db w else delete_path (w_triggers w) (indexed_path file) (w_db w)).
  assert (Hd1 : db_ok d) by (unfold d; destruct (is_rebuild _); [done|by apply delete_path_ok]).
  assert (Hc1 : covers (files d) (path_entries d) /\ forall q, orphan (files d) (path_entries d) q ->
    orphan (files (w_db w)) (path_entries (w_db w)) q \/ below q (indexed_path file)).
  { unfold d. destruct (is_rebuild _); [by split; [|left]|by apply delete_path_covers]. }
  pose proof (insert_file_spec (w_triggers w) file (w_generation w) tokens d Hd1) as Hi.
  destruct (insert_file _ _ _ _ d) as [d'|]; [|done]. cbn. intros [= <-]. destruct Hi as (_ & id & Hi). cbn.
  intros Hfree. destruct Hc1 as [Hc1 Ho1].
  destruct (inserted_covers _ _ _ _ _ _ _ Hc1 Hi Hfree) as [Hc2 Ho2]. split; cbn; [apply Hi|done|].
  intros q Hq. destruct (Ho2 q Hq) as [Hq1 Hb]. destruct (Ho1 q Hq1); [by eapply Ho|done].
Qed.

Lemma deletions_grow (path : str) (s : gset str) : {[ path ]} ∪ s <> ∅.
Proof. intros H. apply (not_elem_of_empty (C := gset str) path). rewrite <-H. by apply elem_of_union_l, elem_of_singleton. Qed.

Lemma delete_entries path w : entries_ok w -> entries_ok (delete path w).
Proof.
  intros [Hd Hc Ho]. unfold delete. destruct (bool_decide _ || is_rebuild _) eqn:E.
  - split; cbn; [done..|]. intros q Hq. split; [by apply (Ho q)|apply deletions_grow].
  - apply orb_false_iff in E as [_ Hm]. split; cbn; [by apply unresolve_ok, delete_path_ok| |].
    + by apply (delete_path_covers (w_triggers w) path).
    + intros q _. split; [|apply deletions_grow]. change (is_rebuild (w_mode w) = false) in Hm.
      revert Hm. by destruct (w_mode w).
Qed.

Lemma relocate_entries old_path new_path size modified hash w w' : entries_ok w -> w_mode w = ReconcileMode ->
  relocate old_path new_path size modified hash w = Ok w' -> prefix_free (members (w_db w')) -> entries_ok w'.
Proof.
  intros [Hd Hc Ho] Hmode. unfold relocate.
  pose proof (relocate_row_spec old_path new_path size modified (w_generation w) hash (w_db w) Hd) as Hi.
  destruct (relocate_row _ _ _ _ _ _ _) as [d'|]; [|done]. cbn. intros [= <-]. destruct Hi as (Hnew & id & r & Hi).
  cbn. intros Hfree. split; cbn; [apply Hi| |intros q _; split; [done|apply deletions_grow]].
  by eapply (relocated_covers _ _ _ _ _ _ (w_db w)).
Qed.

Lemma refresh_entries ps w w' : entries_ok w -> refresh_import_projections ps w = Ok w' -> entries_ok w'.
Proof.
  intros [Hd Hc Ho]. unfold refresh_import_projections. destruct ps as [|p ps]; [by intros [= <-]|].
  destruct (refresh_all (p :: ps) (w_db w)) as [d|] eqn:E; [|done]. cbn [result_bind]. cbv zeta.
  generalize (list_to_set (C := gset Z) (map projection_file_id (p :: ps))). intros ids [= <-].
  destruct (refresh_all_spec _ _ _ Hd E) as [K1 K2 K3 _ _ _ _ _ _ _].
  destruct (covers_same (files (w_db w)) (files (bump_generations ids (w_generation w) d)) (path_entries d)) as [H1 H2].
  { intros id. cbn. rewrite map_lookup_imap, K2. destruct (files (w_db w) !! id) as [r|]; [|done]. cbn.
    by destruct (bump_row_keeps ids (w_generation w) id r) as (-> & _). }
  { by rewrite K3. }
  split; cbn; [by apply bump_ok|exact H1|]. intros q Hq. apply (Ho q). rewrite <-K3. by apply H2.
Qed.

Lemma tidy_entries w w' : rtc tidy_step w w' -> entries_ok w -> entries_ok w'.
Proof.
  induction 1 as [w|w w1 w2 Hstep _ IH]; [done|]. intros Hw. apply IH. destruct Hstep.
  - by eapply replace_entries.
  - by apply delete_entries.
  - by eapply relocate_entries.
  - by eapply refresh_entries.
Qed.

(** ** Exactness *)

(** The table holds exactly the files and the directories above them. *)
Definition exact_entries (d : index_db) : Prop := forall p e, path_entries d !! p = Some e <->
  e_depth e = path_depth p /\
  match e_file e with
  | Some id => exists r, files d !! id = Some r /\ f_path r = p
  | None => exists id r, files d !! id = Some r /\ below p (f_path r)
  end.

Lemma exact_covers d : exact_entries d -> covers (files d) (path_entries d)
  /\ forall p, ~ orphan (files d) (path_entries d) p.
Proof.
  intros He. split; [split|].
  - intros id r Hr. apply He. split; [done|]. by exists r.
  - intros id r a Hr Ha. apply He. split; [done|]. by exists id, r.
  - intros p e id Hp Hid. apply He in Hp as [_ Hp]. by rewrite Hid in Hp.
  - intros p e Hp. by apply He in Hp as [? _].
  - intros p (e & Hp & Hdir & Hnone). apply He in Hp as [_ Hp]. rewrite Hdir in Hp.
    destruct Hp as (id & r & Hr & Hb). by eapply Hnone.
Qed.

Lemma has_file_below_spec a d : has_file_below a d = true <-> exists id r, files d !! id = Some r /\ below a (f_path r).
Proof.
  unfold has_file_below. rewrite existsb_exists. split.
  - intros ([id r] & Hin%list_elem_of_In%elem_of_map_to_list & Hb%is_below_spec). by exists id, r.
  - intros (id & r & Hr & Hb). exists (id, r). split; [by apply list_elem_of_In, elem_of_map_to_list|by apply is_below_spec].
Qed.

Lemma covers_exact d : covers (files d) (path_entries d) -> (forall p, ~ orphan (files d) (path_entries d) p) ->
  exact_entries d.
Proof.
  intros [Hf Hd Hr Hp] Hno p e. split.
  - intros He. split; [by apply Hp|]. destruct (e_file e) as [id|] eqn:Hid; [by eapply Hr|].
    apply has_file_below_spec. destruct (has_file_below p d) eqn:Hb; [done|]. destruct (Hno p). exists e.
    split_and!; [done..|]. intros id r Hfr Hbelow. rewrite <-not_true_iff_false, has_file_below_spec in Hb.
    apply Hb. by exists id, r.
  - destruct e as [depth file]. cbn. intros [-> Hfile]. destruct file as [id|].
    + destruct Hfile as (r & Hfr & <-). by apply Hf.
    + destruct Hfile as (id & r & Hfr & Hb). by eapply Hd.
Qed.

(** [remove_orphan_path_entries] leaves no orphan and drops nothing else. *)
Lemma remove_orphans_exact d : covers (files d) (path_entries d) -> exact_entries (remove_orphan_path_entries d).
Proof.
  intros [Hf Hd Hr Hp]. assert (Hkeep : forall p e, path_entries (remove_orphan_path_entries d) !! p = Some e <->
    path_entries d !! p = Some e /\ keeps_entry d p e = true).
  { intros p e. cbn. apply map_lookup_filter_Some. }
  apply covers_exact; [split|].
  - intros id r Hfr. apply Hkeep. split; [by apply Hf|done].
  - intros id r a Hfr Ha. apply Hkeep. split; [by eapply Hd|]. unfold keeps_entry. cbn.
    apply has_file_below_spec. by exists id, r.
  - intros p e id [He _]%Hkeep. by eapply Hr.
  - intros p e [He _]%Hkeep. by apply Hp.
  - intros p (e & [He Hk]%Hkeep & Hdir & Hnone). unfold keeps_entry in Hk. rewrite Hdir, bool_decide_eq_true_2 in Hk by done.
    cbn in Hk. apply has_file_below_spec in Hk as (id & r & Hfr & Hb). by eapply Hnone.
Qed.

(** The path projection stays exact.  If [path_entries] holds exactly the indexed files and the
    directories above them, each with its depth, it does so after every publication whose calls keep
    the membership free of a file that is a directory of another, as the files of a file system
    always are between two calls of an ordered plan.  Directories left empty by deletions and
    relocations are gone, and a rebuild starts from nothing. *)
Theorem path_entries_exact runtime observe {A} baseline config mode
    (write : ReconciliationWriter -> run (result (A * ReconciliationWriter))) d :
  db_ok d -> fts_ok d -> 0 <= meta_generation d -> exact_entries d ->
  (forall w, writer_ok w -> exists r, write w = Done r /\ forall a w', r = Ok (a, w') -> writes w w') ->
  (forall w a w', w_db w = (if is_rebuild mode then delete_all d else d) -> w_mode w = mode -> w_deletions w = ∅ ->
    write w = Done (Ok (a, w')) -> rtc tidy_step w w') ->
  exists t, publish_reconciliation runtime observe baseline config mode write d = Done t /\
    exact_entries (run_tx d t).1.
Proof.
  intros Hd Hf Hg He Hwrite Htidy.
  destruct (publish_spec runtime observe baseline config mode write d Hd Hf Hg Hwrite) as (t & Ht & Hres).
  exists t. split; [done|]. destruct (run_tx d t) as [d' r]. cbn. destruct Hres as (_ & _ & _ & Hcase).
  destruct r as [[g output]|e]; [|by rewrite Hcase].
  destruct Hcase as (w & w' & Hw & Hwok & Hmode & Hnodel & _ & Hstart & Hws & _ & Hcase).
  destruct Hcase as [(_ & _ & Hfiles & _ & Hentries)|(_ & -> & _)]; [|done].
  specialize (Htidy w output w' Hstart Hmode Hnodel Hw).
  assert (Hok : entries_ok w).
  { destruct (exact_covers d He) as [Hc Ho]. split; [apply Hwok|..]; rewrite Hstart; destruct (is_rebuild mode); try done.
    - by intros p (e & [=] & _).
    - by intros p Hp%Ho. }
  pose proof (tidy_entries _ _ Htidy Hok) as [Hd' Hc Ho].
  assert (exact_entries (tidied mode w')) as Hex.
  { unfold tidied. destruct (negb (is_rebuild mode) && _) eqn:E; [by apply remove_orphans_exact|].
    apply covers_exact; [done|]. intros p [Hm Hdel]%Ho.
    rewrite (spec_mode _ _ (writes_spec _ _ Hwok Hws)), Hmode in Hm.
    by rewrite (bool_decide_eq_false_2 (w_deletions w' = ∅)), Hm in E by done. }
  intros p e. rewrite Hentries, Hfiles. specialize (Hex p e). revert Hex. unfold tidied.
  by destruct (negb (is_rebuild mode) && _).
Qed.

(** ** Witness *)
Lemma demo_db_exact : exact_entries demo_db.
Proof.
  assert (Hc : covers (files demo_db) (path_entries demo_db)).
  { split.
    - intros id r Hr%elem_of_map_to_list. vm_compute in Hr.
      repeat (apply elem_of_cons in Hr as [Hr|Hr]; [injection Hr as -> ->; by vm_compute|]). by apply elem_of_nil in Hr.
    - intros id r a Hr%elem_of_map_to_list Ha%directory_below. vm_compute in Hr. revert Ha.
      repeat (apply elem_of_cons in Hr as [Hr|Hr];
        [injection Hr as -> ->; intros (i & Hi & ->); vm_compute in Hi;
         repeat (apply elem_of_cons in Hi as [->|Hi]; [by vm_compute|]); by apply elem_of_nil in Hi|]).
      by apply elem_of_nil in Hr.
    - intros p e id He%elem_of_map_to_list Hid. vm_compute in He.
      repeat (apply elem_of_cons in He as [He|He]; [injection He as -> ->; injection Hid as <- || discriminate Hid;
        eexists; split; vm_compute; reflexivity|]). by apply elem_of_nil in He.
    - intros p e He%elem_of_map_to_list. vm_compute in He.
      repeat (apply elem_of_cons in He as [He|He]; [injection He as -> ->; by vm_compute|]). by apply elem_of_nil in He. }
  apply covers_exact; [exact Hc|]. intros p (e & He%elem_of_map_to_list & Hdir & Hnone). vm_compute in He.
  repeat (apply elem_of_cons in He as [He|He]; [injection He as -> ->; first [discriminate Hdir|
    exfalso; eapply (Hnone 1); [vm_compute; reflexivity|apply is_below_spec; vm_compute; reflexivity]]|]).
  by apply elem_of_nil in He.
Qed.

Definition prefix_free_list (l : list str) : bool := forallb (fun p => forallb (fun q => negb (is_below p q)) l) l.
Lemma prefix_free_check (m : gset str) : prefix_free_list (elements m) = true -> prefix_free m.
Proof.
  unfold prefix_free_list. rewrite forallb_forall. intros H p q Hp%elem_of_elements%list_elem_of_In Hq%elem_of_elements%list_elem_of_In.
  specialize (H p Hp). rewrite forallb_forall in H. specialize (H q Hq). intros Hb%is_below_spec. by rewrite Hb in H.
Qed.

Lemma demo_tidy w a w' : w_db w = demo_db -> w_mode w = ReconcileMode -> w_deletions w = ∅ ->
  demo_write w = Done (Ok (a, w')) -> rtc tidy_step w w'.
Proof.
  unfold demo_write, apply_stage, demo_stage. cbn [staged_files staged_removals fold_left replace_all].
  intros Hw Hm Hdel. destruct (replace _ _ _) as [w1|] eqn:E; cbn; [|done]. intros [= _ <-].
  eapply rtc_l; [apply (tidy_delete (lit "pkg/util.py"))|]. apply rtc_once. eapply tidy_replace; [exact E|].
  apply prefix_free_check. destruct w as [d g m triggers n dels k]. cbn in Hw, Hm, Hdel. subst d m dels.
  unfold replace in E. destruct (insert_file _ _ _ _ _) as [d'|] eqn:Ei; [|done]. cbn in E. injection E as <-.
  cbn [w_db]. destruct triggers; vm_compute in Ei; injection Ei as <-; vm_compute; reflexivity.
Qed.

Lemma path_entries_exact_witness :
  exists t, demo_publish (meta demo_db) = Done t /\ exact_entries (run_tx demo_db t).1
    /\ map_to_list (path_entries (run_tx demo_db t).1) = [(lit "main.py", mk_entry 1 (Some 1))].
Proof.
  destruct (path_entries_exact "v" (fun _ => Ok tt) (meta demo_db) "c" ReconcileMode demo_write demo_db) as (t & Ht & He).
  - exact demo_db_ok.
  - exact demo_db_fts.
  - by vm_compute.
  - exact demo_db_exact.
  - exact demo_writes.
  - exact demo_tidy.
  - exists t. split; [exact Ht|]. split; [exact He|]. vm_compute in Ht. injection Ht as <-. vm_compute. reflexivity.
Defined.

(** ** The order of relocations *)

(** What an incremental reconciliation does when [x] has moved to [a/b] and
    [a] to [y]: the relocations in the order of their new paths. *)
Definition hashed_file (path hash : string) : IndexedFile :=
  mk_indexed (lit path) (mk_columns (Some "text"%string) true 4 (Some 7) hash [] [] []) [].
Definition moved_db : index_db :=
  demo_insert (hashed_file "a" "h2") (demo_insert (hashed_file "x" "h1") (empty_db "c" "v")).
Definition moves (w : ReconciliationWriter) : run (result (() * ReconciliationWriter)) :=
  Done (let* w := relocate (lit "x") (lit "a/b") 4 (Some 8) "h1" w in
        let* w := relocate (lit "a") (lit "y") 4 (Some 8) "h2" w in Ok (tt, w)).

(** Relocations can lose a directory.  While [a] is still the entry of a file, the directory [a]
    of the first relocation is not inserted, because an entry with that path exists; the second
    relocation then removes that entry with its file.  The publication succeeds, [a/b] is indexed,
    and no entry for the directory [a] is left. *)
Theorem relocations_lose_directory : exists d',
  publish_reconciliation "v" (fun _ => Ok tt) (meta moved_db) "c" ReconcileMode moves moved_db
    = Done (Committed d' (Ok (1, tt)))
  /\ prefix_free (members moved_db) /\ prefix_free (members d')
  /\ elements (members d') = [lit "y"; lit "a/b"] /\ path_entries d' !! lit "a/b" = Some (mk_entry 2 (Some 1))
  /\ path_entries d' !! lit "a" = None.
Proof.
  eexists. split; [vm_compute; reflexivity|].
  split; [apply prefix_free_check; vm_compute; reflexivity|].
  split; [apply prefix_free_check; vm_compute; reflexivity|].
  split; [vm_compute; reflexivity|]. split; vm_compute; reflexivity.
Qed.
