(* ===== verification/IndexModel.v ===== *)
(** * The index as a map from paths to contents

    What a generation means to its readers: for every indexed path its columns,
    its token count and the syntax facts of its imports.  The row numbers, the
    generations of the rows and the order of the imports are representation.  The
    calls of the writer of [src/src/storage/writer.rs] are updates of that map. *)

From S2P Require Import Prelude Chars Order Store Paths ImportResolution IndexDb Publication.
Open Scope Z_scope.
Open Scope store_scope.

Record contents := mk_contents {
  c_columns : FileColumns;
  c_tokens : string * Z;
  c_facts : list (str * Z)
}.
Abbreviation index_model := (gmap str contents).

(** A row of the database shows these contents. *)
Definition row_shows (d : index_db) (id : Z) (r : file_row) (c : contents) : Prop :=
  f_columns r = c_columns c /\ f_source_tokens r = c_tokens c /\ (map_to_list (facts d id)).*2 ≡ₚ c_facts c.

(** The database represents a map: a row for every path of it, and no other. *)
Record represents (d : index_db) (m : index_model) : Prop := {
  rep_ok : db_ok d;
  rep_row : forall p c, m !! p = Some c -> exists id r, files d !! id = Some r /\ f_path r = p /\ row_shows d id r c;
  rep_only : forall id r, files d !! id = Some r -> is_Some (m !! f_path r)
}.

Lemma represents_members d m : represents d m -> members d = dom m.
Proof.
  intros [Hd Hr Ho]. apply set_eq. intros p. rewrite elem_of_members, elem_of_dom. split.
  - intros (id & r & Hfr & <-). by eapply Ho.
  - intros [c Hc]. destruct (Hr p c Hc) as (id & r & ? & ? & _). by exists id, r.
Qed.

Lemma represents_row d m id r : represents d m -> files d !! id = Some r ->
  exists c, m !! f_path r = Some c /\ row_shows d id r c.
Proof.
  intros [Hd Hr Ho] Hfr. destruct (Ho id r Hfr) as [c Hc]. exists c. split; [done|].
  destruct (Hr _ _ Hc) as (j & s & Hs & Hp & Hshow). assert (j = id) as -> by (by eapply (paths_unique d Hd)).
  congruence.
Qed.

Lemma represents_empty d : db_ok d -> files d = ∅ -> represents d ∅.
Proof. intros Hd He. split; [done|done|]. rewrite He. by intros id r ?%lookup_empty_Some. Qed.

(** The contents that the rows of a prepared file show. *)
Definition file_contents (file : IndexedFile) (tokens : string * Z) : contents :=
  mk_contents (indexed_columns file) tokens (map fact_of (indexed_imports file)).

Lemma delete_path_represents triggers path d m : represents d m ->
  represents (delete_path triggers path d) (base.delete path m).
Proof.
  intros Hrep. pose proof Hrep as [Hd Hr Ho]. split; [by apply delete_path_ok| |].
  - intros p c [Hne Hc]%lookup_delete_Some. destruct (Hr p c Hc) as (id & r & Hfr & <- & H1 & H2 & H3).
    assert (files (delete_path triggers path d) !! id = Some r) as Hfr' by by apply delete_path_files.
    exists id, r. split_and!; [done..|]. split_and!; [done..|]. by rewrite (delete_path_facts _ _ _ id r).
  - intros id r Hfr. apply delete_path_files in Hfr as [Hfr Hne]; [|done].
    rewrite lookup_delete_ne by done. by eapply Ho.
Qed.

Lemma unresolve_represents path d m : represents d m -> represents (unresolve path d) m.
Proof.
  intros [Hd Hr Ho]. split; [by apply unresolve_ok| |done]. intros p c Hc.
  destruct (Hr p c Hc) as (id & r & ? & ? & ? & ? & ?). exists id, r. split_and!; [done..|].
  split_and!; [done..|]. by rewrite unresolve_facts.
Qed.

Lemma inserted_represents triggers file generation tokens d id d' m : represents d m ->
  inserted_file triggers file generation tokens d id d' ->
  represents d' (<[indexed_path file := file_contents file tokens]> m).
Proof.
  intros Hrep Hi. pose proof (represents_members d m Hrep) as Hm. destruct Hrep as [Hd Hr Ho].
  destruct Hi as [Hok Hnew Hpath Hfiles _ _ _ Hfacts Hothers _ _]. split; [done| |].
  - intros p c [[<- <-]|[Hne Hc]]%lookup_insert_Some.
    + eexists id, _. rewrite Hfiles, lookup_insert_eq. split_and!; [done..|]. by split_and!.
    + destruct (Hr p c Hc) as (j & r & Hfr & Hp & H1 & H2 & H3). assert (id <> j) by congruence.
      exists j, r. rewrite Hfiles, lookup_insert_ne by done. split_and!; [done..|].
      split_and!; [done..|]. by rewrite Hothers.
  - intros j r. rewrite Hfiles. intros [[<- <-]|[Hne Hfr]]%lookup_insert_Some; [by rewrite lookup_insert_eq|].
    apply lookup_insert_is_Some'. right. by eapply Ho.
Qed.

(** A relocation keeps the contents but for the size and the modification time. *)
Definition moved_contents (size : Z) (modified : option Z) (c : contents) : contents :=
  let k := c_columns c in
  mk_contents (mk_columns (language k) (structurally_complete k) size modified (content_hash k) (chunks k)
                 (symbols k) (references k)) (c_tokens c) (c_facts c).

Lemma relocated_represents old_path new_path size modified generation hash d id r d' m : represents d m ->
  (new_path ∉ members d ∖ {[ old_path ]}) ->
  relocated old_path new_path size modified generation hash d id r d' ->
  exists c, m !! old_path = Some c /\ content_hash (c_columns c) = hash
    /\ represents d' (<[new_path := moved_contents size modified c]> (base.delete old_path m)).
Proof.
  intros Hrep Hnew Hrel. pose proof (represents_members d m Hrep) as Hm.
  assert (Hfacts : forall j, facts d' j = facts d j) by (intros j; by eapply relocated_facts).
  destruct Hrel as [Hok Hr Hold Hhash Hfiles _ _ _ _].
  destruct (represents_row d m id r Hrep Hr) as (c & Hc & H1 & H2 & H3). rewrite Hold in Hc.
  exists c. split; [done|]. split; [congruence|]. destruct Hrep as [Hd Hrow Ho]. split; [done| |].
  - intros p e [[<- <-]|[Hne [Hne2 He]%lookup_delete_Some]]%lookup_insert_Some.
    + eexists id, _. rewrite Hfiles, lookup_insert_eq. split_and!; [done..|].
      split_and!; cbn; [by rewrite H1|done|by rewrite Hfacts].
    + destruct (Hrow p e He) as (j & s & Hs & Hp & ? & ? & ?). assert (id <> j) by congruence.
      exists j, s. rewrite Hfiles, lookup_insert_ne by done. split_and!; [done..|].
      split_and!; [done..|]. by rewrite Hfacts.
  - intros j s. rewrite Hfiles. intros [[<- <-]|[Hne Hs]]%lookup_insert_Some; [by rewrite lookup_insert_eq|].
    apply lookup_insert_is_Some'. right. rewrite lookup_delete_ne; [by eapply Ho|].
    intros Hp. apply Hne. eapply (paths_unique d Hd); [done..|congruence].
Qed.

Lemma same_facts_represents d d' m : db_ok d' ->
  (forall id, (fun r => (f_path r, f_columns r, f_source_tokens r)) <$> files d' !! id
            = (fun r => (f_path r, f_columns r, f_source_tokens r)) <$> files d !! id) ->
  (forall id, facts d' id = facts d id) -> represents d m -> represents d' m.
Proof.
  intros Hd' Hs Hf [Hd Hr Ho]. split; [done| |].
  - intros p c Hc. destruct (Hr p c Hc) as (id & r & Hfr & Hp & H1 & H2 & H3). specialize (Hs id).
    rewrite Hfr in Hs. apply fmap_Some in Hs as (r' & Hr' & [= Hp' Hc' Ht']). exists id, r'.
    split_and!; [done|congruence|]. split_and!; [congruence|congruence|by rewrite Hf].
  - intros id r Hfr. specialize (Hs id). rewrite Hfr in Hs. symmetry in Hs.
    apply fmap_Some in Hs as (r' & Hr' & [= -> _ _]). by eapply Ho.
Qed.

(** ** The calls of the writer *)

(** What each call does to the map, [None] when it must fail. *)
Inductive update :=
| Replace (file : IndexedFile) (tokens : string * Z)
| Delete (path : str)
| Relocate (old_path new_path : str) (size : Z) (modified : option Z) (expected_hash : string)
| Refresh (ps : list ImportProjection).

Definition perform_update (u : update) (w : ReconciliationWriter) : result ReconciliationWriter :=
  match u with
  | Replace file tokens => replace file tokens w
  | Delete path => Ok (delete path w)
  | Relocate old_path new_path size modified hash => relocate old_path new_path size modified hash w
  | Refresh ps => refresh_import_projections ps w
  end.
Fixpoint perform_updates (us : list update) (w : ReconciliationWriter) : result ReconciliationWriter :=
  match us with
  | [] => Ok w
  | u :: us => let* w := perform_update u w in perform_updates us w
  end.

(** The map and the paths whose deletion is recorded: a path is deleted once,
    and a rebuild has deleted everything before it starts. *)
Definition model_update (mode : IndexingMode) (u : update) (s : index_model * gset str) : index_model * gset str :=
  let '(m, seen) := s in
  match u with
  | Replace file tokens => (<[indexed_path file := file_contents file tokens]> m, seen)
  | Delete path =>
    (if bool_decide (path ∈ seen) || is_rebuild mode then m else base.delete path m, {[ path ]} ∪ seen)
  | Relocate old_path new_path size modified _ =>
    (match m !! old_path with
     | Some c => <[new_path := moved_contents size modified c]> (base.delete old_path m)
     | None => m
     end, {[ old_path ]} ∪ seen)
  | Refresh _ => (m, seen)
  end.
Definition model_updates (mode : IndexingMode) (us : list update) (s : index_model * gset str)
    : index_model * gset str := fold_left (fun s u => model_update mode u s) us s.

Lemma bump_same ids generation d id :
  (fun r => (f_path r, f_columns r, f_source_tokens r)) <$> files (bump_generations ids generation d) !! id
  = (fun r => (f_path r, f_columns r, f_source_tokens r)) <$> files d !! id.
Proof.
  cbn. rewrite map_lookup_imap. destruct (files d !! id) as [r|]; [|done]. cbn.
  by destruct (bump_row_keeps ids generation id r) as (-> & -> & ->).
Qed.

Lemma refresh_represents ps w w' m : represents (w_db w) m -> refresh_import_projections ps w = Ok w' ->
  represents (w_db w') m.
Proof.
  intros Hrep. unfold refresh_import_projections. destruct ps as [|p ps]; [by intros [= <-]|].
  destruct (refresh_all (p :: ps) (w_db w)) as [d|] eqn:E; [|done]. cbn [result_bind]. cbv zeta.
  generalize (list_to_set (C := gset Z) (map projection_file_id (p :: ps))). intros ids [= <-]. cbn [w_db].
  destruct (refresh_all_spec _ _ _ (rep_ok _ _ Hrep) E) as [K1 K2 _ _ _ K6 _ _ _ _].
  apply (same_facts_represents (w_db w)); [by apply bump_ok| |exact K6|done].
  intros id. rewrite bump_same. by rewrite K2.
Qed.

Lemma replace_represents file tokens w w' m : represents (w_db w) m -> replace file tokens w = Ok w' ->
  represents (w_db w') (<[indexed_path file := file_contents file tokens]> m).
Proof.
  intros Hrep. unfold replace.
  set (d := if is_rebuild (w_mode w) then w_db w else delete_path (w_triggers w) (indexed_path file) (w_db w)).
  assert (Hd : exists m1, represents d m1 /\ forall x, <[indexed_path file := x]> m1 = <[indexed_path file := x]> m).
  { unfold d. destruct (is_rebuild _); [by exists m|].
    exists (base.delete (indexed_path file) m). split; [by apply delete_path_represents|].
    intros x. apply insert_delete_eq. }
  destruct Hd as (m1 & Hrep1 & Hm1).
  pose proof (insert_file_spec (w_triggers w) file (w_generation w) tokens d (rep_ok _ _ Hrep1)) as Hi.
  destruct (insert_file _ _ _ _ d) as [d'|]; [|done]. cbn. intros [= <-]. destruct Hi as (_ & id & Hi). cbn.
  rewrite <-Hm1. by eapply inserted_represents.
Qed.

Lemma update_represents u w w' m : represents (w_db w) m -> perform_update u w = Ok w' ->
  represents (w_db w') (model_update (w_mode w) u (m, w_deletions w)).1
  /\ w_deletions w' = (model_update (w_mode w) u (m, w_deletions w)).2 /\ w_mode w' = w_mode w.
Proof.
  intros Hrep. destruct u as [file tokens|path|old_path new_path size modified hash|ps]; cbn [perform_update model_update].
  - intros H. split; [by apply (replace_represents file tokens w)|]. unfold replace in H.
    destruct (insert_file _ _ _ _ _); [|done]. by injection H as <-.
  - intros [= <-]. unfold delete. cbn [w_mode record_deletion].
    destruct (bool_decide (path ∈ w_deletions w) || is_rebuild (w_mode w)); cbn; [done|].
    split; [|done]. by apply unresolve_represents, delete_path_represents.
  - unfold relocate. pose proof (relocate_row_spec old_path new_path size modified (w_generation w) hash (w_db w) (rep_ok _ _ Hrep)) as Hi.
    destruct (relocate_row _ _ _ _ _ _ _) as [d'|]; [|done]. cbn. intros [= <-]. destruct Hi as (Hnew & id & r & Hi).
    destruct (relocated_represents _ _ _ _ _ _ _ _ _ _ m Hrep Hnew Hi) as (c & Hc & _ & Hrep').
    cbn. by rewrite Hc.
  - intros H. split; [by eapply refresh_represents|]. unfold refresh_import_projections in H.
    destruct ps as [|p ps]; [by injection H as <-|].
    destruct (refresh_all _ _); [|done]. by injection H as <-.
Qed.

Lemma updates_represent us w w' m : represents (w_db w) m -> perform_updates us w = Ok w' ->
  represents (w_db w') (model_updates (w_mode w) us (m, w_deletions w)).1
  /\ w_deletions w' = (model_updates (w_mode w) us (m, w_deletions w)).2 /\ w_mode w' = w_mode w.
Proof.
  revert w m. induction us as [|u us IH]; cbn [perform_updates]; intros w m Hrep; [by intros [= <-]|].
  destruct (perform_update u w) as [w1|] eqn:E; [|done]. cbn [result_bind]. intros H.
  destruct (update_represents u w w1 m Hrep E) as (Hrep1 & Hd1 & Hm1).
  destruct (IH w1 _ Hrep1 H) as (Hrep2 & Hd2 & Hm2). unfold model_updates in *. cbn [fold_left].
  rewrite Hm1, Hd1 in *. rewrite <-surjective_pairing in *. done.
Qed.

Lemma updates_write us w w' : perform_updates us w = Ok w' -> writes w w'.
Proof.
  revert w. induction us as [|u us IH]; cbn [perform_updates]; intros w; [by intros [= <-]|].
  destruct (perform_update u w) as [w1|] eqn:E; [|done]. cbn [result_bind]. intros H.
  eapply rtc_l; [|by apply IH]. destruct u; cbn in E.
  - by eapply step_replace.
  - injection E as <-. apply step_delete.
  - by eapply step_relocate.
  - by eapply step_refresh.
Qed.

(** A closure that makes the calls. *)
Definition write_updates (us : list update) (w : ReconciliationWriter) : run (result (() * ReconciliationWriter)) :=
  Done (let* w := perform_updates us w in Ok (tt, w)).

(** C9: the database refines a map from paths to contents.  Publishing a sequence of calls of the
    writer returns; on success the new generation represents the map that the calls, read as updates
    of a map, make of the one before (of the empty one for a rebuild): a replacement sets the contents
    of a path, a deletion removes it, a relocation moves them, a refresh of projections changes none.
    On failure, or when the plan was made from another state, the old map is represented still. *)
Theorem publication_refines_map runtime observe baseline config mode us d m : fts_ok d -> 0 <= meta_generation d ->
  represents d m ->
  exists t, publish_reconciliation runtime observe baseline config mode (write_updates us) d = Done t /\
    let '(d', r) := run_tx d t in
    match r with
    | Ok _ => represents d' (model_updates mode us (if is_rebuild mode then ∅ else m, ∅)).1
    | Err _ => represents d' m
    end.
Proof.
  intros Hf Hg Hrep.
  destruct (publish_spec runtime observe baseline config mode (write_updates us) d (rep_ok _ _ Hrep) Hf Hg) as (t & Ht & Hres).
  { intros w _. eexists. split; [reflexivity|]. intros [] w'.
    destruct (perform_updates us w) eqn:E; cbn [result_bind]; [|done]. intros [= <-]. by eapply updates_write. }
  exists t. split; [done|]. destruct (run_tx d t) as [d' r].
  destruct Hres as (Hd' & _ & _ & Hcase). destruct r as [[g output]|e]; [|by rewrite Hcase].
  destruct Hcase as (w & w' & Hw & Hwok & Hmode & Hdel & _ & Hstart & _ & _ & Hcase).
  assert (Hrep0 : represents (w_db w) (if is_rebuild mode then ∅ else m)).
  { rewrite Hstart. destruct (is_rebuild mode); [|done]. apply represents_empty; [apply delete_all_ok|done]. }
  unfold write_updates in Hw. destruct (perform_updates us w) as [w1|] eqn:E; [|done]. injection Hw as <- <-.
  destruct (updates_represent us w w1 _ Hrep0 E) as (Hrep1 & _). rewrite Hmode, Hdel in Hrep1.
  destruct Hcase as [(_ & _ & Hfiles & Himports & _)|(_ & -> & -> & Hm & _)].
  - apply (same_facts_represents (w_db w1)); [done| |by intros id; unfold facts; rewrite Himports|done].
    intros id. by rewrite Hfiles.
  - rewrite Hstart in Hrep1. by rewrite Hm in Hrep1 |- *.
Qed.

(** ** Witness *)
Lemma demo_insert_represents file d m : represents d m ->
  insert_file true file 1 ("words"%string, 2) d = Ok (demo_insert file d) ->
  represents (demo_insert file d) (<[indexed_path file := file_contents file ("words"%string, 2)]> m).
Proof.
  intros Hrep He. pose proof (insert_file_spec true file 1 ("words"%string, 2) d (rep_ok _ _ Hrep)) as Hi.
  rewrite He in Hi. destruct Hi as (_ & id & Hi). by eapply inserted_represents.
Qed.

Definition demo_model : index_model :=
  <[lit "main.py" := file_contents (demo_file "main.py" ["pkg.util"]) ("words"%string, 2)]>
    (<[lit "pkg/util.py" := file_contents (demo_file "pkg/util.py" []) ("words"%string, 2)]> ∅).
Lemma demo_represents : represents demo_db demo_model.
Proof.
  apply (demo_insert_represents (demo_file "main.py" ["pkg.util"])); [|by vm_compute].
  apply (demo_insert_represents (demo_file "pkg/util.py" [])); [|by vm_compute].
  apply represents_empty; [apply empty_db_ok|done].
Qed.

Definition demo_updates : list update :=
  [Delete (lit "pkg/util.py"); Relocate (lit "main.py") (lit "app.py") 4 (Some 9) "h";
   Replace (demo_file "lib.py" []) ("words"%string, 5)].

Lemma publication_refines_map_witness :
  exists t m, publish_reconciliation "v" (fun _ => Ok tt) (meta demo_db) "c" ReconcileMode (write_updates demo_updates) demo_db
      = Done t /\ represents (run_tx demo_db t).1 m /\ elements (dom m) = [lit "app.py"; lit "lib.py"]
    /\ (run_tx demo_db t).2 = Ok (1, tt).
Proof.
  destruct (publication_refines_map "v" (fun _ => Ok tt) (meta demo_db) "c" ReconcileMode demo_updates demo_db demo_model)
    as (t & Ht & Hres).
  - exact demo_db_fts.
  - by vm_compute.
  - exact demo_represents.
  - exists t, (model_updates ReconcileMode demo_updates (demo_model, ∅)).1. split; [exact Ht|].
    destruct (run_tx demo_db t) as [d' r] eqn:E. cbn [fst snd].
    assert (Hr : r = Ok (1, tt)).
    { vm_compute in Ht. injection Ht as <-. vm_compute in E. injection E as _ <-. reflexivity. }
    rewrite Hr in Hres. split; [exact Hres|]. split; [vm_compute; reflexivity|exact Hr].
Defined.
