(* ===== verification/ProjectionRepair.v ===== *)
(** * The repair of import projections

    What [ReconciliationWriter::repair_import_projections] of
    [src/src/storage/projections.rs] leaves: after a publication has changed the
    files of a repository every import is derived again under the new
    membership, page by page, and its stored projection replaced when it
    differs. *)

From S2P Require Import Prelude Chars Order Store Paths StdPath ImportResolution IndexDb Publication.
Open Scope Z_scope.
Open Scope store_scope.

(** ** Pages of an increasing list of ids *)

Lemma after_increasing (l : list Z) n x : increasing l -> last (take n l) = Some x ->
  List.filter (after (Some x)) l = drop n l.
Proof.
  revert n. induction l as [|y l IH]; intros n Hl; [by destruct n|].
  destruct n as [|n]; [done|]. apply StronglySorted_inv in Hl as [Hl Hy]. rewrite Forall_forall in Hy.
  cbn [take drop]. rewrite last_cons. cbn [List.filter after].
  assert (Hall : forall z, z ∈ l -> (y <? z) = true) by done.
  destruct (last (take n l)) as [z|] eqn:Ez; intros [= <-].
  - assert (z ∈ l) as Hz by (eapply (subseteq_take n), last_Some_elem_of; exact Ez).
    apply Hall, Z.ltb_lt in Hz. rewrite (proj2 (Z.ltb_ge _ _)) by lia. by apply IH.
  - rewrite Z.ltb_irrefl. apply last_None in Ez.
    assert (drop n l = l) as -> by (destruct n; [done|by destruct l]).
    clear -Hall. induction l as [|z l IH]; cbn; [done|].
    rewrite Hall by (by left). f_equal. apply IH. intros w Hw. apply Hall. by right.
Qed.

Lemma filter_increasing (f : Z -> bool) (l : list Z) : increasing l -> increasing (List.filter f l).
Proof.
  induction 1 as [|x l _ IH Hx]; cbn; [constructor|]. destruct (f x); [|done]. constructor; [done|].
  rewrite Forall_forall in Hx |- *. intros y Hy%list_elem_of_In%filter_In. apply Hx, list_elem_of_In, Hy.
Qed.

Lemma after_after a x (l : list Z) : after a x = true ->
  List.filter (after (Some x)) (List.filter (after a) l) = List.filter (after (Some x)) l.
Proof.
  intros Hx. induction l as [|y l IH]; cbn [List.filter]; [done|].
  destruct (after (Some x) y) eqn:Ey.
  - assert (after a y = true) as ->.
    { destruct a as [a|]; [|done]. cbn in *. bool_to_prop. apply Z.ltb_lt. lia. }
    cbn [List.filter]. by rewrite Ey, IH.
  - destruct (after a y); cbn [List.filter]; [by rewrite Ey|done].
Qed.

Lemma after_mono a x : after a x = true -> forall k, after (Some x) k = true -> after a k = true.
Proof. destruct a as [a|]; [|done]. cbn. intros H k Hk. bool_to_prop. apply Z.ltb_lt. lia. Qed.

Lemma NoDup_take {A} (l : list A) n : NoDup l -> NoDup (take n l).
Proof. rewrite <-(take_drop n l) at 1. by intros (? & _)%NoDup_app. Qed.

Lemma import_ids_increasing d : increasing (import_ids d).
Proof. apply sort_keys_increasing, NoDup_fst_map_to_list. Qed.

Lemma elem_of_import_ids d k : k ∈ import_ids d <-> is_Some (imports d !! k).
Proof.
  unfold import_ids, sort_keys. rewrite merge_sort_Permutation, list_elem_of_fmap. split.
  - intros ([j i] & -> & Hi%elem_of_map_to_list). by exists i.
  - intros [i Hi]. exists (k, i). by rewrite elem_of_map_to_list.
Qed.

Lemma import_ids_dom d d' : dom (imports d) = dom (imports d') -> import_ids d = import_ids d'.
Proof.
  intros Hdom. apply increasing_unique; [apply import_ids_increasing..|].
  intros k. by rewrite !elem_of_import_ids, <-!elem_of_dom, Hdom.
Qed.

(** The ids of a page are those after [a] up to its last id. *)
Lemma elem_of_ids_page (ids : list Z) a n x k : increasing ids -> last (take n (List.filter (after a) ids)) = Some x ->
  k ∈ take n (List.filter (after a) ids) <-> k ∈ ids /\ after a k = true /\ after (Some x) k = false.
Proof.
  intros Hids Hlast. pose proof (filter_increasing (after a) _ Hids) as Hinc.
  pose proof (after_increasing _ _ _ Hinc Hlast) as Hdrop. set (rest := List.filter (after a) _) in *.
  assert (Hrest : k ∈ rest <-> k ∈ ids /\ after a k = true).
  { unfold rest. by rewrite list_elem_of_In, filter_In, <-list_elem_of_In. }
  assert (Hin : k ∈ rest -> k ∈ drop n rest <-> after (Some x) k = true).
  { intros Hk. rewrite <-Hdrop, list_elem_of_In, filter_In, <-list_elem_of_In. by split; [intros []|]. }
  pose proof (increasing_NoDup _ Hinc) as Hnd. rewrite <-(take_drop n rest) in Hnd.
  apply NoDup_app in Hnd as (_ & Hdisj & _). split.
  - intros Hk. assert (k ∈ rest) as Hkr by (by eapply subseteq_take). apply Hrest in Hkr as Hkd.
    split_and!; [apply Hkd..|]. apply not_true_iff_false. intros ?. by apply (Hdisj k Hk), Hin.
  - intros (Hs & Ha & Hx). assert (k ∈ rest) as Hkr by (by apply Hrest).
    rewrite <-(take_drop n rest) in Hkr. apply elem_of_app in Hkr as [|Hk]; [done|].
    apply Hin in Hk; [congruence|by apply Hrest].
Qed.

Lemma elem_of_page d a n x k : last (take n (List.filter (after a) (import_ids d))) = Some x ->
  k ∈ take n (List.filter (after a) (import_ids d)) <->
  is_Some (imports d !! k) /\ after a k = true /\ after (Some x) k = false.
Proof. intros Hlast. rewrite <-elem_of_import_ids. apply elem_of_ids_page; [apply import_ids_increasing|done]. Qed.

(** ** One import *)

Lemma resolve_query_first candidates d : resolve_query candidates d = first_indexed (members d) candidates.
Proof.
  unfold resolve_query. induction candidates as [|c l IH]; cbn; [done|].
  by destruct (bool_decide (c ∈ members d)).
Qed.

Lemma candidates_match_iff stored candidates : candidates_match (prioritized stored) candidates = true
  <-> stored = candidates.
Proof.
  unfold candidates_match, prioritized. rewrite length_imap.
  enough (Hgen : forall k, length stored = length candidates ->
    forallb (fun '((priority, path), (j, candidate)) => (priority =? Z.of_nat j) && bool_decide (path = candidate))
      (zip (imap (fun n c => (Z.of_nat (k + n), c)) stored) (imap (fun n => pair (k + n)%nat) candidates)) = true
    <-> stored = candidates).
  { split.
    - intros [Hl%Nat.eqb_eq Hm]%andb_true_iff. by apply (Hgen 0%nat).
    - intros ->. rewrite Nat.eqb_refl. by apply (Hgen 0%nat). }
  revert candidates. induction stored as [|c stored IH]; intros [|e candidates] k Hl; try done.
  cbn. rewrite Nat.add_0_r, Z.eqb_refl. cbn.
  assert (Hk : forall (A B : Type) (f : nat -> A -> B) l, imap (fun n => f (k + S n)%nat) l = imap (fun n => f (S k + n)%nat) l).
  { intros A B f l. apply imap_ext. intros. by rewrite Nat.add_succ_r. }
  rewrite andb_true_iff, bool_decide_eq_true.
  rewrite (imap_ext _ (fun n c => (Z.of_nat (S k + n), c)) stored) by (intros; cbn; do 2 f_equal; lia).
  rewrite (imap_ext _ (fun n => pair (S k + n)%nat) candidates) by (intros; cbn; f_equal; lia).
  injection Hl as Hl. rewrite (IH candidates (S k) Hl). clear. split; [by intros [-> ->]|by intros [= -> ->]].
Qed.

(** The row that an import with these candidates must have. *)
Definition target_row (membership : gset str) (candidates : list str) (i : import_row) : import_row :=
  mk_import_row (i_file i) (i_target i) (first_indexed membership candidates) (i_line i) (prioritized candidates).

Lemma repair_decision d i candidates : (exists cs, NoDup cs /\ i_candidates i = prioritized cs) ->
  negb (bool_decide (i_resolved i = resolve_query candidates d))
    || negb (candidates_match (i_candidates i) candidates) = true
  <-> i <> target_row (members d) candidates i.
Proof.
  intros (cs & _ & Hcs). rewrite resolve_query_first, Hcs.
  pose proof (candidates_match_iff cs candidates) as Hm.
  destruct i as [f t r l c]. unfold target_row. cbn in *. subst c.
  destruct (bool_decide_reflect (r = first_indexed (members d) candidates)) as [->|Hne]; cbn;
    [|split; [by intros _ [= ?]|done]].
  destruct (candidates_match _ _); cbn.
  - rewrite (proj1 Hm) by done. split; done.
  - split; [|done]. intros _ [= Hp]. enough (false = true) by done. apply Hm.
    rewrite <-(prioritized_paths cs), Hp. apply prioritized_paths.
Qed.

(** A page entry is a row of the database with its seed. *)
Definition entry_of (d : index_db) (x : ImportSeed * import_row) : Prop :=
  seed_of d (seed_id x.1) = Some x.

Lemma seed_of_some d k x : seed_of d k = Some x -> seed_id x.1 = k /\ imports d !! k = Some x.2
  /\ seed_file_id x.1 = i_file x.2 /\ seed_raw_target x.1 = i_target x.2.
Proof.
  unfold seed_of. destruct (imports d !! k) as [i|]; [|done].
  destruct (files d !! i_file i); [|done]. by intros [= <-].
Qed.

Lemma seed_of_ok d k i : db_ok d -> imports d !! k = Some i -> exists seed, seed_of d k = Some (seed, i).
Proof.
  intros Hd Hi. unfold seed_of. rewrite Hi. destruct (imports_owned d Hd k i Hi) as [r ->]. by eexists.
Qed.

Section Pages.
Context (derive : nat -> ImportSeed -> gset str -> result (list str)).

(** A call of the callback that gave candidates within the bounds. *)
Definition derives (seed : ImportSeed) (membership : gset str) (candidates : list str) : Prop :=
  exists call, derive call seed membership = Ok candidates /\ exceeds_bounds candidates = false.

(** Why a repair fails. *)
Definition repair_fails (d : index_db) (e : error) : Prop :=
  exists k seed i call, seed_of d k = Some (seed, i) /\
    match derive call seed (members d) with
    | Err e' => e = e'
    | Ok candidates =>
      if exceeds_bounds candidates
      then e = OperationFailure "derived import candidates exceed persisted bounds"
      else ~ NoDup candidates /\ e = SqlFailure
    end.

Definition derives_at (d : index_db) (k : Z) (candidates : list str) : Prop :=
  exists seed i, seed_of d k = Some (seed, i) /\ derives seed (members d) candidates.

(** What a page decides about one of its entries. *)
Definition decided (d : index_db) (ps : list ImportProjection) (x : ImportSeed * import_row) : Prop :=
  exists candidates, derives x.1 (members d) candidates /\
    let row := target_row (members d) candidates x.2 in
    if bool_decide (x.2 = row) then seed_id x.1 ∉ map projection_id ps
    else mk_import_projection (seed_id x.1) (seed_file_id x.1)
           (mk_projection (first_indexed (members d) candidates) candidates) ∈ ps.

Lemma page_repairs_spec d page call : db_ok d -> Forall (entry_of d) page ->
  NoDup (map (fun x => seed_id x.1) page) ->
  match page_repairs derive call (members d) d page with
  | Ok ps => Forall (decided d ps) page
      /\ map projection_id ps ⊆ map (fun x => seed_id x.1) page /\ NoDup (map projection_id ps)
      /\ forall p, p ∈ ps -> exists i cs, imports d !! projection_id p = Some i
           /\ projection_value p = mk_projection (first_indexed (members d) cs) cs
           /\ i <> target_row (members d) cs i /\ derives_at d (projection_id p) cs
  | Err e => repair_fails d e
  end.
Proof.
  intros Hd. revert call. induction page as [|[seed i] page IH]; intros call Hpage Hnd.
  { cbn. split_and!; [constructor|done|constructor|by intros p ?%elem_of_nil]. }
  apply Forall_cons in Hpage as [Hx Hpage]. apply NoDup_cons in Hnd as [Hnew Hnd]. cbn [fst] in Hnew.
  pose proof (seed_of_some _ _ _ Hx) as (_ & Hi & _). cbn [fst snd] in Hi.
  cbn [page_repairs]. destruct (derive call seed (members d)) as [cs|e] eqn:Ederive; cbn [result_bind];
    [|exists (seed_id seed), seed, i, call; by rewrite Ederive].
  destruct (exceeds_bounds cs) eqn:Ebounds;
    [exists (seed_id seed), seed, i, call; by rewrite Ederive, Ebounds|].
  specialize (IH (S call) Hpage Hnd). destruct (page_repairs _ _ _ _ page) as [ps|]; [|done]. cbn [result_bind].
  destruct IH as (Hdec & Hsub & Hps & Hin).
  assert (Hders : derives seed (members d) cs) by (by exists call).
  cbn [resolved_path].
  pose proof (repair_decision d i cs (imports_keyed d Hd _ _ Hi)) as Hrep.
  assert (Hweak : forall p, projection_id p = seed_id seed -> Forall (decided d (p :: ps)) page).
  { intros p Hp. rewrite Forall_forall in Hdec |- *. intros x Hx2. destruct (Hdec x Hx2) as (cs' & Hcs' & Hd').
    exists cs'. split; [done|]. cbn zeta in *.
    destruct (decide (x.2 = target_row (members d) cs' x.2)) as [He|He];
      [rewrite bool_decide_eq_true_2 in * by done|rewrite bool_decide_eq_false_2 in * by done; by right].
    cbn [map]. rewrite Hp. apply not_elem_of_cons. split; [|done]. intros Heq. apply Hnew.
    rewrite <-Heq. by apply (list_elem_of_fmap_2 (fun x => seed_id x.1)). }
  destruct (negb _ || negb _).
  - apply proj1 in Hrep. specialize (Hrep eq_refl). split_and!.
    + constructor; [|by apply Hweak]. exists cs. split; [done|]. cbn [fst snd].
      rewrite bool_decide_eq_false_2 by done. rewrite resolve_query_first. by left.
    + cbn [map projection_id]. by apply list_subseteq_skip.
    + cbn [map projection_id]. constructor; [|done]. intros ?. by apply Hnew, Hsub.
    + intros p [->|Hp]%elem_of_cons; [|by apply Hin]. exists i, cs. cbn.
      rewrite resolve_query_first. split_and!; [done..|]. by exists seed, i.
  - assert (i = target_row (members d) cs i) as Heq.
    { destruct (decide (i = target_row (members d) cs i)) as [|Hne]; [done|]. by apply Hrep in Hne. }
    split_and!; [|intros y Hy; right; by apply Hsub|done|done].
    constructor; [|done]. exists cs. split; [done|]. cbn [fst snd]. rewrite bool_decide_eq_true_2 by done.
    intros ?. by apply Hnew, Hsub.
Qed.

Lemma page_repairs_members d d' page call : members d = members d' ->
  page_repairs derive call (members d') d page = page_repairs derive call (members d') d' page.
Proof.
  intros Hm. revert call. induction page as [|[seed i] page IH]; intros call; cbn [page_repairs]; [done|].
  destruct (derive call seed (members d')) as [cs|]; cbn [result_bind]; [|done].
  destruct (exceeds_bounds cs); [done|]. by rewrite !resolve_query_first, Hm, IH.
Qed.

(** ** One page *)

Lemma page_entries d a : db_ok d ->
  map (fun x => seed_id x.1) (import_projection_page a d)
    = take IMPORT_REPAIR_PAGE_SIZE (List.filter (after a) (import_ids d))
  /\ Forall (entry_of d) (import_projection_page a d).
Proof.
  intros Hd. unfold import_projection_page. generalize IMPORT_REPAIR_PAGE_SIZE as n.
  assert (Hall : forall k, k ∈ List.filter (after a) (import_ids d) -> exists x, seed_of d k = Some x).
  { intros k Hk%list_elem_of_In%filter_In. destruct Hk as [Hk%list_elem_of_In%elem_of_import_ids _].
    destruct Hk as [i Hi]. destruct (seed_of_ok d k i Hd Hi) as [seed Hs]. by exists (seed, i). }
  induction (List.filter (after a) (import_ids d)) as [|k l IH]; intros n; [cbn; by rewrite !take_nil|].
  destruct (Hall k) as [x Hx]; [by left|].
  cbn [omap list_omap]. rewrite Hx. destruct n as [|n]; [done|]. cbn [take map].
  destruct (IH ltac:(intros j Hj; apply Hall; by right) n) as [-> Hf].
  pose proof (seed_of_some _ _ _ Hx) as (Hk & _). split; [by rewrite Hk|].
  constructor; [|done]. unfold entry_of. by rewrite Hk.
Qed.

(** Every file keeps its path, its columns and its tokens. *)
Definition row_key (r : file_row) : str * FileColumns * (string * Z) :=
  (f_path r, f_columns r, f_source_tokens r).
Definition same_rows (d d' : index_db) : Prop := forall id, row_key <$> (files d' !! id) = row_key <$> (files d !! id).

Lemma same_rows_path d d' id r' : same_rows d d' -> files d' !! id = Some r' ->
  exists r, files d !! id = Some r /\ row_key r' = row_key r.
Proof.
  intros Hs Hr. specialize (Hs id). rewrite Hr in Hs. cbn in Hs. symmetry in Hs.
  apply fmap_Some in Hs as (r & Hr0 & Hk). by exists r.
Qed.

Lemma same_rows_sym d d' : same_rows d d' -> same_rows d' d.
Proof. intros Hs id. by rewrite Hs. Qed.

Lemma same_rows_members d d' : same_rows d d' -> members d' = members d.
Proof.
  intros Hs. apply set_eq. intros p. rewrite !elem_of_members.
  split; intros (id & r & Hr & <-);
    (apply (same_rows_path _ _ _ _ Hs) in Hr || apply (same_rows_path _ _ _ _ (same_rows_sym _ _ Hs)) in Hr);
    destruct Hr as (s & Hs' & [= Hp _ _]); by exists id, s.
Qed.

Lemma same_rows_seed d d' k : same_rows d d' -> imports d' !! k = imports d !! k -> seed_of d' k = seed_of d k.
Proof.
  intros Hs Hk. unfold seed_of. rewrite Hk. destruct (imports d !! k) as [i|]; [|done]. specialize (Hs (i_file i)).
  destruct (files d' !! i_file i), (files d !! i_file i); cbn in Hs; try done. by injection Hs as -> _ _.
Qed.

Lemma refresh_all_fails ps d e : db_ok d -> (forall p, p ∈ ps -> is_Some (imports d !! projection_id p)) ->
  refresh_all ps d = Err e -> e = SqlFailure /\ exists p, p ∈ ps /\ ~ NoDup (candidate_paths (projection_value p)).
Proof.
  revert d. induction ps as [|p ps IH]; cbn; intros d Hd Hin; [done|].
  destruct (refresh_one p d) as [d1|e1] eqn:E; cbn.
  - destruct (refresh_one_spec p d d1 Hd E) as (i & i' & Hi & _ & _ & _ & _ & _ & -> & Hd1). intros He.
    destruct (IH _ Hd1) as (-> & q & Hq & Hn); [|done|]; [|split; [done|exists q; split; [by right|done]]].
    intros q Hq. cbn. apply lookup_insert_is_Some'. right. apply Hin. by right.
  - intros [= <-]. destruct (Hin p) as [i Hi]; [by left|]. unfold refresh_one in E. rewrite Hi in E.
    case_bool_decide; [done|]. injection E as <-. split; [done|]. exists p. split; [by left|done].
Qed.

Lemma refresh_page ps w : db_ok (w_db w) -> NoDup (map projection_id ps) ->
  (forall p, p ∈ ps -> is_Some (imports (w_db w) !! projection_id p)) ->
  match refresh_import_projections ps w with
  | Err e => e = SqlFailure /\ exists p, p ∈ ps /\ ~ NoDup (candidate_paths (projection_value p))
  | Ok w' => db_ok (w_db w') /\ same_rows (w_db w) (w_db w') /\ dom (imports (w_db w')) = dom (imports (w_db w))
      /\ (forall k, k ∉ map projection_id ps -> imports (w_db w') !! k = imports (w_db w) !! k)
      /\ (forall p i, p ∈ ps -> imports (w_db w) !! projection_id p = Some i ->
           imports (w_db w') !! projection_id p = Some (mk_import_row (i_file i) (i_target i)
             (resolved_path (projection_value p)) (i_line i) (prioritized (candidate_paths (projection_value p)))))
      /\ (ps = [] -> w' = w)
  end.
Proof.
  intros Hd Hnd Hin. unfold refresh_import_projections. destruct ps as [|p ps].
  { split_and!; try done. by intros q i ?%elem_of_nil. }
  destruct (refresh_all (p :: ps) (w_db w)) as [d|e] eqn:E; cbn [result_bind]; [|by eapply refresh_all_fails].
  destruct (refresh_all_spec _ _ _ Hd E) as [K1 K2 _ _ _ _ K7 K8 K9 K10].
  cbv zeta. generalize (list_to_set (C := gset Z) (map projection_file_id (p :: ps))) as ids. intros ids.
  cbn [w_db]. split_and!; [by apply bump_ok| |done|done| |done].
  - intros id. cbn. rewrite map_lookup_imap, K2. destruct (files (w_db w) !! id) as [r|]; [|done]. cbn.
    unfold row_key. by destruct (bump_row_keeps ids (w_generation w) id r) as (-> & -> & ->).
  - intros q i Hq Hi. destruct (K10 q Hq Hnd) as (i' & Hi' & Hv & Hc). cbn in *. rewrite Hi'. f_equal.
    destruct (K8 _ _ Hi) as (j & Hj & Hf & Ht & Hl). assert (j = i') as -> by congruence.
    destruct i' as [f t r l c]. cbn in *. subst. by rewrite <-Hv.
Qed.

(** ** The loop over the pages *)

(** The imports up to [a] are repaired, the later ones are as they were. *)
Record repaired (d0 : index_db) (a : option Z) (d : index_db) : Prop := {
  repaired_ok : db_ok d;
  repaired_rows : same_rows d0 d;
  repaired_dom : dom (imports d) = dom (imports d0);
  repaired_later : forall k, after a k = true -> imports d !! k = imports d0 !! k;
  repaired_done : forall k i, imports d0 !! k = Some i -> after a k = false -> exists candidates,
    derives_at d0 k candidates /\ imports d !! k = Some (target_row (members d0) candidates i)
}.

(** The imports whose row is another one. *)
Definition changed_imports (d0 d : index_db) : gset Z :=
  filter (fun k => imports d !! k <> imports d0 !! k) (dom (imports d0)).

Lemma elem_of_changed d0 d k : k ∈ changed_imports d0 d <-> imports d !! k <> imports d0 !! k /\ is_Some (imports d0 !! k).
Proof. unfold changed_imports. by rewrite elem_of_filter, elem_of_dom. Qed.

(** One round: the page [page] after [a] leads to the imports up to [x]. *)
Lemma repaired_step d0 a x page call w : db_ok d0 -> repaired d0 a (w_db w) ->
  page = import_projection_page a d0 -> last (map (fun x => seed_id x.1) page) = Some x ->
  match (let* ps := page_repairs derive call (members d0) d0 page in
         let* w := refresh_import_projections ps w in
         Ok (ps, w)) with
  | Err e => repair_fails d0 e
  | Ok (ps, w') => repaired d0 (Some x) (w_db w') /\ (ps = [] -> w' = w)
      /\ size (changed_imports d0 (w_db w')) = (size (changed_imports d0 (w_db w)) + length ps)%nat
  end.
Proof.
  intros Hd0 [Hd Hrows Hdom Hlater Hdone] -> Hlast.
  destruct (page_entries d0 a Hd0) as [Hids Hentries].
  set (page := import_projection_page a d0) in *. rewrite Hids in Hlast.
  pose proof (filter_increasing (after a) _ (import_ids_increasing d0)) as Hinc.
  pose proof (after_increasing _ _ _ Hinc Hlast) as Hafter.
  assert (Hpage : forall k, k ∈ map (fun x => seed_id x.1) page <->
    is_Some (imports d0 !! k) /\ after a k = true /\ after (Some x) k = false).
  { intros k. rewrite Hids. by apply elem_of_page. }
  assert (Hax : forall k, after (Some x) k = true -> after a k = true).
  { apply (after_mono a x), (Hpage x). rewrite Hids. by apply last_Some_elem_of. }
  pose proof (page_repairs_spec d0 page call Hd0 Hentries) as Hrep.
  destruct (page_repairs _ _ _ _ page) as [ps|e]; cbn [result_bind];
    [|apply Hrep; rewrite Hids; by apply NoDup_take, increasing_NoDup].
  destruct Hrep as (Hdec & Hsub & Hnd & Hps); [rewrite Hids; by apply NoDup_take, increasing_NoDup|].
  assert (Hsame : forall p, p ∈ ps -> imports (w_db w) !! projection_id p = imports d0 !! projection_id p).
  { intros p Hp. apply Hlater, Hpage, Hsub. by apply (list_elem_of_fmap_2 projection_id). }
  pose proof (refresh_page ps w Hd Hnd) as Href.
  destruct (refresh_import_projections ps w) as [w'|e]; cbn [result_bind].
  2:{ destruct Href as (-> & p & Hp & Hdup).
      { intros p Hp. rewrite Hsame by done. destruct (Hps p Hp) as (i & cs & Hi & _). by exists i. }
      destruct (Hps p Hp) as (i & cs & Hi & Hv & _ & seed & j & Hseed & call' & Hcs & Hb).
      exists (projection_id p), seed, j, call'. rewrite Hcs, Hb. rewrite Hv in Hdup. done. }
  destruct Href as (Hd' & Hrows' & Hdom' & Hother & Hnew & Hnil).
  { intros p Hp. rewrite Hsame by done. destruct (Hps p Hp) as (i & cs & Hi & _). by exists i. }
  assert (Hout : forall k, ~ (after a k = true /\ after (Some x) k = false) ->
    imports (w_db w') !! k = imports (w_db w) !! k).
  { intros k Hk. apply Hother. intros Hin%Hsub%Hpage. apply Hk, Hin. }
  split_and!; [|done|].
  - split; [done| |by rewrite Hdom', Hdom| |].
    + intros id. by rewrite Hrows', Hrows.
    + intros k Hk. rewrite Hout by (intros [_ ?]; congruence). by apply Hlater, Hax.
    + intros k i Hi Hk. destruct (after a k) eqn:Ha.
      * assert (k ∈ map (fun x => seed_id x.1) page) as Hin by (apply Hpage; split_and!; [by exists i|done|done]).
        apply list_elem_of_fmap in Hin as (y & -> & Hy). rewrite Forall_forall in Hdec, Hentries.
        destruct (Hdec y Hy) as (cs & Hcs & Hrow). pose proof (Hentries y Hy) as Hseed.
        pose proof (seed_of_some _ _ _ Hseed) as (_ & Hyi & _). assert (y.2 = i) as Hi2 by congruence.
        exists cs. split; [exists y.1, y.2; split; [by rewrite <-surjective_pairing|done]|]. cbn zeta in Hrow.
        destruct (decide (y.2 = target_row (members d0) cs y.2)) as [He|He].
        -- rewrite bool_decide_eq_true_2 in Hrow by done. rewrite Hother, Hlater, Hi by done. congruence.
        -- rewrite bool_decide_eq_false_2 in Hrow by done.
           specialize (Hnew _ i Hrow). apply Hnew. cbn. by rewrite Hlater.
      * destruct (Hdone k i Hi Ha) as (cs & Hcs & Hrow). exists cs. split; [done|].
        rewrite Hout; [done|]. intros [? _]. congruence.
  - assert (Hch : changed_imports d0 (w_db w') = list_to_set (map projection_id ps) ∪ changed_imports d0 (w_db w)).
    { apply set_eq. intros k. rewrite elem_of_union, elem_of_list_to_set, !elem_of_changed.
      destruct (decide (k ∈ map projection_id ps)) as [Hk|Hk]; [|rewrite Hother by done; by intuition].
      split; [by left|intros _]. apply list_elem_of_fmap in Hk as (p & -> & Hp).
      destruct (Hps p Hp) as (i & cs & Hi & Hv & Hne & _). rewrite (Hnew p i Hp), Hv by by rewrite Hsame.
      rewrite Hi. split; [|by eexists]. intros [= He]. apply Hne. by rewrite <-He. }
    assert (Hdisj : (list_to_set (map projection_id ps) : gset Z) ## changed_imports d0 (w_db w)).
    { intros k (p & -> & Hp)%elem_of_list_to_set%list_elem_of_fmap [Hne _]%elem_of_changed.
      by apply Hne, Hsame. }
    rewrite Hch, size_union, size_list_to_set, length_map by done. lia.
Qed.


Lemma page_of_repaired d0 a d : db_ok d0 -> repaired d0 a d -> import_projection_page a d = import_projection_page a d0.
Proof.
  intros Hd0 [Hd Hrows Hdom Hlater _]. unfold import_projection_page. f_equal.
  rewrite (import_ids_dom d d0) by done.
  induction (import_ids d0) as [|k l IH]; [done|]. cbn [List.filter]. destruct (after a k) eqn:Ha; [|done].
  cbn [omap list_omap]. by rewrite IH, (same_rows_seed d0 d k Hrows (Hlater k Ha)).
Qed.

Lemma repaired_start d : db_ok d -> repaired d None d.
Proof. by split. Qed.

Lemma changed_none d : changed_imports d d = ∅.
Proof. apply set_eq. intros k. rewrite elem_of_changed. by split; [intros []|intros ?%not_elem_of_empty]. Qed.

(** The saturated number of changed rows. *)
Definition change_count (d0 d : index_db) : Z := Z.min (Z.of_nat (size (changed_imports d0 d))) U64_MAX.

Lemma change_count_add d0 d d' n :
  size (changed_imports d0 d') = (size (changed_imports d0 d) + n)%nat ->
  u64_saturating_add (change_count d0 d) (Z.of_nat n) = change_count d0 d'.
Proof. unfold change_count, u64_saturating_add, U64_MAX. lia. Qed.

Lemma change_count_mono d0 d d' n :
  size (changed_imports d0 d') = (size (changed_imports d0 d) + n)%nat ->
  change_count d0 d <= change_count d0 d' /\ (change_count d0 d' <= 0 -> n = 0%nat).
Proof. unfold change_count, U64_MAX. lia. Qed.

(** What the loop returns: it is past every id. *)
Definition loop_result (d0 : index_db) (w : ReconciliationWriter) (r : result (Z * ReconciliationWriter)) : Prop :=
  match r with
  | Err e => repair_fails d0 e
  | Ok (n, w') => (exists a, repaired d0 a (w_db w') /\ forall k, is_Some (imports d0 !! k) -> after a k = false)
      /\ n = change_count d0 (w_db w') /\ change_count d0 (w_db w) <= n /\ (n = 0 -> w' = w) /\ writes w w'
  end.

Lemma repair_pages_spec d0 fuel call a w : db_ok d0 -> repaired d0 a (w_db w) ->
  (length (List.filter (after a) (import_ids d0)) < fuel)%nat ->
  exists r, repair_pages derive fuel call (members d0) a (change_count d0 (w_db w)) w = Done r /\ loop_result d0 w r.
Proof.
  intros Hd0. revert call a w. induction fuel as [|fuel IH]; intros call a w Hrep Hfuel; [lia|].
  cbn [repair_pages]. rewrite (page_of_repaired d0 a (w_db w)) by done.
  pose proof (page_entries d0 a Hd0) as [Hids _]. set (page := import_projection_page a d0) in *.
  assert (Hlast : (fun y => seed_id y.1) <$> last page = last (map (fun y => seed_id y.1) page)).
  { symmetry. apply (fmap_last (fun y => seed_id y.1)). }
  rewrite Hids in Hlast.
  destruct (last page) as [[seed i]|] eqn:El; simpl fmap in Hlast.
  2:{ eexists. split; [done|]. cbn. split_and!; [|done|lia|done|constructor]. exists a. split; [done|].
      intros k Hk. destruct (after a k) eqn:Ha; [|done].
      symmetry in Hlast. apply last_None in Hlast.
      apply elem_of_import_ids, list_elem_of_In in Hk.
      assert (In k (List.filter (after a) (import_ids d0))) as Hin by by apply filter_In.
      by destruct (List.filter _ _). }
  rewrite (page_repairs_members (w_db w) d0) by (apply same_rows_members, (repaired_rows _ _ _ Hrep)).
  pose proof (repaired_step d0 a (seed_id seed) page call w Hd0 Hrep eq_refl) as Hstep.
  rewrite Hids in Hstep. specialize (Hstep (eq_sym Hlast)).
  destruct (page_repairs _ _ _ _ page) as [ps|e] eqn:Eps; cbn [result_bind] in *; [|eexists; by split].
  destruct (refresh_import_projections ps w) as [w1|e] eqn:Ew; cbn [result_bind] in *; [|eexists; by split].
  destruct Hstep as (Hrep1 & Hnil & Hsize).
  unfold len. rewrite (change_count_add d0 _ (w_db w1)) by done.
  destruct (change_count_mono d0 _ (w_db w1) _ Hsize) as [Hmono Hcz].
  destruct (IH (call + length page)%nat (Some (seed_id seed)) w1 Hrep1) as (r & Hr & Hres).
  { rewrite <-(after_after a) by (apply (elem_of_page d0 a IMPORT_REPAIR_PAGE_SIZE (seed_id seed)); [done|by apply last_Some_elem_of]).
    rewrite (after_increasing _ IMPORT_REPAIR_PAGE_SIZE (seed_id seed)) by
      (first [apply filter_increasing, import_ids_increasing|done]).
    rewrite length_drop. destruct (List.filter _ _); [done|]. cbn [length] in *. unfold IMPORT_REPAIR_PAGE_SIZE. lia. }
  exists r. split; [done|]. destruct r as [[n w']|e]; [|done].
  destruct Hres as (Hend & Hn & Hle & Hzero & Hws). split_and!; [done|done| | |].
  - lia.
  - intros Hn0. rewrite Hzero by done. apply Hnil, nil_length_inv, Hcz. lia.
  - eapply rtc_l; [by eapply step_refresh|done].
Qed.

End Pages.

(** ** Correctness *)

Lemma repair_returns derive w : db_ok (w_db w) -> exists r, repair_import_projections derive w = Done r
  /\ loop_result derive (w_db w) w r.
Proof.
  intros Hd. unfold repair_import_projections.
  destruct (repair_pages_spec derive (w_db w) (S (size (imports (w_db w)))) 0 None w Hd) as (r & Hr & Hres).
  - by apply repaired_start.
  - apply Nat.lt_succ_r. etrans; [apply filter_length_le|].
    unfold import_ids, sort_keys. by rewrite merge_sort_Permutation, length_fmap, length_map_to_list.
  - exists r. split; [|done]. rewrite <-Hr. f_equal. unfold change_count. rewrite changed_none. by vm_compute.
Qed.

(** What a successful repair leaves, as one record. *)
Record repair_done (derive : nat -> ImportSeed -> gset str -> result (list str)) (d d' : index_db) : Prop := {
  done_ok : db_ok d';
  done_rows : same_rows d d';
  done_imports : dom (imports d') = dom (imports d);
  done_values : forall k i, imports d !! k = Some i -> exists candidates,
    derives_at derive d k candidates /\ imports d' !! k = Some (target_row (members d) candidates i)
}.

Lemma repair_spec derive w : db_ok (w_db w) -> exists r, repair_import_projections derive w = Done r /\
  match r with
  | Err e => repair_fails derive (w_db w) e
  | Ok (n, w') => repair_done derive (w_db w) (w_db w') /\ n = change_count (w_db w) (w_db w')
      /\ (n = 0 -> w' = w) /\ writes w w'
  end.
Proof.
  intros Hd. destruct (repair_returns derive w Hd) as ([[n w']|e] & Hr & Hres); eexists; (split; [exact Hr|]); [|done].
  destruct Hres as ((a & [H1 H2 H3 _ H5] & Hend) & Hn & _ & Hz & Hw). split_and!; try done.
  split; try done. intros k i Hi. apply H5; [done|]. apply Hend. by exists i.
Qed.

(** C10: the repair makes every stored projection right.  Whatever the callback derives, and from
    whatever projections the database holds, [repair_import_projections] returns: the pages of 32
    imports end.  If it succeeds, each import of the database has the row with the candidates derived
    for it, in their order, and with the first of them that is a file under the membership of the
    transaction; its file, target and line are the old ones, as are the paths and contents of all
    files, and no import appears or goes.  The count is the number of rows that were wrong, and when
    it is zero nothing is written.  It fails only with an error of the callback, for candidates beyond
    the stored bounds, or for candidates with a duplicate. *)
Theorem repair_import_projections_correct derive w : db_ok (w_db w) ->
  exists r, repair_import_projections derive w = Done r /\
  match r with
  | Ok (n, w') =>
    db_ok (w_db w') /\ same_rows (w_db w) (w_db w') /\ dom (imports (w_db w')) = dom (imports (w_db w))
    /\ (forall k i, imports (w_db w) !! k = Some i -> exists seed call candidates,
         seed_of (w_db w) k = Some (seed, i) /\ derive call seed (members (w_db w)) = Ok candidates
         /\ imports (w_db w') !! k = Some (target_row (members (w_db w)) candidates i))
    /\ n = Z.min (Z.of_nat (size (changed_imports (w_db w) (w_db w')))) U64_MAX /\ (n = 0 -> w' = w)
  | Err e => exists k seed i call, seed_of (w_db w) k = Some (seed, i) /\
      match derive call seed (members (w_db w)) with
      | Err e' => e = e'
      | Ok candidates =>
        if exceeds_bounds candidates
        then e = OperationFailure "derived import candidates exceed persisted bounds"
        else ~ NoDup candidates /\ e = SqlFailure
      end
  end.
Proof.
  intros Hd. destruct (repair_spec derive w Hd) as (r & Hr & Hres). exists r. split; [done|].
  destruct r as [[n w']|e]; [|done]. destruct Hres as ([H1 H2 H3 H4] & Hn & Hz & _). split_and!; try done.
  intros k i Hi. destruct (H4 k i Hi) as (cs & (seed & j & Hs & call & Hc & _) & Hrow).
  exists seed, call, cs. split_and!; [|done|done].
  pose proof (seed_of_some _ _ _ Hs) as (_ & Hj & _). cbn in Hj. congruence.
Qed.

(** *** With the resolver of the indexer *)

(** The callback of [verify_or_repair_import_projections] for the modules it loaded. *)
Definition resolver (go_modules : GoModuleIndex) (call : nat) (seed : ImportSeed) (membership : gset str)
    : result (list str) :=
  Ok (import_candidates (seed_source_path seed) (seed_raw_target seed) (sorted_indexed_paths membership) go_modules).

Lemma repair_import_projections_correct_witness :
  exists n w', repair_import_projections (resolver ∅) (mk_writer demo_db 1 ReconcileMode true 0 ∅ 0) = Done (Ok (n, w'))
    /\ n = 1 /\ map (fun x => i_resolved x.2) (map_to_list (imports (w_db w'))) = [Some (lit "pkg/util.py")]
    /\ db_ok (w_db w').
Proof.
  destruct (repair_import_projections_correct (resolver ∅) (mk_writer demo_db 1 ReconcileMode true 0 ∅ 0) demo_db_ok)
    as (r & Hr & Hres).
  destruct r as [[n w']|e]; [|exfalso; vm_compute in Hr; discriminate].
  exists n, w'. split; [exact Hr|]. assert (H := Hr). vm_compute in H. injection H as Hn Hw.
  split; [by rewrite <-Hn|]. split; [by rewrite <-Hw; vm_compute|]. apply Hres.
Defined.

(** A relative import of a package at the repository root leaves the empty path
    among the candidates. *)
Lemma root_package_candidates source n sorted_paths go_modules :
  for_source source = Python -> Z.of_nat (S n) <= MAX_IMPORT_TARGET_BYTES ->
  pop_times n (default [] (parent source)) = Some [] ->
  import_candidates source (replicate (S n) DOT) sorted_paths go_modules
    = map lit ["__init__.py"; "__init__.pyi"; ""]%string.
Proof.
  intros Hs Hn Hp. unfold import_candidates.
  assert (token_len (replicate (S n) DOT) = Z.of_nat (S n)) as ->.
  { generalize (S n). induction n0 as [|k IH]; [done|]. cbn [replicate token_len foldr]. unfold token_len in IH.
    rewrite IH. cbn. lia. }
  rewrite (proj2 (Z.ltb_ge _ _)) by done. rewrite Hs. unfold python_import_candidates, python_module_paths.
  assert (take_while (Z.eqb DOT) (replicate (S n) DOT) = replicate (S n) DOT) as ->.
  { generalize (S n). induction n0 as [|k IH]; [done|]. cbn [replicate take_while]. by rewrite Z.eqb_refl, IH. }
  rewrite length_replicate, drop_ge by by rewrite length_replicate.
  rewrite Hp. by vm_compute.
Qed.

(** One relative import of the root package blocks every publication.  When a Python source's
    import consists of dots only and climbs to the repository root, as [from . import *] does in a
    module at the root, its candidates end with the empty path, which the repair rejects: whatever
    else the database holds, the repair fails, and with it the publication. *)
Theorem root_package_import_blocks_repair go_modules w k i r n : db_ok (w_db w) ->
  imports (w_db w) !! k = Some i -> files (w_db w) !! i_file i = Some r ->
  for_source (f_path r) = Python -> i_target i = replicate (S n) DOT ->
  Z.of_nat (S n) <= MAX_IMPORT_TARGET_BYTES -> pop_times n (default [] (parent (f_path r))) = Some [] ->
  exists e, repair_import_projections (resolver go_modules) w = Done (Err e).
Proof.
  intros Hd Hi Hr Hs Ht Hn Hp. destruct (repair_spec (resolver go_modules) w Hd) as ([[m w']|e] & Hrun & Hres);
    [exfalso|by exists e].
  destruct Hres as ([_ _ _ Hv] & _). destruct (Hv k i Hi) as (cs & (seed & j & Hseed & call & Hcs & Hb) & _).
  unfold seed_of in Hseed. rewrite Hi, Hr in Hseed. injection Hseed as <- <-.
  unfold resolver in Hcs. cbn [seed_source_path seed_raw_target] in Hcs. rewrite Ht in Hcs.
  rewrite (root_package_candidates (f_path r) n) in Hcs by done. injection Hcs as <-. by vm_compute in Hb.
Qed.

Lemma root_package_import_blocks_repair_witness :
  exists e, repair_import_projections (resolver ∅)
    (mk_writer (demo_insert (demo_file "main.py" ["."]) (empty_db "c" "v")) 1 ReconcileMode true 0 ∅ 0) = Done (Err e).
Proof.
  apply (root_package_import_blocks_repair ∅ _ 1
    (mk_import_row 1 (lit ".") None 1 []) (mk_file_row (lit "main.py") (demo_columns "python" 2) 1 ("words"%string, 2)) 0).
  - apply demo_insert_ok, empty_db_ok.
  - by vm_compute.
  - by vm_compute.
  - by vm_compute.
  - by vm_compute.
  - by vm_compute.
  - by vm_compute.
Defined.
