(* ===== verification/Preparation.v ===== *)
(** * Preparation of the files to index

    [src/src/indexer/prepare.rs], [preparation.rs] and [publish.rs], and the go.mod
    index and the resolution of prepared imports of [import_resolution.rs]: reading
    a file within its bound, turning it into the rows of the index, and doing so in
    bounded batches.  The worker pool runs the files of a batch in parallel; its
    result is the list of their results in order.  Timings and warnings' wording
    are left out. *)

From S2P Require Import Prelude Chars Order Store Paths StdPath ImportResolution Discovery IndexDb.
From S2P Require Text.
Open Scope Z_scope.
Open Scope store_scope.

Abbreviation byte_string := (list Byte.byte).

(** ** Reading files *)

(** What opening and reading a path of the repository gives. *)
Inductive file_on_disk :=
| FileBytes (bytes : byte_string)
| FileError (not_found : bool) (message : string).
Definition disk : Type := str -> file_on_disk.

(** [std::io::Result<Option<Vec<u8>>>]. *)
Inductive bounded_read :=
| ReadBytes (bytes : byte_string)
| ReadTooLarge
| ReadFailed (not_found : bool) (message : string).

(** [read_bounded_file] reads at most one byte more than the bound. *)
Definition read_bounded_file (bytes : byte_string) (max_bytes : Z) : bounded_read :=
  let read := take (Z.to_nat (u64_saturating_add max_bytes 1)) bytes in
  if max_bytes <? len read then ReadTooLarge else ReadBytes read.
Definition read_bounded (d : disk) (path : str) (max_bytes : Z) : bounded_read :=
  match d path with
  | FileBytes bytes => read_bounded_file bytes max_bytes
  | FileError not_found message => ReadFailed not_found message
  end.

(** [String::from_utf8_lossy]: every maximal ill-formed part becomes U+FFFD. *)
Definition REPLACEMENT : Z := 0xFFFD.
Definition byte_value (b : Byte.byte) : Z := Z.of_N (Byte.to_N b).
Definition code2 (b0 b1 : Byte.byte) : Z := (byte_value b0 - 192) * 64 + (byte_value b1 - 128).
Definition code3 (b0 b1 b2 : Byte.byte) : Z :=
  ((byte_value b0 - 224) * 64 + (byte_value b1 - 128)) * 64 + (byte_value b2 - 128).
Definition code4 (b0 b1 b2 b3 : Byte.byte) : Z :=
  (((byte_value b0 - 240) * 64 + (byte_value b1 - 128)) * 64 + (byte_value b2 - 128)) * 64
  + (byte_value b3 - 128).
Fixpoint from_utf8_lossy (bytes : byte_string) : str :=
  match bytes with
  | [] => []
  | b0 :: r0 =>
    if Text.is_ascii b0 then byte_value b0 :: from_utf8_lossy r0
    else
      match r0 with
      | [] => [REPLACEMENT]
      | b1 :: r1 =>
        if between 194 223 b0 && Text.is_cont b1 then code2 b0 b1 :: from_utf8_lossy r1
        else if Text.lead3 b0 b1 then
          match r1 with
          | [] => [REPLACEMENT]
          | b2 :: r2 => if Text.is_cont b2 then code3 b0 b1 b2 :: from_utf8_lossy r2
                        else REPLACEMENT :: from_utf8_lossy r1
          end
        else if Text.lead4 b0 b1 then
          match r1 with
          | [] => [REPLACEMENT]
          | b2 :: r2 =>
            if Text.is_cont b2 then
              match r2 with
              | [] => [REPLACEMENT]
              | b3 :: r3 => if Text.is_cont b3 then code4 b0 b1 b2 b3 :: from_utf8_lossy r3
                            else REPLACEMENT :: from_utf8_lossy r2
              end
            else REPLACEMENT :: from_utf8_lossy r1
          end
        else REPLACEMENT :: from_utf8_lossy r0
      end
  end.

(** ** Preparing a file *)

(** [ParseOutput] of the parser; its symbols and references have the fields of
    the rows they become. *)
Record ParsedImport := mk_parsed_import {
  parsed_target : str;
  parsed_resolved : option str;
  parsed_line : Z
}.
Record ParseOutput := mk_parse_output {
  parsed_language : option string;
  parsed_complete : bool;
  parsed_symbols : list SymbolInput;
  parsed_references : list ReferenceInput;
  parsed_imports : list ParsedImport
}.

Inductive warning :=
| StructuralParseFailed (path : str) (cause : error)
| PreparationFailed (path : str) (message : string)
| ProjectionsRepaired (count : Z).
Definition MAX_WARNINGS : Z := 100.
Definition push_warning (warnings : list warning) (w : warning) : list warning :=
  if len warnings <? MAX_WARNINGS then warnings ++ [w] else warnings.

Inductive PreparedFile :=
| Indexed (file : IndexedFile) (source_tokens : Z) (warn : option warning)
| PreparedBinary (path : str)
| Oversized (path : str)
| Failed (path : str) (message : string).

Record IndexerConfig := mk_indexer_config {
  limits : DiscoveryLimits;
  chunk_lines : nat;
  chunk_bytes : nat;
  tokenizer : string
}.

Section Preparation.
(** The BLAKE3 digest, the tokenizer, the parser (tree-sitter grammars and the
    extraction of [src/src/parser/]), and the language a path stands for. *)
Variable blake3_hex : byte_string -> string.
Variable count_tokens : byte_string -> Z.
Variable parse : str -> byte_string -> result ParseOutput.
Variable language_by_path : str -> option string.
Variable config : IndexerConfig.
(** The state of the cancellation token at the [n]-th check of a kind. *)
Variable cancelled : string -> nat -> bool.

Definition check_cancelled (site : string) (n : nat) : result () :=
  if cancelled site n then Err Cancelled else Ok ().
(** A loop of [rounds] rounds that only checks the token. *)
Definition check_rounds (site : string) (rounds : nat) : result () :=
  if existsb (cancelled site) (seq 0 rounds) then Err Cancelled else Ok ().

Definition hash_bytes (bytes : byte_string) : string := Text.hash_bytes blake3_hex bytes.

Definition content_unchanged (d : disk) (path : str) (expected_hash : string) (max_file_bytes : Z) : bool :=
  match read_bounded d path max_file_bytes with
  | ReadBytes bytes => bool_decide (hash_bytes bytes = expected_hash)
  | ReadTooLarge => false
  | ReadFailed _ _ => false
  end.

Definition chunk_input (c : Text.Chunk) : ChunkInput :=
  mk_chunk_input (String.string_of_list_byte (Text.content c))
    (Z.of_nat (Text.start_line c), Z.of_nat (Text.end_line c))
    (Z.of_nat (Text.start_byte c), Z.of_nat (Text.end_byte c)) (count_tokens (Text.content c)).
Definition import_input (i : ParsedImport) : ImportInput :=
  mk_import_input (parsed_target i) (mk_projection (parsed_resolved i) []) (parsed_line i).

(** The parser's output, or none of it with a warning. *)
Definition parse_or_warn (path : str) (content : byte_string) : result (ParseOutput * option warning) :=
  match parse path content with
  | Ok parsed => Ok (parsed, None)
  | Err Cancelled => Err Cancelled
  | Err e => Ok (mk_parse_output (language_by_path path) false [] [] [], Some (StructuralParseFailed path e))
  end.

Definition indexed_file (f : DiscoveredFile) (bytes : byte_string) (p : Text.PreparedText) (parsed : ParseOutput)
    : IndexedFile :=
  mk_indexed (relative_path f)
    (mk_columns (parsed_language parsed) (parsed_complete parsed) (len bytes) (discovered_modified f)
       (hash_bytes (Text.text_content p)) (map chunk_input (Text.chunks p))
       (parsed_symbols parsed) (parsed_references parsed))
    (map import_input (parsed_imports parsed)).

(** [prepare_file_inner]. *)
Definition prepare_file (d : disk) (f : DiscoveredFile) : run (result PreparedFile) :=
  let path := relative_path f in
  match read_bounded d path (max_file_bytes (limits config)) with
  | ReadTooLarge => Done (Ok (Oversized path))
  | ReadFailed _ message => Done (Ok (Failed path message))
  | ReadBytes bytes =>
    match Text.from_vec blake3_hex bytes (chunk_lines config) (chunk_bytes config) with
    | Done p =>
      match Text.kind p with
      | Text.Binary => Done (Ok (PreparedBinary path))
      | Text.Text =>
        Done (let* parsed := parse_or_warn path (Text.text_content p) in
              Ok (Indexed (indexed_file f bytes p parsed.1) (count_tokens (Text.text_content p)) parsed.2))
      end
    | Panic => Panic
    | NoFuel => NoFuel
    end
  end.

(** ** Batches *)
Fixpoint batch_end_loop (files : list DiscoveredFile) (taken : nat) (batch_bytes : Z) : nat :=
  match files with
  | [] => taken
  | f :: files =>
    if (Z.of_nat taken <? max_prepare_batch_files (limits config)) then
      let observed := u64_saturating_add batch_bytes (discovered_size f) in
      if max_prepare_batch_bytes (limits config) <? observed then taken
      else batch_end_loop files (S taken) observed
    else taken
  end.
Definition prepare_batch_end (candidates : list DiscoveredFile) (start : nat) : nat :=
  let end_ := (start + batch_end_loop (drop start candidates) 0 0)%nat in
  if (end_ =? start)%nat && (start <? length candidates)%nat then S start else end_.

(** The files of one batch, [first] being the number of files before it. *)
Fixpoint prepare_batch (d : disk) (first : nat) (files : list DiscoveredFile) : run (result (list PreparedFile)) :=
  match files with
  | [] => Done (Ok [])
  | f :: files =>
    if cancelled "before file" first then Done (Err Cancelled)
    else
      match prepare_file d f with
      | Done (Ok prepared) =>
        if cancelled "after file" first then Done (Err Cancelled)
        else
          match prepare_batch d (S first) files with
          | Done rest => Done (let* rest := rest in Ok (prepared :: rest))
          | Panic => Panic
          | NoFuel => NoFuel
          end
      | Done (Err e) => Done (Err e)
      | Panic => Panic
      | NoFuel => NoFuel
      end
  end.

(** [prepare_candidate_batches]; [consume] takes the number of the batch. *)
Section Batches.
Context {S : Type} (consume : nat -> list PreparedFile -> S -> run (result S)).
Variable d : disk.

Fixpoint batch_loop (fuel batch : nat) (candidates : list DiscoveredFile) (start : nat) (s : S) : run (result S) :=
  if (length candidates <=? start)%nat then Done (Ok s)
  else
    match fuel with
    | O => NoFuel
    | Datatypes.S fuel =>
      if cancelled "batch" batch then Done (Err Cancelled)
      else
        let end_ := prepare_batch_end candidates start in
        if (end_ <=? start)%nat
        then Done (Err (OperationFailure "candidate batch preparation made no progress"))
        else
          match prepare_batch d start (take (end_ - start) (drop start candidates)) with
          | Done (Ok prepared) =>
            match consume batch prepared s with
            | Done (Ok s) => batch_loop fuel (Datatypes.S batch) candidates end_ s
            | Done (Err e) => Done (Err e)
            | Panic => Panic
            | NoFuel => NoFuel
            end
          | Done (Err e) => Done (Err e)
          | Panic => Panic
          | NoFuel => NoFuel
          end
    end.

(** [pool] is the outcome of building the worker pool. *)
Definition prepare_candidate_batches (pool : result ()) (candidates : list DiscoveredFile) (s : S) : run (result S) :=
  match check_cancelled "prepare" 0 with
  | Err e => Done (Err e)
  | Ok _ =>
    match candidates, pool with
    | [], _ => Done (Ok s)
    | _, Err e => Done (Err e)
    | _, Ok _ => batch_loop (length candidates) 0 candidates 0 s
    end
  end.
End Batches.

(** ** Imports *)

(** [GoModuleIndex::load]; the set is walked in the order of its elements, and
    [site] names the call. *)
Fixpoint load_modules (site : string) (d : disk) (n : nat) (paths : list str) (modules : GoModuleIndex) : result GoModuleIndex :=
  match paths with
  | [] => Ok modules
  | path :: paths =>
    let* _ := check_cancelled site n in
    if negb (is_go_mod_path path) then load_modules site d (S n) paths modules
    else
      match read_bounded d path MAX_GO_MOD_BYTES with
      | ReadTooLarge => load_modules site d (S n) paths modules
      | ReadFailed true _ => load_modules site d (S n) paths modules
      | ReadFailed false _ => Err IoError
      | ReadBytes bytes =>
        load_modules site d (S n) paths
          (match parse_module_directive (from_utf8_lossy bytes) with
           | Some module_path => <[path := module_path]> modules
           | None => modules
           end)
      end
  end.
Definition GoModuleIndex_load (site : string) (d : disk) (repository_paths : gset str) : result GoModuleIndex :=
  load_modules site d 0 (elements repository_paths) ∅.

Definition resolve_import (path : str) (go_modules : GoModuleIndex) (sorted_paths : list str) (i : ImportInput)
    : ImportInput :=
  mk_import_input (import_target i)
    (derive_import_projection path (import_target i) sorted_paths go_modules) (import_line i).
Definition resolve_file (go_modules : GoModuleIndex) (sorted_paths : list str) (f : IndexedFile) : IndexedFile :=
  mk_indexed (indexed_path f) (indexed_columns f)
    (map (resolve_import (indexed_path f) go_modules sorted_paths) (indexed_imports f)).
(** The checks of a batch are one for each file and one for each import. *)
Definition resolve_imports (batch : nat) (files : list IndexedFile) (go_modules : GoModuleIndex)
    (sorted_paths : list str) : result (list IndexedFile) :=
  let* _ := check_cancelled "resolve imports" batch in
  Ok (map (resolve_file go_modules sorted_paths) files).

(** ** [PublishedSourceBytes] *)
Record PublishedSourceBytes := mk_source_bytes {
  sizes : gmap str Z;
  total : Z;
  byte_limit : Z
}.
Definition saturating_sum (sizes : gmap str Z) : Z := map_fold (fun _ size acc => u64_saturating_add acc size) 0 sizes.
Definition new_source_bytes (existing : gmap str Z) (deletions : gset str) (limit : Z) : PublishedSourceBytes :=
  let sizes := filter (fun '(path, _) => path ∉ deletions) existing in
  mk_source_bytes sizes (saturating_sum sizes) limit.
Definition replace_size (path : str) (size : Z) (b : PublishedSourceBytes) : PublishedSourceBytes :=
  mk_source_bytes (<[path := size]> (sizes b))
    (u64_saturating_add (u64_saturating_sub (total b) (default 0 (sizes b !! path))) size) (byte_limit b).
Definition remove_size (path : str) (b : PublishedSourceBytes) : PublishedSourceBytes :=
  match sizes b !! path with
  | Some size => mk_source_bytes (delete path (sizes b)) (u64_saturating_sub (total b) size) (byte_limit b)
  | None => b
  end.
Definition enforce (b : PublishedSourceBytes) : result () :=
  enforce_limit LimitTotalSourceBytes (total b) (byte_limit b).
End Preparation.
