(* ===== verification/Indexer.v ===== *)
(** * The indexer: full reconciliation

    [Indexer] of [src/src/indexer/]: the plan and the publication of a full
    reconciliation ([orchestrator.rs], [plan.rs], [imports.rs]), with the retry
    on a stale plan.  A reconciliation reads the database several times before it
    publishes, while other processes may publish; it is given the states it
    reads and the one it finds at the end.  Likewise the disk is read in phases. *)

From S2P Require Import Prelude Chars Order Store Paths StdPath ImportResolution Discovery IndexDb.
From S2P Require Import Publication ProjectionRepair Preparation.
Open Scope Z_scope.
Open Scope store_scope.

(** ** Reading the index *)
Record FileRecord := mk_file_record {
  record_id : Z;
  record_path : str;
  record_language : option string;
  record_complete : bool;
  record_size : Z;
  record_modified : option Z;
  record_hash : string;
  record_generation : Z
}.
Definition file_record (id : Z) (r : file_row) : FileRecord :=
  let c := f_columns r in
  mk_file_record id (f_path r) (language c) (structurally_complete c) (size_bytes c) (modified_ns c)
    (content_hash c) (f_generation r).

Definition file_ids (d : index_db) : list Z := sort_keys (map_to_list (files d)).*1.
Definition list_files (max_results : nat) (cursor : option Z) (d : index_db) : list FileRecord :=
  take (bounded_limit max_results) (omap (fun id => file_record id <$> files d !! id) (List.filter (after cursor) (file_ids d))).

Definition EXISTING_PAGE_SIZE : nat := 1000.

Record IndexSkipReasonCounts := mk_skips {
  skipped_binary : Z;
  oversized_during_read : Z;
  skipped_failed : Z
}.
Definition skips_total (s : IndexSkipReasonCounts) : Z :=
  u64_saturating_add (u64_saturating_add (skipped_binary s) (oversized_during_read s)) (skipped_failed s).

Record IndexReport := mk_report {
  repository_generation : Z;
  files_seen : Z;
  files_indexed : Z;
  files_unchanged : Z;
  files_removed : Z;
  files_skipped : Z;
  warnings : list warning;
  skip_reasons : IndexSkipReasonCounts
}.

(** What one attempt is given: the states of the database at its reads and at
    its publication, the walk, and the disk of each phase. *)
Record attempt := mk_attempt {
  reads : nat -> index_db;
  walk : list (option DirEntry);
  planning_disk : disk;
  module_disk : disk;
  preparing_disk : disk;
  repair_disk : disk;
  found : index_db
}.

Section Indexer.
Variable blake3_hex : byte_string -> string.
Variable count_tokens : byte_string -> Z.
Variable parse : str -> byte_string -> result ParseOutput.
Variable language_by_path : str -> option string.
Variable config : IndexerConfig.
(** The fingerprint of the indexer's code, and of its configuration. *)
Variable runtime_derivation config_hash : string.
(** The database's own files, which discovery leaves out. *)
Variable include : DirEntry -> bool.
(** The outcome of building the worker pool and of creating the stage. *)
Variable pool stage : result ().
Variable cancelled : string -> nat -> bool.

#[local] Abbreviation check_cancelled := (Preparation.check_cancelled cancelled).
#[local] Abbreviation check_rounds := (Preparation.check_rounds cancelled).
#[local] Abbreviation GoModuleIndex_load := (Preparation.GoModuleIndex_load cancelled).
#[local] Abbreviation content_unchanged := (Preparation.content_unchanged blake3_hex).
#[local] Abbreviation prepare_candidate_batches :=
  (Preparation.prepare_candidate_batches blake3_hex count_tokens parse language_by_path config cancelled).

(** [existing_files]: a page is read from the state at its read. *)
Fixpoint existing_pages (fuel page : nat) (cursor : option Z) (found : gmap str FileRecord)
    (reads : nat -> index_db) : run (result (gmap str FileRecord)) :=
  match fuel with
  | O => NoFuel
  | S fuel =>
    if cancelled "existing page" page then Done (Err Cancelled)
    else
      let files := list_files EXISTING_PAGE_SIZE cursor (reads page) in
      match last files with
      | None => Done (Ok found)
      | Some file =>
        if cancelled "existing files" page then Done (Err Cancelled)
        else existing_pages fuel (S page) (Some (record_id file))
               (fold_left (fun m f => <[record_path f := f]> m) files found) reads
      end
  end.
Definition existing_files (fuel : nat) (reads : nat -> index_db) : run (result (gmap str FileRecord)) :=
  existing_pages fuel 0 None ∅ reads.

(** ** [verify_or_repair_import_projections] *)

(** The callback: the modules and the sorted paths are computed at its first call. *)
Definition derive_candidates (d : disk) (call : nat) (seed : ImportSeed) (membership : gset str)
    : result (list str) :=
  let* _ := check_cancelled "repair" call in
  let* go_modules := GoModuleIndex_load "repair modules" d membership in
  Ok (import_candidates (seed_source_path seed) (seed_raw_target seed) (sorted_indexed_paths membership) go_modules).

Definition verify_or_repair_import_projections (verified changed_semantics : bool) (d : disk)
    (w : ReconciliationWriter) : run (result (Z * ReconciliationWriter)) :=
  if negb changed_semantics && verified then Done (Ok (0, w))
  else repair_import_projections (derive_candidates d) w.

(** ** The plan of a full reconciliation *)

(** Whether a discovered file can be left as it is indexed. *)
Definition is_unchanged (force : bool) (d : disk) (existing : gmap str FileRecord) (f : DiscoveredFile) : bool :=
  negb force
  && match existing !! relative_path f with
     | Some record => (record_size record =? discovered_size f)
         && content_unchanged d (relative_path f) (record_hash record) (max_file_bytes (limits config))
     | None => false
     end.

Definition MAX_INITIAL_REMOVALS_PER_STAGE : Z := 256.
Fixpoint stage_removals (paths : list str) (s : PreparedReconciliation) : result PreparedReconciliation :=
  match paths with
  | [] => Ok s
  | path :: paths =>
    let s := stage_removal path s in
    if MAX_INITIAL_REMOVALS_PER_STAGE <=? pending_removals s
    then let* s := flush s in stage_removals paths s
    else stage_removals paths s
  end.

Definition sizes_of (existing : gmap str FileRecord) : gmap str Z := record_size <$> existing.

(** ** Consuming prepared files *)
Record full_state := mk_full {
  source_bytes : PublishedSourceBytes;
  removed : gset str;
  staged : PreparedReconciliation;
  full_warnings : list warning;
  skips : IndexSkipReasonCounts;
  indexed_count : Z
}.

(** A file that turned out not to be indexable: its old row goes. *)
Definition drop_existing (existing : gmap str FileRecord) (path : str) (removed : gset str)
    (staged : PreparedReconciliation) : gset str * PreparedReconciliation :=
  if bool_decide (is_Some (existing !! path)) && negb (bool_decide (path ∈ removed))
  then ({[ path ]} ∪ removed, stage_removal path staged)
  else (removed, staged).

(** One result of a batch; the indexed files and their token counts are collected. *)
Definition absorb (existing : gmap str FileRecord) (x : full_state * list IndexedFile * gmap str Z)
    (p : PreparedFile) : full_state * list IndexedFile * gmap str Z :=
  let '(s, indexed, counts) := x in
  match p with
  | Indexed file tokens warn =>
    (mk_full (replace_size (indexed_path file) (size_bytes (indexed_columns file)) (source_bytes s)) (removed s)
       (staged s) (match warn with Some w => push_warning (full_warnings s) w | None => full_warnings s end)
       (skips s) (indexed_count s),
     indexed ++ [file], <[indexed_path file := tokens]> counts)
  | PreparedBinary path =>
    let dropped := drop_existing existing path (removed s) (staged s) in
    (mk_full (remove_size path (source_bytes s)) dropped.1 dropped.2 (full_warnings s)
       (mk_skips (u64_saturating_add (skipped_binary (skips s)) 1) (oversized_during_read (skips s))
          (skipped_failed (skips s))) (indexed_count s), indexed, counts)
  | Oversized path =>
    let dropped := drop_existing existing path (removed s) (staged s) in
    (mk_full (remove_size path (source_bytes s)) dropped.1 dropped.2 (full_warnings s)
       (mk_skips (skipped_binary (skips s)) (u64_saturating_add (oversized_during_read (skips s)) 1)
          (skipped_failed (skips s))) (indexed_count s), indexed, counts)
  | Failed path message =>
    (mk_full (source_bytes s) (removed s) (staged s)
       (push_warning (full_warnings s) (PreparationFailed path message))
       (mk_skips (skipped_binary (skips s)) (oversized_during_read (skips s))
          (u64_saturating_add (skipped_failed (skips s)) 1)) (indexed_count s), indexed, counts)
  end.

(** Staging the indexed files; a missing count panics. *)
Fixpoint stage_indexed_files (files : list IndexedFile) (counts : gmap str Z) (s : PreparedReconciliation)
    : run PreparedReconciliation :=
  match files with
  | [] => Done s
  | f :: files =>
    match counts !! indexed_path f with
    | None => Panic
    | Some tokens => stage_indexed_files files (base.delete (indexed_path f) counts) (stage_indexed f tokens s)
    end
  end.

(** The closure given to the preparation. *)
Definition consume (existing : gmap str FileRecord) (go_modules : GoModuleIndex) (sorted_paths : list str)
    (batch : nat) (prepared : list PreparedFile) (s : full_state) : run (result full_state) :=
  match check_cancelled "consume" batch with
  | Err e => Done (Err e)
  | Ok _ =>
    let '(s, indexed, counts) := fold_left (absorb existing) prepared (s, [], ∅) in
    match resolve_imports cancelled batch indexed go_modules sorted_paths with
    | Err e => Done (Err e)
    | Ok indexed =>
      match check_cancelled "stage" batch with
      | Err e => Done (Err e)
      | Ok _ =>
        match stage_indexed_files indexed counts (staged s) with
        | Done filled =>
          Done (let* flushed := flush filled in
                Ok (mk_full (source_bytes s) (removed s) flushed (full_warnings s) (skips s)
                      (u64_saturating_add (indexed_count s) (len indexed))))
        | Panic => Panic
        | NoFuel => NoFuel
        end
      end
    end
  end.

(** ** [reconcile_once] *)
Record full_plan := mk_full_plan {
  plan_baseline : MetaRecord;
  plan_existing : gmap str FileRecord;
  plan_candidates : list DiscoveredFile;
  plan_unchanged : Z;
  plan_membership_changed : bool;
  plan_removed : gset str;
  plan_paths : gset str
}.

(** Up to the preparation: discovery, the existing files and the candidates. *)
Definition plan_full (fuel : nat) (mode : IndexingMode) (a : attempt) : run (result full_plan) :=
  match (let* _ := check_cancelled "start" 0 in
         discover_files (cancelled "discovery") include (limits config) (walk a)) with
  | Err e => Done (Err e)
  | Ok (discovered, _) =>
    let baseline := meta (reads a 0) in
    match check_cancelled "planning" 0 with
    | Err e => Done (Err e)
    | Ok _ =>
      match existing_files fuel (fun n => reads a (S n)) with
      | Done (Ok existing) =>
        let force := is_rebuild mode || negb (bool_decide (base_config_hash baseline = config_hash))
                     || negb (bool_decide (base_derivation baseline = runtime_derivation)) in
        let paths : gset str := list_to_set (map relative_path discovered) in
        let removed := dom existing ∖ paths in
        let membership_changed := negb (Nat.eqb (size paths) (size existing))
                                  || negb (bool_decide (removed = ∅)) in
        Done (let* _ := check_rounds "plan" (length discovered) in
              Ok (mk_full_plan baseline existing
                    (List.filter (fun f => negb (is_unchanged force (planning_disk a) existing f)) discovered)
                    (len (List.filter (is_unchanged force (planning_disk a) existing) discovered))
                    membership_changed removed paths))
      | Done (Err e) => Done (Err e)
      | Panic => Panic
      | NoFuel => NoFuel
      end
    end
  end.

(** The preparation: everything that is staged. *)
Definition prepare_full (a : attempt) (p : full_plan) : run (result full_state) :=
  match (let* _ := stage in
         let* initial := stage_removals (elements (plan_removed p)) empty_stage in
         let* go_modules := GoModuleIndex_load "modules" (module_disk a) (plan_paths p) in
         Ok (initial, go_modules)) with
  | Err e => Done (Err e)
  | Ok (initial, go_modules) =>
    match prepare_candidate_batches
            (consume (plan_existing p) go_modules (sorted_indexed_paths (plan_paths p)))
            (preparing_disk a) pool (plan_candidates p)
            (mk_full (new_source_bytes (sizes_of (plan_existing p)) (plan_removed p)
                        (max_total_source_bytes (limits config)))
               (plan_removed p) initial [] (mk_skips 0 0 0) 0) with
    | Done (Ok s) =>
      Done (let* _ := enforce (source_bytes s) in
            let* finished := flush (staged s) in
            let* _ := check_cancelled "prepared" 0 in
            Ok (mk_full (source_bytes s) (removed s) finished (full_warnings s) (skips s) (indexed_count s)))
    | Done (Err e) => Done (Err e)
    | Panic => Panic
    | NoFuel => NoFuel
    end
  end.

(** The closure given to the publication. *)
Definition write_full (verified changed_semantics : bool) (d : disk) (s : full_state)
    (w : ReconciliationWriter) : run (result (Z * ReconciliationWriter)) :=
  match apply_stage (tokenizer config) (staged s) w with
  | Err e => Done (Err e)
  | Ok w => verify_or_repair_import_projections verified changed_semantics d w
  end.

Definition phase_number (phase : ReconciliationPublicationPhase) : nat :=
  match phase with
  | ChunkWordFts => 0 | ChunkTrigramFts => 1 | SymbolFts => 2 | ReferenceFts => 3 | CommitAndCheckpoint => 4
  end.
Definition observe_publication_phase (phase : ReconciliationPublicationPhase) : result () :=
  check_cancelled "publication" (phase_number phase).

(** The database after one attempt, whether the projections are now known to be
    right, and the outcome. *)
Definition reconcile_once (fuel : nat) (mode : IndexingMode) (verified : bool) (a : attempt)
    : run (index_db * bool * result IndexReport) :=
  match plan_full fuel mode a with
  | Done (Ok p) =>
    match prepare_full a p with
    | Done (Ok s) =>
      let changed_semantics := plan_membership_changed p || negb (bool_decide (removed s = ∅))
                               || existsb (fun f => is_go_mod_path (relative_path f)) (plan_candidates p) in
      match publish_reconciliation runtime_derivation observe_publication_phase (plan_baseline p) config_hash mode
              (write_full verified changed_semantics (repair_disk a) s) (found a) with
      | Done t =>
        let '(d, r) := run_tx (found a) t in
        match r with
        | Err e => Done (d, verified, Err e)
        | Ok (generation, repaired) =>
          Done (d, true,
            Ok (mk_report generation (plan_unchanged p + len (plan_candidates p)) (indexed_count s)
                  (plan_unchanged p) (Z.of_nat (size (removed s))) (skips_total (skips s))
                  (if 0 <? repaired then push_warning (full_warnings s) (ProjectionsRepaired repaired)
                   else full_warnings s) (skips s)))
        end
      | Panic => Panic
      | NoFuel => NoFuel
      end
    | Done (Err e) => Done (found a, verified, Err e)
    | Panic => Panic
    | NoFuel => NoFuel
    end
  | Done (Err e) => Done (found a, verified, Err e)
  | Panic => Panic
  | NoFuel => NoFuel
  end.

(** [reconcile_cancellable]: three attempts. *)
Fixpoint reconcile_attempts (fuel : nat) (mode : IndexingMode) (verified : bool) (d : index_db)
    (attempts : list attempt) : run (index_db * bool * result IndexReport) :=
  match attempts with
  | [] => Done (d, verified, Err RetryableConflict)
  | a :: attempts =>
    match reconcile_once fuel mode verified a with
    | Done (d, verified, Err (StaleReconciliation _ _)) => reconcile_attempts fuel mode verified d attempts
    | outcome => outcome
    end
  end.
Definition reconcile_cancellable (fuel : nat) (mode : IndexingMode) (verified : bool) (a1 a2 a3 : attempt)
    : run (index_db * bool * result IndexReport) :=
  reconcile_attempts fuel mode verified (found a1) [a1; a2; a3].
End Indexer.
