(* ===== verification/IndexerFacts.v ===== *)
(** * Facts about the indexer's parts

    The existing files of a state, what a stage holds and what applying it does,
    the go.mod index of a set of paths, and the result of preparing the
    candidates batch by batch. *)

From S2P Require Import Prelude Chars Order Store Paths StdPath ImportResolution Discovery IndexDb.
From S2P Require Import Publication IndexModel ProjectionRepair Preparation Indexer.
From S2P Require Text.
Open Scope Z_scope.
Open Scope store_scope.

(** ** The existing files *)

(** The records of a state by path. *)
Definition existing_of (d : index_db) : gmap str FileRecord :=
  list_to_map (map (fun '(id, r) => (f_path r, file_record id r)) (map_to_list (files d))).

Lemma existing_of_spec d p record : db_ok d ->
  existing_of d !! p = Some record <-> exists id r, files d !! id = Some r /\ f_path r = p /\ record = file_record id r.
Proof.
  intros Hd. unfold existing_of. rewrite <-elem_of_list_to_map.
  - rewrite list_elem_of_fmap. split.
    + intros ([id r] & [= -> ->] & Hr%elem_of_map_to_list). by exists id, r.
    + intros (id & r & Hr & <- & ->). exists (id, r). split; [done|by apply elem_of_map_to_list].
  - rewrite <-list_fmap_compose. apply NoDup_fmap_2_strong; [|apply NoDup_map_to_list].
    intros [i r] [j s] Hi%elem_of_map_to_list Hj%elem_of_map_to_list Hp. cbn in Hp.
    assert (i = j) as -> by (by eapply (paths_unique d Hd)). congruence.
Qed.

Lemma file_ids_increasing d : increasing (file_ids d).
Proof. apply sort_keys_increasing, NoDup_fst_map_to_list. Qed.
Lemma elem_of_file_ids d k : k ∈ file_ids d <-> is_Some (files d !! k).
Proof.
  unfold file_ids, sort_keys. rewrite merge_sort_Permutation, list_elem_of_fmap. split.
  - intros ([j i] & -> & Hi%elem_of_map_to_list). by exists i.
  - intros [i Hi]. exists (k, i). by rewrite elem_of_map_to_list.
Qed.

Lemma existing_page_size : bounded_limit EXISTING_PAGE_SIZE = 1000%nat.
Proof. by vm_compute. Qed.

(** The records of a page are those of its ids. *)
Lemma list_files_page d a n :
  map record_id (list_files n a d) = take (bounded_limit n) (List.filter (after a) (file_ids d))
  /\ Forall (fun f => exists r, files d !! record_id f = Some r /\ f = file_record (record_id f) r) (list_files n a d).
Proof.
  unfold list_files.
  assert (Hall : forall k, k ∈ List.filter (after a) (file_ids d) -> is_Some (files d !! k)).
  { intros k Hk%list_elem_of_In%filter_In. destruct Hk as [Hk%list_elem_of_In%elem_of_file_ids _]. done. }
  generalize (bounded_limit n). clear n. induction (List.filter (after a) (file_ids d)) as [|k l IH]; intros n; [cbn; by rewrite !take_nil|].
  destruct (Hall k) as [r Hr]; [by left|]. cbn [omap list_omap]. rewrite Hr. cbn [fmap option_fmap option_map].
  destruct n as [|n]; [done|]. cbn [take map].
  destruct (IH ltac:(intros j Hj; apply Hall; by right) n) as [-> Hf]. split; [done|].
  constructor; [by exists r|done].
Qed.

(** The map of the files up to a cursor. *)
Definition found_upto (d : index_db) (a : option Z) (m : gmap str FileRecord) : Prop :=
  forall p record, m !! p = Some record <->
    exists id r, files d !! id = Some r /\ after a id = false /\ f_path r = p /\ record = file_record id r.

Lemma insert_all_lookup {X} (key : X -> str) (l : list X) (m : gmap str X) p x : NoDup (map key l) ->
  fold_left (fun m x => <[key x := x]> m) l m !! p = Some x <->
  (x ∈ l /\ key x = p) \/ ((p ∉ map key l) /\ m !! p = Some x).
Proof.
  revert m. induction l as [|f l IH]; intros m; cbn [fold_left map].
  { intros _. split; [intros Hm; right; split; [apply not_elem_of_nil|done]|].
    intros [[[]%not_elem_of_nil _]|[_ ?]]; done. }
  intros [Hf Hnd]%NoDup_cons. rewrite (IH _ Hnd), elem_of_cons, not_elem_of_cons, lookup_insert_Some. split.
  - intros [[Hin <-]|[Hn [[<- <-]|[Hne Hm]]]]; [left; by split; [right|]|left; by split; [left|]|right]. by split_and!.
  - intros [[[->|Hin] <-]|[[Hne Hn] Hm]]; [right|by left|right].
    + split; [done|by left].
    + split; [done|]. right. by split; [apply not_eq_sym|].
Qed.

Section Existing.
Variable cancelled : string -> nat -> bool.
Variables (d : index_db) (reads : nat -> index_db).
Hypothesis Hd : db_ok d.
Hypothesis reads_same : forall n, reads n = d.

Lemma existing_pages_spec fuel page a m : found_upto d a m ->
  existing_pages cancelled fuel page a m reads = Done (Err Cancelled)
  \/ existing_pages cancelled fuel page a m reads = Done (Ok (existing_of d))
  \/ (existing_pages cancelled fuel page a m reads = NoFuel
      /\ (fuel <= length (List.filter (after a) (file_ids d)))%nat).
Proof.
  revert page a m. induction fuel as [|fuel IH]; intros page a m Hm; [right; right; split; [done|lia]|].
  cbn [existing_pages].
  destruct (cancelled "existing page" page); [by left|]. rewrite reads_same.
  destruct (list_files_page d a EXISTING_PAGE_SIZE) as [Hids Hrows].
  set (l := list_files EXISTING_PAGE_SIZE a d) in *.
  assert (Hlast : record_id <$> last l = last (map record_id l)) by (symmetry; apply (fmap_last record_id)).
  rewrite Hids in Hlast. destruct (last l) as [f|] eqn:El; simpl fmap in Hlast.
  - destruct (cancelled "existing files" page); [by left|]. symmetry in Hlast.
    assert (Hin : forall k, k ∈ map record_id l <-> k ∈ file_ids d /\ after a k = true /\ after (Some (record_id f)) k = false).
    { intros k. rewrite Hids. by apply elem_of_ids_page; [apply file_ids_increasing|]. }
    assert (Hf : after a (record_id f) = true) by (apply Hin; rewrite Hids; by apply last_Some_elem_of).
    rewrite Forall_forall in Hrows.
    assert (Hnd : NoDup (map record_path l)).
    { apply NoDup_fmap_2_strong.
      - intros g h Hg Hh Hp. destruct (Hrows g Hg) as (r & Hr & Er), (Hrows h Hh) as (s & Hs & Es).
        assert (record_id g = record_id h) as Hgh by (eapply (paths_unique d Hd); [done..|]; by rewrite Er, Es in Hp).
        rewrite Er, Es, Hgh in *. congruence.
      - apply (NoDup_fmap_1 record_id). change (NoDup (map record_id l)). rewrite Hids.
        by apply NoDup_take, increasing_NoDup, filter_increasing, file_ids_increasing. }
    set (m' := fold_left _ l m).
    assert (Hm' : found_upto d (Some (record_id f)) m').
    { intros p record. unfold m'. rewrite (insert_all_lookup record_path) by done. split.
      * intros [[Hrec <-]|[Hnot Hrec]].
        -- destruct (Hrows record Hrec) as (r & Hr & Heq). exists (record_id record), r.
           split_and!; [done| |by rewrite Heq|done].
           apply Hin. by apply (list_elem_of_fmap_2 record_id).
        -- apply Hm in Hrec as (id & r & Hr & Ha & <- & ->). exists id, r. split_and!; [done| |done..].
           apply not_true_iff_false. intros Ht. rewrite (after_mono a _ Hf id Ht) in Ha. done.
      * intros (id & r & Hr & Ha & <- & ->). destruct (after a id) eqn:Ea.
        -- left. split; [|done]. assert (id ∈ map record_id l) as (g & -> & Hg)%list_elem_of_fmap.
           { apply Hin. split_and!; [by apply elem_of_file_ids; exists r|done..]. }
           destruct (Hrows g Hg) as (s & Hs & Heq). assert (s = r) as -> by congruence. by rewrite <-Heq.
        -- right. split; [|apply Hm; by exists id, r].
           intros (g & Hp & Hg)%list_elem_of_fmap. destruct (Hrows g Hg) as (s & Hs & Heq).
           assert (record_id g = id) as <-.
           { eapply (paths_unique d Hd); [done..|]. rewrite Hp, Heq. done. }
           assert (after a (record_id g) = true) by (apply Hin; by apply (list_elem_of_fmap_2 record_id)). congruence. }
    destruct (IH (S page) (Some (record_id f)) m' Hm') as [?|[?|[? Hle]]]; [by left|by right; left|right; right].
    split; [done|]. rewrite <-(after_after a) in Hle by done.
    rewrite (after_increasing _ (bounded_limit EXISTING_PAGE_SIZE) (record_id f)) in Hle;
      [|apply filter_increasing, file_ids_increasing|done].
    rewrite length_drop in Hle. destruct (List.filter _ _); [done|]. cbn [length] in *. rewrite existing_page_size in Hle. lia.
  - right. left. f_equal. f_equal. symmetry in Hlast. apply last_None in Hlast. apply map_eq. intros p.
    apply option_eq. intros record. rewrite (Hm p record), existing_of_spec by done.
    assert (Hnone : forall id r, files d !! id = Some r -> after a id = false).
    { intros id r Hr. apply not_true_iff_false. intros Ha.
      assert (In id (List.filter (after a) (file_ids d))) as Hin.
      { apply filter_In. split; [|done]. apply list_elem_of_In, elem_of_file_ids. by exists r. }
      destruct (List.filter _ _); [done|]. done. }
    split; intros (id & r & Hr & Hrest); exists id, r; [|split_and!; [done|by eapply Hnone|apply Hrest..]].
    by destruct Hrest as (_ & ? & ?).
Qed.

Lemma existing_files_spec fuel :
  existing_files cancelled fuel reads = Done (Err Cancelled)
  \/ existing_files cancelled fuel reads = Done (Ok (existing_of d))
  \/ (existing_files cancelled fuel reads = NoFuel /\ (fuel <= size (files d))%nat).
Proof.
  destruct (existing_pages_spec fuel 0 None ∅) as [?|[?|[? Hle]]]; [|by left|by right; left|right; right].
  - intros p record. rewrite lookup_empty. split; [done|]. by intros (id & r & _ & ? & _).
  - split; [done|]. etrans; [exact Hle|]. etrans; [apply filter_length_le|]. unfold file_ids, sort_keys.
    by rewrite merge_sort_Permutation, length_fmap, length_map_to_list.
Qed.
End Existing.

(** ** What a stage holds *)
Definition stage_files (s : PreparedReconciliation) : list (IndexedFile * Z) := staged_files s ++ replacements s.
Definition stage_removed (s : PreparedReconciliation) : gset str := list_to_set (staged_removals s ++ removals s).

Lemma insert_stage_files_app rows l rows' : insert_stage_files rows l = Ok rows' -> rows' = rows ++ l.
Proof.
  revert rows. induction l as [|[file tokens] l IH]; cbn [insert_stage_files]; intros rows.
  { intros [= <-]. by rewrite app_nil_r. }
  unfold insert_stage_file. repeat (case_match; [done|]). cbn [result_bind]. intros Hrows%IH.
  by rewrite <-app_assoc in Hrows.
Qed.

Lemma insert_removal_set l rows : list_to_set (fold_left insert_removal l rows) =@{gset str} list_to_set rows ∪ list_to_set l.
Proof.
  revert rows. induction l as [|p l IH]; intros rows; cbn [fold_left list_to_set]; [by rewrite (right_id_L ∅ (∪))|].
  rewrite IH, (assoc_L (∪)). f_equal. unfold insert_removal. case_bool_decide as Hp.
  - rewrite (comm_L (∪)). symmetry. by apply subseteq_union_1_L, singleton_subseteq_l, elem_of_list_to_set.
  - rewrite list_to_set_app_L. cbn [list_to_set]. by rewrite (right_id_L ∅ (∪)).
Qed.

Lemma sort_keys_set (l : list str) : list_to_set (sort_keys l) =@{gset str} list_to_set l.
Proof. apply set_eq. intros p. rewrite !elem_of_list_to_set. unfold sort_keys. by rewrite merge_sort_Permutation. Qed.

Lemma flush_holds s s' : flush s = Ok s' -> stage_files s' = stage_files s /\ stage_removed s' = stage_removed s
  /\ replacements s' = [] /\ removals s' = [].
Proof.
  unfold flush, stage_files, stage_removed. destruct s as [reps rems srems sfiles]. cbn.
  assert (Hgen : (let* rows := insert_stage_files sfiles reps in
      Ok (mk_stage [] [] (fold_left insert_removal (sort_keys rems) srems) rows)) = Ok s' ->
    staged_files s' ++ replacements s' = sfiles ++ reps /\
    list_to_set (staged_removals s' ++ removals s') =@{gset str} list_to_set (srems ++ rems)
    /\ replacements s' = [] /\ removals s' = []).
  { destruct (insert_stage_files sfiles reps) as [rows|] eqn:E; [|done]. intros [= <-]. cbn.
    apply insert_stage_files_app in E as ->. rewrite !app_nil_r, insert_removal_set, sort_keys_set, list_to_set_app_L.
    done. }
  by destruct reps, rems.
Qed.

Lemma stage_removals_holds paths s s' : stage_removals paths s = Ok s' ->
  stage_files s' = stage_files s /\ stage_removed s' = list_to_set paths ∪ stage_removed s.
Proof.
  revert s. induction paths as [|p paths IH]; cbn [stage_removals]; intros s.
  { intros [= <-]. split; [done|]. cbn. by rewrite (left_id_L ∅ (∪)). }
  set (s1 := stage_removal p s).
  assert (H1 : stage_files s1 = stage_files s /\ stage_removed s1 = {[ p ]} ∪ stage_removed s).
  { split; [done|]. unfold stage_removed, s1. cbn [staged_removals removals stage_removal].
    rewrite !list_to_set_app_L. cbn [list_to_set]. by rewrite (right_id_L ∅ (∪)), (assoc_L (∪)), (comm_L (∪) {[ p ]}). }
  destruct H1 as [Hf1 Hr1].
  assert (Hfinish : forall s2, stage_files s2 = stage_files s1 -> stage_removed s2 = stage_removed s1 ->
    stage_removals paths s2 = Ok s' ->
    stage_files s' = stage_files s /\ stage_removed s' = list_to_set (p :: paths) ∪ stage_removed s).
  { intros s2 Hf2 Hr2 H2%IH. destruct H2 as [-> ->]. split; [congruence|]. rewrite Hr2, Hr1. cbn [list_to_set].
    by rewrite (assoc_L (∪)), (comm_L (∪) (list_to_set paths)). }
  destruct (_ <=? _); [|by apply Hfinish].
  destruct (flush s1) as [s2|] eqn:E; [|done]. cbn [result_bind]. destruct (flush_holds s1 s2 E) as (? & ? & _ & _).
  by apply Hfinish.
Qed.

(** ** Applying a stage *)
Definition stage_updates (tok : string) (s : PreparedReconciliation) : list update :=
  map Delete (staged_removals s) ++ map (fun x => Replace x.1 (tok, x.2)) (staged_files s).

Lemma perform_updates_app us1 us2 w :
  perform_updates (us1 ++ us2) w = let* w := perform_updates us1 w in perform_updates us2 w.
Proof.
  revert w. induction us1 as [|u us1 IH]; intros w; cbn [app perform_updates]; [done|].
  destruct (perform_update u w); cbn [result_bind]; [apply IH|done].
Qed.

Lemma apply_stage_updates tok s w : apply_stage tok s w = perform_updates (stage_updates tok s) w.
Proof.
  unfold apply_stage, stage_updates. rewrite perform_updates_app.
  assert (Hdel : forall l w, perform_updates (map Delete l) w = Ok (fold_left (fun w path => Publication.delete path w) l w)).
  { induction l as [|p l IH]; intros w0; [done|]. cbn [map perform_updates perform_update result_bind fold_left]. apply IH. }
  rewrite Hdel. cbn [result_bind]. generalize (fold_left (fun w path => Publication.delete path w) (staged_removals s) w).
  induction (staged_files s) as [|[file tokens] l IH]; intros w0; [done|].
  cbn [map replace_all perform_updates perform_update fst snd].
  destruct (replace file (tok, tokens) w0); cbn [result_bind]; [apply IH|done].
Qed.

Lemma model_updates_app mode us1 us2 s : model_updates mode (us1 ++ us2) s = model_updates mode us2 (model_updates mode us1 s).
Proof. apply fold_left_app. Qed.

(** Deletions of a reconciliation, none of them recorded before with its path still there. *)
Lemma model_deletes l m seen p : (forall q, q ∈ seen -> m !! q = None) ->
  (p ∈ l -> (model_updates ReconcileMode (map Delete l) (m, seen)).1 !! p = None)
  /\ ((p ∉ l) -> (model_updates ReconcileMode (map Delete l) (m, seen)).1 !! p = m !! p).
Proof.
  revert m seen. induction l as [|q l IH]; intros m seen Hseen; [by split; [intros ?%elem_of_nil|]|].
  unfold model_updates in *. cbn [map fold_left model_update]. rewrite orb_false_r.
  set (m1 := if bool_decide (q ∈ seen) then m else base.delete q m).
  assert (Hq : m1 !! q = None /\ forall x, x <> q -> m1 !! x = m !! x).
  { unfold m1. destruct (bool_decide_reflect (q ∈ seen)) as [Hq|Hq]; [by split; [apply Hseen|]|].
    split; [apply lookup_delete_eq|]. intros x Hx. by rewrite lookup_delete_ne. }
  destruct Hq as [Hq Hother]. destruct (IH m1 ({[ q ]} ∪ seen)) as [IH1 IH2].
  { intros x [->%elem_of_singleton|Hx]%elem_of_union; [done|].
    destruct (decide (x = q)) as [->|Hne]; [done|]. rewrite Hother by done. by apply Hseen. }
  split.
  - intros Hp. destruct (decide (p ∈ l)) as [Hl|Hl]; [by apply IH1|]. rewrite IH2 by done.
    by apply elem_of_cons in Hp as [->|].
  - intros [Hne Hl]%not_elem_of_cons. rewrite IH2 by done. by apply Hother.
Qed.

Lemma model_deletes_rebuild l m seen : (model_updates Rebuild (map Delete l) (m, seen)).1 = m.
Proof.
  revert seen. induction l as [|q l IH]; intros seen; [done|].
  unfold model_updates in *. cbn [map fold_left model_update]. rewrite orb_true_r. apply IH.
Qed.

Lemma model_replaces mode tok l m seen p : NoDup (map (fun x => indexed_path x.1) l) ->
  (model_updates mode (map (fun x => Replace x.1 (tok, x.2)) l) (m, seen)).1 !! p
  = match List.find (fun x => bool_decide (indexed_path x.1 = p)) l with
    | Some x => Some (file_contents x.1 (tok, x.2))
    | None => m !! p
    end.
Proof.
  revert m. induction l as [|[file tokens] l IH]; intros m; [done|]. cbn [map]. intros [Hn Hnd]%NoDup_cons.
  unfold model_updates in *. cbn [map fold_left model_update fst snd List.find]. rewrite (IH _ Hnd).
  case_bool_decide as Hp.
  - destruct (List.find _ l) as [x|] eqn:Ef.
    + apply find_some in Ef as [Hin%list_elem_of_In Hx%bool_decide_eq_true]. destruct Hn. cbn. rewrite Hp, <-Hx.
      by apply (list_elem_of_fmap_2 (fun x => indexed_path x.1)).
    + by rewrite Hp, lookup_insert_eq.
  - destruct (List.find _ l); [done|]. by rewrite lookup_insert_ne.
Qed.

(** ** The go.mod index *)
Definition go_module (dk : disk) (p : str) : option str :=
  if is_go_mod_path p
  then match read_bounded dk p MAX_GO_MOD_BYTES with
       | ReadBytes bytes => parse_module_directive (from_utf8_lossy bytes)
       | _ => None
       end
  else None.
Definition modules_of (dk : disk) (paths : gset str) : GoModuleIndex :=
  omap (go_module dk) (set_to_map (fun p => (p, p)) paths).

Lemma modules_of_lookup dk paths p :
  modules_of dk paths !! p = if bool_decide (p ∈ paths) then go_module dk p else None.
Proof.
  unfold modules_of. rewrite lookup_omap.
  destruct (set_to_map (fun p => (p, p)) paths !! p) as [q|] eqn:E; cbn.
  - apply (lookup_set_to_map (fun p : str => (p, p))) in E as (x & Hx & [= -> ->]); [|by intros].
    by rewrite bool_decide_eq_true_2.
  - case_bool_decide as Hp; [|done]. exfalso.
    assert (set_to_map (M := gmap str str) (fun p => (p, p)) paths !! p = Some p) as Hs; [|congruence].
    apply (lookup_set_to_map (fun p : str => (p, p))); [by intros|by exists p].
Qed.

Lemma load_modules_spec cancelled site dk n l ms ms' : load_modules cancelled site dk n l ms = Ok ms' ->
  forall p, ((p ∉ l) -> ms' !! p = ms !! p)
  /\ (p ∈ l -> ms' !! p = (match go_module dk p with Some x => Some x | None => ms !! p end)
        /\ (is_go_mod_path p = true -> forall message, dk p <> FileError false message)).
Proof.
  revert n ms. induction l as [|q l IH]; cbn [load_modules]; intros n ms.
  { intros [= <-] p. split; [done|by intros ?%elem_of_nil]. }
  destruct (check_cancelled cancelled site n) as [[]|]; cbn [result_bind]; [|done]. intros H p.
  assert (Hstep : exists ms1 n1, load_modules cancelled site dk n1 l ms1 = Ok ms'
    /\ (forall x, x <> q -> ms1 !! x = ms !! x)
    /\ ms1 !! q = (match go_module dk q with Some x => Some x | None => ms !! q end)
    /\ (is_go_mod_path q = true -> forall message, dk q <> FileError false message)).
  { unfold go_module, read_bounded in *. destruct (is_go_mod_path q); cbn [negb] in H; [|by exists ms, (S n)].
    destruct (dk q) as [bytes|[] message]; [|by exists ms, (S n)|done].
    destruct (read_bounded_file bytes MAX_GO_MOD_BYTES) as [content| |nf message].
    - destruct (parse_module_directive (from_utf8_lossy content)) as [m|].
      + exists (<[q := m]> ms), (S n). split_and!; [done| |apply lookup_insert_eq|done].
        intros x Hx. by rewrite lookup_insert_ne.
      + by exists ms, (S n).
    - by exists ms, (S n).
    - destruct nf; [|done]. by exists ms, (S n). }
  destruct Hstep as (ms1 & n1 & H1 & Hne & Hq & Hdk). destruct (IH _ _ H1 p) as [IHn IHp]. split.
  - intros [Hp Hl]%not_elem_of_cons. by rewrite IHn, Hne.
  - intros Hin. destruct (decide (p ∈ l)) as [Hl|Hl].
    + destruct (IHp Hl) as [-> ?]. split; [|done]. destruct (go_module dk p) eqn:Eg; [done|].
      destruct (decide (p = q)) as [->|Hpq]; [by rewrite Hq, Eg|by apply Hne].
    + apply elem_of_cons in Hin as [->|]; [|done]. by rewrite IHn, Hq.
Qed.

Lemma GoModuleIndex_load_spec cancelled site dk paths go : GoModuleIndex_load cancelled site dk paths = Ok go ->
  go = modules_of dk paths
  /\ forall p, p ∈ paths -> is_go_mod_path p = true -> forall message, dk p <> FileError false message.
Proof.
  intros H. pose proof (load_modules_spec _ _ _ _ _ _ _ H) as Hspec. split.
  - apply map_eq. intros p. rewrite modules_of_lookup. destruct (Hspec p) as [Hn Hp].
    rewrite elem_of_elements in Hn, Hp. case_bool_decide as Hin.
    + destruct (Hp Hin) as [-> _]. by destruct (go_module dk p).
    + by rewrite Hn.
  - intros p Hin. apply (Hspec p). by apply elem_of_elements.
Qed.

(** ** Preparing the candidates *)
Definition prepared_path (x : PreparedFile) : str :=
  match x with
  | Indexed file _ _ => indexed_path file
  | PreparedBinary path => path
  | Oversized path => path
  | Failed path _ => path
  end.

Section Preparing.
Variable blake3_hex : byte_string -> string.
Variable count_tokens : byte_string -> Z.
Variable parse : str -> byte_string -> result ParseOutput.
Variable language_by_path : str -> option string.
Variable config : IndexerConfig.
Variable cancelled : string -> nat -> bool.
Variable dk : disk.

Abbreviation prepare_file := (Preparation.prepare_file blake3_hex count_tokens parse language_by_path config dk).

Definition prepared_as (f : DiscoveredFile) (x : PreparedFile) : Prop := prepare_file f = Done (Ok x).

Lemma prepared_as_path f x : prepared_as f x -> prepared_path x = relative_path f.
Proof.
  unfold prepared_as, Preparation.prepare_file.
  destruct (read_bounded _ _ _) as [bytes| |nf message]; [|by intros [= <-]..].
  destruct (Text.from_vec _ _ _ _) as [p| |]; [|done..]. destruct (Text.kind p); [|by intros [= <-]].
  destruct (parse_or_warn _ _ _ _) as [parsed|]; cbn; [|done]. by intros [= <-].
Qed.

Lemma prepared_paths fs xs : Forall2 prepared_as fs xs -> map prepared_path xs = map relative_path fs.
Proof. induction 1 as [|f x fs xs Hfx _ IH]; [done|]. cbn. by rewrite (prepared_as_path f x), IH. Qed.

Lemma prepare_file_total f : (0 < chunk_lines config)%nat -> (0 < chunk_bytes config)%nat ->
  exists r, prepare_file f = Done r.
Proof.
  intros Hl Hb. unfold Preparation.prepare_file.
  destruct (read_bounded _ _ _) as [bytes| |nf message]; [|by eexists..].
  destruct (Text.from_vec_total blake3_hex bytes _ _ Hl Hb) as (p & -> & _).
  destruct (Text.kind p); by eexists.
Qed.

Lemma prepare_batch_spec n fs : (0 < chunk_lines config)%nat -> (0 < chunk_bytes config)%nat ->
  exists r, prepare_batch blake3_hex count_tokens parse language_by_path config cancelled dk n fs = Done r
    /\ match r with Ok xs => Forall2 prepared_as fs xs | Err _ => True end.
Proof.
  intros Hl Hb. revert n. induction fs as [|f fs IH]; intros n; cbn [prepare_batch].
  { eexists. split; [done|constructor]. }
  destruct (cancelled "before file" n); [by eexists|].
  destruct (prepare_file_total f Hl Hb) as [r Hr]. rewrite Hr. destruct r as [x|]; [|by eexists].
  destruct (cancelled "after file" n); [by eexists|].
  destruct (IH (S n)) as ([xs|e] & -> & Hxs); eexists; (split; [done|]); cbn; [by constructor|done].
Qed.

Lemma batch_end_loop_bounds fs taken bytes :
  (taken <= batch_end_loop config fs taken bytes <= taken + length fs)%nat.
Proof.
  revert taken bytes. induction fs as [|f fs IH]; intros taken bytes; cbn [batch_end_loop length]; [lia|].
  destruct (_ <? _); [|lia]. destruct (_ <? _); [lia|].
  specialize (IH (S taken) (u64_saturating_add bytes (discovered_size f))). lia.
Qed.

(** A batch is not empty and ends within the candidates. *)
Lemma prepare_batch_end_bounds candidates start : (start < length candidates)%nat ->
  (start < prepare_batch_end config candidates start <= length candidates)%nat.
Proof.
  intros Hs. unfold prepare_batch_end.
  pose proof (batch_end_loop_bounds (drop start candidates) 0 0) as Hb. rewrite length_drop in Hb.
  destruct (Nat.eqb_spec (start + batch_end_loop config (drop start candidates) 0 0) start),
    (Nat.ltb_spec start (length candidates)); cbn; lia.
Qed.

(** The rule of the batch loop: what [consume] keeps of the files so far holds
    at the end of all of them. *)
Lemma batch_loop_rule {S} (consume : nat -> list PreparedFile -> S -> run (result S)) candidates
    (P : list PreparedFile -> S -> Prop) fuel batch start s xs :
  (0 < chunk_lines config)%nat -> (0 < chunk_bytes config)%nat -> NoDup (map relative_path candidates) ->
  (forall batch ys xs s, P xs s -> NoDup (map prepared_path (xs ++ ys)) ->
    exists r, consume batch ys s = Done r /\ match r with Ok s' => P (xs ++ ys) s' | Err _ => True end) ->
  (length candidates - start <= fuel)%nat -> (start <= length candidates)%nat ->
  P xs s -> Forall2 prepared_as (take start candidates) xs ->
  exists r, batch_loop blake3_hex count_tokens parse language_by_path config cancelled consume dk fuel batch candidates start s
      = Done r
    /\ match r with Ok s' => exists xs, Forall2 prepared_as candidates xs /\ P xs s' | Err _ => True end.
Proof.
  intros Hl Hb Hnd Hstep. revert batch start s xs. induction fuel as [|fuel IH]; intros batch start s xs Hfuel Hstart HP Hxs;
    cbn [batch_loop]; destruct (Nat.leb_spec (length candidates) start).
  1,3: eexists; split; [done|]; exists xs; rewrite take_ge in Hxs by done; done.
  { lia. }
  destruct (cancelled "batch" batch); [by eexists|].
  pose proof (prepare_batch_end_bounds candidates start ltac:(done)) as Hend. set (end_ := prepare_batch_end _ _ _) in *.
  destruct (Nat.leb_spec end_ start); [lia|].
  destruct (prepare_batch_spec start (take (end_ - start) (drop start candidates)) Hl Hb) as ([ys|e] & -> & Hys);
    [|by eexists].
  assert (Htake : take end_ candidates = take start candidates ++ take (end_ - start) (drop start candidates)).
  { rewrite <-(take_drop start candidates) at 1. rewrite take_app, length_take, take_take. f_equal; [f_equal; lia|].
    f_equal. lia. }
  assert (Hall : Forall2 prepared_as (take end_ candidates) (xs ++ ys)) by (rewrite Htake; by apply Forall2_app).
  pose proof (prepared_paths _ _ Hall) as Hpaths.
  destruct (Hstep batch ys xs s HP) as ([s'|e] & -> & HP').
  { rewrite Hpaths, <-firstn_map. by apply NoDup_take. }
  - apply (IH _ _ _ (xs ++ ys)); [lia|lia|done|done].
  - by eexists.
Qed.

Lemma prepare_batches_rule {S} (consume : nat -> list PreparedFile -> S -> run (result S)) pool candidates
    (P : list PreparedFile -> S -> Prop) s :
  (0 < chunk_lines config)%nat -> (0 < chunk_bytes config)%nat -> NoDup (map relative_path candidates) ->
  (forall batch ys xs s, P xs s -> NoDup (map prepared_path (xs ++ ys)) ->
    exists r, consume batch ys s = Done r /\ match r with Ok s' => P (xs ++ ys) s' | Err _ => True end) ->
  P [] s ->
  exists r, prepare_candidate_batches blake3_hex count_tokens parse language_by_path config cancelled consume dk pool
      candidates s = Done r
    /\ match r with Ok s' => exists xs, Forall2 prepared_as candidates xs /\ P xs s' | Err _ => True end.
Proof.
  intros Hl Hb Hnd Hstep HP. unfold prepare_candidate_batches. destruct (check_cancelled _ _ _); [|by eexists].
  destruct candidates as [|f fs] eqn:Ec; [eexists; split; [done|]; by exists []|].
  destruct pool; [|by eexists]. rewrite <-Ec in *.
  apply (batch_loop_rule consume candidates P _ _ _ _ []); try done; lia.
Qed.
End Preparing.

(** ** Consuming the batches of a full reconciliation *)

(** The indexed files of the results, with their token counts. *)
Definition indexed_of (x : PreparedFile) : option (IndexedFile * Z) :=
  match x with Indexed file tokens _ => Some (file, tokens) | _ => None end.
(** The files of the results whose old rows go. *)
Definition dropped_of (existing : gmap str FileRecord) (x : PreparedFile) : option str :=
  match x with
  | PreparedBinary path | Oversized path => if bool_decide (is_Some (existing !! path)) then Some path else None
  | _ => None
  end.
Definition dropped (existing : gmap str FileRecord) (xs : list PreparedFile) : gset str :=
  list_to_set (omap (dropped_of existing) xs).
Definition staged_entry (go_modules : GoModuleIndex) (sorted_paths : list str) (x : IndexedFile * Z) : IndexedFile * Z :=
  (resolve_file go_modules sorted_paths x.1, x.2).

Lemma dropped_app existing xs ys : dropped existing (xs ++ ys) = dropped existing xs ∪ dropped existing ys.
Proof. unfold dropped. by rewrite omap_app, list_to_set_app_L. Qed.

Section Consuming.
Variable existing : gmap str FileRecord.
Variables (go_modules : GoModuleIndex) (sorted_paths : list str).
(** The paths that were removed without being staged. *)
Variable base : gset str.

(** What is known of the state after the results [xs], from the state [s0]. *)
Record consumed (s0 : full_state) (xs : list PreparedFile) (s : full_state) : Prop := {
  consumed_files : stage_files (staged s)
    = stage_files (staged s0) ++ map (staged_entry go_modules sorted_paths) (omap indexed_of xs);
  consumed_removed : removed s = dropped existing xs ∪ removed s0;
  consumed_stage : stage_removed (staged s) ∪ base = removed s
}.

Lemma drop_existing_spec path rem st : stage_removed st ∪ base = rem ->
  let x := drop_existing existing path rem st in
  x.1 = (if bool_decide (is_Some (existing !! path)) then {[ path ]} ∪ rem else rem)
  /\ stage_removed x.2 ∪ base = x.1 /\ stage_files x.2 = stage_files st.
Proof.
  intros <-. unfold drop_existing. destruct (bool_decide (is_Some (existing !! path))); cbn [andb]; [|done].
  destruct (bool_decide_reflect (path ∈ stage_removed st ∪ base)) as [Hin|Hin]; cbn.
  - split_and!; [|done|done]. symmetry. by apply subseteq_union_1_L, singleton_subseteq_l.
  - split_and!; [done| |done]. unfold stage_removed, stage_removal. cbn.
    rewrite !list_to_set_app_L. cbn [list_to_set]. rewrite (right_id_L ∅ (∪)), (assoc_L (∪) _ _ {[ path ]}).
    by rewrite (comm_L (∪) _ {[ path ]}), <-(assoc_L (∪) {[ path ]}).
Qed.

(** The results of a batch before they are staged. *)
Lemma absorb_all ys s idx counts : stage_removed (staged s) ∪ base = removed s ->
  let '(s', idx', counts') := fold_left (absorb existing) ys (s, idx, counts) in
  stage_files (staged s') = stage_files (staged s) /\ removed s' = dropped existing ys ∪ removed s
  /\ stage_removed (staged s') ∪ base = removed s' /\ idx' = idx ++ map fst (omap indexed_of ys)
  /\ (forall p, (p ∉ map prepared_path ys) -> counts' !! p = counts !! p)
  /\ (NoDup (map prepared_path ys) -> forall x, x ∈ omap indexed_of ys -> counts' !! indexed_path x.1 = Some x.2).
Proof.
  revert s idx counts. induction ys as [|y ys IH]; intros s idx counts Hs; cbn [fold_left].
  { split_and!; [done| |done| |done|]; cbn; [by rewrite (left_id_L ∅ (∪))|by rewrite app_nil_r|].
    by intros _ x ?%elem_of_nil. }
  destruct (absorb existing (s, idx, counts) y) as [[s1 idx1] counts1] eqn:E.
  assert (H1 : stage_files (staged s1) = stage_files (staged s) /\ removed s1 = dropped existing [y] ∪ removed s
    /\ stage_removed (staged s1) ∪ base = removed s1 /\ idx1 = idx ++ map fst (omap indexed_of [y])
    /\ (forall p, p <> prepared_path y -> counts1 !! p = counts !! p)
    /\ (forall x, indexed_of y = Some x -> counts1 !! indexed_path x.1 = Some x.2)).
  { unfold dropped. destruct y as [file tokens warn|path|path|path message]; cbn in E; injection E as <- <- <-;
      cbn [staged removed omap list_omap indexed_of dropped_of map prepared_path list_to_set].
    - split_and!; [done|by rewrite (left_id_L ∅ (∪))|done|done| |].
      + intros p Hp. by rewrite lookup_insert_ne.
      + intros x [= <-]. apply lookup_insert_eq.
    - destruct (drop_existing_spec path (removed s) (staged s) Hs) as (-> & Hst & Hf).
      rewrite Hf, Hst. split_and!; [done| |done|by rewrite app_nil_r|done|done].
      destruct (bool_decide _); cbn [list_to_set]; [by rewrite (right_id_L ∅ (∪))|by rewrite (left_id_L ∅ (∪))].
    - destruct (drop_existing_spec path (removed s) (staged s) Hs) as (-> & Hst & Hf).
      rewrite Hf, Hst. split_and!; [done| |done|by rewrite app_nil_r|done|done].
      destruct (bool_decide _); cbn [list_to_set]; [by rewrite (right_id_L ∅ (∪))|by rewrite (left_id_L ∅ (∪))].
    - split_and!; [done|by rewrite (left_id_L ∅ (∪))|done|by rewrite app_nil_r|done|done]. }
  destruct H1 as (F1 & R1 & S1 & I1 & C1 & D1). specialize (IH s1 idx1 counts1 S1).
  destruct (fold_left (absorb existing) ys (s1, idx1, counts1)) as [[s' idx'] counts'].
  destruct IH as (F & R & S & I & C & D). change (y :: ys) with ([y] ++ ys). rewrite dropped_app, omap_app.
  split_and!.
  - congruence.
  - rewrite R, R1, (assoc_L (∪)). by rewrite (comm_L (∪) (dropped existing ys)).
  - done.
  - by rewrite I, I1, map_app, app_assoc.
  - intros p [Hp Hys]%not_elem_of_cons. by rewrite C, C1.
  - intros [Hn Hnd]%NoDup_cons x [Hx|Hx]%elem_of_app; [|by apply D].
    assert (indexed_of y = Some x) as Hy.
    { cbn in Hx. destruct (indexed_of y) as [z|]; [|by apply elem_of_nil in Hx].
      by apply list_elem_of_singleton in Hx as ->. }
    assert (indexed_path x.1 = prepared_path y) as Hp by (destruct y; [|done..]; by injection Hy as <-).
    rewrite C by by rewrite Hp. by apply D1.
Qed.

Lemma stage_indexed_spec pairs counts st : NoDup (map (fun x => indexed_path x.1) pairs) ->
  (forall x, x ∈ pairs -> counts !! indexed_path x.1 = Some x.2) ->
  exists st', stage_indexed_files (map fst pairs) counts st = Done st'
    /\ stage_files st' = stage_files st ++ pairs /\ stage_removed st' = stage_removed st.
Proof.
  revert counts st. induction pairs as [|[f t] pairs IH]; intros counts st; cbn [map stage_indexed_files].
  { intros _ _. exists st. by rewrite app_nil_r. }
  intros [Hn Hnd]%NoDup_cons Hc. cbn [fst] in *. assert (counts !! indexed_path f = Some t) as -> by (apply (Hc (f, t)); by left).
  destruct (IH (base.delete (indexed_path f) counts) (stage_indexed f t st) Hnd) as (st' & -> & Hf & Hr).
  { intros x Hx. rewrite lookup_delete_ne; [apply Hc; by right|].
    intros Hp. apply Hn. rewrite Hp. by apply (list_elem_of_fmap_2 (fun x => indexed_path x.1)). }
  exists st'. split; [done|]. split; [|done]. rewrite Hf. unfold stage_files. cbn. by rewrite <-!app_assoc.
Qed.

Lemma resolve_path go_modules' sorted_paths' f : indexed_path (resolve_file go_modules' sorted_paths' f) = indexed_path f.
Proof. done. Qed.

Lemma omap_indexed_paths xs : map (fun x => indexed_path x.1) (omap indexed_of xs) `sublist_of` map prepared_path xs.
Proof.
  induction xs as [|x xs IH]; [done|]. cbn. destruct x; cbn; by constructor.
Qed.

Lemma consume_step cancelled s0 xs ys batch s : consumed s0 xs s -> NoDup (map prepared_path (xs ++ ys)) ->
  exists r, consume cancelled existing go_modules sorted_paths batch ys s = Done r
    /\ match r with Ok s' => consumed s0 (xs ++ ys) s' | Err _ => True end.
Proof.
  intros [Cf Cr Cs] Hnd. unfold consume. destruct (check_cancelled cancelled "consume" batch); [|by eexists].
  pose proof (absorb_all ys s [] ∅ Cs) as Habs.
  destruct (fold_left (absorb existing) ys (s, [], ∅)) as [[s1 idx] counts].
  destruct Habs as (F1 & R1 & S1 & -> & _ & C1). cbn [app].
  unfold resolve_imports. destruct (check_cancelled cancelled "resolve imports" batch); cbn [result_bind]; [|by eexists].
  destruct (check_cancelled cancelled "stage" batch); [|by eexists].
  rewrite map_app in Hnd. apply NoDup_app in Hnd as (_ & _ & Hnd).
  set (pairs := map (staged_entry go_modules sorted_paths) (omap indexed_of ys)).
  assert (Hpairs : map (resolve_file go_modules sorted_paths) (map fst (omap indexed_of ys)) = map fst pairs).
  { unfold pairs. rewrite !map_map. by apply map_ext. }
  destruct (stage_indexed_spec pairs counts (staged s1)) as (st & Hst & Hf & Hr).
  { unfold pairs. rewrite map_map. eapply sublist_NoDup; [exact Hnd|]. apply omap_indexed_paths. }
  { intros x (y & -> & Hy)%list_elem_of_fmap. cbn. by apply C1. }
  rewrite Hpairs, Hst. destruct (flush st) as [st'|] eqn:Ef; cbn [result_bind]; eexists; (split; [done|]); [|done].
  destruct (flush_holds st st' Ef) as (Ff & Fr & _). split; cbn.
  - rewrite Ff, Hf, F1, Cf, omap_app, map_app. by rewrite <-app_assoc.
  - rewrite R1, Cr, dropped_app, (assoc_L (∪)). by rewrite (comm_L (∪) (dropped existing ys)).
  - by rewrite Fr, Hr, S1.
Qed.
End Consuming.
