(* ===== verification/FullIndex.v ===== *)
(** * Full reconciliation indexes the disk

    What [reconcile_once] of [src/src/indexer/orchestrator.rs] leaves in the
    database: for every discovered file the contents its bytes stand for, nothing
    for any other path, and import projections that are those the resolver gives
    for the files of the index.  Other processes may publish while it runs. *)

From S2P Require Import Prelude Chars Order Store Paths StdPath ImportResolution Discovery IndexDb.
From S2P Require Import Publication IndexModel ProjectionRepair Preparation Indexer IndexerFacts.
From S2P Require Text.
Open Scope Z_scope.
Open Scope store_scope.

(** ** Databases that evolve by publications *)
Record valid (d : index_db) : Prop := {
  valid_ok : db_ok d;
  valid_fts : fts_ok d;
  valid_generation : 0 <= meta_generation d
}.

(** A publication of any process, whatever its outcome. *)
Inductive publication_step : relation index_db :=
| publication_step_intro runtime observe A baseline config mode
    (write : ReconciliationWriter -> run (result (A * ReconciliationWriter))) d t :
  (forall w, writer_ok w -> exists r, write w = Done r /\ forall a w', r = Ok (a, w') -> writes w w') ->
  publish_reconciliation runtime observe baseline config mode write d = Done t ->
  publication_step d (run_tx d t).1.
Definition evolves : relation index_db := rtc publication_step.

Lemma publication_step_spec d d' : valid d -> publication_step d d' ->
  valid d' /\ (d' = d \/ meta_generation d' = meta_generation d + 1).
Proof.
  intros [Hd Hf Hg] Hstep. destruct Hstep as [runtime observe A baseline config mode write d t Hw Ht].
  destruct (publish_spec runtime observe baseline config mode write d Hd Hf Hg Hw) as (t' & Ht' & Hres).
  assert (t' = t) as -> by congruence. destruct (run_tx d t) as [d' r]. destruct Hres as (Hd' & Hf' & _ & Hcase). cbn.
  assert (d' = d \/ meta_generation d' = meta_generation d + 1) as Hor.
  { destruct r as [[g output]|e]; [|by left]. destruct Hcase as (w & w' & _ & _ & _ & _ & _ & _ & _ & _ & Hcase).
    destruct Hcase as [(-> & Hm & _)|(_ & -> & _)]; [right|by left]. by injection Hm. }
  split; [|done]. split; [done|done|]. destruct Hor as [->| ->]; lia.
Qed.

Lemma evolves_spec d d' : valid d -> evolves d d' ->
  valid d' /\ meta_generation d <= meta_generation d' /\ (meta_generation d' = meta_generation d -> d' = d).
Proof.
  intros Hv He. induction He as [d|d1 d2 d3 Hs _ IH]; [done|].
  destruct (publication_step_spec d1 d2 Hv Hs) as (Hv2 & Hor). destruct (IH Hv2) as (Hv3 & Hle & Heq).
  split; [done|]. destruct Hor as [->|Hg]; [done|]. split; [lia|]. intros H. lia.
Qed.

(** A generation seen again is the same state, and so are those in between. *)
Lemma evolves_between d1 d2 d3 : valid d1 -> evolves d1 d2 -> evolves d2 d3 -> meta d1 = meta d3 ->
  d2 = d1 /\ d3 = d1.
Proof.
  intros Hv H12 H23 Hm. destruct (evolves_spec d1 d2 Hv H12) as (Hv2 & Hle & Heq).
  destruct (evolves_spec d2 d3 Hv2 H23) as (_ & Hle' & Heq'). injection Hm as Hg _ _.
  assert (d2 = d1) as -> by (apply Heq; lia). split; [done|]. apply Heq'. lia.
Qed.

(** ** Reading the existing files returns *)

(** The pages end although the state may change between them, since the cursor grows. *)
Lemma existing_pages_return cancelled (reads : nat -> index_db) (bound : nat) fuel page a m :
  (forall n id, is_Some (files (reads n) !! id) -> 0 < id <= Z.of_nat bound) ->
  match a with Some k => 0 < k /\ (bound - Z.to_nat k < fuel)%nat | None => (bound < fuel)%nat end ->
  exists r, existing_pages cancelled fuel page a m reads = Done r.
Proof.
  intros Hids. revert page a m. induction fuel as [|fuel IH]; intros page a m Ha; [destruct a; lia|].
  cbn [existing_pages]. destruct (cancelled "existing page" page); [by eexists|].
  destruct (list_files_page (reads page) a EXISTING_PAGE_SIZE) as [Hpage _].
  destruct (last (list_files _ _ _)) as [f|] eqn:El; [|by eexists].
  destruct (cancelled "existing files" page); [by eexists|]. apply IH.
  assert (record_id f ∈ take (bounded_limit EXISTING_PAGE_SIZE) (List.filter (after a) (file_ids (reads page)))) as Hin.
  { rewrite <-Hpage. by apply list_elem_of_fmap_2, last_Some_elem_of. }
  apply elem_of_take in Hin as (i & Hi & _). apply list_elem_of_lookup_2, list_elem_of_In, filter_In in Hi as [Hi Hafter].
  apply list_elem_of_In, elem_of_file_ids, Hids in Hi. split; [lia|].
  destruct a as [k|]; cbn in Hafter; lia.
Qed.

(** ** Projections *)

(** Every stored projection is the one the resolver gives for these members and modules. *)
Definition projected_for (membership : gset str) (go_modules : GoModuleIndex) (d : index_db) : Prop :=
  forall k i r, imports d !! k = Some i -> files d !! i_file i = Some r ->
    i = target_row membership
          (import_candidates (f_path r) (i_target i) (sorted_indexed_paths membership) go_modules) i.
(** The projections of a state are right for the go.mod files of a disk. *)
Definition projected (dk : disk) (d : index_db) : Prop := projected_for (members d) (modules_of dk (members d)) d.

(** The imports of a file were resolved under these members and modules. *)
Definition resolved_under (membership : gset str) (go_modules : GoModuleIndex) (f : IndexedFile) : Prop :=
  forall x, x ∈ indexed_imports f -> import_value x
    = derive_import_projection (indexed_path f) (import_target x) (sorted_indexed_paths membership) go_modules.

Lemma resolve_file_resolved membership go_modules f :
  resolved_under membership go_modules (resolve_file go_modules (sorted_indexed_paths membership) f).
Proof. intros x Hx. cbn in Hx. apply list_elem_of_fmap in Hx as (y & -> & _). done. Qed.

(** A stored row whose value was derived is the target row. *)
Lemma derived_row d k i membership go_modules source : db_ok d -> imports d !! k = Some i ->
  stored_value i = derive_import_projection source (i_target i) (sorted_indexed_paths membership) go_modules ->
  i = target_row membership
        (import_candidates source (i_target i) (sorted_indexed_paths membership) go_modules) i.
Proof.
  intros Hd Hi. destruct (imports_keyed d Hd k i Hi) as (cs & _ & Hcs).
  unfold stored_value, derive_import_projection, target_row. rewrite resolve_candidates_first.
  destruct i as [f t r l c]. cbn in *. subst c. rewrite prioritized_paths. intros [= -> ->]. done.
Qed.

Lemma insert_projected triggers file generation tokens d d' membership go_modules : db_ok d ->
  projected_for membership go_modules d -> resolved_under membership go_modules file ->
  insert_file triggers file generation tokens d = Ok d' -> projected_for membership go_modules d'.
Proof.
  intros Hd Hp Hres Hins. pose proof (insert_file_spec triggers file generation tokens d Hd) as Hs.
  rewrite Hins in Hs. destruct Hs as (_ & id & [Hok Hfresh _ Hfiles _ _ _ _ _ Hrows _]).
  intros k i r Hi Hr. destruct (Hrows k i Hi) as [Hold|(Hid & x & Hx & Ht & Hv)].
  - apply (Hp k i r Hold). destruct (imports_owned d Hd k i Hold) as [s Hs].
    rewrite Hfiles in Hr. apply lookup_insert_Some in Hr as [[Heq _]|[_ Hr]]; [congruence|done].
  - rewrite Hid, Hfiles, lookup_insert_eq in Hr. injection Hr as <-. cbn [f_path].
    apply (derived_row d' k); [done|done|]. by rewrite Hv, Ht, Hres.
Qed.

Lemma delete_path_projected triggers path d membership go_modules : db_ok d ->
  projected_for membership go_modules d -> projected_for membership go_modules (delete_path triggers path d).
Proof.
  intros Hd Hp k i r Hi Hr. apply delete_path_imports in Hi as [Hi _]; [|done].
  apply delete_path_files in Hr as [Hr _]; [|done]. by apply (Hp k).
Qed.

(** Replacements only: the projections that were right stay right. *)
Lemma replacements_projected membership go_modules tok l w w' : writer_ok w ->
  projected_for membership go_modules (w_db w) -> Forall (fun x => resolved_under membership go_modules x.1) l ->
  perform_updates (map (fun x => Replace x.1 (tok, x.2)) l) w = Ok w' -> projected_for membership go_modules (w_db w').
Proof.
  intros Hw Hp Hl. revert w Hw Hp. induction Hl as [|[file tokens] l Hx _ IH]; intros w Hw Hp;
    cbn [map perform_updates perform_update fst snd]; [by intros [= <-]|].
  destruct (replace file (tok, tokens) w) as [w1|] eqn:E; cbn [result_bind]; [|done].
  pose proof (replace_step_spec _ _ _ _ Hw E) as [Hw1 _ _ _ _ _]. apply IH; [done|]. unfold replace in E.
  destruct (insert_file _ _ _ _ _) as [d|] eqn:Ei; cbn [result_bind] in E; [|done]. injection E as <-. cbn [w_db].
  eapply insert_projected; [| |exact Hx|exact Ei]; destruct (is_rebuild (w_mode w)); [apply Hw|apply delete_path_ok, Hw|done|].
  apply delete_path_projected; [apply Hw|done].
Qed.

(** ** The closure given to the publication *)
Section Write.
Variable config : IndexerConfig.
Variable cancelled : string -> nat -> bool.
Variable dk : disk.

Lemma derive_candidates_ok call seed membership candidates :
  derive_candidates cancelled dk call seed membership = Ok candidates ->
  candidates = import_candidates (seed_source_path seed) (seed_raw_target seed) (sorted_indexed_paths membership)
                 (modules_of dk membership).
Proof.
  unfold derive_candidates. destruct (check_cancelled cancelled "repair" call); cbn [result_bind]; [|done].
  destruct (GoModuleIndex_load cancelled "repair modules" dk membership) as [go|] eqn:E; cbn [result_bind]; [|done].
  apply GoModuleIndex_load_spec in E as [-> _]. by intros [= <-].
Qed.

Lemma repair_done_represents derive d d' m : repair_done derive d d' -> db_ok d -> represents d m -> represents d' m.
Proof.
  intros [Hok Hrows Hdom Hvals] Hd. apply same_facts_represents; [done|exact Hrows|].
  intros id. apply map_eq. intros k. unfold facts. rewrite !lookup_fmap, !map_lookup_filter.
  destruct (imports d !! k) as [i|] eqn:Ei.
  - destruct (Hvals k i Ei) as (cs & _ & ->). cbn. unfold target_row. cbn. by repeat case_guard.
  - assert (imports d' !! k = None) as ->; [|done]. apply not_elem_of_dom. rewrite Hdom. by apply not_elem_of_dom.
Qed.

Lemma repair_done_projected d d' : db_ok d -> repair_done (derive_candidates cancelled dk) d d' -> projected dk d'.
Proof.
  intros Hd [Hok Hrows Hdom Hvals] k i' r' Hi' Hr'. rewrite (same_rows_members d d') by done.
  assert (is_Some (imports d !! k)) as [i Hi] by (apply elem_of_dom; rewrite <-Hdom; apply elem_of_dom; by exists i').
  destruct (Hvals k i Hi) as (cs & (seed & j & Hseed & call & Hcs & _) & Hrow).
  assert (i' = target_row (members d) cs i) as -> by congruence. clear Hrow Hi'.
  destruct (same_rows_path d d' _ _ Hrows Hr') as (r & Hr & [= Hp _ _]). cbn in Hr.
  pose proof Hseed as Hseed'. unfold seed_of in Hseed'. rewrite Hi, Hr in Hseed'. injection Hseed' as <- <-.
  apply derive_candidates_ok in Hcs. cbn in Hcs. unfold target_row. cbn. by rewrite Hp, <-Hcs.
Qed.

(** What the last part of a closure makes of a writer. *)
Lemma verify_or_repair_spec verified changed_semantics w : writer_ok w ->
  exists r, verify_or_repair_import_projections cancelled verified changed_semantics dk w = Done r /\
  match r with
  | Err _ => True
  | Ok (n, w') => writes w w' /\ (forall m, represents (w_db w) m -> represents (w_db w') m)
      /\ ((changed_semantics = false /\ verified = true /\ w' = w) \/ projected dk (w_db w'))
  end.
Proof.
  intros Hw. unfold verify_or_repair_import_projections. destruct (negb changed_semantics && verified) eqn:Ev.
  - eexists. split; [done|]. split_and!; [done..|]. left. by destruct changed_semantics, verified.
  - destruct (repair_spec (derive_candidates cancelled dk) w (writer_db _ Hw)) as (r & Hr & Hres).
    exists r. split; [done|]. destruct r as [[n w']|]; [|done]. destruct Hres as (Hdone & _ & _ & Hws).
    split_and!; [done| |right].
    + intros m. by eapply repair_done_represents, (writer_db _ Hw).
    + eapply repair_done_projected; [apply (writer_db _ Hw)|done].
Qed.

(** What the closure makes of a writer. *)
Lemma write_full_spec verified changed_semantics s w : writer_ok w ->
  exists r, write_full config cancelled verified changed_semantics dk s w = Done r /\
  match r with
  | Err _ => True
  | Ok (n, w') => exists w1, perform_updates (stage_updates (tokenizer config) (staged s)) w = Ok w1 /\ writes w w'
      /\ (forall m, represents (w_db w1) m -> represents (w_db w') m)
      /\ ((changed_semantics = false /\ verified = true /\ w' = w1) \/ projected dk (w_db w'))
  end.
Proof.
  intros Hw. unfold write_full. destruct (apply_stage _ _ w) as [w1|] eqn:E; [|by eexists].
  pose proof (apply_stage_writes _ _ _ _ E) as Hw1. rewrite apply_stage_updates in E.
  pose proof (writes_spec _ _ Hw Hw1) as [Hok1 _ _ _ _ _].
  destruct (verify_or_repair_spec verified changed_semantics w1 Hok1) as (r & Hr & Hres). exists r. split; [done|].
  destruct r as [[n w']|]; [|done]. destruct Hres as (Hws & Hm & Hcase). exists w1. split_and!; [done|by etrans|done..].
Qed.

Lemma write_full_writes verified changed_semantics s w : writer_ok w ->
  exists r, write_full config cancelled verified changed_semantics dk s w = Done r
    /\ forall a w', r = Ok (a, w') -> writes w w'.
Proof.
  intros Hw. destruct (write_full_spec verified changed_semantics s w Hw) as (r & Hr & Hres). exists r. split; [done|].
  intros a w' ->. by destruct Hres as (w1 & _ & ? & _).
Qed.
End Write.

(** ** Publishing a stage *)

(** What a publication that succeeds has in the database, without its writer. *)
Lemma published_state runtime {A} config_hash mode (write : ReconciliationWriter -> run (result (A * ReconciliationWriter)))
    d d' g output : published runtime config_hash mode write d d' g output ->
  exists w w', write w = Done (Ok (output, w')) /\ writer_ok w /\ w_mode w = mode /\ w_deletions w = ∅
    /\ w_db w = (if is_rebuild mode then delete_all d else d)
    /\ meta d' = mk_meta g config_hash runtime /\ files d' = files (w_db w') /\ imports d' = imports (w_db w').
Proof.
  intros (w & w' & Hw & Hok & Hmode & Hdel & _ & Hstart & _ & _ & Hcase). exists w, w'. split_and!; [done..| | |].
  - destruct Hcase as [(_ & ? & _)|(-> & -> & _ & _ & -> & ->)]; done.
  - destruct Hcase as [(_ & _ & ? & _)|(_ & -> & -> & Hm & _)]; [done|]. rewrite Hstart. by rewrite Hm.
  - destruct Hcase as [(_ & _ & _ & ? & _)|(_ & -> & -> & Hm & _)]; [done|]. rewrite Hstart. by rewrite Hm.
Qed.

Lemma same_files_members d d' : files d' = files d -> members d' = members d.
Proof. unfold members. by intros ->. Qed.

Lemma same_tables_projected dk d d' : files d' = files d -> imports d' = imports d -> projected dk d -> projected dk d'.
Proof. unfold projected, projected_for, members. by intros -> ->. Qed.

Lemma same_tables_represents d d' m : files d' = files d -> imports d' = imports d -> db_ok d' -> represents d m ->
  represents d' m.
Proof.
  intros Hf Hi Hd. apply same_facts_represents; [done|by rewrite Hf|]. unfold facts. by rewrite Hi.
Qed.

(** ** What the disk says of a file *)
Section Disk.
Variable blake3_hex : byte_string -> string.
Variable count_tokens : byte_string -> Z.
Variable parse : str -> byte_string -> result ParseOutput.
Variable language_by_path : str -> option string.
Variable config : IndexerConfig.

Abbreviation prepared_as := (IndexerFacts.prepared_as blake3_hex count_tokens parse language_by_path config).

(** Contents without the modification time, which is not part of a file's identity. *)
Definition unstamped (c : contents) : contents :=
  let k := c_columns c in
  mk_contents (mk_columns (language k) (structurally_complete k) (size_bytes k) None (content_hash k) (chunks k)
                 (symbols k) (references k)) (c_tokens c) (c_facts c).
Definition contents_of (file : IndexedFile) (tokens : Z) : contents := file_contents file (tokenizer config, tokens).

(** Every stored file was prepared from these disk contents. *)
Definition index_of (dk : disk) (m : index_model) : Prop :=
  forall p c, m !! p = Some c -> exists f file tokens warn, relative_path f = p
    /\ prepared_as dk f (Indexed file tokens warn) /\ unstamped c = unstamped (contents_of file tokens).

(** What the index has for a file that discovery found, [old] being what it had:
    what preparing its bytes gives, or the old contents where it cannot be read. *)
Definition indexed_as (dk : disk) (old now : option contents) (f : DiscoveredFile) : Prop :=
  exists x, prepared_as dk f x /\
    match x with
    | Indexed file tokens _ => exists c, now = Some c /\ unstamped c = unstamped (contents_of file tokens)
    | PreparedBinary _ | Oversized _ => now = None
    | Failed _ _ => now = old
    end.

(** The preparation cannot read the file. *)
Definition unreadable (dk : disk) (f : DiscoveredFile) : Prop :=
  exists path message, prepared_as dk f (Failed path message).

(** Two readings of the disk with the same digest are the same bytes. *)
Definition no_collision (dk0 dk : disk) (p : str) : Prop :=
  forall b b', dk0 p = FileBytes b -> dk p = FileBytes b' ->
    hash_bytes blake3_hex b = hash_bytes blake3_hex b' -> b = b'.

Lemma read_bounded_bytes dk p n b : n < U64_MAX -> read_bounded dk p n = ReadBytes b -> dk p = FileBytes b.
Proof.
  intros Hn. unfold read_bounded, read_bounded_file. destruct (dk p) as [bytes|]; [|done].
  rewrite u64_saturating_add_exact by lia.
  destruct (Z.ltb_spec n (len (take (Z.to_nat (n + 1)) bytes))) as [|Hle]; [done|].
  intros [= <-]. f_equal. symmetry. apply take_ge. unfold len in Hle. rewrite length_take in Hle. clear Hn. lia.
Qed.

(** Preparing depends on the bytes of the file, and its outcome on the time only for the stamp. *)
Lemma prepared_elsewhere dk0 dk f0 f file tokens warn : relative_path f0 = relative_path f ->
  dk0 (relative_path f) = dk (relative_path f) -> prepared_as dk0 f0 (Indexed file tokens warn) ->
  exists file', prepared_as dk f (Indexed file' tokens warn)
    /\ unstamped (contents_of file' tokens) = unstamped (contents_of file tokens).
Proof.
  intros Hp Hdk. unfold IndexerFacts.prepared_as, prepare_file, read_bounded. rewrite Hp, Hdk.
  destruct (dk (relative_path f)) as [bytes|]; [|done].
  destruct (read_bounded_file bytes _) as [b| |]; [|done..].
  destruct (Text.from_vec blake3_hex b _ _) as [p| |]; [|done..]. destruct (Text.kind p); [|done].
  destruct (parse_or_warn _ _ _ _) as [[parsed w]|]; [|done]. cbn [result_bind fst snd]. intros [= <- <- <-].
  eexists. split; [reflexivity|]. unfold contents_of, file_contents, indexed_file, unstamped. cbn. done.
Qed.

(** The stored hash of a prepared file is that of its bytes. *)
Lemma prepared_hash dk f file tokens warn : (0 < chunk_lines config)%nat -> (0 < chunk_bytes config)%nat ->
  max_file_bytes (limits config) < U64_MAX -> prepared_as dk f (Indexed file tokens warn) ->
  exists b, dk (relative_path f) = FileBytes b /\ content_hash (indexed_columns file) = hash_bytes blake3_hex b.
Proof.
  intros Hl Hb Hm. unfold IndexerFacts.prepared_as, prepare_file.
  destruct (read_bounded dk (relative_path f) _) as [b| |] eqn:Er; [|done..].
  apply read_bounded_bytes in Er; [|done].
  destruct (Text.from_vec_total blake3_hex b _ _ Hl Hb) as (p & -> & _ & _ & Htext).
  destruct (Text.kind p); [|done]. destruct (Htext eq_refl) as (Hc & _).
  destruct (parse_or_warn _ _ _ _) as [[parsed w]|]; [|done]. cbn [result_bind fst snd]. intros [= <- _ _].
  exists b. split; [done|]. cbn. by rewrite Hc.
Qed.

(** A file that is left as it is indexed has the bytes it was indexed from. *)
Lemma unchanged_bytes dk0 dk d m f : (0 < chunk_lines config)%nat -> (0 < chunk_bytes config)%nat ->
  max_file_bytes (limits config) < U64_MAX -> represents d m -> index_of dk0 m ->
  no_collision dk0 dk (relative_path f) -> is_unchanged blake3_hex config false dk (existing_of d) f = true ->
  dk0 (relative_path f) = dk (relative_path f) /\ is_Some (m !! relative_path f).
Proof.
  intros Hl Hb Hm Hrep Hidx Hcol. unfold is_unchanged. cbn [negb andb].
  destruct (existing_of d !! relative_path f) as [record|] eqn:Ee; [|done].
  apply existing_of_spec in Ee as (id & r & Hr & Hp & ->); [|by apply (rep_ok d m)].
  destruct (represents_row d m id r Hrep Hr) as (c & Hc & Hcols & _ & _). rewrite Hp in Hc. intros H.
  apply andb_true_iff in H as [_ H]. unfold content_unchanged in H.
  destruct (read_bounded dk (relative_path f) _) as [b| |] eqn:Er; [|done..].
  apply read_bounded_bytes in Er; [|done]. apply bool_decide_eq_true in H.
  destruct (Hidx _ _ Hc) as (f0 & file & tokens & warn & Hf0 & Hprep & Hu).
  destruct (prepared_hash dk0 f0 file tokens warn Hl Hb Hm Hprep) as (b0 & Hb0 & Hhash). rewrite Hf0 in Hb0.
  assert (b0 = b) as ->; [|split; [congruence|by eexists]]. apply (Hcol b0 b Hb0 Er).
  rewrite H, <-Hhash. cbn [record_hash file_record]. rewrite Hcols.
  unfold unstamped, contents_of, file_contents in Hu. cbn in Hu. by injection Hu.
Qed.
End Disk.

(** ** The map after a stage *)
Lemma NoDup_map_inj {A B} (f : A -> B) (l : list A) x y : NoDup (map f l) -> x ∈ l -> y ∈ l -> f x = f y -> x = y.
Proof.
  induction l as [|z l IH]; [by intros _ ?%elem_of_nil|]. cbn. intros [Hn Hnd]%NoDup_cons.
  intros [->|Hx]%elem_of_cons [->|Hy]%elem_of_cons Hf; [done| | |by apply IH].
  - destruct Hn. rewrite Hf. by apply (list_elem_of_fmap_2 f).
  - destruct Hn. rewrite <-Hf. by apply (list_elem_of_fmap_2 f).
Qed.

Lemma map_filter_sublist {A B} (f : A -> B) (g : A -> bool) (l : list A) :
  map f (List.filter g l) `sublist_of` map f l.
Proof. induction l as [|x l IH]; [done|]. cbn. destruct (g x); by constructor. Qed.

Section Staged.
Variables (go_modules : GoModuleIndex) (sorted_paths : list str) (tok : string).
Abbreviation staged_entry := (IndexerFacts.staged_entry go_modules sorted_paths).

Lemma find_staged xs file tokens warn : NoDup (map prepared_path xs) -> Indexed file tokens warn ∈ xs ->
  List.find (fun x => bool_decide (indexed_path x.1 = indexed_path file)) (map staged_entry (omap indexed_of xs))
  = Some (resolve_file go_modules sorted_paths file, tokens).
Proof.
  induction xs as [|x xs IH]; [by intros _ ?%elem_of_nil|]. cbn [map omap list_omap]. intros [Hn Hnd]%NoDup_cons.
  intros [<-|Hin]%elem_of_cons.
  - cbn [indexed_of map List.find staged_entry fst resolve_file indexed_path]. by rewrite bool_decide_eq_true_2.
  - assert (prepared_path x <> indexed_path file) as Hne.
    { intros Hp. apply Hn. rewrite Hp. apply (list_elem_of_fmap_2 prepared_path _ _ Hin). }
    destruct x as [f t w| | |]; cbn [indexed_of map List.find]; try by apply IH.
    cbn [staged_entry fst resolve_file indexed_path] in *. rewrite bool_decide_eq_false_2 by done. by apply IH.
Qed.

Lemma find_unstaged xs p : (forall file tokens warn, Indexed file tokens warn ∈ xs -> indexed_path file <> p) ->
  List.find (fun x => bool_decide (indexed_path x.1 = p)) (map staged_entry (omap indexed_of xs)) = None.
Proof.
  intros Hnot. apply eq_None_not_Some. intros [y Hy]. apply find_some in Hy as [Hin Hp%bool_decide_eq_true].
  apply list_elem_of_In, list_elem_of_fmap in Hin as ([file tokens] & -> & Hin). apply list_elem_of_omap in Hin as (x & Hx & Hi).
  destruct x as [f t w| | |]; [|done..]. injection Hi as -> ->. by apply (Hnot file tokens w).
Qed.

Lemma staged_paths_NoDup xs : NoDup (map prepared_path xs) ->
  NoDup (map (fun x => indexed_path x.1) (map staged_entry (omap indexed_of xs))).
Proof.
  intros Hnd. rewrite map_map. eapply sublist_NoDup; [exact Hnd|]. apply omap_indexed_paths.
Qed.

(** The contents of every path once the stage of these results is applied. *)
Lemma staged_model mode m rems xs : NoDup (map prepared_path xs) ->
  let m' := (model_updates mode
               (map Delete rems ++ map (fun x => Replace x.1 (tok, x.2)) (map staged_entry (omap indexed_of xs)))
               (if is_rebuild mode then ∅ else m, ∅)).1 in
  (forall file tokens warn, Indexed file tokens warn ∈ xs ->
     m' !! indexed_path file = Some (file_contents file (tok, tokens)))
  /\ (forall p, (forall file tokens warn, Indexed file tokens warn ∈ xs -> indexed_path file <> p) ->
     m' !! p = if is_rebuild mode || bool_decide (p ∈ rems) then None else m !! p).
Proof.
  intros Hnd. cbv zeta. rewrite model_updates_app.
  set (m0 := if is_rebuild mode then ∅ else m).
  destruct (model_updates mode (map Delete rems) (m0, ∅)) as [m1 seen] eqn:E. split.
  - intros file tokens warn Hin. rewrite model_replaces by by apply staged_paths_NoDup.
    rewrite (find_staged xs file tokens warn Hnd Hin). cbn. unfold file_contents. cbn. by rewrite map_map.
  - intros p Hnot. rewrite model_replaces by by apply staged_paths_NoDup. rewrite find_unstaged by done.
    assert (m1 = (model_updates mode (map Delete rems) (m0, ∅)).1) as -> by by rewrite E. unfold m0. destruct mode; cbn [is_rebuild].
    + change (is_rebuild ReconcileMode) with false. cbn [orb].
      destruct (model_deletes rems m ∅ p) as [Hin Hout]; [by intros q ?%elem_of_empty|].
      case_bool_decide; [by apply Hin|by apply Hout].
    + change (is_rebuild Rebuild) with true. cbn [orb]. rewrite model_deletes_rebuild. apply lookup_empty.
Qed.
End Staged.

(** ** The parts of a reconciliation *)
Section Full.
Variable blake3_hex : byte_string -> string.
Variable count_tokens : byte_string -> Z.
Variable parse : str -> byte_string -> result ParseOutput.
Variable language_by_path : str -> option string.
Variable config : IndexerConfig.
Variable runtime_derivation config_hash : string.
Variable include : DirEntry -> bool.
Variable pool stage : result ().
Variable cancelled : string -> nat -> bool.

Hypothesis lines_positive : (0 < chunk_lines config)%nat.
Hypothesis bytes_positive : (0 < chunk_bytes config)%nat.

Abbreviation prepared_as := (IndexerFacts.prepared_as blake3_hex count_tokens parse language_by_path config).
Abbreviation prepare_full := (Indexer.prepare_full blake3_hex count_tokens parse language_by_path config pool stage cancelled).
Abbreviation plan_full := (Indexer.plan_full blake3_hex config runtime_derivation config_hash include cancelled).
Abbreviation discover := (discover_files (cancelled "discovery") include (limits config)).

(** What is staged in the end. *)
Record prepared_state (a : attempt) (p : full_plan) (xs : list PreparedFile) (s : full_state) : Prop := {
  state_files : staged_files (staged s)
    = map (staged_entry (modules_of (module_disk a) (plan_paths p)) (sorted_indexed_paths (plan_paths p)))
        (omap indexed_of xs);
  state_removals : list_to_set (staged_removals (staged s)) = removed s;
  state_removed : removed s = dropped (plan_existing p) xs ∪ plan_removed p
}.

Lemma prepare_full_spec a p : NoDup (map relative_path (plan_candidates p)) ->
  exists r, prepare_full a p = Done r /\
  match r with
  | Ok s => exists xs, Forall2 (prepared_as (preparing_disk a)) (plan_candidates p) xs /\ prepared_state a p xs s
  | Err _ => True
  end.
Proof.
  intros Hnd. unfold Indexer.prepare_full.
  destruct stage as [[]|]; cbn [result_bind]; [|by eexists].
  destruct (stage_removals _ _) as [initial|] eqn:Ei; cbn [result_bind]; [|by eexists].
  apply stage_removals_holds in Ei as [Hif Hir].
  destruct (GoModuleIndex_load _ _ _ _) as [go|] eqn:Eg; cbn [result_bind]; [|by eexists].
  apply GoModuleIndex_load_spec in Eg as [-> _].
  set (go := modules_of (module_disk a) (plan_paths p)). set (sorted_paths := sorted_indexed_paths (plan_paths p)).
  match goal with |- context [prepare_candidate_batches _ _ _ _ _ _ ?c _ _ _ ?x] => set (consume_ := c); set (s0 := x) end.
  assert (Hs0 : consumed (plan_existing p) go sorted_paths ∅ s0 [] s0).
  { split; cbn.
    - by rewrite app_nil_r.
    - unfold dropped. cbn. by rewrite (left_id_L ∅ (∪)).
    - rewrite Hir. unfold stage_removed. cbn. by rewrite !(right_id_L ∅ (∪)), list_to_set_elements_L. }
  destruct (prepare_batches_rule blake3_hex count_tokens parse language_by_path config cancelled (preparing_disk a)
              consume_ pool (plan_candidates p) (consumed (plan_existing p) go sorted_paths ∅ s0) s0) as ([s|e] & -> & Hs);
    [done..|intros batch ys xs s Hs Hxs; by apply consume_step|done| |by eexists].
  destruct Hs as (xs & Hxs & [Cf Cr Cs]). rewrite (right_id_L ∅ (∪)) in Cs.
  destruct (enforce _) as [[]|]; cbn [result_bind]; [|by eexists].
  destruct (flush (staged s)) as [st|] eqn:Ef; cbn [result_bind]; [|by eexists].
  destruct (check_cancelled _ "prepared" 0); cbn [result_bind]; [|by eexists].
  eexists. split; [done|]. exists xs. split; [done|]. destruct (flush_holds _ _ Ef) as (Ff & Fr & Hrep & Hrem).
  unfold stage_files, stage_removed in Ff, Fr, Cf, Cs. rewrite Hrep, app_nil_r in Ff. rewrite Hrem, app_nil_r in Fr.
  split; cbn.
  - rewrite Ff, Cf. unfold s0. cbn. unfold stage_files in Hif. by rewrite Hif.
  - by rewrite Fr, Cs.
  - by rewrite Cr.
Qed.

(** The plan, from what was discovered and the files that were read. *)
Definition plan_of (mode : IndexingMode) (a : attempt) (discovered : list DiscoveredFile) (existing : gmap str FileRecord)
    (p : full_plan) : Prop :=
  let baseline := meta (reads a 0) in
  let force := is_rebuild mode || negb (bool_decide (base_config_hash baseline = config_hash))
               || negb (bool_decide (base_derivation baseline = runtime_derivation)) in
  let paths : gset str := list_to_set (map relative_path discovered) in
  plan_baseline p = baseline /\ plan_existing p = existing /\ plan_paths p = paths
  /\ plan_candidates p
     = List.filter (fun f => negb (is_unchanged blake3_hex config force (planning_disk a) existing f)) discovered
  /\ plan_removed p = dom existing ∖ paths
  /\ (plan_membership_changed p = false -> dom existing = paths).

Lemma plan_full_spec fuel mode a (bound : nat) :
  (forall n id, is_Some (files (reads a n) !! id) -> 0 < id <= Z.of_nat bound) -> (bound < fuel)%nat ->
  exists r, plan_full fuel mode a = Done r /\
  match r with
  | Ok p => exists discovered stats existing, discover (walk a) = Ok (discovered, stats)
      /\ existing_files cancelled fuel (fun n => reads a (S n)) = Done (Ok existing)
      /\ plan_of mode a discovered existing p
  | Err _ => True
  end.
Proof.
  intros Hids Hfuel. unfold Indexer.plan_full.
  destruct (check_cancelled _ "start" 0); cbn [result_bind]; [|by eexists].
  destruct (discover (walk a)) as [[discovered stats]|] eqn:Ed; cbn [result_bind]; [|by eexists].
  destruct (check_cancelled _ "planning" 0); [|by eexists].
  destruct (existing_pages_return cancelled (fun n => reads a (S n)) bound fuel 0 None ∅) as (r & Hr);
    [intros n id; apply Hids|done|].
  unfold existing_files. rewrite Hr. destruct r as [existing|]; [|by eexists].
  destruct (check_rounds _ _ _); cbn [result_bind]; [|by eexists]. eexists. split; [done|].
  exists discovered, stats, existing. split_and!; [done|done|]. unfold plan_of.
  cbn [plan_baseline plan_existing plan_paths plan_candidates plan_removed plan_membership_changed].
  split_and!; [done..|]. intros [H1 H2]%orb_false_iff.
  apply negb_false_iff, Nat.eqb_eq in H1. apply negb_false_iff, bool_decide_eq_true in H2.
  rewrite <-size_dom in H1.
  assert (Hsub : dom existing ⊆ (list_to_set (map relative_path discovered) : gset str)).
  { intros p Hp. destruct (decide (p ∈ (list_to_set (map relative_path discovered) : gset str))) as [|Hn]; [done|].
    assert (p ∈ dom existing ∖ (list_to_set (map relative_path discovered) : gset str)) as Hin by by apply elem_of_difference.
    rewrite H2 in Hin. by apply elem_of_empty in Hin. }
  apply (set_subseteq_size_eq _ _ Hsub). lia.
Qed.

(** ** The contents it leaves *)

(** What an index for the current configuration was indexed from. *)
Definition current (mode : IndexingMode) (d : index_db) : Prop :=
  mode = ReconcileMode /\ meta_config_hash d = config_hash /\ meta_derivation d = runtime_derivation.

Section Contents.
Variables (mode : IndexingMode) (a : attempt) (d : index_db) (m : index_model) (dk0 dk : disk).
Variables (discovered : list DiscoveredFile) (p : full_plan) (xs : list PreparedFile) (s : full_state).
Hypothesis max_bytes_fits : max_file_bytes (limits config) < U64_MAX.
Hypothesis d_represents : represents d m.
Hypothesis same_baseline : meta (reads a 0) = meta d.
Hypothesis same_disk : planning_disk a = dk /\ preparing_disk a = dk.
Hypothesis paths_once : NoDup (map relative_path discovered).
Hypothesis indexed_before : current mode d ->
  index_of blake3_hex count_tokens parse language_by_path config dk0 m
  /\ forall q, is_Some (m !! q) -> no_collision blake3_hex dk0 dk q.
Hypothesis planned : plan_of mode a discovered (existing_of d) p.
Hypothesis prepared : Forall2 (prepared_as dk) (plan_candidates p) xs.
Hypothesis stated : prepared_state a p xs s.

Definition final_model : index_model :=
  (model_updates mode (stage_updates (tokenizer config) (staged s)) (if is_rebuild mode then ∅ else m, ∅)).1.

Lemma dom_existing : dom (existing_of d) = dom m.
Proof.
  rewrite <-(represents_members d m d_represents). apply set_eq. intros q.
  rewrite elem_of_dom, elem_of_members. split.
  - intros [record Hr]. apply existing_of_spec in Hr as (id & r & ? & ? & _); [|apply d_represents]. by exists id, r.
  - intros (id & r & Hr & Hq). exists (file_record id r). apply existing_of_spec; [apply d_represents|].
    by exists id, r.
Qed.

Lemma candidate_paths : map prepared_path xs = map relative_path (plan_candidates p).
Proof. by eapply prepared_paths. Qed.

Lemma prepared_once : NoDup (map prepared_path xs).
Proof.
  rewrite candidate_paths. destruct planned as (_ & _ & _ & -> & _).
  eapply sublist_NoDup; [exact paths_once|]. apply map_filter_sublist.
Qed.

Lemma final_lookups :
  (forall file tokens warn, Indexed file tokens warn ∈ xs ->
     final_model !! indexed_path file = Some (file_contents file (tokenizer config, tokens)))
  /\ (forall q, (forall file tokens warn, Indexed file tokens warn ∈ xs -> indexed_path file <> q) ->
     final_model !! q = if is_rebuild mode || bool_decide (q ∈ removed s) then None else m !! q).
Proof.
  unfold final_model, stage_updates. destruct stated as [-> Hrem _].
  destruct (staged_model (modules_of (module_disk a) (plan_paths p)) (sorted_indexed_paths (plan_paths p))
              (tokenizer config) mode m (staged_removals (staged s)) xs prepared_once) as [H1 H2].
  split; [done|]. intros q Hq. rewrite H2 by done. rewrite <-Hrem.
  by rewrite (bool_decide_ext (q ∈ staged_removals (staged s)) (q ∈ (list_to_set (staged_removals (staged s)) : gset str)))
    by by rewrite elem_of_list_to_set.
Qed.

(** Which paths are removed. *)
Lemma removed_spec q : q ∈ removed s <->
  is_Some (m !! q) /\ ((exists x, x ∈ xs /\ prepared_path x = q /\ (x = PreparedBinary q \/ x = Oversized q))
    \/ (q ∉ map relative_path discovered)).
Proof.
  destruct stated as [_ _ ->]. destruct planned as (_ & -> & _ & _ & -> & _).
  rewrite elem_of_union, elem_of_difference, elem_of_list_to_set, dom_existing, elem_of_dom.
  unfold dropped. rewrite elem_of_list_to_set, list_elem_of_omap.
  assert (Hex : forall q, is_Some (existing_of d !! q) <-> is_Some (m !! q)).
  { intros q'. by rewrite <-!elem_of_dom, dom_existing. }
  split.
  - intros [(x & Hx & Hd)|[Hm Hn]]; [|split; [done|by right]].
    destruct x as [| y | y |]; cbn in Hd; [done| | |done]; case_bool_decide as Hy; [|done| |done]; injection Hd as ->;
      (split; [by apply Hex|left; eexists; split; [exact Hx|]; split; [done|]; by (left + right)]).
  - intros [Hm [(x & Hx & _ & Hor)|Hn]]; [left|by right]. exists x. split; [done|].
    destruct Hor as [->| ->]; cbn; by rewrite bool_decide_eq_true_2 by by apply Hex.
Qed.

Definition forced : bool :=
  is_rebuild mode || negb (bool_decide (base_config_hash (meta d) = config_hash))
  || negb (bool_decide (base_derivation (meta d) = runtime_derivation)).

Lemma planned_candidates : plan_candidates p
  = List.filter (fun f => negb (is_unchanged blake3_hex config forced dk (existing_of d) f)) discovered.
Proof. destruct planned as (_ & _ & _ & H & _). destruct same_disk as [Hdk _]. by rewrite Hdk, same_baseline in H. Qed.

(** A discovered file is a candidate, or has the bytes it was indexed from. *)
Lemma candidate_or_unchanged f : f ∈ discovered -> f ∈ plan_candidates p
  \/ (current mode d /\ dk0 (relative_path f) = dk (relative_path f) /\ is_Some (m !! relative_path f)
      /\ (relative_path f ∉ map prepared_path xs)).
Proof.
  intros Hf. destruct (is_unchanged blake3_hex config forced dk (existing_of d) f) eqn:Hun.
  2:{ left. rewrite planned_candidates. apply list_elem_of_In, filter_In. split; [by apply list_elem_of_In|by rewrite Hun]. }
  right. assert (forced = false) as Hforce by (by destruct forced).
  assert (Hcur : current mode d).
  { apply orb_false_iff in Hforce as [[Hmode Hc%negb_false_iff]%orb_false_iff Hd%negb_false_iff].
    apply bool_decide_eq_true in Hc, Hd. split_and!; [by destruct mode|done|done]. }
  split; [done|]. destruct (indexed_before Hcur) as [Hidx Hcol]. rewrite Hforce in Hun.
  assert (Hsome : is_Some (m !! relative_path f)).
  { unfold is_unchanged in Hun. cbn [negb andb] in Hun. destruct (existing_of d !! relative_path f) eqn:Ee; [|done].
    apply elem_of_dom. rewrite <-dom_existing. apply elem_of_dom. by eexists. }
  destruct (unchanged_bytes blake3_hex count_tokens parse language_by_path config dk0 dk d m f) as [Hdk _];
    [done..|by apply Hcol|done|].
  split_and!; [done..|]. rewrite candidate_paths, planned_candidates, Hforce.
  intros (g & Hg & [Hgin%list_elem_of_In Hgn]%list_elem_of_In%filter_In)%list_elem_of_fmap.
  assert (g = f) as -> by (by apply (NoDup_map_inj relative_path discovered)). by rewrite Hun in Hgn.
Qed.

Lemma final_discovered f : f ∈ discovered ->
  indexed_as blake3_hex count_tokens parse language_by_path config dk
    (if is_rebuild mode then None else m !! relative_path f) (final_model !! relative_path f) f.
Proof.
  intros Hf. destruct final_lookups as [Hin Hout]. pose proof prepared_once as Honce. pose proof removed_spec as Hrem.
  assert (Hpath : relative_path f ∈ map relative_path discovered) by by apply (list_elem_of_fmap_2 relative_path).
  assert (Hsame : forall x y, x ∈ xs -> y ∈ xs -> prepared_path x = prepared_path y -> x = y).
  { intros x y Hx Hy. by apply (NoDup_map_inj prepared_path xs). }
  destruct (candidate_or_unchanged f Hf) as [Hc|(Hcur & Hdk & [c Hmf] & Hnot)].
  2:{ destruct (indexed_before Hcur) as [Hidx _]. destruct Hcur as (Hmode & _).
    destruct (Hidx _ _ Hmf) as (f0 & file & tokens & warn & Hf0 & Hprep & Hu).
    destruct (prepared_elsewhere blake3_hex count_tokens parse language_by_path config dk0 dk f0 f file tokens warn)
      as (file' & Hprep' & Hu'); [done..|].
    exists (Indexed file' tokens warn). split; [done|]. exists c. split; [|congruence]. rewrite Hout.
    - rewrite Hmode. cbn [orb]. rewrite bool_decide_eq_false_2; [done|].
      intros [_ [(x & Hx & Hp & _)|Hn]]%Hrem; [|done]. apply Hnot. rewrite <-Hp. by apply (list_elem_of_fmap_2 prepared_path).
    - intros file1 t w Hx Hq. apply Hnot. rewrite <-Hq. by apply (list_elem_of_fmap_2 prepared_path _ _ Hx). }
  apply list_elem_of_lookup in Hc as [i Hi]. destruct (Forall2_lookup_l _ _ _ _ _ prepared Hi) as (x & Hxi & Hx).
  apply list_elem_of_lookup_2 in Hxi. pose proof (prepared_as_path _ _ _ _ _ _ _ _ Hx) as Hp.
  exists x. split; [done|].
  assert (Hnone : indexed_of x = None -> final_model !! relative_path f
      = if is_rebuild mode || bool_decide (relative_path f ∈ removed s) then None else m !! relative_path f).
  { intros Hi'. apply Hout. intros file t w Hin' Hq. rewrite <-Hp in Hq. by rewrite <-(Hsame _ _ Hin' Hxi Hq) in Hi'. }
  destruct x as [file tokens warn|y|y|y message]; cbn [prepared_path] in Hp; try subst y.
  - exists (contents_of config file tokens). split; [|done]. rewrite <-Hp. by eapply Hin.
  - rewrite Hnone by done. destruct (is_rebuild mode); [done|]. cbn [orb]. case_bool_decide as Hr; [done|].
    apply eq_None_not_Some. intros Hs. apply Hr, Hrem. split; [done|]. left. eexists. split_and!; [exact Hxi|done|by left].
  - rewrite Hnone by done. destruct (is_rebuild mode); [done|]. cbn [orb]. case_bool_decide as Hr; [done|].
    apply eq_None_not_Some. intros Hs. apply Hr, Hrem. split; [done|]. left. eexists. split_and!; [exact Hxi|done|by right].
  - rewrite Hnone by done. destruct (is_rebuild mode); [done|]. cbn [orb].
    rewrite bool_decide_eq_false_2; [done|]. intros [_ [(x & Hx' & Hq & Hor)|Hn]]%Hrem; [|done].
    rewrite (Hsame _ _ Hx' Hxi Hq) in Hor. by destruct Hor.
Qed.

Lemma final_undiscovered q : (q ∉ map relative_path discovered) -> final_model !! q = None.
Proof.
  intros Hq. destruct final_lookups as [_ Hout]. rewrite Hout.
  - destruct (is_rebuild mode); [done|]. cbn [orb]. case_bool_decide as Hr; [done|].
    apply eq_None_not_Some. intros Hs. apply Hr, removed_spec. split; [done|by right].
  - intros file t w Hin Heq. apply Hq. rewrite <-Heq.
    assert (indexed_path file ∈ map relative_path (plan_candidates p)) as Hc.
    { rewrite <-candidate_paths. by apply (list_elem_of_fmap_2 prepared_path _ _ Hin). }
    destruct planned as (_ & _ & _ & Hcand & _). rewrite Hcand in Hc.
    apply list_elem_of_fmap in Hc as (g & -> & Hg). apply list_elem_of_In, filter_In in Hg as [Hg _].
    by apply (list_elem_of_fmap_2 relative_path), list_elem_of_In.
Qed.

(** *** When the files of the index stay the same *)
Lemma stable_dom : is_rebuild mode = false -> removed s = ∅ -> dom m = list_to_set (map relative_path discovered) ->
  dom final_model = dom m.
Proof.
  intros Hmode Hrem Hdom. destruct final_lookups as [Hin Hout]. pose proof candidate_paths as Hpaths.
  pose proof planned_candidates as Hcand. apply set_eq. intros q.
  destruct (decide (q ∈ map (fun x => indexed_path x.1) (omap indexed_of xs))) as [Hq|Hq].
  - apply list_elem_of_fmap in Hq as ([file tokens] & -> & Hi). apply list_elem_of_omap in Hi as (x & Hx & Hi).
    destruct x as [f t w| | |]; [|done..]. injection Hi as -> ->. cbn [fst].
    assert (indexed_path file ∈ map relative_path (plan_candidates p)) as Hf.
    { rewrite <-Hpaths. by apply (list_elem_of_fmap_2 prepared_path _ _ Hx). }
    split; intros _; [|apply elem_of_dom; by eexists; eapply Hin].
    rewrite Hdom, elem_of_list_to_set. rewrite Hcand in Hf. apply list_elem_of_fmap in Hf as (g & -> & Hg).
    apply list_elem_of_In, filter_In in Hg as [Hg _]. by apply (list_elem_of_fmap_2 relative_path), list_elem_of_In.
  - rewrite !elem_of_dom, Hout.
    + rewrite Hmode, bool_decide_eq_false_2; [done|]. rewrite Hrem. by apply not_elem_of_empty.
    + intros file tokens warn Hx Hp. apply Hq. rewrite <-Hp.
      apply (list_elem_of_fmap_2 (fun x => indexed_path x.1) _ (file, tokens)), list_elem_of_omap.
      by exists (Indexed file tokens warn).
Qed.

(** A rebuild that could read everything and dropped nothing has the same files. *)
Lemma rebuilt_dom : is_rebuild mode = true -> removed s = ∅ -> dom m = list_to_set (map relative_path discovered) ->
  (forall f, f ∈ discovered -> ~ unreadable blake3_hex count_tokens parse language_by_path config dk f) ->
  dom final_model = dom m.
Proof.
  intros Hmode Hrem Hdom Hread. destruct final_lookups as [Hin _]. apply set_eq. intros q. rewrite Hdom, elem_of_list_to_set.
  split; [intros Hq|intros (f & -> & Hf)%list_elem_of_fmap].
  { destruct (decide (q ∈ map relative_path discovered)) as [|Hn]; [done|]. apply elem_of_dom in Hq as [c Hc].
    by rewrite (final_undiscovered q Hn) in Hc. }
  destruct (candidate_or_unchanged f Hf) as [Hc|((-> & _) & _)]; [|done].
  apply list_elem_of_lookup in Hc as [i Hi]. destruct (Forall2_lookup_l _ _ _ _ _ prepared Hi) as (x & Hxi & Hx).
  apply list_elem_of_lookup_2 in Hxi. pose proof (prepared_as_path _ _ _ _ _ _ _ _ Hx) as Hp.
  assert (Hkept : ~ (x = PreparedBinary (relative_path f) \/ x = Oversized (relative_path f))).
  { intros Hor. apply (not_elem_of_empty (C := gset str) (relative_path f)). rewrite <-Hrem. apply removed_spec. split.
    - apply elem_of_dom. rewrite Hdom. by apply elem_of_list_to_set, (list_elem_of_fmap_2 relative_path).
    - left. by exists x. }
  destruct x as [file tokens warn|y|y|y message]; cbn [prepared_path] in Hp; try subst y.
  - rewrite <-Hp. apply elem_of_dom. eexists. by eapply Hin.
  - destruct Hkept. by left.
  - destruct Hkept. by right.
  - destruct (Hread f Hf). by eexists _, _.
Qed.

Lemma stable_modules : (forall f, f ∈ plan_candidates p -> is_go_mod_path (relative_path f) = false) ->
  modules_of dk0 (list_to_set (map relative_path discovered)) = modules_of dk (list_to_set (map relative_path discovered)).
Proof.
  intros Hgo. apply map_eq. intros q. rewrite !modules_of_lookup. case_bool_decide as Hq; [|done].
  apply elem_of_list_to_set, list_elem_of_fmap in Hq as (f & -> & Hf). unfold go_module.
  destruct (is_go_mod_path (relative_path f)) eqn:Eg; [|done].
  destruct (candidate_or_unchanged f Hf) as [Hc|(_ & Hdk & _)]; [by rewrite (Hgo f Hc) in Eg|].
  unfold read_bounded. by rewrite Hdk.
Qed.
End Contents.

(** ** The reconciliation *)

(** What an attempt is given: states of a database that evolves by publications,
    whose row numbers the fuel exceeds, and a disk that does not change while it
    runs, each path of which the walker yields once. *)
Record fair_attempt (fuel : nat) (dk : disk) (a : attempt) : Prop := {
  fair_start : valid (reads a 0);
  fair_reads : forall n, evolves (reads a 0) (reads a n) /\ evolves (reads a n) (found a);
  fair_fuel : exists bound, (bound < fuel)%nat
    /\ forall n id, is_Some (files (reads a n) !! id) -> 0 < id <= Z.of_nat bound;
  fair_disk : planning_disk a = dk /\ module_disk a = dk /\ preparing_disk a = dk /\ repair_disk a = dk;
  fair_walk : forall discovered stats, discover (walk a) = Ok (discovered, stats) -> NoDup (map relative_path discovered)
}.

Lemma fair_found fuel dk a : fair_attempt fuel dk a -> valid (found a).
Proof. intros [Hv Hr _ _ _]. destruct (Hr O) as [_ He]. by apply (evolves_spec (reads a 0)). Qed.

(** A plan made from the state found at the publication was made from it alone. *)
Lemma fair_same fuel dk a : fair_attempt fuel dk a -> meta (reads a 0) = meta (found a) ->
  forall n, reads a n = found a.
Proof.
  intros [Hv Hr _ _ _] Hm n. destruct (Hr n) as [H1 H2].
  destruct (evolves_between _ _ _ Hv H1 H2 Hm) as [-> ->]. done.
Qed.

(** The projections that a publication leaves. *)
Lemma final_projected mode verified a dk0 dk discovered p xs s w w1 w' m changed_semantics :
  max_file_bytes (limits config) < U64_MAX -> represents (found a) m -> meta (reads a 0) = meta (found a) ->
  planning_disk a = dk /\ preparing_disk a = dk -> module_disk a = dk -> NoDup (map relative_path discovered) ->
  (current mode (found a) -> index_of blake3_hex count_tokens parse language_by_path config dk0 m
     /\ forall q, is_Some (m !! q) -> no_collision blake3_hex dk0 dk q) ->
  plan_of mode a discovered (existing_of (found a)) p -> Forall2 (prepared_as dk) (plan_candidates p) xs ->
  prepared_state a p xs s -> writer_ok w -> w_mode w = mode ->
  is_rebuild mode = false \/ verified = false
    \/ (forall f, f ∈ discovered -> ~ unreadable blake3_hex count_tokens parse language_by_path config dk f) ->
  w_db w = (if is_rebuild mode then delete_all (found a) else found a) ->
  (verified = true -> projected dk0 (found a)) ->
  perform_updates (stage_updates (tokenizer config) (staged s)) w = Ok w1 ->
  represents (w_db w1) (final_model mode m s) ->
  changed_semantics = plan_membership_changed p || negb (bool_decide (removed s = ∅))
                      || existsb (fun f => is_go_mod_path (relative_path f)) (plan_candidates p) ->
  (changed_semantics = false /\ verified = true /\ w' = w1) \/ projected dk (w_db w') ->
  projected dk (w_db w').
Proof.
  intros Hmax Hrep Hbase Hdisk Hmodule Honce Hbefore Hplan Hxs Hst Hw Hmode Hor Hstart Hproj Hperf Hrep1 ->.
  intros [(Hch & -> & ->)|Hdone]; [|done].
  apply orb_false_iff in Hch as [[Hmem Hrem%negb_false_iff]%orb_false_iff Hgo].
  apply bool_decide_eq_true in Hrem. set (d := found a) in *.
  pose proof Hplan as (_ & _ & Hpaths & _ & _ & Hsame). specialize (Hsame Hmem).
  assert (Hdom : dom m = list_to_set (map relative_path discovered)) by (by rewrite <-(dom_existing d m Hrep)).
  assert (Hmembers : members (w_db w1) = members d).
  { rewrite (represents_members _ _ Hrep1), (represents_members _ _ Hrep). destruct (is_rebuild mode) eqn:Hreb.
    - destruct Hor as [?|[?|Hread]]; [done..|]. by eapply (rebuilt_dom mode a d m dk0 dk discovered p xs s).
    - by eapply (stable_dom mode a d m dk discovered p xs s). }
  assert (Hmods : modules_of dk0 (members d) = modules_of dk (members d)).
  { rewrite (represents_members _ _ Hrep), Hdom. eapply (stable_modules mode a d m dk0 dk discovered p xs); try done.
    intros f Hf. apply not_true_iff_false. intros Hf'. rewrite <-not_true_iff_false in Hgo. apply Hgo.
    apply existsb_exists. exists f. split; [by apply list_elem_of_In|done]. }
  assert (Hbefore' : projected_for (members d) (modules_of dk0 (members d)) (w_db w)).
  { rewrite Hstart. destruct (is_rebuild mode); [|by apply Hproj]. intros k i r Hi. cbn in Hi. by apply lookup_empty_Some in Hi. }
  unfold projected. rewrite Hmembers, <-Hmods. destruct Hst as [Hfiles Hset _].
  assert (Hnil : staged_removals (staged s) = []).
  { rewrite Hrem in Hset. destruct (staged_removals (staged s)) as [|q l]; [done|]. exfalso.
    apply (not_elem_of_empty (C := gset str) q). rewrite <-Hset. apply elem_of_list_to_set. by left. }
  unfold stage_updates in Hperf. rewrite Hnil, Hfiles in Hperf. cbn [map app] in Hperf.
  eapply replacements_projected; [exact Hw|exact Hbefore'| |exact Hperf].
  rewrite Hmods, Hmodule, Hpaths, (represents_members _ _ Hrep), Hdom.
  apply Forall_forall. intros x (y & -> & _)%list_elem_of_fmap. apply resolve_file_resolved.
Qed.

Abbreviation reconcile_once := (Indexer.reconcile_once blake3_hex count_tokens parse language_by_path config
  runtime_derivation config_hash include pool stage cancelled).

(** C1: a full reconciliation indexes the disk.  From a database that represents [m], whose contents and
    projections are those of an earlier disk, and whatever other processes publish meanwhile,
    [reconcile_once] returns.  On an error the database is the one found.  On success nothing was
    published meanwhile, the metadata are those of this run, and the database represents a map with,
    for every discovered file, exactly what its bytes on the disk stand for: the prepared rows of a text,
    nothing for a binary or oversized file.  Only a file that cannot be read keeps the rows it had, of
    the old configuration where that changed, or has none after a rebuild.  No other path is left.
    Files that were skipped as unchanged are included.  The projections of all imports are the
    resolver's for the resulting files, except perhaps after a rebuild that took the projections to be
    verified and found a file that it cannot read. *)
Theorem full_reconciliation_indexes_disk fuel mode verified a m dk0 dk :
  max_file_bytes (limits config) < U64_MAX -> fair_attempt fuel dk a -> represents (found a) m ->
  (current mode (found a) -> index_of blake3_hex count_tokens parse language_by_path config dk0 m
     /\ forall q, is_Some (m !! q) -> no_collision blake3_hex dk0 dk q) ->
  (verified = true -> projected dk0 (found a)) ->
  exists d' verified' r, reconcile_once fuel mode verified a = Done (d', verified', r) /\
  match r with
  | Err _ => d' = found a /\ verified' = verified
  | Ok report => verified' = true /\ reads a 0 = found a
      /\ meta d' = mk_meta (repository_generation report) config_hash runtime_derivation
      /\ exists discovered stats m', discover (walk a) = Ok (discovered, stats) /\ represents d' m'
        /\ (forall f, f ∈ discovered -> indexed_as blake3_hex count_tokens parse language_by_path config dk
              (if is_rebuild mode then None else m !! relative_path f) (m' !! relative_path f) f)
        /\ (forall q, (q ∉ map relative_path discovered) -> m' !! q = None)
        /\ (is_rebuild mode = false \/ verified = false
              \/ (forall f, f ∈ discovered -> ~ unreadable blake3_hex count_tokens parse language_by_path config dk f) ->
            projected dk d')
  end.
Proof.
  intros Hmax Hfair Hrep Hbefore Hproj. pose proof Hfair as [_ _ (bound & Hbound & Hids) Hdisk Hwalk].
  destruct Hdisk as (Hplanning & Hmodule & Hpreparing & Hrepair). pose proof (fair_found _ _ _ Hfair) as Hv.
  unfold Indexer.reconcile_once.
  destruct (plan_full_spec fuel mode a bound Hids Hbound) as ([p|e] & -> & Hplan); [|by eexists _, _, _].
  destruct Hplan as (discovered & stats & existing & Hdisc & Hex & Hplan).
  assert (Hcand : NoDup (map relative_path (plan_candidates p))).
  { pose proof Hplan as (_ & _ & _ & -> & _). eapply sublist_NoDup; [by eapply Hwalk|]. apply map_filter_sublist. }
  destruct (prepare_full_spec a p Hcand) as ([s|e] & -> & Hs); [|by eexists _, _, _].
  destruct Hs as (xs & Hxs & Hst). rewrite Hrepair. rewrite Hpreparing in Hxs.
  set (changed := plan_membership_changed p || _ || _).
  destruct (publish_spec runtime_derivation (observe_publication_phase cancelled) (plan_baseline p) config_hash mode
              (write_full config cancelled verified changed dk s) (found a)) as (t & -> & Hres);
    [apply Hv..|intros w Hw; by apply write_full_writes|].
  destruct (run_tx (found a) t) as [d' r]. destruct Hres as (Hd' & _ & Hstale & Hres).
  destruct r as [[g repaired]|e]; [|eexists _, _, _; split; [done|]; by split].
  eexists _, _, _. split; [done|]. split; [done|].
  assert (Hbase : meta (reads a 0) = meta (found a)).
  { pose proof Hplan as (<- & _). destruct (bool_decide_reflect (plan_baseline p = meta (found a))) as [|Hne]; [done|].
    by specialize (Hstale Hne). }
  pose proof (fair_same _ _ _ Hfair Hbase) as Hsame. split; [by apply Hsame|].
  assert (existing = existing_of (found a)) as ->.
  { destruct (existing_files_spec cancelled (found a) (fun n => reads a (S n)) (valid_ok _ Hv) (fun n => Hsame (S n)) fuel)
      as [H|[H|[H _]]]; congruence. }
  destruct (published_state _ _ _ _ _ _ _ _ Hres) as (w & w' & Hwr & Hw & Hwmode & Hdel & Hstart & Hmeta & Hfiles & Himports).
  cbn [repository_generation]. split; [done|].
  assert (Hrep0 : represents (w_db w) (if is_rebuild mode then ∅ else m)).
  { rewrite Hstart. destruct (is_rebuild mode); [|done]. apply represents_empty; [apply delete_all_ok|done]. }
  destruct (write_full_spec config cancelled dk verified changed s w Hw) as (r & Hr & Hspec).
  rewrite Hwr in Hr. injection Hr as <-. destruct Hspec as (w1 & Hperf & _ & Hrepw & Hcase).
  destruct (updates_represent _ _ _ _ Hrep0 Hperf) as (Hrep1 & _). rewrite Hwmode, Hdel in Hrep1.
  change (model_updates _ _ _).1 with (final_model mode m s) in Hrep1.
  exists discovered, stats, (final_model mode m s). split; [done|].
  split; [by eapply same_tables_represents, Hrepw|].
  split; [|split].
  - intros f Hf. eapply (final_discovered mode a (found a) m dk0 dk discovered p xs s); try done. by eapply Hwalk.
  - intros q Hq. eapply (final_undiscovered mode a (found a) m dk discovered p xs s); try done. by eapply Hwalk.
  - intros Hor. eapply same_tables_projected; [exact Hfiles|exact Himports|].
    eapply (final_projected mode verified a dk0 dk discovered p xs s w w1 w' m changed); try done. by eapply Hwalk.
Qed.
End Full.

(** ** Witness *)
Definition demo_bytes (s : string) : byte_string := String.list_byte_of_string s.
Definition demo_disk : disk := fun p =>
  if bool_decide (p = lit "main.py") then FileBytes (demo_bytes "import pkg.util")
  else if bool_decide (p = lit "pkg/util.py") then FileBytes (demo_bytes "x = 1")
  else if bool_decide (p = lit "data.bin") then FileBytes [Byte.x00; Byte.x01]
  else FileError true "not found".
Definition demo_language (path : str) : option string :=
  match for_source path with Python => Some "python"%string | _ => None end.
Definition demo_parse (path : str) (bytes : byte_string) : result ParseOutput :=
  Ok (mk_parse_output (demo_language path) true [] []
        (if bool_decide (bytes = demo_bytes "import pkg.util") then [mk_parsed_import (lit "pkg.util") None 1] else [])).
Definition demo_limits : DiscoveryLimits := mk_limits 100 100 1000 10 1000 2 1000.
Definition demo_config : IndexerConfig := mk_indexer_config demo_limits 10 1000 "words".
Definition demo_entry (components : list string) (size : Z) : option DirEntry :=
  Some (mk_dir_entry (Some (map (fun c => Some (lit c)) components)) (len components) (Some RegularFile)
          (Some (size, Some 7))).
Definition demo_walk : list (option DirEntry) :=
  [demo_entry ["pkg"; "util.py"] 5; demo_entry ["main.py"] 15; demo_entry ["data.bin"] 2]%string.
Definition demo_attempt : attempt :=
  mk_attempt (fun _ => empty_db "c" "v") demo_walk demo_disk demo_disk demo_disk demo_disk (empty_db "c" "v").
Definition demo_reconcile : run (index_db * bool * result IndexReport) :=
  Indexer.reconcile_once String.string_of_list_byte (fun bytes => len bytes) demo_parse demo_language demo_config
    "v" "c" (fun _ => true) (Ok ()) (Ok ()) (fun _ _ => false) 1 ReconcileMode false demo_attempt.

(** A rebuild that takes the projections to be verified and cannot read [pkg/util.py], which it then has
    not: the import of it in [main.py] stays resolved to it. *)
Definition two_files : list (option DirEntry) := [demo_entry ["pkg"; "util.py"] 5; demo_entry ["main.py"] 15]%string.
Definition unread_disk : disk := fun p => if bool_decide (p = lit "pkg/util.py") then FileError false "denied" else demo_disk p.
Definition demo_run (mode : IndexingMode) (verified : bool) (d : index_db) (dk : disk)
    : run (index_db * bool * result IndexReport) :=
  Indexer.reconcile_once String.string_of_list_byte (fun bytes => len bytes) demo_parse demo_language demo_config
    "v" "c" (fun _ => true) (Ok ()) (Ok ()) (fun _ _ => false) 4 mode verified
    (mk_attempt (fun _ => d) two_files dk dk dk dk d).
Example rebuild_keeps_unread_target :
  match demo_run ReconcileMode false (empty_db "c" "v") demo_disk with
  | Done (d, verified, Ok _) =>
    match demo_run Rebuild verified d unread_disk with
    | Done (d', _, Ok _) => (elements (members d'), map (fun x => i_resolved x.2) (map_to_list (imports d')))
    | _ => ([], [])
    end
  | _ => ([], [])
  end = ([lit "main.py"], [Some (lit "pkg/util.py")]).
Proof. vm_compute. reflexivity. Qed.

Lemma demo_fair : fair_attempt demo_config (fun _ => true) (fun _ _ => false) 1 demo_disk demo_attempt.
Proof.
  split; [by split; [apply empty_db_ok| |]|by split|exists 0%nat; split; [lia|]|done|].
  - intros n id []. by cbn in *.
  - intros discovered stats H. vm_compute in H. injection H as <- _. by apply (bool_decide_unpack _).
Qed.

Lemma full_reconciliation_indexes_disk_witness :
  exists d' report m', demo_reconcile = Done (d', true, Ok report) /\ represents d' m' /\ projected demo_disk d'
    /\ elements (dom m') = [lit "main.py"; lit "pkg/util.py"]
    /\ map (fun x => i_resolved x.2) (map_to_list (imports d')) = [Some (lit "pkg/util.py")].
Proof.
  destruct (full_reconciliation_indexes_disk String.string_of_list_byte (fun bytes => len bytes) demo_parse demo_language
    demo_config "v" "c" (fun _ => true) (Ok ()) (Ok ()) (fun _ _ => false) ltac:(cbn; lia) ltac:(cbn; lia)
    1 ReconcileMode false demo_attempt ∅ demo_disk demo_disk) as (d' & verified' & r & Hr & Hres).
  - by vm_compute.
  - exact demo_fair.
  - apply represents_empty; [apply empty_db_ok|done].
  - intros _. split; [by intros q c ?%lookup_empty_Some|by intros q [c ?%lookup_empty_Some]].
  - done.
  - assert (H := Hr). vm_compute in H. injection H as Hd Hv Hrep.
    destruct r as [report|e]; [|exfalso; discriminate Hrep].
    destruct Hres as (-> & _ & _ & discovered & stats & m' & _ & Hrepr & _ & _ & Hproj).
    exists d', report, m'. split; [exact Hr|]. split; [exact Hrepr|]. split; [apply Hproj; by left|].
    rewrite <-(represents_members _ _ Hrepr), <-Hd. split; vm_compute; reflexivity.
Defined.
