(* ===== verification/Quiescent.v ===== *)
(** * Reconciling an unchanged repository

    A full reconciliation of a repository that its index already shows commits
    nothing: the generation stays, and with it every receipt, cursor and cached
    answer that names it ([reconcile_once] of [src/src/indexer/orchestrator.rs] and
    [publish_reconciliation_inner] of [src/src/storage/publication.rs]). *)

From S2P Require Import Prelude Chars Order Store Paths StdPath ImportResolution Discovery IndexDb.
From S2P Require Import Publication IndexModel ProjectionRepair Preparation Indexer IndexerFacts FullIndex.
From S2P Require Text.
Open Scope Z_scope.
Open Scope store_scope.

(** ** Publishing nothing *)
Lemma publish_untouched runtime observe {A} baseline config_hash
    (write : ReconciliationWriter -> run (result (A * ReconciliationWriter))) d t :
  meta_config_hash d = config_hash -> meta_derivation d = runtime ->
  (forall w, writer_ok w -> w_db w = d -> untouched w -> exists r, write w = Done r
     /\ forall a w', r = Ok (a, w') -> w' = w) ->
  valid d -> publish_reconciliation runtime observe baseline config_hash ReconcileMode write d = Done t ->
  (run_tx d t).1 = d /\ (forall g output, (run_tx d t).2 = Ok (g, output) -> g = meta_generation d).
Proof.
  intros Hc Hr Hwrite [Hd Hf Hg]. unfold publish_reconciliation. change (is_rebuild ReconcileMode) with false.
  destruct (verify_baseline _ _ _ _) as [[]|]; cbn [run_try orb]; [|by intros [= <-]].
  destruct (i64_checked_add (meta_generation d) 1) as [next|]; [|by intros [= <-]].
  set (w := mk_writer d next ReconcileMode _ 0 ∅ 0).
  destruct (Hwrite w) as (r & -> & Hres); [by apply fresh_writer_ok|done|done|].
  destruct r as [[output w']|e]; [|by intros [= <-]]. rewrite (Hres _ _ eq_refl). unfold finish_publication, tidied, has_changed.
  rewrite !(bool_decide_eq_true_2 (meta_config_hash d = _)), (bool_decide_eq_true_2 (meta_derivation d = _)) by done.
  unfold w. cbn. destruct (observe CommitAndCheckpoint) as [[]|]; cbn; intros [= <-]; [|done].
  split; [done|]. by intros g out [= <- _].
Qed.

(** A verification that finds every projection right writes nothing. *)
Lemma verify_right config cancelled verified changed_semantics dk s w : writer_ok w -> projected dk (w_db w) ->
  stage_updates (tokenizer config) (staged s) = [] ->
  exists r, write_full config cancelled verified changed_semantics dk s w = Done r /\ forall a w', r = Ok (a, w') -> w' = w.
Proof.
  intros Hw Hproj Hnone. unfold write_full. rewrite apply_stage_updates, Hnone. cbn [perform_updates].
  unfold verify_or_repair_import_projections. destruct (negb changed_semantics && verified).
  { eexists. split; [done|]. by intros a w' [= _ <-]. }
  destruct (repair_spec (derive_candidates cancelled dk) w (writer_db _ Hw)) as (r & Hr & Hres).
  exists r. split; [done|]. intros n w' ->. destruct Hres as (Hdone & Hn & Hzero & _). apply Hzero.
  rewrite Hn. unfold change_count.
  assert (changed_imports (w_db w) (w_db w') = ∅) as ->; [|done].
  apply set_eq. intros k. rewrite elem_of_changed. split; [|by intros ?%elem_of_empty].
  intros [Hne [i Hi]]. exfalso. apply Hne. destruct (done_values _ _ _ Hdone k i Hi) as (cs & (seed & j & Hseed & call & Hcs & _) & ->).
  rewrite Hi. f_equal. pose proof (seed_of_some _ _ _ Hseed) as (_ & Hj & _). cbn in Hj.
  assert (j = i) as -> by congruence. apply derive_candidates_ok in Hcs. rewrite Hcs. symmetry.
  unfold seed_of in Hseed. rewrite Hi in Hseed. destruct (files (w_db w) !! i_file i) as [r|] eqn:Er; [|done].
  injection Hseed as <-. cbn. by apply (Hproj k).
Qed.

(** ** An index that shows the repository *)
Section Quiescent.
Variable blake3_hex : byte_string -> string.
Variable count_tokens : byte_string -> Z.
Variable parse : str -> byte_string -> result ParseOutput.
Variable language_by_path : str -> option string.
Variable config : IndexerConfig.
Variable runtime_derivation config_hash : string.
Variable include : DirEntry -> bool.
Variable pool stage : result ().
Variable cancelled : string -> nat -> bool.

Hypothesis lines_positive : (0 < chunk_lines config)%nat.
Hypothesis bytes_positive : (0 < chunk_bytes config)%nat.
Hypothesis max_bytes_fits : max_file_bytes (limits config) < U64_MAX.

Abbreviation prepared_as := (IndexerFacts.prepared_as blake3_hex count_tokens parse language_by_path config).
Abbreviation index_of := (FullIndex.index_of blake3_hex count_tokens parse language_by_path config).
Abbreviation discover := (discover_files (cancelled "discovery") include (limits config)).
Abbreviation current := (FullIndex.current runtime_derivation config_hash).
Abbreviation plan_of := (FullIndex.plan_of blake3_hex config runtime_derivation config_hash).

(** The index shows what was discovered on this disk, and the sizes of the walk are the disk's. *)
Record up_to_date (dk : disk) (discovered : list DiscoveredFile) (d : index_db) (m : index_model) : Prop := {
  shown : represents d m;
  shown_from : index_of dk m;
  shown_only : forall q, is_Some (m !! q) -> q ∈ map relative_path discovered;
  shown_all : forall f file tokens warn, f ∈ discovered -> prepared_as dk f (Indexed file tokens warn) ->
    is_Some (m !! relative_path f);
  shown_sizes : forall f bytes, f ∈ discovered -> dk (relative_path f) = FileBytes bytes -> discovered_size f = len bytes;
  shown_projections : projected dk d
}.

Lemma prepared_columns dk f file tokens warn : prepared_as dk f (Indexed file tokens warn) ->
  exists b, read_bounded dk (relative_path f) (max_file_bytes (limits config)) = ReadBytes b
    /\ dk (relative_path f) = FileBytes b /\ size_bytes (indexed_columns file) = len b
    /\ content_hash (indexed_columns file) = hash_bytes blake3_hex b.
Proof.
  intros H. pose proof (prepared_hash _ _ _ _ _ _ _ _ _ _ lines_positive bytes_positive max_bytes_fits H) as (b & Hb & Hh).
  exists b. unfold IndexerFacts.prepared_as, prepare_file in H.
  destruct (read_bounded dk (relative_path f) _) as [b'| |] eqn:Er; [|done..].
  pose proof (read_bounded_bytes _ _ _ _ max_bytes_fits Er) as Hb'. assert (b' = b) as -> by congruence.
  split_and!; [done..| |done]. destruct (Text.from_vec _ _ _ _) as [t| |]; [|done..]. destruct (Text.kind t); [|done].
  destruct (parse_or_warn _ _ _ _) as [[parsed w]|]; [|done]. cbn [result_bind fst snd] in H. by injection H as <- _ _.
Qed.

(** Every text that was discovered is left as it is. *)
Lemma text_unchanged dk discovered d m f file tokens warn : up_to_date dk discovered d m -> f ∈ discovered ->
  prepared_as dk f (Indexed file tokens warn) -> is_unchanged blake3_hex config false dk (existing_of d) f = true.
Proof.
  intros [Hrep Hfrom _ Hall Hsizes _] Hf Hx. destruct (Hall f file tokens warn Hf Hx) as [c Hc].
  destruct (prepared_columns _ _ _ _ _ Hx) as (b & Hread & Hb & _ & _).
  destruct (Hfrom _ _ Hc) as (f0 & file0 & tokens0 & warn0 & Hf0 & Hx0 & Hu).
  destruct (prepared_columns _ _ _ _ _ Hx0) as (b0 & _ & Hb0 & Hsize0 & Hhash0). rewrite Hf0 in Hb0.
  assert (b0 = b) as -> by congruence.
  destruct (rep_row d m Hrep _ _ Hc) as (id & r & Hr & Hp & Hcols & _ & _).
  assert (existing_of d !! relative_path f = Some (file_record id r)) as Hex.
  { apply existing_of_spec; [apply Hrep|]. by exists id, r. }
  unfold is_unchanged. rewrite Hex. cbn [negb andb record_size record_hash file_record]. rewrite Hcols.
  unfold unstamped, contents_of, file_contents in Hu. cbn in Hu.
  injection Hu as _ _ Hsize Hhash _ _ _ _ _. rewrite Hsize, Hhash, Hsize0, Hhash0.
  rewrite (Hsizes f b Hf Hb), Z.eqb_refl. unfold content_unchanged. rewrite Hread. by apply bool_decide_eq_true_2.
Qed.

(** Nothing is staged. *)
Lemma nothing_staged dk discovered d m a p xs s : up_to_date dk discovered d m -> current ReconcileMode d ->
  meta (reads a 0) = meta d -> planning_disk a = dk -> plan_of ReconcileMode a discovered (existing_of d) p ->
  Forall2 (prepared_as dk) (plan_candidates p) xs -> prepared_state a p xs s ->
  removed s = ∅ /\ stage_updates (tokenizer config) (staged s) = [].
Proof.
  intros Hup (_ & Hconf & Hder) Hbase Hdk (_ & Hexist & Hpaths & Hcand & Hrem & _) Hxs [Hfiles Hset Hremoved].
  pose proof Hup as [Hrep Hfrom Honly Hall Hsizes _].
  rewrite Hbase, Hdk in Hcand. unfold meta in Hcand. cbn [base_config_hash base_derivation] in Hcand.
  change (is_rebuild ReconcileMode) with false in Hcand.
  rewrite !(bool_decide_eq_true_2 (_ = config_hash)), (bool_decide_eq_true_2 (_ = runtime_derivation)) in Hcand by done.
  cbn [negb orb] in Hcand.
  assert (Hx : forall x, x ∈ xs -> indexed_of x = None /\ dropped_of (existing_of d) x = None).
  { intros x Hx. apply list_elem_of_lookup in Hx as [i Hi]. destruct (Forall2_lookup_r _ _ _ _ _ Hxs Hi) as (f & Hf & Hfx).
    apply list_elem_of_lookup_2 in Hf. rewrite Hcand in Hf.
    apply list_elem_of_In, filter_In in Hf as [Hf Hun]. apply list_elem_of_In in Hf.
    assert (Hnone : forall y, x = PreparedBinary y \/ x = Oversized y -> ~ is_Some (existing_of d !! y)).
    { intros y Hy Hs. apply elem_of_dom in Hs. rewrite (dom_existing d m Hrep) in Hs. apply elem_of_dom in Hs as [c Hc].
      destruct (Hfrom _ _ Hc) as (f0 & file & tokens & warn & Hf0 & Hx0 & _).
      pose proof (prepared_as_path _ _ _ _ _ _ _ _ Hfx) as Hp.
      assert (relative_path f = y) as Hfy by (by destruct Hy as [->| ->]).
      destruct (prepared_elsewhere blake3_hex count_tokens parse language_by_path config dk dk f0 f file tokens warn)
        as (file' & Hx' & _); [congruence|done|done|].
      unfold IndexerFacts.prepared_as in Hx', Hfx. assert (x = Indexed file' tokens warn) as -> by congruence.
      by destruct Hy. }
    destruct x as [file tokens warn|y|y|y message]; cbn.
    - by rewrite (text_unchanged dk discovered d m f file tokens warn) in Hun.
    - split; [done|]. rewrite bool_decide_eq_false_2; [done|]. apply Hnone. by left.
    - split; [done|]. rewrite bool_decide_eq_false_2; [done|]. apply Hnone. by right.
    - done. }
  assert (Hnil : omap indexed_of xs = [] /\ dropped (existing_of d) xs = ∅).
  { unfold dropped. clear -Hx. induction xs as [|x xs IH]; [done|]. cbn. destruct (Hx x ltac:(by left)) as [-> ->].
    apply IH. intros y Hy. apply Hx. by right. }
  destruct Hnil as [Hidx Hdrop].
  assert (Hr : removed s = ∅).
  { rewrite Hremoved, Hexist, Hdrop, Hrem, (left_id_L ∅ (∪)). apply set_eq. intros q.
    rewrite elem_of_difference, (dom_existing d m Hrep), elem_of_dom, elem_of_list_to_set.
    split; [|by intros ?%elem_of_empty]. intros [Hq Hn]. destruct Hn. by apply Honly. }
  split; [done|]. unfold stage_updates. rewrite Hfiles, Hidx. rewrite Hr in Hset.
  destruct (staged_removals (staged s)) as [|q l]; [done|]. exfalso.
  apply (not_elem_of_empty (C := gset str) q). rewrite <-Hset. apply elem_of_list_to_set. by left.
Qed.

Abbreviation reconcile_once := (Indexer.reconcile_once blake3_hex count_tokens parse language_by_path config
  runtime_derivation config_hash include pool stage cancelled).

(** C11: reconciling an unchanged repository publishes nothing.  When the index of the current
    configuration shows what is discovered, with the right projections, [reconcile_once] returns and
    leaves the database exactly as it is, whether or not the projections were verified before and
    whatever binary or unreadable files are prepared again; on success it reports the generation
    the database has and no removed file. *)
Theorem unchanged_repository_publishes_nothing fuel verified a m dk :
  fair_attempt config include cancelled fuel dk a -> current ReconcileMode (found a) ->
  (forall discovered stats, discover (walk a) = Ok (discovered, stats) -> up_to_date dk discovered (found a) m) ->
  exists verified' r, reconcile_once fuel ReconcileMode verified a = Done (found a, verified', r) /\
  match r with
  | Ok report => repository_generation report = meta_generation (found a) /\ files_removed report = 0
  | Err _ => True
  end.
Proof.
  intros Hfair Hcur Hup. pose proof Hfair as [_ _ (bound & Hbound & Hids) Hdisk Hwalk].
  destruct Hdisk as (Hplanning & _ & Hpreparing & Hrepair). pose proof (fair_found _ _ _ _ _ _ Hfair) as Hv.
  unfold Indexer.reconcile_once.
  destruct (plan_full_spec blake3_hex config runtime_derivation config_hash include cancelled lines_positive bytes_positive fuel ReconcileMode a bound Hids Hbound)
    as ([p|e] & -> & Hplan); [|by eexists _, _].
  destruct Hplan as (discovered & stats & existing & Hdisc & Hex & Hplan). specialize (Hup _ _ Hdisc).
  assert (Hcand : NoDup (map relative_path (plan_candidates p))).
  { pose proof Hplan as (_ & _ & _ & -> & _). eapply sublist_NoDup; [by eapply Hwalk|]. apply map_filter_sublist. }
  destruct (prepare_full_spec blake3_hex count_tokens parse language_by_path config pool stage cancelled
              lines_positive bytes_positive a p Hcand) as ([s|e] & -> & Hs); [|by eexists _, _].
  destruct Hs as (xs & Hxs & Hst). rewrite Hrepair. rewrite Hpreparing in Hxs.
  set (changed := plan_membership_changed p || _ || _).
  destruct (publish_spec runtime_derivation (observe_publication_phase cancelled) (plan_baseline p) config_hash ReconcileMode
              (write_full config cancelled verified changed dk s) (found a)) as (t & Ht & Hres);
    [apply Hv..|intros w Hw; by apply write_full_writes|].
  rewrite Ht. destruct (run_tx (found a) t) as [d' r] eqn:Et. destruct Hres as (_ & _ & Hstale & Hres).
  destruct r as [[g repaired]|e]; [|rewrite Hres; by eexists _, _].
  assert (Hbase : meta (reads a 0) = meta (found a)).
  { pose proof Hplan as (<- & _). destruct (bool_decide_reflect (plan_baseline p = meta (found a))) as [|Hne]; [done|].
    by specialize (Hstale Hne). }
  pose proof (fair_same _ _ _ _ _ _ Hfair Hbase) as Hsame.
  assert (existing = existing_of (found a)) as ->.
  { destruct (existing_files_spec cancelled (found a) (fun n => reads a (S n)) (valid_ok _ Hv) (fun n => Hsame (S n)) fuel)
      as [H|[H|[H _]]]; congruence. }
  destruct (nothing_staged dk discovered (found a) m a p xs s) as [Hremoved Hnone]; [done..|].
  destruct Hcur as (_ & Hconf & Hder).
  destruct (publish_untouched runtime_derivation (observe_publication_phase cancelled) (plan_baseline p) config_hash
              (write_full config cancelled verified changed dk s) (found a) t Hconf Hder) as [Hd Hg]; [|done|done|].
  { intros w Hw Hdb _. apply verify_right; [done| |done]. rewrite Hdb. apply Hup. }
  rewrite Et in Hd, Hg. cbn in Hd, Hg. rewrite Hd. eexists _, _. split; [reflexivity|].
  cbn [repository_generation files_removed]. split; [by eapply Hg|]. by rewrite Hremoved.
Qed.
End Quiescent.

(** ** Witness *)
Definition shown_members : gset str := list_to_set [lit "main.py"; lit "pkg/util.py"].
Definition shown_tokens (bytes : byte_string) : Z := 2.
Definition shown_prepare (f : DiscoveredFile) : run (result PreparedFile) :=
  prepare_file String.string_of_list_byte shown_tokens demo_parse demo_language demo_config demo_disk f.
Definition shown_discovered (path : string) (size : Z) : DiscoveredFile := mk_discovered (lit path) size (Some 7).
Definition shown_file (path : string) (size : Z) : IndexedFile :=
  match shown_prepare (shown_discovered path size) with
  | Done (Ok (Indexed file _ _)) => resolve_file ∅ (sorted_indexed_paths shown_members) file
  | _ => demo_file path []
  end.
Definition shown_main : IndexedFile := Eval vm_compute in shown_file "main.py" 15.
Definition shown_util : IndexedFile := Eval vm_compute in shown_file "pkg/util.py" 5.
Definition shown_db : index_db := demo_insert shown_main (demo_insert shown_util (empty_db "c" "v")).
Definition shown_model : index_model :=
  <[lit "main.py" := file_contents shown_main ("words"%string, 2)]>
    (<[lit "pkg/util.py" := file_contents shown_util ("words"%string, 2)]> ∅).

Lemma shown_represents : represents shown_db shown_model.
Proof.
  apply (demo_insert_represents shown_main); [|by vm_compute].
  apply (demo_insert_represents shown_util); [|by vm_compute].
  apply represents_empty; [apply empty_db_ok|done].
Qed.

Lemma shown_dom : members shown_db = shown_members.
Proof. rewrite (represents_members _ _ shown_represents). unfold shown_model. by rewrite !dom_insert_L, dom_empty_L. Qed.

Lemma shown_modules : modules_of demo_disk shown_members = ∅.
Proof.
  apply map_eq. intros q. rewrite modules_of_lookup, lookup_empty. case_bool_decide as Hq; [|done].
  apply elem_of_list_to_set in Hq. apply elem_of_cons in Hq as [->|Hq]; [by vm_compute|].
  apply list_elem_of_singleton in Hq as ->. by vm_compute.
Qed.

Lemma shown_projected : projected demo_disk shown_db.
Proof.
  unfold projected. rewrite shown_dom, shown_modules.
  assert (Hresolved : forall path size, resolved_under shown_members ∅ (shown_file path size)).
  { intros path size. unfold shown_file. destruct (shown_prepare _) as [[[file t w| | |]|]| |]; try by intros x ?%elem_of_nil.
    apply resolve_file_resolved. }
  eapply (insert_projected true shown_main 1 ("words"%string, 2) (demo_insert shown_util (empty_db "c" "v"))).
  - apply demo_insert_ok, empty_db_ok.
  - eapply (insert_projected true shown_util 1 ("words"%string, 2) (empty_db "c" "v")).
    + apply empty_db_ok.
    + intros k i r Hi. by cbn in Hi.
    + exact (Hresolved "pkg/util.py"%string 5).
    + by vm_compute.
  - exact (Hresolved "main.py"%string 15).
  - by vm_compute.
Qed.

Lemma shown_index_of :
  FullIndex.index_of String.string_of_list_byte shown_tokens demo_parse demo_language demo_config demo_disk shown_model.
Proof.
  intros q c. unfold shown_model.
  intros [[<- <-]|[_ [[<- <-]|[_ []%lookup_empty_Some]]%lookup_insert_Some]]%lookup_insert_Some.
  - eexists (shown_discovered "main.py" 15), _, _, _. split; [done|]. split; [vm_compute; reflexivity|by vm_compute].
  - eexists (shown_discovered "pkg/util.py" 5), _, _, _. split; [done|]. split; [vm_compute; reflexivity|by vm_compute].
Qed.

Definition shown_attempt : attempt :=
  mk_attempt (fun _ => shown_db) demo_walk demo_disk demo_disk demo_disk demo_disk shown_db.

Lemma shown_fair : fair_attempt demo_config (fun _ => true) (fun _ _ => false) 5 demo_disk shown_attempt.
Proof.
  assert (Hdb : db_ok shown_db /\ fts_ok shown_db).
  { split; repeat first [apply demo_insert_fts|apply demo_insert_ok|apply empty_db_ok]. by vm_compute. }
  split; [by split; [apply Hdb|apply Hdb|by vm_compute]|by split| |done|].
  - exists 4%nat. split; [lia|]. intros n id [r Hr]. cbn in Hr. apply elem_of_map_to_list in Hr.
    assert (Forall (fun x => 0 < x.1 <= 4) (map_to_list (files shown_db))) as Hall.
    { apply (bool_decide_unpack _). vm_compute. done. }
    rewrite Forall_forall in Hall. by apply (Hall (id, r)).
  - intros discovered stats H. vm_compute in H. injection H as <- _. by apply (bool_decide_unpack _).
Qed.

Lemma shown_up_to_date discovered stats :
  discover_files (fun _ => false) (fun _ => true) demo_limits demo_walk = Ok (discovered, stats) ->
  up_to_date String.string_of_list_byte shown_tokens demo_parse demo_language demo_config demo_disk discovered shown_db
    shown_model.
Proof.
  intros H. vm_compute in H. injection H as <- _. split.
  - exact shown_represents.
  - exact shown_index_of.
  - intros q Hq. apply elem_of_dom in Hq. rewrite <-(represents_members _ _ shown_represents), shown_dom in Hq.
    apply elem_of_list_to_set in Hq. apply elem_of_cons in Hq as [->|Hq]; [by apply (bool_decide_unpack _)|].
    apply list_elem_of_singleton in Hq as ->. by apply (bool_decide_unpack _).
  - intros f file tokens warn Hf Hx.
    repeat (apply elem_of_cons in Hf as [->|Hf]; [try (by vm_compute in Hx); by apply (bool_decide_unpack _)|]).
    by apply elem_of_nil in Hf.
  - intros f bytes Hf Hb.
    repeat (apply elem_of_cons in Hf as [->|Hf]; [vm_compute in Hb; by injection Hb as <-|]). by apply elem_of_nil in Hf.
  - exact shown_projected.
Qed.

Lemma unchanged_repository_publishes_nothing_witness :
  exists verified' report, Indexer.reconcile_once String.string_of_list_byte shown_tokens demo_parse demo_language demo_config
      "v" "c" (fun _ => true) (Ok ()) (Ok ()) (fun _ _ => false) 5 ReconcileMode false shown_attempt
      = Done (shown_db, verified', Ok report) /\ repository_generation report = 0 /\ files_unchanged report = 2
    /\ files_skipped report = 1.
Proof.
  destruct (unchanged_repository_publishes_nothing String.string_of_list_byte shown_tokens demo_parse demo_language
    demo_config "v" "c" (fun _ => true) (Ok ()) (Ok ()) (fun _ _ => false) ltac:(cbn; lia) ltac:(cbn; lia)
    ltac:(vm_compute; reflexivity) 5 false shown_attempt shown_model demo_disk shown_fair) as (verified' & r & Hr & Hres).
  - by vm_compute.
  - exact shown_up_to_date.
  - assert (H := Hr). vm_compute in H. injection H as _ Hrep.
    destruct r as [report|e]; [|exfalso; discriminate Hrep]. injection Hrep as Hrep.
    exists verified', report. split; [exact Hr|]. rewrite <-Hrep. split; [reflexivity|]. split; reflexivity.
Defined.
