(* ===== verification/Incremental.v ===== *)
(** * The indexer: reconciliation of reported paths

    [src/src/indexer/incremental.rs] with the parts of [plan.rs], [types.rs],
    [preparation.rs], [imports.rs] and [storage/read/imports.rs] that only it uses:
    what a set of reported paths changes, the relocations among the changes, the
    importers they affect, and the publication.  As in Indexer, the states of the
    database that are read, the observations of the file system and the disk of each
    phase are given; a HashMap is walked in the order of the map's list. *)

From S2P Require Import Prelude Chars Order Store Paths StdPath ImportResolution Discovery IndexDb.
From S2P Require Import Publication ProjectionRepair Preparation Indexer.
Open Scope Z_scope.
Open Scope store_scope.

(** [repository::path::slash_path]. *)
Definition normal_name (c : component) : option str :=
  match c with Normal name => Some name | _ => None end.
Definition slash_path (path : str) : str := join_slash (omap normal_name (components path)).

(** [std::fs::symlink_metadata]. *)
Inductive symlink_metadata :=
| Metadata (kind : FileKind) (size : Z) (modified : option Z)
| MetadataNotFound
| MetadataFailed.

#[export] Instance file_kind_eq_dec : EqDecision FileKind.
Proof. solve_decision. Defined.

(** [path.starts_with(&format!("{relative_path}/"))]. *)
Definition has_prefix (directory path : str) : bool :=
  bool_decide (is_Some (strip_prefix (directory ++ [SLASH]) path)).

(** ** [observe_visibility_delta] *)
Definition observe_path (existing : gmap str FileRecord) (metadata : str -> symlink_metadata)
    (x : bool * gset str) (requested : str) : bool * gset str :=
  let '(delta, observed) := x in
  let relative_path := slash_path requested in
  let delta := delta || is_ignore_control_path relative_path in
  let known := bool_decide (is_Some (existing !! relative_path)) in
  let inside : gset str := filter (fun path => has_prefix relative_path path = true) (dom existing) in
  match metadata requested with
  | Metadata kind _ _ =>
    let is_file := bool_decide (kind = RegularFile) in
    let delta := delta || (negb known || negb is_file) in
    if is_file then (delta, observed)
    else
      let observed := if known then {[ relative_path ]} ∪ observed else observed in
      if bool_decide (kind = Directory) then (delta, observed) else (delta, inside ∪ observed)
  | MetadataNotFound =>
    let gone : gset str := (if known then {[ relative_path ]} else ∅) ∪ inside in
    (delta || negb (bool_decide (inside = ∅)), gone ∪ observed)
  | MetadataFailed => (delta, observed)
  end.

(** [VisibilityObservation]: [None] is [Stable]. *)
Definition observe_visibility_delta (paths : list str) (existing : gmap str FileRecord)
    (metadata : str -> symlink_metadata) : option (gset str) :=
  let '(delta, observed) := fold_left (observe_path existing metadata) paths (false, ∅) in
  if delta then Some observed else None.

(** ** What the reported paths change *)
Record path_changes := mk_changes {
  candidates : gmap str DiscoveredFile;
  deletions : gset str;
  directly_observed : gset str
}.
Definition add_candidate (path : str) (f : DiscoveredFile) (c : path_changes) : path_changes :=
  mk_changes (<[path := f]> (candidates c)) (deletions c) (directly_observed c).
Definition add_deletion (path : str) (c : path_changes) : path_changes :=
  mk_changes (candidates c) ({[ path ]} ∪ deletions c) (directly_observed c).
Definition observe_deletion (path : str) (c : path_changes) : path_changes :=
  mk_changes (candidates c) (deletions c) ({[ path ]} ∪ directly_observed c).

(** [ChangeSet]. *)
Record ChangeSet := mk_change_set {
  created : list str;
  modified_paths : list str;
  deleted : list str
}.
Definition classify (existing : gmap str FileRecord) (c : path_changes) : ChangeSet :=
  mk_change_set
    (sort_keys (elements (dom (filter (fun '(path, _) => existing !! path = None) (candidates c)))))
    (sort_keys (elements (dom (filter (fun '(path, _) => is_Some (existing !! path)) (candidates c)))))
    (sort_keys (elements (deletions c))).
Definition membership_changes (s : ChangeSet) : list str := created s ++ deleted s.

(** [RelocationKey] and [RelocationPlan]. *)
Definition RelocationKey : Type := string * Z * option string.
Record RelocationPlan := mk_relocation {
  old_path : str;
  new_file : DiscoveredFile;
  expected_hash : string
}.
Definition relocation_le (a b : RelocationPlan) : Prop :=
  key_le (relative_path (new_file a)) (relative_path (new_file b)).
#[global] Instance relocation_le_dec : RelDecision relocation_le.
Proof. intros a b. unfold relocation_le. apply _. Defined.

(** Entries of a HashMap of vectors. *)
Definition push_entry {X} (key : RelocationKey) (x : X) (m : gmap RelocationKey (list X)) : gmap RelocationKey (list X) :=
  <[key := default [] (m !! key) ++ [x]]> m.

(** ** Queries *)
Definition affected_importers_query (changed : list str) (d : index_db) : gset str :=
  list_to_set (omap (fun i => if bool_decide (Exists (fun c => c ∈ changed) (i_candidates i).*2)
                              then f_path <$> files d !! i_file i else None) (map_to_list (imports d)).*2).

(** The imports of a file by line and id. *)
Definition import_le (a b : Z * import_row) : Prop :=
  i_line a.2 < i_line b.2 \/ (i_line a.2 = i_line b.2 /\ a.1 <= b.1).
#[global] Instance import_le_dec : RelDecision import_le.
Proof. intros a b. unfold import_le. apply _. Defined.
Definition seeds_of_path (d : index_db) (path : str) : list ImportSeed :=
  match find_row path d with
  | Some (id, r) =>
    map (fun x => mk_seed x.1 id path (i_target x.2))
      (merge_sort import_le (map_to_list (filter (fun '(_, i) => i_file i = id) (imports d))))
  | None => []
  end.
Definition import_seeds_for_paths (paths : list str) (d : index_db) : list ImportSeed :=
  concat (map (seeds_of_path d) paths).

(** What one attempt is given. *)
Record path_attempt := mk_path_attempt {
  path_reads : nat -> index_db;
  importers_read : index_db;
  seeds_read : index_db;
  visibility_metadata : str -> symlink_metadata;
  targeted_metadata : str -> symlink_metadata;
  path_walk : list (option DirEntry);
  stability_disk : disk;
  relocation_disk : disk;
  projection_disk : disk;
  path_module_disk : disk;
  path_preparing_disk : disk;
  path_repair_disk : disk;
  path_found : index_db;
  rebuild_attempts : attempt * attempt * attempt
}.

Section Incremental.
Variable blake3_hex : byte_string -> string.
Variable count_tokens : byte_string -> Z.
Variable parse : str -> byte_string -> result ParseOutput.
Variable language_by_path : str -> option string.
Variable config : IndexerConfig.
Variable runtime_derivation config_hash : string.
(** What discovery admits, and [is_database_artifact_path] of a relative path. *)
Variable include : DirEntry -> bool.
Variable policy_includes : str -> bool -> bool.
Variable artifact : str -> bool.
Variable pool stage : result ().
Variable cancelled : string -> nat -> bool.

#[local] Abbreviation check_cancelled := (Preparation.check_cancelled cancelled).
#[local] Abbreviation check_rounds := (Preparation.check_rounds cancelled).
#[local] Abbreviation GoModuleIndex_load := (Preparation.GoModuleIndex_load cancelled).
#[local] Abbreviation content_unchanged := (Preparation.content_unchanged blake3_hex).
#[local] Abbreviation hash_bytes := (Preparation.hash_bytes blake3_hex).
#[local] Abbreviation prepare_candidate_batches :=
  (Preparation.prepare_candidate_batches blake3_hex count_tokens parse language_by_path config cancelled).

(** ** After a discovery *)
Definition discovered_changes (paths : list str) (existing : gmap str FileRecord) (observed : gset str)
    (files : list DiscoveredFile) : result path_changes :=
  let discovered : gmap str DiscoveredFile :=
    fold_left (fun m f => <[relative_path f := f]> m) files ∅ in
  let* _ := check_rounds "discovered" (size discovered) in
  let* _ := check_rounds "existing" (size existing) in
  Ok (mk_changes
        (filter (fun '(path, _) => existing !! path = None \/ binary_search_found paths path = true) discovered)
        (filter (fun path => path ∉ dom discovered) (dom existing))
        observed).

(** ** Without one: each reported path on its own *)
Fixpoint targeted_changes (n : nat) (paths : list str) (existing : gmap str FileRecord)
    (metadata : str -> symlink_metadata) (c : path_changes) : result path_changes :=
  match paths with
  | [] => Ok c
  | requested :: paths =>
    let* _ := check_cancelled "targeted" n in
    let* relative := parse_path requested in
    let relative_path := slash_path relative in
    let* _ := enforce_limit LimitDepth (len (components relative)) (max_depth (limits config)) in
    let gone :=
      if bool_decide (is_Some (existing !! relative_path))
      then add_deletion relative_path (observe_deletion relative_path c) else c in
    if artifact relative then targeted_changes (S n) paths existing metadata gone
    else
      match metadata relative with
      | MetadataNotFound => targeted_changes (S n) paths existing metadata gone
      | MetadataFailed => Err IoError
      | Metadata kind size modified =>
        if negb (policy_includes relative_path (bool_decide (kind = Directory)))
        then targeted_changes (S n) paths existing metadata gone
        else if max_file_bytes (limits config) <? size
        then targeted_changes (S n) paths existing metadata (add_deletion relative_path c)
        else targeted_changes (S n) paths existing metadata
               (add_candidate relative_path (mk_discovered relative_path size modified) c)
      end
  end.

(** ** [remove_content_stable_candidates] *)
Definition content_stable (d : disk) (existing : gmap str FileRecord) (path : str) (f : DiscoveredFile) : bool :=
  match existing !! path with
  | Some record => (record_size record =? discovered_size f)
      && content_unchanged d path (record_hash record) (max_file_bytes (limits config))
  | None => false
  end.
Definition remove_content_stable_candidates (d : disk) (existing : gmap str FileRecord) (c : path_changes)
    : result (path_changes * Z) :=
  let* _ := check_rounds "stable" (size (candidates c)) in
  Ok (mk_changes (filter (fun '(path, f) => content_stable d existing path f = false) (candidates c))
        (deletions c) (directly_observed c),
      Z.of_nat (size (filter (fun '(path, f) => content_stable d existing path f = true) (candidates c)))).

(** ** [plan_relocations] *)
Definition record_key (record : FileRecord) : RelocationKey :=
  (record_hash record, record_size record, record_language record).
Definition old_entry (existing : gmap str FileRecord) (m : gmap RelocationKey (list str)) (path : str) :=
  match existing !! path with
  | Some record => push_entry (record_key record) path m
  | None => m
  end.
Definition new_entry (d : disk) (candidates : gmap str DiscoveredFile) (m : gmap RelocationKey (list DiscoveredFile))
    (path : str) :=
  match candidates !! path with
  | None => m
  | Some f =>
    match read_bounded d (relative_path f) (max_file_bytes (limits config)) with
    | ReadBytes bytes => push_entry (hash_bytes bytes, len bytes, language_by_path (relative_path f)) f m
    | ReadTooLarge | ReadFailed _ _ => m
    end
  end.
(** The relocation of a key with one old path and one new file. *)
Definition relocation_of (new_by_key : gmap RelocationKey (list DiscoveredFile)) (x : RelocationKey * list str)
    : option RelocationPlan :=
  let '(key, old_paths) := x in
  match old_paths, new_by_key !! key with
  | [old], Some [f] => Some (mk_relocation old f key.1.1)
  | _, _ => None
  end.
Definition plan_relocations (d : disk) (existing : gmap str FileRecord) (candidates : gmap str DiscoveredFile)
    (changes : ChangeSet) : result (list RelocationPlan) :=
  match created changes, deleted changes with
  | [], _ | _, [] => Ok []
  | _, _ =>
    let* _ := check_rounds "relocation sources" (length (deleted changes)) in
    let* _ := check_rounds "relocation targets" (length (created changes)) in
    let old_by_key := fold_left (old_entry existing) (deleted changes) ∅ in
    let new_by_key := fold_left (new_entry d candidates) (created changes) ∅ in
    Ok (merge_sort relocation_le (omap (relocation_of new_by_key) (map_to_list old_by_key)))
  end.

(** ** [affected_importers] and [import_projections] *)
Definition affected_importers (d : index_db) (deletions : gset str) (changes : ChangeSet) : result (gset str) :=
  let importers := affected_importers_query (membership_changes changes) d in
  let* _ := check_rounds "importers" (size importers) in
  Ok (importers ∖ deletions).

Definition import_projection (overrides : gmap str str) (sorted_paths : list str) (go_modules : GoModuleIndex)
    (seed : ImportSeed) : ImportProjection :=
  let source_path := default (seed_source_path seed) (overrides !! seed_source_path seed) in
  mk_import_projection (seed_id seed) (seed_file_id seed)
    (derive_import_projection source_path (seed_raw_target seed) sorted_paths go_modules).
Definition import_projections (d : disk) (db : index_db) (paths : gset str) (overrides : gmap str str)
    (repository_paths : gset str) : result (list ImportProjection) :=
  let seeds := import_seeds_for_paths (sort_keys (elements paths)) db in
  let* go_modules := GoModuleIndex_load "projection modules" d repository_paths in
  let* _ := check_rounds "projections" (length seeds) in
  Ok (map (import_projection overrides (sorted_indexed_paths repository_paths) go_modules) seeds).

(** ** [validate_membership_limits] *)
Definition admit_member (x : Z * Z) (size : Z) : result (Z * Z) :=
  let files := u64_saturating_add x.1 1 in
  let* _ := enforce_limit LimitFiles files (max_files (limits config)) in
  let total := u64_saturating_add x.2 size in
  let* _ := enforce_limit LimitTotalSourceBytes total (max_total_source_bytes (limits config)) in
  Ok (files, total).
Fixpoint admit_members (n : nat) (sizes : list (option Z)) (x : Z * Z) : result (Z * Z) :=
  match sizes with
  | [] => Ok x
  | size :: sizes =>
    let* _ := check_cancelled "membership" n in
    let* x := match size with Some size => admit_member x size | None => Ok x end in
    admit_members (S n) sizes x
  end.
(** The existing files, [None] for those that go or are candidates, and the candidates. *)
Definition member_sizes (existing : gmap str FileRecord) (c : path_changes) : list (option Z) :=
  map (fun '(path, record) =>
         if negb (bool_decide (path ∈ deletions c)) && negb (bool_decide (is_Some (candidates c !! path)))
         then Some (record_size record) else None) (map_to_list existing)
  ++ map (fun x => Some (discovered_size x.2)) (map_to_list (candidates c)).
Definition validate_membership_limits (existing : gmap str FileRecord) (c : path_changes) : result () :=
  let* _ := admit_members 0 (member_sizes existing c) (0, 0) in Ok ().

(** ** Consuming prepared files *)
Record path_state := mk_path_state {
  path_source_bytes : PublishedSourceBytes;
  path_deletions : gset str;
  path_unchanged : Z;
  path_staged : PreparedReconciliation;
  path_warnings : list warning;
  path_skips : IndexSkipReasonCounts;
  updated_paths : gset str
}.

(** A prepared file that the index already has. *)
Definition same_as_indexed (existing : gmap str FileRecord) (file : IndexedFile) : bool :=
  match existing !! indexed_path file with
  | Some record => bool_decide (record_hash record = content_hash (indexed_columns file))
      && (record_size record =? size_bytes (indexed_columns file))
  | None => false
  end.

Definition absorb_path (existing : gmap str FileRecord) (x : path_state * list IndexedFile * gmap str Z)
    (p : PreparedFile) : path_state * list IndexedFile * gmap str Z :=
  let '(s, indexed, counts) := x in
  match p with
  | Indexed file tokens warn =>
    let bytes := replace_size (indexed_path file) (size_bytes (indexed_columns file)) (path_source_bytes s) in
    if same_as_indexed existing file
    then (mk_path_state bytes (path_deletions s) (path_unchanged s + 1) (path_staged s) (path_warnings s)
            (path_skips s) (updated_paths s), indexed, counts)
    else (mk_path_state bytes (path_deletions s) (path_unchanged s) (path_staged s)
            (match warn with Some w => push_warning (path_warnings s) w | None => path_warnings s end)
            (path_skips s) (updated_paths s), indexed ++ [file], <[indexed_path file := tokens]> counts)
  | PreparedBinary path =>
    let dropped := drop_existing existing path (path_deletions s) (path_staged s) in
    (mk_path_state (remove_size path (path_source_bytes s)) dropped.1 (path_unchanged s) dropped.2 (path_warnings s)
       (mk_skips (u64_saturating_add (skipped_binary (path_skips s)) 1) (oversized_during_read (path_skips s))
          (skipped_failed (path_skips s))) (updated_paths s), indexed, counts)
  | Oversized path =>
    let dropped := drop_existing existing path (path_deletions s) (path_staged s) in
    (mk_path_state (remove_size path (path_source_bytes s)) dropped.1 (path_unchanged s) dropped.2 (path_warnings s)
       (mk_skips (skipped_binary (path_skips s)) (u64_saturating_add (oversized_during_read (path_skips s)) 1)
          (skipped_failed (path_skips s))) (updated_paths s), indexed, counts)
  | Failed path message =>
    (mk_path_state (path_source_bytes s) (path_deletions s) (path_unchanged s) (path_staged s)
       (push_warning (path_warnings s) (PreparationFailed path message))
       (mk_skips (skipped_binary (path_skips s)) (oversized_during_read (path_skips s))
          (u64_saturating_add (skipped_failed (path_skips s)) 1)) (updated_paths s), indexed, counts)
  end.

Definition consume_paths (existing : gmap str FileRecord) (go_modules : GoModuleIndex) (sorted_paths : list str)
    (batch : nat) (prepared : list PreparedFile) (s : path_state) : run (result path_state) :=
  match check_cancelled "consume" batch with
  | Err e => Done (Err e)
  | Ok _ =>
    let '(s, indexed, counts) := fold_left (absorb_path existing) prepared (s, [], ∅) in
    match resolve_imports cancelled batch indexed go_modules sorted_paths with
    | Err e => Done (Err e)
    | Ok indexed =>
      match check_cancelled "stage" batch with
      | Err e => Done (Err e)
      | Ok _ =>
        match stage_indexed_files indexed counts (path_staged s) with
        | Done filled =>
          Done (let* flushed := flush filled in
                Ok (mk_path_state (path_source_bytes s) (path_deletions s) (path_unchanged s) flushed (path_warnings s)
                      (path_skips s) (list_to_set (map indexed_path indexed) ∪ updated_paths s)))
        | Panic => Panic
        | NoFuel => NoFuel
        end
      end
    end
  end.

(** ** The plan *)
Record path_plan := mk_path_plan {
  inc_baseline : MetaRecord;
  inc_existing : gmap str FileRecord;
  inc_changes : path_changes;
  inc_change_set : ChangeSet;
  inc_unchanged : Z;
  inc_relocations : list RelocationPlan;
  inc_projections : list ImportProjection;
  inc_refresh_paths : gset str;
  inc_repository_paths : gset str
}.

(** The reported paths in canonical form, without duplicates, sorted. *)
Fixpoint canonical_paths (n : nat) (paths : list str) : result (list str) :=
  match paths with
  | [] => Ok []
  | path :: paths =>
    let* _ := check_cancelled "paths" n in
    let* relative := parse_path path in
    let* rest := canonical_paths (S n) paths in
    Ok (slash_path relative :: rest)
  end.
Definition normalized_paths (paths : list str) : result (list str) :=
  let* canonical := canonical_paths 0 paths in
  let* _ := check_cancelled "sort" 0 in
  let paths := sort_keys (elements (list_to_set canonical : gset str)) in
  let* _ := check_cancelled "sort" 1 in
  Ok paths.

Definition collect_changes (a : path_attempt) (paths : list str) (existing : gmap str FileRecord) : result path_changes :=
  match observe_visibility_delta paths existing (visibility_metadata a) with
  | Some observed =>
    let* discovery := discover_files (cancelled "discovery") include (limits config) (path_walk a) in
    discovered_changes paths existing observed discovery.1
  | None => targeted_changes 0 paths existing (targeted_metadata a) (mk_changes ∅ ∅ ∅)
  end.

Definition relocation_overrides (relocations : list RelocationPlan) : gmap str str :=
  fold_left (fun m r => <[old_path r := relative_path (new_file r)]> m) relocations ∅.
Definition relocated_from (relocations : list RelocationPlan) : gset str := list_to_set (map old_path relocations).
Definition relocated_to (relocations : list RelocationPlan) : gset str :=
  list_to_set (map (fun r => relative_path (new_file r)) relocations).

(** From the changes to everything that is planned before the preparation. *)
Definition plan_changes (a : path_attempt) (baseline : MetaRecord) (existing : gmap str FileRecord) (paths : list str)
    : result path_plan :=
  let* collected := collect_changes a paths existing in
  let* stable := remove_content_stable_candidates (stability_disk a) existing collected in
  let '(c, unchanged) := stable in
  let changes := classify existing c in
  let repository_paths := (dom existing ∖ list_to_set (deleted changes)) ∪ dom (candidates c) in
  let* relocations := plan_relocations (relocation_disk a) existing (candidates c) changes in
  let* affected := affected_importers (importers_read a) (deletions c) changes in
  let* _ := validate_membership_limits existing c in
  let refresh := affected ∪ relocated_from relocations in
  let* projections := import_projections (projection_disk a) (seeds_read a) refresh (relocation_overrides relocations)
                        repository_paths in
  Ok (mk_path_plan baseline existing
        (mk_changes (candidates c) (deletions c) (filter (fun path => path ∈ deletions c) (directly_observed c)))
        changes unchanged relocations projections refresh repository_paths).

(** The candidates to prepare: those that are not relocated. *)
Definition path_candidates (p : path_plan) : list DiscoveredFile :=
  (map_to_list (filter (fun '(path, _) => path ∉ relocated_to (inc_relocations p)) (candidates (inc_changes p)))).*2.

(** The source bytes and the updated paths before anything is prepared. *)
Definition planned_bytes (p : path_plan) : PublishedSourceBytes :=
  fold_left (fun b r => replace_size (relative_path (new_file r)) (discovered_size (new_file r)) b) (inc_relocations p)
    (new_source_bytes (sizes_of (inc_existing p)) (deletions (inc_changes p)) (max_total_source_bytes (limits config))).
Definition planned_updates (p : path_plan) : gset str :=
  fold_left (fun updated r => {[ relative_path (new_file r) ]} ∪ (updated ∖ {[ old_path r ]})) (inc_relocations p)
    (inc_refresh_paths p ∖ deletions (inc_changes p)).

Definition prepare_paths (a : path_attempt) (p : path_plan) : run (result path_state) :=
  match (let* go_modules := GoModuleIndex_load "modules" (path_module_disk a) (inc_repository_paths p) in
         let* _ := stage in
         Ok go_modules) with
  | Err e => Done (Err e)
  | Ok go_modules =>
    match prepare_candidate_batches
            (consume_paths (inc_existing p) go_modules (sorted_indexed_paths (inc_repository_paths p)))
            (path_preparing_disk a) pool (path_candidates p)
            (mk_path_state (planned_bytes p) (deletions (inc_changes p)) (inc_unchanged p) empty_stage []
               (mk_skips 0 0 0) (planned_updates p)) with
    | Done (Ok s) =>
      Done (let* _ := enforce (path_source_bytes s) in
            let* finished := flush (path_staged s) in
            let* _ := check_cancelled "prepared" 0 in
            Ok (mk_path_state (path_source_bytes s) (path_deletions s) (path_unchanged s) finished (path_warnings s)
                  (path_skips s) (updated_paths s)))
    | Done (Err e) => Done (Err e)
    | Panic => Panic
    | NoFuel => NoFuel
    end
  end.

(** ** The publication *)
Fixpoint relocate_all (relocations : list RelocationPlan) (w : ReconciliationWriter) : result ReconciliationWriter :=
  match relocations with
  | [] => Ok w
  | r :: relocations =>
    let f := new_file r in
    let* w := relocate (old_path r) (relative_path f) (discovered_size f) (discovered_modified f) (expected_hash r) w in
    relocate_all relocations w
  end.

Definition write_paths (verified changed_semantics : bool) (d : disk) (p : path_plan) (s : path_state)
    (w : ReconciliationWriter) : run (result (Z * ReconciliationWriter)) :=
  let w := fold_left (fun w path => if bool_decide (path ∈ relocated_from (inc_relocations p)) then w
                                    else Publication.delete path w) (elements (path_deletions s)) w in
  match (let* w := relocate_all (inc_relocations p) w in
         let* w := refresh_import_projections (inc_projections p) w in
         apply_stage (tokenizer config) (path_staged s) w) with
  | Err e => Done (Err e)
  | Ok w => verify_or_repair_import_projections cancelled verified changed_semantics d w
  end.

Definition path_report (p : path_plan) (s : path_state) (generation repaired : Z) : IndexReport :=
  mk_report generation
    (u64_saturating_add (u64_saturating_add (inc_unchanged p) (Z.of_nat (size (candidates (inc_changes p)))))
       (Z.of_nat (size (directly_observed (inc_changes p)))))
    (Z.of_nat (size (updated_paths s))) (path_unchanged s) (Z.of_nat (size (path_deletions s)))
    (skips_total (path_skips s))
    (if 0 <? repaired then push_warning (path_warnings s) (ProjectionsRepaired repaired) else path_warnings s)
    (path_skips s).

(** [reconcile_paths_once]: the database after the attempt, whether the
    projections are now known to be right, and the outcome. *)
Definition reconcile_paths_once (fuel : nat) (verified : bool) (requested : list str) (a : path_attempt)
    : run (index_db * bool * result IndexReport) :=
  let baseline := meta (path_reads a 0) in
  match check_cancelled "start" 0 with
  | Err e => Done (path_found a, verified, Err e)
  | Ok _ =>
    if negb (bool_decide (base_config_hash baseline = config_hash))
       || negb (bool_decide (base_derivation baseline = runtime_derivation))
    then
      let '(a1, a2, a3) := rebuild_attempts a in
      reconcile_cancellable blake3_hex count_tokens parse language_by_path config runtime_derivation config_hash include
        pool stage cancelled fuel Rebuild verified a1 a2 a3
    else
      match existing_files cancelled fuel (fun n => path_reads a (S n)) with
      | Done (Ok existing) =>
        match (let* _ := check_rounds "repository paths" (size existing) in
               let* paths := normalized_paths requested in
               plan_changes a baseline existing paths) with
        | Err e => Done (path_found a, verified, Err e)
        | Ok p =>
          match prepare_paths a p with
          | Done (Ok s) =>
            let changed_semantics := negb (bool_decide (created (inc_change_set p) = []))
              || negb (bool_decide (path_deletions s = ∅))
              || existsb is_go_mod_path (modified_paths (inc_change_set p)) in
            match publish_reconciliation runtime_derivation (fun _ => Ok ()) (inc_baseline p) config_hash ReconcileMode
                    (write_paths verified changed_semantics (path_repair_disk a) p s) (path_found a) with
            | Done t =>
              let '(d, r) := run_tx (path_found a) t in
              match r with
              | Err e => Done (d, verified, Err e)
              | Ok (generation, repaired) => Done (d, true, Ok (path_report p s generation repaired))
              end
            | Panic => Panic
            | NoFuel => NoFuel
            end
          | Done (Err e) => Done (path_found a, verified, Err e)
          | Panic => Panic
          | NoFuel => NoFuel
          end
        end
      | Done (Err e) => Done (path_found a, verified, Err e)
      | Panic => Panic
      | NoFuel => NoFuel
      end
  end.

(** [reconcile_paths_cancellable_report]: three attempts. *)
Fixpoint reconcile_paths_attempts (fuel : nat) (verified : bool) (requested : list str) (d : index_db)
    (attempts : list path_attempt) : run (index_db * bool * result IndexReport) :=
  match attempts with
  | [] => Done (d, verified, Err RetryableConflict)
  | a :: attempts =>
    match reconcile_paths_once fuel verified requested a with
    | Done (d, verified, Err (StaleReconciliation _ _)) => reconcile_paths_attempts fuel verified requested d attempts
    | outcome => outcome
    end
  end.
Definition reconcile_paths (fuel : nat) (verified : bool) (requested : list str) (a1 a2 a3 : path_attempt)
    : run (index_db * bool * result IndexReport) :=
  reconcile_paths_attempts fuel verified requested (path_found a1) [a1; a2; a3].
End Incremental.
