(* ===== verification/IncrementalFacts.v ===== *)
(** * Facts about the reconciliation of reported paths

    The keys of the changes that are collected, the soundness of the planned
    relocations, the state after the preparation, and the map that the publication
    makes of the index. *)

From S2P Require Import Prelude Chars Order Store Paths StdPath ImportResolution Discovery IndexDb.
From S2P Require Import Publication IndexModel ProjectionRepair Preparation Indexer IndexerFacts FullIndex.
From S2P Require Import Incremental.
From S2P Require Text.
Open Scope Z_scope.
Open Scope store_scope.

(** ** The reported paths *)

Lemma safe_canonical cs : Forall safe_component cs -> canonical cs.
Proof. intros Hs. eapply Forall_impl; [exact Hs|exact safe_name_component]. Qed.

Lemma slash_path_safe v : safe_path v -> slash_path v = v.
Proof.
  intros (cs & _ & Hs & ->). unfold slash_path. rewrite components_canonical by by apply safe_canonical.
  f_equal. clear Hs. induction cs as [|c cs IH]; [done|]. cbn. by rewrite IH.
Qed.

(** A reported path in canonical form is a fixed point of the parser, if it is accepted. *)
Lemma slash_path_fixed x r r' : parse_path x = Ok r -> parse_path (slash_path r) = Ok r' -> slash_path r' = slash_path r.
Proof.
  intros Hr Hr'. apply normalize_spec in Hr as [_ [[-> _]|Hs]].
  - vm_compute in Hr'. done.
  - rewrite (slash_path_safe r Hs) in *. unfold parse_path in Hr'. rewrite (normalize_safe r) in Hr' by done.
    repeat case_match; try done. injection Hr' as <-. by apply slash_path_safe.
Qed.

Section Paths.
Variable cancelled : string -> nat -> bool.

Lemma canonical_paths_spec n l out p : canonical_paths cancelled n l = Ok out -> p ∈ out ->
  exists x r, x ∈ l /\ parse_path x = Ok r /\ p = slash_path r.
Proof.
  revert n out. induction l as [|x l IH]; cbn [canonical_paths]; intros n out; [by intros [= <-] ?%elem_of_nil|].
  destruct (check_cancelled _ _ _); cbn [result_bind]; [|done].
  destruct (parse_path x) as [r|] eqn:Er; cbn [result_bind]; [|done].
  destruct (canonical_paths _ _ l) as [rest|] eqn:E; cbn [result_bind]; [|done].
  intros [= <-] [->|Hp]%elem_of_cons; [exists x, r; split; [by left|done]|].
  destruct (IH _ _ E Hp) as (y & s & Hy & ? & ?). exists y, s. split; [by right|done].
Qed.

Lemma normalized_paths_spec l out : normalized_paths cancelled l = Ok out ->
  increasing out /\ forall p, p ∈ out -> exists x r, x ∈ l /\ parse_path x = Ok r /\ p = slash_path r.
Proof.
  unfold normalized_paths. destruct (canonical_paths cancelled 0 l) as [c|] eqn:E; cbn [result_bind]; [|done].
  destruct (check_cancelled _ "sort" 0); cbn [result_bind]; [|done].
  destruct (check_cancelled _ "sort" 1); cbn [result_bind]; [|done]. intros [= <-]. split.
  - apply sort_keys_increasing, NoDup_elements.
  - intros p. unfold sort_keys. rewrite merge_sort_Permutation, elem_of_elements, elem_of_list_to_set.
    by eapply canonical_paths_spec.
Qed.

(** In canonical form a path is accepted as itself or refused. *)
Definition fixed_paths (paths : list str) : Prop :=
  NoDup paths /\ forall p r, p ∈ paths -> parse_path p = Ok r -> slash_path r = p.

Lemma normalized_paths_fixed l out : normalized_paths cancelled l = Ok out -> fixed_paths out.
Proof.
  intros H. destruct (normalized_paths_spec l out H) as [Hinc Hout]. split; [by apply increasing_NoDup|].
  intros p r Hp Hr. destruct (Hout p Hp) as (x & r0 & _ & Hx & ->). by eapply slash_path_fixed.
Qed.
End Paths.

(** ** The changes that are collected *)

(** Candidates are filed under their paths, apart from the deletions; every
    reported path that is indexed is one of the two; and sizes are the disk's. *)
Record collected (existing : gmap str FileRecord) (paths : list str) (dk : disk) (c : path_changes) : Prop := {
  col_keyed : forall p f, candidates c !! p = Some f -> relative_path f = p /\ (p ∉ deletions c);
  col_covers : forall p, p ∈ paths -> is_Some (existing !! p) -> is_Some (candidates c !! p) \/ p ∈ deletions c;
  col_sizes : forall p f b, candidates c !! p = Some f -> dk p = FileBytes b -> discovered_size f = len b
}.

Section Collect.
Variable config : IndexerConfig.
Variable policy_includes : str -> bool -> bool.
Variable artifact : str -> bool.
Variable cancelled : string -> nat -> bool.
Variable existing : gmap str FileRecord.
Variable dk : disk.

Lemma discovered_changes_spec paths observed files c : NoDup (map relative_path files) -> increasing paths ->
  (forall f b, f ∈ files -> dk (relative_path f) = FileBytes b -> discovered_size f = len b) ->
  discovered_changes cancelled paths existing observed files = Ok c -> collected existing paths dk c.
Proof.
  intros Hnd Hinc Hsizes. unfold discovered_changes.
  destruct (check_rounds _ _ _); cbn [result_bind]; [|done]. destruct (check_rounds _ _ _); cbn [result_bind]; [|done].
  set (m := fold_left _ files ∅). intros [= <-].
  assert (Hm : forall p f, m !! p = Some f <-> f ∈ files /\ relative_path f = p).
  { intros p f. unfold m. rewrite (insert_all_lookup relative_path) by done. rewrite lookup_empty.
    split; [by intros [?|[_ ?]]|by left]. }
  split; cbn [candidates deletions].
  - intros p f [Hf _]%map_lookup_filter_Some. pose proof (proj1 (Hm p f) Hf) as [_ Hp]. split; [done|].
    intros [Hn _]%elem_of_filter. apply Hn, elem_of_dom. by exists f.
  - intros p Hp Hex. destruct (m !! p) as [f|] eqn:E.
    + left. exists f. apply map_lookup_filter_Some. split; [done|]. right. by apply binary_search_found_iff.
    + right. apply elem_of_filter. split; [by apply not_elem_of_dom|by apply elem_of_dom].
  - intros p f b [Hf _]%map_lookup_filter_Some. apply Hm in Hf as [Hf <-]. by apply Hsizes.
Qed.

(** What holds while the paths are walked. *)
Lemma targeted_changes_spec metadata n paths done_ c c' : fixed_paths (done_ ++ paths) ->
  (forall r kind size modified b, metadata r = Metadata kind size modified -> dk (slash_path r) = FileBytes b -> size = len b) ->
  (forall p, p ∈ paths -> candidates c !! p = None /\ (p ∉ deletions c)) -> collected existing done_ dk c ->
  targeted_changes config policy_includes artifact cancelled n paths existing metadata c = Ok c' ->
  collected existing (done_ ++ paths) dk c'.
Proof.
  intros Hfix Hmeta. revert n done_ c Hfix. induction paths as [|p paths IH]; intros n done_ c Hfix Hfresh Hc;
    cbn [targeted_changes]; [by intros [= <-]; rewrite app_nil_r|].
  destruct (Preparation.check_cancelled _ _ _); cbn [result_bind]; [|done].
  destruct (parse_path p) as [r|] eqn:Er; cbn [result_bind]; [|done].
  pose proof Hfix as [Hnd Hfixed]. assert (slash_path r = p) as Hp by (apply Hfixed; [apply elem_of_app; right; by left|done]).
  destruct (enforce_limit _ _ _); cbn [result_bind]; [|done]. rewrite Hp.
  destruct (Hfresh p) as [Hnc Hndel]; [by left|]. destruct Hc as [Hk Hcov Hs].
  apply NoDup_app in Hnd as (Hnd1 & Hdisj & [Hpn Hnd2]%NoDup_cons).
  replace (done_ ++ p :: paths) with ((done_ ++ [p]) ++ paths) in * by by rewrite <-app_assoc.
  assert (Hnext : forall n c1, collected existing (done_ ++ [p]) dk c1 ->
    (forall q, q <> p -> candidates c1 !! q = candidates c !! q /\ (q ∈ deletions c1 <-> q ∈ deletions c)) ->
    targeted_changes config policy_includes artifact cancelled n paths existing metadata c1 = Ok c' ->
    collected existing ((done_ ++ [p]) ++ paths) dk c').
  { intros n1 c1 Hc1 Hsame. apply (IH n1 _ c1); [done| |done].
    intros q Hq. destruct (Hsame q) as [-> Hdel]; [by intros ->|]. rewrite Hdel. apply Hfresh. by right. }
  assert (Hdelete : forall c1, candidates c1 = candidates c -> deletions c1 = {[ p ]} ∪ deletions c ->
    collected existing (done_ ++ [p]) dk c1).
  { intros c1 H1 H2. split; rewrite ?H1, ?H2.
    - intros q f Hf. destruct (Hk q f Hf) as [? Hn]. split; [done|].
      intros [->%elem_of_singleton|?]%elem_of_union; [|done]. by rewrite Hnc in Hf.
    - intros q [Hq| ->%list_elem_of_singleton]%elem_of_app Hex; [|right; by apply elem_of_union_l, elem_of_singleton].
      destruct (Hcov q Hq Hex); [by left|right; by apply elem_of_union_r].
    - exact Hs. }
  assert (Hothers : forall c1, candidates c1 = candidates c -> deletions c1 = {[ p ]} ∪ deletions c ->
    forall q, q <> p -> candidates c1 !! q = candidates c !! q /\ (q ∈ deletions c1 <-> q ∈ deletions c)).
  { intros c1 H1 H2 q Hq. rewrite H1, H2. split; [done|]. by rewrite elem_of_union, elem_of_singleton; split; [intros [?|?]|right]. }
  assert (Hgone : forall n, targeted_changes config policy_includes artifact cancelled n paths existing metadata
      (if bool_decide (is_Some (existing !! p)) then add_deletion p (observe_deletion p c) else c) = Ok c' ->
    collected existing ((done_ ++ [p]) ++ paths) dk c').
  { intros n1. case_bool_decide as Hex.
    - apply Hnext; [by apply Hdelete|by apply Hothers].
    - apply Hnext; [|done]. split; [done| |done]. intros q [Hq| ->%list_elem_of_singleton]%elem_of_app Hq'; [by apply Hcov|done]. }
  destruct (artifact r); [by apply Hgone|]. destruct (metadata r) as [kind size modified| |] eqn:Em; [|by apply Hgone|done].
  destruct (negb _); [by apply Hgone|]. destruct (_ <? size); [apply Hnext; [by apply Hdelete|by apply Hothers]|].
  apply Hnext.
  - split; cbn [candidates deletions add_candidate].
    + intros q f [[<- <-]|[Hne Hf]]%lookup_insert_Some; [done|by apply Hk].
    + intros q [Hq| ->%list_elem_of_singleton]%elem_of_app Hex; [|left; by rewrite lookup_insert_eq].
      destruct (Hcov q Hq Hex); [left|by right]. by apply lookup_insert_is_Some'; right.
    + intros q f b [[<- <-]|[Hne Hf]]%lookup_insert_Some; [|by apply Hs]. cbn. rewrite <-Hp. by apply (Hmeta r kind size modified).
  - intros q Hq. cbn. by rewrite lookup_insert_ne.
Qed.
End Collect.

(** ** Consuming prepared files *)

(** The results that are not what the index has already. *)
Definition fresh (existing : gmap str FileRecord) (x : PreparedFile) : bool :=
  match x with Indexed file _ _ => negb (same_as_indexed existing file) | _ => true end.

(** The part of the state that a full reconciliation shares. *)
Definition agrees (s : path_state) (t : full_state) : Prop :=
  path_staged s = staged t /\ path_deletions s = removed t.

Section ConsumePaths.
Variable existing : gmap str FileRecord.
Variables (go_modules : GoModuleIndex) (sorted_paths : list str).
Variable base : gset str.

Lemma absorb_paths_agree ys s t idx counts : agrees s t ->
  exists s' t' idx' counts', fold_left (absorb_path existing) ys (s, idx, counts) = (s', idx', counts')
    /\ fold_left (absorb existing) (List.filter (fresh existing) ys) (t, idx, counts) = (t', idx', counts')
    /\ agrees s' t'.
Proof.
  revert s t idx counts. induction ys as [|y ys IH]; intros s t idx counts Hst; [by exists s, t, idx, counts|].
  destruct Hst as [H1 H2]. destruct y as [file tokens warn|path|path|path message]; cbn [List.filter fresh fold_left absorb_path].
  - destruct (same_as_indexed existing file); cbn [negb]; [by apply IH|]. cbn [fold_left absorb]. by apply IH.
  - cbn [absorb]. rewrite <-H1, <-H2. by apply IH.
  - cbn [absorb]. rewrite <-H1, <-H2. by apply IH.
  - cbn [absorb]. by apply IH.
Qed.

(** What is known of the state after the results [xs]. *)
Definition paths_consumed (t0 : full_state) (xs : list PreparedFile) (s : path_state) : Prop :=
  exists t, agrees s t /\ consumed existing go_modules sorted_paths base t0 (List.filter (fresh existing) xs) t.

Lemma NoDup_map_filter {A B} (f : A -> B) (g : A -> bool) (l : list A) : NoDup (map f l) -> NoDup (map f (List.filter g l)).
Proof. intros H. eapply sublist_NoDup; [exact H|]. apply map_filter_sublist. Qed.

Lemma consume_paths_step cancelled t0 xs ys batch s : paths_consumed t0 xs s -> NoDup (map prepared_path (xs ++ ys)) ->
  exists r, consume_paths cancelled existing go_modules sorted_paths batch ys s = Done r
    /\ match r with Ok s' => paths_consumed t0 (xs ++ ys) s' | Err _ => True end.
Proof.
  intros (t & Hst & Ht) Hnd.
  destruct (consume_step existing go_modules sorted_paths base cancelled t0 (List.filter (fresh existing) xs)
              (List.filter (fresh existing) ys) batch t Ht) as (r & Hr & Hres).
  { rewrite <-List.filter_app. by apply NoDup_map_filter. }
  unfold consume in Hr. unfold consume_paths.
  destruct (check_cancelled cancelled "consume" batch); [|by eexists].
  destruct (absorb_paths_agree ys s t [] ∅ Hst) as (s1 & t1 & idx & counts & -> & Et & [H1 H2]).
  rewrite Et in Hr. destruct (resolve_imports _ _ _ _ _) as [idx'|]; [|by eexists].
  destruct (check_cancelled cancelled "stage" batch); [|by eexists]. rewrite H1.
  destruct (stage_indexed_files idx' counts (staged t1)) as [filled| |]; [|done..].
  eexists. split; [done|]. destruct (flush filled) as [st|]; cbn [result_bind] in *; [|done]. injection Hr as <-.
  rewrite <-List.filter_app in Hres. eexists. split; [|exact Hres]. by split.
Qed.
End ConsumePaths.

(** ** Planned relocations *)
Section Relocations.
Variable blake3_hex : byte_string -> string.
Variable language_by_path : str -> option string.
Variable config : IndexerConfig.

(** Every entry of a group satisfies what the members of the group do. *)
Definition grouped {X} (P : RelocationKey -> X -> Prop) (m : gmap RelocationKey (list X)) : Prop :=
  forall key l x, m !! key = Some l -> x ∈ l -> P key x.
Lemma push_grouped {X} (P : RelocationKey -> X -> Prop) key x m : P key x -> grouped P m -> grouped P (push_entry key x m).
Proof.
  intros Hx Hm k l y Hk Hy. unfold push_entry in Hk. apply lookup_insert_Some in Hk as [[<- <-]|[_ Hk]]; [|by eapply Hm].
  apply elem_of_app in Hy as [Hy| ->%list_elem_of_singleton]; [|done].
  destruct (m !! key) as [l|] eqn:E; [by eapply Hm|by apply elem_of_nil in Hy].
Qed.

Lemma fold_grouped {X} (P : RelocationKey -> X -> Prop) (step : gmap RelocationKey (list X) -> str -> gmap RelocationKey (list X))
    (l : list str) m :
  (forall m p, p ∈ l -> grouped P m -> grouped P (step m p)) -> grouped P m -> grouped P (fold_left step l m).
Proof.
  intros Hstep. revert m. induction l as [|p l IH]; intros m Hm; [done|]. cbn [fold_left]. apply IH.
  - intros m' q Hq. apply Hstep. by right.
  - apply Hstep; [by left|done].
Qed.

Lemma grouped_empty {X} (P : RelocationKey -> X -> Prop) : grouped P ∅.
Proof. by intros key l x ?%lookup_empty_Some. Qed.

(** What a member of a group of old paths, and of new files, is. *)
Definition old_member (existing : gmap str FileRecord) (deleted : list str) (key : RelocationKey) (path : str) : Prop :=
  path ∈ deleted /\ exists record, existing !! path = Some record /\ record_key record = key.
Definition new_member (dk : disk) (candidates : gmap str DiscoveredFile) (created : list str) (key : RelocationKey)
    (f : DiscoveredFile) : Prop :=
  exists path bytes, path ∈ created /\ candidates !! path = Some f
    /\ read_bounded dk (relative_path f) (max_file_bytes (limits config)) = ReadBytes bytes
    /\ key = (hash_bytes blake3_hex bytes, len bytes, language_by_path (relative_path f)).

(** What is known of a planned relocation. *)
Record relocation_sound (dk : disk) (existing : gmap str FileRecord) (candidates : gmap str DiscoveredFile)
    (changes : ChangeSet) (r : RelocationPlan) : Prop := {
  sound_old : old_path r ∈ deleted changes;
  sound_new : exists path, path ∈ created changes /\ candidates !! path = Some (new_file r);
  sound_record : exists record bytes, existing !! old_path r = Some record
    /\ read_bounded dk (relative_path (new_file r)) (max_file_bytes (limits config)) = ReadBytes bytes
    /\ record_hash record = hash_bytes blake3_hex bytes /\ record_size record = len bytes
    /\ record_language record = language_by_path (relative_path (new_file r))
    /\ expected_hash r = record_hash record
}.

Lemma plan_relocations_sound cancelled dk existing candidates changes rs :
  (forall p f, candidates !! p = Some f -> relative_path f = p) ->
  plan_relocations blake3_hex language_by_path config cancelled dk existing candidates changes = Ok rs ->
  (forall r, r ∈ rs -> relocation_sound dk existing candidates changes r)
  /\ NoDup (map old_path rs) /\ NoDup (map (fun r => relative_path (new_file r)) rs)
  /\ (created changes = [] \/ deleted changes = [] -> rs = []).
Proof.
  intros Hkeys. unfold plan_relocations.
  assert (Hnil : Ok [] = Ok rs -> (forall r, r ∈ rs -> relocation_sound dk existing candidates changes r)
    /\ NoDup (map old_path rs) /\ NoDup (map (fun r => relative_path (new_file r)) rs) /\ rs = []).
  { intros [= <-]. split_and!; [by intros r ?%elem_of_nil|constructor|constructor|done]. }
  destruct (created changes) as [|c0 cs] eqn:Ec; [intros H; destruct (Hnil H) as (?&?&?&?); by split_and!|].
  destruct (deleted changes) as [|d0 ds] eqn:Ed; [intros H; destruct (Hnil H) as (?&?&?&?); by split_and!|].
  rewrite <-Ec, <-Ed. clear Hnil.
  destruct (check_rounds _ _ _); cbn [result_bind]; [|done]. destruct (check_rounds _ _ _); cbn [result_bind]; [|done].
  set (olds := fold_left (old_entry existing) _ _). set (news := fold_left (new_entry _ _ _ _ _) _ _).
  intros [= <-].
  assert (Holds : grouped (old_member existing (deleted changes)) olds).
  { apply fold_grouped; [|apply grouped_empty]. intros m p Hp Hm. unfold old_entry.
    destruct (existing !! p) as [record|] eqn:E; [|done]. apply push_grouped; [|done]. split; [done|by exists record]. }
  assert (Hnews : grouped (new_member dk candidates (created changes)) news).
  { apply fold_grouped; [|apply grouped_empty]. intros m p Hp Hm. unfold new_entry.
    destruct (candidates !! p) as [f|] eqn:E; [|done]. destruct (read_bounded _ _ _) as [b| |] eqn:Er; [|done..].
    apply push_grouped; [|done]. by exists p, b. }
  assert (Hof : forall key ps r, relocation_of news (key, ps) = Some r -> olds !! key = Some ps ->
    ps = [old_path r] /\ old_member existing (deleted changes) key (old_path r)
    /\ new_member dk candidates (created changes) key (new_file r) /\ expected_hash r = key.1.1).
  { intros key ps r Hr Hps. unfold relocation_of in Hr. destruct ps as [|old [|? ?]]; [done| |done].
    destruct (news !! key) as [[|f [|? ?]]|] eqn:En; [done| |done|done]. injection Hr as <-. cbn. split_and!; [done| | |done].
    - apply (Holds _ _ _ Hps). by left.
    - apply (Hnews _ _ _ En). by left. }
  assert (Hmem : forall r, r ∈ omap (relocation_of news) (map_to_list olds) ->
    exists key, olds !! key = Some [old_path r] /\ relocation_of news (key, [old_path r]) = Some r).
  { intros r ([key ps] & Hin%elem_of_map_to_list & Hr)%list_elem_of_omap. destruct (Hof _ _ _ Hr Hin) as (-> & _). by exists key. }
  assert (Hnd : forall (g : RelocationPlan -> str), (forall key1 key2 r1 r2, olds !! key1 = Some [old_path r1] ->
      olds !! key2 = Some [old_path r2] -> relocation_of news (key1, [old_path r1]) = Some r1 ->
      relocation_of news (key2, [old_path r2]) = Some r2 -> g r1 = g r2 -> key1 = key2) ->
    NoDup (map g (merge_sort relocation_le (omap (relocation_of news) (map_to_list olds))))).
  { clear Hmem. intros g Hg. rewrite (fmap_Permutation g _ _ (merge_sort_Permutation relocation_le _)).
    pose proof (NoDup_map_to_list olds) as Hkeys'. 
    assert (forall x, x ∈ map_to_list olds -> olds !! x.1 = Some x.2) as Hlook by (by intros [k v] H; apply elem_of_map_to_list).
    induction (map_to_list olds) as [|[key ps] ms IH]; [by apply NoDup_nil_2|]. apply NoDup_cons in Hkeys' as [Hn Hms].
    change (omap (relocation_of news) ((key, ps) :: ms)) with (match relocation_of news (key, ps) with
      | Some r => r :: omap (relocation_of news) ms | None => omap (relocation_of news) ms end).
    destruct (relocation_of news (key, ps)) as [r|] eqn:Er; [|apply IH; [done|intros x Hx; apply Hlook; by right]].
    rewrite fmap_cons. apply NoDup_cons. split; [|apply IH; [done|intros x Hx; apply Hlook; by right]].
    intros (r2 & Hg2 & ([key2 ps2] & Hin2 & Hr2)%list_elem_of_omap)%list_elem_of_fmap.
    pose proof (Hlook (key, ps) ltac:(by left)) as H1. pose proof (Hlook (key2, ps2) ltac:(by right)) as H2. cbn in H1, H2.
    destruct (Hof _ _ _ Er H1) as (-> & _), (Hof _ _ _ Hr2 H2) as (-> & _).
    assert (key = key2) as <- by (by apply (Hg key key2 r r2)). apply Hn. congruence. }
  split_and!.
  - intros r Hr. rewrite merge_sort_Permutation in Hr. destruct (Hmem r Hr) as (key & Hkey & Hrel).
    destruct (Hof _ _ _ Hrel Hkey) as (_ & (Hold & record & Hrec & Hk) & (path & bytes & Hpath & Hcand & Hread & Hk2) & Hexp).
    split; [done|by exists path|]. exists record, bytes. rewrite Hk2 in Hk. unfold record_key in Hk. injection Hk as -> -> ->.
    split_and!; [done..|]. by rewrite Hexp, Hk2.
  - apply Hnd. intros key1 key2 r1 r2 H1 H2 R1 R2 Heq.
    destruct (Hof _ _ _ R1 H1) as (_ & (_ & rec1 & E1 & K1) & _), (Hof _ _ _ R2 H2) as (_ & (_ & rec2 & E2 & K2) & _). congruence.
  - apply Hnd. intros key1 key2 r1 r2 H1 H2 R1 R2 Heq.
    destruct (Hof _ _ _ R1 H1) as (_ & _ & (p1 & b1 & _ & C1 & B1 & K1) & _), (Hof _ _ _ R2 H2) as (_ & _ & (p2 & b2 & _ & C2 & B2 & K2) & _).
    rewrite Heq in *. congruence.
  - intros [?|?]; congruence.
Qed.
End Relocations.
