(* ===== verification/IncrementalIndex.v ===== *)
(** * Reconciling reported paths indexes them

    What [reconcile_paths_once] of [src/src/indexer/incremental.rs] leaves in the
    database: the reported paths as they are on the disk, whether replaced, removed
    or relocated, every other path as it was, and right import projections. *)

From S2P Require Import Prelude Chars Order Store Paths StdPath ImportResolution Discovery IndexDb.
From S2P Require Import Publication IndexModel ProjectionRepair Preparation Indexer IndexerFacts FullIndex.
From S2P Require Import Quiescent Incremental IncrementalFacts.
From S2P Require Text.
Open Scope Z_scope.
Open Scope store_scope.

(** What the relocations rely on the parser for: its output depends on a path
    only through the language the path stands for, which it reports. *)
Class ParserLaws (parse : str -> byte_string -> result ParseOutput) (language_by_path : str -> option string) : Prop := {
  parse_by_language : forall p q bytes, language_by_path p = language_by_path q -> parse p bytes = parse q bytes;
  parse_reports_language : forall p bytes out, parse p bytes = Ok out -> parsed_language out = language_by_path p
}.

(** ** The updates of the closure *)
Definition relocate_update (r : RelocationPlan) : update :=
  Relocate (old_path r) (relative_path (new_file r)) (discovered_size (new_file r)) (discovered_modified (new_file r))
    (expected_hash r).
Definition deleted_first (rels : list RelocationPlan) (gone : gset str) : list str :=
  List.filter (fun path => negb (bool_decide (path ∈ relocated_from rels))) (elements gone).

Lemma relocate_all_updates rels w : relocate_all rels w = perform_updates (map relocate_update rels) w.
Proof.
  revert w. induction rels as [|r rels IH]; intros w; [done|]. cbn [relocate_all map perform_updates perform_update relocate_update].
  destruct (relocate _ _ _ _ _ w); cbn [result_bind]; [apply IH|done].
Qed.

Lemma perform_deletes l w :
  perform_updates (map Delete l) w = Ok (fold_left (fun w path => Publication.delete path w) l w).
Proof. revert w. induction l as [|p l IH]; intros w; [done|]. cbn [map perform_updates perform_update result_bind]. apply IH. Qed.

Lemma fold_skip {A B} (g : A -> bool) (f : B -> A -> B) l b :
  fold_left (fun b x => if g x then b else f b x) l b = fold_left f (List.filter (fun x => negb (g x)) l) b.
Proof. revert b. induction l as [|x l IH]; intros b; [done|]. cbn. by destruct (g x); apply IH. Qed.

Definition path_updates (tok : string) (p : path_plan) (s : path_state) : list update :=
  map Delete (deleted_first (inc_relocations p) (path_deletions s)) ++ map relocate_update (inc_relocations p)
  ++ [Refresh (inc_projections p)] ++ stage_updates tok (path_staged s).

(** ** The map they make *)
Lemma model_deletes_seen l m seen : (model_updates ReconcileMode (map Delete l) (m, seen)).2 = list_to_set l ∪ seen.
Proof.
  revert m seen. induction l as [|q l IH]; intros m seen; [by cbn; rewrite (left_id_L ∅ (∪))|].
  unfold model_updates in *. cbn [map fold_left model_update]. rewrite IH. cbn [list_to_set].
  by rewrite (assoc_L (∪)), (comm_L (∪) (list_to_set l)).
Qed.

(** Deleting what is recorded already changes nothing. *)
Lemma model_deletes_again l m seen : (forall q, q ∈ l -> q ∈ seen) ->
  (model_updates ReconcileMode (map Delete l) (m, seen)).1 = m.
Proof.
  revert seen. induction l as [|q l IH]; intros seen Hl; [done|].
  unfold model_updates in *. cbn [map fold_left model_update]. rewrite bool_decide_eq_true_2 by (apply Hl; by left).
  apply IH. intros x Hx. apply elem_of_union_r, Hl. by right.
Qed.

(** Relocations from paths of the map, each once, to paths that it has not. *)
Record relocatable (m : index_model) (rels : list RelocationPlan) : Prop := {
  relocate_once : NoDup (map old_path rels) /\ NoDup (map (fun r => relative_path (new_file r)) rels);
  relocate_old : forall r, r ∈ rels -> is_Some (m !! old_path r);
  relocate_new : forall r, r ∈ rels -> m !! relative_path (new_file r) = None
}.

Definition relocated_contents (m : index_model) (r : RelocationPlan) : option contents :=
  moved_contents (discovered_size (new_file r)) (discovered_modified (new_file r)) <$> m !! old_path r.

Lemma model_relocates mode rels m seen : relocatable m rels ->
  let m' := (model_updates mode (map relocate_update rels) (m, seen)).1 in
  (model_updates mode (map relocate_update rels) (m, seen)).2 = relocated_from rels ∪ seen
  /\ (forall r, r ∈ rels -> m' !! relative_path (new_file r) = relocated_contents m r /\ m' !! old_path r = None)
  /\ forall q, (q ∉ map old_path rels) -> (q ∉ map (fun r => relative_path (new_file r)) rels) -> m' !! q = m !! q.
Proof.
  cbv zeta. revert m seen. induction rels as [|r rels IH]; intros m seen Hrel.
  { split_and!; [unfold relocated_from; cbn; by rewrite (left_id_L ∅ (∪))|by intros r ?%elem_of_nil|done]. }
  destruct Hrel as [[[Hno Hndo]%NoDup_cons [Hnn Hndn]%NoDup_cons] Hold Hnew].
  destruct (Hold r) as [c Hc]; [by left|]. pose proof (Hnew r ltac:(by left)) as Hr.
  unfold model_updates in *. cbn [map fold_left model_update relocate_update]. rewrite Hc.
  set (new := relative_path (new_file r)) in *. set (c' := moved_contents _ _ c).
  set (m1 := <[new := c']> (base.delete (old_path r) m)).
  assert (Hm1 : forall q, q <> new -> q <> old_path r -> m1 !! q = m !! q).
  { intros q H1 H2. unfold m1. by rewrite lookup_insert_ne, lookup_delete_ne. }
  assert (Hdiff : forall s, s ∈ r :: rels -> old_path s <> new /\ relative_path (new_file s) <> old_path r).
  { intros s Hs. destruct (Hold s Hs) as [e He]. pose proof (Hnew s Hs). split; intros Heq; congruence. }
  assert (Hne : forall s, s ∈ rels -> old_path s <> old_path r /\ relative_path (new_file s) <> new).
  { intros s Hs. split; intros Heq; [apply Hno; rewrite <-Heq; by apply (list_elem_of_fmap_2 old_path)|].
    apply Hnn. rewrite <-Heq. by apply (list_elem_of_fmap_2 (fun r => relative_path (new_file r))). }
  destruct (IH m1 ({[ old_path r ]} ∪ seen)) as (IH1 & IH2 & IH3).
  { split; [done|..]; intros s Hs; destruct (Hne s Hs), (Hdiff s ltac:(by right)); rewrite Hm1 by done.
    - apply Hold. by right.
    - apply Hnew. by right. }
  split_and!.
  - rewrite IH1. unfold relocated_from. cbn [map list_to_set]. by rewrite (assoc_L (∪)), (comm_L (∪) (list_to_set _)).
  - intros s [->|Hs]%elem_of_cons.
    + destruct (Hdiff r) as [H1 _]; [by left|]. split.
      * rewrite IH3 by (intros (t & Ht & Hin)%list_elem_of_fmap; first [by destruct (Hdiff t ltac:(by right))|by destruct (Hne t Hin)]).
        unfold m1, relocated_contents. by rewrite lookup_insert_eq, Hc.
      * rewrite IH3 by (intros (t & Ht & Hin)%list_elem_of_fmap; first [by destruct (Hne t Hin)|by destruct (Hdiff t ltac:(by right))]).
        unfold m1. by rewrite lookup_insert_ne, lookup_delete_eq.
    + destruct (IH2 s Hs) as [-> ->]. split; [|done]. destruct (Hne s Hs), (Hdiff s ltac:(by right)).
      unfold relocated_contents. by rewrite Hm1.
  - intros q [Hq1 Hq2]%not_elem_of_cons [Hq3 Hq4]%not_elem_of_cons. by rewrite IH3, Hm1.
Qed.

(** The contents of every path once the closure has made its calls. *)
Section Model.
Variables (go_modules : GoModuleIndex) (sorted_paths : list str) (tok : string).
Variables (m : index_model) (rels : list RelocationPlan) (first rems : list str) (ps : list ImportProjection).
Variable xs : list PreparedFile.
Hypothesis rels_apart : relocatable m rels.
Hypothesis first_apart : forall r, r ∈ rels -> (old_path r ∉ first).
Hypothesis rems_gone : forall q, q ∈ rems -> q ∈ first \/ q ∈ map old_path rels.
Hypothesis paths_once : NoDup (map prepared_path xs).

Definition path_model : index_model :=
  (model_updates ReconcileMode
     (map Delete first ++ map relocate_update rels ++ [Refresh ps]
      ++ map Delete rems
      ++ map (fun x => Replace x.1 (tok, x.2)) (map (IndexerFacts.staged_entry go_modules sorted_paths) (omap indexed_of xs)))
     (m, ∅)).1.

Lemma path_model_spec :
  (forall file tokens warn, Indexed file tokens warn ∈ xs ->
     path_model !! indexed_path file = Some (file_contents file (tok, tokens)))
  /\ forall q, (forall file tokens warn, Indexed file tokens warn ∈ xs -> indexed_path file <> q) ->
     (forall r, r ∈ rels -> relative_path (new_file r) = q -> path_model !! q = relocated_contents m r)
     /\ ((q ∉ map (fun r => relative_path (new_file r)) rels) ->
         (q ∈ first \/ q ∈ map old_path rels -> path_model !! q = None)
         /\ ((q ∉ first) -> (q ∉ map old_path rels) -> path_model !! q = m !! q)).
Proof.
  unfold path_model. rewrite model_updates_app.
  destruct (model_updates ReconcileMode (map Delete first) (m, ∅)) as [m1 seen1] eqn:E1.
  assert (Hm1 : forall q, (q ∈ first -> m1 !! q = None) /\ ((q ∉ first) -> m1 !! q = m !! q)).
  { intros q. pose proof (model_deletes first m ∅ q) as H. rewrite E1 in H. apply H. by intros x ?%elem_of_empty. }
  assert (Hs1 : seen1 = list_to_set first).
  { pose proof (model_deletes_seen first m ∅) as H. rewrite E1 in H. cbn in H. by rewrite H, (right_id_L ∅ (∪)). }
  assert (Hrel1 : relocatable m1 rels).
  { destruct rels_apart as [H1 H2 H3]. split; [done|..]; intros r Hr.
    - rewrite (proj2 (Hm1 _)) by by apply first_apart. by apply H2.
    - destruct (decide (relative_path (new_file r) ∈ first)); [by apply Hm1|]. rewrite (proj2 (Hm1 _)) by done. by apply H3. }
  rewrite model_updates_app. pose proof (model_relocates ReconcileMode rels m1 seen1 Hrel1) as Hmoved. cbv zeta in Hmoved.
  destruct (model_updates ReconcileMode (map relocate_update rels) (m1, seen1)) as [m2 seen2].
  cbn [fst snd] in Hmoved. destruct Hmoved as (Hs2 & Hmv & Hothers).
  change (model_updates ReconcileMode ([Refresh ps] ++ ?l) (m2, seen2)) with (model_updates ReconcileMode l (m2, seen2)).
  rewrite model_updates_app.
  assert (Hm3 : (model_updates ReconcileMode (map Delete rems) (m2, seen2)).1 = m2).
  { apply model_deletes_again. intros q Hq. rewrite Hs2, Hs1. unfold relocated_from.
    destruct (rems_gone q Hq); [apply elem_of_union_r|apply elem_of_union_l]; by apply elem_of_list_to_set. }
  destruct (model_updates ReconcileMode (map Delete rems) (m2, seen2)) as [m3 seen3]. cbn [fst] in Hm3. subst m3.
  split.
  - intros file tokens warn Hin. rewrite model_replaces by by apply staged_paths_NoDup.
    rewrite (find_staged go_modules sorted_paths xs file tokens warn paths_once Hin). cbn. unfold file_contents. cbn.
    by rewrite map_map.
  - intros q Hnot. rewrite model_replaces by by apply staged_paths_NoDup. rewrite find_unstaged by done. split.
    + intros r Hr <-. destruct (Hmv r Hr) as [-> _]. unfold relocated_contents.
      by rewrite (proj2 (Hm1 _)) by by apply first_apart.
    + intros Hnew. split.
      * intros Hq. destruct (decide (q ∈ map old_path rels)) as [(r & -> & Hr)%list_elem_of_fmap|Hn]; [by apply Hmv|].
        rewrite Hothers by done. apply Hm1. by destruct Hq.
      * intros Hf Ho. rewrite Hothers by done. by apply Hm1.
Qed.
End Model.

(** ** The preparation *)
Section Prepared.
Variable blake3_hex : byte_string -> string.
Variable count_tokens : byte_string -> Z.
Variable parse : str -> byte_string -> result ParseOutput.
Variable language_by_path : str -> option string.
Variable config : IndexerConfig.
Variable pool stage : result ().
Variable cancelled : string -> nat -> bool.
Hypothesis lines_positive : (0 < chunk_lines config)%nat.
Hypothesis bytes_positive : (0 < chunk_bytes config)%nat.

Abbreviation prepared_as := (IndexerFacts.prepared_as blake3_hex count_tokens parse language_by_path config).
Abbreviation prepare_paths :=
  (Incremental.prepare_paths blake3_hex count_tokens parse language_by_path config pool stage cancelled).

(** What is staged in the end. *)
Record prepared_paths_state (dk : disk) (p : path_plan) (xs : list PreparedFile) (s : path_state) : Prop := {
  path_files : staged_files (path_staged s)
    = map (staged_entry (modules_of dk (inc_repository_paths p)) (sorted_indexed_paths (inc_repository_paths p)))
        (omap indexed_of (List.filter (fresh (inc_existing p)) xs));
  path_removals : list_to_set (staged_removals (path_staged s)) ∪ deletions (inc_changes p) = path_deletions s;
  path_removed : path_deletions s = dropped (inc_existing p) (List.filter (fresh (inc_existing p)) xs)
    ∪ deletions (inc_changes p)
}.

Lemma prepare_paths_spec a p : NoDup (map relative_path (path_candidates p)) ->
  exists r, prepare_paths a p = Done r /\
  match r with
  | Ok s => exists xs, Forall2 (prepared_as (path_preparing_disk a)) (path_candidates p) xs
      /\ prepared_paths_state (path_module_disk a) p xs s
  | Err _ => True
  end.
Proof.
  intros Hnd. unfold Incremental.prepare_paths.
  destruct (GoModuleIndex_load _ _ _ _) as [go|] eqn:Eg; cbn [result_bind]; [|by eexists].
  apply GoModuleIndex_load_spec in Eg as [-> _].
  destruct stage as [[]|]; cbn [result_bind]; [|by eexists].
  set (go := modules_of _ _). set (sorted_paths := sorted_indexed_paths _).
  match goal with |- context [prepare_candidate_batches _ _ _ _ _ _ ?c _ _ _ ?x] => set (consume_ := c); set (s0 := x) end.
  set (t0 := mk_full (path_source_bytes s0) (path_deletions s0) empty_stage [] (mk_skips 0 0 0) 0).
  set (base := deletions (inc_changes p)).
  assert (Hs0 : paths_consumed (inc_existing p) go sorted_paths base t0 [] s0).
  { exists t0. split; [done|]. cbn [List.filter]. split; cbn.
    - done.
    - unfold dropped. cbn. by rewrite (left_id_L ∅ (∪)).
    - unfold stage_removed. cbn. by rewrite (left_id_L ∅ (∪)). }
  destruct (prepare_batches_rule blake3_hex count_tokens parse language_by_path config cancelled (path_preparing_disk a)
              consume_ pool (path_candidates p) (paths_consumed (inc_existing p) go sorted_paths base t0) s0)
    as ([s|e] & -> & Hs); [done..|intros batch ys xs s Hs Hxs; by apply consume_paths_step|done| |by eexists].
  destruct Hs as (xs & Hxs & t & [Ht1 Ht2] & [Cf Cr Cs]).
  destruct (enforce _) as [[]|]; cbn [result_bind]; [|by eexists].
  destruct (flush (path_staged s)) as [st|] eqn:Ef; cbn [result_bind]; [|by eexists].
  destruct (check_cancelled _ "prepared" 0); cbn [result_bind]; [|by eexists].
  eexists. split; [done|]. exists xs. split; [done|]. destruct (flush_holds _ _ Ef) as (Ff & Fr & Hrep & Hrem).
  rewrite <-Ht1 in Cf, Cs. unfold stage_files, stage_removed in Ff, Fr, Cf, Cs.
  rewrite Hrep, app_nil_r in Ff. rewrite Hrem, app_nil_r in Fr. split; cbn.
  - by rewrite Ff, Cf.
  - fold base. by rewrite Fr, Cs, Ht2.
  - by rewrite Ht2, Cr.
Qed.
End Prepared.

(** ** The closure given to the publication *)
Section WritePaths.
Variable config : IndexerConfig.
Variable cancelled : string -> nat -> bool.
Variable dk : disk.

Lemma write_paths_spec verified changed_semantics p s w : writer_ok w ->
  exists r, write_paths config cancelled verified changed_semantics dk p s w = Done r /\
  match r with
  | Err _ => True
  | Ok (n, w') => exists w1, perform_updates (path_updates (tokenizer config) p s) w = Ok w1 /\ writes w w'
      /\ (forall m, represents (w_db w1) m -> represents (w_db w') m)
      /\ ((changed_semantics = false /\ verified = true /\ w' = w1) \/ projected dk (w_db w'))
  end.
Proof.
  intros Hw. unfold write_paths, path_updates. rewrite fold_skip, relocate_all_updates. fold (deleted_first (inc_relocations p) (path_deletions s)).
  rewrite perform_updates_app, perform_deletes. cbn [result_bind].
  destruct (perform_updates (map Delete (deleted_first (inc_relocations p) (path_deletions s))) w) as [w0|] eqn:E0;
    rewrite perform_deletes in E0; [injection E0 as E0|done]. rewrite E0, perform_updates_app.
  destruct (perform_updates (map relocate_update (inc_relocations p)) w0) as [w1|] eqn:E1; cbn [result_bind]; [|by eexists].
  cbn [app perform_updates perform_update].
  destruct (refresh_import_projections (inc_projections p) w1) as [w2|] eqn:E2; cbn [result_bind]; [|by eexists].
  rewrite apply_stage_updates.
  destruct (perform_updates (stage_updates (tokenizer config) (path_staged s)) w2) as [w3|] eqn:E3; [|by eexists].
  assert (Hws : writes w w3).
  { etrans; [apply (updates_write (map Delete (deleted_first (inc_relocations p) (path_deletions s))) w w0); by rewrite perform_deletes, E0|].
    etrans; [by eapply updates_write|]. etrans; [|by eapply updates_write]. apply rtc_once. by eapply step_refresh. }
  destruct (verify_or_repair_spec cancelled dk verified changed_semantics w3) as (r & Hr & Hres).
  { apply (writes_spec _ _ Hw Hws). }
  exists r. split; [done|]. destruct r as [[n w']|]; [|done]. destruct Hres as (Hws' & Hm & Hcase).
  exists w3. split_and!; [done|by etrans|done..].
Qed.

Lemma write_paths_writes verified changed_semantics p s w : writer_ok w ->
  exists r, write_paths config cancelled verified changed_semantics dk p s w = Done r
    /\ forall a w', r = Ok (a, w') -> writes w w'.
Proof.
  intros Hw. destruct (write_paths_spec verified changed_semantics p s w Hw) as (r & Hr & Hres). exists r. split; [done|].
  intros a w' ->. by destruct Hres as (w1 & _ & ? & _).
Qed.
End WritePaths.

(** ** The plan *)

(** What an attempt is given: states of a database that evolves by publications,
    and a disk that does not change while it runs, whose sizes the observations
    tell and each path of which the walker yields once. *)
Record fair_paths (config : IndexerConfig) (include : DirEntry -> bool) (cancelled : string -> nat -> bool)
    (fuel : nat) (dk : disk) (a : path_attempt) : Prop := {
  fair_paths_start : valid (path_reads a 0);
  fair_paths_reads : forall n, evolves (path_reads a 0) (path_reads a n) /\ evolves (path_reads a n) (path_found a);
  fair_paths_fuel : exists bound, (bound < fuel)%nat
    /\ forall n id, is_Some (files (path_reads a n) !! id) -> 0 < id <= Z.of_nat bound;
  fair_paths_disk : stability_disk a = dk /\ relocation_disk a = dk /\ path_module_disk a = dk
    /\ path_preparing_disk a = dk /\ path_repair_disk a = dk;
  fair_paths_metadata : forall path kind size modified bytes, targeted_metadata a path = Metadata kind size modified ->
    dk (slash_path path) = FileBytes bytes -> size = len bytes;
  fair_paths_walk : forall discovered stats,
    discover_files (cancelled "discovery") include (limits config) (path_walk a) = Ok (discovered, stats) ->
    NoDup (map relative_path discovered)
    /\ forall f bytes, f ∈ discovered -> dk (relative_path f) = FileBytes bytes -> discovered_size f = len bytes
}.

Section Planned.
Variable blake3_hex : byte_string -> string.
Variable language_by_path : str -> option string.
Variable config : IndexerConfig.
Variable include : DirEntry -> bool.
Variable policy_includes : str -> bool -> bool.
Variable artifact : str -> bool.
Variable cancelled : string -> nat -> bool.

Abbreviation collect_changes :=
  (Incremental.collect_changes config include policy_includes artifact cancelled).
Abbreviation plan_changes :=
  (Incremental.plan_changes blake3_hex language_by_path config include policy_includes artifact cancelled).
Abbreviation fair_paths := (fair_paths config include cancelled).

Lemma collect_changes_spec fuel dk a requested paths existing c : fair_paths fuel dk a ->
  normalized_paths cancelled requested = Ok paths -> collect_changes a paths existing = Ok c ->
  collected existing paths dk c.
Proof.
  intros Hfair Hpaths. unfold Incremental.collect_changes.
  destruct (observe_visibility_delta _ _ _) as [observed|].
  - destruct (discover_files _ _ _ _) as [[discovered stats]|] eqn:Ed; cbn [result_bind]; [|done].
    destruct (fair_paths_walk _ _ _ _ _ _ Hfair _ _ Ed) as [Hnd Hsizes].
    apply discovered_changes_spec; [done|by eapply normalized_paths_spec|done].
  - apply (targeted_changes_spec config policy_includes artifact cancelled existing dk _ 0 paths []).
    + by eapply normalized_paths_fixed.
    + intros r kind size modified b. by apply (fair_paths_metadata _ _ _ _ _ _ Hfair).
    + intros p _. by split; [|apply not_elem_of_empty].
    + split; cbn; [by intros p f ?%lookup_empty_Some|by intros p ?%elem_of_nil|by intros p f b ?%lookup_empty_Some].
Qed.

(** What a plan is made of. *)
Record planned_paths (dk : disk) (existing : gmap str FileRecord) (c0 : path_changes) (p : path_plan) : Prop := {
  planned_existing : inc_existing p = existing;
  planned_stable : candidates (inc_changes p)
    = filter (fun '(path, f) => content_stable blake3_hex config dk existing path f = false) (candidates c0);
  planned_deletions : deletions (inc_changes p) = deletions c0;
  planned_created : forall q, q ∈ created (inc_change_set p)
    <-> is_Some (candidates (inc_changes p) !! q) /\ existing !! q = None;
  planned_modified : forall q, q ∈ modified_paths (inc_change_set p)
    <-> is_Some (candidates (inc_changes p) !! q) /\ is_Some (existing !! q);
  planned_deleted : forall q, q ∈ deleted (inc_change_set p) <-> q ∈ deletions c0;
  planned_relocations : forall r, r ∈ inc_relocations p ->
    relocation_sound blake3_hex language_by_path config dk existing (candidates (inc_changes p)) (inc_change_set p) r;
  planned_apart : NoDup (map old_path (inc_relocations p))
    /\ NoDup (map (fun r => relative_path (new_file r)) (inc_relocations p));
  planned_quiet : created (inc_change_set p) = [] -> deleted (inc_change_set p) = [] ->
    inc_relocations p = [] /\ inc_projections p = [];
  planned_repository : inc_repository_paths p = (dom existing ∖ deletions c0) ∪ dom (candidates (inc_changes p))
}.

Lemma classified_paths (P : str * DiscoveredFile -> Prop) `{forall x, Decision (P x)} (m : gmap str DiscoveredFile) q :
  q ∈ sort_keys (elements (dom (filter P m))) <-> exists f, m !! q = Some f /\ P (q, f).
Proof.
  unfold sort_keys. rewrite merge_sort_Permutation, elem_of_elements, elem_of_dom. split.
  - intros [f [Hf HP]%map_lookup_filter_Some]. by exists f.
  - intros (f & Hf & HP). exists f. by apply map_lookup_filter_Some.
Qed.

Lemma no_importers d : affected_importers_query [] d = ∅.
Proof.
  unfold affected_importers_query. induction (map_to_list (imports d)).*2 as [|i l IH]; [done|]. cbn [omap list_omap].
  rewrite bool_decide_eq_false_2; [exact IH|]. intros (c & _ & Hc)%Exists_exists. by apply elem_of_nil in Hc.
Qed.

Lemma plan_changes_spec dk a baseline existing paths p : relocation_disk a = dk -> stability_disk a = dk ->
  (forall c, collect_changes a paths existing = Ok c -> collected existing paths dk c) ->
  plan_changes a baseline existing paths = Ok p ->
  inc_baseline p = baseline /\ exists c0, collect_changes a paths existing = Ok c0 /\ planned_paths dk existing c0 p.
Proof.
  intros <- Hdk Hcol. unfold Incremental.plan_changes.
  destruct (collect_changes a paths existing) as [c0|] eqn:Ec; cbn [result_bind]; [|done].
  specialize (Hcol c0 eq_refl). unfold remove_content_stable_candidates.
  destruct (check_rounds _ "stable" _); cbn [result_bind]; [|done]. rewrite Hdk. set (stable := filter _ (candidates c0)).
  set (c := mk_changes stable _ _). set (changes := classify existing c).
  destruct (plan_relocations _ _ _ _ _ _ _ _) as [rels|] eqn:Er; cbn [result_bind]; [|done].
  destruct (affected_importers _ _ _ _) as [affected|] eqn:Ea; cbn [result_bind]; [|done].
  destruct (validate_membership_limits _ _ _ _); cbn [result_bind]; [|done].
  destruct (import_projections _ _ _ _ _ _) as [ps|] eqn:Ep; cbn [result_bind]; [|done].
  intros [= <-]. split; [done|]. exists c0. split; [done|].
  assert (Hkeys : forall q f, stable !! q = Some f -> relative_path f = q).
  { intros q f [Hf _]%map_lookup_filter_Some. by apply (col_keyed _ _ _ _ Hcol). }
  destruct (plan_relocations_sound _ _ _ _ _ _ _ _ _ Hkeys Er) as (Hsound & Hno & Hnn & Hnil).
  assert (Hdel : forall q, q ∈ deleted changes <-> q ∈ deletions c0).
  { intros q. cbn. unfold sort_keys. by rewrite merge_sort_Permutation, elem_of_elements. }
  split; cbn [inc_existing inc_changes inc_change_set inc_relocations inc_projections inc_repository_paths candidates deletions];
    try done.
  - intros q. cbn. rewrite classified_paths. split; [intros (f & Hf & ?)|intros [[f Hf] ?]]; [split; [by exists f|done]|by exists f].
  - intros q. cbn. rewrite classified_paths. split; [intros (f & Hf & ?)|intros [[f Hf] ?]]; [split; [by exists f|done]|by exists f].
  - intros Hc Hd. assert (rels = []) as -> by (apply Hnil; by left). split; [done|].
    unfold affected_importers, membership_changes in Ea. rewrite Hc, Hd in Ea. cbn [app] in Ea. rewrite no_importers in Ea.
    destruct (check_rounds _ "importers" _); cbn [result_bind] in Ea; [|done]. injection Ea as <-.
    unfold import_projections in Ep.
    match type of Ep with context [sort_keys (elements ?x)] => assert (x = ∅) as Hemp end.
    { apply set_eq. intros q. rewrite elem_of_union, elem_of_difference. unfold relocated_from. cbn.
      split; [by intros [[? _]|?]|by intros ?%elem_of_empty]. }
    rewrite Hemp in Ep. destruct (GoModuleIndex_load _ _ _ _); cbn [result_bind] in Ep; [|done].
    destruct (check_rounds _ "projections" _); cbn [result_bind] in Ep; [|done].
    rewrite elements_empty in Ep. cbn in Ep. by injection Ep as <-.
  - f_equal. f_equal. apply set_eq. intros q. rewrite elem_of_list_to_set. apply Hdel.
Qed.

(** Each candidate is prepared once. *)
Lemma candidates_once dk existing paths c0 p : collected existing paths dk c0 -> planned_paths dk existing c0 p ->
  NoDup (map relative_path (path_candidates p)).
Proof.
  intros Hcol Hplan. unfold path_candidates. set (ms := filter _ _).
  assert (Hkeys : forall x, x ∈ map_to_list ms -> relative_path x.2 = x.1).
  { intros [q f] Hin%elem_of_map_to_list%map_lookup_filter_Some. destruct Hin as [Hf _].
    rewrite (planned_stable _ _ _ _ Hplan) in Hf. apply map_lookup_filter_Some in Hf as [Hf _].
    by apply (col_keyed _ _ _ _ Hcol). }
  replace (map relative_path (map_to_list ms).*2) with (map_to_list ms).*1; [apply NoDup_fst_map_to_list|].
  rewrite map_map. apply list_fmap_ext. intros i x Hx. symmetry. apply Hkeys. by eapply list_elem_of_lookup_2.
Qed.
End Planned.

(** ** The contents it leaves *)
Lemma existing_dom d m q : represents d m -> is_Some (existing_of d !! q) <-> is_Some (m !! q).
Proof. intros Hrep. by rewrite <-!elem_of_dom, (dom_existing d m Hrep). Qed.

(** A record of the index, and what it was prepared from. *)
Lemma existing_record d m q record : represents d m -> existing_of d !! q = Some record ->
  exists c, m !! q = Some c /\ record_hash record = content_hash (c_columns c)
    /\ record_size record = size_bytes (c_columns c) /\ record_language record = language (c_columns c).
Proof.
  intros Hrep He. apply existing_of_spec in He as (id & r & Hr & <- & ->); [|apply Hrep].
  destruct (represents_row d m id r Hrep Hr) as (c & Hc & Hcols & _ & _). exists c. cbn. by rewrite Hcols.
Qed.

Section Contents.
Variable blake3_hex : byte_string -> string.
Variable count_tokens : byte_string -> Z.
Variable parse : str -> byte_string -> result ParseOutput.
Variable language_by_path : str -> option string.
Variable config : IndexerConfig.
Hypothesis lines_positive : (0 < chunk_lines config)%nat.
Hypothesis bytes_positive : (0 < chunk_bytes config)%nat.
Hypothesis max_bytes_fits : max_file_bytes (limits config) < U64_MAX.
Context {laws : ParserLaws parse language_by_path}.

Abbreviation prepared_as := (IndexerFacts.prepared_as blake3_hex count_tokens parse language_by_path config).
Abbreviation index_of := (FullIndex.index_of blake3_hex count_tokens parse language_by_path config).
Abbreviation indexed_as := (FullIndex.indexed_as blake3_hex count_tokens parse language_by_path config).
Abbreviation hash_bytes := (Preparation.hash_bytes blake3_hex).

(** What a file that is prepared as a text is made of. *)
Lemma prepared_text dk f file tokens warn : prepared_as dk f (Indexed file tokens warn) ->
  exists b t parsed, read_bounded dk (relative_path f) (max_file_bytes (limits config)) = ReadBytes b
    /\ dk (relative_path f) = FileBytes b /\ Text.from_vec blake3_hex b (chunk_lines config) (chunk_bytes config) = Done t
    /\ Text.kind t = Text.Text /\ Text.text_content t = b
    /\ parse_or_warn parse language_by_path (relative_path f) b = Ok (parsed, warn)
    /\ tokens = count_tokens b /\ file = indexed_file blake3_hex count_tokens f b t parsed.
Proof.
  unfold IndexerFacts.prepared_as, prepare_file. destruct (read_bounded dk (relative_path f) _) as [b| |] eqn:Er; [|done..].
  destruct (Text.from_vec_total blake3_hex b _ _ lines_positive bytes_positive) as (t & Ht & _ & _ & Htext). rewrite Ht.
  destruct (Text.kind t) eqn:Ek; [|done]. destruct (Htext eq_refl) as (Hc & _). rewrite Hc.
  destruct (parse_or_warn _ _ _ b) as [[parsed w]|] eqn:Ep; [|done]. cbn [result_bind fst snd]. intros [= <- <- <-].
  exists b, t, parsed. split_and!; try done. by eapply read_bounded_bytes.
Qed.

(** The same bytes at a path that stands for the same language are the same
    contents, but for the modification time. *)
Lemma prepared_relocated dk0 dk f0 f file tokens warn : prepared_as dk0 f0 (Indexed file tokens warn) ->
  dk0 (relative_path f0) = dk (relative_path f) -> language (indexed_columns file) = language_by_path (relative_path f) ->
  exists file' warn', prepared_as dk f (Indexed file' tokens warn')
    /\ unstamped (contents_of config file' tokens) = unstamped (contents_of config file tokens).
Proof.
  intros Hx Hdk Hlang. destruct (prepared_text _ _ _ _ _ Hx) as (b & t & parsed & Hread & Hb & Ht & Hk & Hc & Hp & -> & ->).
  assert (Hl : language_by_path (relative_path f0) = language_by_path (relative_path f)).
  { rewrite <-Hlang. cbn. unfold parse_or_warn in Hp. destruct (parse (relative_path f0) b) as [out|e] eqn:Epar.
    - injection Hp as <- _. symmetry. by apply (parse_reports_language (relative_path f0) b).
    - assert (parsed_language parsed = language_by_path (relative_path f0)); [|done].
      destruct e; first [discriminate Hp|by injection Hp as <- _]. }
  unfold IndexerFacts.prepared_as, prepare_file.
  assert (Hread' : read_bounded dk (relative_path f) (max_file_bytes (limits config)) = ReadBytes b).
  { unfold read_bounded in *. by rewrite <-Hdk, Hb in *. }
  rewrite Hread', Ht, Hk, Hc. unfold parse_or_warn in *. rewrite <-(parse_by_language (relative_path f0)) by done.
  destruct (parse (relative_path f0) b) as [out|e]; [|destruct e; try done];
    injection Hp as <- <-; cbn [result_bind fst snd]; eexists _, _; (split; [reflexivity|]);
    unfold contents_of, file_contents, indexed_file, unstamped; cbn; by rewrite ?Hl.
Qed.
(** What is indexed has the bytes of the disk wherever a digest says so. *)
Definition faithful_hash (dk0 dk : disk) (m : index_model) : Prop :=
  forall q q' b b', is_Some (m !! q) -> dk0 q = FileBytes b -> dk q' = FileBytes b' -> hash_bytes b = hash_bytes b' -> b = b'.

Section Published.
Variables (d : index_db) (m : index_model) (dk0 dk : disk) (paths : list str).
Variables (c0 : path_changes) (p : path_plan) (xs : list PreparedFile) (s : path_state).
Hypothesis d_represents : represents d m.
Hypothesis indexed_before : index_of dk0 m.
Hypothesis hashes : faithful_hash dk0 dk m.
Hypothesis changes_collected : collected (existing_of d) paths dk c0.
Hypothesis planned : planned_paths blake3_hex language_by_path config dk (existing_of d) c0 p.
Hypothesis prepared : Forall2 (prepared_as dk) (path_candidates p) xs.
Hypothesis stated : prepared_paths_state dk p xs s.

Definition changed_model : index_model :=
  (model_updates ReconcileMode (path_updates (tokenizer config) p s) (m, ∅)).1.

#[local] Abbreviation fresh_ones := (List.filter (fresh (inc_existing p)) xs).

(** An indexed path whose digest is that of a file has its bytes. *)
Lemma same_digest q q' c b : m !! q = Some c -> dk q' = FileBytes b -> content_hash (c_columns c) = hash_bytes b ->
  dk0 q = FileBytes b /\ exists f0 file tokens warn, relative_path f0 = q
    /\ prepared_as dk0 f0 (Indexed file tokens warn) /\ unstamped c = unstamped (contents_of config file tokens).
Proof.
  intros Hq Hb Hh. destruct (indexed_before q c Hq) as (f0 & file & tokens & warn & Hf0 & Hx & Hu).
  destruct (prepared_text _ _ _ _ _ Hx) as (b0 & t & parsed & _ & Hb0 & _ & _ & Hc & _ & _ & ->). rewrite Hf0 in Hb0.
  assert (b0 = b) as <-.
  { apply (hashes q q' b0 b); [by exists c|done|done|]. rewrite <-Hh. pose proof (f_equal (fun c => content_hash (c_columns c)) Hu) as He.
    cbn in He. by rewrite He, Hc. }
  split; [done|]. by exists f0, (indexed_file blake3_hex count_tokens f0 b0 t parsed), tokens, warn.
Qed.

Lemma candidate_iff f : f ∈ path_candidates p <->
  candidates (inc_changes p) !! relative_path f = Some f /\ (relative_path f ∉ relocated_to (inc_relocations p)).
Proof.
  unfold path_candidates. rewrite list_elem_of_fmap. split.
  - intros ([q g] & -> & Hin%elem_of_map_to_list%map_lookup_filter_Some). destruct Hin as [Hg Hn]. cbn in *.
    assert (relative_path g = q) as ->; [|done]. rewrite (planned_stable _ _ _ _ _ _ _ planned) in Hg.
    apply map_lookup_filter_Some in Hg as [Hg _]. by apply (col_keyed _ _ _ _ changes_collected).
  - intros [Hf Hn]. exists (relative_path f, f). split; [done|]. by apply elem_of_map_to_list, map_lookup_filter_Some.
Qed.

Lemma prepared_candidates_once : NoDup (map prepared_path xs).
Proof. rewrite (prepared_paths _ _ _ _ _ _ _ _ prepared). by eapply candidates_once. Qed.

Lemma prepared_candidate x : x ∈ xs -> exists f, f ∈ path_candidates p /\ prepared_as dk f x /\ prepared_path x = relative_path f.
Proof.
  intros [i Hi]%list_elem_of_lookup. destruct (Forall2_lookup_r _ _ _ _ _ prepared Hi) as (f & Hf & Hx).
  exists f. split_and!; [by eapply list_elem_of_lookup_2|done|by eapply prepared_as_path].
Qed.

(** A candidate is apart from what is deleted. *)
Lemma candidate_kept q : is_Some (candidates (inc_changes p) !! q) -> (q ∉ deletions c0).
Proof.
  rewrite (planned_stable _ _ _ _ _ _ _ planned). intros [f [Hf _]%map_lookup_filter_Some].
  by apply (col_keyed _ _ _ _ changes_collected q f).
Qed.

(** What is removed. *)
Lemma path_deletions_spec q : q ∈ path_deletions s <-> q ∈ deletions c0
  \/ (is_Some (m !! q) /\ exists x, x ∈ xs /\ (x = PreparedBinary q \/ x = Oversized q)).
Proof.
  rewrite (path_removed _ _ _ _ stated), (planned_deletions _ _ _ _ _ _ _ planned), elem_of_union.
  unfold dropped. rewrite elem_of_list_to_set, list_elem_of_omap, (planned_existing _ _ _ _ _ _ _ planned). split.
  - intros [(x & [Hx _]%list_elem_of_In%filter_In & Hd)|?]; [right|by left]. apply list_elem_of_In in Hx.
    destruct x as [|y|y|]; cbn in Hd; [done| | |done]; case_bool_decide as Hy; [|done| |done]; injection Hd as ->;
      (split; [by apply (existing_dom d)|eexists; split; [exact Hx|]; by (left + right)]).
  - intros [?|(Hm & x & Hx & Hor)]; [by right|left]. exists x. split.
    + apply list_elem_of_In, filter_In. split; [by apply list_elem_of_In|]. by destruct Hor as [->| ->].
    + destruct Hor as [->| ->]; cbn; by rewrite bool_decide_eq_true_2 by by apply (existing_dom d m).
Qed.

(** A planned relocation goes from a deleted path of the index to a new one with its bytes. *)
Lemma relocation_facts r : r ∈ inc_relocations p -> exists c b,
  old_path r ∈ deletions c0 /\ m !! old_path r = Some c /\ m !! relative_path (new_file r) = None
  /\ candidates (inc_changes p) !! relative_path (new_file r) = Some (new_file r)
  /\ read_bounded dk (relative_path (new_file r)) (max_file_bytes (limits config)) = ReadBytes b
  /\ content_hash (c_columns c) = hash_bytes b
  /\ language (c_columns c) = language_by_path (relative_path (new_file r)).
Proof.
  intros Hr. destruct (planned_relocations _ _ _ _ _ _ _ planned r Hr) as [Hold (q & Hq & Hcand) (record & b & He & Hread & Hh & _ & Hl & _)].
  destruct (existing_record d m _ _ d_represents He) as (c & Hc & Hch & _ & Hcl).
  assert (relative_path (new_file r) = q) as <-.
  { rewrite (planned_stable _ _ _ _ _ _ _ planned) in Hcand. apply map_lookup_filter_Some in Hcand as [Hcand _].
    by apply (col_keyed _ _ _ _ changes_collected). }
  apply (planned_deleted _ _ _ _ _ _ _ planned) in Hold. apply (planned_created _ _ _ _ _ _ _ planned) in Hq as [_ Hnone].
  exists c, b. split_and!; [done|done| |done|done|congruence|congruence].
  apply eq_None_not_Some. rewrite <-(existing_dom d m) by done. by rewrite Hnone; intros [].
Qed.

Lemma relocations_apart : relocatable m (inc_relocations p).
Proof.
  split; [apply (planned_apart _ _ _ _ _ _ _ planned)|..]; intros r Hr;
    destruct (relocation_facts r Hr) as (c & b & _ & Hc & Hn & _); [by exists c|done].
Qed.

Lemma relocated_from_iff q : q ∈ relocated_from (inc_relocations p) <-> q ∈ map old_path (inc_relocations p).
Proof. unfold relocated_from. apply elem_of_list_to_set. Qed.
Lemma relocated_to_iff q :
  q ∈ relocated_to (inc_relocations p) <-> q ∈ map (fun r => relative_path (new_file r)) (inc_relocations p).
Proof. unfold relocated_to. apply elem_of_list_to_set. Qed.

Lemma removed_first q : q ∈ deleted_first (inc_relocations p) (path_deletions s) \/ q ∈ map old_path (inc_relocations p)
  <-> q ∈ path_deletions s.
Proof.
  unfold deleted_first. rewrite list_elem_of_In, filter_In, <-list_elem_of_In, elem_of_elements, negb_true_iff, bool_decide_eq_false.
  rewrite <-relocated_from_iff. split.
  - intros [[? _]|Hq]; [done|]. apply path_deletions_spec. left.
    apply relocated_from_iff, list_elem_of_fmap in Hq as (r & -> & Hr). by destruct (relocation_facts r Hr) as (c & b & ? & _).
  - intros Hq. destruct (decide (q ∈ relocated_from (inc_relocations p))); [by right|by left].
Qed.

Lemma elem_of_fresh file tokens warn : Indexed file tokens warn ∈ fresh_ones <->
  Indexed file tokens warn ∈ xs /\ same_as_indexed (existing_of d) file = false.
Proof.
  rewrite list_elem_of_In, filter_In, <-list_elem_of_In. cbn [fresh].
  by rewrite negb_true_iff, (planned_existing _ _ _ _ _ _ _ planned).
Qed.

(** The map, path by path. *)
Lemma changed_model_spec :
  (forall file tokens warn, Indexed file tokens warn ∈ xs -> same_as_indexed (existing_of d) file = false ->
     changed_model !! indexed_path file = Some (contents_of config file tokens))
  /\ forall q, (forall file tokens warn, Indexed file tokens warn ∈ xs -> same_as_indexed (existing_of d) file = false ->
       indexed_path file <> q) ->
     (forall r, r ∈ inc_relocations p -> relative_path (new_file r) = q -> changed_model !! q = relocated_contents m r)
     /\ ((q ∉ relocated_to (inc_relocations p)) ->
         changed_model !! q = if bool_decide (q ∈ path_deletions s) then None else m !! q).
Proof.
  unfold changed_model, path_updates, stage_updates. rewrite (path_files _ _ _ _ stated).
  edestruct (path_model_spec (modules_of dk (inc_repository_paths p)) (sorted_indexed_paths (inc_repository_paths p)) (tokenizer config)
    m (inc_relocations p) (deleted_first (inc_relocations p) (path_deletions s)) (staged_removals (path_staged s))
    (inc_projections p) fresh_ones) as [H1 H2]; [apply relocations_apart|..].
  - intros r Hr [_ Hn]%list_elem_of_In%filter_In. rewrite bool_decide_eq_true_2 in Hn; [done|].
    apply relocated_from_iff. by apply (list_elem_of_fmap_2 old_path).
  - intros q Hq. apply removed_first. rewrite <-(path_removals _ _ _ _ stated). by apply elem_of_union_l, elem_of_list_to_set.
  - apply NoDup_map_filter, prepared_candidates_once.
  - unfold path_model in *. split.
    + intros file tokens warn Hx Hs. apply (H1 file tokens warn). by apply elem_of_fresh.
    + intros q Hq. destruct (H2 q) as [H3 H4].
      { intros file tokens warn [Hx Hs]%elem_of_fresh. by eapply Hq. }
      split; [exact H3|]. rewrite relocated_to_iff. intros Hn. destruct (H4 Hn) as [H5 H6].
      case_bool_decide as Hd; [by apply H5, removed_first|].
      apply H6; intros Hq'; apply Hd, removed_first; by (left + right).
Qed.

(** A result and the file it was made from, by path. *)
Lemma prepared_same x y : x ∈ xs -> y ∈ xs -> prepared_path x = prepared_path y -> x = y.
Proof. intros Hx Hy. by apply (NoDup_map_inj prepared_path xs); [apply prepared_candidates_once|..]. Qed.

(** A path that is not replaced. *)
Lemma changed_model_kept q : (forall file tokens warn, Indexed file tokens warn ∈ xs ->
    same_as_indexed (existing_of d) file = false -> indexed_path file <> q) ->
  (q ∉ relocated_to (inc_relocations p)) -> (q ∉ path_deletions s) -> changed_model !! q = m !! q.
Proof. intros H1 H2 H3. destruct changed_model_spec as [_ Hm]. rewrite (proj2 (Hm q H1) H2). by rewrite bool_decide_eq_false_2. Qed.

(** A candidate that was relocated to. *)
Lemma relocated_candidate r f : r ∈ inc_relocations p -> candidates c0 !! relative_path (new_file r) = Some f ->
  indexed_as dk (m !! relative_path f) (changed_model !! relative_path f) f.
Proof.
  intros Hr Hf0. destruct (relocation_facts r Hr) as (c & b & Hold & Hc & Hnone & Hf & Hread & Hh & Hl).
  assert (new_file r = f) as <-.
  { rewrite (planned_stable _ _ _ _ _ _ _ planned) in Hf. apply map_lookup_filter_Some in Hf as [Hf _]. congruence. }
  pose proof (read_bounded_bytes _ _ _ _ max_bytes_fits Hread) as Hb.
  destruct (same_digest _ _ _ _ Hc Hb Hh) as (Hb0 & f0 & file & tokens & warn & Hf0' & Hx & Hu).
  pose proof (f_equal (fun c => language (c_columns c)) Hu) as Hlang. cbn in Hlang.
  destruct (prepared_relocated dk0 dk f0 (new_file r) file tokens warn Hx) as (file' & warn' & Hx' & Hu'); [congruence..|].
  exists (Indexed file' tokens warn'). split; [done|].
  destruct changed_model_spec as [_ Hm]. destruct (Hm (relative_path (new_file r))) as [Hmoved _].
  { intros file1 t w Hin _ Hq. destruct (prepared_candidate _ Hin) as (g & [_ Hg]%candidate_iff & _ & Hp). cbn in Hp.
    apply Hg. rewrite <-Hp, Hq. apply relocated_to_iff. by apply (list_elem_of_fmap_2 (fun r => relative_path (new_file r))). }
  rewrite (Hmoved r Hr eq_refl). unfold relocated_contents. rewrite Hc. eexists. split; [reflexivity|].
  rewrite Hu', <-Hu. unfold unstamped, moved_contents. cbn.
  assert (size_bytes (c_columns c) = discovered_size (new_file r)) as Hsize; [|by rewrite Hsize].
  rewrite (col_sizes _ _ _ _ changes_collected _ _ b Hf0 Hb).
  destruct (prepared_text _ _ _ _ _ Hx) as (b1 & t & parsed & _ & Hb1 & _ & _ & _ & _ & _ & ->).
  pose proof (f_equal (fun c => size_bytes (c_columns c)) Hu) as Hs. cbn in Hs. rewrite Hs. congruence.
Qed.

(** A candidate that its content shows to be indexed. *)
Lemma indexed_already q f c b : m !! q = Some c -> relative_path f = q -> dk q = FileBytes b ->
  content_hash (c_columns c) = hash_bytes b -> changed_model !! q = m !! q ->
  indexed_as dk (m !! q) (changed_model !! q) f.
Proof.
  intros Hc Hq Hb Hh ->. destruct (same_digest q q c b Hc Hb Hh) as (Hb0 & f0 & file & tokens & warn & Hf0 & Hx & Hu).
  destruct (prepared_elsewhere blake3_hex count_tokens parse language_by_path config dk0 dk f0 f file tokens warn)
    as (file' & Hx' & Hu'); [congruence|by rewrite Hq, Hb0, Hb|done|].
  exists (Indexed file' tokens warn). split; [done|]. exists c. split; [done|]. congruence.
Qed.

(** A candidate that was left out because its content is stable. *)
Lemma stable_candidate q f : candidates c0 !! q = Some f -> (q ∉ relocated_to (inc_relocations p)) ->
  content_stable blake3_hex config dk (existing_of d) q f = true ->
  indexed_as dk (m !! q) (changed_model !! q) f.
Proof.
  intros Hf Hrel Est. destruct (col_keyed _ _ _ _ changes_collected q f Hf) as [Hq Hdel].
  assert (Hnot : forall x, x ∈ xs -> prepared_path x <> q).
  { intros x Hx Hp. destruct (prepared_candidate x Hx) as (g & [Hg _]%candidate_iff & _ & Hp').
    rewrite (planned_stable _ _ _ _ _ _ _ planned) in Hg. apply map_lookup_filter_Some in Hg as [Hg Hst].
    assert (relative_path g = q) as Heq by congruence. rewrite Heq in *. congruence. }
  unfold content_stable in Est. destruct (existing_of d !! q) as [record|] eqn:Ee; [|done].
  apply andb_true_iff in Est as [_ Hun]. unfold content_unchanged in Hun.
  destruct (read_bounded dk q _) as [b| |] eqn:Er; [|done..]. apply bool_decide_eq_true in Hun.
  destruct (existing_record d m _ _ d_represents Ee) as (c & Hc & Hch & _ & _).
  apply (indexed_already q f c b); [done|done|by eapply read_bounded_bytes|congruence|].
  apply changed_model_kept; [|done|].
  - intros file t w Hx _. by apply (Hnot _ Hx).
  - intros [?|(_ & x & Hx & Hor)]%path_deletions_spec; [done|]. apply (Hnot x Hx). by destruct Hor as [->| ->].
Qed.

(** A candidate that was prepared and found to be indexed. *)
Lemma same_candidate f file tokens warn : f ∈ path_candidates p -> prepared_as dk f (Indexed file tokens warn) ->
  same_as_indexed (existing_of d) file = true -> changed_model !! relative_path f = m !! relative_path f ->
  indexed_as dk (m !! relative_path f) (changed_model !! relative_path f) f.
Proof.
  intros [Hf Hrel]%candidate_iff Hx Esame Hkept. pose proof (prepared_as_path _ _ _ _ _ _ _ _ Hx) as Hp. cbn in Hp.
  destruct (prepared_text _ _ _ _ _ Hx) as (b & t & parsed & _ & Hb & _ & _ & Hcb & _ & _ & Hfile).
  unfold same_as_indexed in Esame. rewrite Hp in Esame.
  destruct (existing_of d !! relative_path f) as [record|] eqn:Ee; [|done].
  apply andb_true_iff in Esame as [Hhash%bool_decide_eq_true _].
  destruct (existing_record d m _ _ d_represents Ee) as (c & Hc & Hch & _ & _).
  apply (indexed_already (relative_path f) f c b); [done..| |done].
  rewrite <-Hch, Hhash, Hfile. cbn. by rewrite Hcb.
Qed.

(** A candidate that was prepared. *)
Lemma fresh_candidate f : f ∈ path_candidates p ->
  indexed_as dk (m !! relative_path f) (changed_model !! relative_path f) f.
Proof.
  intros Hcand. pose proof Hcand as [Hf Hrel]%candidate_iff. pose proof (candidate_kept (relative_path f) ltac:(by eexists)) as Hdel.
  pose proof Hcand as [i Hi]%list_elem_of_lookup. destruct (Forall2_lookup_l _ _ _ _ _ prepared Hi) as (x & Hxi & Hx).
  apply list_elem_of_lookup_2 in Hxi. pose proof (prepared_as_path _ _ _ _ _ _ _ _ Hx) as Hp.
  assert (Hreplaced : forall file t w, Indexed file t w ∈ xs -> indexed_path file = relative_path f -> x = Indexed file t w).
  { intros file t w Hin Heq. apply prepared_same; [done..|]. by rewrite Hp. }
  assert (Hgone : relative_path f ∈ path_deletions s <-> is_Some (m !! relative_path f)
      /\ (x = PreparedBinary (relative_path f) \/ x = Oversized (relative_path f))).
  { rewrite path_deletions_spec. split.
    - intros [?|(Hm & y & Hy & Hor)]; [done|]. split; [done|].
      assert (x = y) as ->; [|done]. apply prepared_same; [done..|]. rewrite Hp. by destruct Hor as [->| ->].
    - intros [Hm Hor]. right. split; [done|]. by exists x. }
  destruct changed_model_spec as [Hin Hout].
  assert (Hother : indexed_of x = None -> changed_model !! relative_path f
      = if bool_decide (relative_path f ∈ path_deletions s) then None else m !! relative_path f).
  { intros Hnone. apply Hout; [|done]. intros file t w Hx' _ Heq. by rewrite (Hreplaced file t w Hx' Heq) in Hnone. }
  destruct x as [file tokens warn|y|y|y message]; cbn [prepared_path] in Hp; try subst y.
  - destruct (same_as_indexed (existing_of d) file) eqn:Esame.
    + apply (same_candidate f file tokens warn); [done..|]. apply changed_model_kept; [|done|by intros [_ [?|?]]%Hgone].
      intros file1 t1 w1 Hin1 Hsame1 Heq. injection (Hreplaced _ _ _ Hin1 Heq) as <- _ _. congruence.
    + exists (Indexed file tokens warn). split; [done|]. exists (contents_of config file tokens). split; [|done].
      rewrite <-Hp. by eapply Hin.
  - exists (PreparedBinary (relative_path f)). split; [done|]. rewrite Hother by done. case_bool_decide as Hg; [done|].
    apply eq_None_not_Some. intros Hs. apply Hg, Hgone. split; [done|by left].
  - exists (Oversized (relative_path f)). split; [done|]. rewrite Hother by done. case_bool_decide as Hg; [done|].
    apply eq_None_not_Some. intros Hs. apply Hg, Hgone. split; [done|by right].
  - exists (Failed (relative_path f) message). split; [done|]. rewrite Hother by done.
    rewrite bool_decide_eq_false_2; [done|]. by intros [_ [?|?]]%Hgone.
Qed.

(** Every candidate is indexed as the disk has it. *)
Lemma changed_candidate q f : candidates c0 !! q = Some f -> indexed_as dk (m !! q) (changed_model !! q) f.
Proof.
  intros Hf. destruct (col_keyed _ _ _ _ changes_collected q f Hf) as [<- Hdel].
  destruct (decide (relative_path f ∈ relocated_to (inc_relocations p))) as [Hrel|Hrel].
  { apply relocated_to_iff, list_elem_of_fmap in Hrel as (r & Hr & Hin). apply (relocated_candidate r); [done|by rewrite <-Hr]. }
  destruct (content_stable blake3_hex config dk (existing_of d) (relative_path f) f) eqn:Est; [by apply stable_candidate|].
  apply fresh_candidate, candidate_iff. split; [|done]. rewrite (planned_stable _ _ _ _ _ _ _ planned).
  by apply map_lookup_filter_Some.
Qed.

(** Nothing else is. *)
Lemma changed_deletion q : q ∈ deletions c0 -> changed_model !! q = None.
Proof.
  intros Hq. destruct changed_model_spec as [_ Hm]. destruct (Hm q) as [_ Hout].
  { intros file t w Hx _ Heq. destruct (prepared_candidate _ Hx) as (g & [Hg _]%candidate_iff & _ & Hp). cbn in Hp.
    apply (candidate_kept q); [|done]. rewrite <-Heq, Hp. by eexists. }
  rewrite Hout.
  - rewrite bool_decide_eq_true_2; [done|]. apply path_deletions_spec. by left.
  - intros (r & Hr & Hin)%relocated_to_iff%list_elem_of_fmap. destruct (relocation_facts r Hin) as (c & b & _ & _ & _ & Hf & _).
    apply (candidate_kept q); [|done]. rewrite Hr. by eexists.
Qed.

Lemma changed_other q : candidates c0 !! q = None -> (q ∉ deletions c0) -> changed_model !! q = m !! q.
Proof.
  intros Hq Hdel.
  assert (Hnone : candidates (inc_changes p) !! q = None).
  { rewrite (planned_stable _ _ _ _ _ _ _ planned). apply map_lookup_filter_None. by left. }
  assert (Hnot : forall x, x ∈ xs -> prepared_path x <> q).
  { intros x Hx Hp. destruct (prepared_candidate x Hx) as (g & [Hg _]%candidate_iff & _ & Hp'). congruence. }
  apply changed_model_kept.
  - intros file t w Hx _. by apply (Hnot _ Hx).
  - intros (r & Hr & Hin)%relocated_to_iff%list_elem_of_fmap. destruct (relocation_facts r Hin) as (c & b & _ & _ & _ & Hf & _).
    congruence.
  - intros [?|(_ & x & Hx & Hor)]%path_deletions_spec; [done|]. apply (Hnot x Hx). by destruct Hor as [->| ->].
Qed.

(** *** When neither the files nor the modules of the index change *)
Section Quiet.
Hypothesis nothing_created : created (inc_change_set p) = [].
Hypothesis nothing_removed : path_deletions s = ∅.
Hypothesis modules_unmodified : existsb is_go_mod_path (modified_paths (inc_change_set p)) = false.
Hypothesis modules_reported : forall q, is_Some (m !! q) -> is_go_mod_path q = true -> dk0 q = dk q \/ q ∈ paths.

Lemma quiet_deletions q : (q ∉ deletions c0).
Proof. intros Hq. apply (not_elem_of_empty (C := gset str) q). rewrite <-nothing_removed. apply path_deletions_spec. by left. Qed.

Lemma quiet_plan : inc_relocations p = [] /\ inc_projections p = [].
Proof.
  apply (planned_quiet _ _ _ _ _ _ _ planned); [done|]. destruct (deleted (inc_change_set p)) as [|q l] eqn:E; [done|].
  destruct (quiet_deletions q). apply (planned_deleted _ _ _ _ _ _ _ planned). rewrite E. by left.
Qed.

Lemma quiet_candidate q : is_Some (candidates (inc_changes p) !! q) -> is_Some (m !! q).
Proof.
  intros Hc. apply (existing_dom d m); [done|]. destruct (existing_of d !! q) eqn:E; [by eexists|].
  assert (q ∈ created (inc_change_set p)) as Hin by by apply (planned_created _ _ _ _ _ _ _ planned).
  rewrite nothing_created in Hin. by apply elem_of_nil in Hin.
Qed.

Lemma quiet_repository : inc_repository_paths p = dom m.
Proof.
  rewrite (planned_repository _ _ _ _ _ _ _ planned), (dom_existing d m d_represents). apply set_eq. intros q.
  rewrite elem_of_union, elem_of_difference. split; [|intros Hq; left; split; [done|apply quiet_deletions]].
  intros [[? _]|Hq]; [done|]. apply elem_of_dom, quiet_candidate. by apply elem_of_dom.
Qed.

Lemma quiet_dom : dom changed_model = dom m.
Proof.
  destruct changed_model_spec as [Hin Hout]. destruct quiet_plan as [Hrel _]. apply set_eq. intros q. rewrite !elem_of_dom.
  destruct (decide (q ∈ map (fun x => indexed_path x.1) (omap indexed_of fresh_ones))) as [Hq|Hq].
  - apply list_elem_of_fmap in Hq as ([file tokens] & -> & Hi). apply list_elem_of_omap in Hi as (x & Hx & Hi).
    destruct x as [f t w| | |]; [|done..]. injection Hi as -> ->. apply elem_of_fresh in Hx as [Hx Hfr]. cbn [fst].
    rewrite (Hin file tokens w Hx Hfr). split; intros _; [|by eexists]. apply quiet_candidate.
    destruct (prepared_candidate _ Hx) as (g & [Hg _]%candidate_iff & _ & Hp). cbn in Hp. rewrite Hp. by eexists.
  - destruct (Hout q) as [_ Hkept].
    { intros file t w Hx Hs Heq. apply Hq. rewrite <-Heq.
      apply (list_elem_of_fmap_2 (fun x => indexed_path x.1) _ (file, t)), list_elem_of_omap.
      exists (Indexed file t w). split; [by apply elem_of_fresh|done]. }
    rewrite Hkept; [by rewrite bool_decide_eq_false_2 by (rewrite nothing_removed; apply not_elem_of_empty)|].
    rewrite Hrel. unfold relocated_to. cbn. apply not_elem_of_empty.
Qed.

Lemma quiet_modules : modules_of dk0 (dom m) = modules_of dk (dom m).
Proof.
  apply map_eq. intros q. rewrite !modules_of_lookup. case_bool_decide as Hq; [|done]. apply elem_of_dom in Hq.
  unfold go_module. destruct (is_go_mod_path q) eqn:Eg; [|done].
  assert (dk0 q = dk q) as Heq; [|unfold read_bounded; by rewrite Heq].
  destruct (modules_reported q Hq Eg) as [|Hrep]; [done|].
  pose proof (proj2 (existing_dom d m q d_represents) Hq) as Hex.
  destruct (col_covers _ _ _ _ changes_collected q Hrep Hex) as [[f Hf]|Hd]; [|by apply quiet_deletions in Hd].
  destruct (content_stable blake3_hex config dk (existing_of d) q f) eqn:Est.
  - unfold content_stable in Est. destruct (existing_of d !! q) as [record|] eqn:Ee; [|done].
    apply andb_true_iff in Est as [_ Hun]. unfold content_unchanged in Hun.
    destruct (read_bounded dk q _) as [b| |] eqn:Er; [|done..]. apply bool_decide_eq_true in Hun.
    apply read_bounded_bytes in Er; [|done]. destruct (existing_record d m _ _ d_represents Ee) as (c & Hc & Hch & _ & _).
    destruct (same_digest q q c b) as [Hb0 _]; [done|done|congruence|]. by rewrite Hb0, Er.
  - exfalso. rewrite <-not_true_iff_false in modules_unmodified. apply modules_unmodified, existsb_exists. exists q. split; [|done].
    apply list_elem_of_In, (planned_modified _ _ _ _ _ _ _ planned). split; [|done]. exists f.
    rewrite (planned_stable _ _ _ _ _ _ _ planned). by apply map_lookup_filter_Some.
Qed.

Lemma quiet_projected w w' : writer_ok w -> is_rebuild (w_mode w) = false -> w_db w = d -> projected dk0 d ->
  represents (w_db w') changed_model ->
  perform_updates (path_updates (tokenizer config) p s) w = Ok w' -> projected dk (w_db w').
Proof.
  intros Hw Hmode Hdb Hproj Hrep. destruct quiet_plan as [Hrel Hps].
  assert (Hrems : staged_removals (path_staged s) = []).
  { destruct (staged_removals (path_staged s)) as [|q l] eqn:E; [done|]. exfalso. apply (not_elem_of_empty (C := gset str) q).
    rewrite <-nothing_removed, <-(path_removals _ _ _ _ stated), E. apply elem_of_union_l, elem_of_list_to_set. by left. }
  unfold path_updates, stage_updates, deleted_first. rewrite Hrel, Hps, Hrems, nothing_removed, elements_empty.
  cbn [List.filter map app perform_updates perform_update refresh_import_projections result_bind].
  intros Hperf. unfold projected. rewrite (represents_members _ _ Hrep), quiet_dom, <-quiet_modules.
  eapply replacements_projected; [exact Hw| | |exact Hperf].
  - rewrite Hdb. unfold projected in Hproj. by rewrite (represents_members _ _ d_represents) in Hproj.
  - rewrite (path_files _ _ _ _ stated), quiet_repository, quiet_modules.
    apply Forall_forall. intros x (y & -> & _)%list_elem_of_fmap. apply resolve_file_resolved.
Qed.
End Quiet.
End Published.
End Contents.

(** ** The reconciliation *)
Section Incremental.
Variable blake3_hex : byte_string -> string.
Variable count_tokens : byte_string -> Z.
Variable parse : str -> byte_string -> result ParseOutput.
Variable language_by_path : str -> option string.
Variable config : IndexerConfig.
Variable runtime_derivation config_hash : string.
Variable include : DirEntry -> bool.
Variable policy_includes : str -> bool -> bool.
Variable artifact : str -> bool.
Variable pool stage : result ().
Variable cancelled : string -> nat -> bool.
Hypothesis lines_positive : (0 < chunk_lines config)%nat.
Hypothesis bytes_positive : (0 < chunk_bytes config)%nat.
Hypothesis max_bytes_fits : max_file_bytes (limits config) < U64_MAX.
Context {laws : ParserLaws parse language_by_path}.

Abbreviation reconcile_paths_once := (Incremental.reconcile_paths_once blake3_hex count_tokens parse language_by_path config
  runtime_derivation config_hash include policy_includes artifact pool stage cancelled).
Abbreviation collect_changes := (Incremental.collect_changes config include policy_includes artifact cancelled).
Abbreviation index_of := (FullIndex.index_of blake3_hex count_tokens parse language_by_path config).
Abbreviation indexed_as := (FullIndex.indexed_as blake3_hex count_tokens parse language_by_path config).

Lemma fair_paths_found fuel dk a : fair_paths config include cancelled fuel dk a -> valid (path_found a).
Proof. intros [Hv Hr _ _ _ _]. destruct (Hr O) as [_ He]. by apply (evolves_spec (path_reads a 0)). Qed.

Lemma fair_paths_same fuel dk a : fair_paths config include cancelled fuel dk a ->
  meta (path_reads a 0) = meta (path_found a) -> forall n, path_reads a n = path_found a.
Proof.
  intros [Hv Hr _ _ _ _] Hm n. destruct (Hr n) as [H1 H2].
  destruct (evolves_between _ _ _ Hv H1 H2 Hm) as [-> ->]. done.
Qed.

(** C2: reconciling reported paths indexes them.  From a database of the current configuration that
    represents [m], whose contents and projections are those of an earlier disk, and whatever other
    processes publish meanwhile, [reconcile_paths_once] returns.  On an error the database is the one
    found.  On success nothing was published meanwhile, the metadata are those of this run, and the
    database represents a map with, for every candidate that was collected for the reported paths,
    exactly what its bytes on the disk stand for, whether it was skipped as stable, relocated from a
    deleted path with the same digest, found to be indexed already or replaced; nothing for any
    deletion; and the old contents for every other path.  The projections of all imports are the
    resolver's for the resulting files, provided that every go.mod of the index that changed was
    reported. *)
Theorem reported_paths_are_indexed fuel verified requested a m dk0 dk :
  fair_paths config include cancelled fuel dk a -> represents (path_found a) m ->
  base_config_hash (meta (path_reads a 0)) = config_hash -> base_derivation (meta (path_reads a 0)) = runtime_derivation ->
  index_of dk0 m -> faithful_hash blake3_hex dk0 dk m -> (verified = true -> projected dk0 (path_found a)) ->
  (forall q paths, is_Some (m !! q) -> is_go_mod_path q = true -> normalized_paths cancelled requested = Ok paths ->
     dk0 q = dk q \/ q ∈ paths) ->
  exists d' verified' r, reconcile_paths_once fuel verified requested a = Done (d', verified', r) /\
  match r with
  | Err _ => d' = path_found a /\ verified' = verified
  | Ok report => verified' = true /\ path_reads a 0 = path_found a
      /\ meta d' = mk_meta (repository_generation report) config_hash runtime_derivation
      /\ exists paths c m', normalized_paths cancelled requested = Ok paths
        /\ collect_changes a paths (existing_of (path_found a)) = Ok c /\ represents d' m'
        /\ (forall q, q ∈ paths -> is_Some (m !! q) -> is_Some (candidates c !! q) \/ q ∈ deletions c)
        /\ (forall q f, candidates c !! q = Some f -> indexed_as dk (m !! q) (m' !! q) f)
        /\ (forall q, q ∈ deletions c -> m' !! q = None)
        /\ (forall q, candidates c !! q = None -> (q ∉ deletions c) -> m' !! q = m !! q)
        /\ projected dk d'
  end.
Proof.
  intros Hfair Hrep Hconf Hder Hidx Hhash Hproj Hgo. pose proof (fair_paths_found _ _ _ Hfair) as Hv.
  pose proof Hfair as [_ _ (bound & Hbound & Hids) (Hstab & Hreloc & Hmod & Hprep & Hrepair) _ _].
  unfold Incremental.reconcile_paths_once. destruct (check_cancelled _ "start" 0); [|by eexists _, _, _].
  rewrite !bool_decide_eq_true_2 by done. cbn [negb orb].
  destruct (existing_pages_return cancelled (fun n => path_reads a (S n)) bound fuel 0 None ∅) as (r & Hr);
    [intros n id; apply Hids|done|].
  destruct (existing_files cancelled fuel (fun n => path_reads a (S n))) as [[existing|e]| |] eqn:Eex;
    [|by eexists _, _, _|unfold existing_files in Eex; congruence..]. clear r Hr.
  destruct (check_rounds _ _ _); cbn [result_bind]; [|by eexists _, _, _].
  destruct (normalized_paths cancelled requested) as [paths|] eqn:Epaths; cbn [result_bind]; [|by eexists _, _, _].
  destruct (plan_changes _ _ _ _ _ _ _ _ _ _ paths) as [p|] eqn:Eplan; [|by eexists _, _, _].
  destruct (plan_changes_spec blake3_hex language_by_path config include policy_includes artifact cancelled dk a _ existing paths p
              Hreloc Hstab ltac:(intros c; by eapply collect_changes_spec) Eplan) as (Hbaseline & c0 & Hcollect & Hplan).
  pose proof (collect_changes_spec _ _ _ _ _ _ _ _ _ _ _ _ Hfair Epaths Hcollect) as Hcol.
  destruct (prepare_paths_spec blake3_hex count_tokens parse language_by_path config pool stage cancelled
              lines_positive bytes_positive a p) as ([s|e] & -> & Hs); [by eapply candidates_once| |by eexists _, _, _].
  destruct Hs as (xs & Hxs & Hst). rewrite Hprep in Hxs. rewrite Hmod in Hst. rewrite Hrepair.
  set (changed := negb (bool_decide (created (inc_change_set p) = [])) || _ || _).
  destruct (publish_spec runtime_derivation (fun _ => Ok ()) (inc_baseline p) config_hash ReconcileMode
              (write_paths config cancelled verified changed dk p s) (path_found a)) as (t & -> & Hres);
    [apply Hv..|intros w Hw; by apply write_paths_writes|].
  destruct (run_tx (path_found a) t) as [d' r]. destruct Hres as (Hd' & _ & Hstale & Hres).
  destruct r as [[g repaired]|e]; [|eexists _, _, _; split; [done|]; by split].
  eexists _, _, _. split; [done|]. split; [done|].
  assert (Hbase : meta (path_reads a 0) = meta (path_found a)).
  { rewrite <-Hbaseline. destruct (bool_decide_reflect (inc_baseline p = meta (path_found a))) as [|Hne]; [done|].
    by specialize (Hstale Hne). }
  pose proof (fair_paths_same _ _ _ Hfair Hbase) as Hsame. split; [by apply Hsame|].
  assert (existing = existing_of (path_found a)) as ->.
  { destruct (existing_files_spec cancelled (path_found a) (fun n => path_reads a (S n)) (valid_ok _ Hv) (fun n => Hsame (S n)) fuel)
      as [H|[H|[H _]]]; congruence. }
  destruct (published_state _ _ _ _ _ _ _ _ Hres) as (w & w' & Hwr & Hw & Hwmode & Hdel & Hstart & Hmeta & Hfiles & Himports).
  cbn [repository_generation path_report]. split; [done|]. change (is_rebuild ReconcileMode) with false in Hstart. cbn in Hstart.
  destruct (write_paths_spec config cancelled dk verified changed p s w Hw) as (r & Hr & Hspec).
  rewrite Hwr in Hr. injection Hr as <-. destruct Hspec as (w1 & Hperf & _ & Hrepw & Hcase).
  rewrite <-Hstart in Hrep. destruct (updates_represent _ _ _ _ Hrep Hperf) as (Hrep1 & _). rewrite Hwmode, Hdel in Hrep1.
  change (model_updates _ _ _).1 with (changed_model config m p s) in Hrep1. rewrite Hstart in Hrep.
  exists paths, c0, (changed_model config m p s). split; [done|]. split; [done|].
  split; [by eapply same_tables_represents, Hrepw|].
  split; [|split; [|split; [|split]]].
  - intros q Hq Hm. apply (col_covers _ _ _ _ Hcol q Hq). by apply (existing_dom (path_found a) m).
  - intros q f Hf. by eapply changed_candidate.
  - intros q Hq. by eapply changed_deletion.
  - intros q Hq Hn. by eapply changed_other.
  - eapply same_tables_projected; [exact Hfiles|exact Himports|]. destruct Hcase as [(Hch & Hver & ->)|Hdone]; [|done].
    apply orb_false_iff in Hch as [[Hcre%negb_false_iff Hgone%negb_false_iff]%orb_false_iff Hmods].
    apply bool_decide_eq_true in Hcre, Hgone.
    apply (quiet_projected blake3_hex count_tokens parse language_by_path config lines_positive bytes_positive max_bytes_fits
             (path_found a) m dk0 dk paths c0 p xs s Hrep Hidx Hhash Hcol Hplan Hxs Hst Hcre Hgone Hmods) with (w := w);
      try done; [|by rewrite Hwmode|by apply Hproj].
    intros q Hq Hg. by apply Hgo.
Qed.
End Incremental.

(** ** Witness *)
#[export] Instance demo_laws : ParserLaws demo_parse demo_language.
Proof.
  split; [|by intros p bytes out [= <-]]. intros p q bytes H. unfold demo_parse. by rewrite H.
Qed.

(** [pkg/util.py] was renamed. *)
Definition moved_disk : disk := fun p =>
  if bool_decide (p = lit "main.py") then FileBytes (demo_bytes "import pkg.util")
  else if bool_decide (p = lit "pkg/tool.py") then FileBytes (demo_bytes "x = 1")
  else FileError true "not found".
Definition moved_walk : list (option DirEntry) := [demo_entry ["pkg"; "tool.py"] 5; demo_entry ["main.py"] 15]%string.
Definition moved_attempt : path_attempt :=
  mk_path_attempt (fun _ => shown_db) shown_db shown_db
    (fun p => if bool_decide (p = lit "pkg/tool.py") then Metadata RegularFile 5 (Some 8) else MetadataNotFound)
    (fun _ => MetadataNotFound) moved_walk moved_disk moved_disk moved_disk moved_disk moved_disk moved_disk shown_db
    (shown_attempt, shown_attempt, shown_attempt).
Definition moved_requested : list str := [lit "pkg/util.py"; lit "pkg//tool.py"].

Lemma moved_fair : fair_paths demo_config (fun _ => true) (fun _ _ => false) 5 moved_disk moved_attempt.
Proof.
  destruct shown_fair as [Hv _ Hfuel _ _]. split; [exact Hv|by split|exact Hfuel|done|done|].
  intros discovered stats H. vm_compute in H. injection H as <- _. split; [by apply (bool_decide_unpack _)|].
  intros f bytes Hf Hb.
  repeat (apply elem_of_cons in Hf as [->|Hf]; [vm_compute in Hb; by injection Hb as <-|]). by apply elem_of_nil in Hf.
Qed.

Lemma moved_hashes : faithful_hash String.string_of_list_byte demo_disk moved_disk shown_model.
Proof.
  assert (Hbytes : forall q b, moved_disk q = FileBytes b -> b = demo_bytes "import pkg.util" \/ b = demo_bytes "x = 1").
  { intros q b. unfold moved_disk. repeat case_bool_decide; intros [= <-]; by (left + right). }
  intros q q' b b' [c Hq] Hb Hb' Hh. apply Hbytes in Hb'. unfold shown_model in Hq.
  assert (b = demo_bytes "import pkg.util" \/ b = demo_bytes "x = 1") as Hb0.
  { apply lookup_insert_Some in Hq as [[<- _]|[_ Hq]]; [left; vm_compute in Hb; by injection Hb as <-|].
    apply lookup_insert_Some in Hq as [[<- _]|[_ []%lookup_empty_Some]]. right. vm_compute in Hb. by injection Hb as <-. }
  destruct Hb0 as [->| ->], Hb' as [->| ->]; [done|by vm_compute in Hh..|done].
Qed.

Lemma reported_paths_are_indexed_witness :
  exists d' report m', Incremental.reconcile_paths_once String.string_of_list_byte shown_tokens demo_parse demo_language
      demo_config "v" "c" (fun _ => true) (fun _ _ => true) (fun _ => false) (Ok ()) (Ok ()) (fun _ _ => false) 5 true
      moved_requested moved_attempt = Done (d', true, Ok report)
    /\ represents d' m' /\ elements (dom m') = [lit "main.py"; lit "pkg/tool.py"] /\ files_indexed report = 2
    /\ (map_to_list (files d')).*1 = (map_to_list (files shown_db)).*1
    /\ map (fun x => i_resolved x.2) (map_to_list (imports d')) = [None] /\ projected moved_disk d'.
Proof.
  destruct (reported_paths_are_indexed String.string_of_list_byte shown_tokens demo_parse demo_language demo_config "v" "c"
    (fun _ => true) (fun _ _ => true) (fun _ => false) (Ok ()) (Ok ()) (fun _ _ => false) ltac:(cbn; lia) ltac:(cbn; lia)
    ltac:(vm_compute; reflexivity) 5 true moved_requested moved_attempt shown_model demo_disk moved_disk moved_fair
    shown_represents) as (d' & verified' & r & Hr & Hres).
  - reflexivity.
  - reflexivity.
  - exact shown_index_of.
  - exact moved_hashes.
  - intros _. exact shown_projected.
  - intros q paths [c Hq] Hg _. exfalso. unfold shown_model in Hq.
    apply lookup_insert_Some in Hq as [[<- _]|[_ Hq]]; [by vm_compute in Hg|].
    apply lookup_insert_Some in Hq as [[<- _]|[_ []%lookup_empty_Some]]. by vm_compute in Hg.
  - assert (H := Hr). vm_compute in H. injection H as Hd Hv Hrep.
    destruct r as [report|e]; [|exfalso; discriminate Hrep]. injection Hrep as Hrep.
    destruct Hres as (-> & _ & _ & paths & c & m' & _ & _ & Hrepr & _ & _ & _ & _ & Hproj).
    exists d', report, m'. split; [exact Hr|]. split; [exact Hrepr|].
    rewrite <-(represents_members _ _ Hrepr), <-Hd, <-Hrep. repeat (split; [vm_compute; reflexivity|]).
    rewrite Hd. exact Hproj.
Defined.
