(* ===== verification/QueryReceipts.v ===== *)
(** * Query coverage receipts

    [src/src/query_receipt.rs], [src/src/storage/query_receipts.rs], the table
    of [src/src/storage/schema.rs] and the reuse decision of
    [src/src/services/search/execution.rs].  A receipt records that one
    exhaustive search over a path scope found [match_count] occurrences in
    files with given content; it answers a later search without a scan.

    Parameters: BLAKE3 as a function on bytes, the JSON form of a predicate
    (derived by serde), and globset as in [Paths].  Digest columns hold
    hexadecimal text. *)

From S2P Require Import Prelude Chars Bytes Order Store Receipt Table Paths.
Open Scope Z_scope.
Open Scope store_scope.
Open Scope run_scope.

Definition MAX_QUERY_RECEIPTS : Z := 128.
Definition MAX_QUERY_RECEIPT_ID_BYTES : Z := 128.
Definition MAX_QUERY_PREDICATE_BYTES : Z := 64 * 1024.
Definition MAX_TOTAL_QUERY_RECEIPT_BYTES : Z := 1024 * 1024.
Definition QUERY_RECEIPT_TTL_MILLIS : Z := 24 * 60 * 60 * 1000.
Definition QUERY_RECEIPT_TOUCH_INTERVAL_MILLIS : Z := 60 * 1000.
Definition QUERY_RECEIPT_SEMANTICS_VERSION : Z := 2.
Definition INDEX_CONTENT_VERSION : Z := 15.
Definition QUERY_RECEIPT_FIXED_LOGICAL_BYTES : Z := 16 * 8.

(** [blake3::Hash::to_hex]. *)
Fixpoint to_hex (b : bytes) : string :=
  match b with
  | [] => EmptyString
  | x :: b => String (hex_digit (x / 16)) (String (hex_digit (x mod 16)) (to_hex b))
  end.

(** [str::strip_prefix]. *)
Fixpoint strip_string_prefix (p s : string) : option string :=
  match p, s with
  | EmptyString, _ => Some s
  | String a p, String b s => if Ascii.eqb a b then strip_string_prefix p s else None
  | String _ _, EmptyString => None
  end.

(** ** Data *)
Inductive SearchMode :=
| ModeAuto | ModeText | ModeRegex | ModeIdentifier | ModeSymbol | ModeReference.

Inductive ExactQueryMode := ExactText | ExactRegex.
#[export] Instance ExactQueryMode_eq_dec : EqDecision ExactQueryMode.
Proof. solve_decision. Defined.

Definition from_search_mode (mode : SearchMode) : result ExactQueryMode :=
  match mode with
  | ModeText => Ok ExactText
  | ModeRegex => Ok ExactRegex
  | _ => Err (InvalidInput "query_receipt" "requires text or regex mode")
  end.

(** The fields of a [SearchRequest] that a predicate reads. *)
Record SearchRequest := mk_request {
  query : str;
  mode : SearchMode;
  case_sensitive : bool;
  request_include_paths : list str;
  request_exclude_paths : list str
}.

Record ExactQueryPredicate := mk_predicate {
  semantics_version : Z;
  predicate_mode : ExactQueryMode;
  query_blake3 : string;
  predicate_case_sensitive : bool;
  include_paths : list str;
  exclude_paths : list str
}.
#[export] Instance ExactQueryPredicate_eq_dec : EqDecision ExactQueryPredicate.
Proof. solve_decision. Defined.

Inductive QueryReceiptScopeRelation := ScopeExact | ScopeSubset.
#[export] Instance QueryReceiptScopeRelation_eq_dec : EqDecision QueryReceiptScopeRelation.
Proof. solve_decision. Defined.

Record QueryPartition := mk_partition { partition_digest : string; file_count : Z }.
#[export] Instance QueryPartition_eq_dec : EqDecision QueryPartition.
Proof. solve_decision. Defined.

Record QueryReceiptRecord := mk_record {
  rec_generation : Z;
  rec_config_hash : string;
  rec_predicate : ExactQueryPredicate;
  rec_predicate_blake3 : string;
  rec_partition : QueryPartition;
  rec_match_count : Z;
  rec_result_blake3 : string
}.

Record StoredQueryReceipt := mk_stored {
  receipt_id : string;
  stored_record : QueryReceiptRecord
}.

Record SearchOccurrence := mk_occurrence {
  occ_start_line : Z;
  occ_end_line : Z;
  occ_start_column : Z;
  occ_end_column : Z;
  occ_start_byte : Z;
  occ_end_byte : Z
}.

(** ** Predicates *)
Definition same_query_semantics (self other : ExactQueryPredicate) : bool :=
  (semantics_version self =? semantics_version other)
  && bool_decide (predicate_mode self = predicate_mode other)
  && bool_decide (query_blake3 self = query_blake3 other)
  && Bool.eqb (predicate_case_sensitive self) (predicate_case_sensitive other).

Definition scope_relation_to (self recorded : ExactQueryPredicate)
    : option QueryReceiptScopeRelation :=
  if negb (same_query_semantics self recorded) then None
  else if bool_decide (include_paths self = include_paths recorded)
          && bool_decide (exclude_paths self = exclude_paths recorded)
  then Some ScopeExact
  else
    let includes_are_subset :=
      bool_decide (include_paths recorded = [])
      || (negb (bool_decide (include_paths self = []))
          && forallb (binary_search_found (include_paths recorded)) (include_paths self)) in
    let excludes_only_narrow :=
      forallb (binary_search_found (exclude_paths self)) (exclude_paths recorded) in
    if includes_are_subset && excludes_only_narrow then Some ScopeSubset else None.

(** ** Receipt identifiers *)
Definition QUERY_RECEIPT_ID_ROW_HEX_BYTES : nat := 16.

Definition format_query_receipt_id (namespace : string) (row_id : Z) : string :=
  ("q" ++ namespace ++ format_016x row_id)%string.

Definition parse_query_receipt_id (requested_id namespace : string) : option Z :=
  rest ← strip_string_prefix "q" requested_id;
  suffix ← strip_string_prefix namespace rest;
  if negb (String.length suffix =? QUERY_RECEIPT_ID_ROW_HEX_BYTES)%nat then None
  else
    row_id ← from_str_radix16 suffix;
    if 0 <? row_id then Some row_id else None.

(** ** What is hashed *)
Definition partition_material (files : list (str * string)) : bytes :=
  string_bytes "leantoken-exact-query-partition-v1" ++ [0]
  ++ concat (map (fun '(path, content_hash) =>
               framed (utf8 path) ++ framed (string_bytes content_hash)) files)
  ++ le64 (len files).

Definition occurrence_bytes (o : SearchOccurrence) : bytes :=
  concat (map le64 [occ_start_line o; occ_end_line o; occ_start_column o; occ_end_column o;
                    occ_start_byte o; occ_end_byte o]).

(** The stable sort of [exhaustive_result_digest]: by path, start and end byte. *)
Definition hit_key (h : str * SearchOccurrence) : str * (Z * Z) :=
  (h.1, (occ_start_byte h.2, occ_end_byte h.2)).
Fixpoint insert_hit (h : str * SearchOccurrence) (l : list (str * SearchOccurrence)) :=
  match l with
  | [] => [h]
  | x :: l' => if key_lt (hit_key x) (hit_key h) then x :: insert_hit h l' else h :: l
  end.
Definition sort_hits (hits : list (str * SearchOccurrence)) : list (str * SearchOccurrence) :=
  foldr insert_hit [] hits.

Definition result_material (hits : list (str * SearchOccurrence)) : bytes :=
  string_bytes "leantoken-exact-query-result-v1" ++ [0] ++ le64 (len hits)
  ++ concat (map (fun '(path, o) => framed (utf8 path) ++ occurrence_bytes o) (sort_hits hits)).

(** ** The table *)
Record query_row := mk_query_row {
  row_identity : string;
  row_generation : Z;
  row_config_hash : string;
  row_semantics_version : Z;
  row_predicate_json : string;
  row_predicate_blake3 : string;
  row_partition_blake3 : string;
  row_partition_file_count : Z;
  row_match_count : Z;
  row_result_blake3 : string;
  row_created : Z;
  row_last_access : Z;
  row_expires : Z;
  row_access_sequence : Z;
  row_logical_bytes : Z
}.

#[export] Instance query_table_row : TableRow query_row := {|
  row_sequence := row_access_sequence;
  row_bytes := row_logical_bytes;
  row_check r :=
    (0 <=? row_generation r) && (0 <? row_semantics_version r)
    && (str_len (row_predicate_blake3 r) =? 64) && (str_len (row_partition_blake3 r) =? 64)
    && (0 <=? row_partition_file_count r) && (0 <=? row_match_count r)
    && (str_len (row_result_blake3 r) =? 64)
    && (0 <=? row_created r) && (0 <=? row_last_access r) && (0 <=? row_expires r)
|}.

Abbreviation query_table := (table Z query_row).

(** The usage row's namespace, the AUTOINCREMENT counter, the columns of [meta]
    in use, and the table. *)
Record query_db := mk_query_db {
  namespace : string;
  last_row_id : Z;
  meta_identity : string;
  meta_generation : Z;
  meta_config_hash : string;
  receipts : query_table
}.
Definition with_receipts (d : query_db) (t : query_table) : query_db :=
  mk_query_db (namespace d) (last_row_id d) (meta_identity d) (meta_generation d)
    (meta_config_hash d) t.

Section QueryReceipts.
Variable blake3 : bytes -> bytes.
Variable to_json : ExactQueryPredicate -> string.
Variable of_json : string -> option ExactQueryPredicate.
Variable glob_valid : str -> bool.
Variable glob_match : str -> str -> bool.
(** [env!("CARGO_PKG_VERSION")]. *)
Variable package_version : string.

Definition hash_hex (material : bytes) : string := to_hex (blake3 material).

Definition search_semantics_fingerprint : Z :=
  let digest := blake3
    (string_bytes "leantoken-search-semantics-v1" ++ [0]
     ++ framed (string_bytes package_version)
     ++ le_bytes 4 INDEX_CONTENT_VERSION ++ le64 QUERY_RECEIPT_SEMANTICS_VERSION) in
  of_le_bytes (take 8 digest) mod I64_MAX + 1.

Definition normalize_patterns (values : list str) : result (list str) :=
  let* set := new_pattern_set glob_valid values in Ok (sort_dedup (patterns set)).

Definition serialized (p : ExactQueryPredicate) : result string :=
  let json := to_json p in
  if MAX_QUERY_PREDICATE_BYTES <? str_len json
  then Err (InputTooLong "normalized query predicate" MAX_QUERY_PREDICATE_BYTES)
  else Ok json.

Definition predicate_digest (p : ExactQueryPredicate) : result string :=
  let* json := serialized p in Ok (hash_hex (string_bytes json)).

Definition from_request (request : SearchRequest) : result ExactQueryPredicate :=
  let* m := from_search_mode (mode request) in
  let* includes := normalize_patterns (request_include_paths request) in
  let* excludes := normalize_patterns (request_exclude_paths request) in
  let predicate := mk_predicate search_semantics_fingerprint m
    (hash_hex (utf8 (query request))) (case_sensitive request) includes excludes in
  let* _ := serialized predicate in Ok predicate.

Definition logical_bytes (r : QueryReceiptRecord) (repository_identity : string) : result Z :=
  match
    total ← u64_checked_add QUERY_RECEIPT_FIXED_LOGICAL_BYTES (str_len repository_identity);
    total ← u64_checked_add total (str_len (rec_config_hash r));
    json ← match serialized (rec_predicate r) with Ok json => Some json | Err _ => None end;
    total ← u64_checked_add total (str_len json);
    total ← u64_checked_add total (str_len (rec_predicate_blake3 r));
    total ← u64_checked_add total (str_len (partition_digest (rec_partition r)));
    u64_checked_add total (str_len (rec_result_blake3 r))
  with
  | Some total => Ok total
  | None => Err (OperationFailure "query receipt byte accounting overflow")
  end.

Definition exhaustive_result_digest (hits : list (str * SearchOccurrence)) : string :=
  hash_hex (result_material hits).

(** ** Statements and helpers *)
Definition prune_expired_query_receipts (now : Z) (t : query_table) : result query_table :=
  table_delete_where (fun _ r =>
    (row_expires r <=? now) || (now <? row_created r) || (now <? row_last_access r)) t.

Definition next_query_receipt_access_sequence (current : Z) (t : query_table)
    : result (Z * query_table) :=
  match i64_checked_add current 1 with
  | None => Err (OperationFailure "query receipt access sequence overflow")
  | Some next =>
    if t_next t =? current then
      let* _ := check_nonneg [next] in
      Ok (next, mk_table next (t_count t) (t_bytes t) (t_rows t))
    else Err (OperationFailure "query receipt access sequence changed unexpectedly")
  end.

Definition expires_at (now : Z) : result Z :=
  if now <? 0 then Err (OperationFailure "system clock precedes the Unix epoch")
  else match i64_checked_add now QUERY_RECEIPT_TTL_MILLIS with
       | Some expires => Ok expires
       | None => Err (OperationFailure "query receipt expiry overflow")
       end.

Definition touched (now expires sequence : Z) (r : query_row) : query_row :=
  mk_query_row (row_identity r) (row_generation r) (row_config_hash r) (row_semantics_version r)
    (row_predicate_json r) (row_predicate_blake3 r) (row_partition_blake3 r)
    (row_partition_file_count r) (row_match_count r) (row_result_blake3 r)
    (row_created r) now expires sequence (row_logical_bytes r).

(** [Storage::touch_query_receipt_with_clock]. *)
Definition touch_query_receipt (receipt_id : string) (now : Z) (d : query_db) : tx query_db () :=
  try! expires := expires_at now in
  try! t := prune_expired_query_receipts now (receipts d) in
  try! usage := read_usage t in
  match parse_query_receipt_id receipt_id (namespace d) with
  | None => Committed (with_receipts d t) (Ok ())
  | Some row_id =>
    try! (sequence, t) := next_query_receipt_access_sequence usage.1.1 t in
    try! (updated, t) := table_update row_id (touched now expires sequence) t in
    if updated =? 0 then RolledBack (UnknownQueryReceipt receipt_id)
    else Committed (with_receipts d t) (Ok ())
  end.

(** The columns of one record, converted as the statements bind them. *)
Definition record_columns (r : QueryReceiptRecord) (json : string) (identity : string)
    : result query_row :=
  let* generation := u64_to_i64 (rec_generation r) in
  let* version := u64_to_i64 search_semantics_fingerprint in
  let* files := usize_to_i64 (file_count (rec_partition r)) in
  let* matched := usize_to_i64 (rec_match_count r) in
  Ok (mk_query_row identity generation (rec_config_hash r) version json (rec_predicate_blake3 r)
        (partition_digest (rec_partition r)) files matched (rec_result_blake3 r) 0 0 0 0 0).

(** The [WHERE] clause of the lookup. *)
Definition same_evidence (columns r : query_row) : bool :=
  bool_decide (row_identity r = row_identity columns)
  && (row_generation r =? row_generation columns)
  && bool_decide (row_config_hash r = row_config_hash columns)
  && (row_semantics_version r =? row_semantics_version columns)
  && bool_decide (row_predicate_json r = row_predicate_json columns)
  && bool_decide (row_predicate_blake3 r = row_predicate_blake3 columns)
  && bool_decide (row_partition_blake3 r = row_partition_blake3 columns)
  && (row_partition_file_count r =? row_partition_file_count columns)
  && (row_match_count r =? row_match_count columns)
  && bool_decide (row_result_blake3 r = row_result_blake3 columns).

(** [.. ORDER BY id LIMIT 1]. *)
Definition find_equivalent (columns : query_row) (t : query_table) : option (Z * query_row) :=
  least fst (List.filter (fun '(_, r) => same_evidence columns r) (map_to_list (t_rows t))).

Definition over_quota (total : Z) (s : (Z * Z * Z) * query_table) : bool :=
  (MAX_QUERY_RECEIPTS <=? s.1.1.2)
  || (MAX_TOTAL_QUERY_RECEIPT_BYTES <? u64_saturating_add s.1.2 total).

Definition written (columns : query_row) (now expires sequence total : Z) : query_row :=
  mk_query_row (row_identity columns) (row_generation columns) (row_config_hash columns)
    (row_semantics_version columns) (row_predicate_json columns) (row_predicate_blake3 columns)
    (row_partition_blake3 columns) (row_partition_file_count columns) (row_match_count columns)
    (row_result_blake3 columns) now now expires sequence total.

(** The insert; AUTOINCREMENT gives one more than any identifier ever used and
    fails at the largest one. *)
Definition insert_receipt (columns : query_row) (now expires total : Z) (usage : Z * Z * Z)
    (d : query_db) (t : query_table) : tx query_db string :=
  try! (sequence, t) := next_query_receipt_access_sequence usage.1.1 t in
  try! stored_total := usize_to_i64 total in
  if I64_MAX <=? last_row_id d then RolledBack SqlFailure
  else
    let row_id := last_row_id d + 1 in
    try! t := table_insert row_id (written columns now expires sequence stored_total) t in
    Committed (mk_query_db (namespace d) row_id (meta_identity d) (meta_generation d)
                 (meta_config_hash d) t)
      (Ok (format_query_receipt_id (namespace d) row_id)).

(** The branch for an equivalent receipt: a touch at most once a minute. *)
Definition refresh_receipt (row_id last_access now expires : Z) (usage : Z * Z * Z)
    (d : query_db) (t : query_table) : tx query_db string :=
  let id := format_query_receipt_id (namespace d) row_id in
  if QUERY_RECEIPT_TOUCH_INTERVAL_MILLIS <=? i64_saturating_sub now last_access then
    try! (sequence, t) := next_query_receipt_access_sequence usage.1.1 t in
    try! (_, t) := table_update row_id (touched now expires sequence) t in
    Committed (with_receipts d t) (Ok id)
  else Committed (with_receipts d t) (Ok id).

(** From the lookup on: refresh an equivalent receipt, or make room and insert. *)
Definition store_receipt (columns : query_row) (now expires total : Z) (usage : Z * Z * Z)
    (d : query_db) (t : query_table) : run (tx query_db string) :=
  match find_equivalent columns t with
  | Some (row_id, found) =>
    Done (refresh_receipt row_id (row_last_access found) now expires usage d t)
  | None =>
    let? made :=
      evict_while evict_and_reload (over_quota total) (S (size (t_rows t))) (usage, t) in
    Done (try! room := made in
          match room with
          | inr _ => RolledBack (OperationFailure "query receipt quota could not evict a receipt")
          | inl (usage, t) => insert_receipt columns now expires total usage d t
          end)
  end.

(** [Storage::persist_query_receipt_at]. *)
Definition persist_query_receipt_at (r : QueryReceiptRecord) (now : Z) (d : query_db)
    : run (tx query_db string) :=
  try? expires := expires_at now in
  try? json := serialized (rec_predicate r) in
  try? t := prune_expired_query_receipts now (receipts d) in
  try? generation := i64_to_u64 (meta_generation d) in
  if negb (generation =? rec_generation r)
     || negb (bool_decide (meta_config_hash d = rec_config_hash r))
  then Done (RolledBack RetryableConflict)
  else
    try? total := logical_bytes r (meta_identity d) in
    if MAX_TOTAL_QUERY_RECEIPT_BYTES <? total then Done (RolledBack LimitExceeded)
    else
      try? usage := read_usage t in
      try? columns := record_columns r json (meta_identity d) in
      store_receipt columns now expires total usage d t.

(** [ReadSession::load_query_receipt_at]. *)
Definition load_query_receipt_at (requested_id : string) (now : Z) (d : query_db)
    : result StoredQueryReceipt :=
  let unknown := UnknownQueryReceipt requested_id in
  if MAX_QUERY_RECEIPT_ID_BYTES <? str_len requested_id
  then Err (InputTooLong "query receipt_id" MAX_QUERY_RECEIPT_ID_BYTES)
  else if now <? 0 then Err unknown
  else
  match parse_query_receipt_id requested_id (namespace d) with
  | None => Err unknown
  | Some row_id =>
  match t_rows (receipts d) !! row_id with
  | None => Err unknown
  | Some row =>
    let* generation := i64_to_u64 (row_generation row) in
    let* version := i64_to_u64 (row_semantics_version row) in
    let* files := i64_to_usize (row_partition_file_count row) in
    let* matched := i64_to_usize (row_match_count row) in
    if negb (bool_decide (row_identity row = meta_identity d))
       || negb (version =? search_semantics_fingerprint)
       || (now <? row_created row) || (now <? row_last_access row) || (row_expires row <=? now)
    then Err unknown
    else
    match of_json (row_predicate_json row) with
    | None => Err unknown
    | Some predicate =>
      let* digest := predicate_digest predicate in
      if negb (bool_decide (digest = row_predicate_blake3 row)) then Err unknown
      else Ok (mk_stored requested_id
                 (mk_record generation (row_config_hash row) predicate (row_predicate_blake3 row)
                    (mk_partition (row_partition_blake3 row) files) matched
                    (row_result_blake3 row)))
    end
  end end.

(** ** Path filters ([services/validation.rs]) *)
Record PathFilter := mk_filter {
  filter_includes : RepositoryPatternSet;
  filter_excludes : RepositoryPatternSet;
  include_all : bool
}.

Definition new_filter (ins exs : list str) : result PathFilter :=
  let* i := new_pattern_set glob_valid ins in
  let* e := new_pattern_set glob_valid exs in
  Ok (mk_filter i e (bool_decide (ins = []))).

Definition allows (f : PathFilter) (path : str) : bool :=
  (include_all f || is_match glob_match (filter_includes f) path)
  && negb (is_match glob_match (filter_excludes f) path).

(** ** The partition of a search scope

    [files] is the [files] table, path to content hash; the query streams it in
    path order.  [check i] is the cancellation probe before row [i]. *)
Definition files_in_order (files : gmap str string) : list (str * string) :=
  sort_keys (map_to_list files).

Fixpoint collect_partition (allows_path : str -> bool) (check : nat -> result ()) (i : nat)
    (rows : list (str * string)) : result (list (str * string)) :=
  match rows with
  | [] => Ok []
  | (path, content_hash) :: rows =>
    let* _ := check i in
    let* rest := collect_partition allows_path check (S i) rows in
    Ok (if allows_path path then (path, content_hash) :: rest else rest)
  end.

Definition exact_query_partition (files : gmap str string) (allows_path : str -> bool)
    (check : nat -> result ()) : result QueryPartition :=
  let* members := collect_partition allows_path check 0 (files_in_order files) in
  if U64_MAX <? len members then Err (OperationFailure "query partition count overflow")
  else Ok (mk_partition (hash_hex (partition_material members)) (len members)).

(** ** Recording and reusing

    The end of [Services::build_search_page] for a request that records: the
    record that is pending, or [None] for the outcome "not recorded, incomplete
    response". *)
Fixpoint exact_coordinates (hits : list (str * option SearchOccurrence))
    : result (list (str * SearchOccurrence)) :=
  match hits with
  | [] => Ok []
  | (path, Some o) :: hits => let* rest := exact_coordinates hits in Ok ((path, o) :: rest)
  | (_, None) :: _ =>
    Err (OperationFailure "exhaustive query result omitted exact coordinates")
  end.

Definition pending_query_receipt (predicate : ExactQueryPredicate) (has_more : bool)
    (occurrences_returned : Z) (hits : list (str * option SearchOccurrence))
    (files : gmap str string) (generation : Z) (config_hash : string)
    (check : nat -> result ()) : result (option QueryReceiptRecord) :=
  let* predicate_blake3 := predicate_digest predicate in
  if negb has_more && (occurrences_returned =? len hits) then
    let* path_filter := new_filter (include_paths predicate) (exclude_paths predicate) in
    let* partition := exact_query_partition files (allows path_filter) check in
    let* occurrences := exact_coordinates hits in
    Ok (Some (mk_record generation config_hash predicate predicate_blake3 partition (len hits)
                (exhaustive_result_digest occurrences)))
  else Ok None.

(** The outcome [AlreadyCovered]. *)
Record QueryReceiptOutcome := mk_outcome {
  outcome_receipt_id : string;
  outcome_match_count : Z;
  requested_predicate_blake3 : string;
  covered_predicate_blake3 : string;
  outcome_result_blake3 : string;
  receipt_generation : Z;
  reused_across_generation : bool;
  scope_relation : QueryReceiptScopeRelation
}.

(** The validation part of [Services::reuse_query_receipt] on the pinned
    snapshot [d], [files]; [check 0] is the probe at entry. *)
Definition validate_reuse (d : query_db) (files : gmap str string) (generation : Z)
    (receipt_id : string) (requested : ExactQueryPredicate) (now : Z) (check : nat -> result ())
    : result (StoredQueryReceipt * QueryReceiptScopeRelation * bool) :=
  let* _ := check 0%nat in
  let* stored := load_query_receipt_at receipt_id now d in
  let record := stored_record stored in
  match scope_relation_to requested (rec_predicate record) with
  | None => Err QueryReceiptMismatch
  | Some relation =>
    if bool_decide (relation = ScopeSubset) && negb (rec_match_count record =? 0)
    then Err QueryReceiptMismatch
    else if negb (bool_decide (meta_config_hash d = rec_config_hash record))
    then Err (StaleQueryReceipt (rec_generation record) generation)
    else if negb (rec_generation record =? generation) then
      let* recorded_filter := new_filter (include_paths (rec_predicate record))
                                (exclude_paths (rec_predicate record)) in
      let* current := exact_query_partition files (allows recorded_filter)
                        (fun i => check (S i)) in
      if bool_decide (current = rec_partition record) then Ok (stored, relation, true)
      else Err (StaleQueryReceipt (rec_generation record) generation)
    else Ok (stored, relation, false)
  end.

(** [Services::reuse_query_receipt].  The touch runs against the store as it is
    by then ([writer], at [touch_now]); whatever it answers is ignored. *)
Definition reuse_query_receipt (d : query_db) (files : gmap str string) (generation : Z)
    (receipt_id : string) (requested : ExactQueryPredicate) (now : Z) (check : nat -> result ())
    (writer : query_db) (touch_now : Z) : query_db * result QueryReceiptOutcome :=
  match validate_reuse d files generation receipt_id requested now check with
  | Err e => (writer, Err e)
  | Ok (stored, relation, across) =>
    let writer := (run_tx writer (touch_query_receipt receipt_id touch_now writer)).1 in
    let record := stored_record stored in
    (writer,
     let* digest := predicate_digest requested in
     Ok (mk_outcome receipt_id (rec_match_count record) digest
           (rec_predicate_blake3 record) (rec_result_blake3 record) (rec_generation record)
           across relation))
  end.
End QueryReceipts.

(** ** Lemmas: path filters and scope relations *)
Section ScopeLemmas.
Variable glob_valid : str -> bool.
Variable glob_match : str -> str -> bool.

(** A set matches what some pattern, as parsed, matches. *)
Lemma pattern_set_matches values set path : new_pattern_set glob_valid values = Ok set ->
  is_match glob_match set path = true <->
  exists v p, v ∈ values /\ parse_pattern glob_valid v = Ok p
    /\ pattern_matches glob_match p path = true.
Proof.
  intros Hset. assert (Hm : compile_matcher glob_valid values false
                            = Ok (mk_matcher set (map static_prefix values) [])).
  { unfold compile_matcher. by rewrite Hset. }
  destruct (compile_matcher_inv _ _ _ _ Hm) as (Hlit & Hglob & _ & Hback & _). simpl in *.
  unfold is_match, pattern_matches. rewrite orb_true_iff, !existsb_exists. split.
  - intros [(p & Hp%list_elem_of_In & Hw)|(g & Hg%list_elem_of_In & Hw)].
    + destruct (Hlit p Hp) as (q & Hq & Hpq & Hmeta). exists q, p. by rewrite Hmeta.
    + destruct (Hglob g Hg) as (q & Hq & Hpq & Hmeta). exists q, g. by rewrite Hmeta.
  - intros (v & p & Hv & Hp & Hw). pose proof (Hback v p Hv Hp) as Hin.
    destruct (has_glob_meta p); [right|left]; exists p; by rewrite <-list_elem_of_In.
Qed.

(** A filter, without the sets it is compiled to. *)
Definition any_pattern (values : list str) (path : str) : Prop :=
  exists v p, v ∈ values /\ parse_pattern glob_valid v = Ok p
    /\ pattern_matches glob_match p path = true.

Lemma allows_spec ins exs f path : new_filter glob_valid ins exs = Ok f ->
  allows glob_match f path = true <->
  (ins = [] \/ any_pattern ins path) /\ ~ any_pattern exs path.
Proof.
  unfold new_filter. destruct (new_pattern_set glob_valid ins) as [i|] eqn:Hi; simpl; [|done].
  destruct (new_pattern_set glob_valid exs) as [e|] eqn:He; simpl; [|done]. intros [= <-].
  unfold allows, any_pattern. simpl.
  rewrite andb_true_iff, orb_true_iff, bool_decide_eq_true, negb_true_iff, <-not_true_iff_false.
  by rewrite (pattern_set_matches ins i path Hi), (pattern_set_matches exs e path He).
Qed.

Lemma any_pattern_mono vs ws path : (forall v, v ∈ vs -> v ∈ ws) ->
  any_pattern vs path -> any_pattern ws path.
Proof. intros Hsub (v & p & Hv & Hp). exists v, p. split; [by apply Hsub|done]. Qed.

(** What the search finds is in the list, sorted or not. *)
Lemma binary_search_found_elem (l : list str) x : binary_search_found l x = true -> x ∈ l.
Proof.
  unfold binary_search_found. destruct l as [|y l']; [done|]. set (l := y :: l').
  destruct (l !! _) as [z|] eqn:Hz; [|done]. intros ->%bool_decide_eq_true.
  by eapply list_elem_of_lookup_2.
Qed.

Lemma all_found_elem l vs : forallb (binary_search_found l) vs = true ->
  forall v : str, v ∈ vs -> v ∈ l.
Proof.
  rewrite forallb_forall. intros Hall v Hv%list_elem_of_In. by apply binary_search_found_elem, Hall.
Qed.

Lemma same_query_semantics_iff p q : same_query_semantics p q = true <->
  semantics_version p = semantics_version q /\ predicate_mode p = predicate_mode q
  /\ query_blake3 p = query_blake3 q /\ predicate_case_sensitive p = predicate_case_sensitive q.
Proof.
  unfold same_query_semantics.
  rewrite !andb_true_iff, Z.eqb_eq, !bool_decide_eq_true, Bool.eqb_true_iff. tauto.
Qed.

Lemma scope_relation_spec p q rel : scope_relation_to p q = Some rel ->
  same_query_semantics p q = true /\
  match rel with
  | ScopeExact => include_paths p = include_paths q /\ exclude_paths p = exclude_paths q
  | ScopeSubset =>
    (include_paths q = [] \/ include_paths p <> [] /\
       forall v, v ∈ include_paths p -> v ∈ include_paths q)
    /\ (forall v, v ∈ exclude_paths q -> v ∈ exclude_paths p)
  end.
Proof.
  unfold scope_relation_to. destruct (same_query_semantics p q); [|done]. cbn [negb].
  destruct (_ && _) eqn:E.
  { intros [= <-]. rewrite andb_true_iff, !bool_decide_eq_true in E. done. }
  cbv zeta. destruct (_ && forallb _ _) eqn:E'; [|done]. intros [= <-]. split; [done|].
  apply andb_true_iff in E' as [Hi He]. split; [|by apply all_found_elem].
  apply orb_true_iff in Hi as [Hi|Hi]; [left; by apply bool_decide_eq_true in Hi|right].
  apply andb_true_iff in Hi as [Hn Hi]. apply negb_true_iff, bool_decide_eq_false in Hn.
  split; [done|by apply all_found_elem].
Qed.

(** A covered scope is within the recorded one. *)
Lemma scope_relation_allows p q rel f g path : scope_relation_to p q = Some rel ->
  new_filter glob_valid (include_paths p) (exclude_paths p) = Ok f ->
  new_filter glob_valid (include_paths q) (exclude_paths q) = Ok g ->
  (allows glob_match f path = true -> allows glob_match g path = true)
  /\ (rel = ScopeExact -> f = g).
Proof.
  intros Hrel Hf Hg. destruct (scope_relation_spec p q rel Hrel) as [_ Hspec].
  rewrite (allows_spec _ _ _ path Hf), (allows_spec _ _ _ path Hg). destruct rel.
  - destruct Hspec as [Hi He]. rewrite Hi, He in *. split; [done|]. intros _. congruence.
  - split; [|done]. destruct Hspec as [Hi He]. intros [Hin Hex]. split.
    + destruct Hi as [?|[Hne Hi]]; [by left|right]. destruct Hin as [?|Hin]; [done|].
      by eapply any_pattern_mono.
    + intros Ha. apply Hex. by eapply any_pattern_mono.
Qed.
End ScopeLemmas.

(** On normalised (sorted, deduplicated) path lists the scope relation is decided exactly: a
    recorded predicate covers a requested one when the query, its mode, its case sensitivity and
    the search semantics are the same, every requested include is a recorded one, unless the
    record has none, and every recorded exclude is still excluded. *)
Theorem scope_relation_complete p q :
  increasing (include_paths q) -> increasing (exclude_paths p) ->
  (exists rel, scope_relation_to p q = Some rel) <->
  same_query_semantics p q = true
  /\ (include_paths q = [] \/ include_paths p <> [] /\
       forall v, v ∈ include_paths p -> v ∈ include_paths q)
  /\ (forall v, v ∈ exclude_paths q -> v ∈ exclude_paths p).
Proof.
  intros Hq Hp. split.
  - intros (rel & Hrel). destruct (scope_relation_spec p q rel Hrel) as [Hs Hspec].
    split; [done|]. destruct rel; [|done]. destruct Hspec as [Hi He]. rewrite Hi, He.
    split; [|done]. destruct (include_paths q); [by left|by right].
  - intros (Hs & Hi & He). unfold scope_relation_to. rewrite Hs. cbn [negb].
    destruct (_ && _); [by eexists|]. cbv zeta.
    assert (Hall : forall l vs, increasing l -> (forall v : str, v ∈ vs -> v ∈ l) ->
      forallb (binary_search_found l) vs = true).
    { intros l vs Hl Hsub. apply forallb_forall. intros v Hv%list_elem_of_In.
      apply binary_search_found_iff; [done|by apply Hsub]. }
    rewrite (Hall (exclude_paths p) (exclude_paths q) Hp He), andb_true_r.
    destruct Hi as [->|[Hne Hi]]; [by eexists|].
    rewrite (Hall (include_paths q) (include_paths p) Hq Hi), (bool_decide_eq_false_2 _ Hne).
    rewrite orb_true_r. by eexists.
Qed.

(** ** Lemmas: partition streams *)
Definition file_ok (f : str * string) : Prop :=
  Forall is_char f.1 /\ is_u64 (len (utf8 f.1)) /\ is_u64 (len (string_bytes f.2)).

Lemma framed_files_inj fs1 fs2 r1 r2 : length fs1 = length fs2 ->
  Forall file_ok fs1 -> Forall file_ok fs2 ->
  concat (map (fun '(path, content_hash) =>
    framed (utf8 path) ++ framed (string_bytes content_hash)) fs1) ++ r1
  = concat (map (fun '(path, content_hash) =>
    framed (utf8 path) ++ framed (string_bytes content_hash)) fs2) ++ r2 ->
  fs1 = fs2 /\ r1 = r2.
Proof.
  revert fs2. induction fs1 as [|[p1 h1] fs1 IH]; intros [|[p2 h2] fs2] Hl H1 H2; simpl; try done.
  apply Forall_cons in H1 as [(Hc1 & Hp1 & Hh1) H1], H2 as [(Hc2 & Hp2 & Hh2) H2].
  rewrite <-!app_assoc. intros He.
  apply framed_inj in He as [Hp He]; [|done..]. apply framed_inj in He as [Hh He]; [|done..].
  apply utf8_inj in Hp; [|done..]. apply string_bytes_inj in Hh.
  apply IH in He as [-> ->]; [|by injection Hl|done..]. by subst.
Qed.

(** Different member lists are never hashed as the same stream. *)
Lemma partition_material_inj fs1 fs2 :
  is_u64 (len fs1) -> is_u64 (len fs2) -> Forall file_ok fs1 -> Forall file_ok fs2 ->
  partition_material fs1 = partition_material fs2 -> fs1 = fs2.
Proof.
  unfold partition_material. intros Hn1 Hn2 H1 H2 He.
  apply app_inv_head in He. apply app_inv_head in He.
  pose proof (f_equal (fun l => l) He) as Hsplit.
  apply app_inj_2 in Hsplit as [_ Hcount]; [|unfold le64; by rewrite !le_bytes_length].
  apply le64_inj in Hcount; [|done..]. unfold len in Hcount.
  apply framed_files_inj in He as [? _]; [done|lia|done..].
Qed.

(** ** Lemmas: result streams *)
Definition occurrence_ok (o : SearchOccurrence) : Prop :=
  Forall is_u64 [occ_start_line o; occ_end_line o; occ_start_column o; occ_end_column o;
                 occ_start_byte o; occ_end_byte o].
Definition hit_ok (h : str * SearchOccurrence) : Prop :=
  Forall is_char h.1 /\ is_u64 (len (utf8 h.1)) /\ occurrence_ok h.2.

Lemma occurrence_bytes_inj o1 o2 r1 r2 : occurrence_ok o1 -> occurrence_ok o2 ->
  occurrence_bytes o1 ++ r1 = occurrence_bytes o2 ++ r2 -> o1 = o2 /\ r1 = r2.
Proof.
  destruct o1, o2. unfold occurrence_ok, occurrence_bytes.
  cbn [map concat occ_start_line occ_end_line occ_start_column occ_end_column occ_start_byte
       occ_end_byte]. rewrite !Forall_cons.
  intros H1 H2. rewrite <-!app_assoc. intros He.
  repeat match goal with
  | H : le64 _ ++ _ = le64 _ ++ _ |- _ => apply le64_app_inj in H as [-> H]; [|tauto..]
  end. done.
Qed.

Lemma framed_hits_inj hs1 hs2 : length hs1 = length hs2 -> Forall hit_ok hs1 -> Forall hit_ok hs2 ->
  concat (map (fun '(path, o) => framed (utf8 path) ++ occurrence_bytes o) hs1)
  = concat (map (fun '(path, o) => framed (utf8 path) ++ occurrence_bytes o) hs2) -> hs1 = hs2.
Proof.
  revert hs2. induction hs1 as [|[p1 o1] hs1 IH]; intros [|[p2 o2] hs2] Hl H1 H2; simpl; try done.
  apply Forall_cons in H1 as [(Hc1 & Hp1 & Ho1) H1], H2 as [(Hc2 & Hp2 & Ho2) H2].
  rewrite <-!app_assoc. intros He.
  apply framed_inj in He as [Hp He]; [|done..]. apply utf8_inj in Hp; [|done..].
  apply occurrence_bytes_inj in He as [-> He]; [|done..]. f_equal; [by subst|].
  apply IH; [by injection Hl|done..].
Qed.

Lemma insert_hit_perm h l : insert_hit h l ≡ₚ h :: l.
Proof.
  induction l as [|x l IH]; cbn [insert_hit]; [done|].
  destruct (key_lt (hit_key x) (hit_key h)); [|done]. rewrite IH. constructor.
Qed.

Lemma sort_hits_perm l : sort_hits l ≡ₚ l.
Proof. induction l as [|h l IH]; simpl; [done|]. by rewrite insert_hit_perm, IH. Qed.

Abbreviation hits_increasing :=
  (StronglySorted (fun a b : str * SearchOccurrence => key_lt (hit_key a) (hit_key b) = true)).

Lemma insert_hit_increasing h l : hits_increasing l -> (hit_key h ∉ map hit_key l) ->
  hits_increasing (insert_hit h l).
Proof.
  induction 1 as [|x l Hl IH Hx]; cbn [insert_hit map]; intros Hn; [by repeat constructor|].
  apply not_elem_of_cons in Hn as [Hne Hn]. destruct (key_lt (hit_key x) (hit_key h)) eqn:E.
  - constructor; [by apply IH|]. rewrite insert_hit_perm. by constructor.
  - assert (key_lt (hit_key h) (hit_key x) = true) as Hlt.
    { destruct (key_lt (hit_key h) (hit_key x)) eqn:E'; [done|]. by pose proof (key_lt_total _ _ E' E). }
    constructor; [by constructor|]. constructor; [done|]. eapply Forall_impl; [done|].
    intros y Hy. by eapply key_lt_trans.
Qed.

Lemma sort_hits_increasing l : NoDup (map hit_key l) -> hits_increasing (sort_hits l).
Proof.
  induction l as [|h l IH]; simpl; [constructor|]. intros [Hn Hd]%NoDup_cons.
  apply insert_hit_increasing; [by apply IH|]. intros Hin. apply Hn.
  apply list_elem_of_fmap in Hin as (x & Hx & Hin). rewrite sort_hits_perm in Hin.
  apply list_elem_of_fmap. by exists x.
Qed.

Lemma hits_increasing_unique l1 l2 : hits_increasing l1 -> hits_increasing l2 -> l1 ≡ₚ l2 -> l1 = l2.
Proof.
  intros H1 H2 Hp. eapply (StronglySorted_unique_strong
    (fun a b => key_lt (hit_key a) (hit_key b) = true)); [|done..].
  intros a b _ _ Hab Hba. by destruct (key_lt_asym _ _ Hab Hba).
Qed.

(** The result digest commits to the set of occurrences and to nothing else: for occurrences at
    distinct positions, two result sets are hashed as the same stream exactly when they are the
    same up to order, whatever order the search returned them in. *)
Theorem exhaustive_result_commits hs1 hs2 :
  NoDup (map hit_key hs1) -> NoDup (map hit_key hs2) ->
  Forall hit_ok hs1 -> Forall hit_ok hs2 -> is_u64 (len hs1) -> is_u64 (len hs2) ->
  result_material hs1 = result_material hs2 <-> hs1 ≡ₚ hs2.
Proof.
  intros Hd1 Hd2 H1 H2 Hn1 Hn2. unfold result_material. split.
  - intros He. apply app_inv_head in He. apply app_inv_head in He.
    apply le64_app_inj in He as [Hlen He]; [|done..].
    apply framed_hits_inj in He; [| |by rewrite sort_hits_perm..].
    + by rewrite <-(sort_hits_perm hs1), He, sort_hits_perm.
    + rewrite !sort_hits_perm. unfold len in Hlen. lia.
  - intros Hp. assert (sort_hits hs1 = sort_hits hs2) as ->.
    { apply hits_increasing_unique; [by apply sort_hits_increasing..|]. by rewrite !sort_hits_perm. }
    unfold len. by rewrite Hp.
Qed.

(** ** Reuse answers what a scan would *)
Section Reuse.
Variable blake3 : bytes -> bytes.
Variable to_json : ExactQueryPredicate -> string.
Variable of_json : string -> option ExactQueryPredicate.
Variable glob_valid : str -> bool.
Variable glob_match : str -> str -> bool.
Variable package_version : string.

Definition scope_members (f : PathFilter) (files : gmap str string) : list (str * string) :=
  List.filter (fun '(path, _) => allows glob_match f path) (files_in_order files).

Lemma collect_partition_spec g check i rows ms :
  collect_partition g check i rows = Ok ms -> ms = List.filter (fun '(path, _) => g path) rows.
Proof.
  revert i ms. induction rows as [|[p h] rows IH]; intros i ms; simpl; [by intros [= <-]|].
  destruct (check i); simpl; [|done].
  destruct (collect_partition g check (S i) rows) as [rest|] eqn:E; simpl; [|done].
  intros [= <-]. by rewrite (IH _ _ E).
Qed.

Lemma exact_query_partition_spec files f check part :
  exact_query_partition blake3 files (allows glob_match f) check = Ok part ->
  part = mk_partition (hash_hex blake3 (partition_material (scope_members f files)))
           (len (scope_members f files))
  /\ len (scope_members f files) <= U64_MAX.
Proof.
  unfold exact_query_partition.
  destruct (collect_partition _ _ _ _) as [ms|] eqn:E; simpl; [|done].
  apply collect_partition_spec in E as ->. fold (scope_members f files).
  destruct (_ <? _) eqn:Hn; bool_to_prop; [done|]. by intros [= <-].
Qed.

(** [matches version mode query case path hash] is the number of occurrences that
    the search described by the first four finds in a file whose content has
    that hash. *)
Variable matches : Z -> ExactQueryMode -> string -> bool -> str -> string -> Z.

Definition sum_matches (p : ExactQueryPredicate) (fs : list (str * string)) : Z :=
  foldr (fun '(path, h) acc =>
    matches (semantics_version p) (predicate_mode p) (query_blake3 p) (predicate_case_sensitive p)
      path h + acc) 0 fs.

(** What an exhaustive scan of the scope of [p] would count. *)
Definition scan (p : ExactQueryPredicate) (files : gmap str string) : result Z :=
  let* f := new_filter glob_valid (include_paths p) (exclude_paths p) in
  Ok (sum_matches p (scope_members f files)).

Lemma sum_matches_semantics p q fs : same_query_semantics p q = true ->
  sum_matches p fs = sum_matches q fs.
Proof.
  intros (H1 & H2 & H3 & H4)%same_query_semantics_iff. unfold sum_matches.
  by rewrite H1, H2, H3, H4.
Qed.

Hypothesis matches_nonneg : forall v m q c path h, 0 <= matches v m q c path h.

Lemma sum_matches_nonneg p fs : 0 <= sum_matches p fs.
Proof.
  unfold sum_matches. induction fs as [|[path h] fs IH]; simpl; [lia|].
  pose proof (matches_nonneg (semantics_version p) (predicate_mode p) (query_blake3 p)
    (predicate_case_sensitive p) path h). lia.
Qed.

Lemma sum_matches_narrow p (a b : str -> bool) fs : (forall path, a path = true -> b path = true) ->
  sum_matches p (List.filter (fun '(path, _) => a path) fs)
  <= sum_matches p (List.filter (fun '(path, _) => b path) fs).
Proof.
  intros Hab. induction fs as [|[path h] fs IH]; simpl; [lia|]. specialize (Hab path).
  pose proof (matches_nonneg (semantics_version p) (predicate_mode p) (query_blake3 p)
    (predicate_case_sensitive p) path h).
  destruct (a path), (b path); simpl; try lia.
Qed.

(** A recorded count carries over to a covered scope over the same members. *)
Lemma covered_scan p q rel files n m :
  scope_relation_to p q = Some rel -> (rel = ScopeSubset -> n = 0) ->
  scan q files = Ok n -> scan p files = Ok m -> m = n.
Proof.
  unfold scan. intros Hrel Hzero Hq Hp.
  destruct (new_filter _ (include_paths q) _) as [g|] eqn:Hg; simpl in Hq; [|done].
  destruct (new_filter _ (include_paths p) _) as [f|] eqn:Hf; simpl in Hp; [|done].
  injection Hq as <-. injection Hp as <-.
  pose proof (fun path => scope_relation_allows glob_valid glob_match p q rel f g path Hrel Hf Hg)
    as Hsub.
  destruct (scope_relation_spec p q rel Hrel) as [Hsem _].
  rewrite (sum_matches_semantics p q _ Hsem). destruct rel.
  - destruct (Hsub []) as [_ ->]; done.
  - rewrite Hzero by done. specialize (Hzero eq_refl).
    pose proof (sum_matches_nonneg q (scope_members f files)).
    pose proof (sum_matches_narrow q (allows glob_match f) (allows glob_match g)
      (files_in_order files) (fun path => proj1 (Hsub path))).
    unfold scope_members in *. lia.
Qed.

Definition files_ok (files : gmap str string) : Prop :=
  forall path h, files !! path = Some h -> file_ok (path, h).

Lemma scope_members_ok f files : files_ok files -> Forall file_ok (scope_members f files).
Proof.
  intros Hfiles. apply Forall_forall. intros [path h] Hin.
  apply list_elem_of_In, filter_In in Hin as [Hin%list_elem_of_In _].
  unfold files_in_order, sort_keys in Hin. rewrite merge_sort_Permutation in Hin.
  by apply Hfiles, elem_of_map_to_list.
Qed.

(** A receipt that was recorded as the code records it, over [files0], where the
    search had found every occurrence. *)
Definition recorded (r : QueryReceiptRecord) (files0 : gmap str string) : Prop :=
  exists has_more returned hits check,
    pending_query_receipt blake3 to_json glob_valid glob_match (rec_predicate r) has_more returned
      hits files0 (rec_generation r) (rec_config_hash r) check = Ok (Some r)
    /\ scan (rec_predicate r) files0 = Ok (len hits).

Lemma recorded_spec r files0 : recorded r files0 ->
  scan (rec_predicate r) files0 = Ok (rec_match_count r) /\
  exists f, new_filter glob_valid (include_paths (rec_predicate r)) (exclude_paths (rec_predicate r))
            = Ok f
    /\ rec_partition r = mk_partition (hash_hex blake3 (partition_material (scope_members f files0)))
         (len (scope_members f files0))
    /\ len (scope_members f files0) <= U64_MAX.
Proof.
  intros (more & n & hits & check & Hp & Hscan). unfold pending_query_receipt in Hp.
  destruct (predicate_digest _ _ _); simpl in Hp; [|done].
  destruct (_ && _); [|done].
  destruct (new_filter _ _ _) as [f|] eqn:Hf; simpl in Hp; [|done].
  destruct (exact_query_partition _ _ _ _) as [part|] eqn:Hpart; simpl in Hp; [|done].
  destruct (exact_coordinates hits); simpl in Hp; [|done].
  apply exact_query_partition_spec in Hpart as [Hpart Hlen]. injection Hp as Hr.
  split; [by rewrite <-Hr|]. exists f. split_and!; [done|by rewrite <-Hr|done].
Qed.

Lemma validate_reuse_inv d files g id p now check stored rel across :
  validate_reuse blake3 to_json of_json glob_valid glob_match package_version d files g id p now
    check = Ok (stored, rel, across) ->
  let r := stored_record stored in
  load_query_receipt_at blake3 to_json of_json package_version id now d = Ok stored
  /\ scope_relation_to p (rec_predicate r) = Some rel
  /\ (rel = ScopeSubset -> rec_match_count r = 0)
  /\ meta_config_hash d = rec_config_hash r
  /\ (if across then
        rec_generation r <> g /\ exists f check',
          new_filter glob_valid (include_paths (rec_predicate r)) (exclude_paths (rec_predicate r))
            = Ok f
          /\ exact_query_partition blake3 files (allows glob_match f) check' = Ok (rec_partition r)
      else rec_generation r = g).
Proof.
  unfold validate_reuse. destruct (check 0%nat); simpl; [|done].
  destruct (load_query_receipt_at _ _ _ _ _ _ _) as [s|]; simpl; [|done].
  destruct (scope_relation_to _ _) as [rel'|] eqn:Hrel; [|done].
  destruct (_ && _) eqn:Hzero; [done|].
  destruct (bool_decide_reflect (meta_config_hash d = rec_config_hash (stored_record s))) as [Hcfg|];
    simpl; [|done].
  assert (rel' = ScopeSubset -> rec_match_count (stored_record s) = 0) as Hz.
  { intros ->. rewrite bool_decide_eq_true_2 in Hzero by done. bool_to_prop. lia. }
  destruct (_ =? g) eqn:Hg; bool_to_prop; simpl.
  { intros [= <- <- <-]. split_and!; done. }
  destruct (new_filter _ _ _) as [f|] eqn:Hf; simpl; [|done].
  destruct (exact_query_partition _ _ _ _) as [part|] eqn:Hpart; simpl; [|done].
  destruct (bool_decide_reflect (part = rec_partition (stored_record s))) as [->|]; [|done]. intros [= <- <- <-]. split_and!; try done.
  by exists f, (fun i => check (S i)).
Qed.

(** C7: a reused query receipt answers what a fresh exhaustive scan would count.  Let the loaded
    receipt have been recorded over [files0], and let one repository generation determine its
    files.  Then whatever scope the request has, across generations or within one, an answer
    [AlreadyCovered] gives exactly the number of matches that scanning the requested scope over
    the current files finds; the only assumption on BLAKE3 is that it does not collide on the two
    partition streams compared. *)
Theorem reuse_query_receipt_sound d files g id p now check writer touch_now stored files0 out m :
  let r := stored_record stored in
  load_query_receipt_at blake3 to_json of_json package_version id now d = Ok stored ->
  recorded r files0 -> (rec_generation r = g -> files0 = files) ->
  (forall f, new_filter glob_valid (include_paths (rec_predicate r)) (exclude_paths (rec_predicate r))
               = Ok f ->
             hash_hex blake3 (partition_material (scope_members f files0))
             = hash_hex blake3 (partition_material (scope_members f files)) ->
             partition_material (scope_members f files0)
             = partition_material (scope_members f files)) ->
  files_ok files0 -> files_ok files ->
  (reuse_query_receipt blake3 to_json of_json glob_valid glob_match package_version d files g id p
     now check writer touch_now).2 = Ok out ->
  scan p files = Ok m -> outcome_match_count out = m.
Proof.
  intros r Hload Hrec Hgen Hcoll Hok0 Hok Hout Hscan. unfold reuse_query_receipt in Hout.
  destruct (validate_reuse _ _ _ _ _ _ _ _ _ _ _ _ _) as [[[s rel] across]|] eqn:Hv; [|done].
  apply validate_reuse_inv in Hv as (Hl & Hrel & Hzero & _ & Hacross).
  assert (s = stored) as -> by congruence. fold r in Hout, Hrel, Hzero, Hacross. simpl in Hout.
  destruct (predicate_digest _ _ _); simpl in Hout; [|done].
  injection Hout as <-. simpl.
  destruct (recorded_spec r files0 Hrec) as (Hscan0 & f & Hf & Hpart & Hlen).
  enough (scan (rec_predicate r) files = Ok (rec_match_count r)) as Hn.
  { symmetry. by eapply covered_scan. }
  destruct across; [|by rewrite <-(Hgen Hacross)].
  destruct Hacross as (_ & f' & check' & Hf' & Hcur). assert (f' = f) as -> by congruence.
  apply exact_query_partition_spec in Hcur as [Hcur Hlen'].
  rewrite Hpart in Hcur. injection Hcur as Hhash Hcount.
  unfold scan in *. rewrite Hf in Hscan0 |- *. simpl in *. rewrite <-Hscan0. do 2 f_equal.
  symmetry. apply partition_material_inj; [..|by apply Hcoll; [exact Hf|]]; try by apply scope_members_ok.
  - split; [apply Nat2Z.is_nonneg|done].
  - split; [apply Nat2Z.is_nonneg|done].
Qed.
End Reuse.

(** ** The store *)
Lemma strip_string_prefix_app p s : strip_string_prefix p (p ++ s) = Some s.
Proof. induction p as [|a p IH]; simpl; [done|]. by rewrite Ascii.eqb_refl. Qed.

Lemma parse_format_query_receipt_id ns row_id : 1 <= row_id <= I64_MAX ->
  parse_query_receipt_id (format_query_receipt_id ns row_id) ns = Some row_id.
Proof.
  intros Hid. unfold parse_query_receipt_id, format_query_receipt_id.
  rewrite (strip_string_prefix_app "q"). cbn [mbind option_bind].
  rewrite strip_string_prefix_app. cbn [mbind option_bind].
  unfold format_016x at 1. rewrite hex_digits_length. cbn [negb Nat.eqb QUERY_RECEIPT_ID_ROW_HEX_BYTES].
  rewrite from_str_radix16_hex by lia. cbn [mbind option_bind].
  by rewrite (proj2 (Z.ltb_lt 0 row_id)) by lia.
Qed.

Lemma query_receipt_id_length ns row_id :
  str_len (format_query_receipt_id ns row_id) = str_len ns + 17.
Proof.
  unfold format_query_receipt_id, str_len. rewrite !string_length_app. unfold format_016x.
  rewrite hex_digits_length. simpl String.length. lia.
Qed.

Record query_row_ok (last_row_id : Z) (k : Z) (r : query_row) : Prop := {
  qr_id : 1 <= k <= last_row_id;
  qr_expires : row_expires r = row_last_access r + QUERY_RECEIPT_TTL_MILLIS
}.

Record query_ok (d : query_db) : Prop := {
  qo_table : table_ok (receipts d);
  qo_rows : forall k r, t_rows (receipts d) !! k = Some r -> query_row_ok (last_row_id d) k r;
  qo_quota : t_count (receipts d) <= MAX_QUERY_RECEIPTS
             /\ t_bytes (receipts d) <= MAX_TOTAL_QUERY_RECEIPT_BYTES;
  qo_namespace : str_len (namespace d) = 32;
  qo_last : 0 <= last_row_id d <= I64_MAX;
  qo_generation : is_i64 (meta_generation d) /\ 0 <= meta_generation d
}.

Lemma query_ok_shrinks d t : query_ok d -> table_ok t -> table_shrinks (receipts d) t ->
  query_ok (with_receipts d t).
Proof.
  intros Hd Ht [Hn Hsub]. destruct Hd as [Htab Hrows [Hc Hb] ? ? ?]. constructor; simpl; try done.
  - intros k r Hr. apply (Hrows k). by eapply lookup_weaken.
  - rewrite (tk_count t Ht), (tk_bytes t Ht). rewrite (tk_count _ Htab) in Hc.
    rewrite (tk_bytes _ Htab) in Hb.
    destruct (map_sum_subseteq row_bytes _ _ Hsub); [|lia].
    intros i r Hr. by destruct (tk_rows _ Htab i r Hr) as (_ & ? & _).
Qed.

Lemma next_query_sequence_spec t : table_ok t ->
  match next_query_receipt_access_sequence (t_next t) t with
  | Ok (next, t') => next = t_next t + 1 /\ table_ok t' /\ t_next t' = next
      /\ t_rows t' = t_rows t /\ t_count t' = t_count t /\ t_bytes t' = t_bytes t
  | Err _ => t_next t = I64_MAX
  end.
Proof.
  intros Ht. pose proof (table_next_sequence_spec "" t Ht) as Hs.
  unfold table_next_sequence, next_query_receipt_access_sequence in *.
  destruct (i64_checked_add (t_next t) 1); [|done]. by rewrite Z.eqb_refl.
Qed.

Lemma expires_at_spec now :
  match expires_at now with
  | Ok e => 0 <= now /\ e = now + QUERY_RECEIPT_TTL_MILLIS /\ e <= I64_MAX
  | Err _ => now < 0 \/ I64_MAX < now + QUERY_RECEIPT_TTL_MILLIS
  end.
Proof.
  unfold expires_at. destruct (now <? 0) eqn:E; bool_to_prop; [by left|].
  unfold i64_checked_add. destruct (_ && _) eqn:E2; [bool_to_prop; split_and!; [lia|done|done]|].
  right. apply andb_false_iff in E2 as [E2|E2]; bool_to_prop; [|lia].
  assert (I64_MIN < 0 /\ 0 < QUERY_RECEIPT_TTL_MILLIS) as [? ?] by done. lia.
Qed.

(** The receipts that a pruning keeps. *)
Definition live (now : Z) (r : query_row) : Prop :=
  row_created r <= now /\ row_last_access r <= now < row_expires r.

Lemma prune_query_receipts_ok now d : query_ok d ->
  exists t, prune_expired_query_receipts now (receipts d) = Ok t
    /\ query_ok (with_receipts d t) /\ table_shrinks (receipts d) t
    /\ forall k r, t_rows t !! k = Some r <-> t_rows (receipts d) !! k = Some r /\ live now r.
Proof.
  intros Hd. unfold prune_expired_query_receipts.
  destruct (table_delete_where_ok (fun _ r => (row_expires r <=? now) || (now <? row_created r)
    || (now <? row_last_access r)) (receipts d) (qo_table d Hd)) as (t & Ht & Hok & Hs & Hspec).
  exists t. split_and!; [done|by apply query_ok_shrinks|done|].
  intros k r. rewrite Hspec, !orb_false_iff, Z.leb_gt, !Z.ltb_ge. unfold live. intuition lia.
Qed.

Lemma touched_check now expires sequence r : row_check r = true -> 0 <= now -> 0 <= expires ->
  row_check (touched now expires sequence r) = true.
Proof.
  simpl. rewrite !andb_true_iff. intros Hc Hn He. destruct Hc as [[H _] _].
  rewrite (proj2 (Z.leb_le 0 now)), (proj2 (Z.leb_le 0 expires)) by lia. tauto.
Qed.

(** Taking a sequence number and touching a row. *)
Lemma touch_row_spec k r now expires d : query_ok d -> t_rows (receipts d) !! k = Some r ->
  0 <= now -> expires = now + QUERY_RECEIPT_TTL_MILLIS -> t_next (receipts d) < I64_MAX ->
  let seq := t_next (receipts d) + 1 in
  exists t1 t2, next_query_receipt_access_sequence (t_next (receipts d)) (receipts d) = Ok (seq, t1)
    /\ t_rows t1 = t_rows (receipts d)
    /\ table_update k (touched now expires seq) t1 = Ok (1, t2)
    /\ query_ok (with_receipts d t2)
    /\ t_rows t2 = <[k := touched now expires seq r]> (t_rows (receipts d)).
Proof.
  intros Hd Hr Hnow Hexp Hnext seq. pose proof (next_query_sequence_spec _ (qo_table d Hd)) as Hs.
  destruct (next_query_receipt_access_sequence _ _) as [[n t1]|]; [|lia].
  destruct Hs as (-> & Ht1 & Hn1 & Hr1 & Hc1 & Hb1).
  destruct (tk_rows _ (qo_table d Hd) k r Hr) as ([Hs1 Hs2] & Hb & Hcheck).
  assert (0 < QUERY_RECEIPT_TTL_MILLIS) by done.
  pose proof (touched_check now expires seq r Hcheck Hnow ltac:(lia)) as Hcheck'.
  pose proof (table_update_spec k (touched now expires seq) t1 r Ht1) as Hu.
  rewrite Hr1 in Hu. specialize (Hu Hr ltac:(simpl; lia) eq_refl).
  destruct (table_update k _ t1) as [[c t2]|] eqn:Hupd; [|by destruct Hu; split; [simpl; unfold seq; lia|]].
  destruct Hu as (-> & Ht2 & Hn2 & Hc2 & Hb2 & Hr2). exists t1, t2.
  split_and!; [done|done|done| |done].
  destruct Hd as [? Hrows ? ? ? ?]. constructor; simpl; try done; [|by rewrite Hc2, Hb2, Hc1, Hb1].
  rewrite Hr2. intros j r' [[<- <-]|[_ Hj]]%lookup_insert_Some; [|by apply Hrows].
  constructor; [by destruct (Hrows k r Hr)|done].
Qed.

(** Touching a receipt keeps the store well formed.  A touch that succeeds on an identifier of
    this store finds a live receipt and renews it for a whole TTL as the most recently used one,
    without changing what it proves; it fails only for an impossible clock, an exhausted access
    counter or an unknown, expired or future receipt, and then the store is as it was. *)
Theorem touch_query_receipt_correct id now d : query_ok d ->
  let out := run_tx d (touch_query_receipt id now d) in
  query_ok out.1 /\
  match out.2, parse_query_receipt_id id (namespace d) with
  | Ok _, None => table_shrinks (receipts d) (receipts out.1)
  | Ok _, Some k => exists row, t_rows (receipts d) !! k = Some row /\ live now row
      /\ t_rows (receipts out.1) !! k = Some (touched now (now + QUERY_RECEIPT_TTL_MILLIS)
                                               (t_next (receipts d) + 1) row)
  | Err e, k => out.1 = d /\
      (now < 0 \/ I64_MAX < now + QUERY_RECEIPT_TTL_MILLIS \/ t_next (receipts d) = I64_MAX
       \/ e = UnknownQueryReceipt id /\ exists i, k = Some i
            /\ forall row, t_rows (receipts d) !! i = Some row -> ~ live now row)
  end.
Proof.
  intros Hd. cbv zeta. unfold touch_query_receipt.
  pose proof (expires_at_spec now) as He. destruct (expires_at now) as [expires|e]; cbn [tx_try].
  2:{ split; [done|]. split; [done|]. destruct He; [by left|by right; left]. }
  destruct He as (Hnow & Hexp & _).
  destruct (prune_query_receipts_ok now d Hd) as (t & -> & Hdt & Hs & Hlive). cbn [tx_try].
  pose proof (qo_table _ Hdt) as Ht. cbn [receipts with_receipts] in Ht.
  rewrite (read_usage_ok t Ht). cbn [tx_try fst].
  destruct (parse_query_receipt_id id (namespace d)) as [k|]; [|by split].
  destruct Hs as [Hnext _]. pose proof (next_query_sequence_spec t Ht) as Hseq.
  destruct (next_query_receipt_access_sequence (t_next t) t) as [[seq t1]|e] eqn:Hn; cbn [tx_try].
  2:{ split; [done|]. split; [done|]. do 2 right; left. congruence. }
  destruct Hseq as (-> & Ht1 & Hn1 & Hr1 & _).
  destruct (t_rows t !! k) as [row|] eqn:Hk.
  - assert (t_next t < I64_MAX) as Hlt by (pose proof (tk_next t1 Ht1); lia).
    destruct (touch_row_spec k row now expires (with_receipts d t) Hdt Hk Hnow Hexp Hlt)
      as (t1' & t2 & Hn' & _ & Hu & Hok & Hrows).
    cbn [receipts with_receipts] in *. rewrite Hn' in Hn. injection Hn as <-.
    rewrite Hu. cbn. split; [exact Hok|]. exists row. apply Hlive in Hk as [? ?].
    split_and!; [done..|]. rewrite Hrows, lookup_insert_eq, Hnext. by subst.
  - unfold table_update. rewrite Hr1, Hk. cbn. split; [done|]. split; [done|]. do 3 right.
    split; [done|]. exists k. split; [done|]. intros row Hrow Hl.
    pose proof (proj2 (Hlive k row) (conj Hrow Hl)). congruence.
Qed.

Section QueryStore.
Variable blake3 : bytes -> bytes.
Variable to_json : ExactQueryPredicate -> string.
Variable of_json : string -> option ExactQueryPredicate.
Variable package_version : string.

Abbreviation load := (load_query_receipt_at blake3 to_json of_json package_version).
Abbreviation persist := (persist_query_receipt_at blake3 to_json package_version).

Lemma fingerprint_bounds : 1 <= search_semantics_fingerprint blake3 package_version <= I64_MAX.
Proof.
  unfold search_semantics_fingerprint. cbv zeta.
  match goal with |- _ <= ?x mod _ + 1 <= _ => pose proof (Z.mod_pos_bound x I64_MAX eq_refl) end.
  lia.
Qed.

(** The record that the caller hands over: machine integers, a predicate that
    serde reads back as it was written, and its own digest. *)
Record record_ok (r : QueryReceiptRecord) : Prop := {
  ro_generation : 0 <= rec_generation r;
  ro_files : 0 <= file_count (rec_partition r);
  ro_matches : 0 <= rec_match_count r;
  ro_digest : predicate_digest blake3 to_json (rec_predicate r) = Ok (rec_predicate_blake3 r);
  ro_json : of_json (to_json (rec_predicate r)) = Some (rec_predicate r)
}.

Lemma record_json r : record_ok r ->
  serialized to_json (rec_predicate r) = Ok (to_json (rec_predicate r)).
Proof.
  intros [_ _ _ Hd _]. unfold predicate_digest in Hd.
  unfold serialized in *. destruct (_ <? _); [discriminate Hd|done].
Qed.

Lemma record_columns_spec r json identity :
  match record_columns blake3 package_version r json identity with
  | Ok c => row_identity c = identity /\ row_generation c = rec_generation r
      /\ row_config_hash c = rec_config_hash r
      /\ row_semantics_version c = search_semantics_fingerprint blake3 package_version
      /\ row_predicate_json c = json /\ row_predicate_blake3 c = rec_predicate_blake3 r
      /\ row_partition_blake3 c = partition_digest (rec_partition r)
      /\ row_partition_file_count c = file_count (rec_partition r)
      /\ row_match_count c = rec_match_count r /\ row_result_blake3 c = rec_result_blake3 r
  | Err _ => I64_MAX < rec_generation r \/ I64_MAX < file_count (rec_partition r)
      \/ I64_MAX < rec_match_count r
  end.
Proof.
  unfold record_columns. pose proof fingerprint_bounds as [_ Hf].
  rewrite (u64_to_i64_ok (search_semantics_fingerprint _ _) Hf). unfold u64_to_i64, usize_to_i64.
  destruct (rec_generation r <=? I64_MAX) eqn:E1; cbn [result_bind]; bool_to_prop; [|by left].
  destruct (file_count _ <=? I64_MAX) eqn:E2; cbn [result_bind]; bool_to_prop; [|by right; left].
  destruct (rec_match_count r <=? I64_MAX) eqn:E3; cbn [result_bind]; bool_to_prop;
    [done|by right; right].
Qed.

Lemma same_evidence_iff c r : same_evidence c r = true <->
  row_identity r = row_identity c /\ row_generation r = row_generation c
  /\ row_config_hash r = row_config_hash c /\ row_semantics_version r = row_semantics_version c
  /\ row_predicate_json r = row_predicate_json c /\ row_predicate_blake3 r = row_predicate_blake3 c
  /\ row_partition_blake3 r = row_partition_blake3 c
  /\ row_partition_file_count r = row_partition_file_count c
  /\ row_match_count r = row_match_count c /\ row_result_blake3 r = row_result_blake3 c.
Proof. unfold same_evidence. rewrite !andb_true_iff, !bool_decide_eq_true, !Z.eqb_eq. tauto. Qed.

(** A live row with the evidence of [r] loads as [r]. *)
Lemma load_row r c k row later d : query_ok d -> record_ok r ->
  record_columns blake3 package_version r (to_json (rec_predicate r)) (meta_identity d) = Ok c ->
  t_rows (receipts d) !! k = Some row -> same_evidence c row = true ->
  0 <= later -> live later row ->
  let id := format_query_receipt_id (namespace d) k in
  load id later d = Ok (mk_stored id r).
Proof.
  intros Hd Hr Hc Hk Hsame Hlater [Hcr [Hla Hex]] id.
  pose proof (record_columns_spec r (to_json (rec_predicate r)) (meta_identity d)) as Hcols.
  rewrite Hc in Hcols. apply same_evidence_iff in Hsame. clear Hc.
  destruct Hcols as (C1 & C2 & C3 & C4 & C5 & C6 & C7 & C8 & C9 & C10).
  destruct Hsame as (S1 & S2 & S3 & S4 & S5 & S6 & S7 & S8 & S9 & S10).
  unfold load_query_receipt_at. unfold id. rewrite query_receipt_id_length, (qo_namespace d Hd).
  change (MAX_QUERY_RECEIPT_ID_BYTES <? 32 + 17) with false. cbv iota.
  rewrite (proj2 (Z.ltb_ge later 0)) by done.
  destruct (qo_rows d Hd k row Hk) as [Hid _]. pose proof (qo_last d Hd).
  rewrite parse_format_query_receipt_id by lia. rewrite Hk.
  rewrite S2, C2, S4, C4, S8, C8, S9, C9.
  pose proof fingerprint_bounds as [Hf _].
  rewrite (i64_to_u64_ok (rec_generation r)) by apply Hr.
  rewrite (i64_to_u64_ok (search_semantics_fingerprint _ _)) by lia.
  rewrite (i64_to_usize_ok (file_count _)) by apply Hr.
  rewrite (i64_to_usize_ok (rec_match_count r)) by apply Hr. cbn [result_bind].
  rewrite bool_decide_eq_true_2 by congruence. rewrite Z.eqb_refl.
  rewrite (proj2 (Z.ltb_ge later _)) by done. rewrite (proj2 (Z.ltb_ge later _)) by done.
  rewrite (proj2 (Z.leb_gt _ later)) by done. cbn [negb orb].
  rewrite S5, C5, (ro_json r Hr), (ro_digest r Hr). cbn [result_bind].
  rewrite bool_decide_eq_true_2 by congruence. cbn [negb].
  do 2 f_equal. destruct r as [? ? ? ? [? ?] ? ?]. cbn in *. congruence.
Qed.

(** The size that the quota counts. *)
Definition record_size (r : QueryReceiptRecord) (identity : string) : Z :=
  QUERY_RECEIPT_FIXED_LOGICAL_BYTES + str_len identity + str_len (rec_config_hash r)
  + str_len (to_json (rec_predicate r)) + str_len (rec_predicate_blake3 r)
  + str_len (partition_digest (rec_partition r)) + str_len (rec_result_blake3 r).

Lemma record_size_nonneg r identity : 0 <= record_size r identity.
Proof.
  unfold record_size, str_len. assert (0 <= QUERY_RECEIPT_FIXED_LOGICAL_BYTES) by done. lia.
Qed.

Lemma u64_checked_add_cases a b :
  (u64_checked_add a b = Some (a + b) /\ a + b <= U64_MAX)
  \/ (u64_checked_add a b = None /\ U64_MAX < a + b).
Proof. unfold u64_checked_add. destruct (_ <=? _) eqn:E; bool_to_prop; auto. Qed.

Lemma logical_bytes_spec r identity : record_ok r ->
  match logical_bytes to_json r identity with
  | Ok total => total = record_size r identity
  | Err _ => U64_MAX < record_size r identity
  end.
Proof.
  intros Hr. unfold logical_bytes. rewrite (record_json r Hr). unfold record_size.
  assert (Hpos : forall s, 0 <= str_len s) by (intros; unfold str_len; lia).
  pose proof (Hpos identity). pose proof (Hpos (rec_config_hash r)).
  pose proof (Hpos (to_json (rec_predicate r))). pose proof (Hpos (rec_predicate_blake3 r)).
  pose proof (Hpos (partition_digest (rec_partition r))). pose proof (Hpos (rec_result_blake3 r)).
  cbn [mbind option_bind].
  repeat match goal with
  | |- context [u64_checked_add ?a ?b] =>
    destruct (u64_checked_add_cases a b) as [[-> ?]|[-> ?]]; cbn [mbind option_bind]
  end; lia.
Qed.

Definition digests_fit (r : QueryReceiptRecord) : Prop :=
  str_len (rec_predicate_blake3 r) = 64 /\ str_len (partition_digest (rec_partition r)) = 64
  /\ str_len (rec_result_blake3 r) = 64.

(** What can stop a record from being stored. *)
Definition refused (r : QueryReceiptRecord) (now : Z) (d : query_db) : Prop :=
  now < 0 \/ I64_MAX < now + QUERY_RECEIPT_TTL_MILLIS
  \/ meta_generation d <> rec_generation r \/ meta_config_hash d <> rec_config_hash r
  \/ MAX_TOTAL_QUERY_RECEIPT_BYTES < record_size r (meta_identity d)
  \/ I64_MAX < file_count (rec_partition r) \/ I64_MAX < rec_match_count r
  \/ ~ digests_fit r \/ t_next (receipts d) = I64_MAX \/ last_row_id d = I64_MAX.

(** The receipt answers until it could have expired unused. *)
Definition answers (id : string) (r : QueryReceiptRecord) (now : Z) (d : query_db) : Prop :=
  forall later,
    now <= later < now + QUERY_RECEIPT_TTL_MILLIS - QUERY_RECEIPT_TOUCH_INTERVAL_MILLIS ->
    load id later d = Ok (mk_stored id r).

Lemma refresh_receipt_spec r c k row now expires d : query_ok d -> record_ok r ->
  record_columns blake3 package_version r (to_json (rec_predicate r)) (meta_identity d) = Ok c ->
  t_rows (receipts d) !! k = Some row -> same_evidence c row = true -> live now row ->
  0 <= now -> expires = now + QUERY_RECEIPT_TTL_MILLIS -> now <= I64_MAX ->
  let t := receipts d in
  match refresh_receipt k (row_last_access row) now expires (t_next t, t_count t, t_bytes t) d t with
  | Committed d' (Ok id) => query_ok d' /\ answers id r now d'
  | RolledBack _ => t_next t = I64_MAX
  | Committed _ (Err _) => False
  end.
Proof.
  intros Hd Hr Hc Hk Hsame Hlive Hnow Hexp Hmax t. unfold refresh_receipt. cbn [fst].
  assert (0 < QUERY_RECEIPT_TOUCH_INTERVAL_MILLIS < QUERY_RECEIPT_TTL_MILLIS) as Httl by done.
  assert (I64_MIN <= 0) as Hmin by done.
  assert (Hd' : query_ok (with_receipts d t)) by (by destruct d).
  destruct (qo_rows d Hd k row Hk) as [_ Hrexp]. destruct Hlive as [Hcr [Hla Hex]].
  pose proof (tk_rows _ (qo_table d Hd) k row Hk) as (_ & _ & Hcheck).
  assert (Hla0 : 0 <= row_last_access row).
  { simpl in Hcheck. rewrite !andb_true_iff, !Z.leb_le in Hcheck. tauto. }
  unfold i64_saturating_sub. destruct (_ <=? Z.max _ _) eqn:Htouch; bool_to_prop.
  - pose proof (next_query_sequence_spec t (qo_table d Hd)) as Hs.
    destruct (next_query_receipt_access_sequence (t_next t) t) as [[seq t1]|e] eqn:Hnext; cbn [tx_try];
      [|exact Hs]. destruct Hs as (Hseq & _).
    assert (t_next t < I64_MAX) as Hlt.
    { unfold next_query_receipt_access_sequence, i64_checked_add in Hnext.
      destruct (_ && (t_next t + 1 <=? I64_MAX)) eqn:E; [|discriminate]. bool_to_prop. lia. }
    destruct (touch_row_spec k row now expires d Hd Hk Hnow Hexp Hlt)
      as (t1' & t2 & Hn' & _ & Hu & Hok & Hrows).
    fold t in Hn', Hu, Hrows. rewrite Hn' in Hnext. injection Hnext as <- <-. rewrite Hu.
    cbn [tx_try]. split; [done|]. intros later Hlater.
    apply (load_row r c k (touched now expires (t_next t + 1) row) later (with_receipts d t2));
      [done|done|done| |done|lia|].
    + cbn [receipts with_receipts]. rewrite Hrows. apply lookup_insert_eq.
    + split; [simpl; lia|]. simpl. lia.
  - split; [done|]. intros later Hlater.
    apply (load_row r c k row later (with_receipts d t)); try done; [lia|].
    split; [lia|]. split; [lia|]. rewrite Hrexp. lia.
Qed.

Lemma written_row_check r c now expires seq total : record_ok r ->
  record_columns blake3 package_version r (to_json (rec_predicate r)) (row_identity c) = Ok c ->
  0 <= now -> 0 <= expires ->
  ~ (1 <= row_sequence (written c now expires seq total)
     /\ 0 <= row_bytes (written c now expires seq total)
     /\ row_check (written c now expires seq total) = true) ->
  1 <= seq -> 0 <= total ->
  ~ (str_len (rec_predicate_blake3 r) = 64 /\ str_len (partition_digest (rec_partition r)) = 64
     /\ str_len (rec_result_blake3 r) = 64).
Proof.
  intros Hr Hc Hnow Hexp Hbad Hseq Htotal (L1 & L2 & L3). apply Hbad. cbn [row_sequence row_bytes].
  pose proof (record_columns_spec r (to_json (rec_predicate r)) (row_identity c)) as Hcols.
  rewrite Hc in Hcols. destruct Hcols as (_ & C2 & _ & C4 & _ & C6 & C7 & C8 & C9 & C10).
  pose proof fingerprint_bounds as [Hf _]. destruct Hr as [Hg Hfiles Hm _ _].
  split_and!; [done|done|]. simpl. rewrite C2, C4, C6, C7, C8, C9, C10, L1, L2, L3.
  rewrite !andb_true_iff, !Z.leb_le, Z.ltb_lt. split_and!; try done. lia.
Qed.

Lemma insert_receipt_spec r c now expires total d : query_ok d -> record_ok r ->
  record_columns blake3 package_version r (to_json (rec_predicate r)) (meta_identity d) = Ok c ->
  0 <= now -> expires = now + QUERY_RECEIPT_TTL_MILLIS ->
  0 <= total <= MAX_TOTAL_QUERY_RECEIPT_BYTES ->
  let t := receipts d in
  t_count t < MAX_QUERY_RECEIPTS -> t_bytes t + total <= MAX_TOTAL_QUERY_RECEIPT_BYTES ->
  match insert_receipt c now expires total (t_next t, t_count t, t_bytes t) d t with
  | Committed d' (Ok id) => query_ok d' /\ answers id r now d'
  | RolledBack _ => t_next t = I64_MAX \/ last_row_id d = I64_MAX
      \/ ~ (str_len (rec_predicate_blake3 r) = 64 /\ str_len (partition_digest (rec_partition r)) = 64
            /\ str_len (rec_result_blake3 r) = 64)
  | Committed _ (Err _) => False
  end.
Proof.
  intros Hd Hr Hc Hnow Hexp Htotal t Hcount Hbytes. unfold insert_receipt. cbn [fst].
  assert (0 < QUERY_RECEIPT_TOUCH_INTERVAL_MILLIS < QUERY_RECEIPT_TTL_MILLIS) as Httl by done.
  pose proof (record_columns_spec r (to_json (rec_predicate r)) (meta_identity d)) as Hcols.
  rewrite Hc in Hcols. destruct Hcols as (C1 & _).
  pose proof (next_query_sequence_spec t (qo_table d Hd)) as Hs.
  destruct (next_query_receipt_access_sequence (t_next t) t) as [[seq t1]|e]; cbn [tx_try];
    [|by left]. destruct Hs as (-> & Ht1 & Hn1 & Hr1 & Hc1 & Hb1).
  pose proof (tk_next _ (qo_table d Hd)) as Hnext. fold t in Hnext.
  assert (MAX_TOTAL_QUERY_RECEIPT_BYTES <= I64_MAX) as Hfit by done.
  rewrite usize_to_i64_ok by lia. cbn [tx_try].
  destruct (I64_MAX <=? last_row_id d) eqn:Hlast; bool_to_prop.
  { right; left. pose proof (qo_last d Hd). lia. }
  assert (Hfree : t_rows t1 !! (last_row_id d + 1) = None).
  { rewrite Hr1. destruct (t_rows t !! (last_row_id d + 1)) as [row|] eqn:E; [|done].
    destruct (qo_rows d Hd _ row E) as [? _]. lia. }
  pose proof (table_insert_spec (last_row_id d + 1) (written c now expires (t_next t + 1) total) t1
    Ht1 ltac:(simpl; lia) Hfree) as Hins.
  destruct (table_insert _ _ t1) as [t2|]; cbn [tx_try].
  2:{ right; right. apply (written_row_check r c now expires (t_next t + 1) total);
        try done; try lia. by rewrite C1. }
  destruct Hins as (Ht2 & Hn2 & Hr2 & Hc2 & Hb2). simpl in Hb2.
  assert (Hok : query_ok (mk_query_db (namespace d) (last_row_id d + 1) (meta_identity d)
                            (meta_generation d) (meta_config_hash d) t2)).
  { destruct Hd as [Htab Hrows ? ? ? ?]. constructor; simpl; try done; try lia.
    rewrite Hr2, Hr1. intros k row [[<- <-]|[_ Hk]]%lookup_insert_Some.
    - constructor; [lia|done].
    - destruct (Hrows k row Hk) as [? ?]. constructor; [lia|done]. }
  split; [done|]. intros later Hlater.
  eapply (load_row r c (last_row_id d + 1) (written c now expires (t_next t + 1) total) later
    (mk_query_db (namespace d) (last_row_id d + 1) _ _ _ _)); [done|done|done| | |lia|].
  - simpl. rewrite Hr2. apply lookup_insert_eq.
  - by apply same_evidence_iff.
  - split; [simpl; lia|]. simpl. lia.
Qed.

Lemma receipt_over_quota_iff total (t : query_table) :
  over_quota total ((t_next t, t_count t, t_bytes t), t) = false <->
  t_count t < MAX_QUERY_RECEIPTS /\ t_bytes t + total <= MAX_TOTAL_QUERY_RECEIPT_BYTES.
Proof.
  unfold over_quota. cbn [fst snd]. rewrite orb_false_iff, Z.leb_gt, Z.ltb_ge.
  by rewrite u64_saturating_add_le.
Qed.

(** The receipt that the lookup finds is on file. *)
Lemma find_equivalent_spec c t k row : find_equivalent c t = Some (k, row) ->
  t_rows t !! k = Some row /\ same_evidence c row = true.
Proof.
  intros Hf. apply least_spec in Hf as [Hin _].
  apply list_elem_of_In, filter_In in Hin as [Hin%list_elem_of_In ?].
  by apply elem_of_map_to_list in Hin.
Qed.

Lemma store_receipt_spec r c now expires total d : query_ok d -> record_ok r ->
  record_columns blake3 package_version r (to_json (rec_predicate r)) (meta_identity d) = Ok c ->
  (forall k row, t_rows (receipts d) !! k = Some row -> live now row) ->
  0 <= now -> expires = now + QUERY_RECEIPT_TTL_MILLIS -> now <= I64_MAX ->
  0 <= total <= MAX_TOTAL_QUERY_RECEIPT_BYTES ->
  let t := receipts d in
  exists out, store_receipt c now expires total (t_next t, t_count t, t_bytes t) d t = Done out
  /\ match out with
     | Committed d' (Ok id) => query_ok d' /\ answers id r now d'
     | RolledBack _ => t_next t = I64_MAX \/ last_row_id d = I64_MAX \/ ~ digests_fit r
     | Committed _ (Err _) => False
     end.
Proof.
  intros Hd Hr Hc Hlive Hnow Hexp Hmax Htotal t. unfold store_receipt.
  destruct (find_equivalent c t) as [[k row]|] eqn:Hfind.
  - apply find_equivalent_spec in Hfind as [Hk Hsame]. eexists. split; [done|].
    pose proof (refresh_receipt_spec r c k row now expires d Hd Hr Hc Hk Hsame (Hlive k row Hk)
      Hnow Hexp Hmax) as Hout. cbv zeta in Hout. fold t in Hout.
    destruct (refresh_receipt _ _ _ _ _ _ _) as [d' [id|e]|e]; [done|done|by left].
  - destruct (table_make_room MAX_QUERY_RECEIPTS MAX_TOTAL_QUERY_RECEIPT_BYTES total
      (over_quota total) t (qo_table d Hd)) as (t' & Hroom & Ht' & Hs & Hcount & Hbytes);
      [done|lia|intros; apply receipt_over_quota_iff|].
    rewrite Hroom. cbn [run_bind tx_try]. eexists. split; [done|].
    pose proof (insert_receipt_spec r c now expires total (with_receipts d t')
      (query_ok_shrinks d t' Hd Ht' Hs) Hr Hc Hnow Hexp Htotal Hcount Hbytes) as Hout.
    cbv zeta in Hout. change (insert_receipt c now expires total
      (t_next (receipts (with_receipts d t')), t_count (receipts (with_receipts d t')),
       t_bytes (receipts (with_receipts d t'))) (with_receipts d t') (receipts (with_receipts d t')))
      with (insert_receipt c now expires total (t_next t', t_count t', t_bytes t') d t') in Hout.
    destruct (insert_receipt _ _ _ _ _ _ _) as [d' [id|e]|e]; [done|done|].
    cbn [receipts with_receipts last_row_id] in Hout. destruct Hs as [Hn _]. fold t in Hn.
    rewrite Hn in Hout. exact Hout.
Qed.

(** Recording a query receipt always returns and keeps the store well formed, its quotas of
    receipts and of bytes included.  An answered identifier loads the very record that was handed
    in, whether it was inserted or an equivalent receipt was found, from now until it could have
    expired unused (the TTL less the touch interval).  An error leaves the store as it was and has
    one of the stated causes. *)
Theorem persist_query_receipt_correct r now d :
  query_ok d -> record_ok r -> now <= I64_MAX ->
  exists out, persist r now d = Done out /\ query_ok (run_tx d out).1 /\
  match (run_tx d out).2 with
  | Ok id => answers id r now (run_tx d out).1
  | Err _ => refused r now d /\ (run_tx d out).1 = d
  end.
Proof.
  intros Hd Hr Hmax. unfold persist_query_receipt_at.
  assert (Hstop : forall e, refused r now d -> exists out : tx query_db string,
    Done (RolledBack e) = Done out /\ query_ok (run_tx d out).1 /\
    match (run_tx d out).2 with
    | Ok id => answers id r now (run_tx d out).1
    | Err _ => refused r now d /\ (run_tx d out).1 = d
    end) by (intros e He; by exists (RolledBack e)).
  pose proof (expires_at_spec now) as He.
  destruct (expires_at now) as [expires|e]; cbn [run_try].
  2:{ apply Hstop. destruct He; [by left|by right; left]. }
  destruct He as (Hnow & Hexp & _). rewrite (record_json r Hr). cbn [run_try].
  destruct (prune_query_receipts_ok now d Hd) as (t & -> & Hdt & Hshrink & Hlive). cbn [run_try].
  destruct (qo_generation d Hd) as [_ Hg]. rewrite (i64_to_u64_ok _ Hg). cbn [run_try].
  destruct (negb _ || negb _) eqn:Hmeta.
  { apply Hstop. apply orb_true_iff in Hmeta as [Hm|Hm]; apply negb_true_iff in Hm.
    - do 2 right; left. by apply Z.eqb_neq in Hm.
    - do 3 right; left. by apply bool_decide_eq_false in Hm. }
  pose proof (logical_bytes_spec r (meta_identity d) Hr) as Hsize.
  destruct (logical_bytes to_json r (meta_identity d)) as [total|e]; cbn [run_try].
  2:{ apply Hstop. do 4 right; left.
      assert (MAX_TOTAL_QUERY_RECEIPT_BYTES < U64_MAX) by done. lia. }
  pose proof (record_size_nonneg r (meta_identity d)) as Hpos.
  destruct (MAX_TOTAL_QUERY_RECEIPT_BYTES <? total) eqn:Htotal; bool_to_prop.
  { apply Hstop. do 4 right; left. lia. }
  pose proof (qo_table _ Hdt) as Ht. cbn [receipts with_receipts] in Ht.
  rewrite (read_usage_ok t Ht). cbn [run_try].
  pose proof (record_columns_spec r (to_json (rec_predicate r)) (meta_identity d)) as Hcols.
  destruct (record_columns _ _ _ _ _) as [c|e] eqn:Hc; cbn [run_try].
  2:{ apply Hstop. 
      destruct (qo_generation d Hd) as [[_ ?] _].
      destruct Hcols as [?|[?|?]]; [lia|by do 5 right; left|by do 6 right; left]. }
  destruct (store_receipt_spec r c now expires total (with_receipts d t) Hdt Hr Hc
    (fun k row Hk => proj2 (proj1 (Hlive k row) Hk)) Hnow Hexp Hmax ltac:(lia)) as (out & Hout & Hspec).
  exists out. split; [exact Hout|].
  destruct out as [d' [id|e]|e]; [done|done|]. split; [done|]. split; [|done].
  cbn [receipts with_receipts last_row_id] in Hspec. destruct Hshrink as [Hn _]. rewrite Hn in Hspec.
  destruct Hspec as [?|[?|?]]; [by do 8 right; left|by do 9 right|by do 7 right; left].
Qed.
End QueryStore.

(** ** Examples *)
Definition example_blake3 (b : bytes) : bytes :=
  le_bytes 32 (foldl (fun acc x => (acc * 257 + x) mod 2 ^ 256) 1 b).
Definition example_predicate : ExactQueryPredicate :=
  mk_predicate (search_semantics_fingerprint example_blake3 "0.1.28") ExactText
    (hash_hex example_blake3 (utf8 (lit "key"))) true [lit "src"] [].
Definition example_to_json (p : ExactQueryPredicate) : string := "{}".
Definition example_of_json (s : string) : option ExactQueryPredicate := Some example_predicate.
Definition any_glob (g : str) : bool := true.
Definition no_glob (g path : str) : bool := false.
Definition example_files : gmap str string := {[ lit "src/a.rs" := "h1" ]}%string.
Definition later_files : gmap str string := <[lit "doc/b.md" := "h2"%string]> example_files.
Definition example_hits : list (str * option SearchOccurrence) :=
  [(lit "src/a.rs", Some (mk_occurrence 1 1 0 3 0 3))].
Definition never (i : nat) : result () := Ok ().

Definition example_record : QueryReceiptRecord :=
  match pending_query_receipt example_blake3 example_to_json any_glob no_glob example_predicate
          false 1 example_hits example_files 4 "cfg" never with
  | Ok (Some r) => r
  | _ => mk_record 0 "" example_predicate "" (mk_partition "" 0) 0 ""
  end.
Definition empty_query_db : query_db :=
  mk_query_db "0123456789abcdef0123456789abcdef" 0 "repo" 4 "cfg" (mk_table 0 0 0 ∅).
Definition example_out : tx query_db string :=
  match persist_query_receipt_at example_blake3 example_to_json "0.1.28" example_record 1000
          empty_query_db with
  | Done out => out
  | _ => RolledBack SqlFailure
  end.
Definition example_db : query_db := (run_tx empty_query_db example_out).1.
Definition example_id : string := "q0123456789abcdef0123456789abcdef0000000000000001".
Definition example_outcome : QueryReceiptOutcome :=
  mk_outcome example_id 1 (rec_predicate_blake3 example_record) (rec_predicate_blake3 example_record)
    (rec_result_blake3 example_record) 4 true ScopeExact.

Lemma empty_query_ok : query_ok empty_query_db.
Proof. by constructor. Qed.

Lemma example_record_ok : record_ok example_blake3 example_to_json example_of_json example_record.
Proof. constructor; by vm_compute. Qed.

Lemma persist_query_receipt_correct_witness :
  query_ok example_db /\ (run_tx empty_query_db example_out).2 = Ok example_id.
Proof.
  split; [|by vm_compute].
  destruct (persist_query_receipt_correct example_blake3 example_to_json example_of_json "0.1.28"
    example_record 1000 empty_query_db empty_query_ok example_record_ok ltac:(done))
    as (out & Hout & Hok & _).
  unfold example_db, example_out. by rewrite Hout.
Defined.

Lemma file_ok_ascii path h : forallb (fun c => (0 <=? c) && (c <? 128)) path = true ->
  (length path + String.length h < 1000)%nat -> file_ok (path, h).
Proof.
  intros Hp Hlen. unfold file_ok. cbn [fst snd]. rewrite forallb_forall in Hp.
  assert (Hu : utf8 path = path).
  { clear Hlen. unfold utf8. induction path as [|c path IH]; [done|]. simpl.
    rewrite IH by (intros; apply Hp; by right). unfold utf8_char.
    specialize (Hp c ltac:(by left)). bool_to_prop. by rewrite (proj2 (Z.ltb_lt c 0x80)) by lia. }
  rewrite Hu. split_and!.
  - apply Forall_forall. intros c Hc%list_elem_of_In. specialize (Hp c Hc). bool_to_prop.
    unfold is_char. lia.
  - unfold is_u64, len, U64_MAX. lia.
  - assert (length (string_bytes h) = String.length h) as Hl.
    { unfold string_bytes. rewrite length_map. clear. induction h; simpl; congruence. }
    unfold is_u64, len, U64_MAX. rewrite Hl. lia.
Qed.

Lemma example_files_ok : files_ok example_files /\ files_ok later_files.
Proof.
  assert (files_ok example_files) as H1.
  { unfold files_ok, example_files. intros path h [<- <-]%lookup_singleton_Some. by apply file_ok_ascii; [|simpl; lia]. }
  split; [done|]. unfold files_ok, later_files.
  intros path h [[<- <-]|[_ Hl]]%lookup_insert_Some; [|by apply H1].
  by apply file_ok_ascii; [|simpl; lia].
Qed.

Lemma reuse_query_receipt_sound_witness :
  (reuse_query_receipt example_blake3 example_to_json example_of_json any_glob no_glob "0.1.28"
     example_db later_files 5 example_id example_predicate 2000 never example_db 2000).2
    = Ok example_outcome
  /\ outcome_match_count example_outcome = 1.
Proof.
  split; [by vm_compute|].
  apply (reuse_query_receipt_sound example_blake3 example_to_json example_of_json any_glob no_glob
    "0.1.28" (fun _ _ _ _ _ _ => 1) ltac:(done) example_db later_files 5 example_id example_predicate
    2000 never example_db 2000 (mk_stored example_id example_record) example_files).
  - by vm_compute.
  - exists false, 1, example_hits, never. split; by vm_compute.
  - intros Hgen. vm_compute in Hgen. discriminate.
  - intros f Hf _. vm_compute in Hf. injection Hf as <-. by vm_compute.
  - apply example_files_ok.
  - apply example_files_ok.
  - by vm_compute.
  - by vm_compute.
Defined.

Lemma touch_query_receipt_correct_witness :
  query_ok (run_tx empty_query_db (touch_query_receipt example_id 3000 empty_query_db)).1.
Proof.
  exact (proj1 (touch_query_receipt_correct example_id 3000 empty_query_db empty_query_ok)).
Defined.

Lemma scope_relation_complete_witness :
  exists rel, scope_relation_to example_predicate example_predicate = Some rel.
Proof.
  apply scope_relation_complete; [by repeat constructor|by repeat constructor|].
  split; [done|]. split; [right; split; [done|]|]; done.
Defined.

Lemma exhaustive_result_commits_witness :
  let a := (lit "a", mk_occurrence 1 1 0 3 0 3) in
  let b := (lit "a", mk_occurrence 2 2 0 3 9 12) in
  result_material [a; b] = result_material [b; a].
Proof.
  intros a b. assert (Hdistinct : hit_key a <> hit_key b) by done.
  assert (Ha : hit_ok a) by (split; [repeat constructor|split; [done|repeat constructor]]; done).
  assert (Hb : hit_ok b) by (split; [repeat constructor|split; [done|repeat constructor]]; done).
  apply exhaustive_result_commits; try done.
  - apply NoDup_cons. split; [by intros ?%list_elem_of_singleton|apply NoDup_singleton].
  - apply NoDup_cons. split; [by intros ?%list_elem_of_singleton|apply NoDup_singleton].
  - by repeat constructor.
  - by repeat constructor.
  - constructor.
Defined.
