(* ===== verification/Scheduler.v ===== *)
(** * The reconciliation scheduler

    [src/src/watcher/types.rs] and [src/src/watcher/scheduler.rs]: pending work,
    debouncing, retry backoff and the cooldown of full rescans.  An [Instant] is
    a number of nanoseconds; a [Duration] saturates at its maximum. *)

From S2P Require Import Prelude Chars Order.
Open Scope Z_scope.

Definition MAX_SCHEDULED_PATHS : Z := 4096.
Definition NANOS_PER_SEC : Z := 1000 * 1000 * 1000.
(** [Duration::MAX]. *)
Definition DURATION_MAX : Z := U64_MAX * NANOS_PER_SEC + (NANOS_PER_SEC - 1).
Definition duration_saturating_mul (d n : Z) : Z := Z.min (d * n) DURATION_MAX.
Definition RECONCILE_RETRY_INITIAL_DELAY : Z := 500 * 1000 * 1000.
Definition RECONCILE_RETRY_MAX_DELAY : Z := 30 * NANOS_PER_SEC.
Definition FULL_RECONCILE_INITIAL_DELAY : Z := NANOS_PER_SEC.
Definition FULL_RECONCILE_MAX_DELAY : Z := 30 * NANOS_PER_SEC.
Definition FULL_RECONCILE_RESET_AFTER : Z := 60 * NANOS_PER_SEC.

(** ** Messages, actions and pending work ([watcher/types.rs]) *)
Inductive WatcherMessage :=
| Changed (paths : list str)
| ReconcileRequired.

Inductive WatcherAction :=
| ActionPaths (paths : list str)
| ActionFull.

(** A [BTreeSet] of paths, or everything. *)
Inductive PendingReconciliation :=
| PendingPaths (paths : gset str)
| PendingFull.

Definition pending_empty : PendingReconciliation := PendingPaths ∅.
Definition is_full (p : PendingReconciliation) : bool :=
  match p with PendingFull => true | PendingPaths _ => false end.
Definition pending_is_empty (p : PendingReconciliation) : bool :=
  match p with PendingPaths paths => bool_decide (paths = ∅) | PendingFull => false end.
Definition require_full (p : PendingReconciliation) : PendingReconciliation := PendingFull.
Definition pending_insert (path : str) (p : PendingReconciliation) : PendingReconciliation :=
  match p with PendingPaths paths => PendingPaths ({[path]} ∪ paths) | PendingFull => PendingFull end.
Definition pending_extend (new : list str) (p : PendingReconciliation) : PendingReconciliation :=
  match p with
  | PendingPaths paths => PendingPaths (paths ∪ list_to_set new)
  | PendingFull => PendingFull
  end.
Definition pending_bound (limit : Z) (p : PendingReconciliation) : PendingReconciliation :=
  match p with
  | PendingPaths paths => if limit <? Z.of_nat (size paths) then require_full p else p
  | PendingFull => PendingFull
  end.
(** Iteration over a [BTreeSet]: in increasing order. *)
Definition sorted_paths (paths : gset str) : list str := sort_keys (elements paths).

(** ** The scheduler ([watcher/scheduler.rs]) *)
Record ReconciliationSchedulePolicy := mk_schedule_policy {
  quiet_period : Z;
  max_pending_paths : Z;
  retry_initial_delay : Z;
  retry_max_delay : Z;
  full_initial_delay : Z;
  full_max_delay : Z;
  full_reset_after : Z
}.

Definition runtime_policy (quiet : Z) : ReconciliationSchedulePolicy :=
  mk_schedule_policy quiet MAX_SCHEDULED_PATHS RECONCILE_RETRY_INITIAL_DELAY
    RECONCILE_RETRY_MAX_DELAY FULL_RECONCILE_INITIAL_DELAY FULL_RECONCILE_MAX_DELAY
    FULL_RECONCILE_RESET_AFTER.

Record scheduler := mk_scheduler {
  policy : ReconciliationSchedulePolicy;
  sched_pending : option PendingReconciliation;
  quiet_until : option Z;
  retry_not_before : option Z;
  next_full_not_before : option Z;
  last_full_completed : option Z;
  retry_delay : Z;
  full_delay : Z
}.

Definition with_policy (p : ReconciliationSchedulePolicy) : scheduler :=
  mk_scheduler p None None None None None (retry_initial_delay p) (full_initial_delay p).
Definition new_scheduler (quiet : Z) : scheduler := with_policy (runtime_policy quiet).

Definition with_pending (p : option PendingReconciliation) (s : scheduler) : scheduler :=
  mk_scheduler (policy s) p (quiet_until s) (retry_not_before s) (next_full_not_before s)
    (last_full_completed s) (retry_delay s) (full_delay s).
Definition with_quiet (q : option Z) (s : scheduler) : scheduler :=
  mk_scheduler (policy s) (sched_pending s) q (retry_not_before s) (next_full_not_before s)
    (last_full_completed s) (retry_delay s) (full_delay s).
Definition with_retry (not_before : option Z) (delay : Z) (s : scheduler) : scheduler :=
  mk_scheduler (policy s) (sched_pending s) (quiet_until s) not_before (next_full_not_before s)
    (last_full_completed s) delay (full_delay s).
Definition with_full (not_before completed : option Z) (delay : Z) (s : scheduler) : scheduler :=
  mk_scheduler (policy s) (sched_pending s) (quiet_until s) (retry_not_before s) not_before
    completed (retry_delay s) delay.

Definition merge_paths (paths : list str) (s : scheduler) : scheduler :=
  let pending := default pending_empty (sched_pending s) in
  with_pending (Some (pending_bound (max_pending_paths (policy s)) (pending_extend paths pending))) s.

(** [checked_duration_since] is [None] for a later instant. *)
Definition reset_full_backoff_after_stability (now : Z) (s : scheduler) : scheduler :=
  match last_full_completed s with
  | Some completed =>
    if (completed <=? now) && (full_reset_after (policy s) <=? now - completed)
    then with_full None None (full_initial_delay (policy s)) s
    else s
  | None => s
  end.

Definition enqueue (message : WatcherMessage) (now : Z) (s : scheduler) : scheduler :=
  let s := reset_full_backoff_after_stability now s in
  match message with
  | Changed [] => s
  | Changed paths => with_quiet (Some (now + quiet_period (policy s))) (merge_paths paths s)
  | ReconcileRequired =>
    with_quiet (Some (now + quiet_period (policy s))) (with_pending (Some PendingFull) s)
  end.

Definition next_deadline (s : scheduler) : option Z :=
  match quiet_until s with
  | None => None
  | Some deadline =>
    let deadline :=
      match retry_not_before s with Some r => Z.max deadline r | None => deadline end in
    Some match sched_pending s, next_full_not_before s with
         | Some PendingFull, Some f => Z.max deadline f
         | _, _ => deadline
         end
  end.

Definition take_ready (now : Z) (s : scheduler) : option WatcherAction * scheduler :=
  match next_deadline s with
  | None => (None, s)
  | Some deadline =>
    if now <? deadline then (None, s)
    else
      let s' := with_retry None (retry_delay s) (with_quiet None s) in
      match sched_pending s with
      | None => (None, s')
      | Some (PendingPaths paths) => (Some (ActionPaths (sorted_paths paths)), with_pending None s')
      | Some PendingFull => (Some ActionFull, with_pending None s')
      end
  end.

Definition finish_success (action : WatcherAction) (now : Z) (s : scheduler) : scheduler :=
  let s := with_retry None (retry_initial_delay (policy s)) s in
  match action with
  | ActionFull =>
    with_full (Some (now + full_delay s)) (Some now)
      (Z.min (duration_saturating_mul (full_delay s) 2) (full_max_delay (policy s))) s
  | ActionPaths _ => s
  end.

Definition finish_failure (action : WatcherAction) (now : Z) (s : scheduler) : scheduler :=
  let s :=
    match action with
    | ActionPaths paths => merge_paths paths s
    | ActionFull => with_pending (Some PendingFull) s
    end in
  with_retry (Some (now + retry_delay s))
    (Z.min (duration_saturating_mul (retry_delay s) 2) (retry_max_delay (policy s)))
    (with_quiet (Some now) s).

(** ** What a request covers *)
Definition pending_covers (pr : PendingReconciliation) (p : str) : Prop :=
  match pr with PendingFull => True | PendingPaths paths => p ∈ paths end.
Definition message_covers (m : WatcherMessage) (p : str) : Prop :=
  match m with ReconcileRequired => True | Changed paths => p ∈ paths end.
Definition action_covers (a : WatcherAction) (p : str) : Prop :=
  match a with ActionFull => True | ActionPaths paths => p ∈ paths end.
Definition sched_covers (s : scheduler) (p : str) : Prop :=
  match sched_pending s with Some pr => pending_covers pr p | None => False end.
(** ** Lemmas *)
Lemma pending_insert_covers q p pr : pending_covers pr p -> pending_covers (pending_insert q pr) p.
Proof. destruct pr; [|done]. simpl. set_solver. Qed.

Lemma fold_insert_covers inside p pr : pending_covers pr p \/ p ∈ inside ->
  pending_covers (fold_left (fun p rel => pending_insert rel p) inside pr) p.
Proof.
  revert pr. induction inside as [|q inside IH]; intros pr Hp; simpl.
  - destruct Hp as [Hp|Hp]; [done|by apply elem_of_nil in Hp].
  - apply IH. rewrite elem_of_cons in Hp. destruct Hp as [Hp|[->|Hp]]; [|left|by right].
    + left. by apply pending_insert_covers.
    + destruct pr; [|done]. simpl. set_solver.
Qed.

Lemma pending_bound_covers n p pr : pending_covers pr p -> pending_covers (pending_bound n pr) p.
Proof. destruct pr; [|done]. simpl. by destruct (_ <? _). Qed.

Lemma elem_of_pending_paths (p : str) (paths : gset str) : p ∈ sorted_paths paths <-> p ∈ paths.
Proof. unfold sorted_paths, sort_keys. by rewrite merge_sort_Permutation, elem_of_elements. Qed.

Lemma merge_paths_covers paths s p : sched_covers s p \/ p ∈ paths -> sched_covers (merge_paths paths s) p.
Proof.
  unfold sched_covers, merge_paths. simpl. intros Hp. apply pending_bound_covers.
  destruct (sched_pending s) as [[ps|]|]; simpl in *; [|done|];
    rewrite elem_of_union, elem_of_list_to_set; [tauto|]. destruct Hp as [[]|?]; by right.
Qed.

Lemma reset_pending now s : sched_pending (reset_full_backoff_after_stability now s) = sched_pending s.
Proof.
  unfold reset_full_backoff_after_stability. destruct (last_full_completed s); [|done].
  by destruct (_ && _).
Qed.

Lemma enqueue_covers m now s p : sched_covers s p \/ message_covers m p ->
  sched_covers (enqueue m now s) p.
Proof.
  intros Hp. unfold enqueue. set (s0 := reset_full_backoff_after_stability now s).
  assert (Hs0 : sched_covers s p -> sched_covers s0 p).
  { unfold sched_covers, s0. by rewrite reset_pending. }
  destruct m as [[|q paths]|]; [|apply (merge_paths_covers (q :: paths) s0 p)|done].
  - destruct Hp as [?|Hp]; [by apply Hs0|by apply elem_of_nil in Hp].
  - destruct Hp as [?|Hp]; [left; by apply Hs0|by right].
Qed.

(** Taking an action moves exactly the pending work into it. *)
Lemma take_ready_covers now s a s' p : take_ready now s = (a, s') ->
  (sched_covers s p <-> sched_covers s' p \/ match a with Some a => action_covers a p | None => False end).
Proof.
  unfold take_ready. destruct (next_deadline s) as [t|]; [|intros [= <- <-]; tauto].
  destruct (now <? t); [intros [= <- <-]; tauto|]. unfold sched_covers.
  destruct (sched_pending s) as [[paths|]|] eqn:E; intros [= <- <-]; simpl.
  - rewrite elem_of_pending_paths. tauto.
  - tauto.
  - rewrite E. tauto.
Qed.

Lemma finish_failure_covers a now s p : sched_covers s p \/ action_covers a p ->
  sched_covers (finish_failure a now s) p.
Proof.
  intros Hp. unfold finish_failure. destruct a as [paths|]; [|done].
  by apply (merge_paths_covers paths s p).
Qed.

Lemma finish_success_covers a now s p : sched_covers s p -> sched_covers (finish_success a now s) p.
Proof. unfold finish_success. by destruct a. Qed.

(** ** Bounds and scheduling *)
Definition pending_size_ok (limit : Z) (pr : PendingReconciliation) : Prop :=
  match pr with PendingPaths paths => Z.of_nat (size paths) <= limit | PendingFull => True end.

(** A policy whose delays are in order; [runtime_policy] is one. *)
Definition policy_ok (p : ReconciliationSchedulePolicy) : Prop :=
  0 <= quiet_period p /\ 0 <= max_pending_paths p
  /\ 0 < retry_initial_delay p <= retry_max_delay p /\ retry_max_delay p <= DURATION_MAX
  /\ 0 < full_initial_delay p <= full_max_delay p /\ full_max_delay p <= DURATION_MAX.

Record scheduler_ok (s : scheduler) : Prop := {
  so_policy : policy_ok (policy s);
  so_bound : forall pr, sched_pending s = Some pr -> pending_size_ok (max_pending_paths (policy s)) pr;
  so_armed : sched_pending s <> None -> quiet_until s <> None;
  so_retry : retry_initial_delay (policy s) <= retry_delay s <= retry_max_delay (policy s);
  so_full : full_initial_delay (policy s) <= full_delay s <= full_max_delay (policy s)
}.

Lemma pending_bound_size limit pr : pending_size_ok limit (pending_bound limit pr).
Proof. destruct pr; simpl; [|done]. destruct (_ <? _) eqn:E; bool_to_prop; simpl; [done|lia]. Qed.

Lemma doubled_delay initial delay max : 0 < initial -> initial <= delay <= max ->
  max <= DURATION_MAX -> initial <= Z.min (duration_saturating_mul delay 2) max <= max.
Proof. intros. unfold duration_saturating_mul. lia. Qed.

Lemma reset_ok now s : scheduler_ok s -> scheduler_ok (reset_full_backoff_after_stability now s).
Proof.
  intros Hs. unfold reset_full_backoff_after_stability. destruct (last_full_completed s); [|done].
  destruct (_ && _); [|done]. destruct Hs as [Hp ? ? ? ?]. constructor; try done. simpl.
  destruct Hp as (_ & _ & _ & _ & ? & _). lia.
Qed.

Lemma with_pending_quiet_ok pr q s : scheduler_ok s -> pending_size_ok (max_pending_paths (policy s)) pr ->
  scheduler_ok (with_quiet (Some q) (with_pending (Some pr) s)).
Proof. intros [? ? ? ? ?] Hpr. constructor; simpl; try done. by intros ? [= <-]. Qed.

Lemma enqueue_ok m now s : scheduler_ok s -> scheduler_ok (enqueue m now s).
Proof.
  intros Hs. unfold enqueue. apply (reset_ok now) in Hs.
  destruct m as [[|q paths]|]; [done| |by apply with_pending_quiet_ok].
  apply with_pending_quiet_ok; [done|]. apply pending_bound_size.
Qed.

Lemma take_ready_ok now s a s' : scheduler_ok s -> take_ready now s = (a, s') -> scheduler_ok s'.
Proof.
  intros Hs. unfold take_ready. destruct (next_deadline s); [|by intros [= <- <-]].
  destruct (now <? _); [by intros [= <- <-]|]. destruct Hs as [Hp Hb Ha Hr Hf].
  destruct (sched_pending s) as [[paths|]|] eqn:E; intros [= <- <-]; constructor; simpl; try done;
    rewrite E; done.
Qed.

Lemma finish_success_ok a now s : scheduler_ok s -> scheduler_ok (finish_success a now s).
Proof.
  intros [Hp Hb Ha Hr Hf]. pose proof Hp as (? & ? & [? ?] & ? & [? ?] & ?).
  destruct a; constructor; simpl; try done; try lia.
  by apply doubled_delay.
Qed.

Lemma finish_failure_ok a now s : scheduler_ok s -> scheduler_ok (finish_failure a now s).
Proof.
  intros [Hp Hb Ha Hr Hf]. pose proof Hp as (? & ? & [? ?] & ? & [? ?] & ?).
  destruct a as [paths|]; constructor; simpl; try done;
    try by apply doubled_delay.
  - intros pr [= <-]. apply pending_bound_size.
  - by intros pr [= <-].
Qed.

Lemma runtime_policy_ok quiet : 0 <= quiet -> policy_ok (runtime_policy quiet).
Proof. intros. unfold policy_ok. simpl. split; [done|]. by split_and!. Qed.

Lemma runtime_scheduler_ok quiet : 0 <= quiet -> scheduler_ok (new_scheduler quiet).
Proof.
  intros Hq. pose proof (runtime_policy_ok quiet Hq) as Hp. constructor; simpl; try done.
Qed.

(** The scheduler hands out exactly what is pending, and only when it may.  Pending work has a
    deadline; before it [take_ready] answers nothing and changes nothing; from it on the answer is
    one action that covers exactly the pending work, its paths sorted and without duplicates, and
    the scheduler is left with no work and no deadline. *)
Theorem scheduler_takes_pending s pr : scheduler_ok s -> sched_pending s = Some pr ->
  exists deadline, next_deadline s = Some deadline /\ forall now,
    if now <? deadline then take_ready now s = (None, s)
    else exists a s', take_ready now s = (Some a, s')
      /\ (forall p, action_covers a p <-> pending_covers pr p)
      /\ (forall paths, a = ActionPaths paths -> increasing paths)
      /\ sched_pending s' = None /\ next_deadline s' = None.
Proof.
  intros Hs Hpr. assert (quiet_until s <> None) as Hq by (apply (so_armed s Hs); by rewrite Hpr).
  unfold take_ready. destruct (next_deadline s) as [deadline|] eqn:Hd.
  2:{ unfold next_deadline in Hd. by destruct (quiet_until s). }
  exists deadline. split; [done|]. intros now. destruct (now <? deadline); [done|].
  rewrite Hpr. destruct pr as [paths|].
  - exists (ActionPaths (sorted_paths paths)), (with_pending None (with_retry None (retry_delay s) (with_quiet None s))).
    split_and!; [done| | |done|done].
    + intros p. simpl. by rewrite elem_of_pending_paths.
    + intros ps [= <-]. apply sort_keys_increasing, NoDup_elements.
  - eexists _, _. split_and!; try done.
Qed.

(** Failures of one action at the given times, one after another. *)
Definition fail_at (a : WatcherAction) (times : list Z) (s : scheduler) : scheduler :=
  fold_left (fun s t => finish_failure a t s) times s.

Lemma finish_failure_policy a t s : policy (finish_failure a t s) = policy s.
Proof. by destruct a. Qed.
Lemma finish_failure_delay a t s : retry_delay (finish_failure a t s)
  = Z.min (duration_saturating_mul (retry_delay s) 2) (retry_max_delay (policy s)).
Proof. by destruct a. Qed.

Lemma fail_at_delay a times s n : policy_ok (policy s) -> 0 <= n ->
  let initial := retry_initial_delay (policy s) in
  let max := retry_max_delay (policy s) in
  retry_delay s = Z.min (initial * 2 ^ n) max ->
  retry_delay (fail_at a times s) = Z.min (initial * 2 ^ (n + len times)) max
  /\ policy (fail_at a times s) = policy s.
Proof.
  cbv zeta. revert s n. induction times as [|t times IH]; intros s n Hp Hn Hd.
  { unfold len. simpl. by rewrite Z.add_0_r. }
  unfold fail_at. simpl. fold (fail_at a times (finish_failure a t s)).
  destruct (IH (finish_failure a t s) (n + 1)) as [IH1 IH2].
  - by rewrite finish_failure_policy.
  - lia.
  - rewrite finish_failure_policy, finish_failure_delay, Hd.
    destruct Hp as (_ & _ & [? ?] & Hmax & _). rewrite Z.pow_add_r by lia. change (2 ^ 1) with 2.
    pose proof (Z.pow_pos_nonneg 2 n ltac:(lia) Hn). unfold duration_saturating_mul.
    generalize dependent (2 ^ n). intros. nia.
  - rewrite finish_failure_policy in IH1, IH2. split; [|done]. rewrite IH1. unfold len. simpl.
    do 3 f_equal. lia.
Qed.

(** Retries back off exponentially up to the cap and never before: after [n] earlier failures a
    failed action is scheduled no earlier than [min (initial * 2 ^ n) max] after its failure, at
    exactly that time unless a full rescan is cooling down, and it is pending again as a whole.
    One success resets the delay. *)
Theorem retry_backoff_exact a times t s : scheduler_ok s ->
  retry_delay s = retry_initial_delay (policy s) ->
  let delay := Z.min (retry_initial_delay (policy s) * 2 ^ len times) (retry_max_delay (policy s)) in
  let s' := finish_failure a t (fail_at a times s) in
  exists deadline, next_deadline s' = Some deadline /\ t + delay <= deadline
  /\ (next_full_not_before (fail_at a times s) = None -> deadline = t + delay)
  /\ (forall p, action_covers a p -> sched_covers s' p)
  /\ forall b now, retry_delay (finish_success b now s') = retry_initial_delay (policy s).
Proof.
  intros Hs Hd delay s'. pose proof (so_policy s Hs) as Hp. pose proof Hp as (_ & _ & [Hi0 Him] & _).
  destruct (fail_at_delay a times s 0 Hp ltac:(lia)) as [Hdelay Hpol].
  { rewrite Z.mul_1_r, Hd. lia. }
  rewrite Z.add_0_l in Hdelay. fold delay in Hdelay.
  assert (0 <= delay) as Hpos.
  { pose proof (Z.pow_pos_nonneg 2 (len times) ltac:(lia) (Nat2Z.is_nonneg _)). unfold delay. nia. }
  assert (Hq : quiet_until s' = Some t /\ retry_not_before s' = Some (t + delay)
               /\ next_full_not_before s' = next_full_not_before (fail_at a times s)).
  { unfold s', finish_failure. destruct a; simpl; by rewrite Hdelay. }
  destruct Hq as (Hq & Hr & Hf). unfold next_deadline. rewrite Hq, Hr, Hf.
  eexists. split; [done|]. split_and!.
  - clearbody s' delay. destruct (sched_pending s') as [[]|]; [lia| |lia].
    destruct (next_full_not_before (fail_at a times s)); lia.
  - intros ->. clearbody s' delay. destruct (sched_pending s') as [[]|]; lia.
  - intros p Hcov. apply finish_failure_covers. by right.
  - intros b now. unfold s'. rewrite <-Hpol, <-(finish_failure_policy a t). by destruct b.
Qed.
(** ** Examples *)
Definition busy_scheduler : scheduler := enqueue (Changed [lit "b"; lit "a"]) 1000 (new_scheduler 100).

Lemma busy_scheduler_ok : scheduler_ok busy_scheduler.
Proof. by apply enqueue_ok, runtime_scheduler_ok. Qed.

Lemma scheduler_takes_pending_witness :
  (exists deadline, next_deadline busy_scheduler = Some deadline)
  /\ (take_ready 1100 busy_scheduler).1 = Some (ActionPaths [lit "a"; lit "b"]).
Proof.
  split; [|by vm_compute].
  destruct (sched_pending busy_scheduler) as [pr|] eqn:Hpr; [|by vm_compute in Hpr].
  destruct (scheduler_takes_pending busy_scheduler pr busy_scheduler_ok Hpr) as (t & Ht & _).
  by exists t.
Defined.

Lemma retry_backoff_exact_witness :
  exists deadline,
    next_deadline (finish_failure ActionFull 50 (fail_at ActionFull [10; 20] (new_scheduler 100)))
    = Some deadline /\ deadline = 50 + RECONCILE_RETRY_INITIAL_DELAY * 4.
Proof.
  destruct (retry_backoff_exact ActionFull [10; 20] 50 (new_scheduler 100)
    (runtime_scheduler_ok 100 ltac:(done)) eq_refl) as (t & Ht & _ & Hexact & _).
  exists t. split; [exact Ht|]. by rewrite Hexact.
Defined.
