(* ===== verification/Watcher.v ===== *)
(** * The repository watcher

    [src/src/watcher/] and the loop of [src/src/main/index_runtime.rs]: raw
    file-system events, their bounded queue and overflow flag, the pending set
    of the watcher task, the bounded message channel, the scheduler
    ([Scheduler]) and the reconciliation that runs.  Each component is a
    Definition over its own state; the tasks are put together as a labelled
    transition system whose labels are the atomic steps of the callback thread,
    the watcher task and the reconciliation loop, interleaved in any order.
    Timers may fire at any time and [select] may take any ready branch, so the
    theorems hold for every timing; what a timer was last set to is kept.

    The notify and tokio crates are not modelled beyond what the code relies
    on: an event has a kind, a rescan flag and paths; a channel is a bounded
    queue.  Admission of the native backend and shutdown are left out. *)

From S2P Require Import Prelude Chars Order Store Paths Scheduler.
Open Scope Z_scope.

(** ** Raw events ([watcher/events.rs], [watcher/discovery.rs]) *)
Inductive EventKind :=
| KindAccess | KindOther | KindAny
| CreateFolder | CreateOther
| RemoveFolder | RemoveOther
| ModifyName | ModifyOther.
#[export] Instance EventKind_eq_dec : EqDecision EventKind.
Proof. solve_decision. Defined.

(** An absolute path of an event, seen from the watched root: not below it,
    below it but not UTF-8, or the slash form of the rest. *)
Inductive raw_path :=
| PathOutside
| PathNotUtf8
| PathInside (relative : str).

#[export] Instance raw_path_eq_dec : EqDecision raw_path.
Proof. solve_decision. Defined.

Record Event := mk_event {
  kind : EventKind;
  need_rescan : bool;
  event_paths : list raw_path
}.

(** [notify::Result<Event>]. *)
Abbreviation raw_event := (option Event).

Inductive DirectoryHint := HintYes | HintNo | HintUnknown.
#[export] Instance DirectoryHint_eq_dec : EqDecision DirectoryHint.
Proof. solve_decision. Defined.

Definition event_path_is_directory (e : Event) : DirectoryHint :=
  match kind e with
  | CreateFolder | RemoveFolder => HintYes
  | ModifyName => HintUnknown
  | _ => HintNo
  end.

Section Watcher.
Variable glob_match : str -> str -> bool.
Variable windows : bool.
Variable discovery_policy : DiscoveryPolicy.
(** [services.config().is_database_artifact]. *)
Variable is_database_artifact : str -> bool.

Definition visible (s : str) (is_directory : bool) : bool :=
  includes_watch_path glob_match windows discovery_policy s is_directory.

(** [relative_path]; [None] is its [Err(())].  [disk] says which paths are
    directories when the call asks ([path.is_dir()]). *)
Definition relative_path (disk : str -> bool) (path : raw_path) (hint : DirectoryHint)
    : option (option str) :=
  match path with
  | PathOutside => Some None
  | PathNotUtf8 => None
  | PathInside s =>
    if bool_decide (s = []) then Some None
    else if bool_decide (hint = HintUnknown) then Some (Some s)
    else if negb (visible s (bool_decide (hint = HintYes) || disk s)) then Some None
    else Some (Some s)
  end.

(** The loop of [process_raw_event] over the paths: the names inside, whether
    some path is outside, whether one is not UTF-8. *)
Fixpoint classify (disk : str -> bool) (hint : DirectoryHint) (paths : list raw_path)
    : list str * bool * bool :=
  match paths with
  | [] => ([], false, false)
  | path :: paths =>
    let '(inside, outside, lost) := classify disk hint paths in
    match relative_path disk path hint with
    | Some (Some rel) => (rel :: inside, outside, lost)
    | Some None => (inside, true, lost)
    | None => (inside, outside, true)
    end
  end.

Definition process_raw_event (disk : str -> bool) (raw : raw_event) (pending : PendingReconciliation)
    : PendingReconciliation :=
  match raw with
  | None => require_full pending
  | Some e =>
    if need_rescan e then require_full pending
    else if bool_decide (kind e = KindAccess) || bool_decide (kind e = KindOther) then pending
    else
      let hint := event_path_is_directory e in
      if bool_decide (hint = HintUnknown) then require_full pending
      else
        let '(inside, outside, lost) := classify disk hint (event_paths e) in
        let pending := if lost then require_full pending else pending in
        if outside && bool_decide (inside = []) then pending
        else fold_left (fun p rel => pending_insert rel p) inside pending
  end.

Definition raw_event_is_relevant (disk : str -> bool) (raw : raw_event) : bool :=
  match raw with
  | None => true
  | Some e =>
    if need_rescan e then true
    else match event_paths e with
         | [] => true
         | paths => existsb (fun path =>
             match relative_path disk path (event_path_is_directory e) with
             | Some None => false
             | _ => true
             end) paths
         end
  end.

(** ** The reconciliation loop's intake ([main/index_runtime.rs]) *)
Definition schedule_watcher_message (message : WatcherMessage) (now : Z) (s : scheduler)
    : scheduler :=
  match message with
  | Changed paths =>
    match List.filter (fun path => negb (is_database_artifact path)) paths with
    | [] => s
    | paths => enqueue (Changed paths) now s
    end
  | ReconcileRequired => enqueue ReconcileRequired now s
  end.

(** ** The system

    [phase] is where the watcher task stands between two accesses to state it
    shares with the callback thread or the reconciliation loop; [wake] is what
    its timer was last reset to. *)
Inductive loop_phase :=
| TopOfLoop
| Selecting
| Coalescing
| Draining (left : nat)
| Flushing.

Inductive timer := WakeNow | WakeAfterDebounce | WakeAfterRetryDelay | WakeNever.
#[export] Instance timer_eq_dec : EqDecision timer.
Proof. solve_decision. Defined.

Record system := mk_system {
  disk : str -> bool;
  (** Callbacks between a failed [try_send] and the store of the flag. *)
  storing : nat;
  raw_queue : list raw_event;
  overflowed : bool;
  pending : PendingReconciliation;
  phase : loop_phase;
  wake : timer;
  messages : list WatcherMessage;
  sched : scheduler;
  running : option WatcherAction
}.

Variable capacity : Z.
Definition raw_capacity : Z := Z.max (u64_saturating_mul capacity 4) 64.
Definition message_capacity : Z := Z.max capacity 1.

Definition initial_system (d : str -> bool) (quiet : Z) : system :=
  mk_system d 0 [] false pending_empty TopOfLoop WakeNever [] (new_scheduler quiet) None.

Inductive label :=
| DiskChanges (d : str -> bool)
| Callback (raw : raw_event)
| StoreOverflow
| CheckOverflow
| ReceiveRaw
| PollTick
| SleepFires
| CoalesceStarts
| DrainOne
| Flush
| LoopReceives (now : Z)
| LoopTakes (now : Z)
| ActionSucceeds (now : Z)
| ActionFails (now : Z).

Definition with_intake (storing : nat) (queue : list raw_event) (flag : bool) (s : system) : system :=
  mk_system (disk s) storing queue flag (pending s) (phase s) (wake s) (messages s) (sched s)
    (running s).
Definition with_task (p : PendingReconciliation) (ph : loop_phase) (w : timer) (s : system) : system :=
  mk_system (disk s) (storing s) (raw_queue s) (overflowed s) p ph w (messages s) (sched s)
    (running s).
Definition with_messages (ms : list WatcherMessage) (s : system) : system :=
  mk_system (disk s) (storing s) (raw_queue s) (overflowed s) (pending s) (phase s) (wake s) ms
    (sched s) (running s).
Definition with_loop (sc : scheduler) (r : option WatcherAction) (s : system) : system :=
  mk_system (disk s) (storing s) (raw_queue s) (overflowed s) (pending s) (phase s) (wake s)
    (messages s) sc r.

(** The timer after an event was merged, and after a flush. *)
Definition wake_after_event (p : PendingReconciliation) : timer :=
  if is_full p then WakeNow else if negb (pending_is_empty p) then WakeAfterDebounce else WakeNever.
Definition wake_after_flush (p : PendingReconciliation) : timer :=
  if is_full p then WakeAfterRetryDelay
  else if pending_is_empty p then WakeNever else WakeAfterDebounce.

(** [flush] ([watcher/delivery.rs]), with the receiver still there: what is left
    pending and the queue of messages. *)
Definition flush (p : PendingReconciliation) (ms : list WatcherMessage)
    : PendingReconciliation * list WatcherMessage :=
  let room := len ms <? message_capacity in
  match p with
  | PendingFull => if room then (pending_empty, ms ++ [ReconcileRequired]) else (PendingFull, ms)
  | PendingPaths paths =>
    if bool_decide (paths = ∅) then (p, ms)
    else if room then (PendingPaths ∅, ms ++ [Changed (sorted_paths paths)])
    else (require_full p, ms)
  end.

(** One atomic step; [None] when the label is not enabled. *)
Definition perform (l : label) (s : system) : option system :=
  match l with
  | DiskChanges d =>
    Some (mk_system d (storing s) (raw_queue s) (overflowed s) (pending s) (phase s) (wake s)
            (messages s) (sched s) (running s))
  | Callback raw =>
    if negb (raw_event_is_relevant (disk s) raw) then Some s
    else if len (raw_queue s) <? raw_capacity
    then Some (with_intake (storing s) (raw_queue s ++ [raw]) (overflowed s) s)
    else Some (with_intake (S (storing s)) (raw_queue s) (overflowed s) s)
  | StoreOverflow =>
    match storing s with
    | O => None
    | S n => Some (with_intake n (raw_queue s) true s)
    end
  | CheckOverflow =>
    match phase s with
    | TopOfLoop =>
      let s' := with_intake (storing s) (raw_queue s) false s in
      if overflowed s && negb (is_full (pending s))
      then Some (with_task (require_full (pending s)) Selecting WakeNow s')
      else Some (with_task (pending s) Selecting (wake s) s')
    | _ => None
    end
  | ReceiveRaw =>
    match phase s, raw_queue s, is_full (pending s) with
    | Selecting, raw :: queue, false =>
      let p := pending_bound raw_capacity (process_raw_event (disk s) raw (pending s)) in
      Some (with_task p TopOfLoop (wake_after_event p)
              (with_intake (storing s) queue (overflowed s) s))
    | _, _, _ => None
    end
  | PollTick =>
    match phase s with
    | Selecting =>
      if is_full (pending s) then Some (with_task (pending s) TopOfLoop (wake s) s)
      else Some (with_task (require_full (pending s)) TopOfLoop WakeNow s)
    | _ => None
    end
  | SleepFires =>
    match phase s with
    | Selecting =>
      if is_full (pending s)
      then Some (with_task (pending s) Coalescing (wake s)
                   (with_intake (storing s) (raw_queue s) false s))
      else Some (with_task (pending s) Flushing (wake s) s)
    | _ => None
    end
  | CoalesceStarts =>
    match phase s with
    | Coalescing => Some (with_task (pending s) (Draining (length (raw_queue s))) (wake s) s)
    | _ => None
    end
  | DrainOne =>
    match phase s with
    | Draining (S n) =>
      match raw_queue s with
      | _ :: queue => Some (with_task (pending s) (Draining n) (wake s)
                              (with_intake (storing s) queue (overflowed s) s))
      | [] => Some (with_task (pending s) Flushing (wake s) s)
      end
    | Draining O => Some (with_task (pending s) Flushing (wake s) s)
    | _ => None
    end
  | Flush =>
    match phase s with
    | Flushing =>
      let '(p, ms) := flush (pending s) (messages s) in
      Some (with_messages ms (with_task p TopOfLoop (wake_after_flush p) s))
    | _ => None
    end
  | LoopReceives now =>
    match running s, messages s with
    | None, m :: ms =>
      Some (with_messages ms (with_loop (schedule_watcher_message m now (sched s)) None s))
    | _, _ => None
    end
  | LoopTakes now =>
    match running s with
    | None => let '(a, sc) := take_ready now (sched s) in Some (with_loop sc a s)
    | Some _ => None
    end
  | ActionSucceeds now =>
    match running s with
    | Some a => Some (with_loop (finish_success a now (sched s)) None s)
    | None => None
    end
  | ActionFails now =>
    match running s with
    | Some a => Some (with_loop (finish_failure a now (sched s)) None s)
    | None => None
    end
  end.

(** ** What must not be lost

    [reports raw p]: the event says that [p] may have changed.  A rescan flag or
    an error may stand for anything, and so may a rename of something below the
    root and a name that cannot be read. *)
Definition reports (raw : raw_event) (p : str) : Prop :=
  match raw with
  | None => True
  | Some e =>
    need_rescan e = true
    \/ (kind e <> KindAccess /\ kind e <> KindOther /\
        if decide (event_path_is_directory e = HintUnknown)
        then exists path, path ∈ event_paths e /\ path <> PathOutside /\ path <> PathInside []
        else PathNotUtf8 ∈ event_paths e \/ PathInside p ∈ event_paths e)
  end.

Definition running_covers (s : system) (p : str) : Prop :=
  match running s with Some a => action_covers a p | None => False end.

(** Somewhere between the callback and the next reconciliation there is a
    request that includes [p]. *)
Definition covered (s : system) (p : str) : Prop :=
  (0 < storing s)%nat \/ overflowed s = true
  \/ (exists raw, raw ∈ raw_queue s /\ reports raw p)
  \/ pending_covers (pending s) p
  \/ (exists m, m ∈ messages s /\ message_covers m p)
  \/ sched_covers (sched s) p.

(** The specification: the paths that changed and that no reconciliation which
    started afterwards, and has not failed, includes. *)
Definition stale_after (l : label) (s s' : system) (stale : str -> Prop) (p : str) : Prop :=
  match l with
  | Callback raw => stale p \/ reports raw p
  | LoopTakes _ => stale p /\ ~ running_covers s' p
  | ActionFails _ => stale p \/ running_covers s p
  | _ => stale p
  end.

(** The states of a run with the specification alongside, and the run itself: the
    steps taken, the last one first, each with the state it was taken in. *)
Inductive reachable (d : str -> bool) (quiet : Z)
    : list (label * system) -> system -> (str -> Prop) -> Prop :=
| reach_initial : reachable d quiet [] (initial_system d quiet) (fun _ => False)
| reach_step l s s' stale h : reachable d quiet h s stale -> perform l s = Some s' ->
    reachable d quiet ((l, s) :: h) s' (stale_after l s s' stale).

(** The event names [p], and the policy does not watch [p] as what it then is on disk: a
    directory, or a file or nothing. *)
Definition ignored (disk : str -> bool) (raw : raw_event) (p : str) : Prop :=
  match raw with
  | None => False
  | Some e => need_rescan e = false /\ kind e <> KindAccess /\ kind e <> KindOther /\
      event_path_is_directory e <> HintUnknown /\ PathInside p ∈ event_paths e /\
      visible p (bool_decide (event_path_is_directory e = HintYes) || disk p) = false
  end.
(** A step that handles such an event: the callback, or the receipt from the queue. *)
Definition handled (l : label) (s : system) : option raw_event :=
  match l with Callback raw => Some raw | ReceiveRaw => head (raw_queue s) | _ => None end.
Definition overlooks (l : label) (s : system) (p : str) : Prop :=
  match handled l s with Some raw => ignored (disk s) raw p | None => False end.
Definition overlooked (h : list (label * system)) (p : str) : Prop :=
  Exists (fun '(l, s) => overlooks l s p) h.
#[export] Instance overlooks_dec l s p : Decision (overlooks l s p).
Proof.
  unfold overlooks. destruct (handled l s) as [raw|]; [|apply _]. unfold ignored.
  destruct raw; apply _.
Defined.

#[export] Instance overlooked_dec h p : Decision (overlooked h p).
Proof. unfold overlooked. apply Exists_dec. intros [l s]. apply _. Defined.

(** A path the index follows whether it is a file or a directory. *)
Definition tracked (p : str) : Prop :=
  p <> [] /\ visible p true = true /\ visible p false = true /\ is_database_artifact p = false.

(** ** Lemmas *)
Lemma visible_tracked p b : tracked p -> visible p b = true.
Proof. intros (_ & ? & ? & _). by destruct b. Qed.
Lemma tracked_overlooked h p : tracked p -> ~ overlooked h p.
Proof.
  intros Hp Ho. apply Exists_exists in Ho as ([l s] & _ & Ho). unfold overlooks in Ho.
  destruct (handled l s) as [[e|]|]; [|done..]. destruct Ho as (_ & _ & _ & _ & _ & Hv). by rewrite (visible_tracked p _ Hp) in Hv.
Qed.

Lemma classify_inside d hint paths p : p <> [] -> hint <> HintUnknown ->
  visible p (bool_decide (hint = HintYes) || d p) = true ->
  PathInside p ∈ paths -> p ∈ (classify d hint paths).1.1.
Proof.
  intros Hp Hh Hv. induction paths as [|path paths IH]; [by intros ?%elem_of_nil|].
  intros Hin. simpl. destruct (classify d hint paths) as [[inside outside] lost].
  apply elem_of_cons in Hin as [<-|Hin].
  - unfold relative_path. rewrite (bool_decide_eq_false_2 _ Hp), (bool_decide_eq_false_2 _ Hh), Hv.
    simpl. by left.
  - specialize (IH Hin). simpl in IH. destruct (relative_path d path hint) as [[rel|]|]; simpl; [|done..].
    by right.
Qed.

Lemma classify_lost d hint paths : PathNotUtf8 ∈ paths -> (classify d hint paths).2 = true.
Proof.
  induction paths as [|path paths IH]; [by intros ?%elem_of_nil|].
  intros Hin. simpl. destruct (classify d hint paths) as [[inside outside] lost].
  apply elem_of_cons in Hin as [<-|Hin]; [done|].
  specialize (IH Hin). simpl in IH. by destruct (relative_path d path hint) as [[rel|]|].
Qed.

(** Processing an event keeps what is pending and adds what it reports. *)
Lemma process_raw_event_covers d raw pr p : p <> [] -> ~ ignored d raw p ->
  pending_covers pr p \/ reports raw p -> pending_covers (process_raw_event d raw pr) p.
Proof.
  intros Hp Hig Hcov. destruct raw as [e|]; [|done]. unfold process_raw_event, reports, ignored in *.
  destruct (need_rescan e) eqn:Hrescan; [done|].
  destruct (bool_decide_reflect (kind e = KindAccess)); [destruct Hcov as [|[?|(? & _)]]; done|].
  destruct (bool_decide_reflect (kind e = KindOther)); [destruct Hcov as [|[?|(_ & ? & _)]]; done|].
  cbv zeta. cbn [orb].
  destruct (bool_decide_reflect (event_path_is_directory e = HintUnknown)) as [Hu|Hu]; [done|].
  rewrite decide_False in Hcov by done.
  pose proof (classify_inside d (event_path_is_directory e) (event_paths e) p Hp Hu) as Hinside.
  assert (PathInside p ∈ event_paths e -> p ∈ (classify d (event_path_is_directory e) (event_paths e)).1.1)
    as Hin by (intros Hpe; apply Hinside; [destruct (visible p _) eqn:?; [done|tauto]|done]).
  clear Hinside. rename Hin into Hinside.
  pose proof (classify_lost d (event_path_is_directory e) (event_paths e)) as Hlost.
  destruct (classify d _ (event_paths e)) as [[inside outside] lost]. cbn [fst snd] in *.
  assert (pending_covers (if lost then require_full pr else pr) p \/ p ∈ inside) as Hc.
  { destruct Hcov as [?|[?|(_ & _ & [Hn|Hi])]]; [left; by destruct lost|done| |right; by apply Hinside].
    left. by rewrite (Hlost Hn). }
  destruct (_ && bool_decide (inside = [])) eqn:Hout; [|by apply fold_insert_covers].
  apply andb_true_iff in Hout as [_ Hi]. apply bool_decide_eq_true in Hi as ->.
  destruct Hc as [?|?%elem_of_nil]; done.
Qed.

(** What the callback drops reports no path that it does not ignore. *)
Lemma irrelevant_reports d raw p : p <> [] -> ~ ignored d raw p ->
  raw_event_is_relevant d raw = false -> ~ reports raw p.
Proof.
  intros Hp Hig Hrel. destruct raw as [e|]; [|done]. unfold raw_event_is_relevant, reports, ignored in *.
  destruct (need_rescan e); [done|]. intros [?|(Ha & Ho & Hr)]; [done|].
  assert (Hall : forall path, path ∈ event_paths e ->
    relative_path d path (event_path_is_directory e) = Some None).
  { intros path Hin. destruct (event_paths e) as [|x l]; [done|].
    destruct (relative_path d path (event_path_is_directory e)) as [[rel|]|] eqn:E; [|done|];
      exfalso; apply not_true_iff_false in Hrel; apply Hrel; apply existsb_exists; exists path;
      (split; [by apply list_elem_of_In|by rewrite E]). }
  destruct (decide _) as [Hu|Hu].
  - destruct Hr as (path & Hin & Hne1 & Hne2). specialize (Hall path Hin). rewrite Hu in Hall.
    destruct path as [| |s]; [done|done|]. unfold relative_path in Hall.
    destruct (bool_decide_reflect (s = [])); [by subst|done].
  - destruct Hr as [Hin|Hin]; pose proof (Hall _ Hin) as Hp'; [done|]. unfold relative_path in Hp'.
    rewrite (bool_decide_eq_false_2 _ Hp), (bool_decide_eq_false_2 _ Hu) in Hp'.
    destruct (visible p _) eqn:Hv; [done|]. by apply Hig.
Qed.

Lemma schedule_covers m now s p : is_database_artifact p = false ->
  sched_covers s p \/ message_covers m p -> sched_covers (schedule_watcher_message m now s) p.
Proof.
  intros Hp Hc. unfold schedule_watcher_message. destruct m as [paths|]; [|by apply enqueue_covers].
  assert (Hf : p ∈ paths -> p ∈ List.filter (fun path => negb (is_database_artifact path)) paths).
  { intros Hin. apply list_elem_of_In, filter_In. split; [by apply list_elem_of_In|by rewrite Hp]. }
  destruct (List.filter _ paths) as [|q qs] eqn:E.
  - destruct Hc as [?|Hc]; [done|]. apply Hf in Hc. by apply elem_of_nil in Hc.
  - apply enqueue_covers. destruct Hc as [?|Hc]; [by left|right]. by apply Hf.
Qed.

Lemma flush_covers pr ms p pr' ms' : flush pr ms = (pr', ms') ->
  pending_covers pr p \/ (exists m, m ∈ ms /\ message_covers m p) ->
  pending_covers pr' p \/ (exists m, m ∈ ms' /\ message_covers m p).
Proof.
  unfold flush. intros Hf Hp. destruct pr as [paths|].
  - destruct (bool_decide_reflect (paths = ∅)) as [->|Hne]; [by injection Hf as <- <-|].
    destruct (_ <? _); injection Hf as <- <-; [right|by left].
    destruct Hp as [Hp|(m & Hm & Hp)].
    + exists (Changed (sorted_paths paths)). split; [set_solver|]. simpl. by apply elem_of_pending_paths.
    + exists m. split; [set_solver|done].
  - destruct (_ <? _); injection Hf as <- <-; [right|by left].
    destruct Hp as [Hp|(m & Hm & Hp)]; [exists ReconcileRequired|exists m]; (split; [set_solver|done]).
Qed.

(** ** Invariant *)
Definition phase_ok (s : system) : Prop :=
  match phase s with
  | Coalescing | Draining _ => pending s = PendingFull
  | _ => True
  end.

Lemma perform_phase l s s' : phase_ok s -> perform l s = Some s' -> phase_ok s'.
Proof.
  unfold phase_ok. intros Hs. destruct l; simpl.
  - intros [= <-]. done.
  - destruct (negb _); [|destruct (_ <? _)]; intros [= <-]; done.
  - destruct (storing s); [done|]. by intros [= <-].
  - destruct (phase s); try done. destruct (_ && _); by intros [= <-].
  - destruct (phase s), (raw_queue s), (is_full (pending s)); try done. by intros [= <-].
  - destruct (phase s); try done. destruct (is_full _); by intros [= <-].
  - destruct (phase s); try done.
    destruct (pending s) eqn:Hp; cbn; intros [= <-]; cbn; by rewrite ?Hp.
  - destruct (phase s); try done. by intros [= <-].
  - destruct (phase s) as [| | |[|n]|]; try done; [by intros [= <-]|].
    destruct (raw_queue s); by intros [= <-].
  - destruct (phase s); try done. destruct (flush _ _) as [p ms]. by intros [= <-].
  - destruct (running s), (messages s); try done. by intros [= <-].
  - destruct (running s); [done|]. destruct (take_ready now (sched s)). by intros [= <-].
  - destruct (running s); [|done]. by intros [= <-].
  - destruct (running s); [|done]. by intros [= <-].
Qed.

(** Coverage, with the queue of events replaced by another. *)
Lemma covered_cases s p : covered s p ->
  pending_covers (pending s) p \/ (exists raw, raw ∈ raw_queue s /\ reports raw p)
  \/ ((0 < storing s)%nat \/ overflowed s = true
      \/ (exists m, m ∈ messages s /\ message_covers m p) \/ sched_covers (sched s) p).
Proof. unfold covered. tauto. Qed.

(** The callback thread. *)
Lemma callback_covers raw s s' p : p <> [] -> ~ ignored (disk s) raw p ->
  perform (Callback raw) s = Some s' -> covered s p \/ reports raw p -> covered s' p.
Proof.
  simpl. intros Hp Hig. destruct (raw_event_is_relevant (disk s) raw) eqn:Hrel; simpl.
  2:{ intros [= <-] [?|Hr]; [done|]. by destruct (irrelevant_reports _ _ _ Hp Hig Hrel). }
  destruct (_ <? _); intros [= <-] Hc; unfold covered; simpl.
  - destruct Hc as [[?|[?|[(r & Hr & ?)|?]]]|?]; [tauto|tauto| |tauto|].
    + do 2 right; left. exists r. split; [apply elem_of_app; by left|done].
    + do 2 right; left. exists raw. split; [apply elem_of_app; right; by left|done].
  - left. lia.
Qed.

(** The watcher task. *)
Lemma receive_covers s s' p : p <> [] -> ~ overlooks ReceiveRaw s p ->
  perform ReceiveRaw s = Some s' -> covered s p -> covered s' p.
Proof.
  unfold overlooks. simpl. intros Hp Hig. destruct (phase s); try done. destruct (raw_queue s) as [|raw queue] eqn:Hq; [done|].
  destruct (is_full (pending s)); [done|]. intros [= <-] Hc%covered_cases.
  unfold covered. simpl. rewrite Hq in Hc.
  assert (pending_covers (pending s) p \/ reports raw p ->
    pending_covers (pending_bound raw_capacity (process_raw_event (disk s) raw (pending s))) p) as Hproc.
  { intros. by apply pending_bound_covers, process_raw_event_covers. }
  destruct Hc as [?|[(r & [->|Hr]%elem_of_cons & ?)|?]]; [tauto|tauto| |tauto].
  do 2 right; left. by exists r.
Qed.

Lemma task_covers l s s' p : phase_ok s ->
  l = CheckOverflow \/ l = PollTick \/ l = SleepFires \/ l = CoalesceStarts \/ l = DrainOne ->
  perform l s = Some s' -> covered s p -> covered s' p.
Proof.
  intros Hphase Hl Hstep Hc. unfold phase_ok in Hphase.
  assert (Hfull : pending s' = PendingFull -> covered s' p).
  { intros Hf. unfold covered. rewrite Hf. do 3 right. by left. }
  destruct Hl as [->|[->|[->|[-> | ->]]]]; simpl in Hstep; destruct (phase s) as [| | |n|] eqn:Hph;
    try discriminate Hstep.
  - destruct (overflowed s) eqn:Ho; [|simpl in Hstep; injection Hstep as <-; unfold covered in *; simpl;
      rewrite Ho in Hc; tauto].
    destruct (pending s) eqn:Hpe; simpl in Hstep; injection Hstep as <-; apply Hfull; done.
  - destruct (pending s) eqn:Hpe; simpl in Hstep; injection Hstep as <-; apply Hfull; done.
  - destruct (pending s) eqn:Hpe; simpl in Hstep; injection Hstep as <-; [|by apply Hfull].
    unfold covered in *. simpl. rewrite Hpe in Hc. tauto.
  - injection Hstep as <-. unfold covered in *. simpl. tauto.
  - destruct n as [|n]; [|destruct (raw_queue s) eqn:Hq]; injection Hstep as <-; by apply Hfull.
Qed.

Lemma flush_step_covers s s' p : perform Flush s = Some s' -> covered s p -> covered s' p.
Proof.
  simpl. destruct (phase s); try done. destruct (flush (pending s) (messages s)) as [pr ms] eqn:Hf.
  intros [= <-] Hc. pose proof (flush_covers _ _ p _ _ Hf) as Hflush.
  unfold covered in *. simpl. tauto.
Qed.

(** The reconciliation loop. *)
Lemma loop_receives_covers now s s' p : is_database_artifact p = false ->
  perform (LoopReceives now) s = Some s' -> covered s p -> covered s' p.
Proof.
  simpl. intros Ha. destruct (running s); [done|]. destruct (messages s) as [|m ms] eqn:Hm; [done|].
  intros [= <-] Hc. unfold covered in *. simpl. rewrite Hm in Hc.
  pose proof (schedule_covers m now (sched s) p) as Hs.
  destruct Hc as [?|[?|[?|[?|[(m' & [->|Hin]%elem_of_cons & ?)|?]]]]]; [tauto..| | |].
  - tauto.
  - do 4 right; left. by exists m'.
  - tauto.
Qed.

Lemma step_covers l s s' stale p : p <> [] -> is_database_artifact p = false ->
  ~ overlooks l s p -> phase_ok s -> perform l s = Some s' -> (stale p -> covered s p) -> stale_after l s s' stale p -> covered s' p.
Proof.
  intros Hp Ha Hno Hphase Hstep Hcov Hst.
  destruct l; cbn [stale_after] in Hst; try specialize (Hcov Hst).
  - simpl in Hstep. by injection Hstep as <-.
  - eapply callback_covers; [done|exact Hno|done|]. tauto.
  - simpl in Hstep. destruct (storing s); [done|]. injection Hstep as <-. unfold covered. simpl. tauto.
  - eapply task_covers; [done| |done|done]; tauto.
  - by eapply receive_covers.
  - eapply task_covers; [done| |done|done]; tauto.
  - eapply task_covers; [done| |done|done]; tauto.
  - eapply task_covers; [done| |done|done]; tauto.
  - eapply task_covers; [done| |done|done]; tauto.
  - by eapply flush_step_covers.
  - by eapply loop_receives_covers.
  - destruct Hst as [Hst Hnot]. specialize (Hcov Hst). simpl in Hstep.
    destruct (running s); [done|]. destruct (take_ready now (sched s)) as [a sc] eqn:Ht.
    injection Hstep as <-. pose proof (take_ready_covers now (sched s) a sc p Ht) as Hiff.
    unfold covered, running_covers in *. simpl in *. tauto.
  - simpl in Hstep. destruct (running s) as [a|]; [|done]. injection Hstep as <-.
    pose proof (finish_success_covers a now (sched s) p). unfold covered in *. simpl. tauto.
  - simpl in Hstep. unfold running_covers in Hst. destruct (running s) as [a|]; [|done].
    injection Hstep as <-. pose proof (finish_failure_covers a now (sched s) p).
    unfold covered in *. simpl. tauto.
Qed.

(** Nothing is queued, pending, in flight or scheduled. *)
Definition idle (s : system) : Prop :=
  storing s = O /\ overflowed s = false /\ raw_queue s = [] /\ pending_is_empty (pending s) = true
  /\ messages s = [] /\ sched_pending (sched s) = None.

Lemma idle_uncovered s p : idle s -> ~ covered s p.
Proof.
  intros (H1 & H2 & H3 & H4 & H5 & H6). unfold covered, sched_covers.
  rewrite H1, H2, H3, H5, H6. destruct (pending s) as [paths|]; [|done].
  simpl in H4. apply bool_decide_eq_true in H4 as ->. simpl.
  intros [?|[?|[(r & Hr & _)|[?|[(m & Hm & _)|?]]]]]; [lia|done| |set_solver| |done].
  - by apply elem_of_nil in Hr.
  - by apply elem_of_nil in Hm.
Qed.

(** C13: no change is lost.  In every state that the callback thread, the watcher task and the
    reconciliation loop can reach in any interleaving, with any queue overflow, coalescing,
    message-queue backpressure, failed reconciliations and changes on disk in between: a path other
    than the root and the database files that changed, and that no reconciliation started since
    includes, is still covered by an event, a flag, a pending set, a message or the scheduler, or an
    event that names it was handled while the policy did not watch what the path then was on disk.
    In particular, when everything is empty every other change has been taken up by a
    reconciliation that has not failed.  The exception never concerns a path that is watched both as a
    file and as a directory; it does concern a file that has the name of a generated directory, when
    such a directory has taken its place before the event is handled. *)
Theorem watcher_loses_no_change d quiet h s stale p :
  reachable d quiet h s stale -> p <> [] -> is_database_artifact p = false ->
  (stale p -> covered s p \/ overlooked h p) /\ (idle s -> stale p -> overlooked h p) /\
  (tracked p -> ~ overlooked h p).
Proof.
  intros Hreach Hp Ha. assert (phase_ok s /\ (stale p -> covered s p \/ overlooked h p)) as [_ Hc].
  { induction Hreach as [|l s s' stale h _ [Hphase IH] Hstep]; [done|].
    split; [by eapply perform_phase|]. intros Hst. destruct (decide (overlooked h p)) as [Ho|Ho]; [right; by right|].
    destruct (decide (overlooks l s p)) as [Hl|Hl]; [right; by left|]. left.
    eapply step_covers; [done..| |done]. intros Hs. by destruct (IH Hs). }
  split; [done|]. split; [|apply tracked_overlooked].
  intros Hidle Hst. destruct (Hc Hst) as [Hcov|]; [|done]. by destruct (idle_uncovered s p Hidle).
Qed.

(** ** Bounds *)

(** What bounds the watcher: its queues, its pending set, the coalescing of one
    delivery attempt, and a timer that is armed whenever work is pending. *)
Record bounded (s : system) : Prop := {
  bd_queue : len (raw_queue s) <= raw_capacity;
  bd_messages : len (messages s) <= message_capacity;
  bd_pending : pending_size_ok raw_capacity (pending s);
  bd_draining : forall n, phase s = Draining n -> (n <= length (raw_queue s))%nat;
  bd_timer : pending_is_empty (pending s) = false -> wake s <> WakeNever;
  bd_sched : scheduler_ok (sched s)
}.

Lemma raw_capacity_pos : 0 < raw_capacity /\ 0 < message_capacity.
Proof. unfold raw_capacity, message_capacity. lia. Qed.

Lemma flush_bounded pr ms pr' ms' : pending_size_ok raw_capacity pr -> len ms <= message_capacity ->
  flush pr ms = (pr', ms') ->
  pending_size_ok raw_capacity pr' /\ len ms' <= message_capacity
  /\ (pending_is_empty pr' = false -> wake_after_flush pr' <> WakeNever).
Proof.
  intros Hpr Hms Hf. pose proof raw_capacity_pos as [? ?].
  split_and!.
  - unfold flush in Hf. destruct pr as [paths|].
    + destruct (bool_decide _); [by injection Hf as <- <-|].
      destruct (_ <? _); injection Hf as <- <-; [|done].
      unfold pending_size_ok, pending_empty. rewrite size_empty. lia.
    + destruct (_ <? _); injection Hf as <- <-; [|done].
      unfold pending_size_ok, pending_empty. rewrite size_empty. lia.
  - unfold flush in Hf. assert (Hs : forall m, len (ms ++ [m]) = len ms + 1).
    { intros m. unfold len. rewrite length_app. simpl. lia. }
    destruct pr as [paths|].
    + destruct (bool_decide _); [by injection Hf as <- <-|].
      destruct (_ <? _) eqn:E; bool_to_prop; injection Hf as <- <-; [rewrite Hs|]; lia.
    + destruct (_ <? _) eqn:E; bool_to_prop; injection Hf as <- <-; [rewrite Hs|]; lia.
  - unfold wake_after_flush. intros ->. by destruct (is_full pr').
Qed.

Lemma perform_bounded l s s' : bounded s -> perform l s = Some s' -> bounded s'.
Proof.
  intros [Hq Hm Hp Hd Ht Hs]. pose proof raw_capacity_pos as [Hc _].
  assert (Hcons : forall (x : raw_event) queue, len (x :: queue) = len queue + 1).
  { intros. unfold len. simpl. lia. }
  destruct l; simpl.
  - intros [= <-]. by constructor.
  - destruct (negb _); [by intros [= <-]|]. destruct (_ <? _) eqn:E; bool_to_prop;
      intros [= <-]; constructor; simpl; try done.
    + unfold len in *. rewrite length_app. simpl. lia.
    + intros n Hn. rewrite length_app. specialize (Hd n Hn). lia.
  - destruct (storing s); [done|]. intros [= <-]. by constructor.
  - destruct (phase s); try done. destruct (_ && _); intros [= <-]; by constructor.
  - destruct (phase s), (raw_queue s) eqn:Eq, (is_full (pending s)); try done.
    intros [= <-]. rewrite Hcons in Hq. constructor; simpl; try done; [lia|apply pending_bound_size|].
    unfold wake_after_event. intros ->. by destruct (is_full _).
  - destruct (phase s); try done. destruct (is_full _); intros [= <-]; by constructor.
  - destruct (phase s); try done. destruct (is_full _); intros [= <-]; by constructor.
  - destruct (phase s); try done. intros [= <-]. constructor; try done. simpl. by intros n [= <-].
  - destruct (phase s) as [| | |[|n]|] eqn:Eph; try done; [intros [= <-]; by constructor|].
    specialize (Hd (S n) eq_refl). destruct (raw_queue s) eqn:Eq; intros [= <-]; [simpl in Hd; lia|].
    rewrite Hcons in Hq. simpl in Hd. constructor; simpl; try done; [lia|]. intros k [= <-]. lia.
  - destruct (phase s); try done. destruct (flush _ _) as [p ms] eqn:Ef.
    destruct (flush_bounded _ _ _ _ Hp Hm Ef) as (? & ? & ?). intros [= <-]. by constructor.
  - destruct (running s), (messages s) as [|m ms]; try done. intros [= <-].
    constructor; simpl; try done; [unfold len in *; simpl in Hm; lia|].
    unfold schedule_watcher_message. destruct m as [paths|]; [|by apply enqueue_ok].
    destruct (List.filter _ _); [done|by apply enqueue_ok].
  - destruct (running s); [done|]. destruct (take_ready now (sched s)) eqn:E. intros [= <-].
    constructor; try done. by eapply take_ready_ok.
  - destruct (running s); [|done]. intros [= <-]. constructor; try done. by apply finish_success_ok.
  - destruct (running s); [|done]. intros [= <-]. constructor; try done. by apply finish_failure_ok.
Qed.

(** Every queue of the watcher is bounded in every reachable state: raw events and retained
    paths by the raw capacity, messages by the message capacity, the work of one coalescing pass by
    what is queued, the scheduler's path set by its limit and its two delays by their caps.  Work
    is never forgotten by the timers: while paths are pending the watcher's timer is armed, and
    while work is scheduled the scheduler has a deadline. *)
Theorem watcher_bounded d quiet h s stale : 0 <= quiet -> reachable d quiet h s stale ->
  bounded s /\ (sched_pending (sched s) <> None -> next_deadline (sched s) <> None).
Proof.
  intros Hquiet Hreach. assert (bounded s) as Hb.
  { induction Hreach as [|l s s' stale h _ IH Hstep]; [|by eapply perform_bounded].
    pose proof raw_capacity_pos as [? ?].
    constructor; [unfold len; simpl; lia..| |done|done|by apply runtime_scheduler_ok].
    cbn [initial_system pending]. unfold pending_size_ok, pending_empty. rewrite size_empty. lia. }
  split; [done|]. intros Hp. pose proof (so_armed _ (bd_sched _ Hb) Hp).
  unfold next_deadline. by destruct (quiet_until (sched s)).
Qed.

End Watcher.

(** ** Examples *)
Definition empty_matcher : ScopeMatcher := mk_matcher (mk_pattern_set [] [] []) [] [].
Definition full_scope : IndexScope := mk_scope [] [] empty_matcher empty_matcher None.
Definition default_policy : DiscoveryPolicy := mk_policy false full_scope.
Definition match_nothing (g path : str) : bool := false.
Definition no_artifact (p : str) : bool := false.
Definition no_directories (p : str) : bool := false.
Definition file_event (k : EventKind) (p : string) : raw_event :=
  Some (mk_event k false [PathInside (lit p)]).

Abbreviation demo_perform := (perform match_nothing false default_policy no_artifact 1).
Abbreviation demo_reachable := (reachable match_nothing false default_policy no_artifact 1 no_directories 100).

(** Performs the labels in order, with the specification alongside. *)
Fixpoint demo_trace (ls : list label) (s : system) (stale : str -> Prop)
    : option (system * (str -> Prop)) :=
  match ls with
  | [] => Some (s, stale)
  | l :: ls =>
    match demo_perform l s with
    | Some s' => demo_trace ls s' (stale_after l s s' stale)
    | None => None
    end
  end.

Lemma demo_trace_reachable ls s stale s' stale' h : demo_reachable h s stale ->
  demo_trace ls s stale = Some (s', stale') -> exists h', demo_reachable h' s' stale'.
Proof.
  revert s stale h. induction ls as [|l ls IH]; intros s stale h Hs; cbn [demo_trace].
  - intros [= <- <-]. by exists h.
  - destruct (demo_perform l s) as [s1|] eqn:E; [|done]. eapply IH. by eapply reach_step.
Qed.

(** Only taking an action takes a path off the specification's set. *)
Lemma demo_trace_keeps ls s stale s' stale' p :
  Forall (fun l => match l with LoopTakes _ => False | _ => True end) ls -> stale p ->
  demo_trace ls s stale = Some (s', stale') -> stale' p.
Proof.
  intros Hls. revert s stale. induction Hls as [|l ls Hl _ IH]; intros s stale Hp; cbn [demo_trace].
  { by intros [= _ <-]. }
  destruct (demo_perform l s) as [s1|]; [|done]. apply IH. destruct l; simpl; tauto.
Qed.

Lemma demo_trace_reports raw ls s stale s' stale' p :
  Forall (fun l => match l with LoopTakes _ => False | _ => True end) ls -> reports raw p ->
  demo_trace (Callback raw :: ls) s stale = Some (s', stale') -> stale' p.
Proof.
  intros Hls Hr. cbn [demo_trace]. destruct (demo_perform _ s) as [s1|]; [|done].
  apply demo_trace_keeps; [done|]. by right.
Qed.

Definition demo_initial : system := initial_system no_directories 100.

Definition replaced_labels : list label :=
  [Callback (file_event RemoveOther "target"); DiskChanges (fun p => bool_decide (p = lit "target"));
   CheckOverflow; ReceiveRaw].

(** The one kind of change that the intake can miss.  Whether a path is a directory is asked when
    the event is handled, not when it happened: a file whose name is that of a generated directory
    is followed by the index, but once a directory of that name has taken its place the queued
    event for the file is dropped, and the watcher comes to rest with the change unreported. *)
Theorem watcher_drops_replaced_file :
  exists h s stale, demo_reachable h s stale /\ stale (lit "target") /\ idle s
  /\ visible match_nothing false default_policy (lit "target") false = true.
Proof.
  destruct (demo_trace replaced_labels demo_initial (fun _ => False)) as [[s stale]|] eqn:E;
    [|by vm_compute in E].
  destruct (demo_trace_reachable _ _ _ _ _ _ (reach_initial _ _ _ _ _ _ _) E) as [h Hh].
  exists h, s, stale. split_and!; [exact Hh| | |done].
  - eapply demo_trace_reports; [| |exact E]; [by repeat constructor|].
    right. split; [done|]. split; [done|]. right. by left.
  - assert (Hidle : match demo_trace replaced_labels demo_initial (fun _ => False) with
                    | Some (s, _) => idle s | None => False end) by by vm_compute.
    by rewrite E in Hidle.
Qed.

Lemma demo_tracked : tracked match_nothing false default_policy no_artifact (lit "src/a.rs").
Proof. by vm_compute. Qed.

(** A change whose reconciliation fails: the path is scheduled again. *)
Definition demo_labels : list label :=
  [Callback (file_event ModifyOther "src/a.rs"); CheckOverflow; ReceiveRaw; CheckOverflow;
   SleepFires; Flush; LoopReceives 1000; LoopTakes (2000 * 1000); ActionFails 3000].

Example demo_run :
  (fun r => next_deadline (sched r.1)) <$> demo_trace demo_labels demo_initial (fun _ => False)
  = Some (Some (3000 + RECONCILE_RETRY_INITIAL_DELAY)).
Proof. by vm_compute. Qed.

(** Until it is taken up, the change is in the pipeline. *)
Lemma watcher_loses_no_change_witness :
  match demo_trace (take 7 demo_labels) demo_initial (fun _ => False) with
  | Some (s, _) => covered s (lit "src/a.rs") /\ ~ idle s
  | None => False
  end.
Proof.
  destruct (demo_trace (take 7 demo_labels) demo_initial (fun _ => False)) as [[s stale]|] eqn:E;
    [|by vm_compute in E].
  destruct (demo_trace_reachable _ _ _ _ _ _ (reach_initial _ _ _ _ _ _ _) E) as [h Hreach].
  assert (Hst : stale (lit "src/a.rs")).
  { eapply demo_trace_reports; [| |exact E]; [by repeat constructor|].
    right. split; [done|]. split; [done|]. right. by left. }
  destruct (watcher_loses_no_change match_nothing false default_policy no_artifact 1 no_directories 100
    h s stale (lit "src/a.rs") Hreach ltac:(done) ltac:(done)) as (Hcov & Hidle & Hno).
  split; [destruct (Hcov Hst) as [|Ho]; [done|by destruct (Hno demo_tracked)]|].
  intros Hi. by destruct (Hno demo_tracked (Hidle Hi Hst)).
Defined.

Lemma watcher_bounded_witness : bounded 1 demo_initial.
Proof.
  exact (proj1 (watcher_bounded match_nothing false default_policy no_artifact 1 no_directories 100
    [] demo_initial (fun _ => False) ltac:(done) (reach_initial _ _ _ _ _ _ _))).
Defined.

