(* ===== verification/Cursor.v ===== *)
(** * Continuation cursors

    [src/src/services/cursor.rs] and the read cursor of
    [src/src/services/read/cursor.rs]: the versioned envelope with its stream
    identity, snapshot generation, payload and checksum, the offset cursor of
    the paginated tools, and the payload of a read.

    Parameters: BLAKE3 as a function on bytes, and the URL-safe base64 of the
    base64 crate, of which the code relies on three facts: decoding undoes
    encoding, decoding yields bytes, and three bytes become four characters. *)

From S2P Require Import Prelude Chars Bytes Store Receipt.
Open Scope Z_scope.
Open Scope store_scope.

Definition CURSOR_VERSION : Z := 1.
Definition STREAM_ID_BYTES : nat := 16.
Definition CHECKSUM_BYTES : nat := 8.
Definition CURSOR_HEADER_BYTES : nat := 1 + 1 + 8 + STREAM_ID_BYTES.
Definition MIN_CURSOR_BYTES : nat := CURSOR_HEADER_BYTES + CHECKSUM_BYTES.
Definition MAX_CURSOR_PAYLOAD_BYTES : Z := 8 * 1024.
Definition MAX_ENCODED_CURSOR_BYTES : Z := 11000.
Definition ENCODED_CURSOR_BYTES : Z := 56.
Definition MAX_READ_CURSOR_BYTES : Z := 256.
Definition CONTENT_FINGERPRINT_HEX_LEN : nat := 32.
Definition CURSOR_CHECKSUM_DOMAIN : bytes :=
  string_bytes "leantoken-continuation-checksum-v1" ++ [0].
Definition STREAM_ID_DOMAIN : bytes := string_bytes "leantoken-stream-identity-v1" ++ [0].

(** ** Kinds *)
Inductive CursorKind :=
| KindSearch | KindFiles | KindOutline | KindRead | KindJsonKeys | KindHistoryDiffSymbols
| KindCacheList.
#[export] Instance CursorKind_eq_dec : EqDecision CursorKind.
Proof. solve_decision. Defined.

Definition kind_byte (k : CursorKind) : Z :=
  match k with
  | KindSearch => 1
  | KindFiles => 2
  | KindOutline => 3
  | KindRead => 4
  | KindJsonKeys => 5
  | KindHistoryDiffSymbols => 6
  | KindCacheList => 7
  end.

Definition parse_kind (value : Z) : result CursorKind :=
  if value =? 1 then Ok KindSearch
  else if value =? 2 then Ok KindFiles
  else if value =? 3 then Ok KindOutline
  else if value =? 4 then Ok KindRead
  else if value =? 5 then Ok KindJsonKeys
  else if value =? 6 then Ok KindHistoryDiffSymbols
  else if value =? 7 then Ok KindCacheList
  else Err StaleCursor.

(** ** Stream identities: the calls of a [StreamIdentityBuilder] *)
Inductive stream_value :=
| FieldBytes (value : bytes)
| FieldOptional (value : option bytes)
| FieldBool (value : bool)
| FieldUsize (value : Z)
| FieldOptionalUsize (value : option Z)
| FieldStrings (values : list bytes).

Definition value_material (v : stream_value) : bytes :=
  match v with
  | FieldBytes value => framed value
  | FieldOptional (Some value) => 1 :: framed value
  | FieldOptional None => [0]
  | FieldBool value => [if value then 1 else 0]
  | FieldUsize value => le64 value
  | FieldOptionalUsize (Some value) => 1 :: le64 value
  | FieldOptionalUsize None => [0]
  | FieldStrings values => le64 (len values) ++ concat (map framed values)
  end.

Definition stream_material (kind : CursorKind) (fields : list (bytes * stream_value)) : bytes :=
  STREAM_ID_DOMAIN ++ [kind_byte kind]
  ++ concat (map (fun '(name, value) => framed name ++ value_material value) fields).

(** ** The envelope *)
Record CursorEnvelope := mk_envelope {
  envelope_kind : CursorKind;
  envelope_generation : Z;
  envelope_stream_id : bytes;
  envelope_payload : bytes
}.

Record ContinuationCursor := mk_continuation {
  cursor_kind : CursorKind;
  cursor_generation : Z;
  cursor_stream_id : bytes;
  cursor_position : Z
}.

Section Cursor.
Variable blake3 : bytes -> bytes.
Variable b64_encode : bytes -> string.
Variable b64_decode : string -> option bytes.

Definition stream_id (kind : CursorKind) (fields : list (bytes * stream_value)) : bytes :=
  take STREAM_ID_BYTES (blake3 (stream_material kind fields)).

Definition cursor_checksum (payload : bytes) : bytes :=
  take CHECKSUM_BYTES (blake3 (CURSOR_CHECKSUM_DOMAIN ++ payload)).

Definition new_envelope (kind : CursorKind) (generation : Z) (id payload : bytes)
    : result CursorEnvelope :=
  if MAX_CURSOR_PAYLOAD_BYTES <? len payload then Err (OperationFailure "cursor payload overflow")
  else Ok (mk_envelope kind generation id payload).

(** The bytes under the checksum. *)
Definition envelope_bytes (e : CursorEnvelope) : bytes :=
  CURSOR_VERSION :: kind_byte (envelope_kind e)
  :: le64 (envelope_generation e) ++ envelope_stream_id e ++ envelope_payload e.

Definition encode_envelope (e : CursorEnvelope) : string :=
  b64_encode (envelope_bytes e ++ cursor_checksum (envelope_bytes e)).

Definition parse_envelope (encoded : string) (max_encoded_bytes : Z) : result CursorEnvelope :=
  if (str_len encoded =? 0) || (Z.min max_encoded_bytes MAX_ENCODED_CURSOR_BYTES <? str_len encoded)
  then Err StaleCursor
  else
  match b64_decode encoded with
  | None => Err StaleCursor
  | Some data =>
    if (length data <? MIN_CURSOR_BYTES)%nat
       || (Z.of_nat CURSOR_HEADER_BYTES + MAX_CURSOR_PAYLOAD_BYTES + Z.of_nat CHECKSUM_BYTES <? len data)
       || negb (bool_decide (b64_encode data = encoded))
    then Err StaleCursor
    else
      let checksum_start := (length data - CHECKSUM_BYTES)%nat in
      if negb (bool_decide (drop checksum_start data = cursor_checksum (take checksum_start data)))
      then Err StaleCursor
      else if negb (nth 0 data 0 =? CURSOR_VERSION) then Err StaleCursor
      else
        let* kind := parse_kind (nth 1 data 0) in
        Ok (mk_envelope kind (of_le_bytes (slice data 2 10)) (slice data 10 (10 + STREAM_ID_BYTES))
              (slice data CURSOR_HEADER_BYTES checksum_start))
  end.

Definition payload_for (e : CursorEnvelope) (kind : CursorKind) (generation : Z) (id : bytes)
    : result bytes :=
  if negb (bool_decide (envelope_kind e = kind)) || negb (envelope_generation e =? generation)
     || negb (bool_decide (envelope_stream_id e = id))
  then Err StaleCursor
  else Ok (envelope_payload e).

(** ** Offset cursors *)
Definition parse_continuation (encoded : string) : result ContinuationCursor :=
  if negb (str_len encoded =? ENCODED_CURSOR_BYTES) then Err StaleCursor
  else
    let* e := parse_envelope encoded ENCODED_CURSOR_BYTES in
    if negb (length (envelope_payload e) =? 8)%nat then Err StaleCursor
    else Ok (mk_continuation (envelope_kind e) (envelope_generation e) (envelope_stream_id e)
               (of_le_bytes (envelope_payload e))).

Definition encode_continuation (c : ContinuationCursor) : result string :=
  let* e := new_envelope (cursor_kind c) (cursor_generation c) (cursor_stream_id c)
              (le64 (cursor_position c)) in
  Ok (encode_envelope e).

Definition position_for (c : ContinuationCursor) (kind : CursorKind) (generation : Z) (id : bytes)
    : result Z :=
  if negb (bool_decide (cursor_kind c = kind)) || negb (cursor_generation c =? generation)
     || negb (bool_decide (cursor_stream_id c = id))
  then Err StaleCursor
  else Ok (cursor_position c).
End Cursor.

(** ** Read cursors *)
Inductive ReadPolicy := Bounded | Full.
#[export] Instance ReadPolicy_eq_dec : EqDecision ReadPolicy.
Proof. solve_decision. Defined.

Record ReadCursorState := mk_read_state {
  target_start_line : Z;
  target_end_line : option Z;
  next_start_line : Z;
  next_byte : Z;
  full_hash : option bytes;
  prefix_hash : option bytes;
  read_policy : ReadPolicy;
  file_size : Z;
  modified_ns : option Z
}.

Definition is_some {A} (o : option A) : bool := match o with Some _ => true | None => false end.

Definition validate_read_state (s : ReadCursorState) : result () :=
  let fingerprints_match_policy :=
    match read_policy s with
    | Bounded => negb (is_some (full_hash s)) && is_some (prefix_hash s)
    | Full => is_some (full_hash s) && negb (is_some (prefix_hash s))
    end in
  if (target_start_line s =? 0)
     || (next_start_line s <? target_start_line s)
     || match target_end_line s with
        | Some end_line => (end_line <? target_start_line s) || (end_line <? next_start_line s)
        | None => false
        end
     || (next_byte s =? 0)
     || negb fingerprints_match_policy
  then Err StaleCursor
  else Ok ().

Definition is_lower_hex (b : Z) : bool :=
  ((48 <=? b) && (b <=? 57)) || ((97 <=? b) && (b <=? 102)).

Definition push_optional_usize (value : option Z) : bytes :=
  match value with Some v => 1 :: le64 v | None => [0] end.
Definition push_optional_u128 (value : option Z) : bytes :=
  match value with Some v => 1 :: le_bytes 16 v | None => [0] end.
Definition push_fingerprint (value : option bytes) : result bytes :=
  match value with
  | Some v =>
    if (length v =? CONTENT_FINGERPRINT_HEX_LEN)%nat && forallb is_lower_hex v then Ok (1 :: v)
    else Err (OperationFailure "invalid read cursor fingerprint")
  | None => Ok [0]
  end.

Definition read_payload (s : ReadCursorState) : result bytes :=
  let* full := push_fingerprint (full_hash s) in
  let* prefix := push_fingerprint (prefix_hash s) in
  Ok ((match read_policy s with Bounded => 1 | Full => 2 end)
      :: le64 (target_start_line s) ++ push_optional_usize (target_end_line s)
      ++ le64 (next_start_line s) ++ le64 (next_byte s) ++ full ++ prefix
      ++ le64 (file_size s) ++ push_optional_u128 (modified_ns s)).

(** [PayloadReader]: the remaining bytes are threaded through. *)
Definition reader (A : Type) : Type := bytes -> result (A * bytes).

Definition take_slice (n : nat) : reader bytes := fun remaining =>
  if (length remaining <? n)%nat then Err StaleCursor
  else Ok (take n remaining, drop n remaining).
Definition read_byte : reader Z := fun remaining =>
  let* (b, rest) := take_slice 1 remaining in Ok (nth 0 b 0, rest).
Definition read_usize : reader Z := fun remaining =>
  let* (b, rest) := take_slice 8 remaining in Ok (of_le_bytes b, rest).
Definition read_u128 : reader Z := fun remaining =>
  let* (b, rest) := take_slice 16 remaining in Ok (of_le_bytes b, rest).
(** A flag byte, then the value when it is set. *)
Definition read_optional {A} (value : reader A) : reader (option A) := fun remaining =>
  let* (flag, rest) := read_byte remaining in
  if flag =? 0 then Ok (None, rest)
  else if flag =? 1 then let* (v, rest) := value rest in Ok (Some v, rest)
  else Err StaleCursor.
Definition read_fingerprint_value : reader bytes := fun remaining =>
  let* (v, rest) := take_slice CONTENT_FINGERPRINT_HEX_LEN remaining in
  if forallb is_lower_hex v then Ok (v, rest) else Err StaleCursor.

Definition decode_read_state (payload : bytes) : result ReadCursorState :=
  let* (policy_byte, rest) := read_byte payload in
  let* policy := if policy_byte =? 1 then Ok Bounded
                 else if policy_byte =? 2 then Ok Full else Err StaleCursor in
  let* (target_start, rest) := read_usize rest in
  let* (target_end, rest) := read_optional read_usize rest in
  let* (next_start, rest) := read_usize rest in
  let* (next, rest) := read_usize rest in
  let* (full, rest) := read_optional read_fingerprint_value rest in
  let* (prefix, rest) := read_optional read_fingerprint_value rest in
  let* (size, rest) := read_usize rest in
  let* (modified, rest) := read_optional read_u128 rest in
  let state := mk_read_state target_start target_end next_start next full prefix policy size modified in
  match rest with
  | [] =>
    match validate_read_state state with
    | Ok _ => Ok state
    | Err _ => Err StaleCursor
    end
  | _ => Err StaleCursor
  end.

Section ReadCursor.
Variable blake3 : bytes -> bytes.
Variable b64_encode : bytes -> string.
Variable b64_decode : string -> option bytes.

Definition encode_read_cursor (generation : Z) (id : bytes) (s : ReadCursorState) : result string :=
  let* _ := validate_read_state s in
  let* payload := read_payload s in
  let* e := new_envelope KindRead generation id payload in
  Ok (encode_envelope blake3 b64_encode e).

Definition decode_read_cursor (cursor : string) : result (CursorEnvelope * ReadCursorState) :=
  let* e := parse_envelope blake3 b64_encode b64_decode cursor MAX_READ_CURSOR_BYTES in
  let* payload := payload_for e (envelope_kind e) (envelope_generation e) (envelope_stream_id e) in
  let* s := decode_read_state payload in
  Ok (e, s).

Definition validate_read_cursor (e : CursorEnvelope) (generation : Z) (id : bytes) : result () :=
  let* _ := payload_for e KindRead generation id in Ok ().
End ReadCursor.

(** ** Base64

    What the code relies on of the URL-safe alphabet without padding. *)
Class Base64 (encode : bytes -> string) (decode : string -> option bytes) : Prop := {
  decode_encode : forall b, Forall is_byte b -> decode (encode b) = Some b;
  decode_bytes : forall s b, decode s = Some b -> Forall is_byte b;
  encode_length : forall b, str_len (encode b) = (4 * len b + 2) / 3
}.

(** BLAKE3 returns thirty-two bytes. *)
Class Digest32 (digest : bytes -> bytes) : Prop := {
  digest_length : forall b, length (digest b) = 32%nat;
  digest_bytes : forall b, Forall is_byte (digest b)
}.

(** ** Fields of a payload

    The printer and the reader of one field agree: reading back what was
    printed, and printing again what was read. *)
Class Codec {A} (valid : A -> Prop) (write : A -> bytes) (read : reader A) : Prop := {
  codec_read_write : forall v rest, valid v -> read (write v ++ rest) = Ok (v, rest);
  codec_write_read : forall b v rest, Forall is_byte b -> read b = Ok (v, rest) ->
    valid v /\ b = write v ++ rest /\ Forall is_byte rest
}.

Definition for_some {A} (valid : A -> Prop) (o : option A) : Prop :=
  forall v, o = Some v -> valid v.
Definition write_optional {A} (write : A -> bytes) (o : option A) : bytes :=
  match o with Some v => 1 :: write v | None => [0] end.
Definition is_u128 (v : Z) : Prop := 0 <= v < 256 ^ 16.
Definition is_fingerprint (v : bytes) : Prop :=
  length v = CONTENT_FINGERPRINT_HEX_LEN /\ forallb is_lower_hex v = true.

Lemma take_slice_app n v rest : length v = n -> take_slice n (v ++ rest) = Ok (v, rest).
Proof.
  intros <-. unfold take_slice. rewrite length_app.
  rewrite (proj2 (Nat.ltb_ge _ _)) by lia. by rewrite take_app_length, drop_app_length.
Qed.

Lemma take_slice_inv n b v rest : Forall is_byte b -> take_slice n b = Ok (v, rest) ->
  length v = n /\ b = v ++ rest /\ Forall is_byte v /\ Forall is_byte rest.
Proof.
  unfold take_slice. intros Hb. destruct (_ <? _)%nat eqn:Hn; [done|]. intros [= <- <-].
  bool_to_prop. rewrite take_drop, length_take. repeat split; [lia|..].
  - by apply Forall_take.
  - by apply Forall_drop.
Qed.

Lemma read_byte_cons x rest : read_byte (x :: rest) = Ok (x, rest).
Proof. unfold read_byte. change (x :: rest) with ([x] ++ rest). by rewrite take_slice_app. Qed.

Lemma read_byte_inv b x rest : Forall is_byte b -> read_byte b = Ok (x, rest) ->
  b = x :: rest /\ Forall is_byte rest.
Proof.
  unfold read_byte. intros Hb. destruct (take_slice 1 b) as [[v r] | ] eqn:Ht; [|done].
  apply take_slice_inv in Ht as (Hv & -> & _ & Hr); [|done].
  destruct v as [|y [|]]; try done. simpl. by intros [= <- <-].
Qed.

Lemma le64_length v : length (le64 v) = 8%nat.
Proof. apply le_bytes_length. Qed.

(** A little-endian integer of [n] bytes. *)
Lemma le_codec n : Codec (fun v => 0 <= v < 256 ^ Z.of_nat n) (le_bytes n)
  (fun remaining => let* (b, rest) := take_slice n remaining in Ok (of_le_bytes b, rest)).
Proof.
  split.
  - intros v rest Hv. rewrite take_slice_app by apply le_bytes_length. simpl.
    by rewrite of_le_bytes_le.
  - intros b v rest Hb. destruct (take_slice n b) as [[w r] | ] eqn:Ht; [|done].
    apply take_slice_inv in Ht as (Hn & -> & Hw & Hr); [|done]. simpl. intros [= <- <-].
    split; [|split; [|done]].
    + pose proof (of_le_bytes_bound w Hw) as Hbound. unfold len in Hbound. by rewrite Hn in Hbound.
    + by rewrite <-Hn, le_bytes_of.
Qed.

#[export] Instance usize_codec : Codec is_u64 le64 read_usize.
Proof.
  pose proof (le_codec 8) as [H1 H2]. change (256 ^ Z.of_nat 8) with 18446744073709551616 in *.
  split.
  - intros v rest Hv. apply H1. unfold is_u64, U64_MAX in Hv. lia.
  - intros b v rest Hb Hr. apply H2 in Hr as (Hv & Hr); [|done]. split; [|done].
    unfold is_u64, U64_MAX. lia.
Qed.

#[export] Instance u128_codec : Codec is_u128 (le_bytes 16) read_u128.
Proof. exact (le_codec 16). Qed.

#[export] Instance fingerprint_codec : Codec is_fingerprint id read_fingerprint_value.
Proof.
  unfold read_fingerprint_value. split.
  - intros v rest [Hl Hx]. rewrite take_slice_app by done. simpl. by rewrite Hx.
  - intros b v rest Hb. destruct (take_slice _ b) as [[w r] | ] eqn:Ht; [|done].
    apply take_slice_inv in Ht as (Hn & -> & Hw & Hr); [|done]. simpl.
    destruct (forallb is_lower_hex w) eqn:Hx; [|done]. by intros [= <- <-].
Qed.

#[export] Instance optional_codec {A} (valid : A -> Prop) write read :
  Codec valid write read -> Codec (for_some valid) (write_optional write) (read_optional read).
Proof.
  intros Hc. unfold read_optional, for_some. split.
  - intros [v|] rest Hv; cbn [write_optional app]; rewrite read_byte_cons; simpl; [|done].
    by rewrite codec_read_write by auto.
  - intros b v rest Hb. destruct (read_byte b) as [[x r] | ] eqn:Hx; [|done].
    apply read_byte_inv in Hx as [-> Hr]; [|done]. simpl.
    destruct (Z.eqb_spec x 0) as [-> | _]; [by intros [= <- <-]|].
    destruct (Z.eqb_spec x 1) as [-> | _]; [|done].
    destruct (read r) as [[w r'] | ] eqn:Hw; [|done].
    apply codec_write_read in Hw as (Hv & -> & Hr'); [|done].
    intros [= <- <-]. split; [|done]. by intros ? [= <-].
Qed.

(** ** The payload of a read *)

(** The numbers of a state, at their widths. *)
Definition typed_read_state (s : ReadCursorState) : Prop :=
  is_u64 (target_start_line s) /\ for_some is_u64 (target_end_line s)
  /\ is_u64 (next_start_line s) /\ is_u64 (next_byte s)
  /\ is_u64 (file_size s) /\ for_some is_u128 (modified_ns s).
Definition fingerprints_ok (s : ReadCursorState) : Prop :=
  for_some is_fingerprint (full_hash s) /\ for_some is_fingerprint (prefix_hash s).

Definition policy_byte (p : ReadPolicy) : Z := match p with Bounded => 1 | Full => 2 end.
Definition state_bytes (s : ReadCursorState) : bytes :=
  policy_byte (read_policy s) :: le64 (target_start_line s)
  ++ write_optional le64 (target_end_line s) ++ le64 (next_start_line s) ++ le64 (next_byte s)
  ++ write_optional id (full_hash s) ++ write_optional id (prefix_hash s)
  ++ le64 (file_size s) ++ write_optional (le_bytes 16) (modified_ns s).

Lemma push_fingerprint_ok o r :
  push_fingerprint o = Ok r <-> for_some is_fingerprint o /\ r = write_optional id o.
Proof.
  unfold push_fingerprint, for_some, is_fingerprint. destruct o as [v|]; simpl.
  - destruct ((_ =? _)%nat && _) eqn:Hv.
    + bool_to_prop. split; [|by intros [_ ->]]. intros [= <-]. split; [|done]. by intros ? [= <-].
    + split; [done|]. intros [H _]. destruct (H v eq_refl) as [H1 H2].
      by rewrite H1, Nat.eqb_refl, H2 in Hv.
  - split; [intros [= <-]; by split|by intros [_ ->]].
Qed.

Lemma read_payload_ok s p :
  read_payload s = Ok p <-> fingerprints_ok s /\ p = state_bytes s.
Proof.
  unfold read_payload, fingerprints_ok.
  pose proof (push_fingerprint_ok (full_hash s)) as Hf.
  pose proof (push_fingerprint_ok (prefix_hash s)) as Hp.
  destruct (push_fingerprint (full_hash s)) as [f|e]; simpl.
  2: { split; [done|]. intros [[H _] _]. by pose proof (proj2 (Hf _) (conj H eq_refl)). }
  destruct (push_fingerprint (prefix_hash s)) as [q|e]; simpl.
  2: { split; [done|]. intros [[_ H] _]. by pose proof (proj2 (Hp _) (conj H eq_refl)). }
  destruct (proj1 (Hf f) eq_refl) as [Hf1 ->], (proj1 (Hp q) eq_refl) as [Hp1 ->].
  split; [intros [= <-]|intros [_ ->]]; done.
Qed.

Lemma validate_read_state_unit s r : validate_read_state s = r -> r = Ok () \/ r = Err StaleCursor.
Proof. unfold validate_read_state. intros <-. destruct (_ || _); auto. Qed.

Lemma decode_state_bytes s : typed_read_state s -> fingerprints_ok s ->
  validate_read_state s = Ok () -> decode_read_state (state_bytes s) = Ok s.
Proof.
  intros (H1 & H2 & H3 & H4 & H5 & H6) [H7 H8] Hv. unfold decode_read_state, state_bytes.
  rewrite read_byte_cons. cbn [result_bind].
  assert (Hp : (if policy_byte (read_policy s) =? 1 then Ok Bounded
    else if policy_byte (read_policy s) =? 2 then Ok Full else Err StaleCursor) = Ok (read_policy s)).
  { by destruct (read_policy s). }
  rewrite Hp. cbn [result_bind].
  rewrite <-(app_nil_r (write_optional (le_bytes 16) (modified_ns s))).
  repeat (rewrite codec_read_write by done; cbn [result_bind]).
  destruct s. cbn in *. by rewrite Hv.
Qed.

(** Consume one reader of a chain: it succeeded, and what it read is known. *)
Ltac read_step H Hb :=
  match type of H with
  | result_bind (?read ?b) _ = Ok _ =>
    let v := fresh "v" in let r := fresh "rest" in let E := fresh "E" in
    let Hv := fresh "Hv" in let Hr := fresh "Hr" in
    destruct (read b) as [[v r] | ] eqn:E; [|done]; cbn [result_bind] in H;
    apply codec_write_read in E as (Hv & -> & Hr); [|exact Hb]
  end.

Lemma decode_state_inv p s : Forall is_byte p -> decode_read_state p = Ok s ->
  typed_read_state s /\ fingerprints_ok s /\ validate_read_state s = Ok () /\ p = state_bytes s.
Proof.
  unfold decode_read_state. intros Hb H.
  destruct (read_byte p) as [[pb r] | ] eqn:Hpb; [|done]. cbn [result_bind] in H.
  apply read_byte_inv in Hpb as [-> Hr]; [|done].
  destruct (if pb =? 1 then _ else _) as [policy|] eqn:Hpol; [|done]. cbn [result_bind] in H.
  assert (pb = policy_byte policy) as ->.
  { destruct (Z.eqb_spec pb 1) as [-> | _]; [by injection Hpol as <-|].
    destruct (Z.eqb_spec pb 2) as [-> | _]; [by injection Hpol as <-|done]. }
  read_step H Hr. read_step H Hr0. read_step H Hr1. read_step H Hr2. read_step H Hr3.
  read_step H Hr4. read_step H Hr5. read_step H Hr6.
  destruct rest0; [|done]. destruct (validate_read_state _) as [[]|] eqn:Hvalid; [|done].
  injection H as <-. split; [|split; [|split]].
  - do 5 (split; [done|]). done.
  - by split.
  - done.
  - unfold state_bytes. cbn -[le64]. by rewrite app_nil_r.
Qed.

(** Every refusal is the one error a client may retry on. *)
Definition stale_only {A} (m : result A) : Prop := forall e, m = Err e -> e = StaleCursor.

Lemma stale_bind {A B} (m : result A) (k : A -> result B) :
  stale_only m -> (forall a, stale_only (k a)) -> stale_only (result_bind m k).
Proof. intros Hm Hk. destruct m as [a|x]; [apply Hk|]. intros e [= <-]. by apply Hm. Qed.
Lemma stale_ok {A} (a : A) : stale_only (Ok a).
Proof. done. Qed.
Lemma stale_err {A} : stale_only (A := A) (Err StaleCursor).
Proof. by intros e [= <-]. Qed.
Lemma stale_if {A} (b : bool) (m n : result A) :
  stale_only m -> stale_only n -> stale_only (if b then m else n).
Proof. by destruct b. Qed.
Lemma stale_pair {A B C} (k : A -> B -> result C) (p : A * B) :
  (forall a b, stale_only (k a b)) -> stale_only (let '(a, b) := p in k a b).
Proof. destruct p. auto. Qed.
Lemma stale_take n b : stale_only (take_slice n b).
Proof. unfold take_slice. apply stale_if; [apply stale_err|apply stale_ok]. Qed.

Create HintDb stale.
#[export] Hint Resolve stale_bind stale_ok stale_err stale_if stale_pair stale_take : stale.

Lemma stale_readers :
  (forall b, stale_only (read_byte b)) /\ (forall b, stale_only (read_usize b))
  /\ (forall b, stale_only (read_u128 b)) /\ (forall b, stale_only (read_fingerprint_value b)).
Proof.
  unfold read_byte, read_usize, read_u128, read_fingerprint_value.
  repeat split; intros; auto 20 with stale.
Qed.

Lemma stale_optional {A} (rd : reader A) b :
  (forall b, stale_only (rd b)) -> stale_only (read_optional rd b).
Proof. destruct stale_readers as [Hb _]. intros. unfold read_optional. auto 20 with stale. Qed.
#[export] Hint Resolve stale_optional : stale.

Lemma stale_validate s : stale_only (validate_read_state s).
Proof. intros e He. by destruct (validate_read_state_unit _ _ He) as [ | [= ->]]. Qed.

Lemma decode_state_stale p : stale_only (decode_read_state p).
Proof.
  destruct stale_readers as (H1 & H2 & H3 & H4). unfold decode_read_state.
  repeat (apply stale_bind; [solve [auto 10 with stale]|intros ?; try (apply stale_pair; intros ? ?)]).
  case_match; [|apply stale_err]. case_match; [apply stale_ok|apply stale_err].
Qed.

(** ** The envelope *)

(** The values of the type: eight-byte generation, sixteen-byte stream
    identity, and a payload that [CursorEnvelope::new] admits. *)
Definition valid_envelope (e : CursorEnvelope) : Prop :=
  is_u64 (envelope_generation e)
  /\ length (envelope_stream_id e) = STREAM_ID_BYTES /\ Forall is_byte (envelope_stream_id e)
  /\ len (envelope_payload e) <= MAX_CURSOR_PAYLOAD_BYTES /\ Forall is_byte (envelope_payload e).

Lemma parse_kind_byte k : parse_kind (kind_byte k) = Ok k.
Proof. by destruct k. Qed.
Lemma parse_kind_inv v k : parse_kind v = Ok k -> v = kind_byte k.
Proof.
  unfold parse_kind. repeat (case_match; [intros [= <-]; bool_to_prop; subst; done|]). done.
Qed.
Lemma parse_kind_stale v : stale_only (parse_kind v).
Proof. unfold parse_kind. auto 20 with stale. Qed.

Section Envelope.
Context (blake3 : bytes -> bytes) {Hblake3 : Digest32 blake3}.
Context (encode : bytes -> string) (decode : string -> option bytes) {Hb64 : Base64 encode decode}.
Abbreviation checksum := (cursor_checksum blake3).
Abbreviation parse := (parse_envelope blake3 encode decode).

Lemma checksum_length b : length (checksum b) = CHECKSUM_BYTES.
Proof. unfold cursor_checksum. by rewrite length_take, digest_length. Qed.
Lemma checksum_bytes b : Forall is_byte (checksum b).
Proof. unfold cursor_checksum. apply Forall_take, digest_bytes. Qed.

Lemma kind_is_byte k : is_byte (kind_byte k).
Proof. destruct k; done. Qed.

Lemma envelope_bytes_length e : length (envelope_stream_id e) = STREAM_ID_BYTES ->
  length (envelope_bytes e) = (CURSOR_HEADER_BYTES + length (envelope_payload e))%nat.
Proof.
  intros He. unfold envelope_bytes, CURSOR_HEADER_BYTES. cbn [length].
  rewrite !length_app, He. rewrite le64_length. lia.
Qed.

Lemma envelope_bytes_bytes e : valid_envelope e -> Forall is_byte (envelope_bytes e).
Proof.
  intros (_ & _ & Hid & _ & Hp). unfold envelope_bytes.
  apply Forall_cons_2; [done|]. apply Forall_cons_2; [apply kind_is_byte|].
  apply Forall_app_2; [apply le_bytes_bytes|]. by apply Forall_app_2.
Qed.

Lemma envelope_data_ok e : valid_envelope e ->
  Forall is_byte (envelope_bytes e ++ checksum (envelope_bytes e))
  /\ length (envelope_bytes e ++ checksum (envelope_bytes e))
     = (MIN_CURSOR_BYTES + length (envelope_payload e))%nat.
Proof.
  intros He. split.
  - apply Forall_app_2; [by apply envelope_bytes_bytes|apply checksum_bytes].
  - destruct He as (_ & Hid & _). rewrite length_app, envelope_bytes_length, checksum_length by done.
    unfold MIN_CURSOR_BYTES. lia.
Qed.

(** The fields, cut out of the bytes at their offsets. *)
Lemma envelope_fields e : valid_envelope e ->
  nth 0 (envelope_bytes e) 0 = CURSOR_VERSION
  /\ nth 1 (envelope_bytes e) 0 = kind_byte (envelope_kind e)
  /\ of_le_bytes (slice (envelope_bytes e) 2 10) = envelope_generation e
  /\ slice (envelope_bytes e) 10 (10 + STREAM_ID_BYTES) = envelope_stream_id e
  /\ slice (envelope_bytes e) CURSOR_HEADER_BYTES (length (envelope_bytes e)) = envelope_payload e.
Proof.
  intros (Hg & Hid & _). split; [done|]. split; [done|]. split; [|split].
  - unfold slice, envelope_bytes. change (drop 2 (?a :: ?b :: ?l)) with l.
    rewrite take_app_length' by (by rewrite le64_length). unfold le64. apply of_le_bytes_le.
    change (256 ^ Z.of_nat 8) with 18446744073709551616. unfold is_u64, U64_MAX in Hg. lia.
  - unfold slice, envelope_bytes. change (drop 10 (?a :: ?b :: ?l)) with (drop 8 l).
    rewrite drop_app_length' by (by rewrite le64_length). by rewrite take_app_length'.
  - rewrite envelope_bytes_length by done. unfold slice.
    replace (_ + _ - _)%nat with (length (envelope_payload e)) by lia.
    unfold envelope_bytes, CURSOR_HEADER_BYTES. change (drop _ (?a :: ?b :: ?l)) with (drop (8 + STREAM_ID_BYTES) l).
    rewrite app_assoc, drop_app_length'.
    2: { by rewrite length_app, Hid, le64_length. }
    by rewrite firstn_all.
Qed.

(** A body of at least a header splits into its fields. *)
Lemma body_split body k : Forall is_byte body -> (CURSOR_HEADER_BYTES <= length body)%nat ->
  len body <= Z.of_nat CURSOR_HEADER_BYTES + MAX_CURSOR_PAYLOAD_BYTES ->
  nth 0 body 0 = CURSOR_VERSION -> nth 1 body 0 = kind_byte k ->
  let e := mk_envelope k (of_le_bytes (slice body 2 10)) (slice body 10 (10 + STREAM_ID_BYTES))
             (slice body CURSOR_HEADER_BYTES (length body)) in
  valid_envelope e /\ envelope_bytes e = body.
Proof.
  intros Hb Hl Hmax H0 H1 e. unfold CURSOR_HEADER_BYTES, STREAM_ID_BYTES in Hl.
  assert (Hs : forall a b, Forall is_byte (slice body a b)).
  { intros. unfold slice. by apply Forall_take, Forall_drop. }
  assert (Hg : length (slice body 2 10) = 8%nat) by (rewrite slice_length; lia).
  split.
  - unfold valid_envelope. cbn [e envelope_generation envelope_stream_id envelope_payload].
    pose proof (of_le_bytes_bound _ (Hs 2%nat 10%nat)) as Hbound. unfold len in Hbound.
    rewrite Hg in Hbound. change (256 ^ Z.of_nat 8) with 18446744073709551616 in Hbound.
    unfold is_u64, U64_MAX, len. rewrite !slice_length by (unfold CURSOR_HEADER_BYTES, STREAM_ID_BYTES; lia).
    split; [lia|]. split; [unfold STREAM_ID_BYTES; lia|]. split; [done|]. split; [|done].
    unfold len, CURSOR_HEADER_BYTES, STREAM_ID_BYTES in *. lia.
  - unfold envelope_bytes. cbn [e envelope_kind envelope_generation envelope_stream_id envelope_payload].
    pose proof (le_bytes_of (slice body 2 10) (Hs _ _)) as Hle. rewrite Hg in Hle.
    unfold le64. rewrite Hle.
    rewrite slice_app by (unfold CURSOR_HEADER_BYTES, STREAM_ID_BYTES; lia).
    rewrite slice_app by (unfold CURSOR_HEADER_BYTES, STREAM_ID_BYTES; lia).
    rewrite <-H0, <-H1. destruct body as [|x [|y body]]; [simpl in Hl; lia..|].
    cbn [nth]. do 2 f_equal. unfold slice. change (drop 2 (x :: y :: body)) with body.
    apply firstn_all2. simpl. lia.
Qed.

Lemma data_length e : valid_envelope e ->
  str_len (encode_envelope blake3 encode e)
  = (4 * (Z.of_nat MIN_CURSOR_BYTES + len (envelope_payload e)) + 2) / 3.
Proof.
  intros He. unfold encode_envelope. rewrite encode_length.
  destruct (envelope_data_ok e He) as [_ Hl]. unfold len at 1. rewrite Hl. unfold len.
  by rewrite Nat2Z.inj_add.
Qed.

Lemma parse_encode e max : valid_envelope e ->
  str_len (encode_envelope blake3 encode e) <= max -> parse (encode_envelope blake3 encode e) max = Ok e.
Proof.
  intros He Hmax. unfold parse_envelope. pose proof (data_length e He) as Hlen.
  assert (Hp : 0 <= len (envelope_payload e) <= MAX_CURSOR_PAYLOAD_BYTES).
  { destruct He as (_ & _ & _ & ? & _). unfold len in *. lia. }
  unfold MAX_CURSOR_PAYLOAD_BYTES, MIN_CURSOR_BYTES, CURSOR_HEADER_BYTES, STREAM_ID_BYTES,
    CHECKSUM_BYTES in *.
  assert (str_len (encode_envelope blake3 encode e) <= MAX_ENCODED_CURSOR_BYTES
    /\ 0 < str_len (encode_envelope blake3 encode e)) as [Hfit Hpos].
  { rewrite Hlen. unfold MAX_ENCODED_CURSOR_BYTES. Z.to_euclidean_division_equations. lia. }
  rewrite (proj2 (Z.eqb_neq _ _)), (proj2 (Z.ltb_ge _ _)) by lia. cbn [orb].
  destruct (envelope_data_ok e He) as [Hb Hl].
  change MIN_CURSOR_BYTES with (1 + 1 + 8 + 16 + 8)%nat in Hl. unfold encode_envelope at 1.
  rewrite decode_encode by done. rewrite Hl.
  rewrite (proj2 (Nat.ltb_ge _ _)) by lia. cbn [orb].
  rewrite (proj2 (Z.ltb_ge _ _)).
  2: { unfold len in *. rewrite Hl. lia. }
  rewrite bool_decide_eq_true_2 by done. cbn [orb negb].
  assert (Hbody : length (envelope_bytes e) = (26 + length (envelope_payload e))%nat).
  { destruct He as (_ & Hid & _). by rewrite envelope_bytes_length. }
  replace (_ + _ - 8)%nat with (length (envelope_bytes e)) by lia.
  rewrite take_app_length, drop_app_length, bool_decide_eq_true_2 by done. cbn [negb].
  destruct (envelope_fields e He) as (H0 & H1 & Hg & Hi & Hpl).
  assert (Hs : forall a b, (b <= length (envelope_bytes e))%nat ->
    slice (envelope_bytes e ++ checksum (envelope_bytes e)) a b = slice (envelope_bytes e) a b).
  { intros a b Hab. unfold slice. destruct (decide (a <= length (envelope_bytes e))%nat).
    - rewrite drop_app_le by done. rewrite take_app_le; [done|]. rewrite length_drop. lia.
    - replace (b - a)%nat with 0%nat by lia. done. }
  rewrite !app_nth1, H0, H1, !Hs, Hg by lia. rewrite Z.eqb_refl, parse_kind_byte. cbn [negb result_bind].
  unfold STREAM_ID_BYTES in Hi. rewrite Hi.
  change (1 + 1 + 8 + 16)%nat with CURSOR_HEADER_BYTES. rewrite Hpl. by destruct e.
Qed.

Lemma parse_inv s max e : parse s max = Ok e ->
  valid_envelope e /\ s = encode_envelope blake3 encode e /\ str_len s <= max.
Proof.
  unfold parse_envelope. destruct (_ || _) eqn:Hlen; [done|].
  destruct (decode s) as [data|] eqn:Hd; [|done].
  destruct (_ || _ || _) eqn:Hdata; [done|].
  destruct (negb (bool_decide (drop _ _ = _))) eqn:Hsum; [done|].
  destruct (negb (_ =? CURSOR_VERSION)) eqn:Hver; [done|].
  destruct (parse_kind _) as [k|] eqn:Hk; [|done]. cbn [result_bind]. intros He.
  apply (f_equal (fun r => match r with Ok x => x | Err _ => e end)) in He. cbv beta iota in He.
  apply parse_kind_inv in Hk. bool_to_prop. rewrite bool_decide_eq_true in *.
  set (start := (length data - CHECKSUM_BYTES)%nat) in *. set (body := take start data) in *.
  assert (Hbytes : Forall is_byte data) by by eapply decode_bytes.
  unfold MIN_CURSOR_BYTES in *.
  assert (Hbl : length body = start) by (subst body; rewrite length_take; lia).
  assert (Hstart : (CURSOR_HEADER_BYTES <= start)%nat) by lia.
  assert (Hs : forall a b, (b <= start)%nat -> slice data a b = slice body a b).
  { intros a b Hab. subst body. unfold slice. rewrite skipn_firstn_comm, take_take.
    f_equal. lia. }
  assert (Hn : forall i, (i < start)%nat -> nth i data 0 = nth i body 0).
  { intros i Hi. rewrite <-(take_drop start data). fold body. rewrite app_nth1; [done|lia]. }
  pose proof (body_split body k) as Hsplit. cbv zeta in Hsplit.
  rewrite !Hs, <-Hbl in He.
  2-4: unfold CURSOR_HEADER_BYTES, STREAM_ID_BYTES in *; lia.
  rewrite He in Hsplit. destruct Hsplit as [Hval Hbody].
  - by apply Forall_take.
  - lia.
  - unfold len in *. lia.
  - rewrite <-Hn; [done|]. unfold CURSOR_HEADER_BYTES in *. lia.
  - rewrite <-Hn; [done|]. unfold CURSOR_HEADER_BYTES in *. lia.
  - split; [done|]. split; [|lia]. unfold encode_envelope. rewrite Hbody.
    rewrite <-Hsum. subst body. by rewrite take_drop.
Qed.

Lemma parse_iff s max e : parse s max = Ok e <->
  valid_envelope e /\ s = encode_envelope blake3 encode e /\ str_len s <= max.
Proof.
  split; [apply parse_inv|]. intros (He & -> & Hmax). by apply parse_encode.
Qed.

Lemma parse_stale s max : stale_only (parse s max).
Proof.
  unfold parse_envelope. repeat case_match; auto using parse_kind_stale with stale.
Qed.

(** ** Offset cursors *)

(** What [ContinuationCursor] holds, at its widths. *)
Definition valid_continuation (c : ContinuationCursor) : Prop :=
  is_u64 (cursor_generation c) /\ length (cursor_stream_id c) = STREAM_ID_BYTES
  /\ Forall is_byte (cursor_stream_id c) /\ is_u64 (cursor_position c).

Definition continuation_envelope (c : ContinuationCursor) : CursorEnvelope :=
  mk_envelope (cursor_kind c) (cursor_generation c) (cursor_stream_id c) (le64 (cursor_position c)).

Lemma continuation_envelope_valid c : valid_continuation c -> valid_envelope (continuation_envelope c).
Proof.
  intros (Hg & Hl & Hb & Hp). unfold valid_envelope, continuation_envelope, len. cbn -[le64].
  rewrite le64_length. do 4 (split; [done|]). apply le_bytes_bytes.
Qed.

Lemma encode_continuation_eq c :
  encode_continuation blake3 encode c = Ok (encode_envelope blake3 encode (continuation_envelope c)).
Proof. done. Qed.

Lemma continuation_length c : valid_continuation c ->
  str_len (encode_envelope blake3 encode (continuation_envelope c)) = ENCODED_CURSOR_BYTES.
Proof. intros Hc. by rewrite data_length by by apply continuation_envelope_valid. Qed.
End Envelope.

(** ** Stream identities *)

(** The type of a field, which its name determines. *)
Inductive field_type := TBytes | TOptional | TBool | TUsize | TOptionalUsize | TStrings.
Definition type_of (v : stream_value) : field_type :=
  match v with
  | FieldBytes _ => TBytes
  | FieldOptional _ => TOptional
  | FieldBool _ => TBool
  | FieldUsize _ => TUsize
  | FieldOptionalUsize _ => TOptionalUsize
  | FieldStrings _ => TStrings
  end.

(** Lengths and numbers fit the machine. *)
Definition value_fits (v : stream_value) : Prop :=
  match v with
  | FieldBytes b => is_u64 (len b)
  | FieldOptional o => for_some (fun b => is_u64 (len b)) o
  | FieldBool _ => True
  | FieldUsize n => is_u64 n
  | FieldOptionalUsize o => for_some is_u64 o
  | FieldStrings l => is_u64 (len l) /\ Forall (fun b => is_u64 (len b)) l
  end.
Definition well_typed (schema : bytes -> field_type) (fields : list (bytes * stream_value)) : Prop :=
  Forall (fun '(name, value) => is_u64 (len name) /\ value_fits value /\ type_of value = schema name)
    fields.

(** [injection] would compute through the digits. *)
Lemma cons_inj (a b : Z) (l m : bytes) : a :: l = b :: m -> a = b /\ l = m.
Proof. by intros [= -> ->]. Qed.

Lemma strings_inj l1 l2 r1 r2 : length l1 = length l2 ->
  Forall (fun b => is_u64 (len b)) l1 -> Forall (fun b => is_u64 (len b)) l2 ->
  concat (map framed l1) ++ r1 = concat (map framed l2) ++ r2 -> l1 = l2 /\ r1 = r2.
Proof.
  revert l2. induction l1 as [|a l1 IH]; intros [|b l2] Hl H1 H2; try done. cbn [map concat].
  rewrite <-!app_assoc. intros He. apply Forall_cons in H1 as [Ha H1].
  apply Forall_cons in H2 as [Hb H2]. apply framed_inj in He as [-> He]; [|done..].
  injection Hl as Hl. by apply IH in He as [-> ->].
Qed.

(** The bytes of a value are a prefix code among the values of its type. *)
Lemma value_material_inj v1 v2 r1 r2 : type_of v1 = type_of v2 -> value_fits v1 -> value_fits v2 ->
  value_material v1 ++ r1 = value_material v2 ++ r2 -> v1 = v2 /\ r1 = r2.
Proof.
  unfold for_some.
  destruct v1 as [a|[a|]|a|a|[a|]|a], v2 as [b|[b|]|b|b|[b|]|b]; try done; intros _ H1 H2;
    cbn [value_material app value_fits] in *; intros He.
  - apply framed_inj in He as [-> ->]; done.
  - apply cons_inj in He as [_ He]. apply framed_inj in He as [-> ->]; auto.
  - by apply cons_inj in He as [_ ->].
  - apply cons_inj in He as [Hab ->]. by destruct a, b.
  - apply le64_app_inj in He as [-> ->]; done.
  - apply cons_inj in He as [_ He]. apply le64_app_inj in He as [-> ->]; auto.
  - by apply cons_inj in He as [_ ->].
  - rewrite <-!app_assoc in He. destruct H1 as [Hl1 H1], H2 as [Hl2 H2].
    apply le64_app_inj in He as [Hl He]; [|done..]. apply strings_inj in He as [-> ->]; [done| |done..].
    unfold len in Hl. lia.
Qed.

Lemma fields_inj schema f1 f2 : well_typed schema f1 -> well_typed schema f2 ->
  concat (map (fun '(name, value) => framed name ++ value_material value) f1)
  = concat (map (fun '(name, value) => framed name ++ value_material value) f2) -> f1 = f2.
Proof.
  assert (Hpos : forall (x y : bytes), framed x ++ y <> []).
  { intros x y He. pose proof (framed_length x) as Hl. apply (f_equal length) in He.
    rewrite length_app in He. simpl in He. lia. }
  intros H1. revert f2. induction H1 as [|[n1 v1] f1 (Hn1 & Hv1 & Ht1) H1 IH];
    intros [|[n2 v2] f2] H2; cbn [map concat]; [done|..].
  - rewrite <-app_assoc. intros He. symmetry in He. by apply Hpos in He.
  - rewrite <-app_assoc. intros He. by apply Hpos in He.
  - apply Forall_cons in H2 as [(Hn2 & Hv2 & Ht2) H2]. rewrite <-!app_assoc. intros He.
    apply framed_inj in He as [-> He]; [|done..].
    apply value_material_inj in He as [-> He]; [|congruence|done..]. f_equal. by apply IH.
Qed.

Lemma stream_material_inj schema k1 k2 f1 f2 : well_typed schema f1 -> well_typed schema f2 ->
  stream_material k1 f1 = stream_material k2 f2 -> k1 = k2 /\ f1 = f2.
Proof.
  intros H1 H2 He. unfold stream_material in He. apply app_inv_head in He.
  cbn [app] in He. apply cons_inj in He as [Hk He].
  split; [|by eapply fields_inj]. by destruct k1, k2.
Qed.

(** ** Base64 of the URL-safe alphabet, as a concrete encoder *)
Module Base64Url.
Definition alphabet : list Ascii.ascii :=
  String.list_ascii_of_string "ABCDEFGHIJKLMNOPQRSTUVWXYZabcdefghijklmnopqrstuvwxyz0123456789-_".
Definition digit (d : Z) : Ascii.ascii := nth (Z.to_nat d) alphabet Ascii.zero.
Fixpoint index_from (l : list Ascii.ascii) (i : Z) (c : Ascii.ascii) : option Z :=
  match l with
  | [] => None
  | a :: l => if bool_decide (a = c) then Some i else index_from l (i + 1) c
  end.
Definition value (c : Ascii.ascii) : option Z := index_from alphabet 0 c.

Fixpoint encode_chars (b : bytes) : list Ascii.ascii :=
  match b with
  | x :: y :: z :: b =>
    digit (x / 4) :: digit (x mod 4 * 16 + y / 16) :: digit (y mod 16 * 4 + z / 64)
    :: digit (z mod 64) :: encode_chars b
  | [x; y] => [digit (x / 4); digit (x mod 4 * 16 + y / 16); digit (y mod 16 * 4)]
  | [x] => [digit (x / 4); digit (x mod 4 * 16)]
  | [] => []
  end.
Fixpoint decode_digits (d : list Z) : option bytes :=
  match d with
  | p :: q :: r :: s :: d =>
    rest ← decode_digits d; Some (p * 4 + q / 16 :: q mod 16 * 16 + r / 4 :: r mod 4 * 64 + s :: rest)
  | [p; q; r] => Some [p * 4 + q / 16; q mod 16 * 16 + r / 4]
  | [p; q] => Some [p * 4 + q / 16]
  | [_] => None
  | [] => Some []
  end.
Definition encode (b : bytes) : string := String.string_of_list_ascii (encode_chars b).
Definition decode (s : string) : option bytes :=
  digits ← mapM value (String.list_ascii_of_string s); decode_digits digits.

Definition is_digit (d : Z) : Prop := 0 <= d < 64.

Lemma value_digit d : is_digit d -> value (digit d) = Some d.
Proof.
  unfold is_digit. intros Hd.
  assert (Hall : forallb (fun n => bool_decide (value (digit (Z.of_nat n)) = Some (Z.of_nat n)))
    (seq 0 64) = true) by (vm_compute; reflexivity).
  rewrite forallb_forall in Hall. specialize (Hall (Z.to_nat d)).
  rewrite bool_decide_eq_true, Z2Nat.id in Hall by lia. apply Hall, in_seq. lia.
Qed.

Lemma index_from_bound l i c d : index_from l i c = Some d -> i <= d < i + len l.
Proof.
  revert i. unfold len. induction l as [|a l IH]; intros i; simpl; [done|].
  destruct (bool_decide_reflect (a = c)); [intros [= <-]; lia|]. intros H. apply IH in H. lia.
Qed.
Lemma value_bound c d : value c = Some d -> is_digit d.
Proof. intros H. apply index_from_bound in H. exact H. Qed.

(** Induction three bytes, or four digits, at a time. *)
Lemma by_length {A} (P : list A -> Prop) :
  (forall l, (forall m, (length m < length l)%nat -> P m) -> P l) -> forall l, P l.
Proof. intros H l. by apply (induction_ltof1 _ (@length A) P). Qed.

Lemma decode_encode_chars b : Forall is_byte b ->
  exists d, mapM value (encode_chars b) = Some d /\ decode_digits d = Some b.
Proof.
  induction b as [b IH] using by_length. intros Hb.
  destruct b as [|x [|y [|z b]]]; repeat match goal with
    H : Forall _ (_ :: _) |- _ => apply Forall_cons in H as [? H] end; unfold is_byte in *.
  - by exists [].
  - cbn [encode_chars mapM]. rewrite !value_digit by (unfold is_digit; Z.to_euclidean_division_equations; lia).
    eexists. split; [done|]. cbn [decode_digits]. do 2 f_equal. Z.to_euclidean_division_equations; lia.
  - cbn [encode_chars mapM]. rewrite !value_digit by (unfold is_digit; Z.to_euclidean_division_equations; lia).
    eexists. split; [done|]. cbn [decode_digits]. do 2 f_equal; [|f_equal];
    Z.to_euclidean_division_equations; lia.
  - destruct (IH b) as (d & Hm & Hd); [simpl; lia|done|].
    cbn [encode_chars mapM]. rewrite !value_digit by (unfold is_digit; Z.to_euclidean_division_equations; lia).
    cbn. rewrite Hm. eexists. split; [done|]. cbn [decode_digits]. rewrite Hd. cbn.
    do 2 f_equal; [|f_equal; [|f_equal]]; Z.to_euclidean_division_equations; lia.
Qed.

Lemma encode_chars_length b : Z.of_nat (length (encode_chars b)) = (4 * len b + 2) / 3.
Proof.
  unfold len. induction b as [b IH] using by_length. destruct b as [|x [|y [|z b]]]; [done..|].
  cbn [encode_chars length]. specialize (IH b). rewrite !Nat2Z.inj_succ, IH by (simpl; lia).
  Z.to_euclidean_division_equations; lia.
Qed.

Lemma decode_digits_bytes d b : Forall is_digit d -> decode_digits d = Some b -> Forall is_byte b.
Proof.
  revert b. induction d as [d IH] using by_length. intros b Hd.
  destruct d as [|p [|q [|r [|s d]]]]; repeat match goal with
    H : Forall _ (_ :: _) |- _ => apply Forall_cons in H as [? H] end; cbn [decode_digits];
    unfold is_digit, is_byte in *; [by intros [= <-]|done|intros [= <-]..|].
  1,2: repeat (constructor; [Z.to_euclidean_division_equations; lia|]); by constructor.
  destruct (decode_digits d) as [rest|] eqn:Hr; [|done]. intros [= <-].
  repeat (constructor; [Z.to_euclidean_division_equations; lia|]).
  by eapply (IH d); [simpl; lia| |].
Qed.
End Base64Url.

#[export] Instance base64_url : Base64 Base64Url.encode Base64Url.decode.
Proof.
  split.
  - intros b Hb. unfold Base64Url.decode, Base64Url.encode.
    rewrite String.list_ascii_of_string_of_list_ascii.
    destruct (Base64Url.decode_encode_chars b Hb) as (d & -> & Hd). exact Hd.
  - intros s b. unfold Base64Url.decode.
    destruct (mapM _ _) as [d|] eqn:Hm; [|done]. cbn. apply Base64Url.decode_digits_bytes.
    apply mapM_Some in Hm. clear -Hm. induction Hm; constructor; [by eapply Base64Url.value_bound|done].
  - intros b. unfold str_len, Base64Url.encode. rewrite <-Base64Url.encode_chars_length. f_equal.
    generalize (Base64Url.encode_chars b). intros l. induction l; simpl; congruence.
Qed.

(** ** Properties *)

(** The payload of a read fits the cursor with room to spare. *)
Lemma fingerprint_bytes o : for_some is_fingerprint o ->
  (length (write_optional id o) <= 33)%nat /\ Forall is_byte (write_optional id o).
Proof.
  destruct o as [v|]; intros Hv; simpl; [|by repeat constructor].
  destruct (Hv v eq_refl) as [Hl Hx]. unfold id. split; [rewrite Hl; unfold CONTENT_FINGERPRINT_HEX_LEN; lia|].
  constructor; [done|]. apply Forall_forall. intros x Hin. rewrite forallb_forall in Hx.
  specialize (Hx x (proj1 (list_elem_of_In _ _) Hin)). unfold is_lower_hex, is_byte in *.
  bool_to_prop. destruct Hx as [Hx | Hx]; bool_to_prop; lia.
Qed.

Lemma optional_le_bytes n o :
  (length (write_optional (le_bytes n) o) <= S n)%nat /\ Forall is_byte (write_optional (le_bytes n) o).
Proof.
  destruct o as [v|]; simpl; [|split; [lia|by repeat constructor]].
  rewrite le_bytes_length. split; [done|]. constructor; [done|]. apply le_bytes_bytes.
Qed.

Lemma state_bytes_ok s : fingerprints_ok s ->
  (length (state_bytes s) <= 126)%nat /\ Forall is_byte (state_bytes s).
Proof.
  intros [Hf Hp]. apply fingerprint_bytes in Hf as [Hf1 Hf2], Hp as [Hp1 Hp2].
  destruct (optional_le_bytes 8 (target_end_line s)) as [He1 He2].
  destruct (optional_le_bytes 16 (modified_ns s)) as [Hm1 Hm2].
  change (le_bytes 8) with le64 in *. unfold state_bytes. split.
  - cbn [length]. rewrite !length_app, !le64_length. lia.
  - constructor; [by destruct (read_policy s)|].
    repeat apply Forall_app_2; try done; apply le_bytes_bytes.
Qed.

Lemma encode_read_ok blake3 encode generation id s cursor :
  encode_read_cursor blake3 encode generation id s = Ok cursor <->
  validate_read_state s = Ok () /\ fingerprints_ok s
  /\ cursor = encode_envelope blake3 encode (mk_envelope KindRead generation id (state_bytes s)).
Proof.
  unfold encode_read_cursor. destruct (validate_read_state s) as [[]|] eqn:Hv; cbn [result_bind].
  2: { split; [done|by intros [? _]]. }
  pose proof (read_payload_ok s) as Hp. destruct (read_payload s) as [p|] eqn:He; cbn [result_bind].
  - destruct (proj1 (Hp p) eq_refl) as [Hf ->]. destruct (state_bytes_ok s Hf) as [Hl _].
    unfold new_envelope. rewrite (proj2 (Z.ltb_ge _ _)); cbn [result_bind].
    + split; [by intros [= <-]|by intros (_ & _ & ->)].
    + unfold MAX_CURSOR_PAYLOAD_BYTES, len. lia.
  - split; [done|]. intros (_ & Hf & _). by pose proof (proj2 (Hp _) (conj Hf eq_refl)).
Qed.

Lemma payload_for_ok e kind generation id p : payload_for e kind generation id = Ok p <->
  envelope_kind e = kind /\ envelope_generation e = generation /\ envelope_stream_id e = id
  /\ p = envelope_payload e.
Proof.
  destruct e as [k g i q]. unfold payload_for. cbn.
  destruct (_ || _ || _) eqn:H; bool_to_prop.
  - split; [done|]. intros (-> & -> & -> & ->).
    rewrite !bool_decide_eq_true_2, Z.eqb_refl in H by done. by destruct H.
  - rewrite bool_decide_eq_true in *. split; [by intros [= ->]|by intros (_ & _ & _ & ->)].
Qed.

Lemma validate_read_cursor_ok e generation id : validate_read_cursor e generation id = Ok () <->
  envelope_kind e = KindRead /\ envelope_generation e = generation /\ envelope_stream_id e = id.
Proof.
  unfold validate_read_cursor. pose proof (payload_for_ok e KindRead generation id) as H.
  destruct (payload_for _ _ _ _) as [p|]; cbn [result_bind].
  - by destruct (proj1 (H p) eq_refl) as (-> & -> & -> & _).
  - split; [done|]. intros (H1 & H2 & H3). by pose proof (proj2 (H _) (conj H1 (conj H2 (conj H3 eq_refl)))).
Qed.

Lemma decode_read_eq blake3 encode decode cursor :
  decode_read_cursor blake3 encode decode cursor
  = result_bind (parse_envelope blake3 encode decode cursor MAX_READ_CURSOR_BYTES)
      (fun e => result_bind (decode_read_state (envelope_payload e)) (fun s => Ok (e, s))).
Proof.
  unfold decode_read_cursor. destruct (parse_envelope _ _ _ _ _) as [e|]; [|done]. cbn [result_bind].
  by rewrite (proj2 (payload_for_ok e _ _ _ _) (conj eq_refl (conj eq_refl (conj eq_refl eq_refl)))).
Qed.

(** C36: a continuation is canonical.  An envelope parses exactly when it is the
    encoding of a well-formed envelope that fits the caller's bound, so each
    envelope has one encoding and nothing else is accepted; the offset cursor
    built on it likewise is exactly what [encode] prints, always of
    [ENCODED_CURSOR_BYTES]; every refusal is [StaleCursor]; and the position is
    released only for the kind, generation and stream it was issued for. *)
Theorem continuation_cursor_canonical blake3 encode decode
    `{!Digest32 blake3} `{!Base64 encode decode} :
  (forall s max e, parse_envelope blake3 encode decode s max = Ok e
    <-> valid_envelope e /\ s = encode_envelope blake3 encode e /\ str_len s <= max)
  /\ (forall s max, stale_only (parse_envelope blake3 encode decode s max))
  /\ (forall s c, parse_continuation blake3 encode decode s = Ok c
    <-> valid_continuation c /\ encode_continuation blake3 encode c = Ok s)
  /\ (forall s, stale_only (parse_continuation blake3 encode decode s))
  /\ (forall c kind generation id p, position_for c kind generation id = Ok p
    <-> cursor_kind c = kind /\ cursor_generation c = generation /\ cursor_stream_id c = id
        /\ p = cursor_position c).
Proof.
  split; [apply parse_iff; done|]. split; [apply parse_stale|].
  split; [|split].
  - intros s c. rewrite encode_continuation_eq. unfold parse_continuation. split.
    + destruct (negb _) eqn:Hlen; [done|].
      destruct (parse_envelope _ _ _ _ _) as [e|] eqn:Hp; [|done].
      apply parse_iff in Hp as ((Hg & Hl & Hi & Hn & Hb) & -> & _); [|done..].
      cbn [result_bind]. destruct (negb _) eqn:H8 in |- *; [done|]. bool_to_prop.
      intros [= <-]. unfold continuation_envelope. cbn -[le64].
      pose proof (le_bytes_of _ Hb) as Hle. pose proof (of_le_bytes_bound _ Hb) as Hbound.
      unfold len in Hbound. rewrite H8 in Hle, Hbound.
      change (256 ^ Z.of_nat 8) with 18446744073709551616 in Hbound. split.
      * unfold valid_continuation, is_u64, U64_MAX. cbn -[of_le_bytes].
        do 3 (split; [done|]). lia.
      * unfold le64. rewrite Hle. by destruct e.
    + intros [Hc [= <-]]. rewrite (continuation_length blake3 encode decode), Z.eqb_refl by done. cbn [negb].
      rewrite (proj2 (parse_iff blake3 encode decode _ _ (continuation_envelope c))).
      2: { split; [by apply continuation_envelope_valid|]. split; [done|].
           by rewrite (continuation_length blake3 encode decode) by done. }
      cbn [result_bind continuation_envelope envelope_payload]. rewrite le64_length. cbn -[of_le_bytes le64].
      destruct Hc as (_ & _ & _ & Hpos). unfold le64. rewrite of_le_bytes_le; [by destruct c|].
      change (256 ^ Z.of_nat 8) with 18446744073709551616. unfold is_u64, U64_MAX in Hpos. lia.
  - intros s. unfold parse_continuation. apply stale_if; [apply stale_err|].
    apply stale_bind; [apply parse_stale|auto with stale].
  - intros [k g i q] kind generation id p.
    pose proof (payload_for_ok (mk_envelope k g i []) kind generation id []) as H.
    unfold position_for, payload_for in *. cbn in *.
    destruct (_ || _ || _); (split; [intros [= <-]|intros (H1 & H2 & H3 & ->)]).
    + by pose proof (proj2 H (conj H1 (conj H2 (conj H3 eq_refl)))).
    + by destruct (proj1 H eq_refl) as (-> & -> & -> & _).
    + done.
Qed.

(** A read continues where it stopped.  What [encode_read_cursor] issues,
    [decode_read_cursor] gives back, bound to the generation and stream it was
    issued for; encoding fails only on an inconsistent state; whatever decodes
    is a consistent state whose re-encoding is the same string; and a refusal is
    [StaleCursor]. *)
Theorem read_cursor_roundtrip blake3 encode decode
    `{!Digest32 blake3} `{!Base64 encode decode} :
  (forall generation id s, is_u64 generation -> length id = STREAM_ID_BYTES -> Forall is_byte id ->
    typed_read_state s -> validate_read_state s = Ok () -> fingerprints_ok s ->
    exists cursor e, encode_read_cursor blake3 encode generation id s = Ok cursor
      /\ decode_read_cursor blake3 encode decode cursor = Ok (e, s)
      /\ forall generation' id', validate_read_cursor e generation' id' = Ok ()
           <-> generation' = generation /\ id' = id)
  /\ (forall generation id s cursor, encode_read_cursor blake3 encode generation id s = Ok cursor ->
       validate_read_state s = Ok () /\ fingerprints_ok s)
  /\ (forall cursor e s generation id, decode_read_cursor blake3 encode decode cursor = Ok (e, s) ->
       typed_read_state s /\ validate_read_state s = Ok () /\ fingerprints_ok s
       /\ (validate_read_cursor e generation id = Ok () ->
           encode_read_cursor blake3 encode generation id s = Ok cursor))
  /\ (forall cursor, stale_only (decode_read_cursor blake3 encode decode cursor)).
Proof.
  split; [|split; [|split]].
  - intros g i s Hg Hil Hib Ht Hv Hf. destruct (state_bytes_ok s Hf) as [Hl Hb].
    set (e := mk_envelope KindRead g i (state_bytes s)).
    assert (He : valid_envelope e).
    { unfold valid_envelope, e, MAX_CURSOR_PAYLOAD_BYTES, len. cbn -[state_bytes].
      do 3 (split; [done|]). split; [lia|done]. }
    exists (encode_envelope blake3 encode e), e. split; [|split].
    + by apply encode_read_ok.
    + rewrite decode_read_eq, (proj2 (parse_iff blake3 encode decode _ _ e)); cbn [result_bind].
      * cbn [e envelope_payload]. by rewrite decode_state_bytes.
      * split; [done|]. split; [done|]. rewrite (data_length blake3 encode decode) by done.
        unfold MIN_CURSOR_BYTES, CURSOR_HEADER_BYTES, STREAM_ID_BYTES, CHECKSUM_BYTES,
          MAX_READ_CURSOR_BYTES, len. cbn [e envelope_payload].
        Z.to_euclidean_division_equations. lia.
    + intros g' i'. rewrite validate_read_cursor_ok. cbn. split; [by intros (_ & -> & ->)|by intros [-> ->]].
  - intros g i s cursor H. apply encode_read_ok in H. tauto.
  - intros cursor e s g i. rewrite decode_read_eq.
    destruct (parse_envelope _ _ _ _ _) as [e'|] eqn:Hp; [|done]. cbn [result_bind].
    destruct (decode_read_state _) as [s'|] eqn:Hs; [|done]. cbn [result_bind]. intros [= -> ->].
    apply parse_iff in Hp as (He & -> & _); [|done..].
    apply decode_state_inv in Hs as (Ht & Hf & Hv & Hb); [|apply He].
    split; [done|]. split; [done|]. split; [done|]. intros (Hk & Hg & Hi)%validate_read_cursor_ok.
    apply encode_read_ok. split; [done|]. split; [done|]. rewrite <-Hb, <-Hk, <-Hg, <-Hi.
    by destruct e.
  - intros cursor. rewrite decode_read_eq. apply stale_bind; [apply parse_stale|].
    intros e. apply stale_bind; [apply decode_state_stale|done].
Qed.

(** A stream identity names one request.  Among requests whose fields carry
    the types their names announce, equal identities mean the same kind and the
    same fields in the same order, unless two different byte streams agree on
    the first sixteen bytes of their BLAKE3 digests: no concatenation, optional
    or list field lets one request's bytes read as another's. *)
Theorem stream_identity_separates blake3 schema kind1 kind2 fields1 fields2 :
  well_typed schema fields1 -> well_typed schema fields2 ->
  stream_id blake3 kind1 fields1 = stream_id blake3 kind2 fields2 ->
  (kind1 = kind2 /\ fields1 = fields2)
  \/ exists m1 m2, m1 <> m2 /\ take STREAM_ID_BYTES (blake3 m1) = take STREAM_ID_BYTES (blake3 m2).
Proof.
  intros H1 H2 He. destruct (decide (stream_material kind1 fields1 = stream_material kind2 fields2))
    as [Hm|Hm].
  - left. by eapply stream_material_inj.
  - right. by eexists _, _.
Qed.

(** A digest that keeps the checks alive: the length and the sum of the bytes. *)
Definition demo_digest (b : bytes) : bytes :=
  le_bytes 32 (fold_left (fun acc x => (acc * 257 + x + 1) mod 256 ^ 32) b (len b)).
#[export] Instance demo_digest_32 : Digest32 demo_digest.
Proof. split; intros b; [apply le_bytes_length|apply le_bytes_bytes]. Qed.

Definition demo_stream : bytes := stream_id demo_digest KindRead
  [(string_bytes "path", FieldBytes (string_bytes "src/lib.rs"))].
Definition demo_continuation : ContinuationCursor := mk_continuation KindSearch 7 demo_stream 40.
Definition demo_read_state : ReadCursorState :=
  mk_read_state 1 (Some 900) 201 5120 None (Some (repeat 97 32)) Bounded 65536 None.

Lemma demo_stream_ok : length demo_stream = STREAM_ID_BYTES /\ Forall is_byte demo_stream.
Proof.
  unfold demo_stream, stream_id. split; [by rewrite length_take, digest_length|].
  apply Forall_take, digest_bytes.
Qed.

Lemma continuation_cursor_canonical_witness :
  exists s, encode_continuation demo_digest Base64Url.encode demo_continuation = Ok s
    /\ parse_continuation demo_digest Base64Url.encode Base64Url.decode s = Ok demo_continuation
    /\ parse_continuation demo_digest Base64Url.encode Base64Url.decode (s ++ "A")%string
       = Err StaleCursor.
Proof.
  eexists. split; [reflexivity|]. split; [|vm_compute; reflexivity].
  apply (continuation_cursor_canonical demo_digest Base64Url.encode Base64Url.decode).
  split; [|reflexivity]. destruct demo_stream_ok as [H1 H2].
  split; [unfold is_u64, U64_MAX; simpl; lia|]. split; [exact H1|]. split; [exact H2|].
  unfold is_u64, U64_MAX; simpl; lia.
Defined.

Lemma read_cursor_roundtrip_witness :
  exists cursor e, encode_read_cursor demo_digest Base64Url.encode 7 demo_stream demo_read_state = Ok cursor
    /\ decode_read_cursor demo_digest Base64Url.encode Base64Url.decode cursor = Ok (e, demo_read_state)
    /\ forall generation' id', validate_read_cursor e generation' id' = Ok ()
         <-> generation' = 7 /\ id' = demo_stream.
Proof.
  destruct demo_stream_ok as [H1 H2].
  refine (proj1 (read_cursor_roundtrip demo_digest Base64Url.encode Base64Url.decode) 7 demo_stream
    demo_read_state _ H1 H2 _ _ _).
  - unfold is_u64, U64_MAX; simpl; lia.
  - unfold typed_read_state, for_some, is_u64, U64_MAX, demo_read_state. simpl.
    split; [lia|]. split; [intros ? [= <-]; lia|]. split; [lia|]. split; [lia|]. by split; [lia|].
  - reflexivity.
  - split; intros v Hv; [discriminate|]. injection Hv as <-. split; reflexivity.
Defined.

Lemma stream_identity_separates_witness : exists schema f1 f2,
  well_typed schema f1 /\ well_typed schema f2
  /\ ((KindRead = KindRead /\ f1 = f2) \/ exists m1 m2, m1 <> m2 /\
       take STREAM_ID_BYTES (demo_digest m1) = take STREAM_ID_BYTES (demo_digest m2)).
Proof.
  set (f := [(string_bytes "a", FieldOptional None); (string_bytes "b", FieldOptional (Some [0]))]).
  exists (fun _ => TOptional), f, f.
  assert (Hf : well_typed (fun _ => TOptional) f).
  { assert (Hu : forall n, 0 <= n <= 1 -> is_u64 n) by (unfold is_u64, U64_MAX; lia).
    apply Forall_cons. split; [|apply Forall_singleton].
    - split; [apply Hu; by split; vm_compute|]. by split.
    - split; [apply Hu; by split; vm_compute|]. split; [|done]. intros v [= <-]. apply Hu. by split; vm_compute. }
  split; [exact Hf|]. split; [exact Hf|].
  exact (stream_identity_separates demo_digest (fun _ => TOptional) KindRead KindRead f f Hf Hf eq_refl).
Defined.
