(* ===== verification/RegexPlan.v ===== *)
(** * Regex planning

    [src/src/services/search/regex_plan.rs] and
    [src/src/symbol_identity.rs]: the expression over index terms that every
    match of a regex, or of a literal searched exhaustively, must satisfy.  The
    trigram index is asked for the chunks that satisfy it, and only those are
    verified with the regex engine, so an expression that a match does not
    satisfy would silently lose results.

    Parameters: the high-level syntax tree is a data type of the regex-syntax
    crate, of which only the constructors the code inspects carry data; the
    parser, the literal extractor, simple case folding, the regex engine and
    SQLite's FTS5 are functions of which the code relies on the laws stated in
    the classes [RegexEngine] and [TrigramFts]. *)

From S2P Require Import Prelude Chars Bytes Order.
Open Scope Z_scope.

Definition MAX_REGEX_PLAN_NODES : Z := 256.
Definition MAX_REGEX_PLAN_TERMS : Z := 32.
Definition MAX_REGEX_PLAN_TERM_BYTES : Z := 256.
Definition MAX_LITERAL_IDENTIFIER_PLAN_BYTES : Z := 4 * 1024.
Definition MIN_LITERAL_IDENTIFIER_BYTES : Z := 12.
Definition MAX_CASE_FOLD_LITERAL_VARIANTS : Z := 32.

(** ** The syntax tree: [regex_syntax::hir::HirKind] *)
Inductive Hir :=
| HirEmpty
| HirLiteral (literal : bytes)
| HirClass
| HirLook
| HirRepetition (min : Z) (max : option Z) (sub : Hir)
| HirCapture (sub : Hir)
| HirConcat (expressions : list Hir)
| HirAlternation (expressions : list Hir).

(** ** The candidate expression *)
Inductive RegexCandidateExpr :=
| Term (term : str)
| All (expressions : list RegexCandidateExpr)
| Any (expressions : list RegexCandidateExpr).

(** [str::replace] of a character by two of it, and the quoting of an FTS phrase. *)
Definition QUOTE : Z := 34.
Definition fts_quote (value : str) : str :=
  QUOTE :: concat (map (fun c => if c =? QUOTE then [QUOTE; QUOTE] else [c]) value) ++ [QUOTE].

(** [<[String]>::join] with a separator of several characters. *)
Fixpoint join_str (sep : str) (parts : list str) : str :=
  match parts with
  | [] => []
  | p :: ps => match ps with [] => p | _ => p ++ sep ++ join_str sep ps end
  end.

Fixpoint fts_query (e : RegexCandidateExpr) : str :=
  match e with
  | Term term => fts_quote term
  | All expressions => join_str (lit " AND ") (map (fun e => lit "(" ++ fts_query e ++ lit ")") expressions)
  | Any expressions => join_str (lit " OR ") (map (fun e => lit "(" ++ fts_query e ++ lit ")") expressions)
  end.

(** [combine_candidate_expr]. *)
Definition combine_candidate_expr (expressions : list RegexCandidateExpr) (all : bool)
    : option RegexCandidateExpr :=
  match expressions with
  | [] => None
  | [e] => Some e
  | _ => Some (if all then All expressions else Any expressions)
  end.

(** ** The budget of a plan *)
Inductive RegexPlanBudgetExceeded := ExceededNodes | ExceededTerms | ExceededTermBytes.

Record RegexPlanBudget := mk_plan_budget {
  budget_nodes : Z;
  budget_terms : Z;
  budget_term_bytes : Z
}.

(** Planning threads the budget, which is also reported when it is exceeded. *)
Definition planning (A : Type) : Type :=
  RegexPlanBudget -> (RegexPlanBudgetExceeded + A) * RegexPlanBudget.
Definition planned {A} (a : A) : planning A := fun b => (inr a, b).
Definition plan_bind {A B} (m : planning A) (k : A -> planning B) : planning B := fun b =>
  match m b with
  | (inr a, b) => k a b
  | (inl e, b) => (inl e, b)
  end.
Declare Scope plan_scope.
Notation "'let!' x ':=' m 'in' k" := (plan_bind m (fun x => k))
  (at level 10, x pattern, m at level 100, k at level 200) : plan_scope.
Open Scope plan_scope.

Definition add_term (term : str) : planning () := fun b =>
  let terms := u64_saturating_add (budget_terms b) 1 in
  let term_bytes := u64_saturating_add (budget_term_bytes b) (token_len term) in
  let b := mk_plan_budget (budget_nodes b) terms term_bytes in
  if MAX_REGEX_PLAN_TERMS <? terms then (inl ExceededTerms, b)
  else if MAX_REGEX_PLAN_TERM_BYTES <? term_bytes then (inl ExceededTermBytes, b)
  else (inr (), b).

(** ** Literals *)
Definition is_term_byte (b : Z) : bool := is_ascii_alphanumeric b || (b =? 95).

(** The loop of [literal_candidate_expr] over the pieces of the literal. *)
Fixpoint collect_terms (pieces : list bytes) : planning (list RegexCandidateExpr) :=
  match pieces with
  | [] => planned []
  | piece :: pieces =>
    if (length piece <? 3)%nat then collect_terms pieces
    else match from_utf8 piece with
         | None => collect_terms pieces
         | Some term =>
           let! _ := add_term term in
           let! terms := collect_terms pieces in
           planned (Term term :: terms)
         end
  end.

Definition literal_candidate_expr (literal : bytes) : planning (option RegexCandidateExpr) :=
  let! terms := collect_terms (split_by (fun b => negb (is_term_byte b)) literal) in
  planned (combine_candidate_expr terms true).

(** ** Mandatory literals of a syntax tree *)

(** [for expression in expressions { if let Some(plan) = f(expression)? { push } }] *)
Fixpoint collect_some (f : Hir -> planning (option RegexCandidateExpr)) (es : list Hir)
    : planning (list RegexCandidateExpr) :=
  match es with
  | [] => planned []
  | e :: es =>
    let! plan := f e in
    let! plans := collect_some f es in
    planned (match plan with Some p => p :: plans | None => plans end)
  end.

(** The same loop that returns at the first item without a plan. *)
Fixpoint collect_every {A} (f : A -> planning (option RegexCandidateExpr)) (es : list A)
    : planning (option (list RegexCandidateExpr)) :=
  match es with
  | [] => planned (Some [])
  | e :: es =>
    let! plan := f e in
    match plan with
    | None => planned None
    | Some p =>
      let! plans := collect_every f es in
      planned (match plans with Some ps => Some (p :: ps) | None => None end)
    end
  end.

Fixpoint regex_candidate_expr (hir : Hir) : planning (option RegexCandidateExpr) :=
  match hir with
  | HirLiteral literal => literal_candidate_expr literal
  | HirCapture sub => regex_candidate_expr sub
  | HirRepetition min _ sub => if 0 <? min then regex_candidate_expr sub else planned None
  | HirConcat expressions =>
    let! plans := collect_some regex_candidate_expr expressions in
    planned (combine_candidate_expr plans true)
  | HirAlternation expressions =>
    let! plans := collect_every regex_candidate_expr expressions in
    planned (match plans with Some ps => combine_candidate_expr ps false | None => None end)
  | HirEmpty | HirClass | HirLook => planned None
  end.

(** ** Counting nodes *)
Fixpoint visit_all (visit : Hir -> Z -> RegexPlanBudgetExceeded + Z) (es : list Hir) (nodes : Z)
    : RegexPlanBudgetExceeded + Z :=
  match es with
  | [] => inr nodes
  | e :: es => match visit e nodes with inr nodes => visit_all visit es nodes | inl x => inl x end
  end.

Fixpoint visit (hir : Hir) (nodes : Z) : RegexPlanBudgetExceeded + Z :=
  let nodes := u64_saturating_add nodes 1 in
  if MAX_REGEX_PLAN_NODES <? nodes then inl ExceededNodes
  else match hir with
       | HirCapture sub => visit sub nodes
       | HirRepetition _ _ sub => visit sub nodes
       | HirConcat expressions | HirAlternation expressions => visit_all visit expressions nodes
       | HirEmpty | HirLiteral _ | HirClass | HirLook => inr nodes
       end.

Definition bounded_hir_node_count (hir : Hir) : RegexPlanBudgetExceeded + Z := visit hir 0.

(** ** Plans and decisions *)
Inductive ExtractKind := Prefix | Suffix.
Inductive RegexPlanSource := LiteralIdentifier | MandatoryLiterals | PrefixLiterals | SuffixLiterals.
Inductive RegexPlanFallbackReason :=
| PlanningDisabled | CaseInsensitiveUnicode | HirParseFailed | PlanNodeLimit | PlanTermLimit
| PlanTermBytesLimit | LiteralSequenceUnavailable | LiteralIdentifierIneligible.

Record RegexCandidatePlan := mk_plan {
  expression : RegexCandidateExpr;
  source : RegexPlanSource;
  nodes_visited : Z;
  term_count : Z;
  term_bytes : Z;
  alternative_count : Z;
  min_literal_len : Z
}.
Record RegexPlanDiagnostics := mk_diagnostics {
  fallback_reason : RegexPlanFallbackReason;
  diagnostic_nodes : Z;
  diagnostic_terms : Z;
  diagnostic_term_bytes : Z
}.
Inductive RegexPlanDecision :=
| Planned (plan : RegexCandidatePlan)
| Fallback (diagnostics : RegexPlanDiagnostics).

Definition fallback (reason : RegexPlanFallbackReason) : RegexPlanDecision :=
  Fallback (mk_diagnostics reason 0 0 0).

Definition regex_plan_budget_fallback (error : RegexPlanBudgetExceeded) (b : RegexPlanBudget)
    : RegexPlanDecision :=
  Fallback (mk_diagnostics
    match error with
    | ExceededNodes => PlanNodeLimit
    | ExceededTerms => PlanTermLimit
    | ExceededTermBytes => PlanTermBytesLimit
    end (budget_nodes b) (budget_terms b) (budget_term_bytes b)).

Definition regex_plan_source_order (s : RegexPlanSource) : Z :=
  match s with
  | LiteralIdentifier => 0
  | MandatoryLiterals => 1
  | PrefixLiterals => 2
  | SuffixLiterals => 3
  end.

(** The comparison of [plans.sort_by]: fewer alternatives, then longer
    literals, then more bytes, then the source. *)
Definition plan_key (p : RegexCandidatePlan) : list Z :=
  [alternative_count p; - min_literal_len p; - term_bytes p; regex_plan_source_order (source p)].
Definition plan_le (p q : RegexCandidatePlan) : Prop := key_lt (plan_key q) (plan_key p) = false.
#[export] Instance plan_le_dec : RelDecision plan_le.
Proof. intros p q. unfold plan_le. solve_decision. Defined.

(** [Seq::min_literal_len]. *)
Definition shortest (literals : list bytes) : option Z :=
  match literals with
  | [] => None
  | l :: ls => Some (fold_left (fun n l => Z.min n (len l)) ls (len l))
  end.

(** [CaseFoldLiteralVariants] of symbol_identity.rs. *)
Record CaseFoldLiteralVariants := mk_variants {
  variant_values : list str;
  expanded : bool
}.

Section Planner.
(** [regex_syntax::parse]. *)
Variable parse : str -> option Hir.
(** [Extractor::extract] under the limits of the code, then [Seq::literals]:
    [None] for the sequence that says nothing. *)
Variable extract : ExtractKind -> Hir -> option (list bytes).

Definition extracted_literal_plan (hir : Hir) (nodes : Z) (kind : ExtractKind)
    (source : RegexPlanSource)
    : (RegexPlanBudgetExceeded * RegexPlanBudget) + option RegexCandidatePlan :=
  match extract kind hir with
  | None => inr None
  | Some literals =>
    let min_len := default 0 (shortest literals) in
    if bool_decide (literals = []) then inr None
    else match collect_every literal_candidate_expr literals (mk_plan_budget nodes 0 0) with
         | (inl error, b) => inl (error, b)
         | (inr None, _) => inr None
         | (inr (Some alternatives), b) =>
           match combine_candidate_expr alternatives false with
           | None => inr None
           | Some e => inr (Some (mk_plan e source nodes (budget_terms b) (budget_term_bytes b)
                                    (len alternatives) min_len))
           end
         end
  end.

Definition extracted_regex_candidate_plan (hir : Hir) (nodes : Z) : option RegexPlanDecision :=
  let prefix := extracted_literal_plan hir nodes Prefix PrefixLiterals in
  let suffix := extracted_literal_plan hir nodes Suffix SuffixLiterals in
  let plan_of r := match r with inr (Some plan) => [plan] | _ => [] end in
  let limit_of r := match r with inl (error, b) => Some (regex_plan_budget_fallback error b)
                               | inr _ => None end in
  match merge_sort plan_le (plan_of prefix ++ plan_of suffix) with
  | plan :: _ => Some (Planned plan)
  | [] => match limit_of prefix with Some limit => Some limit | None => limit_of suffix end
  end.

Definition regex_candidate_plan (query : str) (case_sensitive : bool) : RegexPlanDecision :=
  if negb case_sensitive then fallback CaseInsensitiveUnicode
  else match parse query with
  | None => fallback HirParseFailed
  | Some hir =>
    match bounded_hir_node_count hir with
    | inl error =>
      regex_plan_budget_fallback error
        (mk_plan_budget (u64_saturating_add MAX_REGEX_PLAN_NODES 1) 0 0)
    | inr nodes =>
      match regex_candidate_expr hir (mk_plan_budget nodes 0 0) with
      | (inr (Some e), b) =>
        Planned (mk_plan e MandatoryLiterals nodes (budget_terms b) (budget_term_bytes b) 1 0)
      | (inl error, b) => regex_plan_budget_fallback error b
      | (inr None, b) =>
        default
          (Fallback (mk_diagnostics LiteralSequenceUnavailable nodes (budget_terms b)
                       (budget_term_bytes b)))
          (extracted_regex_candidate_plan hir nodes)
      end
    end
  end.

(** ** Literals searched exhaustively *)

(** [ClassUnicode::try_case_fold_simple] of one character: the ranges of the
    characters that simple case folding identifies with it. *)
Variable fold_ranges : Z -> option (list (Z * Z)).

Definition ascii_fold (c : Z) : Z := if c <? 128 then to_ascii_lowercase c else c.

(** [u32::from(start)..=u32::from(end)]. *)
Definition codepoints (range : Z * Z) : list Z :=
  map (fun i => range.1 + Z.of_nat i) (seq 0 (Z.to_nat (range.2 - range.1 + 1))).
Definition is_surrogate (c : Z) : bool := (0xD800 <=? c) && (c <=? 0xDFFF).

(** The alternatives of one character, [None] when a step of the code gives up. *)
Definition fold_choices (c : Z) : option (list Z) :=
  match fold_ranges c with
  | None => None
  | Some ranges =>
    let points := concat (map codepoints ranges) in
    if existsb (fun p => is_surrogate p || (0x10FFFF <? p)) points then None
    else Some (sort_dedup (map ascii_fold points))
  end.

Fixpoint expand_variants (alternatives : Z -> option (list Z)) (value : str) (values : list str)
    : option (list str) :=
  match value with
  | [] => Some values
  | c :: value =>
    match alternatives c with
    | None => None
    | Some choices =>
      if MAX_CASE_FOLD_LITERAL_VARIANTS <? len values * len choices then None
      else expand_variants alternatives value
             (concat (map (fun prefix => map (fun choice => prefix ++ [choice]) choices) values))
    end
  end.

Definition case_fold_literal_variants (value : str) : option CaseFoldLiteralVariants :=
  if forallb (fun c => match fold_choices c with Some _ => true | None => false end) value
  then match expand_variants fold_choices value [[]] with
       | Some values =>
         let values := sort_dedup values in
         Some (mk_variants values (negb (bool_decide (values = [map ascii_fold value]))))
       | None => None
       end
  else None.

(** The loop that turns variants into terms under the byte budget. *)
Fixpoint variant_terms (variants : list str) (done : Z) (bytes : Z)
    : RegexPlanDiagnostics + (list RegexCandidateExpr * Z) :=
  match variants with
  | [] => inr ([], bytes)
  | variant :: variants =>
    let bytes := u64_saturating_add bytes (token_len variant) in
    if MAX_LITERAL_IDENTIFIER_PLAN_BYTES <? bytes
    then inl (mk_diagnostics PlanTermBytesLimit 0 (u64_saturating_add done 1) bytes)
    else match variant_terms variants (done + 1) bytes with
         | inl d => inl d
         | inr (terms, bytes) => inr (Term variant :: terms, bytes)
         end
  end.

Definition is_ascii (c : Z) : bool := c <? 128.
Definition literal_identifier_eligible (exhaustive_text : bool) (query : str) : bool :=
  exhaustive_text && (MIN_LITERAL_IDENTIFIER_BYTES <=? token_len query) && forallb is_ascii query
  && forallb is_term_byte query && existsb is_ascii_alphanumeric query.

Definition literal_identifier_candidate_plan (exhaustive_text : bool) (query : str)
    (case_sensitive : bool) : RegexPlanDecision :=
  if negb (literal_identifier_eligible exhaustive_text query) then fallback LiteralIdentifierIneligible
  else match (if case_sensitive then Some [query]
         else variant_values <$> case_fold_literal_variants query) with
  | None => fallback CaseInsensitiveUnicode
  | Some variants =>
    match variant_terms variants 0 0 with
    | inl d => Fallback d
    | inr (alternatives, bytes) =>
      match combine_candidate_expr alternatives false with
      | None => fallback LiteralSequenceUnavailable
      | Some e =>
        Planned (mk_plan e LiteralIdentifier 0 (len variants) bytes (len variants) (token_len query))
      end
    end
  end.
End Planner.

(** ** What an expression admits *)

(** [occurs] decided. *)
Fixpoint occurs_in (w s : str) : bool :=
  bool_decide (w `prefix_of` s) || match s with [] => false | _ :: s => occurs_in w s end.

(** A chunk satisfies a term when it contains it up to ASCII case. *)
Fixpoint expr_admits (e : RegexCandidateExpr) (content : str) : bool :=
  match e with
  | Term term => occurs_in (map ascii_fold term) (map ascii_fold content)
  | All expressions => forallb (fun e => expr_admits e content) expressions
  | Any expressions => existsb (fun e => expr_admits e content) expressions
  end.

(** The expressions the planner builds: every term is long enough for the
    trigram index and every combination has at least two parts. *)
Fixpoint well_formed (e : RegexCandidateExpr) : bool :=
  match e with
  | Term term => (3 <=? length term)%nat
  | All expressions | Any expressions =>
    (2 <=? length expressions)%nat && forallb well_formed expressions
  end.

(** ** The laws of the libraries *)

(** SQLite's FTS5 with the trigram tokenizer evaluates such a query as the
    combination it writes; a quoted phrase of at least three characters is found
    wherever the text holds it up to ASCII case. *)
Class TrigramFts (fts_match : str -> str -> bool) : Prop :=
  fts_finds : forall e content, well_formed e = true -> expr_admits e content = true ->
    fts_match (fts_query e) content = true.

(** The regex crate: [hir_match hir haystack i j] when the expression matches
    the bytes from [i] to [j], as documented for the syntax tree, the extractor
    and [Regex::is_match] on the UTF-8 bytes of a string. *)
Class RegexEngine (parse : str -> option Hir) (extract : ExtractKind -> Hir -> option (list bytes))
    (is_match : str -> str -> bool) (hir_match : Hir -> bytes -> nat -> nat -> Prop) : Prop := {
  match_literal : forall l h i j, hir_match (HirLiteral l) h i j -> slice h i j = l;
  match_capture : forall sub h i j, hir_match (HirCapture sub) h i j -> hir_match sub h i j;
  match_repetition : forall min max sub h i j, 0 < min ->
    hir_match (HirRepetition min max sub) h i j ->
    exists i' j', (i <= i' /\ i' <= j' /\ j' <= j)%nat /\ hir_match sub h i' j';
  match_concat : forall es h i j, hir_match (HirConcat es) h i j -> forall e, e ∈ es ->
    exists i' j', (i <= i' /\ i' <= j' /\ j' <= j)%nat /\ hir_match e h i' j';
  match_alternation : forall es h i j, hir_match (HirAlternation es) h i j ->
    exists e, e ∈ es /\ hir_match e h i j;
  match_extract : forall kind hir literals h i j, extract kind hir = Some literals ->
    hir_match hir h i j -> exists l, l ∈ literals /\
      match kind with
      | Prefix => (l `prefix_of` slice h i j)
      | Suffix => (l `suffix_of` slice h i j)
      end;
  match_parse : forall query hir content, parse query = Some hir -> is_match query content = true ->
    exists i j, hir_match hir (utf8 content) i j
}.

(** The matcher compiled from an escaped literal: exact, or up to the simple
    case folding of each character. *)
Class LiteralEngine (fold_ranges : Z -> option (list (Z * Z)))
    (literal_match : bool -> str -> str -> bool) : Prop := {
  match_sensitive : forall query content, literal_match true query content = true ->
    occurs query content;
  match_insensitive : forall query content, literal_match false query content = true ->
    exists w, occurs w content /\
      Forall2 (fun q c => forall ranges, fold_ranges q = Some ranges ->
                 exists r, r ∈ ranges /\ r.1 <= c <= r.2) query w
}.

(** ** Occurrences *)
Lemma occurs_in_spec w s : occurs_in w s = true <-> occurs w s.
Proof.
  induction s as [|c s IH]; cbn [occurs_in]; rewrite orb_true_iff, bool_decide_eq_true.
  - split; [intros [[q ->] | ]; [by exists [], q|done]|].
    intros (p & q & He). symmetry in He. apply app_nil in He as [_ He]. left. by exists q.
  - rewrite IH. split.
    + intros [[q ->]|(p & q & ->)]; [by exists [], q|by exists (c :: p), q].
    + intros (p & q & He). destruct p as [|x p]; [left; by exists q|right].
      injection He as -> ->. by exists p, q.
Qed.

Lemma occurs_map {A B} (f : A -> B) w s : occurs w s -> occurs (map f w) (map f s).
Proof. intros (p & q & ->). exists (map f p), (map f q). by rewrite !map_app. Qed.

Lemma occurs_trans {A} (u w s : list A) : occurs u w -> occurs w s -> occurs u s.
Proof. intros (p & q & ->) (p' & q' & ->). exists (p' ++ p), (q ++ q'). by rewrite <-!app_assoc. Qed.

Lemma occurs_slice {A} (s : list A) i j : occurs (slice s i j) s.
Proof.
  unfold slice. exists (take i s), (drop (j - i) (drop i s)).
  by rewrite take_drop, take_drop.
Qed.

Lemma occurs_slice_mono {A} (w s : list A) i j i' j' : (i <= i' /\ i' <= j' /\ j' <= j)%nat ->
  occurs w (slice s i' j') -> occurs w (slice s i j).
Proof.
  intros Hij Hw. eapply occurs_trans; [exact Hw|].
  rewrite <-(slice_app s i i' j), <-(slice_app s i' j' j) by lia.
  by exists (slice s i i'), (slice s j' j).
Qed.

Lemma occurs_prefix {A} (w s : list A) : w `prefix_of` s -> occurs w s.
Proof. intros [q ->]. by exists [], q. Qed.
Lemma occurs_suffix {A} (w s : list A) : w `suffix_of` s -> occurs w s.
Proof. intros [p ->]. exists p, []. by rewrite app_nil_r. Qed.

(** The pieces of a split occur in the string and hold no separator. *)
Lemma split_by_pieces sep s p : p ∈ split_by sep s ->
  occurs p s /\ Forall (fun c => sep c = false) p.
Proof.
  assert (H : forall p' ps', split_by sep s = p' :: ps' ->
    (p' `prefix_of` s /\ Forall (fun c => sep c = false) p')
    /\ forall p, p ∈ ps' -> occurs p s /\ Forall (fun c => sep c = false) p).
  { clear p. induction s as [|c s IH]; intros p ps; cbn [split_by].
    - intros [= <- <-]. split; [by split; [exists []|]|by intros ? ?%elem_of_nil].
    - destruct (split_by_cons_inv sep s) as (p1 & ps1 & E). rewrite E.
      destruct (IH _ _ E) as [[Hp1 Hf1] Hps1]. destruct (sep c) eqn:Hc; intros [= <- <-].
      + split; [by split; [apply prefix_nil|]|]. intros p Hp.
        assert (Hs : occurs p s /\ Forall (fun c => sep c = false) p).
        { apply elem_of_cons in Hp as [->|Hp]; [split; [by apply occurs_prefix|done]|auto]. }
        destruct Hs as [(u & v & ->) Hf]. split; [by exists (c :: u), v|done].
      + split; [split; [by apply prefix_cons|by constructor]|]. intros p Hp.
        destruct (Hps1 p Hp) as [(u & v & ->) Hf]. split; [by exists (c :: u), v|done]. }
  destruct (split_by_cons_inv sep s) as (p' & ps' & E). intros Hp. rewrite E in Hp.
  destruct (H _ _ E) as [[Hpre Hf] Hps].
  apply elem_of_cons in Hp as [->|Hp]; [split; [by apply occurs_prefix|done]|auto].
Qed.

Lemma term_byte_ascii b : is_term_byte b = true -> is_ascii_byte b.
Proof.
  unfold is_term_byte, is_ascii_alphanumeric, is_ascii_byte. intros H.
  bool_to_prop. destruct H as [H|H]; [|bool_to_prop; lia].
  bool_to_prop. destruct H as [H|H]; bool_to_prop; [destruct H as [H|H]|]; bool_to_prop; lia.
Qed.

(** ** Combinations *)
Lemma well_formed_combine es all e : Forall (fun e => well_formed e = true) es ->
  combine_candidate_expr es all = Some e -> well_formed e = true.
Proof.
  unfold combine_candidate_expr. intros Hes. destruct es as [|x [|y es]]; [done|..].
  - intros [= <-]. apply Forall_cons in Hes as [Hx _]. exact Hx.
  - assert (Hf : forallb well_formed (x :: y :: es) = true).
    { apply forallb_forall. intros z Hz. rewrite Forall_forall in Hes. by apply Hes, list_elem_of_In. }
    destruct all; intros [= <-]; exact Hf.
Qed.

Lemma admits_combine_all es e content : combine_candidate_expr es true = Some e ->
  (forall p, p ∈ es -> expr_admits p content = true) -> expr_admits e content = true.
Proof.
  unfold combine_candidate_expr. intros He Hes. destruct es as [|x [|y es]]; [done|..].
  - injection He as <-. apply Hes. by left.
  - injection He as <-. change (forallb (fun e => expr_admits e content) (x :: y :: es) = true).
    apply forallb_forall. intros z Hz. by apply Hes, list_elem_of_In.
Qed.

Lemma admits_combine_any es e content : combine_candidate_expr es false = Some e ->
  (exists p, p ∈ es /\ expr_admits p content = true) -> expr_admits e content = true.
Proof.
  unfold combine_candidate_expr. intros He (p & Hp & Ha). destruct es as [|x [|y es]]; [done|..].
  - injection He as <-. by apply list_elem_of_singleton in Hp as ->.
  - injection He as <-. change (existsb (fun e => expr_admits e content) (x :: y :: es) = true).
    apply existsb_exists. exists p. split; [by apply list_elem_of_In|done].
Qed.

(** ** Inversion of the planning monad *)
Lemma plan_bind_inr {A B} (m : planning A) (k : A -> planning B) b x b' :
  plan_bind m k b = (inr x, b') -> exists a b1, m b = (inr a, b1) /\ k a b1 = (inr x, b').
Proof. unfold plan_bind. destruct (m b) as [[e|a] b1]; [done|]. eauto. Qed.

Ltac plan_inv H :=
  let a := fresh "a" in let b1 := fresh "b1" in let Hm := fresh "Hm" in
  apply plan_bind_inr in H as (a & b1 & Hm & H).

Lemma collect_terms_sound pieces b es b' : collect_terms pieces b = (inr es, b') ->
  Forall (Forall is_ascii_byte) pieces ->
  forall e, e ∈ es -> exists t, e = Term t /\ t ∈ pieces /\ (3 <= length t)%nat.
Proof.
  revert b es. induction pieces as [|piece pieces IH]; intros b es; cbn [collect_terms].
  - intros [= <- <-] _ e He. by apply elem_of_nil in He.
  - intros H Hp. apply Forall_cons in Hp as [Ha Hp].
    assert (Hrec : forall b es, collect_terms pieces b = (inr es, b') -> forall e, e ∈ es ->
      exists t, e = Term t /\ t ∈ piece :: pieces /\ (3 <= length t)%nat).
    { intros b1 es1 H1 e He. destruct (IH _ _ H1 Hp e He) as (t & -> & Ht & Hl).
      exists t. split; [done|]. split; [by right|done]. }
    destruct (length piece <? 3)%nat eqn:Hlen; [by eapply Hrec|].
    rewrite from_utf8_ascii in H by done. plan_inv H. plan_inv H. injection H as <- <-.
    bool_to_prop. intros e He. apply elem_of_cons in He as [->|He]; [|by eapply Hrec].
    exists piece. split; [done|]. split; [by left|done].
Qed.

(** Text that holds the literal satisfies its expression. *)
Lemma literal_candidate_sound literal b e b' :
  literal_candidate_expr literal b = (inr (Some e), b') ->
  well_formed e = true /\ forall content, Forall is_char content ->
    occurs literal (utf8 content) -> expr_admits e content = true.
Proof.
  unfold literal_candidate_expr. intros H. plan_inv H. injection H as He <-.
  assert (Hascii : Forall (Forall is_ascii_byte) (split_by (fun b => negb (is_term_byte b)) literal)).
  { apply Forall_forall. intros p Hp. apply split_by_pieces in Hp as [_ Hp].
    eapply Forall_impl; [exact Hp|]. intros x Hx. apply negb_false_iff in Hx. by apply term_byte_ascii. }
  pose proof (collect_terms_sound _ _ _ _ Hm Hascii) as Ht. split.
  - eapply well_formed_combine; [|exact He]. apply Forall_forall. intros p Hp.
    destruct (Ht p Hp) as (t & -> & _ & Hl). by apply Nat.leb_le.
  - intros content Hc Ho. eapply admits_combine_all; [exact He|]. intros p Hp.
    destruct (Ht p Hp) as (t & -> & Hin & Hl). apply occurs_in_spec, occurs_map.
    apply ascii_occurs_utf8; [by destruct t; simpl in Hl; [lia|]| |done|].
    + rewrite Forall_forall in Hascii. by apply Hascii.
    + apply split_by_pieces in Hin as [Hin _]. by eapply occurs_trans.
Qed.

(** ** Induction on syntax trees, through their lists *)
Section HirInd.
Variable P : Hir -> Prop.
Hypothesis Hempty : P HirEmpty.
Hypothesis Hliteral : forall l, P (HirLiteral l).
Hypothesis Hclass : P HirClass.
Hypothesis Hlook : P HirLook.
Hypothesis Hrepetition : forall min max sub, P sub -> P (HirRepetition min max sub).
Hypothesis Hcapture : forall sub, P sub -> P (HirCapture sub).
Hypothesis Hconcat : forall es, Forall P es -> P (HirConcat es).
Hypothesis Halternation : forall es, Forall P es -> P (HirAlternation es).

Fixpoint hir_ind (hir : Hir) : P hir :=
  let all := fix all (es : list Hir) : Forall P es :=
    match es with
    | [] => Forall_nil_2 P
    | e :: es => Forall_cons_2 P e es (hir_ind e) (all es)
    end in
  match hir with
  | HirEmpty => Hempty
  | HirLiteral l => Hliteral l
  | HirClass => Hclass
  | HirLook => Hlook
  | HirRepetition min max sub => Hrepetition min max sub (hir_ind sub)
  | HirCapture sub => Hcapture sub (hir_ind sub)
  | HirConcat es => Hconcat es (all es)
  | HirAlternation es => Halternation es (all es)
  end.
End HirInd.

Section CollectSound.
Context {A : Type} (f : A -> planning (option RegexCandidateExpr)).
Variable sound : A -> RegexCandidateExpr -> Prop.

Lemma collect_every_sound es b ps b' :
  Forall (fun e => forall b p b', f e b = (inr (Some p), b') -> sound e p) es ->
  collect_every f es b = (inr (Some ps), b') -> Forall2 sound es ps.
Proof.
  intros Hes. revert b ps. induction Hes as [|e es He Hes IH]; intros b ps; cbn [collect_every].
  - by intros [= <- <-].
  - intros H. plan_inv H. destruct a as [p|]; [|done]. plan_inv H. destruct a as [ps'|]; [|done].
    injection H as <- <-. constructor; [by eapply He|by eapply IH].
Qed.
End CollectSound.

Lemma collect_some_sound (f : Hir -> planning (option RegexCandidateExpr))
    (sound : Hir -> RegexCandidateExpr -> Prop) es b ps b' :
  Forall (fun e => forall b p b', f e b = (inr (Some p), b') -> sound e p) es ->
  collect_some f es b = (inr ps, b') -> forall p, p ∈ ps -> exists e, e ∈ es /\ sound e p.
Proof.
  intros Hes. revert b ps. induction Hes as [|e es He Hes IH]; intros b ps; cbn [collect_some].
  - intros [= <- <-] p Hp. by apply elem_of_nil in Hp.
  - intros H. plan_inv H. plan_inv H. injection H as <- <-. intros p Hp.
    assert (Hps : p ∈ a0 -> exists e', e' ∈ e :: es /\ sound e' p).
    { intros Hin. destruct (IH _ _ Hm0 p Hin) as (e' & He' & Hs). exists e'. split; [by right|done]. }
    destruct a as [q|]; [|by apply Hps]. apply elem_of_cons in Hp as [->|Hp]; [|by apply Hps].
    exists e. split; [by left|by eapply He].
Qed.

(** ** Soundness of a regex plan *)
Section RegexSound.
Context {parse : str -> option Hir} {extract : ExtractKind -> Hir -> option (list bytes)}.
Context {is_match : str -> str -> bool} {hir_match : Hir -> bytes -> nat -> nat -> Prop}.
Context {Hengine : RegexEngine parse extract is_match hir_match}.

(** [e] is well formed and admits every text in which [hir] matches. *)
Definition plan_sound (hir : Hir) (e : RegexCandidateExpr) : Prop :=
  well_formed e = true /\ forall content i j, Forall is_char content ->
    hir_match hir (utf8 content) i j -> expr_admits e content = true.

Lemma regex_candidate_expr_sound hir : forall b e b',
  regex_candidate_expr hir b = (inr (Some e), b') -> plan_sound hir e.
Proof.
  induction hir as [|l| | |min max sub IH|sub IH|es IH|es IH] using hir_ind; intros b e b' H;
    cbn [regex_candidate_expr] in H; try done.
  - apply literal_candidate_sound in H as [Hw Ha]. split; [done|]. intros content i j Hc Hm.
    apply Ha; [done|]. apply match_literal in Hm as <-. apply occurs_slice.
  - destruct (0 <? min) eqn:Hmin; [|done]. bool_to_prop. destruct (IH _ _ _ H) as [Hw Ha].
    split; [done|]. intros content i j Hc Hm.
    apply match_repetition in Hm as (i' & j' & _ & Hm); [|done]. by eapply Ha.
  - destruct (IH _ _ _ H) as [Hw Ha]. split; [done|]. intros content i j Hc Hm.
    apply match_capture in Hm. by eapply Ha.
  - plan_inv H. injection H as He <-.
    pose proof (collect_some_sound _ _ _ _ _ _ IH Hm) as Hps. split.
    + eapply well_formed_combine; [|exact He]. apply Forall_forall. intros p Hp.
      by destruct (Hps p Hp) as (e' & _ & Hw & _).
    + intros content i j Hc Hmatch. eapply admits_combine_all; [exact He|]. intros p Hp.
      destruct (Hps p Hp) as (e' & Hin & _ & Ha).
      destruct (match_concat _ _ _ _ Hmatch _ Hin) as (i' & j' & _ & Hsub). by eapply Ha.
  - plan_inv H. destruct a as [ps|]; [|done]. injection H as He <-.
    pose proof (collect_every_sound _ _ _ _ _ _ IH Hm) as Hps. split.
    + eapply well_formed_combine; [|exact He]. apply Forall_forall. intros p Hp.
      apply list_elem_of_lookup in Hp as [k Hk].
      by destruct (Forall2_lookup_r _ _ _ _ _ Hps Hk) as (e' & _ & Hw & _).
    + intros content i j Hc Hmatch. eapply admits_combine_any; [exact He|].
      destruct (match_alternation _ _ _ _ Hmatch) as (e' & Hin & Hsub).
      apply list_elem_of_lookup in Hin as [k Hk].
      destruct (Forall2_lookup_l _ _ _ _ _ Hps Hk) as (p & Hp & _ & Ha).
      exists p. split; [by eapply list_elem_of_lookup_2|by eapply Ha].
Qed.

Lemma extracted_literal_plan_sound hir nodes kind src plan :
  extracted_literal_plan extract hir nodes kind src = inr (Some plan) ->
  plan_sound hir (expression plan).
Proof.
  unfold extracted_literal_plan. destruct (extract kind hir) as [literals|] eqn:Hx; [|done].
  destruct (bool_decide _); [done|].
  destruct (collect_every _ _ _) as [[|[alternatives|]] b] eqn:Hc; try done.
  destruct (combine_candidate_expr alternatives false) as [e|] eqn:He; [|done]. intros [= <-].
  cbn [expression].
  pose proof (collect_every_sound literal_candidate_expr (fun l e => well_formed e = true /\
    forall content, Forall is_char content -> occurs l (utf8 content) -> expr_admits e content = true)
    _ _ _ _ ltac:(apply Forall_forall; intros; by eapply literal_candidate_sound) Hc) as Hps.
  split.
  - eapply well_formed_combine; [|exact He]. apply Forall_forall. intros p Hp.
    apply list_elem_of_lookup in Hp as [k Hk].
    by destruct (Forall2_lookup_r _ _ _ _ _ Hps Hk) as (l & _ & Hw & _).
  - intros content i j Hchars Hm. eapply admits_combine_any; [exact He|].
    destruct (match_extract _ _ _ _ _ _ Hx Hm) as (l & Hl & Hpos).
    apply list_elem_of_lookup in Hl as [k Hk].
    destruct (Forall2_lookup_l _ _ _ _ _ Hps Hk) as (p & Hp & _ & Ha).
    exists p. split; [by eapply list_elem_of_lookup_2|]. apply Ha; [done|].
    eapply occurs_trans; [|apply (occurs_slice _ i j)].
    destruct kind; [by apply occurs_prefix|by apply occurs_suffix].
Qed.

Lemma extracted_plan_sound hir nodes plan :
  extracted_regex_candidate_plan extract hir nodes = Some (Planned plan) ->
  plan_sound hir (expression plan).
Proof.
  unfold extracted_regex_candidate_plan.
  set (prefix := extracted_literal_plan extract hir nodes Prefix PrefixLiterals).
  set (suffix := extracted_literal_plan extract hir nodes Suffix SuffixLiterals). cbv zeta.
  match goal with |- context [merge_sort plan_le ?l] => set (plans := l) end.
  assert (Hplans : forall p, p ∈ plans -> plan_sound hir (expression p)).
  { intros p Hp. subst plans. apply elem_of_app in Hp as [Hp|Hp].
    - destruct prefix as [[]|[q|]] eqn:E; try by apply elem_of_nil in Hp.
      apply list_elem_of_singleton in Hp as ->. by eapply extracted_literal_plan_sound.
    - destruct suffix as [[]|[q|]] eqn:E; try by apply elem_of_nil in Hp.
      apply list_elem_of_singleton in Hp as ->. by eapply extracted_literal_plan_sound. }
  assert (Hlimit : forall x b, regex_plan_budget_fallback x b <> Planned plan) by done.
  destruct (merge_sort plan_le plans) as [|p ps] eqn:Hsort.
  - destruct prefix as [[]|]; [by intros [= ?]|]. destruct suffix as [[]|]; [by intros [= ?]|done].
  - intros [= <-]. apply Hplans. rewrite <-(merge_sort_Permutation plan_le plans), Hsort. by left.
Qed.

Lemma regex_plan_sound query case_sensitive plan content :
  regex_candidate_plan parse extract query case_sensitive = Planned plan ->
  Forall is_char content -> is_match query content = true ->
  case_sensitive = true /\ well_formed (expression plan) = true
  /\ expr_admits (expression plan) content = true.
Proof.
  unfold regex_candidate_plan. destruct case_sensitive; cbn [negb]; [|done].
  destruct (parse query) as [hir|] eqn:Hp; [|done].
  destruct (bounded_hir_node_count hir) as [|nodes]; [done|]. intros Hplan Hc Hm.
  destruct (match_parse _ _ _ Hp Hm) as (i & j & Hhir). split; [done|].
  assert (Hs : plan_sound hir (expression plan)).
  { destruct (regex_candidate_expr hir _) as [[|[e|]] b] eqn:He; [done|..].
    - injection Hplan as <-. by eapply regex_candidate_expr_sound.
    - destruct (extracted_regex_candidate_plan extract hir nodes) as [d|] eqn:Hd; [|done].
      change (d = Planned plan) in Hplan. subst d. by eapply extracted_plan_sound. }
  destruct Hs as [Hw Ha]. split; [done|by eapply Ha].
Qed.
End RegexSound.

(** ** Soundness of a literal plan *)
Section LiteralSound.
Context {fold_ranges : Z -> option (list (Z * Z))} {literal_match : bool -> str -> str -> bool}.
Context {Hengine : LiteralEngine fold_ranges literal_match}.

Lemma elem_of_codepoints r c : r.1 <= c <= r.2 -> c ∈ codepoints r.
Proof.
  intros Hc. unfold codepoints. apply list_elem_of_fmap. exists (Z.to_nat (c - r.1)).
  split; [lia|]. apply elem_of_seq. lia.
Qed.

Lemma fold_choices_complete q choices c : fold_choices fold_ranges q = Some choices ->
  (forall ranges, fold_ranges q = Some ranges -> exists r, r ∈ ranges /\ r.1 <= c <= r.2) ->
  ascii_fold c ∈ choices.
Proof.
  unfold fold_choices. destruct (fold_ranges q) as [ranges|]; [|done].
  destruct (existsb _ _); [done|]. intros [= <-] Hc.
  destruct (Hc ranges eq_refl) as (r & Hr & Hrange).
  apply elem_of_sort_dedup, list_elem_of_fmap. exists c. split; [done|].
  apply list_elem_of_In, in_concat. exists (codepoints r). split; apply list_elem_of_In.
  - apply list_elem_of_fmap. by exists r.
  - by apply elem_of_codepoints.
Qed.

Lemma expand_variants_complete alternatives value w values vs :
  expand_variants alternatives value values = Some vs ->
  Forall2 (fun q c => forall choices, alternatives q = Some choices -> ascii_fold c ∈ choices) value w ->
  forall p, p ∈ values -> p ++ map ascii_fold w ∈ vs.
Proof.
  revert w values. induction value as [|q value IH]; intros w values Hv Hw p Hp.
  - apply Forall2_nil_inv_l in Hw as ->. injection Hv as <-. by rewrite app_nil_r.
  - apply Forall2_cons_inv_l in Hw as (c & w' & Hc & Hw & ->). cbn [expand_variants] in Hv.
    destruct (alternatives q) as [choices|] eqn:Hq; [|done]. destruct (_ <? _); [done|].
    cbn [map]. rewrite (cons_middle (ascii_fold c) p), app_assoc. eapply IH; [exact Hv|exact Hw|].
    apply list_elem_of_In, in_concat. exists (map (fun choice => p ++ [choice]) choices).
    split; apply list_elem_of_In, list_elem_of_fmap; [by exists p|].
    exists (ascii_fold c). split; [done|]. by apply Hc.
Qed.

Lemma case_fold_variants_complete value vs w :
  case_fold_literal_variants fold_ranges value = Some vs ->
  Forall2 (fun q c => forall ranges, fold_ranges q = Some ranges ->
             exists r, r ∈ ranges /\ r.1 <= c <= r.2) value w ->
  map ascii_fold w ∈ variant_values vs.
Proof.
  unfold case_fold_literal_variants. destruct (forallb _ value) eqn:Hall; [|done].
  destruct (expand_variants _ _ _) as [values|] eqn:Hv; [|done]. intros [= <-] Hw.
  cbn [variant_values]. apply elem_of_sort_dedup.
  apply (expand_variants_complete _ _ w _ _ Hv) with (p := []); [|by left].
  eapply Forall2_impl; [exact Hw|]. intros q c Hr choices Hq. by eapply fold_choices_complete.
Qed.

Lemma expand_variants_length alternatives value values vs n :
  expand_variants alternatives value values = Some vs -> Forall (fun p => length p = n) values ->
  len values <= MAX_CASE_FOLD_LITERAL_VARIANTS ->
  Forall (fun p => length p = (n + length value)%nat) vs /\ len vs <= MAX_CASE_FOLD_LITERAL_VARIANTS.
Proof.
  revert n values. induction value as [|q value IH]; intros n values Hv Hn Hl.
  - injection Hv as <-. rewrite Nat.add_0_r. done.
  - cbn [expand_variants] in Hv. destruct (alternatives q) as [choices|]; [|done].
    destruct (_ <? _) eqn:Hmax; [done|]. bool_to_prop.
    destruct (IH (S n) _ Hv) as [Hvs Hlen].
    + apply Forall_concat, Forall_map, (Forall_impl _ _ _ Hn). intros p Hp.
      apply Forall_map, Forall_forall. intros c _. rewrite length_app, Hp. simpl. lia.
    + assert (He : len (concat (map (fun prefix => map (fun choice => prefix ++ [choice]) choices) values))
        = len values * len choices).
      { unfold len. clear. induction values as [|v values IH]; cbn [map concat]; [done|].
        rewrite length_app, length_map, Nat2Z.inj_add, IH. cbn [length]. lia. }
      by rewrite He.
    + split; [|done]. eapply Forall_impl; [exact Hvs|]. intros p ->. simpl. lia.
Qed.

Lemma variant_terms_spec variants n bytes terms bytes' :
  variant_terms variants n bytes = inr (terms, bytes') -> 0 <= bytes ->
  terms = map Term variants
  /\ (bytes <= MAX_LITERAL_IDENTIFIER_PLAN_BYTES -> bytes' <= MAX_LITERAL_IDENTIFIER_PLAN_BYTES)
  /\ bytes' = bytes + foldr (fun v acc => token_len v + acc) 0 variants.
Proof.
  revert n bytes terms. induction variants as [|v variants IH]; intros n bytes terms; cbn [variant_terms].
  - intros [= <- <-] _. cbn [map foldr]. split; [done|]. split; [done|lia].
  - destruct (_ <? _) eqn:Hmax; [done|]. bool_to_prop.
    destruct (variant_terms _ _ _) as [|[ts bs]] eqn:Hr; [done|]. intros [= <- <-] Hb.
    assert (He : u64_saturating_add bytes (token_len v) = bytes + token_len v).
    { apply u64_saturating_add_exact. apply u64_saturating_add_le in Hmax; [|done].
      assert (MAX_LITERAL_IDENTIFIER_PLAN_BYTES <= U64_MAX) by done.
      clear -Hmax H. generalize dependent U64_MAX. lia. }
    pose proof (token_len_nonneg v). rewrite He in *.
    destruct (IH _ _ _ Hr) as (-> & Hle & ->); [lia|]. cbn [map foldr].
    split; [done|]. split; [auto|lia].
Qed.

Lemma eligible_query exhaustive_text query :
  literal_identifier_eligible exhaustive_text query = true ->
  exhaustive_text = true /\ 12 <= token_len query /\ Forall is_ascii_byte query.
Proof.
  unfold literal_identifier_eligible, MIN_LITERAL_IDENTIFIER_BYTES. 
  intros [[[[He Hlen]%andb_true_iff _]%andb_true_iff Hall]%andb_true_iff _]%andb_true_iff.
  bool_to_prop. split; [done|]. split; [done|]. apply Forall_forall. intros c Hc.
  apply term_byte_ascii. rewrite forallb_forall in Hall. by apply Hall, list_elem_of_In.
Qed.

Lemma token_len_ascii s : Forall is_ascii_byte s -> token_len s = len s.
Proof.
  unfold len. induction 1 as [|c s Hc _ IH]; [done|]. rewrite token_len_cons, IH.
  unfold len_utf8, is_ascii_byte in *. rewrite (proj2 (Z.ltb_lt _ _)) by lia. simpl length. lia.
Qed.

Lemma literal_plan_sound exhaustive_text query case_sensitive plan content :
  literal_identifier_candidate_plan fold_ranges exhaustive_text query case_sensitive = Planned plan ->
  literal_match case_sensitive query content = true ->
  well_formed (expression plan) = true /\ expr_admits (expression plan) content = true.
Proof.
  unfold literal_identifier_candidate_plan.
  destruct (literal_identifier_eligible exhaustive_text query) eqn:Hel; [|done]. cbn [negb].
  apply eligible_query in Hel as (_ & Hlen & Hascii). rewrite token_len_ascii in Hlen by done.
  destruct (if case_sensitive then _ else _) as [variants|] eqn:Hvar; [|done].
  destruct (variant_terms variants 0 0) as [|[terms bytes]] eqn:Hterms; [done|].
  destruct (combine_candidate_expr terms false) as [e|] eqn:He; [|done]. intros [= <-] Hm.
  cbn [expression]. apply variant_terms_spec in Hterms as (-> & _ & _); [|done].
  assert (Hv : Forall (fun v => (3 <= length v)%nat) variants
    /\ exists v, v ∈ variants /\ occurs (map ascii_fold v) (map ascii_fold content)).
  { destruct case_sensitive.
    - injection Hvar as <-. split; [apply Forall_singleton; unfold len in Hlen; lia|].
      exists query. split; [by left|]. by apply occurs_map, match_sensitive.
    - destruct (case_fold_literal_variants fold_ranges query) as [vs|] eqn:Hvs; [|done].
      injection Hvar as <-. destruct (match_insensitive _ _ Hm) as (w & Hw & Hfold). split.
      + unfold case_fold_literal_variants in Hvs. destruct (forallb _ query); [|done].
        destruct (expand_variants _ query _) as [values|] eqn:Hx; [|done]. injection Hvs as <-.
        apply (expand_variants_length _ _ _ _ 0%nat) in Hx as [Hx _]; [|by apply Forall_singleton|done].
        apply Forall_forall. cbn [variant_values]. intros v Hv.
        pose proof (proj1 (elem_of_sort_dedup _ _) Hv). rewrite Forall_forall in Hx.
        rewrite (Hx v) by done. unfold len in Hlen. lia.
      + exists (map ascii_fold w). split; [by eapply case_fold_variants_complete|].
        assert (Hid : map ascii_fold (map ascii_fold w) = map ascii_fold w).
        { rewrite map_map. apply map_ext. intros c. unfold ascii_fold, to_ascii_lowercase.
          destruct (c <? 128) eqn:H1; [|by rewrite H1].
          destruct ((65 <=? c) && (c <=? 90)) eqn:H2; [|by rewrite H1, H2].
          bool_to_prop. rewrite (proj2 (Z.ltb_lt _ _)) by lia.
          by rewrite (proj2 (Z.leb_gt (c + 32) 90)), andb_false_r by lia. }
        rewrite Hid. by apply occurs_map. }
  destruct Hv as [Hlong (v & Hin & Ho)]. split.
  - eapply well_formed_combine; [|exact He]. apply Forall_map, (Forall_impl _ _ _ Hlong).
    intros x Hx. by apply Nat.leb_le.
  - eapply admits_combine_any; [exact He|]. exists (Term v). split.
    + apply list_elem_of_fmap. by exists v.
    + by apply occurs_in_spec.
Qed.
End LiteralSound.

(** ** Bounds *)

(** The number of nodes of a tree. *)
Fixpoint hir_size (hir : Hir) : Z :=
  match hir with
  | HirEmpty | HirLiteral _ | HirClass | HirLook => 1
  | HirRepetition _ _ sub | HirCapture sub => 1 + hir_size sub
  | HirConcat es | HirAlternation es => 1 + foldr (fun e acc => hir_size e + acc) 0 es
  end.

(** The terms of an expression, and what they cost. *)
Fixpoint expr_terms (e : RegexCandidateExpr) : list str :=
  match e with
  | Term term => [term]
  | All es | Any es => concat (map expr_terms es)
  end.
Definition term_cost (terms : list str) : Z := foldr (fun t acc => token_len t + acc) 0 terms.

Lemma term_cost_app a b : term_cost (a ++ b) = term_cost a + term_cost b.
Proof. unfold term_cost. induction a as [|t a IH]; simpl; lia. Qed.
Lemma term_cost_nonneg a : 0 <= term_cost a.
Proof. unfold term_cost. induction a as [|t a IH]; simpl; [lia|]. pose proof (token_len_nonneg t). lia. Qed.

(** [visit] counts exactly, and refuses exactly the trees that are too large. *)
Definition counts (hir : Hir) : Prop := forall n, 0 <= n <= MAX_REGEX_PLAN_NODES ->
  visit hir n = if MAX_REGEX_PLAN_NODES <? n + hir_size hir then inl ExceededNodes
                else inr (n + hir_size hir).

Lemma hir_size_pos hir : 1 <= hir_size hir.
Proof.
  induction hir as [|l| | |min max sub IH|sub IH|es IH|es IH] using hir_ind; simpl; try lia;
    (enough (0 <= foldr (fun e acc => hir_size e + acc) 0 es) by lia; induction IH; simpl; lia).
Qed.

Lemma visit_all_counts es : Forall counts es -> forall n, 0 <= n <= MAX_REGEX_PLAN_NODES ->
  visit_all visit es n
  = if MAX_REGEX_PLAN_NODES <? n + foldr (fun e acc => hir_size e + acc) 0 es then inl ExceededNodes
    else inr (n + foldr (fun e acc => hir_size e + acc) 0 es).
Proof.
  induction 1 as [|e es He Hes IH]; intros n Hn; cbn [visit_all foldr].
  - rewrite Z.add_0_r, (proj2 (Z.ltb_ge _ _)) by lia. done.
  - rewrite He by done. pose proof (hir_size_pos e).
    assert (0 <= foldr (fun e acc => hir_size e + acc) 0 es).
    { clear. induction es as [|e es IH]; simpl; [lia|]. pose proof (hir_size_pos e). lia. }
    destruct (_ <? n + hir_size e) eqn:H1; bool_to_prop.
    + by rewrite (proj2 (Z.ltb_lt _ _)) by lia.
    + rewrite IH by lia. by rewrite Z.add_assoc.
Qed.

Lemma visit_counts hir : counts hir.
Proof.
  induction hir as [|l| | |min max sub IH|sub IH|es IH|es IH] using hir_ind; intros n Hn;
    cbn [visit hir_size]; cbv zeta;
    rewrite u64_saturating_add_exact by (unfold MAX_REGEX_PLAN_NODES, U64_MAX in *; lia);
    destruct (MAX_REGEX_PLAN_NODES <? n + 1) eqn:H1; bool_to_prop; try done.
  1,3: pose proof (hir_size_pos sub); by rewrite (proj2 (Z.ltb_lt _ _)) by lia.
  1,2: rewrite IH by lia; by rewrite Z.add_assoc.
  1,3: rewrite (proj2 (Z.ltb_lt _ _)); [done|];
    enough (0 <= foldr (fun e acc => hir_size e + acc) 0 es) by lia;
    clear; induction es as [|e es IH]; simpl; [lia|]; pose proof (hir_size_pos e); lia.
  1,2: rewrite visit_all_counts by (done || lia); by rewrite Z.add_assoc.
Qed.

(** A budget within its limits. *)
Definition within (b : RegexPlanBudget) : Prop :=
  0 <= budget_terms b <= MAX_REGEX_PLAN_TERMS /\ 0 <= budget_term_bytes b <= MAX_REGEX_PLAN_TERM_BYTES.

(** [m] stays within the limits and charges at least [cost] of its result. *)
Definition charges {A} (m : planning A) (cost : A -> list str) : Prop := forall b a b',
  within b -> m b = (inr a, b') ->
  within b' /\ budget_nodes b' = budget_nodes b
  /\ budget_terms b + len (cost a) <= budget_terms b'
  /\ budget_term_bytes b + term_cost (cost a) <= budget_term_bytes b'.
Definition option_terms (e : option RegexCandidateExpr) : list str :=
  match e with Some e => expr_terms e | None => [] end.
Definition list_terms (es : list RegexCandidateExpr) : list str := concat (map expr_terms es).
Definition option_list_terms (es : option (list RegexCandidateExpr)) : list str :=
  match es with Some es => list_terms es | None => [] end.

Lemma charges_planned {A} (a : A) cost : cost a = [] -> charges (planned a) cost.
Proof. intros Hc b x b' Hw [= <- <-]. rewrite Hc. unfold len, term_cost. simpl. split; [done|]. lia. Qed.

Lemma charges_add_term term : charges (add_term term) (fun _ => [term]).
Proof.
  intros b a b' [Ht Hb]. unfold add_term. cbv zeta.
  rewrite (u64_saturating_add_exact (budget_terms b)) by (unfold MAX_REGEX_PLAN_TERMS, U64_MAX in *; lia).
  destruct (_ <? _) eqn:H1; [done|]. destruct (MAX_REGEX_PLAN_TERM_BYTES <? _) eqn:H2; [done|].
  bool_to_prop. apply u64_saturating_add_le in H2 as H3; [|done].
  rewrite u64_saturating_add_exact by (unfold MAX_REGEX_PLAN_TERM_BYTES, U64_MAX in *; lia).
  intros H0. injection H0 as _ <-. unfold within. cbn. pose proof (token_len_nonneg term). unfold term_cost, len. cbn.
  split; [lia|]. split; [done|]. lia.
Qed.

Lemma combine_terms es all : len (option_terms (combine_candidate_expr es all)) <= len (list_terms es)
  /\ term_cost (option_terms (combine_candidate_expr es all)) <= term_cost (list_terms es).
Proof.
  unfold combine_candidate_expr, list_terms. destruct es as [|x [|y es]]; cbn [option_terms].
  - done.
  - cbn [map concat]. rewrite app_nil_r. done.
  - by destruct all.
Qed.

(** The step every loop takes: the item's terms, then those of the rest. *)
Lemma list_terms_cons p ps : len (list_terms (p :: ps)) = len (expr_terms p) + len (list_terms ps)
  /\ term_cost (list_terms (p :: ps)) = term_cost (expr_terms p) + term_cost (list_terms ps).
Proof. unfold list_terms, len. cbn [map concat]. rewrite length_app, term_cost_app. lia. Qed.

(** Two charges in a row. *)
Ltac charge H Hw :=
  let Hw' := fresh "Hw" in
  apply H in Hw as (Hw' & ? & ? & ?).
Ltac use_charge L Hm Hw :=
  let H1 := fresh "Hwithin" in
  destruct (L _ _ _ Hw Hm) as (H1 & ? & ? & ?).

Lemma charges_collect_terms pieces : charges (collect_terms pieces) list_terms.
Proof.
  induction pieces as [|piece pieces IH]; cbn [collect_terms]; [by apply charges_planned|].
  destruct (_ <? _)%nat; [done|]. destruct (from_utf8 piece) as [term|]; [|done].
  intros b es b' Hw H. plan_inv H. plan_inv H. injection H as <- <-.
  use_charge (charges_add_term term) Hm Hw. use_charge IH Hm0 Hwithin.
  destruct (list_terms_cons (Term term) a0) as [-> ->]. cbn [expr_terms].
  split; [done|]. split; [congruence|]. lia.
Qed.

Lemma charges_literal literal : charges (literal_candidate_expr literal) option_terms.
Proof.
  intros b e b' Hw H. plan_inv H. injection H as <- <-.
  use_charge (charges_collect_terms (split_by (fun b => negb (is_term_byte b)) literal)) Hm Hw.
  destruct (combine_terms a true). split; [done|]. split; [done|]. lia.
Qed.

Lemma charges_collect_some (f : Hir -> planning (option RegexCandidateExpr)) es :
  Forall (fun e => charges (f e) option_terms) es -> charges (collect_some f es) list_terms.
Proof.
  induction 1 as [|e es He _ IH]; cbn [collect_some]; [by apply charges_planned|].
  intros b ps b' Hw H. plan_inv H. plan_inv H. injection H as <- <-.
  use_charge He Hm Hw. use_charge IH Hm0 Hwithin. split; [done|]. split; [congruence|].
  pose proof (term_cost_nonneg (option_terms a)). unfold len in *.
  destruct a as [p|]; cbn [option_terms] in *; [|lia].
  destruct (list_terms_cons p a0) as [Hl ->]. unfold len in Hl. lia.
Qed.

Lemma charges_collect_every {A} (f : A -> planning (option RegexCandidateExpr)) es :
  Forall (fun e => charges (f e) option_terms) es -> charges (collect_every f es) option_list_terms.
Proof.
  induction 1 as [|e es He _ IH]; cbn [collect_every]; [by apply charges_planned|].
  intros b ps b' Hw H. plan_inv H. use_charge He Hm Hw. destruct a as [p|].
  - plan_inv H. injection H as <- <-. use_charge IH Hm0 Hwithin.
    split; [done|]. split; [congruence|]. pose proof (term_cost_nonneg (expr_terms p)).
    destruct a as [qs|]; cbn [option_terms option_list_terms] in *; unfold len in *;
      [|change (term_cost []) with 0 in *; cbn [length] in *; lia].
    destruct (list_terms_cons p qs) as [Hl ->]. unfold len in Hl. lia.
  - injection H as <- <-. done.
Qed.

Lemma charges_regex hir : charges (regex_candidate_expr hir) option_terms.
Proof.
  induction hir as [|l| | |min max sub IH|sub IH|es IH|es IH] using hir_ind;
    cbn [regex_candidate_expr]; try by apply charges_planned.
  - apply charges_literal.
  - destruct (0 <? min); [done|by apply charges_planned].
  - done.
  - intros b e b' Hw H. plan_inv H. injection H as <- <-.
    use_charge (charges_collect_some _ _ IH) Hm Hw. destruct (combine_terms a true).
    split; [done|]. split; [done|]. lia.
  - intros b e b' Hw H. plan_inv H. injection H as <- <-.
    use_charge (charges_collect_every _ _ IH) Hm Hw.
    destruct a as [ps|]; [|done]. destruct (combine_terms ps false). cbn [option_list_terms] in *.
    split; [done|]. split; [done|]. lia.
Qed.

(** ** Reading a query back

    A recursive-descent reader of the queries, as SQLite reads them: a phrase in
    doubled quotes, or parenthesised queries joined by one operator. *)
Definition LPAREN : Z := 40.
Definition RPAREN : Z := 41.
Definition AND_SEP : str := lit " AND (".
Definition OR_SEP : str := lit " OR (".

Fixpoint read_phrase (s : str) : option (str * str) :=
  match s with
  | [] => None
  | c :: s =>
    if c =? QUOTE then
      match s with
      | d :: s' => if d =? QUOTE then '(t, r) ← read_phrase s'; Some (QUOTE :: t, r) else Some ([], s)
      | [] => Some ([], s)
      end
    else '(t, r) ← read_phrase s; Some (c :: t, r)
  end.

Definition close_paren (s : str) : option str :=
  match s with c :: s => if c =? RPAREN then Some s else None | [] => None end.

(** The remaining parts of a combination, each after the operator. *)
Fixpoint read_parts (read : str -> option (RegexCandidateExpr * str)) (sep : str) (fuel : nat)
    (s : str) : option (list RegexCandidateExpr * str) :=
  match fuel with
  | O => None
  | S fuel =>
    '(e, r) ← read s; r ← close_paren r;
    match strip_prefix sep r with
    | Some r => '(es, r) ← read_parts read sep fuel r; Some (e :: es, r)
    | None => Some ([e], r)
    end
  end.

Fixpoint read_query (fuel : nat) (s : str) : option (RegexCandidateExpr * str) :=
  match fuel with
  | O => None
  | S fuel =>
    match s with
    | [] => None
    | c :: s =>
      if c =? QUOTE then '(t, r) ← read_phrase s; Some (Term t, r)
      else if c =? LPAREN then
        '(e, r) ← read_query fuel s; r ← close_paren r;
        match strip_prefix AND_SEP r with
        | Some r => '(es, r) ← read_parts (read_query fuel) AND_SEP fuel r; Some (All (e :: es), r)
        | None =>
          r ← strip_prefix OR_SEP r;
          '(es, r) ← read_parts (read_query fuel) OR_SEP fuel r; Some (Any (e :: es), r)
        end
      else None
    end
  end.

(** What may follow a query: the end, or the parenthesis that closes it. *)
Definition stops (r : str) : Prop := match r with [] => True | c :: _ => c = RPAREN end.

Lemma read_phrase_quote t r : stops r ->
  read_phrase (concat (map (fun c => if c =? QUOTE then [QUOTE; QUOTE] else [c]) t) ++ QUOTE :: r)
  = Some (t, r).
Proof.
  intros Hr. induction t as [|c t IH]; cbn [map concat app read_phrase].
  - rewrite Z.eqb_refl. destruct r as [|d r]; [done|]. cbn [stops] in Hr. by subst d.
  - destruct (Z.eqb_spec c QUOTE) as [->|Hc]; cbn [app read_phrase].
    + rewrite !Z.eqb_refl, IH. done.
    + rewrite (proj2 (Z.eqb_neq _ _)), IH by done. done.
Qed.

Definition paren (e : RegexCandidateExpr) : str := fts_query e ++ [RPAREN].

Lemma fts_query_all es : fts_query (All es)
  = join_str (lit " AND ") (map (fun e => lit "(" ++ fts_query e ++ lit ")") es).
Proof. done. Qed.
Lemma fts_query_any es : fts_query (Any es)
  = join_str (lit " OR ") (map (fun e => lit "(" ++ fts_query e ++ lit ")") es).
Proof. done. Qed.

(** A join, as its first part followed by operator and part. *)
Lemma join_parts sep e es :
  join_str sep (map (fun e => lit "(" ++ fts_query e ++ lit ")") (e :: es))
  = LPAREN :: paren e ++ concat (map (fun e => (sep ++ [LPAREN]) ++ paren e) es).
Proof.
  revert e. induction es as [|e2 es IH]; intros e.
  - cbn. by rewrite app_nil_r.
  - set (f := fun e => lit "(" ++ fts_query e ++ lit ")") in *.
    change (join_str sep (map f (e :: e2 :: es))) with (f e ++ sep ++ join_str sep (map f (e2 :: es))).
    rewrite IH. subst f. cbn [concat map]. unfold paren. rewrite <-!app_assoc. done.
Qed.

(** The depth that reading needs. *)
Fixpoint read_fuel (e : RegexCandidateExpr) : nat :=
  match e with
  | Term _ => 1
  | All es | Any es => S (foldr (fun e acc => S (read_fuel e) + acc) 0 es)
  end%nat.
Definition parts_fuel (es : list RegexCandidateExpr) : nat :=
  foldr (fun e acc => S (read_fuel e) + acc)%nat 0%nat es.

Section ExprInd.
Variable P : RegexCandidateExpr -> Prop.
Hypothesis Hterm : forall t, P (Term t).
Hypothesis Hall : forall es, Forall P es -> P (All es).
Hypothesis Hany : forall es, Forall P es -> P (Any es).
Fixpoint expr_ind (e : RegexCandidateExpr) : P e :=
  let all := fix all (es : list RegexCandidateExpr) : Forall P es :=
    match es with
    | [] => Forall_nil_2 P
    | e :: es => Forall_cons_2 P e es (expr_ind e) (all es)
    end in
  match e with
  | Term t => Hterm t
  | All es => Hall es (all es)
  | Any es => Hany es (all es)
  end.
End ExprInd.

Definition reads_back (e : RegexCandidateExpr) : Prop := forall fuel r, stops r ->
  well_formed e = true -> (read_fuel e <= fuel)%nat ->
  read_query fuel (fts_query e ++ r) = Some (e, r).

(** No operator starts what follows a combination. *)
Lemma stops_no_sep r : stops r -> strip_prefix AND_SEP r = None /\ strip_prefix OR_SEP r = None.
Proof. destruct r as [|c r]; [done|]. by intros ->. Qed.

Lemma strip_prefix_app p s : strip_prefix p (p ++ s) = Some s.
Proof. by apply strip_prefix_spec. Qed.

Lemma read_parts_back sep es fuel n r : (sep = AND_SEP \/ sep = OR_SEP) -> es <> [] ->
  Forall reads_back es -> forallb well_formed es = true ->
  (parts_fuel es <= n)%nat -> (parts_fuel es <= fuel)%nat -> stops r ->
  read_parts (read_query fuel) sep n (drop (length sep) (concat (map (fun e => sep ++ paren e) es)) ++ r)
  = Some (es, r).
Proof.
  intros Hsep. revert n r. induction es as [|e es IH]; intros n r Hne Hes Hwf Hn Hf Hr; [done|].
  apply Forall_cons in Hes as [He Hes]. cbn [forallb] in Hwf. apply andb_true_iff in Hwf as [Hwe Hwf].
  cbn [parts_fuel foldr] in Hn, Hf. fold (parts_fuel es) in Hn, Hf.
  destruct n as [|n]; [lia|]. cbn [map concat read_parts].
  rewrite <-!app_assoc, drop_app_length. unfold paren at 1. rewrite <-!app_assoc. cbn [app].
  rewrite He; [|done|done|lia]. cbn [mbind option_bind close_paren]. rewrite Z.eqb_refl. cbn [mbind option_bind].
  destruct es as [|e2 es].
  - cbn [map concat app]. destruct (stops_no_sep r Hr) as [H1 H2].
    by destruct Hsep as [-> | ->]; rewrite ?H1, ?H2.
  - assert (Hhead : concat (map (fun e => sep ++ paren e) (e2 :: es))
      = sep ++ drop (length sep) (concat (map (fun e => sep ++ paren e) (e2 :: es)))).
    { cbn [map concat]. by rewrite <-app_assoc, drop_app_length. }
    rewrite Hhead, <-app_assoc, strip_prefix_app.
    by rewrite (IH n r ltac:(done) Hes Hwf ltac:(lia) ltac:(lia) Hr).
Qed.

Lemma reads_back_all e : reads_back e.
Proof.
  assert (Hcomb : forall es (all : bool) sep, sep = (if all then AND_SEP else OR_SEP) ->
    Forall reads_back es -> (2 <= length es)%nat -> forallb well_formed es = true ->
    forall fuel r, stops r -> (S (parts_fuel es) <= fuel)%nat ->
    read_query fuel (join_str (take (length sep - 1) sep)
      (map (fun e => lit "(" ++ fts_query e ++ lit ")") es) ++ r)
    = Some (if all then All es else Any es, r)).
  { intros es all sep Hsep Hes Hlen Hwf fuel r Hr Hf. destruct es as [|e1 [|e2 es]]; [simpl in Hlen; lia..|].
    rewrite join_parts. destruct fuel as [|fuel]; [lia|].
    assert (Hs : take (length sep - 1) sep ++ [LPAREN] = sep) by (subst sep; by destruct all).
    rewrite Hs. cbn [app read_query].
    change (LPAREN =? QUOTE) with false. change (LPAREN =? LPAREN) with true. cbv iota.
    apply Forall_cons in Hes as [He1 Hes]. cbn [forallb] in Hwf.
    apply andb_true_iff in Hwf as [Hw1 Hwf].
    cbn [parts_fuel foldr] in Hf. fold (parts_fuel es) in Hf.
    unfold paren at 1. rewrite <-!app_assoc. cbn [app]. rewrite He1; [|done|done|lia].
    cbn [mbind option_bind close_paren]. rewrite Z.eqb_refl. cbn [mbind option_bind].
    pose proof (read_parts_back sep (e2 :: es) fuel fuel r) as Hparts.
    assert (Hhead : concat (map (fun e => sep ++ paren e) (e2 :: es))
      = sep ++ drop (length sep) (concat (map (fun e => sep ++ paren e) (e2 :: es)))).
    { cbn [map concat]. by rewrite <-app_assoc, drop_app_length. }
    rewrite Hhead, <-app_assoc.
    destruct all; subst sep.
    - rewrite strip_prefix_app. rewrite Hparts; auto; cbn [parts_fuel foldr]; fold (parts_fuel es); lia.
    - change (strip_prefix AND_SEP (OR_SEP ++ ?x)) with (@None str). cbv iota.
      rewrite strip_prefix_app. cbn [mbind option_bind].
      rewrite Hparts; auto; cbn [parts_fuel foldr]; fold (parts_fuel es); lia. }
  induction e as [t|es IH|es IH] using expr_ind; intros fuel r Hr Hwf Hf.
  - destruct fuel as [|fuel]; [simpl in Hf; lia|]. cbn [fts_query].
    unfold fts_quote. rewrite <-app_comm_cons, <-app_assoc. cbn [read_query app]. rewrite Z.eqb_refl.
    by rewrite read_phrase_quote.
  - cbn [well_formed] in Hwf. apply andb_true_iff in Hwf as [Hl Hwf]. apply Nat.leb_le in Hl.
    rewrite fts_query_all. by apply (Hcomb es true AND_SEP).
  - cbn [well_formed] in Hwf. apply andb_true_iff in Hwf as [Hl Hwf]. apply Nat.leb_le in Hl.
    rewrite fts_query_any. by apply (Hcomb es false OR_SEP).
Qed.

Lemma read_fuel_length e : well_formed e = true -> (read_fuel e <= length (fts_query e))%nat.
Proof.
  assert (Hcomb : forall es sep, (2 <= length es)%nat -> forallb well_formed es = true ->
    Forall (fun e => well_formed e = true -> (read_fuel e <= length (fts_query e))%nat) es ->
    (S (parts_fuel es) <= length (join_str sep
       (map (fun e => lit "(" ++ fts_query e ++ lit ")") es)))%nat).
  { intros es sep Hlen Hwf Hes. destruct es as [|e1 es]; [simpl in Hlen; lia|]. clear Hlen.
    rewrite join_parts. cbn [length]. apply le_n_S.
    assert (Hp : forall e es, Forall (fun e => well_formed e = true ->
        (read_fuel e <= length (fts_query e))%nat) (e :: es) -> forallb well_formed (e :: es) = true ->
      (parts_fuel (e :: es) <= length (paren e ++ concat (map (fun e => (sep ++ [LPAREN]) ++ paren e) es)))%nat).
    { clear. intros e es. revert e. induction es as [|e2 es IH]; intros e Hes Hwf;
        apply Forall_cons in Hes as [He Hes]; cbn [forallb] in Hwf;
        apply andb_true_iff in Hwf as [Hw Hwf]; specialize (He Hw); rewrite length_app;
        unfold paren at 1; rewrite length_app; cbn [length].
      - cbn. lia.
      - specialize (IH e2 Hes Hwf). cbn [map concat]. rewrite !length_app in *. cbn [length].
        change (parts_fuel (e :: e2 :: es)) with (S (read_fuel e) + parts_fuel (e2 :: es))%nat. lia. }
    by apply Hp. }
  induction e as [t|es IH|es IH] using expr_ind; intros Hwf.
  - cbn. lia.
  - cbn [well_formed] in Hwf. apply andb_true_iff in Hwf as [Hl Hwf]. apply Nat.leb_le in Hl.
    rewrite fts_query_all. by apply Hcomb.
  - cbn [well_formed] in Hwf. apply andb_true_iff in Hwf as [Hl Hwf]. apply Nat.leb_le in Hl.
    rewrite fts_query_any. by apply Hcomb.
Qed.

Lemma read_query_back e : well_formed e = true ->
  read_query (length (fts_query e)) (fts_query e) = Some (e, []).
Proof.
  intros Hwf. rewrite <-(app_nil_r (fts_query e)) at 2.
  apply reads_back_all; [done|done|by apply read_fuel_length].
Qed.

(** An index that reads its query and evaluates it. *)
Definition reading_index (query content : str) : bool :=
  match read_query (length query) query with
  | Some (e, []) => expr_admits e content
  | _ => false
  end.
#[export] Instance reading_index_fts : TrigramFts reading_index.
Proof. intros e content Hwf Ha. unfold reading_index. by rewrite read_query_back. Qed.

(** ** A reference matcher

    The end positions of the matches that start at a position, by the
    documented meaning of the constructors; a class matches any byte. *)
Fixpoint steps_through (step : nat -> list nat) (n : nat) (starts : list nat) : list nat :=
  match n with
  | O => starts
  | S n => steps_through step n (concat (map step starts))
  end.

Fixpoint chain_ends (ends : Hir -> nat -> list nat) (es : list Hir) (i : nat) : list nat :=
  match es with
  | [] => [i]
  | e :: es => concat (map (chain_ends ends es) (ends e i))
  end.

Fixpoint match_ends (h : bytes) (hir : Hir) (i : nat) : list nat :=
  match hir with
  | HirEmpty | HirLook => [i]
  | HirLiteral l =>
    let j := (i + length l)%nat in if bool_decide (slice h i j = l) then [j] else []
  | HirClass => if (i <? length h)%nat then [S i] else []
  | HirCapture sub => match_ends h sub i
  | HirRepetition min max sub =>
    let most := default (min + len h) max in
    concat (map (fun n => steps_through (match_ends h sub) n [i])
      (seq (Z.to_nat min) (Z.to_nat (most - min + 1))))
  | HirConcat es => chain_ends (match_ends h) es i
  | HirAlternation es => concat (map (fun e => match_ends h e i) es)
  end.
Definition ends_match (hir : Hir) (h : bytes) (i j : nat) : Prop := j ∈ match_ends h hir i.

(** Steps that move forward stay forward. *)
Lemma steps_forward step n starts j : (forall i j, j ∈ step i -> (i <= j)%nat) ->
  j ∈ steps_through step n starts -> exists i, i ∈ starts /\ (i <= j)%nat.
Proof.
  intros Hstep. revert starts. induction n as [|n IH]; intros starts; simpl; [eauto|].
  intros (k & Hk & Hkj)%IH. apply elem_of_concat_map in Hk as (i & Hi & Hik).
  exists i. split; [done|]. apply Hstep in Hik. lia.
Qed.

Lemma chain_forward ends es i j : Forall (fun e => forall i j, j ∈ ends e i -> (i <= j)%nat) es ->
  j ∈ chain_ends ends es i -> (i <= j)%nat /\ forall e, e ∈ es ->
    exists i' j', (i <= i' /\ i' <= j' /\ j' <= j)%nat /\ j' ∈ ends e i'.
Proof.
  intros Hes. revert i. induction Hes as [|e es He Hes IH]; intros i; simpl.
  - intros ->%list_elem_of_singleton. split; [done|]. by intros e ?%elem_of_nil.
  - intros (k & Hk & Hkj)%elem_of_concat_map. apply IH in Hkj as [Hle Hall].
    pose proof (He _ _ Hk). split; [lia|]. intros e' [-> | He']%elem_of_cons.
    + exists i, k. split; [lia|done].
    + destruct (Hall e' He') as (i' & j' & Hij & Hm). exists i', j'. split; [lia|done].
Qed.

Lemma match_forward h hir : forall i j, j ∈ match_ends h hir i -> (i <= j)%nat.
Proof.
  induction hir as [|l| | |min max sub IH|sub IH|es IH|es IH] using hir_ind; intros i j;
    cbn [match_ends].
  - by intros ->%list_elem_of_singleton.
  - destruct (bool_decide _); [intros ->%list_elem_of_singleton; lia|by intros ?%elem_of_nil].
  - destruct (_ <? _)%nat; [intros ->%list_elem_of_singleton; lia|by intros ?%elem_of_nil].
  - by intros ->%list_elem_of_singleton.
  - intros (n & _ & Hj)%elem_of_concat_map. apply steps_forward in Hj as (k & Hk & Hkj); [|done].
    by apply list_elem_of_singleton in Hk as ->.
  - apply IH.
  - intros Hj. by apply chain_forward in Hj as [].
  - intros (e & He & Hj)%elem_of_concat_map. rewrite Forall_forall in IH. by apply (IH e).
Qed.

(** A regex engine of one pattern. *)
Section PatternEngine.
Variables (pattern : str) (tree : Hir).
Definition pattern_parse (query : str) : option Hir :=
  if bool_decide (query = pattern) then Some tree else None.
Definition pattern_match (query content : str) : bool :=
  bool_decide (query = pattern)
  && existsb (fun i => match match_ends (utf8 content) tree i with [] => false | _ => true end)
       (seq 0 (S (length (utf8 content)))).
Fixpoint literal_extract (kind : ExtractKind) (hir : Hir) : option (list bytes) :=
  match hir with
  | HirLiteral l => Some [l]
  | HirCapture sub => literal_extract kind sub
  | _ => None
  end.

#[local] Instance pattern_engine :
  RegexEngine pattern_parse literal_extract pattern_match ends_match.
Proof.
  unfold ends_match. split.
  - intros l h i j. cbn [match_ends]. destruct (bool_decide_reflect (slice h i (i + length l) = l));
      [by intros ->%list_elem_of_singleton|by intros ?%elem_of_nil].
  - done.
  - intros min max sub h i j Hmin. cbn [match_ends].
    intros (n & Hn%elem_of_seq & Hj)%elem_of_concat_map. destruct n as [|n]; [lia|].
    cbn [steps_through map concat] in Hj. rewrite app_nil_r in Hj.
    apply steps_forward in Hj as (k & Hk & Hkj); [|apply match_forward].
    exists i, k. pose proof (match_forward _ _ _ _ Hk). split; [lia|done].
  - intros es h i j. cbn [match_ends]. intros Hj. apply chain_forward in Hj as [_ Hall]; [done|].
    apply Forall_forall. intros. by eapply match_forward.
  - intros es h i j. cbn [match_ends]. by intros ?%elem_of_concat_map.
  - intros kind hir literals h i j. revert literals.
    induction hir as [|l| | |min max sub IH|sub IH|es IH|es IH] using hir_ind; intros literals;
      cbn [literal_extract match_ends]; try done; [|apply IH].
    intros [= <-]. destruct (bool_decide_reflect (slice h i (i + length l) = l)) as [He|];
      [|by intros ?%elem_of_nil]. intros ->%list_elem_of_singleton.
    exists l. split; [by left|]. rewrite He. by destruct kind.
  - intros query hir content. unfold pattern_parse, pattern_match.
    destruct (bool_decide_reflect (query = pattern)); [|done]. intros [= <-]. cbn [andb].
    intros (i & _ & Hi)%existsb_exists. exists i.
    destruct (match_ends (utf8 content) tree i) as [|j js]; [done|]. exists j. by left.
Qed.
End PatternEngine.

(** Case folding of ASCII letters, with the Kelvin sign and the long s. *)
Definition demo_fold (c : Z) : option (list (Z * Z)) :=
  let lower := to_ascii_lowercase c in
  Some (if (97 <=? lower) && (lower <=? 122)
        then [(lower, lower); (lower - 32, lower - 32)]
             ++ (if lower =? 107 then [(0x212A, 0x212A)] else [])
             ++ (if lower =? 115 then [(0x17F, 0x17F)] else [])
        else [(c, c)]).
Fixpoint matches_at (fold : Z -> option (list (Z * Z))) (query content : str) : bool :=
  match query, content with
  | [], _ => true
  | q :: query, c :: content =>
    match fold q with
    | Some ranges => existsb (fun r => (r.1 <=? c) && (c <=? r.2)) ranges
    | None => true
    end && matches_at fold query content
  | _ :: _, [] => false
  end.
Definition folded_match (fold : Z -> option (list (Z * Z))) (case_sensitive : bool)
    (query content : str) : bool :=
  if case_sensitive then occurs_in query content
  else existsb (fun i => matches_at fold query (drop i content)) (seq 0 (S (length content))).

#[export] Instance folded_engine fold : LiteralEngine fold (folded_match fold).
Proof.
  split.
  - intros query content. apply occurs_in_spec.
  - intros query content. unfold folded_match. intros (i & _ & Hi)%existsb_exists.
    assert (Hm : forall q c, matches_at fold q c = true -> exists w r, c = w ++ r /\
      Forall2 (fun q c => forall ranges, fold q = Some ranges ->
        exists r, r ∈ ranges /\ r.1 <= c <= r.2) q w).
    { induction q as [|x q IH]; intros c; cbn [matches_at]; [by exists [], c|].
      destruct c as [|y c]; [done|]. intros [Hx Hq]%andb_true_iff.
      destruct (IH c Hq) as (w & r & -> & Hw). exists (y :: w), r. split; [done|].
      constructor; [|done]. intros ranges Hr. rewrite Hr in Hx.
      apply existsb_exists in Hx as (rg & Hin & Hb). bool_to_prop.
      exists rg. split; [by apply list_elem_of_In|lia]. }
    destruct (Hm _ _ Hi) as (w & r & He & Hw). exists w. split; [|done].
    exists (take i content), r. by rewrite <-He, take_drop.
Qed.

Lemma within_start nodes : within (mk_plan_budget nodes 0 0).
Proof. by split. Qed.

Lemma extracted_literal_plan_bounded extract hir nodes kind src plan :
  extracted_literal_plan extract hir nodes kind src = inr (Some plan) ->
  nodes_visited plan = nodes
  /\ len (expr_terms (expression plan)) <= term_count plan <= MAX_REGEX_PLAN_TERMS
  /\ term_cost (expr_terms (expression plan)) <= term_bytes plan <= MAX_REGEX_PLAN_TERM_BYTES.
Proof.
  unfold extracted_literal_plan. destruct (extract kind hir) as [literals|]; [|done].
  destruct (bool_decide _); [done|].
  destruct (collect_every _ _ _) as [[|[alternatives|]] b] eqn:Hc; try done.
  destruct (combine_candidate_expr alternatives false) as [e|] eqn:He; [|done]. intros [= <-].
  cbn [expression nodes_visited term_count term_bytes].
  destruct (charges_collect_every literal_candidate_expr literals
    ltac:(apply Forall_forall; intros; apply charges_literal) _ _ _
    (within_start nodes) Hc)
    as ([Ht Hb] & _ & Hlt & Hlb).
  cbn [budget_terms budget_term_bytes option_list_terms] in *.
  destruct (combine_terms alternatives false) as [H1 H2]. rewrite He in H1, H2.
  cbn [option_terms] in *. split; [done|]. lia.
Qed.

Lemma regex_plan_bounds parse extract query case_sensitive plan :
  regex_candidate_plan parse extract query case_sensitive = Planned plan ->
  exists hir, parse query = Some hir /\ nodes_visited plan = hir_size hir
  /\ hir_size hir <= MAX_REGEX_PLAN_NODES
  /\ len (expr_terms (expression plan)) <= term_count plan <= MAX_REGEX_PLAN_TERMS
  /\ term_cost (expr_terms (expression plan)) <= term_bytes plan <= MAX_REGEX_PLAN_TERM_BYTES.
Proof.
  unfold regex_candidate_plan. destruct (negb case_sensitive); [done|].
  destruct (parse query) as [hir|] eqn:Hp; [|done]. unfold bounded_hir_node_count.
  rewrite visit_counts by done. rewrite Z.add_0_l. destruct (_ <? _) eqn:Hn; [done|]. bool_to_prop.
  intros Hplan. exists hir. split; [done|].
  assert (H : nodes_visited plan = hir_size hir
    /\ len (expr_terms (expression plan)) <= term_count plan <= MAX_REGEX_PLAN_TERMS
    /\ term_cost (expr_terms (expression plan)) <= term_bytes plan <= MAX_REGEX_PLAN_TERM_BYTES).
  { destruct (regex_candidate_expr hir _) as [[|[e|]] b] eqn:He; [done|..].
    - injection Hplan as <-. cbn [expression nodes_visited term_count term_bytes].
      destruct (charges_regex hir _ _ _
        (within_start (hir_size hir)) He)
        as ([Ht Hb] & _ & Hlt & Hlb).
      cbn [budget_terms budget_term_bytes option_terms] in *. split; [done|]. lia.
    - destruct (extracted_regex_candidate_plan extract hir (hir_size hir)) as [d|] eqn:Hd; [|done].
      change (d = Planned plan) in Hplan. subst d. unfold extracted_regex_candidate_plan in Hd.
      cbv zeta in Hd.
      match type of Hd with context [merge_sort plan_le ?l] => set (plans := l) in Hd end.
      assert (Hplans : forall p, p ∈ plans -> exists kind src,
        extracted_literal_plan extract hir (hir_size hir) kind src = inr (Some p)).
      { intros p Hin. subst plans. apply elem_of_app in Hin as [Hin|Hin].
        - destruct (extracted_literal_plan _ _ _ Prefix _) as [[]|[q|]] eqn:E;
            [by apply elem_of_nil in Hin| |by apply elem_of_nil in Hin].
          apply list_elem_of_singleton in Hin as ->. eauto.
        - destruct (extracted_literal_plan _ _ _ Suffix _) as [[]|[q|]] eqn:E;
            [by apply elem_of_nil in Hin| |by apply elem_of_nil in Hin].
          apply list_elem_of_singleton in Hin as ->. eauto. }
      destruct (merge_sort plan_le plans) as [|p ps] eqn:Hsort.
      + destruct (extracted_literal_plan _ _ _ Prefix _) as [[]|]; [by injection Hd as ?|].
        destruct (extracted_literal_plan _ _ _ Suffix _) as [[]|]; [by injection Hd as ?|done].
      + injection Hd as <-. destruct (Hplans p) as (kind & src & Hx).
        { rewrite <-(merge_sort_Permutation plan_le plans), Hsort. by left. }
        by apply extracted_literal_plan_bounded in Hx. }
  tauto.
Qed.

Lemma sort_dedup_length {A} `{KeyOrder A, EqDecision A} (l : list A) :
  (length (sort_dedup l) <= length l)%nat.
Proof.
  unfold sort_dedup. rewrite <-(Permutation_length (merge_sort_Permutation key_le l)).
  fold (sort_keys l). generalize (sort_keys l). clear l. intros [|x l]; [done|]. cbn [dedup].
  revert x. induction l as [|y l IH]; intros x; cbn [dedup_from length]; [done|].
  case_bool_decide as Hxy; [subst; specialize (IH y)|specialize (IH y)]; cbn [length] in *; lia.
Qed.

Lemma literal_plan_bounds fold_ranges exhaustive_text query case_sensitive plan :
  literal_identifier_candidate_plan fold_ranges exhaustive_text query case_sensitive = Planned plan ->
  len (expr_terms (expression plan)) = term_count plan
  /\ term_count plan <= MAX_CASE_FOLD_LITERAL_VARIANTS
  /\ term_cost (expr_terms (expression plan)) = term_bytes plan
  /\ term_bytes plan <= MAX_LITERAL_IDENTIFIER_PLAN_BYTES.
Proof.
  unfold literal_identifier_candidate_plan. destruct (negb _); [done|].
  destruct (if case_sensitive then _ else _) as [variants|] eqn:Hvar; [|done].
  destruct (variant_terms variants 0 0) as [|[terms bytes]] eqn:Hterms; [done|].
  destruct (combine_candidate_expr terms false) as [e|] eqn:He; [|done]. intros [= <-].
  cbn [expression term_count term_bytes].
  apply variant_terms_spec in Hterms as (-> & Hle & ->); [|done].
  assert (Hl : len variants <= MAX_CASE_FOLD_LITERAL_VARIANTS).
  { destruct case_sensitive; [by injection Hvar as <-|].
    destruct (case_fold_literal_variants fold_ranges query) as [vs|] eqn:Hvs; [|done].
    injection Hvar as <-. unfold case_fold_literal_variants in Hvs. destruct (forallb _ query); [|done].
    destruct (expand_variants _ query _) as [values|] eqn:Hx; [|done]. injection Hvs as <-.
    apply (expand_variants_length _ _ _ _ 0%nat) in Hx as [_ Hx]; [|by apply Forall_singleton|done].
    cbn [variant_values]. pose proof (sort_dedup_length values). unfold len in *. lia. }
  assert (Hterms : expr_terms e = variants).
  { destruct variants as [|v [|w variants]]; [done|..]; injection He as <-; [done|].
    change (concat (map expr_terms (map Term (v :: w :: variants))) = v :: w :: variants).
    generalize (v :: w :: variants). intros l. induction l as [|x l IH]; [done|].
    cbn [map concat expr_terms app]. by f_equal. }
  rewrite Hterms. split; [done|]. split; [done|]. split; [done|]. by apply Hle.
Qed.

(** ** Properties *)

(** C32: a planned regex loses no match.  When the planner replaces the scan of
    the repository by an index query, every text the regex matches is found by
    that query; a case-insensitive regex is never planned; and the query the
    planner prints is read back as the expression it planned, whatever the
    terms hold. *)
Theorem regex_plan_keeps_matches parse extract is_match hir_match fts_match
    `{!RegexEngine parse extract is_match hir_match} `{!TrigramFts fts_match}
    query case_sensitive plan content :
  regex_candidate_plan parse extract query case_sensitive = Planned plan ->
  Forall is_char content -> is_match query content = true ->
  case_sensitive = true
  /\ fts_match (fts_query (expression plan)) content = true
  /\ read_query (length (fts_query (expression plan))) (fts_query (expression plan))
     = Some (expression plan, []).
Proof.
  intros Hp Hc Hm. destruct (regex_plan_sound _ _ _ _ Hp Hc Hm) as (Hcs & Hw & Ha).
  split; [done|]. split; [by apply fts_finds|by apply read_query_back].
Qed.

(** An exhaustive literal search loses no match.  Every text the literal
    matcher finds, up to Unicode simple case folding when the search is
    case-insensitive, is found by the index query: the variants of the literal
    cover every folding of its characters although the index folds ASCII only. *)
Theorem literal_plan_keeps_matches fold_ranges literal_match fts_match
    `{!LiteralEngine fold_ranges literal_match} `{!TrigramFts fts_match}
    exhaustive_text query case_sensitive plan content :
  literal_identifier_candidate_plan fold_ranges exhaustive_text query case_sensitive = Planned plan ->
  literal_match case_sensitive query content = true ->
  exhaustive_text = true /\ fts_match (fts_query (expression plan)) content = true.
Proof.
  intros Hp Hm. destruct (literal_plan_sound _ _ _ _ _ Hp Hm) as [Hw Ha].
  split; [|by apply fts_finds]. unfold literal_identifier_candidate_plan in Hp.
  destruct (literal_identifier_eligible exhaustive_text query) eqn:He; [|done].
  by apply eligible_query in He as [].
Qed.

(** Planning is bounded.  The node count is exact and stops a tree of more
    than [MAX_REGEX_PLAN_NODES] nodes; a regex plan holds at most
    [MAX_REGEX_PLAN_TERMS] terms of [MAX_REGEX_PLAN_TERM_BYTES] bytes together,
    and no more than its counters report; a literal plan at most
    [MAX_CASE_FOLD_LITERAL_VARIANTS] terms of [MAX_LITERAL_IDENTIFIER_PLAN_BYTES]
    bytes, which its counters report exactly. *)
Theorem regex_plan_bounded :
  (forall hir, bounded_hir_node_count hir
    = if MAX_REGEX_PLAN_NODES <? hir_size hir then inl ExceededNodes else inr (hir_size hir))
  /\ (forall parse extract query case_sensitive plan,
       regex_candidate_plan parse extract query case_sensitive = Planned plan ->
       0 < nodes_visited plan <= MAX_REGEX_PLAN_NODES
       /\ len (expr_terms (expression plan)) <= term_count plan <= MAX_REGEX_PLAN_TERMS
       /\ term_cost (expr_terms (expression plan)) <= term_bytes plan <= MAX_REGEX_PLAN_TERM_BYTES)
  /\ (forall fold_ranges exhaustive_text query case_sensitive plan,
       literal_identifier_candidate_plan fold_ranges exhaustive_text query case_sensitive = Planned plan ->
       len (expr_terms (expression plan)) = term_count plan
       /\ term_count plan <= MAX_CASE_FOLD_LITERAL_VARIANTS
       /\ term_cost (expr_terms (expression plan)) = term_bytes plan
       /\ term_bytes plan <= MAX_LITERAL_IDENTIFIER_PLAN_BYTES).
Proof.
  split; [|split].
  - intros hir. unfold bounded_hir_node_count. by rewrite visit_counts.
  - intros parse extract query case_sensitive plan Hp.
    destruct (regex_plan_bounds _ _ _ _ _ Hp) as (hir & _ & Hn & Hmax & Hrest).
    pose proof (hir_size_pos hir). rewrite Hn. split; [lia|done].
  - intros fold_ranges exhaustive_text query case_sensitive plan. apply literal_plan_bounds.
Qed.

(** *** Witnesses *)

(** The pattern [fn (alpha_|beta_)+.]. *)
Definition demo_pattern : str := lit "fn (alpha_|beta_)+.".
Definition demo_tree : Hir :=
  HirConcat [HirLiteral (lit "fn "); HirRepetition 1 None
    (HirCapture (HirAlternation [HirLiteral (lit "alpha_"); HirLiteral (lit "beta_")])); HirClass].
Definition demo_plan : RegexCandidatePlan :=
  mk_plan (Any [Term (lit "alpha_"); Term (lit "beta_")]) MandatoryLiterals 8 2 11 1 0.
Definition demo_content : str := lit "pub fn beta_x()".

Lemma demo_plan_eq :
  regex_candidate_plan (pattern_parse demo_pattern demo_tree) literal_extract demo_pattern true
  = Planned demo_plan.
Proof. vm_compute. reflexivity. Qed.

Lemma regex_plan_keeps_matches_witness :
  reading_index (fts_query (expression demo_plan)) demo_content = true
  /\ reading_index (fts_query (expression demo_plan)) (lit "fn gamma") = false
  /\ fts_query (expression demo_plan)
     = lit "(" ++ fts_quote (lit "alpha_") ++ lit ") OR (" ++ fts_quote (lit "beta_") ++ lit ")".
Proof.
  split; [|split; [vm_compute; reflexivity|reflexivity]].
  refine (proj1 (proj2 (@regex_plan_keeps_matches (pattern_parse demo_pattern demo_tree)
    literal_extract (pattern_match demo_pattern demo_tree) ends_match reading_index
    (pattern_engine demo_pattern demo_tree) reading_index_fts
    demo_pattern true demo_plan demo_content demo_plan_eq _ _))).
  - apply Forall_forall. intros c Hc%list_elem_of_In.
    assert (H : forallb (fun c => (0 <=? c) && (c <? 0x110000)) demo_content = true)
      by (vm_compute; reflexivity).
    rewrite forallb_forall in H. specialize (H c Hc). apply andb_true_iff in H as [H1 H2].
    unfold is_char. apply Z.leb_le in H1. apply Z.ltb_lt in H2. lia.
  - vm_compute. reflexivity.
Defined.

(** [make_kind_set], whose k and s have non-ASCII foldings. *)
Definition demo_literal : str := lit "make_kind_set".
Lemma literal_plan_keeps_matches_witness : exists plan,
  literal_identifier_candidate_plan demo_fold true demo_literal false = Planned plan
  /\ term_count plan = 8
  /\ reading_index (fts_query (expression plan)) (lit "let MAKE_" ++ [0x212A] ++ lit "ind_Set = 1") = true.
Proof.
  eexists. split; [vm_compute; reflexivity|]. split; [reflexivity|].
  refine (proj2 (@literal_plan_keeps_matches demo_fold (folded_match demo_fold) reading_index
    (folded_engine demo_fold) reading_index_fts true demo_literal false _ _ _ _));
    vm_compute; reflexivity.
Defined.

Lemma regex_plan_bounded_witness :
  0 < nodes_visited demo_plan <= MAX_REGEX_PLAN_NODES
  /\ len (expr_terms (expression demo_plan)) <= term_count demo_plan <= MAX_REGEX_PLAN_TERMS
  /\ term_cost (expr_terms (expression demo_plan)) <= term_bytes demo_plan <= MAX_REGEX_PLAN_TERM_BYTES.
Proof. exact (proj1 (proj2 regex_plan_bounded) _ _ _ _ _ demo_plan_eq). Defined.
