(* ===== verification/RegexScan.v ===== *)
(** * Scanning for regex matches

    [Services::regex_hits] and [regex_candidate_hits] of
    [src/src/services/search/regex_plan.rs], the work budget and scan limits of
    [services/search/types.rs], the path filter of [services/validation.rs], and
    the scoped path predicate of [src/src/storage/scoped_regex.rs].

    A scan reads one snapshot of the index: the files in the order of their
    identifiers, each with its chunks in the order of their first bytes.  The
    SQL statements of [storage/read] are functions of the snapshot.  The
    cancellation token is shared with other threads: the outcome of its [k]-th
    probe is a parameter. *)

From S2P Require Import Prelude Chars Bytes Store Paths RegexPlan.
Open Scope Z_scope.
Open Scope store_scope.

Definition MAX_REGEX_CANDIDATES : Z := 2000.
Definition MAX_REGEX_FILES_SCANNED : Z := 10000.
Definition MAX_REGEX_CHUNKS_PER_FILE : Z := 256.
Definition MAX_REGEX_CANDIDATE_CHUNKS : Z := 10000.
Definition MAX_SCOPED_REGEX_ROWS_SCANNED : Z := 100000.
Definition DEFAULT_REGEX_WORK_FILES : Z := MAX_REGEX_FILES_SCANNED.
Definition DEFAULT_REGEX_WORK_CHUNKS : Z := 20510.
Definition DEFAULT_REGEX_WORK_BYTES : Z := 1024 * 1024 * 1024.
Definition REGEX_CANCELLATION_CHECK_INTERVAL : Z := 64.
Definition REGEX_CANDIDATE_PAGE_SIZE : nat := 512.

(** ** The snapshot *)
Record FileRecord := mk_file {
  file_id : Z;
  file_path : str;
  file_generation : Z
}.
Record ChunkRecord := mk_chunk {
  chunk_id : Z;
  chunk_content : str;
  chunk_start_line : Z;
  chunk_end_line : Z;
  chunk_start_byte : Z;
  chunk_end_byte : Z;
  chunk_token_count : Z
}.
Record ChunkHit := mk_hit {
  hit_chunk : ChunkRecord;
  hit_file_id : Z;
  hit_path : str;
  hit_generation : Z
}.
Definition IndexSnapshot : Type := list (FileRecord * list ChunkRecord).

Definition hit_of (f : FileRecord) (c : ChunkRecord) : ChunkHit :=
  mk_hit c (file_id f) (file_path f) (file_generation f).
(** The join of chunks and files, [ORDER BY f.id, c.start_byte, c.id]. *)
Definition all_hits (s : IndexSnapshot) : list ChunkHit :=
  concat (map (fun '(f, cs) => map (hit_of f) cs) s).
Definition hit_content (h : ChunkHit) : str := chunk_content (hit_chunk h).

(** ** Path predicates in SQL *)
Inductive ScopedRegexPathAtom :=
| AtomPrefix (value : str)
| AtomChildren (value : str).

(** [trim_matches('/')]. *)
Fixpoint trim_slashes_start (s : str) : str :=
  match s with
  | c :: s' => if c =? SLASH then trim_slashes_start s' else s
  | [] => []
  end.
Definition trim_slashes (s : str) : str :=
  rev (trim_slashes_start (rev (trim_slashes_start s))).

(** What SQLite computes for the clause of an atom: [substr(path, 1,
    length(value) + 1) = value || '/'], and equality for a prefix. *)
Definition atom_admits (atom : ScopedRegexPathAtom) (path : str) : bool :=
  let below value := bool_decide (take (length value + 1) path = value ++ [SLASH]) in
  match atom with
  | AtomPrefix value => bool_decide (path = value) || below value
  | AtomChildren value => below value
  end.

(** ** Work budget *)
Record RegexWorkBudget := mk_work {
  candidate_files : Z;
  candidate_chunks : Z;
  candidate_bytes : Z
}.

Definition enforce (b : RegexWorkBudget) (dimension : RegexWorkDimension) (observed limit : Z)
    : result () :=
  if observed <=? limit then Ok ()
  else Err (RegexWorkBudgetExceeded dimension (candidate_files b) (candidate_chunks b)
              (candidate_bytes b) limit).

(** ** Counters and outcomes *)
Inductive RegexPlanningOutcome :=
| PlanningTrigram (source : RegexPlanSource)
| PlanningFullScan (reason : option RegexPlanFallbackReason).
Record SearchPhaseCounters := mk_phases {
  regex_planning : RegexPlanningOutcome;
  regex_plan_nodes : Z;
  regex_plan_terms : Z;
  regex_plan_term_bytes : Z;
  regex_files_considered : Z;
  regex_candidate_chunks : Z;
  regex_chunks_loaded : Z;
  regex_chunks_verified : Z;
  regex_retained_chunks : Z
}.
Record RegexScan := mk_scan {
  hits : list ChunkHit;
  phases : SearchPhaseCounters;
  limitation : option error
}.

Inductive RegexScanLimit :=
| Complete (limit : option Z)
| Ranked (max_candidates : Z) (allows_path : str -> bool).

Definition limit_allows_path (l : RegexScanLimit) (path : str) : bool :=
  match l with Complete _ => true | Ranked _ allows => allows path end.

(** [Error::retrieval_limit_details().is_some()]. *)
Definition is_retrieval_limit (e : error) : bool :=
  match e with
  | RetrievalLimitExceeded _ _ _ | RetrievalPathLimitExceeded _ _ _ _
  | RegexWorkBudgetExceeded _ _ _ _ _ => true
  | _ => false
  end.

(** The state the loops thread: budget, files charged, hits, counters and the
    number of cancellation probes made. *)
Record ScanState := mk_scan_state {
  work : RegexWorkBudget;
  charged_files : list Z;
  scan_hits : list ChunkHit;
  scan_phases : SearchPhaseCounters;
  probes : nat
}.

(** A step goes on, fails with the error ([?]), returns a scan early, or runs
    out of the model's fuel. *)
Inductive outcome (A : Type) :=
| SOk (a : A)
| SErr (e : error)
| SReturn (scan : RegexScan)
| SFuel.
Arguments SOk {A} _.
Arguments SErr {A} _.
Arguments SReturn {A} _.
Arguments SFuel {A}.
Definition scanning (A : Type) : Type := ScanState -> outcome A * ScanState.

Definition scan_ok {A} (a : A) : scanning A := fun st => (SOk a, st).
Definition scan_fail {A} (e : error) : scanning A := fun st => (SErr e, st).
Definition scan_of {A} (r : result A) : scanning A := fun st =>
  match r with Ok a => (SOk a, st) | Err e => (SErr e, st) end.
Definition scan_bind {A B} (m : scanning A) (k : A -> scanning B) : scanning B := fun st =>
  match m st with
  | (SOk a, st) => k a st
  | (SErr e, st) => (SErr e, st)
  | (SReturn scan, st) => (SReturn scan, st)
  | (SFuel, st) => (SFuel, st)
  end.
Declare Scope scan_scope.
Notation "'let$' x ':=' m 'in' k" := (scan_bind m (fun x => k))
  (at level 10, x pattern, m at level 100, k at level 200) : scan_scope.
Open Scope scan_scope.

Fixpoint for_each {A} (f : A -> scanning ()) (l : list A) : scanning () :=
  match l with
  | [] => scan_ok ()
  | x :: l => let$ _ := f x in for_each f l
  end.

Definition get_state : scanning ScanState := fun st => (SOk st, st).
Definition set_work (w : RegexWorkBudget) : scanning () := fun st =>
  (SOk (), mk_scan_state w (charged_files st) (scan_hits st) (scan_phases st) (probes st)).
Definition set_charged (fs : list Z) : scanning () := fun st =>
  (SOk (), mk_scan_state (work st) fs (scan_hits st) (scan_phases st) (probes st)).
Definition push_hit (h : ChunkHit) : scanning () := fun st =>
  (SOk (), mk_scan_state (work st) (charged_files st) (scan_hits st ++ [h]) (scan_phases st)
             (probes st)).
Definition update_phases (f : SearchPhaseCounters -> SearchPhaseCounters) : scanning () := fun st =>
  (SOk (), mk_scan_state (work st) (charged_files st) (scan_hits st) (f (scan_phases st)) (probes st)).

Definition count_candidates (n : Z) (p : SearchPhaseCounters) : SearchPhaseCounters :=
  mk_phases (regex_planning p) (regex_plan_nodes p) (regex_plan_terms p) (regex_plan_term_bytes p)
    (regex_files_considered p) n (regex_chunks_loaded p) (regex_chunks_verified p)
    (regex_retained_chunks p).
Definition count_loaded (p : SearchPhaseCounters) : SearchPhaseCounters :=
  mk_phases (regex_planning p) (regex_plan_nodes p) (regex_plan_terms p) (regex_plan_term_bytes p)
    (regex_files_considered p) (regex_candidate_chunks p)
    (u64_saturating_add (regex_chunks_loaded p) 1) (regex_chunks_verified p) (regex_retained_chunks p).
Definition count_verified (p : SearchPhaseCounters) : SearchPhaseCounters :=
  mk_phases (regex_planning p) (regex_plan_nodes p) (regex_plan_terms p) (regex_plan_term_bytes p)
    (regex_files_considered p) (regex_candidate_chunks p) (regex_chunks_loaded p)
    (u64_saturating_add (regex_chunks_verified p) 1) (regex_retained_chunks p).
Definition count_retained (p : SearchPhaseCounters) : SearchPhaseCounters :=
  mk_phases (regex_planning p) (regex_plan_nodes p) (regex_plan_terms p) (regex_plan_term_bytes p)
    (regex_files_considered p) (regex_candidate_chunks p) (regex_chunks_loaded p)
    (regex_chunks_verified p) (u64_saturating_add (regex_retained_chunks p) 1).

(** [<[T]>::chunks]. *)
Fixpoint list_chunks {A} (fuel n : nat) (l : list A) : list (list A) :=
  match fuel, l with
  | S fuel, _ :: _ => take n l :: list_chunks fuel n (drop n l)
  | _, _ => []
  end.

Record ScanRequest := mk_request {
  query : str;
  exhaustive_text : bool;
  include_paths : list str;
  exclude_paths : list str;
  case_sensitive : bool
}.

Section Scanning.
Variable cancelled : nat -> bool.
Variable glob_valid : str -> bool.
Variable glob_match : str -> str -> bool.
Variable parse : str -> option Hir.
Variable extract : ExtractKind -> Hir -> option (list bytes).
Variable fold_ranges : Z -> option (list (Z * Z)).
Variable fts_match : str -> str -> bool.
(** [Regex::is_match] of the compiled matcher of the request. *)
Variable is_match : str -> bool.

Definition check_cancelled : scanning () := fun st =>
  (if cancelled (probes st) then SErr Cancelled else SOk (),
   mk_scan_state (work st) (charged_files st) (scan_hits st) (scan_phases st) (S (probes st))).

Definition charge_file : scanning () :=
  let$ _ := check_cancelled in
  let$ st := get_state in
  let w := work st in
  let w := mk_work (u64_saturating_add (candidate_files w) 1) (candidate_chunks w)
             (candidate_bytes w) in
  let$ _ := set_work w in
  scan_of (enforce w CandidateFiles (candidate_files w) DEFAULT_REGEX_WORK_FILES).

Definition charge_chunk (bytes : Z) : scanning () :=
  let$ st := get_state in
  let w := work st in
  let w := mk_work (candidate_files w) (u64_saturating_add (candidate_chunks w) 1)
             (u64_saturating_add (candidate_bytes w) bytes) in
  let$ _ := set_work w in
  let$ _ := scan_of (enforce w CandidateChunks (candidate_chunks w) DEFAULT_REGEX_WORK_CHUNKS) in
  let$ _ := scan_of (enforce w CandidateBytes (candidate_bytes w) DEFAULT_REGEX_WORK_BYTES) in
  if candidate_chunks w mod REGEX_CANCELLATION_CHECK_INTERVAL =? 0 then check_cancelled
  else scan_ok ().

(** ** The path filter *)
Record PathFilter := mk_filter {
  filter_includes : RepositoryPatternSet;
  filter_excludes : RepositoryPatternSet;
  include_all : bool
}.
Definition new_filter (includes excludes : list str) : result PathFilter :=
  let* i := new_pattern_set glob_valid includes in
  let* e := new_pattern_set glob_valid excludes in
  Ok (mk_filter i e (bool_decide (includes = []))).
Definition allows (f : PathFilter) (path : str) : bool :=
  (include_all f || Paths.is_match glob_match (filter_includes f) path)
  && negb (Paths.is_match glob_match (filter_excludes f) path).

(** ** The scoped SQL clause *)
Definition expressible_scoped_regex_path (pattern : str) : option ScopedRegexPathAtom :=
  match parse_pattern glob_valid pattern with
  | Err _ => None
  | Ok pattern =>
    if bool_decide (pattern = []) then None
    else if negb (has_glob_meta pattern) then Some (AtomPrefix pattern)
    else match strip_suffix (lit "/**") pattern with
         | None => None
         | Some prefix =>
           let prefix := trim_slashes prefix in
           if bool_decide (prefix = []) || has_glob_meta prefix then None
           else Some (AtomChildren prefix)
         end
  end.

(** The rows [scoped_regex_path_sql] lets through. *)
Definition sql_admits (includes excludes : list str) (path : str) : bool :=
  match mapM expressible_scoped_regex_path includes with
  | Some atoms =>
    match atoms with [] => true | _ => existsb (fun a => atom_admits a path) atoms end
  | None => true
  end
  && forallb (fun p => match expressible_scoped_regex_path p with
                       | Some a => negb (atom_admits a path)
                       | None => true
                       end) excludes.

(** ** Candidates of a plan *)
Definition candidate_limit (l : RegexScanLimit) : option Z :=
  (fun limit => Z.min limit MAX_REGEX_CANDIDATES)
    <$> match l with Complete limit => limit | Ranked max_candidates _ => Some max_candidates end.

Definition limit_reached (max : option Z) (st : ScanState) : bool :=
  match max with Some limit => len (scan_hits st) =? limit | None => false end.
Definition retained_error (max : option Z) (st : ScanState) : error :=
  RetrievalLimitExceeded RegexRetainedChunks (u64_saturating_add (len (scan_hits st)) 1)
    (default MAX_REGEX_CANDIDATES max).

Definition charge_new_file (id : Z) : scanning () :=
  let$ st := get_state in
  if bool_decide (id ∈ charged_files st) then scan_ok ()
  else let$ _ := set_charged (id :: charged_files st) in charge_file.

(** The end of both loop bodies: keep a match unless the retained chunks are
    used up. *)
Definition retain (max : option Z) (hit : ChunkHit) : scanning () :=
  if is_match (hit_content hit) then
    let$ st := get_state in
    if limit_reached max st then scan_fail (retained_error max st)
    else
      let$ _ := update_phases count_retained in
      push_hit hit
  else scan_ok ().

Definition verify_candidate (max : option Z) (hit : ChunkHit) : scanning () :=
  let$ _ := charge_new_file (hit_file_id hit) in
  let$ st := get_state in
  if limit_reached max st && is_match (hit_content hit) then scan_fail (retained_error max st)
  else
    let$ _ := charge_chunk (token_len (hit_content hit)) in
    let$ _ := update_phases count_verified in
    retain max hit.

(** [select_scoped_regex_candidate_ids]: the loop over the rows. *)
Fixpoint select_ids (allowed : str -> bool) (rows : list ChunkHit) (scanned : Z) (ids : list Z)
    : result (list Z) :=
  match rows with
  | [] => Ok ids
  | row :: rows =>
    let scanned := u64_saturating_add scanned 1 in
    if MAX_SCOPED_REGEX_ROWS_SCANNED <? scanned
    then Err (RetrievalLimitExceeded RegexScopedRows scanned MAX_SCOPED_REGEX_ROWS_SCANNED)
    else if negb (allowed (hit_path row)) then select_ids allowed rows scanned ids
    else if len ids =? MAX_REGEX_CANDIDATE_CHUNKS
    then Err (RetrievalLimitExceeded RegexCandidateChunks (u64_saturating_add (len ids) 1)
                MAX_REGEX_CANDIDATE_CHUNKS)
    else select_ids allowed rows scanned (ids ++ [chunk_id (hit_chunk row)])
  end.

Definition matching_rows (s : IndexSnapshot) (q : str) : list ChunkHit :=
  List.filter (fun h => fts_match q (hit_content h)) (all_hits s).
Definition select_scoped_regex_candidate_ids (s : IndexSnapshot) (q : str)
    (includes excludes : list str) (allowed : str -> bool) : result (list Z) :=
  select_ids allowed
    (take (S (Z.to_nat MAX_SCOPED_REGEX_ROWS_SCANNED))
       (List.filter (fun h => sql_admits includes excludes (hit_path h)) (matching_rows s q))) 0 [].
Definition regex_candidates_by_ids (s : IndexSnapshot) (ids : list Z) : list ChunkHit :=
  concat (map (fun id => List.filter (fun h => chunk_id (hit_chunk h) =? id) (all_hits s)) ids).
Definition regex_candidate_count_up_to (s : IndexSnapshot) (q : str) (max_results : Z) : Z :=
  Z.min max_results (len (matching_rows s q)).
Definition search_regex_candidates_page (s : IndexSnapshot) (q : str) (max_results offset : nat)
    : list ChunkHit :=
  take (bounded_limit max_results) (drop offset (matching_rows s q)).

(** The paging loop of an unscoped plan. *)
Fixpoint candidate_pages (fuel : nat) (s : IndexSnapshot) (q : str) (filter : PathFilter)
    (max : option Z) (offset : nat) : scanning () :=
  match fuel with
  | O => fun st => (SFuel, st)
  | S fuel =>
    let$ _ := check_cancelled in
    let page := search_regex_candidates_page s q REGEX_CANDIDATE_PAGE_SIZE offset in
    match page with
    | [] => scan_ok ()
    | _ =>
      let$ _ := for_each (fun hit => if negb (allows filter (hit_path hit)) then scan_ok ()
                                     else verify_candidate max hit) page in
      if (length page <? REGEX_CANDIDATE_PAGE_SIZE)%nat then scan_ok ()
      else candidate_pages fuel s q filter max (offset + length page)
    end
  end.

Definition start_state (p : SearchPhaseCounters) (probes : nat) : ScanState :=
  mk_scan_state (mk_work 0 0 0) [] [] p probes.
Definition plan_phases (plan : RegexCandidatePlan) (files_considered : Z) : SearchPhaseCounters :=
  mk_phases (PlanningTrigram (source plan)) (nodes_visited plan) (term_count plan)
    (term_bytes plan) files_considered 0 0 0 0.

Definition regex_candidate_hits (fuel : nat) (s : IndexSnapshot) (r : ScanRequest)
    (filter : PathFilter) (max : option Z) (plan : RegexCandidatePlan) : scanning () :=
  let q := fts_query (expression plan) in
  if negb (bool_decide (include_paths r = [])) || negb (bool_decide (exclude_paths r = [])) then
    let$ ids := scan_of (select_scoped_regex_candidate_ids s q (include_paths r) (exclude_paths r)
                           (allows filter)) in
    let$ _ := update_phases (count_candidates (len ids)) in
    for_each (fun batch =>
      let$ _ := check_cancelled in
      for_each (verify_candidate max) (regex_candidates_by_ids s batch))
      (list_chunks (length ids) REGEX_CANDIDATE_PAGE_SIZE ids)
  else
    let count := regex_candidate_count_up_to s q (MAX_REGEX_CANDIDATE_CHUNKS + 1) in
    if MAX_REGEX_CANDIDATE_CHUNKS <? count
    then scan_fail (RetrievalLimitExceeded RegexCandidateChunks count MAX_REGEX_CANDIDATE_CHUNKS)
    else
      let$ _ := update_phases (count_candidates count) in
      candidate_pages fuel s q filter max 0.

(** ** The full scan *)

(** [regex_scan_files]: the loop over the rows, each a file and its number of chunks. *)
Fixpoint scan_file_rows (allowed : str -> bool) (rows : list (FileRecord * list ChunkRecord))
    (scanned : Z) (files : list (FileRecord * Z)) : scanning (list (FileRecord * Z)) :=
  match rows with
  | [] => scan_ok files
  | (f, cs) :: rows =>
    let scanned := scanned + 1 in
    if MAX_SCOPED_REGEX_ROWS_SCANNED <? scanned
    then scan_fail (RetrievalLimitExceeded RegexScopedRows scanned MAX_SCOPED_REGEX_ROWS_SCANNED)
    else
      let$ _ := check_cancelled in
      if negb (allowed (file_path f)) then scan_file_rows allowed rows scanned files
      else if len files =? MAX_REGEX_FILES_SCANNED
      then scan_fail (RetrievalLimitExceeded RegexFullScanFiles (u64_saturating_add (len files) 1)
                        MAX_REGEX_FILES_SCANNED)
      else scan_file_rows allowed rows scanned (files ++ [(f, len cs)])
  end.
Definition regex_scan_files (s : IndexSnapshot) (includes excludes : list str)
    (allowed : str -> bool) : scanning (list (FileRecord * Z)) :=
  scan_file_rows allowed
    (take (S (Z.to_nat MAX_SCOPED_REGEX_ROWS_SCANNED))
       (List.filter (fun '(f, _) => sql_admits includes excludes (file_path f)) s)) 0 [].

Definition get_chunks_for_file (s : IndexSnapshot) (id : Z) (max_results : nat) : list ChunkRecord :=
  take (bounded_limit max_results)
    (concat (map snd (List.filter (fun '(f, _) => file_id f =? id) s))).

(** [RegexScanLimit::stop] at a failing step: a ranked scan returns what it has
    when a retrieval limit stopped it. *)
Definition stop (limit : RegexScanLimit) (m : scanning ()) : scanning () := fun st =>
  match m st with
  | (SErr e, st) =>
    match limit with
    | Ranked _ _ =>
      if is_retrieval_limit e then (SReturn (mk_scan (scan_hits st) (scan_phases st) (Some e)), st)
      else (SErr e, st)
    | Complete _ => (SErr e, st)
    end
  | r => r
  end.

Definition scan_chunk (limit : RegexScanLimit) (f : FileRecord) (chunk : ChunkRecord) : scanning () :=
  let$ _ := stop limit (charge_chunk (token_len (chunk_content chunk))) in
  let$ _ := update_phases count_loaded in
  let$ _ := update_phases count_verified in
  stop limit (retain (candidate_limit limit) (hit_of f chunk)).

Definition scan_file (limit : RegexScanLimit) (s : IndexSnapshot) (f : FileRecord) : scanning () :=
  let$ _ := check_cancelled in
  let$ _ := stop limit charge_file in
  for_each (scan_chunk limit f)
    (get_chunks_for_file s (file_id f) (Z.to_nat MAX_REGEX_CHUNKS_PER_FILE)).

Definition check_chunk_count (f : FileRecord) (count : Z) : scanning () :=
  let$ _ := check_cancelled in
  if MAX_REGEX_CHUNKS_PER_FILE <? count
  then scan_fail (RetrievalPathLimitExceeded RegexChunksPerFile (file_path f) count
                    MAX_REGEX_CHUNKS_PER_FILE)
  else scan_ok ().

Definition full_phases (d : RegexPlanDiagnostics) (files : Z) : SearchPhaseCounters :=
  mk_phases (PlanningFullScan (Some (fallback_reason d))) (diagnostic_nodes d) (diagnostic_terms d)
    (diagnostic_term_bytes d) files 0 0 0 0.

Definition full_scan (s : IndexSnapshot) (r : ScanRequest) (filter : PathFilter)
    (limit : RegexScanLimit) (d : RegexPlanDiagnostics) : scanning () :=
  let$ files := regex_scan_files s (include_paths r) (exclude_paths r)
                  (fun path => allows filter path && limit_allows_path limit path) in
  let$ _ := for_each (fun '(f, count) => check_chunk_count f count) files in
  let$ _ := update_phases (fun _ => full_phases d (len files)) in
  for_each (fun '(f, _) => scan_file limit s f) files.

(** ** The scan of a request *)
Definition plan_decision (enabled : bool) (r : ScanRequest) : RegexPlanDecision :=
  if enabled then
    if exhaustive_text r
    then literal_identifier_candidate_plan fold_ranges true (query r) (case_sensitive r)
    else regex_candidate_plan parse extract (query r) (case_sensitive r)
  else fallback PlanningDisabled.

Definition finish (r : outcome () * ScanState) : run (result RegexScan) :=
  match r with
  | (SOk _, st) => Done (Ok (mk_scan (scan_hits st) (scan_phases st) None))
  | (SErr e, _) => Done (Err e)
  | (SReturn scan, _) => Done (Ok scan)
  | (SFuel, _) => NoFuel
  end.

(** Fuel for the pages: one more than the pages a query can have. *)
Definition page_fuel (s : IndexSnapshot) : nat := S (length (all_hits s)).

Definition regex_hits (enabled : bool) (s : IndexSnapshot) (r : ScanRequest)
    (limit : RegexScanLimit) : run (result RegexScan) :=
  match new_filter (include_paths r) (exclude_paths r) with
  | Err e => Done (Err e)
  | Ok filter =>
    match plan_decision enabled r with
    | Planned plan =>
      finish (regex_candidate_hits (page_fuel s) s r filter (candidate_limit limit) plan
                (start_state (plan_phases plan (len s)) 0))
    | Fallback d =>
      finish (full_scan s r filter limit d (start_state (full_phases d 0) 0))
    end
  end.
End Scanning.

(** ** What a step yields

    [yields ranked m Q full]: when [m] goes on, its value satisfies [Q] and
    exactly [full] was appended to the hits; when it fails it is cancelled or at
    a retrieval limit, with a prefix of [full] appended; it returns early only
    in a ranked scan, with such a prefix and the limit named; and its fuel
    suffices. *)
Definition stops_with (e : error) : Prop := e = Cancelled \/ is_retrieval_limit e = true.
Definition yields {A} (ranked : bool) (m : scanning A) (Q : A -> Prop) (full : list ChunkHit) : Prop :=
  forall st,
  match m st with
  | (SOk a, st') => Q a /\ scan_hits st' = scan_hits st ++ full
  | (SErr e, st') => stops_with e /\ exists p, p `prefix_of` full /\ scan_hits st' = scan_hits st ++ p
  | (SReturn scan, _) => ranked = true /\ exists p e, p `prefix_of` full
      /\ hits scan = scan_hits st ++ p /\ limitation scan = Some e /\ is_retrieval_limit e = true
  | (SFuel, _) => False
  end.
Definition any {A} (_ : A) : Prop := True.

Section Yields.
Context (ranked : bool).

Lemma yields_bind {A B} (m : scanning A) (k : A -> scanning B) Q R l1 l2 :
  yields ranked m Q l1 -> (forall a, Q a -> yields ranked (k a) R l2) ->
  yields ranked (scan_bind m k) R (l1 ++ l2).
Proof.
  intros Hm Hk st. unfold scan_bind. specialize (Hm st). destruct (m st) as [[a|e|scan|] st1]; [|..|done].
  - destruct Hm as [Ha Hh]. specialize (Hk a Ha st1).
    destruct (k a st1) as [[b|e|scan|] st2]; [|..|done].
    + destruct Hk as [Hb ->]. split; [done|]. by rewrite Hh, app_assoc.
    + destruct Hk as (He & p & Hp & ->). split; [done|]. exists (l1 ++ p).
      split; [by apply prefix_app|]. by rewrite Hh, app_assoc.
    + destruct Hk as (Hr & p & e & Hp & -> & Hl & Hlim). split; [done|]. exists (l1 ++ p), e.
      split; [by apply prefix_app|]. by rewrite Hh, app_assoc.
  - destruct Hm as (He & p & Hp & ->). split; [done|]. exists p. split; [by apply prefix_app_r|done].
  - destruct Hm as (Hr & p & e & Hp & Hs & Hl & Hlim). split; [done|]. exists p, e.
    split; [by apply prefix_app_r|done].
Qed.

Lemma yields_mono {A} (m : scanning A) (Q R : A -> Prop) l :
  yields ranked m Q l -> (forall a, Q a -> R a) -> yields ranked m R l.
Proof.
  intros Hm Hqr st. specialize (Hm st). destruct (m st) as [[a|e|scan|] st1]; try done.
  destruct Hm. auto.
Qed.

(** A step without hits before one with them. *)
Lemma yields_then {A B} (m : scanning A) (k : A -> scanning B) Q R l :
  yields ranked m Q [] -> (forall a, Q a -> yields ranked (k a) R l) ->
  yields ranked (scan_bind m k) R l.
Proof. intros Hm Hk. by apply (yields_bind m k Q R [] l). Qed.

Lemma yields_ok {A} (a : A) (Q : A -> Prop) : Q a -> yields ranked (scan_ok a) Q [].
Proof. intros Ha st. split; [done|]. by rewrite app_nil_r. Qed.

Lemma yields_fail {A} e (Q : A -> Prop) l : stops_with e -> yields ranked (scan_fail e) Q l.
Proof.
  intros He st. split; [done|]. exists []. split; [apply prefix_nil|]. by rewrite app_nil_r.
Qed.

Lemma yields_of {A} (r : result A) (Q : A -> Prop) :
  match r with Ok a => Q a | Err e => stops_with e end -> yields ranked (scan_of r) Q [].
Proof. intros Hr. destruct r; [by apply yields_ok|by apply yields_fail]. Qed.

Lemma yields_state : yields ranked get_state any [].
Proof. intros st. split; [done|]. by rewrite app_nil_r. Qed.
Lemma yields_set_work w : yields ranked (set_work w) any [].
Proof. intros st. split; [done|]. by rewrite app_nil_r. Qed.
Lemma yields_set_charged fs : yields ranked (set_charged fs) any [].
Proof. intros st. split; [done|]. by rewrite app_nil_r. Qed.
Lemma yields_phases f : yields ranked (update_phases f) any [].
Proof. intros st. split; [done|]. by rewrite app_nil_r. Qed.
Lemma yields_push h : yields ranked (push_hit h) any [h].
Proof. intros st. by split. Qed.

Lemma yields_for_each {A} (f : A -> scanning ()) (g : A -> list ChunkHit) l :
  (forall x, x ∈ l -> yields ranked (f x) any (g x)) ->
  yields ranked (for_each f l) any (concat (map g l)).
Proof.
  induction l as [|x l IH]; intros Hf; [by apply yields_ok|]. cbn [for_each map concat].
  eapply yields_bind; [apply Hf; by left|]. intros _ _. apply IH. intros y Hy. apply Hf. by right.
Qed.

Lemma yields_stop limit m l : ranked = match limit with Ranked _ _ => true | Complete _ => false end ->
  yields ranked m any l -> yields ranked (stop limit m) any l.
Proof.
  intros Hr Hm st. unfold stop. specialize (Hm st). destruct (m st) as [[a|e|scan|] st1]; [done| |done|done].
  destruct Hm as (He & p & Hp & Hh). destruct limit; [split; [done|by exists p]|].
  destruct (is_retrieval_limit e) eqn:Hl; [|split; [done|by exists p]].
  split; [done|]. by exists p, e.
Qed.
End Yields.

Create HintDb scanning.
#[export] Hint Resolve yields_ok yields_fail yields_of yields_state yields_set_work yields_set_charged
  yields_phases yields_push : scanning.

Section ScanSpecs.
Context (cancelled : nat -> bool) (is_match : str -> bool) (ranked : bool).

Lemma yields_cancelled : yields ranked (check_cancelled cancelled) any [].
Proof.
  intros st. unfold check_cancelled. destruct (cancelled _).
  - split; [by left|]. exists []. split; [done|]. cbn. by rewrite app_nil_r.
  - split; [done|]. cbn. by rewrite app_nil_r.
Qed.

Lemma enforce_stops b d observed limit :
  match enforce b d observed limit with Ok a => any a | Err e => stops_with e end.
Proof. unfold enforce. destruct (_ <=? _); [done|by right]. Qed.

Lemma yields_charge_file : yields ranked (charge_file cancelled) any [].
Proof.
  unfold charge_file. eapply yields_then; [apply yields_cancelled|]. intros _ _.
  eapply yields_then; [apply yields_state|]. intros st _. cbv zeta.
  eapply yields_then; [apply yields_set_work|]. intros _ _. apply yields_of, enforce_stops.
Qed.

Lemma yields_charge_chunk bytes : yields ranked (charge_chunk cancelled bytes) any [].
Proof.
  unfold charge_chunk. eapply yields_then; [apply yields_state|]. intros st _. cbv zeta.
  eapply yields_then; [apply yields_set_work|]. intros _ _.
  eapply yields_then; [apply yields_of, enforce_stops|]. intros _ _.
  eapply yields_then; [apply yields_of, enforce_stops|]. intros _ _.
  destruct (_ =? _); [apply yields_cancelled|by apply yields_ok].
Qed.

(** What is kept of one candidate. *)
Definition kept (h : ChunkHit) : list ChunkHit := if is_match (hit_content h) then [h] else [].

Lemma yields_retain max h : yields ranked (retain is_match max h) any (kept h).
Proof.
  unfold retain, kept. destruct (is_match _); [|by apply yields_ok].
  eapply yields_then; [apply yields_state|]. intros st _.
  destruct (limit_reached max st); [apply yields_fail; by right|].
  eapply yields_then; [apply yields_phases|]. intros _ _. apply yields_push.
Qed.

Lemma yields_verify max h : yields ranked (verify_candidate cancelled is_match max h) any (kept h).
Proof.
  unfold verify_candidate, charge_new_file.
  eapply yields_then with (Q := any).
  { eapply yields_then; [apply yields_state|]. intros st _.
    destruct (bool_decide _); [by apply yields_ok|].
    eapply yields_then; [apply yields_set_charged|]. intros _ _. apply yields_charge_file. }
  intros _ _. eapply yields_then; [apply yields_state|]. intros st _.
  destruct (limit_reached max st && is_match (hit_content h)); [apply yields_fail; by right|].
  eapply yields_then; [apply yields_charge_chunk|]. intros _ _.
  eapply yields_then; [apply yields_phases|]. intros _ _. apply yields_retain.
Qed.

Lemma concat_kept l : concat (map kept l) = List.filter (fun h => is_match (hit_content h)) l.
Proof.
  unfold kept. induction l as [|h l IH]; cbn [map concat List.filter]; [done|].
  rewrite IH. by destruct (is_match _).
Qed.
End ScanSpecs.

(** ** Lists *)
Lemma filter_filter {A} (f g : A -> bool) l :
  List.filter f (List.filter g l) = List.filter (fun x => g x && f x) l.
Proof.
  induction l as [|x l IH]; simpl; [done|]. destruct (g x) eqn:Hg; simpl; [|done].
  destruct (f x); by rewrite IH.
Qed.

Lemma filter_ext_in' {A} (f g : A -> bool) l : (forall x, x ∈ l -> f x = g x) ->
  List.filter f l = List.filter g l.
Proof. intros H. apply filter_ext_in. intros x Hx. by apply H, list_elem_of_In. Qed.

Lemma concat_map_filter {A} (f : A -> bool) (g : A -> list A) l :
  (forall x, g x = if f x then [x] else []) -> concat (map g l) = List.filter f l.
Proof.
  intros Hg. induction l as [|x l IH]; cbn [map concat List.filter]; [done|].
  rewrite Hg, IH. by destruct (f x).
Qed.

Lemma concat_list_chunks {A B} (f : A -> list B) (n fuel : nat) l : (length l <= fuel)%nat -> n <> 0%nat ->
  concat (map (fun batch => concat (map f batch)) (list_chunks fuel n l)) = concat (map f l).
Proof.
  intros Hl Hn. revert l Hl. induction fuel as [|fuel IH]; intros [|x l] Hl; try done;
    [simpl in Hl; lia|]. cbn [list_chunks map concat].
  rewrite IH by (rewrite length_drop; simpl in *; lia).
  rewrite <-concat_app, <-map_app, take_drop. done.
Qed.

Lemma all_hits_cons f cs s : all_hits ((f, cs) :: s) = map (hit_of f) cs ++ all_hits s.
Proof. done. Qed.

(** Selecting the rows of one identifier. *)
Lemma filter_unique {A} (key : A -> Z) l x : NoDup (map key l) -> x ∈ l ->
  List.filter (fun y => key y =? key x) l = [x].
Proof.
  induction l as [|y l IH]; intros Hd Hx; [by apply elem_of_nil in Hx|].
  cbn [map] in Hd. apply NoDup_cons in Hd as [Hy Hd]. cbn [List.filter].
  assert (Hnone : forall z, z ∈ y :: l -> (forall w, w ∈ l -> key w <> key z) ->
    List.filter (fun w => key w =? key z) l = []).
  { intros z _ Hz. clear -Hz. induction l as [|w l IH]; [done|]. cbn [List.filter].
    rewrite (proj2 (Z.eqb_neq _ _)) by (apply Hz; by left). apply IH. intros v Hv. apply Hz. by right. }
  apply elem_of_cons in Hx as [->|Hx].
  - rewrite Z.eqb_refl. f_equal. apply Hnone; [by left|]. intros w Hw He. apply Hy.
    apply list_elem_of_fmap. by exists w.
  - destruct (Z.eqb_spec (key y) (key x)) as [He|_]; [|by apply IH].
    exfalso. apply Hy. apply list_elem_of_fmap. by exists x.
Qed.

(** ** The snapshot's keys *)
Definition hit_key (h : ChunkHit) : Z := chunk_id (hit_chunk h).
Record wf_snapshot (s : IndexSnapshot) : Prop := {
  file_ids_unique : NoDup (map (fun '(f, _) => file_id f) s);
  chunk_ids_unique : NoDup (map hit_key (all_hits s));
  contents_are_text : Forall (fun h => Forall is_char (hit_content h)) (all_hits s)
}.

(** A glob [root/**] with a literal root matches exactly what lies below it. *)
Class GlobSubtree (glob_match : str -> str -> bool) : Prop :=
  glob_subtree : forall root path, has_glob_meta root = false ->
    glob_match (root ++ lit "/**") path = true <-> below root path.

Section PathSql.
Context (glob_valid : str -> bool) (glob_match : str -> str -> bool) {Hglob : GlobSubtree glob_match}.
Abbreviation expressible := (expressible_scoped_regex_path glob_valid).

Lemma below_take v path : bool_decide (take (length v + 1) path = v ++ [SLASH]) = true <-> below v path.
Proof.
  rewrite bool_decide_eq_true. unfold below. split.
  - intros H. exists (drop (length v + 1) path).
    rewrite <-(take_drop (length v + 1) path) at 1. by rewrite H, <-app_assoc.
  - intros (r & ->). replace (length v + 1)%nat with (length (v ++ [SLASH])) by (rewrite length_app; done).
    by rewrite (cons_middle SLASH v r), app_assoc, take_app_length.
Qed.

Lemma atom_admits_spec a path : atom_admits a path = true <->
  match a with AtomPrefix v => path = v \/ below v path | AtomChildren v => below v path end.
Proof.
  destruct a; unfold atom_admits; [|apply below_take].
  by rewrite orb_true_iff, bool_decide_eq_true, below_take.
Qed.

(** A canonical pattern neither starts nor ends with a slash. *)
Lemma trim_slashes_id v : (forall r, v <> SLASH :: r) -> (forall r, v <> r ++ [SLASH]) -> trim_slashes v = v.
Proof.
  intros Hs He. assert (Hstart : forall u, (forall r, u <> SLASH :: r) -> trim_slashes_start u = u).
  { intros [|c u] Hu; [done|]. cbn [trim_slashes_start].
    destruct (Z.eqb_spec c SLASH) as [->|]; [by destruct (Hu u)|done]. }
  unfold trim_slashes. rewrite (Hstart v Hs), Hstart, rev_involutive; [done|].
  intros r Hr. apply (He (rev r)). rewrite <-(rev_involutive v), Hr. done.
Qed.

Lemma safe_join_ends cs : cs <> [] -> Forall safe_component cs ->
  (forall r, join_slash cs <> SLASH :: r) /\ (forall r, join_slash cs <> r ++ [SLASH]).
Proof.
  intros Hne Hcs. pose proof (split_safe cs Hne Hcs) as Hsplit. unfold split_slash in Hsplit.
  rewrite Forall_forall in Hcs. split; intros r Hr; rewrite Hr in Hsplit.
  - cbn [split_by] in Hsplit. rewrite Z.eqb_refl in Hsplit. destruct (Hcs []) as [H _]; [|done].
    rewrite <-Hsplit. by left.
  - destruct (Hcs []) as [H _]; [|done]. rewrite <-Hsplit. fold (split_slash (r ++ [SLASH])).
    rewrite split_slash_below. apply elem_of_app. right. by left.
Qed.

(** What the atom of a pattern admits is what the pattern matches. *)
Lemma expressible_spec v p a path : parse_pattern glob_valid v = Ok p -> expressible v = Some a ->
  atom_admits a path = true <-> pattern_matches glob_match p path = true.
Proof.
  intros Hp. unfold expressible_scoped_regex_path, pattern_matches. rewrite Hp.
  destruct (bool_decide_reflect (p = [])); [done|].
  destruct (has_glob_meta p) eqn:Hm; cbn [negb].
  - destruct (strip_suffix (lit "/**") p) as [prefix|] eqn:Hs; [|done].
    apply strip_suffix_spec in Hs. apply parse_pattern_safe in Hp as (cs & Hne & Hcs & He).
    assert (Hsplit : split_slash prefix ++ [lit "**"] = cs).
    { rewrite <-(split_safe cs Hne Hcs), <-He, Hs. symmetry. apply (split_slash_below prefix (lit "**")). }
    subst cs. apply Forall_app in Hcs as [Hcs _].
    assert (Hpre : join_slash (split_slash prefix) = prefix) by apply join_split.
    assert (Hsn : split_slash prefix <> []).
    { unfold split_slash. by destruct (split_by_cons_inv (Z.eqb SLASH) prefix) as (? & ? & ->). }
    destruct (safe_join_ends _ Hsn Hcs) as [H1 H2]. rewrite Hpre in H1, H2.
    rewrite trim_slashes_id by done. destruct (bool_decide _ || has_glob_meta prefix) eqn:Hbad; [done|].
    intros [= <-]. apply orb_false_iff in Hbad as [_ Hmeta]. rewrite atom_admits_spec, Hs.
    symmetry. by apply glob_subtree.
  - intros [= <-]. by rewrite atom_admits_spec, path_is_within_spec.
Qed.

(** ** The filter admits only what the SQL lets through *)
Lemma pattern_set_spec vs set path : new_pattern_set glob_valid vs = Ok set ->
  Paths.is_match glob_match set path = true
  <-> exists v p, v ∈ vs /\ parse_pattern glob_valid v = Ok p /\ pattern_matches glob_match p path = true.
Proof.
  unfold new_pattern_set. destruct (_ <? _); [done|].
  destruct (collect_results (parse_pattern glob_valid) vs) as [ps|] eqn:Hc; [|done].
  cbn [result_bind]. unfold compile_patterns. destruct (_ <? _); [done|].
  destruct (List.filter _ (List.filter has_glob_meta ps)); [|done]. intros [= <-].
  unfold Paths.is_match. cbn [literals globs]. rewrite orb_true_iff, !existsb_exists.
  assert (Hps : forall p, p ∈ ps <-> exists v, v ∈ vs /\ parse_pattern glob_valid v = Ok p).
  { clear -Hc. revert ps Hc. induction vs as [|v vs IH]; intros ps Hc; cbn [collect_results] in Hc.
    - injection Hc as <-. intros p. split; [by intros ?%elem_of_nil|]. by intros (v & ?%elem_of_nil & _).
    - destruct (parse_pattern glob_valid v) as [q|] eqn:Hq; [|done]. cbn [result_bind] in Hc.
      destruct (collect_results _ vs) as [qs|] eqn:Hqs; [|done]. injection Hc as <-. intros p.
      rewrite elem_of_cons, (IH qs eq_refl). setoid_rewrite elem_of_cons. split.
      + intros [->|(w & Hw & Hp)]; [exists v; auto|exists w; auto].
      + intros (w & [->|Hw] & Hp); [left; congruence|right; eauto]. }
  setoid_rewrite filter_In. unfold pattern_matches. split.
  - intros [(p & [Hin Hm] & Hw)|(p & [Hin Hm] & Hw)]; apply list_elem_of_In, Hps in Hin as (v & Hv & Hp);
      exists v, p; (split; [done|]; split; [done|]).
    + apply negb_true_iff in Hm. by rewrite Hm.
    + by rewrite Hm.
  - intros (v & p & Hv & Hp & Hw).
    assert (Hin : In p ps) by (apply list_elem_of_In, Hps; eauto).
    destruct (has_glob_meta p) eqn:Hm; [right|left]; exists p; by rewrite Hm.
Qed.

Lemma filter_within_sql includes excludes f path :
  new_filter glob_valid includes excludes = Ok f -> allows glob_match f path = true ->
  sql_admits glob_valid includes excludes path = true.
Proof.
  unfold new_filter. destruct (new_pattern_set glob_valid includes) as [i|] eqn:Hi; [|done].
  cbn [result_bind]. destruct (new_pattern_set glob_valid excludes) as [e|] eqn:He; [|done].
  intros [= <-]. unfold allows, sql_admits. cbn [filter_includes filter_excludes include_all].
  intros [Hin Hex]%andb_true_iff. apply negb_true_iff in Hex. apply andb_true_iff. split.
  - destruct (mapM expressible includes) as [atoms|] eqn:Ha; [|done]. destruct atoms as [|a atoms]; [done|].
    apply mapM_Some in Ha. apply orb_true_iff in Hin as [Hin|Hin].
    { apply bool_decide_eq_true in Hin as ->. by apply Forall2_nil_inv_l in Ha. }
    apply (pattern_set_spec _ _ _ Hi) in Hin as (v & p & Hv & Hp & Hm).
    apply list_elem_of_lookup in Hv as [k Hk].
    destruct (Forall2_lookup_l _ _ _ _ _ Ha Hk) as (b & Hb & Hexp).
    apply existsb_exists. exists b. split; [by apply list_elem_of_In, (list_elem_of_lookup_2 _ k)|].
    by apply (expressible_spec v p b path Hp Hexp).
  - apply forallb_forall. intros v Hv%list_elem_of_In.
    destruct (expressible v) as [a|] eqn:Ha; [|done]. apply negb_true_iff.
    destruct (atom_admits a path) eqn:Hadm; [|done]. exfalso.
    unfold expressible_scoped_regex_path in Ha.
    destruct (parse_pattern glob_valid v) as [p|] eqn:Hp; [|done].
    assert (Hm : Paths.is_match glob_match e path = true).
    { apply (pattern_set_spec _ _ _ He). exists v, p. split; [done|]. split; [done|].
      apply (expressible_spec v p a path Hp); [|done]. unfold expressible_scoped_regex_path. by rewrite Hp. }
    congruence.
Qed.
End PathSql.

(** ** The two scans *)
Section Scans.
Context {cancelled : nat -> bool} {glob_valid : str -> bool} {glob_match : str -> str -> bool}.
Context {Hglob : GlobSubtree glob_match}.
Context {fts_match : str -> str -> bool} {is_match : str -> bool}.

(** The chunks the request asks for, in the order of the snapshot. *)
Definition wanted (f : PathFilter) (h : ChunkHit) : bool :=
  allows glob_match f (hit_path h) && is_match (hit_content h).

Lemma select_ids_spec allowed rows n scanned ids out : 0 <= scanned ->
  scanned + Z.of_nat n = MAX_SCOPED_REGEX_ROWS_SCANNED ->
  select_ids allowed (take (S n) rows) scanned ids = Ok out ->
  out = ids ++ map hit_key (List.filter (fun h => allowed (hit_path h)) rows).
Proof.
  revert n scanned ids. induction rows as [|row rows IH]; intros n scanned ids H0 Hn.
  - intros [= <-]. by rewrite app_nil_r.
  - rewrite firstn_cons. cbn [select_ids]. cbv zeta.
    rewrite u64_saturating_add_exact
      by (unfold MAX_SCOPED_REGEX_ROWS_SCANNED, U64_MAX in *; lia).
    destruct (_ <? _) eqn:Hmax; [done|]. bool_to_prop.
    destruct n as [|n]; [lia|]. cbn [List.filter].
    destruct (allowed (hit_path row)) eqn:Hal; cbn [negb].
    + destruct (len ids =? _); [done|]. intros Hs. apply IH in Hs; [|lia..]. rewrite Hs.
      by rewrite <-app_assoc.
    + intros Hs. by apply IH in Hs; [|lia..].
Qed.

Lemma select_ids_stops allowed rows scanned ids :
  match select_ids allowed rows scanned ids with Ok _ => True | Err e => stops_with e end.
Proof.
  revert scanned ids. induction rows as [|row rows IH]; intros scanned ids; [done|].
  cbn [select_ids]. cbv zeta. destruct (_ <? _); [by right|].
  destruct (negb _); [apply IH|]. destruct (_ =? _); [by right|apply IH].
Qed.

(** Looking the selected identifiers up gives the selected rows back. *)
Lemma by_ids_spec s l : wf_snapshot s -> (forall h, h ∈ l -> h ∈ all_hits s) ->
  regex_candidates_by_ids s (map hit_key l) = l.
Proof.
  intros [_ Hu _] Hl. unfold regex_candidates_by_ids. induction l as [|h l IH]; [done|].
  cbn [map concat]. rewrite IH by (intros x Hx; apply Hl; by right).
  pose proof (filter_unique hit_key (all_hits s) h Hu (Hl h ltac:(by left))) as He.
  change (List.filter (fun y => hit_key y =? hit_key h) (all_hits s) ++ l = h :: l). by rewrite He.
Qed.

Lemma map_list_chunks {A B} (f : A -> B) fuel n l :
  list_chunks fuel n (map f l) = map (map f) (list_chunks fuel n l).
Proof.
  revert l. induction fuel as [|fuel IH]; intros [|x l]; try done.
  change (take n (map f (x :: l)) :: list_chunks fuel n (drop n (map f (x :: l)))
    = map f (take n (x :: l)) :: map (map f) (list_chunks fuel n (drop n (x :: l)))).
  by rewrite firstn_map, skipn_map, IH.
Qed.

Lemma elem_of_list_chunks {A} fuel n (l batch : list A) x :
  batch ∈ list_chunks fuel n l -> x ∈ batch -> x ∈ l.
Proof.
  revert l. induction fuel as [|fuel IH]; intros [|y l]; cbn [list_chunks];
    try by intros ?%elem_of_nil. intros [->|Hb]%elem_of_cons Hx.
  - rewrite <-(take_drop n (y :: l)). apply elem_of_app. by left.
  - apply (IH (drop n (y :: l))) in Hb; [|done]. rewrite <-(take_drop n (y :: l)).
    apply elem_of_app. by right.
Qed.

Section Planned.
Context (s : IndexSnapshot) (q : str) (f : PathFilter).
Hypothesis Hwf : wf_snapshot s.
(** The query admits every chunk of the snapshot that the regex matches. *)
Hypothesis Hq : forall h, h ∈ all_hits s -> is_match (hit_content h) = true ->
  fts_match q (hit_content h) = true.

Lemma wanted_rows : List.filter (wanted f) (matching_rows fts_match s q)
  = List.filter (wanted f) (all_hits s).
Proof.
  unfold matching_rows. rewrite filter_filter. apply filter_ext_in'. intros h Hh. unfold wanted.
  destruct (is_match (hit_content h)) eqn:Hm; [by rewrite Hq|]. by rewrite andb_false_r, andb_false_r.
Qed.

Lemma yields_page_hits max page :
  yields false (for_each (fun hit => if negb (allows glob_match f (hit_path hit)) then scan_ok ()
                          else verify_candidate cancelled is_match max hit) page) any
    (List.filter (wanted f) page).
Proof.
  rewrite <-(concat_map_filter (wanted f)
    (fun h => if negb (allows glob_match f (hit_path h)) then [] else kept is_match h)).
  2: { intros h. unfold wanted, kept. by destruct (allows _ _ _). }
  apply yields_for_each. intros h _. destruct (negb _); [by apply yields_ok|apply yields_verify].
Qed.

Lemma yields_pages max fuel offset :
  let rows := matching_rows fts_match s q in
  (offset <= length rows)%nat -> (length rows < fuel + offset)%nat ->
  yields false (candidate_pages cancelled glob_match fts_match is_match fuel s q f max offset) any
    (List.filter (wanted f) (drop offset rows)).
Proof.
  intros rows. revert offset. induction fuel as [|fuel IH]; intros offset Ho Hf; [lia|].
  cbn [candidate_pages]. eapply yields_then; [apply yields_cancelled|]. intros _ _. cbv zeta.
  unfold search_regex_candidates_page. change (bounded_limit REGEX_CANDIDATE_PAGE_SIZE) with 512%nat.
  fold rows. set (page := take 512 (drop offset rows)).
  assert (Hsplit : drop offset rows = page ++ drop 512 (drop offset rows))
    by (subst page; by rewrite take_drop).
  assert (Hlen : length page = Nat.min 512 (length rows - offset))
    by (subst page; by rewrite length_take, length_drop).
  destruct page as [|h page'] eqn:Hpage.
  - assert (Hnil : drop offset rows = []) by (apply length_zero_iff_nil; rewrite length_drop; cbn [length] in Hlen; lia).
    rewrite Hnil. by apply yields_ok.
  - rewrite <-Hpage in *. rewrite Hsplit, List.filter_app.
    eapply yields_bind; [apply yields_page_hits|]. intros _ _.
    destruct (length page <? REGEX_CANDIDATE_PAGE_SIZE)%nat eqn:Hlast; bool_to_prop.
    + unfold REGEX_CANDIDATE_PAGE_SIZE in Hlast. rewrite (drop_ge (drop offset rows)).
      * by apply yields_ok.
      * rewrite length_drop. lia.
    + unfold REGEX_CANDIDATE_PAGE_SIZE in Hlast. rewrite drop_drop.
      assert (length page = 512%nat) as -> by lia. apply IH; lia.
Qed.

Lemma filter_length_le' {A} (g : A -> bool) l : (length (List.filter g l) <= length l)%nat.
Proof. induction l as [|x l IH]; simpl; [lia|]. destruct (g x); simpl; lia. Qed.

Lemma yields_planned max r plan : q = fts_query (expression plan) ->
  new_filter glob_valid (include_paths r) (exclude_paths r) = Ok f ->
  yields false (regex_candidate_hits cancelled glob_valid glob_match fts_match is_match
    (page_fuel s) s r f max plan) any (List.filter (wanted f) (all_hits s)).
Proof.
  intros Hplan Hfilter. unfold regex_candidate_hits. rewrite <-Hplan. cbv zeta.
  rewrite <-wanted_rows. destruct (negb _ || negb _).
  - unfold select_scoped_regex_candidate_ids.
    set (rows := List.filter _ (matching_rows fts_match s q)).
    set (chosen := List.filter (fun h => allows glob_match f (hit_path h)) rows).
    assert (Hchosen : chosen = List.filter (fun h => allows glob_match f (hit_path h))
                                 (matching_rows fts_match s q)).
    { subst chosen rows. rewrite filter_filter. apply filter_ext_in'. intros h _.
      destruct (allows glob_match f (hit_path h)) eqn:Ha; [|by rewrite andb_false_r].
      by rewrite (filter_within_sql glob_valid glob_match _ _ f (hit_path h) Hfilter Ha). }
    eapply yields_then with (Q := fun ids => ids = map hit_key chosen).
    { apply yields_of. pose proof (select_ids_stops (allows glob_match f)
        (take (S (Z.to_nat MAX_SCOPED_REGEX_ROWS_SCANNED)) rows) 0 []) as Hstops.
      destruct (select_ids _ _ _ _) as [ids|e] eqn:Hs; [|done].
      apply select_ids_spec in Hs; [done|done|].
      unfold MAX_SCOPED_REGEX_ROWS_SCANNED. rewrite Z2Nat.id; lia. }
    intros ids ->. eapply yields_then; [apply yields_phases|]. intros _ _.
    rewrite length_map, map_list_chunks.
    assert (Hin : forall h, h ∈ chosen -> h ∈ all_hits s).
    { intros h Hh. rewrite Hchosen in Hh. apply list_elem_of_In, filter_In in Hh as [Hh _].
      unfold matching_rows in Hh. apply filter_In in Hh as [Hh _]. by apply list_elem_of_In. }
    assert (Hout : List.filter (wanted f) (matching_rows fts_match s q)
      = concat (map (fun batch => concat (map (kept is_match) (regex_candidates_by_ids s batch)))
          (map (map hit_key) (list_chunks (length chosen) REGEX_CANDIDATE_PAGE_SIZE chosen)))).
    { rewrite map_map. etransitivity; [|symmetry; etransitivity;
        [apply f_equal, map_ext_in with (g := fun batch => concat (map (kept is_match) batch))|
         apply (concat_list_chunks (kept is_match)); done]].
      - rewrite concat_kept, Hchosen, filter_filter. apply filter_ext_in'. by intros h _.
      - intros batch Hb%list_elem_of_In. rewrite by_ids_spec; [done|done|].
        intros h Hh. apply Hin. by eapply elem_of_list_chunks. }
    rewrite Hout. apply yields_for_each. intros batch _.
    eapply yields_then; [apply yields_cancelled|]. intros _ _.
    apply yields_for_each. intros h _. apply yields_verify.
  - destruct (_ <? _); [apply yields_fail; by right|].
    eapply yields_then; [apply yields_phases|]. intros _ _.
    pose proof (yields_pages max (page_fuel s) 0) as Hp. cbv zeta in Hp. rewrite drop_0 in Hp.
    apply Hp; [lia|]. unfold page_fuel, matching_rows.
    pose proof (filter_length_le' (fun h => fts_match q (hit_content h)) (all_hits s)). lia.
Qed.
End Planned.

Section Full.
Context (s : IndexSnapshot) (limit : RegexScanLimit).
Hypothesis Hwf : wf_snapshot s.
Definition ranked_limit : bool := match limit with Ranked _ _ => true | Complete _ => false end.

Lemma yields_file_rows allowed rows n scanned files : 0 <= scanned ->
  scanned + Z.of_nat n = MAX_SCOPED_REGEX_ROWS_SCANNED ->
  yields ranked_limit (scan_file_rows cancelled allowed (take (S n) rows) scanned files)
    (fun out => out = files ++ map (fun '(f, cs) => (f, len cs))
                        (List.filter (fun '(f, _) => allowed (file_path f)) rows)) [].
Proof.
  revert n scanned files. induction rows as [|[f cs] rows IH]; intros n scanned files H0 Hn.
  - apply yields_ok. by rewrite app_nil_r.
  - rewrite firstn_cons. cbn [scan_file_rows]. cbv zeta.
    destruct (_ <? _) eqn:Hmax; [apply yields_fail; by right|]. bool_to_prop.
    eapply yields_then; [apply yields_cancelled|]. intros _ _.
    destruct n as [|n]; [lia|]. cbn [List.filter].
    destruct (allowed (file_path f)); cbn [negb].
    + destruct (len files =? _); [apply yields_fail; by right|].
      eapply yields_mono; [apply IH; lia|]. intros out ->. by rewrite <-app_assoc.
    + apply IH; lia.
Qed.

Lemma chunks_of_file f cs : (f, cs) ∈ s -> len cs <= MAX_REGEX_CHUNKS_PER_FILE ->
  get_chunks_for_file s (file_id f) (Z.to_nat MAX_REGEX_CHUNKS_PER_FILE) = cs.
Proof.
  intros Hin Hlen. unfold get_chunks_for_file.
  pose proof (filter_unique (fun x : FileRecord * list ChunkRecord => file_id x.1) s (f, cs)) as Hf.
  cbn [fst] in Hf.
  assert (Hs : List.filter (fun '(f0, _) => file_id f0 =? file_id f) s = [(f, cs)]).
  { rewrite <-Hf; [apply filter_ext_in'; by intros [g ds] _| |done].
    replace (map (fun x => file_id x.1) s) with (map (fun '(f0, _) => file_id f0) s);
      [apply Hwf|apply map_ext; by intros [g ds]]. }
  rewrite Hs. cbn [map concat snd]. rewrite app_nil_r. apply firstn_all2.
  unfold bounded_limit, MAX_REGEX_CHUNKS_PER_FILE, HARD_MAX_RESULTS, len in *. lia.
Qed.

Lemma yields_check files :
  yields ranked_limit (for_each (fun '(f, count) => check_chunk_count cancelled f count) files)
    (fun _ => Forall (fun '(_, count) => count <= MAX_REGEX_CHUNKS_PER_FILE) files) [].
Proof.
  induction files as [|[f count] files IH]; cbn [for_each]; [by apply yields_ok|].
  eapply yields_then with (Q := fun _ => count <= MAX_REGEX_CHUNKS_PER_FILE).
  - unfold check_chunk_count. eapply yields_then; [apply yields_cancelled|]. intros _ _.
    destruct (_ <? _) eqn:Hc; [apply yields_fail; by right|]. bool_to_prop. by apply yields_ok.
  - intros _ Hc. eapply yields_mono; [apply IH|]. intros u Hall. by constructor.
Qed.

Lemma yields_scan_file f : yields ranked_limit (scan_file cancelled is_match limit s f) any
  (List.filter (fun h => is_match (hit_content h))
     (map (hit_of f) (get_chunks_for_file s (file_id f) (Z.to_nat MAX_REGEX_CHUNKS_PER_FILE)))).
Proof.
  unfold scan_file. eapply yields_then; [apply yields_cancelled|]. intros _ _.
  eapply yields_then; [apply yields_stop; [done|apply yields_charge_file]|]. intros _ _.
  rewrite <-concat_kept, map_map. apply yields_for_each. intros c _. unfold scan_chunk.
  eapply yields_then; [apply yields_stop; [done|apply yields_charge_chunk]|]. intros _ _.
  eapply yields_then; [apply yields_phases|]. intros _ _.
  eapply yields_then; [apply yields_phases|]. intros _ _.
  apply yields_stop; [done|]. apply yields_retain.
Qed.

Definition wanted_by (f : PathFilter) (h : ChunkHit) : bool :=
  (allows glob_match f (hit_path h) && limit_allows_path limit (hit_path h))
  && is_match (hit_content h).

Lemma wanted_by_files f t : List.filter (wanted_by f) (all_hits t)
  = concat (map (fun '(g, cs) => List.filter (fun h => is_match (hit_content h)) (map (hit_of g) cs))
      (List.filter (fun '(g, _) => allows glob_match f (file_path g)
                                   && limit_allows_path limit (file_path g)) t)).
Proof.
  induction t as [|[g cs] t IH]; [done|]. rewrite all_hits_cons, List.filter_app, IH. cbn [List.filter].
  assert (Hf : List.filter (wanted_by f) (map (hit_of g) cs)
    = if allows glob_match f (file_path g) && limit_allows_path limit (file_path g)
      then List.filter (fun h => is_match (hit_content h)) (map (hit_of g) cs) else []).
  { unfold wanted_by. induction cs as [|c cs IHc]; [by destruct (_ && _)|].
    cbn [map List.filter]. rewrite IHc. cbn [hit_of hit_path].
    by destruct (allows _ _ _ && limit_allows_path _ _). }
  rewrite Hf. by destruct (_ && _).
Qed.

Lemma yields_full r f d : new_filter glob_valid (include_paths r) (exclude_paths r) = Ok f ->
  yields ranked_limit (full_scan cancelled glob_valid glob_match is_match s r f limit d) any
    (List.filter (wanted_by f) (all_hits s)).
Proof.
  intros Hfilter. unfold full_scan, regex_scan_files. rewrite wanted_by_files.
  set (allowed := fun path => allows glob_match f path && limit_allows_path limit path).
  set (rows := List.filter _ s) at 1.
  assert (Hrows : List.filter (fun '(g, _) => allowed (file_path g)) rows
    = List.filter (fun '(g, _) => allowed (file_path g)) s).
  { subst rows. rewrite filter_filter. apply filter_ext_in'. intros [g cs] _. subst allowed. cbn.
    destruct (allows glob_match f (file_path g)) eqn:Ha; [|by rewrite andb_false_r].
    by rewrite (filter_within_sql glob_valid glob_match _ _ f _ Hfilter Ha). }
  set (chosen := List.filter (fun '(g, _) => allowed (file_path g)) s) in *.
  eapply yields_then with (Q := fun out => out = map (fun '(g, cs) => (g, len cs)) chosen).
  { rewrite <-Hrows. apply (yields_file_rows allowed rows _ 0 []); [done|].
    unfold MAX_SCOPED_REGEX_ROWS_SCANNED. rewrite Z2Nat.id; lia. }
  intros out ->. eapply yields_then; [apply yields_check|]. intros u Hcounts.
  eapply yields_then; [apply yields_phases|]. intros _ _.
  assert (Hin : forall g cs, (g, cs) ∈ chosen -> (g, cs) ∈ s).
  { intros g cs Hg. subst chosen. apply list_elem_of_In, filter_In in Hg as [Hg _]. by apply list_elem_of_In. }
  assert (Hout : concat (map (fun '(g, cs) => List.filter (fun h => is_match (hit_content h))
        (map (hit_of g) cs)) chosen)
    = concat (map (fun '(g, _) => List.filter (fun h => is_match (hit_content h)) (map (hit_of g)
        (get_chunks_for_file s (file_id g) (Z.to_nat MAX_REGEX_CHUNKS_PER_FILE))))
        (map (fun '(g, cs) => (g, len cs)) chosen))).
  { rewrite map_map. apply f_equal, map_ext_in. intros [g cs] Hg%list_elem_of_In.
    rewrite (chunks_of_file g cs); [done|by apply Hin|]. cbv beta in Hcounts. rewrite Forall_forall in Hcounts.
    apply (Hcounts (g, len cs)). apply list_elem_of_fmap. by exists (g, cs). }
  match goal with |- context [concat (map ?h (List.filter ?g s))] =>
    change (List.filter g s) with chosen end.
  rewrite Hout. apply yields_for_each. intros [g n] _. apply yields_scan_file.
Qed.
End Full.
End Scans.

(** ** Properties *)

(** The compiled matcher of a request: a literal for an exhaustive text search,
    else the regex of the query, whose case-insensitive variant is never planned. *)
Definition compiled_for (regex : str -> str -> bool) (literal : bool -> str -> str -> bool)
    (r : ScanRequest) (is_match : str -> bool) : Prop :=
  if exhaustive_text r then is_match = literal (case_sensitive r) (query r)
  else case_sensitive r = true -> is_match = regex (query r).

(** C6: planning never changes a result.  A complete scan of a snapshot that
    succeeds returns exactly the chunks on allowed paths that the matcher
    accepts, in the order of the snapshot, whether it asked the trigram index,
    page by page or through scoped identifiers, or scanned every file; so the
    planned scan and the full scan agree.  Otherwise it fails with an invalid
    pattern, a cancellation or a retrieval limit, never with part of a result,
    and the paging loop always ends. *)
Theorem regex_hits_complete cancelled glob_valid glob_match parse extract fold_ranges fts_match
    regex literal hir_match is_match
    `{!GlobSubtree glob_match} `{!RegexEngine parse extract regex hir_match}
    `{!LiteralEngine fold_ranges literal} `{!TrigramFts fts_match}
    enabled s r limit :
  wf_snapshot s -> compiled_for regex literal r is_match ->
  match regex_hits cancelled glob_valid glob_match parse extract fold_ranges fts_match is_match
          enabled s r (Complete limit) with
  | Done (Ok scan) => limitation scan = None /\ exists f,
      new_filter glob_valid (include_paths r) (exclude_paths r) = Ok f
      /\ hits scan = List.filter (fun h => allows glob_match f (hit_path h)
                                           && is_match (hit_content h)) (all_hits s)
  | Done (Err e) => new_filter glob_valid (include_paths r) (exclude_paths r) = Err e \/ stops_with e
  | Panic | NoFuel => False
  end.
Proof.
  intros Hwf Hcompiled. unfold regex_hits.
  destruct (new_filter glob_valid (include_paths r) (exclude_paths r)) as [f|e] eqn:Hf; [|by left].
  assert (Hfinish : forall m st full, yields false m any full -> scan_hits st = [] ->
    full = List.filter (wanted (glob_match := glob_match) (is_match := is_match) f) (all_hits s) ->
    match finish (m st) with
    | Done (Ok scan) => limitation scan = None /\ exists f0, Ok f = Ok f0
        /\ hits scan = List.filter (fun h => allows glob_match f0 (hit_path h)
                                             && is_match (hit_content h)) (all_hits s)
    | Done (Err e) => Ok f = Err e \/ stops_with e
    | Panic | NoFuel => False
    end).
  { intros m st full Hm Hst ->. specialize (Hm st). destruct (m st) as [[a|e|scan|] st'].
    - destruct Hm as [_ Hh]. split; [done|]. exists f. split; [done|]. cbn. by rewrite Hh, Hst.
    - destruct Hm as [He _]. by right.
    - by destruct Hm as [].
    - done. }
  destruct (plan_decision _ _ _ enabled r) as [plan|d] eqn:Hplan.
  - eapply Hfinish; [|done|done]. apply (yields_planned s (fts_query (expression plan)) f Hwf); [|done|done].
    intros h Hh Hm. unfold plan_decision in Hplan. destruct enabled; [|done].
    unfold compiled_for in Hcompiled. destruct (exhaustive_text r).
    + subst is_match. destruct (literal_plan_sound _ _ _ _ _ Hplan Hm). by apply fts_finds.
    + destruct (case_sensitive r) eqn:Hcs; [|by unfold regex_candidate_plan in Hplan].
      rewrite (Hcompiled eq_refl) in Hm.
      assert (Htext : Forall is_char (hit_content h)).
      { pose proof (contents_are_text s Hwf) as Ht. rewrite Forall_forall in Ht. by apply Ht. }
      destruct (regex_plan_sound _ _ _ _ Hplan Htext Hm) as (_ & Hw & Ha). by apply fts_finds.
  - eapply Hfinish; [by apply (yields_full s (Complete limit) Hwf)|done|].
    apply filter_ext_in'. intros h _. unfold wanted_by, wanted. cbn. by rewrite andb_true_r.
Qed.

(** A ranked scan says what it leaves out.  Without planning, a ranked scan
    returns an initial part of the chunks it is after, in order, and when that
    part is not all of them it names the retrieval limit that stopped it. *)
Theorem ranked_scan_reports_omissions cancelled glob_valid glob_match parse extract fold_ranges
    fts_match is_match `{!GlobSubtree glob_match} s r max_candidates allowed :
  wf_snapshot s ->
  match regex_hits cancelled glob_valid glob_match parse extract fold_ranges fts_match is_match
          false s r (Ranked max_candidates allowed) with
  | Done (Ok scan) => exists f rest,
      new_filter glob_valid (include_paths r) (exclude_paths r) = Ok f
      /\ hits scan ++ rest
         = List.filter (fun h => (allows glob_match f (hit_path h) && allowed (hit_path h))
                                 && is_match (hit_content h)) (all_hits s)
      /\ match limitation scan with
         | None => rest = []
         | Some e => is_retrieval_limit e = true
         end
  | Done (Err e) => new_filter glob_valid (include_paths r) (exclude_paths r) = Err e \/ stops_with e
  | Panic | NoFuel => False
  end.
Proof.
  intros Hwf. unfold regex_hits.
  destruct (new_filter glob_valid (include_paths r) (exclude_paths r)) as [f|e] eqn:Hf; [|by left].
  cbn [plan_decision fallback].
  set (d := mk_diagnostics PlanningDisabled 0 0 0).
  pose proof (yields_full (cancelled := cancelled) (is_match := is_match) s
    (Ranked max_candidates allowed) Hwf r f d Hf (start_state (full_phases d 0) 0)) as Hm.
  destruct (full_scan _ _ _ _ _ _ _ _ _ _) as [[a|e|scan|] st']; cbn [finish]; [| | |done].
  - destruct Hm as [_ Hh]. exists f, []. split; [done|]. cbn. split; [by rewrite app_nil_r, Hh|done].
  - destruct Hm as [He _]. by right.
  - destruct Hm as (_ & p & e & [rest Hrest] & Hh & Hl & Hlim). exists f, rest.
    split; [done|]. rewrite Hh, Hl. cbn. by rewrite <-Hrest.
Qed.

(** *** Witnesses *)
#[export] Instance demo_glob_subtree : GlobSubtree demo_match.
Proof.
  intros root path Hmeta. unfold demo_match.
  rewrite (proj2 (strip_suffix_spec (lit "/**") (root ++ lit "/**") root) eq_refl), Hmeta. cbn [negb andb].
  rewrite andb_true_iff, path_is_within_spec, negb_true_iff, bool_decide_eq_false. split.
  - by intros [[->|Hb] Hn].
  - intros Hb. split; [by right|]. intros ->. destruct Hb as (r & Hr).
    apply (f_equal length) in Hr. rewrite length_app in Hr. simpl in Hr. lia.
Qed.

Definition demo_file (id : Z) (path : string) : FileRecord := mk_file id (lit path) 7.
Definition demo_chunk (id start : Z) (content : string) : ChunkRecord :=
  mk_chunk id (lit content) 1 1 start (start + len (lit content)) 3.
Definition demo_snapshot : IndexSnapshot :=
  [(demo_file 1 "src/a.rs", [demo_chunk 10 0 "pub fn beta_x()"; demo_chunk 11 16 "struct Beta_;"]);
   (demo_file 2 "src/b.rs", [demo_chunk 12 0 "fn alpha_beta_() {}"]);
   (demo_file 3 "tests/c.rs", [demo_chunk 13 0 "fn alpha_t()"])].
Definition demo_request : ScanRequest := mk_request demo_pattern false [lit "src/**"] [] true.
Definition demo_scan (enabled : bool) (limit : RegexScanLimit) : run (result RegexScan) :=
  regex_hits (fun _ => false) (fun _ => true) demo_match (pattern_parse demo_pattern demo_tree)
    literal_extract demo_fold reading_index (pattern_match demo_pattern demo_tree demo_pattern)
    enabled demo_snapshot demo_request limit.
Definition demo_keys (r : run (result RegexScan)) : list Z :=
  match r with Done (Ok scan) => map hit_key (hits scan) | _ => [] end.

Lemma demo_snapshot_wf : wf_snapshot demo_snapshot.
Proof.
  split.
  - assert (H : bool_decide (NoDup (map (fun '(f, _) => file_id f) demo_snapshot)) = true)
      by (vm_compute; reflexivity).
    by apply bool_decide_eq_true in H.
  - assert (H : bool_decide (NoDup (map hit_key (all_hits demo_snapshot))) = true)
      by (vm_compute; reflexivity).
    by apply bool_decide_eq_true in H.
  - apply Forall_forall. intros h Hh. apply Forall_forall. intros c Hc.
    assert (H : forallb (fun h => forallb (fun c => (0 <=? c) && (c <? 0x110000)) (hit_content h))
      (all_hits demo_snapshot) = true) by (vm_compute; reflexivity).
    rewrite forallb_forall in H. specialize (H h (proj1 (list_elem_of_In _ _) Hh)).
    rewrite forallb_forall in H. specialize (H c (proj1 (list_elem_of_In _ _) Hc)).
    unfold is_char. apply andb_true_iff in H as [H1 H2]. apply Z.leb_le in H1. apply Z.ltb_lt in H2. lia.
Qed.

(** The planned scan, the full scan, and a ranked scan of one chunk. *)
Example demo_scans :
  demo_keys (demo_scan true (Complete None)) = [10; 12]
  /\ demo_keys (demo_scan false (Complete None)) = [10; 12]
  /\ demo_keys (demo_scan false (Ranked 1 (fun _ => true))) = [10].
Proof. vm_compute. repeat split. Qed.

Lemma regex_hits_complete_witness :
  match demo_scan true (Complete None) with
  | Done (Ok scan) => limitation scan = None /\ exists f,
      new_filter (fun _ => true) [lit "src/**"] [] = Ok f
      /\ hits scan = List.filter (fun h => allows demo_match f (hit_path h)
           && pattern_match demo_pattern demo_tree demo_pattern (hit_content h)) (all_hits demo_snapshot)
  | Done (Err e) => new_filter (fun _ => true) [lit "src/**"] [] = Err e \/ stops_with e
  | Panic | NoFuel => False
  end.
Proof.
  exact (@regex_hits_complete (fun _ => false) (fun _ => true) demo_match
    (pattern_parse demo_pattern demo_tree) literal_extract demo_fold reading_index
    (pattern_match demo_pattern demo_tree) (folded_match demo_fold) ends_match
    (pattern_match demo_pattern demo_tree demo_pattern)
    demo_glob_subtree (pattern_engine demo_pattern demo_tree) (folded_engine demo_fold)
    reading_index_fts true demo_snapshot demo_request None demo_snapshot_wf (fun _ => eq_refl)).
Defined.

Lemma ranked_scan_reports_omissions_witness :
  match demo_scan false (Ranked 1 (fun _ => true)) with
  | Done (Ok scan) => exists f rest,
      new_filter (fun _ => true) [lit "src/**"] [] = Ok f
      /\ hits scan ++ rest = List.filter (fun h => (allows demo_match f (hit_path h) && true)
           && pattern_match demo_pattern demo_tree demo_pattern (hit_content h)) (all_hits demo_snapshot)
      /\ match limitation scan with
         | None => rest = []
         | Some e => is_retrieval_limit e = true
         end
  | Done (Err e) => new_filter (fun _ => true) [lit "src/**"] [] = Err e \/ stops_with e
  | Panic | NoFuel => False
  end.
Proof.
  exact (@ranked_scan_reports_omissions (fun _ => false) (fun _ => true) demo_match
    (pattern_parse demo_pattern demo_tree) literal_extract demo_fold reading_index
    (pattern_match demo_pattern demo_tree demo_pattern) demo_glob_subtree demo_snapshot demo_request
    1 (fun _ => true) demo_snapshot_wf).
Defined.
