(* ===== verification/Reconcile.v ===== *)
(** * Coalesced reconciliation

    [ReconciliationCoordinator] of [src/src/services/reconciliation.rs].
    Callers of [reconcile] wait on a wave; one wave at a time owns a spawned
    task that takes the indexing permit and the operation lock, marks itself
    running, scans the repository and distributes the outcome.  Callers that
    arrive before the scan starts share it, later ones share the next wave.

    The operations under the state mutex are functions on [CoordinatorState].
    Callers, the wave task and the scheduler interleave: [perform] is the
    effect of one atomic step, and a history of events is kept as a ghost. *)

From S2P Require Import Prelude Store.
Open Scope Z_scope.

(** ** Diagnostics *)
Record ReconciliationDiagnostics := mk_diag {
  requests : Z;
  rejected_requests : Z;
  waves_created : Z;
  waves_started : Z;
  waves_completed : Z;
  waves_failed : Z;
  waves_cancelled_before_start : Z;
  coalesced_requests : Z;
  cancelled_waiters : Z;
  timed_out_waiters : Z;
  active_waves : Z;
  peak_active_waves : Z;
  pending_waiters : Z;
  peak_pending_waiters : Z
}.

Inductive Counter :=
| Requests | RejectedRequests | WavesCreated | WavesStarted | WavesCompleted | WavesFailed
| WavesCancelledBeforeStart | CoalescedRequests | CancelledWaiters | TimedOutWaiters.
Definition counter_eqb (c c' : Counter) : bool :=
  match c, c' with
  | Requests, Requests | RejectedRequests, RejectedRequests | WavesCreated, WavesCreated
  | WavesStarted, WavesStarted | WavesCompleted, WavesCompleted | WavesFailed, WavesFailed
  | WavesCancelledBeforeStart, WavesCancelledBeforeStart | CoalescedRequests, CoalescedRequests
  | CancelledWaiters, CancelledWaiters | TimedOutWaiters, TimedOutWaiters => true
  | _, _ => false
  end.

(** [state.diagnostics.counter = state.diagnostics.counter.saturating_add(1)]. *)
Definition bump (c : Counter) (d : ReconciliationDiagnostics) : ReconciliationDiagnostics :=
  let next c' n := if counter_eqb c c' then u64_saturating_add n 1 else n in
  mk_diag (next Requests (requests d)) (next RejectedRequests (rejected_requests d))
    (next WavesCreated (waves_created d)) (next WavesStarted (waves_started d))
    (next WavesCompleted (waves_completed d)) (next WavesFailed (waves_failed d))
    (next WavesCancelledBeforeStart (waves_cancelled_before_start d))
    (next CoalescedRequests (coalesced_requests d)) (next CancelledWaiters (cancelled_waiters d))
    (next TimedOutWaiters (timed_out_waiters d)) (active_waves d) (peak_active_waves d)
    (pending_waiters d) (peak_pending_waiters d).
Definition set_active_waves (n peak : Z) (d : ReconciliationDiagnostics) : ReconciliationDiagnostics :=
  mk_diag (requests d) (rejected_requests d) (waves_created d) (waves_started d)
    (waves_completed d) (waves_failed d) (waves_cancelled_before_start d) (coalesced_requests d)
    (cancelled_waiters d) (timed_out_waiters d) n peak (pending_waiters d) (peak_pending_waiters d).
Definition set_pending_waiters (n peak : Z) (d : ReconciliationDiagnostics)
    : ReconciliationDiagnostics :=
  mk_diag (requests d) (rejected_requests d) (waves_created d) (waves_started d)
    (waves_completed d) (waves_failed d) (waves_cancelled_before_start d) (coalesced_requests d)
    (cancelled_waiters d) (timed_out_waiters d) (active_waves d) (peak_active_waves d) n peak.

(** ** Waves *)
Inductive WavePhase := WaitingForOperation | Running.
#[export] Instance wave_phase_eq_dec : EqDecision WavePhase.
Proof. solve_decision. Defined.

(** A waiter is named by its identifier; its [oneshot] channel is kept with the
    system below. *)
Record Wave := mk_wave {
  wave_id : Z;
  wave_phase : WavePhase;
  wave_cancelled : bool;
  waiters : list Z
}.

Record CoordinatorState := mk_state {
  next_wave_id : Z;
  next_waiter_id : Z;
  current : option Wave;
  pending : option Wave;
  diagnostics : ReconciliationDiagnostics
}.

Inductive WaveOutcome :=
| CompleteOutcome
| FailedOutcome (e : error).
#[export] Instance wave_outcome_eq_dec : EqDecision WaveOutcome.
Proof. solve_decision. Defined.

Inductive WaiterExit := ExitCancelled | ExitTimedOut.

Definition new_state : CoordinatorState :=
  mk_state 1 1 None None (mk_diag 0 0 0 0 0 0 0 0 0 0 0 0 0 0).

Definition with_diagnostics (f : ReconciliationDiagnostics -> ReconciliationDiagnostics)
    (s : CoordinatorState) : CoordinatorState :=
  mk_state (next_wave_id s) (next_waiter_id s) (current s) (pending s) (f (diagnostics s)).
Definition with_current (w : option Wave) (s : CoordinatorState) : CoordinatorState :=
  mk_state (next_wave_id s) (next_waiter_id s) w (pending s) (diagnostics s).
Definition with_pending (w : option Wave) (s : CoordinatorState) : CoordinatorState :=
  mk_state (next_wave_id s) (next_waiter_id s) (current s) w (diagnostics s).
Definition with_waiters (l : list Z) (w : Wave) : Wave :=
  mk_wave (wave_id w) (wave_phase w) (wave_cancelled w) l.

(** [usize::from(option.is_some())] and [map_or(0, |wave| wave.waiters.len())]. *)
Definition count_wave (w : option Wave) : Z := match w with Some _ => 1 | None => 0 end.
Definition waiter_count (w : option Wave) : Z :=
  match w with Some w => len (waiters w) | None => 0 end.

Definition update_waiter_high_water (s : CoordinatorState) : CoordinatorState :=
  let d := diagnostics s in
  let d := set_active_waves (count_wave (current s) + count_wave (pending s))
             (peak_active_waves d) d in
  let waiting := waiter_count (pending s) in
  with_diagnostics
    (fun _ => set_pending_waiters waiting (Z.max (peak_pending_waiters d) waiting) d) s.

(** [Vec::swap_remove]. *)
Definition swap_remove {A} (i : nat) (l : list A) : list A :=
  match last l with
  | Some x => take (length l - 1) (<[i:=x]> l)
  | None => l
  end.
Definition remove_waiter (l : list Z) (id : Z) : option (list Z) :=
  match list_find (fun w => w = id) l with
  | Some (i, _) => Some (swap_remove i l)
  | None => None
  end.

(** ** Operations under the mutex *)

Definition new_wave (s : CoordinatorState) (waiter : Z) : Wave * CoordinatorState :=
  let id := next_wave_id s in
  let d := bump WavesCreated (diagnostics s) in
  let active := u64_saturating_add (active_waves d) 1 in
  let d := set_active_waves active (Z.max (peak_active_waves d) active) d in
  (mk_wave id WaitingForOperation false [waiter],
   mk_state (u64_saturating_add id 1) (next_waiter_id s) (current s) (pending s) d).

(** The new waiter's identifier, the identifier of its wave, and the wave to start. *)
Definition enqueue (s : CoordinatorState) : Z * Z * option Z * CoordinatorState :=
  let waiter := next_waiter_id s in
  let s := mk_state (next_wave_id s) (u64_saturating_add waiter 1) (current s) (pending s)
             (diagnostics s) in
  let '(joined, start, s) :=
    match current s with
    | None =>
      let '(wave, s) := new_wave s waiter in
      (wave_id wave, Some (wave_id wave), with_current (Some wave) s)
    | Some c =>
      if bool_decide (wave_phase c = WaitingForOperation) && negb (wave_cancelled c) then
        (wave_id c, None,
         with_diagnostics (bump CoalescedRequests)
           (with_current (Some (with_waiters (waiters c ++ [waiter]) c)) s))
      else match pending s with
           | Some p =>
             (wave_id p, None,
              with_diagnostics (bump CoalescedRequests)
                (with_pending (Some (with_waiters (waiters p ++ [waiter]) p)) s))
           | None =>
             let '(wave, s) := new_wave s waiter in
             (wave_id wave, None, with_pending (Some wave) s)
           end
    end in
  (waiter, joined, start, update_waiter_high_water s).

Definition mark_running (id : Z) (s : CoordinatorState) : bool * CoordinatorState :=
  match current s with
  | None => (false, s)
  | Some c =>
    if negb (wave_id c =? id) || negb (bool_decide (wave_phase c = WaitingForOperation))
       || bool_decide (waiters c = []) || wave_cancelled c
    then (false, s)
    else (true, with_diagnostics (bump WavesStarted)
                  (with_current (Some (mk_wave (wave_id c) Running (wave_cancelled c) (waiters c))) s))
  end.

(** The outcomes sent, and the wave to start. *)
Definition finish_wave (id : Z) (r : result ()) (s : CoordinatorState)
    : list (Z * WaveOutcome) * option Z * CoordinatorState :=
  match current s with
  | None => ([], None, s)
  | Some c =>
    if negb (wave_id c =? id) then ([], None, s)
    else
      let s := with_current None s in
      let '(sent, s) :=
        match r with
        | Ok _ => (map (fun w => (w, CompleteOutcome)) (waiters c),
                   with_diagnostics (bump WavesCompleted) s)
        | Err e =>
          if bool_decide (e = Cancelled) && bool_decide (waiters c = [])
          then ([], with_diagnostics (bump WavesCancelledBeforeStart) s)
          else (map (fun w => (w, FailedOutcome e)) (waiters c),
                with_diagnostics (bump WavesFailed) s)
        end in
      let '(start, s) :=
        match pending s with
        | Some p =>
          if bool_decide (waiters p = [])
          then (None, with_diagnostics (bump WavesCancelledBeforeStart) (with_pending None s))
          else (Some (wave_id p), with_current (Some p) (with_pending None s))
        | None => (None, s)
        end in
      (sent, start, update_waiter_high_water s)
  end.

Definition POISONED : error := OperationFailure "reconciliation coordinator state poisoned".

(** [finish_wave] when the mutex is poisoned. *)
Definition finish_poisoned (s : CoordinatorState) : list (Z * WaveOutcome) * CoordinatorState :=
  let waiters_of w := match w with Some w => waiters w | None => [] end in
  (map (fun w => (w, FailedOutcome POISONED)) (waiters_of (current s) ++ waiters_of (pending s)),
   with_diagnostics (fun d => bump WavesFailed (set_pending_waiters 0 (peak_pending_waiters d)
                                (set_active_waves 0 (peak_active_waves d) d)))
     (with_pending None (with_current None s))).

Definition exit_counter (reason : WaiterExit) : Counter :=
  match reason with ExitCancelled => CancelledWaiters | ExitTimedOut => TimedOutWaiters end.

Definition exit_waiter (id : Z) (reason : WaiterExit) (s : CoordinatorState) : CoordinatorState :=
  let s := with_diagnostics (bump (exit_counter reason)) s in
  match current s ≫= (fun c => (fun l => (c, l)) <$> remove_waiter (waiters c) id) with
  | Some (c, l) =>
    let cancel := bool_decide (l = []) && bool_decide (wave_phase c = WaitingForOperation) in
    update_waiter_high_water
      (with_current (Some (mk_wave (wave_id c) (wave_phase c) (wave_cancelled c || cancel) l)) s)
  | None =>
    match pending s ≫= (fun p => (fun l => (p, l)) <$> remove_waiter (waiters p) id) with
    | Some (p, l) =>
      update_waiter_high_water
        (if bool_decide (l = [])
         then with_diagnostics (bump WavesCancelledBeforeStart) (with_pending None s)
         else with_pending (Some (with_waiters l p)) s)
    | None => update_waiter_high_water s
    end
  end.

(** ** Callers, tasks and the history *)

(** Where a spawned wave task stands. *)
Inductive TaskStep :=
| Admission
| Locking
| Locked
| Scanning
| Finishing (r : result ()).
Record Task := mk_task { task_wave : Z; task_step : TaskStep }.

(** Where a call of [reconcile] stands; dropping the future is [CancelWait]. *)
Inductive Caller :=
| Called
| Permitted
| Waiting (waiter : Z)
| Returned (r : result ()).

(** [Environment v e]: the semaphore, the operation lock, the indexer, the
    runtime or the poisoned mutex gave the task of wave [v] the error [e]. *)
Inductive Event :=
| Entered (caller : nat) (waiter wave : Z)
| Started (wave : Z)
| Scanned (wave : Z)
| Environment (wave : Z) (e : error)
| Delivered (waiter wave : Z) (o : WaveOutcome).

Record system := mk_system {
  state : CoordinatorState;
  poisoned : bool;
  permits : gset nat;
  callers : gmap nat Caller;
  channels : gmap Z WaveOutcome;
  tasks : list Task;
  history : list Event
}.

Definition initial_system : system := mk_system new_state false ∅ ∅ ∅ [] [].

Inductive label :=
| Call (c : nat)
| TryPermit (c : nat)
| Enter (c : nat) (is_cancelled : bool)
| CancelWait (c : nat)
| Receive (c : nat)
| ReceiveClosed (c : nat)
| TimeOut (c : nat)
| TaskAdmitted (i : nat)
| TaskAdmissionCancelled (i : nat)
| TaskAdmissionClosed (i : nat)
| TaskLock (i : nat) (acquired : result ())
| TaskMark (i : nat) (released : result ())
| TaskScan (i : nat) (scanned released : result ())
| TaskPanic (i : nat) (e : error)
| TaskFinish (i : nat)
| Poison.

Definition all_waiters (s : CoordinatorState) : list Z :=
  match current s with Some c => waiters c | None => [] end
  ++ match pending s with Some p => waiters p | None => [] end.

(** The token of a wave is shared with its task. *)
Definition token_cancelled (id : Z) (s : CoordinatorState) : bool :=
  match current s with Some c => (wave_id c =? id) && wave_cancelled c | None => false end.

Definition with_state (s : CoordinatorState) (y : system) : system :=
  mk_system s (poisoned y) (permits y) (callers y) (channels y) (tasks y) (history y).
Definition set_caller (c : nat) (k : Caller) (y : system) : system :=
  mk_system (state y) (poisoned y) (permits y) (<[c:=k]> (callers y)) (channels y) (tasks y)
    (history y).
(** Returning drops the permit. *)
Definition return_caller (c : nat) (r : result ()) (y : system) : system :=
  mk_system (state y) (poisoned y) (permits y ∖ {[c]}) (<[c:=Returned r]> (callers y))
    (channels y) (tasks y) (history y).
Definition record_event (e : Event) (y : system) : system :=
  mk_system (state y) (poisoned y) (permits y) (callers y) (channels y) (tasks y)
    (e :: history y).
Definition set_tasks (ts : list Task) (y : system) : system :=
  mk_system (state y) (poisoned y) (permits y) (callers y) (channels y) ts (history y).

(** [tokio::spawn] of the task of a wave. *)
Definition spawn_wave (start : option Z) (y : system) : system :=
  match start with
  | Some id => set_tasks (tasks y ++ [mk_task id Admission]) y
  | None => y
  end.

(** [sender.send] to each waiter. *)
Fixpoint send_all (wave : Z) (sent : list (Z * WaveOutcome)) (y : system) : system :=
  match sent with
  | [] => y
  | (w, o) :: sent =>
    send_all wave sent
      (mk_system (state y) (poisoned y) (permits y) (callers y) (<[w:=o]> (channels y)) (tasks y)
         (Delivered w wave o :: history y))
  end.

(** The task at index [i] moves on; an error of the environment is recorded. *)
Definition move_task (i : nat) (t : Task) (step : TaskStep) (y : system) : system :=
  set_tasks (<[i:=mk_task (task_wave t) step]> (tasks y)) y.
Definition fail_task (i : nat) (t : Task) (e : error) (y : system) : system :=
  move_task i t (Finishing (Err e)) (record_event (Environment (task_wave t) e) y).

Definition outcome_result (o : WaveOutcome) : result () :=
  match o with CompleteOutcome => Ok () | FailedOutcome e => Err (ReconciliationFailed e) end.

Section System.
(** Permits of the [active_requests] semaphore. *)
Variable capacity : nat.

Definition perform_caller (c : nat) (k : Caller) (l : label) (y : system) : option system :=
  match l, k with
  | TryPermit _, Called =>
    Some (if bool_decide (size (permits y) < capacity)%nat
          then set_caller c Permitted
                 (mk_system (state y) (poisoned y) ({[c]} ∪ permits y) (callers y) (channels y)
                    (tasks y) (history y))
          else if poisoned y then return_caller c (Err POISONED) y
          else return_caller c (Err RetrievalOverloaded)
                 (with_state (with_diagnostics (bump RejectedRequests) (state y)) y))
  | Enter _ is_cancelled, Permitted =>
    Some (if poisoned y then return_caller c (Err POISONED) y
          else if is_cancelled
          then return_caller c (Err Cancelled)
                 (with_state (with_diagnostics (bump CancelledWaiters) (state y)) y)
          else
            let '(w, wave, start, s) := enqueue (state y) in
            spawn_wave start
              (record_event (Entered c w wave) (set_caller c (Waiting w) (with_state s y))))
  | CancelWait _, Waiting w =>
    Some (if poisoned y then return_caller c (Err POISONED) y
          else return_caller c (Err Cancelled) (with_state (exit_waiter w ExitCancelled (state y)) y))
  | TimeOut _, Waiting w =>
    if bool_decide (channels y !! w = None) then
      Some (if poisoned y then return_caller c (Err POISONED) y
            else return_caller c (Err IndexNotReady)
                   (with_state (exit_waiter w ExitTimedOut (state y)) y))
    else None
  | Receive _, Waiting w =>
    match channels y !! w with
    | Some o => Some (return_caller c (outcome_result o) y)
    | None => None
    end
  | ReceiveClosed _, Waiting w =>
    if bool_decide (channels y !! w = None) && bool_decide (w ∉ all_waiters (state y))
    then Some (return_caller c
                 (Err (OperationFailure "reconciliation coordinator stopped unexpectedly")) y)
    else None
  | _, _ => None
  end.

Definition perform_task (i : nat) (t : Task) (l : label) (y : system) : option system :=
  let id := task_wave t in
  match l, task_step t with
  | TaskAdmitted _, Admission =>
    if token_cancelled id (state y) then None else Some (move_task i t Locking y)
  | TaskAdmissionCancelled _, Admission =>
    if token_cancelled id (state y) then Some (move_task i t (Finishing (Err Cancelled)) y) else None
  | TaskAdmissionClosed _, Admission => Some (fail_task i t McpRuntimeStopped y)
  | TaskLock _ acquired, Locking =>
    Some (match acquired with
          | Ok _ => move_task i t Locked y
          | Err e => fail_task i t e y
          end)
  | TaskMark _ released, Locked =>
    Some (if poisoned y then fail_task i t POISONED y
          else match mark_running id (state y) with
               | (true, s) =>
                 move_task i t Scanning (record_event (Started id) (with_state s y))
               | (false, _) =>
                 match released with
                 | Ok _ => move_task i t (Finishing (Err Cancelled)) y
                 | Err e => fail_task i t e y
                 end
               end)
  | TaskScan _ scanned released, Scanning =>
    Some (match released, scanned with
          | Err e, _ => fail_task i t e y
          | Ok _, Err e => fail_task i t e y
          | Ok _, Ok _ => move_task i t (Finishing (Ok ())) (record_event (Scanned id) y)
          end)
  | TaskPanic _ e, (Locking | Locked | Scanning) => Some (fail_task i t e y)
  | TaskFinish _, Finishing r =>
    let y := set_tasks (delete i (tasks y)) y in
    Some (if poisoned y
          then let '(sent, s) := finish_poisoned (state y) in send_all id sent (with_state s y)
          else let '(sent, start, s) := finish_wave id r (state y) in
               spawn_wave start (send_all id sent (with_state s y)))
  | _, _ => None
  end.

Definition perform (l : label) (y : system) : option system :=
  match l with
  | Call c =>
    match callers y !! c with
    | None =>
      Some (if poisoned y then return_caller c (Err POISONED) y
            else set_caller c Called
                   (with_state (with_diagnostics (bump Requests) (state y)) y))
    | Some _ => None
    end
  | TryPermit c | Enter c _ | CancelWait c | Receive c | ReceiveClosed c | TimeOut c =>
    match callers y !! c with Some k => perform_caller c k l y | None => None end
  | TaskAdmitted i | TaskAdmissionCancelled i | TaskAdmissionClosed i | TaskLock i _
  | TaskMark i _ | TaskScan i _ _ | TaskPanic i _ | TaskFinish i =>
    match tasks y !! i with Some t => perform_task i t l y | None => None end
  | Poison =>
    Some (mk_system (state y) true (permits y) (callers y) (channels y) (tasks y) (history y))
  end.

Inductive reachable : system -> Prop :=
| reachable_initial : reachable initial_system
| reachable_step l y y' : reachable y -> perform l y = Some y' -> reachable y'.
End System.

(** ** Facts about the operations *)

Lemma swap_remove_perm {A} (i : nat) (l : list A) x :
  l !! i = Some x -> x :: swap_remove i l ≡ₚ l.
Proof.
  intros Hi. destruct (decide (l = [])) as [->|Hl]; [done|].
  destruct (exists_last Hl) as (l0 & z & ->). unfold swap_remove.
  rewrite last_snoc, length_app. cbn [length].
  replace (length l0 + 1 - 1)%nat with (length l0) by lia.
  destruct (decide (i < length l0)%nat) as [Hlt|Hge].
  - rewrite lookup_app_l in Hi by done.
    rewrite insert_app_l by done. rewrite take_app_le by (rewrite length_insert; lia).
    rewrite take_ge by (rewrite length_insert; lia).
    rewrite insert_take_drop by done.
    transitivity (take i l0 ++ x :: drop (S i) l0 ++ [z]).
    + rewrite <-!Permutation_middle. constructor. by rewrite app_assoc, app_nil_r.
    + by rewrite app_comm_cons, app_assoc, take_drop_middle.
  - apply lookup_lt_Some in Hi as Hlen. rewrite length_app in Hlen. cbn in Hlen.
    replace i with (length l0) in * by lia.
    rewrite lookup_app_r, Nat.sub_diag in Hi by lia. injection Hi as ->.
    rewrite insert_app_r_alt, Nat.sub_diag by lia. cbn.
    rewrite take_app_length. by rewrite Permutation_cons_append.
Qed.

Lemma remove_waiter_some l w l' : remove_waiter l w = Some l' -> w :: l' ≡ₚ l.
Proof.
  unfold remove_waiter. destruct (list_find _ l) as [[i x]|] eqn:Hf; [|done].
  intros [= <-]. apply list_find_Some in Hf as (Hi & -> & _). by apply swap_remove_perm.
Qed.
Lemma remove_waiter_none l w : remove_waiter l w = None <-> w ∉ l.
Proof.
  unfold remove_waiter. destruct (list_find _ l) as [[i x]|] eqn:Hf.
  - split; [done|]. apply list_find_Some in Hf as (Hi & -> & _). intros []. by eapply list_elem_of_lookup_2.
  - split; [|done]. intros _ Hw. rewrite list_find_None, Forall_forall in Hf. by apply (Hf w).
Qed.

Definition wave_waiters (w : option Wave) : list Z :=
  match w with Some w => waiters w | None => [] end.

(** What leaving does to the waves: the waiter is gone from the wave it was in,
    a waiting wave it leaves empty is cancelled, a pending one dropped. *)
Inductive exited (w : Z) (s s' : CoordinatorState) : Prop :=
| exited_current c l : current s = Some c -> w :: l ≡ₚ waiters c ->
    current s' = Some (mk_wave (wave_id c) (wave_phase c)
      (wave_cancelled c || bool_decide (l = []) && bool_decide (wave_phase c = WaitingForOperation)) l) ->
    pending s' = pending s -> exited w s s'
| exited_pending p l : w ∉ wave_waiters (current s) -> pending s = Some p -> w :: l ≡ₚ waiters p ->
    current s' = current s ->
    pending s' = (if bool_decide (l = []) then None else Some (with_waiters l p)) -> exited w s s'
| exited_absent : w ∉ all_waiters s -> current s' = current s -> pending s' = pending s ->
    exited w s s'.

Lemma exit_waiter_exited w reason s : exited w s (exit_waiter w reason s).
Proof.
  unfold exit_waiter. cbn [current pending with_diagnostics].
  destruct (current s) as [c|] eqn:Hc; cbn [mbind option_bind fmap option_fmap option_map].
  - destruct (remove_waiter (waiters c) w) as [l|] eqn:Hr; cbn.
    { eapply exited_current; [done|by apply remove_waiter_some|done|done]. }
    apply remove_waiter_none in Hr. destruct (pending s) as [p|] eqn:Hp; cbn.
    + destruct (remove_waiter (waiters p) w) as [l|] eqn:Hr'; cbn.
      * eapply exited_pending; [by rewrite Hc|done|by apply remove_waiter_some| |].
        -- by destruct (bool_decide (l = [])).
        -- by destruct (bool_decide (l = [])).
      * apply remove_waiter_none in Hr'. apply exited_absent; [|done|done].
        unfold all_waiters. rewrite Hc, Hp, elem_of_app. tauto.
    + apply exited_absent; [|done|done]. unfold all_waiters. by rewrite Hc, Hp, app_nil_r.
  - destruct (pending s) as [p|] eqn:Hp; cbn.
    + destruct (remove_waiter (waiters p) w) as [l|] eqn:Hr'; cbn.
      * eapply exited_pending; [rewrite Hc; apply not_elem_of_nil|done|by apply remove_waiter_some| |].
        -- by destruct (bool_decide (l = [])).
        -- by destruct (bool_decide (l = [])).
      * apply remove_waiter_none in Hr'. apply exited_absent; [|done|done].
        unfold all_waiters. by rewrite Hc, Hp.
    + apply exited_absent; [|done|done]. unfold all_waiters. rewrite Hc, Hp. apply not_elem_of_nil.
Qed.

Lemma exited_waiters w s s' : exited w s s' -> NoDup (all_waiters s) ->
  NoDup (all_waiters s') /\ forall x, x ∈ all_waiters s' <-> x ∈ all_waiters s /\ x <> w.
Proof.
  intros He Hnd.
  assert (H : all_waiters s ≡ₚ w :: all_waiters s' \/ (w ∉ all_waiters s /\ all_waiters s' = all_waiters s)).
  { unfold all_waiters in *. destruct He as [c l Hc Hl Hc' Hp'|p l Hw Hp Hl Hc' Hp'|Hw Hc' Hp'].
    - left. rewrite Hc', Hc, Hp', <-Hl. done.
    - left. rewrite Hc', Hp, <-Hl, Hp'. rewrite <-Permutation_middle.
      by destruct (decide (l = [])) as [->|Hn]; [|rewrite bool_decide_eq_false_2 by done].
    - right. by rewrite Hc', Hp'. }
  destruct H as [H|[Hw ->]].
  - rewrite H in Hnd. apply NoDup_cons in Hnd as [Hw Hnd]. split; [done|].
    intros x. rewrite H, elem_of_cons. split; [|naive_solver]. intros Hx. split; [by right|by intros ->].
  - split; [done|]. intros x. split; [|naive_solver]. intros Hx. split; [done|by intros ->].
Qed.

Lemma exit_waiter_ids w reason s : next_waiter_id (exit_waiter w reason s) = next_waiter_id s.
Proof.
  unfold exit_waiter. by repeat case_match.
Qed.

(** What entering does: the waiter joins the current wave before its scan, the
    pending wave, or a new one. *)
Inductive joined (w : Z) (s s' : CoordinatorState) : Z -> option Z -> Prop :=
| joined_start id : current s = None ->
    current s' = Some (mk_wave id WaitingForOperation false [w]) -> pending s' = pending s ->
    joined w s s' id (Some id)
| joined_current c : current s = Some c -> wave_phase c = WaitingForOperation ->
    wave_cancelled c = false ->
    current s' = Some (with_waiters (waiters c ++ [w]) c) -> pending s' = pending s ->
    joined w s s' (wave_id c) None
| joined_pending c p : current s = Some c -> current s' = current s -> pending s = Some p ->
    pending s' = Some (with_waiters (waiters p ++ [w]) p) -> joined w s s' (wave_id p) None
| joined_new c id : current s = Some c -> current s' = current s -> pending s = None ->
    pending s' = Some (mk_wave id WaitingForOperation false [w]) -> joined w s s' id None.

Lemma enqueue_joined s w v start s' : enqueue s = (w, v, start, s') ->
  w = next_waiter_id s /\ next_waiter_id s' = u64_saturating_add w 1 /\ joined w s s' v start.
Proof.
  unfold enqueue. cbn [current pending].
  destruct (current s) as [c|] eqn:Hc; cbn.
  - destruct (bool_decide (wave_phase c = WaitingForOperation) && negb (wave_cancelled c)) eqn:Hb; cbn.
    { bool_to_prop. apply bool_decide_eq_true in H. intros [= <- <- <- <-]. split; [done|]. split; [done|].
      by eapply joined_current. }
    destruct (pending s) as [p|] eqn:Hp; cbn; intros [= <- <- <- <-]; (split; [done|]; split; [done|]).
    + by eapply joined_pending.
    + by eapply joined_new.
  - intros [= <- <- <- <-]. split; [done|]. split; [done|]. by apply joined_start.
Qed.

Lemma joined_waiters w s s' v start : joined w s s' v start ->
  all_waiters s' ≡ₚ w :: all_waiters s.
Proof.
  unfold all_waiters. intros [id H1 H2 H3|c H1 _ _ H2 H3|c p H1 H2 H3 H4|c id H1 H2 H3 H4].
  - by rewrite H1, H2, H3.
  - rewrite H1, H2, H3. cbn. rewrite <-app_assoc. cbn. by rewrite <-Permutation_middle.
  - rewrite H2, H3, H4. cbn. rewrite app_assoc. by rewrite <-Permutation_cons_append.
  - rewrite H2, H3, H4, app_nil_r. cbn. by rewrite <-Permutation_cons_append.
Qed.

(** ** The invariant *)

(** What the history shows between entering a wave and now. *)
Definition lead (id : Z) (phase : WavePhase) (step : TaskStep) : list Event :=
  match phase, step with
  | WaitingForOperation, _ => []
  | Running, Finishing (Ok _) => [Scanned id; Started id]
  | Running, _ => [Started id]
  end.
Definition members (h es : list Event) (id : Z) (l : list Z) : Prop :=
  forall w, w ∈ l -> exists c, es ++ [Entered c w id] `sublist_of` h.

Definition step_ok (h : list Event) (c : Wave) (step : TaskStep) : Prop :=
  match wave_phase c, step with
  | WaitingForOperation, (Admission | Locking | Locked) => True
  | WaitingForOperation, Finishing (Err e) =>
    Environment (wave_id c) e ∈ h \/ (e = Cancelled /\ waiters c = [])
  | Running, (Scanning | Finishing (Ok _)) => True
  | Running, Finishing (Err e) => Environment (wave_id c) e ∈ h
  | _, _ => False
  end.
Record wave_ok (h : list Event) (c : Wave) (step : TaskStep) : Prop := {
  wo_step : step_ok h c step;
  wo_cancelled : wave_cancelled c = true <-> waiters c = [] /\ wave_phase c = WaitingForOperation;
  wo_members : members h (lead (wave_id c) (wave_phase c) step) (wave_id c) (waiters c)
}.
Record pending_ok (h : list Event) (p : Wave) : Prop := {
  po_phase : wave_phase p = WaitingForOperation;
  po_cancelled : wave_cancelled p = false;
  po_waiters : waiters p <> [];
  po_members : members h [] (wave_id p) (waiters p)
}.

(** An outcome that a waiter may see: success comes from a scan of its own wave
    that started after it entered; a failure from the environment of its wave. *)
Definition justified (h : list Event) (poison : bool) (c : nat) (w : Z) (o : WaveOutcome) : Prop :=
  match o with
  | CompleteOutcome =>
    exists v, [Delivered w v o; Scanned v; Started v; Entered c w v] `sublist_of` h
  | FailedOutcome e =>
    (exists v, [Delivered w v o; Entered c w v] `sublist_of` h /\ Environment v e ∈ h)
    \/ (e = POISONED /\ poison = true)
  end.
Definition returned_ok (h : list Event) (poison : bool) (c : nat) (r : result ()) : Prop :=
  match r with
  | Ok _ => exists w, justified h poison c w CompleteOutcome
  | Err (ReconciliationFailed e) => exists w, justified h poison c w (FailedOutcome e)
  | Err e => e = RetrievalOverloaded \/ e = Cancelled \/ e = IndexNotReady
             \/ (e = POISONED /\ poison = true)
  end.

Record invariant (y : system) : Prop := {
  inv_tasks : match current (state y) with
              | None => tasks y = [] /\ pending (state y) = None
              | Some c => exists step, tasks y = [mk_task (wave_id c) step]
                                       /\ wave_ok (history y) c step
              end;
  inv_pending : forall p, pending (state y) = Some p -> pending_ok (history y) p;
  inv_nodup : NoDup (all_waiters (state y));
  inv_entered : forall c w v, Entered c w v ∈ history y -> w < next_waiter_id (state y);
  inv_unique : forall c c' w v v', Entered c w v ∈ history y -> Entered c' w v' ∈ history y ->
    c = c' /\ v = v';
  inv_waiting : forall c w, callers y !! c = Some (Waiting w) ->
    (exists v, Entered c w v ∈ history y)
    /\ (w ∈ all_waiters (state y) \/ channels y !! w <> None);
  inv_channel : forall w o, channels y !! w = Some o ->
    w ∉ all_waiters (state y) /\ exists c, justified (history y) (poisoned y) c w o
      /\ exists v, Entered c w v ∈ history y;
  inv_returned : forall c r, callers y !! c = Some (Returned r) ->
    returned_ok (history y) (poisoned y) c r
}.

Lemma members_cons e h es id l : members h es id l -> members (e :: h) es id l.
Proof. intros H w Hw. destruct (H w Hw) as [c Hc]. exists c. by constructor. Qed.
Lemma members_lead e h es id l : members h es id l -> members (e :: h) (e :: es) id l.
Proof. intros H w Hw. destruct (H w Hw) as [c Hc]. exists c. cbn. by constructor. Qed.
Lemma members_subset h es id l l' : (forall w, w ∈ l' -> w ∈ l) -> members h es id l ->
  members h es id l'.
Proof. unfold members. auto. Qed.

Lemma step_ok_cons e h c step : step_ok h c step -> step_ok (e :: h) c step.
Proof.
  unfold step_ok. destruct (wave_phase c), step as [| | | |[|]]; rewrite ?elem_of_cons; tauto.
Qed.
Lemma wave_ok_cons e h c step : wave_ok h c step -> wave_ok (e :: h) c step.
Proof.
  intros [H1 H2 H3]. split; [by apply step_ok_cons|done|by apply members_cons].
Qed.
Lemma pending_ok_cons e h p : pending_ok h p -> pending_ok (e :: h) p.
Proof. intros [H1 H2 H3 H4]. split; [done|done|done|by apply members_cons]. Qed.
Lemma justified_cons e h poison c w o : justified h poison c w o -> justified (e :: h) poison c w o.
Proof.
  destruct o as [|x]; cbn.
  - intros [v H]. exists v. by constructor.
  - intros [(v & H & He)|H]; [left|by right]. exists v. split; [by constructor|by right].
Qed.
Lemma returned_ok_cons e h poison c r : returned_ok h poison c r -> returned_ok (e :: h) poison c r.
Proof.
  destruct r as [u|x]; cbn -[justified].
  - intros [w H]. exists w. by apply justified_cons.
  - destruct x; try done. intros [w H]. exists w. by apply justified_cons.
Qed.
Lemma justified_poison h c w o p : justified h p c w o -> justified h true c w o.
Proof. destruct o; cbn; naive_solver. Qed.
Lemma returned_ok_poison h c r p : returned_ok h p c r -> returned_ok h true c r.
Proof.
  destruct r as [u|x]; cbn -[justified].
  - intros [w H]. exists w. by eapply justified_poison.
  - destruct x; try tauto. intros [w H]. exists w. by eapply justified_poison.
Qed.

Lemma entered_in h es c w v : es ++ [Entered c w v] `sublist_of` h -> Entered c w v ∈ h.
Proof. intros H. eapply elem_of_sublist; [|exact H]. rewrite elem_of_app. right. by apply list_elem_of_singleton. Qed.
Lemma event_in (h : list Event) (e : Event) : e ∈ h -> [e] `sublist_of` h.
Proof. by rewrite singleton_sublist_l. Qed.

Lemma invariant_initial : invariant initial_system.
Proof.
  split; cbn; try done.
  - apply NoDup_nil_2.
  - by intros c w v ?%elem_of_nil.
  - by intros c c' w v v' ?%elem_of_nil.
Qed.

(** Steps that leave the waves alone. *)
Lemma invariant_state y s' : invariant y -> current s' = current (state y) ->
  pending s' = pending (state y) -> next_waiter_id s' = next_waiter_id (state y) ->
  invariant (with_state s' y).
Proof.
  intros [T P N E U W C R] Hc Hp Hn. split; cbn; unfold all_waiters; rewrite ?Hc, ?Hp, ?Hn; done.
Qed.
Lemma invariant_caller y c k : invariant y -> (forall w, k <> Waiting w) ->
  (forall r, k = Returned r -> returned_ok (history y) (poisoned y) c r) ->
  invariant (set_caller c k y).
Proof.
  intros [T P N E U W C R] Hk Hr. split; cbn; try done.
  - intros c' w [[_ Hw]|[_ H]]%lookup_insert_Some; [by destruct (Hk w)|by apply W].
  - intros c' r [[-> ?]|[_ H]]%lookup_insert_Some; [by apply Hr|by apply R].
Qed.
Lemma invariant_permits y p : invariant y ->
  invariant (mk_system (state y) (poisoned y) p (callers y) (channels y) (tasks y) (history y)).
Proof. by intros []. Qed.
Lemma invariant_return y c r : invariant y -> returned_ok (history y) (poisoned y) c r ->
  invariant (return_caller c r y).
Proof.
  intros Hi Hr. apply (invariant_permits (set_caller c (Returned r) y)). apply invariant_caller; [done|done|].
  by intros ? [= <-].
Qed.
Lemma invariant_poison y : invariant y ->
  invariant (mk_system (state y) true (permits y) (callers y) (channels y) (tasks y) (history y)).
Proof.
  intros [T P N E U W C R]. split; cbn; try done.
  - intros w o Ho. destruct (C w o Ho) as (Hw & c & Hj & Hv). split; [done|]. exists c.
    split; [by eapply justified_poison|done].
  - intros c r Hr. by eapply returned_ok_poison, R.
Qed.
(** Recording an event other than [Entered]. *)
Lemma invariant_event y e : invariant y -> (forall c w v, e <> Entered c w v) ->
  invariant (record_event e y).
Proof.
  intros [T P N E U W C R] He.
  assert (Hin : forall c w v, Entered c w v ∈ e :: history y -> Entered c w v ∈ history y).
  { intros c w v [?|?]%elem_of_cons; [|done]. by destruct (He c w v). }
  split; cbn.
  - destruct (current (state y)) as [c|]; [|done]. destruct T as (step & Ht & Hw). exists step.
    split; [done|by apply wave_ok_cons].
  - intros p Hp. by apply pending_ok_cons, P.
  - done.
  - intros c w v H%Hin. by eapply E.
  - intros c c' w v v' H%Hin H'%Hin. by eapply U.
  - intros c w H. destruct (W c w H) as [[v Hv] ?]. split; [|done]. exists v. by right.
  - intros w o H. destruct (C w o H) as (? & c & ? & v & ?). split; [done|]. exists c.
    split; [by apply justified_cons|]. exists v. by right.
  - intros c r H. by apply returned_ok_cons, R.
Qed.

(** ** Leaving *)
Lemma invariant_leave y c w reason r : invariant y -> callers y !! c = Some (Waiting w) ->
  returned_ok (history y) (poisoned y) c r ->
  invariant (return_caller c r (with_state (exit_waiter w reason (state y)) y)).
Proof.
  intros [T P N E U W C R] Hcw Hr.
  pose proof (exit_waiter_exited w reason (state y)) as Hx.
  pose proof (exit_waiter_ids w reason (state y)) as Hn.
  destruct (exited_waiters _ _ _ Hx N) as [N' Hall].
  set (s' := exit_waiter w reason (state y)) in *.
  split; cbn.
  - destruct Hx as [x l Hc Hl Hc' Hp'|p l Hw Hp Hl Hc' Hp'|Hw Hc' Hp'].
    + rewrite Hc'. rewrite Hc in T. destruct T as (step & Ht & [H1 H2 H3]). exists step. split; [done|].
      assert (Hsub : forall w', w' ∈ l -> w' ∈ waiters x) by (intros w' ?; rewrite <-Hl; by right).
      assert (Hne : waiters x <> []) by (intros Hn0; rewrite Hn0 in Hl; by apply Permutation_nil_r in Hl).
      split; cbn.
      * unfold step_ok in *. cbn. destruct (wave_phase x), step as [| | | |[|]]; tauto.
      * destruct (wave_cancelled x).
        { destruct H2 as [H2 _]. destruct (H2 eq_refl) as [? _]. done. }
        cbn. rewrite andb_true_iff, !bool_decide_eq_true. done.
      * eapply members_subset; [exact Hsub|done].
    + rewrite Hc'. destruct (current (state y)); [done|]. destruct T as [_ T]. by rewrite Hp in T.
    + rewrite Hc', Hp'. done.
  - destruct Hx as [x l Hc Hl Hc' Hp'|p0 l Hw Hp Hl Hc' Hp'|Hw Hc' Hp']; rewrite ?Hp'; [done| |done].
    intros p. case_bool_decide; [done|]. intros [= <-]. destruct (P _ Hp) as [H1 H2 H3 H4].
    split; cbn; [done..|]. eapply members_subset; [|done]. intros w' ?. rewrite <-Hl. by right.
  - done.
  - intros c' w' v. rewrite Hn. apply E.
  - done.
  - intros c' w' [[_ ?]|[Hne H]]%lookup_insert_Some; [done|]. destruct (W _ _ H) as [[v Hv] Hl].
    split; [by exists v|]. destruct Hl as [Hl|Hl]; [left|by right]. apply Hall. split; [done|].
    intros ->. destruct (W _ _ Hcw) as [[v' Hv'] _]. destruct (U _ _ _ _ _ Hv Hv') as [? _]. done.
  - intros w' o H. destruct (C _ _ H) as [Hw' ?]. split; [|done]. rewrite Hall. tauto.
  - intros c' r' [[<- [= <-]]|[_ H]]%lookup_insert_Some; [done|by apply R].
Qed.

(** ** Entering *)
Lemma all_entered y w : invariant y -> w ∈ all_waiters (state y) ->
  exists c v, Entered c w v ∈ history y.
Proof.
  intros Hi. unfold all_waiters. rewrite elem_of_app. intros [Hw|Hw].
  - pose proof (inv_tasks y Hi) as T. destruct (current (state y)) as [x|]; [|by apply elem_of_nil in Hw].
    destruct T as (step & _ & [_ _ H]). destruct (H w Hw) as [c Hc]. exists c, (wave_id x).
    by eapply entered_in.
  - destruct (pending (state y)) as [p|] eqn:Hp; [|by apply elem_of_nil in Hw].
    destruct (po_members _ _ (inv_pending y Hi p Hp) w Hw) as [c Hc]. exists c, (wave_id p).
    by eapply entered_in.
Qed.


Lemma members_enter h c w id l : members h [] id l -> members (Entered c w id :: h) [] id (l ++ [w]).
Proof.
  intros H w' [Hw| ->%list_elem_of_singleton]%elem_of_app; [exact (members_cons (Entered c w id) h [] id l H w' Hw)|].
  exists c. cbn. apply sublist_skip, sublist_nil_l.
Qed.

Lemma wave_ok_enter h c w x step : wave_ok h x step -> wave_phase x = WaitingForOperation ->
  wave_cancelled x = false ->
  wave_ok (Entered c w (wave_id x) :: h) (with_waiters (waiters x ++ [w]) x) step.
Proof.
  intros [H1 H2 H3] Hp Hc. rewrite Hp in *. cbn in H3.
  assert (Hne : waiters x <> []) by (rewrite Hc in H2; intros Hn; by destruct H2 as [_ H2]; specialize (H2 (conj Hn eq_refl))).
  split; cbn; rewrite ?Hp.
  - apply (step_ok_cons (Entered c w (wave_id x))) in H1. revert H1. unfold step_ok. cbn. rewrite Hp.
    destruct step as [| | | |[|]]; tauto.
  - rewrite Hc. split; [done|]. by intros [[_ ?]%app_nil _].
  - by apply members_enter.
Qed.

Lemma new_wave_ok h c w id step : step = Admission ->
  wave_ok (Entered c w id :: h) (mk_wave id WaitingForOperation false [w]) step.
Proof. intros ->. split; cbn; [done|split; [done|by intros [? _]]|].
  apply (members_enter h c w id []). by intros ? ?%elem_of_nil. Qed.

Lemma invariant_enter y c w v start s' : invariant y ->
  (forall x, callers y !! c <> Some (Waiting x)) ->
  enqueue (state y) = (w, v, start, s') -> next_waiter_id s' < U64_MAX ->
  invariant (spawn_wave start
    (record_event (Entered c w v) (set_caller c (Waiting w) (with_state s' y)))).
Proof.
  intros Hi Hc He Hmax. pose proof (all_entered y) as Hall. pose proof Hi as [T P N E U W C R].
  destruct (enqueue_joined _ _ _ _ _ He) as (-> & Hn & Hj).
  assert (Hnext : next_waiter_id s' = next_waiter_id (state y) + 1).
  { rewrite Hn in Hmax |- *. unfold u64_saturating_add in *. lia. }
  set (w := next_waiter_id (state y)) in *.
  pose proof (joined_waiters _ _ _ _ _ Hj) as Hperm.
  assert (Hold : forall c' w' v', Entered c' w' v' ∈ history y -> w' < w) by exact E.
  assert (Hfresh : w ∉ all_waiters (state y)).
  { intros Hw. destruct (Hall w Hi Hw) as (c' & v' & Hv). specialize (Hold _ _ _ Hv). lia. }
  set (y' := record_event _ _).
  assert (Hsame : state (spawn_wave start y') = s' /\ poisoned (spawn_wave start y') = poisoned y
    /\ callers (spawn_wave start y') = <[c:=Waiting w]> (callers y)
    /\ channels (spawn_wave start y') = channels y
    /\ history (spawn_wave start y') = Entered c w v :: history y) by by destruct start.
  destruct Hsame as (Hs1 & Hs2 & Hs3 & Hs4 & Hs5).
  split; rewrite ?Hs1, ?Hs2, ?Hs3, ?Hs4, ?Hs5.
  - clear Hs1 Hs2 Hs3 Hs4 Hs5.
    destruct Hj as [id H1 H2 H3|x H1 Hp Hcn H2 H3|x p H1 H2 H3 H4|x id H1 H2 H3 H4]; rewrite H2; cbn.
    + rewrite H1 in T. destruct T as [-> _]. exists Admission. split; [done|by apply new_wave_ok].
    + rewrite H1 in T. destruct T as (step & Ht & Hw). exists step. split; [done|by apply wave_ok_enter].
    + rewrite H1 in T |- *. destruct T as (step & Ht & Hw). exists step. split; [done|by apply wave_ok_cons].
    + rewrite H1 in T |- *. destruct T as (step & Ht & Hw). exists step. split; [done|by apply wave_ok_cons].
  - intros q Hq.
    destruct Hj as [id H1 H2 H3|x H1 Hp Hcn H2 H3|x p H1 H2 H3 H4|x id H1 H2 H3 H4].
    + rewrite H3 in Hq. by apply pending_ok_cons, P.
    + rewrite H3 in Hq. by apply pending_ok_cons, P.
    + rewrite H4 in Hq. injection Hq as <-. destruct (P p H3) as [P1 P2 P3 P4].
      split; cbn; [done|done|by intros [_ ?]%app_nil|by apply members_enter].
    + rewrite H4 in Hq. injection Hq as <-.
      split; cbn; [done|done|done|].
      apply (members_enter _ _ _ _ []). by intros ? ?%elem_of_nil.
  - rewrite Hperm. by apply NoDup_cons.
  - intros c' w' v' [[= -> -> ->]|Hv]%elem_of_cons; [lia|]. specialize (Hold _ _ _ Hv). lia.
  - intros c1 c2 w' v1 v2 [H1|H1]%elem_of_cons [H2|H2]%elem_of_cons.
    + injection H1 as -> -> ->. by injection H2 as -> ->.
    + injection H1 as -> -> ->. specialize (Hold _ _ _ H2). lia.
    + injection H2 as -> -> ->. specialize (Hold _ _ _ H1). lia.
    + by eapply U.
  - intros c' w' [[<- [= <-]]|[_ H]]%lookup_insert_Some.
    + split; [exists v; by left|]. left. rewrite Hperm. by left.
    + destruct (W _ _ H) as [[v' Hv] Hl]. split; [exists v'; by right|]. rewrite Hperm, elem_of_cons. tauto.
  - intros w' o Ho. destruct (C _ _ Ho) as (Hw & c' & Hj' & v' & Hv). split.
    + rewrite Hperm, elem_of_cons. intros [->|?]; [|done]. specialize (Hold _ _ _ Hv). lia.
    + exists c'. split; [by apply justified_cons|]. exists v'. by right.
  - intros c' r [[_ ?]|[_ H]]%lookup_insert_Some; [done|]. by apply returned_ok_cons, R.
Qed.

(** ** Tasks *)
Lemma task_current y i t : invariant y -> tasks y !! i = Some t ->
  i = O /\ tasks y = [t] /\ exists c, current (state y) = Some c /\ task_wave t = wave_id c
    /\ wave_ok (history y) c (task_step t).
Proof.
  intros Hi Ht. pose proof (inv_tasks y Hi) as T. destruct (current (state y)) as [c|].
  - destruct T as (step & Htasks & Hw). rewrite Htasks in Ht |- *.
    destruct i as [|i]; [|done]. injection Ht as <-. split; [done|]. split; [done|]. by exists c.
  - destruct T as [Htasks _]. by rewrite Htasks in Ht.
Qed.

Lemma invariant_move y i t step : invariant y -> tasks y !! i = Some t ->
  (forall c, current (state y) = Some c -> wave_ok (history y) c (task_step t) ->
             wave_ok (history y) c step) ->
  invariant (move_task i t step y).
Proof.
  intros Hi Ht Hstep. destruct (task_current y i t Hi Ht) as (-> & Hts & c & Hc & Hid & Hw).
  destruct Hi as [T P N E U W C R]. split; try done.
  unfold move_task. cbn. rewrite Hc, Hts, Hid. exists step. split; [done|by apply Hstep].
Qed.

Lemma wave_ok_fail h c step e : (forall r, step <> Finishing r) -> wave_ok h c step ->
  Environment (wave_id c) e ∈ h -> wave_ok h c (Finishing (Err e)).
Proof.
  intros Hstep [H1 H2 H3] He. split; [|done|].
  - unfold step_ok. destruct (wave_phase c); [by left|done].
  - unfold lead in *. destruct (wave_phase c), step as [| | | |r]; try done. by destruct (Hstep r).
Qed.

Lemma invariant_fail y i t e : invariant y -> tasks y !! i = Some t ->
  (forall r, task_step t <> Finishing r) -> invariant (fail_task i t e y).
Proof.
  intros Hi Ht Hstep. destruct (task_current y i t Hi Ht) as (-> & Hts & c & Hc & Hid & Hw).
  apply invariant_move; [by apply invariant_event|done|].
  cbn. intros c' Hc' Hw'. rewrite Hc in Hc'. injection Hc' as <-.
  eapply wave_ok_fail; [exact Hstep|exact Hw'|]. rewrite Hid. by left.
Qed.

Lemma invariant_mark y i t s' : invariant y -> tasks y !! i = Some t -> task_step t = Locked ->
  mark_running (task_wave t) (state y) = (true, s') ->
  invariant (move_task i t Scanning (record_event (Started (task_wave t)) (with_state s' y))).
Proof.
  intros Hi Ht Hstep Hm. destruct (task_current y i t Hi Ht) as (-> & Hts & c & Hc & Hid & Hw).
  unfold mark_running in Hm. rewrite Hc in Hm. destruct (_ || _) eqn:Hb in Hm; [done|].
  injection Hm as <-. bool_to_prop. rewrite Hstep in Hw. destruct Hw as [W1 W2 W3].
  apply bool_decide_eq_true in H2. rewrite H2 in *.
  assert (Hsame : all_waiters (with_diagnostics (bump WavesStarted) (with_current
    (Some (mk_wave (wave_id c) Running (wave_cancelled c) (waiters c))) (state y)))
    = all_waiters (state y)) by (unfold all_waiters; cbn; by rewrite Hc).
  pose proof (invariant_event y (Started (task_wave t)) Hi) as [T P N E U W C R]; [done|].
  cbn in *. rewrite Hc in T.
  split; cbn; rewrite ?Hsame; try done. rewrite Hts, Hid. exists Scanning. split; [done|].
  split; cbn; [done| |by apply members_lead]. rewrite H0. split; [done|by intros []].
Qed.

Lemma invariant_scanned y i t : invariant y -> tasks y !! i = Some t -> task_step t = Scanning ->
  invariant (move_task i t (Finishing (Ok ())) (record_event (Scanned (task_wave t)) y)).
Proof.
  intros Hi Ht Hstep. destruct (task_current y i t Hi Ht) as (-> & Hts & c & Hc & Hid & Hw).
  rewrite Hstep in Hw. destruct Hw as [W1 W2 W3].
  pose proof (invariant_event y (Scanned (task_wave t)) Hi) as [T P N E U W C R]; [done|].
  split; try done. cbn. rewrite Hc, Hts, Hid. exists (Finishing (Ok ())). split; [done|].
  unfold step_ok in W1. destruct (wave_phase c) eqn:Hp; [done|].
  split; [by unfold step_ok; rewrite Hp|by rewrite Hp|].
  rewrite Hp. cbn. by apply (members_lead (Scanned (wave_id c)) _ [Started (wave_id c)]).
Qed.

(** ** Finishing *)
Lemma send_all_spec id o l y :
  let y' := send_all id (map (fun w => (w, o)) l) y in
  state y' = state y /\ poisoned y' = poisoned y /\ permits y' = permits y /\ callers y' = callers y
  /\ tasks y' = tasks y /\ history y' = rev (map (fun w => Delivered w id o) l) ++ history y
  /\ forall w, channels y' !! w = if decide (w ∈ l) then Some o else channels y !! w.
Proof.
  revert y. induction l as [|x l IH]; intros y; cbn.
  - by repeat split.
  - destruct (IH (mk_system (state y) (poisoned y) (permits y) (callers y) (<[x:=o]> (channels y))
      (tasks y) (Delivered x id o :: history y))) as (-> & -> & -> & -> & -> & -> & Hch).
    repeat split; try done; [by rewrite <-app_assoc|]. intros w. rewrite Hch. cbn.
    destruct (decide (w ∈ l)) as [Hw|Hw].
    + rewrite decide_True; [done|by right].
    + destruct (decide (w = x)) as [->|Hne].
      * rewrite lookup_insert_eq, decide_True; [done|by left].
      * rewrite lookup_insert_ne, decide_False; [done| |done]. by rewrite elem_of_cons; intros [].
Qed.
Lemma spawn_send_all start id sent y :
  spawn_wave start (send_all id sent y) = send_all id sent (spawn_wave start y).
Proof. revert y. induction sent as [|[w o] sent IH]; intros y; [done|]. cbn. rewrite IH. by destruct start. Qed.

Lemma history_app (P : list Event -> Prop) k h : (forall e h, P h -> P (e :: h)) -> P h -> P (k ++ h).
Proof. intros HP Hh. induction k as [|e k IH]; [done|]. by apply HP. Qed.

Lemma invariant_deliver y id o l s' ts' : invariant y ->
  match current s' with
  | None => ts' = [] /\ pending s' = None
  | Some c => exists step, ts' = [mk_task (wave_id c) step] /\ wave_ok (history y) c step
  end ->
  (forall p, pending s' = Some p -> pending_ok (history y) p) ->
  all_waiters (state y) ≡ₚ l ++ all_waiters s' -> next_waiter_id s' = next_waiter_id (state y) ->
  (forall w k, w ∈ l -> exists c, justified (Delivered w id o :: k ++ history y) (poisoned y) c w o
                        /\ exists v, Entered c w v ∈ history y) ->
  invariant (send_all id (map (fun w => (w, o)) l) (set_tasks ts' (with_state s' y))).
Proof.
  intros [T P N E U W C R] HT HP Hperm Hn Hj.
  destruct (send_all_spec id o l (set_tasks ts' (with_state s' y))) as (H1 & H2 & _ & H4 & H5 & H6 & H7).
  rewrite Hperm in N. apply NoDup_app in N as (_ & Hdis & N').
  set (k := rev (map (fun w => Delivered w id o) l)) in *.
  assert (Hin : forall c w v, Entered c w v ∈ k ++ history y -> Entered c w v ∈ history y).
  { intros c w v [Hw|Hw]%elem_of_app; [|done]. unfold k in Hw.
    apply list_elem_of_In, in_rev, in_map_iff in Hw as (? & ? & _). done. }
  split; rewrite ?H1, ?H2, ?H4, ?H5, ?H6; cbn.
  - destruct (current s') as [c|]; [|done]. destruct HT as (step & Hts & Hw). exists step.
    split; [done|]. apply (history_app (fun h => wave_ok h c step)); [by intros; apply wave_ok_cons|done].
  - intros p Hp. apply (history_app (fun h => pending_ok h p)); [by intros; apply pending_ok_cons|by apply HP].
  - done.
  - intros c w v Hv%Hin. rewrite Hn. by eapply E.
  - intros c c' w v v' Hv%Hin Hv'%Hin. by eapply U.
  - intros c w Hw. destruct (W c w Hw) as [[v Hv] Hl].
    split; [exists v; rewrite elem_of_app; by right|]. rewrite H7. cbn.
    destruct (decide (w ∈ l)) as [Hd|Hd]; [by right|]. destruct Hl as [Hl|Hl]; [left|by right].
    rewrite Hperm, elem_of_app in Hl. tauto.
  - intros w o'. rewrite H7. cbn. destruct (decide (w ∈ l)) as [Hd|Hd].
    + intros [= <-]. split; [by apply Hdis|].
      assert (Hk : exists k1 k2, k = k1 ++ Delivered w id o :: k2).
      { apply list_elem_of_split. unfold k. apply list_elem_of_In, in_rev. rewrite rev_involutive.
        apply in_map_iff. exists w. split; [done|by apply list_elem_of_In]. }
      destruct Hk as (k1 & k2 & ->). destruct (Hj w k2 Hd) as (c & Hc & v & Hv).
      exists c. rewrite <-app_assoc. cbn. split.
      * apply (history_app (fun h => justified h (poisoned y) c w o)); [by intros; apply justified_cons|done].
      * exists v. rewrite elem_of_app, elem_of_cons, elem_of_app. tauto.
    + intros Ho. destruct (C w o' Ho) as (Hw & c & Hc & v & Hv). split.
      * intros Hw'. apply Hw. rewrite Hperm, elem_of_app. by right.
      * exists c. split; [|exists v; rewrite elem_of_app; by right].
        apply (history_app (fun h => justified h (poisoned y) c w o')); [by intros; apply justified_cons|done].
  - intros c r Hr.
    apply (history_app (fun h => returned_ok h (poisoned y) c r)); [by intros; apply returned_ok_cons|by apply R].
Qed.

Definition outcome_of (r : result ()) : WaveOutcome :=
  match r with Ok _ => CompleteOutcome | Err e => FailedOutcome e end.

Lemma finish_wave_spec r s c sent start s' : current s = Some c ->
  (forall p, pending s = Some p -> waiters p <> []) ->
  finish_wave (wave_id c) r s = (sent, start, s') ->
  sent = map (fun w => (w, outcome_of r)) (waiters c) /\ start = wave_id <$> pending s
  /\ current s' = pending s /\ pending s' = None /\ next_waiter_id s' = next_waiter_id s.
Proof.
  intros Hc Hp. unfold finish_wave. rewrite Hc, Z.eqb_refl. cbn [negb].
  assert (Hend : forall s0 : CoordinatorState, current s0 = None -> pending s0 = pending s ->
    next_waiter_id s0 = next_waiter_id s ->
    forall sent0, (let '(st, s1) := match pending s0 with
      | Some p => if bool_decide (waiters p = [])
                  then (None, with_diagnostics (bump WavesCancelledBeforeStart) (with_pending None s0))
                  else (Some (wave_id p), with_current (Some p) (with_pending None s0))
      | None => (None, s0) end in (sent0, st, update_waiter_high_water s1)) = (sent, start, s') ->
    sent = sent0 /\ start = wave_id <$> pending s
    /\ current s' = pending s /\ pending s' = None /\ next_waiter_id s' = next_waiter_id s).
  { intros s0 H1 H2 H3 sent0. rewrite H2. destruct (pending s) as [p|] eqn:Hps.
    - rewrite bool_decide_eq_false_2 by (by apply Hp). intros [= <- <- <-]. by cbn.
    - intros [= <- <- <-]. cbn. by rewrite H1, H2, H3. }
  destruct r as [u|e]; cbn [outcome_of]; [by apply Hend|].
  destruct (bool_decide (e = Cancelled) && bool_decide (waiters c = [])) eqn:Hb; [|by apply Hend].
  bool_to_prop. apply bool_decide_eq_true in H0. rewrite H0. cbn [map]. by apply Hend.
Qed.

Lemma invariant_finish y i t r sent start s' : invariant y -> tasks y !! i = Some t ->
  task_step t = Finishing r -> finish_wave (task_wave t) r (state y) = (sent, start, s') ->
  invariant (spawn_wave start
    (send_all (task_wave t) sent (with_state s' (set_tasks (delete i (tasks y)) y)))).
Proof.
  intros Hi Ht Hstep Hf. destruct (task_current y i t Hi Ht) as (-> & Hts & c & Hc & Hid & [W1 W2 W3]).
  rewrite Hstep, Hid in *. pose proof (inv_pending y Hi) as P.
  destruct (finish_wave_spec _ _ _ _ _ _ Hc (fun p Hp => po_waiters _ _ (P p Hp)) Hf)
    as (-> & -> & H3 & H4 & H5).
  rewrite spawn_send_all, Hts. set (ts' := match pending (state y) with
    | Some p => [mk_task (wave_id p) Admission] | None => [] end).
  replace (spawn_wave _ _) with (set_tasks ts' (with_state s' y))
    by (unfold ts'; by destruct (pending (state y))).
  apply invariant_deliver; [done| | |..].
  - rewrite H3, H4. unfold ts'. destruct (pending (state y)) as [p|] eqn:Hp; [|done].
    exists Admission. split; [done|]. destruct (P p eq_refl) as [P1 P2 P3 P4].
    split; [by unfold step_ok; rewrite P1|rewrite P2; by split; [|intros []]|by rewrite P1].
  - by rewrite H4.
  - unfold all_waiters. by rewrite Hc, H3, H4, app_nil_r.
  - done.
  - intros w k Hw. destruct (W3 w Hw) as [x Hx]. exists x. split; [|by eexists; eapply entered_in].
    assert (Hle : forall es, es `sublist_of` history y ->
      Delivered w (wave_id c) (outcome_of r) :: es
        `sublist_of` Delivered w (wave_id c) (outcome_of r) :: k ++ history y)
      by (intros es ?; by apply sublist_skip, sublist_inserts_l).
    unfold step_ok in W1. destruct r as [[]|e]; cbn [outcome_of justified].
    + destruct (wave_phase c); [done|]. exists (wave_id c). by apply Hle.
    + left. exists (wave_id c). split.
      * apply Hle. apply (event_in _ (Entered x w (wave_id c))). by eapply entered_in.
      * rewrite elem_of_cons, elem_of_app. right. right.
        destruct (wave_phase c); [|done]. destruct W1 as [?|[_ Hn]]; [done|].
        rewrite Hn in Hw. by apply elem_of_nil in Hw.
Qed.

Lemma invariant_finish_poisoned y i t sent s' : invariant y -> tasks y !! i = Some t ->
  poisoned y = true -> finish_poisoned (state y) = (sent, s') ->
  invariant (send_all (task_wave t) sent (with_state s' (set_tasks (delete i (tasks y)) y))).
Proof.
  intros Hi Ht Hpoison Hf. destruct (task_current y i t Hi Ht) as (-> & Hts & _).
  rewrite Hts. injection Hf as <- <-.
  apply (invariant_deliver y _ (FailedOutcome POISONED) _ _ []); cbn; [done|done|done| |done|].
  - by rewrite app_nil_r.
  - intros w k Hw. destruct (all_entered y w Hi Hw) as (c & v & Hv). exists c.
    split; [by right|by exists v].
Qed.

Lemma send_all_state id sent y : state (send_all id sent y) = state y.
Proof. revert y. induction sent as [|[w o] sent IH]; intros y; [done|]. cbn. by rewrite IH. Qed.
Lemma send_all_tasks id sent y : tasks (send_all id sent y) = tasks y.
Proof. revert y. induction sent as [|[w o] sent IH]; intros y; [done|]. cbn. by rewrite IH. Qed.
Lemma spawn_wave_state start y : state (spawn_wave start y) = state y.
Proof. by destruct start. Qed.
Lemma finish_wave_ids id r s : next_waiter_id (finish_wave id r s).2 = next_waiter_id s.
Proof. unfold finish_wave. repeat case_match; simplify_eq; done. Qed.
Lemma mark_running_ids id s : next_waiter_id (mark_running id s).2 = next_waiter_id s.
Proof. unfold mark_running. by repeat case_match. Qed.

(** The cases of a step. *)
Ltac step_cases H :=
  unfold perform, perform_caller, perform_task in H; repeat case_match; simplify_eq.

Lemma perform_ids capacity l y y' : perform capacity l y = Some y' ->
  next_waiter_id (state y) <= U64_MAX ->
  next_waiter_id (state y) <= next_waiter_id (state y') <= U64_MAX.
Proof.
  intros Hp Hmax. step_cases Hp; cbn; rewrite ?spawn_wave_state, ?send_all_state, ?exit_waiter_ids; cbn;
    try (split; [done|assumption]).
  all: match goal with
  | H : enqueue _ = _ |- _ => apply enqueue_joined in H as (-> & -> & _); ints
  | H : mark_running ?i ?s0 = (_, ?s) |- _ =>
    replace s with (mark_running i s0).2 by (by rewrite H); rewrite mark_running_ids; lia
  | H : finish_wave ?i ?r ?s0 = (_, ?s) |- _ =>
    replace s with (finish_wave i r s0).2 by (by rewrite H); rewrite finish_wave_ids; cbn; lia
  | H : finish_poisoned _ = (_, ?s) |- _ => apply (f_equal snd) in H; cbn in H; subst s; cbn; lia
  end.
Qed.

Lemma returned_error h poison c e : e = RetrievalOverloaded \/ e = Cancelled \/ e = IndexNotReady
  \/ (e = POISONED /\ poison = true) -> returned_ok h poison c (Err e).
Proof. by intros [-> |[-> |[-> |[-> ->]]]]; cbn; auto 6. Qed.

Lemma mark_running_false y i t : invariant y -> tasks y !! i = Some t -> task_step t = Locked ->
  (mark_running (task_wave t) (state y)).1 = false ->
  exists c, current (state y) = Some c /\ waiters c = [].
Proof.
  intros Hi Ht Hstep. destruct (task_current y i t Hi Ht) as (-> & Hts & c & Hc & Hid & [W1 W2 _]).
  unfold mark_running. rewrite Hc, Hid, Z.eqb_refl. unfold step_ok in W1. rewrite Hstep in W1.
  destruct (wave_phase c); [|done]. cbn. intros Hf. exists c. split; [done|].
  destruct (bool_decide (waiters c = [])) eqn:Hb; [by apply bool_decide_eq_true in Hb|].
  cbn in Hf. destruct (wave_cancelled c); [by apply W2|done].
Qed.

Lemma invariant_unused y i t : invariant y -> tasks y !! i = Some t ->
  (forall r, task_step t <> Finishing r) ->
  (forall c, current (state y) = Some c -> waiters c = [] /\ wave_phase c = WaitingForOperation) ->
  invariant (move_task i t (Finishing (Err Cancelled)) y).
Proof.
  intros Hi Ht Hstep Hc. apply invariant_move; [done|done|]. intros c Hcur [W1 W2 W3].
  destruct (Hc c Hcur) as [Hw Hp]. split; [|done|].
  - unfold step_ok. rewrite Hp. by right.
  - rewrite Hp in *. exact W3.
Qed.

Ltac refused := apply returned_error; tauto.

Lemma invariant_caller_step capacity c k l y y' : invariant y -> callers y !! c = Some k ->
  perform_caller capacity c k l y = Some y' -> next_waiter_id (state y') < U64_MAX -> invariant y'.
Proof.
  intros Hi Hc Hp Hmax. destruct l, k as [| |w|r]; cbn in Hp; try done.
  - injection Hp as <-. case_bool_decide.
    { apply invariant_caller; [by apply invariant_permits|done|done]. }
    destruct (poisoned y) eqn:Hpo; apply invariant_return; try refused; [done|].
    by apply invariant_state.
  - destruct (poisoned y) eqn:Hpo; [|destruct is_cancelled].
    + injection Hp as <-. apply invariant_return; [done|refused].
    + injection Hp as <-. apply invariant_return; [by apply invariant_state|refused].
    + destruct (enqueue (state y)) as [[[w v] start] s'] eqn:He. injection Hp as <-.
      rewrite spawn_wave_state in Hmax. apply invariant_enter; [done| |done|done].
      intros x Hx. by rewrite Hc in Hx.
  - destruct (poisoned y) eqn:Hpo; injection Hp as <-.
    + apply invariant_return; [done|refused].
    + apply invariant_leave; [done|done|refused].
  - destruct (channels y !! w) as [o|] eqn:Ho; [|done]. injection Hp as <-.
    apply invariant_return; [done|].
    destruct (inv_channel y Hi w o Ho) as (_ & c' & Hj & v & Hv).
    destruct (inv_waiting y Hi c w Hc) as [[v' Hv'] _].
    destruct (inv_unique y Hi _ _ _ _ _ Hv Hv') as [-> _].
    destruct o as [|e]; cbn -[justified]; by exists w.
  - destruct (inv_waiting y Hi c w Hc) as [_ Hl]. do 2 case_bool_decide; cbn in Hp; try done.
    by destruct Hl.
  - case_bool_decide; [|done]. destruct (poisoned y) eqn:Hpo; injection Hp as <-.
    + apply invariant_return; [done|refused].
    + apply invariant_leave; [done|done|refused].
Qed.

Lemma invariant_task_step i t l y y' : invariant y -> tasks y !! i = Some t ->
  perform_task i t l y = Some y' -> invariant y'.
Proof.
  intros Hi Ht Hp. destruct l, (task_step t) as [| | | |r] eqn:Hstep; unfold perform_task in Hp;
    rewrite ?Hstep in Hp; try done.
  - destruct (token_cancelled (task_wave t) (state y)) eqn:Htok; [done|]. injection Hp as <-.
    apply invariant_move; [done|done|]. intros c _ [W1 W2 W3]. rewrite Hstep in *.
    split; [by unfold step_ok in *; destruct (wave_phase c)|done|by destruct (wave_phase c)].
  - destruct (token_cancelled (task_wave t) (state y)) eqn:Htok; [|done]. injection Hp as <-.
    destruct (task_current y i t Hi Ht) as (_ & _ & c & Hc & _ & [W1 W2 _]).
    unfold token_cancelled in Htok. rewrite Hc in Htok. bool_to_prop.
    apply (invariant_unused y i t Hi Ht); [by rewrite Hstep|]. intros c' Hc'. rewrite Hc in Hc'.
    injection Hc' as <-. by apply W2.
  - injection Hp as <-. by apply invariant_fail; [|done|rewrite Hstep].
  - injection Hp as <-. destruct acquired as [u|e]; [|by apply invariant_fail; [|done|rewrite Hstep]].
    apply invariant_move; [done|done|]. intros c _ [W1 W2 W3]. rewrite Hstep in *.
    split; [by unfold step_ok in *; destruct (wave_phase c)|done|by destruct (wave_phase c)].
  - destruct (poisoned y) eqn:Hpo; injection Hp as <-;
      [by apply invariant_fail; [|done|rewrite Hstep]|].
    destruct (mark_running (task_wave t) (state y)) as [[] s'] eqn:Hm; [by apply invariant_mark|].
    destruct released as [u|e]; [|by apply invariant_fail; [|done|rewrite Hstep]].
    apply (invariant_unused y i t Hi Ht); [by rewrite Hstep|]. intros c Hc.
    destruct (mark_running_false y i t Hi Ht Hstep) as (c' & Hc' & Hw); [by rewrite Hm|].
    rewrite Hc in Hc'. injection Hc' as <-. split; [done|].
    destruct (task_current y i t Hi Ht) as (_ & _ & c2 & Hc2 & _ & [W1 _ _]).
    rewrite Hc in Hc2. injection Hc2 as <-. unfold step_ok in W1. rewrite Hstep in W1.
    by destruct (wave_phase c).
  - injection Hp as <-.
    destruct released as [u|e]; [|by apply invariant_fail; [|done|rewrite Hstep]].
    destruct scanned as [u'|e]; [|by apply invariant_fail; [|done|rewrite Hstep]].
    by apply invariant_scanned.
  - injection Hp as <-. by apply invariant_fail; [|done|rewrite Hstep].
  - injection Hp as <-. by apply invariant_fail; [|done|rewrite Hstep].
  - injection Hp as <-. by apply invariant_fail; [|done|rewrite Hstep].
  - cbn [poisoned set_tasks state] in Hp. destruct (poisoned y) eqn:Hpo.
    + destruct (finish_poisoned (state y)) as [sent s'] eqn:Hf. injection Hp as <-.
      by apply invariant_finish_poisoned.
    + destruct (finish_wave (task_wave t) r (state y)) as [[sent start] s'] eqn:Hf. injection Hp as <-.
      by eapply invariant_finish.
Qed.

Lemma invariant_step capacity l y y' : invariant y -> perform capacity l y = Some y' ->
  next_waiter_id (state y') < U64_MAX -> invariant y'.
Proof.
  intros Hi Hp Hmax. unfold perform in Hp.
  destruct l; try (destruct (callers y !! c) as [k|] eqn:Hc; [by eapply invariant_caller_step|done]);
    try (destruct (tasks y !! i) as [t|] eqn:Ht; [by eapply invariant_task_step|done]).
  - destruct (callers y !! c) as [k|]; [done|]. injection Hp as <-. destruct (poisoned y) eqn:Hpo.
    + apply invariant_return; [done|refused].
    + apply invariant_caller; [by apply invariant_state|done|done].
  - injection Hp as <-. by apply invariant_poison.
Qed.

Lemma reachable_ids capacity y : reachable capacity y -> next_waiter_id (state y) <= U64_MAX.
Proof. induction 1 as [|l y y' _ IH Hp]; [done|]. by destruct (perform_ids capacity l y y' Hp IH). Qed.

Lemma reachable_invariant capacity y : reachable capacity y ->
  next_waiter_id (state y) < U64_MAX -> invariant y.
Proof.
  induction 1 as [|l y y' Hr IH Hp]; intros Hmax; [apply invariant_initial|].
  eapply invariant_step; [|done|done]. apply IH.
  destruct (perform_ids capacity l y y' Hp (reachable_ids _ _ Hr)). lia.
Qed.

(** ** Accounts *)

(** The gauges are exact, and every wave created is still in the state or is
    counted as completed, failed or cancelled. *)
Record accounted (s : CoordinatorState) : Prop := {
  ac_active : active_waves (diagnostics s) = count_wave (current s) + count_wave (pending s);
  ac_pending : pending_waiters (diagnostics s) = waiter_count (pending s);
  ac_peak_active : active_waves (diagnostics s) <= peak_active_waves (diagnostics s) <= 2;
  ac_peak_pending : pending_waiters (diagnostics s) <= peak_pending_waiters (diagnostics s);
  ac_ids : 0 < next_wave_id s <= next_waiter_id s;
  ac_created : waves_created (diagnostics s) = next_wave_id s - 1;
  ac_counts : 0 <= waves_completed (diagnostics s) /\ 0 <= waves_failed (diagnostics s)
    /\ 0 <= waves_cancelled_before_start (diagnostics s);
  ac_waves : waves_created (diagnostics s) = waves_completed (diagnostics s)
    + waves_failed (diagnostics s) + waves_cancelled_before_start (diagnostics s)
    + active_waves (diagnostics s)
}.

Lemma accounted_initial : accounted new_state.
Proof. by split. Qed.

Lemma count_wave_bounds w : 0 <= count_wave w <= 1.
Proof. by destruct w. Qed.

(** Prove what is left of the accounts once the record is opened. *)
Ltac accounts := 
  repeat match goal with H : accounted _ |- _ => destruct H end;
  split; cbn in *; unfold len in *; rewrite ?u64_saturating_add_exact by (cbn in *; lia); cbn in *; try lia.

Lemma accounted_bump s c : accounted s ->
  c = Requests \/ c = RejectedRequests \/ c = CancelledWaiters \/ c = TimedOutWaiters
  \/ c = CoalescedRequests ->
  accounted (with_diagnostics (bump c) s).
Proof.
  intros [] Hc. destruct s as [? ? ? ? []]. repeat destruct Hc as [->|Hc]; try subst c; split; cbn in *; done.
Qed.

Lemma accounted_started s w w' : accounted s -> current s = Some w ->
  accounted (with_diagnostics (bump WavesStarted) (with_current (Some w') s)).
Proof. intros [] Hc. rewrite Hc in *. by split. Qed.

(** What [update_waiter_high_water] needs to restore the accounts. *)
Record recorded (s : CoordinatorState) : Prop := {
  rc_peak : count_wave (current s) + count_wave (pending s)
            <= peak_active_waves (diagnostics s) <= 2;
  rc_ids : 0 < next_wave_id s <= next_waiter_id s;
  rc_created : waves_created (diagnostics s) = next_wave_id s - 1;
  rc_counts : 0 <= waves_completed (diagnostics s) /\ 0 <= waves_failed (diagnostics s)
    /\ 0 <= waves_cancelled_before_start (diagnostics s);
  rc_waves : waves_created (diagnostics s) = waves_completed (diagnostics s)
    + waves_failed (diagnostics s) + waves_cancelled_before_start (diagnostics s)
    + count_wave (current s) + count_wave (pending s)
}.

Lemma high_water_accounted s : recorded s -> accounted (update_waiter_high_water s).
Proof. intros []. split; cbn; lia. Qed.

Lemma new_wave_recorded s s0 w wave s' : accounted s -> new_wave s0 w = (wave, s') ->
  next_wave_id s0 = next_wave_id s -> next_waiter_id s0 = next_waiter_id s + 1 ->
  diagnostics s0 = diagnostics s -> next_waiter_id s < U64_MAX ->
  active_waves (diagnostics s) <= 1 ->
  0 < next_wave_id s' <= next_waiter_id s' /\ waves_created (diagnostics s') = next_wave_id s' - 1
  /\ (active_waves (diagnostics s) + 1 <= peak_active_waves (diagnostics s') <= 2)
  /\ (0 <= waves_completed (diagnostics s') /\ 0 <= waves_failed (diagnostics s')
      /\ 0 <= waves_cancelled_before_start (diagnostics s'))
  /\ waves_created (diagnostics s') = waves_completed (diagnostics s')
     + waves_failed (diagnostics s') + waves_cancelled_before_start (diagnostics s')
     + (active_waves (diagnostics s) + 1).
Proof.
  intros [] Hw H1 H2 H3 Hmax Hact. unfold new_wave in Hw. injection Hw as _ <-. cbn.
  rewrite H1, H2, H3. rewrite !u64_saturating_add_exact by (unfold U64_MAX in *; lia). lia.
Qed.

Lemma enqueue_accounted s : accounted s -> (current s = None -> pending s = None) ->
  u64_saturating_add (next_waiter_id s) 1 < U64_MAX -> accounted (enqueue s).2.
Proof.
  intros Ha Hnone Hmax. apply u64_saturating_add_lt in Hmax as [Hlt Hn].
  set (s0 := mk_state (next_wave_id s) (next_waiter_id s + 1) (current s) (pending s) (diagnostics s)).
  pose proof (new_wave_recorded s s0 (next_waiter_id s)) as Hnew.
  unfold enqueue. rewrite Hn. cbn [current pending]. fold s0.
  destruct Ha as [A1 A2 A3 A4 A5 A6 A7 A8] eqn:Hacc. clear Hacc.
  destruct (current s) as [c|] eqn:Hcur; cbn in A1.
  - destruct (_ && _); [|destruct (pending s) as [p|] eqn:Hp; cbn in A1, A2].
    + apply high_water_accounted. split; cbn; lia.
    + apply high_water_accounted. split; cbn; rewrite ?Hcur; cbn; lia.
    + specialize (Hnew _ _ Ha eq_refl eq_refl eq_refl eq_refl Hlt ltac:(lia)).
      apply high_water_accounted. destruct Hnew as (N1 & N2 & N3 & N4 & N5).
      split; cbn -[u64_saturating_add] in *; rewrite ?Hcur; cbn; lia.
  - rewrite (Hnone eq_refl) in A1. cbn in A1.
    specialize (Hnew _ _ Ha eq_refl eq_refl eq_refl eq_refl Hlt ltac:(lia)).
    apply high_water_accounted. destruct Hnew as (N1 & N2 & N3 & N4 & N5).
    split; cbn -[u64_saturating_add] in *; rewrite ?(Hnone eq_refl); cbn; lia.
Qed.

Lemma exit_accounted w reason s : accounted s -> next_waiter_id s < U64_MAX ->
  accounted (exit_waiter w reason s).
Proof.
  intros Ha Hmax.
  assert (Hb : accounted (with_diagnostics (bump (exit_counter reason)) s))
    by (apply accounted_bump; [done|destruct reason; auto]).
  unfold exit_waiter. change (next_waiter_id s) with
    (next_waiter_id (with_diagnostics (bump (exit_counter reason)) s)) in Hmax.
  generalize dependent (with_diagnostics (bump (exit_counter reason)) s). clear s Ha.
  intros s Hmax [A1 A2 A3 A4 A5 A6 A7 A8]. cbn.
  destruct (current s) as [c|] eqn:Hcur; cbn in *.
  1: destruct (remove_waiter (waiters c) w) as [l|]; cbn.
  1: by apply high_water_accounted; split; cbn; rewrite ?Hcur; cbn; lia.
  all: destruct (pending s) as [p|] eqn:Hp; cbn in *;
    [destruct (remove_waiter (waiters p) w) as [l|]; cbn|];
    apply high_water_accounted;
    try (split; cbn; rewrite ?Hcur, ?Hp; cbn; lia).
  all: case_bool_decide; split; cbn; rewrite ?Hcur; cbn;
    rewrite ?u64_saturating_add_exact by (unfold U64_MAX in *; lia); lia.
Qed.

Lemma finish_accounted id r s : accounted s -> next_waiter_id s < U64_MAX ->
  accounted (finish_wave id r s).2.
Proof.
  intros Ha Hmax. pose proof Ha as [A1 A2 A3 A4 A5 A6 A7 A8].
  unfold finish_wave. destruct (current s) as [c|] eqn:Hcur; [|done].
  destruct (negb (wave_id c =? id)); [done|]. cbn in A1.
  pose proof (count_wave_bounds (pending s)) as Hpb.
  assert (Hsat : forall n, n <= waves_created (diagnostics s) -> u64_saturating_add n 1 = n + 1)
    by (intros n Hn; apply u64_saturating_add_exact; unfold U64_MAX in *; lia).
  assert (Hend : forall sent s0, pending s0 = pending s -> next_wave_id s0 = next_wave_id s ->
    next_waiter_id s0 = next_waiter_id s -> current s0 = None ->
    waves_created (diagnostics s0) = waves_created (diagnostics s) ->
    peak_active_waves (diagnostics s0) = peak_active_waves (diagnostics s) ->
    0 <= waves_completed (diagnostics s0) /\ 0 <= waves_failed (diagnostics s0)
      /\ 0 <= waves_cancelled_before_start (diagnostics s0) ->
    waves_completed (diagnostics s0) + waves_failed (diagnostics s0)
      + waves_cancelled_before_start (diagnostics s0) + count_wave (pending s)
      = waves_created (diagnostics s) ->
    accounted (let '(start, s1) := match pending s0 with
      | Some p => if bool_decide (waiters p = [])
                  then (None, with_diagnostics (bump WavesCancelledBeforeStart) (with_pending None s0))
                  else (Some (wave_id p), with_current (Some p) (with_pending None s0))
      | None => (None, s0) end in (sent : list (Z * WaveOutcome), start, update_waiter_high_water s1)).2).
  { intros sent s0 H1 H2 H3 H4 H5 H6 H7 H8. rewrite H1.
    destruct (pending s) as [p|] eqn:Hp; cbn in H8; [case_bool_decide|]; cbn -[update_waiter_high_water];
      apply high_water_accounted; split; cbn; rewrite ?H1, ?H2, ?H3, ?H4, ?H5, ?H6; cbn;
      rewrite ?Hsat by lia; cbn in *; lia. }
  destruct r as [u|e]; [|destruct (_ && _)]; apply Hend; cbn; rewrite ?Hsat by lia; try done; try lia.
Qed.

(** ** Permits *)

(** A caller holds a permit from its admission until it returns, and every
    waiter of a wave belongs to a caller that is still waiting. *)
Record held (capacity : nat) (y : system) : Prop := {
  hd_permits : forall c, c ∈ permits y <->
    callers y !! c = Some Permitted \/ exists w, callers y !! c = Some (Waiting w);
  hd_capacity : (size (permits y) <= capacity)%nat;
  hd_waiters : poisoned y = false -> forall w, w ∈ all_waiters (state y) ->
    exists c, callers y !! c = Some (Waiting w);
  hd_accounts : poisoned y = false -> accounted (state y)
}.

Lemma held_initial capacity : held capacity initial_system.
Proof.
  split; cbn; [|rewrite size_empty; lia| |intros; apply accounted_initial].
  - intros c. split; [set_solver|]. by intros [|[w ?]].
  - intros _ w ?%elem_of_nil. done.
Qed.

Lemma held_return capacity y c r s' : held capacity y ->
  (poisoned y = false -> accounted s') ->
  (poisoned y = false -> forall w, w ∈ all_waiters s' ->
     w ∈ all_waiters (state y) /\ callers y !! c <> Some (Waiting w)) ->
  held capacity (return_caller c r (with_state s' y)).
Proof.
  intros [P S W A] Ha Hw. split; cbn.
  - intros c'. rewrite elem_of_difference, not_elem_of_singleton, P.
    destruct (decide (c' = c)) as [->|Hne].
    + rewrite lookup_insert_eq. naive_solver.
    + rewrite lookup_insert_ne by done. tauto.
  - transitivity (size (permits y)); [|done]. apply subseteq_size. set_solver.
  - intros Hp w Hin. destruct (Hw Hp w Hin) as [Hall Hne]. destruct (W Hp w Hall) as [c' Hc'].
    exists c'. rewrite lookup_insert_ne; [done|]. by intros ->.
  - done.
Qed.

Lemma held_state capacity y s' : held capacity y -> (poisoned y = false -> accounted s') ->
  (forall w, w ∈ all_waiters s' -> w ∈ all_waiters (state y)) -> held capacity (with_state s' y).
Proof. intros [P S W A] Ha Hw. split; cbn; auto. Qed.

Lemma held_same capacity y y' : held capacity y -> state y' = state y -> poisoned y' = poisoned y ->
  permits y' = permits y -> callers y' = callers y -> held capacity y'.
Proof. intros [P S W A] H1 H2 H3 H4. by split; rewrite ?H1, ?H2, ?H3, ?H4. Qed.

Lemma send_all_rest id sent y : poisoned (send_all id sent y) = poisoned y
  /\ permits (send_all id sent y) = permits y /\ callers (send_all id sent y) = callers y.
Proof.
  revert y. induction sent as [|[w o] sent IH]; intros y; [done|]. cbn.
  destruct (IH (mk_system (state y) (poisoned y) (permits y) (callers y) (<[w:=o]> (channels y))
    (tasks y) (Delivered w id o :: history y))) as (-> & -> & ->). done.
Qed.

Lemma held_caller_step capacity c k l y y' : invariant y -> held capacity y ->
  callers y !! c = Some k -> perform_caller capacity c k l y = Some y' ->
  next_waiter_id (state y) <= U64_MAX -> next_waiter_id (state y') < U64_MAX -> held capacity y'.
Proof.
  intros Hi Hh Hc Hp Hle Hmax. pose proof Hh as [P S W A].
  assert (Hstay : forall r s', (forall w, k <> Waiting w) -> all_waiters s' = all_waiters (state y) ->
    (poisoned y = false -> accounted s') -> held capacity (return_caller c r (with_state s' y))).
  { intros r s' Hk Hs Ha. apply held_return; [done|done|]. rewrite Hs. intros _ w Hw. split; [done|].
    rewrite Hc. intros [= ->]. by eapply Hk. }
  assert (Hsame : forall r, (forall w, k <> Waiting w) -> held capacity (return_caller c r y))
    by (intros r Hk; by apply (Hstay r (state y))).
  assert (Hleave : forall w reason r, k = Waiting w -> next_waiter_id (state y) < U64_MAX ->
    poisoned y = false ->
    held capacity (return_caller c r (with_state (exit_waiter w reason (state y)) y))).
  { intros w reason r -> Hlt Hpo. apply held_return; [done| |].
    - intros _. apply exit_accounted; auto.
    - intros _ w' Hw'. destruct (exited_waiters _ _ _ (exit_waiter_exited w reason (state y)) (inv_nodup y Hi))
        as [_ Hx]. apply Hx in Hw' as [? ?]. split; [done|]. rewrite Hc. by intros [= ->]. }
  assert (Hgone : forall w r, k = Waiting w -> (poisoned y = false -> w ∉ all_waiters (state y)) ->
    held capacity (return_caller c r y)).
  { intros w r -> Hw. apply (held_return capacity y c r (state y)); [done|done|]. intros Hpo w' Hw'.
    split; [done|]. rewrite Hc. intros [= ->]. by apply Hw. }
  destruct l, k as [| |w|r]; cbn in Hp; try done.
  - injection Hp as <-. case_bool_decide; [|destruct (poisoned y) eqn:Hpo].
    + split; cbn; [| |intros Hpo w Hw|done].
      * intros c'. rewrite elem_of_union, elem_of_singleton, P.
        destruct (decide (c' = c)) as [->|Hne]; [rewrite lookup_insert_eq; tauto|].
        rewrite lookup_insert_ne by done. tauto.
      * rewrite size_union_alt, size_singleton. pose proof (subseteq_size (permits y ∖ {[c]}) (permits y)). 
        assert (permits y ∖ {[c]} ⊆ permits y) by set_solver. specialize (H0 H1). lia.
      * destruct (W Hpo w Hw) as [c' Hc']. exists c'. rewrite lookup_insert_ne; [done|].
        intros ->. by rewrite Hc in Hc'.
    + by apply Hsame.
    + apply Hstay; [done|done|]. intros _. apply accounted_bump; auto.
  - destruct (poisoned y) eqn:Hpo; [|destruct is_cancelled].
    + injection Hp as <-. by apply Hsame.
    + injection Hp as <-. apply Hstay; [done|done|]. intros _. apply accounted_bump; auto 6.
    + destruct (enqueue (state y)) as [[[w v] start] s'] eqn:He. injection Hp as <-.
      rewrite spawn_wave_state in Hmax. cbn in Hmax.
      destruct (enqueue_joined _ _ _ _ _ He) as (-> & Hn & Hj).
      assert (Hacc : accounted s').
      { change s' with (next_waiter_id (state y), v, start, s').2. rewrite <-He.
        apply enqueue_accounted; [auto| |by rewrite <-Hn].
        intros Hcur. pose proof (inv_tasks y Hi) as T. rewrite Hcur in T. apply T. }
      pose proof (joined_waiters _ _ _ _ _ Hj) as Hperm.
      eapply (held_same _ (set_caller c (Waiting _) (with_state s' y)));
        [|by destruct start..]. split; cbn; [|done| |done].
      * intros c'. rewrite P. destruct (decide (c' = c)) as [->|Hne].
        -- rewrite Hc, lookup_insert_eq. naive_solver.
        -- by rewrite lookup_insert_ne.
      * intros _ w. rewrite Hperm, elem_of_cons. intros [->|Hw].
        -- exists c. by rewrite lookup_insert_eq.
        -- destruct (W eq_refl w Hw) as [c' Hc']. exists c'. rewrite lookup_insert_ne; [done|].
           intros ->. by rewrite Hc in Hc'.
  - destruct (poisoned y) eqn:Hpo; injection Hp as <-.
    + by eapply Hgone.
    + apply Hleave; [done| |done]. cbn in Hmax. by rewrite exit_waiter_ids in Hmax.
  - destruct (channels y !! w) as [o|] eqn:Ho; [|done]. injection Hp as <-.
    eapply Hgone; [done|]. intros _. apply (inv_channel y Hi w o Ho).
  - do 2 case_bool_decide; cbn in Hp; try done. injection Hp as <-. by eapply Hgone.
  - case_bool_decide; [|done]. destruct (poisoned y) eqn:Hpo; injection Hp as <-.
    + by eapply Hgone.
    + apply Hleave; [done| |done]. cbn in Hmax. by rewrite exit_waiter_ids in Hmax.
Qed.

Lemma held_task_step capacity i t l y y' : invariant y -> held capacity y -> tasks y !! i = Some t ->
  perform_task i t l y = Some y' -> next_waiter_id (state y) < U64_MAX -> held capacity y'.
Proof.
  intros Hi Hh Ht Hp Hmax. pose proof Hh as [P S W A].
  assert (Hmove : forall step e, held capacity (move_task i t step y)
    /\ held capacity (fail_task i t e y)) by (split; by apply (held_same _ y)).
  assert (Hm : forall step, held capacity (move_task i t step y)) by (intros; apply Hmove; exact Cancelled).
  assert (Hf : forall e, held capacity (fail_task i t e y)) by (intros; by apply (Hmove Locking)).
  destruct l, (task_step t) as [| | | |r] eqn:Hstep; unfold perform_task in Hp;
    rewrite ?Hstep in Hp; try done; repeat case_match; simplify_eq; try apply Hm; try apply Hf.
  - destruct (task_current y i t Hi Ht) as (_ & _ & x & Hc & _ & _).
    match goal with H : mark_running _ _ = _ |- _ => unfold mark_running in H; rewrite Hc in H;
      destruct (_ || _) in H; [done|]; injection H as <- end.
    match goal with |- held _ (move_task _ _ _ (record_event _ (with_state ?s _))) =>
      apply (held_same _ (with_state s y)); [apply held_state|..] end; try done.
    + intros _. eapply accounted_started; [auto|exact Hc].
    + intros w. unfold all_waiters. cbn. by rewrite Hc.
  - by apply (held_same _ y).
  - cbn in *. destruct (send_all_rest (task_wave t) l (with_state c (set_tasks (delete i (tasks y)) y)))
      as (H1 & H2 & H3).
    split; rewrite ?H1, ?H2, ?H3; cbn; [done|done|congruence|congruence].
  - cbn in *. destruct (task_current y i t Hi Ht) as (_ & _ & x & Hx & Hid & _).
    match goal with H : finish_wave _ _ _ = (?sent, ?start, ?s') |- _ => rename H into Hfin;
      pose proof (finish_accounted (task_wave t) r (state y)) as Ha; rewrite Hfin in Ha;
      rewrite Hid in Hfin;
      destruct (finish_wave_spec _ _ _ _ _ _ Hx (fun p Hp => po_waiters _ _ (inv_pending y Hi p Hp)) Hfin)
        as (_ & _ & H3 & H4 & _);
      destruct (send_all_rest (task_wave t) sent (with_state s' (set_tasks (delete i (tasks y)) y)))
        as (R1 & R2 & R3);
      apply (held_same _ (with_state s' y)); [apply held_state|..];
      rewrite ?spawn_wave_state, ?send_all_state
    end; try done.
    + auto.
    + intros w. unfold all_waiters. rewrite H3, H4, Hx, app_nil_r, elem_of_app. tauto.
    + by destruct o.
    + by destruct o.
    + by destruct o.
Qed.

Lemma held_step capacity l y y' : invariant y -> held capacity y -> perform capacity l y = Some y' ->
  next_waiter_id (state y) <= U64_MAX -> next_waiter_id (state y') < U64_MAX -> held capacity y'.
Proof.
  intros Hi Hh Hp Hle Hmax. unfold perform in Hp.
  assert (Hlt : next_waiter_id (state y) < U64_MAX)
    by (destruct (perform_ids capacity l y y' Hp Hle); lia).
  destruct l; try (destruct (callers y !! c) as [k|] eqn:Hc; [by eapply held_caller_step|done]);
    try (destruct (tasks y !! i) as [t|] eqn:Ht; [by eapply held_task_step|done]).
  - destruct (callers y !! c) as [k|] eqn:Hc; [done|]. injection Hp as <-. destruct (poisoned y) eqn:Hpo.
    + apply (held_return capacity y c _ (state y)); [done|by rewrite Hpo|by rewrite Hpo].
    + pose proof Hh as [P S W A]. rewrite Hpo in W, A. split; cbn; [|done| |].
      * intros c'. rewrite P. destruct (decide (c' = c)) as [->|Hne].
        -- rewrite Hc, lookup_insert_eq. naive_solver.
        -- by rewrite lookup_insert_ne.
      * intros _ w Hw. destruct (W eq_refl w Hw) as [c' Hc']. exists c'. rewrite lookup_insert_ne; [done|].
        intros ->. by rewrite Hc in Hc'.
      * intros _. apply accounted_bump; auto.
  - injection Hp as <-. destruct Hh as [P S W A]. by split.
Qed.

Lemma reachable_held capacity y : reachable capacity y -> next_waiter_id (state y) < U64_MAX ->
  invariant y /\ held capacity y.
Proof.
  intros Hr Hmax. split; [by eapply reachable_invariant|]. revert Hmax.
  induction Hr as [|l y y' Hr IH Hp]; intros Hmax; [apply held_initial|].
  pose proof (reachable_ids _ _ Hr) as Hle. destruct (perform_ids capacity l y y' Hp Hle).
  eapply held_step; [|apply IH; lia|done|done|done]. eapply reachable_invariant; [done|lia].
Qed.

(** Distinct waiters wait on distinct permits. *)
Lemma waiters_capacity capacity y : invariant y -> held capacity y -> poisoned y = false ->
  (length (all_waiters (state y)) <= capacity)%nat.
Proof.
  intros Hi [P S W _] Hpo. transitivity (size (permits y)); [|done].
  pose proof (inv_nodup y Hi) as Hnd. specialize (W Hpo).
  assert (Hcs : exists cs, Forall2 (fun w c => callers y !! c = Some (Waiting w)) (all_waiters (state y)) cs).
  { induction (all_waiters (state y)) as [|w ws IH]; [by exists []|].
    apply NoDup_cons in Hnd as [_ Hnd]. destruct IH as [cs Hcs]; [by intros ??; apply W; right|done|].
    destruct (W w) as [c Hc]; [by left|]. exists (c :: cs). by constructor. }
  destruct Hcs as [cs Hcs]. rewrite (Forall2_length _ _ _ Hcs).
  assert (Hndc : NoDup cs).
  { clear W P S Hpo Hi. induction Hcs as [|w c ws cs Hc Hcs IH]; [by constructor|].
    apply NoDup_cons in Hnd as [Hw Hnd]. constructor; [|by apply IH]. intros Hin.
    apply list_elem_of_lookup in Hin as [i Hi]. destruct (Forall2_lookup_r _ _ _ _ _ Hcs Hi) as (w' & Hw' & Hc').
    rewrite Hc in Hc'. injection Hc' as <-. apply Hw. by eapply list_elem_of_lookup_2. }
  change (size (permits y)) with (length (elements (permits y))). apply submseteq_length, NoDup_submseteq; [done|].
  intros c Hc. apply elem_of_elements, P. right. apply list_elem_of_lookup in Hc as [i Hc].
  destruct (Forall2_lookup_r _ _ _ _ _ Hcs Hc) as (w & _ & Hw). by exists w.
Qed.

(** ** Progress *)
Definition task_rank (step : TaskStep) : nat :=
  match step with
  | Admission => 5 | Locking => 4 | Locked => 3 | Scanning => 2 | Finishing _ => 1
  end%nat.
Definition current_rank (y : system) : nat :=
  match tasks y with t :: _ => task_rank (task_step t) | [] => 0 end.
(** Task steps that are left before waiter [w] has an outcome. *)
Definition distance (w : Z) (y : system) : nat :=
  if decide (w ∈ wave_waiters (current (state y))) then current_rank y else (5 + current_rank y)%nat.
Definition is_task_step (l : label) : bool :=
  match l with
  | TaskAdmitted _ | TaskAdmissionCancelled _ | TaskAdmissionClosed _ | TaskLock _ _
  | TaskMark _ _ | TaskScan _ _ _ | TaskPanic _ _ | TaskFinish _ => true
  | _ => false
  end.

Lemma distance_le w y : (distance w y <= 10)%nat.
Proof.
  unfold distance, current_rank. destruct (tasks y) as [|[id []] ts]; cbn; case_decide; lia.
Qed.

Lemma task_enabled capacity y c : invariant y -> current (state y) = Some c ->
  exists l y', is_task_step l = true /\ perform capacity l y = Some y'.
Proof.
  intros Hi Hc. pose proof (inv_tasks y Hi) as T. rewrite Hc in T. destruct T as (step & Ht & _).
  assert (Hl : tasks y !! 0%nat = Some (mk_task (wave_id c) step)) by by rewrite Ht.
  destruct step as [| | | |r].
  - destruct (token_cancelled (wave_id c) (state y)) eqn:Htok.
    + eexists (TaskAdmissionCancelled 0), _. split; [done|]. cbn. rewrite Hl. cbn. by rewrite Htok.
    + eexists (TaskAdmitted 0), _. split; [done|]. cbn. rewrite Hl. cbn. by rewrite Htok.
  - eexists (TaskLock 0 (Ok ())), _. split; [done|]. cbn. by rewrite Hl.
  - eexists (TaskMark 0 (Ok ())), _. split; [done|]. cbn. by rewrite Hl.
  - eexists (TaskScan 0 (Ok ()) (Ok ())), _. split; [done|]. cbn. by rewrite Hl.
  - eexists (TaskFinish 0), _. split; [done|]. cbn. by rewrite Hl.
Qed.

Lemma caller_step_keeps capacity c' k l y y' c w : invariant y -> callers y !! c' = Some k ->
  perform_caller capacity c' k l y = Some y' ->
  callers y !! c = Some (Waiting w) -> callers y' !! c = Some (Waiting w) ->
  current (state y) <> None ->
  tasks y' = tasks y
  /\ (w ∈ wave_waiters (current (state y)) -> w ∈ wave_waiters (current (state y'))).
Proof.
  intros Hi Hc' Hp Hw Hw' Hcur.
  assert (Hexit : forall w' reason, k = Waiting w' -> c' <> c ->
    w ∈ wave_waiters (current (state y)) -> w ∈ wave_waiters (current (exit_waiter w' reason (state y)))).
  { intros w' reason -> Hne Hin.
    assert (Hww : w <> w').
    { intros ->. destruct (inv_waiting y Hi _ _ Hc') as [[v1 H1] _].
      destruct (inv_waiting y Hi _ _ Hw) as [[v2 H2] _].
      destruct (inv_unique y Hi _ _ _ _ _ H1 H2) as [? _]. done. }
    destruct (exit_waiter_exited w' reason (state y)) as [x l' Hx Hl Hx' _|p l' _ _ _ Hx' _|_ Hx' _];
      [|by rewrite Hx'|by rewrite Hx'].
    rewrite Hx' , Hx in *. cbn in *. rewrite <-Hl in Hin. by apply elem_of_cons in Hin as [|]. }
  assert (Hret : forall r y0, callers (return_caller c' r y0) !! c = Some (Waiting w) -> c' <> c).
  { intros r y0 H ->. cbn in H. by rewrite lookup_insert_eq in H. }
  destruct l, k as [| |w'|r]; cbn in Hp; try done; repeat case_match; simplify_eq; try done;
    try (apply Hret in Hw'; split; [done|]; cbn; by apply Hexit).
  match goal with H : enqueue _ = _ |- _ => apply enqueue_joined in H as (_ & _ & Hj) end.
  rewrite spawn_wave_state. cbn [state record_event set_caller with_state].
  destruct Hj as [id H1 H2 H3|x H1 Hph Hcn H2 H3|x p H1 H2 H3 H4|x id H1 H2 H3 H4]; [done|..].
  - split; [done|]. rewrite H1, H2. cbn. rewrite elem_of_app. by left.
  - split; [done|]. by rewrite H2.
  - split; [done|]. by rewrite H2.
Qed.

Lemma distance_lt w y y' :
  wave_waiters (current (state y')) = wave_waiters (current (state y)) ->
  (current_rank y' < current_rank y)%nat -> (distance w y' < distance w y)%nat.
Proof. unfold distance. intros -> ?. case_decide; lia. Qed.

Lemma task_step_advances i t l y y' w : invariant y -> invariant y' -> tasks y !! i = Some t ->
  perform_task i t l y = Some y' ->
  w ∈ all_waiters (state y) -> w ∈ all_waiters (state y') ->
  (distance w y' < distance w y)%nat.
Proof.
  intros Hi Hi' Ht Hp Hw Hw'.
  destruct (task_current y i t Hi Ht) as (-> & Hts & x & Hx & Hid & _).
  assert (Hmove : forall s step e, wave_waiters (current s) = wave_waiters (current (state y)) ->
    (task_rank step < task_rank (task_step t))%nat ->
    (distance w (move_task 0 t step (record_event e (with_state s y))) < distance w y)%nat).
  { intros s step e Hs Hr. apply distance_lt; [done|]. unfold current_rank. cbn. by rewrite Hts. }
  assert (Hm : forall step, (task_rank step < task_rank (task_step t))%nat ->
    (distance w (move_task 0 t step y) < distance w y)%nat).
  { intros step Hr. apply distance_lt; [done|]. unfold current_rank. cbn. by rewrite Hts. }
  assert (Hf : forall e, (1 < task_rank (task_step t))%nat ->
    (distance w (fail_task 0 t e y) < distance w y)%nat)
    by (intros e Hr; by apply (Hmove (state y) (Finishing (Err e)))).
  destruct l, (task_step t) as [| | | |r] eqn:Hstep; unfold perform_task in Hp;
    rewrite ?Hstep in Hp; try done; repeat case_match; simplify_eq;
    try (apply Hm; cbn; lia); try (apply Hf; cbn; lia).
  - apply Hmove; [|cbn; lia].
    match goal with H : mark_running _ _ = _ |- _ => unfold mark_running in H; rewrite Hx in H;
      destruct (_ || _) in H; [done|]; injection H as <- end. by rewrite Hx.
  - exfalso. cbn in *. rewrite send_all_state in Hw'.
    match goal with H : finish_poisoned _ = (_, ?s) |- _ => apply (f_equal snd) in H; cbn in H; subst s end.
    unfold all_waiters in Hw'. cbn in Hw'. by apply elem_of_nil in Hw'.
  - cbn in *.
    match goal with H : finish_wave _ _ _ = _ |- _ => rewrite Hid in H;
      destruct (finish_wave_spec _ _ _ _ _ _ Hx (fun p Hp => po_waiters _ _ (inv_pending y Hi p Hp)) H)
        as (-> & -> & H3 & H4 & _) end.
    rewrite spawn_wave_state, send_all_state in Hw'. cbn in Hw'.
    unfold all_waiters in Hw'. rewrite H3, H4, app_nil_r in Hw'.
    assert (Hnot : w ∉ wave_waiters (current (state y))).
    { pose proof (inv_nodup y Hi) as N. unfold all_waiters in N. apply NoDup_app in N as (_ & N & _).
      intros Hin. by apply (N w). }
    unfold distance. rewrite spawn_wave_state, send_all_state. cbn. rewrite H3.
    rewrite decide_True by exact Hw'. rewrite decide_False by exact Hnot.
    unfold current_rank at 2. rewrite Hts, Hstep. cbn.
    rewrite spawn_send_all. unfold current_rank.
    rewrite send_all_tasks.
    destruct (pending (state y)); cbn; [lia|]. by apply elem_of_nil in Hw'.
Qed.

(** ** A run *)
Fixpoint run_labels (capacity : nat) (ls : list label) (y : system) : option system :=
  match ls with
  | [] => Some y
  | l :: ls => match perform capacity l y with Some y => run_labels capacity ls y | None => None end
  end.

Lemma run_labels_reachable capacity ls y y' : reachable capacity y ->
  run_labels capacity ls y = Some y' -> reachable capacity y'.
Proof.
  revert y. induction ls as [|l ls IH]; intros y Hr; cbn; [by intros [= <-]|].
  destruct (perform capacity l y) as [y1|] eqn:Hp; [|done]. apply IH. by eapply reachable_step.
Qed.

(** Callers 0 and 1 share a wave; 2 arrives during its scan and waits for the
    next one; 3 leaves; the first wave ends and the second one begins. *)
Definition demo_labels : list label :=
  [Call 0; TryPermit 0; Enter 0 false; Call 1; TryPermit 1; Enter 1 false;
   TaskAdmitted 0; TaskLock 0 (Ok ()); TaskMark 0 (Ok ());
   Call 2; TryPermit 2; Enter 2 false; Call 3; TryPermit 3; Enter 3 false; CancelWait 3;
   TaskScan 0 (Ok ()) (Ok ()); TaskFinish 0; Receive 0].
Definition demo_system : system := default initial_system (run_labels 4 demo_labels initial_system).

Lemma demo_reachable : reachable 4 demo_system.
Proof.
  apply (run_labels_reachable 4 demo_labels initial_system); [constructor|by vm_compute].
Qed.
Example demo_outcomes :
  (callers demo_system !! 0%nat, callers demo_system !! 1%nat, callers demo_system !! 2%nat,
   callers demo_system !! 3%nat)
  = (Some (Returned (Ok ())), Some (Waiting 2), Some (Waiting 3), Some (Returned (Err Cancelled)))
  /\ waves_created (diagnostics (state demo_system)) = 2
  /\ coalesced_requests (diagnostics (state demo_system)) = 2.
Proof. vm_compute. done. Qed.

(** ** Properties *)

(** C17: reconciliation is fresh.  However callers arrive, leave and time out,
    and whatever the lock, the indexer and the runtime do, a call of
    [reconcile] that succeeds entered a wave whose scan started after that and
    ended without error before the outcome was sent; one that fails reports an
    error the environment gave to its own wave, so it never fails because
    other callers cancelled, or a poisoned mutex, and its channel is never
    dropped unanswered. *)
Theorem reconcile_fresh capacity y c r :
  reachable capacity y -> next_waiter_id (state y) < U64_MAX ->
  callers y !! c = Some (Returned r) ->
  match r with
  | Ok _ => exists w v,
      [Delivered w v CompleteOutcome; Scanned v; Started v; Entered c w v] `sublist_of` history y
  | Err (ReconciliationFailed e) =>
      (exists w v, [Delivered w v (FailedOutcome e); Entered c w v] `sublist_of` history y
                   /\ Environment v e ∈ history y)
      \/ (e = POISONED /\ poisoned y = true)
  | Err e => e = RetrievalOverloaded \/ e = Cancelled \/ e = IndexNotReady
             \/ (e = POISONED /\ poisoned y = true)
  end.
Proof.
  intros Hr Hmax Hc. pose proof (inv_returned y (reachable_invariant _ _ Hr Hmax) c r Hc) as H.
  destruct r as [u|e]; cbn in H; [done|]. destruct e; try done.
  destruct H as [w [(v & H)|H]]; [left; by exists w, v|by right].
Qed.

(** C39: no waiter is forgotten.  While a caller waits without an outcome some
    step of the wave task is possible; every step of the task brings the caller
    nearer to its outcome, nothing any other caller does sets it back, and at
    most ten steps of the task are ever left. *)
Theorem reconcile_progress capacity y c w :
  reachable capacity y -> next_waiter_id (state y) < U64_MAX ->
  callers y !! c = Some (Waiting w) -> channels y !! w = None ->
  (distance w y <= 10)%nat
  /\ (exists l y', is_task_step l = true /\ perform capacity l y = Some y')
  /\ (forall l y', perform capacity l y = Some y' -> next_waiter_id (state y') < U64_MAX ->
       callers y' !! c = Some (Waiting w) -> channels y' !! w = None ->
       (distance w y' <= distance w y)%nat
       /\ (is_task_step l = true -> (distance w y' < distance w y)%nat)).
Proof.
  intros Hr Hmax Hc Hch. pose proof (reachable_invariant _ _ Hr Hmax) as Hi.
  assert (Hin : forall y, invariant y -> callers y !! c = Some (Waiting w) -> channels y !! w = None ->
    w ∈ all_waiters (state y)).
  { intros z Hz Hcz Hchz. destruct (inv_waiting z Hz c w Hcz) as [_ [?|?]]; [done|by rewrite Hchz in *]. }
  assert (Hcur : current (state y) <> None).
  { intros Hn. specialize (Hin y Hi Hc Hch). pose proof (inv_tasks y Hi) as T. unfold all_waiters in Hin.
    rewrite Hn in T, Hin. destruct T as [_ T]. rewrite T in Hin. by apply elem_of_nil in Hin. }
  split; [apply distance_le|]. split.
  { destruct (current (state y)) as [x|] eqn:Hx; [|done]. by eapply task_enabled. }
  intros l y' Hp Hmax' Hc' Hch'. pose proof (invariant_step _ _ _ _ Hi Hp Hmax') as Hi'.
  assert (Hstay : is_task_step l = false -> tasks y' = tasks y ->
    (w ∈ wave_waiters (current (state y)) -> w ∈ wave_waiters (current (state y'))) ->
    (distance w y' <= distance w y)%nat /\ (is_task_step l = true -> (distance w y' < distance w y)%nat)).
  { intros Hl Ht Hw. split; [|by rewrite Hl]. unfold distance, current_rank. rewrite Ht.
    repeat case_decide; try lia; tauto. }
  pose proof Hp as Hstep. unfold perform in Hp.
  destruct l; try (destruct (callers y !! _) as [k|] eqn:Hk in Hp; [|done];
    destruct (caller_step_keeps _ _ _ _ _ _ c w Hi Hk Hp Hc Hc' Hcur); by apply Hstay);
    try (destruct (tasks y !! i) as [t|] eqn:Ht; [|done];
      assert (distance w y' < distance w y)%nat
        by (eapply task_step_advances; [exact Hi|done|exact Ht|exact Hp|by apply Hin|by apply Hin]);
      split; [lia|done]).
  - destruct (callers y !! c0); [done|]. injection Hp as <-. by destruct (poisoned y); apply Hstay.
  - injection Hp as <-. by apply Hstay.
Qed.

(** The coordinator's books are exact.  At most one wave task exists, for
    the current wave, whose token a caller can cancel only before its scan and
    only by leaving it empty; a pending wave has waiters and a current wave
    before it; no more waiters are queued than there are request permits; the
    gauges count the waves and waiters; and every wave created is current,
    pending, or counted once as completed, failed or cancelled. *)
Theorem reconcile_accounts capacity y :
  reachable capacity y -> next_waiter_id (state y) < U64_MAX -> poisoned y = false ->
  let s := state y in let d := diagnostics s in
  match current s with
  | None => tasks y = [] /\ pending s = None
  | Some c => (exists step, tasks y = [mk_task (wave_id c) step])
      /\ (wave_cancelled c = true <-> waiters c = [] /\ wave_phase c = WaitingForOperation)
  end
  /\ (forall p, pending s = Some p -> waiters p <> [] /\ wave_cancelled p = false)
  /\ NoDup (all_waiters s) /\ (length (all_waiters s) <= capacity)%nat
  /\ active_waves d = count_wave (current s) + count_wave (pending s)
  /\ pending_waiters d = waiter_count (pending s)
  /\ active_waves d <= peak_active_waves d <= 2 /\ pending_waiters d <= peak_pending_waiters d
  /\ waves_created d = waves_completed d + waves_failed d + waves_cancelled_before_start d
                       + active_waves d.
Proof.
  intros Hr Hmax Hpo. destruct (reachable_held _ _ Hr Hmax) as [Hi Hh].
  destruct (hd_accounts _ _ Hh Hpo) as [A1 A2 A3 A4 A5 A6 A7 A8]. cbn zeta.
  split; [|split; [|by split; [apply inv_nodup|split; [by apply waiters_capacity|]]]].
  - pose proof (inv_tasks y Hi) as T. destruct (current (state y)) as [c|]; [|done].
    destruct T as (step & Ht & [_ W _]). split; [by exists step|done].
  - intros p Hp. by destruct (inv_pending y Hi p Hp).
Qed.

(** ** Witnesses *)
Lemma reconcile_fresh_witness : exists w v,
  [Delivered w v CompleteOutcome; Scanned v; Started v; Entered 0 w v] `sublist_of` history demo_system.
Proof.
  apply (reconcile_fresh 4 demo_system 0 (Ok ())); [apply demo_reachable|by vm_compute|by vm_compute].
Defined.

Lemma reconcile_progress_witness : (distance 3 demo_system <= 10)%nat
  /\ exists l y', is_task_step l = true /\ perform 4 l demo_system = Some y'.
Proof.
  destruct (reconcile_progress 4 demo_system 2 3) as (H1 & H2 & _);
    [apply demo_reachable|by vm_compute|by vm_compute|by vm_compute|by split].
Defined.

Lemma reconcile_accounts_witness :
  active_waves (diagnostics (state demo_system)) = 1 /\ NoDup (all_waiters (state demo_system)).
Proof.
  destruct (reconcile_accounts 4 demo_system) as (_ & _ & H & _);
    [apply demo_reachable|by vm_compute|by vm_compute|by split; [vm_compute|]].
Defined.
