(* ===== verification/CrashFs.v ===== *)
(** * Files that survive a crash, and programs over them

    The calls of [std::fs] and [tempfile] that the setup commands make
    ([src/src/setup/edit/common.rs] and [transaction.rs]), with the faults each can have, and what is
    left of their effects when the process is killed or the machine loses power: a
    rename or a removal is visible at once, but durable only when its directory
    has been synced.  A program is a tree of calls; a logic in the style of Hoare
    gives what holds when it ends and what holds wherever it is interrupted. *)

From S2P Require Import Prelude Chars Store Paths StdPath.
Open Scope Z_scope.
Open Scope store_scope.

(** ** Cells *)

(** A path: what a read sees, and the contents one of which a power loss leaves. *)
Record cell := mk_cell {
  visible : option string;
  durable : list (option string)
}.
Definition settled (v : option string) : cell := mk_cell v [v].
Abbreviation disk := (gmap str cell).
Definition cell_of (d : disk) (path : str) : cell := default (settled None) (d !! path).
Definition contents_at (d : disk) (path : str) : option string := visible (cell_of d path).

(** A rename or a removal that is not synced. *)
Definition change_cell (path : str) (v : option string) (d : disk) : disk :=
  <[path := mk_cell v (v :: durable (cell_of d path))]> d.
(** [sync_all] of the directory; other files of the directory are left unsynced. *)
Definition settle_cell (path : str) (d : disk) : disk := <[path := settled (contents_at d path)]> d.

(** ** Calls *)
Inductive removal := Removed | RemovalNotFound | RemovalFailed.

(** The calls that change no file of the model. *)
Inductive effectless :=
(** [reject_symlink_target]. *)
| RejectSymlink (path : str)
(** [fs::create_dir_all]. *)
| CreateDirAll (directory : str)
(** [NamedTempFile::new_in], [write_all] and [sync_all]. *)
| WriteTemporary (directory : str) (content : string)
(** [fs::metadata] and [set_permissions]. *)
| CopyPermissions (path : str).

Inductive op : Type -> Type :=
| Attempt (what : effectless) : op (result ())
(** [read_optional_with_limit]. *)
| ReadOptional (path : str) (max_bytes : Z) : op (result (option string))
(** [NamedTempFile::persist] of a temporary file with this content. *)
| Persist (path : str) (content : string) : op (result ())
(** [NamedTempFile::persist_noclobber]. *)
| PersistNoclobber (path : str) (content : string) : op (result ())
(** [fs::remove_file]. *)
| RemoveFile (path : str) : op removal
(** [Path::exists], which is false when the path cannot be examined. *)
| PathExists (path : str) : op bool
(** The [sync_all] of the directory of the path. *)
| SyncDirectory (path : str) : op (result ()).

Definition byte_length (s : string) : Z := Z.of_nat (String.length s).

(** The effect and the answer of a call, which may have a fault. *)
Definition handle {R} (o : op R) (fault : bool) (d : disk) : disk * R :=
  match o in op R return disk * R with
  | Attempt _ => (d, if fault then Err IoError else Ok ())
  | ReadOptional path max_bytes =>
    (d, if fault then Err IoError
        else match contents_at d path with
             | None => Ok None
             | Some content =>
               if max_bytes <? byte_length content
               then Err (SetupFailure "refusing to read setup file above the {max_bytes}-byte limit: {}" path)
               else Ok (Some content)
             end)
  | Persist path content => if fault then (d, Err IoError) else (change_cell path (Some content) d, Ok ())
  | PersistNoclobber path content =>
    if fault then (d, Err IoError)
    else match contents_at d path with
         | Some _ => (d, Err IoError)
         | None => (change_cell path (Some content) d, Ok ())
         end
  | RemoveFile path =>
    if fault then (d, RemovalFailed)
    else match contents_at d path with
         | Some _ => (change_cell path None d, Removed)
         | None => (d, RemovalNotFound)
         end
  | PathExists path => (d, negb fault && bool_decide (is_Some (contents_at d path)))
  | SyncDirectory path => if fault then (d, Err IoError) else (settle_cell path d, Ok ())
  end.

(** ** Programs *)
Inductive prog (A : Type) : Type :=
| Ret (a : A)
| Do {R : Type} (o : op R) (next : R -> prog A).
Arguments Ret {A} _.
Arguments Do {A R} _ _.

Fixpoint prog_bind {A B} (p : prog A) (k : A -> prog B) : prog B :=
  match p with
  | Ret a => k a
  | Do o next => Do o (fun r => prog_bind (next r) k)
  end.
Definition call {R} (o : op R) : prog R := Do o Ret.
(** The [?] of a fallible program. *)
Definition prog_try {A B} (p : prog (result A)) (k : A -> prog (result B)) : prog (result B) :=
  prog_bind p (fun r => match r with Ok a => k a | Err e => Ret (Err e) end).

Declare Scope prog_scope.
Delimit Scope prog_scope with prog.
Notation "'do!' x ':=' m 'in' k" := (prog_bind m (fun x => k))
  (at level 10, x pattern, m at level 100, k at level 200) : prog_scope.
Notation "'ok!' x ':=' m 'in' k" := (prog_try m (fun x => k))
  (at level 10, x pattern, m at level 100, k at level 200) : prog_scope.
Open Scope prog_scope.

(** Which calls have a fault: the call, and how many were made before. *)
Definition schedule : Type := forall R, op R -> nat -> bool.

(** The program up to call number [limit], [k] calls being done; [None] when it
    is interrupted there. *)
Fixpoint run_prog {A} (oracle : schedule) (limit k : nat) (p : prog A) (d : disk) : disk * option A :=
  match p with
  | Ret a => (d, Some a)
  | @Do _ R o next =>
    if (k =? limit)%nat then (d, None)
    else let '(d, r) := handle o (oracle R o k) d in run_prog oracle limit (S k) (next r) d
  end.

(** ** The logic *)
Section Logic.
(** The faults that can happen. *)
Variable allowed : forall R, op R -> bool -> Prop.
Arguments allowed {R} _ _.

(** From [d] the program ends in [Q], and in [C] wherever it is interrupted. *)
Fixpoint wp {A} (p : prog A) (C : disk -> Prop) (Q : A -> disk -> Prop) (d : disk) : Prop :=
  match p with
  | Ret a => Q a d
  | Do o next => C d /\ forall fault, allowed o fault ->
      let '(d', r) := handle o fault d in wp (next r) C Q d'
  end.

Lemma wp_ret {A} (a : A) (C : disk -> Prop) (Q : A -> disk -> Prop) d : Q a d -> wp (Ret a) C Q d.
Proof. done. Qed.

Lemma wp_bind {A B} (p : prog A) (k : A -> prog B) C Q d :
  wp p C (fun a d' => wp (k a) C Q d') d -> wp (prog_bind p k) C Q d.
Proof.
  revert d. induction p as [a|R o next IH]; intros d; cbn; [done|]. intros [HC Hn]. split; [done|].
  intros fault Hf. specialize (Hn fault Hf). destruct (handle o fault d) as [d' r]. by apply IH.
Qed.

Lemma wp_mono {A} (p : prog A) (C C' : disk -> Prop) (Q Q' : A -> disk -> Prop) d :
  wp p C Q d -> (forall d, C d -> C' d) -> (forall a d, Q a d -> Q' a d) -> wp p C' Q' d.
Proof.
  intros Hp HC HQ. revert d Hp. induction p as [a|R o next IH]; intros d; cbn; [apply HQ|]. intros [Hc Hn].
  split; [by apply HC|]. intros fault Hf. specialize (Hn fault Hf). destruct (handle o fault d). by apply IH.
Qed.

Lemma wp_try {A B} (p : prog (result A)) (k : A -> prog (result B)) C Q d :
  wp p C (fun r d' => match r with Ok a => wp (k a) C Q d' | Err e => Q (Err e) d' end) d -> wp (prog_try p k) C Q d.
Proof.
  intros H. apply wp_bind. eapply wp_mono; [exact H|done|]. by intros [a|e] d'.
Qed.

Lemma wp_call {R} (o : op R) C Q d : C d ->
  (forall fault, allowed o fault -> let '(d', r) := handle o fault d in Q r d') -> wp (call o) C Q d.
Proof.
  intros HC HQ. split; [done|]. intros fault Hf. specialize (HQ fault Hf). by destruct (handle o fault d).
Qed.

(** Runs with such faults. *)
Definition respects (oracle : schedule) : Prop := forall R (o : op R) k, allowed o (oracle R o k).

Lemma wp_run {A} (p : prog A) C Q oracle limit k d : respects oracle -> wp p C Q d ->
  let '(d', r) := run_prog oracle limit k p d in match r with Some a => Q a d' | None => C d' end.
Proof.
  intros Hall. revert k d. induction p as [a|R o next IH]; intros k d; cbn; [done|]. intros [HC Hn].
  destruct (k =? limit)%nat; [done|]. specialize (Hn (oracle R o k) (Hall R o k)).
  destruct (handle o (oracle R o k) d) as [d' r]. by apply IH.
Qed.

(** Uninterrupted, every program ends. *)
Lemma wp_total {A} (p : prog A) C Q oracle k d : respects oracle -> wp p C Q d ->
  exists limit d' a, run_prog oracle limit k p d = (d', Some a) /\ Q a d'.
Proof.
  intros Hall Hp. enough (exists limit d' a, (k <= limit)%nat /\ run_prog oracle limit k p d = (d', Some a) /\ Q a d')
    as (limit & d' & a & _ & H) by (by exists limit, d', a).
  revert k d Hp. induction p as [a|R o next IH]; intros k d; cbn; [intros HQ; by exists k, d, a|]. intros [_ Hn].
  specialize (Hn (oracle R o k) (Hall R o k)). destruct (handle o (oracle R o k) d) as [d' r].
  destruct (IH r (S k) d' Hn) as (limit & d2 & a & Hle & Hrun & HQ). exists limit, d2, a. split; [lia|].
  destruct (Nat.eqb_spec k limit); [lia|]. done.
Qed.
End Logic.
#[global] Arguments wp _ {A} p _ _ _ : simpl never.

(** ** Restarts *)

(** What the next process finds: everything that was visible after a kill; after
    a power loss, one of the durable contents of every path. *)
Inductive interruption := Killed | PowerLoss.
Definition restart (i : interruption) (d d' : disk) : Prop :=
  match i with
  | Killed => d' = d
  | PowerLoss => forall path, exists v, v ∈ durable (cell_of d path) /\ cell_of d' path = settled v
  end.

Section Restart.
Variable i : interruption.

(** What a path shows, and what it may show after an interruption. *)
Definition holds (d : disk) (path : str) (S : option string -> Prop) : Prop :=
  S (contents_at d path) /\ (i = PowerLoss -> forall v, v ∈ durable (cell_of d path) -> S v).
Definition exactly (d : disk) (path : str) (v : option string) : Prop := holds d path (eq v).

Lemma exactly_contents d path v : exactly d path v -> contents_at d path = v.
Proof. by intros [<- _]. Qed.
Lemma holds_mono d path (S S' : option string -> Prop) : holds d path S -> (forall v, S v -> S' v) -> holds d path S'.
Proof. intros [H1 H2] HS. split; [by apply HS|]. intros Hi v Hv. by apply HS, H2. Qed.
Lemma exactly_holds d path v (S : option string -> Prop) : exactly d path v -> S v -> holds d path S.
Proof. intros H HS. eapply holds_mono; [exact H|]. by intros ? <-. Qed.
Lemma settled_exactly d path v : cell_of d path = settled v -> exactly d path v.
Proof.
  intros H. unfold exactly, holds, contents_at. rewrite H. split; [done|]. by intros _ w ->%list_elem_of_singleton.
Qed.

Lemma restart_exactly d d' path S : holds d path S -> restart i d d' -> exists v, S v /\ exactly d' path v.
Proof.
  intros [H1 H2] Hr. unfold restart in Hr. destruct i eqn:Ei.
  - subst d'. exists (contents_at d path). split; [done|]. split; [done|congruence].
  - destruct (Hr path) as (v & Hv & Hc). exists v. split; [by apply H2|]. by apply settled_exactly.
Qed.

Lemma cell_of_insert d path c : cell_of (<[path := c]> d) path = c.
Proof. unfold cell_of. by rewrite lookup_insert_eq. Qed.
Lemma cell_of_insert_ne d path q c : q <> path -> cell_of (<[path := c]> d) q = cell_of d q.
Proof. intros Hne. unfold cell_of. by rewrite lookup_insert_ne. Qed.
Lemma cell_change d path v : cell_of (change_cell path v d) path = mk_cell v (v :: durable (cell_of d path)).
Proof. apply cell_of_insert. Qed.
Lemma cell_change_ne d path q v : q <> path -> cell_of (change_cell path v d) q = cell_of d q.
Proof. apply cell_of_insert_ne. Qed.
Lemma cell_settle d path : cell_of (settle_cell path d) path = settled (contents_at d path).
Proof. apply cell_of_insert. Qed.
Lemma cell_settle_ne d path q : q <> path -> cell_of (settle_cell path d) q = cell_of d q.
Proof. apply cell_of_insert_ne. Qed.

Lemma change_holds d path v S : holds d path S -> holds (change_cell path v d) path (fun w => w = v \/ S w).
Proof.
  intros [H1 H2]. unfold holds, contents_at. rewrite cell_change. cbn. split; [by left|].
  intros Hi w [->|Hw]%elem_of_cons; [by left|right; by apply H2].
Qed.
Lemma change_contents d path v : contents_at (change_cell path v d) path = v.
Proof. unfold contents_at. by rewrite cell_change. Qed.
Lemma settle_exactly d path : exactly (settle_cell path d) path (contents_at d path).
Proof. apply settled_exactly, cell_settle. Qed.

Lemma same_cell_holds d d' path S : cell_of d' path = cell_of d path -> holds d path S -> holds d' path S.
Proof. unfold holds, contents_at. by intros ->. Qed.

(** The other paths are left alone. *)
Definition apart (paths : list str) (d d' : disk) : Prop := forall q, (q ∉ paths) -> cell_of d' q = cell_of d q.
Lemma apart_refl paths d : apart paths d d.
Proof. done. Qed.
Lemma apart_trans paths d1 d2 d3 : apart paths d1 d2 -> apart paths d2 d3 -> apart paths d1 d3.
Proof. intros H1 H2 q Hq. by rewrite H2, H1. Qed.
Lemma apart_mono paths paths' d d' : (forall q, q ∈ paths -> q ∈ paths') -> apart paths d d' -> apart paths' d d'.
Proof. intros Hs H q Hq. apply H. intros ?. by apply Hq, Hs. Qed.
Lemma apart_change path v d d' : apart [path] d d' -> apart [path] d (change_cell path v d').
Proof. intros H q Hq. rewrite cell_change_ne; [by apply H|]. intros ->. apply Hq. by left. Qed.
Lemma apart_settle path d d' : apart [path] d d' -> apart [path] d (settle_cell path d').
Proof. intros H q Hq. rewrite cell_settle_ne; [by apply H|]. intros ->. apply Hq. by left. Qed.
End Restart.

#[export] Hint Resolve apart_refl apart_change apart_settle : leantoken.
