(* ===== verification/SetupTransaction.v ===== *)
(** * The setup transaction

    The journal, the recovery and the edits by which the setup commands change the
    configuration files of several clients together
    ([src/src/setup/transaction.rs], [setup/apply.rs], [setup/edit/common.rs] and
    the plan records of [setup/plan.rs] and [setup/model.rs]), as programs over
    the files of [CrashFs.v].  A plan installs no private runtime: its [runtime]
    is [None], so that the receipts of an installation do not occur. *)

From S2P Require Import Prelude Chars Store Paths StdPath CrashFs.
Open Scope Z_scope.
Open Scope store_scope.
Open Scope prog_scope.

(** ** Plans *)
Inductive SetupClient := Claude | CursorClient | OpenCode | Codex | Gemini | Antigravity.

Inductive ClientPlanAction := Create | Update | AlreadyCurrent | Remove | NotConfiguredAction.

Inductive EditStatus := Configured | Updated | AlreadyConfigured | RemovedStatus | NotConfigured.

Inductive ClientSetupOutcome (F : Type) :=
| OutcomeOf (status : EditStatus)
| Failed (error : F).
Arguments OutcomeOf {F} _.
Arguments Failed {F} _.

Inductive ResolvedEdit :=
| EditConfigured (original : option string) (updated : string)
| EditUpdated (original : option string) (updated : string)
| EditAlreadyConfigured (original : option string)
| EditRemoved (original updated : string)
| EditNotConfigured (original : option string).

Definition status_of (edit : ResolvedEdit) : EditStatus :=
  match edit with
  | EditConfigured _ _ => Configured
  | EditUpdated _ _ => Updated
  | EditAlreadyConfigured _ => AlreadyConfigured
  | EditRemoved _ _ => RemovedStatus
  | EditNotConfigured _ => NotConfigured
  end.
Definition original_of (edit : ResolvedEdit) : option string :=
  match edit with
  | EditConfigured original _ | EditUpdated original _
  | EditAlreadyConfigured original | EditNotConfigured original => original
  | EditRemoved original _ => Some original
  end.
Definition updated_of (edit : ResolvedEdit) : option string :=
  match edit with
  | EditConfigured _ updated | EditUpdated _ updated | EditRemoved _ updated => Some updated
  | EditAlreadyConfigured _ | EditNotConfigured _ => None
  end.
Definition action_of (edit : ResolvedEdit) : ClientPlanAction :=
  match edit with
  | EditConfigured None _ => Create
  | EditConfigured _ _ | EditUpdated _ _ => Update
  | EditAlreadyConfigured _ => AlreadyCurrent
  | EditRemoved _ _ => Remove
  | EditNotConfigured _ => NotConfiguredAction
  end.

Record ClientSetupPlan := {
  plan_client : SetupClient;
  plan_path : str;
  plan_action : ClientPlanAction;
  plan_detected : bool
}.
Record DiscoverySetupPlan := { discovery_path : str; discovery_action : ClientPlanAction }.
Record PlannedClientEdit := { edit_public : ClientSetupPlan; resolution : ResolvedEdit }.
Record PlannedDiscoveryEdit := {
  discovery_public : DiscoverySetupPlan;
  discovery_original : option string;
  discovery_updated : option string
}.
Record PlannedConfigurationSnapshot := { snapshot_path : str; snapshot_original : option string }.

Definition edit_path (e : PlannedClientEdit) : str := plan_path (edit_public e).
Definition edit_original (e : PlannedClientEdit) : option string := original_of (resolution e).
Definition edit_updated (e : PlannedClientEdit) : option string := updated_of (resolution e).

Record ResolvedSetupPlan := {
  edits : list PlannedClientEdit;
  discovery_edits : list PlannedDiscoveryEdit;
  configuration_snapshots : list PlannedConfigurationSnapshot;
  transaction_root : str
}.

(** ** The journal *)
Inductive SetupTransactionState := Pending | CommittedState.
#[export] Instance SetupTransactionState_eq_dec : EqDecision SetupTransactionState.
Proof. solve_decision. Defined.

Inductive SetupTransactionUpdate := UpdatePresent (content_hash : string) | UpdateAbsent.

Record SetupTransactionEntry := {
  entry_path : str;
  entry_original : option string;
  entry_updated : SetupTransactionUpdate
}.
Record SetupTransactionJournal := {
  journal_schema_version : Z;
  journal_state : SetupTransactionState;
  journal_entries : list SetupTransactionEntry
}.

(** The fields of an entry as they are written. *)
Record WireEntry := {
  wire_path : str;
  wire_original : option string;
  wire_updated_hash : option string;
  wire_updated_exists : bool
}.
Record WireJournal := {
  wire_schema_version : Z;
  wire_state : SetupTransactionState;
  wire_entries : list WireEntry
}.

Definition serialize_entry (e : SetupTransactionEntry) : WireEntry :=
  let '(updated_hash, updated_exists) :=
    match entry_updated e with
    | UpdatePresent content_hash => (Some content_hash, true)
    | UpdateAbsent => (None, false)
    end in
  {| wire_path := entry_path e; wire_original := entry_original e;
     wire_updated_hash := updated_hash; wire_updated_exists := updated_exists |}.

Definition deserialize_entry (wire : WireEntry) : option SetupTransactionEntry :=
  match wire_updated_exists wire, wire_updated_hash wire with
  | true, Some content_hash =>
    Some {| entry_path := wire_path wire; entry_original := wire_original wire;
            entry_updated := UpdatePresent content_hash |}
  | false, None =>
    Some {| entry_path := wire_path wire; entry_original := wire_original wire; entry_updated := UpdateAbsent |}
  | true, None => None
  | false, Some _ => None
  end.

Definition to_wire (j : SetupTransactionJournal) : WireJournal :=
  {| wire_schema_version := journal_schema_version j; wire_state := journal_state j;
     wire_entries := serialize_entry <$> journal_entries j |}.
Definition of_wire (w : WireJournal) : option SetupTransactionJournal :=
  entries ← mapM deserialize_entry (wire_entries w);
  Some {| journal_schema_version := wire_schema_version w; journal_state := wire_state w;
          journal_entries := entries |}.

Definition MAX_SETUP_FILE_BYTES : Z := 8 * 1024 * 1024.
Definition MAX_SETUP_JOURNAL_BYTES : Z := 256 * 1024 * 1024.
Definition SETUP_TRANSACTION_FILE : str := lit "setup-transaction-v1.json".
Definition transaction_path (runtime_root : str) : str := push runtime_root SETUP_TRANSACTION_FILE.

(** What went wrong with a plan, as its message tells it. *)
Inductive apply_failure :=
| NotApplied (error : error)
| RolledBack (error : error)
| RecoveryRequired (error rollback_error : error).

Record ClientSetupResult := {
  result_client : SetupClient;
  result_path : str;
  result_outcome : ClientSetupOutcome apply_failure
}.
Record SetupApplyOutcome := {
  results : list ClientSetupResult;
  outcome_error : option apply_failure
}.

(** ** The files *)
Definition reject_symlink_target (path : str) : prog (result ()) := call (Attempt (RejectSymlink path)).

Definition read_optional (path : str) : prog (result (option string)) :=
  call (ReadOptional path MAX_SETUP_FILE_BYTES).

Definition validate_setup_content_size (path : str) (content : string) : result () :=
  if MAX_SETUP_FILE_BYTES <? byte_length content
  then Err (SetupFailure "refusing to write setup file above the {MAX_SETUP_FILE_BYTES}-byte limit: {}" path)
  else Ok ().

Definition sync_parent_directory (path : str) : prog (result ()) :=
  match parent path with
  | None => Ret (Err (SetupFailure "path has no parent: {}" path))
  | Some _ => call (SyncDirectory path)
  end.

Definition write_if_changed (path : str) (original updated : string) : prog (result ()) :=
  ok! _ := Ret (validate_setup_content_size path updated) in
  ok! _ := reject_symlink_target path in
  if bool_decide (original = updated) then Ret (Ok ())
  else match parent path with
       | None => Ret (Err (SetupFailure "config path has no parent: {}" path))
       | Some directory =>
         ok! _ := call (Attempt (CreateDirAll directory)) in
         ok! _ := call (Attempt (WriteTemporary directory updated)) in
         ok! _ := call (Attempt (CopyPermissions path)) in
         ok! _ := call (Persist path updated) in
         sync_parent_directory path
       end.

(** [fs::remove_file] of a file that [exists], and the sync of its directory. *)
Definition remove_existing (path : str) : prog (result ()) :=
  ok! _ := reject_symlink_target path in
  do! exists_ := call (PathExists path) in
  if (exists_ : bool)
  then do! removed := call (RemoveFile path) in
       match removed with
       | Removed => sync_parent_directory path
       | RemovalNotFound | RemovalFailed => Ret (Err IoError)
       end
  else Ret (Ok ()).

(** The sentinel [NUL] of [restore_path]. *)
Definition SENTINEL : string := String (Ascii.ascii_of_nat 0) EmptyString.

Section Transaction.
(** [serde_json] on the journal, and [blake3]. *)
Variable to_string : WireJournal -> option string.
Variable from_str : string -> option WireJournal.
Variable content_hash : string -> string.

Definition restore_path (path : str) (original : option string) (updated : SetupTransactionUpdate)
  : prog (result ()) :=
  ok! current := read_optional path in
  if bool_decide (current = original) then Ret (Ok ())
  else
    let matches_applied := match updated with
      | UpdatePresent hash => match current with
                              | Some value => bool_decide (content_hash value = hash)
                              | None => false
                              end
      | UpdateAbsent => bool_decide (current = None)
      end in
    if negb matches_applied
    then Ret (Err (SetupFailure "cannot recover setup because {} changed afterward" path))
    else match original with
         | Some original =>
           match current with
           | None => write_if_changed path SENTINEL original
           | Some current => write_if_changed path current original
           end
         | None => remove_existing path
         end.

Definition serialize_journal (journal : SetupTransactionJournal) : result string :=
  match to_string (to_wire journal) with
  | None => Err (OperationFailure "serde_json")
  | Some serialized =>
    if MAX_SETUP_JOURNAL_BYTES <? byte_length serialized
    then Err (SetupFailure "setup recovery journal exceeds the {MAX_SETUP_JOURNAL_BYTES}-byte aggregate limit" [])
    else Ok serialized
  end.

Definition replace_journal (path : str) (journal : SetupTransactionJournal) : prog (result ()) :=
  ok! _ := reject_symlink_target path in
  match parent path with
  | None => Ret (Err (SetupFailure "setup transaction path has no parent: {}" path))
  | Some directory =>
    ok! serialized := Ret (serialize_journal journal) in
    ok! _ := call (Attempt (WriteTemporary directory serialized)) in
    ok! _ := call (Persist path serialized) in
    sync_parent_directory path
  end.

Definition remove_journal (path : str) : prog (result ()) :=
  ok! _ := reject_symlink_target path in
  do! removed := call (RemoveFile path) in
  match removed with
  | Removed => sync_parent_directory path
  | RemovalNotFound => Ret (Ok ())
  | RemovalFailed => Ret (Err IoError)
  end.

(** [SetupTransaction::commit]: once the journal says so, its removal may wait. *)
Definition commit (path : str) (journal : SetupTransactionJournal) : prog (result ()) :=
  let committed := {| journal_schema_version := journal_schema_version journal;
                      journal_state := CommittedState;
                      journal_entries := journal_entries journal |} in
  ok! _ := replace_journal path committed in
  do! removed := call (RemoveFile path) in
  match removed with
  | RemovalFailed => Ret (Ok ())
  | Removed | RemovalNotFound => do! _ := sync_parent_directory path in Ret (Ok ())
  end.

Fixpoint restore_entries (entries : list SetupTransactionEntry) : prog (result ()) :=
  match entries with
  | [] => Ret (Ok ())
  | e :: entries =>
    ok! _ := restore_path (entry_path e) (entry_original e) (entry_updated e) in restore_entries entries
  end.

Definition recover_interrupted_transaction (runtime_root : str) : prog (result ()) :=
  let path := transaction_path runtime_root in
  ok! serialized := call (ReadOptional path MAX_SETUP_JOURNAL_BYTES) in
  match serialized with
  | None => Ret (Ok ())
  | Some serialized =>
    match from_str serialized ≫= of_wire with
    | None => Ret (Err (SetupFailure "invalid setup recovery journal {}: {error}" path))
    | Some journal =>
      if negb (journal_schema_version journal =? 1)
      then Ret (Err (SetupFailure "unsupported setup recovery journal version at {}" path))
      else if bool_decide (journal_state journal = CommittedState) then remove_journal path
      else ok! _ := restore_entries (journal_entries journal) in remove_journal path
    end
  end.

(** The entries of a plan: what each edit makes of its file. *)
Definition client_entries (edits : list PlannedClientEdit) : list SetupTransactionEntry :=
  omap (fun e =>
    updated ← edit_updated e;
    Some {| entry_path := edit_path e; entry_original := edit_original e;
            entry_updated := UpdatePresent (content_hash updated) |}) edits.

Definition discovery_update (e : PlannedDiscoveryEdit) : result (option SetupTransactionUpdate) :=
  match discovery_action (discovery_public e) with
  | Create | Update =>
    match discovery_updated e with
    | Some updated => Ok (Some (UpdatePresent (content_hash updated)))
    | None => Err (SetupFailure "setup plan omitted updated content for {}" (discovery_path (discovery_public e)))
    end
  | Remove => Ok (Some UpdateAbsent)
  | AlreadyCurrent | NotConfiguredAction => Ok None
  end.

Fixpoint discovery_entries (edits : list PlannedDiscoveryEdit) : result (list SetupTransactionEntry) :=
  match edits with
  | [] => Ok []
  | e :: edits =>
    let* update := discovery_update e in
    let* rest := discovery_entries edits in
    Ok (match update with
        | Some updated => {| entry_path := discovery_path (discovery_public e);
                             entry_original := discovery_original e; entry_updated := updated |} :: rest
        | None => rest
        end)
  end.

Definition begin_setup_transaction (plan : ResolvedSetupPlan)
  : prog (result (option SetupTransactionJournal)) :=
  ok! discovery := Ret (discovery_entries (discovery_edits plan)) in
  let entries := client_entries (edits plan) ++ discovery in
  match entries with
  | [] => Ret (Ok None)
  | _ =>
    ok! _ := call (Attempt (CreateDirAll (transaction_root plan))) in
    let path := transaction_path (transaction_root plan) in
    do! exists_ := call (PathExists path) in
    if (exists_ : bool) then Ret (Err (SetupFailure "setup recovery journal already exists at {}" path))
    else
      let journal := {| journal_schema_version := 1; journal_state := Pending; journal_entries := entries |} in
      ok! serialized := Ret (serialize_journal journal) in
      ok! _ := call (Attempt (WriteTemporary (transaction_root plan) serialized)) in
      do! persisted := call (PersistNoclobber path serialized) in
      match persisted with
      | Err _ => Ret (Err (SetupFailure "another setup transaction became active at {}: {}" path))
      | Ok _ => ok! _ := sync_parent_directory path in Ret (Ok (Some journal))
      end
  end.

(** ** The edits *)
Definition apply_edit (e : PlannedClientEdit) : prog (result ()) :=
  ok! current := read_optional (edit_path e) in
  if negb (bool_decide (current = edit_original e))
  then Ret (Err (SetupFailure "configuration changed after preflight: {}" (edit_path e)))
  else match edit_updated e with
       | Some updated => write_if_changed (edit_path e) (default "" (edit_original e)) updated
       | None => Ret (Ok ())
       end.

Definition apply_discovery_edit (e : PlannedDiscoveryEdit) : prog (result ()) :=
  let path := discovery_path (discovery_public e) in
  ok! current := read_optional path in
  if negb (bool_decide (current = discovery_original e))
  then Ret (Err (SetupFailure "discovery skill changed after preflight: {}" path))
  else match discovery_action (discovery_public e) with
       | Create | Update =>
         write_if_changed path (default "" (discovery_original e)) (default "" (discovery_updated e))
       | Remove => remove_existing path
       | AlreadyCurrent | NotConfiguredAction => Ret (Ok ())
       end.

Definition restore_edit (e : PlannedClientEdit) : prog (result ()) :=
  match edit_updated e with
  | None => Ret (Ok ())
  | Some updated => restore_path (edit_path e) (edit_original e) (UpdatePresent (content_hash updated))
  end.

Definition restore_discovery_edit (e : PlannedDiscoveryEdit) : prog (result ()) :=
  match discovery_action (discovery_public e) with
  | Create | Update =>
    match discovery_updated e with
    | None => Ret (Err (SetupFailure "setup plan omitted updated discovery content" []))
    | Some updated =>
      restore_path (discovery_path (discovery_public e)) (discovery_original e) (UpdatePresent (content_hash updated))
    end
  | Remove => restore_path (discovery_path (discovery_public e)) (discovery_original e) UpdateAbsent
  | AlreadyCurrent | NotConfiguredAction => Ret (Ok ())
  end.

(** Every restoration is tried; the first error is kept. *)
Fixpoint restore_all {E} (restore : E -> prog (result ())) (failure : option error) (edits : list E)
  : prog (option error) :=
  match edits with
  | [] => Ret failure
  | e :: edits =>
    do! restored := restore e in
    restore_all restore
      (match restored with
       | Ok _ => failure
       | Err error => match failure with None => Some error | Some _ => failure end
       end) edits
  end.

Definition commit_transaction (root : str) (transaction : option SetupTransactionJournal) : prog (result ()) :=
  match transaction with
  | None => Ret (Ok ())
  | Some journal => commit (transaction_path root) journal
  end.

Definition rollback_setup (root : str) (applied : list PlannedClientEdit)
    (applied_discovery : list PlannedDiscoveryEdit) (transaction : option SetupTransactionJournal)
  : prog (result ()) :=
  do! failure := restore_all restore_discovery_edit None (rev applied_discovery) in
  do! failure := restore_all restore_edit failure (rev applied) in
  match failure with
  | Some error => Ret (Err error)
  | None => commit_transaction root transaction
  end.

Definition rollback_message (error : error) (rollback : result ()) : apply_failure :=
  match rollback with
  | Ok _ => RolledBack error
  | Err rollback_error => RecoveryRequired error rollback_error
  end.

Definition failed_results (edits : list PlannedClientEdit) (error : apply_failure) : list ClientSetupResult :=
  (fun e => {| result_client := plan_client (edit_public e); result_path := edit_path e;
               result_outcome := Failed error |}) <$> edits.
Definition failed_outcome (plan : ResolvedSetupPlan) (error : apply_failure) : SetupApplyOutcome :=
  {| results := failed_results (edits plan) error; outcome_error := Some error |}.

(** ** The preflight *)
Fixpoint preflight {E} (path : E -> str) (original : E -> option string) (format : string) (items : list E)
  : prog (result ()) :=
  match items with
  | [] => Ret (Ok ())
  | item :: items =>
    ok! current := read_optional (path item) in
    if bool_decide (current = original item) then preflight path original format items
    else Ret (Err (SetupFailure format (path item)))
  end.
Definition preflight_configuration_snapshots : list PlannedConfigurationSnapshot -> prog (result ()) :=
  preflight snapshot_path snapshot_original "configuration changed after preflight: {}".
Definition preflight_edits : list PlannedClientEdit -> prog (result ()) :=
  preflight edit_path edit_original "configuration changed after preflight: {}".
Definition preflight_discovery : list PlannedDiscoveryEdit -> prog (result ()) :=
  preflight (fun e => discovery_path (discovery_public e)) discovery_original
    "discovery skill changed after preflight: {}".

(** ** The plan *)

(** A loop of edits: those that were tried, or the outcome of the rollback. *)
Fixpoint apply_all {E} (apply : E -> prog (result ())) (changes : E -> bool)
    (fail : list E -> error -> prog SetupApplyOutcome) (applied todo : list E)
  : prog (list E + SetupApplyOutcome) :=
  match todo with
  | [] => Ret (inl applied)
  | e :: todo =>
    let applied := if changes e then applied ++ [e] else applied in
    do! r := apply e in
    match r with
    | Ok _ => apply_all apply changes fail applied todo
    | Err error => do! outcome := fail applied error in Ret (inr outcome)
    end
  end.

(** The rollback after an error, and its message. *)
Definition roll_back (plan : ResolvedSetupPlan) (transaction : option SetupTransactionJournal)
    (applied : list PlannedClientEdit) (applied_discovery : list PlannedDiscoveryEdit) (error : error)
  : prog SetupApplyOutcome :=
  do! rollback := rollback_setup (transaction_root plan) applied applied_discovery transaction in
  Ret (failed_outcome plan (rollback_message error rollback)).

Definition client_changes (e : PlannedClientEdit) : bool := bool_decide (is_Some (edit_updated e)).
Definition discovery_changes (e : PlannedDiscoveryEdit) : bool :=
  match discovery_action (discovery_public e) with
  | AlreadyCurrent | NotConfiguredAction => false
  | Create | Update | Remove => true
  end.

Definition applied_outcome (plan : ResolvedSetupPlan) : SetupApplyOutcome :=
  {| results := (fun e => {| result_client := plan_client (edit_public e); result_path := edit_path e;
                             result_outcome := OutcomeOf (status_of (resolution e)) |}) <$> edits plan;
     outcome_error := None |}.

Definition apply_transaction (plan : ResolvedSetupPlan) (transaction : option SetupTransactionJournal)
  : prog SetupApplyOutcome :=
  do! clients := apply_all apply_edit client_changes (fun applied => roll_back plan transaction applied [])
                   [] (edits plan) in
  match clients with
  | inr outcome => Ret outcome
  | inl applied =>
    do! discoveries := apply_all apply_discovery_edit discovery_changes (roll_back plan transaction applied)
                         [] (discovery_edits plan) in
    match discoveries with
    | inr outcome => Ret outcome
    | inl applied_discovery =>
      do! committed := commit_transaction (transaction_root plan) transaction in
      match committed with
      | Err error => roll_back plan transaction applied applied_discovery error
      | Ok _ => Ret (applied_outcome plan)
      end
    end
  end.

Definition preflight_plan (plan : ResolvedSetupPlan) : prog (result ()) :=
  ok! _ := preflight_configuration_snapshots (configuration_snapshots plan) in
  ok! _ := preflight_edits (edits plan) in
  preflight_discovery (discovery_edits plan).

Definition apply_plan (plan : ResolvedSetupPlan) : prog SetupApplyOutcome :=
  do! checked := preflight_plan plan in
  match checked with
  | Err error => Ret (failed_outcome plan (NotApplied error))
  | Ok _ =>
    do! transaction := begin_setup_transaction plan in
    match transaction with
    | Err error => Ret (failed_outcome plan (NotApplied error))
    | Ok transaction => apply_transaction plan transaction
    end
  end.
End Transaction.
