(* ===== verification/SetupAtomic.v ===== *)
(** * The setup transaction is atomic

    Every run of the program of [SetupTransaction.v], interrupted anywhere, leaves
    a disk from which the recovery of the next process reaches the files as they
    were or as the plan wants them, all of them together.  The states between are
    described by what each file may hold, now and after a power loss; the rules of
    the logic of [CrashFs.v] follow the program from one to the next. *)

From S2P Require Import Prelude Chars Store Paths StdPath CrashFs SetupTransaction.
Open Scope Z_scope.
Open Scope store_scope.
Open Scope prog_scope.

(** ** What a plan does to a file *)
Record move := {
  mv_path : str;
  mv_original : option string;
  mv_target : option string;
  mv_update : SetupTransactionUpdate
}.
#[export] Instance update_eq_dec : EqDecision SetupTransactionUpdate.
Proof. solve_decision. Defined.
#[export] Instance move_eq_dec : EqDecision move.
Proof. solve_decision. Defined.
Definition move_entry (m : move) : SetupTransactionEntry :=
  {| entry_path := mv_path m; entry_original := mv_original m; entry_updated := mv_update m |}.

(** An edit that would write what is there leaves the file absent or present. *)
Definition written (original : option string) (updated : string) : option string :=
  if bool_decide (default "" original = updated) then original else Some updated.

Section Moves.
Variable content_hash : string -> string.

Definition client_move (e : PlannedClientEdit) : option move :=
  updated ← edit_updated e;
  Some {| mv_path := edit_path e; mv_original := edit_original e;
          mv_target := written (edit_original e) updated; mv_update := UpdatePresent (content_hash updated) |}.
Definition discovery_move (e : PlannedDiscoveryEdit) : option move :=
  let path := discovery_path (discovery_public e) in
  match discovery_action (discovery_public e) with
  | Create | Update =>
    updated ← discovery_updated e;
    Some {| mv_path := path; mv_original := discovery_original e;
            mv_target := written (discovery_original e) updated; mv_update := UpdatePresent (content_hash updated) |}
  | Remove => Some {| mv_path := path; mv_original := discovery_original e;
                      mv_target := None; mv_update := UpdateAbsent |}
  | AlreadyCurrent | NotConfiguredAction => None
  end.
Definition plan_moves (plan : ResolvedSetupPlan) : list move :=
  omap client_move (edits plan) ++ omap discovery_move (discovery_edits plan).

Definition fits (v : option string) : Prop :=
  match v with Some content => byte_length content <= MAX_SETUP_FILE_BYTES | None => True end.

(** A file that a move can be applied to and undone. *)
Record movable (m : move) : Prop := {
  original_fits : fits (mv_original m);
  target_fits : fits (mv_target m);
  has_directory : is_Some (parent (mv_path m));
  not_sentinel : mv_original m <> Some SENTINEL;
  update_matches : match mv_update m with
                   | UpdatePresent hash => mv_target m = mv_original m \/
                       exists updated, mv_target m = Some updated /\ hash = content_hash updated
                   | UpdateAbsent => mv_target m = None
                   end
}.
End Moves.

(** The faults considered: none when [quiet]; a file that is there is seen; the
    directory of [reliable] can be synced. *)
Definition faults (quiet : bool) (reliable : option str) (R : Type) (o : op R) (fault : bool) : Prop :=
  (quiet = true -> fault = false) /\
  match o with
  | PathExists _ => fault = false
  | SyncDirectory path => reliable = Some path -> fault = false
  | _ => True
  end.

(** ** Rules for the calls *)
Section Calls.
Variables (i : interruption) (quiet : bool) (reliable : option str).
Abbreviation wp := (wp (faults quiet reliable)).

Lemma quiet_fault {R} (o : op R) : faults quiet reliable R o true -> quiet = false.
Proof. intros [H _]. destruct quiet; [by specialize (H eq_refl)|done]. Qed.

Lemma wp_attempt (what : effectless) (C : disk -> Prop) (Q : result () -> disk -> Prop) d :
  C d -> Q (Ok ()) d -> (quiet = false -> Q (Err IoError) d) -> wp (call (Attempt what)) C Q d.
Proof. intros HC HQ HE. apply wp_call; [done|]. intros [] Hf; cbn; [|done]. by apply HE, (quiet_fault _ Hf). Qed.

Lemma wp_persist (path : str) (content : string) (C : disk -> Prop) (Q : result () -> disk -> Prop) d :
  C d -> Q (Ok ()) (change_cell path (Some content) d) -> (quiet = false -> Q (Err IoError) d) ->
  wp (call (Persist path content)) C Q d.
Proof. intros HC HQ HE. apply wp_call; [done|]. intros [] Hf; cbn; [|done]. by apply HE, (quiet_fault _ Hf). Qed.

Lemma wp_remove_file (path : str) (C : disk -> Prop) (Q : removal -> disk -> Prop) d :
  C d -> (forall content, contents_at d path = Some content -> Q Removed (change_cell path None d)) ->
  (contents_at d path = None -> Q RemovalNotFound d) -> (quiet = false -> Q RemovalFailed d) ->
  wp (call (RemoveFile path)) C Q d.
Proof.
  intros HC HR HN HE. apply wp_call; [done|]. intros [] Hf; cbn; [by apply HE, (quiet_fault _ Hf)|].
  destruct (contents_at d path) as [c|]; [by apply (HR c)|by apply HN].
Qed.

Lemma wp_exists (path : str) (C : disk -> Prop) (Q : bool -> disk -> Prop) d :
  C d -> Q (bool_decide (is_Some (contents_at d path))) d -> wp (call (PathExists path)) C Q d.
Proof. intros HC HQ. apply wp_call; [done|]. by intros fault [_ ->]. Qed.

Lemma wp_read (path : str) (limit : Z) (C : disk -> Prop) (Q : result (option string) -> disk -> Prop) d :
  C d -> (forall content, contents_at d path = Some content -> byte_length content <= limit) ->
  Q (Ok (contents_at d path)) d -> (quiet = false -> Q (Err IoError) d) -> wp (call (ReadOptional path limit)) C Q d.
Proof.
  intros HC Hfit HQ HE. apply wp_call; [done|]. intros [] Hf; cbn; [by apply HE, (quiet_fault _ Hf)|].
  destruct (contents_at d path) as [c|]; [|done]. by rewrite (proj2 (Z.ltb_ge _ _) (Hfit c eq_refl)).
Qed.

Lemma wp_sync (path : str) (C : disk -> Prop) (Q : result () -> disk -> Prop) d :
  is_Some (parent path) -> C d -> Q (Ok ()) (settle_cell path d) ->
  (quiet = false -> reliable <> Some path -> Q (Err IoError) d) -> wp (sync_parent_directory path) C Q d.
Proof.
  intros [directory Hp] HC HQ HE. unfold sync_parent_directory. rewrite Hp. apply wp_call; [done|].
  intros [] Hf; cbn; [|done]. apply HE; [by apply (quiet_fault _ Hf)|]. intros Hr. by destruct Hf as [_ Hf]; specialize (Hf Hr).
Qed.

(** ** One file *)

(** The others are as they were, and this one holds something of [S]. *)
Definition around (d : disk) (path : str) (S : option string -> Prop) (d' : disk) : Prop :=
  apart [path] d d' /\ holds i d' path S.
Lemma around_here d path S : holds i d path S -> around d path S d.
Proof. by split; [apply apart_refl|]. Qed.
Lemma around_change d (path : str) S v : holds i d path S -> S v -> around d path S (change_cell path v d).
Proof.
  intros Hd Hv. split; [by apply apart_change, apart_refl|].
  eapply holds_mono; [by apply change_holds|]. by intros w [->|?].
Qed.

Lemma settle_change d (path : str) v S : holds i d path S ->
  apart [path] d (settle_cell path (change_cell path v d)) /\ exactly i (settle_cell path (change_cell path v d)) path v.
Proof.
  intros Hd. split; [by apply apart_settle, apart_change, apart_refl|].
  rewrite <- (change_contents d path v) at 2. apply settle_exactly.
Qed.

Lemma wp_write_if_changed (path : str) (original updated : string) S C Q d :
  holds i d path S -> S (Some updated) -> is_Some (parent path) -> fits (Some updated) ->
  (forall d', around d path S d' -> C d') ->
  (original = updated -> Q (Ok ()) d) ->
  (original <> updated -> forall d', apart [path] d d' -> exactly i d' path (Some updated) -> Q (Ok ()) d') ->
  (quiet = false -> forall e d', around d path S d' ->
     d' = d \/ (original <> updated /\ contents_at d' path = Some updated) -> Q (Err e) d') ->
  wp (write_if_changed path original updated) C Q d.
Proof.
  intros Hd HS [directory Hp] Hfit HC Hsame HQ HE. cbn in Hfit.
  assert (C d) as Hc by by apply HC, around_here.
  assert (quiet = false -> forall e, Q (Err e) d) as HE' by (intros; apply HE; [done|by apply around_here|by left]).
  unfold write_if_changed, validate_setup_content_size. rewrite (proj2 (Z.ltb_ge _ _) Hfit). apply wp_try, wp_ret.
  apply wp_try, wp_attempt; [done| |intros; by apply HE']. destruct (bool_decide_reflect (original = updated)); [by apply Hsame|].
  rewrite Hp. do 3 (apply wp_try, wp_attempt; [done| |intros; by apply HE']).
  apply wp_try, wp_persist; [done| |intros; by apply HE'].
  pose proof (around_change d path S (Some updated) Hd HS) as Hch.
  apply wp_sync; [by eexists|by apply HC| |].
  - apply HQ; [done|by eapply settle_change..].
  - intros Hq _. apply HE; [done|done|]. right. split; [done|apply change_contents].
Qed.

Lemma wp_write_same (path : str) (content : string) (C : disk -> Prop) (Q : result () -> disk -> Prop) d :
  fits (Some content) -> C d -> Q (Ok ()) d -> (quiet = false -> Q (Err IoError) d) ->
  wp (write_if_changed path content content) C Q d.
Proof.
  intros Hfit HC HQ HE. cbn in Hfit. unfold write_if_changed, validate_setup_content_size.
  rewrite (proj2 (Z.ltb_ge _ _) Hfit). apply wp_try, wp_ret. apply wp_try, wp_attempt; [done| |done].
  by rewrite bool_decide_eq_true_2.
Qed.

Lemma wp_remove_existing (path : str) S C Q d :
  holds i d path S -> S None -> is_Some (parent path) ->
  (forall d', around d path S d' -> C d') ->
  (contents_at d path = None -> Q (Ok ()) d) ->
  (forall d', apart [path] d d' -> exactly i d' path None -> Q (Ok ()) d') ->
  (quiet = false -> forall e d', around d path S d' ->
     d' = d \/ (contents_at d path <> None /\ contents_at d' path = None) -> Q (Err e) d') ->
  wp (remove_existing path) C Q d.
Proof.
  intros Hd HS Hp HC Hsame HQ HE.
  assert (C d) as Hc by by apply HC, around_here.
  assert (quiet = false -> forall e, Q (Err e) d) as HE' by (intros; apply HE; [done|by apply around_here|by left]).
  unfold remove_existing. apply wp_try, wp_attempt; [done| |intros; by apply HE'].
  apply wp_bind, wp_exists; [done|]. destruct (contents_at d path) as [c|] eqn:Ec; [|by apply Hsame].
  rewrite bool_decide_eq_true_2 by by eexists.
  apply wp_bind, wp_remove_file; [done| |congruence|intros; by apply HE'].
  intros _ _. pose proof (around_change d path S None Hd HS) as Hch. apply wp_sync; [done|by apply HC| |].
  - apply HQ; by eapply settle_change.
  - intros Hq _. apply HE; [done|done|]. right. split; [done|apply change_contents].
Qed.

(** ** One move *)
Definition changing (m : move) (v : option string) : Prop := v = mv_original m \/ v = mv_target m.

(** A file that was tried: if it reads as it was, it stays so. *)
Definition tracked (d : disk) (m : move) : Prop :=
  holds i d (mv_path m) (changing m) /\
  (contents_at d (mv_path m) = mv_original m -> exactly i d (mv_path m) (mv_original m)).

Lemma exactly_tracked d m v : exactly i d (mv_path m) v -> changing m v -> tracked d m.
Proof.
  intros Hd Hv. split; [by eapply exactly_holds|]. by rewrite (exactly_contents _ _ _ _ Hd); intros <-.
Qed.

Section Move.
Variable content_hash : string -> string.
Variable m : move.
Hypothesis Hm : movable content_hash m.
Abbreviation path := (mv_path m).

Lemma changing_fits d content : holds i d path (changing m) -> contents_at d path = Some content ->
  byte_length content <= MAX_SETUP_FILE_BYTES.
Proof.
  intros [[H|H] _] Hc; rewrite Hc in H; [pose proof (original_fits _ _ Hm) as Hf|pose proof (target_fits _ _ Hm) as Hf];
    rewrite <- H in Hf; exact Hf.
Qed.

(** [restore_path], in the process that applied the plan and in the next one. *)
Lemma wp_restore_path C Q d :
  tracked d m -> (forall d', around d path (changing m) d' -> C d') ->
  (forall d', apart [path] d d' -> exactly i d' path (mv_original m) -> Q (Ok ()) d') ->
  (quiet = false -> forall e d', around d path (changing m) d' -> Q (Err e) d') ->
  wp (restore_path content_hash path (mv_original m) (mv_update m)) C Q d.
Proof.
  intros [Hd Hsame] HC HQ HE. unfold restore_path.
  apply wp_try, wp_read; [by apply HC, around_here|by intros c; apply changing_fits|
    |intros; apply HE; [done|by apply around_here]].
  destruct (bool_decide_reflect (contents_at d path = mv_original m)) as [He|Hne];
    [apply HQ; [apply apart_refl|by apply Hsame]|].
  pose proof (update_matches _ _ Hm) as Hu. pose proof (not_sentinel _ _ Hm) as Hns.
  pose proof (original_fits _ _ Hm) as Hfit. pose proof (has_directory _ _ Hm) as Hp.
  assert (contents_at d path = mv_target m) as Ht by (destruct Hd as [[?|?] _]; done).
  assert (mv_target m <> mv_original m) as Hto by congruence.
  assert (forall v, mv_original m = v -> changing m v) as Hcho by (intros v <-; by left).
  rewrite Ht. match goal with |- context [negb ?b] => assert (b = true) as -> end.
  { destruct (mv_update m) as [hash|]; [|by apply bool_decide_eq_true_2].
    destruct Hu as [?|(updated & -> & ->)]; [done|]. by apply bool_decide_eq_true_2. }
  cbn [negb]. destruct (mv_original m) as [o|] eqn:Eo.
  - assert (forall original, mv_target m = Some original \/ original = SENTINEL -> original <> o) as Hdiff.
    { intros original [Hc|Hc] Heq; congruence. }
    destruct (mv_target m) as [c|] eqn:Ec.
    all: eapply wp_write_if_changed with (S := changing m); eauto using around_here.
    all: try solve [intros Heq; exfalso; revert Heq; apply Hdiff; auto].
  - eapply wp_remove_existing with (S := changing m); eauto using around_here. congruence.
Qed.

(** An edit of the file, and its restoration. *)
Definition applies (apply : prog (result ())) : Prop := forall C Q d,
  exactly i d path (mv_original m) -> (forall d', around d path (changing m) d' -> C d') ->
  (forall d', apart [path] d d' -> exactly i d' path (mv_target m) -> Q (Ok ()) d') ->
  (forall e d', apart [path] d d' -> tracked d' m -> Q (Err e) d') ->
  wp apply C Q d.
Definition restores (restore : prog (result ())) : Prop := forall C Q d,
  tracked d m -> (forall d', around d path (changing m) d' -> C d') ->
  (forall d', apart [path] d d' -> exactly i d' path (mv_original m) -> Q (Ok ()) d') ->
  (forall e d', around d path (changing m) d' -> Q (Err e) d') ->
  wp restore C Q d.

Lemma wp_read_original C Q d :
  exactly i d path (mv_original m) -> C d -> Q (Ok (mv_original m)) d -> (forall e, Q (Err e) d) ->
  wp (read_optional path) C Q d.
Proof.
  intros Hd HC HQ HE. pose proof (exactly_contents _ _ _ _ Hd) as Hc.
  apply wp_read; [done| |by rewrite Hc|intros; apply HE].
  intros c Hs. apply (changing_fits d); [|done]. eapply exactly_holds; [done|by left].
Qed.

Lemma write_applies (updated : string) C Q d :
  mv_target m = written (mv_original m) updated ->
  exactly i d path (mv_original m) -> (forall d', around d path (changing m) d' -> C d') ->
  (forall d', apart [path] d d' -> exactly i d' path (mv_target m) -> Q (Ok ()) d') ->
  (forall e d', apart [path] d d' -> tracked d' m -> Q (Err e) d') ->
  wp (write_if_changed path (default "" (mv_original m)) updated) C Q d.
Proof.
  intros Ht Hd HC HQ HE. pose proof (has_directory _ _ Hm) as Hp. pose proof (target_fits _ _ Hm) as Hfit.
  assert (holds i d path (changing m)) as Hh by (eapply exactly_holds; [done|by left]).
  unfold written in Ht. destruct (bool_decide_reflect (default "" (mv_original m) = updated)) as [He|Hne].
  - assert (fits (Some (default "" (mv_original m)))) as Hfu.
    { pose proof (original_fits _ _ Hm) as Hfo. by destruct (mv_original m). }
    rewrite <- He. rewrite Ht in HQ. apply wp_write_same; [done|by apply HC, around_here|by apply HQ|].
    intros _. apply HE; [done|]. eapply exactly_tracked; [done|by left].
  - rewrite Ht in Hfit, HQ. apply wp_write_if_changed with (S := changing m);
      [done|by right|done|done|done|by intros ?|by intros _; apply HQ|].
    + intros _ e d' [Ha Hd'] [->|[_ Hc]].
      * apply HE; [done|]. eapply exactly_tracked; [done|by left].
      * apply HE; [done|]. split; [done|]. intros Heq. exfalso. rewrite Hc in Heq. by rewrite <- Heq in Hne.
Qed.

Lemma remove_applies C Q d :
  mv_target m = None ->
  exactly i d path (mv_original m) -> (forall d', around d path (changing m) d' -> C d') ->
  (forall d', apart [path] d d' -> exactly i d' path (mv_target m) -> Q (Ok ()) d') ->
  (forall e d', apart [path] d d' -> tracked d' m -> Q (Err e) d') ->
  wp (remove_existing path) C Q d.
Proof.
  intros Ht Hd HC HQ HE. rewrite Ht in HQ. pose proof (exactly_contents _ _ _ _ Hd) as Hc.
  apply wp_remove_existing with (S := changing m);
    [by eapply exactly_holds; [|left]|by right|by apply (has_directory _ _ Hm)|done| |done|].
  - intros Hn. apply HQ; [done|]. congruence.
  - intros _ e d' [Ha Hd'] [->|[Hne Hn]].
    + apply HE; [done|]. eapply exactly_tracked; [done|by left].
    + apply HE; [done|]. split; [done|]. congruence.
Qed.
End Move.
End Calls.

(** ** All the files *)

(** What the journal may hold, and the files with it. *)
Section States.
Variables (i : interruption) (to_string : WireJournal -> option string) (moves : list move) (jp : str).

Definition journal (st : SetupTransactionState) : SetupTransactionJournal :=
  {| journal_schema_version := 1; journal_state := st; journal_entries := move_entry <$> moves |}.
Definition journal_text (st : SetupTransactionState) (v : option string) : Prop :=
  exists s, serialize_journal to_string (journal st) = Ok s /\ v = Some s.
Definition finished (v : option string) : Prop := v = None \/ journal_text CommittedState v.

Definition pending (d : disk) : Prop := exists s, journal_text Pending (Some s) /\ exactly i d jp (Some s).
Definition all_at (sel : move -> option string) (d : disk) : Prop :=
  forall m, m ∈ moves -> exactly i d (mv_path m) (sel m).
Definition between (d : disk) : Prop :=
  pending d /\ forall m, m ∈ moves -> holds i d (mv_path m) (changing m).
(** The files are as they were or as planned, whatever the journal says; or the
    journal says how to go back. *)
Definition all_or_none (d : disk) : Prop := all_at mv_original d \/ all_at mv_target d.
Definition consistent (d : disk) : Prop :=
  between d \/
  (holds i d jp (fun v => finished v \/ journal_text Pending v) /\ all_or_none d).
(** A transaction that is over. *)
Definition fixed (sel : move -> option string) (d : disk) : Prop := holds i d jp finished /\ all_at sel d.
(** What the next process finds. *)
Definition sharp (d : disk) : Prop :=
  (exists v, exactly i d jp v) /\ forall m, m ∈ moves -> exists v, exactly i d (mv_path m) v.

(** Moves to restore; the others are restored, unless one failed. *)
Definition restoring (failure : option error) (todo : list move) (d : disk) : Prop :=
  between d /\ (forall m, m ∈ todo -> tracked i d m) /\
  (failure = None -> forall m, m ∈ moves -> m ∉ todo -> exactly i d (mv_path m) (mv_original m)).
(** Moves to apply; the others are applied. *)
Definition applying (todo : list move) (d : disk) : Prop :=
  pending d /\ (forall m, m ∈ todo -> exactly i d (mv_path m) (mv_original m)) /\
  (forall m, m ∈ moves -> m ∉ todo -> exactly i d (mv_path m) (mv_target m)).

Hypothesis Hapart : jp ∉ mv_path <$> moves.
Hypothesis Hnodup : NoDup (mv_path <$> moves).

Lemma same_exactly d d' path v : cell_of d' path = cell_of d path -> exactly i d path v -> exactly i d' path v.
Proof. apply same_cell_holds. Qed.
Lemma journal_ne m : m ∈ moves -> mv_path m <> jp.
Proof. intros Hm He. apply Hapart. rewrite <- He. by apply list_elem_of_fmap_2. Qed.
Lemma path_inj m m' : m ∈ moves -> m' ∈ moves -> mv_path m = mv_path m' -> m = m'.
Proof.
  intros [k Hk]%list_elem_of_lookup [k' Hk']%list_elem_of_lookup He.
  assert (k = k') as ->; [|congruence].
  apply (NoDup_lookup _ k k' (mv_path m) Hnodup); rewrite list_lookup_fmap, ?Hk, ?Hk'; cbn; congruence.
Qed.

Lemma apart_one path d d' q : apart [path] d d' -> q <> path -> cell_of d' q = cell_of d q.
Proof. intros H Hne. apply H. by intros ->%list_elem_of_singleton. Qed.
Lemma apart_pending m d d' : m ∈ moves -> apart [mv_path m] d d' -> pending d -> pending d'.
Proof.
  intros Hm Ha (s & Hs & Hj). exists s. split; [done|]. eapply same_exactly; [|done].
  eapply apart_one; [done|]. by intros He; apply (journal_ne m).
Qed.
Lemma apart_move m m' d d' : m ∈ moves -> m' ∈ moves -> m' <> m -> apart [mv_path m] d d' ->
  cell_of d' (mv_path m') = cell_of d (mv_path m').
Proof. intros Hm Hm' Hne Ha. eapply apart_one; [done|]. intros He. by apply Hne, path_inj. Qed.
Lemma apart_journal m d d' : m ∈ moves -> apart [jp] d d' -> cell_of d' (mv_path m) = cell_of d (mv_path m).
Proof. intros Hm Ha. eapply apart_one; [done|]. by apply journal_ne. Qed.
Lemma apart_all_at sel d d' : apart [jp] d d' -> all_at sel d -> all_at sel d'.
Proof. intros Ha H m Hm. eapply same_exactly; [by eapply apart_journal|by apply H]. Qed.

(** A call on the file of one move. *)
Lemma around_between m d d' :
  m ∈ moves -> between d -> around i d (mv_path m) (changing m) d' -> between d'.
Proof.
  intros Hm [Hj Hd] [Ha Hh]. split; [by eapply apart_pending|]. intros m' Hm'.
  destruct (decide (m' = m)) as [->|Hne]; [done|].
  eapply same_cell_holds; [by eapply (apart_move m)|by apply Hd].
Qed.
Lemma same_tracked d d' m : cell_of d' (mv_path m) = cell_of d (mv_path m) -> tracked i d m -> tracked i d' m.
Proof.
  intros Hc [H1 H2]. split; [by eapply same_cell_holds|]. unfold contents_at. rewrite Hc. intros He.
  eapply same_exactly; [done|]. by apply H2.
Qed.

Lemma restoring_step failure m todo d d' :
  (forall m', m' ∈ m :: todo -> m' ∈ moves) -> m ∉ todo -> restoring failure (m :: todo) d ->
  around i d (mv_path m) (changing m) d' ->
  (failure = None -> exactly i d' (mv_path m) (mv_original m)) -> restoring failure todo d'.
Proof.
  intros Hsub Hni (Hb & Ht & Hr) Ha Hd'. assert (m ∈ moves) as Hm by (apply Hsub; by left).
  pose proof Ha as [Hap _]. split; [by eapply around_between|]. split.
  - intros m' Hm'. eapply same_tracked; [|apply Ht; by right].
    eapply (apart_move m); [done|apply Hsub; by right|by intros ->|done].
  - intros Hf m' Hm' Hn. destruct (decide (m' = m)) as [->|Hne]; [by apply Hd'|].
    eapply same_exactly; [by eapply (apart_move m)|]. apply Hr; [done|done|]. by intros [->|]%elem_of_cons.
Qed.
Lemma restoring_more failure failure' todo d :
  (failure' = None -> failure = None) -> restoring failure todo d -> restoring failure' todo d.
Proof. intros Hf (Hb & Ht & Hr). split; [done|]. split; [done|]. intros H. by apply Hr, Hf. Qed.

Lemma applying_step m todo d d' :
  (forall m', m' ∈ m :: todo -> m' ∈ moves) -> m ∉ todo -> applying (m :: todo) d ->
  apart [mv_path m] d d' -> exactly i d' (mv_path m) (mv_target m) -> applying todo d'.
Proof.
  intros Hsub Hni (Hj & Ho & Ht) Ha Hd'. assert (m ∈ moves) as Hm by (apply Hsub; by left).
  split; [by eapply apart_pending|]. split.
  - intros m' Hm'. eapply same_exactly; [|apply Ho; by right].
    eapply (apart_move m); [done|apply Hsub; by right|by intros ->|done].
  - intros m' Hm' Hn. destruct (decide (m' = m)) as [->|Hne]; [done|].
    eapply same_exactly; [by eapply (apart_move m)|]. apply Ht; [done|]. by intros [->|]%elem_of_cons.
Qed.
Lemma applying_tracked todo d m : m ∈ moves -> applying todo d -> tracked i d m.
Proof.
  intros Hm (_ & Ho & Ht). destruct (decide (m ∈ todo)) as [Hin|Hn].
  - eapply exactly_tracked; [by apply Ho|by left].
  - eapply exactly_tracked; [by apply Ht|by right].
Qed.
Lemma applying_between todo d : applying todo d -> between d.
Proof. intros H. split; [apply H|]. intros m Hm. by apply (applying_tracked todo d m). Qed.

(** Where the states lie. *)
Lemma between_consistent d : between d -> consistent d.
Proof. by left. Qed.
Lemma fixed_consistent sel d : sel = mv_original \/ sel = mv_target -> fixed sel d -> consistent d.
Proof.
  intros Hs [Hj Hd]. right. split; [eapply holds_mono; [done|by left]|].
  destruct Hs as [->| ->]; [by left|by right].
Qed.
Lemma all_at_between sel d : sel = mv_original \/ sel = mv_target -> pending d -> all_at sel d -> between d.
Proof.
  intros Hs Hj Hd. split; [done|]. intros m Hm. eapply exactly_holds; [by apply Hd|].
  destruct Hs as [->| ->]; [by left|by right].
Qed.
End States.

(** ** The journal *)
Section Journal.
Variables (i : interruption) (quiet : bool) (reliable : option str).
Variables (to_string : WireJournal -> option string) (moves : list move) (jp : str).
Hypothesis Hapart : jp ∉ mv_path <$> moves.
Hypothesis Hparent : is_Some (parent jp).
Abbreviation wp := (wp (faults quiet reliable)).
Abbreviation pending := (pending i to_string moves jp).
Abbreviation consistent := (consistent i to_string moves jp).
Abbreviation all_at := (all_at i moves).
Abbreviation fixed := (fixed i to_string moves jp).
Abbreviation finished := (finished to_string moves).
Abbreviation journal_text := (journal_text to_string moves).

(** The journal renamed, then synced; the files stay. *)
Lemma journal_change sel d v S :
  holds i d jp S -> all_at sel d ->
  holds i (change_cell jp v d) jp (fun w => w = v \/ S w) /\ all_at sel (change_cell jp v d) /\
  exactly i (settle_cell jp (change_cell jp v d)) jp v /\ all_at sel (settle_cell jp (change_cell jp v d)).
Proof.
  intros Hj Hd. destruct (settle_change i d jp v S Hj) as [Ha He].
  split; [by apply change_holds|]. split; [|split; [done|by eapply apart_all_at]].
  eapply apart_all_at; [done| |done]. apply apart_change, apart_refl.
Qed.

Lemma wp_commit sel C Q d :
  reliable = Some jp -> sel = mv_original \/ sel = mv_target -> pending d -> all_at sel d ->
  (forall d', consistent d' -> C d') -> (forall d', fixed sel d' -> Q (Ok ()) d') -> (forall e, Q (Err e) d) ->
  wp (commit to_string jp (journal moves Pending)) C Q d.
Proof.
  intros Hrel Hs Hj Hd HC HQ HE. assert (C d) as Hc.
  { by eapply HC, between_consistent, all_at_between. }
  assert (forall d', all_at sel d' -> all_or_none i moves d') as all_none
    by (intros d' Hd'; destruct Hs as [->| ->]; [by left|by right]).
  destruct Hj as (p & Hp & Hj). unfold commit. apply wp_try. unfold replace_journal.
  apply wp_try, wp_attempt; [done| |intros; apply HE]. pose proof Hparent as [directory Hpar]. rewrite Hpar.
  change (Build_SetupTransactionJournal _ _ _) with (journal moves CommittedState).
  destruct (serialize_journal to_string (journal moves CommittedState)) as [s|e] eqn:Es; [|apply wp_try, wp_ret, HE].
  apply wp_try, wp_ret, wp_try, wp_attempt; [done| |intros; apply HE].
  apply wp_try, wp_persist; [done| |intros; apply HE].
  assert (journal_text CommittedState (Some s)) as Hs' by by exists s.
  destruct (journal_change sel d (Some s) _ Hj Hd) as (Hj1 & Hd1 & Hj2 & Hd2).
  apply wp_sync; [done| | |done].
  { apply HC. right. split; [|by apply all_none]. eapply holds_mono; [done|]. intros w [->|<-]; [left; by right|by right]. }
  set (d2 := settle_cell _ _) in *. assert (forall d', fixed sel d' -> C d') as HCf.
  { intros d' Hf. eapply HC, fixed_consistent; done. }
  assert (fixed sel d2) as Hf2. { split; [|done]. eapply exactly_holds; [done|by right]. }
  destruct (journal_change sel d2 None _ Hj2 Hd2) as (Hj3 & Hd3 & Hj4 & Hd4).
  assert (fixed sel (change_cell jp None d2)) as Hf3.
  { split; [|done]. eapply holds_mono; [done|]. intros w [->|<-]; [by left|by right]. }
  apply wp_bind, wp_remove_file; [by apply HCf| | |intros; by apply HQ].
  - intros _ _. apply wp_bind, wp_sync; [done|by apply HCf| |intros; by apply HQ].
    apply HQ. split; [|done]. eapply exactly_holds; [done|by left].
  - intros Hn. exfalso. pose proof (exactly_contents _ _ _ _ Hj2). congruence.
Qed.

Lemma wp_remove_journal sel (K : option string -> Prop) C Q v d :
  K None -> exactly i d jp v -> K v -> all_at sel d ->
  (forall d', holds i d' jp K -> all_at sel d' -> C d') ->
  (forall d', exactly i d' jp None -> all_at sel d' -> Q (Ok ()) d') ->
  (quiet = false -> forall e d', holds i d' jp K -> all_at sel d' -> Q (Err e) d') ->
  wp (remove_journal jp) C Q d.
Proof.
  intros HN Hj Hv Hd HC HQ HE. assert (holds i d jp K) as Hh by by eapply exactly_holds.
  destruct (journal_change sel d None _ Hh Hd) as (Hj1 & Hd1 & Hj2 & Hd2).
  assert (holds i (change_cell jp None d) jp K) as Hh1 by (eapply holds_mono; [done|]; by intros w [->|?]).
  unfold remove_journal. apply wp_try, wp_attempt; [by apply HC| |intros; by apply HE].
  apply wp_bind, wp_remove_file; [by apply HC| | |intros; by apply HE].
  - intros _ _. apply wp_sync; [done|by apply HC|by apply HQ|intros; by apply HE].
  - intros Hn. apply HQ; [|done]. pose proof (exactly_contents _ _ _ _ Hj). congruence.
Qed.
End Journal.

(** ** Recovery *)
Section Recovery.
Variables (i : interruption) (quiet : bool) (reliable : option str).
Variables (to_string : WireJournal -> option string) (from_str : string -> option WireJournal).
Variables (content_hash : string -> string) (moves : list move) (root : str).
Abbreviation jp := (transaction_path root).
Hypothesis codec : forall w s, to_string w = Some s -> from_str s = Some w.
Hypothesis Hapart : jp ∉ mv_path <$> moves.
Hypothesis Hnodup : NoDup (mv_path <$> moves).
Hypothesis Hparent : is_Some (parent jp).
Hypothesis Hmovable : forall m, m ∈ moves -> movable content_hash m.
Abbreviation wp := (wp (faults quiet reliable)).
Abbreviation consistent := (consistent i to_string moves jp).
Abbreviation all_at := (all_at i moves).
Abbreviation journal_text := (journal_text to_string moves).
Abbreviation restoring := (restoring i to_string moves jp).
Abbreviation recover := (recover_interrupted_transaction from_str content_hash root).

Lemma deserialize_serialize e : deserialize_entry (serialize_entry e) = Some e.
Proof. by destruct e as [p o [h|]]. Qed.
Lemma of_to_wire j : of_wire (to_wire j) = Some j.
Proof.
  destruct j as [v st es]. unfold of_wire. cbn. assert (mapM deserialize_entry (serialize_entry <$> es) = Some es) as ->; [|done].
  induction es as [|e es IH]; [done|]. cbn. rewrite deserialize_serialize. cbn in IH |- *. by rewrite IH.
Qed.
Lemma read_journal st s : journal_text st (Some s) ->
  from_str s ≫= of_wire = Some (journal moves st) /\ byte_length s <= MAX_SETUP_JOURNAL_BYTES.
Proof.
  intros (s' & Hs & [= <-]). unfold serialize_journal in Hs.
  destruct (to_string (to_wire (journal moves st))) as [t|] eqn:Et; [|done].
  destruct (Z.ltb_spec MAX_SETUP_JOURNAL_BYTES (byte_length t)); [done|]. injection Hs as ->.
  rewrite (codec _ _ Et). split; [|done]. apply of_to_wire.
Qed.

Lemma restoring_start d : sharp i moves jp d -> between i to_string moves jp d -> restoring None moves d.
Proof.
  intros [_ Hs] Hb. split; [done|]. split; [|done]. intros m Hm. destruct (Hs m Hm) as [v Hv].
  eapply exactly_tracked; [done|]. destruct Hb as [_ Hb]. destruct (Hb m Hm) as [Hc _].
  by rewrite (exactly_contents _ _ _ _ Hv) in Hc.
Qed.

Lemma wp_restore_entries C Q todo d :
  (forall m, m ∈ todo -> m ∈ moves) -> NoDup todo -> restoring None todo d ->
  (forall d', between i to_string moves jp d' -> C d') ->
  (forall d', restoring None [] d' -> Q (Ok ()) d') ->
  (quiet = false -> forall e d', between i to_string moves jp d' -> Q (Err e) d') ->
  wp (restore_entries content_hash (move_entry <$> todo)) C Q d.
Proof.
  intros Hsub Hnd Hd HC HQ HE. revert d Hd. induction todo as [|m todo IH]; intros d Hd; [by apply wp_ret, HQ|].
  apply NoDup_cons in Hnd as [Hni Hnd]. assert (m ∈ moves) as Hm by (apply Hsub; by left).
  pose proof Hd as (Hb & Ht & _). rewrite fmap_cons. cbn [restore_entries]. apply wp_try.
  eapply (wp_restore_path i quiet reliable content_hash); [by apply Hmovable|apply Ht; by left| | |].
  - intros d' Ha. by eapply HC, around_between.
  - intros d' Ha He. apply IH; [intros; apply Hsub; by right|done|].
    eapply restoring_step; [done..| |by intros _]. split; [done|]. eapply exactly_holds; [done|by left].
  - intros Hq e d' Ha. apply HE; [done|]. by eapply around_between.
Qed.

(** Reading the journal, then what it says. *)
Lemma wp_recover v C Q d :
  exactly i d jp v -> v = None \/ (exists st, journal_text st v) -> C d ->
  (v = None -> Q (Ok ()) d) -> (quiet = false -> forall e, Q (Err e) d) ->
  (journal_text CommittedState v -> wp (remove_journal jp) C Q d) ->
  (journal_text Pending v ->
   wp (prog_try (restore_entries content_hash (move_entry <$> moves)) (fun _ => remove_journal jp)) C Q d) ->
  wp recover C Q d.
Proof.
  intros Hj Hv Hc HN HE Hcom Hpen. pose proof (exactly_contents _ _ _ _ Hj) as Hcon.
  unfold recover_interrupted_transaction. apply wp_try, wp_read; [done| | |intros; by apply HE].
  { intros s Hs. destruct Hv as [->|[st Hv]]; [congruence|]. assert (v = Some s) as -> by congruence.
    by apply (read_journal st). }
  rewrite Hcon. destruct v as [s|]; [|by apply HN]. destruct Hv as [?|[st Hv]]; [done|].
  destruct (read_journal st s Hv) as [-> _]. cbn [negb Z.eqb journal_schema_version journal journal_state journal_entries].
  destruct st; [by apply Hpen|by apply Hcom].
Qed.
End Recovery.
