(* ===== verification/SetupCrash.v ===== *)
(** * Interrupted setups

    The program of a plan and the recovery after it, through the states of
    [SetupAtomic.v], and the theorems on what any number of interruptions leave. *)

From S2P Require Import Prelude Chars Store Paths StdPath CrashFs SetupTransaction SetupAtomic.
Open Scope Z_scope.
Open Scope store_scope.
Open Scope prog_scope.

(** ** Recovery from any state *)
Section Recovering.
Variables (i : interruption) (quiet : bool).
Variables (to_string : WireJournal -> option string) (from_str : string -> option WireJournal).
Variables (content_hash : string -> string) (moves : list move) (root : str).
Abbreviation jp := (transaction_path root).
Hypothesis codec : forall w s, to_string w = Some s -> from_str s = Some w.
Hypothesis Hapart : jp ∉ mv_path <$> moves.
Hypothesis Hnodup : NoDup (mv_path <$> moves).
Hypothesis Hparent : is_Some (parent jp).
Hypothesis Hmovable : forall m, m ∈ moves -> movable content_hash m.
Abbreviation wp := (wp (faults quiet None)).
Abbreviation consistent := (consistent i to_string moves jp).
Abbreviation between := (between i to_string moves jp).
Abbreviation all_or_none := (all_or_none i moves).
Abbreviation fixed := (fixed i to_string moves jp).
Abbreviation journal_text := (journal_text to_string moves).
Abbreviation recover := (recover_interrupted_transaction from_str content_hash root).

Definition recovered (P : disk -> Prop) (bad : disk -> Prop) (r : result ()) (d : disk) : Prop :=
  match r with
  | Ok _ => exactly i d jp None /\ P d
  | Err _ => quiet = false /\ bad d
  end.

Lemma journal_texts v : journal_text Pending v -> journal_text CommittedState v -> False.
Proof.
  intros H1 H2. destruct v as [s|]; [|destruct H1 as (? & _ & [=])].
  destruct (read_journal _ from_str _ codec _ _ H1) as [E1 _].
  destruct (read_journal _ from_str _ codec _ _ H2) as [E2 _]. by rewrite E1 in E2.
Qed.

Lemma settled_consistent (sel : move -> option string) d :
  sel = mv_original \/ sel = mv_target ->
  holds i d jp (fun v => finished to_string moves v \/ journal_text Pending v) -> all_at i moves sel d -> consistent d.
Proof. intros Hs Hj Hd. right. split; [done|]. destruct Hs as [->| ->]; [by left|by right]. Qed.

(** A pending journal is undone. *)
Lemma wp_undo d :
  sharp i moves jp d -> between d ->
  wp (prog_try (restore_entries content_hash (move_entry <$> moves)) (fun _ => remove_journal jp))
    consistent (recovered all_or_none consistent) d.
Proof.
  intros Hs Hb. apply wp_try, (wp_restore_entries i quiet None to_string content_hash moves root);
    [done|done|done|done|by apply NoDup_fmap_1 in Hnodup|by apply restoring_start| | |].
  - by left.
  - intros d' (Hb' & _ & Hr). pose proof Hb' as [(s & Hs' & Hj) _].
    apply (wp_remove_journal i quiet None moves jp Hapart Hparent mv_original
      (fun v => finished to_string moves v \/ journal_text Pending v)) with (v := Some s);
      [by left; left|done|by right|by intros m Hm; apply Hr, not_elem_of_nil| | |].
    + intros d2 Hj2 Hd2. apply (settled_consistent mv_original); [by left|done..].
    + intros d2 Hj2 Hd2. split; [done|by left].
    + intros Hq e d2 Hj2 Hd2. split; [done|]. apply (settled_consistent mv_original); [by left|done..].
  - intros Hq e d' Hb'. split; [done|by left].
Qed.

Lemma wp_recover_consistent d :
  sharp i moves jp d -> consistent d -> wp recover consistent (recovered all_or_none consistent) d.
Proof.
  intros Hs [Hb|[Hj Hd]].
  - pose proof Hb as [(s & Hs' & Hj) _].
    apply (wp_recover i quiet None to_string from_str content_hash moves root codec (Some s));
      [done|right; by eexists|by left|done| | |by intros _; apply wp_undo].
    + intros Hq e. split; [done|by left].
    + intros Hc. by destruct (journal_texts _ Hs' Hc).
  - destruct Hs as [(v & Hv) Hs]. assert (finished to_string moves v \/ journal_text Pending v) as Hfv.
    { destruct Hj as [Hj _]. by rewrite (exactly_contents _ _ _ _ Hv) in Hj. }
    assert (exists sel, (sel = mv_original \/ sel = mv_target) /\ all_at i moves sel d) as (sel & Hsel & Hat).
    { destruct Hd as [Hd|Hd]; [exists mv_original|exists mv_target]; auto. }
    assert (forall d', all_at i moves sel d' -> all_or_none d') as Hall.
    { intros d' Hd'. destruct Hsel as [->| ->]; [by left|by right]. }
    apply (wp_recover i quiet None to_string from_str content_hash moves root codec v);
      [done| |by apply (settled_consistent sel)| | | |].
    + destruct Hfv as [[->|?]|?]; [by left|right; by eexists..].
    + intros ->. split; [done|by apply Hall].
    + intros Hq e. split; [done|by apply (settled_consistent sel)].
    + intros Hc. apply (wp_remove_journal i quiet None moves jp Hapart Hparent sel
        (fun v => finished to_string moves v \/ journal_text Pending v)) with (v := v);
        [by left; left|done|done|done| | |].
      * intros d2 Hj2 Hd2. by apply (settled_consistent sel).
      * intros d2 Hj2 Hd2. split; [done|by apply Hall].
      * intros Hq e d2 Hj2 Hd2. split; [done|by apply (settled_consistent sel)].
    + intros Hp. apply wp_undo; [by split; [exists v|]|]. apply (all_at_between i to_string moves jp sel d Hsel); [|done].
      destruct v as [s|]; [by exists s|destruct Hp as (? & _ & [=])].
Qed.

(** A transaction that is over stays over. *)
Lemma wp_recover_fixed sel d :
  sharp i moves jp d -> fixed sel d -> wp recover (fixed sel) (recovered (all_at i moves sel) (fixed sel)) d.
Proof.
  intros [(v & Hv) _] Hf. pose proof Hf as [Hj Hat].
  assert (finished to_string moves v) as Hfv.
  { destruct Hj as [Hj _]. by rewrite (exactly_contents _ _ _ _ Hv) in Hj. }
  apply (wp_recover i quiet None to_string from_str content_hash moves root codec v); [done| |done| | | |].
  - destruct Hfv as [->|?]; [by left|right; by eexists].
  - intros ->. by split.
  - by intros Hq e.
  - intros _. apply (wp_remove_journal i quiet None moves jp Hapart Hparent sel (finished to_string moves)) with (v := v);
      [by left|done|done|done| | |].
    + by intros d2 Hj2 Hd2.
    + by intros d2 Hj2 Hd2.
    + by intros Hq e d2 Hj2 Hd2.
  - intros Hp. exfalso. destruct Hfv as [->|Hc]; [destruct Hp as (? & _ & [=])|by eapply journal_texts].
Qed.

(** What an interruption leaves. *)
Lemma restart_sharp d d' : restart i d d' -> sharp i moves jp d'.
Proof.
  intros Hr. assert (forall path, exists v, exactly i d' path v) as H; [|by split].
  intros path. destruct (restart_exactly i d d' path (fun _ => True)) as (v & _ & Hv); [by repeat split|done|by exists v].
Qed.
Lemma restart_holds d d' path S : holds i d path S -> restart i d d' -> holds i d' path S.
Proof. intros Hd Hr. destruct (restart_exactly i d d' path S Hd Hr) as (v & HS & Hv). by eapply exactly_holds. Qed.
Lemma restart_same d d' path v : exactly i d path v -> restart i d d' -> exactly i d' path v.
Proof. apply restart_holds. Qed.
Lemma restart_all_at sel d d' : all_at i moves sel d -> restart i d d' -> all_at i moves sel d'.
Proof. intros Hd Hr m Hm. eapply restart_same; [by apply Hd|done]. Qed.
Lemma restart_fixed sel d d' : fixed sel d -> restart i d d' -> fixed sel d'.
Proof. intros [Hj Hd] Hr. split; [by eapply restart_holds|by eapply restart_all_at]. Qed.
Lemma restart_consistent d d' : consistent d -> restart i d d' -> consistent d'.
Proof.
  intros [[(s & Hs & Hj) Hd]|[Hj Hd]] Hr.
  - left. split; [exists s; split; [done|by eapply restart_same]|]. intros m Hm. eapply restart_holds; [by apply Hd|done].
  - right. split; [by eapply restart_holds|]. destruct Hd as [Hd|Hd]; [left|right]; by eapply restart_all_at.
Qed.
End Recovering.

(** ** The loops of edits *)
Section Applying.
Variables (i : interruption) (to_string : WireJournal -> option string).
Variables (content_hash : string -> string) (moves : list move) (root : str).
Abbreviation jp := (transaction_path root).
Hypothesis Hapart : jp ∉ mv_path <$> moves.
Hypothesis Hnodup : NoDup (mv_path <$> moves).
Hypothesis Hparent : is_Some (parent jp).
Abbreviation wp := (wp (faults false (Some jp))).
Abbreviation consistent := (consistent i to_string moves jp).
Abbreviation between := (between i to_string moves jp).
Abbreviation restoring := (restoring i to_string moves jp).
Abbreviation applying := (applying i to_string moves jp).
Abbreviation fixed := (fixed i to_string moves jp).
Abbreviation applies := (applies i false (Some jp)).
Abbreviation restores := (restores i false (Some jp)).

(** A program that leaves the files alone. *)
Definition idle (p : prog (result ())) : Prop := forall (C : disk -> Prop) (Q : result () -> disk -> Prop) d,
  C d -> Q (Ok ()) d -> (forall e, Q (Err e) d) -> wp p C Q d.

Lemma restoring_same failure A B d : (forall m, m ∈ A <-> m ∈ B) -> restoring failure A d -> restoring failure B d.
Proof.
  intros Heq (Hb & Ht & Hr). split; [done|]. split; [intros m Hm; by apply Ht, Heq|].
  intros Hf m Hm Hn. apply Hr; [done|done|]. by intros ?%Heq.
Qed.
Lemma applying_restoring A B d : moves = A ++ B -> applying B d -> restoring None A d.
Proof.
  intros Hms Hd. split; [by eapply applying_between|]. split.
  - intros m Hm. eapply applying_tracked; [|done]. rewrite Hms. by apply elem_of_app; left.
  - intros _ m Hm Hn. destruct Hd as (_ & Ho & _). apply Ho. rewrite Hms in Hm. by apply elem_of_app in Hm as [?|?].
Qed.
(** The edit that fails is restored with those before it. *)
Lemma attempted_restoring A m B d d' : moves = A ++ m :: B -> applying (m :: B) d ->
  apart [mv_path m] d d' -> tracked i d' m -> restoring None (A ++ [m]) d'.
Proof.
  intros Hms Hd Ha Ht. assert (Hm : m ∈ moves) by (rewrite Hms, elem_of_app; right; by left).
  assert (Hin : forall m', m' ∈ moves -> m' <> m -> cell_of d' (mv_path m') = cell_of d (mv_path m')).
  { intros m' Hm' Hne. by eapply (apart_move moves Hnodup m). }
  split; [|split].
  - eapply around_between; [done|done|done| |split; [done|apply Ht]]. by eapply applying_between.
  - intros m' Hm'. destruct (decide (m' = m)) as [->|Hne]; [done|].
    assert (m' ∈ moves) as Hm2.
    { rewrite Hms. apply elem_of_app in Hm' as [?|?%list_elem_of_singleton]; [apply elem_of_app; by left|done]. }
    eapply same_tracked; [by apply Hin|by eapply applying_tracked].
  - intros _ m' Hm' Hn. assert (m' <> m) as Hne.
    { intros ->. apply Hn, elem_of_app. right. by left. }
    eapply same_exactly; [by apply Hin|]. destruct Hd as (_ & Ho & _). apply Ho.
    rewrite Hms, elem_of_app in Hm'. destruct Hm' as [?|?]; [|done]. exfalso. apply Hn, elem_of_app. by left.
Qed.

Section Loop.
Context {E : Type}.
Variables (mv : E -> option move) (apply restore : E -> prog (result ())) (changes : E -> bool).

Definition edits_file (e : E) : Prop :=
  changes e = bool_decide (is_Some (mv e)) /\
  match mv e with
  | Some m => applies m (apply e) /\ restores m (restore e)
  | None => idle (apply e) /\ idle (restore e)
  end.

Lemma wp_apply_all fail before more C Q (applied todo : list E) d :
  (forall e, e ∈ todo -> edits_file e) ->
  moves = (before ++ omap mv applied) ++ omap mv todo ++ more ->
  applying (omap mv todo ++ more) d ->
  (forall d', consistent d' -> C d') ->
  (forall applied' d', (forall e, e ∈ applied' -> e ∈ applied ++ todo) ->
     omap mv applied' = omap mv applied ++ omap mv todo -> applying more d' -> Q (inl applied') d') ->
  (forall applied' error d', (forall e, e ∈ applied' -> e ∈ applied ++ todo) ->
     (forall m, m ∈ before ++ omap mv applied' -> m ∈ moves) -> NoDup (before ++ omap mv applied') ->
     restoring None (before ++ omap mv applied') d' -> wp (fail applied' error) C (fun o => Q (inr o)) d') ->
  wp (apply_all apply changes fail applied todo) C Q d.
Proof.
  intros Hed Hms Hd HC HQ HF. assert (NoDup moves) as Hnd by by eapply NoDup_fmap_1.
  revert applied d Hed Hms Hd HQ HF. induction todo as [|e todo IH]; intros applied d Hed Hms Hd HQ HF.
  { apply wp_ret, HQ; [by rewrite app_nil_r|by rewrite app_nil_r|done]. }
  destruct (Hed e) as [Hch Hmv]; [by left|]. cbn [apply_all].
  assert (forall x, x ∈ (applied ++ [e]) ++ todo -> x ∈ applied ++ e :: todo) as Hsub by (intros x; by rewrite <- app_assoc).
  apply wp_bind. rewrite Hch. destruct (mv e) as [m|] eqn:Em.
  - change (omap mv (e :: todo)) with (match mv e with Some y => y :: omap mv todo | None => omap mv todo end) in *.
    rewrite Em in *. rewrite bool_decide_eq_true_2 by by eexists.
    assert (omap mv (applied ++ [e]) = omap mv applied ++ [m]) as Hap by (rewrite omap_app; cbn; by rewrite Em).
    assert (m ∈ moves) as Hm by (rewrite Hms, elem_of_app; right; by left).
    assert ((m ∉ omap mv todo ++ more) /\ (forall m', m' ∈ m :: omap mv todo ++ more -> m' ∈ moves)) as [Hni Hin].
    { rewrite Hms in Hnd. apply NoDup_app in Hnd as (_ & _ & Hnd). apply NoDup_cons in Hnd as [? _]. split; [done|].
      intros m' Hm'. rewrite Hms, elem_of_app. by right. }
    destruct Hmv as [Ha _]. apply Ha.
    + apply Hd. by left.
    + intros d' Har. by eapply HC, between_consistent, around_between, Har; [done|done|done|eapply applying_between].
    + intros d' Har He. apply IH.
      * intros x Hx. apply Hed. by right.
      * rewrite Hap, Hms, <- !app_assoc. done.
      * by eapply applying_step.
      * intros a d2 Ha2 Hom. apply HQ; [by intros x Hx; apply Hsub, Ha2|]. by rewrite Hom, Hap, <- app_assoc.
      * intros a err d2 Ha2. apply HF. by intros x Hx; apply Hsub, Ha2.
    + intros err d' Har Htr. apply wp_bind. eapply wp_mono; [apply HF with (applied' := applied ++ [e])|done|by intros].
      * intros x Hx. apply Hsub, elem_of_app. by left.
      * intros m'. rewrite Hap, app_assoc, elem_of_app, Hms, list_elem_of_singleton.
        intros [?| ->]; apply elem_of_app; [by left|right; by left].
      * rewrite Hap, app_assoc. eapply (sublist_NoDup _ moves); [done|]. rewrite Hms. apply sublist_app; [done|].
        apply sublist_skip, sublist_nil_l.
      * rewrite Hap, app_assoc. by eapply attempted_restoring.
  - change (omap mv (e :: todo)) with (match mv e with Some y => y :: omap mv todo | None => omap mv todo end) in *.
    rewrite Em in *. rewrite bool_decide_eq_false_2 by by intros [? ?].
    destruct Hmv as [Ha _]. assert (consistent d) as Hc by by eapply between_consistent, applying_between.
    assert (forall x, x ∈ applied ++ todo -> x ∈ applied ++ e :: todo) as Hsub'.
    { intros x. rewrite !elem_of_app. intros [?|?]; [by left|right; by right]. }
    apply Ha; [by apply HC| |].
    + apply IH; [intros x Hx; apply Hed; by right|done|done| |].
      * intros a d2 Ha2. apply HQ. by intros x Hx; apply Hsub', Ha2.
      * intros a err d2 Ha2. apply HF. by intros x Hx; apply Hsub', Ha2.
    + intros err. apply wp_bind. eapply wp_mono; [apply HF with (applied' := applied)|done|by intros].
      * intros x Hx. apply elem_of_app. by left.
      * intros m'. rewrite Hms, !elem_of_app. tauto.
      * eapply (sublist_NoDup _ moves); [done|]. rewrite Hms. by apply sublist_inserts_r.
      * by eapply applying_restoring.
Qed.

Lemma wp_restore_all C Q (l : list E) failure more d :
  (forall e, e ∈ l -> edits_file e) -> (forall m, m ∈ omap mv l ++ more -> m ∈ moves) -> NoDup (omap mv l ++ more) ->
  restoring failure (omap mv l ++ more) d -> (forall d', between d' -> C d') ->
  (forall failure' d', restoring failure' more d' -> Q failure' d') ->
  wp (restore_all restore failure l) C Q d.
Proof.
  intros Hed Hsub Hnd Hd HC HQ. revert failure d Hed Hsub Hnd Hd. induction l as [|e l IH]; intros failure d Hed Hsub Hnd Hd;
    [by apply wp_ret, HQ|].
  destruct (Hed e) as [_ Hmv]; [by left|]. cbn [restore_all]. apply wp_bind.
  change (omap mv (e :: l)) with (match mv e with Some y => y :: omap mv l | None => omap mv l end) in *.
  assert (forall x, x ∈ l -> edits_file x) as Hed' by (intros x Hx; apply Hed; by right).
  destruct (mv e) as [m|].
  - apply NoDup_cons in Hnd as [Hni Hnd]. pose proof Hd as (Hb & Ht & _).
    assert (m ∈ moves) as Hm by (apply Hsub; by left).
    assert (forall m', m' ∈ omap mv l ++ more -> m' ∈ moves) as Hsub' by (intros; apply Hsub; by right).
    destruct Hmv as [_ Hr]. apply Hr.
    + apply Ht. by left.
    + intros d' Ha. by eapply HC, around_between.
    + intros d' Ha He. apply IH; [done..|]. eapply restoring_step; [done|done|done|done|done| |by intros _].
      split; [done|]. eapply exactly_holds; [done|by left].
    + intros err d' Ha. apply IH; [done..|]. eapply restoring_step; [done|done|done|done| |done|by destruct failure].
      eapply restoring_more; [|done]. by destruct failure.
  - destruct Hmv as [_ Hr]. apply Hr; [by apply HC, Hd|by apply IH|].
    intros err. apply IH; [done..|]. eapply restoring_more; [|done]. by destruct failure.
Qed.
End Loop.
End Applying.

(** ** A plan *)
Section Plan.
Variables (i : interruption) (to_string : WireJournal -> option string).
Variables (content_hash : string -> string) (plan : ResolvedSetupPlan).
Abbreviation root := (transaction_root plan).
Abbreviation jp := (transaction_path root).
Abbreviation moves := (plan_moves content_hash plan).
Abbreviation wp := (wp (faults false (Some jp))).
Abbreviation consistent := (consistent i to_string moves jp).
Abbreviation restoring := (restoring i to_string moves jp).
Abbreviation applying := (applying i to_string moves jp).
Abbreviation fixed := (fixed i to_string moves jp).

(** What a plan made for these files promises. *)
Record well_planned : Prop := {
  one_move_each : NoDup (mv_path <$> moves);
  journal_apart : jp ∉ mv_path <$> moves;
  journal_directory : is_Some (parent jp);
  all_movable : forall m, m ∈ moves -> movable content_hash m
}.
Hypothesis Hplan : well_planned.

Lemma idle_ret r : idle root (Ret r).
Proof. intros C Q d _ HO HE. apply wp_ret. by destruct r as [[]|]. Qed.
Lemma idle_read path (k : option string -> prog (result ())) :
  (forall v, idle root (k v)) -> forall C Q d, C d -> Q (Ok ()) d -> (forall e : error, Q (Err e) d) ->
  wp (prog_try (read_optional path) k) C Q d.
Proof.
  intros Hk C Q d HC HO HE. apply wp_try, wp_call; [done|]. intros fault _. cbn.
  destruct fault; [by apply HE|]. destruct (contents_at d path) as [c|]; [|by apply Hk].
  destruct (_ <? _); [by apply HE|by apply Hk].
Qed.

Lemma client_edits_file e : e ∈ edits plan ->
  edits_file i root (client_move content_hash) apply_edit (restore_edit content_hash) client_changes e.
Proof.
  intros He. split.
  { unfold client_changes, client_move. by destruct (edit_updated e). }
  destruct (client_move content_hash e) as [m|] eqn:Em.
  - assert (m ∈ moves) as Hm.
    { unfold plan_moves. apply elem_of_app. left. apply list_elem_of_omap. by exists e. }
    pose proof (all_movable Hplan m Hm) as Hmov. unfold client_move in Em.
    destruct (edit_updated e) as [updated|] eqn:Eu; [|done]. cbn in Em. injection Em as <-. split.
    + intros C Q d Hd HC HQ HE. unfold apply_edit. rewrite Eu. apply wp_try.
      apply (wp_read_original i false (Some jp) content_hash _ Hmov);
        [done|apply HC, around_here; eapply exactly_holds; [done|by left]| |].
      * cbn [mv_original]. rewrite bool_decide_eq_true_2 by done. cbn [negb].
        by apply (write_applies i false (Some jp) content_hash _ Hmov).
      * intros err. apply HE; [apply apart_refl|]. eapply exactly_tracked; [done|by left].
    + intros C Q d Hd HC HQ HE. unfold restore_edit. rewrite Eu.
      by apply (wp_restore_path i false (Some jp) content_hash _ Hmov).
  - unfold client_move in Em. destruct (edit_updated e) as [updated|] eqn:Eu; [done|].
    unfold apply_edit, restore_edit. rewrite Eu. split; [|apply idle_ret].
    intros C Q d. apply idle_read. intros v. destruct (negb _); apply idle_ret.
Qed.

(** The edits whose update can be recorded. *)
Definition recorded (e : PlannedDiscoveryEdit) : Prop :=
  discovery_changes e = bool_decide (is_Some (discovery_move content_hash e)).

Lemma discovery_edits_file e : e ∈ discovery_edits plan -> recorded e ->
  edits_file i root (discovery_move content_hash) apply_discovery_edit (restore_discovery_edit content_hash)
    discovery_changes e.
Proof.
  intros He Hr. split; [done|]. unfold recorded in Hr.
  destruct (discovery_move content_hash e) as [m|] eqn:Em.
  - assert (m ∈ moves) as Hm.
    { unfold plan_moves. apply elem_of_app. right. apply list_elem_of_omap. by exists e. }
    pose proof (all_movable Hplan m Hm) as Hmov. unfold discovery_move in Em.
    split; intros C Q d Hd HC HQ HE.
    + unfold apply_discovery_edit. apply wp_try.
      assert (mv_path m = discovery_path (discovery_public e) /\ mv_original m = discovery_original e) as [Hp Ho].
      { destruct (discovery_action _); try done; [destruct (discovery_updated e); [|done]..|]; by injection Em as <-. }
      rewrite <- Hp. apply (wp_read_original i false (Some jp) content_hash _ Hmov);
        [done|apply HC, around_here; eapply exactly_holds; [done|by left]| |].
      * rewrite Ho. rewrite bool_decide_eq_true_2 by done. cbn [negb]. rewrite <- Ho.
        destruct (discovery_action _); try done;
          [destruct (discovery_updated e) as [u|]; [|done]; apply (write_applies i false (Some jp) content_hash _ Hmov)..
          |apply (remove_applies i false (Some jp) content_hash _ Hmov)]; try done; by injection Em as <-.
      * intros err. apply HE; [apply apart_refl|]. eapply exactly_tracked; [done|by left].
    + unfold restore_discovery_edit.
      destruct (discovery_action _); try done;
        [destruct (discovery_updated e) as [u|]; [|done]..|]; injection Em as <-;
        by apply (wp_restore_path i false (Some jp) content_hash _ Hmov).
  - rewrite bool_decide_eq_false_2 in Hr by by intros [? ?]. unfold discovery_changes in Hr.
    unfold apply_discovery_edit, restore_discovery_edit.
    destruct (discovery_action _); try done; (split; [|apply idle_ret]).
    all: intros C Q d; apply idle_read; intros v; destruct (negb _); apply idle_ret.
Qed.

(** *** The rollback *)
Lemma elem_of_rev_iff {A} (x : A) l : (x ∈ rev l) <-> (x ∈ l).
Proof. by rewrite !list_elem_of_In, <- in_rev. Qed.
Lemma wp_rollback applied applied_discovery C Q d :
  (forall e, e ∈ applied -> e ∈ edits plan) ->
  (forall e, e ∈ applied_discovery -> e ∈ discovery_edits plan /\ recorded e) ->
  (forall m, m ∈ omap (client_move content_hash) applied ++ omap (discovery_move content_hash) applied_discovery -> m ∈ moves) ->
  NoDup (omap (client_move content_hash) applied ++ omap (discovery_move content_hash) applied_discovery) ->
  restoring None (omap (client_move content_hash) applied ++ omap (discovery_move content_hash) applied_discovery) d ->
  (forall d', consistent d' -> C d') ->
  (forall d', fixed mv_original d' -> Q (Ok ()) d') -> (forall e d', consistent d' -> Q (Err e) d') ->
  wp (rollback_setup to_string content_hash root applied applied_discovery (Some (journal moves Pending))) C Q d.
Proof.
  intros Ha Had Hsub Hnd Hd HC HQ HE.
  assert (forall {A B} (f : A -> option B) l x, (x ∈ omap f (rev l)) <-> (x ∈ omap f l)) as Hrev.
  { intros A B f l x. rewrite !list_elem_of_omap. by setoid_rewrite elem_of_rev_iff. }
  assert (forall {A B} (f : A -> option B) l, NoDup (omap f l) -> NoDup (omap f (rev l))) as Hndr.
  { intros A B f l. by rewrite <- (Permutation_rev l). }
  apply NoDup_app in Hnd as (Hnd1 & Hdis & Hnd2). pose proof (one_move_each Hplan) as Hone.
  unfold rollback_setup. apply wp_bind.
  apply (wp_restore_all i to_string moves root (journal_apart Hplan) Hone (discovery_move content_hash)
    apply_discovery_edit (restore_discovery_edit content_hash) discovery_changes C _ (rev applied_discovery) None
    (omap (client_move content_hash) (rev applied) ++ [])).
  - intros e He. rewrite elem_of_rev_iff in He. destruct (Had e He). by apply (discovery_edits_file e).
  - intros m. rewrite app_nil_r, elem_of_app, !Hrev. intros Hm. apply Hsub, elem_of_app. tauto.
  - rewrite app_nil_r. apply NoDup_app. split; [by apply Hndr|]. split; [|by apply Hndr].
    intros x. rewrite !Hrev. intros Hx Hx2. by apply (Hdis x).
  - eapply restoring_same; [|done]. intros m. rewrite app_nil_r, !elem_of_app, !Hrev. tauto.
  - intros d' Hb. by apply HC, between_consistent.
  - intros failure d1 Hd1. apply wp_bind.
    apply (wp_restore_all i to_string moves root (journal_apart Hplan) Hone (client_move content_hash)
      apply_edit (restore_edit content_hash) client_changes C _ (rev applied) failure []); [| | |done| |].
    + intros e He. rewrite elem_of_rev_iff in He. by apply (client_edits_file e), Ha.
    + intros m. rewrite app_nil_r, Hrev. intros Hm. apply Hsub, elem_of_app. by left.
    + rewrite app_nil_r. by apply Hndr.
    + intros d' Hb. by apply HC, between_consistent.
    + intros failure' d2 (Hb & _ & Hr). destruct failure' as [e|]; [by apply wp_ret, HE, between_consistent|].
      apply (wp_commit i false (Some jp) to_string moves jp (journal_apart Hplan) (journal_directory Hplan) mv_original);
        [done|by left|apply Hb|by intros m Hm; apply Hr, not_elem_of_nil|done|done|].
      intros e. by apply HE, between_consistent.
Qed.

(** *** The beginning *)
Lemma client_entries_moves l : client_entries content_hash l = move_entry <$> omap (client_move content_hash) l.
Proof.
  induction l as [|e l IH]; [done|]. unfold client_entries in *. cbn. rewrite IH.
  assert (Hm : client_move content_hash e = (updated ← edit_updated e;
    Some {| mv_path := edit_path e; mv_original := edit_original e;
            mv_target := written (edit_original e) updated; mv_update := UpdatePresent (content_hash updated) |})) by done.
  rewrite Hm. clear Hm.
  by destruct (edit_updated e).
Qed.
Lemma discovery_entries_moves l es : discovery_entries content_hash l = Ok es ->
  es = move_entry <$> omap (discovery_move content_hash) l /\ (forall e, e ∈ l -> recorded e).
Proof.
  revert es. induction l as [|e l IH]; intros es; cbn [discovery_entries].
  { intros [= <-]. split; [done|]. by intros e ?%not_elem_of_nil. }
  destruct (discovery_update content_hash e) as [update|] eqn:Eu; [|done]. cbn [result_bind].
  destruct (discovery_entries content_hash l) as [rest|] eqn:Er; [|done]. cbn [result_bind]. intros [= <-].
  destruct (IH rest eq_refl) as [-> Hrec].
  assert (recorded e /\ match update with
                        | Some u => option_map move_entry (discovery_move content_hash e) =
                            Some {| entry_path := discovery_path (discovery_public e);
                                    entry_original := discovery_original e; entry_updated := u |}
                        | None => discovery_move content_hash e = None
                        end) as [Hr Hm].
  { unfold discovery_update in Eu. unfold recorded, discovery_changes, discovery_move.
    destruct (discovery_action _); [destruct (discovery_updated e); [|done]..| | |]; by injection Eu as <-. }
  split.
  - assert (Ho : omap (discovery_move content_hash) (e :: l) =
      match discovery_move content_hash e with
      | Some m => m :: omap (discovery_move content_hash) l
      | None => omap (discovery_move content_hash) l
      end) by done.
    rewrite Ho. destruct (discovery_move content_hash e) as [m|]; destruct update as [u|]; try done.
    cbn [option_map] in Hm. rewrite fmap_cons. by replace (move_entry m) with
      {| entry_path := discovery_path (discovery_public e); entry_original := discovery_original e;
         entry_updated := u |} by congruence.
  - intros x [->|Hx]%elem_of_cons; [done|by apply Hrec].
Qed.

Lemma wp_begin C Q d :
  exactly i d jp None -> all_at i moves mv_original d -> (forall d', consistent d' -> C d') ->
  (moves = [] -> (forall e, e ∈ discovery_edits plan -> recorded e) -> Q (Ok None) d) ->
  ((forall e, e ∈ discovery_edits plan -> recorded e) ->
   forall d', applying moves d' -> Q (Ok (Some (journal moves Pending))) d') ->
  (forall e, Q (Err e) d) ->
  wp (begin_setup_transaction to_string content_hash plan) C Q d.
Proof.
  intros Hj Hd HC HN HQ HE. pose proof (journal_apart Hplan) as Hap.
  assert (C d) as Hc.
  { apply HC. right. split; [|by left]. eapply exactly_holds; [done|by left; left]. }
  unfold begin_setup_transaction. apply wp_try.
  destruct (discovery_entries content_hash (discovery_edits plan)) as [es|e] eqn:Ee; [|apply wp_ret, HE].
  apply discovery_entries_moves in Ee as [-> Hrec]. apply wp_ret. rewrite client_entries_moves, <- fmap_app.
  change (omap _ (edits plan) ++ omap _ (discovery_edits plan)) with moves.
  destruct (move_entry <$> moves) as [|entry rest] eqn:Em; [by apply wp_ret, HN; [apply fmap_nil_inv in Em|]|].
  rewrite <- Em. clear entry rest Em. pose proof (exactly_contents _ _ _ _ Hj) as Hcon.
  apply wp_try, wp_attempt; [done| |intros; apply HE]. apply wp_bind, wp_exists; [done|].
  rewrite Hcon, bool_decide_eq_false_2 by by intros [? ?].
  apply wp_try. change (Build_SetupTransactionJournal _ _ _) with (journal moves Pending).
  destruct (serialize_journal to_string (journal moves Pending)) as [s|e] eqn:Es; [|apply wp_ret, HE].
  apply wp_ret, wp_try, wp_attempt; [done| |intros; apply HE].
  apply wp_bind, wp_call; [done|]. intros fault _. cbn [handle]. destruct fault; [apply wp_ret, HE|].
  rewrite Hcon. apply wp_try.
  destruct (journal_change i moves jp Hap mv_original d (Some s) _ Hj Hd) as (Hj1 & Hd1 & Hj2 & Hd2).
  apply wp_sync; [apply (journal_directory Hplan)| | |by intros].
  - apply HC. right. split; [|by left]. eapply holds_mono; [done|].
    intros w [->|<-]; [right; by exists s|by left; left].
  - apply wp_ret, HQ; [done|]. split; [exists s; split; [by exists s|done]|]. split; [done|]. by intros m Hm ?.
Qed.

(** *** The transaction *)
Definition outcome_holds (o : SetupApplyOutcome) (d : disk) : Prop :=
  match outcome_error o with
  | None => fixed mv_target d
  | Some (NotApplied _) | Some (RolledBack _) => fixed mv_original d
  | Some (RecoveryRequired _ _) => consistent d
  end.

Lemma wp_roll_back applied applied_discovery error C d :
  (forall e, e ∈ applied -> e ∈ edits plan) ->
  (forall e, e ∈ applied_discovery -> e ∈ discovery_edits plan /\ recorded e) ->
  (forall m, m ∈ omap (client_move content_hash) applied ++ omap (discovery_move content_hash) applied_discovery -> m ∈ moves) ->
  NoDup (omap (client_move content_hash) applied ++ omap (discovery_move content_hash) applied_discovery) ->
  restoring None (omap (client_move content_hash) applied ++ omap (discovery_move content_hash) applied_discovery) d ->
  (forall d', consistent d' -> C d') ->
  wp (roll_back to_string content_hash plan (Some (journal moves Pending)) applied applied_discovery error) C outcome_holds d.
Proof.
  intros Ha Had Hsub Hnd Hd HC. apply wp_bind, wp_rollback; [done..| |].
  - intros d' Hf. by apply wp_ret.
  - intros e d' Hf. by apply wp_ret.
Qed.

Lemma wp_apply_transaction d :
  (forall e, e ∈ discovery_edits plan -> recorded e) -> applying moves d ->
  wp (apply_transaction to_string content_hash plan (Some (journal moves Pending))) consistent outcome_holds d.
Proof.
  intros Hrec Hd. pose proof (journal_apart Hplan) as Hap. pose proof (one_move_each Hplan) as Hone.
  set (cm := client_move content_hash). set (dm := discovery_move content_hash).
  unfold apply_transaction. apply wp_bind.
  apply (wp_apply_all i to_string moves root Hap Hone cm apply_edit (restore_edit content_hash) client_changes _
    [] (omap dm (discovery_edits plan))); [by apply client_edits_file|done|done|done| |].
  2:{ intros applied error d' Hin Hsub Hnd Hr. eapply wp_mono; [apply wp_roll_back with (applied := applied)|done|by intros].
      - intros e He. by apply Hin.
      - by intros e ?%not_elem_of_nil.
      - intros m. rewrite app_nil_r. by apply Hsub.
      - by rewrite app_nil_r.
      - by rewrite app_nil_r.
      - done. }
  cbn [app omap list_omap]. intros applied d1 Hin Hom Hd1. apply wp_bind.
  apply (wp_apply_all i to_string moves root Hap Hone dm apply_discovery_edit (restore_discovery_edit content_hash)
    discovery_changes _ (omap cm applied) []); [|by rewrite app_nil_r, app_nil_r, Hom|by rewrite app_nil_r|done| |].
  - intros e He. apply discovery_edits_file; [done|by apply Hrec].
  - cbn [app omap list_omap]. intros ad d2 Hin2 Hom2 Hd2. apply wp_bind.
    assert (omap cm applied ++ omap dm ad = moves) as Hall by by rewrite Hom, Hom2.
    subst cm dm.
    apply (wp_commit i false (Some jp) to_string moves jp Hap (journal_directory Hplan) mv_target);
      [done|by right|apply Hd2|by intros m Hm; apply Hd2, not_elem_of_nil|done|by intros d' Hf; apply wp_ret|].
    intros error. apply wp_roll_back; [done| |by rewrite Hall| | |done].
    + intros e He. split; [by apply Hin2|by apply Hrec, Hin2].
    + rewrite Hall. by eapply NoDup_fmap_1.
    + rewrite Hall. eapply applying_restoring; [symmetry; apply app_nil_r|done].
  - intros ad error d' Hin2 Hsub Hnd Hr. eapply wp_mono; [apply wp_roll_back|done|by intros]; try done.
    intros e He. split; [by apply Hin2|by apply Hrec, Hin2].
Qed.
End Plan.
