(* ===== verification/SetupWhole.v ===== *)
(** * Whole files, whatever happens

    What [SetupCrash.v] shows needs the journal's directory to be synced when the
    setup asks for it, and interruptions of one kind.  This file asks for nothing:
    through any faults, kills and power losses together, the journal is absent or
    is one of the two the plan writes, and every file of the plan reads as it was
    or as the plan wants it. *)

From S2P Require Import Prelude Chars Store Paths StdPath CrashFs SetupTransaction SetupAtomic SetupCrash.
Open Scope Z_scope.
Open Scope store_scope.
Open Scope prog_scope.

(** Every call can fail. *)
Definition any_fault (R : Type) (o : op R) (fault : bool) : Prop := True.

Section Whole.
Variables (i : interruption) (to_string : WireJournal -> option string).
Variables (content_hash : string -> string) (plan : ResolvedSetupPlan).
Abbreviation root := (transaction_root plan).
Abbreviation jp := (transaction_path root).
Abbreviation moves := (plan_moves content_hash plan).
Abbreviation wp := (wp any_fault).
Hypothesis Hplan : well_planned content_hash plan.

(** ** What every call keeps *)
Definition journal_value (v : option string) : Prop := v = None \/ exists st, journal_text to_string moves st v.
Definition whole (d : disk) : Prop :=
  holds i d jp journal_value /\ forall m, m ∈ moves -> holds i d (mv_path m) (changing m).
(** What may be written to a path. *)
Definition permitted (path : str) (v : option string) : Prop :=
  (path = jp -> journal_value v) /\ forall m, m ∈ moves -> mv_path m = path -> changing m v.

Lemma change_keeps d path v S q : holds i d q S -> (path = q -> S v) -> holds i (change_cell path v d) q S.
Proof.
  intros Hd Hv. destruct (decide (q = path)) as [->|Hne].
  - eapply holds_mono; [by apply change_holds|]. intros w [->|?]; [by apply Hv|done].
  - eapply same_cell_holds; [by apply cell_change_ne|done].
Qed.
Lemma settle_keeps d path S q : holds i d q S -> holds i (settle_cell path d) q S.
Proof.
  intros Hd. destruct (decide (q = path)) as [->|Hne].
  - destruct Hd as [Hd _]. apply (exactly_holds i _ _ _ S (settle_exactly i d path) Hd).
  - eapply same_cell_holds; [by apply cell_settle_ne|done].
Qed.
Lemma whole_change d path v : permitted path v -> whole d -> whole (change_cell path v d).
Proof.
  intros [Hj Hm] [Hdj Hdm]. split; [by apply change_keeps|]. intros m Hin.
  apply change_keeps; [by apply Hdm|intros He; by apply Hm].
Qed.
Lemma whole_settle d path : whole d -> whole (settle_cell path d).
Proof. intros [Hj Hm]. split; [by apply settle_keeps|]. intros m Hin. by apply settle_keeps, Hm. Qed.
Lemma whole_restart d d' : whole d -> restart Killed d d' \/ restart i d d' -> whole d'.
Proof.
  intros Hw [->|Hr]; [done|]. destruct Hw as [Hj Hm].
  split; [by eapply restart_holds|]. intros m Hin. eapply restart_holds; [by apply Hm|done].
Qed.

(** A move says what may be written to its file. *)
Lemma move_permitted m v : m ∈ moves -> changing m v -> permitted (mv_path m) v.
Proof.
  intros Hm Hv. split.
  - intros He. by destruct (journal_ne moves jp (journal_apart _ _ Hplan) m Hm).
  - intros m' Hm' He. by rewrite (path_inj moves (one_move_each _ _ Hplan) m' m Hm' Hm He).
Qed.
Lemma journal_permitted v : journal_value v -> permitted jp v.
Proof.
  intros Hv. split; [done|]. intros m Hm He. by destruct (journal_ne moves jp (journal_apart _ _ Hplan) m Hm).
Qed.

(** ** Programs *)
Definition keeps {A} (P : A -> Prop) (p : prog A) : Prop :=
  forall d, whole d -> wp p whole (fun a d' => P a /\ whole d') d.
Abbreviation kept := (keeps (fun _ => True)).

Lemma keeps_ret {A} (P : A -> Prop) a : P a -> keeps P (Ret a).
Proof. intros HP d Hd. by apply wp_ret. Qed.
Lemma keeps_mono {A} (P P' : A -> Prop) p : keeps P p -> (forall a, P a -> P' a) -> keeps P' p.
Proof. intros Hp HP d Hd. eapply wp_mono; [by apply Hp|done|]. intros a d' [? ?]. split; [by apply HP|done]. Qed.
Lemma keeps_bind {A B} (P : A -> Prop) (P' : B -> Prop) p k :
  keeps P p -> (forall a, P a -> keeps P' (k a)) -> keeps P' (prog_bind p k).
Proof. intros Hp Hk d Hd. apply wp_bind. eapply wp_mono; [by apply Hp|done|]. intros a d' [? ?]. by apply Hk. Qed.
Lemma keeps_try {A B} (P : result A -> Prop) (P' : result B -> Prop) p k :
  keeps P p -> (forall a, P (Ok a) -> keeps P' (k a)) -> (forall e, P' (Err e)) -> keeps P' (prog_try p k).
Proof.
  intros Hp Hk He. apply (keeps_bind P); [done|]. intros [a|e] Ha; [by apply Hk|by apply keeps_ret].
Qed.
Lemma keeps_ok {A B} (P : result B -> Prop) (a : A) k : keeps P (k a) -> keeps P (prog_try (Ret (Ok a)) k).
Proof. done. Qed.
Lemma kept_bind {A B} (p : prog A) (k : A -> prog B) : kept p -> (forall a, kept (k a)) -> kept (prog_bind p k).
Proof. intros Hp Hk. by apply (keeps_bind (fun _ => True)). Qed.
Lemma kept_try {A B} (p : prog (result A)) (k : A -> prog (result B)) :
  kept p -> (forall a, kept (k a)) -> kept (prog_try p k).
Proof. intros Hp Hk. by apply (keeps_try (fun _ => True)). Qed.

(** A call writes what is permitted, or nothing. *)
Definition writes {R} (o : op R) : option (str * option string) :=
  match o with
  | Persist path content | PersistNoclobber path content => Some (path, Some content)
  | RemoveFile path => Some (path, None)
  | _ => None
  end.
Lemma kept_call {R} (o : op R) : (forall path v, writes o = Some (path, v) -> permitted path v) -> kept (call o).
Proof.
  intros Ho d Hd. apply wp_call; [done|]. intros fault _. destruct (handle o fault d) as [d' r] eqn:Eh. split; [done|].
  destruct o; cbn in Eh, Ho; destruct fault; try by injection Eh as <- <-.
  - injection Eh as <- <-. by apply whole_change; [apply Ho|].
  - destruct (contents_at d path); injection Eh as <- <-; [done|]. by apply whole_change; [apply Ho|].
  - destruct (contents_at d path); injection Eh as <- <-; [|done]. by apply whole_change; [apply Ho|].
  - injection Eh as <- <-. by apply whole_settle.
Qed.
Lemma kept_sync path : kept (sync_parent_directory path).
Proof. unfold sync_parent_directory. destruct (parent path); [by apply kept_call|by apply keeps_ret]. Qed.
(** *** The files *)
Lemma kept_attempt what : kept (call (Attempt what)).
Proof. by apply kept_call. Qed.
Lemma kept_read path limit : kept (call (ReadOptional path limit)).
Proof. by apply kept_call. Qed.
Lemma kept_result {A} (r : result A) : kept (Ret r).
Proof. by apply keeps_ret. Qed.
Create HintDb kept.
#[local] Hint Resolve kept_attempt kept_read kept_result kept_sync : kept.

Lemma kept_write path original updated :
  (original <> updated -> permitted path (Some updated)) -> kept (write_if_changed path original updated).
Proof.
  intros Hp. unfold write_if_changed. repeat (apply kept_try; [by auto with kept|intros _]).
  destruct (bool_decide_reflect (original = updated)); [by auto with kept|].
  destruct (parent path) as [directory|]; [|by auto with kept].
  repeat (apply kept_try; [by auto with kept|intros _]).
  apply kept_try; [|intros _; by auto with kept]. apply kept_call. intros ? ? [= <- <-]. by apply Hp.
Qed.
Lemma kept_remove path : permitted path None -> kept (call (RemoveFile path)).
Proof. intros Hp. apply kept_call. by intros ? ? [= <- <-]. Qed.
Lemma kept_remove_existing path : permitted path None -> kept (remove_existing path).
Proof.
  intros Hp. apply kept_try; [by auto with kept|intros _]. apply kept_bind; [by apply kept_call|]. intros [|];
    [|by auto with kept]. apply kept_bind; [by apply kept_remove|]. intros []; by auto with kept.
Qed.
Lemma kept_restore path original update : permitted path original -> kept (restore_path content_hash path original update).
Proof.
  intros Hp. apply kept_try; [by apply kept_read|]. intros current.
  destruct (bool_decide (current = original)); [by auto with kept|]. cbn zeta.
  match goal with |- context [negb ?b] => destruct (negb b) end; [by auto with kept|].
  destruct original as [o|]; [|by apply kept_remove_existing]. destruct current; by apply kept_write.
Qed.
Lemma kept_restore_entries todo : (forall m, m ∈ todo -> m ∈ moves) ->
  kept (restore_entries content_hash (move_entry <$> todo)).
Proof.
  intros Hsub. induction todo as [|m todo IH]; [apply kept_result|]. rewrite fmap_cons. cbn [restore_entries].
  apply kept_try; [|intros _; apply IH; intros m' Hm'; apply Hsub; by right].
  apply kept_restore, move_permitted; [apply Hsub|]; by left.
Qed.

(** *** The edits *)
Lemma written_changing m updated : m ∈ moves -> mv_target m = written (mv_original m) updated ->
  default "" (mv_original m) <> updated -> permitted (mv_path m) (Some updated).
Proof.
  intros Hm Ht Hne. apply move_permitted; [done|]. right. rewrite Ht. unfold written. by rewrite bool_decide_eq_false_2.
Qed.
Lemma client_in e m : e ∈ edits plan -> client_move content_hash e = Some m -> m ∈ moves.
Proof. intros He Hm. apply elem_of_app. left. apply list_elem_of_omap. by exists e. Qed.
Lemma discovery_in e m : e ∈ discovery_edits plan -> discovery_move content_hash e = Some m -> m ∈ moves.
Proof. intros He Hm. apply elem_of_app. right. apply list_elem_of_omap. by exists e. Qed.

Lemma kept_apply_edit e : e ∈ edits plan -> kept (apply_edit e).
Proof.
  intros He. apply kept_try; [by apply kept_read|]. intros current. destruct (negb _); [by auto with kept|].
  pose proof (client_in e) as Hin. unfold client_move in Hin.
  destruct (edit_updated e) as [updated|]; [|by auto with kept]. specialize (Hin _ He eq_refl).
  apply kept_write. by apply (written_changing _ updated Hin).
Qed.
Lemma kept_restore_edit e : e ∈ edits plan -> kept (restore_edit content_hash e).
Proof.
  intros He. pose proof (client_in e) as Hin. unfold client_move in Hin. unfold restore_edit.
  destruct (edit_updated e) as [updated|]; [|by auto with kept]. specialize (Hin _ He eq_refl).
  apply kept_restore, (move_permitted _ _ Hin). by left.
Qed.
Lemma kept_apply_discovery_edit e : e ∈ discovery_edits plan -> recorded content_hash e -> kept (apply_discovery_edit e).
Proof.
  intros He Hr. apply kept_try; [by apply kept_read|]. intros current. destruct (negb _); [by auto with kept|].
  pose proof (discovery_in e) as Hin. unfold recorded, discovery_changes in Hr. unfold discovery_move in Hin, Hr.
  destruct (discovery_action _); [destruct (discovery_updated e) as [updated|]; [|done]..| | |]; try by auto with kept.
  1,2: specialize (Hin _ He eq_refl); apply kept_write; by apply (written_changing _ updated Hin).
  specialize (Hin _ He eq_refl). apply kept_remove_existing, (move_permitted _ _ Hin). by right.
Qed.
Lemma kept_restore_discovery_edit e : e ∈ discovery_edits plan -> kept (restore_discovery_edit content_hash e).
Proof.
  intros He. pose proof (discovery_in e) as Hin. unfold discovery_move in Hin. unfold restore_discovery_edit.
  destruct (discovery_action _); [destruct (discovery_updated e) as [updated|]; [|by auto with kept]..| | |];
    try by auto with kept.
  all: specialize (Hin _ He eq_refl); apply kept_restore, (move_permitted _ _ Hin); by left.
Qed.
(** *** The journal *)
Lemma keeps_serialized {A} (P : result A -> Prop) st (k : string -> prog (result A)) :
  (forall s, journal_value (Some s) -> keeps P (k s)) -> (forall e, P (Err e)) ->
  keeps P (prog_try (Ret (serialize_journal to_string (journal moves st))) k).
Proof.
  intros Hk He. apply (keeps_try (fun r => forall s, r = Ok s -> journal_value (Some s))).
  - apply keeps_ret. intros s Hs. right. exists st, s. by split.
  - intros s Hs. by apply Hk, Hs.
  - done.
Qed.
Lemma kept_persist s : journal_value (Some s) -> kept (call (Persist jp s)).
Proof. intros Hs. apply kept_call. intros ? ? [= <- <-]. by apply journal_permitted. Qed.
Lemma kept_remove_file : kept (call (RemoveFile jp)).
Proof. apply kept_remove, journal_permitted. by left. Qed.

Lemma kept_commit : kept (commit to_string jp (journal moves Pending)).
Proof.
  apply kept_try; [|intros _; apply kept_bind; [by apply kept_remove_file|]].
  - apply kept_try; [by auto with kept|intros _]. destruct (parent jp) as [directory|]; [|by auto with kept].
    apply (keeps_serialized _ CommittedState); [|done]. intros s Hs.
    apply kept_try; [by auto with kept|intros _]. apply kept_try; [by apply kept_persist|by auto with kept].
  - intros []; try by auto with kept. all: apply kept_bind; by auto with kept.
Qed.

(** What [begin] answers: nothing to do, or the journal that is on the disk. *)
Definition begun (transaction : option SetupTransactionJournal) : Prop :=
  (forall e, e ∈ discovery_edits plan -> recorded content_hash e) /\
  (transaction = None \/ transaction = Some (journal moves Pending)).
Lemma keeps_begin : keeps (fun r => match r with Ok transaction => begun transaction | Err _ => True end)
  (begin_setup_transaction to_string content_hash plan).
Proof.
  unfold begin_setup_transaction.
  destruct (discovery_entries content_hash (discovery_edits plan)) as [es|e] eqn:Ee; [|by apply keeps_ret].
  apply discovery_entries_moves in Ee as [-> Hrec]. apply keeps_ok. rewrite client_entries_moves, <- fmap_app.
  change (omap _ (edits plan) ++ omap _ (discovery_edits plan)) with moves.
  destruct (move_entry <$> moves) as [|entry rest] eqn:Em; [by apply keeps_ret; split; [|left]|]. rewrite <- Em.
  change (Build_SetupTransactionJournal _ _ _) with (journal moves Pending).
  apply (keeps_try (fun _ => True)); [by auto with kept|intros _ _|done].
  apply (keeps_bind (fun _ => True)); [by apply kept_call|]. intros [|] _; [by apply keeps_ret|].
  apply keeps_serialized; [|done]. intros s Hs.
  apply (keeps_try (fun _ => True)); [by auto with kept|intros _ _|done].
  apply (keeps_bind (fun _ => True)); [apply kept_call; intros ? ? [= <- <-]; by apply journal_permitted|].
  intros [|] _; [|by apply keeps_ret]. apply (keeps_try (fun _ => True)); [by auto with kept|intros _ _|done].
  apply keeps_ret. by split; [|right].
Qed.

(** *** The loops *)
Lemma keeps_apply_all {E} (apply : E -> prog (result ())) changes fail (l applied todo : list E) :
  (forall e, e ∈ l -> kept (apply e)) -> (forall a error, a ⊆ l -> kept (fail a error)) ->
  applied ⊆ l -> todo ⊆ l ->
  keeps (fun r => match r with inl a => a ⊆ l | inr _ => True end) (apply_all apply changes fail applied todo).
Proof.
  intros Hap Hf. revert applied. induction todo as [|e todo IH]; intros applied Ha Ht; [by apply keeps_ret|].
  cbn [apply_all]. assert (e ∈ l /\ todo ⊆ l) as [He Ht'] by (split; set_solver).
  assert ((if changes e then applied ++ [e] else applied) ⊆ l) as Ha' by (destruct (changes e); set_solver).
  apply (keeps_bind (fun _ => True)); [by apply Hap|]. intros [[]|error] _; [by apply IH|].
  apply (keeps_bind (fun _ => True)); [by apply Hf|]. intros o _. by apply keeps_ret.
Qed.
Lemma kept_restore_all {E} (restore : E -> prog (result ())) failure (l : list E) :
  (forall e, e ∈ l -> kept (restore e)) -> kept (restore_all restore failure l).
Proof.
  revert failure. induction l as [|e l IH]; intros failure Hr; [by apply keeps_ret|]. cbn [restore_all].
  apply kept_bind; [apply Hr; by left|]. intros r. apply IH. intros x Hx. apply Hr. by right.
Qed.
Lemma kept_commit_transaction transaction : begun transaction -> kept (commit_transaction to_string root transaction).
Proof. intros [_ [->| ->]]; [by auto with kept|apply kept_commit]. Qed.
Lemma kept_roll_back transaction applied applied_discovery error : begun transaction ->
  applied ⊆ edits plan -> applied_discovery ⊆ discovery_edits plan ->
  kept (roll_back to_string content_hash plan transaction applied applied_discovery error).
Proof.
  intros Hb Ha Hd. apply kept_bind; [|intros r; by apply keeps_ret].
  apply kept_bind; [apply kept_restore_all|intros f; apply kept_bind; [apply kept_restore_all|]].
  - intros e He. apply kept_restore_discovery_edit, Hd. by apply elem_of_rev_iff.
  - intros e He. apply kept_restore_edit, Ha. by apply elem_of_rev_iff.
  - intros [e|]; [by auto with kept|by apply kept_commit_transaction].
Qed.
Lemma kept_apply_transaction transaction : begun transaction ->
  kept (apply_transaction to_string content_hash plan transaction).
Proof.
  intros Hb. apply (keeps_bind (fun r => match r with inl a => a ⊆ edits plan | inr _ => True end)).
  { apply keeps_apply_all; [by apply kept_apply_edit| |set_solver|done]. intros a e Ha. by apply kept_roll_back; [| |set_solver]. }
  intros [applied|o] Ha; [|by apply keeps_ret].
  apply (keeps_bind (fun r => match r with inl a => a ⊆ discovery_edits plan | inr _ => True end)).
  { apply keeps_apply_all; [|by intros; apply kept_roll_back|set_solver|done].
    intros e He. apply kept_apply_discovery_edit; [done|by apply Hb]. }
  intros [ad|o] Had; [|by apply keeps_ret]. apply kept_bind; [by apply kept_commit_transaction|].
  intros [|e]; [by apply keeps_ret|by apply kept_roll_back].
Qed.
Lemma kept_preflight {E} path original format (items : list E) : kept (preflight path original format items).
Proof.
  induction items as [|x items IH]; [by auto with kept|]. apply kept_try; [by apply kept_read|]. intros v.
  destruct (bool_decide _); [done|by auto with kept].
Qed.
Lemma kept_apply_plan : kept (apply_plan to_string content_hash plan).
Proof.
  apply kept_bind; [repeat (apply kept_try; [by apply kept_preflight|intros _]); by apply kept_preflight|].
  intros [|e]; [|by apply keeps_ret]. eapply keeps_bind; [apply keeps_begin|].
  intros [t|e]; [by apply kept_apply_transaction|intros _; by apply keeps_ret].
Qed.

(** ** Recovery *)
Section Recover.
Variable from_str : string -> option WireJournal.
Hypothesis codec : forall w s, to_string w = Some s -> from_str s = Some w.

(** What a recovery leaves. *)
Definition cleared (r : result ()) (d : disk) : Prop := whole d /\ (r = Ok () -> contents_at d jp = None).
Lemma cleared_error e d : whole d -> cleared (Err e) d.
Proof. by split. Qed.
Lemma wp_remove_journal_whole d : whole d -> wp (remove_journal jp) whole cleared d.
Proof.
  intros Hd. apply wp_try, wp_call; [done|]. intros [] _; cbn [handle]; [by apply cleared_error|]. apply wp_bind, wp_call; [done|].
  intros [] _; cbn [handle]; [by apply cleared_error|]. destruct (contents_at d jp) as [s|] eqn:Es; [|by apply wp_ret; split].
  assert (whole (change_cell jp None d)) as Hc by (apply whole_change; [apply journal_permitted; by left|done]).
  unfold sync_parent_directory. destruct (parent jp); [|by apply wp_ret, cleared_error]. apply wp_call; [done|]. intros [] _; cbn [handle]; [by apply cleared_error|].
  split; [by apply whole_settle|]. intros _. rewrite (exactly_contents _ _ _ _ (settle_exactly i _ jp)).
  apply change_contents.
Qed.
Lemma wp_recover_whole d : whole d ->
  wp (recover_interrupted_transaction from_str content_hash root) whole cleared d.
Proof.
  intros Hd. apply wp_try, wp_call; [done|]. intros [] _; cbn [handle]; [by apply cleared_error|]. pose proof Hd as [[Hj _] _].
  destruct (contents_at d jp) as [s|] eqn:Es; [|by apply wp_ret; split]. destruct (_ <? _); [by apply cleared_error|].
  destruct Hj as [?|[st Hst]]; [done|]. destruct (read_journal to_string from_str moves codec st s Hst) as [-> _].
  cbn [negb Z.eqb journal_schema_version journal journal_state journal_entries].
  destruct st; [|by apply wp_remove_journal_whole]. apply wp_try. eapply wp_mono; [by apply kept_restore_entries|done|].
  intros [[]|e] d' [_ Hd']; [by apply wp_remove_journal_whole|by apply cleared_error].
Qed.
End Recover.
End Whole.
