(* ===== verification/SetupSafety.v ===== *)
(** * What a setup leaves

    The theorems on [apply_plan] and on the recoveries that follow it.  Whatever
    fails and interrupts them, every file stays whole; all the files go together
    when the journal's directory can be synced and the interruptions are of one
    kind, and two runs show that they need not otherwise. *)

From S2P Require Import Prelude Chars Store Paths StdPath CrashFs SetupTransaction SetupAtomic SetupCrash SetupWhole.
Open Scope Z_scope.
Open Scope store_scope.
Open Scope prog_scope.

(** ** The plan before its transaction *)
Section Whole.
Variables (i : interruption) (to_string : WireJournal -> option string).
Variables (content_hash : string -> string) (plan : ResolvedSetupPlan).
Abbreviation root := (transaction_root plan).
Abbreviation jp := (transaction_path root).
Abbreviation moves := (plan_moves content_hash plan).
Abbreviation wp := (wp (faults false (Some jp))).
Abbreviation consistent := (consistent i to_string moves jp).
Abbreviation outcome_holds := (outcome_holds i to_string content_hash plan).
Hypothesis Hplan : well_planned content_hash plan.

Lemma wp_apply_all_idle {E} (apply : E -> prog (result ())) changes fail C Q (applied todo : list E) d :
  (forall e, e ∈ todo -> changes e = false /\ idle root (apply e)) -> C d -> Q (inl applied) d ->
  (forall error, wp (fail applied error) C (fun o => Q (inr o)) d) -> wp (apply_all apply changes fail applied todo) C Q d.
Proof.
  intros Hed HC HQ HF. induction todo as [|e todo IH]; [by apply wp_ret|]. cbn [apply_all].
  destruct (Hed e) as [-> Hi]; [by left|]. apply wp_bind, Hi; [done| |].
  - apply IH. intros x Hx. apply Hed. by right.
  - intros error. apply wp_bind. eapply wp_mono; [apply HF|done|by intros].
Qed.

Lemma wp_roll_back_nothing (error : Store.error) (C : disk -> Prop) (Q : SetupApplyOutcome -> disk -> Prop) d :
  (forall o, Q o d) -> wp (roll_back to_string content_hash plan None [] [] error) C Q d.
Proof. intros HQ. apply HQ. Qed.

(** Without a move, nothing happens. *)
Lemma wp_nothing_to_apply (C : disk -> Prop) (Q : SetupApplyOutcome -> disk -> Prop) d :
  moves = [] -> (forall e, e ∈ discovery_edits plan -> recorded content_hash e) -> C d -> (forall o, Q o d) ->
  wp (apply_transaction to_string content_hash plan None) C Q d.
Proof.
  intros Hms Hrec HC HQ. apply app_nil in Hms as [Hc Hd]. unfold apply_transaction.
  assert (forall {A B} (f : A -> option B) l e, omap f l = [] -> e ∈ l -> f e = None) as Hnone.
  { intros A B f l e Ho He. destruct (f e) as [b|] eqn:Ef; [|done].
    assert (b ∈ omap f l) as Hb by (apply list_elem_of_omap; by exists e). rewrite Ho in Hb. by apply not_elem_of_nil in Hb. }
  apply wp_bind, wp_apply_all_idle; [|done| |intros; by apply wp_roll_back_nothing].
  { intros e He. destruct (client_edits_file i content_hash plan Hplan e He) as [-> Hmv].
    rewrite (Hnone _ _ _ _ e Hc He) in *.
    split; [by rewrite bool_decide_eq_false_2 by by intros [? ?]|apply Hmv]. }
  apply wp_bind, wp_apply_all_idle; [|done| |intros; by apply wp_roll_back_nothing].
  { intros e He. destruct (discovery_edits_file i content_hash plan Hplan e He (Hrec e He)) as [-> Hmv].
    rewrite (Hnone _ _ _ _ e Hd He) in *.
    split; [by rewrite bool_decide_eq_false_2 by by intros [? ?]|apply Hmv]. }
  apply wp_bind, wp_ret, wp_ret, HQ.
Qed.

Lemma wp_apply_plan d :
  exactly i d jp None -> all_at i moves mv_original d ->
  wp (apply_plan to_string content_hash plan) consistent outcome_holds d.
Proof.
  intros Hj Hd. assert (fixed i to_string moves jp mv_original d) as Hf.
  { split; [|done]. eapply exactly_holds; [done|by left]. }
  assert (consistent d) as Hc by by eapply fixed_consistent; [left|].
  unfold apply_plan. apply wp_bind. apply (wp_mono _ _ (fun d' => d' = d) _ (fun _ d' => d' = d));
    [|by intros ? ->|].
  { unfold preflight_plan. assert (forall E path original format (items : list E),
      idle root (preflight path original format items)) as Hpre.
    { intros E path original format items. induction items as [|x items IH]; [apply idle_ret|].
      intros C Q d' HC HO HE. apply idle_read; [|done..]. intros v. destruct (bool_decide _); [done|apply idle_ret]. }
    apply wp_try, Hpre; [done| |done]. apply wp_try, Hpre; [done| |done]. by apply Hpre. }
  intros [[]|e] ? ->; [|by apply wp_ret]. apply wp_bind. apply (wp_begin i to_string content_hash plan Hplan); try done.
  - intros Hms Hrec. apply wp_nothing_to_apply; [done..|]. intros o.
    assert (forall sel, fixed i to_string moves jp sel d) as Hfix.
    { intros sel. destruct Hf as [Hf _]. split; [done|]. rewrite Hms. by intros m ?%not_elem_of_nil. }
    unfold outcome_holds. by destruct (outcome_error o) as [[]|].
  - intros Hrec d' Hd'. by apply wp_apply_transaction.
Qed.
End Whole.

(** ** Interruptions *)

(** Any number of recoveries, each interrupted or failed or done, each in a new
    process. *)
Inductive interrupted (i : interruption) (from_str : string -> option WireJournal) (content_hash : string -> string)
    (root : str) : disk -> disk -> Prop :=
| interrupted_here d : interrupted i from_str content_hash root d d
| interrupted_again d d1 d2 d3 oracle limit r :
    restart i d d1 -> respects (faults false None) oracle ->
    run_prog oracle limit 0 (recover_interrupted_transaction from_str content_hash root) d1 = (d2, r) ->
    interrupted i from_str content_hash root d2 d3 -> interrupted i from_str content_hash root d d3.

(** The same, with any faults, and with kills among the interruptions. *)
Inductive mixed_interrupted (i : interruption) (from_str : string -> option WireJournal)
    (content_hash : string -> string) (root : str) : disk -> disk -> Prop :=
| mixed_here d : mixed_interrupted i from_str content_hash root d d
| mixed_again d d1 d2 d3 oracle limit r :
    restart Killed d d1 \/ restart i d d1 ->
    run_prog oracle limit 0 (recover_interrupted_transaction from_str content_hash root) d1 = (d2, r) ->
    mixed_interrupted i from_str content_hash root d2 d3 -> mixed_interrupted i from_str content_hash root d d3.

Section Theorems.
Variables (i : interruption).
Variables (to_string : WireJournal -> option string) (from_str : string -> option WireJournal).
Variables (content_hash : string -> string) (plan : ResolvedSetupPlan).
Abbreviation root := (transaction_root plan).
Abbreviation jp := (transaction_path root).
Abbreviation moves := (plan_moves content_hash plan).
Abbreviation consistent := (consistent i to_string moves jp).
Abbreviation fixed := (fixed i to_string moves jp).
Abbreviation recover := (recover_interrupted_transaction from_str content_hash root).

(** The disk a plan was made for: no transaction, and every file as it was read. *)
Definition planned_disk (d : disk) : Prop :=
  exactly i d jp None /\ forall m, m ∈ moves -> exactly i d (mv_path m) (mv_original m).

Definition files_at (sel : move -> option string) (d : disk) : Prop :=
  forall m, m ∈ moves -> contents_at d (mv_path m) = sel m.

Section Chain.
Hypothesis codec : forall w s, to_string w = Some s -> from_str s = Some w.
Hypothesis Hplan : well_planned content_hash plan.

Lemma all_at_files sel d : all_at i moves sel d -> files_at sel d.
Proof. intros H m Hm. by eapply exactly_contents, H. Qed.

(** What every recovery keeps, the interruptions keep. *)
Lemma interrupted_keeps (P : disk -> Prop) d d' :
  (forall d1 d2, P d1 -> restart i d1 d2 -> P d2) ->
  (forall d1, sharp i moves jp d1 -> P d1 ->
     wp (faults false None) recover P (fun _ d2 => P d2) d1) ->
  interrupted i from_str content_hash root d d' -> P d -> P d'.
Proof.
  intros Hrs Hrec Hi. induction Hi as [|d d1 d2 d3 oracle limit r Hr Hor Hrun _ IH]; [done|]. intros Hd. apply IH.
  assert (P d1) as Hd1 by by eapply Hrs.
  pose proof (wp_run _ _ _ _ oracle limit 0 d1 Hor (Hrec d1 (restart_sharp i moves root _ _ Hr) Hd1)) as Hw.
  rewrite Hrun in Hw. by destruct r.
Qed.

Lemma wp_recover_keeps_consistent quiet d : sharp i moves jp d -> consistent d ->
  wp (faults quiet None) recover consistent
    (recovered i quiet root (all_or_none i moves) consistent) d.
Proof.
  intros Hs Hd. by apply wp_recover_consistent; [done|apply Hplan|apply Hplan|apply Hplan|apply (all_movable _ _ Hplan)|..].
Qed.
Lemma wp_recover_keeps_fixed quiet sel d : sharp i moves jp d -> fixed sel d ->
  wp (faults quiet None) recover (fixed sel) (recovered i quiet root (all_at i moves sel) (fixed sel)) d.
Proof. intros Hs Hd. by apply wp_recover_fixed; [done|apply Hplan|apply Hplan|..]. Qed.

Lemma recovered_consistent quiet r d :
  recovered i quiet root (all_or_none i moves) consistent r d -> consistent d.
Proof.
  destruct r as [|e]; [|by intros [_ ?]]. intros [Hj Hd]. right. split; [|done].
  eapply exactly_holds; [done|by left; left].
Qed.
Lemma recovered_fixed quiet sel r d :
  recovered i quiet root (all_at i moves sel) (fixed sel) r d -> fixed sel d.
Proof.
  destruct r as [|e]; [|by intros [_ ?]]. intros [Hj Hd]. split; [|done]. eapply exactly_holds; [done|by left].
Qed.

Lemma interrupted_consistent d d' :
  interrupted i from_str content_hash root d d' -> consistent d -> consistent d'.
Proof.
  apply interrupted_keeps; [apply restart_consistent|]. intros d1 Hs Hd.
  eapply wp_mono; [by apply (wp_recover_keeps_consistent false)|done|]. intros r d2. apply recovered_consistent.
Qed.
Lemma interrupted_fixed sel d d' :
  interrupted i from_str content_hash root d d' -> fixed sel d -> fixed sel d'.
Proof.
  apply interrupted_keeps; [apply restart_fixed|]. intros d1 Hs Hd.
  eapply wp_mono; [by apply (wp_recover_keeps_fixed false)|done|]. intros r d2. apply recovered_fixed.
Qed.

Lemma fixed_recovered sel d d' d2 oracle limit :
  fixed sel d -> interrupted i from_str content_hash root d d' ->
  forall d1, restart i d' d1 -> respects (faults false None) oracle ->
  run_prog oracle limit 0 recover d1 = (d2, Some (Ok ())) -> contents_at d2 jp = None /\ files_at sel d2.
Proof.
  intros Hf Hi d1 Hr Hor Hrun. apply (interrupted_fixed sel) in Hi; [|done].
  assert (fixed sel d1) as Hf1 by by eapply restart_fixed.
  pose proof (wp_run _ _ _ _ oracle limit 0 d1 Hor (wp_recover_keeps_fixed false sel d1
    (restart_sharp i moves root _ _ Hr) Hf1)) as Hw.
  rewrite Hrun in Hw. destruct Hw as [Hj Hd]. split; [by eapply exactly_contents|by apply all_at_files].
Qed.
Lemma consistent_recovered d d' d2 oracle limit :
  consistent d -> interrupted i from_str content_hash root d d' ->
  forall d1, restart i d' d1 -> respects (faults false None) oracle ->
  run_prog oracle limit 0 recover d1 = (d2, Some (Ok ())) ->
  contents_at d2 jp = None /\ (files_at mv_original d2 \/ files_at mv_target d2).
Proof.
  intros Hf Hi d1 Hr Hor Hrun. apply interrupted_consistent in Hi; [|done].
  assert (consistent d1) as Hf1 by by eapply restart_consistent.
  pose proof (wp_run _ _ _ _ oracle limit 0 d1 Hor (wp_recover_keeps_consistent false d1
    (restart_sharp i moves root _ _ Hr) Hf1)) as Hw.
  rewrite Hrun in Hw. destruct Hw as [Hj Hd]. split; [by eapply exactly_contents|].
  destruct Hd as [Hd|Hd]; [left|right]; by apply all_at_files.
Qed.
Lemma run_consistent oracle limit d0 d1 r :
  planned_disk d0 -> respects (faults false (Some jp)) oracle ->
  run_prog oracle limit 0 (apply_plan to_string content_hash plan) d0 = (d1, r) ->
  match r with Some o => outcome_holds i to_string content_hash plan o d1 | None => consistent d1 end.
Proof.
  intros [Hj Hd] Hor Hrun.
  pose proof (wp_run _ _ _ _ oracle limit 0 d0 Hor (wp_apply_plan i to_string content_hash plan Hplan d0 Hj Hd)) as Hw.
  by rewrite Hrun in Hw.
Qed.
Lemma respects_any oracle : respects any_fault oracle.
Proof. done. Qed.
Lemma planned_whole d : planned_disk d -> whole i to_string content_hash plan d.
Proof.
  intros [Hj Hd]. split; [eapply exactly_holds; [done|by left]|]. intros m Hm.
  eapply exactly_holds; [by apply Hd|by left].
Qed.
Lemma run_whole oracle limit d0 d1 r : planned_disk d0 ->
  run_prog oracle limit 0 (apply_plan to_string content_hash plan) d0 = (d1, r) -> whole i to_string content_hash plan d1.
Proof.
  intros Hd Hrun. pose proof (wp_run _ _ _ _ oracle limit 0 d0 (respects_any oracle)
    (kept_apply_plan i to_string content_hash plan Hplan d0 (planned_whole d0 Hd))) as Hw.
  rewrite Hrun in Hw. destruct r; [by destruct Hw|done].
Qed.
Lemma recover_whole oracle limit d d' r : whole i to_string content_hash plan d ->
  run_prog oracle limit 0 recover d = (d', r) ->
  whole i to_string content_hash plan d' /\ (r = Some (Ok ()) -> contents_at d' jp = None).
Proof.
  intros Hd Hrun. pose proof (wp_run _ _ _ _ oracle limit 0 d (respects_any oracle)
    (wp_recover_whole i to_string content_hash plan Hplan from_str codec d Hd)) as Hw.
  rewrite Hrun in Hw. destruct r as [r|]; [|done]. destruct Hw as [Hw Hj]. split; [done|]. intros [= ->]. by apply Hj.
Qed.
Lemma mixed_whole d d' : mixed_interrupted i from_str content_hash root d d' ->
  whole i to_string content_hash plan d -> whole i to_string content_hash plan d'.
Proof.
  intros Hm. induction Hm as [|d d1 d2 d3 oracle limit r Hr Hrun _ IH]; [done|]. intros Hd. apply IH.
  by eapply recover_whole; [eapply whole_restart|].
Qed.
Lemma outcome_consistent o d : outcome_holds i to_string content_hash plan o d -> consistent d.
Proof.
  unfold outcome_holds. destruct (outcome_error o) as [[]|]; [| |done|].
  1,2: apply (fixed_consistent i to_string moves jp mv_original); by left.
  apply (fixed_consistent i to_string moves jp mv_target). by right.
Qed.
End Chain.
End Theorems.

(** ** The theorems *)

(** C4: setup is all or nothing across crashes.  Whatever calls of [apply_plan] and
    of the recoveries of later processes fail, however often they are killed or,
    for a disk that was synced, lose power, the first recovery that succeeds leaves
    no journal, and every file of the plan with the content it had or with the
    content the plan gives it.  All the files are as they were, or all as planned,
    under three conditions: the setup could sync the journal's directory whenever
    it asked, paths that exist could be examined, and the interruptions were all
    kills or all power losses.  Then they are as planned when the setup reported
    success, and as they were when it reported that nothing was applied or that it
    rolled back.  [Demo.committed_before_rollback] and
    [Demo.restored_but_not_synced] are runs without the first and the last
    condition. *)
Theorem setup_is_atomic (i : interruption) (to_string : WireJournal -> option string)
    (from_str : string -> option WireJournal) (content_hash : string -> string) (plan : ResolvedSetupPlan)
    (codec : forall w s, to_string w = Some s -> from_str s = Some w)
    (Hplan : well_planned content_hash plan)
    (d0 d1 d2 d3 d4 : disk) (oracle oracle' : schedule) (limit limit' : nat) (r : option SetupApplyOutcome)
    (Hd0 : planned_disk i content_hash plan d0)
    (Hrun : run_prog oracle limit 0 (apply_plan to_string content_hash plan) d0 = (d1, r))
    (Hmixed : mixed_interrupted i from_str content_hash (transaction_root plan) d1 d2)
    (Hrestart : restart Killed d2 d3 \/ restart i d2 d3)
    (Hrecover : run_prog oracle' limit' 0
       (recover_interrupted_transaction from_str content_hash (transaction_root plan)) d3 = (d4, Some (Ok ()))) :
  contents_at d4 (transaction_path (transaction_root plan)) = None /\
  (forall m, m ∈ plan_moves content_hash plan ->
     contents_at d4 (mv_path m) = mv_original m \/ contents_at d4 (mv_path m) = mv_target m) /\
  (respects (faults false (Some (transaction_path (transaction_root plan)))) oracle ->
   respects (faults false None) oracle' ->
   interrupted i from_str content_hash (transaction_root plan) d1 d2 -> restart i d2 d3 ->
   match option_map outcome_error r with
   | Some None => files_at content_hash plan mv_target d4
   | Some (Some (NotApplied _)) | Some (Some (RolledBack _)) => files_at content_hash plan mv_original d4
   | Some (Some (RecoveryRequired _ _)) | None =>
     files_at content_hash plan mv_original d4 \/ files_at content_hash plan mv_target d4
   end).
Proof.
  assert (whole i to_string content_hash plan d3) as Hd3.
  { apply (whole_restart _ _ _ _ d2); [|done].
    apply (mixed_whole i to_string from_str content_hash plan codec Hplan d1); [done|].
    by apply (run_whole i to_string content_hash plan Hplan oracle limit d0 d1 r). }
  destruct (recover_whole i to_string from_str content_hash plan codec Hplan _ _ _ _ _ Hd3 Hrecover) as [[_ Hm] Hj].
  split; [by apply Hj|]. split; [intros m Hin; exact (proj1 (Hm m Hin))|]. intros Hfaults Hfaults' Hint Hrs.
  pose proof (run_consistent i to_string content_hash plan Hplan oracle limit d0 d1 r Hd0 Hfaults Hrun) as Hd1.
  assert (forall sel, fixed i to_string (plan_moves content_hash plan) (transaction_path (transaction_root plan)) sel d1 ->
    files_at content_hash plan sel d4) as Hfixed.
  { intros sel Hf. by eapply fixed_recovered. }
  destruct r as [o|]; [|by eapply consistent_recovered]. cbn. unfold outcome_holds in Hd1.
  destruct (outcome_error o) as [[]|]; [by apply Hfixed..| |by apply Hfixed]. by eapply consistent_recovered.
Qed.


(** The preflight reads everything the plan was made from. *)
Lemma wp_preflight {E} (path : E -> str) (original : E -> option string) (format : string) (items : list E) (Q : result () -> disk -> Prop) d :
  ((forall x, x ∈ items -> contents_at d (path x) = original x) -> Q (Ok ()) d) -> (forall e, Q (Err e) d) ->
  wp any_fault (preflight path original format items) (fun d' => d' = d) Q d.
Proof.
  intros HQ HE. induction items as [|x items IH]; [by apply wp_ret, HQ; intros x ?%not_elem_of_nil|].
  cbn [preflight]. apply wp_try, wp_call; [done|]. intros fault _. cbn. destruct fault; [by apply HE|].
  assert (forall v, contents_at d (path x) = v -> wp any_fault
    (if bool_decide (v = original x) then preflight path original format items
     else Ret (Err (SetupFailure format (path x)))) (fun d' => d' = d) Q d) as Hnext.
  { intros v Hv. destruct (bool_decide_reflect (v = original x)) as [He|]; [|by apply wp_ret, HE].
    apply IH. intros Hall. apply HQ. intros y [->|Hy]%elem_of_cons; [congruence|by apply Hall]. }
  destruct (contents_at d (path x)) as [c|]; [|by apply Hnext]. destruct (_ <? _); [by apply HE|by apply Hnext].
Qed.

(** C18: a file that changed since the plan was made stops it.  When a client
    configuration, a discovery skill or a snapshot no longer reads as the plan
    recorded it, [apply_plan] reports that nothing was applied, whatever fails,
    and the disk is as it was. *)
Theorem changed_file_stops_plan (to_string : WireJournal -> option string)
    (content_hash : string -> string) (plan : ResolvedSetupPlan) (path : str) (original : option string)
    (d d' : disk) (oracle : schedule) (limit : nat) (r : option SetupApplyOutcome)
    (Hread : (exists e, e ∈ edits plan /\ edit_path e = path /\ edit_original e = original) \/
             (exists e, e ∈ discovery_edits plan /\ discovery_path (discovery_public e) = path /\
                        discovery_original e = original) \/
             (exists s, s ∈ configuration_snapshots plan /\ snapshot_path s = path /\ snapshot_original s = original))
    (Hchanged : contents_at d path <> original)
    (Hrun : run_prog oracle limit 0 (apply_plan to_string content_hash plan) d = (d', r)) :
  d' = d /\ forall o, r = Some o -> exists e, o = failed_outcome plan (NotApplied e).
Proof.
  assert (wp any_fault (apply_plan to_string content_hash plan) (fun d' => d' = d)
    (fun o d' => d' = d /\ exists e, o = failed_outcome plan (NotApplied e)) d) as Hwp.
  { apply wp_bind. assert (forall e, wp any_fault (Ret (failed_outcome plan (NotApplied e))) (fun d' => d' = d)
      (fun o d' => d' = d /\ exists e, o = failed_outcome plan (NotApplied e)) d) as Hfail.
    { intros e. apply wp_ret. split; [done|by exists e]. }
    apply wp_try, wp_preflight; [intros Hs|by intros].
    apply wp_try, wp_preflight; [intros He|by intros].
    apply wp_preflight; [intros Hd|by intros]. exfalso. apply Hchanged.
    destruct Hread as [(e & Hin & <- & <-)|[(e & Hin & <- & <-)|(e & Hin & <- & <-)]];
      [by apply He|by apply Hd|by apply Hs]. }
  assert (respects any_fault oracle) as Hor by done.
  pose proof (wp_run _ _ _ _ oracle limit 0 d Hor Hwp) as Hw. rewrite Hrun in Hw.
  destruct r as [o|]; [|by split]. destruct Hw as [-> [e ->]]. split; [done|]. intros ? [= <-]. by exists e.
Qed.

(** ** A plan *)
Module Demo.
#[local] Instance entry_eq_dec : EqDecision WireEntry.
Proof. solve_decision. Defined.
#[local] Instance wire_eq_dec : EqDecision WireJournal.
Proof. solve_decision. Defined.

(** One client's file to change and one skill to remove. *)
Definition config : str := lit "/h/a".
Definition skill : str := lit "/h/s".
Definition plan : ResolvedSetupPlan :=
  {| edits := [{| edit_public := {| plan_client := Codex; plan_path := config;
                                    plan_action := Update; plan_detected := true |};
                  resolution := EditUpdated (Some "a") "A" |}];
     discovery_edits := [{| discovery_public := {| discovery_path := skill; discovery_action := Remove |};
                            discovery_original := Some "s"; discovery_updated := Some "" |}];
     configuration_snapshots := [{| snapshot_path := config; snapshot_original := Some "a" |}];
     transaction_root := lit "/r" |}.
Definition hash (s : string) : string := s.
Definition moves : list move := plan_moves hash plan.
Definition jp : str := transaction_path (transaction_root plan).

(** A codec for the two journals of the plan. *)
Definition text (st : SetupTransactionState) : string := match st with Pending => "p" | CommittedState => "c" end.
Definition wire (st : SetupTransactionState) : WireJournal := to_wire (journal moves st).
Definition to_string (w : WireJournal) : option string :=
  if bool_decide (w = wire Pending) then Some (text Pending)
  else if bool_decide (w = wire CommittedState) then Some (text CommittedState) else None.
Definition from_str (s : string) : option WireJournal :=
  if bool_decide (s = text Pending) then Some (wire Pending)
  else if bool_decide (s = text CommittedState) then Some (wire CommittedState) else None.
Lemma codec w s : to_string w = Some s -> from_str s = Some w.
Proof.
  unfold to_string. destruct (bool_decide_reflect (w = wire Pending)) as [->|]; [by intros [= <-]|].
  destruct (bool_decide_reflect (w = wire CommittedState)) as [->|]; [by intros [= <-]|done].
Qed.

Definition before : disk := <[config := settled (Some "a")]> (<[skill := settled (Some "s")]> ∅).
Definition no_faults : schedule := fun _ _ _ => false.
Definition setup (oracle : schedule) (limit : nat) : disk -> disk * option SetupApplyOutcome :=
  run_prog oracle limit 0 (apply_plan to_string hash plan).
Definition recover (limit : nat) : disk -> disk * option (result ()) :=
  run_prog no_faults limit 0 (recover_interrupted_transaction from_str hash (transaction_root plan)).
Definition seen (d : disk) : option string * option string * option string :=
  (contents_at d config, contents_at d skill, contents_at d jp).

Lemma no_faults_respects quiet reliable : respects (faults quiet reliable) no_faults.
Proof. intros R o k. split; [done|]. by destruct o. Qed.
Lemma moves_eq : moves =
  [{| mv_path := config; mv_original := Some "a"; mv_target := Some "A"; mv_update := UpdatePresent "A" |};
   {| mv_path := skill; mv_original := Some "s"; mv_target := None; mv_update := UpdateAbsent |}].
Proof. vm_compute. reflexivity. Qed.
Lemma well_planned_plan : well_planned hash plan.
Proof.
  split; fold moves.
  - apply (bool_decide_unpack _). vm_compute. reflexivity.
  - apply (bool_decide_unpack _). vm_compute. reflexivity.
  - vm_compute. by eexists.
  - rewrite moves_eq. intros m [->|[->|[]%not_elem_of_nil]%elem_of_cons]%elem_of_cons;
      split; try (vm_compute; done); try (vm_compute; by eexists); try (by right; exists "A"); done.
Qed.
Lemma planned_before i : planned_disk i hash plan before.
Proof.
  split; [by apply settled_exactly; vm_compute|]. fold moves. rewrite moves_eq.
  by intros m [->|[->|[]%not_elem_of_nil]%elem_of_cons]%elem_of_cons; apply settled_exactly; vm_compute.
Qed.

(** Uninterrupted; interrupted when one file is changed; recovered. *)
Definition halfway : disk := (setup no_faults 16 before).1.
Example setup_applies : seen (setup no_faults 100 before).1 = (Some "A", None, None).
Proof. vm_compute. reflexivity. Qed.
Example setup_halfway : seen halfway = (Some "A", Some "s", Some "p").
Proof. vm_compute. reflexivity. Qed.
Example setup_recovers :
  let '(d, r) := recover 100 (recover 5 halfway).1 in (seen d, r) = (Some "a", Some "s", None, Some (Ok ())).
Proof. vm_compute. reflexivity. Qed.

(** The journal says committed, its directory could not be synced, and the
    rollback that follows is interrupted: the recovery believes the journal. *)
Definition journal_sync_fails : schedule := fun R o k =>
  match o with SyncDirectory path => bool_decide (path = jp) && (20 <? k)%nat | _ => false end.
Example committed_before_rollback :
  let '(d, r) := recover 100 (setup journal_sync_fails 32 before).1 in (seen d, r) = (Some "A", Some "s", None, Some (Ok ())).
Proof. vm_compute. reflexivity. Qed.

(** A recovery killed before it syncs a restored file; the next one finds the
    file restored and removes the journal, and a power loss can still undo it. *)
Example restored_but_not_synced :
  let '(d, r) := recover 100 (recover 7 halfway).1 in
  (contents_at d jp, durable (cell_of d jp), durable (cell_of d config), r) =
  (None, [None], [Some "a"; Some "A"], Some (Ok ())).
Proof. vm_compute. reflexivity. Qed.

(** A disk that is synced survives a power loss as it is. *)
Lemma synced_restart d : map_Forall (fun _ c => durable c = [visible c]) d -> restart PowerLoss d d.
Proof.
  intros H path. unfold cell_of. destruct (d !! path) as [[v ds]|] eqn:Ep; cbn.
  - specialize (H path _ Ep). cbn in H. exists v. subst ds. split; [by left|done].
  - exists None. split; [by left|done].
Qed.
Lemma halfway_synced : map_Forall (fun _ c => durable c = [visible c]) halfway.
Proof. apply (bool_decide_unpack _). vm_compute. reflexivity. Qed.

Lemma ended {A B} (p : A * B) b : p.2 = b -> p = (p.1, b).
Proof. destruct p. by intros <-. Qed.
Lemma halfway_run : setup no_faults 16 before = (halfway, None).
Proof. apply ended. vm_compute. reflexivity. Qed.
Definition halfway_again : disk := (recover 5 halfway).1.
Lemma recovered_run : recover 100 halfway_again = ((recover 100 halfway_again).1, Some (Ok ())).
Proof. apply ended. vm_compute. reflexivity. Qed.

Lemma setup_is_atomic_witness :
  contents_at (recover 100 halfway_again).1 jp = None /\
  (files_at hash plan mv_original (recover 100 halfway_again).1 \/
   files_at hash plan mv_target (recover 100 halfway_again).1).
Proof.
  assert (interrupted Killed from_str hash (transaction_root plan) halfway halfway_again) as Hint.
  { apply (interrupted_again _ _ _ _ halfway halfway halfway_again _ no_faults 5 (recover 5 halfway).2).
    - reflexivity.
    - apply no_faults_respects.
    - apply surjective_pairing.
    - apply interrupted_here. }
  destruct (setup_is_atomic Killed to_string from_str hash plan codec well_planned_plan
    before halfway halfway_again halfway_again _ no_faults no_faults 16 100 None
    (planned_before _) halfway_run
    (mixed_again _ _ _ _ halfway halfway halfway_again _ no_faults 5 (recover 5 halfway).2
       (or_introl eq_refl) (surjective_pairing _) (mixed_here _ _ _ _ _))
    (or_introl eq_refl) recovered_run) as (Hj & _ & Hall).
  split; [exact Hj|]. exact (Hall (no_faults_respects _ _) (no_faults_respects _ _) Hint eq_refl).
Defined.


(** The configuration reads otherwise. *)
Definition edited : disk := <[config := settled (Some "b")]> before.
Lemma changed_file_stops_plan_witness :
  (setup no_faults 100 edited).1 = edited /\
  forall o, (setup no_faults 100 edited).2 = Some o -> exists e, o = failed_outcome plan (NotApplied e).
Proof.
  apply (changed_file_stops_plan to_string hash plan config (Some "a") edited _ no_faults 100).
  - left. exists (nth 0 (edits plan) (Build_PlannedClientEdit (Build_ClientSetupPlan Codex [] Update true) (EditNotConfigured None))).
    split; [left|by split].
  - vm_compute. discriminate.
  - apply surjective_pairing.
Defined.
End Demo.
