(* ===== verification/Fifo.v ===== *)
(** * A bounded first-in first-out cache

    The shape shared by the two caches of [RegistryState] in
    [src/src/services/read_delta.rs]: a hash map, the queue of its keys in
    insertion order and a byte counter.  It refines the list of its entries,
    oldest first. *)

From S2P Require Import Prelude.
Open Scope Z_scope.

(** A cached value has a size and the instant it was inserted at. *)
Class Cached (V : Type) := {
  cached_bytes : V -> Z;
  inserted_at : V -> Z
}.

Record fifo (K V : Type) `{Countable K} := mk_fifo {
  entries : gmap K V;
  insertion_order : list K;
  total_bytes : Z
}.
Arguments mk_fifo {K V _ _} _ _ _.
Arguments entries {K V _ _} _.
Arguments insertion_order {K V _ _} _.
Arguments total_bytes {K V _ _} _.

Section Fifo.
Context {K V : Type} `{Countable K} `{!Cached V}.
(** The bounds and the time to live. *)
Variable max_entry_bytes : Z.
Variable max_entries : Z.
Variable max_bytes : Z.
Variable ttl : Z.
Implicit Types (c : fifo K V) (l : list (K * V)) (k : K) (v : V).

Definition empty_fifo : fifo K V := mk_fifo ∅ [] 0.

(** [Instant::duration_since], which saturates, against the time to live. *)
Definition expired (now : Z) (v : V) : bool := ttl <=? Z.max (now - inserted_at v) 0.

(** ** Operations *)

(** What [evict_oldest] does with the key it popped. *)
Definition without k (m : gmap K V) (total : Z) : gmap K V * Z :=
  match m !! k with
  | Some v => (delete k m, u64_saturating_sub total (cached_bytes v))
  | None => (m, total)
  end.
Definition evict_oldest c : bool * fifo K V :=
  match insertion_order c with
  | [] => (false, c)
  | k :: ks => let '(m, total) := without k (entries c) (total_bytes c) in (true, mk_fifo m ks total)
  end.

(** The loop of [prune_expired] over the front of the queue. *)
Fixpoint prune_front (now : Z) (rounds : list K) c : fifo K V :=
  match rounds, insertion_order c with
  | _ :: rounds, k :: _ =>
    if match entries c !! k with Some v => expired now v | None => true end
    then prune_front now rounds (evict_oldest c).2
    else c
  | _, _ => c
  end.
Definition prune_expired (now : Z) c : fifo K V := prune_front now (insertion_order c) c.

Definition over_bounds (bytes : Z) c : bool :=
  (max_entries <=? Z.of_nat (size (entries c)))
  || (max_bytes <? u64_saturating_add (total_bytes c) bytes).
(** The eviction loop of [insert]: at most one round per key of the queue, and
    a round that finds the queue empty breaks. *)
Fixpoint make_room (bytes : Z) (rounds : list K) c : fifo K V :=
  if over_bounds bytes c then
    match rounds with
    | [] => c
    | _ :: rounds => let '(evicted, c) := evict_oldest c in if evicted then make_room bytes rounds c else c
    end
  else c.

(** Forget a previous value of the key. *)
Definition forget k c : fifo K V :=
  match entries c !! k with
  | Some previous =>
    mk_fifo (delete k (entries c)) (List.filter (fun k' => negb (bool_decide (k' = k))) (insertion_order c))
      (u64_saturating_sub (total_bytes c) (cached_bytes previous))
  | None => c
  end.

Definition insert (now : Z) k v c : fifo K V :=
  if max_entry_bytes <? cached_bytes v then c
  else
    let c := forget k (prune_expired now c) in
    let c := make_room (cached_bytes v) (insertion_order c) c in
    if (Z.of_nat (size (entries c)) <? max_entries)
       && (u64_saturating_add (total_bytes c) (cached_bytes v) <=? max_bytes)
    then mk_fifo (<[k := v]> (entries c)) (insertion_order c ++ [k]) (total_bytes c + cached_bytes v)
    else c.

(** ** The abstract cache: its entries, oldest first *)
Definition bytes_of l : Z := foldr (fun kv acc => cached_bytes kv.2 + acc) 0 l.
Fixpoint drop_expired (now : Z) l : list (K * V) :=
  match l with
  | (k, v) :: l' => if expired now v then drop_expired now l' else l
  | [] => []
  end.
(** The longest suffix that leaves room for one more entry. *)
Fixpoint fitting (bytes : Z) l : list (K * V) :=
  match l with
  | _ :: l' =>
    if (len l <? max_entries) && (bytes_of l + bytes <=? max_bytes) then l else fitting bytes l'
  | [] => []
  end.
Definition spec_insert (now : Z) k v l : list (K * V) :=
  if max_entry_bytes <? cached_bytes v then l
  else fitting (cached_bytes v) (List.filter (fun kv => negb (bool_decide (kv.1 = k))) (drop_expired now l))
       ++ [(k, v)].

Record represents c l : Prop := {
  rp_order : insertion_order c = l.*1;
  rp_nodup : NoDup l.*1;
  rp_entries : entries c = list_to_map l;
  rp_bytes : total_bytes c = bytes_of l
}.
Record within_bounds l : Prop := {
  wb_count : len l <= max_entries;
  wb_bytes : bytes_of l <= max_bytes;
  wb_each : Forall (fun kv => 0 <= cached_bytes kv.2 <= max_entry_bytes) l
}.

(** ** Lemmas *)
Hypothesis max_entries_pos : 0 < max_entries.
Hypothesis max_bytes_ok : max_entry_bytes <= max_bytes < U64_MAX.

Definition sized l : Prop := Forall (fun kv => 0 <= cached_bytes kv.2) l.
Lemma bytes_of_nonneg l : sized l -> 0 <= bytes_of l.
Proof. unfold bytes_of. induction 1; cbn; lia. Qed.
Lemma bytes_of_app l1 l2 : bytes_of (l1 ++ l2) = bytes_of l1 + bytes_of l2.
Proof. unfold bytes_of. induction l1; cbn; lia. Qed.
Lemma bytes_of_sublist l1 l2 : sized l2 -> sublist l1 l2 -> bytes_of l1 <= bytes_of l2.
Proof. unfold bytes_of. intros Hs. induction 1; inversion Hs; subst; cbn; [lia|..]; intuition lia. Qed.
Lemma within_sublist l1 l2 : sublist l1 l2 -> within_bounds l2 -> within_bounds l1.
Proof.
  intros Hs [C B E]. split.
  - apply sublist_length in Hs. unfold len in *. lia.
  - apply bytes_of_sublist in Hs; [lia|]. eapply Forall_impl; [exact E|]. cbn. lia.
  - rewrite Forall_forall in *. intros kv Hkv. apply E.
    eapply elem_of_submseteq; [exact Hkv|by apply sublist_submseteq].
Qed.
Lemma within_sized l : within_bounds l -> sized l.
Proof. intros [_ _ E]. eapply Forall_impl; [exact E|]. cbn. lia. Qed.

Lemma represents_size c l : represents c l -> Z.of_nat (size (entries c)) = len l.
Proof. intros [_ N -> _]. rewrite map_size_list_to_map by done. unfold len. done. Qed.
Lemma represents_lookup c l k v : represents c l -> entries c !! k = Some v <-> (k, v) ∈ l.
Proof. intros [_ N -> _]. split; [apply elem_of_list_to_map_2|by apply elem_of_list_to_map_1]. Qed.
Lemma fifo_represents_empty : represents empty_fifo [].
Proof. split; [done|constructor|done|done]. Qed.

Lemma evict_represents c k v l : within_bounds ((k, v) :: l) -> represents c ((k, v) :: l) ->
  (evict_oldest c).1 = true /\ represents (evict_oldest c).2 l.
Proof.
  intros Hw [O N E B]. pose proof (within_sized _ Hw) as Hs.
  unfold evict_oldest. rewrite O. cbn [fmap list_fmap fst].
  unfold without. rewrite E. cbn [list_to_map foldr uncurry fst]. rewrite lookup_insert_eq.
  cbn in N. apply NoDup_cons in N as [Hk N]. split; [done|]. split; cbn; [done|done| |].
  - rewrite delete_insert_id; [done|]. by apply not_elem_of_list_to_map.
  - apply Forall_cons in Hs as [Hv Hs]. apply bytes_of_nonneg in Hs. rewrite B. cbn in *.
    rewrite u64_saturating_sub_exact by (unfold bytes_of in *; lia). unfold bytes_of. lia.
Qed.

Lemma prune_represents now rounds c l : (length l <= length rounds)%nat -> within_bounds l ->
  represents c l -> represents (prune_front now rounds c) (drop_expired now l).
Proof.
  revert c l. induction rounds as [|r rounds IH]; intros c l Hr Hw Hc.
  { destruct l; [done|cbn in Hr; lia]. }
  cbn [prune_front]. rewrite (rp_order _ _ Hc). destruct l as [|[k v] l]; cbn; [done|].
  rewrite (proj2 (represents_lookup c _ k v Hc)) by (by left).
  destruct (expired now v); [|done]. apply IH; [cbn in Hr; lia| |].
  - eapply within_sublist; [by apply sublist_cons|done].
  - by eapply evict_represents.
Qed.
Lemma drop_expired_sublist now l : sublist (drop_expired now l) l.
Proof.
  induction l as [|[k v] l IH]; cbn; [done|]. destruct (expired now v); [|done]. by apply sublist_cons.
Qed.

Definition all_but k l : list (K * V) := List.filter (fun kv => negb (bool_decide (kv.1 = k))) l.
Lemma all_but_sublist k l : sublist (all_but k l) l.
Proof.
  induction l as [|kv l IH]; cbn; [done|]. destruct (negb _); [by apply sublist_skip|by apply sublist_cons].
Qed.
Lemma all_but_elem k l kv : kv ∈ all_but k l <-> kv.1 <> k /\ kv ∈ l.
Proof.
  unfold all_but. rewrite !list_elem_of_In, filter_In, negb_true_iff, bool_decide_eq_false. tauto.
Qed.
Lemma all_but_absent k l : k ∉ l.*1 -> all_but k l = l.
Proof.
  unfold all_but. induction l as [|kv l IH]; cbn; [done|]. rewrite not_elem_of_cons. intros [Hne Hl].
  rewrite bool_decide_eq_false_2 by done. cbn. by rewrite IH.
Qed.

Lemma forget_represents k c l : within_bounds l -> represents c l -> represents (forget k c) (all_but k l).
Proof.
  intros Hw Hc. unfold forget. destruct (entries c !! k) as [v|] eqn:Hk.
  2: { rewrite all_but_absent; [done|]. destruct Hc as [_ _ E _]. rewrite E in Hk.
       by apply not_elem_of_list_to_map in Hk. }
  apply (represents_lookup c l k v Hc) in Hk. destruct Hc as [O N E B].
  apply list_elem_of_split in Hk as (l1 & l2 & ->).
  rewrite fmap_app in N. cbn in N.
  assert (Hnot : k ∉ l1.*1 /\ k ∉ l2.*1) by (apply NoDup_app in N as (_ & N1 & N2);
    apply NoDup_cons in N2 as [? _]; split; [|done]; intros Hin; by apply (N1 k Hin); left).
  destruct Hnot as [H1 H2].
  assert (Hall : all_but k (l1 ++ (k, v) :: l2) = l1 ++ l2).
  { unfold all_but. rewrite List.filter_app. cbn. rewrite bool_decide_eq_true_2 by done. cbn.
    fold (all_but k l1). fold (all_but k l2). by rewrite !all_but_absent. }
  assert (Hfilter : forall ks : list K, k ∉ ks -> List.filter (fun k' => negb (bool_decide (k' = k))) ks = ks).
  { induction ks as [|k' ks IH]; cbn; [done|]. rewrite not_elem_of_cons. intros [Hne Hks].
    rewrite bool_decide_eq_false_2 by done. cbn. by rewrite IH. }
  rewrite Hall. split; cbn [insertion_order entries total_bytes].
  - rewrite O, !fmap_app, List.filter_app. cbn. rewrite bool_decide_eq_true_2 by done. cbn.
    by rewrite !Hfilter.
  - rewrite fmap_app. eapply sublist_NoDup; [exact N|]. apply sublist_app; [done|by apply sublist_cons].
  - rewrite E. apply map_eq. intros i. destruct (decide (i = k)) as [->|Hi].
    + rewrite lookup_delete_eq. symmetry. apply not_elem_of_list_to_map. rewrite fmap_app, elem_of_app. tauto.
    + rewrite lookup_delete_ne by done. rewrite !list_to_map_app, !lookup_union. cbn.
      by rewrite lookup_insert_ne by done.
  - pose proof (within_sized _ Hw) as Hs. apply Forall_app in Hs as [Hs1 Hs2].
    apply Forall_cons in Hs2 as [Hv Hs2]. apply bytes_of_nonneg in Hs1, Hs2.
    rewrite B, !bytes_of_app in *. cbn in *. unfold bytes_of in *.
    rewrite u64_saturating_sub_exact by lia. cbn. lia.
Qed.

Lemma over_bounds_spec bytes c l : 0 <= bytes <= max_entry_bytes -> within_bounds l -> represents c l ->
  over_bounds bytes c = negb ((len l <? max_entries) && (bytes_of l + bytes <=? max_bytes)).
Proof.
  intros Hb Hw Hc. unfold over_bounds. rewrite (represents_size c l Hc), (rp_bytes _ _ Hc).
  pose proof (bytes_of_nonneg _ (within_sized _ Hw)). destruct Hw as [_ Hw _].
  rewrite negb_andb. f_equal; [by rewrite Z.leb_antisym|]. unfold u64_saturating_add.
  destruct (bytes_of l + bytes <=? max_bytes) eqn:E; bool_to_prop; [apply Z.ltb_ge|apply Z.ltb_lt]; lia.
Qed.

Lemma make_room_represents bytes rounds c l : (length l <= length rounds)%nat ->
  0 <= bytes <= max_entry_bytes -> within_bounds l -> represents c l ->
  represents (make_room bytes rounds c) (fitting bytes l).
Proof.
  revert c l. induction rounds as [|r rounds IH]; intros c l Hr Hb Hw Hc; cbn [make_room];
    rewrite (over_bounds_spec bytes c l) by done.
  { destruct l; [|cbn in Hr; lia]. by destruct (negb _). }
  destruct l as [|[k v] l].
  - destruct (negb _); [|done]. unfold evict_oldest. by rewrite (rp_order _ _ Hc).
  - cbn [fitting]. destruct ((len _ <? max_entries) && _); cbn [negb]; [done|].
    destruct (evict_represents c k v l Hw Hc) as [He Hc'].
    destruct (evict_oldest c) as [evicted c']. cbn in He, Hc'. rewrite He. apply IH; [cbn in Hr; lia|done| |done].
    eapply within_sublist; [by apply sublist_cons|done].
Qed.
Lemma fitting_sublist bytes l : sublist (fitting bytes l) l.
Proof.
  induction l as [|kv l IH]; cbn [fitting]; [done|]. destruct (_ && _); [done|]. by apply sublist_cons.
Qed.
Lemma fitting_fits bytes l : bytes <= max_entry_bytes ->
  len (fitting bytes l) < max_entries /\ bytes_of (fitting bytes l) + bytes <= max_bytes.
Proof.
  intros Hb. induction l as [|kv l IH]; cbn [fitting].
  { unfold len, bytes_of. cbn. lia. }
  destruct ((len (kv :: l) <? max_entries) && _) eqn:E; [|done]. bool_to_prop. by split.
Qed.

(** The concrete insertion implements the abstract one and keeps the bounds. *)
Lemma insert_represents now k v c l : 0 <= cached_bytes v -> within_bounds l -> represents c l ->
  represents (insert now k v c) (spec_insert now k v l) /\ within_bounds (spec_insert now k v l).
Proof.
  intros Hv Hw Hc. unfold insert, spec_insert. destruct (max_entry_bytes <? cached_bytes v) eqn:Hbig; [done|].
  bool_to_prop. set (l1 := drop_expired now l). fold (all_but k l1).
  assert (Hw1 : within_bounds l1) by (eapply within_sublist; [apply drop_expired_sublist|done]).
  assert (Hc1 : represents (prune_expired now c) l1).
  { apply prune_represents; [|done|done]. rewrite (rp_order _ _ Hc). by rewrite length_fmap. }
  assert (Hw2 : within_bounds (all_but k l1)) by (eapply within_sublist; [apply all_but_sublist|done]).
  pose proof (forget_represents k _ _ Hw1 Hc1) as Hc2.
  set (c2 := forget k (prune_expired now c)) in *.
  assert (Hc3 : represents (make_room (cached_bytes v) (insertion_order c2) c2)
                  (fitting (cached_bytes v) (all_but k l1))).
  { apply make_room_represents; [|lia|done|done]. rewrite (rp_order _ _ Hc2). by rewrite length_fmap. }
  set (c3 := make_room _ _ c2) in *. set (l3 := fitting _ _) in *.
  destruct (fitting_fits (cached_bytes v) (all_but k l1)) as [F1 F2]; [done|]. fold l3 in F1, F2.
  assert (Hw3 : within_bounds l3) by (eapply within_sublist; [apply fitting_sublist|done]).
  pose proof (bytes_of_nonneg _ (within_sized _ Hw3)) as Hpos.
  rewrite (represents_size c3 l3 Hc3), (proj2 (Z.ltb_lt _ _) F1). cbn [andb].
  rewrite (rp_bytes _ _ Hc3), u64_saturating_add_exact, (proj2 (Z.leb_le _ _) F2) by lia.
  assert (Hfresh : k ∉ l3.*1).
  { intros ((k' & v') & -> & Hin)%list_elem_of_fmap.
    assert (Hin' : (k', v') ∈ all_but k' l1)
      by (eapply elem_of_submseteq; [exact Hin|apply sublist_submseteq, fitting_sublist]).
    apply all_but_elem in Hin' as [Hne _]. by apply Hne. }
  destruct Hc3 as [O N E B]. split; split; cbn [insertion_order entries total_bytes].
  - by rewrite O, fmap_app.
  - rewrite fmap_app. apply NoDup_app. split; [done|]. split; [|apply NoDup_singleton].
    intros x Hx. cbn. rewrite list_elem_of_singleton. by intros ->.
  - rewrite E, list_to_map_snoc by done. done.
  - rewrite bytes_of_app. unfold bytes_of. cbn. lia.
  - unfold len in *. rewrite length_app. cbn. lia.
  - rewrite bytes_of_app. unfold bytes_of in *. cbn. lia.
  - apply Forall_app. split; [apply Hw3|]. repeat constructor; cbn; lia.
Qed.
End Fifo.
