(* ===== verification/DeltaRegistry.v ===== *)
(** * Read deltas: [src/src/services/read_delta.rs]

    The process-local registry of read-delta bases and computed deltas, and
    [ReadDeltaRegistry::evaluate], which decides whether a repeated read is
    answered with nothing, with a difference or in full.  The registry is
    behind a mutex and the persistent bases (module [DeltaStore]) behind
    transactions, so an evaluation is a sequence of atomic steps between which
    other readers act. *)

From stdpp Require Import pretty.
From S2P Require Import Prelude Chars Bytes Order Store Receipt Table DeltaStore Fifo.
Open Scope Z_scope.
Open Scope store_scope.

(** [Instant]s and durations are in nanoseconds. *)
Definition READ_DELTA_TTL : Z := 30 * 60 * 1000000000.

(** ** The registry *)
Record CacheKey := mk_cache_key { target_key_of : string; content_hash_of : string }.
#[export] Instance cache_key_eq_dec : EqDecision CacheKey.
Proof. solve_decision. Defined.
#[export] Instance cache_key_countable : Countable CacheKey :=
  inj_countable' (fun k => (target_key_of k, content_hash_of k)) (fun '(a, b) => mk_cache_key a b)
    (fun k => match k with mk_cache_key _ _ => eq_refl end).

Record DeltaCacheKey := mk_delta_key {
  delta_target : string;
  delta_base_hash : string;
  delta_head_hash : string;
  delta_start_line : Z;
  delta_end_line : Z
}.
#[export] Instance delta_cache_key_eq_dec : EqDecision DeltaCacheKey.
Proof. solve_decision. Defined.
#[export] Instance delta_cache_key_countable : Countable DeltaCacheKey :=
  inj_countable'
    (fun k => (delta_target k, delta_base_hash k, delta_head_hash k, delta_start_line k, delta_end_line k))
    (fun '(a, b, c, d, e) => mk_delta_key a b c d e)
    (fun k => match k with mk_delta_key _ _ _ _ _ => eq_refl end).

Record CacheEntry := mk_entry { entry_base : ReadDeltaBase; entry_inserted_at : Z }.
Record DeltaCacheEntry := mk_delta_entry { delta_text : string; delta_inserted_at : Z }.
#[export] Instance cached_entry : Cached CacheEntry :=
  {| cached_bytes e := str_len (content (entry_base e)); inserted_at := entry_inserted_at |}.
#[export] Instance cached_delta : Cached DeltaCacheEntry :=
  {| cached_bytes e := str_len (delta_text e); inserted_at := delta_inserted_at |}.

(** [poisoned] says that a thread panicked while it held the mutex. *)
Record RegistryState := mk_registry {
  bases : fifo CacheKey CacheEntry;
  deltas : fifo DeltaCacheKey DeltaCacheEntry;
  poisoned : bool
}.

Definition prune_registry (now : Z) (r : RegistryState) : RegistryState :=
  mk_registry (prune_expired READ_DELTA_TTL now (bases r)) (prune_expired READ_DELTA_TTL now (deltas r))
    (poisoned r).
Definition cache_insert {K V} `{Countable K} `{!Cached V} (now : Z) (k : K) (v : V) (c : fifo K V)
    : fifo K V :=
  insert MAX_READ_DELTA_BASE_BYTES MAX_READ_DELTA_BASES MAX_TOTAL_READ_DELTA_BASE_BYTES READ_DELTA_TTL
    now k v c.

Definition lookup_base (target_key content_hash : string) (now : Z) (r : RegistryState)
    : option CacheEntry * RegistryState :=
  let r := prune_registry now r in (entries (bases r) !! mk_cache_key target_key content_hash, r).
Definition latest_base (target_key : string) (c : fifo CacheKey CacheEntry) : option (string * CacheEntry) :=
  head (omap (fun k => if bool_decide (target_key_of k = target_key)
                       then (fun e => (content_hash_of k, e)) <$> entries c !! k
                       else None) (rev (insertion_order c))).
Definition lookup_latest (target_key : string) (now : Z) (r : RegistryState)
    : option (string * CacheEntry) * RegistryState :=
  let r := prune_registry now r in (latest_base target_key (bases r), r).
Definition lookup_delta (key : DeltaCacheKey) (now : Z) (r : RegistryState)
    : option string * RegistryState :=
  let r := prune_registry now r in (delta_text <$> entries (deltas r) !! key, r).
(** An oversized value returns before the lock is taken, so nothing is pruned. *)
Definition insert_base (key : CacheKey) (e : CacheEntry) (now : Z) (r : RegistryState)
    : RegistryState :=
  if MAX_READ_DELTA_BASE_BYTES <? str_len (content (entry_base e)) then r
  else
    let r := prune_registry now r in
    mk_registry (cache_insert now key e (bases r)) (deltas r) (poisoned r).
Definition insert_delta (key : DeltaCacheKey) (delta : string) (now later : Z) (r : RegistryState)
    : RegistryState :=
  if MAX_READ_DELTA_BASE_BYTES <? str_len delta then r
  else
    let r := prune_registry now r in
    mk_registry (bases r) (cache_insert now key (mk_delta_entry delta later) (deltas r)) (poisoned r).

(** ** The key of a target *)
Inductive NewReadTarget :=
| ReadSymbol (symbol : string)
| ReadHeading (name : string) (occurrence : Z)
| ReadLines (start : Z) (finish : option Z).

Definition NUL : bytes := [0].
Definition target_material (repository_id path : string) (target : NewReadTarget) : bytes :=
  string_bytes repository_id ++ NUL ++ string_bytes path ++ NUL
  ++ match target with
     | ReadSymbol symbol => string_bytes "symbol" ++ NUL ++ string_bytes symbol
     | ReadHeading name occurrence =>
       string_bytes "heading" ++ NUL ++ string_bytes name ++ NUL ++ le64 occurrence
     | ReadLines start finish => string_bytes "lines" ++ NUL ++ le64 start ++ le64 (default U64_MAX finish)
     end.

(** ** Evaluation *)
Inductive ReadDeltaOutcome := OutcomeFull | OutcomeDelta | OutcomeNotModified.
Inductive ReadDeltaFallback :=
| BaseUnavailable | TargetChanged | CurrentTruncated | ContentTooLarge | DeltaNotSmaller.
Inductive ReadDeltaBaseSource := ProcessLocal | Persistent.
Inductive ReadDeltaPersistenceFallback :=
| PersistTruncated | PersistTooLarge | LiveDiffersFromIndex | IndexedHashUnavailable | StorageCapacity.

(** The fields of [ReadResponse] in use. *)
Record ReadResponse := mk_response {
  response_path : string;
  response_hash : string;
  response_generation : Z;
  response_target_start : Z;
  response_target_end : option Z;
  response_start : Z;
  response_end : Z;
  truncated : bool;
  indexed_hash : option string;
  index_stale : bool
}.
Record ReadDeltaInput := mk_input {
  repository_id : string;
  input_path : string;
  input_target : NewReadTarget;
  expected_hash : option string;
  response : ReadResponse;
  current_content : string;
  full_tokens : Z
}.
Record ReadDeltaReceipt := mk_delta_receipt {
  receipt_target_key : string;
  base_hash : option string;
  head_hash : string;
  base_generation : option Z;
  base_source : option ReadDeltaBaseSource;
  head_generation : Z;
  delta_outcome : ReadDeltaOutcome;
  receipt_full_tokens : Z;
  delta_tokens : option Z;
  avoided_tokens : Z;
  head_persisted : bool;
  persistence_fallback_reason : option ReadDeltaPersistenceFallback;
  fallback_reason : option ReadDeltaFallback
}.
Definition ReadDeltaEvaluation : Type := option string * ReadDeltaReceipt.

(** What the readers of a repository share. *)
Record shared := mk_shared { registry : RegistryState; disk : delta_table }.

Section Evaluate.
(** [text::hash], BLAKE3 in hexadecimal, the tokenizer, and the unified diff of
    the [similar] crate with three lines of context: base, head and headers. *)
Variable hash : string -> string.
Variable blake3 : bytes -> string.
Variable count_tokens : string -> Z.
Variable unified_diff : string -> string -> string -> string -> string.
(** What the others did before the [i]-th step, and the clocks at it. *)
Variable others : nat -> shared -> shared.
Variable instant : nat -> Z.
Variable wall : nat -> Z.

Definition target_key (repository_id path : string) (target : NewReadTarget) : string :=
  blake3 (target_material repository_id path target).

(** *** Steps *)
Definition action (A : Type) : Type := nat * shared -> run (result A * (nat * shared)).
Definition returns {A} (a : A) : action A := fun st => Done (Ok a, st).
Definition fails {A} (e : error) : action A := fun st => Done (Err e, st).
Definition and_then {A B} (m : action A) (k : A -> action B) : action B := fun st =>
  run_bind (m st) (fun '(r, st) => match r with Ok a => k a st | Err e => Done (Err e, st) end).
Notation "'do*' x ':=' m 'in' k" := (and_then m (fun x => k))
  (at level 10, x pattern, m at level 100, k at level 200).

Definition now : action Z := fun '(i, s) => Done (Ok (instant i), (S i, others i s)).
(** A critical section of the registry's mutex. *)
Definition locked {A} (f : Z -> Z -> RegistryState -> A * RegistryState) : action A := fun '(i, s) =>
  let s := others i s in
  if poisoned (registry s)
  then Done (Err (OperationFailure "read delta registry poisoned"), (S i, s))
  else let '(a, r) := f (instant i) (instant (S i)) (registry s) in
       Done (Ok a, (S (S i), mk_shared r (disk s))).
(** [storage.read_delta_base] and [latest_read_delta_base]: a reader snapshot,
    then the writer. *)
Definition stored_base (key : string) (ch : option string) : action (option (string * ReadDeltaBase)) :=
  fun '(i, s) =>
  let s1 := others i s in
  let s2 := others (S i) s1 in
  let '(t, r) := run_tx (disk s2)
    (read_delta_base_with_clock hash key ch (wall i) (disk s1) (wall (S i)) (disk s2)) in
  Done (r, (S (S i), mk_shared (registry s2) t)).
Definition persist_base (key content_hash : string) (base : ReadDeltaBase) : action bool := fun '(i, s) =>
  let s := others i s in
  run_bind (persist_read_delta_base_with_clock hash key content_hash base (wall i) (disk s)) (fun out =>
  let '(t, r) := run_tx (disk s) out in Done (r, (S i, mk_shared (registry s) t))).

(** *** [evaluate] *)

(** The base to compare with: its hash, the base and where it was found. *)
Definition select_base (key : string) (expected : option string)
    : action (option (string * ReadDeltaBase * ReadDeltaBaseSource)) :=
  match expected with
  | Some h =>
    do* local := locked (fun t _ => lookup_base key h t) in
    match local with
    | Some e => returns (Some (h, entry_base e, ProcessLocal))
    | None => do* stored := stored_base key (Some h) in
              returns ((fun '(_, b) => (h, b, Persistent)) <$> stored)
    end
  | None =>
    do* local := locked (fun t _ => lookup_latest key t) in
    do* stored := stored_base key None in
    returns match local, stored with
            | Some (h, e), Some (sh, sb) =>
              if generation sb <=? generation (entry_base e)
              then Some (h, entry_base e, ProcessLocal) else Some (sh, sb, Persistent)
            | Some (h, e), None => Some (h, entry_base e, ProcessLocal)
            | None, Some (sh, sb) => Some (sh, sb, Persistent)
            | None, None => None
            end
  end.

Definition target_coordinates_changed (base : ReadDeltaBase) (head : ReadResponse) : bool :=
  negb ((target_start_line base =? response_target_start head)
        && bool_decide (Some (target_end_line base) = response_target_end head)
        && (returned_start_line base =? response_start head)
        && (returned_end_line base =? response_end head)).

(** [format!("base/{}:{}-{}")]. *)
Definition diff_header (side path : string) (first last : Z) : string :=
  (side ++ "/" ++ path ++ ":" ++ pretty.pretty first ++ "-" ++ pretty.pretty last)%string.
Definition delta_between (path : string) (first last : Z) (base head : string) : string :=
  unified_diff base head (diff_header "base" path first last) (diff_header "head" path first last).

(** The delta, from the cache or computed and cached. *)
Definition full_delta (key base_hash : string) (base : ReadDeltaBase) (r : ReadResponse) (current : string)
    : action string :=
  let delta_key := mk_delta_key key base_hash (response_hash r) (response_start r) (response_end r) in
  do* cached := locked (fun t _ => lookup_delta delta_key t) in
  match cached with
  | Some d => returns d
  | None =>
    let computed := delta_between (response_path r) (response_start r) (response_end r)
                      (content base) current in
    if MAX_READ_DELTA_BASE_BYTES <? str_len computed then returns computed
    else do* _ := locked (fun t later r => ((), insert_delta delta_key computed t later r)) in
         returns computed
  end.

(** What the comparison decides. *)
Record decision := mk_decision {
  dec_delta : option string;
  dec_base_hash : option string;
  dec_base_generation : option Z;
  dec_base_source : option ReadDeltaBaseSource;
  dec_outcome : ReadDeltaOutcome;
  dec_delta_tokens : option Z;
  dec_avoided : Z;
  dec_fallback : option ReadDeltaFallback
}.
Definition full_because (reason : ReadDeltaFallback) (h : option string) (g : option Z)
    (source : option ReadDeltaBaseSource) : decision :=
  mk_decision None h g source OutcomeFull None 0 (Some reason).
Definition unmodified (full : Z) (h : option string) (g : option Z)
    (source : option ReadDeltaBaseSource) : decision :=
  mk_decision None h g source OutcomeNotModified (Some 0) full None.

Definition decide_delta (key : string) (input : ReadDeltaInput) : action decision :=
  let r := response input in
  let expected := expected_hash input in
  if bool_decide (expected = Some (response_hash r))
  then returns (unmodified (full_tokens input) expected None None)
  else if truncated r then returns (full_because CurrentTruncated expected None None)
  else if MAX_READ_DELTA_BASE_BYTES <? str_len (current_content input)
  then returns (full_because ContentTooLarge expected None None)
  else
    do* base := select_base key expected in
    match base with
    | None => returns (full_because BaseUnavailable expected None None)
    | Some (h, b, source) =>
      let g := Some (generation b) in
      if bool_decide (h = response_hash r)
      then returns (unmodified (full_tokens input) (Some h) g (Some source))
      else if target_coordinates_changed b r
      then returns (full_because TargetChanged (Some h) g (Some source))
      else
        do* d := full_delta key h b r (current_content input) in
        let tokens := count_tokens d in
        if tokens <? full_tokens input
        then returns (mk_decision (Some d) (Some h) g (Some source) OutcomeDelta (Some tokens)
                        (full_tokens input - tokens) None)
        else returns (full_because DeltaNotSmaller (Some h) g (Some source))
    end.

(** The current content is remembered, and persisted when it is eligible. *)
Definition persistence_fallback (input : ReadDeltaInput) : option ReadDeltaPersistenceFallback :=
  let r := response input in
  if truncated r then Some PersistTruncated
  else if MAX_READ_DELTA_BASE_BYTES <? str_len (current_content input) then Some PersistTooLarge
  else if index_stale r then Some LiveDiffersFromIndex
  else match indexed_hash r with None => Some IndexedHashUnavailable | Some _ => None end.
Definition current_base (input : ReadDeltaInput) (target_end : Z) : ReadDeltaBase :=
  let r := response input in
  mk_base (current_content input) (response_generation r) (response_target_start r) target_end
    (response_start r) (response_end r).
Definition remember (key : string) (input : ReadDeltaInput) (base : ReadDeltaBase) : action () :=
  if negb (truncated (response input))
     && (str_len (current_content input) <=? MAX_READ_DELTA_BASE_BYTES)
  then
    do* at_instant := now in
    locked (fun t _ r => ((), insert_base (mk_cache_key key (response_hash (response input)))
                                (mk_entry base at_instant) t r))
  else returns ().

Definition evaluate (input : ReadDeltaInput) : action ReadDeltaEvaluation :=
  let r := response input in
  match response_target_end r with
  | None => fails (OperationFailure "read delta requires a complete target end")
  | Some target_end =>
    let key := target_key (repository_id input) (input_path input) (input_target input) in
    do* d := decide_delta key input in
    let base := current_base input target_end in
    do* _ := remember key input base in
    let fallback := persistence_fallback input in
    do* persisted := match fallback with
                     | None => persist_base key (response_hash r) base
                     | Some _ => returns false
                     end in
    let fallback := match fallback with
                    | None => if persisted then None else Some StorageCapacity
                    | Some f => Some f
                    end in
    returns (dec_delta d,
      mk_delta_receipt key (dec_base_hash d) (response_hash r) (dec_base_generation d)
        (dec_base_source d) (response_generation r) (dec_outcome d) (full_tokens input)
        (dec_delta_tokens d) (dec_avoided d) persisted fallback (dec_fallback d))
  end.
End Evaluate.

(** ** Lemmas: the target key *)
Definition no_nul (b : bytes) : Prop := 0 ∉ b.
Lemma nul_terminated_inj a b r1 r2 : no_nul a -> no_nul b -> a ++ NUL ++ r1 = b ++ NUL ++ r2 ->
  a = b /\ r1 = r2.
Proof.
  unfold no_nul, NUL. revert b. induction a as [|x a IH]; intros [|y b] Ha Hb; cbn.
  - by intros [= ->].
  - intros [= <- _]. exfalso. apply Hb. by left.
  - intros [= -> _]. exfalso. apply Ha. by left.
  - rewrite not_elem_of_cons in Ha, Hb. intros [= -> He]. apply IH in He as [-> ->]; tauto.
Qed.

Definition valid_target (t : NewReadTarget) : Prop :=
  match t with
  | ReadSymbol _ => True
  | ReadHeading _ n => is_u64 n
  | ReadLines first last => is_u64 first /\ match last with Some l => 0 <= l < U64_MAX | None => True end
  end.
Record named (repository_id path : string) (target : NewReadTarget) : Prop := {
  nm_repository : no_nul (string_bytes repository_id);
  nm_path : no_nul (string_bytes path);
  nm_target : valid_target target
}.
Lemma target_material_inj r1 p1 t1 r2 p2 t2 : named r1 p1 t1 -> named r2 p2 t2 ->
  target_material r1 p1 t1 = target_material r2 p2 t2 -> r1 = r2 /\ p1 = p2 /\ t1 = t2.
Proof.
  intros [N1 N2 N3] [M1 M2 M3]. unfold target_material.
  intros (->%string_bytes_inj & He)%nul_terminated_inj; [|done|done].
  apply nul_terminated_inj in He as [->%string_bytes_inj He]; [|done|done].
  split; [done|]. split; [done|].
  destruct t1 as [s1|h1 n1|a1 b1], t2 as [s2|h2 n2|a2 b2]; try done;
    cbn in N3, M3; do 2 apply app_inv_head in He.
  - by apply string_bytes_inj in He as ->.
  - rewrite !app_assoc in He. apply app_inj_2 in He as [He Hn]; [|unfold le64; by rewrite !le_bytes_length].
    apply le64_inj in Hn as ->; [|done|done]. apply app_inj_2 in He as [->%string_bytes_inj _]; [done|done].
  - destruct N3 as [Na Nb], M3 as [Ma Mb]. apply le64_app_inj in He as [-> He]; [|done|done].
    assert (Hd : forall l, match l with Some l => 0 <= l < U64_MAX | None => True end ->
      is_u64 (default U64_MAX l)).
    { unfold is_u64. intros [l|] Hl; cbn; [lia|]. by unfold U64_MAX. }
    apply le64_inj in He; [|by apply Hd|by apply Hd].
    destruct b1, b2; cbn in He; try done; [congruence|lia|lia].
Qed.

(** ** Lemmas: the caches *)

(** The cache is a bounded queue, and [P] holds of its entries. *)
Definition cache_ok {K V} `{Countable K} `{!Cached V} (P : K -> V -> Prop) (c : fifo K V) : Prop :=
  exists l, represents c l
    /\ within_bounds MAX_READ_DELTA_BASE_BYTES MAX_READ_DELTA_BASES MAX_TOTAL_READ_DELTA_BASE_BYTES l
    /\ forall k v, (k, v) ∈ l -> P k v.

Section Caches.
Context {K V : Type} `{Countable K} `{!Cached V}.
Variable P : K -> V -> Prop.
Implicit Types (c : fifo K V) (l : list (K * V)).

Lemma cache_ok_lookup c k v : cache_ok P c -> entries c !! k = Some v -> P k v.
Proof. intros (l & Hc & _ & HP) Hk. apply HP. by apply (represents_lookup c l k v Hc). Qed.
Lemma sublist_elem (l1 l2 : list (K * V)) kv : sublist l1 l2 -> kv ∈ l1 -> kv ∈ l2.
Proof. intros Hs Hkv. eapply elem_of_submseteq; [exact Hkv|by apply sublist_submseteq]. Qed.
Lemma cache_ok_prune now c : cache_ok P c -> cache_ok P (prune_expired READ_DELTA_TTL now c).
Proof.
  intros (l & Hc & Hw & HP). exists (drop_expired READ_DELTA_TTL now l).
  pose proof (drop_expired_sublist READ_DELTA_TTL now l) as Hs. split; [|split].
  - eapply prune_represents; [..|exact Hw|exact Hc]; [done|].
    by rewrite (rp_order _ _ Hc), length_fmap.
  - by eapply within_sublist.
  - intros k v Hk. apply HP. by eapply sublist_elem.
Qed.
Lemma cache_ok_insert now k v c : cache_ok P c -> 0 <= cached_bytes v -> P k v ->
  cache_ok P (cache_insert now k v c).
Proof.
  intros (l & Hc & Hw & HP) Hv Hk.
  exists (spec_insert MAX_READ_DELTA_BASE_BYTES MAX_READ_DELTA_BASES MAX_TOTAL_READ_DELTA_BASE_BYTES
    READ_DELTA_TTL now k v l).
  assert (Hn : 0 < MAX_READ_DELTA_BASES) by done.
  assert (Hm : MAX_READ_DELTA_BASE_BYTES <= MAX_TOTAL_READ_DELTA_BASE_BYTES < U64_MAX) by done.
  destruct (insert_represents MAX_READ_DELTA_BASE_BYTES MAX_READ_DELTA_BASES
    MAX_TOTAL_READ_DELTA_BASE_BYTES READ_DELTA_TTL Hn Hm now k v c l Hv Hw Hc) as [Hc' Hw'].
  split; [done|]. split; [done|]. intros k' v'. unfold spec_insert.
  destruct (_ <? _); [apply HP|]. rewrite elem_of_app, list_elem_of_singleton.
  intros [Hin|[= -> ->]]; [|done]. apply HP.
  eapply sublist_elem; [apply (drop_expired_sublist READ_DELTA_TTL now)|].
  eapply sublist_elem; [apply (all_but_sublist k)|]. eapply sublist_elem; [apply fitting_sublist|exact Hin].
Qed.
End Caches.

Lemma latest_base_in key c h e : latest_base key c = Some (h, e) -> entries c !! mk_cache_key key h = Some e.
Proof.
  unfold latest_base. generalize (rev (insertion_order c)). intros ks.
  induction ks as [|[tk h'] ks IH]; cbn; [done|]. case_bool_decide as Hk; [|apply IH].
  destruct (entries c !! mk_cache_key tk h') as [e'|] eqn:He; cbn; [|apply IH].
  intros [= -> ->]. by rewrite <-Hk.
Qed.

(** ** The invariant *)
Section EvaluateFacts.
Variable hash : string -> string.
Variable blake3 : bytes -> string.
Variable count_tokens : string -> Z.
Variable unified_diff : string -> string -> string -> string -> string.
Hypothesis hash_inj : Inj (=) (=) hash.
Hypothesis blake3_inj : Inj (=) (=) blake3.
Abbreviation key_of := (target_key blake3).
Abbreviation between_texts := (delta_between unified_diff).

(** A base is filed under the hash of its content; a delta under the hashes of
    the two texts it was computed from, for the path of its target. *)
Definition base_filed (k : CacheKey) (e : CacheEntry) : Prop :=
  hash (content (entry_base e)) = content_hash_of k.
Definition delta_filed (k : DeltaCacheKey) (e : DeltaCacheEntry) : Prop :=
  exists repository path target base head, named repository path target
    /\ delta_target k = key_of repository path target
    /\ hash base = delta_base_hash k /\ hash head = delta_head_hash k
    /\ delta_text e = between_texts path (delta_start_line k) (delta_end_line k) base head.
Record registry_ok (r : RegistryState) : Prop := {
  ro_poison : poisoned r = false;
  ro_bases : cache_ok base_filed (bases r);
  ro_deltas : cache_ok delta_filed (deltas r)
}.
Record shared_ok (s : shared) : Prop := {
  so_registry : registry_ok (registry s);
  so_disk : delta_ok hash (disk s)
}.

Lemma prune_registry_ok now r : registry_ok r -> registry_ok (prune_registry now r).
Proof. intros [P B D]. split; cbn; [done|by apply cache_ok_prune|by apply cache_ok_prune]. Qed.
Lemma insert_base_ok k e now r : registry_ok r -> base_filed k e -> registry_ok (insert_base k e now r).
Proof.
  intros Hr Hk. unfold insert_base. destruct (_ <? _); [done|].
  destruct (prune_registry_ok now r Hr) as [P B D]. split; cbn [poisoned bases deltas]; [done| |done].
  apply cache_ok_insert; [done| |done]. cbn. unfold str_len. lia.
Qed.
Lemma insert_delta_ok k d now later r : registry_ok r -> delta_filed k (mk_delta_entry d later) ->
  registry_ok (insert_delta k d now later r).
Proof.
  intros Hr Hk. unfold insert_delta. destruct (_ <? _); [done|].
  destruct (prune_registry_ok now r Hr) as [P B D]. split; cbn [poisoned bases deltas]; [done|done|].
  apply cache_ok_insert; [done| |done]. cbn. unfold str_len. lia.
Qed.

(** ** One evaluation among others *)
Variable others : nat -> shared -> shared.
Variable instant : nat -> Z.
Variable wall : nat -> Z.
Hypothesis others_ok : forall i s, shared_ok s -> shared_ok (others i s).
Hypothesis wall_ok : forall i, 0 <= wall i /\ wall i + READ_DELTA_BASE_TTL_MILLIS <= I64_MAX.

(** The errors of the persistent store. *)
Definition storage_error (e : error) : Prop :=
  (exists key ch now1 t1 now2 t2, delta_ok hash t1 /\ delta_ok hash t2
     /\ (run_tx t2 (read_delta_base_with_clock hash key ch now1 t1 now2 t2)).2 = Err e)
  \/ (exists key ch base now t out, delta_ok hash t
     /\ persist_read_delta_base_with_clock hash key ch base now t = Done out /\ (run_tx t out).2 = Err e).

(** From a good state an action ends in one, with a value that satisfies [Q]
    in it or a storage error. *)
Definition yields {A} (m : action A) (Q : A -> shared -> Prop) : Prop :=
  forall i s, shared_ok s -> exists r i' s', m (i, s) = Done (r, (i', s')) /\ shared_ok s'
    /\ match r with Ok a => Q a s' | Err e => storage_error e end.

Lemma yields_returns {A} (a : A) (Q : A -> shared -> Prop) : (forall s, shared_ok s -> Q a s) ->
  yields (returns a) Q.
Proof. intros Ha i s Hs. exists (Ok a), i, s. split; [done|]. split; [done|by apply Ha]. Qed.
Lemma yields_and_then {A B} (m : action A) (k : A -> action B) P Q :
  yields m P -> (forall a, (exists s, P a s) -> yields (k a) Q) -> yields (and_then m k) Q.
Proof.
  intros Hm Hk i s Hs. destruct (Hm i s Hs) as ([a|e] & i1 & s1 & He & Hs1 & Ha).
  - destruct (Hk a (ex_intro _ s1 Ha) i1 s1 Hs1) as (r & i2 & s2 & He2 & H2). exists r, i2, s2.
    split; [|done]. unfold and_then. by rewrite He.
  - exists (Err e), i1, s1. split; [|done]. unfold and_then. by rewrite He.
Qed.
Lemma yields_weaken {A} (m : action A) (P Q : A -> shared -> Prop) : yields m P ->
  (forall a s, shared_ok s -> P a s -> Q a s) -> yields m Q.
Proof.
  intros Hm HPQ i s Hs. destruct (Hm i s Hs) as (r & i' & s' & He & Hs' & Ha).
  exists r, i', s'. split; [done|]. split; [done|]. destruct r; [by apply HPQ|done].
Qed.
Lemma yields_locked {A} (f : Z -> Z -> RegistryState -> A * RegistryState) (Q : A -> Prop) :
  (forall t later r, registry_ok r -> Q (f t later r).1 /\ registry_ok (f t later r).2) ->
  yields (locked others instant f) (fun a _ => Q a).
Proof.
  intros Hf i s Hs. apply (others_ok i) in Hs as Ho. destruct Ho as [Hr Hd]. unfold locked.
  rewrite (ro_poison _ Hr). destruct (Hf (instant i) (instant (S i)) _ Hr) as [Ha Hr'].
  destruct (f _ _ _) as [a r']. eexists _, _, _. split; [done|]. split; [by split|done].
Qed.

Lemma yields_now : yields (now others instant) (fun _ _ => True).
Proof. intros i s Hs. eexists _, _, _. split; [done|]. split; [by apply others_ok|done]. Qed.

(** A base that is an answer: it has the hash it is named by, the expected one. *)
Definition answer_ok (expected : option string) (h : string) (b : ReadDeltaBase) : Prop :=
  hash (content b) = h /\ forall h', expected = Some h' -> h = h'.
Lemma yields_stored key ch : yields (stored_base hash others wall key ch)
  (fun found _ => forall h b, found = Some (h, b) -> answer_ok ch h b).
Proof.
  intros i s Hs. unfold stored_base. pose proof (others_ok i s Hs) as H1. pose proof (others_ok (S i) _ H1) as H2.
  set (s1 := others i s) in *. set (s2 := others (S i) s1) in *.
  destruct (wall_ok i) as [W1 W2], (wall_ok (S i)) as [W3 W4].
  assert (0 < READ_DELTA_BASE_TTL_MILLIS) by done.
  pose proof (read_delta_base_spec hash key ch (wall i) (disk s1) (wall (S i)) (disk s2) (so_disk _ H1)
    (so_disk _ H2) ltac:(lia) ltac:(lia)) as [Hok Hres].
  destruct (run_tx (disk s2) _) as [t r] eqn:Hrun. cbn in Hok, Hres. eexists _, _, _. split; [done|].
  split; [split; [apply H2|done]|]. destruct r as [found|e].
  - intros h b ->. unfold answer_ok. destruct Hres as [(_ & Hh & Hch)|(_ & Hh & Hch)];
      (split; [done|]; intros h' ->; done).
  - left. eexists key, ch, (wall i), (disk s1), (wall (S i)), (disk s2). split; [apply H1|].
    split; [apply H2|]. by rewrite Hrun.
Qed.
Lemma yields_persist key h base : yields (persist_base hash others wall key h base)
  (fun ok s => ok = true -> exists i, on_file hash (key, h) base (wall i) (disk s)).
Proof.
  intros i s Hs. unfold persist_base. apply (others_ok i) in Hs. set (s1 := others i s) in *.
  destruct (wall_ok i) as [W1 W2]. assert (0 < READ_DELTA_BASE_TTL_MILLIS) by done.
  destruct (persist_read_delta_base_spec hash key h base (wall i) (disk s1) (so_disk _ Hs) ltac:(lia))
    as (out & Hout & Hok & Hres). rewrite Hout. cbn [run_bind].
  destruct (run_tx (disk s1) out) as [t r] eqn:Hrun. cbn in Hok, Hres. eexists _, _, _. split; [done|].
  split; [split; [apply Hs|done]|]. destruct r as [[|]|e].
  - intros _. by exists i.
  - done.
  - right. eexists key, h, base, (wall i), (disk s1), out. split; [apply Hs|]. split; [done|]. by rewrite Hrun.
Qed.

Lemma yields_select key expected : yields (select_base hash others instant wall key expected)
  (fun found _ => forall h b source, found = Some (h, b, source) -> answer_ok expected h b).
Proof.
  unfold select_base. destruct expected as [h|].
  - eapply yields_and_then.
    + apply (yields_locked _ (fun found => forall e, found = Some e -> hash (content (entry_base e)) = h)).
      intros t _ r Hr. apply (prune_registry_ok t) in Hr. cbn. split; [|done]. intros e He.
      by apply (cache_ok_lookup _ _ _ _ (ro_bases _ Hr)) in He.
    + intros local [_ Hlocal]. destruct local as [e|].
      * apply yields_returns. intros s _ h' b source [= <- <- _]. split; [by apply Hlocal|by intros ? [= ->]].
      * eapply yields_and_then; [apply yields_stored|]. intros found [_ Hf]. apply yields_returns.
        intros s _ h' b source. destruct found as [[h1 b1]|]; [|done]. intros [= <- <- _].
        destruct (Hf h1 b1 eq_refl) as [Hh He]. rewrite (He h eq_refl) in Hh.
        split; [done|by intros ? [= ->]].
  - eapply yields_and_then.
    + apply (yields_locked _ (fun found => forall h e, found = Some (h, e) -> answer_ok None h (entry_base e))).
      intros t _ r Hr. apply (prune_registry_ok t) in Hr. cbn. split; [|done]. intros h e He.
      apply latest_base_in in He. apply (cache_ok_lookup _ _ _ _ (ro_bases _ Hr)) in He. by split.
    + intros local [_ Hlocal]. eapply yields_and_then; [apply yields_stored|]. intros found [_ Hf].
      apply yields_returns. intros s _ h b source.
      destruct local as [[h1 e1]|], found as [[h2 b2]|]; [destruct (_ <=? _)|..]; intros [= <- <- _];
        first [by apply Hlocal|by apply Hf].
Qed.

(** A read of a named target: its path is the target's and its hash is that of
    the current content. *)
Record input_ok (input : ReadDeltaInput) : Prop := {
  in_named : named (repository_id input) (input_path input) (input_target input);
  in_path : response_path (response input) = input_path input;
  in_hash : response_hash (response input) = hash (current_content input)
}.
Definition input_key (input : ReadDeltaInput) : string :=
  key_of (repository_id input) (input_path input) (input_target input).

Lemma yields_full_delta input h b : input_ok input -> hash (content b) = h ->
  yields (full_delta unified_diff others instant (input_key input) h b (response input) (current_content input))
    (fun d _ => d = between_texts (input_path input) (response_start (response input))
                      (response_end (response input)) (content b) (current_content input)).
Proof.
  intros [In Ip Ih] Hb. unfold full_delta. rewrite Ip. set (d := between_texts _ _ _ _ _).
  set (k := mk_delta_key _ _ _ _ _). eapply yields_and_then.
  - apply (yields_locked _ (fun found => forall d', found = Some d' -> d' = d)).
    intros t _ r Hr. apply (prune_registry_ok t) in Hr. unfold lookup_delta. cbn [fst snd].
    split; [|done]. intros d' (e & He & ->)%fmap_Some.
    apply (cache_ok_lookup _ _ _ _ (ro_deltas _ Hr)) in He
      as (repository & path & target & base & head & Hn & Hk & Hbase & Hhead & ->).
    apply blake3_inj in Hk. destruct (target_material_inj _ _ _ _ _ _ In Hn Hk) as (_ & <- & _).
    cbn in Hbase, Hhead. rewrite <-Hb in Hbase. rewrite Ih in Hhead.
    apply hash_inj in Hbase as ->. by apply hash_inj in Hhead as ->.
  - intros cached [_ Hc]. destruct cached as [d'|]; [apply yields_returns; intros; by apply Hc|].
    destruct (_ <? _); [by apply yields_returns|]. eapply yields_and_then.
    + apply (yields_locked _ (fun _ => True)). intros t later r Hr. split; [done|]. cbn.
      apply insert_delta_ok; [done|].
      exists (repository_id input), (input_path input), (input_target input), (content b), (current_content input).
      split; [done|]. split; [done|]. split; [done|]. by split.
    + intros _ _. by apply yields_returns.
Qed.

(** ** What an evaluation answers *)
Definition answered (input : ReadDeltaInput) (d : decision) : Prop :=
  match dec_outcome d with
  | OutcomeNotModified =>
    dec_delta d = None /\ dec_base_hash d = Some (hash (current_content input))
    /\ dec_delta_tokens d = Some 0 /\ dec_avoided d = full_tokens input /\ dec_fallback d = None
  | OutcomeDelta => exists b delta,
    dec_delta d = Some delta
    /\ delta = between_texts (input_path input) (response_start (response input))
                 (response_end (response input)) (content b) (current_content input)
    /\ dec_base_hash d = Some (hash (content b)) /\ dec_base_generation d = Some (generation b)
    /\ target_coordinates_changed b (response input) = false
    /\ (forall held, expected_hash input = Some (hash held) -> held = content b)
    /\ dec_delta_tokens d = Some (count_tokens delta) /\ count_tokens delta < full_tokens input
    /\ dec_avoided d = full_tokens input - count_tokens delta /\ dec_fallback d = None
  | OutcomeFull =>
    dec_delta d = None /\ dec_delta_tokens d = None /\ dec_avoided d = 0 /\ is_Some (dec_fallback d)
  end.
Lemma full_answered input reason h g source : answered input (full_because reason h g source).
Proof. by repeat split. Qed.

Lemma yields_decide input : input_ok input ->
  yields (decide_delta hash count_tokens unified_diff others instant wall (input_key input) input)
    (fun d _ => answered input d).
Proof.
  intros Hin. pose proof (in_hash _ Hin) as Ih. unfold decide_delta.
  case_bool_decide as Hexp; [apply yields_returns; intros; cbn; by rewrite Hexp, Ih|].
  destruct (truncated _); [apply yields_returns; intros; apply full_answered|].
  destruct (_ <? _); [apply yields_returns; intros; apply full_answered|].
  eapply yields_and_then; [apply yields_select|]. intros found [_ Hf].
  destruct found as [[[h b] source]|]; [|apply yields_returns; intros; apply full_answered].
  destruct (Hf h b source eq_refl) as [Hh Hheld].
  case_bool_decide as Hsame; [apply yields_returns; intros; cbn; by rewrite Hsame, Ih|].
  destruct (target_coordinates_changed b _) eqn:Hcoord; [apply yields_returns; intros; apply full_answered|].
  eapply yields_and_then; [by apply yields_full_delta|]. intros d [_ ->].
  destruct (_ <? _) eqn:Hless; [|apply yields_returns; intros; apply full_answered]. bool_to_prop.
  apply yields_returns. intros s _. cbn. exists b. eexists. split; [done|]. split; [done|].
  split; [by rewrite Hh|]. split; [done|]. split; [done|]. split; [|by repeat split].
  intros held He. apply Hheld in He. apply hash_inj. by rewrite <-He.
Qed.

(** What the receipt of an evaluation reports. *)
Definition reported (input : ReadDeltaInput) (d : decision) (ev : ReadDeltaEvaluation) (s : shared) : Prop :=
  let '(delta, receipt) := ev in
  receipt_target_key receipt = input_key input /\ head_hash receipt = hash (current_content input)
  /\ delta = dec_delta d /\ base_hash receipt = dec_base_hash d
  /\ base_generation receipt = dec_base_generation d /\ delta_outcome receipt = dec_outcome d
  /\ delta_tokens receipt = dec_delta_tokens d /\ avoided_tokens receipt = dec_avoided d
  /\ fallback_reason receipt = dec_fallback d
  /\ (head_persisted receipt = true <-> persistence_fallback_reason receipt = None)
  /\ (head_persisted receipt = true -> persistence_fallback input = None
      /\ exists target_end i, response_target_end (response input) = Some target_end
         /\ on_file hash (input_key input, hash (current_content input)) (current_base input target_end)
              (wall i) (disk s)).

Lemma yields_remember key input base : response_hash (response input) = hash (content base) ->
  yields (remember others instant key input base) (fun _ _ => True).
Proof.
  intros Hb. unfold remember. destruct (_ && _); [|by apply yields_returns].
  eapply yields_and_then; [apply yields_now|]. intros t _.
  apply (yields_locked _ (fun _ => True)). intros t' _ r Hr. split; [done|]. cbn.
  by apply insert_base_ok.
Qed.

Lemma yields_evaluate input : input_ok input ->
  forall i s, shared_ok s -> exists r i' s',
    evaluate hash blake3 count_tokens unified_diff others instant wall input (i, s) = Done (r, (i', s'))
    /\ shared_ok s'
    /\ match r with
       | Ok ev => exists d, answered input d /\ reported input d ev s'
       | Err e => response_target_end (response input) = None \/ storage_error e
       end.
Proof.
  intros Hin i s Hs. unfold evaluate. destruct (response_target_end (response input)) as [target_end|] eqn:Hend.
  2: { eexists _, i, s. split; [done|]. split; [done|by left]. }
  fold (input_key input). set (base := current_base input target_end).
  assert (Hb : response_hash (response input) = hash (content base)) by apply Hin.
  match goal with |- exists r i' s', ?m (i, s) = _ /\ _ =>
    assert (Hm : yields m (fun ev s' => exists d, answered input d /\ reported input d ev s')) end.
  2: { destruct (Hm i s Hs) as (r & i' & s' & He & Hs' & Hr). exists r, i', s'. split; [done|].
       split; [done|]. destruct r; [done|by right]. }
  eapply yields_and_then; [by apply yields_decide|]. intros d [_ Hd].
  eapply yields_and_then; [by apply yields_remember|]. intros _ _.
  destruct (persistence_fallback input) as [f|] eqn:Hf.
  - eapply yields_and_then; [by apply (yields_returns false (fun ok _ => ok = false))|]. intros ok [_ ->].
    apply yields_returns. intros s' _. exists d. split; [done|]. unfold reported. cbn. rewrite Hb.
    by repeat (split; [done|]).
  - intros j s1 Hs1. destruct (yields_persist (input_key input) (response_hash (response input)) base j s1 Hs1)
      as (r & j' & s2 & He & Hs2 & Hr). unfold and_then. rewrite He. cbn [run_bind].
    destruct r as [ok|e]; [|by eexists _, _, _]. eexists _, _, _. split; [done|]. split; [done|].
    exists d. split; [done|]. unfold reported. cbn. split; [done|]. split; [by apply Hb|].
    do 7 (split; [done|]). split; [by destruct ok|]. intros Hok. split; [done|].
    destruct (Hr Hok) as [n Hn]. exists target_end, n. split; [done|]. rewrite <-(in_hash _ Hin). exact Hn.
Qed.
End EvaluateFacts.

(** ** Properties *)

(** The process-local caches are a bounded queue.  Inserting implements the
    specification on the list of entries, oldest first: expired entries leave
    the front, an older value of the key is forgotten, and just enough of the
    oldest entries are evicted; the count and byte bounds hold, the new value
    is the newest one and found, and nothing else is new. *)
Theorem cache_insert_refines {K V : Type} `{Countable K} `{!Cached V} now (k : K) (v : V) c l :
  0 <= cached_bytes v <= MAX_READ_DELTA_BASE_BYTES ->
  within_bounds MAX_READ_DELTA_BASE_BYTES MAX_READ_DELTA_BASES MAX_TOTAL_READ_DELTA_BASE_BYTES l ->
  represents c l ->
  let l' := spec_insert MAX_READ_DELTA_BASE_BYTES MAX_READ_DELTA_BASES MAX_TOTAL_READ_DELTA_BASE_BYTES
              READ_DELTA_TTL now k v l in
  let c' := cache_insert now k v c in
  represents c' l'
  /\ Z.of_nat (size (entries c')) <= MAX_READ_DELTA_BASES
  /\ total_bytes c' <= MAX_TOTAL_READ_DELTA_BASE_BYTES
  /\ last l' = Some (k, v) /\ entries c' !! k = Some v
  /\ (forall k' v', entries c' !! k' = Some v' -> (k', v') = (k, v) \/ entries c !! k' = Some v').
Proof.
  intros Hv Hw Hc l' c'.
  assert (Hn : 0 < MAX_READ_DELTA_BASES) by done.
  assert (Hm : MAX_READ_DELTA_BASE_BYTES <= MAX_TOTAL_READ_DELTA_BASE_BYTES < U64_MAX) by done.
  destruct (insert_represents MAX_READ_DELTA_BASE_BYTES MAX_READ_DELTA_BASES
    MAX_TOTAL_READ_DELTA_BASE_BYTES READ_DELTA_TTL Hn Hm now k v c l (proj1 Hv) Hw Hc) as [Hc' Hw'].
  fold l' in Hc', Hw'. change (represents c' l') in Hc'.
  assert (Hl : exists l0, l' = l0 ++ [(k, v)] /\ sublist l0 l).
  { unfold l', spec_insert. rewrite (proj2 (Z.ltb_ge _ _)) by lia. eexists. split; [done|].
    etransitivity; [apply fitting_sublist|]. etransitivity; [apply (all_but_sublist k)|].
    apply drop_expired_sublist. }
  destruct Hl as (l0 & Hl0 & Hsub). split; [done|].
  rewrite (represents_size c' l' Hc'), (rp_bytes _ _ Hc'). split; [apply Hw'|]. split; [apply Hw'|].
  split; [by rewrite Hl0, last_snoc|]. split.
  - apply (represents_lookup c' l' k v Hc'). rewrite Hl0, elem_of_app, list_elem_of_singleton. by right.
  - intros k' v' Hk. apply (represents_lookup c' l' k' v' Hc') in Hk.
    rewrite Hl0, elem_of_app, list_elem_of_singleton in Hk. destruct Hk as [Hk|Hk]; [right|by left].
    apply (represents_lookup c l k' v' Hc). by eapply sublist_elem.
Qed.

(** C19: a read delta is sound.  However the readers of a repository interleave,
    an evaluation returns and leaves the registry and the store of bases well
    formed.  It answers "not modified" only when the caller's base has the hash
    of the current content, and a delta only when that is the difference
    between a base with the reported hash (the text the caller holds, when it
    named one) and the current content, at the same position and smaller than
    the full content, even when the delta comes from the cache; otherwise it
    gives the reason for returning the content in full.  A head reported as
    persisted is on file.  Its errors are those of the store. *)
Theorem read_delta_sound hash blake3 count_tokens unified_diff others instant wall input i s :
  Inj (=) (=) hash -> Inj (=) (=) blake3 ->
  (forall i s, shared_ok hash blake3 unified_diff s -> shared_ok hash blake3 unified_diff (others i s)) ->
  (forall i, 0 <= wall i /\ wall i + READ_DELTA_BASE_TTL_MILLIS <= I64_MAX) ->
  input_ok hash input -> shared_ok hash blake3 unified_diff s ->
  exists r i' s',
    evaluate hash blake3 count_tokens unified_diff others instant wall input (i, s) = Done (r, (i', s'))
    /\ shared_ok hash blake3 unified_diff s'
    /\ match r with
       | Ok ev => exists d, answered hash count_tokens unified_diff input d
                            /\ reported hash blake3 wall input d ev s'
       | Err e => response_target_end (response input) = None \/ storage_error hash e
       end.
Proof. intros Hh Hb Ho Hw Hin Hs. by apply yields_evaluate. Qed.

(** ** Witnesses *)
Definition demo_digest (b : bytes) : string := pretty (N.pos (encode b)).
#[export] Instance demo_digest_inj : Inj (=) (=) demo_digest.
Proof.
  intros a b He. apply (inj encode). assert (Hp : N.pos (encode a) = N.pos (encode b)); [|congruence].
  by apply (inj (pretty (A := N))).
Qed.
Definition demo_diff (base head h1 h2 : string) : string := (base ++ ">" ++ head)%string.
Definition demo_shared : shared :=
  mk_shared (mk_registry empty_fifo empty_fifo false) (mk_table 0 0 0 ∅).
Definition demo_response : ReadResponse :=
  mk_response "a.rs" "new" 4 1 (Some 9) 1 9 false (Some "new") false.
Definition demo_input : ReadDeltaInput :=
  mk_input "repo" "a.rs" (ReadLines 1 None) None demo_response "new" 100.

Lemma demo_shared_ok : shared_ok id demo_digest demo_diff demo_shared.
Proof.
  assert (He : forall {K V} `{Countable K} `{!Cached V} (P : K -> V -> Prop), cache_ok P empty_fifo).
  { intros. exists []. split; [apply fifo_represents_empty|]. split; [by split|]. by intros k v ?%elem_of_nil. }
  assert (Hrows : forall k, t_rows (disk demo_shared) !! k = None) by (intros; apply lookup_empty).
  split; [by split; [|apply He|apply He]|]. split; [|by intros k r; rewrite Hrows|by split].
  split; [done|by intros k r; rewrite Hrows|done|done].
Qed.
Lemma demo_input_ok : input_ok id demo_input.
Proof.
  split; [|done|done]. split; [| |by split]; unfold no_nul;
    apply (bool_decide_eq_false_1 (0 ∈ _)); by vm_compute.
Qed.

Lemma cache_insert_refines_witness :
  entries (cache_insert 5 (mk_cache_key "t" "h") (mk_entry example_base 5) empty_fifo)
    !! mk_cache_key "t" "h" = Some (mk_entry example_base 5).
Proof.
  destruct (cache_insert_refines 5 (mk_cache_key "t" "h") (mk_entry example_base 5) empty_fifo [])
    as (_ & _ & _ & _ & Hl & _); [by vm_compute|by split|apply fifo_represents_empty|exact Hl].
Defined.
Lemma read_delta_sound_witness : exists r i' s',
  evaluate id demo_digest str_len demo_diff (fun _ s => s) (fun i => Z.of_nat i) (fun i => 0)
    demo_input (0%nat, demo_shared) = Done (r, (i', s'))
  /\ shared_ok id demo_digest demo_diff s'.
Proof.
  destruct (read_delta_sound id demo_digest str_len demo_diff (fun _ s => s) (fun i => Z.of_nat i)
    (fun i => 0) demo_input 0%nat demo_shared) as (r & i' & s' & He & Hs & _).
  - apply _.
  - apply _.
  - done.
  - intros _. by split.
  - apply demo_input_ok.
  - apply demo_shared_ok.
  - exists r, i', s'. by split.
Defined.
