(* ===== verification/Float64.v ===== *)
(** * Double-precision numbers

    Rust's [f64] as IEEE 754 binary64 values of the Standard Library's
    [SpecFloat], whose operations round to nearest even, and the comparisons,
    [max], [min], [total_cmp] and conversions the ranker uses.  A NaN has no sign
    or payload here; it is ordered after infinity. *)

From S2P Require Import Prelude.
From Stdlib Require Import Floats.SpecFloat.
Open Scope Z_scope.

Definition f64 : Type := spec_float.
Definition f64_add : f64 -> f64 -> f64 := SFadd 53 1024.
Definition f64_sub : f64 -> f64 -> f64 := SFsub 53 1024.
Definition f64_mul : f64 -> f64 -> f64 := SFmul 53 1024.
Definition f64_div : f64 -> f64 -> f64 := SFdiv 53 1024.
Definition f64_eqb : f64 -> f64 -> bool := SFeqb.
Definition f64_ltb : f64 -> f64 -> bool := SFltb.
Definition f64_geb (a b : f64) : bool := SFleb b a.

(** [value as f64] of an integer, and a decimal literal as a quotient. *)
Definition f64_of_Z (n : Z) : f64 := binary_normalize 53 1024 n 0 false.
Definition f64_ratio (n d : Z) : f64 := f64_div (f64_of_Z n) (f64_of_Z d).
Definition f64_zero : f64 := f64_of_Z 0.
Definition f64_one : f64 := f64_of_Z 1.

Definition f64_is_nan (a : f64) : bool := match a with S754_nan => true | _ => false end.

(** [f64::max] and [f64::min]: a NaN argument is ignored. *)
Definition f64_max (a b : f64) : f64 :=
  if f64_is_nan a then b else if f64_is_nan b then a else if f64_ltb a b then b else a.
Definition f64_min (a b : f64) : f64 :=
  if f64_is_nan a then b else if f64_is_nan b then a else if f64_ltb b a then b else a.

(** The integer [f64::total_cmp] compares: the bits, with those of a negative
    number reflected. *)
Definition f64_key (a : f64) : Z :=
  let signed (s : bool) (bits : Z) := if s then - bits - 1 else bits in
  match a with
  | S754_zero s => signed s 0
  | S754_infinity s => signed s (2047 * 2 ^ 52)
  | S754_nan => 2047 * 2 ^ 52 + 2 ^ 51
  | S754_finite s m e =>
    signed s (if Z.pos m <? 2 ^ 52 then Z.pos m else (e + 1075) * 2 ^ 52 + (Z.pos m - 2 ^ 52))
  end.
Definition f64_total_cmp (a b : f64) : comparison := f64_key a ?= f64_key b.

(** [f64::clamp] between two ordered bounds. *)
Definition f64_clamp (a lo hi : f64) : f64 :=
  if f64_ltb a lo then lo else if f64_ltb hi a then hi else a.

Example f64_arithmetic :
  f64_add (f64_ratio 1 10) (f64_ratio 2 10) = S754_finite false 5404319552844596 (-54)
  /\ f64_ltb (f64_ratio 3 10) (f64_add (f64_ratio 1 10) (f64_ratio 2 10)) = true
  /\ map f64_key [f64_ratio (-1) 2; f64_of_Z (-0); f64_ratio 1 4; f64_ratio 1 2; f64_one]
     = [- 4602678819172646912 - 1; 0; 4598175219545276416; 4602678819172646912; 4607182418800017408]
  /\ f64_max (f64_div f64_zero f64_zero) f64_one = f64_one.
Proof. by vm_compute. Qed.

(** ** Comparators and stable sorting *)

(** [Ordering::then_with]. *)
Definition then_cmp (a b : comparison) : comparison := match a with Eq => b | _ => a end.
Definition bool_cmp (a b : bool) : comparison :=
  match a, b with
  | true, false => Gt
  | false, true => Lt
  | _, _ => Eq
  end.

(** The order of [str]: code points, lexicographically. *)
Fixpoint str_cmp (a b : list Z) : comparison :=
  match a, b with
  | [], [] => Eq
  | [], _ => Lt
  | _, [] => Gt
  | x :: a, y :: b => then_cmp (x ?= y) (str_cmp a b)
  end.

(** [slice::sort_by], which is stable: an element goes before the first one it
    does not exceed. *)
Fixpoint insert_by {A} (cmp : A -> A -> comparison) (x : A) (l : list A) : list A :=
  match l with
  | [] => [x]
  | y :: l' => match cmp x y with Gt => y :: insert_by cmp x l' | _ => x :: l end
  end.
Definition sort_by {A} (cmp : A -> A -> comparison) (l : list A) : list A :=
  foldr (insert_by cmp) [] l.

Lemma insert_by_perm {A} (cmp : A -> A -> comparison) x l : insert_by cmp x l ≡ₚ x :: l.
Proof.
  induction l as [|y l IH]; [done|]. cbn. destruct (cmp x y); [done|done|].
  rewrite IH. apply Permutation_swap.
Qed.
Lemma sort_by_perm {A} (cmp : A -> A -> comparison) l : sort_by cmp l ≡ₚ l.
Proof. induction l as [|x l IH]; [done|]. cbn. by rewrite insert_by_perm, IH. Qed.

(** A comparator that is total and transitive. *)
Class TotalPreorder {A} (cmp : A -> A -> comparison) : Prop := {
  cmp_flip : forall a b, cmp b a = CompOpp (cmp a b);
  cmp_trans : forall a b c, cmp a b <> Gt -> cmp b c <> Gt -> cmp a c <> Gt
}.

Lemma sort_by_sorted {A} (cmp : A -> A -> comparison) `{!TotalPreorder cmp} l :
  StronglySorted (fun a b => cmp a b <> Gt) (sort_by cmp l).
Proof.
  induction l as [|x l IH]; [constructor|]. unfold sort_by in *. cbn [foldr].
  induction (foldr (insert_by cmp) [] l) as [|y s IHs]; cbn; [by repeat constructor|].
  apply StronglySorted_inv in IH as [Hs Hy].
  destruct (cmp x y) eqn:Hxy.
  1, 2: constructor; [by constructor|]; constructor; [by rewrite Hxy|];
    eapply Forall_impl; [exact Hy|]; intros z Hz; eapply cmp_trans; [|exact Hz]; by rewrite Hxy.
  constructor; [by apply IHs|]. rewrite insert_by_perm. constructor; [|done].
  rewrite cmp_flip, Hxy. done.
Qed.

Lemma then_cmp_not_gt a b : then_cmp a b <> Gt <-> a = Lt \/ (a = Eq /\ b <> Gt).
Proof. destruct a; cbn; naive_solver. Qed.

#[export] Instance key_preorder {A} (f : A -> Z) : TotalPreorder (fun a b => f a ?= f b).
Proof.
  split; [intros a b; by rewrite Z.compare_antisym|]. intros a b c. rewrite !Z.compare_le_iff. lia.
Qed.
Lemma flip_preorder {A} (cmp : A -> A -> comparison) `{!TotalPreorder cmp} :
  TotalPreorder (fun a b => cmp b a).
Proof. split; [intros a b; apply cmp_flip|]. intros a b c Hab Hbc. by eapply cmp_trans. Qed.
#[export] Instance then_preorder {A} (c1 c2 : A -> A -> comparison)
    `{!TotalPreorder c1, !TotalPreorder c2} : TotalPreorder (fun a b => then_cmp (c1 a b) (c2 a b)).
Proof.
  split; [intros a b; rewrite (cmp_flip (cmp := c1)), (cmp_flip (cmp := c2)); by destruct (c1 a b)|].
  intros a b c. rewrite !then_cmp_not_gt.
  assert (Hflip : forall x y, c1 x y = Eq -> c1 y x <> Gt) by (intros x y H; by rewrite cmp_flip, H).
  assert (Hle : forall x y, c1 x y = Eq \/ c1 x y = Lt -> c1 x y <> Gt) by (intros x y [->| ->]; done).
  intros Hab Hbc.
  assert (Hac : c1 a c <> Gt) by (apply (cmp_trans (cmp := c1) a b c); apply Hle; tauto).
  destruct (c1 a c) eqn:E; [right; split; [done|]|by left|done].
  assert (c1 b a <> Gt) by (apply (cmp_trans (cmp := c1) b c a); [apply Hle; tauto|by apply Hflip]).
  assert (c1 c b <> Gt) by (apply (cmp_trans (cmp := c1) c a b); [by apply Hflip|apply Hle; tauto]).
  rewrite (cmp_flip (cmp := c1) a b) in *. rewrite (cmp_flip (cmp := c1) b c) in *.
  destruct Hab as [Hab|[_ Hab]]; [rewrite Hab in *; done|].
  destruct Hbc as [Hbc|[_ Hbc]]; [rewrite Hbc in *; done|]. by eapply (cmp_trans (cmp := c2)).
Qed.

Lemma str_cmp_flip a b : str_cmp b a = CompOpp (str_cmp a b).
Proof.
  revert b. induction a as [|x a IH]; intros [|y b]; cbn; try done.
  rewrite (Z.compare_antisym x y), IH. by destruct (x ?= y).
Qed.
Lemma str_cmp_eq a b : str_cmp a b = Eq <-> a = b.
Proof.
  revert b. induction a as [|x a IH]; intros [|y b]; cbn; try done.
  destruct (Z.compare_spec x y) as [->|H|H]; cbn; [rewrite IH; naive_solver|split; [done|]..];
    intros [= -> ->]; lia.
Qed.
Lemma str_cmp_trans a b c : str_cmp a b <> Gt -> str_cmp b c <> Gt -> str_cmp a c <> Gt.
Proof.
  revert b c. induction a as [|x a IH]; intros [|y b] [|z c]; cbn; try done.
  rewrite !then_cmp_not_gt, !Z.compare_lt_iff, !Z.compare_eq_iff.
  intros [H1|[-> H1]] [H2|[-> H2]]; [left; lia|by left|by left|right; split; [done|by eapply IH]].
Qed.
#[export] Instance str_preorder {A} (f : A -> list Z) : TotalPreorder (fun a b => str_cmp (f a) (f b)).
Proof. split; [intros; apply str_cmp_flip|intros a b c; apply str_cmp_trans]. Qed.
