(* ===== verification/Hierarchy.v ===== *)
(** * Symbol hierarchy: [src/src/parser/hierarchy.rs]

    The parent of each symbol of a file and the symbol that encloses each
    reference, by a sweep over the byte ranges with a stack, and the removal of
    duplicate symbols.  Offsets and lines are [nat]: they are bounded by the length
    of the source.  Indices come from [0..len] of the vector they index, so that no
    index expression panics. *)

From S2P Require Import Prelude Float64 IndexDb.
Open Scope nat_scope.

(** ** The records of a parse: [src/src/model/outline.rs] *)
Record Symbol := mk_symbol {
  name : string;
  kind : string;
  parent : option string;
  signature : option string;
  start_line : nat;
  end_line : nat;
  start_byte : nat;
  end_byte : nat
}.
Record Reference := mk_reference {
  ref_name : string;
  ref_kind : string;
  role : ReferenceRole;
  enclosing_symbol : option string;
  ref_start_line : nat;
  ref_end_line : nat;
  ref_start : nat;
  ref_end : nat
}.

Definition with_parent (s : Symbol) (p : option string) : Symbol :=
  mk_symbol (name s) (kind s) p (signature s) (start_line s) (end_line s) (start_byte s) (end_byte s).
Definition with_enclosing (r : Reference) (e : option string) : Reference :=
  mk_reference (ref_name r) (ref_kind r) (role r) e (ref_start_line r) (ref_end_line r) (ref_start r) (ref_end r).

Definition no_symbol : Symbol := mk_symbol "" "" None None 0 0 0 0.
Definition symbol_at (symbols : list Symbol) (i : nat) : Symbol := default no_symbol (symbols !! i).

(** ** Parents *)
Definition strictly_contains (parent child : Symbol) : bool :=
  (start_byte parent <=? start_byte child) && (end_byte child <=? end_byte parent)
  && ((start_byte parent <? start_byte child) || (end_byte child <? end_byte parent)).

(** By start, then the longer range first. *)
Definition outer_first (symbols : list Symbol) (a b : nat) : comparison :=
  then_cmp (start_byte (symbol_at symbols a) ?= start_byte (symbol_at symbols b))
           (end_byte (symbol_at symbols b) ?= end_byte (symbol_at symbols a)).
Definition by_range (a b : Symbol) : comparison :=
  then_cmp (start_byte a ?= start_byte b) (end_byte a ?= end_byte b).

(** The stack, its top first, without the symbols that do not contain [s]. *)
Fixpoint pop_others (symbols : list Symbol) (s : Symbol) (stack : list nat) : list nat :=
  match stack with
  | [] => []
  | top :: rest => if strictly_contains (symbol_at symbols top) s then stack else pop_others symbols s rest
  end.

Fixpoint parents_loop (indices stack : list nat) (symbols : list Symbol) : list Symbol :=
  match indices with
  | [] => symbols
  | i :: indices =>
    let stack := pop_others symbols (symbol_at symbols i) stack in
    let symbols :=
      match parent (symbol_at symbols i) with
      | Some _ => symbols
      | None => <[i := with_parent (symbol_at symbols i) ((fun top => name (symbol_at symbols top)) <$> head stack)]> symbols
      end in
    parents_loop indices (i :: stack) symbols
  end.

Definition compute_symbol_parents (symbols : list Symbol) : list Symbol :=
  match symbols with
  | [] => []
  | _ =>
    let indices := sort_by (outer_first symbols) (seq 0 (length symbols)) in
    sort_by by_range (parents_loop indices [] symbols)
  end.

(** ** Duplicates *)
Definition symbol_key (s : Symbol) : string * string * nat * nat := (kind s, name s, start_byte s, end_byte s).
Fixpoint retain_new (seen : gset (string * string * nat * nat)) (symbols : list Symbol) : list Symbol :=
  match symbols with
  | [] => []
  | s :: symbols =>
    if bool_decide (symbol_key s ∈ seen) then retain_new seen symbols
    else s :: retain_new ({[symbol_key s]} ∪ seen) symbols
  end.
Definition deduplicate_symbols (symbols : list Symbol) : list Symbol := retain_new ∅ symbols.

(** ** Enclosing symbols *)
Definition by_ref_range (a b : Reference) : comparison :=
  then_cmp (ref_start a ?= ref_start b) (ref_end a ?= ref_end b).

(** LaTeX labels and captions own nothing. *)
Definition is_alias (s : Symbol) : bool :=
  bool_decide (kind s = "latex_label") || bool_decide (kind s = "latex_caption").

Fixpoint pop_closed (symbols : list Symbol) (start : nat) (stack : list nat) : list nat :=
  match stack with
  | [] => []
  | top :: rest => if end_byte (symbol_at symbols top) <=? start then pop_closed symbols start rest else stack
  end.
(** Symbols that start by [start]; those still open are pushed. *)
Fixpoint push_open (symbols : list Symbol) (start : nat) (pending stack : list nat) : list nat * list nat :=
  match pending with
  | [] => ([], stack)
  | si :: rest =>
    if start <? start_byte (symbol_at symbols si) then (pending, stack)
    else push_open symbols start rest (if start <? end_byte (symbol_at symbols si) then si :: stack else stack)
  end.

Definition no_reference : Reference := mk_reference "" "" Definition_ None 0 0 0 0.
Definition reference_at (references : list Reference) (i : nat) : Reference := default no_reference (references !! i).

Fixpoint enclosing_loop (symbols : list Symbol) (ref_indices pending stack : list nat)
    (references : list Reference) : list Reference :=
  match ref_indices with
  | [] => references
  | ri :: ref_indices =>
    let r := reference_at references ri in
    let '(pending, stack) := push_open symbols (ref_start r) pending (pop_closed symbols (ref_start r) stack) in
    let enclosing := (fun top => name (symbol_at symbols top)) <$>
      find (fun top => ref_end r <=? end_byte (symbol_at symbols top)) stack in
    enclosing_loop symbols ref_indices pending stack (<[ri := with_enclosing r enclosing]> references)
  end.

Definition compute_reference_enclosing (symbols : list Symbol) (references : list Reference) : list Reference :=
  match symbols, references with
  | [], _ | _, [] => sort_by by_ref_range references
  | _, _ =>
    let sym_indices := sort_by (outer_first symbols)
      (List.filter (fun i => negb (is_alias (symbol_at symbols i))) (seq 0 (length symbols))) in
    let ref_indices := sort_by (fun a b => ref_start (reference_at references a) ?= ref_start (reference_at references b))
      (seq 0 (length references)) in
    sort_by by_ref_range (enclosing_loop symbols ref_indices sym_indices [] references)
  end.

(** ** Sorting by range *)
Ltac compare_cases := unfold by_range, by_ref_range, outer_first, then_cmp;
  repeat match goal with |- context [?a ?= ?b] => destruct (Nat.compare_spec a b) end; cbn; try done; try lia.

#[export] Instance outer_first_preorder symbols : TotalPreorder (outer_first symbols).
Proof. split; [intros a b; compare_cases|intros a b c; compare_cases]. Qed.
#[export] Instance by_range_preorder : TotalPreorder by_range.
Proof. split; [intros a b; compare_cases|intros a b c; compare_cases]. Qed.
#[export] Instance by_ref_range_preorder : TotalPreorder by_ref_range.
Proof. split; [intros a b; compare_cases|intros a b c; compare_cases]. Qed.
#[export] Instance nat_key_preorder {A} (f : A -> nat) : TotalPreorder (fun a b => f a ?= f b).
Proof. split; [intros a b; compare_cases|intros a b c; compare_cases]. Qed.

Lemma outer_first_le symbols a b : outer_first symbols a b <> Gt ->
  start_byte (symbol_at symbols a) < start_byte (symbol_at symbols b) \/
  (start_byte (symbol_at symbols a) = start_byte (symbol_at symbols b) /\
   end_byte (symbol_at symbols b) <= end_byte (symbol_at symbols a)).
Proof. compare_cases; auto; intros; right; lia. Qed.

Lemma strictly_contains_spec p c : strictly_contains p c = true <->
  start_byte p <= start_byte c /\ end_byte c <= end_byte p /\
  (start_byte p < start_byte c \/ end_byte c < end_byte p).
Proof.
  unfold strictly_contains. rewrite !andb_true_iff, orb_true_iff, !Nat.leb_le, !Nat.ltb_lt. tauto.
Qed.

(** ** Parents *)
Section Parents.
Variable symbols : list Symbol.
Abbreviation sym := (symbol_at symbols).

(** Ranges of a syntax tree: not empty, and nested or apart. *)
Definition nested : Prop := forall a b, a < length symbols -> b < length symbols ->
  start_byte (sym a) < end_byte (sym a) /\
  (end_byte (sym a) <= start_byte (sym b) \/ end_byte (sym b) <= start_byte (sym a) \/
   (start_byte (sym a) <= start_byte (sym b) /\ end_byte (sym b) <= end_byte (sym a)) \/
   (start_byte (sym b) <= start_byte (sym a) /\ end_byte (sym a) <= end_byte (sym b))).

(** The innermost symbol around number [i], if there is one. *)
Definition innermost (i : nat) (answer : option nat) : Prop :=
  match answer with
  | Some p => p < length symbols /\ strictly_contains (sym p) (sym i) = true /\
      forall q, q < length symbols -> strictly_contains (sym q) (sym i) = true ->
        start_byte (sym q) <= start_byte (sym p) /\ end_byte (sym p) <= end_byte (sym q)
  | None => forall q, q < length symbols -> strictly_contains (sym q) (sym i) = false
  end.

(** The order of the sweep: by start, the longer range first. *)
Definition sweep_order : list nat := sort_by (outer_first symbols) (seq 0 (length symbols)).

(** Number [p] strictly contains all of [later]. *)
Definition contains_all (p : nat) (later : list nat) : Prop :=
  Forall (fun j => strictly_contains (sym p) (sym j) = true) later.

(** The sweep has passed [before] and comes to number [i]: the answer is the last
    symbol of [before] that strictly contains everything after it up to [i]. *)
Definition last_open (before : list nat) (i : nat) (answer : option nat) : Prop :=
  match answer with
  | Some p => exists earlier later, before = earlier ++ p :: later /\ contains_all p (later ++ [i]) /\
      forall q l1 l2, later = l1 ++ q :: l2 -> ~ contains_all q (l2 ++ [i])
  | None => forall q l1 l2, before = l1 ++ q :: l2 -> ~ contains_all q (l2 ++ [i])
  end.

(** Only parents change in the loop. *)
Definition same_ranges (now : list Symbol) : Prop :=
  length now = length symbols /\ forall i, with_parent (symbol_at now i) None = with_parent (sym i) None.

Lemma same_ranges_at now i : same_ranges now ->
  name (symbol_at now i) = name (sym i) /\ start_byte (symbol_at now i) = start_byte (sym i) /\
  end_byte (symbol_at now i) = end_byte (sym i).
Proof. intros [_ H]. specialize (H i). by injection H. Qed.
Lemma pop_others_same now s t stack : same_ranges now ->
  start_byte s = start_byte t -> end_byte s = end_byte t -> pop_others now s stack = pop_others symbols t stack.
Proof.
  intros Hs H1 H2. induction stack as [|top rest IH]; [done|]. cbn. rewrite IH. unfold strictly_contains.
  destruct (same_ranges_at now top Hs) as (_ & -> & ->). by rewrite H1, H2.
Qed.

(** The loop keeps the symbols but for their parents, and gives every index that
    it passes the parent [answer] says. *)
Definition new_parent (i : nat) (answer : option nat) : option string :=
  match parent (sym i) with Some p => Some p | None => (fun top => name (sym top)) <$> answer end.

(** What is known of the stack after the indices [done]. *)
Record swept (done_ stack : list nat) : Prop := {
  swept_range : forall q, q ∈ stack -> q ∈ done_;
  swept_chain : forall k a b, stack !! k = Some a -> stack !! S k = Some b -> strictly_contains (sym b) (sym a) = true;
  swept_rest : forall q, q ∈ done_ -> q ∈ stack \/
    (exists last, last ∈ done_ /\ end_byte (sym q) <= start_byte (sym last)) \/
    (exists p, p ∈ stack /\ start_byte (sym p) = start_byte (sym q) /\ end_byte (sym p) = end_byte (sym q))
}.

Lemma chain_contains (stack : list nat) k a b : (forall k a b, stack !! k = Some a -> stack !! S k = Some b -> strictly_contains (sym b) (sym a) = true) ->
  stack !! 0 = Some a -> stack !! k = Some b ->
  start_byte (sym b) <= start_byte (sym a) /\ end_byte (sym a) <= end_byte (sym b).
Proof.
  intros Hc H0. revert b. induction k as [|k IH]; intros b Hk; [rewrite H0 in Hk; injection Hk as ->; lia|].
  destruct (stack !! k) as [c|] eqn:Ec.
  - specialize (IH c eq_refl). pose proof (Hc k c b Ec Hk) as Hs. apply strictly_contains_spec in Hs. lia.
  - apply lookup_ge_None in Ec. apply lookup_lt_Some in Hk. lia.
Qed.

Lemma pop_others_suffix s stack : exists popped, stack = popped ++ pop_others symbols s stack /\
  (forall q, q ∈ popped -> strictly_contains (sym q) s = false) /\
  (forall top, head (pop_others symbols s stack) = Some top -> strictly_contains (sym top) s = true).
Proof.
  induction stack as [|top rest (popped & He & Hp & Ht)]; [exists []; by repeat split; [intros ? ?%not_elem_of_nil|]|].
  cbn. destruct (strictly_contains (sym top) s) eqn:Es.
  - exists []. split; [done|]. split; [by intros ? ?%not_elem_of_nil|]. by intros ? [= <-].
  - exists (top :: popped). split; [cbn; by rewrite <- He|]. split; [|done].
    intros q [->|Hq]%elem_of_cons; [done|by apply Hp].
Qed.

(** The stack after a sweep, the latest index first: what strictly contains
    everything that came after it. *)
Fixpoint open_stack (latest_first : list nat) : list nat :=
  match latest_first with
  | [] => []
  | i :: rest => i :: List.filter (fun q => strictly_contains (sym q) (sym i)) (open_stack rest)
  end.

Lemma strictly_contains_trans a b c : strictly_contains a b = true -> strictly_contains b c = true ->
  strictly_contains a c = true.
Proof. rewrite !strictly_contains_spec. lia. Qed.

(** Popping from the top drops everything that does not contain the symbol. *)
Lemma pop_others_filter s stack : StronglySorted (fun a b => strictly_contains (sym b) (sym a) = true) stack ->
  pop_others symbols s stack = List.filter (fun q => strictly_contains (sym q) s) stack.
Proof.
  induction 1 as [|top rest _ IH Hall]; [done|]. cbn. destruct (strictly_contains (sym top) s) eqn:Es; [|done].
  f_equal. clear IH. induction Hall as [|q rest Hq _ IH]; [done|]. cbn.
  by rewrite (strictly_contains_trans _ _ _ Hq Es), <- IH.
Qed.
Lemma filter_strongly {A} (R : A -> A -> Prop) (f : A -> bool) l : StronglySorted R l -> StronglySorted R (List.filter f l).
Proof.
  induction 1 as [|x l _ IH Hall]; [constructor|]. cbn. destruct (f x); [|done]. constructor; [done|].
  rewrite Forall_forall in Hall. apply Forall_forall. intros y [Hy _]%list_elem_of_In%filter_In. by apply Hall, list_elem_of_In.
Qed.
Lemma open_stack_chain l : StronglySorted (fun a b => strictly_contains (sym b) (sym a) = true) (open_stack l).
Proof.
  induction l as [|i l IH]; [constructor|]. cbn. constructor; [by apply filter_strongly|].
  apply Forall_forall. by intros q [_ Hq]%list_elem_of_In%filter_In.
Qed.

(** The top of the stack, once what does not contain [after] is dropped. *)
Lemma open_stack_head latest_first : forall after,
  match head (List.filter (fun q => forallb (fun j => strictly_contains (sym q) (sym j)) after) (open_stack latest_first)) with
  | Some p => exists later earlier, latest_first = later ++ p :: earlier /\ contains_all p (rev later ++ after) /\
      forall q l1 l2, later = l1 ++ q :: l2 -> ~ contains_all q (rev l1 ++ after)
  | None => forall q l1 l2, latest_first = l1 ++ q :: l2 -> ~ contains_all q (rev l1 ++ after)
  end.
Proof.
  assert (forall q after, forallb (fun j => strictly_contains (sym q) (sym j)) after = true <-> contains_all q after) as Hall.
  { intros q after. rewrite forallb_forall. unfold contains_all. rewrite Forall_forall. by setoid_rewrite list_elem_of_In. }
  induction latest_first as [|i rest IH]; intros after; [by intros q [|? ?] l2|]. cbn.
  destruct (forallb _ after) eqn:Ei.
  { exists [], rest. split; [done|]. split; [by apply Hall|]. by intros q [|? ?] l2. }
  specialize (IH (i :: after)).
  assert (forall l, List.filter (fun q => forallb (fun j => strictly_contains (sym q) (sym j)) after)
    (List.filter (fun q => strictly_contains (sym q) (sym i)) l)
    = List.filter (fun q => forallb (fun j => strictly_contains (sym q) (sym j)) (i :: after)) l) as ->.
  { induction l as [|q l IHl]; [done|]. cbn. destruct (strictly_contains (sym q) (sym i)); cbn; by rewrite IHl. }
  assert (~ contains_all i after) as Hni by (rewrite <- Hall; by rewrite Ei).
  destruct (head _) as [p|].
  - destruct IH as (later & earlier & -> & Hp & Hlater). exists (i :: later), earlier. split; [done|]. cbn.
    rewrite <- app_assoc. split; [done|]. intros q [|x l1] l2 [= <- Hl]; [done|]. cbn. rewrite <- app_assoc. by apply (Hlater q l1 l2).
  - intros q [|x l1] l2 [= <- Hl]; [done|]. cbn. rewrite <- app_assoc. by apply (IH q l1 l2).
Qed.

(** One index, whatever the ranges: the top of the stack. *)
Lemma sweep_top before i : let stack := pop_others symbols (sym i) (open_stack (rev before)) in
  last_open before i (head stack) /\ i :: stack = open_stack (rev (before ++ [i])).
Proof.
  cbn zeta. rewrite pop_others_filter by apply open_stack_chain. split; [|by rewrite rev_app_distr].
  pose proof (open_stack_head (rev before) [i]) as H.
  assert (forall l, List.filter (fun q => forallb (fun j => strictly_contains (sym q) (sym j)) [i]) l
    = List.filter (fun q => strictly_contains (sym q) (sym i)) l) as Hf.
  { intros l. apply List.filter_ext. intros q. cbn. by rewrite andb_true_r. }
  rewrite Hf in H. destruct (head _) as [p|]; unfold last_open.
  - destruct H as (later & earlier & Hb & Hp & Hlater). exists (rev earlier), (rev later). split; [|split; [done|]].
    + rewrite <- (rev_involutive before), Hb, rev_app_distr. cbn. by rewrite <- app_assoc.
    + intros q l1 l2 Hl. specialize (Hlater q (rev l2) (rev l1)). rewrite rev_involutive in Hlater. apply Hlater.
      rewrite <- (rev_involutive later), Hl, rev_app_distr. cbn. by rewrite <- app_assoc.
  - intros q l1 l2 Hb. specialize (H q (rev l2) (rev l1)). rewrite rev_involutive in H. apply H.
    rewrite Hb, rev_app_distr. cbn. by rewrite <- app_assoc.
Qed.

(** One index: the top of the stack is its innermost container. *)
Lemma sweep_step (Hn : nested) done_ stack i rest :
  swept done_ stack -> (forall q, q ∈ done_ ++ i :: rest -> q < length symbols) ->
  StronglySorted (fun a b => outer_first symbols a b <> Gt) (done_ ++ i :: rest) ->
  (forall q, q < length symbols -> q ∈ done_ ++ i :: rest) ->
  innermost i (head (pop_others symbols (sym i) stack)) /\ swept (done_ ++ [i]) (i :: pop_others symbols (sym i) stack).
Proof.
  intros [Hin Hchain Hrest] Hlt Hsort Hall. apply StronglySorted_app in Hsort as (Hbefore & _ & Hsort).
  apply StronglySorted_cons in Hsort as [Hafter _]. rewrite Forall_forall in Hafter.
  destruct (pop_others_suffix (sym i) stack) as (popped & Hst & Hpop & Htop).
  set (stack' := pop_others symbols (sym i) stack) in *.
  assert (Hi : i < length symbols) by (apply Hlt, elem_of_app; right; by left).
  assert (Hle : forall q, q ∈ done_ -> q < length symbols) by (intros q Hq; apply Hlt, elem_of_app; by left).
  assert (Hchain' : forall k a b, stack' !! k = Some a -> stack' !! S k = Some b -> strictly_contains (sym b) (sym a) = true).
  { intros k a b Ha Hb. apply (Hchain (length popped + k)); rewrite Hst.
    - by rewrite lookup_app_r, Nat.add_comm, Nat.add_sub by lia.
    - rewrite lookup_app_r by lia. by replace (S (length popped + k) - length popped) with (S k) by lia. }
  assert (Hcont : forall q, q < length symbols -> strictly_contains (sym q) (sym i) = true ->
    exists p, p ∈ stack' /\ start_byte (sym p) = start_byte (sym q) /\ end_byte (sym p) = end_byte (sym q)).
  { intros q Hq Hc. pose proof Hc as Hc'. apply strictly_contains_spec in Hc'.
    assert (Hd : q ∈ done_).
    { specialize (Hall q Hq). apply elem_of_app in Hall as [?|[->|Hr]%elem_of_cons]; [done|lia|].
      specialize (Hafter q Hr). apply outer_first_le in Hafter. lia. }
    assert (Hstay : forall p, p ∈ stack -> strictly_contains (sym p) (sym i) = true -> p ∈ stack').
    { intros p Hp Hs. rewrite Hst in Hp. apply elem_of_app in Hp as [Hp|?]; [|done]. by rewrite (Hpop p Hp) in Hs. }
    destruct (Hrest q Hd) as [Hs|[(last & Hl & He)|(p & Hp & H1 & H2)]].
    - exists q. split; [by apply Hstay|done].
    - exfalso. pose proof (Hbefore last i Hl ltac:(by left)) as Ho. apply outer_first_le in Ho.
      destruct (Hn i i Hi Hi) as [Hne _]. lia.
    - exists p. split; [|done]. apply Hstay; [done|]. apply strictly_contains_spec. rewrite H1, H2. lia. }
  split.
  - unfold innermost. destruct stack' as [|top s'] eqn:Es; cbn [head].
    + intros q Hq. destruct (strictly_contains (sym q) (sym i)) eqn:Ec; [|done].
      destruct (Hcont q Hq Ec) as (p & Hp & _). by apply not_elem_of_nil in Hp.
    + split; [apply Hle, Hin; rewrite Hst; apply elem_of_app; right; by left|]. split; [by apply Htop|].
      intros q Hq Hc. destruct (Hcont q Hq Hc) as (p & Hp & <- & <-).
      apply list_elem_of_lookup in Hp as [k Hk]. by eapply (chain_contains (top :: s')).
  - split.
    + intros q [->|Hq]%elem_of_cons; apply elem_of_app; [right; by left|left]. apply Hin. rewrite Hst.
      apply elem_of_app. by right.
    + intros [|k] a b; cbn; [|apply Hchain'].
      intros [= <-] Hb. apply Htop. destruct stack'; [done|]. by injection Hb as ->.
    + intros q [Hq|Hq]%elem_of_app;
      [|apply list_elem_of_singleton in Hq as ->; left; by left].
      assert (Hdead : forall p, p ∈ popped -> start_byte (sym p) = start_byte (sym i) /\ end_byte (sym p) = end_byte (sym i) \/
        end_byte (sym p) <= start_byte (sym i)).
      { intros p Hp. assert (Hps : p ∈ done_) by (apply Hin; rewrite Hst; apply elem_of_app; by left).
        pose proof (Hbefore p i Hps ltac:(by left)) as Ho. apply outer_first_le in Ho.
        specialize (Hpop p Hp). destruct (Hn p i (Hle p Hps) Hi) as [Hne Hcase]. destruct (Hn i i Hi Hi) as [Hne' _].
        destruct (decide (start_byte (sym p) = start_byte (sym i) /\ end_byte (sym p) = end_byte (sym i))); [by left|].
        right. assert (~ (start_byte (sym p) <= start_byte (sym i) /\ end_byte (sym i) <= end_byte (sym p))) as Hnc.
        { intros ?. enough (strictly_contains (sym p) (sym i) = true) by congruence. apply strictly_contains_spec. lia. }
        lia. }
      assert (Hpopped : forall p, p ∈ stack -> start_byte (sym p) = start_byte (sym q) -> end_byte (sym p) = end_byte (sym q) ->
        q ∈ i :: stack' \/ (exists last, last ∈ done_ ++ [i] /\ end_byte (sym q) <= start_byte (sym last)) \/
        (exists p, p ∈ i :: stack' /\ start_byte (sym p) = start_byte (sym q) /\ end_byte (sym p) = end_byte (sym q))).
      { intros p Hp H1 H2. rewrite Hst in Hp. apply elem_of_app in Hp as [Hp|Hp].
        - destruct (Hdead p Hp) as [[H3 H4]|H3].
          + right; right. exists i. split; [by left|]. lia.
          + right; left. exists i. split; [apply elem_of_app; right; by left|]. lia.
        - right; right. exists p. split; [by right|done]. }
      destruct (Hrest q Hq) as [Hs|[(last & Hl & He)|(p & Hp & H1 & H2)]]; [by apply (Hpopped q)| |by apply (Hpopped p)].
      right; left. exists last. split; [apply elem_of_app; by left|done].
Qed.

Definition given_parent (i : nat) (s : Symbol) : Prop :=
  exists before after answer, sweep_order = before ++ i :: after /\ last_open before i answer /\
    (nested -> innermost i answer) /\ s = with_parent (sym i) (new_parent i answer).

Lemma same_ranges_insert now i s : same_ranges now -> i < length symbols ->
  with_parent s None = with_parent (sym i) None -> same_ranges (<[i := s]> now).
Proof.
  intros [Hl Hs] Hi Hp. split; [by rewrite length_insert|]. intros j. unfold symbol_at at 1.
  destruct (decide (i = j)) as [->|Hne]; [by rewrite list_lookup_insert_eq by lia|].
  rewrite list_lookup_insert_ne by done. apply Hs.
Qed.
Lemma with_parent_same s t : with_parent s None = with_parent t None -> parent s = parent t -> s = t.
Proof. destruct s, t. cbn. unfold with_parent. cbn. congruence. Qed.
Lemma with_parent_twice s t p : with_parent s None = with_parent t None -> with_parent s p = with_parent t p.
Proof. unfold with_parent. congruence. Qed.

Lemma elem_of_sweep_order q : (q ∈ sweep_order) <-> q < length symbols.
Proof. unfold sweep_order. rewrite sort_by_perm, elem_of_seq. lia. Qed.
Lemma sweep_order_NoDup : NoDup sweep_order.
Proof. unfold sweep_order. rewrite sort_by_perm. apply NoDup_seq. Qed.

(** The parent that one index is given. *)
Lemma parent_step now i answer : same_ranges now -> i < length symbols ->
  parent (symbol_at now i) = parent (sym i) ->
  let now' := match parent (symbol_at now i) with
              | Some _ => now
              | None => <[i := with_parent (symbol_at now i) ((fun top => name (symbol_at now top)) <$> answer)]> now
              end in
  symbol_at now' i = with_parent (sym i) (new_parent i answer) /\ same_ranges now' /\
  forall j, j <> i -> symbol_at now' j = symbol_at now j.
Proof.
  intros Hnow Hi Hpi. pose proof (proj2 Hnow i) as Hwi. cbn zeta. unfold new_parent.
  destruct (parent (symbol_at now i)) as [p|] eqn:Ep; rewrite <- Hpi.
  - split; [|done]. apply with_parent_same; [done|by cbn].
  - split; [|split].
    + unfold symbol_at at 1. rewrite list_lookup_insert_eq by (destruct Hnow; lia).
      cbn. erewrite with_parent_twice by done. f_equal. destruct answer as [top|]; [|done]. cbn.
      f_equal. apply (same_ranges_at now top Hnow).
    + by apply same_ranges_insert.
    + intros j Hj. unfold symbol_at. by rewrite list_lookup_insert_ne.
Qed.

Lemma parents_loop_spec rest : forall before now,
  sweep_order = before ++ rest -> (nested -> swept before (open_stack (rev before))) -> same_ranges now ->
  (forall i, i ∈ rest -> parent (symbol_at now i) = parent (sym i)) ->
  (forall i, i ∈ before -> given_parent i (symbol_at now i)) ->
  length (parents_loop rest (open_stack (rev before)) now) = length symbols /\
  forall i, i < length symbols -> given_parent i (symbol_at (parents_loop rest (open_stack (rev before)) now) i).
Proof.
  induction rest as [|i rest IH]; intros before now Hord Hsw Hnow Hpar Hgiven.
  { split; [apply Hnow|]. intros i Hi. apply Hgiven. apply elem_of_sweep_order in Hi. by rewrite Hord, app_nil_r in Hi. }
  cbn [parents_loop]. destruct (same_ranges_at now i Hnow) as (_ & Hs & He).
  rewrite (pop_others_same now _ (sym i) _ Hnow Hs He). destruct (sweep_top before i) as [Htop Hstack].
  assert (Hi : i < length symbols) by (apply elem_of_sweep_order; rewrite Hord; apply elem_of_app; right; by left).
  assert (Hni : (i ∉ before) /\ (i ∉ rest)).
  { pose proof sweep_order_NoDup as Hnd. rewrite Hord in Hnd.
    apply NoDup_app in Hnd as (_ & Hd & Hnd). apply NoDup_cons in Hnd as [? _]. split; [|done].
    intros Hid. apply (Hd i Hid). by left. }
  assert (Hnest : nested -> innermost i (head (pop_others symbols (sym i) (open_stack (rev before)))) /\
    swept (before ++ [i]) (i :: pop_others symbols (sym i) (open_stack (rev before)))).
  { intros Hn. eapply (sweep_step Hn _ _ _ rest); [by apply Hsw|..]; rewrite <- Hord;
      [by intros q ?%elem_of_sweep_order|apply sort_by_sorted, _|by intros q ?%elem_of_sweep_order]. }
  destruct (parent_step now i (head (pop_others symbols (sym i) (open_stack (rev before)))) Hnow Hi
    (Hpar i ltac:(by left))) as (Hat & Hnow' & Hother).
  match goal with |- context [parents_loop rest _ ?x] => set (now' := x) in * end. clearbody now'.
  rewrite Hstack. rewrite Hstack in Hnest. apply (IH (before ++ [i])).
  - by rewrite <- app_assoc.
  - intros Hn. by apply Hnest.
  - done.
  - intros j Hj. rewrite Hother by (intros ->; by destruct Hni). apply Hpar. by right.
  - intros j [Hj|Hj]%elem_of_app.
    + rewrite Hother by (intros ->; by destruct Hni). by apply Hgiven.
    + apply list_elem_of_singleton in Hj as ->. eexists before, rest, _. split; [done|]. split; [done|].
      split; [|done]. intros Hn. by apply Hnest.
Qed.
End Parents.

Lemma sort_by_seq {C : nat -> nat -> comparison} n q : (q ∈ sort_by C (seq 0 n)) <-> q < n.
Proof. rewrite (sort_by_perm C). rewrite elem_of_seq. lia. Qed.

(** C25: the parent of a symbol is the innermost symbol around it.  The result has the
    symbols of the input, sorted by range; only parents change, and a parent that the
    parser gave is kept.  Any other symbol gets the name of the last symbol before it,
    outer ranges first, that strictly contains everything from there up to it, and no
    parent when there is none: for arbitrary ranges, overlapping ones included.  When the
    ranges are nested or apart, as those of a syntax tree are, that is the smallest symbol
    that strictly contains it, and none when no symbol does.  Symbols of every kind count
    as parents, LaTeX labels and captions too: only the owners of references leave those out. *)
Theorem symbol_parents_innermost (symbols : list Symbol) :
  exists l, compute_symbol_parents symbols ≡ₚ l /\
    StronglySorted (fun a b => by_range a b <> Gt) (compute_symbol_parents symbols) /\
    length l = length symbols /\
    forall i, i < length symbols -> exists before after answer,
      sweep_order symbols = before ++ i :: after /\ last_open symbols before i answer /\
      (nested symbols -> innermost symbols i answer) /\
      symbol_at l i = with_parent (symbol_at symbols i)
        (match parent (symbol_at symbols i) with
         | Some given => Some given
         | None => (fun p => name (symbol_at symbols p)) <$> answer
         end).
Proof.
  exists (parents_loop (sweep_order symbols) [] symbols).
  assert (Hc : compute_symbol_parents symbols = sort_by by_range (parents_loop (sweep_order symbols) [] symbols)) by by destruct symbols.
  rewrite Hc. split; [by rewrite sort_by_perm|]. split; [apply sort_by_sorted, _|].
  apply (parents_loop_spec symbols (sweep_order symbols) []); [done| |done|done|by intros i ?%not_elem_of_nil].
  intros _. split; [by intros q ?%not_elem_of_nil|by intros [|k] a b|by intros q ?%not_elem_of_nil].
Qed.

(** A class with two methods, and a function apart. *)
Definition demo_symbols : list Symbol :=
  [mk_symbol "free" "function" None None 9 9 90 99; mk_symbol "get" "method" None None 2 3 10 40;
   mk_symbol "Box" "class" None None 1 8 0 80; mk_symbol "inner" "function" None None 3 3 20 30;
   mk_symbol "set" "method" (Some "Box2") None 4 5 50 70].
Example demo_parents : (fun s => (name s, parent s)) <$> compute_symbol_parents demo_symbols =
  [("Box", None); ("get", Some "Box"); ("inner", Some "get"); ("set", Some "Box2"); ("free", None)].
Proof. vm_compute. reflexivity. Qed.
(** The second range overlaps the end of the first: it closes the first one. *)
Definition overlapping_symbols : list Symbol :=
  [mk_symbol "a" "function" None None 1 5 0 50; mk_symbol "b" "function" None None 4 8 40 80;
   mk_symbol "c" "function" None None 5 5 45 48].
Example overlapping_parents : (fun s => (name s, parent s)) <$> compute_symbol_parents overlapping_symbols =
  [("a", None); ("b", None); ("c", Some "b")].
Proof. vm_compute. reflexivity. Qed.
Lemma demo_nested : nested demo_symbols.
Proof.
  intros a b Ha Hb. cbn in Ha, Hb. do 5 (destruct a as [|a]; [do 5 (destruct b as [|b]; [cbn; lia|]); lia|]). lia.
Qed.
Lemma symbol_parents_innermost_witness :
  exists l, compute_symbol_parents demo_symbols ≡ₚ l /\
    forall i, i < length demo_symbols -> exists answer, innermost demo_symbols i answer.
Proof.
  destruct (symbol_parents_innermost demo_symbols) as (l & Hl & _ & _ & Hp). exists l. split; [exact Hl|].
  intros i Hi. destruct (Hp i Hi) as (_ & _ & answer & _ & _ & Hn & _). exists answer. exact (Hn demo_nested).
Defined.

(** ** Enclosing symbols *)
Section Enclosing.
Variable symbols : list Symbol.
Abbreviation sym := (symbol_at symbols).

Definition owns (r : Reference) (q : nat) : Prop :=
  q < length symbols /\ is_alias (sym q) = false /\ start_byte (sym q) <= ref_start r /\ ref_end r <= end_byte (sym q).

(** The owner that starts last and, of those, ends first. *)
Definition narrowest (r : Reference) (answer : option nat) : Prop :=
  match answer with
  | Some p => owns r p /\ forall q, owns r q -> start_byte (sym q) < start_byte (sym p) \/
      (start_byte (sym q) = start_byte (sym p) /\ end_byte (sym p) <= end_byte (sym q))
  | None => forall q, ~ owns r q
  end.
Definition given_enclosing (r r' : Reference) : Prop :=
  exists answer, narrowest r answer /\ r' = with_enclosing r ((fun p => name (sym p)) <$> answer).

(** The stack after the indices [done_], for references that start from [start]. *)
Record opened (start : nat) (done_ stack : list nat) : Prop := {
  opened_range : forall q, q ∈ stack -> q ∈ done_;
  opened_order : StronglySorted (fun a b => outer_first symbols b a <> Gt) stack;
  opened_start : forall q, q ∈ done_ -> start_byte (sym q) <= start;
  opened_rest : forall q, q ∈ done_ -> start < end_byte (sym q) -> q ∈ stack
}.

Lemma opened_later start start' done_ stack : start <= start' -> opened start done_ stack -> opened start' done_ stack.
Proof.
  intros Hle [H1 H2 H3 H4]. split; [done|done| |].
  - intros q Hq. specialize (H3 q Hq). lia.
  - intros q Hq He. apply H4; [done|lia].
Qed.

Lemma pop_closed_opened start done_ stack : opened start done_ stack -> opened start done_ (pop_closed symbols start stack).
Proof.
  induction stack as [|top rest IH]; intros Ho; [done|]. cbn. destruct (Nat.leb_spec (end_byte (sym top)) start); [|done].
  apply IH. destruct Ho as [H1 H2 H3 H4]. split; [intros q Hq; apply H1; by right| |done|].
  - by apply StronglySorted_cons in H2 as [_ H2].
  - intros q Hq He. specialize (H4 q Hq He). apply elem_of_cons in H4 as [->|?]; [lia|done].
Qed.

Lemma push_open_opened start pending : forall done_ stack pending' stack',
  StronglySorted (fun a b => outer_first symbols a b <> Gt) (done_ ++ pending) ->
  opened start done_ stack -> push_open symbols start pending stack = (pending', stack') ->
  exists more, pending = more ++ pending' /\ opened start (done_ ++ more) stack' /\
    (forall q, q ∈ pending' -> start < start_byte (sym q)).
Proof.
  induction pending as [|si rest IH]; intros done_ stack pending' stack' Hs Ho; cbn [push_open].
  - intros [= <- <-]. exists []. rewrite (app_nil_r done_). split; [done|]. split; [done|]. by intros q ?%not_elem_of_nil.
  - destruct (Nat.ltb_spec start (start_byte (sym si))) as [Hlt|Hge].
    + intros [= <- <-]. exists []. rewrite (app_nil_r done_). split; [done|]. split; [done|].
      intros q [->|Hq]%elem_of_cons; [done|]. apply StronglySorted_app in Hs as (_ & _ & Hs).
      apply StronglySorted_cons in Hs as [Hf _]. rewrite Forall_forall in Hf.
      specialize (Hf q Hq). apply outer_first_le in Hf. lia.
    + intros Hp. destruct (IH (done_ ++ [si]) (if start <? end_byte (sym si) then si :: stack else stack) pending' stack')
        as (more & -> & Ho' & Hrest); [by rewrite <- app_assoc| |done|].
      * destruct Ho as [H1 H2 H3 H4]. apply StronglySorted_app in Hs as (Hs & _ & _).
        destruct (Nat.ltb_spec start (end_byte (sym si))) as [He|He]; split.
        -- intros q [->|Hq]%elem_of_cons; apply elem_of_app; [right; by left|left; by apply H1].
        -- constructor; [done|]. apply Forall_forall. intros q Hq. apply (Hs q si); [by apply H1|by left].
        -- intros q [Hq|Hq]%elem_of_app; [by apply H3|]. by apply list_elem_of_singleton in Hq as ->.
        -- intros q [Hq|Hq]%elem_of_app Hq'; [right; by apply H4|]. apply list_elem_of_singleton in Hq as ->. by left.
        -- intros q Hq. apply elem_of_app. left. by apply H1.
        -- done.
        -- intros q [Hq|Hq]%elem_of_app; [by apply H3|]. by apply list_elem_of_singleton in Hq as ->.
        -- intros q [Hq|Hq]%elem_of_app Hq'; [by apply H4|]. apply list_elem_of_singleton in Hq as ->. lia.
      * exists (si :: more). rewrite <- app_assoc in Ho'. done.
Qed.

Lemma find_narrowest (P : nat -> bool) stack :
  StronglySorted (fun a b => outer_first symbols b a <> Gt) stack ->
  match find P stack with
  | Some p => p ∈ stack /\ P p = true /\ forall q, q ∈ stack -> P q = true -> q = p \/ outer_first symbols q p <> Gt
  | None => forall q, q ∈ stack -> P q = false
  end.
Proof.
  induction stack as [|top rest IH]; intros Hs; cbn; [by intros q ?%not_elem_of_nil|].
  apply StronglySorted_cons in Hs as [Hf Hs]. rewrite Forall_forall in Hf. destruct (P top) eqn:Ep.
  - split; [by left|]. split; [done|]. intros q [->|Hq]%elem_of_cons _; [by left|right; by apply Hf].
  - specialize (IH Hs). destruct (find P rest) as [p|].
    + destruct IH as (Hp & HP & Hq). split; [by right|]. split; [done|].
      intros q [->|Hr]%elem_of_cons Hq'; [congruence|by apply Hq].
    + intros q [->|Hr]%elem_of_cons; [done|by apply IH].
Qed.

(** The symbols that can own a reference, in order. *)
Definition owners : list nat :=
  sort_by (outer_first symbols) (List.filter (fun i => negb (is_alias (sym i))) (seq 0 (length symbols))).
Lemma elem_of_owners q : (q ∈ owners) <-> q < length symbols /\ is_alias (sym q) = false.
Proof.
  unfold owners. rewrite (sort_by_perm _), list_elem_of_In, filter_In, in_seq, negb_true_iff. split; intros; [|]; lia || tauto || (split; [lia|tauto]).
Qed.

Lemma enclosing_step r done_ pending stack pending' stack' :
  ref_start r < ref_end r -> done_ ++ pending = owners -> opened (ref_start r) done_ stack ->
  push_open symbols (ref_start r) pending (pop_closed symbols (ref_start r) stack) = (pending', stack') ->
  narrowest r (find (fun top => ref_end r <=? end_byte (sym top)) stack') /\
  exists done', done' ++ pending' = owners /\ opened (ref_start r) done' stack'.
Proof.
  intros Hne Hall Ho Hp.
  assert (Hs : StronglySorted (fun a b => outer_first symbols a b <> Gt) (done_ ++ pending)).
  { rewrite Hall. apply sort_by_sorted, _. }
  destruct (push_open_opened (ref_start r) pending done_ _ pending' stack' Hs (pop_closed_opened _ _ _ Ho) Hp)
    as (more & -> & Ho' & Hrest). rewrite app_assoc in Hall.
  split; [|by exists (done_ ++ more)]. destruct Ho' as [H1 H2 H3 H4].
  assert (Howns : forall q, owns r q <-> q ∈ stack' /\ (ref_end r <=? end_byte (sym q)) = true).
  { intros q. rewrite Nat.leb_le. split.
    - intros (Hq & Ha & Hst & He). split; [|done]. apply H4; [|lia].
      assert (Hin : q ∈ (done_ ++ more) ++ pending') by (rewrite Hall; by apply elem_of_owners).
      apply elem_of_app in Hin as [?|Hin]; [done|]. specialize (Hrest q Hin). lia.
    - intros [Hq He]. specialize (H1 q Hq). specialize (H3 q H1).
      assert (Hin : q ∈ owners) by (rewrite <- Hall; apply elem_of_app; by left).
      apply elem_of_owners in Hin as [? ?]. done. }
  pose proof (find_narrowest (fun top => ref_end r <=? end_byte (sym top)) stack' H2) as Hf.
  unfold narrowest. destruct (find _ stack') as [p|].
  - destruct Hf as (Hp1 & Hp2 & Hq). split; [by apply Howns|]. intros q Hq'. apply Howns in Hq' as [Hq1 Hq2].
    destruct (Hq q Hq1 Hq2) as [->|Hle]; [right; lia|]. by apply outer_first_le.
  - intros q Hq. apply Howns in Hq as [Hq1 Hq2]. by rewrite (Hf q Hq1) in Hq2.
Qed.

Lemma enclosing_loop_spec (references : list Reference)
    (Hne : forall j, j < length references -> ref_start (reference_at references j) < ref_end (reference_at references j)) :
  forall ref_indices start done_ pending stack now,
  NoDup ref_indices -> (forall j, j ∈ ref_indices -> j < length references /\ reference_at now j = reference_at references j) ->
  StronglySorted (fun a b => (ref_start (reference_at references a) ?= ref_start (reference_at references b)) <> Gt) ref_indices ->
  (forall j, j ∈ ref_indices -> start <= ref_start (reference_at references j)) ->
  length now = length references -> done_ ++ pending = owners -> opened start done_ stack ->
  (forall j, j < length references -> j ∉ ref_indices -> given_enclosing (reference_at references j) (reference_at now j)) ->
  length (enclosing_loop symbols ref_indices pending stack now) = length references /\
  forall j, j < length references ->
    given_enclosing (reference_at references j) (reference_at (enclosing_loop symbols ref_indices pending stack now) j).
Proof.
  induction ref_indices as [|ri rest IH]; intros start done_ pending stack now Hnd Hin Hs Hst Hl Hall Ho Hg.
  { split; [done|]. intros j Hj. apply Hg; [done|by apply not_elem_of_nil]. }
  cbn [enclosing_loop]. destruct (Hin ri ltac:(by left)) as [Hri ->]. set (r := reference_at references ri) in *.
  destruct (push_open _ _ _ _) as [pending' stack'] eqn:Ep.
  apply NoDup_cons in Hnd as [Hni Hnd]. apply StronglySorted_cons in Hs as [Hf Hs]. rewrite Forall_forall in Hf.
  destruct (enclosing_step r done_ pending stack pending' stack') as (Hnar & done' & Hall' & Ho');
    [by apply Hne|done|eapply opened_later; [|done]; apply Hst; by left|done|].
  assert (Hother : forall j r', j <> ri -> reference_at (<[ri := r']> now) j = reference_at now j).
  { intros j r' Hj. unfold reference_at. by rewrite list_lookup_insert_ne. }
  apply (IH (ref_start r) done'); try done.
  - intros j Hj. split; [apply Hin; by right|]. rewrite Hother by (intros ->; done). apply Hin. by right.
  - intros j Hj. specialize (Hf j Hj). by apply Nat.compare_le_iff in Hf.
  - by rewrite length_insert.
  - intros j Hj Hnj. destruct (decide (j = ri)) as [->|Hne'].
    + exists (find (fun top => ref_end r <=? end_byte (sym top)) stack'). split; [done|].
      unfold reference_at at 1. by rewrite list_lookup_insert_eq by lia.
    + rewrite Hother by done. apply Hg; [done|]. by intros [->|?]%elem_of_cons.
Qed.
End Enclosing.

(** C28: the symbol of a reference is the narrowest that encloses it.  Every reference of the
    result is one of the input whose enclosing symbol is, of the symbols that contain
    its range and are not labels or captions, the one that starts last and ends
    first; it has none when no symbol contains it.  The ranges need not be nested. *)
Theorem reference_enclosing_narrowest (symbols : list Symbol) (references : list Reference)
    (Hparsed : forall r, r ∈ references -> enclosing_symbol r = None /\ ref_start r < ref_end r) :
  exists l, compute_reference_enclosing symbols references ≡ₚ l /\
    StronglySorted (fun a b => by_ref_range a b <> Gt) (compute_reference_enclosing symbols references) /\
    length l = length references /\
    forall j, j < length references ->
      given_enclosing symbols (reference_at references j) (reference_at l j).
Proof.
  assert (Hat : forall j, j < length references -> reference_at references j ∈ references).
  { intros j Hj. apply lookup_lt_is_Some in Hj as [r Hr]. unfold reference_at. rewrite Hr. by apply (list_elem_of_lookup_2 _ j). }
  destruct (decide (symbols = [])) as [->|Hne].
  { exists references. assert (Hc : compute_reference_enclosing [] references = sort_by by_ref_range references) by done.
    rewrite Hc. split; [by rewrite sort_by_perm|]. split; [apply sort_by_sorted, _|]. split; [done|]. intros j Hj.
    exists None. split; [intros q [Hq _]; cbn in Hq; lia|]. destruct (Hparsed _ (Hat j Hj)) as [He _].
    destruct (reference_at references j); cbn in *; unfold with_enclosing; cbn; by subst. }
  destruct (decide (references = [])) as [->|Hne'].
  { exists []. assert (Hc : compute_reference_enclosing symbols [] = []) by by destruct symbols.
    rewrite Hc. split; [done|]. split; [constructor|]. split; [done|]. intros j Hj. cbn in Hj. lia. }
  set (ref_indices := sort_by (fun a b => ref_start (reference_at references a) ?= ref_start (reference_at references b))
    (seq 0 (length references))).
  exists (enclosing_loop symbols ref_indices (owners symbols) [] references).
  assert (Hc : compute_reference_enclosing symbols references =
    sort_by by_ref_range (enclosing_loop symbols ref_indices (owners symbols) [] references))
    by (by destruct symbols, references).
  rewrite Hc. split; [by rewrite sort_by_perm|]. split; [apply sort_by_sorted, _|].
  apply (enclosing_loop_spec symbols references) with (start := 0) (done_ := []).
  - intros j Hj. apply Hparsed, Hat, Hj.
  - subst ref_indices. rewrite sort_by_perm. apply NoDup_seq.
  - intros j Hj. subst ref_indices. by apply sort_by_seq in Hj.
  - apply sort_by_sorted, _.
  - intros j _. lia.
  - done.
  - done.
  - split; [by intros q ?%not_elem_of_nil|constructor|by intros q ?%not_elem_of_nil..].
  - intros j Hj Hn. exfalso. apply Hn. subst ref_indices. by apply sort_by_seq.
Qed.

Definition demo_references : list Reference :=
  [mk_reference "x" "call" IndexDb.Reference None 3 3 25 26; mk_reference "y" "call" IndexDb.Reference None 1 1 5 6;
   mk_reference "z" "call" IndexDb.Reference None 8 8 85 86].
Example demo_enclosing :
  (fun r => (ref_name r, enclosing_symbol r)) <$> compute_reference_enclosing demo_symbols demo_references =
  [("y", Some "Box"); ("x", Some "inner"); ("z", None)].
Proof. vm_compute. reflexivity. Qed.
Lemma reference_enclosing_narrowest_witness :
  exists l, compute_reference_enclosing demo_symbols demo_references ≡ₚ l /\
    StronglySorted (fun a b => by_ref_range a b <> Gt) (compute_reference_enclosing demo_symbols demo_references) /\
    length l = length demo_references /\
    forall j, j < length demo_references ->
      given_enclosing demo_symbols (reference_at demo_references j) (reference_at l j).
Proof.
  apply reference_enclosing_narrowest.
  intros r [->|[->|[->|[]%not_elem_of_nil]%elem_of_cons]%elem_of_cons]%elem_of_cons; cbn; split; done || lia.
Defined.

(** ** Duplicates *)
Lemma retain_new_spec symbols seen :
  NoDup (symbol_key <$> retain_new seen symbols) /\
  (forall s, s ∈ retain_new seen symbols -> symbol_key s ∉ seen) /\
  (forall s, s ∈ symbols -> symbol_key s ∈ seen \/ symbol_key s ∈ symbol_key <$> retain_new seen symbols).
Proof.
  revert seen. induction symbols as [|s symbols IH]; intros seen; cbn.
  { split; [apply NoDup_nil_2|]. split; by intros ? ?%not_elem_of_nil. }
  destruct (bool_decide_reflect (symbol_key s ∈ seen)) as [Hs|Hs].
  - destruct (IH seen) as (H1 & H2 & H3). split; [done|]. split; [done|].
    intros t [->|Ht]%elem_of_cons; [by left|by apply H3].
  - destruct (IH ({[symbol_key s]} ∪ seen)) as (H1 & H2 & H3). split; [|split].
    + rewrite fmap_cons. apply NoDup_cons. split; [|done]. intros (t & Ht & Hin)%list_elem_of_fmap.
      apply (H2 t Hin). apply elem_of_union. left. apply elem_of_singleton. done.
    + intros t [->|Ht]%elem_of_cons; [done|]. specialize (H2 t Ht). intros Hin. apply H2, elem_of_union. by right.
    + intros t [->|Ht]%elem_of_cons; rewrite fmap_cons; [right; by left|].
      destruct (H3 t Ht) as [[Hk%elem_of_singleton|?]%elem_of_union|?]; [right; rewrite Hk; by left|by left|right; by right].
Qed.
Lemma deduplicate_symbols_spec symbols :
  NoDup (symbol_key <$> deduplicate_symbols symbols) /\
  (forall s, s ∈ symbols -> symbol_key s ∈ symbol_key <$> deduplicate_symbols symbols).
Proof.
  destruct (retain_new_spec symbols ∅) as (H1 & _ & H3). split; [done|].
  intros s Hs. destruct (H3 s Hs) as [?%not_elem_of_empty|?]; done.
Qed.

(** ** What the passes keep, for any ranges *)
Definition but_parent (s : Symbol) : Symbol := with_parent s None.
Definition but_enclosing (r : Reference) : Reference := with_enclosing r None.

Lemma insert_but {A} (f : A -> A) (l : list A) i (a : A) : (forall x, l !! i = Some x -> f a = f x) -> f <$> <[i := a]> l = f <$> l.
Proof.
  intros H. rewrite list_fmap_insert. destruct (l !! i) as [x|] eqn:Ei.
  - apply list_insert_id. rewrite list_lookup_fmap, Ei. cbn. f_equal. symmetry. by apply H.
  - apply list_insert_ge. rewrite length_fmap. by apply lookup_ge_None.
Qed.

Lemma parents_loop_keeps indices : forall stack symbols, but_parent <$> parents_loop indices stack symbols = but_parent <$> symbols.
Proof.
  induction indices as [|i indices IH]; intros stack symbols; cbn [parents_loop]; [done|]. rewrite IH.
  destruct (parent (symbol_at symbols i)); [done|]. apply insert_but. intros x Hx. unfold symbol_at. by rewrite Hx.
Qed.
Lemma compute_symbol_parents_keeps symbols : but_parent <$> compute_symbol_parents symbols ≡ₚ but_parent <$> symbols.
Proof.
  destruct symbols as [|s symbols]; [done|]. unfold compute_symbol_parents. rewrite (sort_by_perm by_range).
  by rewrite parents_loop_keeps.
Qed.

Lemma enclosing_loop_keeps symbols ref_indices : forall pending stack references,
  but_enclosing <$> enclosing_loop symbols ref_indices pending stack references = but_enclosing <$> references.
Proof.
  induction ref_indices as [|ri ref_indices IH]; intros pending stack references; cbn [enclosing_loop]; [done|].
  destruct (push_open _ _ _ _) as [pending' stack']. rewrite IH. apply insert_but. intros x Hx. unfold reference_at. by rewrite Hx.
Qed.
Lemma compute_reference_enclosing_keeps symbols references :
  but_enclosing <$> compute_reference_enclosing symbols references ≡ₚ but_enclosing <$> references.
Proof.
  unfold compute_reference_enclosing. destruct symbols as [|s symbols]; [by rewrite (sort_by_perm by_ref_range)|].
  destruct references as [|r references]; [by rewrite (sort_by_perm by_ref_range)|].
  rewrite (sort_by_perm by_ref_range). by rewrite enclosing_loop_keeps.
Qed.

Lemma retain_new_sub symbols : forall seen s, s ∈ retain_new seen symbols -> s ∈ symbols.
Proof.
  induction symbols as [|t symbols IH]; intros seen s; cbn [retain_new]; [done|].
  destruct (bool_decide _); [intros ?%IH; by right|]. intros [->|?%IH]%elem_of_cons; [by left|by right].
Qed.
