(* ===== verification/Utf8.v ===== *)
(** * Parsing texts by their bytes

    The functions of the standard library that the parsers use, on the UTF-8 bytes
    of a text.  A valid text is a sequence of characters; its parts between
    boundaries are valid, and the bytes around an ASCII character are boundaries:
    what a parser that walks over the bytes of a text needs in order to slice it. *)

From S2P Require Import Prelude Text.

(** ** Functions of the standard library on bytes *)
(** A literal and its bytes. *)
Definition lit_bytes (s : string) : list Byte.byte := String.list_byte_of_string s.
Definition text_of (b : list Byte.byte) : string := String.string_of_list_byte b.

(** How many bytes at the front satisfy [f]. *)
Fixpoint count_while (f : Byte.byte -> bool) (bytes : list Byte.byte) : nat :=
  match bytes with
  | b :: bytes => if f b then S (count_while f bytes) else 0
  | [] => 0
  end.
(** [iter().position(..)]. *)
Fixpoint position (b : Byte.byte) (bytes : list Byte.byte) : option nat :=
  match bytes with
  | [] => None
  | x :: bytes => if bool_decide (x = b) then Some 0 else S <$> position b bytes
  end.
(** The encodings of the white space of Unicode, one to three bytes. *)
Definition ws1 (b : Byte.byte) : bool := between 9 13 b || bool_decide (b = Byte.x20).
Definition ws2 (b0 b1 : Byte.byte) : bool :=
  bool_decide (b0 = Byte.xc2) && (bool_decide (b1 = Byte.x85) || bool_decide (b1 = Byte.xa0)).
Definition ws3 (b0 b1 b2 : Byte.byte) : bool :=
  (bool_decide (b0 = Byte.xe1) && bool_decide (b1 = Byte.x9a) && bool_decide (b2 = Byte.x80))
  || (bool_decide (b0 = Byte.xe2) && bool_decide (b1 = Byte.x80)
      && (between 128 138 b2 || between 168 169 b2 || bool_decide (b2 = Byte.xaf)))
  || (bool_decide (b0 = Byte.xe2) && bool_decide (b1 = Byte.x81) && bool_decide (b2 = Byte.x9f))
  || (bool_decide (b0 = Byte.xe3) && bool_decide (b1 = Byte.x80) && bool_decide (b2 = Byte.x80)).
Fixpoint trim_start (bytes : list Byte.byte) : list Byte.byte :=
  match bytes with
  | b0 :: r0 =>
    if ws1 b0 then trim_start r0
    else match r0 with
         | b1 :: r1 =>
           if ws2 b0 b1 then trim_start r1
           else match r1 with
                | b2 :: r2 => if ws3 b0 b1 b2 then trim_start r2 else bytes
                | [] => bytes
                end
         | [] => bytes
         end
  | [] => []
  end.
(** The same from the last byte. *)
Fixpoint trim_start_rev (bytes : list Byte.byte) : list Byte.byte :=
  match bytes with
  | b0 :: r0 =>
    if ws1 b0 then trim_start_rev r0
    else match r0 with
         | b1 :: r1 =>
           if ws2 b1 b0 then trim_start_rev r1
           else match r1 with
                | b2 :: r2 => if ws3 b2 b1 b0 then trim_start_rev r2 else bytes
                | [] => bytes
                end
         | [] => bytes
         end
  | [] => []
  end.
Definition trim_end (bytes : list Byte.byte) : list Byte.byte := rev (trim_start_rev (rev bytes)).
Definition trim (bytes : list Byte.byte) : list Byte.byte := trim_end (trim_start bytes).

(** ** Valid texts *)

Definition valid_char (c : list Byte.byte) : Prop :=
  wf_char c /\ forall rest, utf8_valid (c ++ rest) = utf8_valid rest.

Lemma utf8_split text : utf8_valid text = true -> text <> [] ->
  exists c rest, text = c ++ rest /\ valid_char c /\ utf8_valid rest = true.
Proof.
  intros Hv Hne. destruct text as [|b0 r0]; [done|]. cbn [utf8_valid] in Hv.
  destruct (is_ascii b0) eqn:E0.
  { exists [b0], r0. split; [done|]. split; [|done]. split; [|intros rest; cbn [utf8_valid app]; by rewrite E0].
    exists b0, []. repeat split; [by apply ascii_not_cont|constructor|simpl; lia]. }
  destruct r0 as [|b1 r1]; [done|].
  destruct (between 194 223 b0 && is_cont b1) eqn:E1.
  { exists [b0; b1], r1. split; [done|]. split; [|done].
    split; [|intros rest; cbn [utf8_valid app]; by rewrite E0, E1]. apply andb_true_iff in E1 as [? ?].
    exists b0, [b1]. repeat split; [byte_class|by repeat constructor|simpl; lia|congruence]. }
  destruct r1 as [|b2 r2]; [done|].
  destruct (lead3 b0 b1 && is_cont b2) eqn:E2.
  { exists [b0; b1; b2], r2. split; [done|]. split; [|done].
    split; [|intros rest; cbn [utf8_valid app]; by rewrite E0, E1, E2]. apply andb_true_iff in E2 as [? ?].
    exists b0, [b1; b2]. repeat split; [byte_class| |simpl; lia|congruence]. repeat constructor; [byte_class|done]. }
  destruct r2 as [|b3 r3]; [done|]. rewrite !andb_true_iff in Hv. destruct Hv as [[[E3 E4] E5] Hv].
  exists [b0; b1; b2; b3], r3. split; [done|]. split; [|done].
  split; [|intros rest; cbn [utf8_valid app]; by rewrite E0, E1, E2, E3, E4, E5].
  exists b0, [b1; b2; b3]. repeat split; [byte_class| |simpl; lia|congruence]. repeat constructor; [byte_class|done|done].
Qed.

Lemma wf_char_length c : wf_char c -> 1 <= length c.
Proof. intros (b & cs & -> & _). cbn. lia. Qed.

(** Induction on the characters of a valid text. *)
Lemma utf8_ind (P : list Byte.byte -> Prop) :
  P [] -> (forall c rest, valid_char c -> utf8_valid rest = true -> P rest -> P (c ++ rest)) ->
  forall text, utf8_valid text = true -> P text.
Proof.
  intros H0 HS text. induction text as [text IH] using (induction_ltof1 _ (@length _)). unfold ltof in IH. intros Hv.
  destruct (decide (text = [])) as [->|Hne]; [done|].
  destruct (utf8_split text Hv Hne) as (c & rest & -> & Hc & Hr). apply HS; [done|done|]. apply IH; [|done].
  rewrite length_app. pose proof (wf_char_length c (proj1 Hc)). lia.
Qed.

Lemma utf8_valid_app a b : utf8_valid a = true -> utf8_valid b = true -> utf8_valid (a ++ b) = true.
Proof.
  intros Ha Hb. revert a Ha. apply utf8_ind; [done|]. intros c rest [_ Hc] _ IH. by rewrite <- app_assoc, Hc.
Qed.

(** A boundary is not inside the first character. *)
Lemma boundary_first c rest i : valid_char c -> utf8_valid rest = true ->
  is_char_boundary (c ++ rest) i = true -> i <= length (c ++ rest) -> i = 0 \/ length c <= i.
Proof.
  intros [Hc Hv] Hr Hb Hi. destruct (decide (i = 0)) as [|Hne]; [by left|]. right.
  destruct (decide (length c <= i)) as [|Hlt]; [done|]. exfalso.
  destruct Hc as (b & cs & -> & _ & Hcs & _). destruct i as [|i]; [done|]. cbn in Hlt.
  destruct (lookup_lt_is_Some_2 cs i) as [x Hx]; [lia|].
  assert (is_cont x = true) as Hx' by (rewrite Forall_forall in Hcs; by apply Hcs, (list_elem_of_lookup_2 _ i)).
  unfold is_char_boundary in Hb. cbn [Nat.eqb] in Hb. change (((b :: cs) ++ rest) !! S i) with ((cs ++ rest) !! i) in Hb.
  rewrite lookup_app_l, Hx in Hb by lia. by rewrite Hx' in Hb.
Qed.

Lemma utf8_valid_parts text i : utf8_valid text = true -> is_char_boundary text i = true -> i <= length text ->
  utf8_valid (take i text) = true /\ utf8_valid (drop i text) = true.
Proof.
  intros Hv. revert i. pattern text. revert text Hv. apply utf8_ind; [by intros [|i]|].
  intros c rest Hc Hr IH i Hb Hi. pose proof (utf8_valid_chars rest Hr) as Hur.
  assert (utf8_chars (c ++ rest)) as Hu by (constructor; [apply Hc|done]).
  destruct (boundary_first c rest i Hc Hr Hb Hi) as [->|Hge].
  { rewrite take_0, drop_0. split; [done|]. by rewrite (proj2 Hc). }
  replace i with (length c + (i - length c)) in Hb |- * by lia. rewrite boundary_shift in Hb by done.
  rewrite length_app in Hi. destruct (IH (i - length c)) as [H1 H2]; [done|lia|].
  rewrite take_app_add, drop_app_add. split; [by rewrite (proj2 Hc)|done].
Qed.

Lemma boundary_drop text i j : utf8_valid text = true -> is_char_boundary text i = true -> i <= length text ->
  is_char_boundary (drop i text) j = is_char_boundary text (i + j).
Proof.
  intros Hv Hb Hi. destruct (utf8_valid_parts text i Hv Hb Hi) as [Ht Hd].
  rewrite <- (take_drop i text) at 2. replace (i + j) with (length (take i text) + j) by (rewrite length_take; lia).
  rewrite boundary_shift; [done|rewrite take_drop|]; by apply utf8_valid_chars.
Qed.

Lemma utf8_valid_slice text i j : utf8_valid text = true -> i <= j <= length text ->
  is_char_boundary text i = true -> is_char_boundary text j = true ->
  utf8_valid (take (j - i) (drop i text)) = true.
Proof.
  intros Hv Hij Hi Hj. apply utf8_valid_parts.
  - apply (utf8_valid_parts text i); [done|done|lia].
  - rewrite boundary_drop by (done || lia). by replace (i + (j - i)) with j by lia.
  - rewrite length_drop. lia.
Qed.

(** ASCII characters lie between boundaries. *)
Lemma boundary_at_ascii text i b : utf8_valid text = true -> text !! i = Some b -> is_ascii b = true ->
  is_char_boundary text i = true.
Proof.
  intros Hv Hi Hb. erewrite boundary_lookup by eauto using utf8_valid_chars. by rewrite ascii_not_cont.
Qed.
Lemma boundary_after_ascii text i b : utf8_valid text = true -> text !! i = Some b -> is_ascii b = true ->
  is_char_boundary text (i + 1) = true.
Proof.
  intros Hv. revert i. pattern text. revert text Hv. apply utf8_ind; [done|].
  intros c rest Hc Hr IH i Hi Hb. pose proof (utf8_valid_chars rest Hr) as Hur.
  assert (utf8_chars (c ++ rest)) as Hu by (constructor; [apply Hc|done]).
  assert (utf8_valid (c ++ rest) = true) as Hv by by rewrite (proj2 Hc).
  pose proof (boundary_at_ascii _ i b Hv Hi Hb) as Hbi.
  assert (i < length (c ++ rest)) as Hlt by by eapply lookup_lt_Some.
  destruct (boundary_first c rest i Hc Hr Hbi ltac:(lia)) as [->|Hge].
  - destruct Hc as [(b' & cs & -> & _ & _ & _ & Hasc) _]. cbn in Hi. injection Hi as ->. rewrite (Hasc Hb) in *.
    by apply (boundary_shift [b] rest 0).
  - rewrite lookup_app_r in Hi by done. specialize (IH _ Hi Hb).
    rewrite <- (boundary_shift c) in IH by done. rewrite <- IH. f_equal. lia.
Qed.

Lemma str_slice_done text i j : i <= j <= length text ->
  is_char_boundary text i = true -> is_char_boundary text j = true ->
  str_slice text i j = Done (take (j - i) (drop i text)).
Proof.
  intros Hij Hi Hj. unfold str_slice. rewrite Hi, Hj.
  destruct (Nat.leb_spec i j), (Nat.leb_spec j (length text)); [done|lia..].
Qed.
