(* ===== verification/Latex.v ===== *)
(** * The LaTeX parser: [src/src/parser/latex.rs]

    One pass over the bytes of a source that collects sections, environments,
    labels, captions, bibliography items, references and imports, and the symbols
    they become.  A source is its list of UTF-8 bytes; an index or a slice that
    would panic does so in the [run] monad.  Loops over the bytes have a fuel of
    one more than the length of the source, since each round advances. *)

From S2P Require Import Prelude Text Store Float64 IndexDb Hierarchy Utf8.
Open Scope nat_scope.
Open Scope run_scope.

Abbreviation source_text := (list Byte.byte).

(** ** Bytes *)
Definition BACKSLASH : Byte.byte := Byte.x5c.
Definition PERCENT : Byte.byte := Byte.x25.
Definition NEWLINE : Byte.byte := Byte.x0a.

Definition is_command_byte (b : Byte.byte) : bool := between 97 122 b || between 65 90 b || bool_decide (b = Byte.x40).
(** [u8::is_ascii_whitespace]. *)
Definition is_ascii_whitespace (b : Byte.byte) : bool :=
  bool_decide (b = Byte.x20) || bool_decide (b = Byte.x09) || bool_decide (b = Byte.x0a)
  || bool_decide (b = Byte.x0c) || bool_decide (b = Byte.x0d).

(** [str::find]. *)
Fixpoint find_bytes (pat bytes : list Byte.byte) : option nat :=
  if bool_decide (take (length pat) bytes = pat) then Some 0
  else match bytes with [] => None | _ :: bytes => S <$> find_bytes pat bytes end.
(** [split(',')]. *)
Fixpoint split_commas (bytes : list Byte.byte) : list (list Byte.byte) :=
  match bytes with
  | [] => [[]]
  | b :: bytes =>
    if bool_decide (b = Byte.x2c) then [] :: split_commas bytes
    else match split_commas bytes with p :: ps => (b :: p) :: ps | [] => [[b]] end
  end.

(** ** Commands and arguments *)

(** A comment ends after its newline. *)
Definition skip_comment (bytes : list Byte.byte) (cursor limit : nat) : nat :=
  match position NEWLINE (slice bytes cursor limit) with
  | Some relative => cursor + relative + 1
  | None => limit
  end.

Definition latex_command_name (source : source_text) (offset : nat) : run (option (list Byte.byte * nat)) :=
  match source !! (offset + 1) with
  | Some b =>
    if is_command_byte b
    then let end_ := offset + 1 + count_while is_command_byte (drop (offset + 1) source) in
         let? name := str_slice source (offset + 1) end_ in
         Done (Some (name, if bool_decide (source !! end_ = Some Byte.x2a) then end_ + 1 else end_))
    else Done None
  | None => Done None
  end.

(** To the closing bracket of the one at depth one. *)
Fixpoint matching_bracket (fuel : nat) (bytes : list Byte.byte) (open_ close : Byte.byte) (depth cursor : nat)
  : run (option nat) :=
  match fuel with
  | O => NoFuel
  | S fuel =>
    match bytes !! cursor with
    | None => Done None
    | Some b =>
      if bool_decide (b = BACKSLASH) then matching_bracket fuel bytes open_ close depth (Nat.min (cursor + 2) (length bytes))
      else if bool_decide (b = PERCENT) then matching_bracket fuel bytes open_ close depth (skip_comment bytes cursor (length bytes))
      else if bool_decide (b = open_) then matching_bracket fuel bytes open_ close (depth + 1) (cursor + 1)
      else if bool_decide (b = close)
           then if depth - 1 =? 0 then Done (Some cursor)
                else matching_bracket fuel bytes open_ close (depth - 1) (cursor + 1)
      else matching_bracket fuel bytes open_ close depth (cursor + 1)
    end
  end.

Definition skip_whitespace (bytes : list Byte.byte) (offset : nat) : nat :=
  offset + count_while is_ascii_whitespace (drop offset bytes).

Definition latex_braced_argument (source : source_text) (offset : nat) : run (option (nat * nat * nat)) :=
  let open_ := skip_whitespace source offset in
  if bool_decide (source !! open_ = Some Byte.x7b)
  then let? found := matching_bracket (S (length source)) source Byte.x7b Byte.x7d 1 (open_ + 1) in
       Done ((fun cursor => (open_ + 1, cursor, cursor + 1)) <$> found)
  else Done None.

Fixpoint skip_optional (fuel : nat) (source : source_text) (cursor : nat) : run (option nat) :=
  match fuel with
  | O => NoFuel
  | S fuel =>
    let cursor := skip_whitespace source cursor in
    if bool_decide (source !! cursor = Some Byte.x5b)
    then let? found := matching_bracket (S (length source)) source Byte.x5b Byte.x5d 1 (cursor + 1) in
         match found with
         | Some close => skip_optional fuel source (close + 1)
         | None => Done None
         end
    else Done (Some cursor)
  end.
Definition skip_latex_optional_arguments (source : source_text) (offset : nat) : run (option nat) :=
  skip_optional (S (length source)) source offset.

Fixpoint argument_bytes (fuel : nat) (bytes : list Byte.byte) (end_ cursor : nat) (value : list Byte.byte)
  : run (list Byte.byte) :=
  match fuel with
  | O => NoFuel
  | S fuel =>
    if cursor <? end_
    then match bytes !! cursor with
         | None => Panic
         | Some b =>
           if bool_decide (b = BACKSLASH) && (cursor + 1 <? end_)
           then argument_bytes fuel bytes end_ (cursor + 2) (value ++ slice bytes cursor (cursor + 2))
           else if bool_decide (b = PERCENT) then argument_bytes fuel bytes end_ (skip_comment bytes cursor end_) value
           else argument_bytes fuel bytes end_ (cursor + 1) (value ++ [b])
         end
    else Done value
  end.
(** [String::from_utf8(value).expect(..)], then [trim]. *)
Definition latex_argument_value (source : source_text) (start end_ : nat) : run (list Byte.byte) :=
  let? value := argument_bytes (S (length source)) source end_ start [] in
  if utf8_valid value then Done (trim value) else Panic.

Definition skip_latex_verb (source : source_text) (offset : nat) : nat :=
  match source !! offset with
  | None => offset
  | Some delimiter =>
    if is_ascii_whitespace delimiter || bool_decide (delimiter = Byte.x2a) then offset + 1
    else match position delimiter (drop (offset + 1) source) with
         | Some relative => offset + relative + 2
         | None => length source
         end
  end.

Definition one_of (words : list string) (command : list Byte.byte) : bool :=
  existsb (fun w => bool_decide (command = lit_bytes w)) words.
Definition SECTIONS : list string := ["section"; "subsection"; "subsubsection"; "paragraph"].
Definition CITATIONS : list string :=
  ["cite"; "citep"; "citet"; "citeauthor"; "citeyear"; "parencite"; "textcite"; "autocite"; "footcite"].
Definition REFERENCES : list string := ["ref"; "eqref"; "pageref"; "autoref"; "cref"; "Cref"; "nameref"; "vref"].
Definition latex_command_allows_optional_arguments : list Byte.byte -> bool :=
  one_of (SECTIONS ++ ["caption"; "bibitem"] ++ CITATIONS).
Definition latex_command_requires_argument : list Byte.byte -> bool :=
  one_of (SECTIONS ++ ["label"; "caption"; "bibitem"] ++ CITATIONS ++ ["nocite"] ++ REFERENCES
          ++ ["input"; "include"; "begin"; "end"]).
Definition latex_verbatim_environment : list Byte.byte -> bool := one_of ["verbatim"; "Verbatim"; "lstlisting"; "minted"].
Definition latex_citation_command : list Byte.byte -> bool := one_of (CITATIONS ++ ["nocite"]).
Definition latex_reference_command : list Byte.byte -> bool := one_of REFERENCES.
(** [unreachable!] for another command. *)
Definition latex_section_level (command : list Byte.byte) : run nat :=
  if one_of ["section"] command then Done 1
  else if one_of ["subsection"] command then Done 2
  else if one_of ["subsubsection"] command then Done 3
  else if one_of ["paragraph"] command then Done 4
  else Panic.

(** ** The pass *)
Record LatexSection := mk_section { level : nat; command : list Byte.byte; title : list Byte.byte; section_start : nat }.
Record LatexCommand := mk_command {
  command_name : list Byte.byte;
  argument_start : nat;
  argument_end : nat;
  command_start : nat;
  command_end : nat;
  owner_section : option nat;
  owner_environment_start : option nat
}.
Record LatexEnvironment := mk_environment { environment_name : list Byte.byte; environment_start : nat; environment_end : nat }.
Record OpenLatexEnvironment := mk_open { open_name : list Byte.byte; open_start : nat }.
Record Import := mk_import { raw_target : list Byte.byte; import_line : nat }.

(** The variables of [parse_latex]; stacks have their top first. *)
Record pass := mk_pass {
  sections : list LatexSection;
  section_stack : list nat;
  labels : list LatexCommand;
  captions : list LatexCommand;
  bibitems : list LatexCommand;
  references : list Hierarchy.Reference;
  imports : list Import;
  environments : list LatexEnvironment;
  environment_stack : list OpenLatexEnvironment;
  structurally_complete : bool;
  offset : nat
}.
Definition at_offset (o : nat) (p : pass) : pass :=
  mk_pass (sections p) (section_stack p) (labels p) (captions p) (bibitems p) (references p) (imports p)
    (environments p) (environment_stack p) (structurally_complete p) o.
Definition incomplete (p : pass) : pass :=
  mk_pass (sections p) (section_stack p) (labels p) (captions p) (bibitems p) (references p) (imports p)
    (environments p) (environment_stack p) false (offset p).
Definition with_sections (s : list LatexSection) (stack : list nat) (p : pass) : pass :=
  mk_pass s stack (labels p) (captions p) (bibitems p) (references p) (imports p)
    (environments p) (environment_stack p) (structurally_complete p) (offset p).
Definition with_commands (l c b : list LatexCommand) (p : pass) : pass :=
  mk_pass (sections p) (section_stack p) l c b (references p) (imports p)
    (environments p) (environment_stack p) (structurally_complete p) (offset p).
Definition with_references (r : list Hierarchy.Reference) (i : list Import) (p : pass) : pass :=
  mk_pass (sections p) (section_stack p) (labels p) (captions p) (bibitems p) r i
    (environments p) (environment_stack p) (structurally_complete p) (offset p).
Definition with_environments (e : list LatexEnvironment) (stack : list OpenLatexEnvironment) (p : pass) : pass :=
  mk_pass (sections p) (section_stack p) (labels p) (captions p) (bibitems p) (references p) (imports p)
    e stack (structurally_complete p) (offset p).

Section Source.
Variable source : source_text.
Abbreviation starts := (line_starts source).
Abbreviation size := (length source).

(** [sections[index]]. *)
Definition index {A} (l : list A) (i : nat) : run A := match l !! i with Some a => Done a | None => Panic end.

Fixpoint pop_sections (secs : list LatexSection) (lvl : nat) (stack : list nat) : run (list nat) :=
  match stack with
  | [] => Done []
  | i :: rest =>
    let? s := index secs i in
    if lvl <=? level s then pop_sections secs lvl rest else Done stack
  end.

Fixpoint append_parts (parts : list (list Byte.byte)) (argument_start part_start : nat) (kind : string)
    (role : ReferenceRole) : list Hierarchy.Reference :=
  match parts with
  | [] => []
  | part :: parts =>
    let leading := length part - length (trim_start part) in
    let name := trim part in
    let rest := append_parts parts argument_start (part_start + length part + 1) kind role in
    if bool_decide (name = []) then rest
    else let start_byte := argument_start + part_start + leading in
         let end_byte := start_byte + length name in
         mk_reference (text_of name) kind role None (byte_to_line starts size start_byte)
           (byte_to_line starts size (end_byte - 1)) start_byte end_byte :: rest
  end.
Definition append_latex_references (argument_start argument_end : nat) (kind : string) (role : ReferenceRole)
    (refs : list Hierarchy.Reference) : run (list Hierarchy.Reference) :=
  let? argument := str_slice source argument_start argument_end in
  Done (refs ++ append_parts (split_commas argument) argument_start 0 kind role).

Inductive flow := Continue (p : pass) | Break (p : pass).

(** The commands with an argument; [offset] is set to the end of the command by
    [flow_on], unless the arm says otherwise. *)
Definition run_command (command argument : list Byte.byte) (argument_start argument_end command_start command_end : nat)
    (p : pass) : run flow :=
  let flow_on p := Done (Continue (at_offset command_end p)) in
  let record := mk_command argument argument_start argument_end command_start command_end
    (head (section_stack p)) (open_start <$> head (environment_stack p)) in
  let given := negb (bool_decide (argument = [])) in
  if one_of SECTIONS command && given
  then let? lvl := latex_section_level command in
       let? stack := pop_sections (sections p) lvl (section_stack p) in
       let secs := sections p ++ [mk_section lvl command argument command_start] in
       flow_on (with_sections secs ((length secs - 1) :: stack) p)
  else if one_of ["begin"] command
  then if negb given then flow_on (incomplete p)
       else if latex_verbatim_environment argument
       then let closing := lit_bytes "\end{" ++ argument ++ lit_bytes "}" in
            let? rest := str_slice source command_end size in
            match find_bytes closing rest with
            | Some relative =>
              let end_byte := command_end + relative + length closing in
              Done (Continue (at_offset end_byte
                (with_environments (environments p ++ [mk_environment argument command_start end_byte]) (environment_stack p) p)))
            | None =>
              Done (Break (incomplete
                (with_environments (environments p ++ [mk_environment argument command_start size]) (environment_stack p) p)))
            end
       else flow_on (with_environments (environments p) (mk_open argument command_start :: environment_stack p) p)
  else if one_of ["end"] command
  then match environment_stack p with
       | env :: stack =>
         if bool_decide (open_name env = argument)
         then flow_on (with_environments
                (environments p ++ [mk_environment (open_name env) (open_start env) command_end]) stack p)
         else flow_on (incomplete p)
       | [] => flow_on (incomplete p)
       end
  else if one_of ["label"] command && given
  then flow_on (with_commands (labels p ++ [record]) (captions p) (bibitems p) p)
  else if one_of ["caption"] command && given
  then flow_on (with_commands (labels p) (captions p ++ [record]) (bibitems p) p)
  else if one_of ["bibitem"] command && given
  then flow_on (with_commands (labels p) (captions p) (bibitems p ++ [record]) p)
  else if one_of ["input"; "include"] command && given
  then flow_on (with_references (references p)
         (imports p ++ [mk_import argument (byte_to_line starts size command_start)]) p)
  else if latex_citation_command command
  then let? refs := append_latex_references argument_start argument_end "latex_cite" IndexDb.Reference (references p) in
       flow_on (with_references refs (imports p) p)
  else if latex_reference_command command
  then let? refs := append_latex_references argument_start argument_end "latex_ref" IndexDb.Reference (references p) in
       flow_on (with_references refs (imports p) p)
  else flow_on p.

(** A backslash. *)
Definition escape_step (p : pass) : run flow :=
  let command_start := offset p in
  let? name := latex_command_name source command_start in
  match name with
  | None => Done (Continue (at_offset (Nat.min (command_start + 2) size) p))
  | Some (command, after_command) =>
    let p := at_offset after_command p in
    if one_of ["verb"] command then Done (Continue (at_offset (skip_latex_verb source after_command) p))
    else
      let? optional :=
        (if latex_command_allows_optional_arguments command
         then skip_latex_optional_arguments source after_command
         else Done (Some after_command)) in
      match optional with
      | None => Done (Continue (incomplete p))
      | Some argument_offset =>
        let? argument := latex_braced_argument source argument_offset in
        match argument with
        | None => Done (Continue (if latex_command_requires_argument command then incomplete p else p))
        | Some (argument_start, argument_end, command_end) =>
          let? value := latex_argument_value source argument_start argument_end in
          run_command command value argument_start argument_end command_start command_end p
        end
      end
  end.

Definition pass_step (b : Byte.byte) (p : pass) : run flow :=
  if bool_decide (b = PERCENT) then Done (Continue (at_offset (skip_comment source (offset p) size) p))
  else if bool_decide (b = BACKSLASH) then escape_step p
  else Done (Continue (at_offset (offset p + 1) p)).

(** [is_cancelled] is asked at every round. *)
Fixpoint parse_loop (fuel : nat) (is_cancelled : nat -> bool) (round : nat) (p : pass) : run (result pass) :=
  match fuel with
  | O => NoFuel
  | S fuel =>
    match source !! offset p with
    | None => Done (Ok p)
    | Some b =>
      if is_cancelled round then Done (Err Cancelled)
      else let? f := pass_step b p in
           match f with
           | Continue p => parse_loop fuel is_cancelled (S round) p
           | Break p => Done (Ok p)
           end
    end
  end.

(** ** Symbols *)
Definition latex_symbol (name : list Byte.byte) (kind : string) (signature : option string) (start_byte end_byte : nat) : Symbol :=
  mk_symbol (text_of name) kind None signature (byte_to_line starts size start_byte)
    (byte_to_line starts size (end_byte - 1)) start_byte end_byte.

(** The range of every section: sections that are not deeper close it. *)
Fixpoint close_sections (secs : list LatexSection) (lvl start : nat) (open_ : list nat) (ranges : list (nat * nat))
  : run (list nat * list (nat * nat)) :=
  match open_ with
  | [] => Done ([], ranges)
  | i :: rest =>
    let? s := index secs i in
    if lvl <=? level s
    then let? r := index ranges i in close_sections secs lvl start rest (<[i := (r.1, start)]> ranges)
    else Done (open_, ranges)
  end.
Fixpoint range_loop (secs todo : list LatexSection) (i : nat) (open_ : list nat) (ranges : list (nat * nat))
  : run (list (nat * nat)) :=
  match todo with
  | [] => Done ranges
  | s :: todo =>
    let? closed := close_sections secs (level s) (section_start s) open_ ranges in
    let '(open_, ranges) := closed in
    let? r := index ranges i in
    range_loop secs todo (S i) (i :: open_) (<[i := (section_start s, r.2)]> ranges)
  end.
Definition section_ranges (secs : list LatexSection) : run (list (nat * nat)) :=
  range_loop secs secs 0 [] (replicate (length secs) (0, size)).

(** A [HashMap] collected in order: a later range replaces one with its start. *)
Definition environment_ranges (envs : list LatexEnvironment) : gmap nat (list Byte.byte * nat) :=
  fold_left (fun m e => <[environment_start e := (environment_name e, environment_end e)]> m) envs ∅.

(** [min_by_key], which keeps the first of equals. *)
Definition shorter (a b : nat * nat) : nat * nat := if b.2 - b.1 <? a.2 - a.1 then b else a.
Definition latex_owner_range (c : LatexCommand) (ranges : list (nat * nat)) (envs : gmap nat (list Byte.byte * nat)) : nat * nat :=
  let of_section := owner_section c ≫= fun i => ranges !! i in
  let of_environment :=
    start ← owner_environment_start c;
    '(_, end_) ← envs !! start;
    if (start <=? command_start c) && (command_end c <=? end_) then Some (start, end_) else None in
  match of_section, of_environment with
  | Some a, Some b => shorter a b
  | Some a, None => a
  | None, Some b => b
  | None, None => (command_start c, command_end c)
  end.

Definition section_symbols (secs : list LatexSection) (ranges : list (nat * nat)) : run (list Symbol) :=
  (fix go (todo : list LatexSection) (i : nat) : run (list Symbol) :=
     match todo with
     | [] => Done []
     | s :: todo =>
       let? r := index ranges i in
       let? rest := go todo (S i) in
       Done (latex_symbol (title s) (text_of (lit_bytes "latex_" ++ command s))
               (Some (text_of (lit_bytes "\" ++ command s ++ lit_bytes "{" ++ title s ++ lit_bytes "}"))) r.1 r.2 :: rest)
     end) secs 0.
Definition environment_symbol (e : LatexEnvironment) : Symbol :=
  latex_symbol (environment_name e) "latex_environment"
    (Some (text_of (lit_bytes "\begin{" ++ environment_name e ++ lit_bytes "}"))) (environment_start e) (environment_end e).
Definition owned_symbol (kind command : string) (ranges : list (nat * nat)) (envs : gmap nat (list Byte.byte * nat))
    (c : LatexCommand) : Symbol :=
  let '(start_byte, end_byte) := latex_owner_range c ranges envs in
  latex_symbol (command_name c) kind
    (Some (text_of (lit_bytes command ++ command_name c ++ lit_bytes "}"))) start_byte end_byte.

Fixpoint bibitem_symbols (items : list LatexCommand) (envs : gmap nat (list Byte.byte * nat)) : list Symbol :=
  match items with
  | [] => []
  | c :: items =>
    let enclosing_end :=
      match owner_environment_start c ≫= fun start => envs !! start with
      | Some (name, end_) => if bool_decide (name = lit_bytes "thebibliography") then end_ else size
      | None => size
      end in
    let end_byte := match items with next :: _ => Nat.min (command_start next) enclosing_end | [] => enclosing_end end in
    latex_symbol (command_name c) "latex_bibitem"
      (Some (text_of (lit_bytes "\bibitem{" ++ command_name c ++ lit_bytes "}"))) (command_start c) end_byte
      :: bibitem_symbols items envs
  end.

Fixpoint definition_references (kind : string) (commands : list LatexCommand) (refs : list Hierarchy.Reference)
  : run (list Hierarchy.Reference) :=
  match commands with
  | [] => Done refs
  | c :: commands =>
    let? refs := append_latex_references (argument_start c) (argument_end c) kind Definition_ refs in
    definition_references kind commands refs
  end.

Fixpoint bytes_cmp (a b : list Byte.byte) : comparison :=
  match a, b with
  | [], [] => Eq
  | [], _ => Lt
  | _, [] => Gt
  | x :: a, y :: b => then_cmp (N.compare (Byte.to_N x) (Byte.to_N y)) (bytes_cmp a b)
  end.
Definition by_line (a b : Import) : comparison :=
  then_cmp (import_line a ?= import_line b) (bytes_cmp (raw_target a) (raw_target b)).
Fixpoint dedup_imports (l : list Import) : list Import :=
  match l with
  | [] => []
  | a :: l =>
    match dedup_imports l with
    | b :: rest => if (import_line a =? import_line b) && bool_decide (raw_target a = raw_target b)
                   then a :: rest else a :: b :: rest
    | [] => [a]
    end
  end.

Record ParseOutput := mk_output {
  complete : bool;
  out_symbols : list Symbol;
  out_references : list Hierarchy.Reference;
  out_imports : list Import
}.

Definition build_latex_output (p : pass) : run (list Symbol * list Hierarchy.Reference * list Import) :=
  let? ranges := section_ranges (sections p) in
  let envs := environment_ranges (environments p) in
  let? of_sections := section_symbols (sections p) ranges in
  let symbols :=
    of_sections ++ map environment_symbol (environments p)
    ++ map (owned_symbol "latex_label" "\label{" ranges envs) (labels p)
    ++ map (owned_symbol "latex_caption" "\caption{" ranges envs) (captions p)
    ++ bibitem_symbols (bibitems p) envs in
  let? refs := definition_references "latex_label" (labels p) (references p) in
  let? refs := definition_references "latex_bibitem" (bibitems p) refs in
  let symbols := compute_symbol_parents (deduplicate_symbols symbols) in
  Done (symbols, compute_reference_enclosing symbols refs, dedup_imports (sort_by by_line (imports p))).

(** Environments that are still open, the outermost first, end with the source. *)
Definition close_environments (p : pass) : pass :=
  match environment_stack p with
  | [] => p
  | stack =>
    incomplete (with_environments
      (environments p ++ map (fun e => mk_environment (open_name e) (open_start e) size) (rev stack)) [] p)
  end.

Definition start_pass : pass := mk_pass [] [] [] [] [] [] [] [] [] true 0.

Definition parse_latex (is_cancelled : nat -> bool) : run (result ParseOutput) :=
  let? passed := parse_loop (S size) is_cancelled 0 start_pass in
  match passed with
  | Err e => Done (Err e)
  | Ok p =>
    let p := close_environments p in
    let? out := build_latex_output p in
    let '(symbols, refs, imps) := out in
    Done (Ok (mk_output (structurally_complete p) symbols refs imps))
  end.
End Source.
