(* ===== verification/LatexFacts.v ===== *)
(** * The LaTeX parser is total and exact

    Every loop of [Latex.v] advances, every slice it takes lies between character
    boundaries, and what it reports is where it says. *)

From S2P Require Import Prelude Text Store Float64 IndexDb Hierarchy Utf8 Latex.
Open Scope nat_scope.
Open Scope run_scope.

(** ** Scanning *)
Lemma count_while_le f bytes : count_while f bytes <= length bytes.
Proof. induction bytes as [|b bytes IH]; cbn; [done|]. destruct (f b); lia. Qed.
Lemma count_while_all f bytes i b : i < count_while f bytes -> bytes !! i = Some b -> f b = true.
Proof.
  revert i. induction bytes as [|x bytes IH]; intros i; cbn; [lia|]. destruct (f x) eqn:Ef; [|lia].
  destruct i as [|i]; [by intros _ [= <-]|]. intros Hi. apply IH. lia.
Qed.
Lemma byte_position_spec b bytes i : position b bytes = Some i -> bytes !! i = Some b.
Proof.
  revert i. induction bytes as [|x bytes IH]; intros i; cbn; [done|].
  destruct (bool_decide_reflect (x = b)) as [->|]; [by intros [= <-]|].
  destruct (position b bytes) as [j|]; [|done]. intros [= <-]. by apply IH.
Qed.
Lemma find_bytes_spec pat bytes i : find_bytes pat bytes = Some i ->
  take (length pat) (drop i bytes) = pat /\ i + length pat <= length bytes.
Proof.
  assert (Hhere : forall bytes, take (length pat) bytes = pat -> length pat <= length bytes).
  { intros b0 H. rewrite <- H at 1. rewrite length_take. lia. }
  revert i. induction bytes as [|x bytes IH]; intros i; cbn [find_bytes]; case_bool_decide as He.
  - intros [= <-]. rewrite drop_0. split; [done|by apply Hhere].
  - done.
  - intros [= <-]. rewrite drop_0. split; [done|by apply Hhere].
  - destruct (find_bytes pat bytes) as [j|]; [|done]. intros [= <-]. destruct (IH j eq_refl). cbn. split; [done|lia].
Qed.

Section Facts.
Variable source : source_text.
Hypothesis valid : utf8_valid source = true.
Abbreviation size := (length source).
Abbreviation boundary := (is_char_boundary source).

Lemma skip_comment_spec cursor limit b : source !! cursor = Some b -> cursor < limit -> limit <= size ->
  cursor < skip_comment source cursor limit <= limit /\
  (boundary limit = true -> boundary (skip_comment source cursor limit) = true).
Proof.
  intros Hc Hlt Hle. unfold skip_comment. destruct (position NEWLINE (slice source cursor limit)) as [r|] eqn:Ep; [|split; [lia|done]].
  apply byte_position_spec in Ep. unfold slice in Ep.
  assert (r < limit - cursor) as Hr by (apply lookup_lt_Some in Ep; rewrite length_take in Ep; lia).
  rewrite lookup_take_lt, lookup_drop in Ep by done. split; [lia|]. intros _.
  by apply (boundary_after_ascii source (cursor + r) NEWLINE).
Qed.

Lemma matching_bracket_spec fuel open_ close depth cursor :
  cursor <= size -> size - cursor < fuel ->
  exists found, matching_bracket fuel source open_ close depth cursor = Done found /\
    forall c, found = Some c -> cursor <= c /\ source !! c = Some close.
Proof.
  revert depth cursor. induction fuel as [|fuel IH]; intros depth cursor Hc Hf; [lia|]. cbn [matching_bracket].
  destruct (source !! cursor) as [b|] eqn:Eb; [|by exists None].
  assert (cursor < size) as Hlt by by eapply lookup_lt_Some.
  assert (forall d' c', cursor < c' <= size -> exists found, matching_bracket fuel source open_ close d' c' = Done found /\
    forall c, found = Some c -> cursor <= c /\ source !! c = Some close) as Hnext.
  { intros d' c' Hc'. destruct (IH d' c') as (found & Hm & Hs); [lia|lia|]. exists found. split; [done|].
    intros c Hfc. destruct (Hs c Hfc). split; [lia|done]. }
  destruct (bool_decide_reflect (b = BACKSLASH)); [apply Hnext; lia|].
  destruct (bool_decide_reflect (b = PERCENT)); [apply Hnext; by apply (skip_comment_spec cursor size b)|].
  destruct (bool_decide_reflect (b = open_)); [apply Hnext; lia|].
  destruct (bool_decide_reflect (b = close)) as [->|]; [|apply Hnext; lia].
  destruct (depth - 1 =? 0); [|apply Hnext; lia]. exists (Some cursor). split; [done|]. by intros c [= <-].
Qed.

Lemma skip_whitespace_le offset : offset <= size -> offset <= skip_whitespace source offset <= size.
Proof.
  intros Ho. unfold skip_whitespace. pose proof (count_while_le is_ascii_whitespace (drop offset source)) as H.
  rewrite length_drop in H. lia.
Qed.

Lemma latex_braced_argument_spec offset : offset <= size ->
  exists found, latex_braced_argument source offset = Done found /\
    forall a e ce, found = Some (a, e, ce) ->
      offset < a /\ a <= e /\ ce = e + 1 /\ ce <= size /\ boundary a = true /\ boundary e = true /\ boundary ce = true.
Proof.
  intros Ho. unfold latex_braced_argument. pose proof (skip_whitespace_le offset Ho) as Hw.
  set (open_ := skip_whitespace source offset) in *.
  destruct (bool_decide_reflect (source !! open_ = Some Byte.x7b)) as [Hopen|]; [|by exists None].
  assert (open_ < size) as Hlt by by eapply lookup_lt_Some.
  destruct (matching_bracket_spec (S size) Byte.x7b Byte.x7d 1 (open_ + 1)) as (found & -> & Hs); [lia|lia|]. cbn.
  eexists. split; [done|]. intros a e ce. destruct found as [c|]; [|done]. intros [= <- <- <-].
  destruct (Hs c eq_refl) as [Hc Hclose]. assert (c < size) by by eapply lookup_lt_Some.
  repeat split; try lia.
  - by apply (boundary_after_ascii source open_ Byte.x7b).
  - by apply (boundary_at_ascii source c Byte.x7d).
  - by apply (boundary_after_ascii source c Byte.x7d).
Qed.

Lemma skip_latex_optional_spec offset : offset <= size ->
  exists found, skip_latex_optional_arguments source offset = Done found /\
    forall c, found = Some c -> offset <= c <= size.
Proof.
  intros Ho. unfold skip_latex_optional_arguments.
  assert (forall fuel cursor, cursor <= size -> size - cursor < fuel ->
    exists found, skip_optional fuel source cursor = Done found /\ forall c, found = Some c -> cursor <= c <= size) as H.
  { induction fuel as [|fuel IH]; intros cursor Hc Hf; [lia|]. cbn [skip_optional].
    pose proof (skip_whitespace_le cursor Hc) as Hw. set (open_ := skip_whitespace source cursor) in *.
    destruct (bool_decide_reflect (source !! open_ = Some Byte.x5b)) as [Hopen|].
    - assert (open_ < size) as Hlt by by eapply lookup_lt_Some.
      destruct (matching_bracket_spec (S size) Byte.x5b Byte.x5d 1 (open_ + 1)) as (found & -> & Hs); [lia|lia|]. cbn [run_bind].
      destruct found as [c|]; [|by exists None]. destruct (Hs c eq_refl) as [Hc' Hclose].
      assert (c < size) by by eapply lookup_lt_Some.
      destruct (IH (c + 1)) as (found & Hd & Hs'); [lia|lia|]. exists found. split; [done|]. intros x Hx.
      specialize (Hs' x Hx). lia.
    - exists (Some open_). split; [done|]. intros c [= <-]. lia. }
  apply H; lia.
Qed.

Lemma latex_command_name_spec offset : source !! offset = Some BACKSLASH ->
  exists found, latex_command_name source offset = Done found /\
    forall name after, found = Some (name, after) -> offset + 1 < after <= size.
Proof.
  intros Ho. unfold latex_command_name. destruct (source !! (offset + 1)) as [b|] eqn:Eb; [|by exists None].
  destruct (is_command_byte b) eqn:Ec; [|by exists None].
  assert (offset + 1 < size) as Hlt by by eapply lookup_lt_Some.
  assert (drop (offset + 1) source !! 0 = Some b) as Hb by by rewrite lookup_drop, Nat.add_0_r.
  pose proof (count_while_le is_command_byte (drop (offset + 1) source)) as Hle. rewrite length_drop in Hle.
  set (n := count_while is_command_byte (drop (offset + 1) source)) in *.
  assert (0 < n) as Hn.
  { subst n. destruct (drop (offset + 1) source) as [|x l]; [done|]. injection Hb as ->. cbn. rewrite Ec. lia. }
  destruct (lookup_lt_is_Some_2 source (offset + n)) as [x Hx]; [lia|].
  assert (is_command_byte x = true) as Hx'.
  { apply (count_while_all is_command_byte (drop (offset + 1) source) (n - 1)); [fold n; lia|].
    rewrite lookup_drop. by replace (offset + 1 + (n - 1)) with (offset + n) by lia. }
  assert (is_ascii x = true) as Hax.
  { unfold is_command_byte in Hx'. apply orb_true_iff in Hx' as [Hx'|Hx'];
      [apply orb_true_iff in Hx' as [Hx'|Hx']; byte_class|by apply bool_decide_eq_true in Hx' as ->]. }
  rewrite str_slice_done; [|lia|by apply (boundary_after_ascii source offset BACKSLASH)|].
  - cbn. eexists. split; [done|]. intros name after [= <- <-].
    destruct (bool_decide_reflect (source !! (offset + 1 + n) = Some Byte.x2a)) as [Hs|]; [|lia].
    apply lookup_lt_Some in Hs. lia.
  - replace (offset + 1 + n) with (offset + n + 1) by lia. by apply (boundary_after_ascii source (offset + n) x).
Qed.

Lemma skip_latex_verb_le offset : offset <= size -> offset <= skip_latex_verb source offset <= size.
Proof.
  intros Ho. unfold skip_latex_verb. destruct (source !! offset) as [d|] eqn:Ed; [|lia].
  assert (offset < size) by by eapply lookup_lt_Some.
  destruct (_ || _); [lia|]. destruct (position d (drop (offset + 1) source)) as [r|] eqn:Ep; [|lia].
  apply byte_position_spec, lookup_lt_Some in Ep. rewrite length_drop in Ep. lia.
Qed.

(** ** The value of an argument *)

(** What was copied is valid but for the part since the last boundary. *)
Lemma argument_bytes_spec end_ : boundary end_ = true -> end_ <= size -> forall fuel cursor from value,
  from <= cursor <= end_ -> boundary from = true -> utf8_valid value = true -> end_ - cursor < fuel ->
  exists v, argument_bytes fuel source end_ cursor (value ++ slice source from cursor) = Done v /\ utf8_valid v = true.
Proof.
  intros He Hle. induction fuel as [|fuel IH]; intros cursor from value Hc Hf Hv Hfuel; [lia|]. cbn [argument_bytes].
  assert (forall c, from <= c <= end_ -> boundary c = true -> utf8_valid (value ++ slice source from c) = true) as Hok.
  { intros c Hfc Hbc. apply utf8_valid_app; [done|]. apply utf8_valid_slice; [done|lia|done|done]. }
  destruct (Nat.ltb_spec cursor end_) as [Hlt|Hge].
  2:{ replace cursor with end_ by lia. eexists. split; [done|]. apply Hok; [lia|done]. }
  destruct (lookup_lt_is_Some_2 source cursor) as [b Hb]; [lia|]. rewrite Hb.
  assert (forall n, cursor + n <= end_ -> slice source from (cursor + n) = slice source from cursor ++ slice source cursor (cursor + n)) as Hsl.
  { intros n Hn. unfold slice. replace (cursor + n - from) with ((cursor - from) + n) by lia.
    rewrite <- take_take_drop, drop_drop. do 2 f_equal; [lia|f_equal; lia]. }
  destruct (bool_decide_reflect (b = BACKSLASH)) as [->|Hnb]; [destruct (Nat.ltb_spec (cursor + 1) end_)|]; cbn [andb].
  - rewrite <- app_assoc, <- Hsl by lia. apply IH; [lia|done|done|lia].
  - cbn. assert (slice source cursor (cursor + 1) = [BACKSLASH]) as Hone.
    { unfold slice. replace (cursor + 1 - cursor) with 1 by lia. by rewrite (drop_S source BACKSLASH cursor Hb). }
    rewrite <- Hone, <- app_assoc, <- Hsl by lia. apply IH; [lia|done|done|lia].
  - destruct (bool_decide_reflect (b = PERCENT)) as [->|Hnp].
    + destruct (skip_comment_spec cursor end_ PERCENT Hb Hlt Hle) as [Hs Hsb].
      assert (boundary cursor = true) as Hbc by by apply (boundary_at_ascii source cursor PERCENT).
      specialize (IH (skip_comment source cursor end_) (skip_comment source cursor end_) (value ++ slice source from cursor)).
      assert (slice source (skip_comment source cursor end_) (skip_comment source cursor end_) = []) as Hnil.
      { unfold slice. by rewrite Nat.sub_diag. }
      rewrite Hnil, app_nil_r in IH. apply IH; [lia|by apply Hsb|apply Hok; [lia|done]|lia].
    + assert (slice source cursor (cursor + 1) = [b]) as Hone.
      { unfold slice. replace (cursor + 1 - cursor) with 1 by lia. by rewrite (drop_S source b cursor Hb). }
      rewrite <- Hone, <- app_assoc, <- Hsl by lia. apply IH; [lia|done|done|lia].
Qed.

Lemma latex_argument_value_spec a e : a <= e <= size -> boundary a = true -> boundary e = true ->
  exists value, latex_argument_value source a e = Done value.
Proof.
  intros Hae Ha He. unfold latex_argument_value.
  destruct (argument_bytes_spec e He ltac:(lia) (S size) a a []) as (v & Hd & Hv); [lia|done|done|lia|].
  assert (slice source a a = []) as Hnil by (unfold slice; by rewrite Nat.sub_diag).
  rewrite Hnil in Hd. cbn [app] in Hd. rewrite Hd. cbn. rewrite Hv. by eexists.
Qed.
End Facts.

(** ** Trimming *)
Ltac ws_cases := unfold ws1, ws2, ws3 in *; repeat match goal with
  | H : (_ && _) = true |- _ => apply andb_true_iff in H as [? ?]
  | H : (_ || _) = true |- _ => apply orb_true_iff in H as [?|?]
  | H : bool_decide _ = true |- _ => apply bool_decide_eq_true in H; subst
  end.

Lemma ws1_ascii b : ws1 b = true -> is_ascii b = true.
Proof. intros H. ws_cases; [byte_class|done]. Qed.

(** White space is one valid character, from either end. *)
Lemma ws1_char b : ws1 b = true -> valid_char [b].
Proof.
  intros Hb%ws1_ascii. split; [|intros rest; cbn; by rewrite Hb].
  exists b, []. repeat split; [by apply ascii_not_cont|constructor|simpl; lia].
Qed.
Lemma ws2_char b0 b1 : ws2 b0 b1 = true -> valid_char [b0; b1].
Proof.
  intros H. ws_cases; (split; [|done]); eexists _, [_]; (repeat split; [by constructor|simpl; lia|done]).
Qed.
Lemma ws3_char b0 b1 b2 : ws3 b0 b1 b2 = true -> valid_char [b0; b1; b2].
Proof.
  intros H. assert (is_cont b2 = true) as Hc by (ws_cases; done || byte_class).
  ws_cases; (split; [|intros rest; cbn; by rewrite ?Hc]); eexists _, [_; _];
    (repeat split; [by repeat constructor|simpl; lia|done]).
Qed.

Lemma valid_char_app c rest : valid_char c -> utf8_valid (c ++ rest) = true -> utf8_valid c = true /\ utf8_valid rest = true.
Proof.
  intros [_ Hc] H. rewrite Hc in H. split; [|done]. by rewrite <- (app_nil_r c), Hc.
Qed.
Lemma valid_char_end pre c : valid_char c -> utf8_valid (pre ++ c) = true -> utf8_valid pre = true.
Proof.
  intros [Hc _] H. destruct (utf8_valid_parts (pre ++ c) (length pre) H) as [Ht _].
  - destruct Hc as (b & cs & -> & Hb & _). erewrite boundary_lookup; [by rewrite Hb|by apply utf8_valid_chars|].
    by rewrite lookup_app_r, Nat.sub_diag by lia.
  - rewrite length_app. lia.
  - by rewrite take_app_length in Ht.
Qed.

Lemma trim_start_spec bytes : utf8_valid bytes = true ->
  exists lead, bytes = lead ++ trim_start bytes /\ utf8_valid lead = true /\ utf8_valid (trim_start bytes) = true.
Proof.
  induction bytes as [bytes IH] using (induction_ltof1 _ (@length _)). unfold ltof in IH. intros Hv.
  assert (forall c rest, bytes = c ++ rest -> valid_char c -> trim_start bytes = trim_start rest ->
    exists lead, bytes = lead ++ trim_start bytes /\ utf8_valid lead = true /\ utf8_valid (trim_start bytes) = true) as Hstep.
  { intros c rest -> Hc ->. destruct (valid_char_app c rest Hc Hv) as [Hc' Hr].
    destruct (IH rest) as (lead & He & Hl & Ht); [rewrite length_app; pose proof (wf_char_length c (proj1 Hc)); lia|done|].
    exists (c ++ lead). rewrite <- app_assoc, <- He. split; [done|]. split; [by apply utf8_valid_app|done]. }
  assert (trim_start bytes = bytes -> exists lead, bytes = lead ++ trim_start bytes /\ utf8_valid lead = true /\
    utf8_valid (trim_start bytes) = true) as Hstop by (intros ->; by exists []).
  destruct bytes as [|b0 r0]; [by apply Hstop|]. cbn [trim_start] in *.
  destruct (ws1 b0) eqn:E1; [apply (Hstep [b0] r0); [done|by apply ws1_char|done]|].
  destruct r0 as [|b1 r1]; [by apply Hstop|].
  destruct (ws2 b0 b1) eqn:E2; [apply (Hstep [b0; b1] r1); [done|by apply ws2_char|done]|].
  destruct r1 as [|b2 r2]; [by apply Hstop|].
  destruct (ws3 b0 b1 b2) eqn:E3; [apply (Hstep [b0; b1; b2] r2); [done|by apply ws3_char|done]|by apply Hstop].
Qed.

Lemma trim_start_rev_spec bytes : utf8_valid (rev bytes) = true ->
  exists trail, rev bytes = rev (trim_start_rev bytes) ++ trail /\ utf8_valid (rev (trim_start_rev bytes)) = true.
Proof.
  induction bytes as [bytes IH] using (induction_ltof1 _ (@length _)). unfold ltof in IH. intros Hv.
  assert (forall c rest, bytes = rev c ++ rest -> valid_char c -> trim_start_rev bytes = trim_start_rev rest ->
    exists trail, rev bytes = rev (trim_start_rev bytes) ++ trail /\ utf8_valid (rev (trim_start_rev bytes)) = true) as Hstep.
  { intros c rest -> Hc ->. rewrite rev_app_distr, rev_involutive in Hv |- *.
    destruct (IH rest) as (trail & He & Ht).
    - rewrite length_app, length_rev. pose proof (wf_char_length c (proj1 Hc)). lia.
    - by eapply valid_char_end.
    - exists (trail ++ c). by rewrite app_assoc, <- He. }
  assert (trim_start_rev bytes = bytes -> exists trail, rev bytes = rev (trim_start_rev bytes) ++ trail /\
    utf8_valid (rev (trim_start_rev bytes)) = true) as Hstop by (intros ->; exists []; by rewrite app_nil_r).
  destruct bytes as [|b0 r0]; [by apply Hstop|]. cbn [trim_start_rev] in *.
  destruct (ws1 b0) eqn:E1; [apply (Hstep [b0] r0); [done|by apply ws1_char|done]|].
  destruct r0 as [|b1 r1]; [by apply Hstop|].
  destruct (ws2 b1 b0) eqn:E2; [apply (Hstep [b1; b0] r1); [done|by apply ws2_char|done]|].
  destruct r1 as [|b2 r2]; [by apply Hstop|].
  destruct (ws3 b2 b1 b0) eqn:E3; [apply (Hstep [b2; b1; b0] r2); [done|by apply ws3_char|done]|by apply Hstop].
Qed.

(** What [trim] leaves, where it was. *)
Lemma trim_spec bytes : utf8_valid bytes = true ->
  exists lead trail, bytes = lead ++ trim bytes ++ trail /\ length lead = length bytes - length (trim_start bytes) /\
    utf8_valid lead = true /\ utf8_valid (trim bytes) = true.
Proof.
  intros Hv. destruct (trim_start_spec bytes Hv) as (lead & He & Hl & Ht).
  destruct (trim_start_rev_spec (rev (trim_start bytes))) as (trail & He' & Ht'); [by rewrite rev_involutive|].
  rewrite rev_involutive in He'. exists lead, trail. unfold trim, trim_end. rewrite <- He'. split; [done|].
  assert (length bytes = length lead + length (trim_start bytes)) by by rewrite <- length_app, <- He.
  split; [lia|done].
Qed.

(** ** References are where they say *)
Section Pieces.
Variable source : source_text.
Hypothesis valid : utf8_valid source = true.
Abbreviation size := (length source).
Abbreviation boundary := (is_char_boundary source).

(** The bytes are in the source at this offset, between boundaries. *)
Definition piece (start : nat) (bytes : list Byte.byte) : Prop :=
  exists pre post, source = pre ++ bytes ++ post /\ length pre = start /\
    utf8_valid pre = true /\ utf8_valid bytes = true.

Lemma piece_inside start lead bytes trail : piece start (lead ++ bytes ++ trail) ->
  utf8_valid lead = true -> utf8_valid bytes = true -> piece (start + length lead) bytes.
Proof.
  intros (pre & post & He & Hl & Hp & _) Hlead Hb. exists (pre ++ lead), (trail ++ post).
  split; [by rewrite He, <- !app_assoc|]. split; [rewrite length_app; lia|]. split; [by apply utf8_valid_app|done].
Qed.

Lemma utf8_valid_app_inv a b : utf8_valid a = true -> utf8_valid (a ++ b) = true -> utf8_valid b = true.
Proof.
  intros Ha. pattern a. revert a Ha. apply utf8_ind; [done|]. intros c rest [_ Hc] _ IH. rewrite <- app_assoc, Hc. apply IH.
Qed.

Lemma piece_slice start bytes : piece start bytes ->
  start + length bytes <= size /\ str_slice source start (start + length bytes) = Done bytes.
Proof.
  intros (pre & post & He & Hl & Hp & Hb).
  assert (utf8_valid post = true) as Hpost.
  { apply (utf8_valid_app_inv (pre ++ bytes)); [by apply utf8_valid_app|]. by rewrite <- app_assoc, <- He. }
  assert (start + length bytes <= size) as Hle by (rewrite He, !length_app; lia). split; [done|].
  assert (forall a b, source = a ++ b -> utf8_valid a = true -> utf8_valid b = true -> boundary (length a) = true) as Hbd.
  { intros a b -> Ha Hb'. rewrite <- (Nat.add_0_r (length a)), boundary_shift; [done|by apply utf8_valid_chars..]. }
  rewrite str_slice_done; [|lia| |].
  - f_equal. rewrite He. replace (start + length bytes - start) with (length bytes) by lia.
    rewrite <- Hl, drop_app_length, take_app_length. done.
  - rewrite <- Hl. apply (Hbd pre (bytes ++ post)); [done|done|by apply utf8_valid_app].
  - replace (start + length bytes) with (length (pre ++ bytes)) by (rewrite length_app; lia).
    apply (Hbd (pre ++ bytes) post); [by rewrite <- app_assoc|by apply utf8_valid_app|done].
Qed.

Lemma slice_piece a e bytes : str_slice source a e = Done bytes -> piece a bytes /\ e = a + length bytes.
Proof.
  unfold str_slice. destruct (_ && _) eqn:Ec; [|done]. intros [= <-].
  rewrite !andb_true_iff, !Nat.leb_le in Ec. destruct Ec as [[[Hae Hes] Ha] He]. unfold slice.
  split; [|rewrite length_take, length_drop; lia].
  exists (take a source), (drop e source). split; [|split; [rewrite length_take; lia|split]].
  - rewrite <- (take_drop a source) at 1. f_equal. rewrite <- (take_drop (e - a) (drop a source)) at 1.
    f_equal. rewrite drop_drop. f_equal. lia.
  - apply utf8_valid_parts; [done|done|lia].
  - by apply utf8_valid_slice; [|lia|..].
Qed.

(** A reference with the exact bytes of its name, and their lines. *)
Definition exact_reference (r : Hierarchy.Reference) : Prop :=
  exists name, name <> [] /\ piece (ref_start r) name /\ ref_end r = ref_start r + length name /\
    ref_name r = text_of name /\ ref_start_line r = byte_to_line (line_starts source) size (ref_start r) /\
    ref_end_line r = byte_to_line (line_starts source) size (ref_end r - 1).

Lemma split_commas_spec bytes : match split_commas bytes with
  | [] => False
  | [p] => bytes = p
  | p :: ps => exists rest, bytes = p ++ Byte.x2c :: rest /\ split_commas rest = ps
  end.
Proof.
  induction bytes as [|b bytes IH]; [done|]. cbn [split_commas].
  destruct (bool_decide_reflect (b = Byte.x2c)) as [->|].
  - destruct (split_commas bytes) as [|p ps] eqn:Es; [done|]. by exists bytes.
  - destruct (split_commas bytes) as [|p ps]; [done|]. destruct ps as [|q ps]; [by rewrite IH|].
    destruct IH as (rest & -> & Hr). by exists rest.
Qed.

Lemma comma_parts p rest : utf8_valid (p ++ Byte.x2c :: rest) = true -> utf8_valid p = true /\ utf8_valid rest = true.
Proof.
  intros Hv. assert (((p ++ Byte.x2c :: rest) : list Byte.byte) !! length p = Some Byte.x2c) as Hl
    by by rewrite lookup_app_r, Nat.sub_diag by lia.
  assert (length p <= length (p ++ Byte.x2c :: rest)) as Hle by (rewrite length_app; lia).
  destruct (utf8_valid_parts _ (length p) Hv (boundary_at_ascii _ _ _ Hv Hl eq_refl) Hle) as [H1 H2].
  rewrite take_app_length in H1. rewrite drop_app_length in H2. by split.
Qed.

Lemma append_parts_spec parts : forall bytes argument_start part_start kind role,
  split_commas bytes = parts -> piece (argument_start + part_start) bytes ->
  Forall exact_reference (append_parts source parts argument_start part_start kind role).
Proof.
  induction parts as [|part parts IH]; intros bytes a ps kind role Hs Hp; [constructor|].
  pose proof (split_commas_spec bytes) as Hspec. rewrite Hs in Hspec.
  assert (piece (a + ps) part /\ (parts <> [] -> exists rest, split_commas rest = parts /\
    piece (a + (ps + length part + 1)) rest)) as [Hpart Hrest].
  { destruct parts as [|q parts]; [by subst|]. destruct Hspec as (rest & -> & Hr).
    destruct (comma_parts part rest) as [Hv1 Hv2]; [by destruct Hp as (? & ? & ? & ? & ? & ?)|]. split.
    - rewrite <- (Nat.add_0_r (a + ps)). by apply (piece_inside _ [] _ (Byte.x2c :: rest)).
    - intros _. exists rest. split; [done|]. replace (a + (ps + length part + 1)) with (a + ps + length (part ++ [Byte.x2c]))
        by (rewrite length_app; cbn; lia).
      apply (piece_inside _ _ _ []); [by rewrite app_nil_r, <- app_assoc|by apply utf8_valid_app|done]. }
  assert (Forall exact_reference (append_parts source parts a (ps + length part + 1) kind role)) as Htail.
  { destruct parts as [|q parts]; [constructor|]. destruct Hrest as (rest & Hr & Hpr); [done|]. by apply (IH rest). }
  cbn [append_parts]. destruct (bool_decide_reflect (trim part = [])) as [|Hne]; [done|]. constructor; [|done].
  destruct (trim_spec part) as (lead & trail & He & Hl & Hvl & Hvt); [by destruct Hpart as (? & ? & ? & ? & ? & ?)|].
  exists (trim part). split; [done|]. cbn [ref_start ref_end ref_name enclosing_symbol]. split; [|done].
  rewrite <- Hl. apply (piece_inside _ _ _ trail); [by rewrite <- He|done|done].
Qed.

Lemma append_latex_references_spec a e kind role refs :
  a <= e <= size -> boundary a = true -> boundary e = true -> Forall exact_reference refs ->
  exists refs', append_latex_references source a e kind role refs = Done refs' /\ Forall exact_reference refs'.
Proof.
  intros Hae Ha He Hr. unfold append_latex_references. rewrite str_slice_done by done. cbn. eexists. split; [done|].
  apply Forall_app. split; [done|]. eapply append_parts_spec; [done|]. rewrite Nat.add_0_r.
  eapply slice_piece. by apply str_slice_done.
Qed.
End Pieces.
