(* ===== verification/LatexSections.v ===== *)
(** * Where the sections of a LaTeX source end

    The stack of open sections in [build_latex_output] computes, for every section,
    the start of the next one that is not deeper, or the end of the source. *)

From S2P Require Import Prelude Text Store Float64 IndexDb Hierarchy Utf8 Latex.
Open Scope nat_scope.
Open Scope run_scope.

Section Ranges.
Variable source : source_text.
Abbreviation size := (length source).

(** The end of section number [k], as its definition says. *)
Definition closes (lvl : nat) (s : LatexSection) : bool := level s <=? lvl.
Definition closer (secs : list LatexSection) (k : nat) (s : LatexSection) : option LatexSection :=
  find (closes (level s)) (drop (S k) secs).
Definition section_end (secs : list LatexSection) (k : nat) (s : LatexSection) : nat :=
  match closer secs k s with Some t => section_start t | None => size end.

Variable secs : list LatexSection.

(** After the first [n] sections. *)
Record ranged (n : nat) (open_ : list nat) (ranges : list (nat * nat)) : Prop := {
  ranged_length : length ranges = length secs;
  ranged_closed : forall k s, k < n -> secs !! k = Some s ->
    ranges !! k = Some (section_start s, section_end (take n secs) k s);
  ranged_later : forall k, n <= k < length secs -> exists a, ranges !! k = Some (a, size);
  ranged_open : forall k, k ∈ open_ <-> k < n /\ exists s, secs !! k = Some s /\ closer (take n secs) k s = None;
  ranged_levels : forall a b x y s t, open_ !! a = Some x -> open_ !! b = Some y -> a < b ->
    secs !! x = Some s -> secs !! y = Some t -> level t < level s
}.

Lemma find_snoc {A} (f : A -> bool) l x :
  find f (l ++ [x]) = match find f l with Some y => Some y | None => if f x then Some x else None end.
Proof. induction l as [|y l IH]; cbn; [done|]. by destruct (f y). Qed.

Lemma closer_snoc n k s t : secs !! n = Some t -> k < n ->
  closer (take (S n) secs) k s =
  match closer (take n secs) k s with Some u => Some u | None => if closes (level s) t then Some t else None end.
Proof.
  intros Ht Hk. unfold closer. rewrite (take_S_r secs n t Ht), drop_app_le; [apply find_snoc|].
  rewrite length_take. apply lookup_lt_Some in Ht. lia.
Qed.

(** Closing the open sections that are not shallower. *)
Lemma close_sections_spec lvl start : forall open_ ranges,
  (forall k, k ∈ open_ -> exists s r, secs !! k = Some s /\ ranges !! k = Some r) -> NoDup open_ ->
  exists closed open_' ranges', close_sections secs lvl start open_ ranges = Done (open_', ranges') /\
    open_ = closed ++ open_' /\ length ranges' = length ranges /\
    (forall k, k ∈ closed -> exists s r, secs !! k = Some s /\ lvl <= level s /\ ranges !! k = Some r /\
       ranges' !! k = Some (r.1, start)) /\
    (forall k, k ∉ closed -> ranges' !! k = ranges !! k) /\
    (forall k s, head open_' = Some k -> secs !! k = Some s -> level s < lvl).
Proof.
  induction open_ as [|i rest IH]; intros ranges Hin Hnd; cbn [close_sections].
  { exists [], [], ranges. split; [done|]. split; [done|]. split; [done|].
    split; [by intros k ?%not_elem_of_nil|]. done. }
  destruct (Hin i ltac:(by left)) as (s & r & Hs & Hr). unfold index at 1. rewrite Hs. cbn [run_bind].
  apply NoDup_cons in Hnd as [Hni Hnd]. destruct (Nat.leb_spec lvl (level s)) as [Hle|Hlt].
  - unfold index. rewrite Hr. cbn [run_bind].
    destruct (IH (<[i := (r.1, start)]> ranges)) as (closed & open_' & ranges' & -> & -> & Hl & Hc & Ho & Hh); [|done|].
    { intros k Hk. assert (k <> i) as Hne by (intros ->; done).
      destruct (Hin k ltac:(by right)) as (s' & r' & Hs' & Hr'). exists s', r'. by rewrite list_lookup_insert_ne. }
    assert (i ∉ closed) as Hic by (intros ?; apply Hni, elem_of_app; by left).
    exists (i :: closed), open_', ranges'. split; [done|]. split; [done|]. split; [by rewrite Hl, length_insert|].
    split; [|split; [|done]].
    + intros k [->|Hk]%elem_of_cons.
      * exists s, r. split; [done|]. split; [done|]. split; [done|]. rewrite (Ho i Hic), list_lookup_insert_eq; [done|].
        by eapply lookup_lt_Some.
      * destruct (Hc k Hk) as (s' & r' & Hs' & Hl' & Hr' & Hr2). exists s', r'. split; [done|]. split; [done|].
        rewrite list_lookup_insert_ne in Hr' by (intros ->; done). done.
    + intros k Hk. rewrite Ho by (intros ?; apply Hk; by right). apply list_lookup_insert_ne. intros ->. apply Hk. by left.
  - exists [], (i :: rest), ranges. split; [done|]. split; [done|]. split; [done|].
    split; [by intros k ?%not_elem_of_nil|]. split; [done|]. intros k s'. cbn. intros [= <-]. congruence.
Qed.

Lemma ranged_step n open_ ranges s : NoDup open_ -> ranged n open_ ranges -> secs !! n = Some s ->
  exists open_' ranges' r, close_sections secs (level s) (section_start s) open_ ranges = Done (open_', ranges') /\
    index ranges' n = Done r /\ NoDup (n :: open_') /\
    ranged (S n) (n :: open_') (<[n := (section_start s, r.2)]> ranges').
Proof.
  intros Hnd [Hlen Hclosed Hlater Hopen Hlev] Hs. pose proof (lookup_lt_Some _ _ _ Hs) as Hn.
  destruct (close_sections_spec (level s) (section_start s) open_ ranges) as
    (cl & open_' & ranges' & Heq & Hsplit & Hl & Hc & Ho & Hh); [|done|].
  { intros k Hk. apply Hopen in Hk as (Hk & t & Ht & _). exists t. eexists. split; [done|]. by apply Hclosed. }
  assert (forall k, k ∈ open_ -> k < n) as Hltn by (intros k Hk; by apply Hopen in Hk as [? _]).
  assert (n ∉ cl) as Hncl by (intros Hin; enough (n < n) by lia; apply Hltn; rewrite Hsplit; apply elem_of_app; by left).
  destruct (Hlater n ltac:(lia)) as [a Ha].
  exists open_', ranges', (a, size). split; [done|]. split; [unfold index; by rewrite (Ho n Hncl), Ha|].
  rewrite Hsplit in Hnd. apply NoDup_app in Hnd as (Hnd1 & Hdis & Hnd2).
  assert (n ∉ open_') as Hno by (intros Hin; enough (n < n) by lia; apply Hltn; rewrite Hsplit; apply elem_of_app; by right).
  split; [by apply NoDup_cons|].
  assert (Hkeep : forall k t, k ∈ open_' -> secs !! k = Some t -> level t < level s).
  { intros k t Hk Ht. destruct open_' as [|top rest]; [by apply not_elem_of_nil in Hk|].
    destruct (proj1 (Hopen top)) as (_ & u & Hu & _); [rewrite Hsplit; apply elem_of_app; right; by left|].
    pose proof (Hh top u eq_refl Hu) as Htop. apply elem_of_cons in Hk as [->|Hk]; [congruence|].
    apply list_elem_of_lookup in Hk as [j Hj].
    assert (level t < level u); [|lia]. apply (Hlev (length cl) (length cl + S j) top k); [| |lia|done|done]; rewrite Hsplit.
    - by rewrite lookup_app_r, Nat.sub_diag by lia.
    - rewrite lookup_app_r by lia. by replace (length cl + S j - length cl) with (S j) by lia. }
  split.
  - by rewrite length_insert, Hl.
  - intros k t Hk Ht. destruct (decide (k = n)) as [->|Hne].
    { rewrite list_lookup_insert_eq by (rewrite Hl; lia). assert (t = s) as -> by congruence.
      unfold section_end, closer. rewrite drop_ge by (rewrite length_take; lia). done. }
    rewrite list_lookup_insert_ne by done. assert (k < n) as Hkn by lia.
    unfold section_end. rewrite (closer_snoc n k t s Hs Hkn). pose proof (Hclosed k t Hkn Ht) as Hr. unfold section_end in Hr.
    destruct (decide (k ∈ cl)) as [Hin|Hnin].
    + destruct (Hc k Hin) as (t' & r & Ht' & Hle & Hr' & ->). assert (t' = t) as -> by congruence.
      assert (closer (take n secs) k t = None) as ->.
      { destruct (proj1 (Hopen k)) as (_ & u & Hu & Hcl); [rewrite Hsplit; apply elem_of_app; by left|]. congruence. }
      unfold closes. rewrite (proj2 (Nat.leb_le _ _) Hle). rewrite Hr in Hr'. by injection Hr' as <-.
    + rewrite (Ho k Hnin), Hr. destruct (closer (take n secs) k t) as [u|] eqn:Ec; [done|].
      assert (k ∈ open_) as Hko by (apply Hopen; split; [done|by exists t]).
      rewrite Hsplit in Hko. apply elem_of_app in Hko as [?|Hko]; [done|]. specialize (Hkeep k t Hko Ht).
      unfold closes. by rewrite (proj2 (Nat.leb_gt _ _)).
  - intros k Hk. rewrite list_lookup_insert_ne by lia.
    rewrite Ho; [apply Hlater; lia|]. intros Hin. enough (k < n) by lia. apply Hltn. rewrite Hsplit. apply elem_of_app. by left.
  - intros k. rewrite elem_of_cons. split.
    + intros [->|Hk].
      * split; [lia|]. exists s. split; [done|]. unfold closer. by rewrite drop_ge by (rewrite length_take; lia).
      * destruct (proj1 (Hopen k)) as (Hkn & t & Ht & Hcl); [rewrite Hsplit; apply elem_of_app; by right|].
        split; [lia|]. exists t. split; [done|]. rewrite (closer_snoc n k t s Hs Hkn), Hcl.
        specialize (Hkeep k t Hk Ht). unfold closes. by rewrite (proj2 (Nat.leb_gt _ _)).
    + intros (Hk & t & Ht & Hcl). destruct (decide (k = n)) as [|Hne]; [by left|]. right. assert (k < n) as Hkn by lia.
      rewrite (closer_snoc n k t s Hs Hkn) in Hcl. destruct (closer (take n secs) k t) as [u|] eqn:Ec; [done|].
      assert (k ∈ open_) as Hko by (apply Hopen; split; [done|by exists t]).
      rewrite Hsplit in Hko. apply elem_of_app in Hko as [Hin|?]; [|done].
      destruct (Hc k Hin) as (t' & r & Ht' & Hle & _). assert (t' = t) as -> by congruence.
      unfold closes in Hcl. by rewrite (proj2 (Nat.leb_le _ _) Hle) in Hcl.
  - intros p q x y u v Hp Hq Hpq Hu Hv. destruct q as [|q]; [lia|]. cbn in Hq.
    assert (y ∈ open_') as Hy by by eapply list_elem_of_lookup_2. destruct p as [|p]; cbn in Hp.
    + injection Hp as <-. assert (u = s) as -> by congruence. by eapply Hkeep.
    + apply (Hlev (length cl + p) (length cl + q) x y); [| |lia|done|done]; rewrite Hsplit, lookup_app_r by lia.
      * by replace (length cl + p - length cl) with p by lia.
      * by replace (length cl + q - length cl) with q by lia.
Qed.

Lemma range_loop_spec todo : forall n open_ ranges, drop n secs = todo -> NoDup open_ -> ranged n open_ ranges ->
  exists ranges', range_loop secs todo n open_ ranges = Done ranges' /\ length ranges' = length secs /\
    forall k s, secs !! k = Some s -> ranges' !! k = Some (section_start s, section_end secs k s).
Proof.
  induction todo as [|s todo IH]; intros n open_ ranges Hd Hnd Hr; cbn [range_loop].
  { exists ranges. split; [done|]. split; [apply Hr|]. intros k t Ht.
    assert (length secs <= n) as Hn.
    { assert (length (drop n secs) = 0) as Hz by by rewrite Hd. rewrite length_drop in Hz. lia. }
    pose proof (lookup_lt_Some _ _ _ Ht). rewrite (ranged_closed _ _ _ Hr k t) by (done || lia).
    by rewrite take_ge by lia. }
  assert (secs !! n = Some s) as Hs.
  { rewrite <- (Nat.add_0_r n), <- lookup_drop, Hd. done. }
  destruct (ranged_step n open_ ranges s Hnd Hr Hs) as (open_' & ranges' & r & -> & Hi & Hnd' & Hr').
  cbn [run_bind]. rewrite Hi. cbn [run_bind]. apply IH; [|done|done].
  rewrite <- (drop_drop secs n 1) || idtac. replace (S n) with (n + 1) by lia. rewrite <- drop_drop, Hd. done.
Qed.
End Ranges.

Lemma section_ranges_exact source secs :
  exists ranges, section_ranges source secs = Done ranges /\ length ranges = length secs /\
    forall k s, secs !! k = Some s -> ranges !! k = Some (section_start s, section_end source secs k s).
Proof.
  apply range_loop_spec; [done|apply NoDup_nil_2|]. split.
  - apply length_replicate.
  - intros k s Hk. lia.
  - intros k Hk. exists 0. rewrite lookup_replicate_2 by lia. done.
  - intros k. split; [by intros ?%not_elem_of_nil|]. intros [Hk _]. lia.
  - by intros a b x y s t Ha.
Qed.
