(* ===== verification/LatexTotal.v ===== *)
(** * What the LaTeX parser reports

    The invariant of the pass over the source, and with it: the parser returns for
    every valid text, what it reports lies between character boundaries of the
    source, and a reference has the exact bytes of its name. *)

From S2P Require Import Prelude Text Store Float64 IndexDb Hierarchy Utf8 Latex LatexFacts LatexSections.
Open Scope nat_scope.
Open Scope run_scope.

Section Pass.
Variable source : source_text.
Hypothesis valid : utf8_valid source = true.
Abbreviation size := (length source).
Abbreviation boundary := (is_char_boundary source).

Definition point (o : nat) : Prop := o <= size /\ boundary o = true.
Definition span (a b : nat) : Prop := a < b /\ point a /\ point b.

Lemma point_size : point size.
Proof. split; [done|apply boundary_len]. Qed.

(** A command before [o] with its argument. *)
Record command_ok (o : nat) (c : LatexCommand) : Prop := {
  argument_ok : argument_start c <= argument_end c /\ point (argument_start c) /\ point (argument_end c);
  range_ok : span (command_start c) (command_end c);
  before_ok : command_end c <= o
}.

Record pass_ok (p : pass) : Prop := {
  ok_offset : offset p <= size;
  ok_sections : forall s, s ∈ sections p -> point (section_start s) /\ section_start s < offset p;
  ok_increasing : forall j k s t, j < k -> sections p !! j = Some s -> sections p !! k = Some t ->
    section_start s < section_start t;
  ok_stack : forall k, k ∈ section_stack p -> k < length (sections p);
  ok_commands : forall c, c ∈ labels p ++ captions p ++ bibitems p -> command_ok (offset p) c;
  ok_bibitems : forall j k c d, j < k -> bibitems p !! j = Some c -> bibitems p !! k = Some d ->
    command_start c < command_start d;
  ok_references : Forall (exact_reference source) (references p);
  ok_environments : forall e, e ∈ environments p ->
    span (environment_start e) (environment_end e) /\ environment_start e < offset p;
  ok_open : forall e, e ∈ environment_stack p -> point (open_start e) /\ open_start e < offset p;
  ok_fresh : NoDup (open_start <$> environment_stack p) /\
    forall e o, e ∈ environments p -> o ∈ environment_stack p -> environment_start e <> open_start o;
  ok_owned : forall c e, c ∈ bibitems p -> e ∈ environments p ->
    owner_environment_start c = Some (environment_start e) -> command_start c < environment_end e
}.

Lemma start_pass_ok : pass_ok start_pass.
Proof.
  split; cbn; try (by intros ? ?%not_elem_of_nil); try (by intros ???? _ [=]); try done; try lia.
  - split; [apply NoDup_nil_2|]. by intros e o ?%not_elem_of_nil.
  - by intros c e ?%not_elem_of_nil.
Qed.

(** Only the offset advances. *)
Lemma pass_ok_later p o : pass_ok p -> offset p <= o <= size -> pass_ok (at_offset o p).
Proof.
  intros [H1 H2 H3 H4 H5 H6 H7 H8 H9 H10 H11] Ho. split; cbn; try done; [lia|..].
  - intros s Hs. destruct (H2 s Hs). split; [done|lia].
  - intros c Hc. destruct (H5 c Hc) as [Ha Hr Hb]. split; [done|done|lia].
  - intros e He. destruct (H8 e He). split; [done|lia].
  - intros e He. destruct (H9 e He). split; [done|lia].
Qed.
Lemma pass_ok_incomplete p : pass_ok p -> pass_ok (incomplete p).
Proof. by intros [H1 H2 H3 H4 H5 H6 H7 H8 H9 H10 H11]. Qed.

(** ** The commands *)
Section Command.
Variables (p : pass) (command argument : list Byte.byte) (a e cs ce : nat).
(** The command is between the old offset and [ce]; what the pass knew was before [cs]. *)
Hypothesis Hp : pass_ok (at_offset cs p).
Hypothesis Hoff : offset p <= ce.
Hypothesis Hspan : span cs ce.
Hypothesis Harg : a <= e /\ point a /\ point e.

Definition next_ok (f : flow) : Prop :=
  match f with
  | Continue q => pass_ok q /\ cs < offset q
  | Break q => pass_ok (at_offset size q)
  end.

Lemma at_end : pass_ok (at_offset ce p).
Proof.
  destruct Hspan as (H1 & _ & [H2 _]). apply (pass_ok_later (at_offset cs p) ce Hp). cbn. lia.
Qed.
Lemma at_end_next : next_ok (Continue (at_offset ce p)).
Proof. split; [apply at_end|]. apply Hspan. Qed.
Lemma at_end_incomplete : next_ok (Continue (at_offset ce (incomplete p))).
Proof. split; [apply (pass_ok_incomplete (at_offset ce p) at_end)|]. apply Hspan. Qed.

Lemma add_section lvl stack : (forall k, k ∈ stack -> k ∈ section_stack p) ->
  next_ok (Continue (at_offset ce (with_sections (sections p ++ [mk_section lvl command argument cs])
    ((length (sections p ++ [mk_section lvl command argument cs]) - 1) :: stack) p))).
Proof.
  intros Hst. pose proof at_end as [H1 H2 H3 H4 H5 H6 H7 H8 H9 H10 H11]. destruct Hspan as (Hlt & Hpc & _).
  split; [|done]. split; cbn in *; try done.
  - intros s [Hs|Hs]%elem_of_app; [by apply H2|]. apply list_elem_of_singleton in Hs as ->. by cbn.
  - intros j k s t Hjk Hj Hk. apply lookup_app_Some in Hk as [Hk|[Hk Hk']].
    + rewrite lookup_app_l in Hj by (apply lookup_lt_Some in Hk; lia). by eapply H3.
    + apply list_lookup_singleton_Some in Hk' as [Hz <-]. cbn. rewrite lookup_app_l in Hj by lia.
      apply list_elem_of_lookup_2, (ok_sections _ Hp) in Hj as [_ Hj]. done.
  - intros k [->|Hk]%elem_of_cons; rewrite length_app; cbn; [lia|]. specialize (H4 k (Hst k Hk)). lia.
Qed.

Lemma add_command l c b :
  (l, c, b) = (labels p ++ [mk_command argument a e cs ce (head (section_stack p)) (open_start <$> head (environment_stack p))], captions p, bibitems p) \/
  (l, c, b) = (labels p, captions p ++ [mk_command argument a e cs ce (head (section_stack p)) (open_start <$> head (environment_stack p))], bibitems p) \/
  (l, c, b) = (labels p, captions p, bibitems p ++ [mk_command argument a e cs ce (head (section_stack p)) (open_start <$> head (environment_stack p))]) ->
  next_ok (Continue (at_offset ce (with_commands l c b p))).
Proof.
  intros Hl. pose proof at_end as [H1 H2 H3 H4 H5 H6 H7 H8 H9 H10 H11]. destruct Hspan as (Hlt & Hpc & _).
  set (x := mk_command _ _ _ _ _ _ _) in *. assert (command_ok ce x) as Hx by by split.
  split; [|done]. split; cbn in *; try done.
  - intros y Hy. assert (y ∈ labels p ++ captions p ++ bibitems p \/ y = x) as [Hy'| ->]; [|by apply H5|done].
    destruct Hl as [[= -> -> ->]|[[= -> -> ->]|[= -> -> ->]]]; rewrite !elem_of_app, ?list_elem_of_singleton in *; tauto.
  - intros j k y z Hjk Hj Hk. destruct Hl as [[= -> -> ->]|[[= -> -> ->]|[= -> -> ->]]]; [by eapply H6..|].
    apply lookup_app_Some in Hk as [Hk|[Hk Hk']].
    + rewrite lookup_app_l in Hj by (apply lookup_lt_Some in Hk; lia). by eapply H6.
    + apply list_lookup_singleton_Some in Hk' as [Hz <-]. cbn. rewrite lookup_app_l in Hj by lia.
      assert (y ∈ labels p ++ captions p ++ bibitems p) as Hy
        by (rewrite !elem_of_app; right; right; by eapply list_elem_of_lookup_2).
      destruct (ok_commands _ Hp y Hy) as [_ (Hyl & _) Hb]. cbn in Hb. lia.
  - intros y env Hy Henv Ho. destruct Hl as [[= -> -> ->]|[[= -> -> ->]|[= -> -> ->]]]; [by eapply H11..|].
    apply elem_of_app in Hy as [Hy|Hy]; [by eapply H11|]. apply list_elem_of_singleton in Hy as ->. cbn in Ho.
    destruct (environment_stack p) as [|o stack] eqn:Es; [done|]. cbn in Ho. injection Ho as Ho.
    exfalso. destruct H10 as [_ Hf]. apply (Hf env o Henv); [by left|done].
Qed.

(** An environment that is over, and what is left of the stack. *)
Lemma add_environment name start end_ stack :
  span start end_ -> start <= cs -> ce <= end_ -> (forall o, o ∈ stack -> o ∈ environment_stack p) ->
  NoDup (start :: (open_start <$> stack)) ->
  (forall x, x ∈ environments p -> environment_start x <> start \/ start = cs) ->
  pass_ok (at_offset end_ (with_environments (environments p ++ [mk_environment name start end_]) stack p)).
Proof.
  intros Hse Hle Hce Hst Hnd Hnew. destruct Hspan as (Hlt & Hpc & Hpe).
  pose proof (pass_ok_later (at_offset cs p) end_ Hp) as [H1 H2 H3 H4 H5 H6 H7 H8 H9 H10 H11].
  { destruct Hse as (_ & _ & [? _]). cbn. lia. }
  apply NoDup_cons in Hnd as [Hni Hnd]. split; cbn in *; try done.
  - intros x [Hx|Hx]%elem_of_app; [by apply H8|]. apply list_elem_of_singleton in Hx as ->. cbn. split; [done|lia].
  - intros o Ho. by apply H9, Hst.
  - split; [done|]. intros x o [Hx|Hx]%elem_of_app Ho; [by apply H10; [|apply Hst]|].
    apply list_elem_of_singleton in Hx as ->. cbn. intros ->. apply Hni. by apply list_elem_of_fmap_2.
  - intros c x Hc [Hx|Hx]%elem_of_app Ho; [by eapply H11|]. apply list_elem_of_singleton in Hx as ->. cbn.
    assert (c ∈ labels p ++ captions p ++ bibitems p) as Hc' by (rewrite !elem_of_app; tauto).
    destruct (ok_commands _ Hp c Hc') as [_ (Hcl & _) Hb]. cbn in Hb. lia.
Qed.

Lemma open_environment name :
  next_ok (Continue (at_offset ce (with_environments (environments p) (mk_open name cs :: environment_stack p) p))).
Proof.
  pose proof at_end as [H1 H2 H3 H4 H5 H6 H7 H8 H9 H10 H11]. destruct Hspan as (Hlt & Hpc & _).
  split; [|done]. split; cbn in *; try done.
  - intros o [->|Ho]%elem_of_cons; [by cbn|by apply H9].
  - destruct H10 as [Hn Hf]. split.
    + apply NoDup_cons. split; [|done]. intros (o & Ho & Hin)%list_elem_of_fmap.
      destruct (ok_open _ Hp o Hin) as [_ Hb]. cbn in Hb. lia.
    + intros x o Hx [->|Ho]%elem_of_cons; [|by apply Hf]. cbn.
      destruct (ok_environments _ Hp x Hx) as [_ Hb]. cbn in Hb. lia.
Qed.

Lemma add_references refs imps : Forall (exact_reference source) refs ->
  next_ok (Continue (at_offset ce (with_references refs imps p))).
Proof.
  intros Hr. pose proof at_end as [H1 H2 H3 H4 H5 H6 H7 H8 H9 H10 H11]. split; [|apply Hspan]. by split.
Qed.

Lemma pop_sections_spec lvl : exists stack, pop_sections (sections p) lvl (section_stack p) = Done stack /\
  forall k, k ∈ stack -> k ∈ section_stack p.
Proof.
  pose proof (ok_stack _ Hp) as Hs. cbn in Hs.
  induction (section_stack p) as [|k rest IH]; cbn; [by exists []|].
  destruct (lookup_lt_is_Some_2 (sections p) k) as [s Hk]; [apply Hs; by left|]. unfold index. rewrite Hk. cbn.
  destruct (lvl <=? level s).
  - destruct IH as (stack & -> & Hst); [intros; apply Hs; by right|]. exists stack. split; [done|].
    intros j Hj. right. by apply Hst.
  - by eexists.
Qed.

Lemma section_level_done : one_of SECTIONS command = true -> exists lvl, latex_section_level command = Done lvl.
Proof.
  unfold latex_section_level, one_of, SECTIONS. cbn [existsb]. rewrite !orb_false_r.
  repeat (destruct (bool_decide (command = _)); [by eexists|]; cbn [orb]). done.
Qed.

Lemma run_command_spec : exists f, run_command source command argument a e cs ce p = Done f /\ next_ok f.
Proof.
  unfold run_command. destruct (one_of SECTIONS command && _) eqn:E1.
  { apply andb_true_iff in E1 as [E1 _]. destruct (section_level_done E1) as [lvl ->]. cbn [run_bind].
    destruct (pop_sections_spec lvl) as (stack & -> & Hst). cbn [run_bind]. eexists. split; [done|]. by apply add_section. }
  destruct (one_of ["begin"] command).
  { destruct (negb _); cbn [negb]; [|eexists; split; [done|apply at_end_incomplete]].
    destruct (latex_verbatim_environment argument); [|eexists; split; [done|apply open_environment]].
    pose proof Hspan as (Hlt & Hpc & Hpe). destruct point_size as [_ Hbs].
    rewrite str_slice_done by (try apply Hpe; done || (destruct Hpe; lia)). cbn [run_bind].
    assert (slice source ce size = drop ce source) as Hsl.
    { unfold slice. by rewrite take_ge by (rewrite length_drop; lia). }
    unfold slice in Hsl. rewrite Hsl. clear Hsl.
    assert (forall name end_, span cs end_ -> ce <= end_ ->
      pass_ok (at_offset end_ (with_environments (environments p ++ [mk_environment name cs end_]) (environment_stack p) p))) as Hadd.
    { intros name end_ Hse Hce. apply add_environment; [done|done|done|done| |by right].
      apply NoDup_cons. split; [|apply (ok_fresh _ Hp)]. intros (o & Ho & Hin)%list_elem_of_fmap.
      destruct (ok_open _ Hp o Hin) as [_ Hb]. cbn in Hb. lia. }
    destruct (find_bytes _ (drop ce source)) as [r|] eqn:Ef.
    - apply find_bytes_spec in Ef as [Ht Hl]. rewrite length_drop in Hl. eexists. split; [done|].
      set (closing := lit_bytes "\end{" ++ argument ++ lit_bytes "}") in *.
      assert (Hcl : closing !! (length closing - 1) = Some Byte.x7d).
      { subst closing. rewrite app_assoc, lookup_app_r; rewrite !length_app; cbn; [|lia].
        by replace (_ - _) with 0 by lia. }
      assert (0 < length closing) as Hpos by (subst closing; rewrite !length_app; cbn; lia).
      split; [|cbn; lia]. apply Hadd; [|lia]. split; [lia|]. split; [done|]. split; [lia|].
      replace (ce + r + length closing) with (ce + r + (length closing - 1) + 1) by lia.
      apply (boundary_after_ascii source _ Byte.x7d valid); [|done].
      clearbody closing. rewrite <- Hcl. transitivity (take (length closing) (drop r (drop ce source)) !! (length closing - 1)); [|by rewrite Ht].
      rewrite lookup_take_lt, !lookup_drop by lia. f_equal. lia.
    - eexists. split; [done|]. refine (pass_ok_incomplete _ (Hadd argument size _ _)); [|apply Hpe].
      split; [destruct Hpe; lia|]. split; [done|apply point_size]. }
  destruct (one_of ["end"] command).
  { destruct (environment_stack p) as [|env stack] eqn:Es; [eexists; split; [done|apply at_end_incomplete]|].
    destruct (bool_decide (open_name env = argument)); [|eexists; split; [done|apply at_end_incomplete]].
    eexists. split; [done|]. split; [|apply Hspan].
    destruct (ok_open _ Hp env) as [Hpo Hlt]; [cbn; rewrite Es; by left|]. cbn in Hlt.
    destruct (ok_fresh _ Hp) as [Hn Hf]. cbn in Hn, Hf. rewrite Es in Hn, Hf.
    pose proof Hspan as (Hcl & Hpc & Hpe). apply add_environment; try done; [|lia| |].
    - split; [lia|done].
    - intros o Ho. rewrite Es. by right.
    - intros x Hx. left. apply Hf; [done|by left]. }
  destruct (one_of ["label"] command && _); [eexists; split; [done|]; apply add_command; auto|].
  destruct (one_of ["caption"] command && _); [eexists; split; [done|]; apply add_command; auto|].
  destruct (one_of ["bibitem"] command && _); [eexists; split; [done|]; apply add_command; auto|].
  destruct (one_of ["input"; "include"] command && _);
    [eexists; split; [done|]; apply add_references; apply (ok_references _ Hp)|].
  destruct Harg as (Hae & [Has Hab] & [Hes Heb]).
  destruct (latex_citation_command command).
  { destruct (append_latex_references_spec source valid a e "latex_cite" IndexDb.Reference (references p))
      as (refs & -> & Hr); [lia|done|done|apply (ok_references _ Hp)|]. cbn [run_bind]. eexists. split; [done|]. by apply add_references. }
  destruct (latex_reference_command command).
  { destruct (append_latex_references_spec source valid a e "latex_ref" IndexDb.Reference (references p))
      as (refs & -> & Hr); [lia|done|done|apply (ok_references _ Hp)|]. cbn [run_bind]. eexists. split; [done|]. by apply add_references. }
  eexists. split; [done|apply at_end_next].
Qed.
End Command.

(** ** A step of the pass *)
Lemma pass_ok_here p : pass_ok p -> pass_ok (at_offset (offset p) p).
Proof. by destruct p. Qed.

Lemma escape_step_spec p : pass_ok p -> source !! offset p = Some BACKSLASH ->
  exists f, escape_step source p = Done f /\ next_ok (offset p) f.
Proof.
  intros Hp Hb. pose proof (lookup_lt_Some _ _ _ Hb) as Hlt. unfold escape_step.
  destruct (latex_command_name_spec source valid (offset p) Hb) as ([[command after]|] & -> & Hname); cbn [run_bind].
  2: { eexists. split; [done|]. split; [apply pass_ok_later; [done|lia]|cbn; lia]. }
  destruct (Hname _ _ eq_refl) as [Hlo Hhi].
  assert (pass_ok (at_offset after p)) as Hafter by (apply pass_ok_later; [done|lia]).
  destruct (one_of ["verb"] command).
  { pose proof (skip_latex_verb_le source after Hhi). eexists. split; [done|].
    split; [apply (pass_ok_later (at_offset after p)); [done|cbn; lia]|cbn; lia]. }
  assert (exists found, (if latex_command_allows_optional_arguments command
    then skip_latex_optional_arguments source after else Done (Some after)) = Done found /\
    forall c, found = Some c -> after <= c <= size) as ([from|] & -> & Hfrom).
  { destruct (latex_command_allows_optional_arguments command); [by apply skip_latex_optional_spec|].
    eexists. split; [done|]. intros c [= <-]. lia. }
  2: { eexists. split; [done|]. split; [by apply pass_ok_incomplete|cbn; lia]. }
  cbn [run_bind]. specialize (Hfrom _ eq_refl).
  destruct (latex_braced_argument_spec source valid from) as ([[[a e] ce]|] & -> & Harg); [lia|..]; cbn [run_bind].
  2: { eexists. split; [done|].
       destruct (latex_command_requires_argument command); (split; [by try apply pass_ok_incomplete|cbn; lia]). }
  destruct (Harg _ _ _ eq_refl) as (H1 & H2 & H3 & H4 & Ha & He & Hce).
  destruct (latex_argument_value_spec source valid a e) as [value ->]; [lia|done|done|]. cbn [run_bind].
  apply (run_command_spec (at_offset after p)).
  - exact (pass_ok_here p Hp).
  - cbn. lia.
  - split; [lia|]. split; [split; [lia|by apply (boundary_at_ascii _ _ BACKSLASH)]|by split; [lia|]].
  - split; [done|]. split; split; done || lia.
Qed.

Lemma pass_step_spec p b : pass_ok p -> source !! offset p = Some b ->
  exists f, pass_step source b p = Done f /\ next_ok (offset p) f.
Proof.
  intros Hp Hb. pose proof (lookup_lt_Some _ _ _ Hb) as Hlt. unfold pass_step.
  destruct (bool_decide_reflect (b = PERCENT)) as [->|_].
  { destruct (skip_comment_spec source valid (offset p) size _ Hb) as [Hs _]; [lia..|]. eexists. split; [done|].
    split; [apply pass_ok_later; [done|lia]|cbn; lia]. }
  destruct (bool_decide_reflect (b = BACKSLASH)) as [->|_]; [by apply escape_step_spec|].
  eexists. split; [done|]. split; [apply pass_ok_later; [done|lia]|cbn; lia].
Qed.

(** The loop ends within its fuel, and only a cancellation is an error. *)
Lemma parse_loop_spec is_cancelled : forall fuel round p, pass_ok p -> size - offset p < fuel ->
  exists r, parse_loop source fuel is_cancelled round p = Done r /\
    match r with
    | Ok q => pass_ok (at_offset size q)
    | Err x => x = Cancelled /\ exists k, is_cancelled k = true
    end.
Proof.
  induction fuel as [|fuel IH]; intros round p Hp Hf; [lia|]. cbn [parse_loop].
  destruct (source !! offset p) as [b|] eqn:Eb.
  2: { eexists. split; [done|]. apply pass_ok_later; [done|]. pose proof (ok_offset _ Hp). lia. }
  destruct (is_cancelled round) eqn:Ec; [eexists; split; [done|]; split; [done|by exists round]|].
  destruct (pass_step_spec p b Hp Eb) as ([q|q] & -> & Hq); cbn [run_bind].
  - destruct Hq as [Hq Hlt]. apply IH; [done|]. apply lookup_lt_Some in Eb. lia.
  - by eexists.
Qed.

Lemma close_environments_ok p : pass_ok (at_offset size p) -> pass_ok (at_offset size (close_environments source p)).
Proof.
  intros Hp. unfold close_environments. destruct (environment_stack p) as [|top stack] eqn:Es; [done|].
  pose proof Hp as [H1 H2 H3 H4 H5 H6 H7 H8 H9 H10 H11]. cbn in *. rewrite Es in H9.
  assert (forall e, e ∈ environments p ++ map (fun o => mk_environment (open_name o) (open_start o) size) (rev (top :: stack)) ->
    e ∈ environments p \/ environment_end e = size /\ point (environment_start e) /\ environment_start e < size) as Hin.
  { intros e [He|He]%elem_of_app; [by left|]. right. apply list_elem_of_fmap in He as (o & -> & Ho). cbn.
    split; [done|]. apply H9. by apply list_elem_of_In, in_rev, list_elem_of_In. }
  split; cbn [at_offset incomplete with_environments offset sections section_stack labels captions bibitems references
    environments environment_stack]; try done.
  - intros e He. destruct (Hin e He) as [Ho|(-> & Hs & Hlt)]; [by apply H8|]. repeat split; done || apply Hs || apply boundary_len.
  - by intros o ?%not_elem_of_nil.
  - split; [apply NoDup_nil_2|]. by intros e o _ ?%not_elem_of_nil.
  - intros c e Hc He Ho. destruct (Hin e He) as [He'|(-> & _)]; [by eapply H11|].
    destruct (H5 c) as [_ (Hlt & _) Hb]; [rewrite !elem_of_app; tauto|]. lia.
Qed.

(** ** The symbols *)
Definition located (s : Symbol) : Prop :=
  span (Hierarchy.start_byte s) (Hierarchy.end_byte s) /\
  start_line s = byte_to_line (line_starts source) size (Hierarchy.start_byte s) /\
  end_line s = byte_to_line (line_starts source) size (Hierarchy.end_byte s - 1).

Lemma latex_symbol_located nm kd sg a b : span a b -> located (latex_symbol source nm kd sg a b).
Proof. by split. Qed.

Section Output.
Variable p : pass.
Hypothesis Hp : pass_ok (at_offset size p).

Lemma section_end_span k s : sections p !! k = Some s -> span (section_start s) (section_end source (sections p) k s).
Proof.
  intros Hk. destruct (ok_sections _ Hp s) as [Hps Hlt]; [by eapply list_elem_of_lookup_2|]. cbn in Hlt.
  unfold section_end, closer. destruct (find _ _) as [t|] eqn:Ef; [|by split; [|split; [|apply point_size]]].
  apply find_some in Ef as [Ht _]. apply list_elem_of_In, list_elem_of_lookup in Ht as [j Hj]. rewrite lookup_drop in Hj.
  split; [apply (ok_increasing _ Hp k (S k + j)); [lia|done|done]|]. split; [done|].
  apply (ok_sections _ Hp). by eapply list_elem_of_lookup_2.
Qed.

Lemma section_symbols_spec ranges :
  (forall k s, sections p !! k = Some s -> ranges !! k = Some (section_start s, section_end source (sections p) k s)) ->
  exists symbols, section_symbols source (sections p) ranges = Done symbols /\ Forall located symbols /\
    forall k s, sections p !! k = Some s -> exists sym, symbols !! k = Some sym /\ Hierarchy.name sym = text_of (title s) /\
      kind sym = text_of (lit_bytes "latex_" ++ command s) /\
      Hierarchy.start_byte sym = section_start s /\ Hierarchy.end_byte sym = section_end source (sections p) k s.
Proof.
  intros Hr. unfold section_symbols. match goal with |- context [?f (sections p) 0] => set (go := f) end.
  enough (forall todo i, drop i (sections p) = todo -> exists symbols, go todo i = Done symbols /\ Forall located symbols /\
    forall k s, todo !! k = Some s -> exists sym, symbols !! k = Some sym /\ Hierarchy.name sym = text_of (title s) /\
      kind sym = text_of (lit_bytes "latex_" ++ command s) /\
      Hierarchy.start_byte sym = section_start s /\ Hierarchy.end_byte sym = section_end source (sections p) (i + k) s) as H
    by by apply (H _ 0).
  induction todo as [|s todo IH]; intros i Hd; cbn [go].
  { exists []. split; [done|]. split; [constructor|]. by intros k s. }
  assert (sections p !! i = Some s) as Hs by by rewrite <- (Nat.add_0_r i), <- lookup_drop, Hd.
  unfold index. rewrite (Hr i s Hs). cbn [run_bind].
  destruct (IH (S i)) as (symbols & -> & Hl & Hk).
  { replace (S i) with (i + 1) by lia. by rewrite <- drop_drop, Hd. }
  cbn [run_bind]. eexists. split; [done|]. split.
  - constructor; [|done]. apply latex_symbol_located. cbn. by apply section_end_span.
  - intros [|k] t; cbn [lookup list_lookup]; [intros [= <-]; eexists; rewrite Nat.add_0_r; done|].
    intros Ht. destruct (Hk k t Ht) as (sym & Hsym & H1). exists sym. by replace (i + S k) with (S i + k) by lia.
Qed.

Lemma environment_ranges_spec start nm e : environment_ranges (environments p) !! start = Some (nm, e) ->
  exists env, env ∈ environments p /\ environment_start env = start /\ environment_end env = e.
Proof.
  unfold environment_ranges. enough (forall envs (m : gmap nat (list Byte.byte * nat)), fold_left (fun m e => <[environment_start e := (environment_name e, environment_end e)]> m) envs m !! start = Some (nm, e) ->
    m !! start = Some (nm, e) \/ exists env, env ∈ envs /\ environment_start env = start /\ environment_end env = e) as H.
  { intros [?|?]%H; [|done]. by rewrite lookup_empty in *. }
  induction envs as [|x envs IH]; intros m; cbn [fold_left]; [by left|].
  intros [Hm|(env & Hin & He)]%IH; [|right; exists env; split; [by right|done]].
  destruct (decide (environment_start x = start)) as [Heq|Hne].
  - rewrite Heq, lookup_insert_eq in Hm. injection Hm as _ He. right. exists x. split; [by left|done].
  - rewrite lookup_insert_ne in Hm by done. by left.
Qed.

Lemma owner_range_span ranges c : c ∈ labels p ++ captions p ++ bibitems p -> length ranges = length (sections p) ->
  (forall k s, sections p !! k = Some s -> ranges !! k = Some (section_start s, section_end source (sections p) k s)) ->
  span (latex_owner_range c ranges (environment_ranges (environments p))).1
       (latex_owner_range c ranges (environment_ranges (environments p))).2.
Proof.
  intros Hc Hl Hr. unfold latex_owner_range.
  assert (forall i r, ranges !! i = Some r -> span r.1 r.2) as Hsec.
  { intros i r Hi. destruct (lookup_lt_is_Some_2 (sections p) i) as [s Hs]; [rewrite <- Hl; by eapply lookup_lt_Some|].
    rewrite (Hr i s Hs) in Hi. injection Hi as <-. by apply section_end_span. }
  assert (forall start nm e, environment_ranges (environments p) !! start = Some (nm, e) -> span start e) as Henv.
  { intros start nm e (env & He & <- & <-)%environment_ranges_spec. by apply (ok_environments _ Hp). }
  destruct (owner_section c ≫= _) as [r|] eqn:E1.
  - assert (span r.1 r.2) as Hspan1 by (apply bind_Some in E1 as (i & _ & Hi); by eapply Hsec).
    destruct (owner_environment_start c ≫= _) as [q|] eqn:E2; [|done]. unfold shorter. destruct (_ <? _); [|done].
    apply bind_Some in E2 as (start & _ & E2). apply bind_Some in E2 as ([nm e] & E2 & E3).
    destruct (_ && _); [|done]. injection E3 as <-. by eapply Henv.
  - destruct (owner_environment_start c ≫= _) as [q|] eqn:E2; [|by apply (ok_commands _ Hp)].
    apply bind_Some in E2 as (start & _ & E2). apply bind_Some in E2 as ([nm e] & E2 & E3).
    destruct (_ && _); [|done]. injection E3 as <-. by eapply Henv.
Qed.

Lemma bibitem_symbols_located : Forall located (bibitem_symbols source (bibitems p) (environment_ranges (environments p))).
Proof.
  pose proof (ok_bibitems _ Hp) as Hinc. cbn in Hinc.
  assert (forall c, c ∈ bibitems p -> c ∈ bibitems p /\ span (command_start c) (command_end c) /\ command_end c <= size) as Hc.
  { intros c Hc. destruct (ok_commands _ Hp c) as [_ Hs Hb]; [rewrite !elem_of_app; tauto|]. done. }
  revert Hinc Hc. generalize (bibitems p) at 1 2 3 5. intros items. induction items as [|c items IH]; intros Hinc Hc; [constructor|].
  cbn [bibitem_symbols]. constructor; cycle 1.
  { apply IH; [|intros d Hd; apply Hc; by right]. intros j k x y Hjk Hj Hk. by apply (Hinc (S j) (S k)); [lia|..]. }
  destruct (Hc c) as (Hin & Hspan & Hle); [by left|]. pose proof Hspan as (Hlt & Hps & _).
  set (enclosing_end := match _ with Some _ => _ | None => _ end).
  assert (command_start c < enclosing_end /\ point enclosing_end) as [He1 He2].
  { subst enclosing_end. destruct (owner_environment_start c ≫= _) as [[nm e]|] eqn:E; [|split; [lia|apply point_size]].
    destruct (bool_decide _); [|split; [lia|apply point_size]].
    apply bind_Some in E as (start & Eo & (env & He & Hst & <-)%environment_ranges_spec).
    split; [|by apply (ok_environments _ Hp)]. apply (ok_owned _ Hp c env Hin He). by rewrite Eo, Hst. }
  apply latex_symbol_located. destruct items as [|d items]; [done|].
  assert (command_start c < command_start d) by (by apply (Hinc 0 1); [lia|..]).
  destruct (Hc d) as (_ & (_ & Hd & _) & _); [right; by left|].
  split; [lia|]. split; [done|]. by destruct (Nat.min_spec (command_start d) enclosing_end) as [[_ ->]|[_ ->]].
Qed.

Lemma definition_references_spec kd commands : (forall c, c ∈ commands -> command_ok size c) ->
  forall refs, Forall (exact_reference source) refs ->
  exists refs', definition_references source kd commands refs = Done refs' /\ Forall (exact_reference source) refs'.
Proof.
  induction commands as [|c commands IH]; intros Hc refs Hr; cbn [definition_references]; [by eexists|].
  destruct (Hc c) as [(H1 & [H2 H3] & [H4 H5]) _ _]; [by left|].
  destruct (append_latex_references_spec source valid (argument_start c) (argument_end c) kd Definition_ refs) as (refs' & -> & Hr');
    [lia|done|done|done|]. cbn [run_bind]. apply IH; [|done]. intros d Hd. apply Hc. by right.
Qed.

(** The symbol of a section. *)
Definition section_symbol (k : nat) (s : LatexSection) (sym : Symbol) : Prop :=
  Hierarchy.name sym = text_of (title s) /\ kind sym = text_of (lit_bytes "latex_" ++ command s) /\
  Hierarchy.start_byte sym = section_start s /\ Hierarchy.end_byte sym = section_end source (sections p) k s.

Lemma build_latex_output_spec :
  exists symbols refs imps, build_latex_output source p = Done (symbols, refs, imps) /\
    NoDup (symbol_key <$> symbols) /\ Forall located symbols /\ Forall (exact_reference source) refs /\
    forall k s, sections p !! k = Some s -> exists sym, sym ∈ symbols /\ section_symbol k s sym.
Proof.
  unfold build_latex_output.
  destruct (section_ranges_exact source (sections p)) as (ranges & -> & Hl & Hr). cbn [run_bind].
  destruct (section_symbols_spec ranges Hr) as (of_sections & -> & Hloc & Hsym). cbn [run_bind].
  set (envs := environment_ranges (environments p)). set (all := of_sections ++ _).
  destruct (definition_references_spec "latex_label" (labels p)) with (refs := references p) as (refs1 & -> & Hr1).
  { intros c Hc. apply (ok_commands _ Hp). rewrite !elem_of_app. tauto. }
  { apply (ok_references _ Hp). }
  cbn [run_bind].
  destruct (definition_references_spec "latex_bibitem" (bibitems p)) with (refs := refs1) as (refs2 & -> & Hr2); [|done|].
  { intros c Hc. apply (ok_commands _ Hp). rewrite !elem_of_app. tauto. }
  cbn [run_bind]. do 3 eexists. split; [done|].
  pose proof (compute_symbol_parents_keeps (deduplicate_symbols all)) as Hperm.
  set (symbols := compute_symbol_parents _) in *.
  destruct (deduplicate_symbols_spec all) as [Hnd Hkeys].
  assert (forall l, symbol_key <$> l = symbol_key <$> (but_parent <$> l)) as Hkey by (intros l; by rewrite <- list_fmap_compose).
  assert (Forall located all) as Hall.
  { assert (forall kd cmd cs, (forall c, c ∈ cs -> c ∈ labels p ++ captions p ++ bibitems p) ->
      Forall located (map (owned_symbol source kd cmd ranges envs) cs)) as Hown.
    { intros kd cmd cs Hin. apply Forall_forall. intros y (c & -> & Hc)%list_elem_of_fmap. unfold owned_symbol.
      pose proof (owner_range_span ranges c (Hin c Hc) Hl Hr) as Hspan. fold envs in Hspan.
      destruct (latex_owner_range c ranges envs) as [a b]. by apply latex_symbol_located. }
    subst all. rewrite !Forall_app. split; [done|]. split; [|split; [|split]].
    - apply Forall_forall. intros y (e & -> & He)%list_elem_of_fmap. apply latex_symbol_located. by apply (ok_environments _ Hp).
    - apply Hown. intros c Hc. rewrite !elem_of_app. tauto.
    - apply Hown. intros c Hc. rewrite !elem_of_app. tauto.
    - apply bibitem_symbols_located. }
  split; [|split; [|split]].
  - by rewrite Hkey, Hperm, <- Hkey.
  - assert (Forall located (but_parent <$> symbols)) as H 
      by (rewrite Hperm, Forall_fmap, Forall_forall; rewrite Forall_forall in Hall; intros x Hx; by eapply Hall, retain_new_sub).
    rewrite Forall_fmap in H. eapply Forall_impl; [done|]. by intros x Hx.
  - pose proof (compute_reference_enclosing_keeps symbols refs2) as Hpr.
    assert (Forall (exact_reference source) (but_enclosing <$> compute_reference_enclosing symbols refs2)) as H
      by (rewrite Hpr, Forall_fmap; eapply Forall_impl; [done|]; by intros x Hx).
    rewrite Forall_fmap in H. eapply Forall_impl; [done|]. by intros x Hx.
  - intros k s Hs. destruct (Hsym k s Hs) as (sym & Hk & Hname & Hkind & Hstart & Hend).
    assert (symbol_key sym ∈ symbol_key <$> symbols) as Hin.
    { rewrite Hkey, Hperm, <- Hkey. apply Hkeys. subst all. apply elem_of_app. left. by eapply list_elem_of_lookup_2. }
    apply list_elem_of_fmap in Hin as (sym' & Heq & Hin). exists sym'. split; [done|].
    unfold symbol_key in Heq. injection Heq as H1 H2 H3 H4. repeat split; congruence.
Qed.
End Output.
End Pass.

Lemma parse_latex_spec source is_cancelled : utf8_valid source = true ->
  exists r, parse_latex source is_cancelled = Done r /\
    match r with
    | Err x => x = Cancelled /\ exists k, is_cancelled k = true
    | Ok out => NoDup (symbol_key <$> out_symbols out) /\ Forall (located source) (out_symbols out) /\
        Forall (exact_reference source) (out_references out) /\
        exists p, parse_loop source (S (length source)) is_cancelled 0 start_pass = Done (Ok p) /\
          forall k s, sections p !! k = Some s -> exists sym, sym ∈ out_symbols out /\ section_symbol source p k s sym
    end.
Proof.
  intros valid. unfold parse_latex.
  destruct (parse_loop_spec source valid is_cancelled (S (length source)) 0 start_pass) as ([p|x] & -> & Hr);
    [apply start_pass_ok|cbn; lia|..]; cbn [run_bind].
  2: { by eexists. }
  pose proof (close_environments_ok source p Hr) as Hp.
  destruct (build_latex_output_spec source valid _ Hp) as (symbols & refs & imps & -> & Hnd & Hl & He & Hs). cbn [run_bind].
  eexists. split; [done|]. cbn. split; [done|]. split; [done|]. split; [done|]. exists p. split; [done|].
  assert (sections (close_environments source p) = sections p) as Heq by (unfold close_environments; by destruct (environment_stack p)).
  intros k s Hk. rewrite <- Heq in Hk. destruct (Hs k s Hk) as (sym & Hin & Hsec). exists sym. split; [done|].
  unfold section_symbol in *. by rewrite Heq in Hsec.
Qed.

(** ** Theorems *)

(** C22: the parser returns for every text: no index or slice of it panics, its
    loops end within their fuel, and it fails only when the caller cancels. *)
Theorem latex_parse_total (source : source_text) (is_cancelled : nat -> bool) (Hvalid : utf8_valid source = true) :
  (exists out, parse_latex source is_cancelled = Done (Ok out)) \/
  (parse_latex source is_cancelled = Done (Err Cancelled) /\ exists round, is_cancelled round = true).
Proof.
  destruct (parse_latex_spec source is_cancelled Hvalid) as ([out|x] & -> & Hr); [left; by eexists|].
  destruct Hr as [-> Hr]. by right.
Qed.

(** A reference whose range has the bytes of its name. *)
Definition reads_its_name (source : source_text) (r : Hierarchy.Reference) : Prop :=
  exists name, name <> [] /\ str_slice source (ref_start r) (ref_end r) = Done name /\ ref_name r = text_of name /\
    ref_start_line r = byte_to_line (line_starts source) (length source) (ref_start r) /\
    ref_end_line r = byte_to_line (line_starts source) (length source) (ref_end r - 1).

(** C23: what the parser reports is well formed: no two symbols have one kind, name
    and range, the range of a symbol is a non-empty piece of the source between
    character boundaries with the lines of its first and last byte, and the range of
    a reference holds the bytes of its name. *)
Theorem latex_output_in_source (source : source_text) (is_cancelled : nat -> bool) (out : ParseOutput)
    (Hvalid : utf8_valid source = true) (Hparse : parse_latex source is_cancelled = Done (Ok out)) :
  NoDup (symbol_key <$> out_symbols out) /\ Forall (located source) (out_symbols out) /\
  Forall (reads_its_name source) (out_references out).
Proof.
  destruct (parse_latex_spec source is_cancelled Hvalid) as (r & Hr & Hs). rewrite Hparse in Hr. injection Hr as <-.
  destruct Hs as (Hnd & Hl & He & _). split; [done|]. split; [done|]. eapply Forall_impl; [done|].
  intros r (name & Hne & Hp & Hend & Hn & Hlines). exists name. split; [done|]. rewrite Hend. split; [|by rewrite Hend in Hlines].
  by apply piece_slice.
Qed.

(** C24: a section reaches to the next section that is not deeper, and to the end of
    the source when there is none: every section of the pass has a symbol with
    its title, the kind of its command and this range. *)
Theorem latex_sections_extend (source : source_text) (is_cancelled : nat -> bool) (out : ParseOutput)
    (Hvalid : utf8_valid source = true) (Hparse : parse_latex source is_cancelled = Done (Ok out)) :
  exists p, parse_loop source (S (length source)) is_cancelled 0 start_pass = Done (Ok p) /\
    forall k s, sections p !! k = Some s -> exists sym, sym ∈ out_symbols out /\
      Hierarchy.name sym = text_of (title s) /\ kind sym = text_of (lit_bytes "latex_" ++ command s) /\
      Hierarchy.start_byte sym = section_start s /\ Hierarchy.end_byte sym = section_end source (sections p) k s.
Proof.
  destruct (parse_latex_spec source is_cancelled Hvalid) as (r & Hr & Hs). rewrite Hparse in Hr. injection Hr as <-. apply Hs.
Qed.

(** ** The documents of the parser's own tests: [parser/tests.rs] *)
Module Demo.

Definition lines (l : list string) : source_text := concat ((fun s => lit_bytes s ++ [NEWLINE]) <$> l).
Definition paper : source_text := lines
  ["\section{Introduction}"; "intro \cite{smith2024, doe2023}."; "\subsection[Short]{Method}"; "method \label{sec:method}";
   "\begin{figure}"; "\caption[Short]{Pipeline}"; "\label{fig:pipeline}"; "\end{figure}"; "\input{sections/results}";
   "\include{appendix}"; "\subsubsection{Details}"; "See \cref{fig:pipeline,sec:method}."; "\paragraph{Limits}"; "text";
   "\section{References}"; "\begin{thebibliography}{9}"; "\bibitem{smith2024} Smith."; "continued.";
   "\bibitem[Doe]{doe2023} Doe."; "\end{thebibliography}"].
Definition recovered : source_text := lines
  ["\section{Visible}"; "% \section{Hidden}"; "\begin{verbatim}"; "\section{Also hidden}"; "\end{verbatim}";
   "\section{Recovered}"; "\begin{figure}"; "\label{fig:open}"].
Definition never : nat -> bool := fun _ => false.
Definition outline (r : run (result ParseOutput)) :=
  match r with
  | Done (Ok out) =>
    Some (complete out, (fun s => (Hierarchy.name s, kind s, start_line s, end_line s)) <$> out_symbols out,
          (fun r => (ref_name r, ref_kind r, enclosing_symbol r)) <$> out_references out,
          (fun i => (text_of (raw_target i), import_line i)) <$> out_imports out)
  | _ => None
  end.

Example paper_outline : outline (parse_latex paper never) = Some (true,
  [("Introduction", "latex_section", 1, 14); ("Method", "latex_subsection", 3, 14); ("sec:method", "latex_label", 3, 14);
   ("figure", "latex_environment", 5, 8); ("fig:pipeline", "latex_label", 5, 8); ("Pipeline", "latex_caption", 5, 8);
   ("Details", "latex_subsubsection", 11, 14); ("Limits", "latex_paragraph", 13, 14);
   ("References", "latex_section", 15, 20); ("thebibliography", "latex_environment", 16, 20);
   ("smith2024", "latex_bibitem", 17, 18); ("doe2023", "latex_bibitem", 19, 20)],
  [("smith2024", "latex_cite", Some "Introduction"); ("doe2023", "latex_cite", Some "Introduction");
   ("sec:method", "latex_label", Some "Method"); ("fig:pipeline", "latex_label", Some "figure");
   ("fig:pipeline", "latex_ref", Some "Details"); ("sec:method", "latex_ref", Some "Details");
   ("smith2024", "latex_bibitem", Some "smith2024"); ("doe2023", "latex_bibitem", Some "doe2023")],
  [("sections/results", 9); ("appendix", 10)]).
Proof. vm_compute. reflexivity. Qed.

(** Comments and verbatim text are not indexed, an open environment ends with the source. *)
Example recovered_outline : outline (parse_latex recovered never) = Some (false,
  [("Visible", "latex_section", 1, 5); ("verbatim", "latex_environment", 3, 5); ("Recovered", "latex_section", 6, 8);
   ("figure", "latex_environment", 7, 8); ("fig:open", "latex_label", 7, 8)],
  [("fig:open", "latex_label", Some "figure")], []).
Proof. vm_compute. reflexivity. Qed.

(** A comment in a title. *)
Example commented_title :
  outline (parse_latex (lines ["\section{Visible % a commented closing brace }"; "Title}"]) never) =
  Some (true, [("Visible Title", "latex_section", 1, 2)], [], []).
Proof. vm_compute. reflexivity. Qed.
Example cancelled_at_once : parse_latex (lines ["\section{Never}"]) (fun _ => true) = Done (Err Cancelled).
Proof. vm_compute. reflexivity. Qed.

(** A label has the range of its section, and the parent of a section inside is the label. *)
Example label_is_parent :
  match parse_latex (lines ["\section{Outer}"; "\label{sec:outer}"; "\subsection{Inner}"]) never with
  | Done (Ok out) => (fun s => (Hierarchy.name s, parent s)) <$> out_symbols out
  | _ => []
  end = [("Outer", None); ("sec:outer", None); ("Inner", Some "sec:outer")].
Proof. vm_compute. reflexivity. Qed.

Definition paper_output : ParseOutput :=
  match parse_latex paper never with Done (Ok out) => out | _ => mk_output false [] [] [] end.
Lemma paper_valid : utf8_valid paper = true.
Proof. vm_compute. reflexivity. Qed.
Lemma paper_parsed : parse_latex paper never = Done (Ok paper_output).
Proof. vm_compute. reflexivity. Qed.

Lemma latex_parse_total_witness :
  (exists out, parse_latex paper never = Done (Ok out)) \/
  (parse_latex paper never = Done (Err Cancelled) /\ exists round, never round = true).
Proof. exact (latex_parse_total paper never paper_valid). Defined.
Lemma latex_output_in_source_witness :
  NoDup (symbol_key <$> out_symbols paper_output) /\ Forall (located paper) (out_symbols paper_output) /\
  Forall (reads_its_name paper) (out_references paper_output).
Proof. exact (latex_output_in_source paper never paper_output paper_valid paper_parsed). Defined.
Lemma latex_sections_extend_witness :
  exists p, parse_loop paper (S (length paper)) never 0 start_pass = Done (Ok p) /\
    forall k s, sections p !! k = Some s -> exists sym, sym ∈ out_symbols paper_output /\
      Hierarchy.name sym = text_of (title s) /\ kind sym = text_of (lit_bytes "latex_" ++ command s) /\
      Hierarchy.start_byte sym = section_start s /\ Hierarchy.end_byte sym = section_end paper (sections p) k s.
Proof. exact (latex_sections_extend paper never paper_output paper_valid paper_parsed). Defined.
End Demo.
