(* ===== verification/GitDiff.v ===== *)
(** * What Git prints about changes: [src/src/repository/git/diff.rs], [status.rs]

    The parsers of [git diff] and [git status].  Git runs as a subprocess, so its
    output is an argument: the bytes a [BufRead] yields.  A string is its UTF-8
    bytes.  A [HashSet] of paths is the list of its elements in the order of their
    insertion. *)

From S2P Require Import Prelude Text Store Utf8.
Open Scope nat_scope.
Open Scope run_scope.

Abbreviation bytes := (list Byte.byte).
Definition NL : Byte.byte := Byte.x0a.
Definition NUL : Byte.byte := Byte.x00.
Definition QUOTE : Byte.byte := Byte.x22.
Definition ESCAPE : Byte.byte := Byte.x5c.
Definition SLASH : Byte.byte := Byte.x2f.
Definition PLUS : Byte.byte := Byte.x2b.
Definition COMMA : Byte.byte := Byte.x2c.

(** ** The standard library on these strings *)

(** [BufRead::read_until] to the end: every record with its delimiter, but the last
    one when the input ends without. *)
Fixpoint records (d : Byte.byte) (input : bytes) : list bytes :=
  match input with
  | [] => []
  | b :: input =>
    if bool_decide (b = d) then [b] :: records d input
    else match records d input with
         | r :: rs => (b :: r) :: rs
         | [] => [[b]]
         end
  end.

Fixpoint strip_prefix (p s : bytes) : option bytes :=
  match p, s with
  | [], _ => Some s
  | x :: p, y :: s => if bool_decide (x = y) then strip_prefix p s else None
  | _ :: _, [] => None
  end.
(** [strip_suffix] of one character. *)
Definition strip_last (b : Byte.byte) (s : bytes) : option bytes :=
  match rev s with
  | x :: r => if bool_decide (x = b) then Some (rev r) else None
  | [] => None
  end.
(** [trim_end_matches] of ['\r'] and ['\n']. *)
Definition is_line_end (b : Byte.byte) : bool := bool_decide (b = Byte.x0d) || bool_decide (b = NL).
Definition trim_line_end (s : bytes) : bytes :=
  let r := rev s in rev (drop (count_while is_line_end r) r).
(** [split(b)]. *)
Fixpoint split_byte (d : Byte.byte) (s : bytes) : list bytes :=
  match s with
  | [] => [[]]
  | b :: s =>
    if bool_decide (b = d) then [] :: split_byte d s
    else match split_byte d s with p :: ps => (b :: p) :: ps | [] => [[b]] end
  end.
Fixpoint join_bytes (d : Byte.byte) (parts : list bytes) : bytes :=
  match parts with
  | [] => []
  | p :: ps => match ps with [] => p | _ => p ++ d :: join_bytes d ps end
  end.
(** [split_once(b)]. *)
Definition split_once (d : Byte.byte) (s : bytes) : option (bytes * bytes) :=
  (fun i => (take i s, drop (S i) s)) <$> position d s.

(** How many bytes of white space are at the front. *)
Definition ws_at (s : bytes) : nat :=
  match s with
  | b0 :: r0 =>
    if ws1 b0 then 1
    else match r0 with
         | b1 :: r1 =>
           if ws2 b0 b1 then 2
           else match r1 with
                | b2 :: _ => if ws3 b0 b1 b2 then 3 else 0
                | [] => 0
                end
         | [] => 0
         end
  | [] => 0
  end.
Definition flush (word : bytes) : list bytes := match word with [] => [] | _ => [word] end.
(** [split_whitespace]; [skip] bytes of white space are still to be passed. *)
Fixpoint words (s : bytes) (skip : nat) (word : bytes) : list bytes :=
  match s with
  | [] => flush word
  | b :: rest =>
    match skip with
    | S skip => words rest skip word
    | O => match ws_at s with
           | O => words rest 0 (word ++ [b])
           | S skip => flush word ++ words rest skip []
           end
    end
  end.
Definition split_whitespace (s : bytes) : list bytes := words s 0 [].

(** The bytes of the character at the front that are well formed, and whether it
    is whole. *)
Definition char_prefix (b0 : Byte.byte) (r0 : bytes) : nat * bool :=
  if is_ascii b0 then (1, true)
  else match r0 with
       | [] => (1, false)
       | b1 :: r1 =>
         if between 194 223 b0 && is_cont b1 then (2, true)
         else if lead3 b0 b1 then
           match r1 with b2 :: _ => if is_cont b2 then (3, true) else (2, false) | [] => (2, false) end
         else if lead4 b0 b1 then
           match r1 with
           | b2 :: r2 =>
             if is_cont b2
             then match r2 with b3 :: _ => if is_cont b3 then (4, true) else (3, false) | [] => (3, false) end
             else (2, false)
           | [] => (2, false)
           end
         else (1, false)
       end.
Definition REPLACEMENT : bytes := [Byte.xef; Byte.xbf; Byte.xbd].
(** [String::from_utf8_lossy]; the first [skip] bytes are accounted for. *)
Fixpoint lossy (s : bytes) (skip : nat) : bytes :=
  match s with
  | [] => []
  | b0 :: rest =>
    match skip with
    | S skip => lossy rest skip
    | O => let '(n, whole) := char_prefix b0 rest in
           (if whole then take n s else REPLACEMENT) ++ lossy rest (n - 1)
    end
  end.
Definition from_utf8_lossy (s : bytes) : bytes := lossy s 0.

(** [str::parse::<usize>]. *)
Definition digit (b : Byte.byte) : option Z :=
  if between 48 57 b then Some (Z.of_N (Byte.to_N b) - 48)%Z else None.
Fixpoint usize_digits (acc : Z) (s : bytes) : result Z :=
  match s with
  | [] => Ok acc
  | b :: s =>
    match digit b with
    | None => Err (OperationFailure "invalid digit found in string")
    | Some d =>
      let v := (acc * 10 + d)%Z in
      if (v <=? U64_MAX)%Z then usize_digits v s else Err (OperationFailure "number too large to fit in target type")
    end
  end.
Definition parse_usize (s : bytes) : result Z :=
  match s with
  | [] => Err (OperationFailure "cannot parse integer from empty string")
  | b :: rest =>
    if bool_decide (b = PLUS)
    then match rest with
         | [] => Err (OperationFailure "invalid digit found in string")
         | _ => usize_digits 0 rest
         end
    else usize_digits 0 s
  end.
(** [u8::from_str_radix(s, 8).ok()] of digits. *)
Fixpoint octal_digits (acc : N) (s : bytes) : option N :=
  match s with
  | [] => Some acc
  | b :: s =>
    if between 48 55 b
    then let v := (acc * 8 + (Byte.to_N b - 48))%N in if (v <=? 255)%N then octal_digits v s else None
    else None
  end.

(** [repository::path::slash_path]: the normal components of a path. *)
Definition normal_part (p : bytes) : bool :=
  negb (bool_decide (p = [])) && negb (bool_decide (p = lit_bytes ".")) && negb (bool_decide (p = lit_bytes "..")).
Definition slash_path (path : bytes) : bytes :=
  join_bytes SLASH (List.filter normal_part (split_byte SLASH path)).

(** ** Hunks *)
Definition escaped (b : Byte.byte) : option Byte.byte :=
  if bool_decide (b = QUOTE) then Some QUOTE
  else if bool_decide (b = ESCAPE) then Some ESCAPE
  else if bool_decide (b = Byte.x74) then Some Byte.x09
  else if bool_decide (b = Byte.x6e) then Some Byte.x0a
  else if bool_decide (b = Byte.x72) then Some Byte.x0d
  else None.

Fixpoint decode_loop (fuel : nat) (inner : bytes) (i : nat) (result : bytes) : run bytes :=
  match fuel with
  | O => NoFuel
  | S fuel =>
    match inner !! i with
    | None => Done result
    | Some b =>
      match inner !! (i + 1) with
      | Some next =>
        if bool_decide (b = ESCAPE)
        then match escaped next with
             | Some c => decode_loop fuel inner (i + 2) (result ++ [c])
             | None =>
               if between 48 55 next && (i + 3 <? length inner)
               then let? octal := str_slice inner (i + 1) (i + 4) in
                    match octal_digits 0 octal ≫= Byte.of_N with
                    | Some value => decode_loop fuel inner (i + 4) (result ++ [value])
                    | None => decode_loop fuel inner (i + 2) (result ++ [ESCAPE; next])
                    end
               else decode_loop fuel inner (i + 2) (result ++ [ESCAPE; next])
             end
        else decode_loop fuel inner (i + 1) (result ++ [b])
      | None => decode_loop fuel inner (i + 1) (result ++ [b])
      end
    end
  end.
Definition decode_git_quoted_path (raw : bytes) : run bytes :=
  match strip_prefix [QUOTE] raw ≫= strip_last QUOTE with
  | None => Done raw
  | Some inner =>
    let? result := decode_loop (S (length inner)) inner 0 [] in
    Done (from_utf8_lossy result)
  end.

Record GitHunkRange := mk_hunk { hunk_path : bytes; start_line : Z; end_line : Z }.
#[export] Instance GitHunkRange_eq_dec : EqDecision GitHunkRange.
Proof. solve_decision. Defined.

Definition OVERFLOW : error := OperationFailure "git diff hunk range overflow".
(** The range of a target [+start] or [+start,length], without its plus sign. *)
Definition parse_target (target : bytes) : result (Z * Z) :=
  let '(start, len) := match split_once COMMA target with Some parts => parts | None => (target, lit_bytes "1") end in
  let* raw_start := parse_usize start in
  let* len := parse_usize len in
  if (len =? 0)%Z
  then if (raw_start + 1 <=? U64_MAX)%Z then Ok ((raw_start + 1)%Z, raw_start) else Err OVERFLOW
  else let start_line := Z.max raw_start 1 in
       if (start_line + (len - 1) <=? U64_MAX)%Z then Ok (start_line, (start_line + (len - 1))%Z) else Err OVERFLOW.

Definition starts_with_plus (part : bytes) : bool := bool_decide (head part = Some PLUS).

(** [line.clear(); reader.read_line(&mut line)] refuses a line that is not UTF-8. *)
Fixpoint hunk_lines (lines : list bytes) (max : nat) (prefix : bytes) (target_path : option bytes)
    (ranges : list GitHunkRange) : run (result (list GitHunkRange)) :=
  match lines with
  | [] => Done (Ok ranges)
  | line :: lines =>
    if max <=? length ranges then Done (Ok ranges)
    else if negb (utf8_valid line) then Done (Err IoError)
    else match strip_prefix (lit_bytes "+++ ") line with
         | Some rest =>
           let? path_str := decode_git_quoted_path (trim_line_end rest) in
           let target_path :=
             if bool_decide (path_str = lit_bytes "/dev/null") then None
             else slash_path <$> (strip_prefix (lit_bytes "b/") path_str ≫= strip_prefix prefix) in
           hunk_lines lines max prefix target_path ranges
         | None =>
           match target_path with
           | None => hunk_lines lines max prefix target_path ranges
           | Some path =>
             match strip_prefix (lit_bytes "@@ ") line with
             | None => hunk_lines lines max prefix target_path ranges
             | Some header =>
               match List.find starts_with_plus (split_whitespace header) with
               | None => hunk_lines lines max prefix target_path ranges
               | Some target =>
                 match parse_target (drop 1 target) with
                 | Err e => Done (Err e)
                 | Ok (first, last) => hunk_lines lines max prefix target_path (ranges ++ [mk_hunk path first last])
                 end
               end
             end
           end
         end
  end.
Definition parse_git_diff_hunks (reader : bytes) (max : nat) (prefix : bytes) : run (result (list GitHunkRange)) :=
  hunk_lines (records NL reader) max prefix None [].

(** ** Changed paths *)
Record GitChangedPathSet := mk_paths { paths : list bytes; paths_complete : bool; paths_limit : option nat }.
Definition complete (paths : list bytes) : GitChangedPathSet := mk_paths paths true None.
Definition truncated (paths : list bytes) (limit : nat) : GitChangedPathSet := mk_paths paths false (Some limit).

Definition without_nul (record : bytes) : bytes := default record (strip_last NUL record).

Fixpoint name_records (rs : list bytes) (max : nat) (prefix : bytes) (changed : list bytes) : result GitChangedPathSet :=
  match rs with
  | [] => Ok (complete changed)
  | record :: rs =>
    let record := without_nul record in
    if bool_decide (record = []) then name_records rs max prefix changed
    else if negb (utf8_valid record) then Err (InvalidInput "git diff path" "must be valid UTF-8")
    else match strip_prefix prefix record with
         | None => name_records rs max prefix changed
         | Some path =>
           if length changed =? max then Ok (truncated changed max)
           else name_records rs max prefix (changed ++ [slash_path path])
         end
  end.
Definition parse_diff_names (reader : bytes) (max : nat) (prefix : bytes) : result GitChangedPathSet :=
  if max =? 0 then Ok (truncated [] 0) else name_records (records NUL reader) max prefix [].

(** ** Status *)
Inductive GitWorkingTreeFailure := Unavailable | InvalidPathEncoding | Read | OutputBytes (requested limit : Z).
Inductive GitWorkingTreeChanges := Clean | Modified | Untracked | ModifiedAndUntracked.
Inductive GitWorkingTreeState := StateUnavailable (c : GitWorkingTreeChanges) | StateAvailable (c : GitWorkingTreeChanges).
Record GitWorkingTreeStatus := mk_status {
  changed_paths : list bytes;
  state : GitWorkingTreeState;
  changed_paths_complete : bool;
  changed_paths_limit : option nat;
  failure : option GitWorkingTreeFailure
}.

Definition from_flags (modified untracked : bool) : GitWorkingTreeChanges :=
  match modified, untracked with
  | false, false => Clean
  | true, false => Modified
  | false, true => Untracked
  | true, true => ModifiedAndUntracked
  end.
Definition changes (s : GitWorkingTreeState) : GitWorkingTreeChanges :=
  match s with StateUnavailable c | StateAvailable c => c end.
Definition unavailable (changed : list bytes) (modified untracked : bool) (f : GitWorkingTreeFailure) : GitWorkingTreeStatus :=
  mk_status changed (StateUnavailable (from_flags modified untracked)) false None (Some f).
Definition available (changed : list bytes) (modified untracked complete : bool) (limit : option nat) : GitWorkingTreeStatus :=
  mk_status changed (StateAvailable (from_flags modified untracked)) complete limit None.
Definition is_available (s : GitWorkingTreeStatus) : bool :=
  match state s with StateAvailable _ => true | StateUnavailable _ => false end.
Definition has_modified (s : GitWorkingTreeStatus) : bool :=
  match changes (state s) with Modified | ModifiedAndUntracked => true | _ => false end.
Definition has_untracked (s : GitWorkingTreeStatus) : bool :=
  match changes (state s) with Untracked | ModifiedAndUntracked => true | _ => false end.

Definition require_complete (s : GitWorkingTreeStatus) : result () :=
  match failure s with
  | Some (OutputBytes requested limit) => Err (RequestLimitExceeded "git output bytes" requested limit)
  | Some InvalidPathEncoding => Err (InvalidInput "git status path" "must be valid UTF-8")
  | Some Read => Err (OperationFailure "could not read git status paths")
  | Some Unavailable => Err (InvalidInput "changed paths" "working-tree changed-path discovery is unavailable")
  | None =>
    if negb (changed_paths_complete s)
    then let limit := Z.of_nat (default (length (changed_paths s)) (changed_paths_limit s)) in
         Err (RequestLimitExceeded "git changed paths" (u64_saturating_add limit 1) limit)
    else Ok ()
  end.

Fixpoint status_records (rs : list bytes) (max : nat) (prefix : bytes) (changed : list bytes) (modified untracked : bool)
  : GitWorkingTreeStatus :=
  match rs with
  | [] => available changed modified untracked true None
  | record :: rs =>
    let record := without_nul record in
    if (length record <? 4) || negb (bool_decide (record !! 2 = Some Byte.x20))
    then status_records rs max prefix changed modified untracked
    else
      let status := take 2 record in
      if bool_decide (status = lit_bytes "!!") then status_records rs max prefix changed modified untracked
      else
        let is_untracked := bool_decide (status = lit_bytes "??") in
        let untracked := untracked || is_untracked in
        let modified := modified || negb is_untracked in
        let path := drop 3 record in
        if negb (utf8_valid path) then unavailable [] modified untracked InvalidPathEncoding
        else match strip_prefix prefix path with
             | None => status_records rs max prefix changed modified untracked
             | Some path =>
               let path := slash_path path in
               if (length changed =? max) && negb (bool_decide (path ∈ changed))
               then available changed modified untracked false (Some max)
               else status_records rs max prefix (if bool_decide (path ∈ changed) then changed else changed ++ [path])
                      modified untracked
             end
  end.
Definition parse_git_status_observation (reader : bytes) (max : nat) (prefix : bytes) : GitWorkingTreeStatus :=
  if max =? 0 then available [] false false false (Some 0)
  else status_records (records NUL reader) max prefix [] false false.
