(* ===== verification/GitFormat.v ===== *)
(** * The format of Git's output

    What Git documents about the text that [GitDiff.v] parses, as a printer: names
    quoted like C strings, hunk headers without context, records ended by NUL.
    The lemmas read back its tokens. *)

From S2P Require Import Prelude Text Store Utf8 GitDiff.
Open Scope nat_scope.
Open Scope run_scope.

Definition byte_of (n : N) : Byte.byte := default NUL (Byte.of_N n).

(** ** Names *)

(** The letters of the named escapes. *)
Definition git_letter (b : Byte.byte) : option Byte.byte :=
  match b with
  | Byte.x07 => Some Byte.x61 | Byte.x08 => Some Byte.x62 | Byte.x09 => Some Byte.x74 | Byte.x0a => Some Byte.x6e
  | Byte.x0b => Some Byte.x76 | Byte.x0c => Some Byte.x66 | Byte.x0d => Some Byte.x72
  | Byte.x22 => Some QUOTE | Byte.x5c => Some ESCAPE
  | _ => None
  end.
Definition must_quote (b : Byte.byte) : bool :=
  (Byte.to_N b <? 0x20)%N || (0x7f <=? Byte.to_N b)%N || bool_decide (b = QUOTE) || bool_decide (b = ESCAPE).
Definition octal (b : Byte.byte) : bytes :=
  let n := Byte.to_N b in [byte_of (48 + n / 64); byte_of (48 + (n / 8) mod 8); byte_of (48 + n mod 8)]%N.
Definition git_escape (b : Byte.byte) : bytes :=
  match git_letter b with
  | Some c => [ESCAPE; c]
  | None => if must_quote b then ESCAPE :: octal b else [b]
  end.
Definition git_quote (name : bytes) : bytes :=
  if existsb must_quote name then QUOTE :: concat (git_escape <$> name) ++ [QUOTE] else name.
(** A name with a space is followed by a tab. *)
Definition git_name (name : bytes) : bytes :=
  git_quote name ++ (if bool_decide (Byte.x20 ∈ name) then [Byte.x09] else []).

(** ** Numbers *)
Fixpoint decimal_digits (fuel : nat) (n : Z) : bytes :=
  match fuel with
  | O => []
  | S fuel => (if (n <? 10)%Z then [] else decimal_digits fuel (n / 10)) ++ [byte_of (Z.to_N (48 + n mod 10))]
  end.
(** Twenty digits are enough for 64 bits. *)
Definition decimal (n : Z) : bytes := decimal_digits 20 n.

(** ** Diffs without context lines *)
Record Hunk := {
  old_range : bytes;
  new_start : Z;
  new_length : Z;
  context : bytes;
  body : list bytes
}.
Definition hunk_target (h : Hunk) : bytes :=
  decimal (new_start h) ++ (if (new_length h =? 1)%Z then [] else COMMA :: decimal (new_length h)).
Definition hunk_text (h : Hunk) : list bytes :=
  (lit_bytes "@@ -" ++ old_range h ++ lit_bytes " +" ++ hunk_target h ++ lit_bytes " @@" ++ context h) :: body h.

(** [target] is [None] when the file was deleted. *)
Record FileDiff := { meta : list bytes; target : option bytes; hunks : list Hunk }.
Definition target_text (t : option bytes) : bytes :=
  match t with Some path => git_name (lit_bytes "b/" ++ path) | None => lit_bytes "/dev/null" end.
Definition file_text (d : FileDiff) : list bytes :=
  meta d ++ (lit_bytes "+++ " ++ target_text (target d)) :: concat (hunk_text <$> hunks d).

(** Lines and NUL records. *)
Definition print_records (d : Byte.byte) (rs : list bytes) : bytes := concat ((fun r => r ++ [d]) <$> rs).
Definition print_diff (ds : list FileDiff) : bytes := print_records NL (concat (file_text <$> ds)).

(** ** Reading the tokens back *)
Lemma records_print d rs : Forall (fun r => d ∉ r) rs -> records d (print_records d rs) = (fun r => r ++ [d]) <$> rs.
Proof.
  unfold print_records. induction 1 as [|r rs Hr Hrs IH]; [done|]. rewrite !fmap_cons. cbn [concat]. rewrite <- app_assoc.
  induction r as [|b r IHr]; cbn [app records].
  - rewrite bool_decide_true by done. by f_equal.
  - apply not_elem_of_cons in Hr as [Hb Hr]. rewrite bool_decide_false by congruence. specialize (IHr Hr). cbn [app] in IHr. by rewrite IHr.
Qed.

Lemma strip_bytes_app p s : strip_prefix p (p ++ s) = Some s.
Proof. induction p as [|b p IH]; cbn; [done|]. by rewrite bool_decide_true. Qed.
Lemma strip_bytes_spec p s r : strip_prefix p s = Some r -> s = p ++ r.
Proof.
  revert s. induction p as [|x p IH]; intros s; cbn; [by intros [= ->]|]. destruct s as [|y s]; [done|].
  destruct (bool_decide_reflect (x = y)) as [->|]; [|done]. intros H%IH. by subst.
Qed.
Lemma strip_last_snoc b s : strip_last b (s ++ [b]) = Some s.
Proof. unfold strip_last. rewrite rev_app_distr. cbn. by rewrite bool_decide_true, rev_involutive. Qed.
Lemma strip_last_other b s x : x <> b -> strip_last b (s ++ [x]) = None.
Proof. intros H. unfold strip_last. rewrite rev_app_distr. cbn. by rewrite bool_decide_false. Qed.
Lemma without_nul_snoc r : without_nul (r ++ [NUL]) = r.
Proof. unfold without_nul. by rewrite strip_last_snoc. Qed.
Lemma trim_line_end_snoc s : (forall b, last s = Some b -> is_line_end b = false) -> trim_line_end (s ++ [NL]) = s.
Proof.
  intros H. unfold trim_line_end. destruct s as [|b s _] using rev_ind; [done|].
  rewrite !rev_app_distr. cbn. rewrite (H b) by apply last_snoc. change (rev (rev s) ++ [b] = s ++ [b]). by rewrite rev_involutive.
Qed.

(** [from_utf8_lossy] keeps valid text. *)
Lemma lossy_valid s : utf8_valid s = true -> from_utf8_lossy s = s.
Proof.
  unfold from_utf8_lossy. induction s as [s IH] using (induction_ltof1 _ (@length _)). unfold ltof in IH.
  destruct s as [|b0 r0]; [done|]. cbn [utf8_valid lossy]. unfold char_prefix. destruct (is_ascii b0) eqn:E0.
  { intros Hv. cbn. f_equal. apply IH; [cbn; lia|done]. }
  destruct r0 as [|b1 r1]; [done|]. destruct (between 194 223 b0 && is_cont b1).
  { intros Hv. cbn. do 2 f_equal. apply IH; [cbn; lia|done]. }
  destruct r1 as [|b2 r2]; [done|]. destruct (lead3 b0 b1) eqn:E3; cbn [andb].
  - destruct (is_cont b2) eqn:Ec.
    + intros Hv. cbn. do 3 f_equal. apply IH; [cbn; lia|done].
    + destruct r2 as [|b3 r3]; [done|]. by rewrite andb_false_r.
  - destruct r2 as [|b3 r3]; [done|]. rewrite !andb_true_iff. intros [[[-> ->] ->] Hv]. cbn. do 4 f_equal.
    apply IH; [cbn; lia|done].
Qed.

(** ** Names *)

(** The escapes the parser knows. *)
Definition decodable (b : Byte.byte) : bool :=
  negb (bool_decide (b = Byte.x07)) && negb (bool_decide (b = Byte.x08)) && negb (bool_decide (b = Byte.x0b))
  && negb (bool_decide (b = Byte.x0c)).

(** What it makes of one byte of a quoted name: the other escapes stay as they are. *)
Definition decode_as (b : Byte.byte) : bytes := if decodable b then [b] else git_escape b.

Lemma git_escape_cases b :
  (exists c, git_escape b = [ESCAPE; c] /\ escaped c = Some b /\ decode_as b = [b]) \/
  (exists d1 d2 d3, git_escape b = [ESCAPE; d1; d2; d3] /\ escaped d1 = None /\ between 48 55 d1 = true /\
    octal_digits 0 [d1; d2; d3] ≫= Byte.of_N = Some b /\ decode_as b = [b]) \/
  (git_escape b = [b] /\ b <> ESCAPE /\ decode_as b = [b]) \/
  (exists c, git_escape b = [ESCAPE; c] /\ escaped c = None /\ between 48 55 c = false /\ decode_as b = [ESCAPE; c]).
Proof.
  destruct b;
    first [by left; eexists|by right; left; do 3 eexists; split; [reflexivity|]|by right; right; left
          |by right; right; right; eexists].
Qed.
Lemma decode_as_exact name : Forall (fun b => decodable b = true) name -> concat (decode_as <$> name) = name.
Proof.
  induction 1 as [|b name Hb _ IH]; [done|]. rewrite fmap_cons. cbn [concat]. unfold decode_as at 1. by rewrite Hb, IH.
Qed.
Lemma decode_as_unquoted name : existsb must_quote name = false -> concat (decode_as <$> name) = name.
Proof.
  intros Hq. apply decode_as_exact. apply Forall_forall. intros b Hb.
  destruct (decodable b) eqn:Hd; [done|]. exfalso. enough (existsb must_quote name = true) by congruence.
  apply existsb_exists. exists b. split; [by apply list_elem_of_In|by destruct b].
Qed.
Lemma decode_as_high b : is_ascii b = false -> decode_as b = [b].
Proof. by destruct b. Qed.
Lemma decode_as_low b : is_ascii b = true -> utf8_valid (decode_as b) = true.
Proof. by destruct b. Qed.
Lemma between_high lo hi b : (128 <= lo)%N -> between lo hi b = true -> is_ascii b = false.
Proof.
  intros Hlo H. unfold is_ascii, between in *. rewrite andb_true_iff, !N.leb_le in H. apply andb_false_iff. right. apply N.leb_gt. lia.
Qed.
Lemma second_high b0 b1 : lead3 b0 b1 || lead4 b0 b1 = true -> is_ascii b1 = false.
Proof.
  unfold lead3, lead4, is_cont. rewrite !orb_true_iff, !andb_true_iff.
  intros H. repeat destruct H as [H|H]; destruct H as [_ H]; (eapply between_high; [|exact H]); lia.
Qed.
(** Valid text stays valid. *)
Lemma decode_as_valid name : utf8_valid name = true -> utf8_valid (concat (decode_as <$> name)) = true.
Proof.
  assert (forall b, is_cont b = true -> is_ascii b = false) as Hcont by by destruct b.
  induction name as [name IH] using (induction_ltof1 _ (@length _)). unfold ltof in IH.
  destruct name as [|b0 r0]; [done|]. cbn [utf8_valid]. rewrite fmap_cons. cbn [concat]. destruct (is_ascii b0) eqn:E0.
  { intros Hv. apply utf8_valid_app; [by apply decode_as_low|]. apply IH; [cbn; lia|done]. }
  rewrite (decode_as_high b0) by done. destruct r0 as [|b1 r1]; [done|]. rewrite fmap_cons. cbn [concat].
  destruct (between 194 223 b0 && is_cont b1) eqn:E2.
  { intros Hv. pose proof E2 as [_ H1]%andb_true_iff. rewrite (decode_as_high b1) by by apply Hcont.
    cbn [app utf8_valid]. rewrite E0, E2. apply IH; [cbn; lia|done]. }
  destruct r1 as [|b2 r2]; [done|]. rewrite fmap_cons. cbn [concat]. destruct (lead3 b0 b1 && is_cont b2) eqn:E3.
  { intros Hv. pose proof E3 as [H1 H2]%andb_true_iff.
    rewrite (decode_as_high b1), (decode_as_high b2) by by first [by apply Hcont|apply (second_high b0); by rewrite H1].
    cbn [app utf8_valid]. rewrite E0, E2, E3. apply IH; [cbn; lia|done]. }
  destruct r2 as [|b3 r3]; [done|]. rewrite fmap_cons. cbn [concat]. intros [[[H1 H1']%andb_true_iff H3]%andb_true_iff Hv]%andb_true_iff.
  rewrite (decode_as_high b1), (decode_as_high b2), (decode_as_high b3)
    by first [by apply Hcont|apply (second_high b0); by rewrite H1, orb_true_r].
  cbn [app utf8_valid]. rewrite E0, E2, E3, H1, H1', H3. apply IH; [cbn; lia|done].
Qed.
Lemma git_escape_ascii b : Forall (fun x => is_ascii x = true) (git_escape b).
Proof. destruct b; repeat constructor. Qed.
Lemma ascii_text_boundary s i : Forall (fun x => is_ascii x = true) s -> i <= length s -> is_char_boundary s i = true.
Proof.
  intros Ha Hi. unfold is_char_boundary. destruct (Nat.eqb_spec i 0); [done|].
  destruct (s !! i) as [b|] eqn:Eb.
  - rewrite (ascii_not_cont b); [done|]. rewrite Forall_forall in Ha. apply Ha. by eapply list_elem_of_lookup_2.
  - apply lookup_ge_None in Eb. apply Nat.eqb_eq. lia.
Qed.

Lemma decode_loop_spec name : forall pre result fuel,
  let inner := pre ++ concat (git_escape <$> name) in
  Forall (fun x => is_ascii x = true) pre -> length (concat (git_escape <$> name)) < fuel ->
  decode_loop fuel inner (length pre) result = Done (result ++ concat (decode_as <$> name)).
Proof.
  induction name as [|b name IH]; intros pre result fuel inner Hpre Hf; subst inner.
  { destruct fuel as [|fuel]; [cbn in Hf; lia|]. cbn [fmap list_fmap concat decode_loop].
    rewrite !app_nil_r, lookup_ge_None_2 by done. done. }
  rewrite !fmap_cons in *. cbn [concat] in *. rewrite length_app in Hf. destruct fuel as [|fuel]; [lia|].
  assert (forall e, git_escape b = e -> e <> [] -> Forall (fun x => is_ascii x = true) (pre ++ e) /\
    forall r, length e <= fuel + 1 ->
    decode_loop fuel (pre ++ e ++ concat (git_escape <$> name)) (length pre + length e) (result ++ r) =
      Done (result ++ r ++ concat (decode_as <$> name))) as Hstep.
  { intros e He Hne. assert (Forall (fun x => is_ascii x = true) (pre ++ e)) as Ha.
    { apply Forall_app. split; [done|]. subst. apply git_escape_ascii. }
    split; [done|]. intros r Hle. rewrite app_assoc, <- length_app, (IH (pre ++ e) (result ++ r) fuel Ha), <- app_assoc; [done|].
    rewrite He in Hf. destruct e; [done|]. cbn in Hf. lia. }
  assert (forall e k, git_escape b = e -> k < length e ->
    (pre ++ e ++ concat (git_escape <$> name)) !! (length pre + k) = e !! k) as Hat.
  { intros e k He Hk. rewrite lookup_app_r by lia. rewrite lookup_app_l by lia. f_equal. lia. }
  cbn [decode_loop].
  destruct (git_escape_cases b) as
    [(c & He & Hc & ->)|[(d1 & d2 & d3 & He & Hn & Hd & Ho & ->)|[(He & Hne & ->)|(c & He & Hc & Hn & ->)]]];
    destruct (Hstep _ He ltac:(done)) as [Ha Hs]; pose proof (fun k => Hat _ k He) as Hk; rewrite He in *; cbn [length] in *.
  - pose proof (Hk 0 ltac:(lia)) as H0. rewrite Nat.add_0_r in H0. rewrite H0, (Hk 1) by lia. cbn [lookup list_lookup].
    rewrite bool_decide_true by done. rewrite Hc. by rewrite (Hs [b]) by lia.
  - pose proof (Hk 0 ltac:(lia)) as H0. rewrite Nat.add_0_r in H0. rewrite H0, (Hk 1) by lia. cbn [lookup list_lookup].
    rewrite bool_decide_true by done. rewrite Hn, Hd. set (inner := pre ++ [ESCAPE; d1; d2; d3] ++ concat (git_escape <$> name)) in *.
    assert (length pre + 4 <= length inner) as Hlen by (subst inner; rewrite !length_app; cbn; lia).
    assert ((length pre + 3 <? length inner) = true) as -> by (apply Nat.ltb_lt; lia). cbn [andb].
    assert (Forall (fun x => is_ascii x = true) inner) as Hin.
    { subst inner. rewrite app_assoc. apply Forall_app. split; [done|]. apply Forall_concat, Forall_fmap, Forall_forall.
      intros x _. apply git_escape_ascii. }
    rewrite str_slice_done; [|lia|by apply ascii_text_boundary; [|lia]|by apply ascii_text_boundary; [|lia]]. cbn [run_bind].
    replace (length pre + 4 - (length pre + 1)) with 3 by lia.
    assert (take 3 (drop (length pre + 1) inner) = [d1; d2; d3]) as ->.
    { subst inner. rewrite drop_app_ge by lia. by replace (length pre + 1 - length pre) with 1 by lia. }
    rewrite Ho. by rewrite (Hs [b]) by lia.
  - pose proof (Hk 0 ltac:(lia)) as H0. rewrite Nat.add_0_r in H0. rewrite H0. cbn [lookup list_lookup].
    rewrite (bool_decide_false (b = ESCAPE)) by done.
    destruct (_ !! (length pre + 1)); by rewrite (Hs [b]) by lia.
  - pose proof (Hk 0 ltac:(lia)) as H0. rewrite Nat.add_0_r in H0. rewrite H0, (Hk 1) by lia. cbn [lookup list_lookup].
    rewrite bool_decide_true by done. rewrite Hc, Hn. cbn [andb]. by rewrite (Hs [ESCAPE; c]) by lia.
Qed.

Lemma existsb_forall {A} (f : A -> bool) l : existsb f l = false -> Forall (fun x => f x = false) l.
Proof. induction l as [|x l IH]; cbn; [constructor|]. intros [? ?]%orb_false_iff. constructor; [done|by apply IH]. Qed.

Lemma decode_quoted name : utf8_valid name = true ->
  decode_git_quoted_path (git_quote name) = Done (concat (decode_as <$> name)).
Proof.
  intros Hv. unfold decode_git_quoted_path, git_quote. destruct (existsb must_quote name) eqn:Eq.
  - cbn [strip_prefix app]. rewrite bool_decide_true by done. cbn [mbind option_bind]. rewrite strip_last_snoc.
    rewrite (decode_loop_spec name [] []) by (done || constructor || lia). cbn [run_bind app].
    by rewrite lossy_valid by by apply decode_as_valid.
  - rewrite decode_as_unquoted by done. apply existsb_forall in Eq. destruct name as [|b name]; [done|].
    inversion_clear Eq. cbn [strip_prefix]. destruct (bool_decide_reflect (QUOTE = b)) as [<-|]; [done|]. done.
Qed.
(** A quoted name that is followed by something is not seen to be quoted. *)
Lemma decode_followed name b : b <> QUOTE -> decode_git_quoted_path (git_quote name ++ [b]) = Done (git_quote name ++ [b]).
Proof.
  intros Hb. unfold decode_git_quoted_path. destruct (strip_prefix [QUOTE] (git_quote name ++ [b])) as [r|] eqn:Es; [|done].
  apply strip_bytes_spec in Es. cbn [mbind option_bind]. destruct r as [|x r _] using rev_ind.
  { exfalso. destruct (git_quote name) as [|y l]; cbn in Es; [by injection Es|]. injection Es as _ Es. by destruct l. }
  rewrite app_assoc in Es. apply app_inj_tail in Es as [_ <-]. by rewrite strip_last_other by done.
Qed.

(** ** Numbers *)
Lemma usize_digits_app s : forall acc t,
  usize_digits acc (s ++ t) = (let* v := usize_digits acc s in usize_digits v t).
Proof.
  induction s as [|b s IH]; intros acc t; [done|]. cbn [app usize_digits]. destruct (digit b); [|done].
  destruct (_ <=? _)%Z; [apply IH|done].
Qed.
Lemma digit_byte_of d : (0 <= d < 10)%Z -> digit (byte_of (Z.to_N (48 + d))) = Some d.
Proof.
  intros Hd. assert (d = 0 \/ d = 1 \/ d = 2 \/ d = 3 \/ d = 4 \/ d = 5 \/ d = 6 \/ d = 7 \/ d = 8 \/ d = 9)%Z as H by lia.
  destruct H as [->|[->|[->|[->|[->|[->|[->|[->|[->| ->]]]]]]]]]; reflexivity.
Qed.
Definition is_digit (b : Byte.byte) : Prop := exists d, digit b = Some d.
Lemma decimal_digits_spec fuel : forall n, (0 <= n <= U64_MAX)%Z -> (n < 10 ^ Z.of_nat fuel)%Z -> 0 < fuel ->
  usize_digits 0 (decimal_digits fuel n) = Ok n /\ decimal_digits fuel n <> [] /\ Forall is_digit (decimal_digits fuel n).
Proof.
  induction fuel as [|fuel IH]; intros n Hn Hf Hpos; [lia|]. cbn [decimal_digits].
  assert (digit (byte_of (Z.to_N (48 + n mod 10))) = Some (n mod 10)%Z) as Hd by (apply digit_byte_of, Z.mod_pos_bound; lia).
  split; [|split; [intros Hnil; by apply app_nil in Hnil as [_ ?]|]].
  2: { apply Forall_app. split; [|repeat constructor; by eexists]. destruct (Z.ltb_spec n 10); [constructor|].
       apply IH; [|rewrite Nat2Z.inj_succ, Z.pow_succ_r in Hf by lia; apply Z.div_lt_upper_bound; lia|].
       - split; [apply Z.div_pos; lia|]. apply Z.div_le_upper_bound; unfold U64_MAX in *; lia.
       - destruct fuel; [cbn in Hf; lia|lia]. }
  rewrite usize_digits_app. cbn [usize_digits]. rewrite Hd. destruct (Z.ltb_spec n 10) as [Hlt|Hge].
  - cbn [usize_digits result_bind]. rewrite Z.mod_small by lia. rewrite Z.mul_0_l, Z.add_0_l.
    by rewrite (proj2 (Z.leb_le _ _)) by lia.
  - destruct (IH (n / 10)%Z) as [-> _].
    + split; [apply Z.div_pos; lia|]. apply Z.div_le_upper_bound; unfold U64_MAX in *; lia.
    + rewrite Nat2Z.inj_succ, Z.pow_succ_r in Hf by lia. apply Z.div_lt_upper_bound; lia.
    + destruct fuel; [cbn in Hf; lia|lia].
    + cbn [result_bind]. replace (n / 10 * 10 + n mod 10)%Z with n by (pose proof (Z.div_mod n 10); lia).
      by rewrite (proj2 (Z.leb_le _ _)) by lia.
Qed.
Lemma decimal_spec n : (0 <= n <= U64_MAX)%Z ->
  parse_usize (decimal n) = Ok n /\ decimal n <> [] /\ Forall is_digit (decimal n).
Proof.
  intros Hn. destruct (decimal_digits_spec 20 n Hn) as (H1 & H2 & H3); [unfold U64_MAX in Hn; cbn; lia|lia|].
  split; [|done]. fold (decimal n) in *. unfold parse_usize. destruct (decimal n) as [|b s]; [done|].
  inversion_clear H3 as [|? ? [d Hd] _]. destruct (bool_decide_reflect (b = PLUS)) as [->|]; done.
Qed.
Lemma digit_plain b : is_digit b -> b <> COMMA /\ is_ascii b = true /\ ws1 b = false.
Proof. intros [d Hd]. destruct b; try done. Qed.

Lemma position_absent b s : b ∉ s -> position b s = None.
Proof.
  induction s as [|x s IH]; [done|]. intros [Hb Hs]%not_elem_of_cons. cbn. rewrite bool_decide_false by congruence. by rewrite IH.
Qed.
Lemma position_first b s t : b ∉ s -> position b (s ++ b :: t) = Some (length s).
Proof.
  induction s as [|x s IH]; cbn; [by rewrite bool_decide_true|]. intros [Hb Hs]%not_elem_of_cons.
  rewrite bool_decide_false by congruence. by rewrite IH.
Qed.
Lemma split_once_absent d s : d ∉ s -> split_once d s = None.
Proof. intros H. unfold split_once. by rewrite position_absent. Qed.
Lemma split_once_first d s t : d ∉ s -> split_once d (s ++ d :: t) = Some (s, t).
Proof.
  intros H. unfold split_once. rewrite position_first by done. cbn. rewrite take_app_length. do 2 f_equal.
  change (d :: t) with ([d] ++ t). rewrite app_assoc. apply drop_app_length'. rewrite length_app. cbn. lia.
Qed.

(** The range of target lines a hunk is reported with. *)
Definition hunk_range (h : Hunk) : Z * Z :=
  if (new_length h =? 0)%Z then ((new_start h + 1)%Z, new_start h)
  else (Z.max (new_start h) 1, (Z.max (new_start h) 1 + (new_length h - 1))%Z).
Definition hunk_bounded (h : Hunk) : Prop := (0 <= new_start h /\ 0 <= new_length h /\ new_start h + new_length h < U64_MAX)%Z.

Lemma parse_target_spec h : hunk_bounded h -> parse_target (hunk_target h) = Ok (hunk_range h).
Proof.
  intros (Hs & Hl & Hb). destruct (decimal_spec (new_start h)) as (Ps & _ & Ds); [lia|].
  assert (COMMA ∉ decimal (new_start h)) as Hc.
  { intros Hin. rewrite Forall_forall in Ds. by destruct (digit_plain _ (Ds _ Hin)). }
  unfold parse_target, hunk_target, hunk_range. destruct (Z.eqb_spec (new_length h) 1) as [He|Hne].
  - rewrite app_nil_r, split_once_absent by done. rewrite Ps. cbn [result_bind]. change (parse_usize _) with (Ok 1%Z).
    cbn [result_bind]. rewrite He. cbn [Z.eqb]. rewrite (proj2 (Z.leb_le _ _)) by lia. done.
  - destruct (decimal_spec (new_length h)) as (Pl & _); [lia|]. rewrite split_once_first by done. rewrite Ps. cbn [result_bind].
    rewrite Pl. cbn [result_bind]. destruct (Z.eqb_spec (new_length h) 0); by rewrite (proj2 (Z.leb_le _ _)) by lia.
Qed.

(** ** Words *)
Definition plain (b : Byte.byte) : Prop := is_ascii b = true /\ ws1 b = false.
Lemma ws_at_plain b s : plain b -> ws_at (b :: s) = 0.
Proof.
  intros [Ha Hw]. cbn [ws_at]. rewrite Hw. destruct s as [|b1 s]; [done|].
  assert (ws2 b b1 = false /\ forall b2, ws3 b b1 b2 = false) as [-> H3] by by destruct b.
  destruct s as [|b2 s]; [done|]. by rewrite H3.
Qed.
Lemma words_word w rest : Forall plain w -> forall word,
  words (w ++ Byte.x20 :: rest) 0 word = flush (word ++ w) ++ words rest 0 [].
Proof.
  induction 1 as [|b w Hb Hw IH]; intros word; [by rewrite app_nil_r|]. cbn [app words].
  rewrite (ws_at_plain b) by done. by rewrite IH, <- app_assoc.
Qed.
Lemma split_header old target rest : Forall plain old -> Forall plain target -> target <> [] ->
  List.find starts_with_plus (split_whitespace (lit_bytes "-" ++ old ++ lit_bytes " +" ++ target ++ Byte.x20 :: rest)) =
  Some (PLUS :: target).
Proof.
  intros Ho Ht Hne. unfold split_whitespace.
  change (lit_bytes "-" ++ old ++ lit_bytes " +" ++ target ++ Byte.x20 :: rest)
    with ((Byte.x2d :: old) ++ Byte.x20 :: (PLUS :: target) ++ Byte.x20 :: rest).
  rewrite words_word by by constructor. rewrite words_word by by constructor. done.
Qed.
