(* ===== verification/GitParse.v ===== *)
(** * Reading back what Git prints

    The parsers of [GitDiff.v] on the text of [GitFormat.v]: the hunks of a diff,
    the names of changed paths and the state of the working tree are those that were
    printed, up to the caller's bound; and the texts that are misread. *)

From S2P Require Import Prelude Text Store Utf8 GitDiff GitFormat.
Open Scope nat_scope.
Open Scope run_scope.

(** ** Hunks *)

(** A byte is not in a literal. *)
Ltac not_in_literal := match goal with |- ?b ∉ ?s => by apply (bool_decide_eq_false (b ∈ s)) end.

(** A line that the parser passes over. *)
Definition quiet (l : bytes) : Prop :=
  utf8_valid l = true /\ NL ∉ l /\ strip_prefix (lit_bytes "+++ ") l = None /\ strip_prefix (lit_bytes "@@ ") l = None.
Definition hunk_ok (h : Hunk) : Prop :=
  hunk_bounded h /\ Forall plain (old_range h) /\ utf8_valid (context h) = true /\ NL ∉ context h /\ Forall quiet (body h).
Definition file_ok (d : FileDiff) : Prop :=
  Forall quiet (meta d) /\ Forall hunk_ok (hunks d) /\
  match target d with Some path => utf8_valid path = true | None => True end.

(** What the parser takes the printed name of a file for: a name with a space keeps the
    tab that Git prints after it, or is not read at all when it is quoted; in a quoted name
    the escapes that the parser does not know stay. *)
Definition read_name (path : bytes) : option bytes :=
  if bool_decide (Byte.x20 ∈ path)
  then if existsb must_quote path then None else Some (path ++ [Byte.x09])
  else Some (concat (decode_as <$> path)).
(** The names that are read as they are. *)
Definition name_ok (path : bytes) : Prop := Forall (fun b => decodable b = true) path /\ Byte.x20 ∉ path.

Definition file_target (prefix : bytes) (d : FileDiff) : option bytes :=
  path ← target d; name ← read_name path; slash_path <$> strip_prefix prefix name.
Definition hunk_entry (path : bytes) (h : Hunk) : GitHunkRange := mk_hunk path (hunk_range h).1 (hunk_range h).2.
(** The ranges of the hunks of a file below [prefix]. *)
Definition file_ranges (prefix : bytes) (d : FileDiff) : list GitHunkRange :=
  match file_target prefix d with Some path => hunk_entry path <$> hunks d | None => [] end.

Section Hunks.
Variables (max : nat) (prefix : bytes).

Lemma hunk_lines_full lines tp ranges : max <= length ranges ->
  hunk_lines lines max prefix tp ranges = Done (Ok ranges).
Proof. intros H. destruct lines as [|l lines]; cbn [hunk_lines]; [done|]. by rewrite (proj2 (Nat.leb_le _ _)). Qed.

Lemma strip_prefix_snoc p l b : b ∉ p -> strip_prefix p (l ++ [b]) = (fun r => r ++ [b]) <$> strip_prefix p l.
Proof.
  revert l. induction p as [|x p IH]; intros l; [done|]. intros [Hb Hp]%not_elem_of_cons.
  destruct l as [|y l]; cbn; [by rewrite bool_decide_false by congruence|]. destruct (bool_decide _); [by apply IH|done].
Qed.
Lemma strip_none p l : NL ∉ p -> strip_prefix p l = None -> strip_prefix p (l ++ [NL]) = None.
Proof. intros Hp Hl. by rewrite strip_prefix_snoc, Hl. Qed.
Lemma valid_line l : utf8_valid l = true -> utf8_valid (l ++ [NL]) = true.
Proof. intros H. by apply utf8_valid_app. Qed.

(** Reading [lines] from a state of the loop leads to another, or the bound is reached. *)
Definition reads (lines : list bytes) (tp tp' : option bytes) (new : list GitHunkRange) : Prop :=
  forall ranges rest, length ranges <= max ->
    hunk_lines (((fun r => r ++ [NL]) <$> lines) ++ rest) max prefix tp ranges =
    hunk_lines rest max prefix tp' (take max (ranges ++ new)).

Lemma reads_nil tp : reads [] tp tp [].
Proof. intros ranges rest H. by rewrite app_nil_r, take_ge. Qed.
Lemma reads_app l1 l2 tp tp' tp'' n1 n2 : reads l1 tp tp' n1 -> reads l2 tp' tp'' n2 -> reads (l1 ++ l2) tp tp'' (n1 ++ n2).
Proof.
  intros H1 H2 ranges rest H. rewrite fmap_app, <- app_assoc, H1, H2 by (done || rewrite length_take; lia).
  f_equal. rewrite (app_assoc ranges). rewrite (take_app (take max _)), take_take, Nat.min_id, length_take.
  rewrite (take_app (ranges ++ n1)). f_equal. f_equal. lia.
Qed.
(** One line: what happens when the bound is not reached. *)
Lemma reads_line l tp tp' new : length new <= 1 ->
  (forall ranges rest, length ranges < max -> hunk_lines ((l ++ [NL]) :: rest) max prefix tp ranges =
    hunk_lines rest max prefix tp' (ranges ++ new)) -> reads [l] tp tp' new.
Proof.
  intros Hn H ranges rest Hr. cbn [fmap list_fmap app]. destruct (decide (length ranges = max)) as [He|Hne].
  - rewrite !hunk_lines_full by (rewrite ?length_take, ?length_app; lia). by rewrite <- He, take_app_length.
  - rewrite H by lia. by rewrite (take_ge (ranges ++ new)) by (rewrite length_app; lia).
Qed.
Lemma reads_quiet l tp : quiet l -> reads [l] tp tp [].
Proof.
  intros (Hv & _ & Hp & Hh). apply reads_line; [cbn; lia|]. intros ranges rest Hr. cbn [hunk_lines]. rewrite app_nil_r.
  rewrite (proj2 (Nat.leb_gt _ _)) by done. rewrite valid_line by done. cbn [negb].
  rewrite (strip_none (lit_bytes "+++ ")), (strip_none (lit_bytes "@@ ")) by
    (done || not_in_literal). by destruct tp.
Qed.
Lemma reads_quiets ls tp : Forall quiet ls -> reads ls tp tp [].
Proof.
  induction 1 as [|l ls Hl _ IH]; [apply reads_nil|]. exact (reads_app [l] ls _ _ _ [] [] (reads_quiet l tp Hl) IH).
Qed.

Lemma quoted_no_nl name : NL ∉ git_quote name.
Proof.
  unfold git_quote. destruct (existsb must_quote name) eqn:Eq.
  - intros [Hq|[Hin|Hq]%elem_of_app]%elem_of_cons; [done| |by apply list_elem_of_singleton in Hq].
    apply list_elem_of_In, in_concat in Hin as (e & He & Hin). apply list_elem_of_In, list_elem_of_fmap in He as (b & -> & _).
    apply list_elem_of_In in Hin. revert Hin. apply (bool_decide_eq_false (NL ∈ git_escape b)). by destruct b.
  - intros Hin. apply existsb_forall in Eq. rewrite Forall_forall in Eq. by specialize (Eq _ Hin).
Qed.
Lemma quoted_last name b : last (git_quote name) = Some b -> is_line_end b = false.
Proof.
  unfold git_quote. destruct (existsb must_quote name) eqn:Eq.
  - rewrite last_cons, last_snoc. by intros [= <-].
  - intros Hl. apply existsb_forall in Eq. rewrite Forall_forall in Eq.
    assert (b ∈ name) as Hin by (apply last_Some in Hl as [l ->]; apply elem_of_app; right; by left).
    specialize (Eq _ Hin). by destruct b.
Qed.
Lemma quoted_valid name : utf8_valid name = true -> utf8_valid (git_quote name) = true.
Proof.
  unfold git_quote. destruct (existsb must_quote name); [|done]. intros _.
  apply (utf8_valid_app [QUOTE]); [done|]. apply utf8_valid_app; [|done].
  induction name as [|b name IH]; [done|]. rewrite fmap_cons. cbn [concat]. apply utf8_valid_app; [by destruct b|done].
Qed.

Lemma name_last name b : last (git_name name) = Some b -> is_line_end b = false.
Proof.
  unfold git_name. destruct (bool_decide _); [|rewrite app_nil_r; apply quoted_last]. rewrite last_snoc. by intros [= <-].
Qed.
Lemma name_valid name : utf8_valid name = true -> utf8_valid (git_name name) = true.
Proof. intros Hv. unfold git_name. apply utf8_valid_app; [by apply quoted_valid|by destruct (bool_decide _)]. Qed.

(** What is decoded from the line of a name, and that it is not that of a deleted file. *)
Lemma decode_name path : utf8_valid path = true -> exists raw,
  decode_git_quoted_path (git_name (lit_bytes "b/" ++ path)) = Done raw /\
  strip_prefix (lit_bytes "b/") raw = read_name path /\ raw <> lit_bytes "/dev/null".
Proof.
  intros Hv. assert (utf8_valid (lit_bytes "b/" ++ path) = true) as Hvp by by apply utf8_valid_app.
  assert (existsb must_quote (lit_bytes "b/" ++ path) = existsb must_quote path) as Hq by done.
  assert (bool_decide (Byte.x20 ∈ lit_bytes "b/" ++ path) = bool_decide (Byte.x20 ∈ path)) as Hs.
  { apply bool_decide_ext. rewrite elem_of_app. split; [|by right]. intros [H|]; [|done].
    by apply (bool_decide_eq_false (Byte.x20 ∈ lit_bytes "b/")) in H. }
  unfold git_name, read_name. rewrite Hs. destruct (bool_decide (Byte.x20 ∈ path)).
  - rewrite decode_followed by done. eexists. split; [done|]. unfold git_quote. rewrite Hq.
    destruct (existsb must_quote path); [done|]. by rewrite <- app_assoc, strip_bytes_app.
  - rewrite app_nil_r, decode_quoted by done. eexists. split; [done|]. rewrite fmap_app, concat_app.
    change (concat (decode_as <$> lit_bytes "b/")) with (lit_bytes "b/"). by rewrite strip_bytes_app.
Qed.
Lemma read_name_exact path : name_ok path -> read_name path = Some path.
Proof.
  intros [Hd Hs]. unfold read_name. by rewrite bool_decide_false, decode_as_exact by done.
Qed.

(** The line that names the target. *)
Lemma reads_target d tp : file_ok d -> reads [lit_bytes "+++ " ++ target_text (target d)] tp (file_target prefix d) [].
Proof.
  intros (_ & _ & Ht). apply reads_line; [cbn; lia|]. intros ranges rest Hr. cbn [hunk_lines].
  rewrite (proj2 (Nat.leb_gt _ _)) by done. rewrite app_nil_r. unfold file_target. destruct (target d) as [path|].
  - assert (utf8_valid (lit_bytes "b/" ++ path) = true) as Hvp by by apply utf8_valid_app.
    unfold target_text. rewrite valid_line by (apply utf8_valid_app; [done|by apply name_valid]). cbn [negb].
    rewrite <- app_assoc, strip_bytes_app, trim_line_end_snoc by apply name_last.
    destruct (decode_name path Ht) as (raw & -> & Hraw & Hnull). cbn [run_bind].
    rewrite bool_decide_false by done. cbn [mbind option_bind]. rewrite Hraw. by destruct (read_name path).
  - rewrite valid_line by done. cbn [negb]. by rewrite <- app_assoc, strip_bytes_app.
Qed.

Definition header (h : Hunk) : bytes :=
  lit_bytes "@@ -" ++ old_range h ++ lit_bytes " +" ++ hunk_target h ++ lit_bytes " @@" ++ context h.
Lemma target_plain h : hunk_bounded h -> Forall plain (hunk_target h) /\ hunk_target h <> [].
Proof.
  intros (Hs & Hl & Hb). destruct (decimal_spec (new_start h)) as (_ & Hne & Hds); [lia|].
  destruct (decimal_spec (new_length h)) as (_ & _ & Hdl); [lia|]. unfold hunk_target.
  assert (forall s, Forall is_digit s -> Forall plain s) as Hplain
    by (intros s Hd; eapply Forall_impl; [done|]; by intros b (_ & ? & ?)%digit_plain).
  split; [|by destruct (decimal (new_start h))]. apply Forall_app. split; [by apply Hplain|].
  destruct (_ =? _)%Z; [constructor|]. constructor; [done|by apply Hplain].
Qed.
Lemma header_valid h : hunk_ok h -> utf8_valid (header h) = true.
Proof.
  intros (Hb & Ho & Hc & _ & _). assert (forall s, Forall plain s -> utf8_valid s = true) as Hv.
  { induction 1 as [|b s [Hb' _] _ IH]; [done|]. cbn [utf8_valid]. by rewrite Hb'. }
  unfold header. apply utf8_valid_app; [done|]. apply utf8_valid_app; [by apply Hv|].
  apply utf8_valid_app; [done|]. apply utf8_valid_app; [by apply Hv, target_plain|]. by apply utf8_valid_app.
Qed.

Lemma reads_header path h : hunk_ok h -> reads [header h] (Some path) (Some path) [hunk_entry path h].
Proof.
  intros Hh. pose proof Hh as (Hb & Ho & _). apply reads_line; [cbn; lia|]. intros ranges rest Hr. cbn [hunk_lines].
  rewrite (proj2 (Nat.leb_gt _ _)) by done. destruct (target_plain h Hb) as [Hp Hne].
  rewrite valid_line by by apply header_valid. cbn [negb]. unfold header. rewrite <- !app_assoc.
  change (strip_prefix (lit_bytes "+++ ") _) with (@None bytes).
  change (lit_bytes "@@ -") with (lit_bytes "@@ " ++ lit_bytes "-"). rewrite <- app_assoc, strip_bytes_app.
  change (lit_bytes " @@" ++ context h ++ [NL]) with (Byte.x20 :: lit_bytes "@@" ++ context h ++ [NL]).
  rewrite split_header by done. change (drop 1 (PLUS :: hunk_target h)) with (hunk_target h). rewrite parse_target_spec by done. unfold hunk_entry. by destruct (hunk_range h).
Qed.
Lemma reads_hunks path hs : Forall hunk_ok hs ->
  reads (concat (hunk_text <$> hs)) (Some path) (Some path) (hunk_entry path <$> hs).
Proof.
  induction 1 as [|h hs Hh _ IH]; [apply reads_nil|]. rewrite !fmap_cons. cbn [concat].
  apply (reads_app (hunk_text h) _ _ (Some path) _ [hunk_entry path h]); [|done]. unfold hunk_text.
  apply (reads_app [_] (body h) _ (Some path) _ [_] []); [by apply reads_header|apply reads_quiets, Hh].
Qed.
(** Without a target nothing is reported. *)
Lemma reads_hunks_none hs : Forall hunk_ok hs -> reads (concat (hunk_text <$> hs)) None None [].
Proof.
  induction 1 as [|h hs Hh _ IH]; [apply reads_nil|]. rewrite fmap_cons. cbn [concat].
  apply (reads_app (hunk_text h) _ _ None _ [] []); [|done]. unfold hunk_text.
  apply (reads_app [_] (body h) _ None _ [] []); [|apply reads_quiets, Hh].
  change (reads [header h] None None []). apply reads_line; [cbn; lia|]. intros ranges rest Hr. cbn [hunk_lines]. rewrite app_nil_r.
  rewrite (proj2 (Nat.leb_gt _ _)) by done. rewrite (valid_line (header h)) by by apply header_valid. done.
Qed.

Lemma reads_file d tp : file_ok d -> reads (file_text d) tp (file_target prefix d) (file_ranges prefix d).
Proof.
  intros Hd. pose proof Hd as (Hm & Hh & _). unfold file_text.
  apply (reads_app (meta d) _ _ tp _ [] (file_ranges prefix d)); [by apply reads_quiets|].
  apply (reads_app [_] _ _ (file_target prefix d) _ [] (file_ranges prefix d)); [by apply reads_target|].
  unfold file_ranges. destruct (file_target prefix d) as [path|]; [by apply reads_hunks|by apply reads_hunks_none].
Qed.
Lemma reads_files ds tp : Forall file_ok ds ->
  exists tp', reads (concat (file_text <$> ds)) tp tp' (concat (file_ranges prefix <$> ds)).
Proof.
  intros Hds. revert tp. induction Hds as [|d ds Hd _ IH]; intros tp; [exists tp; apply reads_nil|].
  destruct (IH (file_target prefix d)) as [tp' H]. exists tp'. rewrite !fmap_cons. cbn [concat].
  eapply reads_app; [by apply reads_file|done].
Qed.

Lemma file_no_nl d : file_ok d -> Forall (fun l => NL ∉ l) (file_text d).
Proof.
  intros (Hm & Hh & Ht). unfold file_text. apply Forall_app. split; [eapply Forall_impl; [done|]; by intros l (_ & ? & _)|].
  constructor.
  - rewrite not_elem_of_app. split; [not_in_literal|]. unfold target_text.
    destruct (target d) as [path|]; [|not_in_literal].
    unfold git_name. rewrite not_elem_of_app. split; [apply quoted_no_nl|].
    destruct (bool_decide _); [|apply not_elem_of_nil]. rewrite list_elem_of_singleton. done.
  - apply Forall_concat, Forall_fmap. eapply Forall_impl; [done|]. intros h Hh'. pose proof Hh' as (Hb & Ho & _ & Hc & Hbody).
    assert (forall s, Forall plain s -> NL ∉ s) as Hplain.
    { intros s Hs Hin. rewrite Forall_forall in Hs. by destruct (Hs _ Hin). }
    constructor; [|eapply Forall_impl; [done|]; by intros l (_ & ? & _)].
    rewrite !not_elem_of_app. split_and!; try done; try not_in_literal; apply Hplain; [done|by apply target_plain].
Qed.
End Hunks.

(** C30: a diff reads back.  On what Git prints for a list of changed files, in text that is UTF-8
    and has no added line that begins with two plus signs and a space, the parser returns the
    ranges of the hunks of the files below the prefix, in order, up to the caller's maximum;
    deleted files and files elsewhere have none.  Each range has the path of its file, when the
    name has no space and none of the control bytes 7, 8, 11 and 12.  A name with a space is reported
    with the tab that Git prints after it or, when Git quotes it, not at all; the escapes of
    those control bytes are reported as printed. *)
Theorem diff_hunks_read_back (ds : list FileDiff) (max : nat) (prefix : bytes) (Hok : Forall file_ok ds) :
  parse_git_diff_hunks (print_diff ds) max prefix =
  Done (Ok (take max (concat (file_ranges prefix <$> ds)))) /\
  forall d path, d ∈ ds -> target d = Some path -> name_ok path ->
    file_ranges prefix d = match strip_prefix prefix path with
                           | Some below => hunk_entry (slash_path below) <$> hunks d
                           | None => []
                           end.
Proof.
  split.
  2: { intros d path _ Hpath Hname. unfold file_ranges, file_target. rewrite Hpath. cbn [mbind option_bind].
    rewrite read_name_exact by done. cbn [mbind option_bind]. by destruct (strip_prefix prefix path). }
  unfold parse_git_diff_hunks, print_diff. rewrite records_print.
  2: { apply Forall_concat, Forall_fmap. eapply Forall_impl; [done|]. intros d Hd. by apply file_no_nl. }
  destruct (reads_files max prefix ds None Hok) as [tp' H]. specialize (H [] [] ltac:(cbn; lia)).
  rewrite app_nil_r in H. rewrite H. done.
Qed.

(** ** Changed paths *)
Definition record_ok (r : bytes) : Prop := utf8_valid r = true /\ NUL ∉ r /\ r <> [].
(** The paths below [prefix], as the repository names them. *)
Definition below (prefix : bytes) (paths : list bytes) : list bytes := omap (fun p => slash_path <$> strip_prefix prefix p) paths.

Lemma name_records_spec rs max prefix : Forall record_ok rs -> forall changed, length changed <= max ->
  name_records ((fun r => r ++ [NUL]) <$> rs) max prefix changed =
  Ok (if length (changed ++ below prefix rs) <=? max then complete (changed ++ below prefix rs)
      else truncated (take max (changed ++ below prefix rs)) max).
Proof.
  induction 1 as [|r rs (Hv & _ & Hne) _ IH]; intros changed Hc; cbn [fmap list_fmap name_records].
  { cbn. rewrite app_nil_r. by rewrite (proj2 (Nat.leb_le _ _)). }
  rewrite without_nul_snoc, bool_decide_false, Hv by done. cbn [negb].
  assert (below prefix (r :: rs) = match strip_prefix prefix r with Some p => slash_path p :: below prefix rs | None => below prefix rs end) as ->.
  { unfold below at 1. cbn. by destruct (strip_prefix prefix r). }
  destruct (strip_prefix prefix r) as [p|]; [|by apply IH].
  destruct (Nat.eqb_spec (length changed) max) as [He|Hn].
  - rewrite (proj2 (Nat.leb_gt _ _)) by (rewrite length_app; cbn; lia). by rewrite <- He, take_app_length.
  - rewrite IH by (rewrite length_app; cbn; lia). by rewrite <- app_assoc.
Qed.

(** Changed paths read back, and a truncation is reported.  On the names that
    Git prints the parser returns those below the prefix, in order: all of them as
    a complete set when they are within the positive bound, and otherwise as many
    as the bound allows, marked as truncated with that limit. *)
Theorem diff_names_read_back (names : list bytes) (max : nat) (prefix : bytes)
    (Hok : Forall record_ok names) (Hmax : 0 < max) :
  parse_diff_names (print_records NUL names) max prefix =
  Ok (if length (below prefix names) <=? max then complete (below prefix names)
      else truncated (take max (below prefix names)) max).
Proof.
  unfold parse_diff_names. destruct (Nat.eqb_spec max 0); [lia|]. rewrite records_print.
  - rewrite name_records_spec by (done || cbn; lia). done.
  - eapply Forall_impl; [done|]. by intros r (_ & ? & _).
Qed.

(** ** The state of the working tree *)
Record StatusEntry := { xy : bytes; entry_name : bytes }.
Definition entry_text (e : StatusEntry) : bytes := xy e ++ Byte.x20 :: entry_name e.
Definition entry_ok (e : StatusEntry) : Prop := length (xy e) = 2 /\ NUL ∉ xy e /\ record_ok (entry_name e).
Definition ignored (e : StatusEntry) : bool := bool_decide (xy e = lit_bytes "!!").
Definition is_untracked (e : StatusEntry) : bool := bool_decide (xy e = lit_bytes "??").
Definition shown (entries : list StatusEntry) : list StatusEntry := List.filter (fun e => negb (ignored e)) entries.

(** What was read before is in the state; [seen] are its entries. *)
Definition observed (prefix : bytes) (seen : list StatusEntry) (changed : list bytes) (modified untracked : bool) : Prop :=
  NoDup changed /\ (forall p, (p ∈ changed) <-> p ∈ below prefix (entry_name <$> shown seen)) /\
  modified = existsb (fun e => negb (is_untracked e)) (shown seen) /\ untracked = existsb is_untracked (shown seen).

Lemma below_app prefix l1 l2 : below prefix (l1 ++ l2) = below prefix l1 ++ below prefix l2.
Proof. unfold below. apply omap_app. Qed.

Definition exact_status (max : nat) (prefix : bytes) (entries : list StatusEntry) (s : GitWorkingTreeStatus) : Prop :=
  failure s = None /\ is_available s = true /\ NoDup (changed_paths s) /\
  (forall p, p ∈ changed_paths s -> p ∈ below prefix (entry_name <$> shown entries)) /\
  if changed_paths_complete s
  then changed_paths_limit s = None /\ length (changed_paths s) <= max /\
       (forall p, p ∈ below prefix (entry_name <$> shown entries) -> p ∈ changed_paths s) /\
       has_modified s = existsb (fun e => negb (is_untracked e)) (shown entries) /\
       has_untracked s = existsb is_untracked (shown entries)
  else changed_paths_limit s = Some max /\ length (changed_paths s) = max /\
       exists p, p ∈ below prefix (entry_name <$> shown entries) /\ p ∉ changed_paths s.

Lemma has_flags changed m u c l : has_modified (available changed m u c l) = m /\ has_untracked (available changed m u c l) = u.
Proof. by destruct m, u. Qed.

Lemma observed_next prefix seen changed modified untracked e (path : option bytes) :
  observed prefix seen changed modified untracked -> ignored e = false ->
  path = slash_path <$> strip_prefix prefix (entry_name e) ->
  observed prefix (seen ++ [e])
    (match path with Some p => if bool_decide (p ∈ changed) then changed else changed ++ [p] | None => changed end)
    (modified || negb (is_untracked e)) (untracked || is_untracked e).
Proof.
  intros (Hnd & Hin & -> & ->) He Hpath.
  assert (shown (seen ++ [e]) = shown seen ++ [e]) as Hs by (unfold shown; rewrite List.filter_app; cbn; by rewrite He).
  unfold observed. rewrite Hs, fmap_app, below_app, !existsb_app. cbn [existsb]. rewrite !orb_false_r.
  assert (below prefix (entry_name <$> [e]) = option_list path) as ->.
  { subst path. cbn. by destruct (strip_prefix prefix (entry_name e)). }
  split; [|split; [|done]].
  - destruct path as [p|]; [|done]. destruct (bool_decide_reflect (p ∈ changed)); [done|]. apply NoDup_app. split; [done|].
    split; [by intros q Hq ->%list_elem_of_singleton|apply NoDup_singleton].
  - intros q. rewrite elem_of_app, <- Hin. destruct path as [p|]; cbn [option_list]; [|rewrite elem_of_nil; tauto].
    change (option_list (Some p)) with [p]. rewrite list_elem_of_singleton. destruct (bool_decide_reflect (p ∈ changed)); [split; [tauto|by intros [?| ->]]|].
    by rewrite elem_of_app, list_elem_of_singleton.
Qed.

Lemma entry_fields e : entry_ok e -> (length (entry_text e) <? 4) = false /\ entry_text e !! 2 = Some Byte.x20 /\
  take 2 (entry_text e) = xy e /\ drop 3 (entry_text e) = entry_name e.
Proof.
  intros (Hl & _ & _ & _ & Hne). unfold entry_text. destruct (xy e) as [|x [|y [|]]]; try done. cbn.
  destruct (entry_name e); [done|]. split; [|done]. by apply Nat.ltb_ge; cbn; lia.
Qed.

Lemma status_records_spec max prefix : forall rest seen changed modified untracked,
  Forall entry_ok rest -> length changed <= max -> observed prefix seen changed modified untracked ->
  exact_status max prefix (seen ++ rest)
    (status_records ((fun r => r ++ [NUL]) <$> (entry_text <$> rest)) max prefix changed modified untracked).
Proof.
  intros rest. induction rest as [|e rest IH]; intros seen changed modified untracked Hok Hc Hobs.
  { rewrite app_nil_r. cbn [fmap list_fmap status_records]. destruct Hobs as (Hnd & Hin & -> & ->).
    unfold exact_status. cbn [failure available is_available state changed_paths changed_paths_complete changed_paths_limit].
    split_and!; try done; [by intros p ?%Hin|by intros p ?%Hin|apply has_flags..]. }
  apply Forall_cons in Hok as [He Hok]. rewrite !fmap_cons. cbn [status_records]. rewrite without_nul_snoc.
  destruct (entry_fields e He) as (-> & -> & -> & ->). rewrite bool_decide_true by done. cbn [negb orb].
  rewrite (cons_middle e seen rest), app_assoc. fold (ignored e) (is_untracked e).
  assert (forall l, shown ((seen ++ [e]) ++ l) = shown (seen ++ [e]) ++ shown l) as Hsh by (intros l; apply List.filter_app).
  destruct (ignored e) eqn:Hi.
  { apply IH; [done|done|]. unfold observed in *.
    assert (shown (seen ++ [e]) = shown seen) as -> by (unfold shown; rewrite List.filter_app; cbn; by rewrite Hi, app_nil_r).
    done. }
  destruct He as (_ & _ & Hv & _). rewrite Hv. cbn [negb].
  pose proof (observed_next prefix seen changed modified untracked e _ Hobs Hi eq_refl) as Hnext.
  destruct (strip_prefix prefix (entry_name e)) as [p|] eqn:Ep; cbn [fmap option_fmap option_map] in Hnext; [|by apply IH].
  destruct (bool_decide_reflect (slash_path p ∈ changed)) as [Hin|Hni]; cbn [negb]; rewrite ?andb_false_r, ?andb_true_r.
  { by apply IH. }
  destruct (Nat.eqb_spec (length changed) max) as [Hm|Hn].
  - destruct Hobs as (Hnd & Hin & _). unfold exact_status. cbn [failure available is_available state changed_paths changed_paths_complete changed_paths_limit].
    assert (slash_path p ∈ below prefix (entry_name <$> shown ((seen ++ [e]) ++ rest))) as Hp.
    { rewrite Hsh, fmap_app, below_app, elem_of_app. left. destruct Hnext as (_ & Hnext & _). apply Hnext.
      apply elem_of_app. right. by left. }
    split_and!; try done; [|by eexists]. intros q Hq%Hin. unfold shown. rewrite !List.filter_app, !fmap_app, !below_app, !elem_of_app.
    by left; left.
  - apply IH; [done|rewrite length_app; cbn; lia|done].
Qed.

(** C31: the state of the working tree is observed exactly.  On what [git status]
    prints within a positive bound the observation is available; it reports the
    paths below the prefix whose entries are not ignored, each once, and whether a
    tracked file changed and whether a file is untracked; when there are more paths
    than the bound it has as many as the bound, marked as incomplete with that limit. *)
Theorem status_read_back (entries : list StatusEntry) (max : nat) (prefix : bytes)
    (Hok : Forall entry_ok entries) (Hmax : 0 < max) :
  exact_status max prefix entries (parse_git_status_observation (print_records NUL (entry_text <$> entries)) max prefix).
Proof.
  unfold parse_git_status_observation. destruct (Nat.eqb_spec max 0); [lia|]. rewrite records_print.
  - apply (status_records_spec max prefix entries []); [done|cbn; lia|]. split; [apply NoDup_nil_2|]. split; [|done].
    intros p. split; by intros ?%not_elem_of_nil.
  - apply Forall_fmap. eapply Forall_impl; [done|]. intros e (Hl & Hx & _ & Hn & _). unfold entry_text. cbn.
    rewrite not_elem_of_app, not_elem_of_cons. done.
Qed.

(** ** Examples *)
Module Demo.

Definition lines (l : list string) : bytes := print_records NL (lit_bytes <$> l).
Definition ranges (r : run (result (list GitHunkRange))) : option (list (string * Z * Z)) :=
  match r with
  | Done (Ok l) => Some ((fun h => (text_of (hunk_path h), start_line h, end_line h)) <$> l)
  | _ => None
  end.

(** A changed file with a quoted name, a deleted one, and one elsewhere. *)
Definition diff : list FileDiff := [
  {| meta := [lit_bytes "diff --git a/src/e.rs b/src/e.rs"; lit_bytes "--- a/src/e.rs"];
     target := Some (lit_bytes "src/" ++ [Byte.xc3; Byte.xa9] ++ lit_bytes ".rs");
     hunks := [{| old_range := lit_bytes "1,2"; new_start := 3; new_length := 4; context := lit_bytes " fn f()"; body := [lit_bytes "-a"; lit_bytes "+b"] |};
               {| old_range := lit_bytes "9"; new_start := 12; new_length := 0; context := []; body := [lit_bytes "-c"] |}] |};
  {| meta := [lit_bytes "deleted file mode 100644"]; target := None;
     hunks := [{| old_range := lit_bytes "1"; new_start := 0; new_length := 0; context := []; body := [lit_bytes "-x"] |}] |};
  {| meta := []; target := Some (lit_bytes "docs/a.md");
     hunks := [{| old_range := lit_bytes "1"; new_start := 1; new_length := 1; context := []; body := [lit_bytes "+y"] |}] |} ].

Lemma quiet_by (l : bytes) : utf8_valid l = true -> bool_decide (NL ∈ l) = false ->
  strip_prefix (lit_bytes "+++ ") l = None -> strip_prefix (lit_bytes "@@ ") l = None -> quiet l.
Proof. intros H1 H2%bool_decide_eq_false H3 H4. done. Qed.
Lemma plain_by (l : bytes) : forallb (fun b => is_ascii b && negb (ws1 b)) l = true -> Forall plain l.
Proof.
  rewrite forallb_forall, Forall_forall. intros H b Hb%list_elem_of_In. specialize (H b Hb).
  apply andb_true_iff in H as [? ?%negb_true_iff]. done.
Qed.
Lemma diff_ok : Forall file_ok diff.
Proof.
  repeat match goal with
  | |- Forall plain _ => apply plain_by; vm_compute; reflexivity
  | |- Forall _ _ => constructor
  | |- file_ok _ => unfold file_ok; cbn [meta target hunks]
  | |- hunk_ok _ => unfold hunk_ok; cbn [old_range context body]
  | |- quiet _ => apply quiet_by; vm_compute; reflexivity
  | |- hunk_bounded _ => unfold hunk_bounded, U64_MAX; cbn [new_start new_length]; lia
  | |- _ /\ _ => split
  | |- ?b ∉ ?l => apply (bool_decide_eq_false (b ∈ l)); vm_compute; reflexivity
  | |- _ = true => vm_compute; reflexivity
  | |- True => done
  end.
Qed.

Lemma diff_hunks_read_back_witness :
  parse_git_diff_hunks (print_diff diff) 2 (lit_bytes "src/") =
  Done (Ok (take 2 (concat (file_ranges (lit_bytes "src/") <$> diff)))).
Proof. exact (proj1 (diff_hunks_read_back diff 2 (lit_bytes "src/") diff_ok)). Defined.
Example diff_ranges : (fun h => (start_line h, end_line h)) <$> concat (file_ranges (lit_bytes "src/") <$> diff) = [(3, 6); (13, 12)]%Z.
Proof. vm_compute. reflexivity. Qed.

(** Git prints an added line [++ b/evil] as [+++ b/evil], which the parser takes for
    the name of another file: the next hunk of [c.txt] is reported there. *)
Example added_line_renames_target :
  ranges (parse_git_diff_hunks (lines ["--- a/c.txt"; "+++ b/c.txt"; "@@ -1,0 +2 @@ x"; "+++ b/evil"; "@@ -3,0 +5 @@ z"; "+w"]) 10 []) =
  Some [("c.txt", 2, 2); ("evil", 5, 5)]%Z.
Proof. vm_compute. reflexivity. Qed.
(** An added line that looks like a quoted name can also make the parser slice a string
    inside a character, and panic. *)
Example added_line_panics :
  parse_git_diff_hunks (lines ["+++ b/c.txt"; "@@ -1,0 +2 @@"] ++
    print_records NL [lit_bytes "+++ " ++ [QUOTE; ESCAPE; Byte.x31; Byte.x78; Byte.xc3; Byte.xa9; QUOTE]]) 10 [] = Panic.
Proof. vm_compute. reflexivity. Qed.
(** Git prints a tab after a name with a space; the parser keeps it as part of the
    name, and does not see the closing quote of a quoted one. *)
Example spaced_name_keeps_tab :
  parse_git_diff_hunks (print_records NL [lit_bytes "+++ " ++ git_name (lit_bytes "b/a b.txt"); lit_bytes "@@ -2 +2 @@"]) 10 [] =
  Done (Ok [mk_hunk (lit_bytes "a b.txt" ++ [Byte.x09]) 2 2]).
Proof. vm_compute. reflexivity. Qed.
Example quoted_spaced_name_is_lost :
  parse_git_diff_hunks (print_records NL [lit_bytes "+++ " ++ git_name (lit_bytes "b/" ++ [Byte.xc3; Byte.xa9] ++ lit_bytes " x.txt");
    lit_bytes "@@ -2 +2 @@"]) 10 [] = Done (Ok []).
Proof. vm_compute. reflexivity. Qed.
(** The named escapes of Git other than those for tab, newline and return are not decoded. *)
Example bell_is_not_decoded : decode_git_quoted_path (git_quote [Byte.x07]) = Done (lit_bytes "\a").
Proof. vm_compute. reflexivity. Qed.

Definition names : list bytes := lit_bytes <$> ["src/a.rs"; "docs/b.md"; "src/c.rs"].
Lemma names_ok : Forall record_ok names.
Proof. repeat constructor; try done; apply (bool_decide_eq_false (_ ∈ _)); vm_compute; reflexivity. Qed.
Lemma diff_names_read_back_witness :
  parse_diff_names (print_records NUL names) 1 (lit_bytes "src/") =
  Ok (if length (below (lit_bytes "src/") names) <=? 1 then complete (below (lit_bytes "src/") names)
      else truncated (take 1 (below (lit_bytes "src/") names)) 1).
Proof. apply diff_names_read_back; [exact names_ok|lia]. Defined.

Definition entries : list StatusEntry := [
  {| xy := lit_bytes " M"; entry_name := lit_bytes "src/a b.rs" |}; {| xy := lit_bytes "??"; entry_name := lit_bytes "new.rs" |};
  {| xy := lit_bytes "!!"; entry_name := lit_bytes "target" |} ].
Lemma status_entries_ok : Forall entry_ok entries.
Proof. repeat constructor; try done; apply (bool_decide_eq_false (_ ∈ _)); vm_compute; reflexivity. Qed.
Lemma status_read_back_witness :
  exact_status 4 [] entries (parse_git_status_observation (print_records NUL (entry_text <$> entries)) 4 []).
Proof. apply status_read_back; [exact status_entries_ok|lia]. Defined.
Example entries_status :
  let s := parse_git_status_observation (print_records NUL (entry_text <$> entries)) 4 [] in
  (text_of <$> changed_paths s, has_modified s, has_untracked s, require_complete s) = (["src/a b.rs"; "new.rs"], true, true, Ok ()).
Proof. vm_compute. reflexivity. Qed.
End Demo.
