(* ===== verification/GitObjects.v ===== *)
(** * Files of a revision: [src/src/repository/git/objects.rs]

    [git_blobs_at_resolved_revision] loads the contents of a set of paths at a
    revision with two subprocesses: [git ls-tree] resolves the paths and
    [git cat-file --batch] prints the objects, within a bound on each file and one
    on all of them.  Git is a parameter, a function from a command and the bound on
    its output to what it printed.  A [BTreeSet] is the increasing list of its
    elements; slices of the output are taken between positions found in it. *)

From S2P Require Import Prelude Text Order Store Utf8 GitDiff.
Open Scope nat_scope.

#[export] Instance byte_countable : Countable Byte.byte.
Proof. apply (inj_countable Byte.to_N Byte.of_N). apply Byte.of_to_N. Defined.
#[export, refine] Instance byte_order : KeyOrder Byte.byte := {| key_lt a b := (Byte.to_N a <? Byte.to_N b)%N |}.
Proof.
  - intros a. apply N.ltb_irrefl.
  - intros a b c. rewrite !N.ltb_lt. lia.
  - intros a b. rewrite !N.ltb_ge. intros H1 H2. assert (Byte.of_N (Byte.to_N a) = Byte.of_N (Byte.to_N b)) as H by (f_equal; lia).
    rewrite !Byte.of_to_N in H. by injection H.
Defined.

Definition TAB : Byte.byte := Byte.x09.

Inductive git_command :=
| LsTree (revision : bytes) (pathspecs : list bytes)
| CatFileBatch (input : bytes).

Record GitBlobBatch := {
  batch_revision : bytes;
  blobs : gmap bytes bytes;
  missing_paths : list bytes;
  oversized_paths : list bytes;
  total_limit_paths : list bytes;
  invalid_utf8_paths : list bytes;
  unsupported_paths : list bytes
}.

(** ** The listing *)
Record listing := mk_listing {
  objects : gmap bytes (bytes * Z);
  present : gset bytes;
  unsupported : list bytes
}.
Definition parse_ok (field : option bytes) : option Z :=
  value ← field; match parse_usize value with Ok v => Some v | Err _ => None end.

Definition tree_step (prefix : bytes) (requested : list bytes) (record : bytes) (l : listing) : result listing :=
  match position TAB record with
  | None => Err (OperationFailure "invalid git ls-tree record")
  | Some tab =>
    let metadata := take tab record in
    if negb (utf8_valid metadata) then Err (OperationFailure "invalid git ls-tree metadata")
    else
      let fields := split_whitespace metadata in
      let object_type := fields !! 1 in
      let size := parse_ok (fields !! 3) in
      let path := drop (tab + 1) record in
      if negb (utf8_valid path) then Err (OperationFailure "invalid git ls-tree path")
      else match strip_prefix prefix path with
           | None => Ok l
           | Some path =>
             if bool_decide (path ∈ requested) then
               let present := {[ path ]} ∪ present l in
               match bool_decide (object_type = Some (lit_bytes "blob")), fields !! 2, size with
               | true, Some object_id, Some size =>
                 Ok (mk_listing (<[path := (object_id, size)]> (objects l)) present (unsupported l))
               | _, _, _ => Ok (mk_listing (objects l) present (unsupported l ++ [path]))
               end
             else Ok l
           end
  end.
Fixpoint tree_records (prefix : bytes) (requested : list bytes) (rs : list bytes) (l : listing) : result listing :=
  match rs with
  | [] => Ok l
  | record :: rs =>
    if bool_decide (record = []) then tree_records prefix requested rs l
    else let* l := tree_step prefix requested record l in tree_records prefix requested rs l
  end.

(** ** The selection *)
Record selection := mk_selection {
  missing : list bytes;
  oversized : list bytes;
  total_limit : list bytes;
  selected : list (bytes * bytes * Z);
  total_bytes : Z
}.
Definition select_step (max_file_bytes max_total_bytes : Z) (l : listing) (path : bytes) (s : selection) : selection :=
  match objects l !! path with
  | None =>
    if bool_decide (path ∈ present l) then s
    else mk_selection (missing s ++ [path]) (oversized s) (total_limit s) (selected s) (total_bytes s)
  | Some (object_id, size) =>
    if (max_file_bytes <? size)%Z
    then mk_selection (missing s) (oversized s ++ [path]) (total_limit s) (selected s) (total_bytes s)
    else if (max_total_bytes <? u64_saturating_add (total_bytes s) size)%Z
    then mk_selection (missing s) (oversized s) (total_limit s ++ [path]) (selected s) (total_bytes s)
    else mk_selection (missing s) (oversized s) (total_limit s) (selected s ++ [(path, object_id, size)]) (total_bytes s + size)
  end.
Definition select (max_file_bytes max_total_bytes : Z) (l : listing) (requested : list bytes) : selection :=
  fold_left (fun s path => select_step max_file_bytes max_total_bytes l path s) requested (mk_selection [] [] [] [] 0).

(** ** The objects *)
Definition sizes_of (s : list (bytes * bytes * Z)) : gmap bytes Z :=
  fold_left (fun m x => <[x.1.2 := x.2]> m) s ∅.
(** The keys of [unique_objects], in order. *)
Definition unique_objects (s : list (bytes * bytes * Z)) : list bytes := sort_dedup ((fun x => x.1.2) <$> s).

Fixpoint read_batch (ids : list bytes) (sizes : gmap bytes Z) (output : bytes) (cursor : nat) (contents : gmap bytes bytes)
  : result (nat * gmap bytes bytes) :=
  match ids with
  | [] => Ok (cursor, contents)
  | expected_object :: ids =>
    let rest := drop cursor output in
    match position NL rest with
    | None => Err (OperationFailure "invalid git cat-file header")
    | Some offset =>
      let header := take offset rest in
      if negb (utf8_valid header) then Err (OperationFailure "invalid git cat-file header")
      else
        let fields := split_whitespace header in
        let expected_size := default 0%Z (sizes !! expected_object) in
        if negb (bool_decide (fields !! 0 = Some expected_object)) || negb (bool_decide (fields !! 1 = Some (lit_bytes "blob")))
           || negb (bool_decide (parse_ok (fields !! 2) = Some expected_size))
        then Err (OperationFailure "unexpected git cat-file batch response")
        else
          let content_start := cursor + offset + 1 in
          if (U64_MAX <? Z.of_nat content_start + expected_size)%Z then Err (OperationFailure "git blob size overflow")
          else
            let content_end := content_start + Z.to_nat expected_size in
            if negb (bool_decide (output !! content_end = Some NL))
            then Err (OperationFailure "truncated git cat-file batch response")
            else read_batch ids sizes output (content_end + 1)
                   (<[expected_object := slice output content_start content_end]> contents)
    end
  end.

Fixpoint take_blobs (s : list (bytes * bytes * Z)) (contents : gmap bytes bytes) (found : gmap bytes bytes) (invalid : list bytes)
  : result (gmap bytes bytes * list bytes) :=
  match s with
  | [] => Ok (found, invalid)
  | (path, object_id, _) :: s =>
    match contents !! object_id with
    | None => Err (OperationFailure "missing batched git blob")
    | Some content =>
      if utf8_valid content then take_blobs s contents (<[path := content]> found) invalid
      else take_blobs s contents found (invalid ++ [path])
    end
  end.

Section Git.
Variable run_git : git_command -> Z -> result bytes.
Variables revision prefix : bytes.

Definition tree_output_limit (requested : list bytes) : Z :=
  fold_left (fun limit path => u64_saturating_add (u64_saturating_add limit (Z.of_nat (length path))) 160) requested 1024%Z.
Definition batch_output_limit (s : selection) : Z :=
  u64_saturating_add (u64_saturating_add (total_bytes s)
    (Z.min (Z.of_nat (length (unique_objects (selected s))) * 96) U64_MAX)) 1024.

Definition git_blobs_at_resolved_revision (paths : list bytes) (max_file_bytes max_total_bytes : Z) : result GitBlobBatch :=
  let requested := sort_dedup paths in
  if bool_decide (requested = [])
  then Ok {| batch_revision := revision; blobs := ∅; missing_paths := []; oversized_paths := []; total_limit_paths := [];
             invalid_utf8_paths := []; unsupported_paths := [] |}
  else
    let* tree_output := run_git (LsTree revision ((fun path => prefix ++ path) <$> requested)) (tree_output_limit requested) in
    let* l := tree_records prefix requested (split_byte NUL tree_output) (mk_listing ∅ ∅ []) in
    let s := select max_file_bytes max_total_bytes l requested in
    let ids := unique_objects (selected s) in
    let input := concat ((fun id => id ++ [NL]) <$> ids) in
    let* output := (if bool_decide (input = []) then Ok [] else run_git (CatFileBatch input) (batch_output_limit s)) in
    let* read := read_batch ids (sizes_of (selected s)) output 0 ∅ in
    if negb (read.1 =? length output) then Err (OperationFailure "unexpected trailing git cat-file output")
    else
      let* taken := take_blobs (selected s) read.2 ∅ [] in
      Ok {| batch_revision := revision; blobs := taken.1; missing_paths := missing s; oversized_paths := oversized s;
            total_limit_paths := total_limit s; invalid_utf8_paths := taken.2; unsupported_paths := unsupported l |}.
End Git.
