(* ===== verification/GitBlobs.v ===== *)
(** * The files of a revision are loaded or accounted for

    [GitObjects.v] over a Git that lists a tree and prints its objects as documented:
    every requested path is in exactly one of the lists of the batch, with the
    contents the revision has, within both bounds. *)

From S2P Require Import Prelude Text Order Store Utf8 GitDiff GitFormat GitObjects.
Open Scope nat_scope.

(** ** What Git prints *)
Record TreeEntry := {
  entry_mode : bytes;
  entry_type : bytes;
  entry_id : bytes;
  entry_size : option Z;
  entry_path : bytes
}.
Definition SPACE : Byte.byte := Byte.x20.
(** [%7s]. *)
Definition padded (s : bytes) : bytes := replicate (7 - length s) SPACE ++ s.
Definition size_text (size : option Z) : bytes := match size with Some n => decimal n | None => lit_bytes "-" end.
Definition tree_record (e : TreeEntry) : bytes :=
  entry_mode e ++ SPACE :: entry_type e ++ SPACE :: entry_id e ++ SPACE :: padded (size_text (entry_size e)) ++ TAB :: entry_path e.
Definition cat_reply (content : bytes -> bytes) (id : bytes) : bytes :=
  id ++ SPACE :: lit_bytes "blob" ++ SPACE :: decimal (Z.of_nat (length (content id))) ++ NL :: content id ++ [NL].

Definition word (w : bytes) : Prop := Forall plain w /\ w <> [].
Definition is_blob (e : TreeEntry) : bool := bool_decide (entry_type e = lit_bytes "blob").
Definition pathspec_matches (specs : list bytes) (e : TreeEntry) : bool :=
  existsb (fun spec => bool_decide (entry_path e = spec) || bool_decide (strip_prefix (spec ++ [SLASH]) (entry_path e) <> None)) specs.

(** A tree as Git keeps it: distinct paths, and for a blob the size of its contents. *)
Record tree_ok (content : bytes -> bytes) (entries : list TreeEntry) : Prop := {
  tree_distinct : NoDup (entry_path <$> entries);
  tree_words : Forall (fun e => word (entry_mode e) /\ word (entry_type e) /\ word (entry_id e)) entries;
  tree_no_nul : Forall (fun e => NUL ∉ entry_mode e ++ entry_type e ++ entry_id e) entries;
  tree_names : Forall (fun e => utf8_valid (entry_path e) = true /\ NUL ∉ entry_path e) entries;
  tree_sizes : Forall (fun e => if is_blob e then entry_size e = Some (Z.of_nat (length (content (entry_id e))))
                                else entry_size e = None) entries;
  tree_ids : Forall (fun e => length (entry_id e) <= 64) entries;
  tree_bounded : Forall (fun e => (Z.of_nat (length (content (entry_id e))) < 2 ^ 63)%Z) entries
}.

(** What [run_git_capture_bounded] answers when the output passes the bound. *)
Definition output_limit_error (limit : Z) : error :=
  RequestLimitExceeded "git output bytes" (u64_saturating_add limit 1) limit.

(** [git ls-tree -r] and [git cat-file --batch], within the bound on their output; a
    listing beyond it is an error. *)
Class GitObjectStore (run_git : git_command -> Z -> result bytes) (revision : bytes) (entries : list TreeEntry)
    (content : bytes -> bytes) : Prop := {
  ls_tree_lists : forall specs limit,
    let output := print_records NUL (tree_record <$> List.filter (pathspec_matches specs) entries) in
    (Z.of_nat (length output) <= limit)%Z -> run_git (LsTree revision specs) limit = Ok output;
  ls_tree_bounded : forall specs limit,
    let output := print_records NUL (tree_record <$> List.filter (pathspec_matches specs) entries) in
    (limit < Z.of_nat (length output))%Z -> run_git (LsTree revision specs) limit = Err (output_limit_error limit);
  cat_file_prints : forall ids limit, Forall (fun id => exists e, e ∈ entries /\ is_blob e = true /\ entry_id e = id) ids ->
    let output := concat (cat_reply content <$> ids) in
    (Z.of_nat (length output) <= limit)%Z -> run_git (CatFileBatch (print_records NL ids)) limit = Ok output
}.

(** ** Fields *)
Lemma words_end w : Forall plain w -> forall cur, words w 0 cur = flush (cur ++ w).
Proof.
  induction 1 as [|b w Hb Hw IH]; intros cur; cbn [words]; [by rewrite app_nil_r|].
  rewrite (ws_at_plain b) by done. by rewrite IH, <- app_assoc.
Qed.
Lemma words_spaces n rest : words (replicate n SPACE ++ rest) 0 [] = words rest 0 [].
Proof. induction n as [|n IH]; [done|]. exact IH. Qed.
Lemma flush_word w : w <> [] -> flush w = [w].
Proof. by destruct w. Qed.
Lemma plain_words w rest : word w -> words (w ++ SPACE :: rest) 0 [] = w :: words rest 0 [].
Proof. intros [Hp Hne]. rewrite words_word by done. cbn [app]. by rewrite flush_word. Qed.
Lemma last_word w : word w -> words w 0 [] = [w].
Proof. intros [Hp Hne]. rewrite words_end by done. by apply flush_word. Qed.
Lemma decimal_word n : (0 <= n <= U64_MAX)%Z -> word (decimal n).
Proof.
  intros Hn. destruct (decimal_spec n Hn) as (_ & Hne & Hd). split; [|done]. eapply Forall_impl; [done|].
  by intros b (_ & ? & ?)%digit_plain.
Qed.

Section Git.
Variable content : bytes -> bytes.
Variable entries : list TreeEntry.
Hypothesis Htree : tree_ok content entries.

Lemma content_bounded e : e ∈ entries -> (0 <= Z.of_nat (length (content (entry_id e))) <= U64_MAX)%Z.
Proof. intros He. pose proof (tree_bounded _ _ Htree) as H. rewrite Forall_forall in H. specialize (H e He). unfold U64_MAX. lia. Qed.

Lemma size_field e : e ∈ entries -> word (size_text (entry_size e)) /\ parse_ok (Some (size_text (entry_size e))) = entry_size e.
Proof.
  intros He. pose proof (tree_sizes _ _ Htree) as Hs. rewrite Forall_forall in Hs. specialize (Hs e He).
  destruct (is_blob e); rewrite Hs.
  - pose proof (content_bounded e He) as Hb. cbn [size_text]. split; [by apply decimal_word|]. unfold parse_ok. cbn [mbind option_bind].
    by destruct (decimal_spec _ Hb) as [-> _].
  - split; [|done]. split; [by repeat constructor|done].
Qed.

Lemma record_fields e : e ∈ entries ->
  let metadata := entry_mode e ++ SPACE :: entry_type e ++ SPACE :: entry_id e ++ SPACE :: padded (size_text (entry_size e)) in
  position TAB (tree_record e) = Some (length metadata) /\ take (length metadata) (tree_record e) = metadata /\
  drop (length metadata + 1) (tree_record e) = entry_path e /\ utf8_valid metadata = true /\
  split_whitespace metadata = [entry_mode e; entry_type e; entry_id e; size_text (entry_size e)].
Proof.
  intros He metadata. pose proof (tree_words _ _ Htree) as Hw. rewrite Forall_forall in Hw.
  destruct (Hw e He) as (Hm & Ht & Hi). destruct (size_field e He) as [Hs _].
  assert (tree_record e = metadata ++ TAB :: entry_path e) as Hr.
  { subst metadata. unfold tree_record. repeat (rewrite <- app_assoc; cbn [app]). done. }
  assert (Forall (fun b => is_ascii b = true /\ b <> TAB) metadata) as Ha.
  { assert (forall w, word w -> Forall (fun b => is_ascii b = true /\ b <> TAB) w) as Hword.
    { intros w [Hp _]. eapply Forall_impl; [done|]. intros b [? Hws]. split; [done|]. by intros ->. }
    assert (is_ascii SPACE = true /\ SPACE <> TAB) as Hsp by done.
    subst metadata. unfold padded. repeat first [apply Forall_app; split | apply Forall_cons; split]; try (by apply Hword); try done.
    by apply Forall_replicate. }
  rewrite Hr. split_and!.
  - apply position_first. intros Hin. rewrite Forall_forall in Ha. by destruct (Ha _ Hin).
  - apply take_app_length.
  - change (TAB :: entry_path e) with ([TAB] ++ entry_path e). rewrite app_assoc. apply drop_app_length'. rewrite length_app. cbn. lia.
  - clear -Ha. induction Ha as [|b l [Hb _] _ IH]; [done|]. cbn [utf8_valid]. by rewrite Hb.
  - subst metadata. unfold split_whitespace. rewrite !plain_words by done. unfold padded. by rewrite words_spaces, last_word.
Qed.

(** ** The listing *)
Section Listing.
Variables (prefix : bytes) (requested : list bytes).

Definition listed (e : TreeEntry) (l : listing) : listing :=
  match strip_prefix prefix (entry_path e) with
  | Some path =>
    if bool_decide (path ∈ requested) then
      if is_blob e
      then mk_listing (<[path := (entry_id e, Z.of_nat (length (content (entry_id e))))]> (objects l)) ({[ path ]} ∪ present l) (unsupported l)
      else mk_listing (objects l) ({[ path ]} ∪ present l) (unsupported l ++ [path])
    else l
  | None => l
  end.
Lemma tree_step_spec e l : e ∈ entries -> tree_step prefix requested (tree_record e) l = Ok (listed e l).
Proof.
  intros He. unfold tree_step. destruct (record_fields e He) as (-> & -> & -> & -> & ->). cbn [negb].
  pose proof (tree_names _ _ Htree) as Hn. rewrite Forall_forall in Hn. destruct (Hn e He) as [-> _]. cbn [negb]. unfold listed.
  destruct (strip_prefix prefix (entry_path e)) as [p|]; [|done]. destruct (bool_decide (p ∈ requested)); [|done].
  cbn [lookup list_lookup]. destruct (size_field e He) as [_ ->].
  pose proof (tree_sizes _ _ Htree) as Hs. rewrite Forall_forall in Hs. specialize (Hs e He).
  assert (bool_decide (Some (entry_type e) = Some (lit_bytes "blob")) = is_blob e) as ->.
  { unfold is_blob. apply bool_decide_ext. split; [by intros [= ->]|by intros ->]. }
  by destruct (is_blob e); rewrite ?Hs.
Qed.

(** What the listing knows after some entries. *)
Definition knows (done_ : list TreeEntry) (l : listing) : Prop :=
  (forall p id size, objects l !! p = Some (id, size) <-> p ∈ requested /\
     exists e, e ∈ done_ /\ entry_path e = prefix ++ p /\ is_blob e = true /\ id = entry_id e /\ size = Z.of_nat (length (content id))) /\
  (forall p, p ∈ present l <-> p ∈ requested /\ exists e, e ∈ done_ /\ entry_path e = prefix ++ p) /\
  (forall p, p ∈ unsupported l <-> p ∈ requested /\ exists e, e ∈ done_ /\ entry_path e = prefix ++ p /\ is_blob e = false) /\
  NoDup (unsupported l).

Lemma and_or_absent (A B C : Prop) : ~ (A /\ C) -> (A /\ B) <-> (A /\ (B \/ C)).
Proof. tauto. Qed.
Lemma knows_next done_ e l : knows done_ l -> e ∈ entries -> entry_path e ∉ (entry_path <$> done_) ->
  knows (done_ ++ [e]) (listed e l).
Proof.
  intros (Ho & Hp & Hu & Hnd) He Hnew.
  assert (forall (Q : TreeEntry -> Prop), (exists x, x ∈ done_ ++ [e] /\ Q x) <-> (exists x, x ∈ done_ /\ Q x) \/ Q e) as Hex.
  { intros Q. split.
    - intros (x & [Hx|Hx%list_elem_of_singleton]%elem_of_app & HQ); [left; by eexists|right; by subst].
    - intros [(x & Hx & HQ)|HQ]; [exists x|exists e]; (split; [apply elem_of_app|done]); [by left|right; by left]. }
  assert (forall q x, x ∈ done_ -> entry_path x = prefix ++ q -> entry_path e <> prefix ++ q) as Hfresh.
  { intros q x Hx Hq Heq. apply Hnew. rewrite Heq, <- Hq. by apply list_elem_of_fmap_2. }
  unfold listed. destruct (strip_prefix prefix (entry_path e)) as [q|] eqn:Eq.
  2: { assert (forall p, entry_path e <> prefix ++ p) as Hno by (intros p Heq; by rewrite Heq, strip_bytes_app in Eq).
    split_and!; [intros p id size; rewrite Ho, Hex|intros p; rewrite Hp, Hex|intros p; rewrite Hu, Hex|done];
      apply and_or_absent; [intros (_ & H & _)|intros (_ & H)|intros (_ & H & _)]; by apply Hno in H. }
  apply strip_bytes_spec in Eq. destruct (bool_decide_reflect (q ∈ requested)) as [Hq|Hq].
  2: { assert (forall p, p ∈ requested -> entry_path e <> prefix ++ p) as Hno
      by (intros p Hpr Heq; rewrite Eq in Heq; apply app_inv_head in Heq as ->; done).
    split_and!; [intros p id size; rewrite Ho, Hex|intros p; rewrite Hp, Hex|intros p; rewrite Hu, Hex|done];
      apply and_or_absent; [intros (Hr & H & _)|intros (Hr & H)|intros (Hr & H & _)]; by apply (Hno p) in H. }
  assert (forall p, entry_path e = prefix ++ p <-> p = q) as Hpq
    by (intros p; rewrite Eq; split; [by intros ?%app_inv_head|by intros ->]).
  assert (forall x, x ∈ done_ -> entry_path x <> prefix ++ q) as Hdone by (intros x Hx Hxq; by apply (Hfresh q x)).
  assert (forall p, (p ∈ ({[ q ]} ∪ present l : gset bytes)) <-> p ∈ requested /\ exists x, x ∈ done_ ++ [e] /\ entry_path x = prefix ++ p) as Hpres.
  { intros p. rewrite elem_of_union, elem_of_singleton, Hp, Hex, Hpq. split; [|tauto]. intros [->|?]; tauto. }
  destruct (is_blob e) eqn:Eb; (split; [|split; [done|split]]); cbn [objects unsupported].
  - intros p id size. rewrite Hex. destruct (decide (q = p)) as [<-|Hne].
    + rewrite lookup_insert_eq. split.
      * intros [= <- <-]. split; [done|]. right. by rewrite Eq.
      * intros (_ & [(x & Hx & Hxq & _)|(_ & _ & -> & ->)]); [by destruct (Hdone x Hx)|done].
    + rewrite lookup_insert_ne, Ho by done. apply and_or_absent. intros (_ & H & _). apply Hpq in H. congruence.
  - intros p. rewrite Hu, Hex. apply and_or_absent. intros (_ & _ & H). congruence.
  - done.
  - intros p id size. rewrite Ho, Hex. apply and_or_absent. intros (_ & _ & H & _). congruence.
  - intros p. rewrite elem_of_app, list_elem_of_singleton, Hu, Hex, Hpq. split; [|tauto]. intros [?| ->]; tauto.
  - apply NoDup_app. split; [done|]. split; [|apply NoDup_singleton]. intros p Hpu ->%list_elem_of_singleton.
    apply Hu in Hpu as (_ & x & Hx & Hxq & _). by apply (Hdone x Hx).
Qed.

Lemma tree_records_spec rest : forall done_ l, knows done_ l -> Forall (fun e => e ∈ entries) rest ->
  NoDup (entry_path <$> (done_ ++ rest)) ->
  exists l', tree_records prefix requested ((tree_record <$> rest) ++ [[]]) l = Ok l' /\ knows (done_ ++ rest) l'.
Proof.
  induction rest as [|e rest IH]; intros done_ l Hk Hin Hnd.
  { cbn. exists l. by rewrite app_nil_r. }
  apply Forall_cons in Hin as [He Hin]. rewrite fmap_cons. cbn [app tree_records].
  rewrite bool_decide_false by (unfold tree_record; by destruct (entry_mode e)). rewrite tree_step_spec by done. cbn [result_bind].
  rewrite (cons_middle e done_ rest), app_assoc. apply IH; [|done|by rewrite <- app_assoc].
  apply knows_next; [done|done|]. rewrite fmap_app in Hnd. apply NoDup_app in Hnd as (_ & Hnd & _). intros Hd.
  apply (Hnd _ Hd). by left.
Qed.
End Listing.

(** ** The selection *)
Abbreviation row := (bytes * bytes * Z)%type.
Definition row_path (x : row) : bytes := x.1.1.
Definition total (l : list row) : Z := foldr (fun x acc => (x.2 + acc)%Z) 0%Z l.
Lemma total_snoc l x : total (l ++ [x]) = (total l + x.2)%Z.
Proof. unfold total. rewrite foldr_app. induction l as [|y l IH]; cbn in *; lia. Qed.

Section Selection.
Variables (max_file max_total : Z) (l : listing).
Hypothesis Hmax : (0 <= max_total < U64_MAX)%Z.
Hypothesis Hsizes : forall p id size, objects l !! p = Some (id, size) -> (0 <= size <= U64_MAX)%Z.

(** The paths of [done_] are in one of the lists, or listed without an object. *)
Record sorted_out (done_ : list bytes) (s : selection) : Prop := {
  out_all : done_ ≡ₚ missing s ++ oversized s ++ total_limit s ++ (row_path <$> selected s)
            ++ List.filter (fun p => bool_decide (objects l !! p = None /\ p ∈ present l)) done_;
  out_missing : Forall (fun p => objects l !! p = None /\ p ∉ present l) (missing s);
  out_oversized : Forall (fun p => exists id size, objects l !! p = Some (id, size) /\ (max_file < size)%Z) (oversized s);
  out_limit : Forall (fun p => exists id size, objects l !! p = Some (id, size) /\ (size <= max_file)%Z /\
                (max_total < total_bytes s + size)%Z) (total_limit s);
  out_selected : Forall (fun x => objects l !! row_path x = Some (x.1.2, x.2) /\ (x.2 <= max_file)%Z) (selected s);
  out_total : total_bytes s = total (selected s);
  out_bound : (0 <= total_bytes s <= max_total)%Z
}.

Lemma select_step_spec done_ s p : sorted_out done_ s -> sorted_out (done_ ++ [p]) (select_step max_file max_total l p s).
Proof.
  intros [Ha Hm Ho Hl Hs Ht Hb]. unfold select_step.
  assert (forall (f : bytes -> bool), List.filter f (done_ ++ [p]) = List.filter f done_ ++ (if f p then [p] else [])) as Hfilter
    by (intros f; rewrite List.filter_app; cbn; by destruct (f p)).
  destruct (objects l !! p) as [[id size]|] eqn:Ep.
  - pose proof (Hsizes p id size Ep) as Hsz.
    assert (bool_decide (objects l !! p = None /\ p ∈ present l) = false) as Hno by (apply bool_decide_eq_false; rewrite Ep; by intros [? _]).
    destruct (Z.ltb_spec max_file size) as [Hlt|Hge]; [|destruct (Z.ltb_spec max_total (u64_saturating_add (total_bytes s) size)) as [Hlt|Hle]].
    + split; cbn; try done; [|apply Forall_app; split; [done|repeat constructor; by eexists _, _]].
      rewrite Hfilter, Hno, app_nil_r, Ha at 1. rewrite <- !app_assoc. apply Permutation_app_head, Permutation_app_head. by solve_Permutation.
    + unfold u64_saturating_add in Hlt. split; cbn; try done.
      * rewrite Hfilter, Hno, app_nil_r, Ha at 1. rewrite <- !app_assoc. by solve_Permutation.
      * apply Forall_app. split; [done|]. repeat constructor. eexists _, _. split; [done|]. lia.
    + unfold u64_saturating_add in Hle. split; cbn; try done.
      * rewrite Hfilter, Hno, app_nil_r, Ha at 1. rewrite fmap_app, <- !app_assoc. by solve_Permutation.
      * eapply Forall_impl; [exact Hl|]. intros q (id' & size' & Hq & Hle' & Hlt). eexists _, _. split; [done|]. lia.
      * apply Forall_app. split; [done|]. repeat constructor; done.
      * rewrite total_snoc, Ht. done.
      * lia.
  - destruct (bool_decide_reflect (p ∈ present l)) as [Hpp|Hpp].
    + split; cbn; try done. rewrite Hfilter, bool_decide_true by done. rewrite Ha at 1. rewrite <- !app_assoc. done.
    + split; cbn; try done; [|apply Forall_app; split; [done|by repeat constructor]].
      rewrite Hfilter, bool_decide_false, app_nil_r by (by intros [_ ?]). rewrite Ha at 1. rewrite <- !app_assoc. by solve_Permutation.
Qed.
Lemma select_spec requested : sorted_out requested (select max_file max_total l requested).
Proof.
  unfold select. enough (forall rest done_ s, sorted_out done_ s ->
    sorted_out (done_ ++ rest) (fold_left (fun s p => select_step max_file max_total l p s) rest s)) as H.
  { apply (H requested []). split; cbn; first [done|lia|by constructor]. }
  induction rest as [|p rest IH]; intros done_ s Hs; cbn [fold_left]; [by rewrite app_nil_r|].
  rewrite (cons_middle p done_ rest), app_assoc. by apply IH, select_step_spec.
Qed.
End Selection.

(** ** The objects *)
Lemma sizes_of_spec sel : Forall (fun x : row => x.2 = Z.of_nat (length (content x.1.2))) sel -> forall id,
  id ∈ ((fun x : row => x.1.2) <$> sel) -> sizes_of sel !! id = Some (Z.of_nat (length (content id))).
Proof.
  unfold sizes_of. enough (forall m id, (m !! id = Some (Z.of_nat (length (content id))) \/ id ∈ ((fun x : row => x.1.2) <$> sel)) ->
    Forall (fun x : row => x.2 = Z.of_nat (length (content x.1.2))) sel ->
    fold_left (fun m x => <[x.1.2 := x.2]> m) sel m !! id = Some (Z.of_nat (length (content id)))) as H by (intros; apply H; auto).
  induction sel as [|x sel IH]; intros m id Hid Hall; cbn [fold_left].
  { destruct Hid as [?|?%not_elem_of_nil]; done. }
  apply Forall_cons in Hall as [Hx Hall]. apply IH; [|done]. destruct (decide (x.1.2 = id)) as [<-|Hne].
  - left. by rewrite lookup_insert_eq, Hx.
  - rewrite lookup_insert_ne by done. destruct Hid as [?|[?|?]%elem_of_cons]; [by left|congruence|by right].
Qed.

Definition reply_header (id : bytes) : bytes :=
  id ++ SPACE :: lit_bytes "blob" ++ SPACE :: decimal (Z.of_nat (length (content id))).
Lemma reply_fields id : word id -> (Z.of_nat (length (content id)) <= U64_MAX)%Z ->
  cat_reply content id = reply_header id ++ NL :: content id ++ [NL] /\ NL ∉ reply_header id /\ utf8_valid (reply_header id) = true /\
  split_whitespace (reply_header id) = [id; lit_bytes "blob"; decimal (Z.of_nat (length (content id)))] /\
  parse_ok (Some (decimal (Z.of_nat (length (content id))))) = Some (Z.of_nat (length (content id))).
Proof.
  intros Hid Hlen. assert (0 <= Z.of_nat (length (content id)) <= U64_MAX)%Z as Hb by lia. pose proof (decimal_word _ Hb) as Hd.
  assert (word (lit_bytes "blob")) as Hblob by (split; [by repeat constructor|done]).
  assert (Forall (fun b => is_ascii b = true /\ b <> NL) (reply_header id)) as Ha.
  { assert (forall w, word w -> Forall (fun b => is_ascii b = true /\ b <> NL) w) as Hword.
    { intros w [Hp _]. eapply Forall_impl; [done|]. intros b [? Hws]. split; [done|]. by intros ->. }
    unfold reply_header. apply Forall_app; split; [by apply Hword|]. apply Forall_cons; split; [done|].
    apply Forall_app; split; [by apply Hword|]. apply Forall_cons; split; [done|by apply Hword]. }
  split_and!.
  - unfold cat_reply, reply_header. repeat (rewrite <- app_assoc; cbn [app]). done.
  - intros Hin. rewrite Forall_forall in Ha. by destruct (Ha _ Hin).
  - clear -Ha. induction Ha as [|b l [Hb _] _ IH]; [done|]. cbn [utf8_valid]. by rewrite Hb.
  - unfold split_whitespace, reply_header. rewrite !plain_words by done. by rewrite last_word.
  - unfold parse_ok. cbn [mbind option_bind]. by destruct (decimal_spec _ Hb) as [-> _].
Qed.

Definition loaded (ids : list bytes) (contents : gmap bytes bytes) : gmap bytes bytes :=
  fold_left (fun m id => <[id := content id]> m) ids contents.
Lemma loaded_lookup ids : forall contents id, (contents !! id = Some (content id) \/ id ∈ ids) -> loaded ids contents !! id = Some (content id).
Proof.
  unfold loaded. induction ids as [|x ids IH]; intros contents id Hid; cbn [fold_left].
  { destruct Hid as [?|?%not_elem_of_nil]; done. }
  apply IH. destruct (decide (x = id)) as [<-|Hne]; [left; by rewrite lookup_insert_eq|].
  rewrite lookup_insert_ne by done. destruct Hid as [?|[?|?]%elem_of_cons]; [by left|congruence|by right].
Qed.

Lemma read_batch_spec sizes ids : Forall word ids ->
  Forall (fun id => sizes !! id = Some (Z.of_nat (length (content id))) /\ (Z.of_nat (length (content id)) <= U64_MAX)%Z) ids ->
  forall pre contents, let output := pre ++ concat (cat_reply content <$> ids) in
  (Z.of_nat (length output) <= U64_MAX)%Z ->
  read_batch ids sizes output (length pre) contents = Ok (length output, loaded ids contents).
Proof.
  induction 1 as [|id ids Hid Hids IH]; intros Hs pre contents output Hlen; subst output.
  { cbn. by rewrite app_nil_r. }
  apply Forall_cons in Hs as [[Hsz Hb] Hs]. rewrite fmap_cons in *. cbn [concat read_batch] in *.
  destruct (reply_fields id Hid Hb) as (Hr & Hnl & Hv & Hf & Hp). rewrite Hr in *.
  set (more := concat (cat_reply content <$> ids)) in *.
  assert (forall tail, drop (length pre) (pre ++ (reply_header id ++ NL :: content id ++ [NL]) ++ tail) =
    reply_header id ++ NL :: content id ++ NL :: tail) as Hrest
    by (intros tail; rewrite drop_app_length; repeat (rewrite <- app_assoc; cbn [app]); done).
  rewrite Hrest, position_first by done. rewrite take_app_length, Hv, Hf. cbn [negb lookup list_lookup]. rewrite Hsz. cbn [from_option Datatypes.id].
  rewrite Hp, !bool_decide_true by done. cbn [negb orb].
  assert (length (pre ++ (reply_header id ++ NL :: content id ++ [NL]) ++ more) =
    length pre + length (reply_header id) + 1 + length (content id) + 1 + length more) as Hout
    by (rewrite !length_app; cbn; rewrite length_app; cbn; lia).
  rewrite Hout in Hlen. assert ((U64_MAX <? Z.of_nat (length pre + length (reply_header id) + 1) + Z.of_nat (length (content id)))%Z = false) as ->
    by (apply Z.ltb_ge; lia).
  rewrite Nat2Z.id. set (start := length pre + length (reply_header id) + 1) in *.
  assert (forall tail, pre ++ (reply_header id ++ NL :: content id ++ [NL]) ++ tail =
    (pre ++ reply_header id ++ [NL]) ++ content id ++ NL :: tail) as Hshape
    by (intros tail; repeat (rewrite <- app_assoc; cbn [app]); done).
  rewrite Hshape. assert (length (pre ++ reply_header id ++ [NL]) = start) as Hst by (rewrite !length_app; cbn; lia).
  rewrite lookup_app_r by lia. rewrite lookup_app_r by lia.
  replace (start + length (content id) - length (pre ++ reply_header id ++ [NL]) - length (content id)) with 0 by lia.
  cbn [lookup list_lookup]. rewrite bool_decide_true by done. cbn [negb].
  assert (slice ((pre ++ reply_header id ++ [NL]) ++ content id ++ NL :: more) start (start + length (content id)) = content id) as ->.
  { unfold slice. rewrite drop_app_length' by done. replace (start + length (content id) - start) with (length (content id)) by lia.
    apply take_app_length. }
  assert ((pre ++ reply_header id ++ [NL]) ++ content id ++ NL :: more = ((pre ++ reply_header id ++ [NL]) ++ content id ++ [NL]) ++ more) as ->
    by (rewrite <- !app_assoc; done).
  assert (start + length (content id) + 1 = length ((pre ++ reply_header id ++ [NL]) ++ content id ++ [NL])) as ->
    by (rewrite (length_app (pre ++ reply_header id ++ [NL])), (length_app (content id)), Hst; cbn; lia).
  rewrite IH; [|done|]. { done. }
  rewrite length_app. fold more. rewrite !length_app. cbn. lia.
Qed.

Lemma take_blobs_spec contents sel : Forall (fun x : row => contents !! x.1.2 = Some (content x.1.2)) sel -> NoDup (row_path <$> sel) ->
  forall found invalid, Forall (fun x : row => found !! row_path x = None) sel ->
  exists found', take_blobs sel contents found invalid =
      Ok (found', invalid ++ (row_path <$> List.filter (fun x => negb (utf8_valid (content x.1.2))) sel)) /\
    map_to_list found' ≡ₚ map_to_list found ++
      ((fun x => (row_path x, content x.1.2)) <$> List.filter (fun x => utf8_valid (content x.1.2)) sel).
Proof.
  induction sel as [|[[p id] n] sel IH]; intros Hc Hnd found invalid Hf; cbn [take_blobs List.filter].
  { exists found. by rewrite !app_nil_r. }
  apply Forall_cons in Hc as [Hx Hc]. apply Forall_cons in Hf as [Hp Hf]. rewrite fmap_cons in Hnd. apply NoDup_cons in Hnd as [Hni Hnd].
  cbn in Hx, Hp, Hni. rewrite Hx. cbn [fst snd]. destruct (utf8_valid (content id)) eqn:Ev; cbn [negb].
  - destruct (IH Hc Hnd (<[p := content id]> found) invalid) as (found' & -> & Hperm).
    { rewrite Forall_forall in Hf |- *. intros x Hxs. rewrite lookup_insert_ne; [by apply Hf|]. intros ->. apply Hni. by apply list_elem_of_fmap_2. }
    exists found'. split; [done|]. rewrite Hperm, map_to_list_insert by done. rewrite fmap_cons. cbn. by solve_Permutation.
  - destruct (IH Hc Hnd found (invalid ++ [p]) Hf) as (found' & -> & Hperm). exists found'. split; [|done].
    by rewrite fmap_cons, <- app_assoc.
Qed.

(** ** The bound on the objects *)
Lemma decimal_digits_length fuel n : length (decimal_digits fuel n) <= fuel.
Proof.
  revert n. induction fuel as [|fuel IH]; intros n; cbn [decimal_digits]; [done|]. rewrite length_app. cbn [length].
  destruct (n <? 10)%Z; cbn [length]; [lia|]. specialize (IH (n / 10)%Z). lia.
Qed.
Lemma reply_length id : length id <= 64 -> length (cat_reply content id) <= 96 + length (content id).
Proof.
  intros Hid. unfold cat_reply, decimal. pose proof (decimal_digits_length 20 (Z.of_nat (length (content id)))) as Hd.
  set (d := decimal_digits 20 _) in *. clearbody d. rewrite length_app. cbn [length]. rewrite length_app. cbn [length]. rewrite length_app. cbn [length]. rewrite length_app. cbn. lia.
Qed.
Lemma replies_length ids : Forall (fun id => length id <= 64) ids ->
  length (concat (cat_reply content <$> ids)) <= 96 * length ids + sum_list_with (fun id => length (content id)) ids.
Proof.
  induction 1 as [|id ids Hid _ IH]; [done|]. rewrite fmap_cons. cbn [concat sum_list_with length]. rewrite length_app.
  pose proof (reply_length id Hid). lia.
Qed.
Lemma total_sum sel : Forall (fun x : row => x.2 = Z.of_nat (length (content x.1.2))) sel ->
  total sel = Z.of_nat (sum_list_with (fun x : row => length (content x.1.2)) sel).
Proof. induction 1 as [|x sel Hx _ IH]; [done|]. cbn. unfold total in IH. rewrite IH, Hx. lia. Qed.
Lemma unique_sum (sel : list row) :
  sum_list_with (fun id => length (content id)) (unique_objects sel) <= sum_list_with (fun x : row => length (content x.1.2)) sel.
Proof.
  assert (sum_list_with (fun x : row => length (content x.1.2)) sel = sum_list_with (fun id => length (content id)) ((fun x : row => x.1.2) <$> sel)) as ->
    by (induction sel as [|x sel IH]; [done|]; rewrite fmap_cons; cbn; lia).
  assert (unique_objects sel ⊆+ ((fun x : row => x.1.2) <$> sel)) as Hsub.
  { apply NoDup_submseteq; [apply increasing_NoDup, sort_dedup_increasing|]. intros id. unfold unique_objects. by rewrite elem_of_sort_dedup. }
  apply submseteq_Permutation in Hsub as [rest Hperm]. rewrite Hperm, sum_list_with_app. lia.
Qed.
Lemma unique_length (sel : list row) : length (unique_objects sel) <= length sel.
Proof.
  rewrite <- (length_fmap (fun x : row => x.1.2)). apply submseteq_length, NoDup_submseteq; [apply increasing_NoDup, sort_dedup_increasing|].
  intros id. unfold unique_objects. by rewrite elem_of_sort_dedup.
Qed.

(** ** Loading *)
Section Load.
Variables (run_git : git_command -> Z -> result bytes) (revision prefix : bytes) (paths : list bytes) (max_file max_total : Z).
Hypothesis Hgit : GitObjectStore run_git revision entries content.
Abbreviation requested := (sort_dedup paths).

Definition entry_at (p : bytes) : option TreeEntry := List.find (fun e => bool_decide (entry_path e = prefix ++ p)) entries.
Definition content_at (p : bytes) : bytes := match entry_at p with Some e => content (entry_id e) | None => [] end.
Definition blob_at (p : bytes) : bool := match entry_at p with Some e => is_blob e | None => false end.

Lemma entry_at_spec p e : entry_at p = Some e <-> e ∈ entries /\ entry_path e = prefix ++ p.
Proof.
  unfold entry_at. split.
  - intros [He Hp%bool_decide_eq_true]%find_some. split; [by apply list_elem_of_In|done].
  - intros [He Hp]. destruct (List.find _ entries) as [e'|] eqn:Ef.
    + apply find_some in Ef as [He'%list_elem_of_In Hp'%bool_decide_eq_true]. f_equal.
      apply list_elem_of_lookup in He as [i Hi], He' as [j Hj].
      assert (i = j) as -> by (apply (NoDup_lookup _ i j (prefix ++ p) (tree_distinct _ _ Htree)); by rewrite list_lookup_fmap, ?Hi, ?Hj; cbn; congruence).
      congruence.
    + exfalso. apply list_elem_of_In in He. pose proof (find_none _ _ Ef e He) as Hn. cbn in Hn. by rewrite bool_decide_true in Hn.
Qed.

Definition loaded_bytes (b : GitBlobBatch) : Z :=
  Z.of_nat (sum_list_with (fun p => length (content_at p)) (invalid_utf8_paths b ++ (map_to_list (blobs b)).*1)).
(** Every requested path is in one list, for the reason the list names. *)
Record accounted (b : GitBlobBatch) : Prop := {
  acc_each : requested ≡ₚ missing_paths b ++ oversized_paths b ++ total_limit_paths b ++ invalid_utf8_paths b
             ++ unsupported_paths b ++ (map_to_list (blobs b)).*1;
  acc_missing : Forall (fun p => entry_at p = None) (missing_paths b);
  acc_unsupported : Forall (fun p => entry_at p <> None /\ blob_at p = false) (unsupported_paths b);
  acc_oversized : Forall (fun p => blob_at p = true /\ (max_file < Z.of_nat (length (content_at p)))%Z) (oversized_paths b);
  acc_limit : Forall (fun p => blob_at p = true /\ (Z.of_nat (length (content_at p)) <= max_file)%Z /\
                (max_total < loaded_bytes b + Z.of_nat (length (content_at p)))%Z) (total_limit_paths b);
  acc_invalid : Forall (fun p => blob_at p = true /\ (Z.of_nat (length (content_at p)) <= max_file)%Z /\
                  utf8_valid (content_at p) = false) (invalid_utf8_paths b);
  acc_blobs : forall p c, blobs b !! p = Some c -> blob_at p = true /\ c = content_at p /\ utf8_valid c = true /\
                (Z.of_nat (length c) <= max_file)%Z;
  acc_total : (loaded_bytes b <= max_total)%Z
}.

Definition tree_listing : list TreeEntry := List.filter (pathspec_matches ((fun path => prefix ++ path) <$> requested)) entries.
Lemma in_listing e : e ∈ tree_listing -> e ∈ entries.
Proof. intros [He _]%list_elem_of_In%filter_In. by apply list_elem_of_In. Qed.
Lemma listing_has p e : p ∈ requested -> entry_at p = Some e -> e ∈ tree_listing.
Proof.
  intros Hp [He Hpath]%entry_at_spec. apply list_elem_of_In, filter_In. split; [by apply list_elem_of_In|].
  apply existsb_exists. exists (prefix ++ p). split; [apply list_elem_of_In; by apply list_elem_of_fmap_2|].
  by rewrite bool_decide_true.
Qed.

Lemma record_no_nul e : e ∈ entries -> NUL ∉ tree_record e.
Proof.
  intros He. pose proof (tree_no_nul _ _ Htree) as H1. pose proof (tree_names _ _ Htree) as H2. rewrite Forall_forall in H1, H2.
  specialize (H1 e He). destruct (H2 e He) as [_ Hn]. rewrite !not_elem_of_app in H1. destruct H1 as (Hm & Ht & Hi).
  assert (NUL ∉ size_text (entry_size e)) as Hs.
  { pose proof (tree_sizes _ _ Htree) as Hsz. rewrite Forall_forall in Hsz. specialize (Hsz e He). destruct (is_blob e); rewrite Hsz.
    - cbn [size_text]. intros Hin. destruct (decimal_spec _ (content_bounded e He)) as (_ & _ & Hd). rewrite Forall_forall in Hd.
      by destruct (Hd _ Hin).
    - apply (bool_decide_eq_false (NUL ∈ _)). vm_compute. reflexivity. }
  unfold tree_record, padded. repeat (rewrite not_elem_of_app || rewrite not_elem_of_cons). split_and!; try done.
  by intros [? _]%elem_of_replicate.
Qed.
Lemma split_print rs : Forall (fun r => NUL ∉ r) rs -> split_byte NUL (print_records NUL rs) = rs ++ [[]].
Proof.
  unfold print_records. induction 1 as [|r rs Hr _ IH]; [done|]. rewrite fmap_cons. cbn [concat]. rewrite <- app_assoc.
  induction r as [|b r IHr]; cbn [app split_byte].
  - rewrite bool_decide_true by done. by f_equal.
  - apply not_elem_of_cons in Hr as [Hb Hr]. rewrite bool_decide_false by congruence. specialize (IHr Hr). cbn [app] in IHr. by rewrite IHr.
Qed.
Lemma listed_object l p id size : knows prefix requested tree_listing l -> objects l !! p = Some (id, size) ->
  p ∈ requested /\ blob_at p = true /\ id = default [] (entry_id <$> entry_at p) /\ content id = content_at p /\
  size = Z.of_nat (length (content_at p)) /\ exists e, e ∈ entries /\ is_blob e = true /\ entry_id e = id.
Proof.
  intros (Ho & _) Hl. apply Ho in Hl as (Hp & e & He & Hpath & Hb & -> & ->). apply in_listing in He.
  assert (entry_at p = Some e) as Hat by by apply entry_at_spec. unfold blob_at, content_at. rewrite Hat.
  split_and!; try done. by exists e.
Qed.

Lemma filter_split {A} (f : A -> bool) l : l ≡ₚ List.filter (fun x => negb (f x)) l ++ List.filter f l.
Proof. induction l as [|x l IH]; [done|]. cbn. destruct (f x); cbn; [|by constructor]. rewrite IH at 1. by solve_Permutation. Qed.

Section Accounted.
Variables (l : listing) (s : selection) (found : gmap bytes bytes).
Hypothesis Hk : knows prefix requested tree_listing l.
Hypothesis Hs : sorted_out max_file max_total l requested s.
Abbreviation sel := (selected s).
Abbreviation valid_rows := (List.filter (fun x : row => utf8_valid (content x.1.2)) sel).
Abbreviation invalid_rows := (List.filter (fun x : row => negb (utf8_valid (content x.1.2))) sel).
Hypothesis Hfound : map_to_list found ≡ₚ (fun x : row => (row_path x, content x.1.2)) <$> valid_rows.

Definition batch : GitBlobBatch :=
  {| batch_revision := revision; blobs := found; missing_paths := missing s; oversized_paths := oversized s;
     total_limit_paths := total_limit s; invalid_utf8_paths := row_path <$> invalid_rows; unsupported_paths := unsupported l |}.

Lemma selected_row (x : row) : x ∈ sel -> blob_at (row_path x) = true /\ content x.1.2 = content_at (row_path x) /\
  x.2 = Z.of_nat (length (content_at (row_path x))) /\ (x.2 <= max_file)%Z.
Proof.
  intros Hx. pose proof (out_selected _ _ _ _ _ Hs) as H. rewrite Forall_forall in H. destruct (H x Hx) as [Ho Hle].
  apply (listed_object l) in Ho as (_ & Hb & _ & Hc & Hz & _); done.
Qed.
Lemma found_keys : (map_to_list found).*1 ≡ₚ row_path <$> valid_rows.
Proof. rewrite Hfound, <- list_fmap_compose. done. Qed.
Lemma row_paths : row_path <$> sel ≡ₚ invalid_utf8_paths batch ++ (map_to_list (blobs batch)).*1.
Proof. cbn [batch invalid_utf8_paths blobs]. rewrite found_keys, <- fmap_app. by rewrite <- filter_split. Qed.
Lemma loaded_total : loaded_bytes batch = total_bytes s.
Proof.
  rewrite (out_total _ _ _ _ _ Hs), total_sum.
  2: { apply Forall_forall. intros x Hx. destruct (selected_row x Hx) as (_ & -> & ? & _). done. }
  unfold loaded_bytes. f_equal. rewrite <- row_paths.
  assert (Forall (fun x : row => content x.1.2 = content_at (row_path x)) sel) as Hall
    by (apply Forall_forall; intros x Hx; by destruct (selected_row x Hx) as (_ & ? & _)).
  clear -Hall. induction Hall as [|x r Hx _ IH]; [done|]. rewrite fmap_cons. cbn [sum_list_with]. by rewrite IH, Hx.
Qed.
Lemma unsupported_exact : List.filter (fun p => bool_decide (objects l !! p = None /\ p ∈ present l)) requested ≡ₚ unsupported l.
Proof.
  pose proof Hk as (Ho & Hp & Hu & Hnd).
  apply NoDup_Permutation; [apply NoDup_ListNoDup, List.NoDup_filter, NoDup_ListNoDup, increasing_NoDup, sort_dedup_increasing|done|].
  intros p. rewrite list_elem_of_In, filter_In, <- list_elem_of_In, bool_decide_eq_true, Hp, Hu. split.
  - intros (_ & Hnone & Hr & e & He & Hpath). split; [done|]. exists e. split; [done|]. split; [done|].
    destruct (is_blob e) eqn:Eb; [|done]. exfalso.
    assert (objects l !! p = Some (entry_id e, Z.of_nat (length (content (entry_id e))))) as Hsome by (apply Ho; split; [done|]; by exists e).
    congruence.
  - intros (Hr & e & He & Hpath & Hb). split; [done|]. split; [|split; [done|by exists e]].
    destruct (objects l !! p) as [[id size]|] eqn:Eo; [|done]. exfalso. apply Ho in Eo as (_ & e' & He' & Hpath' & Hb' & _).
    assert (entry_at p = Some e) as H1 by (apply entry_at_spec; split; [by apply in_listing|done]).
    assert (entry_at p = Some e') as H2 by (apply entry_at_spec; split; [by apply in_listing|done]). congruence.
Qed.

Lemma batch_accounted : accounted batch.
Proof.
  pose proof Hk as (Ho & Hp & Hu & Hnd). destruct Hs as [Ha Hm Hov Hlim Hsel Ht Hb].
  assert (forall p id size, objects l !! p = Some (id, size) -> blob_at p = true /\ size = Z.of_nat (length (content_at p))) as Hobj
    by (intros p id size (_ & ? & _ & _ & ? & _)%(listed_object l); done).
  assert (Forall (fun p => p ∈ requested) (missing s)) as Hmr.
  { apply Forall_forall. intros p Hpm. rewrite Ha. rewrite elem_of_app. by left. }
  split; cbn [batch missing_paths oversized_paths total_limit_paths invalid_utf8_paths unsupported_paths blobs].
  - rewrite Ha at 1. rewrite unsupported_exact, row_paths. cbn [batch invalid_utf8_paths blobs]. rewrite <- !app_assoc. by solve_Permutation.
  - apply Forall_forall. intros p Hpm. rewrite Forall_forall in Hm, Hmr. destruct (Hm p Hpm) as [_ Hnp].
    destruct (entry_at p) as [e|] eqn:Ee; [|done]. exfalso. apply Hnp, Hp. split; [by apply Hmr|]. exists e.
    split; [by apply (listing_has p); [apply Hmr|]|]. by apply entry_at_spec in Ee as [_ ?].
  - apply Forall_forall. intros p (Hr & e & He & Hpath & Heb)%Hu.
    assert (entry_at p = Some e) as Hat by (apply entry_at_spec; split; [by apply in_listing|done]). unfold blob_at. by rewrite Hat.
  - eapply Forall_impl; [exact Hov|]. intros p (id & size & [Hb1 ->]%Hobj & Hlt). done.
  - rewrite loaded_total. eapply Forall_impl; [exact Hlim|]. intros p (id & size & [Hb1 ->]%Hobj & Hle & Hlt). done.
  - apply Forall_fmap, Forall_forall. intros x [Hx Hv%negb_true_iff]%list_elem_of_In%filter_In. apply list_elem_of_In in Hx.
    destruct (selected_row x Hx) as (H1 & H2 & H3 & H4). cbn. rewrite <- H2 at 2. rewrite H3 in H4. done.
  - intros p c Hc. apply elem_of_map_to_list in Hc. rewrite Hfound in Hc. apply list_elem_of_fmap in Hc as (x & [= -> ->] & Hx).
    apply list_elem_of_In, filter_In in Hx as [Hx Hv]. apply list_elem_of_In in Hx.
    destruct (selected_row x Hx) as (H1 & H2 & H3 & H4). rewrite H2 in *. rewrite H3 in H4. done.
  - rewrite loaded_total. lia.
Qed.
End Accounted.

(** The listing fits the bound the code computes for it. *)
Definition listing_fits : Prop :=
  (Z.of_nat (length (print_records NUL (tree_record <$> tree_listing))) <= tree_output_limit requested)%Z.
#[export] Instance listing_fits_dec : Decision listing_fits.
Proof. unfold listing_fits. apply _. Defined.

(** No path is requested: nothing is listed. *)
Lemma nothing_fits : requested = [] -> listing_fits.
Proof.
  intros He. unfold listing_fits, tree_listing. rewrite He. cbn [fmap list_fmap]. unfold pathspec_matches. cbn [existsb].
  assert (forall l : list TreeEntry, List.filter (fun _ => false) l = []) as -> by (by intros l; induction l).
  unfold tree_output_limit. cbn. lia.
Qed.

Lemma load_spec : (0 <= max_total)%Z -> (max_total + 96 * Z.of_nat (length paths) + 1024 <= U64_MAX)%Z -> listing_fits ->
  exists b, git_blobs_at_resolved_revision run_git revision prefix paths max_file max_total = Ok b /\ accounted b.
Proof.
  intros Hmax0 Hmax Hfits. unfold git_blobs_at_resolved_revision. destruct (bool_decide_reflect (requested = [])) as [He|_].
  { eexists. split; [done|]. split; cbn [missing_paths oversized_paths total_limit_paths invalid_utf8_paths unsupported_paths blobs];
      [by rewrite He, map_to_list_empty|constructor..|by intros p c; rewrite lookup_empty|].
    unfold loaded_bytes. cbn [invalid_utf8_paths blobs]. rewrite map_to_list_empty. cbn. lia. }
  rewrite (ls_tree_lists _ _ Hfits). cbn [result_bind]. fold tree_listing.
  rewrite split_print by (apply Forall_fmap, Forall_forall; intros e He; by apply record_no_nul, in_listing).
  destruct (tree_records_spec prefix requested tree_listing [] (mk_listing ∅ ∅ [])) as (l & -> & Hk).
  { split_and!; [| | |apply NoDup_nil_2]; cbn.
    - intros p id size. rewrite lookup_empty. split; [done|]. by intros (_ & e & ?%not_elem_of_nil & _).
    - intros p. split; [by intros ?%not_elem_of_empty|]. by intros (_ & e & ?%not_elem_of_nil & _).
    - intros p. split; [by intros ?%not_elem_of_nil|]. by intros (_ & e & ?%not_elem_of_nil & _). }
  { apply Forall_forall, in_listing. }
  { cbn [app]. unfold tree_listing. pose proof (tree_distinct _ _ Htree) as Hd. clear -Hd. induction entries as [|e es IH]; [done|].
    rewrite fmap_cons in Hd. apply NoDup_cons in Hd as [Hni Hd]. cbn. destruct (pathspec_matches _ e); [|by apply IH].
    rewrite fmap_cons. apply NoDup_cons. split; [|by apply IH]. intros (x & Hx & Hin)%list_elem_of_fmap. apply Hni. rewrite Hx.
    apply list_elem_of_fmap_2. apply list_elem_of_In, filter_In in Hin as [? _]. by apply list_elem_of_In. }
  cbn [result_bind app] in *. set (s := select max_file max_total l requested).
  assert (forall p id size, objects l !! p = Some (id, size) -> (0 <= size <= U64_MAX)%Z) as Hsz.
  { intros p id size (_ & _ & _ & <- & -> & e & He & _ & <-)%(listed_object l _ _ _ Hk). by apply content_bounded. }
  pose proof (select_spec max_file max_total l ltac:(lia) Hsz requested) as Hs. fold s in Hs.
  assert (Forall (fun x : row => x.2 = Z.of_nat (length (content x.1.2)) /\
    exists e, e ∈ entries /\ is_blob e = true /\ entry_id e = x.1.2) (selected s)) as Hrows.
  { pose proof (out_selected _ _ _ _ _ Hs) as Hsel. eapply Forall_impl; [exact Hsel|]. intros x [Ho _].
    apply (listed_object l _ _ _ Hk) in Ho as (_ & _ & _ & -> & -> & He). done. }
  assert (Forall (fun x : row => x.2 = Z.of_nat (length (content x.1.2))) (selected s)) as Hlens
    by (eapply Forall_impl; [exact Hrows|]; by intros x [? _]).
  set (ids := unique_objects (selected s)).
  assert (forall id, id ∈ ids <-> id ∈ ((fun x : row => x.1.2) <$> selected s)) as Hids by (intros id; apply elem_of_sort_dedup).
  assert (Forall (fun id => exists e, e ∈ entries /\ is_blob e = true /\ entry_id e = id) ids) as Hblobs.
  { apply Forall_forall. intros id Hid. apply Hids, list_elem_of_fmap in Hid as (x & -> & Hx). rewrite Forall_forall in Hrows. by apply Hrows. }
  assert (Forall (fun id => length id <= 64) ids /\ Forall word ids) as [Hshort Hwords].
  { pose proof (tree_ids _ _ Htree) as H1. pose proof (tree_words _ _ Htree) as H2. rewrite Forall_forall in H1, H2.
    split; (eapply Forall_impl; [exact Hblobs|]); intros id (e & He & _ & <-); [by apply H1|by apply H2]. }
  set (output := concat (cat_reply content <$> ids)).
  assert (length output <= 96 * length ids + sum_list_with (fun id => length (content id)) ids) as Hout by by apply replies_length.
  assert (sum_list_with (fun id => length (content id)) ids <= Z.to_nat (total_bytes s)) as Hsum.
  { rewrite (out_total _ _ _ _ _ Hs), (total_sum _ Hlens), Nat2Z.id. apply unique_sum. }
  assert (length ids <= length paths) as Hcount.
  { pose proof (unique_length (selected s)) as H1. fold ids in H1. pose proof (out_all _ _ _ _ _ Hs) as H2. apply Permutation_length in H2.
    rewrite !length_app, length_fmap in H2. assert (length requested <= length paths) as H3; [|lia].
    apply submseteq_length, NoDup_submseteq; [apply increasing_NoDup, sort_dedup_increasing|]. intros p. by rewrite elem_of_sort_dedup. }
  pose proof (out_bound _ _ _ _ _ Hs) as Hbound.
  assert ((if bool_decide (concat ((fun id => id ++ [NL]) <$> ids) = []) then Ok []
    else run_git (CatFileBatch (concat ((fun id => id ++ [NL]) <$> ids))) (batch_output_limit s)) = Ok output) as ->.
  { destruct (bool_decide_reflect (concat ((fun id => id ++ [NL]) <$> ids) = [])) as [He|Hne].
    - subst output. destruct ids as [|id ids']; [done|]. rewrite fmap_cons in He. cbn in He. by destruct id.
    - apply (cat_file_prints ids); [done|]. fold output. unfold batch_output_limit, u64_saturating_add. fold ids. unfold U64_MAX in *. lia. }
  cbn [result_bind].
  pose proof (read_batch_spec (sizes_of (selected s)) ids Hwords) as Hread. specialize (Hread ltac:(
    apply Forall_forall; intros id Hid; rewrite Forall_forall in Hblobs; destruct (Hblobs id Hid) as (e & He & _ & <-);
    split; [apply sizes_of_spec; [done|by apply Hids]|by apply content_bounded]) [] ∅).
  cbn [app length] in Hread. fold output in Hread. rewrite Hread by (unfold U64_MAX in *; lia). cbn [result_bind fst snd].
  rewrite Nat.eqb_refl. cbn [negb].
  destruct (take_blobs_spec (loaded ids ∅) (selected s)) with (found := ∅ : gmap bytes bytes) (invalid := [] : list bytes)
    as (found & -> & Hfound).
  { apply Forall_forall. intros x Hx. apply loaded_lookup. right. apply Hids. by apply (list_elem_of_fmap_2 (fun x : row => x.1.2)). }
  { pose proof (out_all _ _ _ _ _ Hs) as Hall. assert (NoDup requested) as Hnd by apply increasing_NoDup, sort_dedup_increasing.
    rewrite Hall in Hnd. do 3 apply NoDup_app in Hnd as (_ & _ & Hnd). by apply NoDup_app in Hnd as (? & _). }
  { apply Forall_forall. intros x _. apply lookup_empty. }
  cbn [result_bind fst snd app]. eexists. split; [done|]. rewrite map_to_list_empty in Hfound. cbn [app] in Hfound.
  exact (batch_accounted l s found Hk Hs Hfound).
Qed.

(** A listing beyond the bound is the error that Git's output exceeded it. *)
Lemma load_exceeds : ~ listing_fits ->
  git_blobs_at_resolved_revision run_git revision prefix paths max_file max_total = Err (output_limit_error (tree_output_limit requested)).
Proof.
  intros Hno. unfold git_blobs_at_resolved_revision. rewrite bool_decide_false by (by intros He; apply Hno, nothing_fits).
  rewrite ls_tree_bounded by (unfold listing_fits, tree_listing in Hno; lia). done.
Qed.
End Load.
End Git.

(** C29: the files of a revision are loaded or accounted for.  Over a Git that lists
    the tree and prints its objects within the bound on its output, loading a set of
    paths succeeds exactly when the listing of the paths fits the bound the code
    computes from them; otherwise it is an error, and the error is that the limit on
    Git's output was exceeded.  When it succeeds, every path of the set is in exactly one
    list of the batch: loaded, with the contents the revision has at that path and no
    more bytes than the bound on a file; missing, when the tree has no such file;
    unsupported, when it is not a blob; too large for either bound; or not UTF-8.  What
    was loaded is within the total bound, and a path was left out for it only when it
    would have exceeded it.  A listing exceeds the bound below a deep directory, whose
    name Git prints in front of every path and the bound does not count. *)
Theorem blobs_account_for_every_path (content : bytes -> bytes) (entries : list TreeEntry)
    (run_git : git_command -> Z -> result bytes) (revision prefix : bytes) (paths : list bytes) (max_file max_total : Z)
    (Htree : tree_ok content entries) (Hgit : GitObjectStore run_git revision entries content)
    (Htotal : (0 <= max_total /\ max_total + 96 * Z.of_nat (length paths) + 1024 <= U64_MAX)%Z) :
  match git_blobs_at_resolved_revision run_git revision prefix paths max_file max_total with
  | Ok b => listing_fits entries prefix paths /\ accounted content entries prefix paths max_file max_total b
  | Err e => ~ listing_fits entries prefix paths /\
      e = output_limit_error (tree_output_limit (sort_dedup paths))
  end.
Proof.
  destruct Htotal. destruct (decide (listing_fits entries prefix paths)) as [Hfits|Hno].
  - destruct (load_spec content entries Htree run_git revision prefix paths max_file max_total) as (b & -> & Hb); [done..|by split].
  - rewrite (load_exceeds content entries) by done. by split.
Qed.

(** ** A Git that behaves as documented *)
Section Reference.
Variables (content : bytes -> bytes) (entries : list TreeEntry).
Definition within (limit : Z) (output : bytes) : result bytes :=
  if (Z.of_nat (length output) <=? limit)%Z then Ok output
  else Err (output_limit_error limit).
Definition reference_git (c : git_command) (limit : Z) : result bytes :=
  match c with
  | LsTree _ specs => within limit (print_records NUL (tree_record <$> List.filter (pathspec_matches specs) entries))
  | CatFileBatch input => within limit (concat (cat_reply content <$> ((fun r => default r (strip_last NL r)) <$> records NL input)))
  end.
Lemma reference_git_store revision : tree_ok content entries -> GitObjectStore reference_git revision entries content.
Proof.
  intros Htree. split.
  - intros specs limit output Hle. cbn. unfold within. fold output. by rewrite (proj2 (Z.leb_le _ _)).
  - intros specs limit output Hlt. cbn. unfold within. fold output. by rewrite (proj2 (Z.leb_gt _ _)).
  - intros ids limit Hids output Hle. cbn. rewrite records_print.
    + assert ((fun r => default r (strip_last NL r)) <$> ((fun r => r ++ [NL]) <$> ids) = ids) as ->.
      { clear. induction ids as [|id ids IH]; [done|]. rewrite !fmap_cons, strip_last_snoc. cbn. by rewrite IH. }
      fold output. unfold within. by rewrite (proj2 (Z.leb_le _ _)).
    + eapply Forall_impl; [exact Hids|]. intros id (e & He & _ & <-) Hin. pose proof (tree_words _ _ Htree) as Hw.
      rewrite Forall_forall in Hw. destruct (Hw e He) as (_ & _ & Hp & _). rewrite Forall_forall in Hp. by destruct (Hp _ Hin).
Qed.
End Reference.

Module Demo.
Definition content (id : bytes) : bytes :=
  if bool_decide (id = lit_bytes "1a") then lit_bytes "fn main() {}"
  else if bool_decide (id = lit_bytes "2b") then [Byte.xff] else lit_bytes "0123456789012345678901234567890123456789".
Definition entry (kind id : string) (size : option Z) (path : string) : TreeEntry :=
  {| entry_mode := lit_bytes "100644"; entry_type := lit_bytes kind; entry_id := lit_bytes id; entry_size := size; entry_path := lit_bytes path |}.
Definition entries : list TreeEntry := [
  entry "blob" "1a" (Some 12%Z) "pkg/main.rs"; entry "blob" "2b" (Some 1%Z) "pkg/raw.bin"; entry "blob" "3c" (Some 40%Z) "pkg/big.rs";
  entry "commit" "4d" None "pkg/module"; entry "blob" "1a" (Some 12%Z) "pkg/copy.rs"; entry "blob" "1a" (Some 12%Z) "README" ].
Definition paths : list bytes := lit_bytes <$> ["raw.bin"; "main.rs"; "gone.rs"; "module"; "big.rs"; "copy.rs"; "main.rs"].
Definition prefix : bytes := lit_bytes "pkg/".
Definition load (max_total : Z) : result GitBlobBatch :=
  git_blobs_at_resolved_revision (reference_git content entries) (lit_bytes "abc123") prefix paths 20 max_total.

Example loaded_batch : match load 15 with
  | Ok b => ((fun x => (text_of x.1, text_of x.2)) <$> map_to_list (blobs b), text_of <$> missing_paths b, text_of <$> oversized_paths b,
             text_of <$> total_limit_paths b, text_of <$> invalid_utf8_paths b, text_of <$> unsupported_paths b) =
            ([("copy.rs", "fn main() {}")], ["gone.rs"], ["big.rs"], ["main.rs"], ["raw.bin"], ["module"])
  | Err _ => False
  end.
Proof. vm_compute. reflexivity. Qed.

Lemma word_by (w : bytes) : forallb (fun b => is_ascii b && negb (ws1 b)) w = true -> w <> [] -> word w.
Proof.
  rewrite forallb_forall. intros H Hne. split; [|done]. apply Forall_forall. intros b Hb%list_elem_of_In. specialize (H b Hb).
  apply andb_true_iff in H as [? ?%negb_true_iff]. done.
Qed.
Lemma entries_ok : tree_ok content entries.
Proof.
  split.
  - apply (bool_decide_eq_true_1 (NoDup _)). vm_compute. reflexivity.
  - repeat constructor; by vm_compute.
  - repeat constructor; apply (bool_decide_eq_false (NUL ∈ _)); vm_compute; reflexivity.
  - repeat constructor; try (vm_compute; reflexivity); apply (bool_decide_eq_false (NUL ∈ _)); vm_compute; reflexivity.
  - repeat constructor.
  - repeat constructor; by apply Nat.leb_le.
  - repeat constructor.
Qed.
Lemma paths_fit : listing_fits entries prefix paths.
Proof. apply Z.leb_le. vm_compute. reflexivity. Qed.

Lemma blobs_account_for_every_path_witness :
  listing_fits entries prefix paths /\
  match load 15 with
  | Ok b => listing_fits entries prefix paths /\ accounted content entries prefix paths 20 15 b
  | Err e => ~ listing_fits entries prefix paths /\ e = output_limit_error (tree_output_limit (sort_dedup paths))
  end.
Proof.
  split; [exact paths_fit|].
  apply (blobs_account_for_every_path content entries (reference_git content entries) (lit_bytes "abc123") prefix paths 20 15);
    [exact entries_ok|apply reference_git_store, entries_ok|unfold U64_MAX; cbn; lia].
Defined.

(** The bound on the listing counts the requested paths and not the prefix in front of
    them: below a deep directory the listing of one ordinary file exceeds it. *)
Definition deep : bytes := concat (replicate 120 (lit_bytes "directory/")).
Definition deep_entry : TreeEntry :=
  {| entry_mode := lit_bytes "100644"; entry_type := lit_bytes "blob"; entry_id := replicate 40 Byte.x61; entry_size := Some 12%Z;
     entry_path := deep ++ lit_bytes "a.rs" |}.
Example deep_listing_exceeds_limit :
  git_blobs_at_resolved_revision (reference_git (fun _ => lit_bytes "fn main() {}") [deep_entry]) [] deep [lit_bytes "a.rs"] 100 100 =
  Err (RequestLimitExceeded "git output bytes" 1189 1188).
Proof. vm_compute. reflexivity. Qed.
End Demo.
