(* ===== verification/Candidates.v ===== *)
(** * Ranking candidates

    [Candidate], [Weights] and [score] of [src/src/ranking/candidate.rs],
    [ScoredCandidate] and [rank] of [ranking/scored.rs], and the deduplication
    of [ranking/dedup.rs].  The tokenizer and BLAKE3 are parameters. *)

From S2P Require Import Prelude Chars Float64.
Open Scope Z_scope.

(** ** Data *)
Record Weights := mk_weights {
  w_exact : f64;
  w_symbol : f64;
  w_reference : f64;
  w_bm25 : f64;
  w_path : f64;
  w_lexical_frequency_penalty : f64;
  w_size : f64;
  w_focus : f64;
  w_import : f64;
  w_change : f64
}.
Definition default_weights : Weights :=
  mk_weights f64_one (f64_ratio 8 10) (f64_ratio 5 10) (f64_ratio 4 10) (f64_ratio 25 100)
    (f64_ratio 25 100) (f64_ratio 15 100) (f64_ratio 35 100) (f64_ratio 25 100) (f64_ratio 2 10).

Record Candidate := mk_candidate {
  path : str;
  start_line : Z;
  end_line : Z;
  content : str;
  match_kinds : list str;
  concepts : list str;
  concept_weight : f64;
  representation : str;
  symbol_name : option str;
  target_range : option (Z * Z);
  exact : f64;
  symbol : f64;
  reference : f64;
  bm25 : f64;
  path_score : f64;
  lexical_frequency_penalty : f64;
  size_score : f64;
  focus_boost : f64;
  import_boost : f64;
  change_boost : f64
}.

(** [Candidate::new]. *)
Definition new_candidate (path : str) (start_line end_line : Z) (content : str) : Candidate :=
  mk_candidate path start_line end_line content [] [] f64_zero (lit "source") None None
    f64_zero f64_zero f64_zero f64_zero f64_zero f64_zero f64_zero f64_zero f64_zero f64_zero.

(** [CandidateTargetRange::new]: lines are not zero and in order. *)
Definition new_target_range (start_line end_line : Z) : option (Z * Z) :=
  if (0 <? start_line) && (0 <? end_line) && (start_line <=? end_line)
  then Some (start_line, end_line) else None.

Definition with_match_kinds (kinds : list str) (c : Candidate) : Candidate :=
  mk_candidate (path c) (start_line c) (end_line c) (content c) kinds (concepts c)
    (concept_weight c) (representation c) (symbol_name c) (target_range c) (exact c) (symbol c)
    (reference c) (bm25 c) (path_score c) (lexical_frequency_penalty c) (size_score c)
    (focus_boost c) (import_boost c) (change_boost c).
Definition with_concepts (cs : list str) (weight : f64) (c : Candidate) : Candidate :=
  mk_candidate (path c) (start_line c) (end_line c) (content c) (match_kinds c) cs weight
    (representation c) (symbol_name c) (target_range c) (exact c) (symbol c) (reference c) (bm25 c)
    (path_score c) (lexical_frequency_penalty c) (size_score c) (focus_boost c) (import_boost c)
    (change_boost c).
Definition with_focus_boost (boost : f64) (c : Candidate) : Candidate :=
  mk_candidate (path c) (start_line c) (end_line c) (content c) (match_kinds c) (concepts c)
    (concept_weight c) (representation c) (symbol_name c) (target_range c) (exact c) (symbol c)
    (reference c) (bm25 c) (path_score c) (lexical_frequency_penalty c) (size_score c) boost
    (import_boost c) (change_boost c).

(** [Vec::contains] then [push]. *)
Definition push_new (values : list str) (value : str) : list str :=
  if bool_decide (value ∈ values) then values else values ++ [value].

(** [Candidate::match_kind], [push_metadata] and [concept]. *)
Definition match_kind (kind : str) (c : Candidate) : Candidate :=
  with_match_kinds (match_kinds c ++ [kind]) c.
Definition push_metadata (value : str) (c : Candidate) : Candidate :=
  with_match_kinds (push_new (match_kinds c) value) c.
Definition add_concept (value : str) (weight : f64) (c : Candidate) : Candidate :=
  with_concepts (if bool_decide (value = []) then concepts c else push_new (concepts c) value)
    (f64_max (concept_weight c) (f64_clamp weight f64_zero (f64_of_Z 2))) c.

(** [target_truncated] and [line_count]. *)
Definition target_truncated (c : Candidate) : bool :=
  match target_range c with
  | Some (start, finish) => (start <? start_line c) || (end_line c <? finish)
  | None => false
  end.
Definition line_count (c : Candidate) : Z :=
  if start_line c <=? end_line c then end_line c - start_line c + 1 else 0.

(** [bounded_count_f64] and [Candidate::score]. *)
Definition bounded_count_f64 (value : Z) : f64 := f64_of_Z value.

Definition score_of (w : Weights) (token_count : Z) (c : Candidate) : f64 :=
  let bm25_norm := f64_div (bm25 c) (f64_add f64_one (bm25 c)) in
  let size :=
    if f64_eqb (size_score c) f64_zero
    then f64_div f64_one
           (f64_add f64_one (f64_div (bounded_count_f64 token_count) (f64_of_Z 150)))
    else size_score c in
  let base :=
    f64_add (f64_add (f64_add (f64_add (f64_add
      (f64_mul (exact c) (w_exact w)) (f64_mul (symbol c) (w_symbol w)))
      (f64_mul (reference c) (w_reference w))) (f64_mul bm25_norm (w_bm25 w)))
      (f64_mul (path_score c) (w_path w))) (f64_mul size (w_size w)) in
  let penalty := f64_mul (lexical_frequency_penalty c) (w_lexical_frequency_penalty w) in
  let boost :=
    f64_add (f64_add (f64_mul (focus_boost c) (w_focus w)) (f64_mul (import_boost c) (w_import w)))
      (f64_mul (change_boost c) (w_change w)) in
  f64_max (f64_sub (f64_add base boost) penalty) f64_zero.

Record ScoredCandidate := mk_scored {
  candidate : Candidate;
  score : f64;
  token_count : Z;
  content_hash : string;
  marginal_score : f64
}.

Definition scored_path (c : ScoredCandidate) : str := path (candidate c).

(** ** Merging *)
Definition merge_candidate_signals (existing duplicate : Candidate) : Candidate :=
  let takes_target :=
    match target_range existing, target_range duplicate with None, Some _ => true | _, _ => false end in
  mk_candidate (path existing) (start_line existing) (end_line existing) (content existing)
    (fold_left push_new (match_kinds duplicate) (match_kinds existing))
    (fold_left push_new (concepts duplicate) (concepts existing))
    (f64_max (concept_weight existing) (concept_weight duplicate))
    (if takes_target then representation duplicate else representation existing)
    (if takes_target then symbol_name duplicate
     else match symbol_name existing with Some n => Some n | None => symbol_name duplicate end)
    (if takes_target then target_range duplicate else target_range existing)
    (f64_max (exact existing) (exact duplicate))
    (f64_max (symbol existing) (symbol duplicate))
    (f64_max (reference existing) (reference duplicate))
    (f64_max (bm25 existing) (bm25 duplicate))
    (f64_max (path_score existing) (path_score duplicate))
    (f64_min (lexical_frequency_penalty existing) (lexical_frequency_penalty duplicate))
    (f64_max (size_score existing) (size_score duplicate))
    (f64_max (focus_boost existing) (focus_boost duplicate))
    (f64_max (import_boost existing) (import_boost duplicate))
    (f64_max (change_boost existing) (change_boost duplicate)).

Definition merge_scored_candidate (w : Weights) (existing duplicate : ScoredCandidate)
    : ScoredCandidate :=
  let c := merge_candidate_signals (candidate existing) (candidate duplicate) in
  let s := score_of w (token_count existing) c in
  mk_scored c s (token_count existing) (content_hash existing)
    (f64_div s (bounded_count_f64 (token_count existing))).

(** ** Orders *)

(** Score first, then path and starting line: the order of [rank]. *)
Definition by_score (a b : ScoredCandidate) : comparison :=
  then_cmp (f64_total_cmp (score b) (score a))
    (then_cmp (str_cmp (scored_path a) (scored_path b))
       (start_line (candidate a) ?= start_line (candidate b))).
(** The order [deduplicate_with_options] visits candidates in. *)
Definition by_exact (a b : ScoredCandidate) : comparison :=
  then_cmp (f64_total_cmp (exact (candidate b)) (exact (candidate a))) (by_score a b).

(** ** Duplicates *)
Definition REQUIRED_EVIDENCE_PREFIX : str := lit "required_evidence:".
Definition starts_with (p s : str) : bool :=
  match strip_prefix p s with Some _ => true | None => false end.

Definition overlapping_provenance_is_compatible (retained secondary : Candidate) : bool :=
  forallb (fun kind => bool_decide (kind ∈ match_kinds retained))
    (List.filter (starts_with REQUIRED_EVIDENCE_PREFIX) (match_kinds secondary)).

(** [usize] subtraction and addition, which wrap in a release build. *)
Definition usize_wrap (n : Z) : Z := n mod 2 ^ 64.

Definition overlaps_half (c existing : Candidate) : bool :=
  if (end_line c <? start_line existing) || (end_line existing <? start_line c) then false
  else
    let overlap_start := Z.max (start_line c) (start_line existing) in
    let overlap_end := Z.min (end_line c) (end_line existing) in
    let overlap_lines := usize_wrap (usize_wrap (overlap_end - overlap_start) + 1) in
    let min_lines := Z.min (line_count c) (line_count existing) in
    div_ceil2 min_lines <=? overlap_lines.
Definition is_duplicate_of (c existing : Candidate) : bool :=
  overlaps_half c existing && overlapping_provenance_is_compatible existing c.

Record DedupState := mk_dedup {
  kept : list ScoredCandidate;
  seen_hashes : gmap (str * string) nat;
  kept_by_path : gmap str (list nat)
}.

(** [indices.iter().find] of a kept duplicate. *)
Definition find_duplicate (c : ScoredCandidate) (d : DedupState) : option nat :=
  List.find (fun i => match kept d !! i with
                      | Some existing => is_duplicate_of (candidate c) (candidate existing)
                      | None => false
                      end) (default [] (kept_by_path d !! scored_path c)).

Section Ranking.
Variable count_tokens : str -> Z.
Variable hash : str -> string.
Variable weights : Weights.

Definition new_scored (c : Candidate) : ScoredCandidate :=
  let tokens := Z.max (count_tokens (content c)) 1 in
  let s := score_of weights tokens c in
  mk_scored c s tokens (hash (content c)) (f64_div s (bounded_count_f64 tokens)).

Definition rank (candidates : list Candidate) : list ScoredCandidate :=
  sort_by by_score (map new_scored candidates).

Definition merge_at (i : nat) (c : ScoredCandidate) (d : DedupState) : DedupState :=
  mk_dedup (alter (fun existing => merge_scored_candidate weights existing c) i (kept d))
    (seen_hashes d) (kept_by_path d).

Definition dedup_step (d : DedupState) (c : ScoredCandidate) : DedupState :=
  let key := (scored_path c, content_hash c) in
  match seen_hashes d !! key with
  | Some existing => merge_at existing c d
  | None =>
    match find_duplicate c d with
    | Some existing => merge_at existing c d
    | None =>
      let index := length (kept d) in
      mk_dedup (kept d ++ [c]) (<[key := index]> (seen_hashes d))
        (<[scored_path c := default [] (kept_by_path d !! scored_path c) ++ [index]]>
           (kept_by_path d))
    end
  end.

Definition deduplicate_with_options (candidates : list ScoredCandidate) : list ScoredCandidate :=
  sort_by by_score
    (kept (fold_left dedup_step (sort_by by_exact candidates) (mk_dedup [] ∅ ∅))).
End Ranking.

#[export] Instance by_score_preorder : TotalPreorder by_score.
Proof.
  unfold by_score. apply @then_preorder.
  - apply (flip_preorder (fun a b => f64_total_cmp (score a) (score b))).
  - apply @then_preorder; apply _.
Qed.

(** ** Lemmas: signals *)
Lemma push_new_elem values value x : x ∈ push_new values value <-> x ∈ values \/ x = value.
Proof.
  unfold push_new. case_bool_decide as Hv; [naive_solver|]. rewrite elem_of_app, list_elem_of_singleton. tauto.
Qed.
Lemma fold_push_new_elem l values x : x ∈ fold_left push_new l values <-> x ∈ values \/ x ∈ l.
Proof.
  revert values. induction l as [|v l IH]; intros values; cbn.
  - split; [by left|]. by intros [|?%elem_of_nil].
  - rewrite IH, push_new_elem, elem_of_cons. tauto.
Qed.

(** What merging leaves alone. *)
Definition same_fragment (k c : ScoredCandidate) : Prop :=
  scored_path k = scored_path c /\ start_line (candidate k) = start_line (candidate c)
  /\ end_line (candidate k) = end_line (candidate c) /\ content (candidate k) = content (candidate c)
  /\ content_hash k = content_hash c /\ token_count k = token_count c.

Definition kinds (c : ScoredCandidate) : list str := match_kinds (candidate c).
Definition is_marker (kind : str) : bool := starts_with REQUIRED_EVIDENCE_PREFIX kind.

Lemma merge_same w k c k' : same_fragment k k' -> same_fragment (merge_scored_candidate w k c) k'.
Proof. done. Qed.
Lemma merge_kinds w k c x : x ∈ kinds (merge_scored_candidate w k c) <-> x ∈ kinds k \/ x ∈ kinds c.
Proof. unfold kinds. cbn. apply fold_push_new_elem. Qed.
Lemma merge_concepts w k c x : x ∈ concepts (candidate (merge_scored_candidate w k c))
  <-> x ∈ concepts (candidate k) \/ x ∈ concepts (candidate c).
Proof. cbn. apply fold_push_new_elem. Qed.
Lemma overlaps_half_same c c' k k' : same_fragment c c' -> same_fragment k k' ->
  overlaps_half (candidate c) (candidate k) = overlaps_half (candidate c') (candidate k').
Proof.
  intros (_ & Hs & He & _) (_ & Hs' & He' & _). unfold overlaps_half, line_count. by rewrite Hs, He, Hs', He'.
Qed.

(** [k] stands for [c]: it carries its signals, and has its content or covers
    half of its lines. *)
Definition stands_for (k c : ScoredCandidate) : Prop :=
  scored_path k = scored_path c /\ kinds c ⊆ kinds k
  /\ concepts (candidate c) ⊆ concepts (candidate k)
  /\ (content_hash k = content_hash c \/ overlaps_half (candidate c) (candidate k) = true).

(** ** The invariant of the loop *)
Record deduped (seen : list ScoredCandidate) (d : DedupState) : Prop := {
  dd_origin : forall k, k ∈ kept d -> exists c, c ∈ seen /\ same_fragment k c;
  dd_hashes : forall key i, seen_hashes d !! key = Some i <->
    exists k, kept d !! i = Some k /\ key = (scored_path k, content_hash k);
  dd_paths : forall p i, i ∈ default [] (kept_by_path d !! p) <->
    exists k, kept d !! i = Some k /\ scored_path k = p;
  dd_stands : forall c, c ∈ seen -> exists k, k ∈ kept d /\ stands_for k c;
  dd_markers : forall k kind, k ∈ kept d -> kind ∈ kinds k -> is_marker kind = true ->
    exists c, c ∈ seen /\ scored_path c = scored_path k /\ content_hash c = content_hash k
              /\ kind ∈ kinds c;
  dd_apart : (forall c kind, c ∈ seen -> kind ∈ kinds c -> is_marker kind = false) ->
    forall i j k k', (i < j)%nat -> kept d !! i = Some k -> kept d !! j = Some k' ->
    scored_path k = scored_path k' -> overlaps_half (candidate k') (candidate k) = false
}.

Lemma deduped_nil : deduped [] (mk_dedup [] ∅ ∅).
Proof.
  split; cbn; intros *; rewrite ?lookup_empty, ?elem_of_nil; try done.
  all: split; [done|]; by intros (k & ? & _).
Qed.

Section Dedup.
Variable weights : Weights.
Abbreviation merged k c := (merge_scored_candidate weights k c).

Lemma merge_at_lookup d i j c : kept (merge_at weights i c d) !! j
  = if decide (i = j) then (fun k => merged k c) <$> kept d !! j else kept d !! j.
Proof.
  cbn. destruct (decide (i = j)) as [->|H]; [by rewrite list_lookup_alter_eq|by rewrite list_lookup_alter_ne].
Qed.
Lemma merge_at_kept d i c k : kept (merge_at weights i c d) !! i = Some k -> 
  exists k0, kept d !! i = Some k0 /\ k = merged k0 c.
Proof. rewrite merge_at_lookup, decide_True by done. destruct (kept d !! i); naive_solver. Qed.

Lemma deduped_merge seen d c i k : deduped seen d -> kept d !! i = Some k ->
  scored_path k = scored_path c ->
  (content_hash k = content_hash c
   \/ (overlaps_half (candidate c) (candidate k) = true
       /\ forall kind, kind ∈ kinds c -> is_marker kind = true -> kind ∈ kinds k)) ->
  deduped (seen ++ [c]) (merge_at weights i c d).
Proof.
  intros [O H P S M A] Hk Hpath Hwhy.
  assert (Hold : forall j k', kept (merge_at weights i c d) !! j = Some k' ->
    exists k0, kept d !! j = Some k0 /\ (k' = k0 \/ (i = j /\ k' = merged k0 c))).
  { intros j k'. rewrite merge_at_lookup. case_decide; [|naive_solver].
    destruct (kept d !! j); naive_solver. }
  assert (Hnew : forall j k0, kept d !! j = Some k0 -> exists k',
    kept (merge_at weights i c d) !! j = Some k' /\ same_fragment k' k0 /\ kinds k0 ⊆ kinds k'
    /\ concepts (candidate k0) ⊆ concepts (candidate k')).
  { intros j k0 Hj. rewrite merge_at_lookup. case_decide; rewrite Hj; cbn.
    - exists (merged k0 c). split; [done|]. split; [done|].
      split; intros x Hx; [apply merge_kinds|apply merge_concepts]; by left.
    - exists k0. by repeat split. }
  split.
  - intros k' Hk'. apply list_elem_of_lookup in Hk' as [j Hj].
    destruct (Hold j k' Hj) as (k0 & Hj0 & Heq).
    destruct (O k0) as (c0 & Hc0 & Hsame); [by eapply list_elem_of_lookup_2|].
    exists c0. rewrite elem_of_app. split; [by left|]. by destruct Heq as [->|[_ ->]].
  - intros key j. change (seen_hashes (merge_at weights i c d)) with (seen_hashes d). rewrite H. split.
    + intros (k0 & Hj & ->). destruct (Hnew j k0 Hj) as (k' & Hj' & (S1 & _ & _ & _ & S2 & _) & _).
      exists k'. by rewrite S1, S2.
    + intros (k' & Hj & ->). destruct (Hold j k' Hj) as (k0 & Hj0 & Heq). exists k0.
      by destruct Heq as [->|[_ ->]].
  - intros p j. change (kept_by_path (merge_at weights i c d)) with (kept_by_path d). rewrite P. split.
    + intros (k0 & Hj & <-). destruct (Hnew j k0 Hj) as (k' & Hj' & (S1 & _) & _). by exists k'.
    + intros (k' & Hj & <-). destruct (Hold j k' Hj) as (k0 & Hj0 & Heq). exists k0.
      by destruct Heq as [->|[_ ->]].
  - intros c0 [Hc0| ->%list_elem_of_singleton]%elem_of_app.
    + destruct (S c0 Hc0) as (k0 & Hk0 & S1 & S2 & S3 & S4). apply list_elem_of_lookup in Hk0 as [j Hj].
      destruct (Hnew j k0 Hj) as (k' & Hj' & Hsame & Hkinds & Hcon). exists k'.
      split; [by eapply list_elem_of_lookup_2|]. pose proof Hsame as (F1 & _ & _ & _ & F5 & _).
      split; [by rewrite F1|]. split; [by transitivity (kinds k0)|].
      split; [by etransitivity|]. rewrite F5. by rewrite (overlaps_half_same c0 c0 k' k0) by done.
    + exists (merged k c). split; [eapply list_elem_of_lookup_2; rewrite merge_at_lookup, decide_True by done; by rewrite Hk|].
      split; [done|]. split; [intros x Hx; apply merge_kinds; by right|].
      split; [intros x Hx; apply merge_concepts; by right|]. tauto.
  - intros k' kind Hk' Hkind Hm. apply list_elem_of_lookup in Hk' as [j Hj].
    destruct (Hold j k' Hj) as (k0 & Hj0 & Heq).
    assert (Hin : k0 ∈ kept d) by by eapply list_elem_of_lookup_2.
    assert (Hcase : kind ∈ kinds k0 -> exists c0, c0 ∈ seen ++ [c] /\ scored_path c0 = scored_path k0
      /\ content_hash c0 = content_hash k0 /\ kind ∈ kinds c0).
    { intros Hkk. destruct (M k0 kind Hin Hkk Hm) as (c0 & ? & ?). exists c0.
      rewrite elem_of_app. split; [by left|done]. }
    destruct Heq as [->|[<- ->]]; [by apply Hcase|].
    apply merge_kinds in Hkind as [Hkind|Hkind]; [by apply Hcase|].
    rewrite Hk in Hj0. injection Hj0 as <-.
    destruct Hwhy as [Hh|[_ Hc]]; [|by apply Hcase, Hc].
    exists c. rewrite elem_of_app, list_elem_of_singleton. by split; [right|].
  - intros Hno i0 j0 k1 k2 Hlt H1 H2 Hp.
    destruct (Hold i0 k1 H1) as (k1' & H1' & E1). destruct (Hold j0 k2 H2) as (k2' & H2' & E2).
    assert (S1 : same_fragment k1 k1') by by destruct E1 as [->|[_ ->]].
    assert (S2 : same_fragment k2 k2') by by destruct E2 as [->|[_ ->]].
    rewrite (overlaps_half_same k2 k2' k1 k1') by done.
    apply (A (fun c0 kind Hc0 => Hno c0 kind (proj2 (elem_of_app _ _ _) (or_introl Hc0))) i0 j0); [done..|].
    destruct S1 as [<- _], S2 as [<- _]. done.
Qed.

Lemma compatible_without_markers k c : (forall kind, kind ∈ kinds c -> is_marker kind = false) ->
  overlapping_provenance_is_compatible (candidate k) (candidate c) = true.
Proof.
  intros Hno. apply forallb_forall. intros kind [Hin Hs]%filter_In.
  change (is_marker kind = true) in Hs. by rewrite (Hno kind) in Hs by (by apply list_elem_of_In).
Qed.

Lemma deduped_insert seen d c : deduped seen d ->
  seen_hashes d !! (scored_path c, content_hash c) = None -> find_duplicate c d = None ->
  deduped (seen ++ [c]) (mk_dedup (kept d ++ [c])
    (<[(scored_path c, content_hash c) := length (kept d)]> (seen_hashes d))
    (<[scored_path c := default [] (kept_by_path d !! scored_path c) ++ [length (kept d)]]>
       (kept_by_path d))).
Proof.
  intros [O H P S M A] Hhash Hdup.
  assert (Hlook : forall j k, (kept d ++ [c]) !! j = Some k <->
    kept d !! j = Some k \/ (j = length (kept d) /\ k = c)).
  { intros j k. rewrite lookup_app_Some, list_lookup_singleton_Some. split; [|intros [?|[-> ->]]; [by left|right; lia || (split; [lia|split; [lia|done]])]].
    intros [?|(Hge & Hj & ->)]; [by left|]. right. split; [lia|done]. }
  assert (Hlt : forall j k, kept d !! j = Some k -> j <> length (kept d))
    by (intros j k Hj ->; apply lookup_lt_Some in Hj; lia).
  split; cbn.
  - intros k [Hk| ->%list_elem_of_singleton]%elem_of_app.
    + destruct (O k Hk) as (c0 & Hc0 & Hs). exists c0. rewrite elem_of_app. split; [by left|done].
    + exists c. rewrite elem_of_app, list_elem_of_singleton. by split; [right|].
  - intros key i. destruct (decide (key = (scored_path c, content_hash c))) as [->|Hne].
    + rewrite lookup_insert_eq. split.
      * intros [= <-]. exists c. rewrite Hlook. tauto.
      * intros (k & [Hk|[-> ->]]%Hlook & Hkey); [|done].
        assert (seen_hashes d !! (scored_path c, content_hash c) = Some i) by (apply H; by exists k). congruence.
    + rewrite lookup_insert_ne by done. rewrite H. split; intros (k & Hk & ->).
      * exists k. rewrite Hlook. tauto.
      * apply Hlook in Hk as [Hk|[-> ->]]; [by exists k|done].
  - intros p i. destruct (decide (p = scored_path c)) as [->|Hne].
    + rewrite lookup_insert_eq. cbn. rewrite elem_of_app, list_elem_of_singleton, P. split.
      * intros [(k & Hk & Hp)| ->]; [exists k|exists c]; rewrite Hlook; tauto.
      * intros (k & [Hk|[-> ->]]%Hlook & Hp); [left; by exists k|by right].
    + rewrite lookup_insert_ne by done. rewrite P. split; intros (k & Hk & <-).
      * exists k. rewrite Hlook. tauto.
      * apply Hlook in Hk as [Hk|[-> ->]]; [by exists k|done].
  - intros c0 [Hc0| ->%list_elem_of_singleton]%elem_of_app.
    + destruct (S c0 Hc0) as (k & Hk & Hs). exists k. rewrite elem_of_app. split; [by left|done].
    + exists c. rewrite elem_of_app, list_elem_of_singleton. split; [by right|]. repeat split; auto.
  - intros k kind [Hk| ->%list_elem_of_singleton]%elem_of_app Hkind Hm.
    + destruct (M k kind Hk Hkind Hm) as (c0 & Hc0 & Hs). exists c0. rewrite elem_of_app. split; [by left|done].
    + exists c. rewrite elem_of_app, list_elem_of_singleton. by split; [right|].
  - intros Hno i j k k' Hij Hi Hj Hp.
    assert (Hno' : forall c0 kind, c0 ∈ seen -> kind ∈ kinds c0 -> is_marker kind = false).
    { intros c0 kind Hc0. apply Hno. rewrite elem_of_app. by left. }
    apply Hlook in Hi as [Hi|[-> ->]].
    + apply Hlook in Hj as [Hj|[-> ->]]; [by apply (A Hno' i j)|].
      apply not_true_is_false. intros Hover. unfold find_duplicate in Hdup.
      assert (Hf : i ∈ default [] (kept_by_path d !! scored_path c)) by (apply P; by exists k).
      apply list_elem_of_In in Hf. apply (find_none _ _ Hdup) in Hf. rewrite Hi in Hf.
      unfold is_duplicate_of in Hf. rewrite Hover, compatible_without_markers in Hf; [done|].
      intros kind. apply Hno. rewrite elem_of_app, list_elem_of_singleton. by right.
    + apply Hlook in Hj as [Hj|[-> ->]]; [|lia]. apply lookup_lt_Some in Hj. lia.
Qed.

Lemma deduped_step seen d c : deduped seen d -> deduped (seen ++ [c]) (dedup_step weights d c).
Proof.
  intros Hd. unfold dedup_step.
  destruct (seen_hashes d !! (scored_path c, content_hash c)) as [i|] eqn:Hh.
  - apply (dd_hashes _ _ Hd) in Hh as (k & Hk & [= Hp Hc]). eapply deduped_merge; [done|done|done|by left].
  - destruct (find_duplicate c d) as [i|] eqn:Hf; [|by apply deduped_insert].
    apply find_some in Hf as [Hin Hdup]. apply list_elem_of_In, (dd_paths _ _ Hd) in Hin as (k & Hk & Hp).
    rewrite Hk in Hdup. unfold is_duplicate_of in Hdup. bool_to_prop.
    eapply deduped_merge; [done|done|done|]. right. split; [done|]. intros kind Hkind Hm.
    unfold overlapping_provenance_is_compatible in *. rewrite forallb_forall in *.
    match goal with H : forall x, In x _ -> _ |- _ => specialize (H kind) end.
    rewrite bool_decide_eq_true in *. apply H0. apply filter_In. split; [by apply list_elem_of_In|done].
Qed.

Lemma deduped_loop todo seen d : deduped seen d ->
  deduped (seen ++ todo) (fold_left (dedup_step weights) todo d).
Proof.
  revert seen d. induction todo as [|c todo IH]; intros seen d Hd; cbn; [by rewrite app_nil_r|].
  rewrite cons_middle, app_assoc. by apply IH, deduped_step.
Qed.
End Dedup.

(** What is ranked. *)
Lemma elem_of_ranked count_tokens hash weights candidates k :
  k ∈ rank count_tokens hash weights candidates ->
  exists c, k = new_scored count_tokens hash weights c /\ c ∈ candidates.
Proof. unfold rank. rewrite sort_by_perm. apply list_elem_of_fmap_1. Qed.
Lemma elem_of_rank count_tokens hash weights candidates c : c ∈ candidates ->
  new_scored count_tokens hash weights c ∈ rank count_tokens hash weights candidates.
Proof. unfold rank. rewrite sort_by_perm. apply list_elem_of_fmap_2. Qed.

(** ** Properties *)
Definition demo_scored (kinds : list str) (start finish : Z) (hash : string) (tokens : Z)
    : ScoredCandidate :=
  mk_scored (with_match_kinds kinds (new_candidate (lit "src/a.rs") start finish []))
    (f64_of_Z start) tokens hash f64_zero.

(** Deduplication loses no evidence and forges none.  Every candidate is
    represented by a kept one on its path that carries all its match kinds and
    concepts and has its content or covers half of its lines; each kept
    candidate is an input fragment unchanged but for its signals, and its
    required-evidence markers were found in the same content; no two have the
    same path and content, and without such markers none covers half of
    another; the result is ranked. *)
Theorem deduplicate_keeps_evidence weights candidates :
  let result := deduplicate_with_options weights candidates in
  (forall c, c ∈ candidates -> exists k, k ∈ result /\ stands_for k c)
  /\ (forall k, k ∈ result -> exists c, c ∈ candidates /\ same_fragment k c)
  /\ (forall k kind, k ∈ result -> kind ∈ kinds k -> is_marker kind = true ->
       exists c, c ∈ candidates /\ scored_path c = scored_path k
                 /\ content_hash c = content_hash k /\ kind ∈ kinds c)
  /\ NoDup (map (fun k => (scored_path k, content_hash k)) result)
  /\ ((forall c kind, c ∈ candidates -> kind ∈ kinds c -> is_marker kind = false) ->
      exists order, order ≡ₚ result /\ forall i j k k', (i < j)%nat -> order !! i = Some k ->
        order !! j = Some k' -> scored_path k = scored_path k' ->
        overlaps_half (candidate k') (candidate k) = false)
  /\ StronglySorted (fun a b => by_score a b <> Gt) result.
Proof.
  intros result.
  set (d := fold_left (dedup_step weights) (sort_by by_exact candidates) (mk_dedup [] ∅ ∅)).
  assert (Hd : deduped (sort_by by_exact candidates) d).
  { apply (deduped_loop weights _ []). apply deduped_nil. }
  assert (Hin : forall c, c ∈ sort_by by_exact candidates <-> c ∈ candidates)
    by (intros c; by rewrite sort_by_perm).
  assert (Hkept : forall k, k ∈ result <-> k ∈ kept d).
  { intros k. unfold result, deduplicate_with_options. by rewrite sort_by_perm. }
  destruct Hd as [O H P S M A]. split; [|split; [|split; [|split; [|split]]]].
  - intros c Hc%Hin. destruct (S c Hc) as (k & Hk%Hkept & Hs). by exists k.
  - intros k Hk%Hkept. destruct (O k Hk) as (c & Hc%Hin & Hs). by exists c.
  - intros k kind Hk%Hkept Hkind Hm. destruct (M k kind Hk Hkind Hm) as (c & Hc%Hin & Hs). by exists c.
  - unfold result, deduplicate_with_options. fold d. rewrite sort_by_perm.
    apply NoDup_alt. intros i j key. rewrite !list_lookup_fmap_Some.
    intros (k & -> & Hk) (k' & E & Hk').
    assert (H1 : seen_hashes d !! (scored_path k, content_hash k) = Some i) by (apply H; by exists k).
    assert (H2 : seen_hashes d !! (scored_path k', content_hash k') = Some j) by (apply H; by exists k').
    congruence.
  - intros Hno. exists (kept d). split; [unfold result, deduplicate_with_options; by rewrite sort_by_perm|].
    apply A. intros c kind Hc%Hin. by apply Hno.
  - apply sort_by_sorted, by_score_preorder.
Qed.

Lemma deduplicate_keeps_evidence_witness :
  let a := demo_scored [lit "required_evidence:0:0"] 1 10 "a" 5 in
  let b := demo_scored [lit "lexical"] 3 12 "b" 5 in
  (exists k, k ∈ deduplicate_with_options default_weights [a; b] /\ stands_for k b)
  /\ deduplicate_with_options default_weights [a; b] <> [].
Proof.
  intros a b. split.
  - destruct (deduplicate_keeps_evidence default_weights [a; b]) as [H _].
    apply (H b). right. left.
  - by vm_compute.
Defined.
