(* ===== verification/Evidence.v ===== *)
(** * Evidence metadata

    The path classes, facets and owner-test affinity of
    [src/src/ranking/metadata.rs], and [language_by_path] of
    [src/src/parser/api.rs].  The Unicode tables of the standard library are
    parameters. *)

From stdpp Require Import pretty.
From S2P Require Import Prelude Chars Paths Candidates.
Open Scope Z_scope.

Definition FACET_PREFIX : str := lit "facet:".
Definition CHANNEL_PREFIX : str := lit "channel:".

Inductive ContextPathClass := Production | Test | Auxiliary | Supporting.
#[export] Instance context_path_class_eq_dec : EqDecision ContextPathClass.
Proof. solve_decision. Defined.

(** ** String operations *)

(** [str::contains] of a string. *)
Fixpoint substring (p s : str) : bool :=
  starts_with p s || match s with [] => false | _ :: s => substring p s end.

(** [split_once] and [rsplit_once] of a character. *)
Fixpoint split_once (c : Z) (s : str) : option (str * str) :=
  match s with
  | [] => None
  | x :: s' => if x =? c then Some ([], s')
               else (fun '(a, b) => (x :: a, b)) <$> split_once c s'
  end.
Definition rsplit_once (c : Z) (s : str) : option (str * str) :=
  (fun '(a, b) => (rev b, rev a)) <$> split_once c (rev s).

Definition DOT : Z := 46.
Definition HYPHEN : Z := 45.
(** [path.rsplit('/').next()]. *)
Definition last_component (path : str) : str := List.last (split_slash path) path.
Definition is_ascii_lowercase (c : Z) : bool := (97 <=? c) && (c <=? 122).
Definition ascii_lowercase (s : str) : str := map to_ascii_lowercase s.
Definition eq_ignore_ascii_case (a b : str) : bool :=
  bool_decide (ascii_lowercase a = ascii_lowercase b).
Definition one_of (s : str) (options : list string) : bool :=
  existsb (fun o => bool_decide (s = lit o)) options.

(** [Path::file_name] and [Path::extension]. *)
Definition file_name (path : str) : option str :=
  match last (List.filter (fun c => negb (is_skipped c)) (split_slash path)) with
  | Some c => if is_up c then None else Some c
  | None => None
  end.
Definition extension (path : str) : option str :=
  match file_name path ≫= rsplit_once DOT with
  | Some (stem, ext) => if bool_decide (stem = []) then None else Some ext
  | None => None
  end.

Definition opt_or {A} (a b : option A) : option A := match a with Some _ => a | None => b end.

Section Metadata.
(** [str::to_lowercase], [char::is_alphanumeric] and [char::to_lowercase]. *)
Variable to_lowercase : str -> str.
Variable is_alphanumeric : Z -> bool.
Variable char_lowercase : Z -> str.

Definition language_by_path (path : str) : option string :=
  match extension path with
  | None => None
  | Some ext =>
    let ext := to_lowercase ext in
    if one_of ext ["c"] then Some "c"
    else if one_of ext ["cs"] then Some "csharp"
    else if one_of ext ["cc"; "cpp"; "cxx"; "h"; "hh"; "hpp"; "hxx"; "inl"; "ipp"; "tpp"]
    then Some "cpp"
    else if one_of ext ["java"] then Some "java"
    else if one_of ext ["rs"] then Some "rust"
    else if one_of ext ["py"; "pyi"] then Some "python"
    else if one_of ext ["php"] then Some "php"
    else if one_of ext ["rb"] then Some "ruby"
    else if one_of ext ["js"; "jsx"; "mjs"; "cjs"] then Some "javascript"
    else if one_of ext ["ts"; "mts"; "cts"] then Some "typescript"
    else if one_of ext ["tsx"] then Some "tsx"
    else if one_of ext ["go"] then Some "go"
    else if one_of ext ["html"; "htm"] then Some "html"
    else if one_of ext ["css"] then Some "css"
    else if one_of ext ["md"; "markdown"] then Some "markdown"
    else if one_of ext ["tex"; "ltx"] then Some "latex"
    else None
  end%string.

(** ** Facets and markers *)
(** [format!("{n}")]. *)
Definition decimal (n : nat) : str := lit (pretty.pretty (N.of_nat n)).
Definition facet_prefix (facet : string) : str := FACET_PREFIX ++ lit facet ++ lit ":".
Definition requirement_prefix (requirement : nat) : str :=
  REQUIRED_EVIDENCE_PREFIX ++ decimal requirement ++ lit ":".
Definition required_evidence_marker (requirement query : nat) : str :=
  requirement_prefix requirement ++ decimal query.
Definition required_evidence_query (c : Candidate) (requirement query : nat) : bool :=
  existsb (fun kind => bool_decide (kind = required_evidence_marker requirement query))
    (match_kinds c).
Definition carries_required_evidence (c : Candidate) (requirement : nat) : bool :=
  existsb (starts_with (requirement_prefix requirement)) (match_kinds c).
Definition carries_facet (c : Candidate) (facet : string) : bool :=
  existsb (starts_with (facet_prefix facet)) (match_kinds c).
(** The values of a facet: [filter_map] of [strip_prefix]. *)
Definition facet_values (c : Candidate) (facet : string) : list str :=
  omap (strip_prefix (facet_prefix facet)) (match_kinds c).

Definition specific_exact_atom (atom : str) : bool :=
  let prose_hyphen := contains HYPHEN atom
    && forallb (fun c => is_ascii_lowercase c || (c =? HYPHEN)) atom in
  negb prose_hyphen
  && ((5 <=? len atom) || existsb (fun c => negb (is_ascii_alphanumeric c)) atom).
Definition normalized_facet_identity (value : str) : str :=
  concat (map char_lowercase (List.filter is_alphanumeric value)).

Definition carries_specific_exact_atom (c : Candidate) : bool :=
  existsb specific_exact_atom (facet_values c "exact_atom").
Definition carries_specific_exact_primary_change (c : Candidate) : bool :=
  existsb (fun exact =>
    existsb (fun primary => bool_decide (normalized_facet_identity primary = exact))
      (facet_values c "primary_change"))
    (map normalized_facet_identity (List.filter specific_exact_atom (facet_values c "exact_atom"))).
Definition carries_specific_primary_change (c : Candidate) : bool :=
  existsb (fun facet => (5 <=? len facet) || existsb (fun ch => negb (is_ascii_alphanumeric ch)) facet)
    (facet_values c "primary_change").
Definition facet_value_count (c : Candidate) (facet : string) : Z :=
  len (List.filter (starts_with (facet_prefix facet)) (match_kinds c)).
Definition carries_all_facet_values (c baseline : Candidate) (facet : string) : bool :=
  forallb (fun kind => bool_decide (kind ∈ match_kinds c))
    (List.filter (starts_with (facet_prefix facet)) (match_kinds baseline)).

(** ** Path classes *)
Definition starts (p : string) (s : str) : bool := starts_with (lit p) s.
Definition ends (p : string) (s : str) : bool := ends_with (lit p) s.
Definition has (p : string) (s : str) : bool := substring (lit p) s.

Definition is_test_path (path : str) : bool :=
  let file_name := last_component path in
  let stem := match split_once DOT file_name with Some (stem, _) => stem | None => file_name end in
  let module_stem := match rsplit_once DOT file_name with Some (s, _) => s | None => file_name end in
  one_of file_name ["conftest.py"%string]
  || starts "test/" path || starts "tests/" path || starts "spec/" path
  || has "/test/" path || has "/tests/" path || has "/spec/" path || has "/test-suite/" path
  || starts "crates/test-suite/" path
  || existsb (fun c => bool_decide (c = lit "__tests__") || starts "test_" c) (split_slash path)
  || ends ".test" module_stem || ends ".spec" module_stem
  || ends ".test-d" module_stem || ends ".spec-d" module_stem
  || one_of stem ["test"; "tests"]%string
  || ends "_spec.rb" file_name || ends ".spec.rb" file_name
  || ends "_test" stem || ends "_tests" stem || starts "test_" stem.

Definition is_class_or_project_test_path (path : str) : bool :=
  match language_by_path path with
  | Some language =>
    if existsb (String.eqb language) ["csharp"; "java"]%string then
      let file_name := last_component path in
      let stem := match rsplit_once DOT file_name with Some (s, _) => s | None => file_name end in
      ends "Test" stem || ends "Tests" stem
      || existsb (fun c => ends ".tests" (ascii_lowercase c)) (split_slash path)
    else false
  | None => false
  end.

Definition is_programming_language_path (path : str) : bool :=
  match language_by_path path with
  | Some language =>
    existsb (String.eqb language)
      ["c"; "csharp"; "cpp"; "java"; "rust"; "python"; "php"; "ruby"; "javascript"; "typescript";
       "tsx"; "go"; "html"; "css"]%string
  | None => false
  end.

Definition is_supporting_code_path (path : str) : bool :=
  starts "docs/" path || has "/docs/" path || starts "examples/" path || has "/examples/" path
  || starts "example/" path || has "/example/" path || starts "benches/" path
  || has "/benches/" path || starts "benchmarks/" path || has "/benchmarks/" path
  || starts "scripts/" path || starts "tools/" path.

Definition context_path_class (path : str) : ContextPathClass :=
  let class_or_project_test := is_class_or_project_test_path path in
  let path := ascii_lowercase path in
  let root_markdown := negb (contains SLASH path) && (ends ".md" path || ends ".mdx" path)
    && negb (one_of path ["readme.md"; "agents.md"; "contributing.md"]%string) in
  if starts ".agents/" path || starts "fixtures/" path || has "/fixtures/" path
     || existsb (fun c => eq_ignore_ascii_case c (lit "testdata")) (split_slash path)
     || starts "benchmarks/reports/" path || has "/snapshots/" path || ends ".snap" path
     || root_markdown || has "/requests/" path || has "/schema/" path
  then Auxiliary
  else if class_or_project_test || is_test_path path then Test
  else if is_supporting_code_path path then Supporting
  else if is_programming_language_path path then Production
  else Supporting.

(** ** Owners and their tests *)
Definition strip_last (suffix : string) (s : str) : option str := strip_suffix (lit suffix) s.

Definition normalized_source_stem (path : str) : str :=
  let file_name := last_component path in
  let stem := match rsplit_once DOT file_name with Some (s, _) => s | None => file_name end in
  let stem := default stem
    (opt_or (strip_last ".test-d" stem) (opt_or (strip_last ".spec-d" stem)
      (opt_or (strip_last ".test" stem) (strip_last ".spec" stem)))) in
  let stem := default stem
    (opt_or (strip_last "_tests" stem) (opt_or (strip_last "_test" stem)
      (opt_or (strip_last "_spec" stem) (strip_prefix (lit "test_") stem)))) in
  let stem :=
    match language_by_path path with
    | Some language =>
      if existsb (String.eqb language) ["csharp"; "java"]%string
      then default stem (opt_or (strip_last "Tests" stem) (strip_last "Test" stem))
      else stem
    | None => stem
    end in
  ascii_lowercase stem.

Definition parent_of (path : str) : str :=
  match rsplit_once SLASH path with Some (parent, _) => parent | None => [] end.
Definition name_parts (stem : str) : list str := split_by (fun c => negb (is_ascii_alphanumeric c)) stem.

Definition owner_test_path_affinity (owner test : str) : Z :=
  let owner_parent := parent_of owner in
  let same_parent := bool_decide (owner_parent = parent_of test) in
  let owner_stem := normalized_source_stem owner in
  let test_stem := normalized_source_stem test in
  let directory_module_test := same_parent && negb (bool_decide (owner_parent = []))
    && eq_ignore_ascii_case (last_component owner_parent) test_stem in
  if (bool_decide (owner_stem = test_stem) && same_parent) || directory_module_test then 4
  else if (len owner_stem <? 4) || (len test_stem <? 4) then 0
  else if bool_decide (owner_stem = test_stem) || starts_with test_stem owner_stem
          || starts_with owner_stem test_stem then 2
  else if existsb (fun part => existsb (fun p => bool_decide (p = part)) (name_parts test_stem))
            (List.filter (fun part => 4 <=? len part) (name_parts owner_stem)) then 1
  else 0.
End Metadata.

(** The classes and affinities the tests of the source expect. *)
Example path_classes :
  map (fun p => context_path_class ascii_lowercase (lit p))
    ["src/services/context.rs"; "recovery.go"; "crates/test-suite/src/domains/retrieval.rs";
     "completions_test.go"; "packages/core/spec/widget.spec.rb"; "docs/conf.py";
     "src/mcp/snapshots/tools.snap"; "retrieval_notes.md"; "README.md"; "Cargo.toml";
     "pkg/testdata/helper.go"; "src/UserServiceTests.cs"]%string
  = [Production; Production; Test; Test; Test; Supporting; Auxiliary; Auxiliary; Supporting;
     Supporting; Auxiliary; Test].
Proof. by vm_compute. Qed.
Example affinities :
  map (fun '(o, t) => owner_test_path_affinity ascii_lowercase (lit o) (lit t))
    [("recovery.go", "recovery_test.go"); ("src/setupHelpers.ts", "src/setupHelpers.test-d.ts");
     ("src/UserService.cs", "src/UserServiceTests.cs");
     ("app/models/user.rb", "spec/models/user_spec.rb"); ("render/json.go", "binding/json_test.go");
     ("render/json.go", "render/reader_test.go")]%string
  = [4; 4; 4; 2; 2; 0].
Proof. by vm_compute. Qed.
