(* ===== verification/Selection.v ===== *)
(** * Packing a context under a token budget

    [select_required_candidates] of [src/src/ranking/requirements.rs],
    [greedy_select] of [ranking/greedy.rs], [partition_candidates] and
    [select_candidates] of [ranking/selection.rs], and the coverage receipt of
    [ranking/coverage.rs]. *)

From S2P Require Import Prelude Chars Order Store Paths Float64 Candidates Evidence.
Open Scope Z_scope.

Definition DEFAULT_CONTEXT_FRAGMENTS : Z := 8.
Definition DIVERSITY_DIVISOR : Z := 600.
Definition MIN_RELATIVE_CONTEXT_SCORE : f64 := f64_ratio 25 100.

(** ** The request *)
Record ContextRequiredEvidence := mk_evidence {
  evidence_path : str;
  queries : list str;
  minimum_query_matches : Z
}.
Record ContextRequest := mk_request {
  token_budget : Z;
  include_paths : list str;
  must_include_paths : list str;
  must_include_symbols : list str;
  required_evidence : list ContextRequiredEvidence;
  max_fragments_requested : option Z;
  plan_only : bool;
  focus_paths : list str;
  strict_focus_paths : bool;
  minimum_fragments_per_focus_path : option Z;
  focus_symbols : list str;
  exclude_paths : list str;
  known_hashes : list string;
  changed_paths : list str;
  strict_changed_paths : bool
}.

Inductive ContextFocusPolicy :=
| Advisory
| Minimum (minimum_fragments : Z)
| Strict (minimum_fragments : Z).
Definition parse_focus_policy (r : ContextRequest) : ContextFocusPolicy :=
  match strict_focus_paths r, minimum_fragments_per_focus_path r with
  | true, minimum => Strict (default 1 minimum)
  | false, Some minimum => Minimum minimum
  | false, None => Advisory
  end.
Definition focus_minimum (p : ContextFocusPolicy) : option Z :=
  match p with Advisory => None | Minimum n | Strict n => Some n end.
Definition strict_focus (p : ContextFocusPolicy) : bool :=
  match p with Strict _ => true | _ => false end.

(** ** Iterators *)
Definition enumerate {A} (l : list A) : list (nat * A) := combine (seq 0 (length l)) l.
(** [Iterator::max_by_key]: the last of the greatest. *)
Definition max_by_key {A} (key : A -> list Z) (l : list A) : option A :=
  match l with
  | [] => None
  | x :: l => Some (fold_left (fun x y => if list_lt (key y) (key x) then x else y) l x)
  end.
Definition bool_Z (b : bool) : Z := if b then 1 else 0.

Definition total_tokens (l : list ScoredCandidate) : Z :=
  foldr (fun c acc => token_count c + acc) 0 l.

(** ** Required evidence *)
Record RequiredState := mk_required {
  remaining : list ScoredCandidate;
  chosen : list ScoredCandidate;
  required_tokens : Z
}.

(** [candidates.remove(index)], accounted and pushed. *)
Definition choose (i : nat) (st : RequiredState) : RequiredState :=
  match remaining st !! i with
  | Some c => mk_required (delete i (remaining st)) (chosen st ++ [c])
                (u64_saturating_add (required_tokens st) (token_count c))
  | None => st
  end.

Section Selecting.
Variable to_lowercase : str -> str.
Variable is_alphanumeric : Z -> bool.
Variable char_lowercase : Z -> str.
Variable glob_valid : str -> bool.
Variable glob_match : str -> str -> bool.

(** [required_path_matches]: an invalid pattern matches nothing. *)
Definition path_matches (path pattern : str) : bool :=
  match new_pattern_set glob_valid [pattern] with
  | Ok set => is_match glob_match set path
  | Err _ => false
  end.
Definition required_path_matches (pattern : str) (c : ScoredCandidate) : bool :=
  path_matches (scored_path c) pattern.
Definition required_symbol_matches (symbol : str) (c : ScoredCandidate) : bool :=
  bool_decide (symbol_name (candidate c) = Some symbol)
  && match target_range (candidate c) with Some _ => true | None => false end.
Definition required_symbol_satisfied (symbol : str) (c : ScoredCandidate) : bool :=
  required_symbol_matches symbol c && negb (target_truncated (candidate c)).

Section Required.
Variable budget : Z.
Variable max_fragments : Z.

Definition slots_used (st : RequiredState) : bool := len (chosen st) =? max_fragments.
(** The first remaining candidate that fits the budget and is wanted. *)
Definition first_fitting (wanted : ScoredCandidate -> bool) (st : RequiredState) : option nat :=
  let left_tokens := u64_saturating_sub budget (required_tokens st) in
  position (fun c => wanted c && (token_count c <=? left_tokens)) (remaining st).

Definition answers (requirement : nat) (query : nat) (c : ScoredCandidate) : bool :=
  required_evidence_query (candidate c) requirement query.

(** The [loop] of one evidence requirement. *)
Fixpoint require_evidence (fuel : nat) (index : nat) (r : ContextRequiredEvidence)
    (matched_queries : gset nat) (st : RequiredState) : run RequiredState :=
  match fuel with
  | O => NoFuel
  | S fuel =>
    let all := seq 0 (length (queries r)) in
    let matched_queries :=
      matched_queries ∪ list_to_set (List.filter (fun q => existsb (answers index q) (chosen st)) all) in
    if (minimum_query_matches r <=? Z.of_nat (size matched_queries)) || slots_used st then Done st
    else
      match first_fitting (fun c => existsb (fun q => negb (bool_decide (q ∈ matched_queries))
                                                      && answers index q c) all) st with
      | Some i => require_evidence fuel index r matched_queries (choose i st)
      | None => Done st
      end
  end.

Fixpoint require_all_evidence (index : nat) (rs : list ContextRequiredEvidence)
    (st : RequiredState) : run RequiredState :=
  match rs with
  | [] => Done st
  | r :: rs =>
    run_bind (require_evidence (S (length (remaining st))) index r ∅ st)
      (require_all_evidence (S index) rs)
  end.

(** The loops over [must_include_paths] and [must_include_symbols]. *)
Fixpoint must_include (wants : str -> ScoredCandidate -> bool) (items : list str)
    (st : RequiredState) : RequiredState :=
  match items with
  | [] => st
  | item :: items =>
    if existsb (wants item) (chosen st) then must_include wants items st
    else match first_fitting (wants item) st with
         | None => must_include wants items st
         | Some i => if slots_used st then st else must_include wants items (choose i st)
         end
  end.

(** The [while] loop of one focus path. *)
Fixpoint focus_path (fuel : nat) (pattern : str) (minimum : Z) (st : RequiredState)
    : run RequiredState :=
  match fuel with
  | O => NoFuel
  | S fuel =>
    if minimum <=? len (List.filter (required_path_matches pattern) (chosen st)) then Done st
    else if slots_used st then Done st
    else match first_fitting (required_path_matches pattern) st with
         | Some i => focus_path fuel pattern minimum (choose i st)
         | None => Done st
         end
  end.
Fixpoint focus_all (patterns : list str) (minimum : Z) (st : RequiredState) : run RequiredState :=
  match patterns with
  | [] => Done st
  | p :: patterns =>
    run_bind (focus_path (S (length (remaining st))) p minimum st) (focus_all patterns minimum)
  end.

Definition select_required_candidates (candidates : list ScoredCandidate) (r : ContextRequest)
    (policy : ContextFocusPolicy) : run (list ScoredCandidate * list ScoredCandidate) :=
  run_bind (require_all_evidence 0 (required_evidence r) (mk_required candidates [] 0)) (fun st =>
  let st := must_include required_path_matches (must_include_paths r) st in
  let st := must_include required_symbol_matches (must_include_symbols r) st in
  run_bind
    (match focus_minimum policy with
     | Some minimum => if 0 <? minimum then focus_all (focus_paths r) minimum st else Done st
     | None => Done st
     end)
    (fun st => Done (chosen st, remaining st))).
End Required.

(** ** Greedy selection *)
Record EvidenceQuotaCounts := mk_quotas {
  auxiliary : Z;
  failures : Z;
  tests : Z;
  preserve : Z
}.
Definition class_of (c : ScoredCandidate) : ContextPathClass :=
  context_path_class to_lowercase (scored_path c).
Definition is_class (k : ContextPathClass) (c : ScoredCandidate) : bool := bool_decide (class_of c = k).
Definition has_facet (facet : string) (c : ScoredCandidate) : bool := carries_facet (candidate c) facet.

Definition allows (q : EvidenceQuotaCounts) (max_fragments : Z) (c : ScoredCandidate) : bool :=
  let auxiliary_limit := bool_Z (0 <? max_fragments) in
  let limit := Z.min max_fragments 2 in
  (negb (is_class Auxiliary c) || (auxiliary q <? auxiliary_limit))
  && (negb (has_facet "failure_trace" c) || (failures q <? limit))
  && (negb (is_class Test c) || (tests q <? limit))
  && (negb (has_facet "preserve_constraint" c) || (preserve q <? limit)).
Definition record_quota (c : ScoredCandidate) (q : EvidenceQuotaCounts) : EvidenceQuotaCounts :=
  mk_quotas (auxiliary q + bool_Z (is_class Auxiliary c))
    (failures q + bool_Z (has_facet "failure_trace" c)) (tests q + bool_Z (is_class Test c))
    (preserve q + bool_Z (has_facet "preserve_constraint" c)).

Definition candidate_fits (c : ScoredCandidate)
    (remaining_tokens file_count max_per_file selected_count max_fragments : Z) : bool :=
  (token_count c <=? remaining_tokens) && (file_count <? max_per_file)
  && (selected_count <? max_fragments).

Definition compare_utility (a b : ScoredCandidate) : comparison :=
  then_cmp (f64_total_cmp (score b) (score a))
    (then_cmp (f64_total_cmp (marginal_score b) (marginal_score a))
       (then_cmp (token_count a ?= token_count b)
          (then_cmp (str_cmp (scored_path a) (scored_path b))
             (start_line (candidate a) ?= start_line (candidate b))))).

(** The selection so far, and what it knows of the task's concepts. *)
Record Picked := mk_picked {
  selected : list ScoredCandidate;
  used_tokens : Z;
  file_counts : gmap str Z;
  evidence_counts : EvidenceQuotaCounts
}.
Record Concepts := mk_concepts {
  covered_concepts : gset str;
  concept_representations : gset (str * str);
  concept_paths : gmap str str
}.

Definition file_count (st : Picked) (path : str) : Z := default 0 (file_counts st !! path).

(** [push_selected] and [EvidenceQuotaCounts::record]. *)
Definition push_selected (c : ScoredCandidate) (st : Picked) : Picked :=
  mk_picked (selected st ++ [c]) (used_tokens st + token_count c)
    (<[scored_path c := file_count st (scored_path c) + 1]> (file_counts st))
    (record_quota c (evidence_counts st)).

Definition note_covered (c : ScoredCandidate) (k : Concepts) : Concepts :=
  mk_concepts (covered_concepts k ∪ list_to_set (concepts (candidate c)))
    (concept_representations k) (concept_paths k).
Definition note_representations (c : ScoredCandidate) (k : Concepts) : Concepts :=
  mk_concepts (covered_concepts k)
    (concept_representations k
       ∪ list_to_set (map (fun concept => (concept, representation (candidate c)))
                        (concepts (candidate c))))
    (concept_paths k).
Definition note_paths (c : ScoredCandidate) (k : Concepts) : Concepts :=
  mk_concepts (covered_concepts k) (concept_representations k)
    (fold_left (fun paths concept =>
       match paths !! concept with Some _ => paths | None => <[concept := scored_path c]> paths end)
       (concepts (candidate c)) (concept_paths k)).
(** [record_context_selection]. *)
Definition record_context_selection (c : ScoredCandidate) (k : Concepts) : Concepts :=
  note_paths c (note_representations c (note_covered c k)).

Section Greedy.
Variable budget : Z.
Variable max_per_file : Z.
Variable max_fragments : Z.

(** The condition of every push: the quotas allow it and it fits what is left. *)
Definition admits (st : Picked) (c : ScoredCandidate) : bool :=
  allows (evidence_counts st) max_fragments c
  && candidate_fits c (u64_saturating_sub budget (used_tokens st)) (file_count st (scored_path c))
       max_per_file (len (selected st)) max_fragments.

(** *** The owner of the primary change *)
Definition primary_candidate_fits (st : Picked) (k : ContextPathClass) (c : ScoredCandidate) : bool :=
  is_class k c && admits st c.

(** The first candidate, on the path that carries most values, that carries
    what the baseline does in the same representation. *)
Definition owner_position (st : Picked) (pool : list ScoredCandidate) (k : ContextPathClass)
    (carries : ScoredCandidate -> bool) (baseline : ScoredCandidate) : option nat :=
  let matches c :=
    primary_candidate_fits st k c && carries c
    && bool_decide (representation (candidate c) = representation (candidate baseline))
    && carries_all_facet_values (candidate c) (candidate baseline) "primary_change" in
  match max_by_key (fun '(i, c) => [facet_value_count (candidate c) "primary_change"; - Z.of_nat i])
          (List.filter (fun '(_, c) => matches c) (enumerate pool)) with
  | None => None
  | Some (_, owner) =>
    position (fun c => bool_decide (scored_path c = scored_path owner) && matches c) pool
  end.

Definition primary_position_for (st : Picked) (pool : list ScoredCandidate) (k : ContextPathClass)
    : option nat :=
  let specific c := carries_specific_primary_change (candidate c) in
  let exact_position :=
    position (fun c => primary_candidate_fits st k c
      && carries_specific_exact_primary_change is_alphanumeric char_lowercase (candidate c)
      && has_facet "primary_change" c) pool in
  opt_or exact_position
    (opt_or
       (List.find (fun c => primary_candidate_fits st k c && specific c) pool
          ≫= owner_position st pool k specific)
       (List.find (fun c => primary_candidate_fits st k c && has_facet "primary_change" c) pool
          ≫= owner_position st pool k (has_facet "primary_change"))).

(** *** The test of the owner *)
Definition test_position (st : Picked) (k : Concepts) (owner : option str)
    (pool : list ScoredCandidate) : option nat :=
  let affinity c := match owner with
                    | Some path => owner_test_path_affinity to_lowercase path (scored_path c)
                    | None => 0
                    end in
  let eligible c :=
    is_class Test c
    && (carries_specific_exact_atom (candidate c) || (0 <? affinity c)
        || existsb (fun concept => bool_decide (concept ∈ covered_concepts k))
             (concepts (candidate c)))
    && admits st c in
  fst <$> max_by_key
    (fun '(i, c) => [bool_Z (3 <=? affinity c); bool_Z (carries_specific_exact_atom (candidate c));
                     affinity c; - Z.of_nat i])
    (List.filter (fun '(_, c) => eligible c) (enumerate pool)).

Definition preserve_position (st : Picked) (pool : list ScoredCandidate) : option nat :=
  position (fun c => negb (is_class Auxiliary c) && has_facet "preserve_constraint" c
                     && admits st c) pool.

(** [pool.remove(position)], recorded and pushed. *)
Definition take_position (i : option nat) (pool : list ScoredCandidate) (st : Picked) (k : Concepts)
    : list ScoredCandidate * Picked * Concepts :=
  match i ≫= (fun i => (fun c => (i, c)) <$> pool !! i) with
  | Some (i, c) => (delete i pool, push_selected c st, record_context_selection c k)
  | None => (pool, st, k)
  end.

(** *** The loops: what is wanted, fits and is pushed; the rest is kept in order *)
Fixpoint sweep (wanted : Concepts -> ScoredCandidate -> bool)
    (note : ScoredCandidate -> Concepts -> Concepts) (l : list ScoredCandidate)
    (st : Picked) (k : Concepts) : Picked * Concepts * list ScoredCandidate :=
  match l with
  | [] => (st, k, [])
  | c :: l =>
    if wanted k c && admits st c then sweep wanted note l (push_selected c st) (note c k)
    else let '(st, k, rest) := sweep wanted note l st k in (st, k, c :: rest)
  end.

Definition weight_below (c : ScoredCandidate) (w : f64) : bool := f64_ltb (concept_weight (candidate c)) w.
Definition adds_concept (k : Concepts) (c : ScoredCandidate) : bool :=
  existsb (fun concept => negb (bool_decide (concept ∈ covered_concepts k))) (concepts (candidate c)).
Definition same_path (k : Concepts) (c : ScoredCandidate) : bool :=
  existsb (fun concept => bool_decide (concept_paths k !! concept = Some (scored_path c)))
    (concepts (candidate c)).
Definition adds_decisive_view (k : Concepts) (c : ScoredCandidate) : bool :=
  f64_geb (concept_weight (candidate c)) (f64_ratio 18 10)
  && existsb (fun concept => bool_decide (concept ∈ covered_concepts k)
       && negb (bool_decide ((concept, representation (candidate c)) ∈ concept_representations k)))
       (concepts (candidate c)).
Definition confident (floor : f64) (c : ScoredCandidate) : bool :=
  f64_geb (concept_weight (candidate c)) f64_one || f64_geb (score c) floor.
Definition skipped (floor : f64) (c : ScoredCandidate) : bool :=
  weight_below c f64_one && f64_ltb (score c) floor.

Definition confidence_floor (pool : list ScoredCandidate) : f64 :=
  match pool with c :: _ => f64_mul (score c) MIN_RELATIVE_CONTEXT_SCORE | [] => f64_zero end.

Definition greedy_select (candidates : list ScoredCandidate) (initial_file_counts : gmap str Z)
    : list ScoredCandidate * list ScoredCandidate :=
  let pool := sort_by compare_utility candidates in
  let floor := confidence_floor pool in
  let st := mk_picked [] 0 initial_file_counts (mk_quotas 0 0 0 0) in
  let k := mk_concepts ∅ ∅ ∅ in
  let primary := opt_or (primary_position_for st pool Production)
                        (primary_position_for st pool Supporting) in
  let owner := scored_path <$> (primary ≫= (fun i => pool !! i)) in
  let '(pool, st, k) := take_position primary pool st k in
  let '(pool, st, k) := take_position (test_position st k owner pool) pool st k in
  let '(pool, st, k) := take_position (preserve_position st pool) pool st k in
  let '(st, k, deferred) :=
    sweep (fun k c => adds_concept k c && negb (weight_below c f64_one)) record_context_selection
      pool st k in
  let deferred := sort_by (fun a b => then_cmp (bool_cmp (same_path k b) (same_path k a))
                                        (compare_utility a b)) deferred in
  let '(st, k, rest) := sweep adds_decisive_view note_representations deferred st k in
  let '(st, k, fill) :=
    sweep (fun k c => adds_concept k c && confident floor c) note_covered rest st k in
  let '(st, _, omitted) := sweep (fun _ c => negb (skipped floor c)) (fun _ k => k) fill st k in
  (selected st, omitted).
End Greedy.

(** ** The selection of a request *)
Variable count_tokens : str -> Z.
Variable hash : str -> string.
Variable weights : Weights.

(** [PathMatcher::new(patterns).unwrap_or_else(|_| PathMatcher::empty())]. *)
Definition matches_any (patterns : list str) (path : str) : bool :=
  match new_pattern_set glob_valid patterns with
  | Ok set => is_match glob_match set path
  | Err _ => false
  end.

Definition apply_request_signals (r : ContextRequest) (c : Candidate) : Candidate :=
  let c := if matches_any (focus_paths r) (path c)
           then with_focus_boost (f64_add (focus_boost c) f64_one) c else c in
  match symbol_name c with
  | Some name =>
    if existsb (fun s => bool_decide (s = name)) (focus_symbols r)
    then with_focus_boost (f64_add (focus_boost c) f64_one) c else c
  | None => c
  end.

Record CandidatePartition := mk_partition {
  eligible : list Candidate;
  path_omitted : list ScoredCandidate;
  known_omitted : list ScoredCandidate;
  generated_artifact_warning : bool
}.

Definition path_excluded (r : ContextRequest) (context_exclude_paths : list str) (c : Candidate) : bool :=
  let included := matches_any (include_paths r) (path c) in
  let explicitly_included := negb (bool_decide (include_paths r = [])) && included in
  (negb (bool_decide (include_paths r = [])) && negb included)
  || matches_any (exclude_paths r) (path c)
  || (matches_any context_exclude_paths (path c) && negb explicitly_included)
  || (strict_focus (parse_focus_policy r) && negb (matches_any (focus_paths r) (path c)))
  || (strict_changed_paths r && negb (bool_decide (path c ∈ changed_paths r))).

Definition partition_step (r : ContextRequest) (context_exclude_paths : list str)
    (p : CandidatePartition) (c : Candidate) : CandidatePartition :=
  let warning := generated_artifact_warning p || matches_any context_exclude_paths (path c) in
  if path_excluded r context_exclude_paths c then
    mk_partition (eligible p) (path_omitted p ++ [new_scored count_tokens hash weights c])
      (known_omitted p) warning
  else if bool_decide (hash (content c) ∈ known_hashes r) then
    mk_partition (eligible p) (path_omitted p)
      (known_omitted p ++ [new_scored count_tokens hash weights c]) warning
  else mk_partition (eligible p ++ [c]) (path_omitted p) (known_omitted p) warning.
Definition partition_candidates (candidates : list Candidate) (r : ContextRequest)
    (context_exclude_paths : list str) : CandidatePartition :=
  fold_left (partition_step r context_exclude_paths) candidates (mk_partition [] [] [] false).

Record CandidateSelection := mk_selection {
  selection_selected : list ScoredCandidate;
  selection_omitted : list ScoredCandidate;
  candidate_paths_total : Z;
  result_complete : bool
}.

Definition max_per_file_of (budget : Z) : Z := Z.max 1 (Z.min (budget / DIVERSITY_DIVISOR) 3).
Definition max_fragments_of (r : ContextRequest) : Z :=
  default DEFAULT_CONTEXT_FRAGMENTS (max_fragments_requested r).
Definition count_files (l : list ScoredCandidate) : gmap str Z :=
  fold_left (fun counts c => <[scored_path c := default 0 (counts !! scored_path c) + 1]> counts) l ∅.

Definition select_candidates (candidates : list Candidate) (r : ContextRequest)
    : run CandidateSelection :=
  let ranked := rank count_tokens hash weights candidates in
  let deduped := deduplicate_with_options weights ranked in
  let paths := Z.of_nat (size (list_to_set (map scored_path deduped) : gset str)) in
  let budget := token_budget r in
  let max_fragments := max_fragments_of r in
  run_bind (select_required_candidates budget max_fragments deduped r
              (parse_focus_policy r)) (fun '(required, rest) =>
  let '(additional, omitted) :=
    greedy_select (u64_saturating_sub budget (total_tokens required)) (max_per_file_of budget)
      (u64_saturating_sub max_fragments (len required)) rest (count_files required) in
  Done (mk_selection (required ++ additional) omitted paths (bool_decide (omitted = [])))).

(** ** Coverage *)
Record ContextRequiredEvidenceCoverage := mk_evidence_coverage {
  coverage_path : str;
  coverage_minimum : Z;
  satisfied : bool;
  matched_queries : list str;
  unmatched_queries : list str;
  selected_fragments : Z
}.
Record ContextCoverageReceipt := mk_coverage {
  covered_must_include_paths : list str;
  uncovered_must_include_paths : list str;
  covered_must_include_symbols : list str;
  partial_must_include_symbols : list str;
  uncovered_must_include_symbols : list str;
  evidence_coverage : list ContextRequiredEvidenceCoverage;
  evidence_scope_satisfied : option bool
}.

Definition cover_evidence (covered : list ScoredCandidate) (index : nat)
    (r : ContextRequiredEvidence) : ContextRequiredEvidenceCoverage :=
  let matched := map snd (List.filter (fun '(q, _) => existsb (answers index q) covered)
                            (enumerate (queries r))) in
  let unmatched := List.filter (fun q => negb (bool_decide (q ∈ matched))) (queries r) in
  mk_evidence_coverage (evidence_path r) (minimum_query_matches r)
    (minimum_query_matches r <=? len matched) matched unmatched
    (len (List.filter (fun c => carries_required_evidence (candidate c) index) covered)).

Definition build_context_coverage (r : ContextRequest) (selected known_omitted : list ScoredCandidate)
    : ContextCoverageReceipt :=
  let covered := selected ++ known_omitted in
  let path_covered p := existsb (required_path_matches p) covered in
  let satisfied_symbol s := existsb (required_symbol_satisfied s) covered in
  let matched_symbol s := existsb (required_symbol_matches s) covered in
  let evidence := map (fun '(i, e) => cover_evidence covered i e) (enumerate (required_evidence r)) in
  mk_coverage (List.filter path_covered (must_include_paths r))
    (List.filter (fun p => negb (path_covered p)) (must_include_paths r))
    (List.filter satisfied_symbol (must_include_symbols r))
    (List.filter (fun s => negb (satisfied_symbol s) && matched_symbol s) (must_include_symbols r))
    (List.filter (fun s => negb (satisfied_symbol s) && negb (matched_symbol s)) (must_include_symbols r))
    evidence
    (if bool_decide (required_evidence r = []) then None else Some (forallb satisfied evidence)).

(** The decisions of [select_with_options]: what is returned, what is left out
    and what the receipt claims. *)
Definition select_with_options (candidates : list Candidate) (r : ContextRequest)
    (context_exclude_paths : list str)
    : run (CandidatePartition * CandidateSelection * ContextCoverageReceipt) :=
  let p := partition_candidates (map (apply_request_signals r) candidates) r context_exclude_paths in
  run_bind (select_candidates (eligible p) r) (fun selection =>
  Done (p, selection, build_context_coverage r (selection_selected selection) (known_omitted p))).
End Selecting.

(** ** Lemmas: lists *)
Lemma combine_seq_lookup {A} (l : list A) n i x : (i, x) ∈ combine (seq n (length l)) l ->
  (n <= i)%nat /\ l !! (i - n)%nat = Some x.
Proof.
  revert n. induction l as [|y l IH]; intros n; cbn; [by intros ?%elem_of_nil|].
  intros [[= -> ->]|H]%elem_of_cons; [by rewrite Nat.sub_diag|].
  apply IH in H as [? H]. split; [lia|]. by replace (i - n)%nat with (S (i - S n)) by lia.
Qed.
Lemma enumerate_lookup {A} (l : list A) i x : (i, x) ∈ enumerate l -> l !! i = Some x.
Proof. intros [_ H]%combine_seq_lookup. by rewrite Nat.sub_0_r in H. Qed.
Lemma max_by_key_elem {A} (key : A -> list Z) l x : max_by_key key l = Some x -> x ∈ l.
Proof.
  destruct l as [|y l]; [done|]. cbn. intros [= <-].
  assert (H : forall z, fold_left (fun x y => if list_lt (key y) (key x) then x else y) l z ∈ z :: l).
  { induction l as [|w l IH]; intros z; cbn; [by left|]. destruct (list_lt (key w) (key z)).
    - specialize (IH z). rewrite !elem_of_cons in *. tauto.
    - specialize (IH w). rewrite !elem_of_cons in *. tauto. }
  apply H.
Qed.

Definition count_if {A} (f : A -> bool) (l : list A) : Z := len (List.filter f l).
Lemma count_if_app {A} (f : A -> bool) l1 l2 : count_if f (l1 ++ l2) = count_if f l1 + count_if f l2.
Proof. unfold count_if, len. rewrite List.filter_app, length_app. lia. Qed.
Lemma count_if_one {A} (f : A -> bool) x : count_if f [x] = bool_Z (f x).
Proof. unfold count_if. cbn. by destruct (f x). Qed.
Lemma count_if_nonneg {A} (f : A -> bool) l : 0 <= count_if f l.
Proof. unfold count_if, len. lia. Qed.
Lemma total_tokens_app l1 l2 : total_tokens (l1 ++ l2) = total_tokens l1 + total_tokens l2.
Proof. unfold total_tokens. induction l1 as [|c l IH]; cbn; lia. Qed.
Lemma total_tokens_perm l1 l2 : l1 ≡ₚ l2 -> total_tokens l1 = total_tokens l2.
Proof. unfold total_tokens. induction 1; cbn in *; lia. Qed.

Definition has_tokens (c : ScoredCandidate) : Prop := 0 <= token_count c.
Lemma total_tokens_nonneg l : Forall has_tokens l -> 0 <= total_tokens l.
Proof. unfold total_tokens. induction 1; cbn; [done|]. unfold has_tokens in *. lia. Qed.

(** ** Lemmas: greedy selection *)
Section GreedyFacts.
Variable to_lowercase : str -> str.
Variable is_alphanumeric : Z -> bool.
Variable char_lowercase : Z -> str.
Variable budget : Z.
Variable max_per_file : Z.
Variable max_fragments : Z.
Variable counts0 : gmap str Z.
Abbreviation admitted := (admits to_lowercase budget max_per_file max_fragments).
Abbreviation push := (push_selected to_lowercase).
Abbreviation in_class := (is_class to_lowercase).
Definition on_path (p : str) (c : ScoredCandidate) : bool := bool_decide (scored_path c = p).

(** What holds of the selection at every point. *)
Record packed (st : Picked) : Prop := {
  pk_tokens : used_tokens st = total_tokens (selected st);
  pk_budget : used_tokens st <= budget;
  pk_slots : len (selected st) <= max_fragments;
  pk_files : forall p, file_count st p = default 0 (counts0 !! p) + count_if (on_path p) (selected st);
  pk_per_file : forall p, 0 < count_if (on_path p) (selected st) -> file_count st p <= max_per_file;
  pk_auxiliary : auxiliary (evidence_counts st) = count_if (in_class Auxiliary) (selected st);
  pk_failures : failures (evidence_counts st) = count_if (has_facet "failure_trace") (selected st);
  pk_tests : tests (evidence_counts st) = count_if (in_class Test) (selected st);
  pk_preserve : preserve (evidence_counts st) = count_if (has_facet "preserve_constraint") (selected st);
  pk_limits : auxiliary (evidence_counts st) <= 1 /\ failures (evidence_counts st) <= 2
    /\ tests (evidence_counts st) <= 2 /\ preserve (evidence_counts st) <= 2
}.

Lemma file_count_push st c p : file_count (push c st) p = file_count st p + bool_Z (on_path p c).
Proof.
  unfold file_count, on_path. cbn [push_selected file_counts]. case_bool_decide as Hp.
  - by rewrite Hp, lookup_insert_eq.
  - by rewrite lookup_insert_ne, Z.add_0_r by done.
Qed.

Lemma push_packed st c : packed st -> admitted st c = true -> packed (push c st).
Proof.
  intros [P1 P2 P3 P4 P5 P6 P7 P8 P9 P10] Ha. unfold admits, allows, candidate_fits in Ha.
  bool_to_prop.
  assert (Hq : auxiliary (evidence_counts st) + bool_Z (in_class Auxiliary c) <= 1
    /\ failures (evidence_counts st) + bool_Z (has_facet "failure_trace" c) <= 2
    /\ tests (evidence_counts st) + bool_Z (in_class Test c) <= 2
    /\ preserve (evidence_counts st) + bool_Z (has_facet "preserve_constraint" c) <= 2).
  { clear P1 P2 P3 P4 P5 P6 P7 P8 P9.
    destruct (in_class Auxiliary c), (has_facet "failure_trace" c), (in_class Test c),
      (has_facet "preserve_constraint" c), (0 <? max_fragments); cbn [negb orb bool_Z] in *;
      rewrite ?Z.ltb_lt in *; lia. }
  split; cbn [push_selected selected used_tokens evidence_counts record_quota auxiliary failures tests preserve];
    rewrite ?total_tokens_app, ?count_if_app, ?count_if_one; cbn [total_tokens foldr].
  - lia.
  - unfold u64_saturating_sub in *. lia.
  - unfold len in *. rewrite length_app. cbn. lia.
  - intros p. rewrite file_count_push, P4, count_if_app, count_if_one. lia.
  - intros p. rewrite file_count_push, count_if_app, count_if_one. unfold on_path at 2 3.
    case_bool_decide as Hp; cbn [bool_Z]; [subst p; lia|]. intros. rewrite Z.add_0_r. apply P5. lia.
  - lia.
  - lia.
  - lia.
  - lia.
  - exact Hq.
Qed.

(** The selection only grows, and what does not fit never fits later. *)
Record grown (st st' : Picked) : Prop := {
  gr_tokens : used_tokens st <= used_tokens st';
  gr_slots : len (selected st) <= len (selected st');
  gr_files : forall p, file_count st p <= file_count st' p;
  gr_quotas : auxiliary (evidence_counts st) <= auxiliary (evidence_counts st')
    /\ failures (evidence_counts st) <= failures (evidence_counts st')
    /\ tests (evidence_counts st) <= tests (evidence_counts st')
    /\ preserve (evidence_counts st) <= preserve (evidence_counts st')
}.
#[local] Instance grown_preorder : PreOrder grown.
Proof.
  split; [intros st; split; lia|]. intros a b c [A1 A2 A3 A4] [B1 B2 B3 B4].
  split; [lia|lia| |lia]. intros p. specialize (A3 p). specialize (B3 p). lia.
Qed.

Lemma push_grown st c : has_tokens c -> grown st (push c st).
Proof.
  unfold has_tokens. intros Hc. split; cbn; [lia|unfold len; rewrite length_app; cbn; lia| |].
  - intros p. rewrite file_count_push. destruct (on_path p c); cbn; lia.
  - destruct (in_class Auxiliary c), (has_facet "failure_trace" c), (in_class Test c),
      (has_facet "preserve_constraint" c); cbn; lia.
Qed.

Lemma quota_antitone b x y limit : x <= y -> b || (y <? limit) = true -> b || (x <? limit) = true.
Proof. destruct b; [done|]. cbn. rewrite !Z.ltb_lt. lia. Qed.
Lemma admits_antitone st st' c : grown st st' -> admitted st' c = true -> admitted st c = true.
Proof.
  intros [G1 G2 G3 (Q1 & Q2 & Q3 & Q4)] Ha. specialize (G3 (scored_path c)).
  unfold admits, allows, candidate_fits, u64_saturating_sub in *.
  rewrite !andb_true_iff, !Z.leb_le in *. destruct Ha as [[[[H1 H2] H3] H4] [[H5 H6] H7]].
  rewrite !Z.ltb_lt in *. split.
  - repeat split; by eapply quota_antitone.
  - repeat split; lia.
Qed.

(** A loop, and a candidate taken out of turn: [rest] is what was not pushed. *)
Record advanced (l : list ScoredCandidate) (st st' : Picked) (rest : list ScoredCandidate) : Prop := {
  ad_packed : packed st';
  ad_grown : grown st st';
  ad_perm : rest ++ selected st' ≡ₚ l ++ selected st
}.
Lemma advanced_tokens l st st' rest : advanced l st st' rest ->
  Forall has_tokens (l ++ selected st) -> Forall has_tokens (rest ++ selected st').
Proof. intros [_ _ ->]. done. Qed.

Lemma sweep_advanced wanted note l st k st' k' rest : packed st -> Forall has_tokens (l ++ selected st) ->
  sweep to_lowercase budget max_per_file max_fragments wanted note l st k = (st', k', rest) ->
  advanced l st st' rest
  /\ forall c, c ∈ rest -> (exists k0, wanted k0 c = false) \/ admitted st' c = false.
Proof.
  revert st k rest. induction l as [|c l IH]; intros st k rest Hp Ht; cbn.
  - intros [= <- <- <-]. split; [by split|by intros c ?%elem_of_nil].
  - apply Forall_cons in Ht as [Hc Ht]. destruct (wanted k c && admitted st c) eqn:Hw.
    + apply andb_true_iff in Hw as [_ Ha]. intros Hs.
      destruct (IH (push c st) (note c k) rest) as [[A1 A2 A3] Hrest]; [by apply push_packed| |done|].
      { cbn. rewrite app_assoc, Forall_app. split; [done|by constructor]. }
      split; [|done]. split; [done|by transitivity (push c st); [apply push_grown|]|].
      rewrite A3. cbn. rewrite app_assoc, <-Permutation_cons_append. done.
    + destruct (sweep _ _ _ _ wanted note l st k) as [[st1 k1] rest1] eqn:Hs. intros [= <- <- <-].
      destruct (IH st k rest1 Hp Ht Hs) as [[A1 A2 A3] Hrest]. split.
      { split; [done|done|]. cbn. by rewrite A3. }
      intros c' [->|Hc']%elem_of_cons; [|by apply Hrest].
      apply andb_false_iff in Hw as [Hw|Ha]; [left; by exists k|right].
      apply not_true_is_false. intros H. apply (admits_antitone st) in H; [congruence|done].
Qed.

Lemma take_position_advanced i pool st k pool' st' k' : packed st -> Forall has_tokens (pool ++ selected st) ->
  (forall j c, i = Some j -> pool !! j = Some c -> admitted st c = true) ->
  take_position to_lowercase i pool st k = (pool', st', k') -> advanced pool st st' pool'.
Proof.
  intros Hp Ht Hi. unfold take_position. destruct i as [j|]; cbn; [|intros [= <- <- <-]; by split].
  destruct (pool !! j) as [c|] eqn:Hj; cbn; [|intros [= <- <- <-]; by split].
  intros [= <- <- <-]. specialize (Hi j c eq_refl Hj).
  pose proof (delete_Permutation pool j c Hj) as Hperm. rewrite Hperm in Ht.
  apply Forall_cons in Ht as [Hc _]. split; [by apply push_packed|by apply push_grown|].
  transitivity ((c :: delete j pool) ++ selected st); [|by rewrite <-Hperm].
  cbn. by rewrite app_assoc, <-Permutation_cons_append.
Qed.

Lemma primary_position_admitted st pool k j c :
  primary_position_for to_lowercase is_alphanumeric char_lowercase budget max_per_file max_fragments
    st pool k = Some j -> pool !! j = Some c -> admitted st c = true.
Proof.
  assert (Hpos : forall f, (forall c, f c = true -> admitted st c = true) ->
    position f pool = Some j -> pool !! j = Some c -> admitted st c = true).
  { intros f Hf Hj Hc. destruct (position_some _ _ _ Hj) as (c' & Hc' & H).
    rewrite Hc in Hc'. injection Hc' as <-. by apply Hf. }
  assert (Hown : forall carries b, owner_position to_lowercase budget max_per_file max_fragments
    st pool k carries b = Some j -> pool !! j = Some c -> admitted st c = true).
  { intros carries b. unfold owner_position. destruct (max_by_key _ _) as [[i o]|]; [|done].
    apply Hpos. intros c'. unfold primary_candidate_fits. rewrite !andb_true_iff. tauto. }
  unfold primary_position_for, opt_or.
  destruct (position _ pool) as [i|] eqn:Hi.
  { intros [= ->]. revert Hi. apply Hpos. intros c'. unfold primary_candidate_fits.
    rewrite !andb_true_iff. tauto. }
  destruct (List.find _ pool ≫= _) as [i|] eqn:Hf.
  - intros [= ->]. apply bind_Some in Hf as (b & _ & Hf). by eapply Hown.
  - intros (b & _ & H)%bind_Some. by eapply Hown.
Qed.

Lemma test_position_admitted st k owner pool j c :
  test_position to_lowercase budget max_per_file max_fragments st k owner pool = Some j ->
  pool !! j = Some c -> admitted st c = true.
Proof.
  unfold test_position. destruct (max_by_key _ _) as [[i c']|] eqn:Hm; [|done]. cbn. intros [= ->] Hc.
  apply max_by_key_elem, list_elem_of_In, filter_In in Hm as [Hin Hf].
  apply list_elem_of_In, enumerate_lookup in Hin. rewrite Hc in Hin. injection Hin as <-.
  rewrite !andb_true_iff in Hf. tauto.
Qed.

Lemma preserve_position_admitted st pool j c :
  preserve_position to_lowercase budget max_per_file max_fragments st pool = Some j ->
  pool !! j = Some c -> admitted st c = true.
Proof.
  intros Hj Hc. destruct (position_some _ _ _ Hj) as (c' & Hc' & H). rewrite Hc in Hc'.
  injection Hc' as <-. rewrite !andb_true_iff in H. tauto.
Qed.

Lemma initial_packed : 0 <= budget -> 0 <= max_fragments ->
  packed (mk_picked [] 0 counts0 (mk_quotas 0 0 0 0)).
Proof. intros. split; cbn; try done; try lia. intros p. by rewrite Z.add_0_r. Qed.

(** The final state of the selection. *)
Lemma greedy_advanced candidates sel omitted : 0 <= budget -> 0 <= max_fragments ->
  Forall has_tokens candidates ->
  greedy_select to_lowercase is_alphanumeric char_lowercase budget max_per_file max_fragments
    candidates counts0 = (sel, omitted) ->
  exists st, selected st = sel /\ packed st /\ sel ++ omitted ≡ₚ candidates
    /\ forall c, c ∈ omitted ->
       skipped (confidence_floor (sort_by compare_utility candidates)) c = true \/ admitted st c = false.
Proof.
  intros Hb Hm Ht. unfold greedy_select.
  set (pool := sort_by compare_utility candidates). set (floor := confidence_floor pool).
  set (st0 := mk_picked [] 0 counts0 (mk_quotas 0 0 0 0)).
  pose proof (initial_packed Hb Hm) as P0. fold st0 in P0.
  assert (T0 : Forall has_tokens (pool ++ selected st0)).
  { cbn. rewrite app_nil_r. unfold pool. by rewrite sort_by_perm. }
  destruct (take_position _ _ pool st0 _) as [[pool1 st1] k1] eqn:E1.
  eapply take_position_advanced in E1 as A1; [|done|done|].
  2: { intros j c Hj Hc. unfold opt_or in Hj. destruct (primary_position_for _ _ _ _ _ _ st0 pool Production) as [i|] eqn:Hp.
       - injection Hj as ->. by eapply primary_position_admitted.
       - by eapply primary_position_admitted. }
  pose proof (advanced_tokens _ _ _ _ A1 T0) as T1.
  destruct (take_position _ _ pool1 st1 k1) as [[pool2 st2] k2] eqn:E2.
  eapply take_position_advanced in E2 as A2;
    [|apply A1|done|intros j c; apply test_position_admitted].
  pose proof (advanced_tokens _ _ _ _ A2 T1) as T2.
  destruct (take_position _ _ pool2 st2 k2) as [[pool3 st3] k3] eqn:E3.
  eapply take_position_advanced in E3 as A3;
    [|apply A2|done|intros j c; apply preserve_position_admitted].
  pose proof (advanced_tokens _ _ _ _ A3 T2) as T3.
  destruct (sweep _ _ _ _ _ _ pool3 st3 k3) as [[st4 k4] deferred] eqn:E4.
  destruct (sweep_advanced _ _ _ _ _ _ _ _ (ad_packed _ _ _ _ A3) T3 E4) as [A4 _].
  pose proof (advanced_tokens _ _ _ _ A4 T3) as T4.
  set (deferred' := sort_by _ deferred).
  assert (Hd : deferred' ≡ₚ deferred) by apply sort_by_perm.
  assert (T4' : Forall has_tokens (deferred' ++ selected st4)) by by rewrite Hd.
  destruct (sweep _ _ _ _ _ _ deferred' st4 k4) as [[st5 k5] rest] eqn:E5.
  destruct (sweep_advanced _ _ _ _ _ _ _ _ (ad_packed _ _ _ _ A4) T4' E5) as [A5 _].
  pose proof (advanced_tokens _ _ _ _ A5 T4') as T5.
  destruct (sweep _ _ _ _ _ _ rest st5 k5) as [[st6 k6] fill] eqn:E6.
  destruct (sweep_advanced _ _ _ _ _ _ _ _ (ad_packed _ _ _ _ A5) T5 E6) as [A6 _].
  pose proof (advanced_tokens _ _ _ _ A6 T5) as T6.
  destruct (sweep _ _ _ _ _ _ fill st6 k6) as [[st7 k7] out] eqn:E7.
  destruct (sweep_advanced _ _ _ _ _ _ _ _ (ad_packed _ _ _ _ A6) T6 E7) as [A7 Hout].
  intros [= <- <-]. exists st7. split; [done|]. split; [apply A7|]. split.
  - rewrite Permutation_app_comm, (ad_perm _ _ _ _ A7), (ad_perm _ _ _ _ A6), (ad_perm _ _ _ _ A5), Hd,
      (ad_perm _ _ _ _ A4), (ad_perm _ _ _ _ A3), (ad_perm _ _ _ _ A2), (ad_perm _ _ _ _ A1).
    cbn. rewrite app_nil_r. apply sort_by_perm.
  - intros c Hc. destruct (Hout c Hc) as [[_ Hs]|Hs]; [left|by right].
    by destruct (skipped floor c).
Qed.
End GreedyFacts.

(** ** Lemmas: required evidence *)
Section RequiredFacts.
Variable glob_valid : str -> bool.
Variable glob_match : str -> str -> bool.
Variable budget : Z.
Variable max_fragments : Z.
Hypothesis budget_ok : 0 <= budget <= U64_MAX.
Hypothesis fragments_ok : 0 <= max_fragments.
Abbreviation fitting := (first_fitting budget).
Abbreviation full := (slots_used max_fragments).

Record gathered (candidates : list ScoredCandidate) (st : RequiredState) : Prop := {
  ga_perm : remaining st ++ chosen st ≡ₚ candidates;
  ga_tokens : required_tokens st = total_tokens (chosen st);
  ga_budget : required_tokens st <= budget;
  ga_slots : len (chosen st) <= max_fragments
}.

(** Candidates only move from the remaining ones to the chosen ones. *)
Record moved (st st' : RequiredState) : Prop := {
  mv_remaining : forall c, c ∈ remaining st' -> c ∈ remaining st;
  mv_chosen : chosen st `prefix_of` chosen st';
  mv_tokens : required_tokens st <= required_tokens st'
}.
#[local] Instance moved_preorder : PreOrder moved.
Proof.
  split; [intros st; by split|]. intros a b c [A1 A2 A3] [B1 B2 B3].
  split; [auto|by transitivity (chosen b)|lia].
Qed.

Section Candidates.
Variable candidates : list ScoredCandidate.
Hypothesis tokens_ok : Forall has_tokens candidates.

Lemma choose_gathered wants st i : gathered candidates st -> fitting wants st = Some i -> full st = false ->
  gathered candidates (choose i st) /\ moved st (choose i st)
  /\ length (remaining st) = S (length (remaining (choose i st))).
Proof.
  intros [G1 G2 G3 G4] Hf Hfull. destruct (position_some _ _ _ Hf) as (c & Hc & Hw).
  bool_to_prop. unfold u64_saturating_sub in *. unfold choose. rewrite Hc. unfold slots_used in Hfull.
  bool_to_prop. pose proof (delete_Permutation _ _ _ Hc) as Hp.
  assert (Ht : 0 <= token_count c).
  { assert (Hin : has_tokens c); [|done]. rewrite Forall_forall in tokens_ok. apply tokens_ok.
    rewrite <-G1, Hp. cbn. by left. }
  rewrite u64_saturating_add_exact by lia. split; [|split].
  - split; cbn.
    + transitivity ((c :: delete i (remaining st)) ++ chosen st); [|by rewrite <-Hp].
      cbn. by rewrite app_assoc, <-Permutation_cons_append.
    + rewrite total_tokens_app. cbn. lia.
    + lia.
    + unfold len in *. rewrite length_app. cbn. lia.
  - split; cbn; [|by apply prefix_app_r|lia]. intros x Hx. rewrite Hp. by right.
  - cbn. by rewrite (Permutation_length Hp).
Qed.

(** Nothing that is wanted fits any more. *)
Definition settled (wants : ScoredCandidate -> bool) (st : RequiredState) : Prop :=
  full st = true
  \/ forall c, c ∈ remaining st -> wants c = true -> budget < required_tokens st + token_count c.

Lemma none_settled wants st : gathered candidates st -> fitting wants st = None -> settled wants st.
Proof.
  intros [_ _ G3 _] Hf. right. intros c Hc Hw. apply (position_none _ _ Hf) in Hc.
  rewrite Hw in Hc. cbn in Hc. bool_to_prop. unfold u64_saturating_sub in *. lia.
Qed.

Lemma full_later st st' : gathered candidates st' -> moved st st' -> full st = true -> full st' = true.
Proof.
  intros [_ _ _ G4] [_ [k Hk] _]. unfold slots_used. rewrite !Z.eqb_eq, Hk in *.
  unfold len in *. rewrite length_app in *. lia.
Qed.
Lemma settled_later wants wants' st st' : gathered candidates st' -> moved st st' ->
  (forall c, wants' c = true -> wants c = true) -> settled wants st -> settled wants' st'.
Proof.
  intros G M Hw [H|H]; [left; by eapply full_later|right]. intros c Hc Hwc.
  specialize (H c (mv_remaining _ _ M c Hc) (Hw c Hwc)). pose proof (mv_tokens _ _ M). lia.
Qed.
Lemma existsb_later (f : ScoredCandidate -> bool) st st' : moved st st' ->
  existsb f (chosen st) = true -> existsb f (chosen st') = true.
Proof. intros [_ [k ->] _]. rewrite existsb_app. by intros ->. Qed.

(** *** One evidence requirement *)
Definition answered (index : nat) (r : ContextRequiredEvidence) (l : list ScoredCandidate) : list nat :=
  List.filter (fun q => existsb (answers index q) l) (seq 0 (length (queries r))).
Definition wants_query (index : nat) (r : ContextRequiredEvidence) (l : list ScoredCandidate)
    (c : ScoredCandidate) : bool :=
  existsb (fun q => negb (bool_decide (q ∈ answered index r l)) && answers index q c)
    (seq 0 (length (queries r))).
Definition evidence_done (index : nat) (r : ContextRequiredEvidence) (st : RequiredState) : Prop :=
  minimum_query_matches r <= len (answered index r (chosen st))
  \/ settled (wants_query index r (chosen st)) st.

Lemma answered_elem index r l q :
  q ∈ answered index r l <-> (q < length (queries r))%nat /\ existsb (answers index q) l = true.
Proof. unfold answered. rewrite list_elem_of_In, filter_In, in_seq. split; intros [? ?]; split; auto; lia. Qed.
Lemma answered_nodup index r l : NoDup (answered index r l).
Proof. apply NoDup_ListNoDup, List.NoDup_filter, seq_NoDup. Qed.
Lemma answered_later index r st st' q : moved st st' ->
  q ∈ answered index r (chosen st) -> q ∈ answered index r (chosen st').
Proof. intros M. rewrite !answered_elem. intros [? ?]. split; [done|]. by eapply existsb_later. Qed.
Lemma wants_query_later index r st st' c : moved st st' ->
  wants_query index r (chosen st') c = true -> wants_query index r (chosen st) c = true.
Proof.
  intros M. unfold wants_query. rewrite !existsb_exists. intros (q & Hq & Hw). exists q. split; [done|].
  bool_to_prop. apply andb_true_iff. split; [|done]. apply negb_true_iff, bool_decide_eq_false.
  apply bool_decide_eq_false in H. intros Hin. apply H. by eapply answered_later.
Qed.
Lemma evidence_done_later index r st st' : gathered candidates st' -> moved st st' ->
  evidence_done index r st -> evidence_done index r st'.
Proof.
  intros G M [H|H].
  - left. etransitivity; [exact H|]. unfold len. apply inj_le.
    apply submseteq_length, NoDup_submseteq; [apply answered_nodup|]. intros q. by apply answered_later.
  - right. eapply settled_later; [done|done| |done]. intros c. by apply wants_query_later.
Qed.

Lemma require_evidence_done fuel index r matched st : gathered candidates st ->
  (length (remaining st) < fuel)%nat ->
  (forall q, q ∈ matched -> q ∈ answered index r (chosen st)) ->
  exists st', require_evidence budget max_fragments fuel index r matched st = Done st'
    /\ gathered candidates st' /\ moved st st' /\ evidence_done index r st'.
Proof.
  revert matched st. induction fuel as [|fuel IH]; intros matched st G Hfuel Hm; [lia|]. cbn [require_evidence].
  set (m := matched ∪ _).
  assert (Hm' : forall q, q ∈ m <-> q ∈ answered index r (chosen st)).
  { intros q. unfold m. rewrite elem_of_union, elem_of_list_to_set. fold (answered index r (chosen st)).
    split; [intros [?|?]; auto|by right]. }
  assert (Hsize : Z.of_nat (size m) = len (answered index r (chosen st))).
  { replace m with (list_to_set (C := gset nat) (answered index r (chosen st)))
      by (apply set_eq; intros q; by rewrite Hm', elem_of_list_to_set).
    by rewrite size_list_to_set by apply answered_nodup. }
  rewrite Hsize. destruct ((minimum_query_matches r <=? len (answered index r (chosen st))) || full st) eqn:Hdone.
  { exists st. split; [done|]. split; [done|]. split; [done|]. apply orb_true_iff in Hdone as [H|H].
    - left. by apply Z.leb_le.
    - right. by left. }
  apply orb_false_iff in Hdone as [_ Hfull].
  assert (Hext : forall c, existsb (fun q => negb (bool_decide (q ∈ m)) && answers index q c)
      (seq 0 (length (queries r))) = wants_query index r (chosen st) c).
  { intros c. unfold wants_query. clear Hsize. clearbody m.
    assert (Heq : forall q, bool_decide (q ∈ m) = bool_decide (q ∈ answered index r (chosen st)))
      by (intros q; apply bool_decide_ext, Hm').
    induction (seq 0 (length (queries r))) as [|q qs IHq]; [done|]. cbn. by rewrite IHq, Heq. }
  destruct (first_fitting budget _ st) as [i|] eqn:Hf.
  - destruct (choose_gathered _ st i G Hf Hfull) as (G' & M & Hlen).
    destruct (IH m (choose i st) G') as (st' & -> & G2 & M2 & D); [lia| |].
    { intros q Hq. eapply answered_later; [done|by apply Hm']. }
    exists st'. split; [done|]. split; [done|]. split; [by transitivity (choose i st)|done].
  - exists st. split; [done|]. split; [done|]. split; [done|]. right.
    eapply settled_later; [done|done| |by eapply none_settled]. intros c Hc. cbn. by rewrite Hext.
Qed.

Lemma require_all_done index rs st : gathered candidates st ->
  exists st', require_all_evidence budget max_fragments index rs st = Done st'
    /\ gathered candidates st' /\ moved st st'
    /\ forall i r, rs !! i = Some r -> evidence_done (index + i) r st'.
Proof.
  revert index st. induction rs as [|r rs IH]; intros index st G; cbn [require_all_evidence].
  { exists st. by split. }
  destruct (require_evidence_done (S (length (remaining st))) index r ∅ st G) as (st1 & -> & G1 & M1 & D1);
    [lia|set_solver|]. cbn [run_bind].
  destruct (IH (S index) st1 G1) as (st2 & -> & G2 & M2 & D2).
  exists st2. split; [done|]. split; [done|]. split; [by transitivity st1|].
  intros [|i] r'; cbn.
  - intros [= <-]. rewrite Nat.add_0_r. by eapply evidence_done_later.
  - intros Hr. rewrite Nat.add_succ_r. by apply (D2 i r').
Qed.

(** *** Must-include paths and symbols *)
Definition included (wants : ScoredCandidate -> bool) (st : RequiredState) : Prop :=
  existsb wants (chosen st) = true \/ settled wants st.
Lemma included_later wants st st' : gathered candidates st' -> moved st st' ->
  included wants st -> included wants st'.
Proof.
  intros G M [H|H]; [left; by eapply existsb_later|right].
  by apply (settled_later wants wants st st').
Qed.
Lemma must_include_done wants items st : gathered candidates st ->
  gathered candidates (must_include budget max_fragments wants items st)
  /\ moved st (must_include budget max_fragments wants items st)
  /\ forall item, item ∈ items -> included (wants item) (must_include budget max_fragments wants items st).
Proof.
  revert st. induction items as [|item items IH]; intros st G; cbn [must_include].
  { split; [done|]. split; [done|]. by intros ? ?%elem_of_nil. }
  assert (Hkeep : included (wants item) st -> forall st', gathered candidates st' -> moved st st' ->
    (forall x, x ∈ items -> included (wants x) st') -> forall x, x ∈ item :: items -> included (wants x) st').
  { intros Hd st' G' M' H x [->|Hx]%elem_of_cons; [by eapply included_later|by apply H]. }
  destruct (existsb (wants item) (chosen st)) eqn:He.
  { destruct (IH st G) as (G' & M' & H). split; [done|]. split; [done|]. apply Hkeep; [by left|done..]. }
  destruct (first_fitting budget (wants item) st) as [i|] eqn:Hf.
  - destruct (slots_used max_fragments st) eqn:Hfull.
    { split; [done|]. split; [done|]. intros x _. right. by left. }
    destruct (choose_gathered _ st i G Hf Hfull) as (G' & M & _).
    destruct (IH (choose i st) G') as (G2 & M2 & H). split; [done|]. split; [by transitivity (choose i st)|].
    intros x [->|Hx]%elem_of_cons; [|by apply H].
    eapply included_later; [exact G2|exact M2|]. left.
    destruct (position_some _ _ _ Hf) as (c & Hc & Hw). bool_to_prop.
    unfold choose. rewrite Hc. cbn. rewrite existsb_app. cbn. by rewrite H0, orb_true_r.
  - destruct (IH st G) as (G' & M' & H). split; [done|]. split; [done|].
    apply Hkeep; [right; by eapply none_settled|done..].
Qed.

(** *** Focus paths *)
Definition focused (minimum : Z) (pattern : str) (st : RequiredState) : Prop :=
  minimum <= count_if (required_path_matches glob_valid glob_match pattern) (chosen st)
  \/ settled (required_path_matches glob_valid glob_match pattern) st.
Lemma focused_later minimum p st st' : gathered candidates st' -> moved st st' ->
  focused minimum p st -> focused minimum p st'.
Proof.
  intros G M [H|H]; [left|right; by eapply (settled_later _ _ st st' G M (fun _ H => H))]. destruct M as [_ [k ->] _].
  rewrite count_if_app. pose proof (count_if_nonneg (required_path_matches glob_valid glob_match p) k). lia.
Qed.
Lemma focus_path_done fuel p minimum st : gathered candidates st -> (length (remaining st) < fuel)%nat ->
  exists st', focus_path glob_valid glob_match budget max_fragments fuel p minimum st = Done st'
    /\ gathered candidates st' /\ moved st st' /\ focused minimum p st'.
Proof.
  revert st. induction fuel as [|fuel IH]; intros st G Hfuel; [lia|]. cbn [focus_path].
  destruct (minimum <=? _) eqn:Hmin; [exists st; split; [done|]; split; [done|]; split; [done|]; left; by apply Z.leb_le|].
  destruct (slots_used max_fragments st) eqn:Hfull; [exists st; split; [done|]; split; [done|]; split; [done|]; right; by left|].
  destruct (first_fitting budget _ st) as [i|] eqn:Hf.
  - destruct (choose_gathered _ st i G Hf Hfull) as (G' & M & Hlen).
    destruct (IH (choose i st) G') as (st' & -> & G2 & M2 & D); [lia|].
    exists st'. split; [done|]. split; [done|]. split; [by transitivity (choose i st)|done].
  - exists st. split; [done|]. split; [done|]. split; [done|]. right. by eapply none_settled.
Qed.
Lemma focus_all_done ps minimum st : gathered candidates st ->
  exists st', focus_all glob_valid glob_match budget max_fragments ps minimum st = Done st'
    /\ gathered candidates st' /\ moved st st' /\ forall p, p ∈ ps -> focused minimum p st'.
Proof.
  revert st. induction ps as [|p ps IH]; intros st G; cbn [focus_all].
  { exists st. split; [done|]. split; [done|]. split; [done|]. by intros ? ?%elem_of_nil. }
  destruct (focus_path_done (S (length (remaining st))) p minimum st G) as (st1 & -> & G1 & M1 & D1); [lia|].
  cbn [run_bind]. destruct (IH st1 G1) as (st2 & -> & G2 & M2 & D2).
  exists st2. split; [done|]. split; [done|]. split; [by transitivity st1|].
  intros x [->|Hx]%elem_of_cons; [by eapply focused_later|by apply D2].
Qed.

(** *** All requirements *)
Lemma select_required_done r : 
  exists st, select_required_candidates glob_valid glob_match budget max_fragments candidates r
      (parse_focus_policy r) = Done (chosen st, remaining st)
    /\ gathered candidates st
    /\ (forall i e, required_evidence r !! i = Some e -> evidence_done i e st)
    /\ (forall p, p ∈ must_include_paths r ->
         included (required_path_matches glob_valid glob_match p) st)
    /\ (forall s, s ∈ must_include_symbols r -> included (required_symbol_matches s) st)
    /\ (forall p minimum, focus_minimum (parse_focus_policy r) = Some minimum -> 0 < minimum ->
         p ∈ focus_paths r -> focused minimum p st).
Proof.
  unfold select_required_candidates.
  assert (G0 : gathered candidates (mk_required candidates [] 0)) by (split; unfold len; cbn; [by rewrite app_nil_r|done|lia|lia]).
  destruct (require_all_done 0 (required_evidence r) _ G0) as (st1 & -> & G1 & _ & D1). cbn [run_bind].
  destruct (must_include_done (required_path_matches glob_valid glob_match) (must_include_paths r) st1 G1)
    as (G2 & M2 & D2). set (st2 := must_include _ _ _ (must_include_paths r) st1) in *.
  destruct (must_include_done required_symbol_matches (must_include_symbols r) st2 G2) as (G3 & M3 & D3).
  set (st3 := must_include _ _ _ (must_include_symbols r) st2) in *.
  assert (Hend : exists st, match focus_minimum (parse_focus_policy r) with
      | Some minimum => if 0 <? minimum
                        then focus_all glob_valid glob_match budget max_fragments (focus_paths r) minimum st3
                        else Done st3
      | None => Done st3 end = Done st
    /\ gathered candidates st /\ moved st3 st
    /\ (forall p minimum, focus_minimum (parse_focus_policy r) = Some minimum -> 0 < minimum ->
         p ∈ focus_paths r -> focused minimum p st)).
  { destruct (focus_minimum (parse_focus_policy r)) as [minimum|]; [|by exists st3].
    destruct (0 <? minimum) eqn:Hmin.
    - destruct (focus_all_done (focus_paths r) minimum st3 G3) as (st & -> & G & M & D).
      exists st. split; [done|]. split; [done|]. split; [done|]. intros p ? [= <-] _. apply D.
    - exists st3. split; [done|]. split; [done|]. split; [done|]. intros p ? [= <-]. bool_to_prop. lia. }
  destruct Hend as (st & -> & G4 & M4 & D4). exists st. split; [done|]. split; [done|].
  split; [|split; [|split; [|done]]].
  - intros i e He. eapply evidence_done_later; [done| |by apply (D1 i e)].
    transitivity st2; [done|]. by transitivity st3.
  - intros p Hp. eapply included_later; [done| |by apply D2]. by transitivity st3.
  - intros s Hs. eapply included_later; [done|done|by apply D3].
Qed.
End Candidates.
End RequiredFacts.

(** ** What a selection promises *)

(** The quota of a kind of evidence is used up. *)
Definition quota_reached (to_lowercase : str -> str) (max_fragments : Z) (sel : list ScoredCandidate)
    (c : ScoredCandidate) : Prop :=
  (is_class to_lowercase Auxiliary c = true
     /\ Z.min max_fragments 1 <= count_if (is_class to_lowercase Auxiliary) sel)
  \/ (is_class to_lowercase Test c = true
     /\ Z.min max_fragments 2 <= count_if (is_class to_lowercase Test) sel)
  \/ (has_facet "failure_trace" c = true
     /\ Z.min max_fragments 2 <= count_if (has_facet "failure_trace") sel)
  \/ (has_facet "preserve_constraint" c = true
     /\ Z.min max_fragments 2 <= count_if (has_facet "preserve_constraint") sel).

Lemma admits_refused to_lowercase budget max_per_file max_fragments counts0 st c : 0 <= max_fragments ->
  packed to_lowercase budget max_per_file max_fragments counts0 st ->
  admits to_lowercase budget max_per_file max_fragments st c = false ->
  budget < total_tokens (selected st) + token_count c \/ max_fragments <= len (selected st)
  \/ max_per_file <= default 0 (counts0 !! scored_path c) + count_if (on_path (scored_path c)) (selected st)
  \/ quota_reached to_lowercase max_fragments (selected st) c.
Proof.
  intros Hm [P1 P2 P3 P4 P5 P6 P7 P8 P9 P10] Ha. specialize (P4 (scored_path c)).
  unfold admits, allows, candidate_fits, u64_saturating_sub in Ha. unfold quota_reached.
  rewrite <-P6, <-P7, <-P8, <-P9, <-P1, <-P4.
  assert (Hone : bool_Z (0 <? max_fragments) = Z.min max_fragments 1)
    by (destruct (0 <? max_fragments) eqn:H0; cbn; bool_to_prop; lia).
  rewrite Hone in Ha.
  rewrite !andb_false_iff, !orb_false_iff, !Z.ltb_ge, Z.leb_gt, !negb_false_iff in Ha.
  destruct Ha as [[[[[H1 H2]|[H1 H2]]|[H1 H2]]|[H1 H2]]|[[H|H]|H]].
  - right. right. right. by left.
  - right. right. right. right. right. by left.
  - right. right. right. right. by left.
  - right. right. right. right. right. by right.
  - left. lia.
  - right. right. left. lia.
  - right. left. lia.
Qed.

(** C12: greedy selection packs the budget.  The selection and the omissions
    are the candidates; the selection respects the token budget, the number of
    fragments, the fragments per file and the quotas of auxiliary, test, failure
    and constraint evidence; and it is maximal: an omitted candidate has too
    low a score, or adding it would break one of those limits. *)
Theorem greedy_select_packs to_lowercase is_alphanumeric char_lowercase budget max_per_file
    max_fragments candidates counts0 sel omitted :
  0 <= budget -> 0 <= max_fragments -> Forall has_tokens candidates ->
  greedy_select to_lowercase is_alphanumeric char_lowercase budget max_per_file max_fragments
    candidates counts0 = (sel, omitted) ->
  sel ++ omitted ≡ₚ candidates
  /\ total_tokens sel <= budget /\ len sel <= max_fragments
  /\ (forall p, 0 < count_if (on_path p) sel ->
       default 0 (counts0 !! p) + count_if (on_path p) sel <= max_per_file)
  /\ count_if (is_class to_lowercase Auxiliary) sel <= 1
  /\ count_if (is_class to_lowercase Test) sel <= 2
  /\ count_if (has_facet "failure_trace") sel <= 2
  /\ count_if (has_facet "preserve_constraint") sel <= 2
  /\ (forall c, c ∈ omitted ->
       skipped (confidence_floor (sort_by compare_utility candidates)) c = true
       \/ budget < total_tokens sel + token_count c \/ max_fragments <= len sel
       \/ max_per_file <= default 0 (counts0 !! scored_path c) + count_if (on_path (scored_path c)) sel
       \/ quota_reached to_lowercase max_fragments sel c).
Proof.
  intros Hb Hm Ht Hg.
  destruct (greedy_advanced _ _ _ _ _ _ _ _ _ _ Hb Hm Ht Hg) as (st & <- & Hp & Hperm & Hout).
  pose proof Hp as [P1 P2 P3 P4 P5 P6 P7 P8 P9 (Q1 & Q2 & Q3 & Q4)].
  split; [done|]. split; [lia|]. split; [done|]. split; [intros p; rewrite <-P4; apply P5|].
  split; [by rewrite <-P6|]. split; [by rewrite <-P8|]. split; [by rewrite <-P7|].
  split; [by rewrite <-P9|]. intros c Hc. destruct (Hout c Hc) as [Hs|Ha]; [by left|right].
  by eapply admits_refused.
Qed.

Lemma new_scored_tokens count_tokens hash weights c : has_tokens (new_scored count_tokens hash weights c).
Proof. unfold has_tokens. cbn. lia. Qed.

Lemma rank_tokens count_tokens hash weights cs : Forall has_tokens (rank count_tokens hash weights cs).
Proof.
  unfold rank. rewrite sort_by_perm, Forall_forall. intros c (c0 & -> & _)%list_elem_of_fmap.
  apply new_scored_tokens.
Qed.

Lemma deduped_tokens count_tokens hash weights candidates :
  Forall has_tokens (deduplicate_with_options weights (rank count_tokens hash weights candidates)).
Proof.
  pose proof (deduped_loop weights (sort_by by_exact (rank count_tokens hash weights candidates)) []
    _ deduped_nil) as Hd.
  rewrite Forall_forall. intros k Hk. unfold deduplicate_with_options in Hk. rewrite sort_by_perm in Hk.
  destruct (dd_origin _ _ Hd k Hk) as (c & Hc & (_ & _ & _ & _ & _ & Ht)).
  cbn in Hc. rewrite sort_by_perm in Hc. unfold has_tokens. rewrite Ht.
  pose proof (rank_tokens count_tokens hash weights candidates) as Hr.
  rewrite Forall_forall in Hr. by apply Hr.
Qed.

Section Contract.
Variable to_lowercase : str -> str.
Variable is_alphanumeric : Z -> bool.
Variable char_lowercase : Z -> str.
Variable glob_valid : str -> bool.
Variable glob_match : str -> str -> bool.
Variable count_tokens : str -> Z.
Variable hash : str -> string.
Variable weights : Weights.
Abbreviation select := (select_candidates to_lowercase is_alphanumeric char_lowercase glob_valid
  glob_match count_tokens hash weights).
Abbreviation ranked cs := (deduplicate_with_options weights (rank count_tokens hash weights cs)).

(** The required part of a selection and what its state was. *)
Lemma select_candidates_done candidates r :
  0 <= token_budget r <= U64_MAX -> 0 <= max_fragments_of r ->
  exists s st additional, select candidates r = Done s
    /\ selection_selected s = chosen st ++ additional
    /\ gathered (token_budget r) (max_fragments_of r) (ranked candidates) st
    /\ (forall i e, required_evidence r !! i = Some e ->
         evidence_done (token_budget r) (max_fragments_of r) i e st)
    /\ (forall p, p ∈ must_include_paths r -> included (token_budget r) (max_fragments_of r)
         (required_path_matches glob_valid glob_match p) st)
    /\ (forall x, x ∈ must_include_symbols r -> included (token_budget r) (max_fragments_of r)
         (required_symbol_matches x) st)
    /\ (forall p minimum, focus_minimum (parse_focus_policy r) = Some minimum -> 0 < minimum ->
         p ∈ focus_paths r ->
         focused glob_valid glob_match (token_budget r) (max_fragments_of r) minimum p st)
    /\ additional ++ selection_omitted s ≡ₚ remaining st
    /\ total_tokens additional <= token_budget r - total_tokens (chosen st)
    /\ len additional <= max_fragments_of r - len (chosen st)
    /\ result_complete s = bool_decide (selection_omitted s = []).
Proof.
  intros Hb Hm. pose proof (deduped_tokens count_tokens hash weights candidates) as Ht.
  destruct (select_required_done glob_valid glob_match (token_budget r) (max_fragments_of r) Hb Hm
    (ranked candidates) Ht r) as (st & Hst & G & D1 & D2 & D3 & D4).
  unfold select_candidates. rewrite Hst. cbn [run_bind].
  destruct (greedy_select _ _ _ _ _ _ (remaining st) _) as [additional omitted] eqn:Hg.
  pose proof G as [G1 G2 G3 G4].
  apply greedy_advanced in Hg as (st' & <- & [P1 P2 P3 _ _ _ _ _ _ _] & Hperm & _).
  - eexists _, st, (selected st'). split; [reflexivity|]. cbn. split; [done|]. split; [done|].
    split; [done|]. split; [done|]. split; [done|]. split; [done|]. split; [done|].
    unfold u64_saturating_sub in *. split; [lia|]. split; [lia|done].
  - unfold u64_saturating_sub. lia.
  - unfold u64_saturating_sub. lia.
  - rewrite <-G1 in Ht. by apply Forall_app in Ht as [? _].
Qed.
End Contract.

(** C33: selecting candidates returns, packs the budget and loses nothing.  Every candidate is
    represented by a returned or omitted one on its path that carries its match kinds and
    concepts and has its content or covers half of its lines; each returned or omitted one is
    a candidate's fragment, and no two of them have the same path and content.  The returned ones fit
    the token budget and the number of fragments together, and the result is complete
    exactly when nothing was omitted. *)
Theorem select_candidates_packs to_lowercase is_alphanumeric char_lowercase glob_valid glob_match
    count_tokens hash weights candidates r :
  0 <= token_budget r <= U64_MAX -> 0 <= max_fragments_of r ->
  exists s, select_candidates to_lowercase is_alphanumeric char_lowercase glob_valid glob_match
      count_tokens hash weights candidates r = Done s
    /\ selection_selected s ++ selection_omitted s
         ≡ₚ deduplicate_with_options weights (rank count_tokens hash weights candidates)
    /\ (forall c, c ∈ candidates -> exists k, k ∈ selection_selected s ++ selection_omitted s
          /\ stands_for k (new_scored count_tokens hash weights c))
    /\ (forall k, k ∈ selection_selected s ++ selection_omitted s -> exists c, c ∈ candidates
          /\ same_fragment k (new_scored count_tokens hash weights c))
    /\ NoDup (map (fun k => (scored_path k, content_hash k))
               (selection_selected s ++ selection_omitted s))
    /\ total_tokens (selection_selected s) <= token_budget r
    /\ len (selection_selected s) <= max_fragments_of r
    /\ (result_complete s = true <-> selection_omitted s = []).
Proof.
  intros Hb Hm.
  destruct (select_candidates_done to_lowercase is_alphanumeric char_lowercase glob_valid glob_match
    count_tokens hash weights candidates r Hb Hm)
    as (s & st & additional & Hs & Hsel & [G1 G2 G3 G4] & _ & _ & _ & _ & Hp & Ht & Hl & Hc).
  assert (Hperm : selection_selected s ++ selection_omitted s
    ≡ₚ deduplicate_with_options weights (rank count_tokens hash weights candidates)).
  { rewrite Hsel, <-G1, <-Hp, <-app_assoc. by rewrite Permutation_app_comm. }
  destruct (deduplicate_keeps_evidence weights (rank count_tokens hash weights candidates))
    as (Hstand & Hfrom & _ & Hnd & _).
  exists s. split; [done|]. split; [done|]. setoid_rewrite Hperm. rewrite Hsel, total_tokens_app.
  split_and!; [| |done|lia| |].
  - intros c Hin. apply Hstand. by apply elem_of_rank.
  - intros k (c0 & (c & -> & Hin)%elem_of_ranked & Hsame)%Hfrom. by exists c.
  - unfold len in *. rewrite length_app. lia.
  - rewrite Hc. apply bool_decide_eq_true.
Qed.

(** *** Coverage *)
Lemma matched_length (f : nat -> bool) n (l : list str) :
  len (map snd (List.filter (fun '(q, _) => f q) (combine (seq n (length l)) l)))
  = len (List.filter f (seq n (length l))).
Proof.
  unfold len. rewrite length_map. f_equal. revert n. induction l as [|x l IH]; intros n; [done|]. cbn.
  destruct (f n); cbn; by rewrite IH.
Qed.
Lemma answered_app index e l1 l2 :
  len (answered index e l1) <= len (answered index e (l1 ++ l2)).
Proof.
  unfold len. apply inj_le, submseteq_length, NoDup_submseteq; [apply answered_nodup|].
  intros q. rewrite !answered_elem, existsb_app. intros [? ->]. by split.
Qed.
Lemma cover_evidence_matched index e covered :
  len (matched_queries (cover_evidence covered index e)) = len (answered index e covered).
Proof. unfold cover_evidence, enumerate. cbn. apply matched_length. Qed.
Lemma enumerate_map_lookup {A B} (f : nat -> A -> B) (l : list A) i x : l !! i = Some x ->
  map (fun '(i, x) => f i x) (enumerate l) !! i = Some (f i x).
Proof.
  intros H. rewrite list_lookup_fmap. unfold enumerate.
  assert (Hl : forall n, combine (seq n (length l)) l !! i = Some (n + i, x)%nat); [|by rewrite Hl].
  revert i H. induction l as [|y l IH]; intros [|i] H n; cbn in *; try done.
  - injection H as ->. by rewrite Nat.add_0_r.
  - rewrite (IH i H). by rewrite Nat.add_succ_r.
Qed.

(** The required part of the response left no room for a wanted candidate. *)
Definition no_room (r : ContextRequest) (required rest : list ScoredCandidate)
    (wants : ScoredCandidate -> bool) : Prop :=
  len required = max_fragments_of r
  \/ forall c, c ∈ rest -> wants c = true -> token_budget r < total_tokens required + token_count c.
Lemma settled_no_room r candidates wants st rest :
  gathered (token_budget r) (max_fragments_of r) candidates st -> rest ≡ₚ remaining st ->
  settled (token_budget r) (max_fragments_of r) wants st -> no_room r (chosen st) rest wants.
Proof.
  intros [_ G2 _ _] Hp [H|H]; [left; by apply Z.eqb_eq|right]. intros c Hc. rewrite <-G2.
  apply H. by rewrite <-Hp.
Qed.

(** C34: the coverage receipt is honest.  A response starts with what the
    request requires, and every requirement the receipt reports as not covered
    had no room: the required part fills the fragments, or each candidate left
    that would have met it exceeds the rest of the token budget.  This holds of
    must-include paths and symbols, of each evidence requirement, in its place
    in the receipt, and of the minimum of fragments per focus path. *)
Theorem coverage_receipt_honest to_lowercase is_alphanumeric char_lowercase glob_valid glob_match
    count_tokens hash weights candidates r excludes :
  0 <= token_budget r <= U64_MAX -> 0 <= max_fragments_of r ->
  exists p s cov required additional,
    select_with_options to_lowercase is_alphanumeric char_lowercase glob_valid glob_match
      count_tokens hash weights candidates r excludes = Done (p, s, cov)
    /\ selection_selected s = required ++ additional
    /\ (forall x, x ∈ uncovered_must_include_paths cov ->
         no_room r required (additional ++ selection_omitted s)
           (required_path_matches glob_valid glob_match x))
    /\ (forall x, x ∈ uncovered_must_include_symbols cov ->
         no_room r required (additional ++ selection_omitted s) (required_symbol_matches x))
    /\ (forall i e, required_evidence r !! i = Some e -> exists ce,
         evidence_coverage cov !! i = Some ce
         /\ (satisfied ce = true <-> minimum_query_matches e <= len (matched_queries ce))
         /\ (satisfied ce = false ->
             no_room r required (additional ++ selection_omitted s) (wants_query i e required)))
    /\ (forall x minimum, focus_minimum (parse_focus_policy r) = Some minimum -> 0 < minimum ->
         x ∈ focus_paths r ->
         minimum <= count_if (required_path_matches glob_valid glob_match x) (selection_selected s)
         \/ no_room r required (additional ++ selection_omitted s)
              (required_path_matches glob_valid glob_match x)).
Proof.
  intros Hb Hm. unfold select_with_options. set (p := partition_candidates _ _ _ _ _ _ _ _).
  destruct (select_candidates_done to_lowercase is_alphanumeric char_lowercase glob_valid glob_match
    count_tokens hash weights (eligible p) r Hb Hm)
    as (s & st & additional & -> & Hsel & G & D1 & D2 & D3 & D4 & Hp & _).
  cbn [run_bind]. eexists p, s, _, (chosen st), additional. split; [done|]. split; [done|].
  pose proof (settled_no_room r _ _ st _ G Hp) as Hroom || pose proof (fun w => settled_no_room r _ w st _ G Hp) as Hroom.
  unfold build_context_coverage. cbn [uncovered_must_include_paths uncovered_must_include_symbols
    evidence_coverage]. rewrite Hsel.
  split; [|split; [|split]].
  - intros x [Hx Hn]%list_elem_of_In%filter_In. apply Hroom.
    destruct (D2 x) as [Hc|]; [by apply list_elem_of_In| |done].
    by rewrite !existsb_app, Hc in Hn.
  - intros x [Hx Hn]%list_elem_of_In%filter_In. apply Hroom.
    destruct (D3 x) as [Hc|]; [by apply list_elem_of_In| |done].
    rewrite !existsb_app, Hc in Hn. cbn in Hn. by rewrite andb_false_r in Hn.
  - intros i e He. eexists. split.
    { apply (enumerate_map_lookup (fun i e => cover_evidence _ i e)), He. }
    split; [cbn; apply Z.leb_le|]. intros Hs. apply Hroom.
    destruct (D1 i e He) as [Hc|]; [|done]. exfalso.
    change (satisfied (cover_evidence ((chosen st ++ additional) ++ known_omitted p) i e))
      with (minimum_query_matches e <=? len (matched_queries
        (cover_evidence ((chosen st ++ additional) ++ known_omitted p) i e))) in Hs.
    rewrite cover_evidence_matched, <-app_assoc in Hs. bool_to_prop.
    pose proof (answered_app i e (chosen st) (additional ++ known_omitted p)). lia.
  - intros x minimum Hmin Hpos Hx. destruct (D4 x minimum Hmin Hpos Hx) as [H|H]; [left|right; by apply Hroom].
    rewrite count_if_app. pose proof (count_if_nonneg (required_path_matches glob_valid glob_match x) additional).
    lia.
Qed.

(** ** Witnesses *)
Definition demo_hash (s : str) : string := pretty.pretty (N.of_nat (length s)).
Definition demo_fragment (p : string) (start finish : Z) (text : string) : Candidate :=
  with_concepts [lit p] f64_one (new_candidate (lit p) start finish (lit text)).
Definition demo_candidates : list Candidate :=
  [demo_fragment "src/a.rs" 1 3 "aaaa"; demo_fragment "src/b.rs" 1 3 "bbbbb";
   demo_fragment "tests/a_test.rs" 1 3 "cccccc"].
Definition demo_request (budget : Z) : ContextRequest :=
  mk_request budget [] [lit "src/b.rs"; lit "tests/a_test.rs"] [lit "missing"]
    [mk_evidence (lit "src") [lit "q"] 1] None false [lit "src/a.rs"] false (Some 1) [] [] [] [] false.
Definition demo_char_lowercase (c : Z) : str := [to_ascii_lowercase c].

Lemma greedy_select_packs_witness :
  let cs := rank len demo_hash default_weights demo_candidates in
  let '(sel, omitted) := greedy_select ascii_lowercase is_ascii_alphanumeric demo_char_lowercase
    10 2 8 cs ∅ in
  length sel = 2%nat /\ length omitted = 1%nat /\ total_tokens sel <= 10.
Proof.
  intros cs.
  destruct (greedy_select ascii_lowercase is_ascii_alphanumeric demo_char_lowercase 10 2 8 cs ∅)
    as [sel omitted] eqn:E.
  destruct (greedy_select_packs ascii_lowercase is_ascii_alphanumeric demo_char_lowercase 10 2 8 cs ∅
    sel omitted) as (_ & Ht & _); [lia|lia|apply rank_tokens|exact E|].
  vm_compute in E. injection E as <- <-. by split; [|split].
Defined.
Lemma select_candidates_packs_witness :
  exists s, select_candidates ascii_lowercase is_ascii_alphanumeric demo_char_lowercase (fun _ => true)
      demo_match len demo_hash default_weights demo_candidates (demo_request 10) = Done s
    /\ (forall c, c ∈ demo_candidates -> exists k, k ∈ selection_selected s ++ selection_omitted s
          /\ stands_for k (new_scored len demo_hash default_weights c))
    /\ total_tokens (selection_selected s) <= 10.
Proof.
  destruct (select_candidates_packs ascii_lowercase is_ascii_alphanumeric demo_char_lowercase
    (fun _ => true) demo_match len demo_hash default_weights demo_candidates (demo_request 10))
    as (s & Hs & _ & Hstand & _ & _ & Ht & _); [split; by vm_compute|by vm_compute|].
  exists s. split; [done|]. by split.
Defined.
Lemma coverage_receipt_honest_witness :
  exists p s cov, select_with_options ascii_lowercase is_ascii_alphanumeric demo_char_lowercase
      (fun _ => true) demo_match len demo_hash default_weights demo_candidates (demo_request 10) []
      = Done (p, s, cov)
    /\ covered_must_include_paths cov = [lit "src/b.rs"]
    /\ uncovered_must_include_paths cov = [lit "tests/a_test.rs"].
Proof.
  destruct (coverage_receipt_honest ascii_lowercase is_ascii_alphanumeric demo_char_lowercase
    (fun _ => true) demo_match len demo_hash default_weights demo_candidates (demo_request 10) [])
    as (p & s & cov & required & additional & Hs & _); [split; by vm_compute|by vm_compute|].
  exists p, s, cov. split; [exact Hs|]. vm_compute in Hs. injection Hs as <- <- <-. by vm_compute.
Defined.
