(* ===== verification/Json.v ===== *)
(** * JSON projections

    [src/src/services/json/projection.rs], [collapsed.rs] and the pointer
    enumeration of [keys.rs]: what a query of the JSON tool shows of a selected
    value, under an item budget.

    A [serde_json::Value] is [json]; its numbers are a parameter, with
    [Number::from] of a [usize].  An object is the list of its members in the
    order its [Map] iterates over them, which is the order of insertion (the
    locked [serde_json] is built with [indexmap]).  A [BTreeMap] is the list of
    its bindings in the order of their keys. *)

From S2P Require Import Prelude Order Chars Store.
Open Scope Z_scope.
Open Scope store_scope.

Inductive json (N : Type) : Type :=
| JNull
| JBool (b : bool)
| JNumber (n : N)
| JString (s : str)
| JArray (values : list (json N))
| JObject (members : list (str * json N)).
Arguments JNull {N}.
Arguments JBool {N} b.
Arguments JNumber {N} n.
Arguments JString {N} s.
Arguments JArray {N} values.
Arguments JObject {N} members.

Lemma json_induction {N} (P : json N -> Prop) :
  P JNull -> (forall b, P (JBool b)) -> (forall n, P (JNumber n)) -> (forall s, P (JString s)) ->
  (forall values, Forall P values -> P (JArray values)) ->
  (forall members, Forall (fun m => P m.2) members -> P (JObject members)) ->
  forall v, P v.
Proof.
  intros Hnull Hbool Hnumber Hstring Harray Hobject. fix IH 1. intros [|b|n|s|values|members].
  - exact Hnull.
  - apply Hbool.
  - apply Hnumber.
  - apply Hstring.
  - apply Harray. induction values as [|v values IHv]; constructor; [apply IH|exact IHv].
  - apply Hobject. induction members as [|[k v] members IHm]; constructor; [apply IH|exact IHm].
Qed.

(** ** [BTreeMap] *)
Section BTreeMap.
Context {K V : Type} `{KeyOrder K}.

Fixpoint btree_get (k : K) (m : list (K * V)) : option V :=
  match m with
  | [] => None
  | (k', v) :: m => if key_lt k k' then None else if key_lt k' k then btree_get k m else Some v
  end.

(** [BTreeMap::insert]. *)
Fixpoint btree_insert (k : K) (v : V) (m : list (K * V)) : list (K * V) :=
  match m with
  | [] => [(k, v)]
  | (k', v') :: rest =>
    if key_lt k k' then (k, v) :: m
    else if key_lt k' k then (k', v') :: btree_insert k v rest
    else (k, v) :: rest
  end.

(** [entry(k).or_insert(v)]. *)
Definition btree_or_insert (k : K) (v : V) (m : list (K * V)) : list (K * V) :=
  match btree_get k m with Some _ => m | None => btree_insert k v m end.
End BTreeMap.

(** [Map::insert]: a present key keeps its place. *)
Fixpoint map_insert {V} (m : list (str * V)) (k : str) (v : V) : list (str * V) :=
  match m with
  | [] => [(k, v)]
  | (k', v') :: rest => if bool_decide (k = k') then (k', v) :: rest else (k', v') :: map_insert rest k v
  end.

(** ** Small helpers of [projection.rs] *)
Section Projection.
Context {N : Type}.
Implicit Types v : json N.

Definition json_type v : string :=
  match v with
  | JNull => "null"
  | JBool _ => "boolean"
  | JNumber _ => "number"
  | JString _ => "string"
  | JArray _ => "array"
  | JObject _ => "object"
  end.

(** [.map(f).fold(0usize, usize::saturating_add)]. *)
Definition saturating_sum (counts : list Z) : Z := fold_left u64_saturating_add counts 0.

Fixpoint count_nodes v : Z :=
  match v with
  | JArray values => u64_saturating_add 1 (saturating_sum (map count_nodes values))
  | JObject members => u64_saturating_add 1 (saturating_sum (map (fun m => count_nodes m.2) members))
  | _ => 1
  end.

(** [value.replace('~', "~0").replace('/', "~1")]. *)
Definition TILDE : Z := 126.
Definition SLASH : Z := 47.
Definition replace (from : Z) (to s : str) : str :=
  concat (map (fun c => if c =? from then to else [c]) s).
Definition escape_pointer (value : str) : str :=
  replace SLASH (lit "~1") (replace TILDE (lit "~0") value).

Record ProjectionState := mk_projection {
  remaining : Z;
  array_sample_size : Z;
  is_complete : bool
}.
Definition new_projection (max_items sample : Z) : ProjectionState := mk_projection max_items sample true.
Definition mark_incomplete (st : ProjectionState) : ProjectionState :=
  mk_projection (remaining st) (array_sample_size st) false.

Definition take_item (st : ProjectionState) : bool * ProjectionState :=
  if remaining st =? 0 then (false, mark_incomplete st)
  else (true, mk_projection (remaining st - 1) (array_sample_size st) (is_complete st)).

(** ** The collapsed projection *)
Fixpoint collapsed_item_count v (sample : Z) : Z :=
  match v with
  | JArray values =>
    u64_saturating_add 1
      (saturating_sum (take (Z.to_nat sample) (map (fun x => collapsed_item_count x sample) values)))
  | JObject members =>
    u64_saturating_add 1 (saturating_sum (map (fun m => collapsed_item_count m.2 sample) members))
  | _ => 1
  end.

Variable from_usize : Z -> N.

(** [json!({"$array": {"count": .., "sample": .., "omitted": ..}})]. *)
Definition array_summary (count : Z) (sample : list (json N)) (omitted : Z) : json N :=
  JObject [(lit "$array", JObject [(lit "count", JNumber (from_usize count));
                                   (lit "sample", JArray sample);
                                   (lit "omitted", JNumber (from_usize omitted))])].

(** The loops over the items of an array, of which [limit] are sampled, and over
    the members of an object. *)
Definition sample_loop (collapse : json N -> ProjectionState -> json N * ProjectionState) :=
  fix loop (values : list (json N)) (limit : nat) (sample : list (json N)) (st : ProjectionState)
      : list (json N) * ProjectionState :=
    match values, limit with
    | x :: values, S limit =>
      if remaining st =? 0 then (sample, mark_incomplete st)
      else let (y, st) := collapse x st in loop values limit (sample ++ [y]) st
    | _, _ => (sample, st)
    end.
Definition member_loop (collapse : json N -> ProjectionState -> json N * ProjectionState) :=
  fix loop (members projected : list (str * json N)) (st : ProjectionState)
      : list (str * json N) * ProjectionState :=
    match members with
    | (key, x) :: members =>
      if remaining st =? 0 then (projected, mark_incomplete st)
      else let (y, st) := collapse x st in loop members (map_insert projected key y) st
    | [] => (projected, st)
    end.

Fixpoint collapse_json v (st : ProjectionState) : json N * ProjectionState :=
  let (taken, st) := take_item st in
  if negb taken then (JNull, st)
  else match v with
  | JArray values =>
    let (sample, st) := sample_loop collapse_json values (Z.to_nat (array_sample_size st)) [] st in
    let omitted := u64_saturating_sub (len values) (len sample) in
    (array_summary (len values) sample omitted, st)
  | JObject members =>
    let (projected, st) := member_loop collapse_json members [] st in
    (JObject projected, st)
  | _ => (v, st)
  end.

(** ** Key pointers *)

(** [format!("{pointer}/{}", escape_pointer(key))] and [format!("{pointer}/*")]. *)
Definition key_pointer (pointer key : str) : str := pointer ++ [SLASH] ++ escape_pointer key.
Definition item_pointer (pointer : str) : str := pointer ++ lit "/*".

Definition depth_reached (max_depth : option Z) (depth : Z) : bool :=
  match max_depth with Some maximum => maximum <=? depth | None => false end.

Abbreviation key_map := (list (str * (Z * string))).

Fixpoint collect_all_keys v (pointer : str) (depth : Z) (max_depth : option Z) (keys : key_map) : key_map :=
  let keys := match btree_get pointer keys with
              | Some _ => keys
              | None => btree_insert pointer (depth, json_type v) keys
              end in
  if depth_reached max_depth depth then keys
  else match v with
  | JObject members =>
    fold_left (fun keys m =>
      collect_all_keys m.2 (key_pointer pointer m.1) (u64_saturating_add depth 1) max_depth keys)
      members keys
  | JArray values =>
    fold_left (fun keys x =>
      collect_all_keys x (item_pointer pointer) (u64_saturating_add depth 1) max_depth keys)
      values keys
  | _ => keys
  end.

Inductive JsonKeyOrder := Pointer | DepthThenPointer.
#[export] Instance JsonKeyOrder_eq_dec : EqDecision JsonKeyOrder.
Proof. solve_decision. Defined.

(** [json!({"pointer": pointer, "type": value_type})]. *)
Definition key_entry (pointer : str) (value_type : string) : json N :=
  JObject [(lit "pointer", JString pointer); (lit "type", JString (lit value_type))].

(** The comparator of [DepthThenPointer]. *)
Definition depth_then_pointer (a b : str * (Z * string)) : Prop := key_le (a.2.1, a.1) (b.2.1, b.1).
#[global] Instance depth_then_pointer_dec : RelDecision depth_then_pointer.
Proof. intros a b. unfold depth_then_pointer. apply _. Defined.

(** The bindings, by the depth first when that order is asked for. *)
Definition ordered_keys v (max_depth : option Z) (order : JsonKeyOrder) : key_map :=
  let keys := collect_all_keys v [] 0 max_depth [] in
  match order with
  | Pointer => keys
  | DepthThenPointer => merge_sort depth_then_pointer keys
  end.
Definition key_entries v (max_depth : option Z) (order : JsonKeyOrder) : list (json N) :=
  map (fun '(pointer, (_, value_type)) => key_entry pointer value_type) (ordered_keys v max_depth order).

(** The streaming enumeration under an item budget. *)
Fixpoint collect_keys v (pointer : str) (keys : list (str * string)) (st : ProjectionState)
    : list (str * string) * ProjectionState :=
  let known := match btree_get pointer keys with Some _ => true | None => false end in
  let (taken, st) := if known then (true, st) else take_item st in
  if negb taken then (keys, st)
  else
    let keys := if known then keys else btree_insert pointer (json_type v) keys in
    match v with
    | JObject members =>
      fold_left (fun acc m => collect_keys m.2 (key_pointer pointer m.1) acc.1 acc.2) members (keys, st)
    | JArray values =>
      fold_left (fun acc x => collect_keys x (item_pointer pointer) acc.1 acc.2) values (keys, st)
    | _ => (keys, st)
    end.

(** ** The dispatch *)
Inductive JsonProjection := ProjectValue | ProjectCollapsed | ProjectKeys | ProjectSchema.
#[export] Instance JsonProjection_eq_dec : EqDecision JsonProjection.
Proof. solve_decision. Defined.

Definition projection_item_count v (projection : JsonProjection) (sample : Z) : Z :=
  match projection with
  | ProjectValue | ProjectSchema => count_nodes v
  | ProjectCollapsed => collapsed_item_count v sample
  | ProjectKeys => len (key_entries v None Pointer)
  end.

Definition project_json v (projection : JsonProjection) (st : ProjectionState)
    : result (json N * ProjectionState) :=
  match projection with
  | ProjectValue =>
    let items := count_nodes v in
    if remaining st <? items then Err (RequestLimitExceeded "selected JSON items" items (remaining st))
    else Ok (v, mk_projection (remaining st - items) (array_sample_size st) (is_complete st))
  | ProjectCollapsed => Ok (collapse_json v st)
  | ProjectKeys =>
    let (keys, st) := collect_keys v [] [] st in
    Ok (JArray (map (fun '(pointer, value_type) => key_entry pointer value_type) keys), st)
  | ProjectSchema =>
    Err (InvalidInput "projection" "schema projection requires bounded schema execution")
  end.
End Projection.
