(* ===== verification/JsonFacts.v ===== *)
(** * Facts about the JSON projections

    The collapsed projection against its definition without a budget, and the
    enumeration of key pointers, streaming or not, against the list of the
    pointers of a value in the order of a traversal. *)

From S2P Require Import Prelude Order Chars Store Json.
Open Scope Z_scope.
Open Scope store_scope.

(** ** [BTreeMap] *)
Section BTreeFacts.
Context {K V : Type} `{KeyOrder K}.
Implicit Types m : list (K * V).

Definition btree_wf m : Prop := StronglySorted (fun a b => key_lt a.1 b.1 = true) m.

Lemma btree_get_some k v m : btree_wf m -> btree_get k m = Some v <-> (k, v) ∈ m.
Proof.
  induction 1 as [|[k' v'] m Hm IH Hk]; cbn [btree_get]; [split; [done|by intros ?%elem_of_nil]|].
  rewrite Forall_forall in Hk. cbn in Hk. rewrite elem_of_cons.
  destruct (key_lt k k') eqn:E1; [|destruct (key_lt k' k) eqn:E2].
  - split; [done|]. intros [[= -> ->]|Hin]; [by rewrite key_lt_irrefl in E1|].
    destruct (key_lt_asym _ _ E1 (Hk _ Hin)).
  - rewrite IH. split; [by right|]. intros [[= -> ->]|Hin]; [by rewrite key_lt_irrefl in E2|done].
  - rewrite (key_lt_total k k') by done. split; [intros [= ->]; by left|].
    intros [[= ->]|Hin]; [done|]. specialize (Hk _ Hin). cbn in Hk. by rewrite key_lt_irrefl in Hk.
Qed.

Lemma elem_of_btree_insert k v m k' v' : (k', v') ∈ btree_insert k v m -> (k', v') = (k, v) \/ (k', v') ∈ m.
Proof.
  induction m as [|[k1 v1] m IH]; cbn [btree_insert]; [rewrite list_elem_of_singleton; auto|].
  destruct (key_lt k k1); [|destruct (key_lt k1 k)]; rewrite !elem_of_cons; tauto.
Qed.

Lemma btree_insert_wf k v m : btree_wf m -> btree_wf (btree_insert k v m).
Proof.
  induction 1 as [|[k' v'] m Hm IH Hk]; cbn [btree_insert]; [by repeat constructor|].
  destruct (key_lt k k') eqn:E1; [|destruct (key_lt k' k) eqn:E2].
  - constructor; [by constructor|]. constructor; [done|].
    eapply Forall_impl; [exact Hk|]. cbn. intros [k1 v1] H1. by eapply key_lt_trans.
  - constructor; [done|]. apply Forall_forall. intros [k1 v1] [[= -> ->]|Hin]%elem_of_btree_insert; [done|].
    rewrite Forall_forall in Hk. by apply Hk.
  - rewrite (key_lt_total k k') by done. by constructor.
Qed.

Lemma btree_get_insert k v m : btree_get k (btree_insert k v m) = Some v.
Proof.
  induction m as [|[k' v'] m IH]; cbn [btree_insert btree_get]; [by rewrite key_lt_irrefl|].
  destruct (key_lt k k') eqn:E1; [|destruct (key_lt k' k) eqn:E2]; cbn [btree_get].
  - by rewrite key_lt_irrefl.
  - by rewrite E1, E2.
  - by rewrite key_lt_irrefl.
Qed.
Lemma btree_get_insert_ne k k' v m : k <> k' -> btree_wf m ->
  btree_get k (btree_insert k' v m) = btree_get k m.
Proof.
  intros Hne Hm. apply option_eq. intros x.
  rewrite !btree_get_some by (try apply btree_insert_wf; done).
  split.
  - intros [[= -> ->]|Hin]%elem_of_btree_insert; done.
  - revert Hm. induction 1 as [|[k1 v1] m Hm IH Hk]; [by intros ?%elem_of_nil|]. cbn [btree_insert].
    destruct (key_lt k' k1) eqn:E1; [|destruct (key_lt k1 k') eqn:E2]; rewrite !elem_of_cons; [tauto..|].
    rewrite (key_lt_total k' k1) by done. intros [[= -> ->]|Hin]; [|by right].
    by rewrite (key_lt_total k1 k') in Hne.
Qed.

(** A fresh key adds one binding. *)
Lemma btree_insert_fresh k v m : btree_get k m = None -> btree_insert k v m ≡ₚ (k, v) :: m.
Proof.
  induction m as [|[k' v'] m IH]; cbn [btree_insert btree_get]; [done|].
  destruct (key_lt k k') eqn:E1; [done|]. destruct (key_lt k' k) eqn:E2; [|done].
  intros Hget. rewrite IH by done. apply Permutation_swap.
Qed.

Definition btree_put m (b : K * V) : list (K * V) := btree_or_insert b.1 b.2 m.

Lemma btree_or_insert_wf k v m : btree_wf m -> btree_wf (btree_or_insert k v m).
Proof. unfold btree_or_insert. destruct (btree_get k m); [done|apply btree_insert_wf]. Qed.
Lemma btree_puts_wf l m : btree_wf m -> btree_wf (fold_left btree_put l m).
Proof. revert m. induction l as [|[k v] l IH]; intros m Hm; [done|]. by apply IH, btree_or_insert_wf. Qed.

Lemma btree_wf_keys m : btree_wf m -> NoDup m.*1.
Proof.
  induction 1 as [|[k v] m Hm IH Hk]; cbn; constructor; [|done].
  intros ([k' v'] & -> & Hin)%list_elem_of_fmap. rewrite Forall_forall in Hk. specialize (Hk _ Hin).
  cbn in Hk. by rewrite key_lt_irrefl in Hk.
Qed.
End BTreeFacts.

(** The binding of the first occurrence of a key. *)
Definition first_binding {K V} `{EqDecision K} (k : K) (l : list (K * V)) : option V :=
  (fun found => found.2.2) <$> list_find (fun b => b.1 = k) l.

Lemma first_binding_cons {K V} `{EqDecision K} (k k' : K) (v : V) l :
  first_binding k ((k', v) :: l) = if decide (k' = k) then Some v else first_binding k l.
Proof.
  unfold first_binding. cbn [list_find]. cbn. destruct (decide (k' = k)); [done|].
  by destruct (list_find _ l) as [[i b]|].
Qed.

Lemma first_binding_elem {K V} `{EqDecision K} (k : K) (l : list (K * V)) v :
  first_binding k l = Some v -> (k, v) ∈ l.
Proof.
  induction l as [|[k' v'] l IH]; [done|]. rewrite first_binding_cons.
  destruct (decide (k' = k)) as [->|]; [intros [= ->]; by left|]. intros Hl. right. by apply IH.
Qed.
Lemma elem_of_first_binding {K V} `{EqDecision K} (k : K) (l : list (K * V)) v :
  (k, v) ∈ l -> exists v', first_binding k l = Some v'.
Proof.
  induction l as [|[k' v'] l IH]; [by intros ?%elem_of_nil|]. rewrite first_binding_cons.
  destruct (decide (k' = k)) as [->|Hne]; [by eauto|]. intros [[= -> ->]|Hin]%elem_of_cons; [done|by apply IH].
Qed.

Lemma btree_puts_get {K V} `{KeyOrder K} `{EqDecision K} (l m : list (K * V)) k : btree_wf m ->
  btree_get k (fold_left btree_put l m)
  = match btree_get k m with Some v => Some v | None => first_binding k l end.
Proof.
  revert m. induction l as [|[k' v] l IH]; intros m Hm; cbn [fold_left].
  { by destruct (btree_get k m). }
  rewrite IH by by apply btree_or_insert_wf. rewrite first_binding_cons.
  unfold btree_put, btree_or_insert. cbn [fst snd].
  destruct (decide (k' = k)) as [->|Hne].
  - destruct (btree_get k m) eqn:Hk; [by rewrite Hk|]. by rewrite btree_get_insert.
  - destruct (btree_get k' m); [done|]. by rewrite btree_get_insert_ne by done.
Qed.

(** ** Saturating counts *)
Definition sum (counts : list Z) : Z := foldr Z.add 0 counts.

Lemma sum_app a b : sum (a ++ b) = sum a + sum b.
Proof. unfold sum. induction a as [|x a IH]; cbn; lia. Qed.
Lemma sum_nonneg l : Forall (fun x => 0 <= x) l -> 0 <= sum l.
Proof. unfold sum. induction 1; cbn; lia. Qed.

Lemma sum_map_nonneg {A} (f : A -> Z) l : Forall (fun x => 0 <= f x) l -> 0 <= sum (map f l).
Proof. intros Hl. by apply sum_nonneg, Forall_map. Qed.

Lemma saturating_sum_exact l : Forall (fun x => 0 <= x) l -> saturating_sum l = Z.min (sum l) U64_MAX.
Proof.
  intros Hl. unfold saturating_sum.
  enough (forall a, 0 <= a <= U64_MAX ->
    fold_left u64_saturating_add l a = Z.min (a + sum l) U64_MAX) as -> by ints. 
  induction Hl as [|x l Hx Hl IH]; intros a Ha; cbn [fold_left]; [cbn; lia|].
  pose proof (sum_nonneg l Hl). unfold sum in *. cbn [foldr]. rewrite IH by ints. ints.
Qed.

Lemma saturating_count l : Forall (fun x => 0 <= x) l ->
  u64_saturating_add 1 (saturating_sum (map (fun x => Z.min x U64_MAX) l)) = Z.min (1 + sum l) U64_MAX.
Proof.
  intros Hl. rewrite saturating_sum_exact.
  - enough (Z.min (sum (map (fun x => Z.min x U64_MAX) l)) U64_MAX = Z.min (sum l) U64_MAX) as -> by ints.
    unfold sum. induction Hl as [|x l Hx Hl IH]; cbn; [done|].
    pose proof (sum_nonneg l Hl). unfold sum in *. ints.
  - apply Forall_map. eapply Forall_impl; [exact Hl|]. cbn. ints.
Qed.

Lemma map_eq {A B} (f g : A -> B) l : Forall (fun x => f x = g x) l -> map f l = map g l.
Proof. induction 1 as [|x l Hx _ IH]; cbn; congruence. Qed.
Lemma map_compose {A B C} (f : B -> C) (g : A -> B) l : map (fun x => f (g x)) l = map f (map g l).
Proof. by rewrite map_map. Qed.

(** The keys of every object are different. *)
Fixpoint json_wf {N} (v : json N) : Prop :=
  match v with
  | JArray values => foldr (fun x acc => json_wf x /\ acc) True values
  | JObject members => NoDup members.*1 /\ foldr (fun m acc => json_wf m.2 /\ acc) True members
  | _ => True
  end.

Section Facts.
Context {N : Type}.
Implicit Types v : json N.

Lemma foldr_Forall {A} (P : A -> Prop) l : foldr (fun x acc => P x /\ acc) True l <-> Forall P l.
Proof. induction l as [|x l IH]; cbn; [done|]. by rewrite Forall_cons, IH. Qed.

(** The number of values in a value. *)
Fixpoint json_size v : Z :=
  match v with
  | JArray values => 1 + sum (map json_size values)
  | JObject members => 1 + sum (map (fun m => json_size m.2) members)
  | _ => 1
  end.

Lemma json_size_pos v : 1 <= json_size v.
Proof.
  induction v as [|b|n|s|values IH|members IH] using json_induction; cbn [json_size]; try lia.
  - pose proof (sum_map_nonneg json_size values ltac:(eapply Forall_impl; [exact IH|]; cbn; lia)). lia.
  - pose proof (sum_map_nonneg (fun m => json_size m.2) members
      ltac:(eapply Forall_impl; [exact IH|]; cbn; lia)). lia.
Qed.

Lemma count_nodes_size v : count_nodes v = Z.min (json_size v) U64_MAX.
Proof.
  induction v as [|b|n|s|values IH|members IH] using json_induction; cbn [json_size count_nodes]; try ints.
  - rewrite (map_eq _ (fun x => Z.min (json_size x) U64_MAX)) by done.
    rewrite (map_compose (fun z => Z.min z U64_MAX) json_size). apply saturating_count, Forall_map, Forall_true.
    intros x. cbn. pose proof (json_size_pos x). lia.
  - rewrite (map_eq _ (fun m => Z.min (json_size m.2) U64_MAX)) by done.
    rewrite (map_compose (fun z => Z.min z U64_MAX) (fun m => json_size m.2)). apply saturating_count, Forall_map, Forall_true.
    intros x. cbn. pose proof (json_size_pos x.2). lia.
Qed.
(** ** The collapsed projection, without a budget *)
Variable from_usize : Z -> N.

Fixpoint collapsed (sample : Z) v : json N :=
  match v with
  | JArray values =>
    let shown := take (Z.to_nat sample) (map (collapsed sample) values) in
    array_summary from_usize (len values) shown (len values - len shown)
  | JObject members => JObject (map (fun m => (m.1, collapsed sample m.2)) members)
  | _ => v
  end.
Fixpoint collapsed_size (sample : Z) v : Z :=
  match v with
  | JArray values => 1 + sum (take (Z.to_nat sample) (map (collapsed_size sample) values))
  | JObject members => 1 + sum (map (fun m => collapsed_size sample m.2) members)
  | _ => 1
  end.

Lemma collapsed_size_pos s v : 1 <= collapsed_size s v.
Proof.
  induction v as [|b|n|t|values IH|members IH] using json_induction; cbn [collapsed_size]; try lia.
  - rewrite firstn_map.
    pose proof (sum_map_nonneg (collapsed_size s) (take (Z.to_nat s) values)
      ltac:(apply Forall_take; eapply Forall_impl; [exact IH|]; cbn; lia)).
    lia.
  - pose proof (sum_map_nonneg (fun m => collapsed_size s m.2) members
      ltac:(eapply Forall_impl; [exact IH|]; cbn; lia)). lia.
Qed.

Lemma collapsed_count_size s v : collapsed_item_count v s = Z.min (collapsed_size s v) U64_MAX.
Proof.
  induction v as [|b|n|t|values IH|members IH] using json_induction;
    cbn [collapsed_size collapsed_item_count]; try ints.
  - rewrite (map_eq _ (fun x => Z.min (collapsed_size s x) U64_MAX)) by done.
    rewrite (map_compose (fun z => Z.min z U64_MAX) (collapsed_size s)), firstn_map.
    apply saturating_count, Forall_take, Forall_map, Forall_true.
    intros x. cbn. pose proof (collapsed_size_pos s x). lia.
  - rewrite (map_eq _ (fun m => Z.min (collapsed_size s m.2) U64_MAX)) by done.
    rewrite (map_compose (fun z => Z.min z U64_MAX) (fun m => collapsed_size s m.2)).
    apply saturating_count, Forall_map, Forall_true.
    intros x. cbn. pose proof (collapsed_size_pos s x.2). lia.
Qed.
Definition spent (st : ProjectionState) (items : Z) : ProjectionState :=
  mk_projection (remaining st - items) (array_sample_size st) (is_complete st).
Definition exhausted (st : ProjectionState) : ProjectionState :=
  mk_projection 0 (array_sample_size st) false.

(** What a projection does with a budget: it fits, or it uses the budget up. *)
Definition budgeted {A} (size : Z) (st : ProjectionState) (full : A) (out : A * ProjectionState) : Prop :=
  (size <= remaining st -> out = (full, spent st size))
  /\ (remaining st < size -> out.2 = exhausted st).

Lemma sample_loop_budgeted values limit shown st :
  0 <= remaining st ->
  Forall (fun v => forall st, 0 <= remaining st ->
    budgeted (collapsed_size (array_sample_size st) v) st (collapsed (array_sample_size st) v)
      (collapse_json from_usize v st)) values ->
  let s := array_sample_size st in
  budgeted (sum (take limit (map (collapsed_size s) values))) st
    (shown ++ take limit (map (collapsed s) values))
    (sample_loop (collapse_json from_usize) values limit shown st).
Proof.
  intros Hst Hall. revert limit shown st Hst. induction Hall as [|v values Hv Hall IH];
    intros limit shown st Hst s; subst s; cbn [sample_loop].
  - cbn [map]. rewrite !take_nil, app_nil_r. split; [|cbn; lia]. intros _. destruct st. unfold spent. cbn.
    by rewrite Z.sub_0_r.
  - destruct limit as [|limit].
    { cbn [take]. rewrite app_nil_r. split; [|cbn; lia]. intros _. destruct st. unfold spent. cbn.
      by rewrite Z.sub_0_r. }
    cbn [map take sum foldr]. fold (sum (take limit (map (collapsed_size (array_sample_size st)) values))).
    pose proof (collapsed_size_pos (array_sample_size st) v).
    assert (0 <= sum (take limit (map (collapsed_size (array_sample_size st)) values))).
    { rewrite firstn_map. apply sum_map_nonneg, Forall_true. intros x.
      pose proof (collapsed_size_pos (array_sample_size st) x). lia. }
    destruct (Z.eqb_spec (remaining st) 0) as [Hz|Hz].
    { split; [lia|]. intros _. destruct st. cbn in *. by subst. }
    destruct (Hv st Hst) as [Hfit Hover].
    destruct (Z.le_gt_cases (collapsed_size (array_sample_size st) v) (remaining st)) as [Hle|Hgt].
    + rewrite Hfit by done. specialize (IH limit (shown ++ [collapsed (array_sample_size st) v])
        (spent st (collapsed_size (array_sample_size st) v))) as [IH1 IH2]; [cbn; lia|].
      cbn [spent array_sample_size remaining] in IH1, IH2. split.
      * intros Hs. rewrite IH1 by lia. rewrite <-app_assoc. unfold spent. cbn. do 2 f_equal. lia.
      * intros Hs. rewrite IH2 by lia. done.
    + specialize (Hover Hgt). destruct (collapse_json from_usize v st) as [y st']. cbn in Hover. subst st'.
      specialize (IH limit (shown ++ [y]) (exhausted st)) as [IH1 IH2]; [cbn; lia|].
      cbn [exhausted array_sample_size remaining] in IH1, IH2. split; [lia|]. intros _.
      destruct (Z.le_gt_cases (sum (take limit (map (collapsed_size (array_sample_size st)) values))) 0).
      * rewrite IH1 by done. unfold spent, exhausted. cbn. f_equal. lia.
      * by rewrite IH2.
Qed.
Lemma map_insert_fresh (m : list (str * json N)) k v : (k ∉ m.*1) -> map_insert m k v = m ++ [(k, v)].
Proof.
  induction m as [|[k' v'] m IH]; cbn [map_insert app]; [done|]. cbn. rewrite not_elem_of_cons.
  intros [Hne Hm]. rewrite bool_decide_eq_false_2 by done. by rewrite IH.
Qed.

(** The size of what is still to be spent once a budget is used up. *)
Lemma budgeted_exhausted {A} size st (full : A) out : 0 <= size ->
  budgeted size (exhausted st) full out -> out.2 = exhausted st.
Proof.
  intros Hsize [Hfit Hover]. cbn in Hfit, Hover. destruct (Z.le_gt_cases size 0).
  - rewrite Hfit by done. unfold spent, exhausted. cbn. f_equal. lia.
  - by rewrite Hover.
Qed.

Lemma member_loop_budgeted members shown st :
  0 <= remaining st -> NoDup (shown.*1 ++ members.*1) ->
  Forall (fun m => forall st, 0 <= remaining st ->
    budgeted (collapsed_size (array_sample_size st) m.2) st (collapsed (array_sample_size st) m.2)
      (collapse_json from_usize m.2 st)) members ->
  let s := array_sample_size st in
  budgeted (sum (map (fun m => collapsed_size s m.2) members)) st
    (shown ++ map (fun m => (m.1, collapsed s m.2)) members)
    (member_loop (collapse_json from_usize) members shown st).
Proof.
  intros Hst Hkeys Hall. revert shown st Hst Hkeys.
  induction Hall as [|[k v] members Hv Hall IH]; intros shown st Hst Hkeys s; subst s; cbn [member_loop].
  - cbn [map]. rewrite app_nil_r. split; [|cbn; lia]. intros _. destruct st. unfold spent. cbn.
    by rewrite Z.sub_0_r.
  - cbn [map fst snd sum foldr] in *.
    fold (sum (map (fun m => collapsed_size (array_sample_size st) m.2) members)).
    pose proof (collapsed_size_pos (array_sample_size st) v).
    assert (0 <= sum (map (fun m => collapsed_size (array_sample_size st) m.2) members)).
    { apply sum_map_nonneg, Forall_true. intros x. pose proof (collapsed_size_pos (array_sample_size st) x.2). lia. }
    assert (Hk : (k ∉ shown.*1) /\ forall y, NoDup ((shown ++ [(k, y)]).*1 ++ members.*1)).
    { apply NoDup_app in Hkeys as (Hn1 & Hdis & Hn2). split.
      - intros Hin. apply (Hdis k Hin). cbn. by left.
      - intros y. rewrite fmap_app, <-app_assoc. cbn. apply NoDup_app. by split_and!. }
    destruct Hk as [Hk Hkeys'].
    destruct (Z.eqb_spec (remaining st) 0) as [Hz|Hz].
    { split; [lia|]. intros _. destruct st. cbn in *. by subst. }
    destruct (Hv st Hst) as [Hfit Hover]. cbn [snd] in Hfit, Hover.
    destruct (Z.le_gt_cases (collapsed_size (array_sample_size st) v) (remaining st)) as [Hle|Hgt].
    + rewrite Hfit by done. rewrite map_insert_fresh by done.
      specialize (IH (shown ++ [(k, collapsed (array_sample_size st) v)])
        (spent st (collapsed_size (array_sample_size st) v))) as [IH1 IH2]; [cbn; lia|by apply Hkeys'|].
      cbn [spent array_sample_size remaining] in IH1, IH2. split.
      * intros Hs. rewrite IH1 by lia. rewrite <-app_assoc. unfold spent. cbn. do 2 f_equal. lia.
      * intros Hs. rewrite IH2 by lia. done.
    + specialize (Hover Hgt). destruct (collapse_json from_usize v st) as [y st']. cbn in Hover. subst st'.
      rewrite map_insert_fresh by done. split; [lia|]. intros _.
      refine (budgeted_exhausted _ st _ _ _ (IH _ (exhausted st) _ _)); [done|cbn; lia|by apply Hkeys'].
Qed.

Lemma collapse_json_budgeted v st : json_wf v -> 0 <= remaining st ->
  budgeted (collapsed_size (array_sample_size st) v) st (collapsed (array_sample_size st) v)
    (collapse_json from_usize v st).
Proof.
  intros Hwf. revert st.
  assert (Hleaf : forall (w : json N) st, 0 <= remaining st ->
    budgeted 1 st w (let (taken, st) := take_item st in if negb taken then (JNull, st) else (w, st))).
  { intros w st Hst. unfold take_item. destruct (Z.eqb_spec (remaining st) 0) as [Hz|Hz]; split; cbn; try lia; [|done].
    intros _. destruct st. cbn in *. by subst. }
  induction v as [|b|n|t|values IH|members IH] using json_induction; intros st Hst; cbn [collapse_json];
    try apply (Hleaf _ st Hst); cbn [collapsed_size collapsed json_wf] in *.
  - rewrite foldr_Forall in Hwf.
    assert (Hall : Forall (fun v => forall st, 0 <= remaining st ->
      budgeted (collapsed_size (array_sample_size st) v) st (collapsed (array_sample_size st) v)
        (collapse_json from_usize v st)) values).
    { rewrite Forall_forall in Hwf, IH |- *. auto. }
    unfold take_item. destruct (Z.eqb_spec (remaining st) 0) as [Hz|Hz]; cbn [negb].
    { pose proof (collapsed_size_pos (array_sample_size st) (JArray values)) as Hp. cbn [collapsed_size] in Hp.
      split; [lia|]. intros _. destruct st. cbn in *. by subst. }
    pose proof (sample_loop_budgeted values (Z.to_nat (array_sample_size st)) [] (spent st 1)
      ltac:(cbn; lia) Hall) as [Hfit Hover].
    unfold budgeted, spent, exhausted in *. cbn [array_sample_size remaining is_complete app] in *. split.
    + intros Hle. rewrite Hfit by lia. f_equal; [|f_equal; lia]. f_equal.
      unfold u64_saturating_sub, len. rewrite length_take, length_map. lia.
    + intros Hgt. destruct (sample_loop _ _ _ _ _) as [sample st']. cbn in *. rewrite Hover by lia. done.
  - rewrite foldr_Forall in Hwf. destruct Hwf as [Hkeys Hwf].
    assert (Hall : Forall (fun m => forall st, 0 <= remaining st ->
      budgeted (collapsed_size (array_sample_size st) m.2) st (collapsed (array_sample_size st) m.2)
        (collapse_json from_usize m.2 st)) members).
    { rewrite Forall_forall in Hwf, IH |- *. auto. }
    unfold take_item. destruct (Z.eqb_spec (remaining st) 0) as [Hz|Hz]; cbn [negb].
    { pose proof (collapsed_size_pos (array_sample_size st) (JObject members)) as Hp. cbn [collapsed_size] in Hp.
      split; [lia|]. intros _. destruct st. cbn in *. by subst. }
    pose proof (member_loop_budgeted members [] (spent st 1) ltac:(cbn; lia) Hkeys Hall) as [Hfit Hover].
    unfold budgeted, spent, exhausted in *. cbn [array_sample_size remaining is_complete app] in *. split.
    + intros Hle. rewrite Hfit by lia. f_equal. f_equal; lia.
    + intros Hgt. destruct (member_loop _ _ _ _) as [sample st']. cbn in *. rewrite Hover by lia. done.
Qed.
End Facts.

(** ** Key pointers *)
Section Keys.
Context {N : Type}.
Implicit Types v : json N.

(** Every pointer of a value, in the order of the traversal and as often as it
    occurs, with the depth and the type of the value there. *)
Fixpoint keys_of v (pointer : str) (depth : Z) (max_depth : option Z) : list (str * (Z * string)) :=
  (pointer, (depth, json_type v)) ::
  if depth_reached max_depth depth then []
  else match v with
  | JObject members =>
    concat (map (fun m => keys_of m.2 (key_pointer pointer m.1) (u64_saturating_add depth 1) max_depth) members)
  | JArray values =>
    concat (map (fun x => keys_of x (item_pointer pointer) (u64_saturating_add depth 1) max_depth) values)
  | _ => []
  end.

Lemma fold_left_concat {A B C} (f : A -> B -> A) (g : C -> list B) l a :
  fold_left f (concat (map g l)) a = fold_left (fun a x => fold_left f (g x) a) l a.
Proof. revert a. induction l as [|x l IH]; intros a; cbn; [done|]. by rewrite fold_left_app, IH. Qed.

Lemma fold_left_ext {A B} (f g : A -> B -> A) l a : Forall (fun x => forall a, f a x = g a x) l ->
  fold_left f l a = fold_left g l a.
Proof. intros Hl. revert a. induction Hl as [|x l Hx _ IH]; intros a; cbn; [done|]. by rewrite Hx, IH. Qed.

Lemma collect_all_keys_eq v pointer depth max keys :
  collect_all_keys v pointer depth max keys = fold_left btree_put (keys_of v pointer depth max) keys.
Proof.
  revert pointer depth keys. induction v as [|b|n|t|values IH|members IH] using json_induction;
    intros pointer depth keys; cbn [collect_all_keys keys_of fold_left json_type];
    unfold btree_put at 2, btree_or_insert; cbn [fst snd];
    destruct (depth_reached max depth); try (by destruct (btree_get pointer keys)).
  - rewrite fold_left_concat. set (keys' := match btree_get pointer keys with Some _ => _ | None => _ end).
    apply fold_left_ext. eapply Forall_impl; [exact IH|]. cbn. auto.
  - rewrite fold_left_concat. set (keys' := match btree_get pointer keys with Some _ => _ | None => _ end).
    apply fold_left_ext. eapply Forall_impl; [exact IH|]. cbn. auto.
Qed.

(** *** The streaming enumeration *)
Definition budget_put (acc : list (str * string) * ProjectionState) (b : str * (Z * string))
    : list (str * string) * ProjectionState :=
  match btree_get b.1 acc.1 with
  | Some _ => acc
  | None =>
    let (taken, st) := take_item acc.2 in
    (if taken then btree_insert b.1 b.2.2 acc.1 else acc.1, st)
  end.

(** Once the budget is used up nothing is added. *)
Lemma budget_put_exhausted l keys st : remaining st = 0 -> is_complete st = false ->
  fold_left budget_put l (keys, st) = (keys, st).
Proof.
  intros Hr Hc. induction l as [|b l IH]; cbn [fold_left]; [done|].
  enough (budget_put (keys, st) b = (keys, st)) as -> by done. unfold budget_put. cbn [fst snd].
  destruct (btree_get b.1 keys); [done|]. unfold take_item. rewrite Hr. cbn.
  destruct st. cbn in *. by subst.
Qed.

Lemma budget_put_unfold keys st pointer depth ty :
  budget_put (keys, st) (pointer, (depth, ty))
  = match btree_get pointer keys with
    | Some _ => (keys, st)
    | None => let (taken, st) := take_item st in (if taken then btree_insert pointer ty keys else keys, st)
    end.
Proof. done. Qed.

Lemma collect_keys_eq v pointer depth keys st :
  collect_keys v pointer keys st = fold_left budget_put (keys_of v pointer depth None) (keys, st).
Proof.
  revert pointer depth keys st. 
  induction v as [|b|n|t|values IH|members IH] using json_induction; intros pointer depth keys st;
    cbn [collect_keys keys_of fold_left json_type depth_reached];
    rewrite budget_put_unfold;
    (destruct (btree_get pointer keys) as [k|]; [cbn [negb]|unfold take_item; destruct (Z.eqb_spec (remaining st) 0); cbn [negb];
      [first [done | by rewrite budget_put_exhausted]|]]); try done;
    rewrite fold_left_concat; apply fold_left_ext;
    (eapply Forall_impl; [exact IH|]); cbn; intros x Hx [keys' st']; cbn; apply Hx.
Qed.
Definition typed (b : str * (Z * string)) : str * string := (b.1, b.2.2).

Lemma btree_get_typed (m : list (str * (Z * string))) k : btree_get k (map typed m) = snd <$> btree_get k m.
Proof.
  induction m as [|[k' [d t]] m IH]; cbn [map typed btree_get fst snd]; [done|].
  destruct (key_lt k k'); [done|]. by destruct (key_lt k' k).
Qed.
Lemma btree_insert_typed (m : list (str * (Z * string))) k d t :
  map typed (btree_insert k (d, t) m) = btree_insert k t (map typed m).
Proof.
  induction m as [|[k' [d' t']] m IH]; cbn [map typed btree_insert fst snd]; [done|].
  destruct (key_lt k k'); [done|]. destruct (key_lt k' k); cbn [map typed fst snd]; [by rewrite IH|done].
Qed.
Lemma btree_puts_typed l m :
  map typed (fold_left btree_put l m) = fold_left btree_put (map typed l) (map typed m).
Proof.
  revert m. induction l as [|[k [d t]] l IH]; intros m; cbn [fold_left map]; [done|]. rewrite IH. f_equal.
  unfold btree_put, btree_or_insert. cbn [fst snd typed]. rewrite btree_get_typed.
  destruct (btree_get k m); cbn; [done|]. apply btree_insert_typed.
Qed.

(** Insertion only adds bindings. *)
Lemma btree_put_mono {K V} `{KeyOrder K} (m : list (K * V)) b : btree_wf m ->
  (forall c, c ∈ m -> c ∈ btree_put m b) /\ len m <= len (btree_put m b) <= len m + 1.
Proof.
  intros Hm. unfold btree_put, btree_or_insert. destruct (btree_get b.1 m) eqn:Hb; [split; [done|lia]|].
  split.
  - intros c Hc. rewrite (btree_insert_fresh b.1 b.2 m Hb). by right.
  - unfold len. rewrite (btree_insert_fresh b.1 b.2 m Hb). cbn. lia.
Qed.
Lemma btree_puts_mono {K V} `{KeyOrder K} (l m : list (K * V)) : btree_wf m ->
  (forall c, c ∈ m -> c ∈ fold_left btree_put l m) /\ len m <= len (fold_left btree_put l m).
Proof.
  revert m. induction l as [|b l IH]; intros m Hm; cbn [fold_left]; [split; [done|lia]|].
  pose proof (btree_put_mono m b Hm) as [Hsub Hlen].
  destruct (IH (btree_put m b)) as [Hsub' Hlen']; [by apply btree_or_insert_wf|].
  split; [by auto|lia].
Qed.

(** The bindings within the budget, in the order of the traversal. *)
Lemma budget_puts l keys st : btree_wf keys -> 0 <= remaining st ->
  let full := fold_left btree_put (map typed l) keys in
  let out := fold_left budget_put l (keys, st) in
  budgeted (len full - len keys) st full out
  /\ (forall c, c ∈ out.1 -> c ∈ full)
  /\ len out.1 = len keys + Z.min (len full - len keys) (remaining st).
Proof.
  revert keys st. induction l as [|[p [d t]] l IH]; intros keys st Hkeys Hst; cbn [fold_left map].
  { rewrite Z.sub_diag. split_and!; [|done|cbn; lia]. split; [|lia]. intros _. destruct st.
    unfold spent. cbn. by rewrite Z.sub_0_r. }
  rewrite budget_put_unfold. change (typed (p, (d, t))) with (p, t).
  destruct (btree_get p keys) as [t'|] eqn:Hp.
  { assert (btree_put keys (p, t) = keys) as ->; [|by apply IH].
    unfold btree_put, btree_or_insert. cbn [fst snd]. by rewrite Hp. }
  assert (btree_put keys (p, t) = btree_insert p t keys) as ->
    by (unfold btree_put, btree_or_insert; cbn [fst snd]; by rewrite Hp).
  pose proof (btree_insert_wf p t keys Hkeys) as Hwf.
  assert (Hlen : len (btree_insert p t keys) = len keys + 1)
    by (unfold len; rewrite (btree_insert_fresh p t keys Hp); cbn; lia).
  pose proof (btree_puts_mono (map typed l) _ Hwf) as [Hsub Hgrow].
  unfold take_item. destruct (Z.eqb_spec (remaining st) 0) as [Hz|Hz].
  - rewrite budget_put_exhausted by done. cbn [fst snd]. split_and!; [|intros c Hc|lia].
    + split; [lia|]. intros _. destruct st. cbn in *. by subst.
    + apply Hsub. rewrite (btree_insert_fresh p t keys Hp). by right.
  - destruct (IH (btree_insert p t keys) (spent st 1) Hwf ltac:(cbn; lia)) as (Hb & Hin & Hcount).
    fold (spent st 1). cbn [spent remaining] in Hb, Hin, Hcount |- *.
    split_and!; [|done|cbn [remaining spent] in Hcount; lia].
    destruct Hb as [Hfit Hover]. cbn [spent remaining array_sample_size is_complete] in Hfit, Hover. split.
    + intros Hle. rewrite Hfit by lia. unfold spent. cbn [remaining array_sample_size is_complete].
      do 2 f_equal. lia.
    + intros Hgt. rewrite Hover by lia. done.
Qed.
End Keys.

(** ** Where pointers lead *)
Inductive segment := Key (key : str) | Item.
Definition segment_pointer (seg : segment) : str :=
  match seg with Key key => [SLASH] ++ escape_pointer key | Item => lit "/*" end.
Definition pointer_of (path : list segment) : str := concat (map segment_pointer path).

Definition children {N} (v : json N) : list (segment * json N) :=
  match v with
  | JArray values => map (pair Item) values
  | JObject members => map (fun m => (Key m.1, m.2)) members
  | _ => []
  end.

(** [path] leads from the first value to the second. *)
Inductive leads {N} : json N -> list segment -> json N -> Prop :=
| leads_here v : leads v [] v
| leads_child v seg x path y : (seg, x) ∈ children v -> leads x path y -> leads v (seg :: path) y.

Definition within_depth (max_depth : option Z) (depth : Z) : Prop :=
  match max_depth with Some maximum => depth <= maximum | None => True end.

Section Leads.
Context {N : Type}.
Implicit Types v : json N.

Lemma children_induction (P : json N -> Prop) :
  (forall v, (forall seg x, (seg, x) ∈ children v -> P x) -> P v) -> forall v, P v.
Proof.
  intros Hstep v. induction v as [|b|n|s|values IH|members IH] using json_induction;
    apply Hstep; cbn [children]; try by intros seg x ?%elem_of_nil.
  - intros seg x (y & [= -> ->] & Hy)%list_elem_of_fmap. rewrite Forall_forall in IH. by apply IH.
  - intros seg x (m & [= -> ->] & Hm)%list_elem_of_fmap. rewrite Forall_forall in IH. by apply IH.
Qed.

Lemma json_size_children v : json_size v = 1 + sum (map (fun c => json_size c.2) (children v)).
Proof. destruct v; cbn [children json_size]; try done; by rewrite map_map. Qed.

Lemma sum_elem l x : Forall (fun y => 0 <= y) l -> x ∈ l -> x <= sum l.
Proof.
  induction 1 as [|y l Hy Hl IH]; [by intros ?%elem_of_nil|]. pose proof (sum_nonneg l Hl).
  unfold sum in *. cbn. intros [->|Hx]%elem_of_cons; [lia|]. specialize (IH Hx). lia.
Qed.
Lemma child_size v seg x : (seg, x) ∈ children v -> json_size x < json_size v.
Proof.
  intros Hx. rewrite (json_size_children v).
  enough (json_size x <= sum (map (fun c => json_size c.2) (children v))) by lia. apply sum_elem.
  - apply Forall_map, Forall_true. intros y. cbn. pose proof (json_size_pos y.2). lia.
  - by apply (list_elem_of_fmap_2 (fun c => json_size c.2) _ _ Hx).
Qed.

Lemma keys_of_children v pointer depth max :
  keys_of v pointer depth max
  = (pointer, (depth, json_type v)) ::
    if depth_reached max depth then []
    else concat (map (fun c => keys_of c.2 (pointer ++ segment_pointer c.1) (u64_saturating_add depth 1) max)
                   (children v)).
Proof. destruct v; cbn [keys_of children]; rewrite ?map_map; done. Qed.

Lemma keys_of_leads v pointer depth max p d t :
  0 <= depth -> depth + json_size v <= U64_MAX -> within_depth max depth ->
  (p, (d, t)) ∈ keys_of v pointer depth max
  <-> exists path x, leads v path x /\ p = pointer ++ pointer_of path /\ d = depth + len path
        /\ t = json_type x /\ within_depth max d.
Proof.
  revert pointer depth. induction v as [v IH] using children_induction. intros pointer depth Hd0 Hsize Hmax.
  rewrite keys_of_children, elem_of_cons. split.
  - intros [[= -> -> ->]|Hin].
    { exists [], v. unfold pointer_of, len. cbn. rewrite app_nil_r, Z.add_0_r. by split_and!; [constructor|..]. }
    destruct (depth_reached max depth) eqn:Hdepth; [by apply elem_of_nil in Hin|].
    apply elem_of_concat_map in Hin as ([seg x] & Hx & Hin). cbn [fst snd] in Hin.
    pose proof (child_size v seg x Hx). pose proof (json_size_pos x).
    rewrite u64_saturating_add_exact in Hin by lia. apply (IH seg x Hx) in Hin; [|lia..|].
    + destruct Hin as (path & y & Hy & -> & -> & -> & Hd). exists (seg :: path), y.
      unfold pointer_of, len. cbn [map concat length]. rewrite <-app_assoc.
      replace (depth + Z.of_nat (S (length path))) with (depth + 1 + len path) by (unfold len; lia).
      by split_and!; [econstructor|..].
    + destruct max as [m|]; [|done]. cbn in *. bool_to_prop. lia.
  - intros (path & y & Hy & -> & -> & -> & Hd). inversion Hy as [|? seg x path' ? Hx Hlead]; subst.
    { left. unfold pointer_of, len. cbn. by rewrite app_nil_r, Z.add_0_r. }
    right. pose proof (child_size v seg x Hx). pose proof (json_size_pos x).
    assert (depth_reached max depth = false) as ->.
    { destruct max as [m|]; [|done]. cbn in *. unfold len in Hd. cbn in Hd. apply Z.leb_gt. lia. }
    apply elem_of_concat_map. exists (seg, x). split; [done|]. cbn [fst snd].
    rewrite u64_saturating_add_exact by lia.
    unfold pointer_of, len in *. cbn [map concat length] in *.
    replace (depth + Z.of_nat (S (length path'))) with (depth + 1 + len path') in * by (unfold len; lia).
    apply (IH seg x Hx); [lia..| |].
    + destruct max as [m|]; [|done]. cbn in *. unfold len in Hd. lia.
    + exists path', y. rewrite <-app_assoc. by split_and!.
Qed.
End Leads.
