(* ===== verification/JsonProjections.v ===== *)
(** * What the JSON projections return

    A projection under an item budget returns the whole projection or says that
    it is incomplete, and the key pages' entries are every pointer of the value
    once, in order. *)

From S2P Require Import Prelude Order Chars Store Json JsonFacts.
Open Scope Z_scope.
Open Scope store_scope.

Section Projections.
Context {N : Type}.
Variable from_usize : Z -> N.
Implicit Types v : json N.

(** The projection of a value, were there no budget. *)
Definition whole_projection (projection : JsonProjection) (sample : Z) v : json N :=
  match projection with
  | ProjectCollapsed => collapsed from_usize sample v
  | ProjectKeys => JArray (key_entries v None Pointer)
  | ProjectValue | ProjectSchema => v
  end.

Lemma keys_projection_wf v max : btree_wf (collect_all_keys v [] 0 max []).
Proof. rewrite collect_all_keys_eq. apply btree_puts_wf. constructor. Qed.

Lemma key_entries_typed v :
  key_entries v None Pointer
  = map (fun '(pointer, value_type) => key_entry pointer value_type)
      (fold_left btree_put (map typed (keys_of v [] 0 None)) []).
Proof.
  unfold key_entries, ordered_keys. rewrite collect_all_keys_eq.
  change (@nil (str * string)) with (map typed []). rewrite <-btree_puts_typed, map_map.
  apply map_ext. by intros [p [d t]].
Qed.

(** C27: A JSON projection is returned whole exactly when its items fit the budget.
    For a budget below the largest [usize] and a value whose objects repeat no
    key, whatever the projection other than the schema: when
    [projection_item_count] exceeds the budget the value projection is refused
    with both numbers and the others return with the budget used up and marked
    incomplete; otherwise the result is the whole projection, marked complete,
    and the budget is reduced by exactly that count.  The keys projection holds
    exactly as many entries as the budget allows, all of them entries of the
    whole projection. *)
Theorem project_json_exact v projection (st : ProjectionState) :
  json_wf v -> 0 <= remaining st < U64_MAX -> projection <> ProjectSchema ->
  let sample := array_sample_size st in
  let items := projection_item_count v projection sample in
  (items <= remaining st ->
     project_json from_usize v projection st
     = Ok (whole_projection projection sample v,
           mk_projection (remaining st - items) sample (is_complete st)))
  /\ (remaining st < items ->
      match project_json from_usize v projection st with
      | Err e => projection = ProjectValue
                 /\ e = RequestLimitExceeded "selected JSON items" items (remaining st)
      | Ok (w, st') =>
        projection <> ProjectValue /\ remaining st' = 0 /\ is_complete st' = false
        /\ (projection = ProjectKeys -> exists entries, w = JArray entries
              /\ len entries = remaining st
              /\ forall entry, entry ∈ entries -> entry ∈ key_entries v None Pointer)
      end).
Proof.
  intros Hwf Hst Hp sample items. destruct projection; cbn [project_json whole_projection]; [| | |done].
  - subst items. cbn [projection_item_count]. split; intros Hle.
    + by rewrite (proj2 (Z.ltb_ge _ _)) by done.
    + by rewrite (proj2 (Z.ltb_lt _ _)) by done.
  - destruct (collapse_json_budgeted from_usize v st) as [Hfit Hover]; [done|lia|].
    subst items. cbn [projection_item_count]. rewrite collapsed_count_size. subst sample. split; intros Hle.
    + rewrite Hfit by lia. unfold spent. do 3 f_equal. lia.
    + destruct (collapse_json from_usize v st) as [w st']. cbn in Hover. by rewrite Hover by lia.
  - destruct (budget_puts (keys_of v [] 0 None) [] st) as ([Hfit Hover] & Hin & Hcount); [constructor|lia|].
    rewrite (collect_keys_eq v [] 0).
    subst items sample. cbn [projection_item_count]. rewrite key_entries_typed.
    set (full := fold_left btree_put (map typed (keys_of v [] 0 None)) []) in *.
    change (len (@nil (str * string))) with 0 in *.
    replace (len (map _ full)) with (len full) by (unfold len; by rewrite length_map).
    split; intros Hle.
    + rewrite Hfit by lia. unfold spent. do 3 f_equal. lia.
    + destruct (fold_left budget_put _ _) as [keys st']. cbn [fst snd] in *. rewrite Hover by lia.
      split_and!; [done..|]. intros _. eexists. split_and!; [done| |].
      * unfold len in *. rewrite length_map. lia.
      * intros entry (b & -> & Hb)%list_elem_of_fmap. apply list_elem_of_fmap. exists b. split; [done|by apply Hin].
Qed.
(** The order of the entries. *)
Definition entry_before (order : JsonKeyOrder) (a b : str * (Z * string)) : Prop :=
  match order with
  | Pointer => key_lt a.1 b.1 = true
  | DepthThenPointer => key_lt (a.2.1, a.1) (b.2.1, b.1) = true
  end.

#[local] Instance depth_then_pointer_total : Total depth_then_pointer.
Proof. intros a b. apply (total key_le). Qed.
#[local] Instance depth_then_pointer_trans : Transitive depth_then_pointer.
Proof. intros a b c. apply (transitivity (R := key_le)). Qed.

Lemma ordered_keys_perm v max order : ordered_keys v max order ≡ₚ collect_all_keys v [] 0 max [].
Proof. unfold ordered_keys. destruct order; [done|]. apply merge_sort_Permutation. Qed.

Lemma ordered_keys_sorted v max order : StronglySorted (entry_before order) (ordered_keys v max order).
Proof.
  pose proof (keys_projection_wf v max) as Hwf. unfold ordered_keys. destruct order; [done|].
  pose proof (StronglySorted_merge_sort depth_then_pointer (collect_all_keys v [] 0 max [])) as Hs.
  assert (Hn : NoDup (merge_sort depth_then_pointer (collect_all_keys v [] 0 max [])).*1)
    by (rewrite merge_sort_Permutation; by apply btree_wf_keys).
  induction Hs as [|a l Hs IH Ha]; [constructor|]. cbn in Hn. apply NoDup_cons in Hn as [Hna Hn].
  constructor; [by apply IH|]. rewrite Forall_forall in Ha |- *. intros b Hb. specialize (Ha b Hb).
  unfold entry_before, depth_then_pointer in *.
  destruct (key_lt (a.2.1, a.1) (b.2.1, b.1)) eqn:E; [done|]. exfalso. apply Hna.
  pose proof (key_le_antisym _ _ Ha E) as [= _ ->]. by apply list_elem_of_fmap_2.
Qed.

(** The entries of a key query are the pointers of the value, each once.  For a
    depth bound that is not negative and a value of fewer than [2^64] nodes:
    the entries are strictly increasing in the order asked for, so no pointer
    appears twice; a pointer has an entry exactly when a path of at most
    [max_depth] steps leads to a value there; the depth an entry is sorted by is
    the length of such a path and its type the type of the value at the first
    place the traversal meets the pointer. *)
Theorem key_entries_exact v max order :
  json_size v <= U64_MAX -> within_depth max 0 ->
  let keys := ordered_keys v max order in
  key_entries v max order = map (fun '(pointer, (_, value_type)) => key_entry pointer value_type) keys
  /\ StronglySorted (entry_before order) keys
  /\ (forall pointer, pointer ∈ keys.*1 <->
        exists path x, leads v path x /\ pointer = pointer_of path /\ within_depth max (len path))
  /\ (forall pointer depth value_type, (pointer, (depth, value_type)) ∈ keys ->
        first_binding pointer (keys_of v [] 0 max) = Some (depth, value_type)
        /\ exists path x, leads v path x /\ pointer = pointer_of path /\ depth = len path
             /\ value_type = json_type x).
Proof.
  intros Hsize Hmax keys. split_and!; [done|apply ordered_keys_sorted|..].
  - intros pointer. subst keys. rewrite ordered_keys_perm, collect_all_keys_eq. split.
    + intros ([p [d t]] & -> & Hin)%list_elem_of_fmap. cbn.
      rewrite <-(btree_get_some p (d, t)), btree_puts_get in Hin by (try apply btree_puts_wf; constructor).
      apply first_binding_elem in Hin. apply keys_of_leads in Hin as (path & x & Hx & -> & -> & _ & Hd);
        [by exists path, x|lia..|done].
    + intros (path & x & Hx & -> & Hd).
      assert (Hin : (pointer_of path, (len path, json_type x)) ∈ keys_of v [] 0 max)
        by (apply keys_of_leads; [lia..|done|]; by exists path, x).
      apply elem_of_first_binding in Hin as [[d t] Hin].
      apply list_elem_of_fmap. exists (pointer_of path, (d, t)). split; [done|].
      rewrite <-(btree_get_some _ (d, t)), btree_puts_get by (try apply btree_puts_wf; constructor).
      exact Hin.
  - intros p d t Hin. subst keys. rewrite ordered_keys_perm, collect_all_keys_eq in Hin.
    rewrite <-(btree_get_some p (d, t)), btree_puts_get in Hin by (try apply btree_puts_wf; constructor).
    cbn [btree_get] in Hin. split; [done|]. apply first_binding_elem in Hin.
    apply keys_of_leads in Hin as (path & x & Hx & -> & -> & -> & _); [by exists path, x|lia..|done].
Qed.
End Projections.

Module Demo.
(** Numbers are integers. *)
Definition value : json Z :=
  JArray [JObject [(lit "first", JNumber 1)]; JObject [(lit "second", JArray [JNull; JNull])]].

Lemma project_json_exact_witness :
  projection_item_count value ProjectKeys 1 = 5
  /\ project_json (fun n => n) value ProjectCollapsed (new_projection 3 1)
     = Ok (collapsed (fun n => n) 1 value, mk_projection 0 1 true)
  /\ exists entries, project_json (fun n => n) value ProjectKeys (new_projection 3 1)
       = Ok (JArray entries, mk_projection 0 1 false) /\ len entries = 3.
Proof.
  assert (Hwf : json_wf value) by (split_and!; try done; cbn; repeat split; repeat constructor; set_solver).
  split; [by vm_compute|]. split.
  - exact (proj1 (project_json_exact (fun n => n) value ProjectCollapsed (new_projection 3 1)
      Hwf ltac:(by vm_compute) ltac:(done)) ltac:(by vm_compute)).
  - eexists. split; [by vm_compute|done].
Defined.

Lemma key_entries_exact_witness :
  let value := JObject [(lit "b", JArray [JNumber 1; JNull]); (lit "a~/", JBool true)] in
  json_size value = 5
  /\ (ordered_keys value (Some 2) DepthThenPointer).*1
     = [lit ""; lit "/a~0~1"; lit "/b"; lit "/b/*"]
  /\ StronglySorted (entry_before DepthThenPointer) (ordered_keys value (Some 2) DepthThenPointer).
Proof.
  split; [by vm_compute|]. split; [by vm_compute|].
  apply (key_entries_exact (N := Z) _ (Some 2) DepthThenPointer); by vm_compute.
Defined.

(** The repository's own test of the item cap. *)
Example keys_item_cap :
  let value := JArray [JObject [(lit "first", JNumber 1)]; JObject [(lit "second", JNumber 2)]] in
  len (key_entries value None Pointer) = 4
  /\ exists entries, project_json (fun n => n) value ProjectKeys (new_projection 3 3)
       = Ok (JArray entries, mk_projection 0 3 false) /\ len entries = 3.
Proof. split; [by vm_compute|]. eexists. split; [by vm_compute|done]. Qed.
End Demo.
