(* ===== verification/JsonKeys.v ===== *)
(** * Pages of JSON keys

    The paginated keys projection: [project_key_page] of
    [src/src/services/json/keys.rs] with its token-bounded binary search, the
    cursor of [json/cursor.rs] and the measurement cache of [json/source.rs].

    Parameters: [serde_json::to_string] of a value (a value has string keys and
    finite numbers, and its serialization does not fail), the tokenizer's count,
    and what the cursors use (BLAKE3, base64). *)

From S2P Require Import Prelude Order Chars Bytes Store Receipt Cursor Json JsonFacts JsonProjections.
Open Scope Z_scope.
Open Scope store_scope.
Open Scope run_scope.

Definition MAX_JSON_CURSOR_BYTES : Z := 256.
Definition JSON_CURSOR_GENERATION : Z := 0.

Inductive JsonIncompleteReason := MaxItems | MaxTokens.
#[export] Instance JsonIncompleteReason_eq_dec : EqDecision JsonIncompleteReason.
Proof. solve_decision. Defined.

(** [json_stream_id]: the fields of [StreamIdentityBuilder::for_service] and the
    hash of the normalized query. *)
Definition json_stream_fields (repository_id : bytes) (index_scope_digest : option bytes)
    (implementation_version tokenizer query_hash : bytes) : list (bytes * stream_value) :=
  [(string_bytes "repository_id", FieldBytes repository_id);
   (string_bytes "index_scope_digest", FieldOptional index_scope_digest);
   (string_bytes "implementation_version", FieldBytes implementation_version);
   (string_bytes "tokenizer", FieldBytes tokenizer);
   (string_bytes "query_hash", FieldBytes query_hash)].

(** [is_fingerprint]. *)
Definition is_ascii_hexdigit (b : Z) : bool :=
  ((48 <=? b) && (b <=? 57)) || ((65 <=? b) && (b <=? 70)) || ((97 <=? b) && (b <=? 102)).
Definition is_source_hash (value : bytes) : bool :=
  (length value =? CONTENT_FINGERPRINT_HEX_LEN)%nat && forallb is_ascii_hexdigit value.

(** [JsonCursor::offset_for]. *)
Definition offset_for (cursor : CursorEnvelope) (source_hash stream_id : bytes) : result Z :=
  let* payload := payload_for cursor KindJsonKeys JSON_CURSOR_GENERATION stream_id in
  if negb (length payload =? CONTENT_FINGERPRINT_HEX_LEN + 8)%nat then Err StaleCursor
  else
    let cursor_source_hash := take CONTENT_FINGERPRINT_HEX_LEN payload in
    let offset := of_le_bytes (drop CONTENT_FINGERPRINT_HEX_LEN payload) in
    if negb (bool_decide (cursor_source_hash = source_hash)) then Err StaleCursor
    else if offset =? 0 then Err StaleCursor
    else Ok offset.

Section JsonKeys.
Context {N : Type}.
Variable to_string : json N -> string.
Variable count : string -> Z.
Variable blake3 : bytes -> bytes.
Variable b64_encode : bytes -> string.
Variable b64_decode : string -> option bytes.

Definition decode_json_cursor (cursor : string) : result CursorEnvelope :=
  parse_envelope blake3 b64_encode b64_decode cursor MAX_JSON_CURSOR_BYTES.

Definition make_json_cursor (stream_id source_hash : bytes) (offset : Z) : result string :=
  if negb (is_source_hash source_hash) || (offset =? 0)
  then Err (OperationFailure "invalid JSON continuation state")
  else
    let* envelope := new_envelope KindJsonKeys JSON_CURSOR_GENERATION stream_id
                       (source_hash ++ le64 offset) in
    Ok (encode_envelope blake3 b64_encode envelope).

(** [JsonMeasurementCache]: the token counts by serialized value. *)
Abbreviation measurements := (gmap string Z).

Definition measure (cache : measurements) (v : json N) : Z * measurements :=
  let serialized := to_string v in
  match cache !! serialized with
  | Some tokens => (tokens, cache)
  | None => let tokens := count serialized in (tokens, <[serialized := tokens]> cache)
  end.

Definition key_prefix_tokens (entries : list (json N)) (length : nat) (cache : measurements) : Z * measurements :=
  measure cache (JArray (take length entries)).

(** The [while lower < upper] loop. *)
Fixpoint search_prefix (fuel : nat) (entries : list (json N)) (max_tokens : Z) (lower upper : nat)
    (cache : measurements) : run (nat * measurements) :=
  if (lower <? upper)%nat then
    match fuel with
    | O => NoFuel
    | S fuel =>
      let middle := ((lower + upper + 1) / 2)%nat in
      let (tokens, cache) := key_prefix_tokens entries middle cache in
      if tokens <=? max_tokens then search_prefix fuel entries max_tokens middle upper cache
      else search_prefix fuel entries max_tokens lower (middle - 1)%nat cache
    end
  else Done (lower, cache).

Definition largest_key_prefix_within_tokens (entries : list (json N)) (max_tokens : Z) (cache : measurements)
    : run (nat * Z * measurements) :=
  match entries with
  | [] => let (tokens, cache) := key_prefix_tokens entries 0 cache in Done (O, tokens, cache)
  | _ =>
    let (full_tokens, cache) := key_prefix_tokens entries (length entries) cache in
    if full_tokens <=? max_tokens then Done (length entries, full_tokens, cache)
    else
      let? (lower, cache) := search_prefix (length entries) entries max_tokens 0 (length entries) cache in
      let (tokens, cache) := key_prefix_tokens entries lower cache in
      Done (lower, tokens, cache)
  end.

Record KeyProjectionPage := mk_page {
  page_value : list (json N);
  total_items : Z;
  returned_items : Z;
  remaining_items : Z;
  incomplete_reason : option JsonIncompleteReason;
  next_cursor : option string;
  projected_tokens : Z
}.

(** [project_key_page] of the ordered entries of the value. *)
Definition project_key_page (entries : list (json N)) (max_items max_tokens : Z)
    (cursor : option CursorEnvelope) (source_hash stream_id : bytes) (cache : measurements)
    : run (result (KeyProjectionPage * measurements)) :=
  let total := len entries in
  match (match cursor with
         | Some cursor => offset_for cursor source_hash stream_id
         | None => Ok 0
         end) with
  | Err e => Done (Err e)
  | Ok offset =>
    if (total <? offset) || ((offset =? total) && negb (offset =? 0)) then Done (Err StaleCursor)
    else
      let page_end := Z.min (u64_saturating_add offset max_items) total in
      let candidates := slice entries (Z.to_nat offset) (Z.to_nat page_end) in
      let? (returned, tokens, cache) := largest_key_prefix_within_tokens candidates max_tokens cache in
      if (returned =? 0)%nat && negb (length candidates =? 0)%nat then
        let (requested, _) := key_prefix_tokens candidates 1 cache in
        Done (Err (RequestLimitExceeded "one projected JSON item tokens" requested max_tokens))
      else
        let consumed := u64_saturating_add offset (Z.of_nat returned) in
        let remaining := u64_saturating_sub total consumed in
        let reason :=
          if 0 <? remaining
          then Some (if (returned <? length candidates)%nat then MaxTokens else MaxItems)
          else None in
        match (if 0 <? remaining
               then let* cursor := make_json_cursor stream_id source_hash consumed in Ok (Some cursor)
               else Ok None) with
        | Err e => Done (Err e)
        | Ok next =>
          Done (Ok (mk_page (take returned candidates) total (Z.of_nat returned) remaining reason next tokens,
                    cache))
        end
  end.

(** A keys query of a client: the cursor of the request, if any, is decoded,
    and the page is cut from the key entries of the value with a fresh cache. *)
Definition key_query (value : json N) (max_depth : option Z) (order : JsonKeyOrder)
    (max_items max_tokens : Z) (source_hash stream_id : bytes) (cursor : option string)
    : run (result KeyProjectionPage) :=
  match (match cursor with
         | Some cursor => let* e := decode_json_cursor cursor in Ok (Some e)
         | None => Ok None
         end) with
  | Err e => Done (Err e)
  | Ok cursor =>
    let? page := project_key_page (key_entries value max_depth order) max_items max_tokens cursor
                   source_hash stream_id ∅ in
    Done (let* (page, _) := page in Ok page)
  end.
End JsonKeys.
Arguments KeyProjectionPage : clear implicits.
