(* ===== verification/JsonPaging.v ===== *)
(** * Following the cursors of a keys query

    The binary search returns a prefix that fits and cannot be extended, a
    cursor leads back to the offset it was made for, and a client that follows
    the cursors of a keys query reads every key entry once. *)

From S2P Require Import Prelude Order Chars Bytes Store Receipt Cursor Json JsonFacts JsonProjections JsonKeys.
Open Scope Z_scope.
Open Scope store_scope.
Open Scope run_scope.

Section Paging.
Context {N : Type}.
Context (to_string : json N -> string) (count : string -> Z).
Context (blake3 : bytes -> bytes) {Hblake3 : Digest32 blake3}.
Context (encode : bytes -> string) (decode : string -> option bytes) {Hb64 : Base64 encode decode}.
Abbreviation measurements := (gmap string Z).

(** The tokens of an array of entries. *)
Definition tokens_of (entries : list (json N)) : Z := count (to_string (JArray entries)).

Definition cache_ok (cache : measurements) : Prop :=
  forall s tokens, cache !! s = Some tokens -> tokens = count s.

Lemma measure_ok cache v : cache_ok cache ->
  exists cache', measure to_string count cache v = (count (to_string v), cache') /\ cache_ok cache'.
Proof.
  intros Hc. unfold measure. destruct (cache !! to_string v) as [tokens|] eqn:Ht.
  - rewrite (Hc _ _ Ht). by exists cache.
  - eexists. split; [done|]. intros s tokens [[<- <-]|[_ Hs]]%lookup_insert_Some; [done|by apply Hc].
Qed.

Lemma prefix_tokens_ok cache entries n : cache_ok cache ->
  exists cache', key_prefix_tokens to_string count entries n cache = (tokens_of (take n entries), cache')
    /\ cache_ok cache'.
Proof. apply measure_ok. Qed.

(** The search keeps a bound that fits below and one that does not above. *)
Lemma search_prefix_spec fuel entries max_tokens lower upper cache :
  cache_ok cache -> (lower <= upper)%nat -> (upper - lower <= fuel)%nat ->
  exists found cache',
    search_prefix to_string count fuel entries max_tokens lower upper cache = Done (found, cache')
    /\ cache_ok cache' /\ (lower <= found <= upper)%nat
    /\ (found = lower \/ tokens_of (take found entries) <= max_tokens)
    /\ (found = upper \/ max_tokens < tokens_of (take (S found) entries)).
Proof.
  revert lower upper cache. induction fuel as [|fuel IH]; intros lower upper cache Hc Hle Hfuel;
    cbn [search_prefix]; (destruct (Nat.ltb_spec lower upper) as [Hlt|Hge];
      [|exists lower, cache; split_and!; [done|done|lia|lia|by left|left; lia]]); [lia|].
  set (middle := ((lower + upper + 1) / 2)%nat).
  assert (Hm : (lower < middle <= upper)%nat)
    by (subst middle; pose proof (Nat.div_mod (lower + upper + 1) 2); pose proof (Nat.mod_upper_bound (lower + upper + 1) 2); lia).
  destruct (prefix_tokens_ok cache entries middle Hc) as (cache1 & -> & Hc1).
  destruct (Z.leb_spec (tokens_of (take middle entries)) max_tokens) as [Hfit|Hover].
  - destruct (IH middle upper cache1 Hc1 ltac:(lia) ltac:(lia)) as (found & cache2 & -> & Hc2 & Hb & Hl & Hu).
    exists found, cache2. split_and!; [done|done|lia|lia| |done]. destruct Hl as [->|]; by right.
  - destruct (IH lower (middle - 1)%nat cache1 Hc1 ltac:(lia) ltac:(lia)) as (found & cache2 & -> & Hc2 & Hb & Hl & Hu).
    exists found, cache2. split_and!; [done|done|lia|lia|done|]. right. destruct Hu as [->|]; [|done].
    by replace (S (middle - 1)) with middle by lia.
Qed.

Lemma largest_prefix_spec entries max_tokens cache : cache_ok cache ->
  exists found cache',
    largest_key_prefix_within_tokens to_string count entries max_tokens cache
    = Done (found, tokens_of (take found entries), cache')
    /\ cache_ok cache' /\ (found <= length entries)%nat
    /\ (found = O \/ tokens_of (take found entries) <= max_tokens)
    /\ (found = length entries \/ max_tokens < tokens_of (take (S found) entries)).
Proof.
  intros Hc. unfold largest_key_prefix_within_tokens. destruct entries as [|e entries].
  { destruct (prefix_tokens_ok cache [] 0 Hc) as (cache1 & -> & Hc1).
    exists O, cache1. split_and!; [done|done|done|by left|by left]. }
  set (l := e :: entries). destruct (prefix_tokens_ok cache l (length l) Hc) as (cache1 & -> & Hc1).
  rewrite firstn_all. destruct (Z.leb_spec (tokens_of l) max_tokens) as [Hfit|Hover].
  { exists (length l), cache1. rewrite firstn_all. split_and!; [done|done|done|by right|by left]. }
  destruct (search_prefix_spec (length l) l max_tokens 0 (length l) cache1 Hc1 ltac:(lia) ltac:(lia))
    as (found & cache2 & -> & Hc2 & Hb & Hl & Hu).
  cbn [run_bind]. destruct (prefix_tokens_ok cache2 l found Hc2) as (cache3 & -> & Hc3).
  exists found, cache3. split_and!; [done|done|lia|done|]. destruct Hu as [->|]; [|by right].
  destruct Hl as [Hl|Hl]; [done|]. rewrite firstn_all in Hl. lia.
Qed.

(** ** Cursors *)
Definition json_envelope (stream_id source_hash : bytes) (offset : Z) : CursorEnvelope :=
  mk_envelope KindJsonKeys JSON_CURSOR_GENERATION stream_id (source_hash ++ le64 offset).

Lemma hash_is_bytes h : is_source_hash h = true ->
  length h = CONTENT_FINGERPRINT_HEX_LEN /\ Forall is_byte h.
Proof.
  unfold is_source_hash. intros [Hl Hh]%andb_true_iff. split; [by apply Nat.eqb_eq|].
  apply Forall_forall. intros b Hb. rewrite forallb_forall in Hh. specialize (Hh b).
  rewrite <-list_elem_of_In in Hh. specialize (Hh Hb). unfold is_ascii_hexdigit, is_byte in *.
  rewrite !orb_true_iff, !andb_true_iff, !Z.leb_le in Hh. lia.
Qed.

Lemma json_cursor_roundtrip stream_id source_hash offset :
  length stream_id = STREAM_ID_BYTES -> Forall is_byte stream_id ->
  is_source_hash source_hash = true -> 0 < offset <= U64_MAX ->
  exists cursor, make_json_cursor blake3 encode stream_id source_hash offset = Ok cursor
    /\ decode_json_cursor blake3 encode decode cursor = Ok (json_envelope stream_id source_hash offset)
    /\ offset_for (json_envelope stream_id source_hash offset) source_hash stream_id = Ok offset.
Proof.
  intros Hid Hidb Hhash Ho. destruct (hash_is_bytes _ Hhash) as [Hl Hb].
  assert (Hlen : length (source_hash ++ le64 offset) = 40%nat) by (by rewrite length_app, le64_length, Hl).
  assert (Hvalid : valid_envelope (json_envelope stream_id source_hash offset)).
  { unfold valid_envelope, json_envelope, len. cbn [envelope_generation envelope_stream_id envelope_payload].
    rewrite Hlen. do 4 (split; [done|]). apply Forall_app_2; [done|apply le_bytes_bytes]. }
  unfold make_json_cursor. rewrite Hhash, (proj2 (Z.eqb_neq _ _)) by lia. cbn [negb orb].
  unfold new_envelope. change (len (source_hash ++ le64 offset)) with (Z.of_nat (length (source_hash ++ le64 offset))).
  rewrite Hlen. cbn [result_bind]. eexists. split; [done|]. split.
  - unfold decode_json_cursor. apply parse_encode; [done..|]. rewrite (data_length blake3 encode decode) by done.
    unfold json_envelope, len. cbn [envelope_payload]. rewrite Hlen. by vm_compute.
  - unfold offset_for. rewrite (proj2 (payload_for_ok _ _ _ _ (source_hash ++ le64 offset))) by done.
    cbn [result_bind]. rewrite Hlen. cbn [Nat.eqb CONTENT_FINGERPRINT_HEX_LEN negb].
    rewrite take_app_length', drop_app_length' by done. rewrite bool_decide_eq_true_2 by done. cbn [negb].
    unfold le64. rewrite of_le_bytes_le by (change (256 ^ Z.of_nat 8) with 18446744073709551616; ints).
    by rewrite (proj2 (Z.eqb_neq _ _)) by lia.
Qed.
(** ** One page *)

(** What a page that starts at [offset] and shows [shown] entries says. *)
Definition page_at (entries : list (json N)) (max_items max_tokens : Z) (offset : nat)
    (shown : list (json N)) (next : option string) : KeyProjectionPage N :=
  let left := len entries - Z.of_nat offset - len shown in
  mk_page shown (len entries) (len shown) left
    (if 0 <? left then Some (if len shown <? Z.min max_items (len entries - Z.of_nat offset) then MaxTokens else MaxItems)
     else None)
    next (tokens_of shown).

Definition cursor_offset (cursor : option CursorEnvelope) (source_hash stream_id : bytes) : result Z :=
  match cursor with Some cursor => offset_for cursor source_hash stream_id | None => Ok 0 end.

(** The cursor that leads to an offset, or none at the end. *)
Definition leads_to (entries : list (json N)) (source_hash stream_id : bytes) (offset : nat)
    (next : option string) : Prop :=
  if (offset <? length entries)%nat
  then exists cursor, next = Some cursor
    /\ decode_json_cursor blake3 encode decode cursor
       = Ok (json_envelope stream_id source_hash (Z.of_nat offset))
  else next = None.

Context (stream_id source_hash : bytes).
Context (Hid : length stream_id = STREAM_ID_BYTES) (Hidb : Forall is_byte stream_id)
  (Hhash : is_source_hash source_hash = true).

Lemma key_page_at entries max_items max_tokens cursor cache offset :
  cache_ok cache -> cursor_offset cursor source_hash stream_id = Ok (Z.of_nat offset) ->
  (offset < length entries)%nat -> len entries <= U64_MAX -> 0 < max_items <= U64_MAX ->
  let candidates := take (Z.to_nat max_items) (drop offset entries) in
  exists found, (found <= length candidates)%nat
    /\ (found = length candidates \/ max_tokens < tokens_of (take (S found) candidates))
    /\ let outcome := project_key_page to_string count blake3 encode entries max_items max_tokens cursor
                        source_hash stream_id cache in
      match found with
      | O => outcome = Done (Err (RequestLimitExceeded "one projected JSON item tokens"
                                   (tokens_of (take 1 candidates)) max_tokens))
      | _ => tokens_of (take found candidates) <= max_tokens
        /\ exists next cache',
          outcome = Done (Ok (page_at entries max_items max_tokens offset (take found candidates) next, cache'))
          /\ leads_to entries source_hash stream_id (offset + found) next
      end.
Proof.
  intros Hc Hcursor Ho Hlen Hmax candidates. unfold project_key_page. fold (cursor_offset cursor source_hash stream_id).
  rewrite Hcursor. assert (Hle : len entries = Z.of_nat (length entries)) by done.
  rewrite (proj2 (Z.ltb_ge _ _)), (proj2 (Z.eqb_neq _ _)) by lia. cbn [orb andb].
  assert (Hcand : slice entries (Z.to_nat (Z.of_nat offset))
      (Z.to_nat (Z.min (u64_saturating_add (Z.of_nat offset) max_items) (len entries))) = candidates).
  { subst candidates. unfold slice. rewrite Nat2Z.id.
    destruct (Z.le_gt_cases (Z.of_nat offset + max_items) (len entries)).
    - f_equal. unfold u64_saturating_add. lia.
    - rewrite !firstn_all2; [done|rewrite length_drop; unfold u64_saturating_add; lia..]. }
  rewrite Hcand.
  assert (Hcl : length candidates = Nat.min (Z.to_nat max_items) (length entries - offset))
    by (subst candidates; by rewrite length_take, length_drop).
  destruct (largest_prefix_spec candidates max_tokens cache Hc) as (found & cache1 & -> & Hc1 & Hf & Hfit & Hnext).
  exists found. split; [done|]. split; [done|]. cbn [run_bind].
  destruct found as [|found].
  - cbn [Nat.eqb andb]. rewrite (proj2 (Nat.eqb_neq _ _)) by lia. cbn [negb].
    by destruct (prefix_tokens_ok cache1 candidates 1 Hc1) as (cache2 & -> & _).
  - destruct Hfit as [|Hfit]; [done|]. split; [done|]. cbn [Nat.eqb andb].
    assert (Hshown : len (take (S found) candidates) = Z.of_nat (S found))
      by (unfold len; rewrite length_take; lia).
    unfold page_at. rewrite Hshown. set (n := S found) in *.
    rewrite (u64_saturating_add_exact (Z.of_nat offset) (Z.of_nat n)) by lia.
    rewrite u64_saturating_sub_exact by lia.
    replace (len entries - (Z.of_nat offset + Z.of_nat n)) with (len entries - Z.of_nat offset - Z.of_nat n) by lia.
    replace (n <? length candidates)%nat with (Z.of_nat n <? Z.min max_items (len entries - Z.of_nat offset)).
    2: { rewrite Hcl. destruct (Z.ltb_spec (Z.of_nat n) (Z.min max_items (len entries - Z.of_nat offset)));
         destruct (Nat.ltb_spec n (Nat.min (Z.to_nat max_items) (length entries - offset))); lia. }
    unfold leads_to. destruct (Z.ltb_spec 0 (len entries - Z.of_nat offset - Z.of_nat n)) as [Hmore|Hend].
    + destruct (json_cursor_roundtrip stream_id source_hash (Z.of_nat offset + Z.of_nat n)) as (c & Hmake & Hdec & _);
        [done..|lia|]. rewrite Hmake. cbn [result_bind]. eexists _, _. split; [done|].
      rewrite (proj2 (Nat.ltb_lt _ _)) by lia. exists c. split; [done|]. by rewrite Nat2Z.inj_add.
    + eexists _, _. split; [done|]. by rewrite (proj2 (Nat.ltb_ge _ _)) by lia.
Qed.
Lemma key_entries_nonempty (value : json N) max_depth order : (0 < length (key_entries value max_depth order))%nat.
Proof.
  unfold key_entries. rewrite length_map, ordered_keys_perm, collect_all_keys_eq.
  rewrite keys_of_children. cbn [fold_left].
  pose proof (btree_puts_mono (if depth_reached max_depth 0 then [] else
    concat (map (fun c => keys_of c.2 ([] ++ segment_pointer c.1) (u64_saturating_add 0 1) max_depth) (children value)))
    (btree_put [] ([], (0, json_type value)))) as [_ Hlen]; [by apply btree_or_insert_wf; constructor|].
  unfold len in Hlen. cbn [length btree_put btree_or_insert btree_get btree_insert fst snd] in Hlen |- *. lia.
Qed.

(** ** A client that follows the cursors *)
Fixpoint read_pages (fuel : nat) (value : json N) (max_depth : option Z) (order : JsonKeyOrder)
    (max_items max_tokens : Z) (cursor : option string) : run (result (list (KeyProjectionPage N))) :=
  match fuel with
  | O => NoFuel
  | S fuel =>
    let? page := key_query to_string count blake3 encode decode value max_depth order max_items max_tokens
                   source_hash stream_id cursor in
    match page with
    | Err e => Done (Err e)
    | Ok page =>
      match next_cursor page with
      | None => Done (Ok [page])
      | Some cursor =>
        let? pages := read_pages fuel value max_depth order max_items max_tokens (Some cursor) in
        Done (let* pages := pages in Ok (page :: pages))
      end
    end
  end.

(** What a reader can rely on in one page. *)
Definition honest_page (entries : list (json N)) (max_items max_tokens : Z) (page : KeyProjectionPage N) : Prop :=
  0 < len (page_value page) <= max_items
  /\ returned_items page = len (page_value page)
  /\ projected_tokens page = tokens_of (page_value page)
  /\ tokens_of (page_value page) <= max_tokens
  /\ total_items page = len entries
  /\ (next_cursor page = None <-> remaining_items page = 0)
  /\ (incomplete_reason page = None <-> remaining_items page = 0)
  /\ (incomplete_reason page = Some MaxItems -> len (page_value page) = max_items).

Lemma read_pages_from fuel value max_depth order max_items max_tokens cursor offset :
  let entries := key_entries value max_depth order in
  len entries <= U64_MAX -> 0 < max_items <= U64_MAX -> (offset < length entries)%nat ->
  (length entries - offset <= fuel)%nat ->
  match cursor with
  | Some cursor => decode_json_cursor blake3 encode decode cursor
                   = Ok (json_envelope stream_id source_hash (Z.of_nat offset)) /\ (0 < offset)%nat
  | None => offset = O
  end ->
  exists outcome, read_pages fuel value max_depth order max_items max_tokens cursor = Done outcome
    /\ match outcome with
       | Ok pages => concat (map page_value pages) = drop offset entries
                     /\ Forall (honest_page entries max_items max_tokens) pages
       | Err e => exists entry, entry ∈ entries /\ max_tokens < tokens_of [entry]
                    /\ e = RequestLimitExceeded "one projected JSON item tokens" (tokens_of [entry]) max_tokens
       end.
Proof.
  intros entries Hlen Hmax. revert cursor offset.
  induction fuel as [|fuel IH]; intros cursor offset Ho Hfuel Hcursor; [lia|]. cbn [read_pages].
  unfold key_query. fold entries.
  set (decoded := match cursor with Some _ => _ | None => _ end).
  assert (exists envelope, decoded = Ok envelope
    /\ cursor_offset envelope source_hash stream_id = Ok (Z.of_nat offset)) as (envelope & -> & Henv).
  { subst decoded. destruct cursor as [c|]; [|subst offset; by exists None].
    destruct Hcursor as [-> Hpos]. eexists. split; [done|]. cbn [cursor_offset].
    by destruct (json_cursor_roundtrip stream_id source_hash (Z.of_nat offset)) as (_ & _ & _ & Hoff);
      [done..|unfold len in *; lia|]. }
  destruct (key_page_at entries max_items max_tokens envelope ∅ offset) as (found & Hf & Hnext & Hout);
    [by intros ?? ?|done..|].
  set (candidates := take (Z.to_nat max_items) (drop offset entries)) in *.
  assert (Hcl : length candidates = Nat.min (Z.to_nat max_items) (length entries - offset))
    by (subst candidates; by rewrite length_take, length_drop).
  destruct found as [|n].
  - rewrite Hout. cbn [run_bind result_bind]. eexists. split; [done|].
    destruct Hnext as [Hnext|Hnext]; [lia|].
    destruct candidates as [|entry rest] eqn:Ecand; [cbn in Hcl; lia|].
    exists entry. split_and!; [|done|done].
    apply (subseteq_drop offset), (subseteq_take (Z.to_nat max_items)). fold candidates. rewrite Ecand. by left.
  - destruct Hout as (Hfit & next & cache' & Hout & Hleads). rewrite Hout. cbn [run_bind result_bind].
    set (page := page_at entries max_items max_tokens offset (take (S n) candidates) next).
    assert (Hshown : len (page_value page) = Z.of_nat (S n))
      by (cbn [page page_at page_value]; unfold len; rewrite length_take; lia).
    assert (Hpage : honest_page entries max_items max_tokens page).
    { unfold honest_page. rewrite Hshown. cbn [page page_at page_value returned_items projected_tokens
        total_items next_cursor remaining_items incomplete_reason] in *. rewrite Hshown.
      unfold leads_to in Hleads. unfold len in Hlen |- *. split_and!; [lia|lia|done|done|done|done|..].
      - destruct (Nat.ltb_spec (offset + S n) (length entries)) as [Hlt|Hge];
          [destruct Hleads as (c & -> & _); split; [done|lia]|]. split; [lia|done].
      - destruct (Z.ltb_spec 0 (Z.of_nat (length entries) - Z.of_nat offset - Z.of_nat (S n)));
          (split; [done || lia|done || lia]).
      - destruct (Z.ltb_spec 0 (Z.of_nat (length entries) - Z.of_nat offset - Z.of_nat (S n))); [|done].
        destruct (Z.ltb_spec (Z.of_nat (S n)) (Z.min max_items (Z.of_nat (length entries) - Z.of_nat offset)));
          [done|]. lia. }
    change (next_cursor page) with next. unfold leads_to in Hleads.
    assert (Hvalue : page_value page ++ drop (offset + S n) entries = drop offset entries).
    { change (page_value page) with (take (S n) candidates). subst candidates.
      rewrite take_take, <-drop_drop. replace (S n `min` Z.to_nat max_items)%nat with (S n) by lia.
      apply take_drop. }
    destruct (Nat.ltb_spec (offset + S n) (length entries)) as [Hlt|Hge].
    + destruct Hleads as (c & -> & Hdec).
      destruct (IH (Some c) (offset + S n)%nat) as (outcome & -> & Hrest); [lia|lia|by split; [|lia]|].
      cbn [run_bind]. destruct outcome as [pages|e]; cbn [result_bind]; [|by exists (Err e)].
      destruct Hrest as [Hconcat Hpages]. exists (Ok (page :: pages)). split; [done|].
      split; [|by constructor]. cbn [map concat]. by rewrite Hconcat.
    + subst next. exists (Ok [page]). split; [done|]. split; [|by constructor].
      cbn [map concat]. rewrite <-Hvalue. f_equal. symmetry. apply skipn_all2. lia.
Qed.

(** C15: A client that follows the cursors of a keys query reads every key.  For a
    tokenizer of any kind, a source hash of 32 hex digits, at most [2^64 - 1]
    key entries and a positive item limit: asking for the first page and then
    for the page of each [next_cursor] ends after at most as many requests as
    there are entries.  Either every page came back, and then their entries in
    order are exactly the key entries of the value, each page shows between one
    and [max_items] entries within [max_tokens], reports its own size and
    tokens, and has a next cursor exactly when entries remain; or some entry
    exceeds [max_tokens] on its own and the error names that entry's tokens. *)
Theorem key_pages_cover value max_depth order max_items max_tokens :
  let entries := key_entries value max_depth order in
  len entries <= U64_MAX -> 0 < max_items <= U64_MAX ->
  exists outcome, read_pages (length entries) value max_depth order max_items max_tokens None = Done outcome
    /\ match outcome with
       | Ok pages => concat (map page_value pages) = entries
                     /\ Forall (honest_page entries max_items max_tokens) pages
       | Err e => exists entry, entry ∈ entries /\ max_tokens < tokens_of [entry]
                    /\ e = RequestLimitExceeded "one projected JSON item tokens" (tokens_of [entry]) max_tokens
       end.
Proof.
  intros entries Hlen Hmax. subst entries. set (entries := length _).
  destruct (read_pages_from entries value max_depth order max_items max_tokens None 0)
    as (outcome & Hread & Hout); [done|done|apply key_entries_nonempty|by rewrite Nat.sub_0_r|done|].
  exists outcome. by split.
Qed.
End Paging.

Module Demo.
Definition value : json Z :=
  JObject [(lit "alpha", JArray [JNumber 1; JNull]); (lit "beta", JBool true); (lit "gamma", JString (lit "x"))].
(** A serializer good enough for key entries, and a tokenizer of four bytes a token. *)
Fixpoint print (v : json Z) : string :=
  match v with
  | JNull => "null"
  | JBool b => if b then "true" else "false"
  | JNumber n => "0"
  | JString s => String.append "'" (String.append (String.string_of_list_ascii (map (fun c => Ascii.ascii_of_N (Z.to_N c)) s)) "'")
  | JArray values => String.append "[" (String.append (String.concat "," (map print values)) "]")
  | JObject members => String.append "{" (String.append (String.concat "," (map (fun m => print m.2) members)) "}")
  end.
Definition count (s : string) : Z := (Z.of_nat (String.length s) + 3) / 4.
Definition source_hash : bytes := repeat 97 32.

Lemma key_pages_cover_witness :
  exists pages, read_pages print count demo_digest Base64Url.encode Base64Url.decode demo_stream source_hash
      5 value None DepthThenPointer 2 12 None = Done (Ok pages)
    /\ concat (map page_value pages) = key_entries value None DepthThenPointer
    /\ map (fun page => (returned_items page, remaining_items page)) pages = [(2, 3); (2, 1); (1, 0)].
Proof.
  destruct demo_stream_ok as [Hid Hidb].
  pose proof (key_pages_cover print count demo_digest Base64Url.encode Base64Url.decode demo_stream source_hash
    Hid Hidb ltac:(by vm_compute) value None DepthThenPointer 2 12 ltac:(by vm_compute) ltac:(by vm_compute))
    as (outcome & Hread & Hout).
  change (length (key_entries value None DepthThenPointer)) with 5%nat in Hread.
  destruct outcome as [pages|e]; [|exfalso; revert Hread; by vm_compute].
  exists pages. split; [exact Hread|]. split; [exact (proj1 Hout)|].
  revert Hread. vm_compute. by intros [= <-].
Defined.
End Demo.
