(* ===== verification/JsonSchema.v ===== *)
(** * Breadth-first JSON schemas

    [src/src/services/json/schema.rs]: the schema of a value built breadth first
    in an arena of at most [max_items] nodes, with the record of the subtrees it
    omits, and the page that fits a token budget.

    An index into the arena that is out of range, an [unreachable!] and an
    [expect] are panics.  The loop over the queue has one round for each node of
    the value, rendering one for each node of the arena, and the search one for
    each item, as fuel. *)

From S2P Require Import Prelude Order Chars Store Json JsonFacts JsonKeys.
Open Scope Z_scope.
Open Scope store_scope.
Open Scope run_scope.

Definition MAX_SCHEMA_OMITTED_POINTERS : nat := 32.

(** A [BTreeSet] of pointers. *)
Abbreviation pointer_set := (list (str * ())).
Definition pointer_insert (omitted : pointer_set) (pointer : str) : pointer_set := btree_insert pointer tt omitted.

(** [SchemaNodeKind] and [SchemaNode]; the children of an object are a [BTreeMap]. *)
Inductive SchemaNodeKind :=
| SchemaObject (properties : list (str * nat))
| SchemaArray (count : Z) (variants : list nat)
| SchemaScalar (value_type : string).
Record SchemaNode := mk_schema_node { node_kind : SchemaNodeKind; node_pointer : str }.

Section Schema.
Context {N : Type}.
Variable from_usize : Z -> N.
Variable to_string : json N -> string.
Variable count : string -> Z.
Implicit Types value : json N.

Definition schema_node value (pointer : str) : SchemaNode :=
  let kind := match value with
              | JObject _ => SchemaObject []
              | JArray values => SchemaArray (len values) []
              | _ => SchemaScalar (json_type value)
              end in
  mk_schema_node kind pointer.

Definition schema_node_has_children value : bool :=
  match value with
  | JObject members => negb (length members =? 0)%nat
  | JArray values => negb (length values =? 0)%nat
  | _ => false
  end.

Abbreviation queue_entry := (json N * nat * str)%type.

Definition schema_frontier (queued : list queue_entry) (omitted : pointer_set) : pointer_set :=
  fold_left (fun omitted '(value, _, omission_root) =>
    if schema_node_has_children value then pointer_insert omitted omission_root else omitted) queued omitted.

(** ** Rendering *)

(** [schema_items]: no variant, one, or several different ones. *)
Definition schema_items (unique : list (string * json N)) : json N :=
  match unique with
  | [] => JObject []
  | [(_, schema)] => schema
  | _ => JObject [(lit "anyOf", JArray (map snd unique))]
  end.
Definition type_entry (value_type : string) : str * json N := (lit "type", JString (lit value_type)).

Fixpoint run_map {A B} (f : A -> run B) (l : list A) : run (list B) :=
  match l with
  | [] => Done []
  | x :: l => let? y := f x in let? ys := run_map f l in Done (y :: ys)
  end.

Fixpoint render_schema_node (fuel : nat) (nodes : list SchemaNode) (node_id : nat) : run (json N) :=
  match fuel with
  | O => NoFuel
  | S fuel =>
    match nodes !! node_id with
    | None => Panic
    | Some node =>
      match node_kind node with
      | SchemaScalar value_type => Done (JObject [type_entry value_type])
      | SchemaObject children =>
        let? properties := run_map (fun '(key, child) =>
          let? schema := render_schema_node fuel nodes child in Done (key, schema)) children in
        Done (JObject [type_entry "object";
                       (lit "properties", JObject (fold_left (fun m p => map_insert m p.1 p.2) properties []))])
      | SchemaArray count variants =>
        let? schemas := run_map (render_schema_node fuel nodes) variants in
        let unique := fold_left (fun unique schema => btree_or_insert (to_string schema) schema unique)
                        schemas [] in
        Done (JObject [type_entry "array"; (lit "count", JNumber (from_usize count));
                       (lit "items", schema_items unique)])
      end
    end
  end.

(** ** The breadth-first construction *)
Record Building := mk_building {
  nodes : list SchemaNode;
  queue : list queue_entry;
  omitted : pointer_set
}.

(** [nodes[node_id].kind] of an object or an array gains a child. *)
Definition attach (nodes : list SchemaNode) (node_id : nat) (key : option str) (child_id : nat)
    : run (list SchemaNode) :=
  match nodes !! node_id with
  | None => Panic
  | Some node =>
    match node_kind node, key with
    | SchemaObject children, Some key =>
      Done (<[node_id := mk_schema_node (SchemaObject (btree_insert key child_id children)) (node_pointer node)]> nodes)
    | SchemaArray count variants, None =>
      Done (<[node_id := mk_schema_node (SchemaArray count (variants ++ [child_id])) (node_pointer node)]> nodes)
    | _, _ => Panic
    end
  end.

(** [nodes.push(..)], the attachment to the parent, and the queue. *)
Definition push_child (b : Building) (node_id : nat) (key : option str) (child : json N)
    (pointer child_omission_root : str) : run Building :=
  let child_id := length (nodes b) in
  let? attached := attach (nodes b ++ [schema_node child pointer]) node_id key child_id in
  Done (mk_building attached
    (if schema_node_has_children child then queue b ++ [(child, child_id, child_omission_root)] else queue b)
    (omitted b)).

(** [values.keys().skip_while(|value| *value != key).skip(1)]. *)
Fixpoint keys_after (key : str) (keys : list str) : list str :=
  match keys with
  | [] => []
  | k :: keys => if bool_decide (k = key) then keys else keys_after key keys
  end.

(** The loop over the members of an object; the flag says [break 'build]. *)
Fixpoint object_loop (max_items : Z) (values : list (str * json N)) (node_id : nat) (omission_root : str)
    (members : list (str * json N)) (b : Building) : run (bool * Building) :=
  match members with
  | [] => Done (false, b)
  | (key, child) :: members =>
    match nodes b !! node_id with
    | None => Panic
    | Some node =>
      let pointer := key_pointer (node_pointer node) key in
      let child_omission_root := if (node_id =? 0)%nat then pointer else omission_root in
      if max_items <=? len (nodes b) then
        let omitted1 := pointer_insert (omitted b) child_omission_root in
        let omitted2 := fold_left (fun omitted remaining_key =>
          pointer_insert omitted
            (if (node_id =? 0)%nat then key_pointer (node_pointer node) remaining_key else omission_root))
          (keys_after key values.*1) omitted1 in
        Done (true, mk_building (nodes b) (queue b) (schema_frontier (queue b) omitted2))
      else
        let? b := push_child b node_id (Some key) child pointer child_omission_root in
        object_loop max_items values node_id omission_root members b
    end
  end.

(** The loop over the items of an array. *)
Fixpoint array_loop (max_items : Z) (node_id : nat) (pointer child_omission_root : str)
    (values : list (json N)) (b : Building) : run (bool * Building) :=
  match values with
  | [] => Done (false, b)
  | child :: values =>
    if max_items <=? len (nodes b) then
      let omitted1 := pointer_insert (omitted b) child_omission_root in
      Done (true, mk_building (nodes b) (queue b) (schema_frontier (queue b) omitted1))
    else
      let? b := push_child b node_id None child pointer child_omission_root in
      array_loop max_items node_id pointer child_omission_root values b
  end.

Fixpoint build_loop (fuel : nat) (max_items : Z) (b : Building) : run Building :=
  match queue b with
  | [] => Done b
  | (current, node_id, omission_root) :: rest =>
    match fuel with
    | O => NoFuel
    | S fuel =>
      let b := mk_building (nodes b) rest (omitted b) in
      let? (broken, b) :=
        match current with
        | JObject values => object_loop max_items values node_id omission_root values b
        | JArray values =>
          match nodes b !! node_id with
          | None => Panic
          | Some node =>
            let pointer := item_pointer (node_pointer node) in
            let child_omission_root := if (node_id =? 0)%nat then pointer else omission_root in
            array_loop max_items node_id pointer child_omission_root values b
          end
        | _ => Done (false, b)
        end in
      if broken : bool then Done b else build_loop fuel max_items b
    end
  end.

(** The ["x-leantoken-incomplete"] member of the root. *)
Definition omission_entry (omitted : pointer_set) : str * json N :=
  (lit "x-leantoken-incomplete",
   JObject [(lit "omitted_subtree_count", JNumber (from_usize (len omitted)));
            (lit "omitted_subtree_pointers",
             JArray (map (fun p => JString p.1) (take MAX_SCHEMA_OMITTED_POINTERS omitted)))]).

Definition annotate (omitted : pointer_set) (schema : json N) : json N :=
  match omitted, schema with
  | _ :: _, JObject root => let entry := omission_entry omitted in JObject (map_insert root entry.1 entry.2)
  | _, _ => schema
  end.

Definition build_schema_breadth_first value (max_items : Z) : run (json N) :=
  let start := mk_building [schema_node value []] [(value, O, [])] [] in
  let? built := build_loop (Z.to_nat (json_size value)) max_items start in
  let? schema := render_schema_node (length (nodes built)) (nodes built) 0 in
  Done (annotate (omitted built) schema).

(** ** The page of a token budget *)

(** [SchemaProjectionPlan]: the measured candidates by item count. *)
Abbreviation plan := (gmap Z (json N * Z)).

Definition candidate (cache : plan) value (max_items : Z) : run (json N * Z * plan) :=
  match cache !! max_items with
  | Some measured => Done (measured, cache)
  | None =>
    let? built := build_schema_breadth_first value max_items in
    let measured := (built, count (to_string built)) in
    Done (measured, <[max_items := measured]> cache)
  end.

Record SchemaProjection := mk_schema_page {
  schema_value : json N;
  schema_total_items : Z;
  schema_returned_items : Z;
  schema_remaining_items : Z;
  schema_incomplete_reason : option JsonIncompleteReason;
  schema_projected_tokens : Z
}.

(** The [while lower <= upper] loop. *)
Fixpoint fit_schema (fuel : nat) (max_tokens : Z) value (lower upper best_items best_tokens : Z) (cache : plan)
    : run (Z * Z * plan) :=
  if lower <=? upper then
    match fuel with
    | O => NoFuel
    | S fuel =>
      let middle := u64_saturating_add lower (u64_saturating_sub upper lower / 2) in
      let? (_, candidate_tokens, cache) := candidate cache value middle in
      if candidate_tokens <=? max_tokens
      then fit_schema fuel max_tokens value (u64_saturating_add middle 1) upper middle candidate_tokens cache
      else fit_schema fuel max_tokens value lower (u64_saturating_sub middle 1) best_items best_tokens cache
    end
  else Done (best_items, best_tokens, cache).

Definition schema_page value (item_limit returned tokens : Z) (cache : plan) : run (result SchemaProjection) :=
  match cache !! returned with
  | None => Panic
  | Some (schema, _) =>
    let total := count_nodes value in
    let remaining := u64_saturating_sub total returned in
    let reason := if 0 <? remaining then Some (if returned <? item_limit then MaxTokens else MaxItems) else None in
    Done (Ok (mk_schema_page schema total returned remaining reason tokens))
  end.

Definition project_schema_page value (max_items max_tokens : Z) : run (result SchemaProjection) :=
  let item_limit := Z.max (Z.min (count_nodes value) max_items) 1 in
  let? (_, item_limited_tokens, cache) := candidate ∅ value item_limit in
  if item_limited_tokens <=? max_tokens then schema_page value item_limit item_limit item_limited_tokens cache
  else
    let? (_, root_tokens, cache) := candidate cache value 1 in
    if max_tokens <? root_tokens
    then Done (Err (RequestLimitExceeded "one projected JSON item tokens" root_tokens max_tokens))
    else
      let? (best_items, best_tokens, cache) :=
        fit_schema (Z.to_nat item_limit) max_tokens value 1 (u64_saturating_sub item_limit 1) 1 root_tokens cache in
      schema_page value item_limit best_items best_tokens cache.
End Schema.
