(* ===== verification/JsonLevels.v ===== *)
(** * The values of a JSON value, level by level

    The breadth-first order the schemas are built in: every value below a value
    with its path, its pointer and the pointer of the root's child above it,
    listed by levels; and where in that list the children of each value are. *)

From S2P Require Import Prelude Order Chars Store Json JsonFacts.
Open Scope Z_scope.

Section Levels.
Context {N : Type}.

Record place := mk_place {
  pl_path : list nat;
  pl_value : json N;
  pl_pointer : str;
  pl_root : str
}.

Definition kid (pl : place) (i : nat) (c : segment * json N) : place :=
  let pointer := pl_pointer pl ++ segment_pointer c.1 in
  mk_place (pl_path pl ++ [i]) c.2 pointer (match pl_path pl with [] => pointer | _ => pl_root pl end).
Definition kids (pl : place) : list place := imap (kid pl) (children (pl_value pl)).
Definition next_level (level : list place) : list place := concat (map kids level).

Fixpoint levels (fuel : nat) (level : list place) : list place :=
  match fuel with
  | O => []
  | S fuel => level ++ levels fuel (next_level level)
  end.
Definition root_place (v : json N) : place := mk_place [] v [] [].
Definition level_order (v : json N) : list place := levels (Z.to_nat (json_size v)) [root_place v].

(** ** The equation of the order *)
Definition place_size (pl : place) : Z := json_size (pl_value pl).
Definition total_size (level : list place) : Z := sum (map place_size level).

Lemma next_level_app a b : next_level (a ++ b) = next_level a ++ next_level b.
Proof. unfold next_level. by rewrite map_app, concat_app. Qed.
Lemma next_level_cons pl l : next_level (pl :: l) = kids pl ++ next_level l.
Proof. done. Qed.
Lemma places_size_app a b : total_size (a ++ b) = total_size a + total_size b.
Proof. unfold total_size. by rewrite map_app, sum_app. Qed.

Lemma kids_size pl : total_size (kids pl) = place_size pl - 1.
Proof.
  unfold total_size, place_size, kids. rewrite json_size_children.
  assert (Himap : forall (l : list (segment * json N)) f, (forall i c, pl_value (f i c) = c.2) ->
    sum (map (fun p => json_size (pl_value p)) (imap f l)) = sum (map (fun c => json_size c.2) l)).
  { induction l as [|c l IH]; intros f Hf; [done|]. cbn [imap map]. unfold sum in *. cbn [foldr].
    rewrite Hf, IH; [done|]. intros i d. apply Hf. }
  rewrite Himap by done. lia.
Qed.

Lemma next_level_size l : total_size (next_level l) = total_size l - len l.
Proof.
  induction l as [|pl l IH]; [done|]. rewrite next_level_cons, places_size_app, IH, kids_size.
  unfold total_size, sum, len. cbn. lia.
Qed.
Lemma total_size_bound l : len l <= total_size l.
Proof.
  unfold total_size, len, sum. induction l as [|pl l IH]; cbn; [lia|].
  pose proof (json_size_pos (pl_value pl)). unfold place_size in *. lia.
Qed.
Lemma total_size_nil l : total_size l <= 0 -> l = [].
Proof. intros Hl. pose proof (total_size_bound l). destruct l; [done|]. unfold len in *. cbn in *. lia. Qed.

Lemma levels_unfold fuel l : levels (S fuel) l = l ++ next_level (levels fuel l).
Proof.
  revert l. induction fuel as [|fuel IH]; intros l; [done|].
  change (levels (S (S fuel)) l) with (l ++ levels (S fuel) (next_level l)). rewrite IH.
  change (levels (S fuel) l) with (l ++ levels fuel (next_level l)). by rewrite next_level_app.
Qed.
Lemma levels_enough fuel l : total_size l <= Z.of_nat fuel -> levels (S fuel) l = levels fuel l.
Proof.
  revert l. induction fuel as [|fuel IH]; intros l Hl.
  - by rewrite (total_size_nil l).
  - change (levels (S (S fuel)) l) with (l ++ levels (S fuel) (next_level l)). destruct l as [|pl l].
    + cbn. clear. by induction fuel.
    + rewrite IH; [done|]. rewrite next_level_size.
      change (len (pl :: l)) with (Z.of_nat (S (length l))). lia.
Qed.

Lemma level_order_eq v : level_order v = root_place v :: next_level (level_order v).
Proof.
  unfold level_order. rewrite <-levels_enough at 1; [apply levels_unfold|].
  unfold total_size, place_size, sum. cbn. pose proof (json_size_pos v). lia.
Qed.
Lemma level_order_length v : len (level_order v) = json_size v.
Proof.
  pose proof (f_equal total_size (level_order_eq v)) as Hs.
  change (root_place v :: ?l) with ([root_place v] ++ l) in Hs.
  rewrite places_size_app, next_level_size in Hs. unfold total_size at 2, place_size, sum in Hs. cbn in Hs. lia.
Qed.

(** ** Paths name places *)
Lemma kids_path pl c : c ∈ kids pl -> exists i, pl_path c = pl_path pl ++ [i].
Proof.
  unfold kids. intros (i & Hi)%list_elem_of_lookup. rewrite list_lookup_imap in Hi.
  destruct (children (pl_value pl) !! i); [|done]. cbn in Hi. injection Hi as <-. by exists i.
Qed.
Lemma kids_NoDup pl : NoDup (map pl_path (kids pl)).
Proof.
  apply NoDup_alt. intros i j p. rewrite !list_lookup_fmap. unfold kids. rewrite !list_lookup_imap.
  destruct (children (pl_value pl) !! i), (children (pl_value pl) !! j); cbn; try done.
  intros [= <-] [= Hij]. by apply app_inj_tail in Hij as [_ ->].
Qed.

Lemma next_level_NoDup d l : NoDup (map pl_path l) -> Forall (fun pl => length (pl_path pl) = d) l ->
  NoDup (map pl_path (next_level l)) /\ Forall (fun pl => length (pl_path pl) = S d) (next_level l).
Proof.
  intros Hn Hd. induction l as [|pl l IH]; [by split; constructor|].
  apply NoDup_cons in Hn as [Hpl Hn]. apply Forall_cons in Hd as [Hdp Hd].
  destruct (IH Hn Hd) as [IHn IHd]. rewrite next_level_cons, map_app. split.
  - apply NoDup_app. split_and!; [apply kids_NoDup| |done].
    intros p (c & -> & Hc)%list_elem_of_fmap (c' & Heq & Hc')%list_elem_of_fmap.
    apply Hpl. apply elem_of_concat_map in Hc' as (pl' & Hpl' & Hc').
    destruct (kids_path _ _ Hc) as [i Hi], (kids_path _ _ Hc') as [j Hj].
    rewrite Hi, Hj in Heq. apply app_inj_tail in Heq as [-> _]. by apply list_elem_of_fmap_2.
  - apply Forall_app. split; [|done]. apply Forall_forall. intros c Hc.
    destruct (kids_path _ _ Hc) as [i ->]. rewrite length_app, Hdp. cbn. lia.
Qed.

Lemma levels_NoDup fuel d l : NoDup (map pl_path l) -> Forall (fun pl => length (pl_path pl) = d) l ->
  NoDup (map pl_path (levels fuel l)) /\ Forall (fun pl => (d <= length (pl_path pl))%nat) (levels fuel l).
Proof.
  revert d l. induction fuel as [|fuel IH]; intros d l Hn Hd; [by split; constructor|]. cbn [levels].
  destruct (next_level_NoDup d l Hn Hd) as [Hn' Hd']. destruct (IH (S d) _ Hn' Hd') as [Hn2 Hd2].
  rewrite map_app. split.
  - apply NoDup_app. split_and!; [done| |done].
    intros p (c & -> & Hc)%list_elem_of_fmap (c' & Heq & Hc')%list_elem_of_fmap.
    rewrite Forall_forall in Hd, Hd2. specialize (Hd c Hc). specialize (Hd2 c' Hc'). rewrite Heq in Hd. lia.
  - apply Forall_app. split; (eapply Forall_impl; [done|]); cbn; intros; lia.
Qed.

Lemma level_order_NoDup v : NoDup (map pl_path (level_order v)).
Proof.
  apply (levels_NoDup _ 0); [by apply NoDup_singleton|]. by repeat constructor.
Qed.
Lemma level_order_path_inj v i j a b : level_order v !! i = Some a -> level_order v !! j = Some b ->
  pl_path a = pl_path b -> i = j.
Proof.
  intros Ha Hb Hp. pose proof (level_order_NoDup v) as Hn. rewrite NoDup_alt in Hn.
  apply (Hn i j (pl_path a)); rewrite list_lookup_fmap; [by rewrite Ha|]. rewrite Hb. cbn. by rewrite Hp.
Qed.

(** ** Where the children are *)
Section Order.
Context (v : json N).
Abbreviation L := (level_order v).

(** The index of the first child of the place [j]. *)
Definition first_child (j : nat) : nat := S (length (next_level (take j L))).

Lemma first_child_S j pl : L !! j = Some pl -> first_child (S j) = (first_child j + length (kids pl))%nat.
Proof.
  intros Hj. unfold first_child. rewrite (take_S_r _ _ _ Hj), next_level_app, length_app, next_level_cons.
  rewrite length_app. cbn. lia.
Qed.
Lemma first_child_mono i j : (i <= j)%nat -> (first_child i <= first_child j)%nat.
Proof.
  intros Hij. unfold first_child. rewrite <-(take_drop i (take j L)), take_take, next_level_app, length_app.
  replace (i `min` j)%nat with i by lia. lia.
Qed.

Lemma kid_lookup j pl i c : L !! j = Some pl -> kids pl !! i = Some c -> L !! (first_child j + i)%nat = Some c.
Proof.
  intros Hj Hi.
  assert (Hn : next_level L = next_level (take j L) ++ kids pl ++ next_level (drop (S j) L))
    by (rewrite <-next_level_cons, <-next_level_app; by rewrite take_drop_middle).
  transitivity ((root_place v :: next_level L) !! (first_child j + i)%nat); [by rewrite <-level_order_eq|].
  transitivity (next_level L !! (length (next_level (take j L)) + i)%nat); [done|]. rewrite Hn.
  rewrite lookup_app_r by lia. rewrite lookup_app_l by (apply lookup_lt_Some in Hi; lia).
  by replace (length (next_level (take j L)) + i - length (next_level (take j L)))%nat with i by lia.
Qed.

(** Past the children of the first [n] places there is nothing when they all are among them. *)
Lemma level_order_closed n : (n <= length L)%nat -> first_child n = n -> n = length L.
Proof.
  intros Hn Hclosed. assert (Hrest : drop n L = next_level (drop n L)).
  { transitivity (drop n (root_place v :: next_level L)); [by rewrite <-level_order_eq|].
    transitivity (drop n (root_place v :: next_level (take n L) ++ next_level (drop n L)));
      [by rewrite <-next_level_app, take_drop|].
    rewrite <-Hclosed at 1. unfold first_child. cbn [drop]. by rewrite drop_app_length. }
  pose proof (f_equal total_size Hrest) as Hs. rewrite next_level_size in Hs.
  assert (length (drop n L) = 0)%nat as Hl by (unfold len in Hs; lia). rewrite length_drop in Hl. lia.
Qed.

Lemma root_lookup : L !! O = Some (root_place v).
Proof. by rewrite level_order_eq. Qed.
Lemma nonroot_path j pl : L !! j = Some pl -> pl_path pl = [] <-> j = O.
Proof.
  intros Hj. split; [|intros ->; rewrite root_lookup in Hj; by injection Hj as <-].
  intros Hp. apply (level_order_path_inj v j 0 pl (root_place v)); [done|apply root_lookup|done].
Qed.
(** A place after the first is a child of another place. *)
Lemma parent_exists j pl : L !! j = Some pl -> j <> O -> exists i parent, L !! i = Some parent /\ pl ∈ kids parent.
Proof.
  intros Hj Hne. rewrite level_order_eq in Hj. destruct j as [|j]; [done|]. cbn in Hj.
  apply list_elem_of_lookup_2, elem_of_concat_map in Hj as (parent & Hp & Hin).
  apply list_elem_of_lookup in Hp as [i Hi]. by exists i, parent.
Qed.
End Order.
End Levels.
Arguments place : clear implicits.
