(* ===== verification/JsonArena.v ===== *)
(** * The arena of a breadth-first schema

    What the arena holds once the first [n] values of the breadth-first order
    have nodes, in closed form, and that attaching the next child leads from
    this form to the next. *)

From S2P Require Import Prelude Order Chars Store Json JsonFacts JsonKeys JsonSchema JsonLevels.
Open Scope Z_scope.
Open Scope run_scope.

Section Arena.
Context {N : Type} (v : json N).
Abbreviation L := (level_order v).
Abbreviation first_child := (first_child v).
Implicit Types pl : place N.

(** The children of a node of which [m] have nodes, from the index [s] on. *)
Definition object_children (members : list (str * json N)) (s m : nat) : list (str * nat) :=
  fold_left (fun children p => btree_insert p.1 p.2 children)
    (imap (fun i member => (member.1, s + i)%nat) (take m members)) [].
Definition node_for (pl : place N) (s m : nat) : SchemaNode :=
  mk_schema_node
    (match pl_value pl with
     | JObject members => SchemaObject (object_children members s m)
     | JArray values => SchemaArray (len values) (seq s (Nat.min m (length values)))
     | w => SchemaScalar (json_type w)
     end) (pl_pointer pl).
Definition arena (n : nat) : list SchemaNode :=
  imap (fun j pl => node_for pl (first_child j) (n - first_child j)) (take n L).

Lemma node_for_new pl s : schema_node (pl_value pl) (pl_pointer pl) = node_for pl s 0.
Proof. unfold schema_node, node_for. by destruct (pl_value pl). Qed.

Lemma node_for_full pl s m : (length (kids pl) <= m)%nat -> node_for pl s m = node_for pl s (length (kids pl)).
Proof.
  unfold kids. rewrite length_imap. unfold node_for. destruct (pl_value pl); cbn [children]; try done;
    rewrite length_map; intros Hm; do 2 f_equal.
  - f_equal. lia.
  - unfold object_children. by rewrite !firstn_all2 by lia.
Qed.

Lemma arena_length n : (n <= length L)%nat -> length (arena n) = n.
Proof. intros Hn. unfold arena. rewrite length_imap, length_take. lia. Qed.
Lemma arena_lookup n j pl : (j < n)%nat -> L !! j = Some pl ->
  arena n !! j = Some (node_for pl (first_child j) (n - first_child j)).
Proof. intros Hj Hl. unfold arena. by rewrite list_lookup_imap, lookup_take_lt, Hl by done. Qed.
Lemma arena_lookup_none n j : (n <= j)%nat -> arena n !! j = None.
Proof. intros Hj. apply lookup_ge_None_2. unfold arena. rewrite length_imap, length_take. lia. Qed.

Lemma arena_start : arena 1 = [schema_node v []].
Proof. unfold arena. rewrite level_order_eq. cbn [take imap]. by rewrite take_0, <-(node_for_new (root_place v)). Qed.

(** The key an object child is attached under. *)
Definition attach_key (seg : segment) : option str :=
  match seg with Key key => Some key | Item => None end.

Lemma kids_lookup (pl : place N) i c : kids pl !! i = Some c ->
  exists seg x, children (pl_value pl) !! i = Some (seg, x) /\ c = kid pl i (seg, x).
Proof.
  unfold kids. rewrite list_lookup_imap. destruct (children (pl_value pl) !! i) as [[seg x]|]; [|done].
  intros [= <-]. by exists seg, x.
Qed.

(** One more child among those attached. *)
Lemma node_for_attach (arena0 : list SchemaNode) k pl s i seg x :
  arena0 !! k = Some (node_for pl s i) -> children (pl_value pl) !! i = Some (seg, x) ->
  attach arena0 k (attach_key seg) (s + i) = Done (<[k := node_for pl s (S i)]> arena0).
Proof.
  intros Hk Hi. unfold attach. rewrite Hk. unfold node_for. cbn [node_kind node_pointer].
  destruct (pl_value pl) as [| | | |values|members]; cbn [children] in Hi; try done;
    rewrite list_lookup_fmap in Hi.
  - destruct (values !! i) as [y|] eqn:Hy; [|done]. injection Hi as <- <-. cbn [attach_key].
    apply lookup_lt_Some in Hy. do 4 f_equal.
    replace (S i `min` length values)%nat with (S i) by lia. replace (i `min` length values)%nat with i by lia.
    by rewrite seq_S.
  - destruct (members !! i) as [[key y]|] eqn:Hy; [|done]. injection Hi as <- <-. cbn [attach_key].
    do 4 f_equal. unfold object_children. rewrite (take_S_r _ _ _ Hy), imap_app, fold_left_app. cbn [imap fold_left fst].
    apply lookup_lt_Some in Hy. rewrite length_take, Nat.add_0_r. by replace (i `min` length members)%nat with i by lia.
Qed.

Lemma attach_child n k pl i c seg x :
  n = (first_child k + i)%nat ->
  L !! k = Some pl -> children (pl_value pl) !! i = Some (seg, x) -> c = kid pl i (seg, x) -> (k < n)%nat ->
  attach (arena n ++ [schema_node (pl_value c) (pl_pointer c)]) k (attach_key seg) n = Done (arena (S n)).
Proof.
  intros Hneq Hk Hi Hc Hkn.
  assert (Hkid : kids pl !! i = Some c) by (unfold kids; rewrite list_lookup_imap, Hi; by subst c).
  assert (Hn : L !! n = Some c) by (rewrite Hneq; by apply (kid_lookup v k pl)).
  assert (Hbound : (n < length L)%nat) by (by eapply lookup_lt_Some).
  assert (Hlen : length (arena n) = n) by (apply arena_length; lia).
  rewrite Hneq at 2. rewrite (node_for_attach _ k pl (first_child k) i seg x); [|..|done].
  2: { rewrite lookup_app_l by (rewrite Hlen; lia). rewrite (arena_lookup _ _ pl) by done.
       by replace (n - first_child k)%nat with i by lia. }
  f_equal. apply list_eq. intros j.
  destruct (Nat.lt_trichotomy j n) as [Hj|[->|Hj]].
  - destruct (lookup_lt_is_Some_2 L j ltac:(lia)) as [plj Hplj].
    rewrite (arena_lookup (S n) j plj) by (lia || done).
    destruct (decide (j = k)) as [->|Hne].
    + rewrite list_lookup_insert_eq by (rewrite length_app, Hlen; cbn; lia).
      assert (plj = pl) as -> by congruence. do 2 f_equal. lia.
    + rewrite list_lookup_insert_ne by done. rewrite lookup_app_l by (rewrite Hlen; lia).
      rewrite (arena_lookup n j plj) by (lia || done). f_equal.
      destruct (Nat.lt_ge_cases j k) as [Hjk|Hjk].
      * pose proof (first_child_mono v (S j) k ltac:(lia)) as Hm.
        rewrite (first_child_S v j plj Hplj) in Hm.
        rewrite (node_for_full plj _ (n - _)), (node_for_full plj _ (S n - _)); [done|lia|lia].
      * pose proof (first_child_mono v (S k) j ltac:(lia)) as Hm.
        rewrite (first_child_S v k pl Hk) in Hm. pose proof (lookup_lt_Some _ _ _ Hkid). f_equal. lia.
  - rewrite list_lookup_insert_ne by lia. rewrite (arena_lookup (S n) n c) by (lia || done).
    rewrite lookup_app_r by (rewrite Hlen; lia). rewrite Hlen.
    pose proof (first_child_mono v (S k) n ltac:(lia)) as Hm.
    rewrite (first_child_S v k pl Hk) in Hm. pose proof (lookup_lt_Some _ _ _ Hkid).
    replace (S n - first_child n)%nat with O by lia. rewrite Nat.sub_diag. cbn [lookup list_lookup].
    by rewrite (node_for_new c (first_child n)).
  - rewrite arena_lookup_none by lia. apply lookup_ge_None_2.
    rewrite length_insert, length_app, Hlen. cbn. lia.
Qed.
End Arena.
