(* ===== verification/JsonBuild.v ===== *)
(** * The breadth-first construction of a schema

    The loop over the queue gives nodes to the first [max_items] values of the
    breadth-first order, and records the children of the root below which a
    value was left without one. *)

From S2P Require Import Prelude Order Chars Store Json JsonFacts JsonKeys JsonSchema JsonLevels JsonArena.
Open Scope Z_scope.
Open Scope run_scope.

(** ** Sets of pointers *)
Lemma elem_of_pointer_insert om p r : r ∈ (pointer_insert om p).*1 <-> r = p \/ r ∈ om.*1.
Proof.
  unfold pointer_insert. induction om as [|[k u] om IH]; cbn [btree_insert fmap list_fmap fst].
  - rewrite list_elem_of_singleton. split; [by left|by intros [|?%elem_of_nil]].
  - destruct (key_lt p k) eqn:E1; [|destruct (key_lt k p) eqn:E2]; cbn [fmap list_fmap fst]; rewrite !elem_of_cons.
    + tauto.
    + change (list_fmap _ _ fst ?l) with (l.*1). rewrite IH. tauto.
    + rewrite (key_lt_total p k) by done. tauto.
Qed.
Lemma elem_of_pointer_inserts {A} (f : A -> str) l om r :
  r ∈ (fold_left (fun om x => pointer_insert om (f x)) l om).*1 <-> (exists x, x ∈ l /\ r = f x) \/ r ∈ om.*1.
Proof.
  revert om. induction l as [|x l IH]; intros om; cbn [fold_left].
  - split; [by right|]. by intros [(x & ?%elem_of_nil & _)|].
  - rewrite IH, elem_of_pointer_insert. split.
    + intros [(y & Hy & ->)|[->|Hr]]; [left; exists y; split; [by right|done]|left; exists x; split; [by left|done]|by right].
    + intros [(y & [->|Hy]%elem_of_cons & ->)|Hr]; [by right; left|left; by exists y|by right; right].
Qed.
Lemma pointer_insert_wf om p : btree_wf om -> btree_wf (pointer_insert om p).
Proof. apply btree_insert_wf. Qed.
Lemma pointer_inserts_wf {A} (f : A -> str) l om : btree_wf om ->
  btree_wf (fold_left (fun om x => pointer_insert om (f x)) l om).
Proof. revert om. induction l as [|x l IH]; intros om Hom; [done|]. by apply IH, pointer_insert_wf. Qed.
Lemma btree_wf_increasing (om : list (str * ())) : btree_wf om -> increasing om.*1.
Proof.
  induction 1 as [|[k u] om _ IH Hk]; cbn; constructor; [done|]. apply Forall_forall.
  intros k' ([k2 u2] & -> & Hin)%list_elem_of_fmap. rewrite Forall_forall in Hk. by apply (Hk _ Hin).
Qed.

Lemma keys_after_at (keys : list str) i key : NoDup keys -> keys !! i = Some key -> keys_after key keys = drop (S i) keys.
Proof.
  revert i. induction keys as [|k keys IH]; intros i Hn Hi; [done|]. apply NoDup_cons in Hn as [Hk Hn].
  destruct i as [|i]; cbn in Hi.
  - injection Hi as ->. cbn [keys_after]. by rewrite bool_decide_eq_true_2.
  - cbn [keys_after drop]. rewrite bool_decide_eq_false_2; [by apply IH|].
    intros ->. apply Hk. by eapply list_elem_of_lookup_2.
Qed.

Lemma leads_wf {N} (w : json N) path x : leads w path x -> json_wf w -> json_wf x.
Proof.
  induction 1 as [w|w seg y path z Hy Hlead IH]; [done|].
  intros Hw. apply IH. destruct w as [| | | |values|members]; cbn [children json_wf] in *;
    try by apply elem_of_nil in Hy.
  - rewrite foldr_Forall, Forall_forall in Hw. apply list_elem_of_fmap in Hy as (x & [= -> ->] & Hx). by apply Hw.
  - destruct Hw as [_ Hw]. rewrite foldr_Forall, Forall_forall in Hw.
    apply list_elem_of_fmap in Hy as (m & [= -> ->] & Hm). by apply (Hw m).
Qed.
Lemma leads_snoc {N} (w : json N) path x seg y : leads w path x -> (seg, y) ∈ children x -> leads w (path ++ [seg]) y.
Proof.
  intros Hlead Hy. induction Hlead as [w|w seg' z path x Hz Hlead IH]; cbn [app].
  - econstructor; [exact Hy|constructor].
  - econstructor; [exact Hz|by apply IH].
Qed.

Section Build.
Context {N : Type} (v : json N) (Hwf : json_wf v).
Abbreviation L := (level_order v).
Abbreviation first_child := (first_child v).
Abbreviation arena := (arena v).
Implicit Types pl : place N.

Lemma has_children_kids pl : schema_node_has_children (pl_value pl) = negb (length (kids pl) =? 0)%nat.
Proof. unfold kids. rewrite length_imap. destruct (pl_value pl); cbn; by rewrite ?length_map. Qed.

(** The values whose children are still to be visited. *)
Definition queue_entry_of (j : nat) : list (json N * nat * str) :=
  match L !! j with
  | Some pl =>
    if (j =? 0)%nat || schema_node_has_children (pl_value pl) then [(pl_value pl, j, pl_root pl)] else []
  | None => []
  end.
Definition queue_from (k n : nat) : list (json N * nat * str) := concat (map queue_entry_of (seq k (n - k))).

Lemma queue_from_cons k n : (k < n)%nat -> queue_from k n = queue_entry_of k ++ queue_from (S k) n.
Proof. intros Hk. unfold queue_from. replace (n - k)%nat with (S (n - S k)) by lia. done. Qed.
Lemma queue_from_snoc k n : (k <= n)%nat -> queue_from k (S n) = queue_from k n ++ queue_entry_of n.
Proof.
  intros Hk. unfold queue_from. replace (S n - k)%nat with (S (n - k)) by lia.
  rewrite seq_S, map_app, concat_app. cbn. rewrite app_nil_r. by replace (k + (n - k))%nat with n by lia.
Qed.

Lemma elem_of_queue_from k n value j r : (value, j, r) ∈ queue_from k n <->
  exists pl, L !! j = Some pl /\ (k <= j < n)%nat /\ value = pl_value pl /\ r = pl_root pl
    /\ ((j =? 0)%nat || schema_node_has_children (pl_value pl)) = true.
Proof.
  unfold queue_from. rewrite elem_of_concat_map. split.
  - intros (j' & Hj' & Hin). apply elem_of_seq in Hj'. unfold queue_entry_of in Hin.
    destruct (L !! j') as [pl|] eqn:Hpl; [|by apply elem_of_nil in Hin].
    destruct (_ || _) eqn:Hc; [|by apply elem_of_nil in Hin].
    apply list_elem_of_singleton in Hin as [= -> -> ->]. exists pl. split_and!; [done|lia|lia|done|done|done].
  - intros (pl & Hpl & Hj & -> & -> & Hc). exists j. rewrite elem_of_seq. split; [lia|].
    unfold queue_entry_of. rewrite Hpl, Hc. by left.
Qed.

(** The head of the queue is the next value with children. *)
Lemma queue_from_cases k n : (k <= n)%nat -> (n <= length L)%nat ->
  (queue_from k n = [] /\ first_child n = first_child k)
  \/ exists j pl, (k <= j < n)%nat /\ L !! j = Some pl /\ first_child j = first_child k
       /\ queue_from k n = (pl_value pl, j, pl_root pl) :: queue_from (S j) n.
Proof.
  intros Hk Hn. remember (n - k)%nat as d eqn:Hd. revert k Hk Hd. induction d as [|d IH]; intros k Hk Hd.
  { left. replace n with k by lia. split; [|done]. unfold queue_from. by rewrite Nat.sub_diag. }
  destruct (lookup_lt_is_Some_2 L k ltac:(lia)) as [pl Hpl]. rewrite queue_from_cons by lia.
  unfold queue_entry_of. rewrite Hpl. destruct (_ || _) eqn:Hc.
  - right. exists k, pl. by split_and!; [lia|lia|..].
  - apply orb_false_iff in Hc as [_ Hc]. rewrite has_children_kids in Hc.
    apply negb_false_iff, Nat.eqb_eq in Hc. pose proof (first_child_S v k pl Hpl) as Hfc. rewrite Hc, Nat.add_0_r in Hfc.
    cbn [app]. destruct (IH (S k) ltac:(lia) ltac:(lia)) as [[-> Hf]|(j & pl' & Hj & Hpl' & Hf & Hq)].
    + left. split; [done|congruence].
    + right. exists j, pl'. split_and!; [lia|lia|done|congruence|done].
Qed.

(** ** One child *)
Lemma kid_root k pl i seg x : L !! k = Some pl ->
  pl_root (kid pl i (seg, x)) = if (k =? 0)%nat then pl_pointer (kid pl i (seg, x)) else pl_root pl.
Proof.
  intros Hk. pose proof (nonroot_path v k pl Hk) as Hr. unfold kid. cbn [pl_root pl_pointer].
  destruct (Nat.eqb_spec k 0) as [->|Hne].
  - by rewrite (proj2 Hr eq_refl).
  - destruct (pl_path pl); [|done]. by destruct (Hne (proj1 Hr eq_refl)).
Qed.

Lemma push_child_step n k pl i seg x om :
  n = (first_child k + i)%nat -> L !! k = Some pl -> children (pl_value pl) !! i = Some (seg, x) -> (k < n)%nat ->
  let c := kid pl i (seg, x) in
  push_child (mk_building (arena n) (queue_from (S k) n) om) k (attach_key seg) x (pl_pointer c) (pl_root c)
  = Done (mk_building (arena (S n)) (queue_from (S k) (S n)) om).
Proof.
  intros Hn Hk Hi Hkn c. unfold push_child. cbn [nodes queue omitted].
  assert (Hkid : kids pl !! i = Some c) by (unfold kids; by rewrite list_lookup_imap, Hi).
  assert (Hc : L !! n = Some c) by (rewrite Hn; by apply (kid_lookup v k pl)).
  pose proof (lookup_lt_Some _ _ _ Hc).
  rewrite arena_length by lia. change x with (pl_value c) at 1.
  rewrite (attach_child v n k pl i c seg x) by done. cbn [run_bind]. f_equal. f_equal.
  rewrite queue_from_snoc by lia. unfold queue_entry_of. rewrite Hc.
  destruct (Nat.eqb_spec n 0) as [Hz|_]; [lia|]. cbn [orb]. change (pl_value c) with x.
  destruct (schema_node_has_children x); [done|by rewrite app_nil_r].
Qed.

(** ** The children of one value *)

(** What the loops over the children of the place [k] leave behind. *)
Definition visited (max : nat) (k : nat) (pl : place N) (out : bool * Building) : Prop :=
  if (first_child (S k) <=? max)%nat
  then out = (false, mk_building (arena (first_child (S k))) (queue_from (S k) (first_child (S k))) [])
  else exists om, out = (true, mk_building (arena max) (queue_from (S k) max) om) /\ btree_wf om
    /\ forall r, r ∈ om.*1 <->
         (exists j c, (max <= first_child k + j)%nat /\ kids pl !! j = Some c /\ r = pl_root c)
         \/ (exists j q, (k < j < max)%nat /\ L !! j = Some q /\ schema_node_has_children (pl_value q) = true
              /\ r = pl_root q).

Lemma elem_of_frontier k n om r :
  r ∈ (schema_frontier (queue_from (S k) n) om).*1 <->
  (exists j q, (k < j < n)%nat /\ L !! j = Some q /\ schema_node_has_children (pl_value q) = true /\ r = pl_root q)
  \/ r ∈ om.*1.
Proof.
  unfold schema_frontier.
  assert (Hgen : forall (l : list (json N * nat * str)) om,
    r ∈ (fold_left (fun omitted '(value, _, omission_root) =>
          if schema_node_has_children value then pointer_insert omitted omission_root else omitted) l om).*1
    <-> (exists value j, (value, j, r) ∈ l /\ schema_node_has_children value = true) \/ r ∈ om.*1).
  { clear. induction l as [|[[value j] root] l IH]; intros om; cbn [fold_left].
    - split; [by right|]. by intros [(? & ? & ?%elem_of_nil & _)|].
    - rewrite IH. split.
      + intros [(w & i & Hin & Hc)|Hr]; [left; exists w, i; split; [by right|done]|].
        destruct (schema_node_has_children value) eqn:Hc; [|by right].
        apply elem_of_pointer_insert in Hr as [->|Hr]; [left; exists value, j; split; [by left|done]|by right].
      + intros [(w & i & [[= -> -> ->]|Hin]%elem_of_cons & Hc)|Hr].
        * right. rewrite Hc. apply elem_of_pointer_insert. by left.
        * left. by exists w, i.
        * right. destruct (schema_node_has_children value); [apply elem_of_pointer_insert; by right|done]. }
  rewrite Hgen. split; (intros [Hx|Hr]; [left|by right]).
  - destruct Hx as (value & j & (q & Hq & Hj & -> & -> & _)%elem_of_queue_from & Hc).
    exists j, q. split_and!; [lia|lia|done..].
  - destruct Hx as (j & q & Hj & Hq & Hc & ->). exists (pl_value q), j. split; [|done].
    apply elem_of_queue_from. exists q. rewrite Hc, orb_true_r. split_and!; [done|lia|lia|done..].
Qed.
Lemma frontier_wf (l : list (json N * nat * str)) om : btree_wf om -> btree_wf (schema_frontier l om).
Proof.
  unfold schema_frontier. revert om. induction l as [|[[value j] root] l IH]; intros om Hom; [done|].
  cbn [fold_left]. apply IH. destruct (schema_node_has_children value); [by apply pointer_insert_wf|done].
Qed.
(** Every child that got no node leaves its root behind, and the frontier the rest. *)
Lemma visited_broken max k pl i om :
  L !! k = Some pl -> (max = first_child k + i)%nat -> (i < length (kids pl))%nat -> btree_wf om ->
  (forall r, r ∈ om.*1 <-> exists j c, (i <= j)%nat /\ kids pl !! j = Some c /\ r = pl_root c) ->
  visited max k pl (true, mk_building (arena max) (queue_from (S k) max)
                            (schema_frontier (queue_from (S k) max) om)).
Proof.
  intros Hk Hmax Hi Hom Hr. unfold visited. rewrite (first_child_S v k pl Hk).
  destruct (Nat.leb_spec (first_child k + length (kids pl)) max) as [Hle|_]; [lia|].
  eexists. split; [done|]. split; [by apply frontier_wf|]. intros r. rewrite elem_of_frontier, Hr. split.
  - intros [Hq|(j & c & Hj & Hc & ->)]; [by right|]. left. exists j, c. split_and!; [lia|done|done].
  - intros [(j & c & Hj & Hc & ->)|Hq]; [|by left]. right. exists j, c. split_and!; [lia|done|done].
Qed.

Lemma arena_pointer n k pl : L !! k = Some pl -> (k < n)%nat ->
  exists node, arena n !! k = Some node /\ node_pointer node = pl_pointer pl.
Proof. intros Hk Hn. eexists. by split; [by apply arena_lookup|]. Qed.

Lemma object_loop_spec max k pl members i :
  L !! k = Some pl -> pl_value pl = JObject members -> NoDup members.*1 ->
  (i <= length members)%nat -> (k < first_child k + i <= max)%nat ->
  let n := (first_child k + i)%nat in
  exists out, object_loop (Z.of_nat max) members k (pl_root pl) (drop i members)
                (mk_building (arena n) (queue_from (S k) n) []) = Done out
    /\ visited max k pl out.
Proof.
  intros Hk Hv Hnodup Hi Hbound. cbv zeta.
  assert (Hkids : length (kids pl) = length members) by (unfold kids; rewrite length_imap, Hv; cbn; by rewrite length_map).
  remember (length members - i)%nat as d eqn:Hd. revert i Hd Hi Hbound.
  induction d as [|d IH]; intros i Hd Hi Hbound.
  { rewrite skipn_all2 by lia. eexists. split; [done|]. unfold visited.
    rewrite (first_child_S v k pl Hk), Hkids. replace (length members) with i by lia.
    by rewrite (proj2 (Nat.leb_le _ _)) by lia. }
  destruct (lookup_lt_is_Some_2 members i ltac:(lia)) as [[key x] Hx].
  rewrite (drop_S _ _ _ Hx). cbn [object_loop nodes queue omitted].
  assert (Hc : children (pl_value pl) !! i = Some (Key key, x)) by (rewrite Hv; cbn; by rewrite list_lookup_fmap, Hx).
  remember (first_child k + i)%nat as n eqn:Hn.
  destruct (arena_pointer n k pl Hk ltac:(lia)) as (node & Hnode & Hp). rewrite Hnode, Hp.
  pose proof (kid_root k pl i (Key key) x Hk) as Hroot.
  change (key_pointer (pl_pointer pl) key) with (pl_pointer (kid pl i (Key key, x))). rewrite <-Hroot.
  assert (Hnl : (n < length L)%nat) by (rewrite Hn; eapply lookup_lt_Some, (kid_lookup v k pl i); [done|]; unfold kids; by rewrite list_lookup_imap, Hc).
  assert (Hlen : len (arena n) = Z.of_nat n) by (unfold len; rewrite arena_length by lia; done). rewrite Hlen.
  destruct (Z.leb_spec (Z.of_nat max) (Z.of_nat n)) as [Hfull|Hroom].
  - assert (max = n) as -> by lia. eexists. split; [done|].
    apply (visited_broken n k pl i); [done|lia|lia|..].
    + apply pointer_inserts_wf, pointer_insert_wf. constructor.
    + intros r. rewrite elem_of_pointer_inserts, elem_of_pointer_insert.
      rewrite (keys_after_at members.*1 i key) by (done || by rewrite list_lookup_fmap, Hx).
      assert (Hkid : forall j key' y, members !! j = Some (key', y) ->
        kids pl !! j = Some (kid pl j (Key key', y))
        /\ pl_root (kid pl j (Key key', y)) = if (k =? 0)%nat then key_pointer (pl_pointer pl) key' else pl_root pl).
      { intros j key' y Hj. split; [|by apply kid_root]. unfold kids.
        by rewrite list_lookup_imap, Hv; cbn; rewrite list_lookup_fmap, Hj. }
      split.
      * intros [(key' & Hin & ->)|[->|Hin]]; [| |by apply elem_of_nil in Hin].
        -- apply list_elem_of_lookup in Hin as [j Hj]. rewrite lookup_drop, list_lookup_fmap in Hj.
           destruct (members !! (S i + j)%nat) as [[k' y]|] eqn:Hy; [|done]. injection Hj as ->.
           destruct (Hkid _ _ _ Hy) as [Hkj Hrj]. eexists _, _. split; [|split; [exact Hkj|by rewrite Hrj]]. lia.
        -- destruct (Hkid _ _ _ Hx) as [Hkj _]. eexists _, _. by split; [|split; [exact Hkj|]].
      * intros (j & c & Hj & Hcj & ->).
        destruct (lookup_lt_is_Some_2 members j) as [[key' y] Hy]; [apply lookup_lt_Some in Hcj; lia|].
        destruct (Hkid _ _ _ Hy) as [Hkj Hrj]. rewrite Hkj in Hcj. injection Hcj as <-.
        destruct (decide (j = i)) as [->|Hne].
        -- right. left. congruence.
        -- left. exists key'. split; [|by rewrite Hrj]. apply list_elem_of_lookup. exists (j - S i)%nat.
           rewrite lookup_drop. replace (S i + (j - S i))%nat with j by lia. by rewrite list_lookup_fmap, Hy.
  - change (Some key) with (attach_key (Key key)).
    rewrite (push_child_step n k pl i (Key key) x []) by (done || lia). cbn [run_bind].
    replace (S n) with (first_child k + S i)%nat by lia.
    apply IH; lia.
Qed.

Lemma array_loop_spec max k pl values i :
  L !! k = Some pl -> pl_value pl = JArray values ->
  (i <= length values)%nat -> (k < first_child k + i <= max)%nat ->
  let n := (first_child k + i)%nat in
  let pointer := item_pointer (pl_pointer pl) in
  exists out, array_loop (Z.of_nat max) k pointer (if (k =? 0)%nat then pointer else pl_root pl) (drop i values)
                (mk_building (arena n) (queue_from (S k) n) []) = Done out
    /\ visited max k pl out.
Proof.
  intros Hk Hv Hi Hbound. cbv zeta.
  assert (Hkids : length (kids pl) = length values) by (unfold kids; rewrite length_imap, Hv; cbn; by rewrite length_map).
  remember (length values - i)%nat as d eqn:Hd. revert i Hd Hi Hbound.
  induction d as [|d IH]; intros i Hd Hi Hbound.
  { rewrite skipn_all2 by lia. eexists. split; [done|]. unfold visited.
    rewrite (first_child_S v k pl Hk), Hkids. replace (length values) with i by lia.
    by rewrite (proj2 (Nat.leb_le _ _)) by lia. }
  destruct (lookup_lt_is_Some_2 values i ltac:(lia)) as [x Hx].
  rewrite (drop_S _ _ _ Hx). cbn [array_loop nodes queue omitted].
  assert (Hkid : forall j y, values !! j = Some y -> kids pl !! j = Some (kid pl j (Item, y))
    /\ pl_root (kid pl j (Item, y)) = if (k =? 0)%nat then item_pointer (pl_pointer pl) else pl_root pl).
  { intros j y Hj. split; [|by apply kid_root]. unfold kids.
    by rewrite list_lookup_imap, Hv; cbn; rewrite list_lookup_fmap, Hj. }
  destruct (Hkid i x Hx) as [Hki Hroot]. rewrite <-Hroot.
  assert (Hc : children (pl_value pl) !! i = Some (Item, x)) by (rewrite Hv; cbn; by rewrite list_lookup_fmap, Hx).
  remember (first_child k + i)%nat as n eqn:Hn.
  assert (Hnl : (n < length L)%nat) by (rewrite Hn; by eapply lookup_lt_Some, (kid_lookup v k pl i)).
  assert (Hlen : len (arena n) = Z.of_nat n) by (unfold len; rewrite arena_length by lia; done). rewrite Hlen.
  destruct (Z.leb_spec (Z.of_nat max) (Z.of_nat n)) as [Hfull|Hroom].
  - assert (max = n) as -> by lia. eexists. split; [done|].
    apply (visited_broken n k pl i); [done|lia|lia|apply pointer_insert_wf; constructor|].
    intros r. rewrite elem_of_pointer_insert. split.
    + intros [->|Hin]; [|by apply elem_of_nil in Hin]. exists i, (kid pl i (Item, x)). by split_and!.
    + intros (j & c & Hj & Hcj & ->). left.
      destruct (lookup_lt_is_Some_2 values j) as [y Hy]; [apply lookup_lt_Some in Hcj; lia|].
      destruct (Hkid j y Hy) as [Hkj Hrj]. rewrite Hkj in Hcj. injection Hcj as <-. congruence.
  - change None with (attach_key Item). change (item_pointer (pl_pointer pl)) with (pl_pointer (kid pl i (Item, x))).
    rewrite (push_child_step n k pl i Item x []) by (done || lia). cbn [run_bind].
    replace (S n) with (first_child k + S i)%nat by lia.
    destruct (IH (S i)) as (out & Hout & Hvis); [lia..|]. exists out. split; [|done]. rewrite <-Hout. by rewrite Hroot.
Qed.
(** ** The whole construction *)

(** The roots of the values without a node. *)
Definition omitted_roots (max : nat) : list str := sort_dedup (map pl_root (drop max L)).

Definition built (max : nat) (b : Building (N := N)) : Prop :=
  nodes b = arena (Nat.min max (length L)) /\ (omitted b).*1 = omitted_roots max.

Lemma kid_parent_root j pl c : L !! j = Some pl -> j <> O -> c ∈ kids pl -> pl_root c = pl_root pl.
Proof.
  intros Hj Hne Hc. apply list_elem_of_lookup in Hc as [i Hi]. apply kids_lookup in Hi as (seg & x & _ & ->).
  rewrite (kid_root j pl i seg x Hj). by rewrite (proj2 (Nat.eqb_neq _ _) Hne).
Qed.

Lemma visited_roots max k pl (om : list (str * ())) :
  L !! k = Some pl -> (k < max)%nat -> (first_child k <= max < first_child (S k))%nat -> btree_wf om ->
  (forall r, r ∈ om.*1 <->
     (exists j c, (max <= first_child k + j)%nat /\ kids pl !! j = Some c /\ r = pl_root c)
     \/ (exists j q, (k < j < max)%nat /\ L !! j = Some q /\ schema_node_has_children (pl_value q) = true
          /\ r = pl_root q)) ->
  om.*1 = omitted_roots max.
Proof.
  intros Hk Hkm Hmax Hom Hr. apply increasing_unique; [by apply btree_wf_increasing|apply sort_dedup_increasing|].
  assert (Hunkept : forall a q, (max <= a)%nat -> L !! a = Some q -> q ∈ drop max L).
  { intros a q Ha Hq. apply list_elem_of_lookup. exists (a - max)%nat. rewrite lookup_drop.
    by replace (max + (a - max))%nat with a by lia. }
  intros r. unfold omitted_roots. rewrite Hr, elem_of_sort_dedup, list_elem_of_fmap. split.
  - intros [(j & c & Hj & Hc & ->)|(j & q & Hj & Hq & Hchildren & ->)].
    + exists c. split; [done|]. eapply Hunkept; [exact Hj|]. by apply (kid_lookup v k pl).
    + rewrite has_children_kids in Hchildren. apply negb_true_iff, Nat.eqb_neq in Hchildren.
      destruct (lookup_lt_is_Some_2 (kids q) 0 ltac:(lia)) as [c Hc]. exists c. split.
      * symmetry. eapply kid_parent_root; [exact Hq|lia|by eapply list_elem_of_lookup_2].
      * apply (Hunkept (first_child j + 0)%nat); [|by apply (kid_lookup v j q)].
        pose proof (first_child_mono v (S k) j ltac:(lia)). lia.
  - intros (q & -> & Hq). apply list_elem_of_lookup in Hq as [a Ha]. rewrite lookup_drop in Ha.
    assert (exists depth, length (pl_path q) = depth) as [depth Hdepth] by by eexists.
    revert q a Ha Hdepth. induction depth as [depth IH] using lt_wf_ind. intros q a Ha Hdepth.
    destruct (parent_exists v _ q Ha ltac:(lia)) as (p & parent & Hp & Hq).
    pose proof Hq as (i & Hi)%list_elem_of_lookup.
    pose proof (kid_lookup v p parent i q Hp Hi) as Hat.
    assert (max + a = first_child p + i)%nat as Hidx by by eapply level_order_path_inj.
    pose proof (lookup_lt_Some _ _ _ Hi) as Hil.
    pose proof (first_child_S v p parent Hp) as HSp.
    destruct (Nat.lt_trichotomy p k) as [Hpk|[->|Hpk]].
    + pose proof (first_child_mono v (S p) k ltac:(lia)). lia.
    + assert (parent = pl) as -> by congruence. left. exists i, q. by split_and!; [lia|..].
    + rewrite (kid_parent_root p parent q Hp ltac:(lia) Hq).
      destruct (Nat.lt_ge_cases p max) as [Hpm|Hpm].
      * right. exists p, parent. split_and!; [lia|lia|done| |done]. rewrite has_children_kids.
        apply negb_true_iff, Nat.eqb_neq. lia.
      * destruct (kids_path _ _ Hq) as [i' Hpath].
        apply (IH (length (pl_path parent))) with (a := (p - max)%nat); [| |done].
        -- rewrite <-Hdepth, Hpath, length_app. cbn. lia.
        -- by replace (max + (p - max))%nat with p by lia.
Qed.

Lemma places_leads pl : pl ∈ L -> exists path, leads v path (pl_value pl).
Proof.
  intros Hpl. apply list_elem_of_lookup in Hpl as [j Hj].
  assert (exists depth, length (pl_path pl) = depth) as [depth Hdepth] by by eexists.
  revert pl j Hj Hdepth. induction depth as [depth IH] using lt_wf_ind. intros pl j Hj Hdepth.
  destruct (decide (j = O)) as [->|Hne].
  { rewrite root_lookup in Hj. injection Hj as <-. exists []. constructor. }
  destruct (parent_exists v j pl Hj Hne) as (p & parent & Hp & Hin).
  destruct (kids_path _ _ Hin) as [i' Hpath].
  destruct (IH (length (pl_path parent))) with (pl := parent) (j := p) as [path Hlead]; [|done|done|].
  { rewrite <-Hdepth, Hpath, length_app. cbn. lia. }
  apply list_elem_of_lookup in Hin as [i Hi]. apply kids_lookup in Hi as (seg & x & Hx & ->).
  exists (path ++ [seg]). apply (leads_snoc _ _ _ _ _ Hlead). by eapply list_elem_of_lookup_2.
Qed.

Lemma place_wf pl : pl ∈ L -> json_wf (pl_value pl).
Proof. intros (path & Hlead)%places_leads. by apply (leads_wf v path). Qed.

Lemma omitted_roots_none max : (length L <= max)%nat -> omitted_roots max = [].
Proof. intros Hl. unfold omitted_roots. by rewrite skipn_all2. Qed.

Lemma build_loop_spec fuel max k :
  let n := first_child k in
  (k <= n)%nat -> (n <= max)%nat -> (n <= length L)%nat -> (length L - k <= fuel)%nat ->
  exists b, build_loop fuel (Z.of_nat max) (mk_building (arena n) (queue_from k n) []) = Done b /\ built max b.
Proof.
  revert k. induction fuel as [|fuel IH]; intros k; cbv zeta; intros Hk Hmax Hn Hfuel;
    (destruct (queue_from_cases k (first_child k)) as [[Hq Hf]|(j & pl & Hj & Hpl & Hf & Hq)]; [done|done|..]).
  1, 3: assert (Hall : first_child k = length L) by (by apply level_order_closed);
    rewrite Hq; eexists; (split; [done|]); unfold built; cbn [nodes omitted];
    rewrite Nat.min_r by lia; rewrite <-Hall; (split; [done|]); rewrite omitted_roots_none by lia; done.
  - pose proof (lookup_lt_Some _ _ _ Hpl). lia.
  - cbn [build_loop queue nodes omitted]. rewrite Hq. cbn [queue nodes omitted].
    assert (Hjn : (j < first_child j <= max)%nat) by lia.
    pose proof (place_wf pl ltac:(by eapply list_elem_of_lookup_2)) as Hwfp.
    rewrite <-Hf.
    assert (Hvisit : exists out, (match pl_value pl with
        | JObject values => object_loop (Z.of_nat max) values j (pl_root pl) values
                              (mk_building (arena (first_child j)) (queue_from (S j) (first_child j)) [])
        | JArray values =>
          match arena (first_child j) !! j with
          | None => Panic
          | Some node =>
            array_loop (Z.of_nat max) j (item_pointer (node_pointer node))
              (if (j =? 0)%nat then item_pointer (node_pointer node) else pl_root pl) values
              (mk_building (arena (first_child j)) (queue_from (S j) (first_child j)) [])
          end
        | _ => Done (false, mk_building (arena (first_child j)) (queue_from (S j) (first_child j)) [])
        end) = Done out /\ visited max j pl out).
    { assert (Hleaf : kids pl = [] -> visited max j pl
        (false, mk_building (arena (first_child j)) (queue_from (S j) (first_child j)) [])).
      { intros Hk0. unfold visited. rewrite (first_child_S v j pl Hpl), Hk0, Nat.add_0_r.
        by rewrite (proj2 (Nat.leb_le _ _)) by lia. }
      destruct (pl_value pl) as [| | | |values|members] eqn:Hv;
        try (eexists; split; [done|]; apply Hleaf; unfold kids; by rewrite Hv).
      - destruct (arena_pointer (first_child j) j pl Hpl ltac:(lia)) as (node & -> & ->).
        pose proof (array_loop_spec max j pl values 0 Hpl Hv ltac:(lia) ltac:(lia)) as Ha. cbv zeta in Ha.
        by rewrite Nat.add_0_r, drop_0 in Ha.
      - cbn [json_wf] in Hwfp. pose proof (object_loop_spec max j pl members 0 Hpl Hv (proj1 Hwfp) ltac:(lia) ltac:(lia)) as Ho.
        cbv zeta in Ho. by rewrite Nat.add_0_r, drop_0 in Ho. }
    destruct Hvisit as (out & -> & Hvis). cbn [run_bind]. unfold visited in Hvis.
    assert (Hroom : (first_child (S j) <= length L)%nat).
    { unfold first_child. pose proof (level_order_eq v) as He. apply (f_equal length) in He. cbn [length] in He. rewrite He.
      rewrite <-(take_drop (S j) L) at 2. rewrite next_level_app, length_app. lia. }
    destruct (Nat.leb_spec (first_child (S j)) max) as [Hfit|Hfull].
    + subst out. pose proof (first_child_S v j pl Hpl). apply IH; [lia|done|done|].
      pose proof (lookup_lt_Some _ _ _ Hpl). lia.
    + destruct Hvis as (om & -> & Hom & Hr). eexists. split; [done|]. split; cbn [nodes omitted].
      * by rewrite Nat.min_l by lia.
      * apply (visited_roots max j pl om); [done|lia|lia|done|done].
Qed.

Lemma build_spec max : (0 < max)%nat ->
  exists b, build_loop (Z.to_nat (json_size v)) (Z.of_nat max)
              (mk_building [schema_node v []] [(v, O, [])] []) = Done b
    /\ built max b.
Proof.
  intros Hmax. pose proof (level_order_length v) as Hl. pose proof (json_size_pos v).
  pose proof (build_loop_spec (Z.to_nat (json_size v)) max 0) as Hb. cbv zeta in Hb.
  change (first_child 0) with 1%nat in Hb. rewrite arena_start in Hb.
  assert (Hq : queue_from 0 1 = [(v, O, [])]) by (unfold queue_from, queue_entry_of; cbn; by rewrite root_lookup).
  rewrite Hq in Hb. apply Hb; unfold len in Hl; lia.
Qed.
End Build.
