(* ===== verification/JsonSchemaCorrect.v ===== *)
(** * Breadth-first schemas are the schemas of the first values

    A schema of at most [max_items] nodes is the recursive schema of the value
    restricted to its first [max_items] values in breadth-first order, with the
    roots of everything else named; and the page of a schema fits its budget. *)

From S2P Require Import Prelude Order Chars Store Json JsonFacts JsonKeys JsonSchema JsonLevels JsonArena JsonBuild.
Open Scope Z_scope.
Open Scope run_scope.

(** ** Helpers *)
Lemma run_map_done {A B} (f : A -> run B) (g : A -> B) l :
  (forall x, x ∈ l -> f x = Done (g x)) -> run_map f l = Done (map g l).
Proof.
  induction l as [|x l IH]; intros Hf; cbn [run_map map]; [done|]. rewrite Hf by by left. cbn [run_bind].
  rewrite IH; [done|]. intros y Hy. apply Hf. by right.
Qed.

Lemma btree_insert_map {V W} (f : V -> W) (k : str) (x : V) (m : list (str * V)) :
  map (fun b => (b.1, f b.2)) (btree_insert k x m) = btree_insert k (f x) (map (fun b => (b.1, f b.2)) m).
Proof.
  induction m as [|[k' y] m IH]; cbn [map btree_insert fst snd]; [done|].
  destruct (key_lt k k'); [done|]. destruct (key_lt k' k); cbn [map fst snd]; [by rewrite IH|done].
Qed.
Definition btree_of {V} (l : list (str * V)) : list (str * V) :=
  fold_left (fun m b => btree_insert b.1 b.2 m) l [].
Lemma btree_of_map {V W} (f : V -> W) (l : list (str * V)) :
  map (fun b => (b.1, f b.2)) (btree_of l) = btree_of (map (fun b => (b.1, f b.2)) l).
Proof.
  unfold btree_of.
  enough (forall m, map (fun b => (b.1, f b.2)) (fold_left (fun m b => btree_insert b.1 b.2 m) l m)
    = fold_left (fun m b => btree_insert b.1 b.2 m) (map (fun b => (b.1, f b.2)) l) (map (fun b => (b.1, f b.2)) m))
    as Hg by apply (Hg []).
  induction l as [|[k x] l IH]; intros m; cbn [fold_left map fst snd]; [done|]. by rewrite IH, btree_insert_map.
Qed.
Lemma btree_of_wf {V} (l : list (str * V)) : btree_wf (btree_of l).
Proof.
  unfold btree_of. assert (Hm : btree_wf (@nil (str * V))) by constructor. revert Hm. generalize (@nil (str * V)).
  induction l as [|b l IH]; intros m Hm; [done|]. by apply IH, btree_insert_wf.
Qed.
Lemma elem_of_btree_of {V} (l : list (str * V)) b : b ∈ btree_of l -> b ∈ l.
Proof.
  unfold btree_of. enough (forall m, b ∈ fold_left (fun m b => btree_insert b.1 b.2 m) l m -> b ∈ l \/ b ∈ m) as Hg
    by (intros [|?%elem_of_nil]%Hg; done).
  induction l as [|[k x] l IH]; intros m; cbn [fold_left]; [by right|].
  intros [Hb|Hb]%IH; [left; by right|]. destruct b as [k' y].
  apply elem_of_btree_insert in Hb as [[= -> ->]|Hb]; [left; by left|by right].
Qed.

Lemma map_inserts_fresh {N} (l m : list (str * json N)) : NoDup (m.*1 ++ l.*1) ->
  fold_left (fun m p => map_insert m p.1 p.2) l m = m ++ l.
Proof.
  revert m. induction l as [|[k x] l IH]; intros m Hn; cbn [fold_left fst snd]; [by rewrite app_nil_r|].
  cbn in Hn. rewrite map_insert_fresh.
  - rewrite IH; [by rewrite <-app_assoc|]. rewrite fmap_app, <-app_assoc. done.
  - intros Hin. apply NoDup_app in Hn as (_ & Hdis & _). apply (Hdis k Hin). by left.
Qed.

(** ** The schema of the values at some paths *)
Section SchemaOf.
Context {N : Type}.
Variable from_usize : Z -> N.
Variable to_string : json N -> string.

(** The elements whose paths are kept, numbered from [i]. *)
Definition kept_items {A B} (kept : list (list nat)) (path : list nat) (f : list nat -> A -> B) :=
  fix go (i : nat) (l : list A) : list B :=
    match l with
    | [] => []
    | x :: l => if bool_decide (path ++ [i] ∈ kept) then f (path ++ [i]) x :: go (S i) l else go (S i) l
    end.

Fixpoint schema_of (kept : list (list nat)) (path : list nat) (value : json N) : json N :=
  match value with
  | JObject members =>
    let properties := btree_of (kept_items kept path (fun p m => (m.1, schema_of kept p m.2)) 0 members) in
    JObject [type_entry "object"; (lit "properties", JObject properties)]
  | JArray values =>
    let schemas := kept_items kept path (schema_of kept) 0 values in
    let unique := fold_left (fun unique schema => btree_or_insert (to_string schema) schema unique) schemas [] in
    JObject [type_entry "array"; (lit "count", JNumber (from_usize (len values))); (lit "items", schema_items unique)]
  | value => JObject [type_entry (json_type value)]
  end.

Lemma kept_items_take {A B} kept path (f : list nat -> A -> B) l i m :
  (forall j, (j < length l)%nat -> path ++ [(i + j)%nat] ∈ kept <-> (j < m)%nat) ->
  kept_items kept path f i l = imap (fun j x => f (path ++ [(i + j)%nat]) x) (take m l).
Proof.
  revert i m. induction l as [|x l IH]; intros i m Hk; cbn [kept_items]; [by rewrite take_nil|].
  pose proof (Hk O ltac:(cbn; lia)) as H0. rewrite Nat.add_0_r in H0.
  destruct m as [|m].
  - rewrite bool_decide_eq_false_2 by (rewrite H0; lia).
    rewrite (IH (S i) O); [by rewrite take_0|]. intros j Hj.
    replace (S i + j)%nat with (i + S j)%nat by lia. rewrite Hk by (cbn; lia). lia.
  - rewrite bool_decide_eq_true_2 by (rewrite H0; lia). cbn [take imap]. rewrite Nat.add_0_r. f_equal.
    rewrite (IH (S i) m).
    + apply imap_ext. intros j y _. unfold compose. by replace (i + S j)%nat with (S i + j)%nat by lia.
    + intros j Hj. replace (S i + j)%nat with (i + S j)%nat by lia. rewrite Hk by (cbn; lia). lia.
Qed.

Section Render.
Context (v : json N).
Abbreviation L := (level_order v).
Abbreviation first_child := (first_child v).

Lemma first_child_after j : (j < length L)%nat -> (j < first_child j)%nat.
Proof.
  induction j as [j IH] using lt_wf_ind. intros Hj. destruct (Nat.lt_ge_cases j (first_child j)) as [|Hge]; [done|].
  exfalso. destruct (decide (first_child j = j)) as [Heq|Hne].
  - apply level_order_closed in Heq; lia.
  - pose proof (IH (first_child j) ltac:(lia) ltac:(lia)) as Hf.
    pose proof (first_child_mono v (first_child j) j ltac:(lia)). lia.
Qed.

Context (n : nat) (Hn : (n <= length L)%nat).
Definition kept_paths : list (list nat) := map pl_path (take n L).

Lemma elem_of_kept j pl : L !! j = Some pl -> pl_path pl ∈ kept_paths <-> (j < n)%nat.
Proof.
  intros Hj. unfold kept_paths. rewrite list_elem_of_fmap. split.
  - intros (q & Hp & Hq). apply list_elem_of_lookup in Hq as [i Hi].
    apply lookup_take_Some in Hi as [Hi Hin].
    rewrite (level_order_path_inj v j i pl q Hj Hi Hp). done.
  - intros Hjn. exists pl. split; [done|]. apply list_elem_of_lookup. exists j. apply lookup_take_Some. by split.
Qed.

(** The schema of the place of an index. *)
Definition schema_at (j : nat) : json N :=
  match L !! j with Some pl => schema_of kept_paths (pl_path pl) (pl_value pl) | None => JNull end.

Lemma schema_at_kid j pl i c : L !! j = Some pl -> children (pl_value pl) !! i = Some c ->
  schema_at (first_child j + i) = schema_of kept_paths (pl_path pl ++ [i]) c.2
  /\ (pl_path pl ++ [i] ∈ kept_paths <-> (i < n - first_child j)%nat)
  /\ (j < first_child j + i)%nat.
Proof.
  intros Hj Hi. assert (Hk : L !! (first_child j + i)%nat = Some (kid pl i c))
    by (apply (kid_lookup v j pl); [done|]; unfold kids; by rewrite list_lookup_imap, Hi).
  split_and!.
  - unfold schema_at. by rewrite Hk.
  - change (pl_path pl ++ [i]) with (pl_path (kid pl i c)). rewrite (elem_of_kept _ _ Hk). lia.
  - pose proof (first_child_after j (lookup_lt_Some _ _ _ Hj)). lia.
Qed.

Lemma render_spec fuel j : (j < n)%nat -> (n - j <= fuel)%nat ->
  render_schema_node from_usize to_string fuel (arena v n) j = Done (schema_at j).
Proof.
  revert j. induction fuel as [|fuel IH]; intros j Hj Hfuel; [lia|]. cbn [render_schema_node].
  destruct (lookup_lt_is_Some_2 L j ltac:(lia)) as [pl Hpl].
  rewrite (arena_lookup v n j pl) by done. unfold schema_at. rewrite Hpl. unfold node_for. cbn [node_kind].
  pose proof (schema_at_kid j pl) as Hkid. remember (first_child j) as s eqn:Hfc. clear Hfc.
  destruct (pl_value pl) as [| | | |values|members] eqn:Hv; cbn [schema_of]; try done.
  - assert (Hitem : forall i x, values !! i = Some x -> schema_at (s + i) = schema_of kept_paths (pl_path pl ++ [i]) x
      /\ (pl_path pl ++ [i] ∈ kept_paths <-> (i < n - s)%nat) /\ (j < s + i)%nat).
    { intros i x Hx. apply (Hkid i (Item, x) Hpl). cbn. by rewrite list_lookup_fmap, Hx. }
    rewrite (run_map_done _ schema_at).
    2: { intros id Hid. apply elem_of_seq in Hid. destruct (lookup_lt_is_Some_2 values (id - s) ltac:(lia)) as [x Hx].
         destruct (Hitem _ _ Hx) as (_ & _ & Hlt). apply IH; lia. }
    cbn [run_bind]. enough (map schema_at (seq s ((n - s) `min` length values))
      = kept_items kept_paths (pl_path pl) (schema_of kept_paths) 0 values) as -> by done.
    rewrite (kept_items_take _ _ _ _ 0 (n - s)).
    2: { intros i Hi. destruct (lookup_lt_is_Some_2 values i Hi) as [x Hx]. by apply (Hitem i x). }
    apply list_eq. intros i. rewrite list_lookup_fmap, list_lookup_imap.
    destruct (decide (i < n - s)%nat) as [Hin|Hout].
    + rewrite lookup_take_lt by done. destruct (values !! i) as [x|] eqn:Hx.
      * rewrite lookup_seq_lt by (apply lookup_lt_Some in Hx; lia). cbn. f_equal. by apply Hitem.
      * rewrite lookup_seq_ge by (apply lookup_ge_None in Hx; lia). done.
    + rewrite lookup_seq_ge, lookup_take_ge by lia. done.
  - assert (Hitem : forall i m, members !! i = Some m -> schema_at (s + i) = schema_of kept_paths (pl_path pl ++ [i]) m.2
      /\ (pl_path pl ++ [i] ∈ kept_paths <-> (i < n - s)%nat) /\ (j < s + i)%nat).
    { intros i m Hm. apply (Hkid i (Key m.1, m.2) Hpl). cbn. by rewrite list_lookup_fmap, Hm. }
    rewrite (run_map_done _ (fun b => (b.1, schema_at b.2))).
    2: { intros [key id] Hid. unfold object_children in Hid. fold (btree_of (imap (fun i member => (member.1, s + i)%nat) (take (n - s) members))) in Hid.
         apply elem_of_btree_of, list_elem_of_lookup in Hid as [i Hi]. rewrite list_lookup_imap in Hi.
         destruct (take (n - s) members !! i) as [m|] eqn:Hm; [|done].
         change (Some (m.1, (s + i)%nat) = Some (key, id)) in Hi. injection Hi as <- <-.
         apply lookup_take_Some in Hm as [Hm Hin]. destruct (Hitem _ _ Hm) as (_ & _ & Hlt).
         cbv beta iota. rewrite (IH (s + i)%nat); [done|lia|lia]. }
    cbn [run_bind]. unfold object_children. fold (btree_of (imap (fun i member => (member.1, s + i)%nat) (take (n - s) members))).
    rewrite btree_of_map. rewrite map_inserts_fresh by (apply btree_wf_keys, btree_of_wf).
    cbn [app].
    enough (map (fun b => (b.1, schema_at b.2)) (imap (fun i member => (member.1, s + i)%nat) (take (n - s) members))
      = kept_items kept_paths (pl_path pl) (fun p m => (m.1, schema_of kept_paths p m.2)) 0 members) as -> by done.
    rewrite (kept_items_take _ _ _ _ 0 (n - s)).
    2: { intros i Hi. destruct (lookup_lt_is_Some_2 members i Hi) as [m Hm]. by apply (Hitem i m). }
    apply list_eq. intros i. rewrite list_lookup_fmap, !list_lookup_imap.
    destruct (take (n - s) members !! i) as [m|] eqn:Hm; [|done].
    apply lookup_take_Some in Hm as [Hm _].
    destruct (Hitem _ _ Hm) as [Hat _]. unfold compose. cbn [fmap option_fmap option_map fst snd]. by rewrite Hat.
Qed.
End Render.
(** ** The schema without a bound *)
Fixpoint full_schema (value : json N) : json N :=
  match value with
  | JObject members =>
    let properties := btree_of (map (fun m => (m.1, full_schema m.2)) members) in
    JObject [type_entry "object"; (lit "properties", JObject properties)]
  | JArray values =>
    let unique := fold_left (fun unique schema => btree_or_insert (to_string schema) schema unique)
                    (map full_schema values) [] in
    JObject [type_entry "array"; (lit "count", JNumber (from_usize (len values))); (lit "items", schema_items unique)]
  | value => JObject [type_entry (json_type value)]
  end.

Lemma imap_const {A B} (f : nat -> A -> B) (g : A -> B) l :
  (forall i x, l !! i = Some x -> f i x = g x) -> imap f l = map g l.
Proof.
  intros Hf. apply list_eq. intros i. rewrite list_lookup_imap, list_lookup_fmap.
  destruct (l !! i) as [x|] eqn:Hx; [|done]. cbn. by rewrite (Hf i x).
Qed.

Lemma schema_of_all v kept : (forall pl, pl ∈ level_order v -> pl_path pl ∈ kept) ->
  schema_of kept [] v = full_schema v.
Proof.
  intros Hkept.
  enough (forall w j pl, level_order v !! j = Some pl -> pl_value pl = w ->
    schema_of kept (pl_path pl) w = full_schema w) as Hg by (by apply (Hg v 0%nat (root_place v)); [apply root_lookup|]).
  intros w. induction w as [w IH] using children_induction. intros j pl Hpl Hw.
  assert (Hkid : forall i c, children w !! i = Some c ->
    level_order v !! (first_child v j + i)%nat = Some (kid pl i c)).
  { intros i c Hc. apply (kid_lookup v j pl); [done|]. unfold kids. by rewrite list_lookup_imap, Hw, Hc. }
  assert (Hin : forall i c, children w !! i = Some c -> pl_path pl ++ [i] ∈ kept
    /\ schema_of kept (pl_path pl ++ [i]) c.2 = full_schema c.2).
  { intros i c Hc. pose proof (Hkid i c Hc) as Hk. split.
    - apply (Hkept (kid pl i c)). by eapply list_elem_of_lookup_2.
    - apply (IH c.1 c.2) with (j := (first_child v j + i)%nat) (pl := kid pl i c); [|done|done].
      destruct c. by eapply list_elem_of_lookup_2. }
  destruct w as [| | | |values|members]; cbn [schema_of full_schema]; try done; cbn [children] in Hin.
  - assert (Hx : forall i x, values !! i = Some x -> pl_path pl ++ [i] ∈ kept
      /\ schema_of kept (pl_path pl ++ [i]) x = full_schema x).
    { intros i x Hx. apply (Hin i (Item, x)). by rewrite list_lookup_fmap, Hx. }
    rewrite (kept_items_take _ _ _ _ 0 (length values)), firstn_all.
    2: { intros i Hi. destruct (lookup_lt_is_Some_2 values i Hi) as [x Hxi]. destruct (Hx i x Hxi). by split. }
    rewrite (imap_const _ full_schema); [done|]. intros i x Hxi. by apply Hx.
  - assert (Hx : forall i m, members !! i = Some m -> pl_path pl ++ [i] ∈ kept
      /\ schema_of kept (pl_path pl ++ [i]) m.2 = full_schema m.2).
    { intros i m Hm. apply (Hin i (Key m.1, m.2)). by rewrite list_lookup_fmap, Hm. }
    rewrite (kept_items_take _ _ _ _ 0 (length members)), firstn_all.
    2: { intros i Hi. destruct (lookup_lt_is_Some_2 members i Hi) as [m Hm]. destruct (Hx i m Hm). by split. }
    rewrite (imap_const _ (fun m => (m.1, full_schema m.2))); [done|]. intros i m Hm.
    destruct (Hx i m Hm) as [_ Hs]. cbn. by rewrite Hs.
Qed.

(** ** The bounded schema *)
Definition bounded_schema (v : json N) (max_items : Z) : json N :=
  let kept := map pl_path (take (Z.to_nat max_items) (level_order v)) in
  annotate from_usize (map (fun root => (root, tt)) (omitted_roots v (Z.to_nat max_items))) (schema_of kept [] v).

Lemma unit_bindings (om : list (str * ())) : om = map (fun root => (root, tt)) om.*1.
Proof. induction om as [|[r []] om IH]; cbn; [done|]. f_equal. exact IH. Qed.

Lemma build_bounded v max_items : json_wf v -> 0 < max_items ->
  build_schema_breadth_first from_usize to_string v max_items = Done (bounded_schema v max_items).
Proof.
  intros Hwf Hmax. unfold build_schema_breadth_first.
  destruct (build_spec v Hwf (Z.to_nat max_items) ltac:(lia)) as (b & Hb & Hnodes & Hom).
  rewrite Z2Nat.id in Hb by lia. rewrite Hb. cbn [run_bind].
  pose proof (level_order_length v) as Hl. pose proof (json_size_pos v). unfold len in Hl.
  rewrite Hnodes, arena_length by lia.
  rewrite (render_spec v (Z.to_nat max_items `min` length (level_order v))) by lia. cbn [run_bind].
  unfold bounded_schema. rewrite <-Hom, <-unit_bindings. do 2 f_equal. unfold schema_at. rewrite root_lookup.
  unfold kept_paths. do 2 f_equal. destruct (Nat.le_ge_cases (Z.to_nat max_items) (length (level_order v))).
  - by rewrite Nat.min_l.
  - rewrite Nat.min_r by done. by rewrite !firstn_all2 by lia.
Qed.

Lemma omitted_roots_nil (v : json N) n : omitted_roots v n = [] <-> (length (level_order v) <= n)%nat.
Proof.
  split; [|apply omitted_roots_none]. intros He. destruct (Nat.le_gt_cases (length (level_order v)) n) as [|Hlt]; [done|].
  destruct (lookup_lt_is_Some_2 (level_order v) n Hlt) as [pl Hpl].
  assert (Hin : pl_root pl ∈ omitted_roots v n).
  { unfold omitted_roots. rewrite elem_of_sort_dedup. apply list_elem_of_fmap_2, list_elem_of_lookup.
    exists O. by rewrite lookup_drop, Nat.add_0_r. }
  rewrite He in Hin. by apply elem_of_nil in Hin.
Qed.

(** C16: A schema is built breadth first.  For a value whose objects repeat no key
    and a positive bound, the arena construction neither panics nor fails to
    end, and its result is the recursive schema restricted to the first
    [max_items] values in breadth-first order.  The root carries a record of
    omissions exactly when the value has more than [max_items] nodes; the record
    counts the children of the root (an array counts as one) below which a value
    was omitted and names the first thirty-two of their pointers.  With enough
    items the result is the unrestricted schema. *)
Theorem schema_breadth_first v max_items : json_wf v -> 0 < max_items ->
  let kept := map pl_path (take (Z.to_nat max_items) (level_order v)) in
  let roots := sort_dedup (map pl_root (drop (Z.to_nat max_items) (level_order v))) in
  exists schema,
    build_schema_breadth_first from_usize to_string v max_items = Done schema
    /\ (json_size v <= max_items -> schema = full_schema v)
    /\ (max_items < json_size v -> roots <> [] /\ exists root_members,
          schema_of kept [] v = JObject root_members
          /\ schema = JObject (map_insert root_members (lit "x-leantoken-incomplete")
               (JObject [(lit "omitted_subtree_count", JNumber (from_usize (len roots)));
                         (lit "omitted_subtree_pointers", JArray (map JString (take 32 roots)))]))).
Proof.
  intros Hwf Hmax kept roots. exists (bounded_schema v max_items). split; [by apply build_bounded|].
  pose proof (level_order_length v) as Hl. unfold len in Hl.
  change roots with (omitted_roots v (Z.to_nat max_items)) in *. unfold bounded_schema. fold kept. split.
  - intros Hle. rewrite omitted_roots_none by lia. cbn [map annotate].
    apply schema_of_all. intros pl Hpl. subst kept. rewrite firstn_all2 by lia. by apply list_elem_of_fmap_2.
  - intros Hgt. pose proof (omitted_roots_nil v (Z.to_nat max_items)) as Hnil.
    set (rs := omitted_roots v (Z.to_nat max_items)) in *.
    assert (Hne : rs <> []) by (rewrite Hnil; lia). split; [done|].
    assert (exists members, schema_of kept [] v = JObject members) as [members Hm]
      by (destruct v; cbn [schema_of]; by eexists).
    exists members. split; [done|]. rewrite Hm. unfold annotate, omission_entry.
    destruct rs as [|r rs]; [done|]. cbn [map]. unfold len. cbn [length fst snd]. rewrite length_map.
    do 6 f_equal. change ((r, tt) :: map ?f rs) with (map f (r :: rs)).
    unfold MAX_SCHEMA_OMITTED_POINTERS. by rewrite firstn_map, map_map.
Qed.
End SchemaOf.
