(* ===== verification/JsonSchemaPage.v ===== *)
(** * The page of a schema

    The search for the largest schema within a token budget, with its memoized
    candidates: it never reads a candidate that was not measured, and what it
    returns fits. *)

From S2P Require Import Prelude Order Chars Store Json JsonFacts JsonKeys JsonSchema JsonLevels JsonSchemaCorrect.
Open Scope Z_scope.
Open Scope run_scope.

Section SchemaPage.
Context {N : Type}.
Variable from_usize : Z -> N.
Variable to_string : json N -> string.
Variable count : string -> Z.
Context (v : json N) (Hwf : json_wf v).

Abbreviation bounded := (bounded_schema from_usize to_string v).
Definition schema_tokens (n : Z) : Z := count (to_string (bounded n)).

Definition plan_ok (cache : gmap Z (json N * Z)) : Prop :=
  forall n measured, cache !! n = Some measured -> measured = (bounded n, schema_tokens n).

Lemma candidate_ok cache n : plan_ok cache -> 0 < n ->
  exists cache', candidate from_usize to_string count cache v n = Done (bounded n, schema_tokens n, cache')
    /\ plan_ok cache' /\ is_Some (cache' !! n) /\ forall m, is_Some (cache !! m) -> is_Some (cache' !! m).
Proof.
  intros Hc Hn. unfold candidate. destruct (cache !! n) as [measured|] eqn:Hm.
  - rewrite (Hc _ _ Hm). exists cache. by split_and!.
  - rewrite (build_bounded from_usize to_string v n Hwf Hn). cbn [run_bind]. eexists. split; [done|]. split_and!.
    + intros m measured [[<- <-]|[_ Hs]]%lookup_insert_Some; [done|by apply Hc].
    + by rewrite lookup_insert_eq.
    + intros m Hs. destruct (decide (n = m)) as [->|Hne]; [by rewrite lookup_insert_eq|by rewrite lookup_insert_ne].
Qed.

Lemma fit_schema_spec fuel max_tokens lower upper best cache :
  plan_ok cache -> is_Some (cache !! best) -> 1 <= lower <= upper + 1 -> upper < U64_MAX ->
  (best = lower - 1 \/ (best = 1 /\ lower = 1)) -> 1 <= best -> schema_tokens best <= max_tokens ->
  max_tokens < schema_tokens (upper + 1) -> schema_tokens 1 <= max_tokens -> upper + 1 - lower <= Z.of_nat fuel ->
  exists found cache',
    fit_schema from_usize to_string count fuel max_tokens v lower upper best (schema_tokens best) cache
    = Done (found, schema_tokens found, cache')
    /\ plan_ok cache' /\ is_Some (cache' !! found) /\ 1 <= found <= Z.max best upper
    /\ schema_tokens found <= max_tokens /\ max_tokens < schema_tokens (found + 1).
Proof.
  revert lower upper best cache. induction fuel as [|fuel IH];
    intros lower upper best cache Hc Hcached Hl Hu Hbest Hb1 Hfit Hover Hroot Hfuel; cbn [fit_schema];
    (destruct (Z.leb_spec lower upper) as [Hle|Hgt];
      [|exists best, cache; split_and!; [done|done|done|lia|lia|done|];
        destruct Hbest as [->|[-> ->]]; [by replace (lower - 1 + 1) with (upper + 1) by lia|];
        replace (upper + 1) with 1 in Hover by lia; lia]); [lia|].
  assert (Hdiv : 0 <= (upper - lower) / 2 <= upper - lower) by (Z.to_euclidean_division_equations; lia).
  assert (Hmid : u64_saturating_add lower (u64_saturating_sub upper lower / 2) = lower + (upper - lower) / 2).
  { rewrite u64_saturating_sub_exact by lia. apply u64_saturating_add_exact. lia. }
  rewrite Hmid. set (middle := lower + (upper - lower) / 2) in *.
  destruct (candidate_ok cache middle Hc ltac:(lia)) as (cache1 & -> & Hc1 & Hin1 & Hkeep). cbn [run_bind].
  destruct (Z.leb_spec (schema_tokens middle) max_tokens) as [Hok|Hno].
  - rewrite u64_saturating_add_exact by lia.
    destruct (IH (middle + 1) upper middle cache1) as (found & cache2 & -> & Hc2 & Hin2 & Hf & Hft & Hfo);
      try done; try lia.
    exists found, cache2. split_and!; [done|done|done|lia|lia|done|done].
  - rewrite u64_saturating_sub_exact by lia.
    destruct (IH lower (middle - 1) best cache1) as (found & cache2 & -> & Hc2 & Hin2 & Hf & Hft & Hfo);
      try done; try lia.
    + by apply Hkeep.
    + by replace (middle - 1 + 1) with middle by lia.
    + exists found, cache2. split_and!; [done|done|done|lia|lia|done|done].
Qed.

(** C26: The page of a schema query fits both budgets and cannot be extended.  For a
    value of fewer than [2^64] nodes whose objects repeat no key and positive
    limits: the query returns, without a panic.  Either the schema of the root
    alone exceeds the token limit, and the error names its tokens; or the page
    holds the breadth-first schema of its [returned_items], at most [max_items],
    within [max_tokens], its counts add up to the nodes of the value, it names a
    reason exactly when nodes are missing, and the schema of one item more
    exceeds a limit. *)
Theorem schema_page_fits max_items max_tokens : json_size v <= U64_MAX -> 0 < max_items ->
  exists outcome, project_schema_page from_usize to_string count v max_items max_tokens = Done outcome
    /\ match outcome with
       | Ok page =>
         let returned := schema_returned_items page in
         schema_value page = bounded returned
         /\ 1 <= returned <= Z.min (json_size v) max_items
         /\ schema_projected_tokens page = schema_tokens returned
         /\ schema_tokens returned <= max_tokens
         /\ schema_total_items page = json_size v
         /\ returned + schema_remaining_items page = json_size v
         /\ (schema_incomplete_reason page = None <-> returned = json_size v)
         /\ (schema_incomplete_reason page = Some MaxItems -> returned = max_items)
         /\ (returned = Z.min (json_size v) max_items \/ max_tokens < schema_tokens (returned + 1))
       | Err e => e = RequestLimitExceeded "one projected JSON item tokens" (schema_tokens 1) max_tokens
                  /\ max_tokens < schema_tokens 1
       end.
Proof.
  intros Hsize Hmax. unfold project_schema_page. pose proof (json_size_pos v) as Hpos.
  rewrite count_nodes_size, (Z.min_l (json_size v) U64_MAX) by lia.
  set (limit := Z.max (Z.min (json_size v) max_items) 1). assert (Hlimit : limit = Z.min (json_size v) max_items) by lia.
  assert (Hpage : forall returned cache, plan_ok cache -> is_Some (cache !! returned) -> 1 <= returned <= limit ->
    schema_tokens returned <= max_tokens -> (returned = limit \/ max_tokens < schema_tokens (returned + 1)) ->
    exists page, schema_page v limit returned (schema_tokens returned) cache = Done (Ok page)
      /\ schema_returned_items page = returned /\ schema_value page = bounded returned
      /\ schema_projected_tokens page = schema_tokens returned /\ schema_total_items page = json_size v
      /\ returned + schema_remaining_items page = json_size v
      /\ (schema_incomplete_reason page = None <-> returned = json_size v)
      /\ (schema_incomplete_reason page = Some MaxItems -> returned = max_items)).
  { intros returned cache Hc [measured Hm] Hr Hft Hnext. unfold schema_page. rewrite Hm, (Hc _ _ Hm).
    rewrite count_nodes_size, (Z.min_l (json_size v) U64_MAX) by lia. rewrite u64_saturating_sub_exact by lia.
    eexists. split; [done|]. cbn. split_and!; [done..|lia| |].
    - destruct (Z.ltb_spec 0 (json_size v - returned)); (split; [done || lia|done || lia]).
    - destruct (Z.ltb_spec 0 (json_size v - returned)); [|done].
      destruct (Z.ltb_spec returned limit); [done|lia]. }
  destruct (candidate_ok ∅ limit) as (cache1 & -> & Hc1 & Hin1 & _); [by intros ?? ?|lia|]. cbn [run_bind].
  destruct (Z.leb_spec (schema_tokens limit) max_tokens) as [Hok|Hno].
  - destruct (Hpage limit cache1) as (page & -> & Hr & Hrest); [done|done|lia|done|by left|].
    exists (Ok page). split; [done|]. rewrite Hr. destruct Hrest as (? & ? & ? & ? & ? & ?).
    split_and!; try done; [lia|lia|by left].
  - destruct (candidate_ok cache1 1 Hc1 ltac:(lia)) as (cache2 & -> & Hc2 & Hin2 & _). cbn [run_bind].
    destruct (Z.ltb_spec max_tokens (schema_tokens 1)) as [Hbig|Hsmall]; [by eexists|].
    assert (limit <> 1) by (intros Heq; rewrite Heq in Hno; lia).
    rewrite u64_saturating_sub_exact by lia.
    destruct (fit_schema_spec (Z.to_nat limit) max_tokens 1 (limit - 1) 1 cache2)
      as (found & cache3 & -> & Hc3 & Hin3 & Hf & Hft & Hfo); try done; try lia.
    { by replace (limit - 1 + 1) with limit by lia. }
    cbn [run_bind]. destruct (Hpage found cache3) as (page & -> & Hr & Hrest); [done|done|lia|done|by right|].
    exists (Ok page). split; [done|]. rewrite Hr. destruct Hrest as (? & ? & ? & ? & ? & ?).
    split_and!; try done; [lia|lia|by right].
Qed.
End SchemaPage.

Module Demo.
(** An object of an array of two different items, and a scalar. *)
Definition value : json Z :=
  JObject [(lit "items", JArray [JNumber 7; JObject [(lit "a", JNull)]]); (lit "ok", JBool true)].
Lemma value_wf : json_wf value.
Proof. split_and!; try done; cbn; repeat split; repeat constructor; set_solver. Qed.

Fixpoint print (v : json Z) : string :=
  match v with
  | JNull => "null"
  | JBool b => if b then "true" else "false"
  | JNumber n => "0"
  | JString s => String.string_of_list_ascii (map (fun c => Ascii.ascii_of_N (Z.to_N c)) s)
  | JArray values => String.append "[" (String.append (String.concat "," (map print values)) "]")
  | JObject members =>
    String.append "{" (String.append (String.concat "," (map (fun m =>
      String.append (String.string_of_list_ascii (map (fun c => Ascii.ascii_of_N (Z.to_N c)) m.1)) (print m.2)) members)) "}")
  end.

Lemma schema_breadth_first_witness :
  json_size value = 6
  /\ build_schema_breadth_first (fun n => n) print value 6 = Done (full_schema (fun n => n) print value)
  /\ exists schema, build_schema_breadth_first (fun n => n) print value 4 = Done schema
       /\ schema <> full_schema (fun n => n) print value.
Proof.
  split; [by vm_compute|]. split.
  - destruct (schema_breadth_first (fun n => n) print value 6 value_wf ltac:(by vm_compute))
      as (schema & Hb & Hfull & _). rewrite Hb. f_equal. apply Hfull. by vm_compute.
  - eexists. split; [by vm_compute|]. by vm_compute.
Defined.

Lemma schema_page_fits_witness :
  exists page, project_schema_page (fun n => n) print (fun s => Z.of_nat (String.length s)) value 6 110 = Done (Ok page)
    /\ schema_returned_items page + schema_remaining_items page = 6
    /\ schema_incomplete_reason page = Some MaxTokens.
Proof.
  destruct (schema_page_fits (fun n => n) print (fun s => Z.of_nat (String.length s)) value value_wf 6 110
    ltac:(by vm_compute) ltac:(by vm_compute)) as (outcome & Ho & Hout).
  destruct outcome as [page|e].
  - exists page. split; [exact Ho|]. split; [by destruct Hout as (_ & _ & _ & _ & _ & Hsum & _)|].
    revert Ho. vm_compute. by intros [= <-].
  - exfalso. revert Ho. by vm_compute.
Defined.
End Demo.
