(* ===== verification/Accounting.v ===== *)
(** * Token accounting of responses

    [src/src/services/accounting.rs] with [response_token_accounting],
    [strip_response_values], [ResponseBudget] and the MCP shapes of
    [src/src/tokens.rs], and [finalize_bounded_response] of
    [src/src/services.rs]: a response reports the tokens of its own serialized
    form, the numbers it reports included, and is refused above the ceiling of
    the call.

    Parameters: the serialization of a response by [serde], of a value by
    [serde_json], the tokenizer's count, and the results of the [rmcp] crate with
    the functions that build and serialize them. *)

From S2P Require Import Prelude Chars Store Json.
Open Scope Z_scope.
Open Scope store_scope.
Open Scope run_scope.

Definition MAX_ACCOUNTING_PASSES : nat := 64.
Definition RECEIPT_ID_RESPONSE_RESERVE : str :=
  lit "r0a1b2c3d4e5f60718293a4b5c6d7e8f901a2b3c4d5e6f708".
Definition RECEIPT_RESOURCE_PREFIX : str := lit "leantoken://receipt/v1/".

(** ** What a response has *)

(** The fields of [ResponseMeta] the accounting reads or writes. *)
Record ResponseMeta := mk_meta {
  source_tokens : Z;
  protocol_tokens : Z;
  path_and_metadata_tokens : Z;
  total_response_tokens : Z;
  receipt_id : option str;
  receipt_suppressed_exact : Z;
  receipt_suppressed_overlap : Z;
  receipt_near_duplicates : Z
}.

(** The trait [RetrievalResponse]: [meta_mut] reads and replaces the metadata. *)
Class RetrievalResponse (T : Type) := {
  meta : T -> ResponseMeta;
  set_meta : ResponseMeta -> T -> T;
  meta_set_meta : forall m r, meta (set_meta m r) = m;
  set_meta_twice : forall m m' r, set_meta m (set_meta m' r) = set_meta m r
}.

Record ResponseTokenAccounting := mk_accounting {
  acc_protocol_tokens : Z;
  acc_path_and_metadata_tokens : Z;
  acc_total_response_tokens : Z
}.
#[export] Instance accounting_eq_dec : EqDecision ResponseTokenAccounting.
Proof. solve_decision. Defined.

Inductive McpResponseMode := Dual | Text | Structured.
Inductive McpProtocolShape := Legacy | Modern.
Record McpResponseShape := mk_shape { mode : McpResponseMode; protocol : McpProtocolShape }.
Inductive ReceiptResourceDecoration := Omit | Include.

(** The members of [ServiceCallOptions] in use. *)
Record ServiceCallOptions := mk_options {
  max_response_tokens : option Z;
  receipt_resource_reserve : bool;
  mcp_response_shape : option McpResponseShape
}.

(** ** JSON values *)
Section Values.
Context {N : Type}.
Variable from_usize : Z -> N.

(** [strip_response_values]. *)
Fixpoint strip_response_values (value : json N) : json N :=
  match value with
  | JNull => JNull
  | JBool _ => JBool false
  | JNumber _ => JNumber (from_usize 0)
  | JString _ => JString []
  | JArray _ => JArray []
  | JObject members => JObject (map (fun m => (m.1, strip_response_values m.2)) members)
  end.

(** [Map::get], and [Map::remove] as the locked [serde_json] does it: the last
    member takes the place of the removed one. *)
Fixpoint map_get (m : list (str * json N)) (key : str) : option (json N) :=
  match m with
  | [] => None
  | (k, v) :: m => if bool_decide (k = key) then Some v else map_get m key
  end.
Fixpoint map_remove (m : list (str * json N)) (key : str) : list (str * json N) :=
  match m with
  | [] => []
  | (k, v) :: rest =>
    if bool_decide (k = key) then match last rest with
                                  | Some moved => moved :: removelast rest
                                  | None => []
                                  end
    else (k, v) :: map_remove rest key
  end.

(** [value.pointer("/meta/receipt_id").and_then(Value::as_str)]. *)
Definition receipt_id_of (value : json N) : option str :=
  match value with
  | JObject members =>
    match map_get members (lit "meta") with
    | Some (JObject meta) => match map_get meta (lit "receipt_id") with Some (JString id) => Some id | _ => None end
    | _ => None
    end
  | _ => None
  end.

(** [mcp::receipt_uri]. *)
Definition receipt_uri (receipt_id : str) : str := RECEIPT_RESOURCE_PREFIX ++ receipt_id.

(** The ["receipt_resource"] member of a decorated response. *)
Definition decorate (value : json N) : json N :=
  match receipt_id_of value, value with
  | Some id, JObject members =>
    JObject (map_insert members (lit "receipt_resource")
      (JObject [(lit "kind", JString (lit "retrieval_receipt")); (lit "id", JString id);
                (lit "uri", JString (receipt_uri id))]))
  | _, _ => value
  end.

(** ** MCP results *)
Context {Tool Server : Type}.
Variable value_string : json N -> string.
Variable tool_structured : json N -> Tool.
Variable tool_text : option string -> Tool.
Variable set_structured_content : json N -> Tool -> Tool.
Variable push_resource_link : str -> str -> Tool -> Tool.
Variable call_tool_result : Tool -> Server.
Variable strip_result_type_for_legacy_peer : Server -> Server.

(** [CallToolResult::success] of one text block is [tool_text (Some _)], of none [tool_text None]. *)
Definition build_mcp_tool_result (value : json N) (mode : McpResponseMode) : Tool :=
  match mode with
  | Dual => tool_structured value
  | Text => tool_text (Some (value_string value))
  | Structured => set_structured_content value (tool_text None)
  end.

Definition model_visible_mcp_tool_result (value : json N) (mode : McpResponseMode) : Tool :=
  let receipt_id := receipt_id_of value in
  let value := match value with
               | JObject members => JObject (map_remove members (lit "receipt_resource"))
               | _ => value
               end in
  let result := build_mcp_tool_result value mode in
  match receipt_id with
  | Some id => push_resource_link (receipt_uri id) (lit "retrieval_receipt") result
  | None => result
  end.

Definition model_visible_mcp_result (value : json N) (shape : McpResponseShape) : Server :=
  let result := call_tool_result (model_visible_mcp_tool_result value (mode shape)) in
  match protocol shape with
  | Legacy => strip_result_type_for_legacy_peer result
  | Modern => result
  end.

(** ** The accountant *)
Context {T : Type} `{RetrievalResponse T}.
Variable count : string -> Z.
Variable response_string : T -> option string.
Variable response_value : T -> option (json N).
Variable server_string : Server -> option string.
Variable server_value : Server -> option (json N).

(** A [serde_json::Error] becomes [Error::Json]. *)
Definition serialized {A} (r : option A) : result A :=
  match r with Some a => Ok a | None => Err (Json "serialization failed") end.

(** [response_token_accounting] of a payload with this text and this value. *)
Definition response_token_accounting (payload : option string) (value : option (json N)) (source : Z)
    : result ResponseTokenAccounting :=
  let* payload := serialized payload in
  let total := count payload in
  let* value := serialized value in
  let protocol_skeleton := strip_response_values value in
  let available_overhead := u64_saturating_sub total source in
  let protocol := Z.min (count (value_string protocol_skeleton)) available_overhead in
  Ok (mk_accounting protocol (u64_saturating_sub available_overhead protocol) total).

Definition accounting (response : T) (source : Z) (shape : option McpResponseShape)
    (receipt_resource : ReceiptResourceDecoration) : result ResponseTokenAccounting :=
  match shape, receipt_resource with
  | None, Omit => response_token_accounting (response_string response) (response_value response) source
  | None, Include =>
    let* value := serialized (response_value response) in
    let value := decorate value in
    response_token_accounting (Some (value_string value)) (Some value) source
  | Some shape, _ =>
    let* value := serialized (response_value response) in
    let result := model_visible_mcp_result value shape in
    response_token_accounting (server_string result) (server_value result) source
  end.

Definition set_accounting (a : ResponseTokenAccounting) (response : T) : T :=
  let m := meta response in
  set_meta (mk_meta (source_tokens m) (acc_protocol_tokens a) (acc_path_and_metadata_tokens a)
              (acc_total_response_tokens a) (receipt_id m) (receipt_suppressed_exact m)
              (receipt_suppressed_overlap m) (receipt_near_duplicates m)) response.
Definition reported (response : T) : ResponseTokenAccounting :=
  let m := meta response in
  mk_accounting (protocol_tokens m) (path_and_metadata_tokens m) (total_response_tokens m).

(** [max_by_key(total_response_tokens)]: the last of the greatest. *)
Definition max_total (first : ResponseTokenAccounting) (rest : list ResponseTokenAccounting) : ResponseTokenAccounting :=
  fold_left (fun best a =>
    if acc_total_response_tokens best <=? acc_total_response_tokens a then a else best) rest first.

(** The loop of [finalize_accounting], with the passes left. *)
Fixpoint accounting_passes (passes : nat) (observed : list ResponseTokenAccounting) (response : T) (source : Z)
    (shape : option McpResponseShape) (receipt_resource : ReceiptResourceDecoration) : result T :=
  match passes with
  | O => Err (ResponseAccountingInvariant "serialized response accounting did not reach a fixed point")
  | S passes =>
    let* a := accounting response source shape receipt_resource in
    if bool_decide (reported response = a) then Ok response
    else if bool_decide (a ∈ observed) then
      match observed ++ [a] with
      | first :: rest => Ok (set_accounting (max_total first rest) response)
      | [] => Ok response
      end
    else accounting_passes passes (observed ++ [a]) (set_accounting a response) source shape receipt_resource
  end.

Definition finalize_accounting (response : T) (source : Z) (shape : option McpResponseShape)
    (receipt_resource : ReceiptResourceDecoration) : result T :=
  accounting_passes MAX_ACCOUNTING_PASSES [] (set_accounting (mk_accounting 0 0 0) response) source shape
    receipt_resource.

Definition finalize_for (response : T) (shape : option McpResponseShape) : result T :=
  finalize_accounting response (source_tokens (meta response)) shape Omit.

Definition finalize_with_receipt_resource (response : T) (shape : option McpResponseShape) : result T :=
  match receipt_id (meta response) with
  | None => finalize_for response shape
  | Some _ => finalize_accounting response (source_tokens (meta response)) shape Include
  end.

Definition finalized_tokens_for (response : T) (shape : option McpResponseShape) : result Z :=
  let* sized := finalize_for response shape in Ok (total_response_tokens (meta sized)).
Definition finalized_tokens_with_receipt_resource (response : T) (shape : option McpResponseShape) : result Z :=
  let* sized := finalize_with_receipt_resource response shape in Ok (total_response_tokens (meta sized)).

Definition fits (response : T) (options : ServiceCallOptions) : result bool :=
  match max_response_tokens options with
  | None => Ok true
  | Some limit => let* tokens := finalized_tokens_for response (mcp_response_shape options) in Ok (tokens <=? limit)
  end.

Definition budget_exceeded (m : ResponseMeta) (provided minimum : Z) : error :=
  ResponseBudgetExceeded provided minimum minimum
    (mk_breakdown (total_response_tokens m) (source_tokens m) (protocol_tokens m) (path_and_metadata_tokens m)
       (u64_saturating_sub minimum (total_response_tokens m))).

Definition budget_error (response : T) (provided : Z) (options : ServiceCallOptions) : result error :=
  let* mandatory := finalize_for response (mcp_response_shape options) in
  Ok (budget_exceeded (meta mandatory) provided (total_response_tokens (meta mandatory))).

(** The same sizes with room for the longest receipt metadata. *)
Definition finalized_tokens_with_receipt_reserve (response : T) (returned_items : Z) (options : ServiceCallOptions)
    : result Z :=
  let m := meta response in
  let id := match receipt_id m with Some id => id | None => RECEIPT_ID_RESPONSE_RESERVE end in
  let sized := set_meta (mk_meta (source_tokens m) (protocol_tokens m) (path_and_metadata_tokens m)
                 (total_response_tokens m) (Some id) returned_items returned_items returned_items) response in
  let* sized := finalize_with_receipt_resource sized (mcp_response_shape options) in
  Ok (total_response_tokens (meta sized)).
Definition fits_with_receipt_reserve (response : T) (returned_items : Z) (options : ServiceCallOptions) : result bool :=
  match max_response_tokens options with
  | None => Ok true
  | Some limit =>
    let* tokens := finalized_tokens_with_receipt_reserve response returned_items options in Ok (tokens <=? limit)
  end.
Definition budget_error_with_receipt_reserve (response : T) (returned_items provided : Z)
    (options : ServiceCallOptions) : result error :=
  let* minimum := finalized_tokens_with_receipt_reserve response returned_items options in
  let* mandatory := finalize_for response (mcp_response_shape options) in
  Ok (budget_exceeded (meta mandatory) provided minimum).

Definition finalize_bounded (response : T) (options : ServiceCallOptions) : result T :=
  let* response := finalize_for response (mcp_response_shape options) in
  match max_response_tokens options with
  | Some limit =>
    if limit <? total_response_tokens (meta response)
    then Err (budget_exceeded (meta response) limit (total_response_tokens (meta response)))
    else Ok response
  | None => Ok response
  end.

(** [Services::finalize_bounded_response]. *)
Definition finalize_bounded_response (response : T) (options : ServiceCallOptions) : result T :=
  if receipt_resource_reserve options then
    let* (response, reserved) :=
      match mcp_response_shape options with
      | Some shape =>
        let* response := finalize_with_receipt_resource response (Some shape) in
        Ok (response, total_response_tokens (meta response))
      | None =>
        let* reserved := finalized_tokens_with_receipt_resource response None in
        let* response := finalize_for response None in
        Ok (response, reserved)
      end in
    match max_response_tokens options with
    | Some limit =>
      if limit <? reserved then Err (budget_exceeded (meta response) limit reserved) else Ok response
    | None => Ok response
    end
  else finalize_bounded response options.
End Values.

(** ** [ResponseBudget::largest_fitting_prefix] *)
Fixpoint fitting_loop (fuel : nat) (max_tokens : Z) (count_prefix : Z -> result Z) (lower upper : Z)
    (best : option Z) : run (result (option Z)) :=
  if lower <=? upper then
    match fuel with
    | O => NoFuel
    | S fuel =>
      let middle := lower + (upper - lower) / 2 in
      match count_prefix middle with
      | Err e => Done (Err e)
      | Ok tokens =>
        if tokens <=? max_tokens
        then fitting_loop fuel max_tokens count_prefix (u64_saturating_add middle 1) upper (Some middle)
        else if middle =? 0 then Done (Ok best)
        else fitting_loop fuel max_tokens count_prefix lower (middle - 1) best
      end
    end
  else Done (Ok best).
Definition largest_fitting_prefix (max_tokens item_count : Z) (count_prefix : Z -> result Z) : run (result (option Z)) :=
  fitting_loop (S (Z.to_nat item_count)) max_tokens count_prefix 0 item_count None.
