(* ===== verification/AccountingFacts.v ===== *)
(** * Responses stay within their ceiling

    The number a response reports bounds the tokens of its own serialized form,
    also when the self-referential count does not reach a fixed point; so a
    response that is returned fits the ceiling of the call, and the ceiling an
    error asks for is one the call succeeds with. *)

From S2P Require Import Prelude Chars Store Json Accounting.
From stdpp Require Import pretty.
Open Scope Z_scope.
Open Scope store_scope.
Open Scope run_scope.

Section Facts.
Context {N : Type} (from_usize : Z -> N) {Tool Server : Type}.
Context (value_string : json N -> string) (tool_structured : json N -> Tool) (tool_text : option string -> Tool)
  (set_structured_content : json N -> Tool -> Tool) (push_resource_link : str -> str -> Tool -> Tool)
  (call_tool_result : Tool -> Server) (strip_result_type : Server -> Server).
Context {T : Type} `{RetrievalResponse T}.
Context (count : string -> Z) (Hcount : forall s, 0 <= count s).
Context (response_string : T -> option string) (response_value : T -> option (json N))
  (server_string : Server -> option string) (server_value : Server -> option (json N)).
Implicit Types response : T.

Abbreviation visible value shape :=
  (model_visible_mcp_result value_string tool_structured tool_text set_structured_content push_resource_link
     call_tool_result strip_result_type value shape).
Abbreviation accounting :=
  (accounting from_usize value_string tool_structured tool_text set_structured_content push_resource_link
     call_tool_result strip_result_type count response_string response_value server_string server_value).
Abbreviation passes :=
  (accounting_passes from_usize value_string tool_structured tool_text set_structured_content push_resource_link
     call_tool_result strip_result_type count response_string response_value server_string server_value).
Abbreviation finalize :=
  (finalize_accounting from_usize value_string tool_structured tool_text set_structured_content push_resource_link
     call_tool_result strip_result_type count response_string response_value server_string server_value).
Abbreviation finalize_bounded_response :=
  (finalize_bounded_response from_usize value_string tool_structured tool_text set_structured_content
     push_resource_link call_tool_result strip_result_type count response_string response_value server_string
     server_value).

(** ** The loop *)
Lemma set_accounting_twice a b response : set_accounting a (set_accounting b response) = set_accounting a response.
Proof. unfold set_accounting. by rewrite meta_set_meta, set_meta_twice. Qed.
Lemma reported_set a response : reported (set_accounting a response) = a.
Proof. unfold reported, set_accounting. rewrite meta_set_meta. by destruct a. Qed.
Lemma source_set a response : source_tokens (meta (set_accounting a response)) = source_tokens (meta response).
Proof. unfold set_accounting. by rewrite meta_set_meta. Qed.

Lemma max_total_spec first rest :
  max_total first rest ∈ first :: rest
  /\ forall a, a ∈ first :: rest -> acc_total_response_tokens a <= acc_total_response_tokens (max_total first rest).
Proof.
  unfold max_total. revert first. induction rest as [|b rest IH]; intros first; cbn [fold_left].
  { split; [by left|]. by intros a ->%list_elem_of_singleton. }
  destruct (Z.leb_spec (acc_total_response_tokens first) (acc_total_response_tokens b)) as [Hle|Hgt].
  - destruct (IH b) as [Hin Hmax]. split; [by right|]. intros a [->|Ha]%elem_of_cons; [|by apply Hmax].
    pose proof (Hmax b ltac:(by left)). lia.
  - destruct (IH first) as [Hin Hmax]. split.
    + apply elem_of_cons in Hin as [->|Hin]; [by left|]. by right; right.
    + intros a [->|[->|Ha]%elem_of_cons]%elem_of_cons; [apply Hmax; by left| |by apply Hmax; right].
      pose proof (Hmax first ltac:(by left)). lia.
Qed.

(** What was observed: each accounting follows from the one before, the last
    one is the state of the response. *)
Inductive trace (response : T) (source : Z) (shape : option McpResponseShape) (dec : ReceiptResourceDecoration)
    : ResponseTokenAccounting -> list ResponseTokenAccounting -> Prop :=
| trace_nil start : trace response source shape dec start []
| trace_snoc start observed state a :
    trace response source shape dec start observed -> last (start :: observed) = Some state ->
    accounting (set_accounting state response) source shape dec = Ok a ->
    trace response source shape dec start (observed ++ [a]).

Lemma trace_next response source shape dec start observed a b : trace response source shape dec start observed ->
  a ∈ observed -> last observed = Some b ->
  a = b \/ exists c, c ∈ observed /\ accounting (set_accounting a response) source shape dec = Ok c.
Proof.
  intros Htrace. revert a b. induction Htrace as [|start observed state c Htrace IH Hlast Hc]; intros a b Ha Hb;
    [by apply elem_of_nil in Ha|].
  rewrite last_snoc in Hb. injection Hb as <-.
  apply elem_of_app in Ha as [Ha|Ha%list_elem_of_singleton]; [|by left]. right.
  destruct observed as [|o observed]; [by apply elem_of_nil in Ha|].
  change (last (start :: o :: observed)) with (last (o :: observed)) in Hlast.
  destruct (IH a state Ha Hlast) as [->|(d & Hd & Hacc)].
  - exists c. split; [apply elem_of_app; right; by left|done].
  - exists d. split; [apply elem_of_app; by left|done].
Qed.
Lemma trace_elem response source shape dec start observed a : trace response source shape dec start observed ->
  a ∈ observed -> exists state, accounting (set_accounting state response) source shape dec = Ok a.
Proof.
  induction 1 as [|start observed state c Htrace IH Hlast Hc]; [by intros ?%elem_of_nil|].
  intros [Ha| ->%list_elem_of_singleton]%elem_of_app; [by apply IH|by exists state].
Qed.

Lemma passes_ceiling n response source shape dec start observed state response' :
  trace response source shape dec start observed -> last (start :: observed) = Some state ->
  passes n observed (set_accounting state response) source shape dec = Ok response' ->
  exists final a, response' = set_accounting final response
    /\ accounting response' source shape dec = Ok a
    /\ acc_total_response_tokens a <= acc_total_response_tokens final
    /\ exists from, accounting (set_accounting from response) source shape dec = Ok final.
Proof.
  revert observed state. induction n as [|n IH]; intros observed state Htrace Hlast; cbn [accounting_passes]; [done|].
  destruct (accounting (set_accounting state response) source shape dec) as [a|e] eqn:Ha; cbn [result_bind]; [|done].
  case_bool_decide as Hfix.
  { intros [= <-]. rewrite reported_set in Hfix. subst a. exists state, state. split_and!; [done|done|done|].
    by exists state. }
  assert (Htrace' : trace response source shape dec start (observed ++ [a])) by by econstructor.
  case_bool_decide as Hseen.
  - destruct (observed ++ [a]) as [|first rest] eqn:Eo; [by destruct observed|]. intros [= <-].
    destruct (max_total_spec first rest) as [Hin Hmax]. set (final := max_total first rest) in *.
    rewrite set_accounting_twice. rewrite <-Eo in Hin, Hmax, Htrace'. exists final.
    assert (Hnext : exists c, c ∈ observed ++ [a] /\ accounting (set_accounting final response) source shape dec = Ok c).
    { destruct (trace_next _ _ _ _ _ _ final a Htrace' Hin) as [->|Hc]; [by rewrite last_snoc| |done].
      destruct observed as [|o observed]; [by apply elem_of_nil in Hseen|].
      change (last (start :: o :: observed)) with (last (o :: observed)) in Hlast.
      destruct (trace_next _ _ _ _ _ _ a state Htrace Hseen Hlast) as [->|(c & Hc & Hacc)].
      - exists state. split; [apply elem_of_app; by left|done].
      - exists c. split; [apply elem_of_app; by left|done]. }
    destruct Hnext as (c & Hc & Hacc). exists c. split_and!; [done|done|by apply Hmax|].
    by eapply trace_elem.
  - intros Hpasses. rewrite set_accounting_twice in Hpasses.
    apply (IH (observed ++ [a]) a Htrace'); [|done].
    change (start :: observed ++ [a]) with ((start :: observed) ++ [a]). by rewrite last_snoc.
Qed.

Lemma finalize_ceiling response source shape dec response' : finalize response source shape dec = Ok response' ->
  exists final a, response' = set_accounting final response
    /\ accounting response' source shape dec = Ok a
    /\ acc_total_response_tokens a <= acc_total_response_tokens final
    /\ exists from, accounting (set_accounting from response) source shape dec = Ok final.
Proof.
  unfold finalize_accounting. intros Hp. eapply passes_ceiling; [apply trace_nil| |exact Hp]. done.
Qed.

(** ** What is reported *)

(** The tokens of what a caller sees of a response. *)
Definition visible_tokens response (shape : option McpResponseShape) : option Z :=
  match shape with
  | None => count <$> response_string response
  | Some shape =>
    match response_value response with
    | Some value => count <$> server_string (visible value shape)
    | None => None
    end
  end.

Lemma accounting_visible response source shape dec a :
  (dec = Omit \/ shape <> None) -> accounting response source shape dec = Ok a ->
  visible_tokens response shape = Some (acc_total_response_tokens a).
Proof.
  intros Hdec. unfold Accounting.accounting, visible_tokens, response_token_accounting, serialized.
  destruct shape as [shape|].
  - destruct (response_value response) as [value|]; [|done]. cbn [result_bind].
    destruct (server_string _) as [s|]; [|done]. cbn [result_bind].
    destruct (server_value _) as [sv|]; [|done]. by intros [= <-].
  - destruct dec; [|by destruct Hdec]. destruct (response_string response) as [s|]; [|done]. cbn [result_bind].
    destruct (response_value response) as [sv|]; [|done]. by intros [= <-].
Qed.

(** The three reported numbers add up with the source to the total, or to the
    source when that is larger. *)
Lemma response_token_accounting_sum payload value source a : 0 <= source ->
  response_token_accounting from_usize value_string count payload value source = Ok a ->
  source + acc_protocol_tokens a + acc_path_and_metadata_tokens a = Z.max (acc_total_response_tokens a) source
  /\ 0 <= acc_protocol_tokens a /\ 0 <= acc_path_and_metadata_tokens a.
Proof.
  intros Hs. unfold response_token_accounting. destruct (serialized payload) as [s|]; [|done]. cbn [result_bind].
  destruct (serialized value) as [w|]; [|done]. intros [= <-]. cbn. pose proof (Hcount s).
  pose proof (Hcount (value_string (strip_response_values from_usize w))). unfold u64_saturating_sub. lia.
Qed.
Lemma accounting_sum response source shape dec a : 0 <= source -> accounting response source shape dec = Ok a ->
  source + acc_protocol_tokens a + acc_path_and_metadata_tokens a = Z.max (acc_total_response_tokens a) source
  /\ 0 <= acc_protocol_tokens a /\ 0 <= acc_path_and_metadata_tokens a.
Proof.
  intros Hs. unfold Accounting.accounting. destruct shape as [shape|], dec;
    try apply (response_token_accounting_sum _ _ _ _ Hs);
    (destruct (serialized (response_value response)) as [v|]; [|done]); cbn [result_bind];
    apply (response_token_accounting_sum _ _ _ _ Hs).
Qed.

(** ** Errors other than the budget's *)
Definition not_budget (e : error) : Prop := forall p m r b, e <> ResponseBudgetExceeded p m r b.

Lemma response_token_accounting_error payload value source e :
  response_token_accounting from_usize value_string count payload value source = Err e -> not_budget e.
Proof.
  unfold response_token_accounting, serialized, not_budget. destruct payload; [|by intros [= <-]]. cbn [result_bind].
  destruct value; [done|by intros [= <-]].
Qed.
Lemma accounting_error response source shape dec e : accounting response source shape dec = Err e -> not_budget e.
Proof.
  unfold Accounting.accounting. destruct shape as [shape|], dec; try apply response_token_accounting_error;
    unfold serialized at 1; (destruct (response_value response); [|by intros [= <-] ?]); cbn [result_bind];
    apply response_token_accounting_error.
Qed.
Lemma finalize_error response source shape dec e : finalize response source shape dec = Err e -> not_budget e.
Proof.
  unfold finalize_accounting. generalize (set_accounting (mk_accounting 0 0 0) response), (@nil ResponseTokenAccounting).
  induction MAX_ACCOUNTING_PASSES as [|n IH]; intros r observed; cbn [accounting_passes]; [by intros [= <-] ?|].
  destruct (accounting r source shape dec) as [a|e'] eqn:Ha; cbn [result_bind].
  - case_bool_decide; [done|]. case_bool_decide; [|apply IH]. by destruct (observed ++ [a]).
  - intros [= ->]. by eapply accounting_error.
Qed.
(** ** The ceiling of a call *)
Definition with_ceiling (options : ServiceCallOptions) (limit : Z) : ServiceCallOptions :=
  mk_options (Some limit) (receipt_resource_reserve options) (mcp_response_shape options).

(** How [finalize_bounded_response] ends, given its two finalizations. *)
Lemma bounded_cases response options :
  receipt_resource_reserve options = false \/ mcp_response_shape options <> None ->
  exists dec,
    (dec = Omit \/ mcp_response_shape options <> None)
    /\ forall limit, finalize_bounded_response response (with_ceiling options limit)
       = let* response := finalize response (source_tokens (meta response)) (mcp_response_shape options) dec in
         let total := total_response_tokens (meta response) in
         if limit <? total then Err (budget_exceeded (meta response) limit total) else Ok response.
Proof.
  intros Hoptions. unfold Accounting.finalize_bounded_response, with_ceiling. cbn [receipt_resource_reserve
    mcp_response_shape max_response_tokens].
  destruct (receipt_resource_reserve options) eqn:Hr.
  - destruct (mcp_response_shape options) as [shape|] eqn:Hshape; [|by destruct Hoptions].
    unfold finalize_with_receipt_resource, finalize_for. destruct (receipt_id (meta response)).
    + exists Include. split; [by right|]. by destruct (finalize _ _ _ _).
    + exists Omit. split; [by left|]. by destruct (finalize _ _ _ _).
  - exists Omit. split; [by left|]. unfold finalize_bounded, finalize_for. cbn [mcp_response_shape max_response_tokens].
    done.
Qed.

(** C14: A returned response is within the ceiling of its call.  For calls that
    reserve no receipt resource or are made over MCP, whatever the tokenizer:
    if a response is returned, the tokens of the form its caller sees, with the
    reported numbers in it, are at most its reported total, which is at most the
    ceiling; the response differs from the one that was finalized in its three
    reported numbers only, and those are never negative and account for the
    source tokens and the rest.  If the ceiling is exceeded, the error asks for
    more than was provided, and the same call with the ceiling it asks for
    returns a response.  Any other error does not depend on the ceiling. *)
Theorem response_within_ceiling response options limit :
  0 <= source_tokens (meta response) ->
  receipt_resource_reserve options = false \/ mcp_response_shape options <> None ->
  match finalize_bounded_response response (with_ceiling options limit) with
  | Ok response' =>
    (exists tokens, visible_tokens response' (mcp_response_shape options) = Some tokens
       /\ tokens <= total_response_tokens (meta response') <= limit)
    /\ (exists a, response' = set_accounting a response
         /\ 0 <= acc_protocol_tokens a /\ 0 <= acc_path_and_metadata_tokens a
         /\ source_tokens (meta response) + acc_protocol_tokens a + acc_path_and_metadata_tokens a
            = Z.max (acc_total_response_tokens a) (source_tokens (meta response)))
  | Err (ResponseBudgetExceeded provided minimum retry _) =>
    provided = limit /\ minimum = retry /\ limit < retry
    /\ exists response', finalize_bounded_response response (with_ceiling options retry) = Ok response'
  | Err e => forall other, finalize_bounded_response response (with_ceiling options other) = Err e
  end.
Proof.
  intros Hsource Hoptions. destruct (bounded_cases response options Hoptions) as (dec & Hdec & Hcases).
  rewrite Hcases. set (source := source_tokens (meta response)) in *.
  destruct (finalize response source (mcp_response_shape options) dec) as [response'|e] eqn:Hfinal; cbn [result_bind].
  - destruct (Z.ltb_spec limit (total_response_tokens (meta response'))) as [Hover|Hfit].
    + unfold budget_exceeded. split_and!; [done|done|done|].
      exists response'. rewrite Hcases. cbn [result_bind]. by rewrite Z.ltb_irrefl.
    + destruct (finalize_ceiling _ _ _ _ _ Hfinal) as (final & a & -> & Ha & Hle & from & Hfrom). split.
      * exists (acc_total_response_tokens a). split; [by apply (accounting_visible _ source _ dec)|].
        unfold set_accounting in Hfit |- *. rewrite meta_set_meta in Hfit |- *. cbn [total_response_tokens] in *. lia.
      * exists final. split; [done|].
        destruct (accounting_sum _ _ _ _ _ Hsource Hfrom) as (Hsum & Hp & Hm). by split_and!.
  - pose proof (finalize_error _ _ _ _ _ Hfinal) as Hnot.
    assert (Hall : forall other, finalize_bounded_response response (with_ceiling options other) = Err e)
      by (intros other; by rewrite Hcases).
    destruct e; try exact Hall. by destruct (Hnot provided_max minimum_required retry_with_at_least breakdown).
Qed.
End Facts.

(** ** Fitting a prefix *)

(** The search ends; the prefix it returns fits and one item more does not, and
    when it returns none the empty prefix does not fit. *)
Lemma fitting_loop_spec fuel max_tokens (tokens : Z -> Z) total lower upper best :
  0 <= lower <= upper + 1 -> upper <= total < U64_MAX -> upper + 1 - lower <= Z.of_nat fuel ->
  match best with
  | Some found => found = lower - 1 /\ 0 <= found /\ tokens found <= max_tokens
  | None => lower = 0 /\ 0 <= upper
  end ->
  (upper = total \/ max_tokens < tokens (upper + 1)) ->
  exists outcome, fitting_loop fuel max_tokens (fun n => Ok (tokens n)) lower upper best = Done (Ok outcome)
    /\ match outcome with
       | Some found => 0 <= found <= total /\ tokens found <= max_tokens
                       /\ (found = total \/ max_tokens < tokens (found + 1))
       | None => best = None /\ max_tokens < tokens 0
       end.
Proof.
  revert lower upper best. induction fuel as [|fuel IH]; intros lower upper best Hl Hu Hfuel Hbest Hnext;
    cbn [fitting_loop]; (destruct (Z.leb_spec lower upper) as [Hle|Hgt];
      [|exists best; (split; [done|]); (destruct best as [found|]; [|lia]); destruct Hbest as (-> & Hf & Hfit);
        assert (lower = upper + 1) as -> by lia; (split_and!; [lia|lia|done|]);
        replace (upper + 1 - 1 + 1) with (upper + 1) by lia; destruct Hnext as [->|]; [left; lia|by right]]);
    [lia|].
  assert (0 <= (upper - lower) / 2 <= upper - lower) by (Z.to_euclidean_division_equations; lia).
  set (middle := lower + (upper - lower) / 2) in *.
  destruct (Z.leb_spec (tokens middle) max_tokens) as [Hok|Hno].
  - rewrite u64_saturating_add_exact by lia.
    destruct (IH (middle + 1) upper (Some middle)) as (outcome & -> & Hout);
      [lia|lia|lia|split_and!; [lia|lia|done]|done|]. exists outcome. split; [done|].
    destruct outcome; [done|]. by destruct Hout.
  - destruct (Z.eqb_spec middle 0) as [Hz|Hz].
    + exists best. split; [done|]. rewrite Hz in Hno. destruct best as [found|]; [lia|done].
    + destruct (IH lower (middle - 1) best) as (outcome & -> & Hout);
        [lia|lia|lia| |right; by replace (middle - 1 + 1) with middle by lia|by exists outcome].
      destruct best; [done|lia].
Qed.

(** Without any assumption of monotonicity: a prefix that is returned fits and
    cannot be extended by one item; when none is, not even the empty one fits. *)
Theorem largest_fitting_prefix_spec max_tokens item_count (tokens : Z -> Z) : 0 <= item_count < U64_MAX ->
  exists outcome, largest_fitting_prefix max_tokens item_count (fun n => Ok (tokens n)) = Done (Ok outcome)
    /\ match outcome with
       | Some found => 0 <= found <= item_count /\ tokens found <= max_tokens
                       /\ (found = item_count \/ max_tokens < tokens (found + 1))
       | None => max_tokens < tokens 0
       end.
Proof.
  intros Hitems. unfold largest_fitting_prefix.
  destruct (fitting_loop_spec (S (Z.to_nat item_count)) max_tokens tokens item_count 0 item_count None)
    as (outcome & Ho & Hout); [lia|lia|lia|lia|by left|].
  exists outcome. split; [done|]. destruct outcome; [done|apply Hout].
Qed.

Module Demo.
(** A response is its metadata and a body; its text ends with the reported total. *)
Definition response : Type := ResponseMeta * string.
#[export, refine] Instance demo_response : RetrievalResponse response :=
  {| meta := fst; set_meta m r := (m, r.2) |}.
Proof. - done. - done. Defined.

Definition text (r : response) : option string :=
  Some (String.append r.2 (pretty (Z.to_N (total_response_tokens (meta r))))).
Definition value (r : response) : option (json Z) :=
  Some (JObject [(lit "body", JString (lit r.2)); (lit "total", JNumber (total_response_tokens (meta r)))]).
Definition print (v : json Z) : string := "{body,total}".
Definition start : response := (mk_meta 5 0 0 0 None 0 0 0, "eight.."%string).

(** No MCP shape is used: the results of [rmcp] are the values themselves. *)
Abbreviation demo_finalize :=
  (finalize_bounded_response (Tool := json Z) (fun n => n) print (fun v => v) (fun _ => JNull) (fun _ r => r) (fun _ _ r => r) (fun r => r)
     (fun r => r) (fun s => Z.of_nat (String.length s)) text value (fun v => Some (print v)) (fun v => Some v)).

Lemma response_within_ceiling_witness :
  (exists r, demo_finalize start (mk_options (Some 9) false None) = Ok r
     /\ total_response_tokens (meta r) = 8
     /\ exists tokens, text r = Some tokens /\ Z.of_nat (String.length tokens) = 8)
  /\ exists retry breakdown,
       demo_finalize start (mk_options (Some 7) false None) = Err (ResponseBudgetExceeded 7 retry retry breakdown)
       /\ exists r, demo_finalize start (mk_options (Some retry) false None) = Ok r.
Proof.
  assert (Hcount : forall s : string, 0 <= Z.of_nat (String.length s)) by lia.
  assert (Hsource : 0 <= source_tokens (meta start)) by by vm_compute.
  split.
  - eexists. split; [by vm_compute|]. split; [by vm_compute|]. eexists. split; by vm_compute.
  - pose proof (response_within_ceiling (Tool := json Z) (fun n => n) print (fun v => v) (fun _ => JNull) (fun _ r => r)
      (fun _ _ r => r) (fun r => r) (fun r => r) (fun s => Z.of_nat (String.length s)) Hcount text value
      (fun v => Some (print v)) (fun v => Some v) start (mk_options None false None) 7 Hsource (or_introl eq_refl)) as Hw.
    unfold with_ceiling in Hw. cbn [receipt_resource_reserve mcp_response_shape] in Hw.
    destruct (demo_finalize start (mk_options (Some 7) false None)) as [r|e] eqn:He.
    + exfalso. revert He. by vm_compute.
    + destruct e; try (exfalso; revert He; by vm_compute).
      destruct Hw as (-> & -> & _ & Hretry). eexists _, _. split; [done|]. exact Hretry.
Defined.

(** A tokenizer for which no total is its own count: the count of a text that
    reports nine is ten and of one that reports ten is nine.  The larger total
    is reported. *)
Definition unstable (s : string) : Z := if bool_decide (s = "eight..9"%string) then 10 else 9.
Example cycle_reports_ceiling :
  exists r, finalize_bounded_response (Tool := json Z) (fun n => n) print (fun v => v) (fun _ => JNull) (fun _ r => r)
      (fun _ _ r => r) (fun r => r) (fun r => r) unstable text value (fun v => Some (print v)) (fun v => Some v)
      start (mk_options (Some 10) false None) = Ok r
    /\ total_response_tokens (meta r) = 10 /\ unstable (default "" (text r)) = 9.
Proof. eexists. split; [by vm_compute|]. by vm_compute. Qed.
End Demo.
